(* ===== verification/_CoqProject ===== *)
-Q . S2P
Prelude.v
BTree.v
F64.v
Packet.v
Device.v
AqlQueue.v
Pm4.v
AqlGraph.v
AqlGraphOk.v
AqlGraphClaims.v
AqlTwoQueue.v
AqlBlocks.v
AqlTwoQueueOk.v
AqlDerivedOk.v
AqlTwoQueueClaims.v
Ir.v
Identity.v
Recorder.v
Plan.v
PlanOrder.v
PlanCompile.v
Determinacy.v
AqlTrace.v
Replay.v
Fingerprint.v
Bindings.v
Selection.v
Visibility.v
VisibilityOk.v
Partition.v
Lanes.v
Pm4Exec.v
Pm4Build.v
Pm4Ok.v
Pm4Claims.v
Pm4Decode.v
Pm4DecodeClaims.v
AqlGeneric.v
AqlGenericOk.v
AqlGenericClaims.v
AqlPrepareClaims.v
AqlRing.v
AqlSubmit.v
AqlPm4.v
AqlPhased.v
AqlPm4Ok.v
AqlSubmitOk.v
AqlSession.v
AqlSessionOk.v
AqlSubmittable.v
AqlSessionClaims.v
AqlPm4Claims.v
AqlPm4Replay.v
AqlPhasedClaims.v
RailCopy.v
RailCopyOk.v
RailKernel.v
RailCopyRun.v
RailCopyClaims.v
RailKernels.v
RailKernelsOk.v
RailBoundary.v
RailBoundaryOk.v
RailAuthor.v
RailAuthorOk.v
RailSealed.v
RailSealedOk.v
RailWriter.v
RailWriterOk.v
RailSealedClaims.v
RailPlan.v
RailPlanOk.v
RailWindow.v
RailWindowOk.v
RailWindowBind.v
RailWindowRun.v
RailWindowClaims.v
SlotPool.v
SlotPoolOk.v
SlotPoolClaims.v
