(* ===== verification/Prelude.v ===== *)
(** * hipfire: verification of the dispatch core and the paged key-value memory

    hipfire runs language models on AMD GPUs.  Its Redline subsystem records a
    token's kernel launches once, compiles the recording into a plan, lowers the
    plan to packets for the GPU's queues, and replays them for every token with
    only the kernel arguments rewritten.  A missing barrier, a wrong register or
    a misplaced argument corrupts results silently, so this is the part the
    development models.  Its successor railgun describes a token as a program of
    certified copies and kernels, binds it to a window of positions and submits
    the window; its copy programs are modelled down to the device code.  Beside
    them stands the paged key-value memory of the sessions, which shares pages
    between them and copies on write.  The source files are below [src/crates/]:
    [rd/] stands for [redline-dispatch/src/], [rocr/] for [redline-rocr/src/],
    [rg/] for [railgun/src/] and [rc/] for [rdna-compute/src/].

    ** The program and its model

    - [Ir], [Identity]: [rd/ir.rs], [rd/identity.rs].  Identifiers, byte regions,
      accesses, launches, kernarg layouts, artifact identities.
    - [Recorder]: [rd/recorder.rs].  The builder of the dispatch graph;
      [recorder_resource], [recorder_region], [recorder_dispatch],
      [recorder_depends_on] are its methods, [path_exists] its cycle check.
    - [Plan]: [rd/plan.rs].  [plan_compile] is [CompiledPlan::compile]: kernel
      contracts, [topological_order], [reachability], [unordered_hazards],
      [schedule], terminals, [fingerprint].  Its facts are in [PlanOrder]
      and [PlanCompile].
    - [Replay]: [rd/backend.rs], [CompiledPlan::replay], [rd/mock.rs].  The trait
      [DispatchBackend] is a class; [plan_replay] is proved against it and the
      mock backend is an instance.
    - [Bindings]: [rd/bindings.rs].  Physical addresses for the logical resources,
      their validation, and the stamp of a prepared plan.
    - [Selection]: [rd/selection.rs].  Automatic backend choice and the cache of
      prepared plans.
    - [Visibility]: [rd/visibility.rs].  Barriers and fences of the packets of a
      plan; facts in [VisibilityOk].
    - [Partition], [Lanes]: [rd/partition.rs], [rd/lanes.rs],
      [rd/aql/queue_policy.rs].  Compute-unit partitions and queue counts.
    - [Packet]: [rocr/packet.rs].  AQL packets and their 64-byte images.
    - [Pm4]: [rocr/pm4.rs].  The PM4 command builder with register elision; a
      semantics of its streams is [Pm4Exec], its facts [Pm4Build], [Pm4Ok] and
      [Pm4Claims].
    - [Pm4Decode]: [rocr/pm4_decode.rs].  The strict decoder and encoder; facts
      in [Pm4DecodeClaims].
    - [AqlGeneric]: [rd/aql/generic.rs].  Lowering a plan onto two AQL queues;
      facts in [AqlGenericOk] and [AqlGenericClaims].
    - [Device]: parts of [rocr/runtime.rs].  Kernels, kernarg buffers and their
      allocation, launch limits; outcomes of HSA calls are parameters.
    - [AqlQueue]: what HSA queues do with packets (launch order, barrier bits,
      barrier-AND packets, completion signals); no code of the repository.
      [AqlTrace] adds completion orders and the memory that a run leaves, without
      caches and behind them.
    - [AqlGraph], [AqlTwoQueue]: [rd/aql/replay.rs].  The N-queue graph
      ([graph_create]) with facts in [AqlGraphOk] and [AqlGraphClaims]; the
      two-queue graphs ([phased_create], [serialized_create], [create_derived])
      with facts in [AqlBlocks] (batches as sequences of blocks),
      [AqlTwoQueueOk], [AqlDerivedOk] and [AqlTwoQueueClaims].
    - [AqlPrepareClaims]: the composition of compiler, visibility, lowering and graph
      ([prepare_internal] of [AqlGeneric]).
    - [AqlRing], [AqlSubmit]: [rocr/runtime.rs], [rd/aql/replay.rs].  The ring of
      a queue ([prepare_batch], [publish_batch], [ring], [inactivate]), the queue
      set of a graph, and [submit], [wait_internal], [cancel_internal] and the
      tickets of the graphs; facts in [AqlSubmitOk].
    - [AqlPm4]: [rd/aql/replay.rs].  [SingleQueuePm4Ib]: creation, the two walks
      over the retained dwords, [patch_dispatch_dimensions], replay in two halves
      ([replay_start] to the doorbell, [replay_finish] from the wait), [quiesce],
      timestamps.  [AqlPm4Ok] relates the walks to the packet stream of [Pm4Exec];
      [AqlPm4Claims] and [AqlPm4Replay] conclude.
    - [AqlPhased]: [PhasedMultiQueuePm4Ib] of the same file, for any stream type;
      facts in [AqlPhasedClaims].
    - [AqlSession]: sessions, in which these calls interleave with a device that
      reads the ring slots up to the doorbell.  [AqlSessionOk] has the invariant,
      [AqlSubmittable] shows that the graphs fit it, [AqlSessionClaims] concludes.
    - [RailCopy]: [rg/lib.rs], [rg/copy.rs].  Copy programs: formulas, [prepare]
      with its checks, table images, [effects] and launches.  [RailCopyOk] says
      what [prepare] makes; [RailKernel] is the device code of
      [src/kernels/src/railgun_copy.hip] as the moves of its threads;
      [RailCopyRun] runs prepared nodes on device memory, every launch in any
      interleaving of its loads and stores; [RailCopyClaims] concludes.
    - [RailKernels]: [rg/kernel.rs].  Kernel programs and [encode_kernarg_into],
      which writes the kernarg image of a node; facts in [RailKernelsOk].
    - [RailAuthor]: [rg/kernel.rs] and the records of [railgun-corpus/receipt.rs].
      Facts of a receipt ([from_record]) and the authoring of recorded launches
      ([author], one [author_arg] per argument).  [RailAuthorOk] has its invariant
      and concludes; it is the last file before the sealed positions because it
      uses the boundary plan.
    - [RailBoundary]: [rg/plan.rs] and the conditionals of [rg/kernel.rs].  The
      cache table with its receipts ([attach_receipts]), [add_conditional] and
      [bounded_while], the boundary plan ([boundary_plan], one [plan_step] per
      node) and the commands of a segment ([segment_ops]).  [RailBoundaryOk] has
      the invariant of the planner over every choice of dropped bodies, and
      concludes.
    - [RailSealed], [RailWriter]: [rg/index_bind.rs].  The sealed positions as a
      state machine ([host_check], [begin_upload], [complete_upload],
      [bind_writers], [mark_submitted], [finish], the lease, external writes), and
      the proof of the indexed writers ([bind_program]).  [RailSealedOk] has the
      system of clients, stages, device memory and announced writes with its
      invariant, [RailWriterOk] what an accepted writer satisfies;
      [RailSealedClaims] concludes.
    - [RailPlan], [RailWindow]: [rg/window.rs].  Window plans and their checks;
      prepared windows with [window_bind], the indexed witness, [window_submit],
      [submission_complete] and the cache.  [RailPlanOk] says what an accepted
      plan satisfies, [RailWindowOk] what a bind stages, [RailWindowBind] what it
      encodes and answers and what preparation gives; [RailWindowRun] lets
      clients use their tokens in any order and is about the cache;
      [RailWindowClaims] concludes.
    - [SlotPool]: [rc/page_pool.rs], [rc/slot_pool.rs], [rc/kv_slots.rs].  Pages
      with their references by class ([dec_table_ref], [add_cache_ref], ..),
      block tables ([ensure_capacity], [pool_share_prefix], ..), copy-on-write
      plans ([plan_cow], [commit_cow], [abort_cow]), deferred reclaim and
      [check_invariants]; the slots ([acquire], [release], [set_seq_len], ..) and
      their leases.  A product that overflows [usize] is a panic.  [SlotPoolOk]
      has the accounting invariant [pool_inv] of the pool; [SlotPoolClaims] lets
      sessions make these calls in any order ([World], [run_call]) and concludes.
    - [Prelude], [BTree], [F64]: results with panics, machine integers, vectors,
      byte encodings; [BTreeSet]/[BTreeMap] as sorted lists; [f64] as bits.

    The recorder feeds the compiler; a plan feeds replay, bindings, visibility
    and the AQL lowering; visibility's headers and the packed kernargs end up in
    packet images; the PM4 path lowers the same launches to one retained stream.

    ** How the code is rendered

    A function that can fail returns [result E A]; one that can also panic
    (indexing, [expect], arithmetic overflow) returns [exec E A] with a [Panic]
    outcome, or [option] when a panic is its only failure.  Theorems say where
    [Panic] cannot happen.  Methods with [&mut self] take and return the record.
    [u32], [u64] and registers are [Z] with explicit bounds, checks and
    wrap-around; vector indices are [nat].  Ordered collections keep their
    iteration order because it is observable (dependency lists, hash inputs).
    SHA-256 is a parameter; the only property ever assumed of it is that it does
    not collide on the two inputs at hand, in the theorem on fingerprints.

    ** What is shown

    - Recording and compiling: every recording is well-formed and acyclic;
      compiling returns, and yields a plan exactly when contracts hold and
      conflicting accesses are ordered; hazard reports are exact; the schedule
      respects dependencies and lanes ([Recorder], [PlanCompile]).
    - Meaning of a plan: any order that respects the dependencies gives the same
      memory ([Determinacy]); two conflicting dispatches are ordered at the level
      of device addresses once bindings are validated ([Bindings]); plans with
      one fingerprint are the same plan ([Fingerprint]).
    - Replay: any backend is driven as an abstract replay prescribes ([Replay]).
    - Barriers: in every interleaving of the queues a launched dispatch finds its
      prerequisites and conflicting predecessors complete ([VisibilityOk]).
    - PM4: the builder implements its operations, in every register-elision and
      pacing mode; dispatches program their kernels; the diagnostic walks and
      timestamp copies are exact ([Pm4Claims]); decoder and encoder are inverse
      and accept what the builder emits ([Pm4DecodeClaims]).
    - Lowering: phases follow the dependencies, kernargs hold exactly the
      recorded arguments ([AqlGenericClaims]); packet images read back as the
      fields they were built from ([Packet]).
    - Queues: in every interleaving of the queues of a recorded graph or a
      two-queue batch a launched dispatch finds its dependencies, or all earlier
      phases and tokens, complete; the queues never deadlock, and the final
      signal covers everything ([AqlGraphClaims], [AqlTwoQueueClaims]).
    - End to end: a prepared plan runs every dispatch once per token after
      everything it depends on or conflicts with, and a batch of [n] tokens
      leaves the memory of the plan run [n] times in order although kernels read
      through caches ([AqlPrepareClaims]).  In that memory ([cached_run]) stores
      land in the order of completion and a kernel sees one only along the release
      and acquire scopes of the packets; otherwise the byte reads as anything.
      What no packet has stored reads as the start memory: the acquire at entry
      and the host's view at exit are not part of it, and [first_packet_unacquired]
      is a queue whose first packet lacks that acquire.  Plans that need a fence
      between tokens but are not given one ([partial_cover_missed]) are excluded.
    - Retained buffers: what a buffer decodes to is what was recorded, a patch
      changes one dispatch, a replay that returns [Ok] has completed, and phases
      are ordered across queues ([AqlPm4Claims], [AqlPm4Replay],
      [AqlPhasedClaims]).
    - Sessions: publication fills exactly the free slots and never shows a torn
      packet ([AqlRing]); whatever the order of submissions, waits, cancellations
      and leaked tickets, nothing is reset or republished under a running batch,
      [Ok] proves quiescence, submissions complete, and the orders above hold for
      the packets in the rings ([AqlSessionClaims]).  Polling loops run on the
      list of values they observe, the last one at or after the deadline.
    - Copy programs: [prepare] never panics and accepts only what is in bounds
      and, within a batch, order independent; the kernels move every byte once;
      declared effects are the actual accesses; a program leaves the bytes its
      copies leave one at a time ([RailCopyClaims]).  Resources are assumed to
      be bound to disjoint allocations, and nodes to run one after the other.
    - Authoring: recorded launches always give a well-formed program (the
      hypothesis [program_wf] of the windows) whose images are the recorded
      kernargs; a node is lowered to PM4 only for a proven receipt, with every
      access of the receipt among its effects; and with the boundary plan,
      recorded kernels that conflict are ordered ([RailAuthorOk]).  Hidden
      arguments of one receipt are assumed not to meet, and arguments to have a
      size; [from_record] checks neither.
    - Boundaries: whatever conditional bodies a run drops, between two dispatches
      of a segment that conflict it issues a boundary that waits and acquires at
      inter-node scope, or for the system on the writer side, and what the row of
      the hazard asks unless another dependent row asks for less
      ([RailBoundaryOk]); [partial_receipts_uncovered] is a case of that.
    - Sealed positions: in every order of calls, transfers and announced writes,
      the rows a submitted window computes from the positions on the device are
      the rows that were proved in bounds, mapped and apart; a witness is spent by
      its submission ([RailSealedClaims]).  Clients write external memory only
      after announcing it, and an upload starts with the range inside the address
      space and no queued write that reaches it left out of the count, which
      [careful_counted] proves for clients that avoid the two recorded defects.
    - Windows: planning and preparing never panic and accept only what is in
      bounds; a bind answers on every input, a refusal leaves nothing that an
      old token could submit, and success fixes every patch, image, pointer and
      step; what a queue is given is what was bound, once, in the order of the
      generations, and is not touched while the queue may read it; the cache
      evicts only what is at rest ([RailWindowClaims]).  Literals, shapes and
      inputs are machine integers ([plan_typed], [shape_typed]), divisors are not
      zero, and programs are laid out as authoring lays them out ([program_wf],
      which [RailAuthorOk] proves).
    - Paged memory: in every order of calls the references of a page count the
      places that map or reserve it, no call panics, nothing leaks but the pages
      of a dropped plan, and the check of the accounting accepts; a write that is
      planned, copied and committed changes what its slot reads from there on and
      nothing else; leases of slots are accepted exactly until the next release
      ([SlotPoolClaims]).  Slots are in range, and a plan is aborted or refused
      only while nothing else references its destinations ([allowed]).
    ** Fuel

    Loops that are not structural take fuel, and every theorem that speaks of
    them shows the fuel suffices: the depth-first search of [path_exists] gets
    two more than the number of edges, since every step either pops an entry or
    visits a node whose edges are then used up; [topo_loop] gets one more than
    the number of nodes, one per popped node; the packet walks and the parser get
    the number of dwords, since every packet has at least two.

    ** Divergences found

    [AqlGenericClaims.refresh_misindexes] and [partial_cover_missed],
    [AqlTwoQueueClaims.single_dispatch_refused], [AqlPm4Replay.stale_proven],
    [Partition.saturated_sum_accepted], [Selection.remove_returns_poisoned],
    [no_runs_required], [RailSealedClaims.completion_unpaired] and [remap_wraps],
    [RailBoundaryOk.partial_receipts_uncovered],
    [SlotPoolClaims.commit_without_table_leaks], [abort_frees_leased],
    [commit_after_reallocation] and [attached_cache_only] exhibit inputs on which
    the code differs from its comments.

    ** Not modelled

    Device I/O: HSA and HIP calls ([rocr/runtime.rs], [rd/hip.rs]); what they
    hand out (handles, addresses, loader metadata, statuses, loaded words) is an
    argument.  The single-queue batch graph of [rd/aql/replay.rs].  The gfx10
    builder ([rocr/pm4_gfx10.rs]) and the constructors that use it.
    Of railgun, the shadow comparison ([rg/shadow.rs]) and the object format
    ([rg/mq6.rs]).
    Floating-point arithmetic other than comparisons.  Of [rdna-compute] only
    the paged memory is modelled; the rest wraps kernel launches.  Everything
    outside these crates: model code, the server, quantisation, tools. *)

From stdpp Require Export prelude numbers list option relations strings.
From Stdlib Require Export ZArith Lia Sorted.

#[global] Set Default Goal Selector "!".

(** ** Results

    [result E A] is Rust's [Result<A, E>].  [exec E A] is the outcome of code
    that can also panic: an index out of bounds, a failed [expect] or an
    arithmetic overflow.  Loops that are modelled with fuel produce [Panic]
    when the fuel runs out, so a theorem that excludes [Panic] also shows that
    the fuel is enough. *)

Inductive result (E A : Type) : Type :=
| Ok (a : A)
| Err (e : E).
Arguments Ok {E A} a.
Arguments Err {E A} e.

Inductive exec (E A : Type) : Type :=
| Done (a : A)
| Fail (e : E)
| Panic.
Arguments Done {E A} a.
Arguments Fail {E A} e.
Arguments Panic {E A}.

#[export] Instance result_eq_dec {E A} `{EqDecision E} `{EqDecision A} :
  EqDecision (result E A).
Proof. solve_decision. Defined.

#[export] Instance exec_eq_dec {E A} `{EqDecision E} `{EqDecision A} :
  EqDecision (exec E A).
Proof. solve_decision. Defined.

#[export] Instance result_ret {E} : MRet (result E) := λ _ a, Ok a.
#[export] Instance result_bind {E} : MBind (result E) := λ _ _ f r,
  match r with Ok a => f a | Err e => Err e end.

#[export] Instance exec_ret {E} : MRet (exec E) := λ _ a, Done a.
#[export] Instance exec_bind {E} : MBind (exec E) := λ _ _ f r,
  match r with Done a => f a | Fail e => Fail e | Panic => Panic end.

(** [Option::ok_or]. *)
Definition ok_or {E A} (o : option A) (e : E) : result E A :=
  match o with Some a => Ok a | None => Err e end.

(** [Result::map_err]. *)
Definition map_err {E E' A} (f : E → E') (r : result E A) : result E' A :=
  match r with Ok a => Ok a | Err e => Err (f e) end.

(** The two ways of entering [exec]: a fallible call followed by [?], and a
    partial operation whose failure is a panic. *)
Definition try_ {E A} (r : result E A) : exec E A :=
  match r with Ok a => Done a | Err e => Fail e end.
Definition unwrap {E A} (o : option A) : exec E A :=
  match o with Some a => Done a | None => Panic end.
Definition guard_ {E} (b : bool) (e : E) : result E unit :=
  if b then Err e else Ok tt.

Definition no_panic {E A} (x : exec E A) : Prop := x ≠ Panic.

Lemma bind_Ok_inv {E A B} (r : result E A) (f : A → result E B) b :
  (r ≫= f) = Ok b → ∃ a, r = Ok a ∧ f a = Ok b.
Proof. destruct r; simpl; naive_solver. Qed.

Lemma bind_Done_inv {E A B} (r : exec E A) (f : A → exec E B) b :
  (r ≫= f) = Done b → ∃ a, r = Done a ∧ f a = Done b.
Proof. destruct r; simpl; naive_solver. Qed.

Lemma Ok_inj {E A} (a b : A) : @Ok E A a = Ok b → a = b.
Proof. congruence. Qed.

Lemma Done_inj {E A} (a b : A) : @Done E A a = Done b → a = b.
Proof. congruence. Qed.

Lemma try_Done {E A} (r : result E A) a : try_ r = Done a ↔ r = Ok a.
Proof. destruct r; simpl; naive_solver. Qed.

Lemma unwrap_Done {E A} (o : option A) a : @unwrap E A o = Done a ↔ o = Some a.
Proof. destruct o; simpl; naive_solver. Qed.

Lemma guard_Ok {E} b (e : E) u : guard_ b e = Ok u ↔ b = false.
Proof. destruct b, u; simpl; naive_solver. Qed.

Lemma ok_or_Ok {E A} (o : option A) (e : E) a : ok_or o e = Ok a ↔ o = Some a.
Proof. destruct o; simpl; naive_solver. Qed.

Create HintDb redline discriminated.
Create Rewrite HintDb redline.

(** ** Machine integers

    A [w]-bit unsigned integer is a [Z] in [0, 2^w).  [usize] is 64 bits
    wide, as on every target the GPU code runs on. *)

Definition umax (w : Z) : Z := 2 ^ w - 1.
Definition in_u (w x : Z) : Prop := (0 ≤ x ≤ umax w)%Z.
Definition u16_max : Z := 65535.
Definition u32_max : Z := 4294967295.
Definition u64_max : Z := 18446744073709551615.

Definition checked_add (w a b : Z) : option Z :=
  if (a + b <=? umax w)%Z then Some (a + b)%Z else None.
(** [checked_next_power_of_two]. *)
Definition next_power_of_two (w x : Z) : option Z :=
  let p := if (x <=? 1)%Z then 1%Z else (2 ^ (Z.log2 (x - 1) + 1))%Z in
  if (p <=? umax w)%Z then Some p else None.
Definition checked_mul (w a b : Z) : option Z :=
  if (a * b <=? umax w)%Z then Some (a * b)%Z else None.
(** [as u32]. *)
Definition as_u32 (x : Z) : Z := (x mod 2 ^ 32)%Z.
Definition saturating_add (w a b : Z) : Z := Z.min (a + b) (umax w).
Definition wrapping_add (w a b : Z) : Z := ((a + b) mod 2 ^ w)%Z.

Lemma wrap_small a b : (0 ≤ a)%Z → (0 ≤ b)%Z → (a + b ≤ u64_max)%Z → wrapping_add 64 a b = (a + b)%Z.
Proof. unfold wrapping_add, u64_max. intros. apply Z.mod_small. lia. Qed.

(** [u32::try_from(len)] and friends, on the length of a vector. *)
Definition try_from_len (w : Z) (n : nat) : option nat :=
  if (Z.of_nat n <=? umax w)%Z then Some n else None.

#[export] Instance in_u_dec w x : Decision (in_u w x).
Proof. unfold in_u. apply _. Defined.

Lemma checked_add_Some w a b c :
  checked_add w a b = Some c ↔ c = (a + b)%Z ∧ (a + b ≤ umax w)%Z.
Proof. unfold checked_add. destruct (Z.leb_spec (a + b) (umax w)); naive_solver lia. Qed.

Lemma checked_add_None w a b : checked_add w a b = None ↔ (umax w < a + b)%Z.
Proof. unfold checked_add. destruct (Z.leb_spec (a + b) (umax w)); naive_solver lia. Qed.

Lemma checked_mul_Some w a b c :
  checked_mul w a b = Some c ↔ c = (a * b)%Z ∧ (a * b ≤ umax w)%Z.
Proof. unfold checked_mul. destruct (Z.leb_spec (a * b) (umax w)); naive_solver lia. Qed.

Lemma try_from_len_Some w n m :
  try_from_len w n = Some m ↔ m = n ∧ (Z.of_nat n ≤ umax w)%Z.
Proof. unfold try_from_len. destruct (Z.leb_spec (Z.of_nat n) (umax w)); naive_solver lia. Qed.

(** ** Vectors

    Indexing a [Vec] or slice out of bounds panics: [l !! i] is the read, and
    [vec_set] the write.  [vec_update] is a read-modify-write of one slot. *)

Definition vec_set {A} (l : list A) (i : nat) (x : A) : option (list A) :=
  if decide (i < length l) then Some (<[i:=x]> l) else None.

Definition vec_update {A} (l : list A) (i : nat) (f : A → option A) :
    option (list A) :=
  x ← l !! i; y ← f x; vec_set l i y.

Lemma vec_set_Some {A} (l l' : list A) i x :
  vec_set l i x = Some l' ↔ i < length l ∧ l' = <[i:=x]> l.
Proof. unfold vec_set. case_decide; naive_solver. Qed.

Lemma vec_set_lt {A} (l : list A) i x :
  i < length l → vec_set l i x = Some (<[i:=x]> l).
Proof. intros. unfold vec_set. by rewrite decide_True. Qed.

Lemma vec_update_lookup {A} (l : list A) i f x y :
  l !! i = Some x → f x = Some y → vec_update l i f = Some (<[i:=y]> l).
Proof.
  intros Hl Hf. unfold vec_update. rewrite Hl; simpl. rewrite Hf; simpl.
  apply vec_set_lt. by eapply lookup_lt_Some.
Qed.

(** A loop over a list whose body can fail to produce a value. *)
Fixpoint foldM {S A} (f : S → A → option S) (s : S) (l : list A) : option S :=
  match l with
  | [] => Some s
  | x :: l => s' ← f s x; foldM f s' l
  end.

Lemma foldM_app {S A} (f : S → A → option S) s l1 l2 :
  foldM f s (l1 ++ l2) = s' ← foldM f s l1; foldM f s' l2.
Proof.
  revert s. induction l1 as [|x l1 IH]; intros s; [done|]; simpl.
  destruct (f s x); simpl; [apply IH|done].
Qed.

Lemma foldM_cons {S A} (f : S → A → option S) s s' x l :
  f s x = Some s' → foldM f s (x :: l) = foldM f s' l.
Proof. intros Hf. simpl. by rewrite Hf. Qed.

Lemma foldM_preserves {S A} (P : S → Prop) (f : S → A → option S) l : ∀ s s',
  (∀ s s' x, P s → f s x = Some s' → P s') → P s → foldM f s l = Some s' → P s'.
Proof.
  induction l as [|x l IH]; intros s s' Hf Hs; [by intros [= <-]|]. cbn [foldM].
  destruct (f s x) as [s1|] eqn:E; [|done]. apply IH; [done|by eapply Hf].
Qed.

(** Loop invariant rule: the body yields a value and re-establishes the
    invariant, which may mention the elements already visited. *)
Lemma foldM_inv {S A} (P : list A → S → Prop) (f : S → A → option S) l s :
  P [] s →
  (∀ l1 x l2 s, l = l1 ++ x :: l2 → P l1 s → ∃ s', f s x = Some s' ∧ P (l1 ++ [x]) s') →
  ∃ s', foldM f s l = Some s' ∧ P l s'.
Proof.
  intros H0 Hstep.
  cut (∀ l1 l2 s, l = l1 ++ l2 → P l1 s → ∃ s', foldM f s l2 = Some s' ∧ P l s').
  { intros H. by apply (H [] l s). }
  intros l1 l2. revert l1. clear H0 s.
  induction l2 as [|x l2 IH]; intros l1 s -> HP.
  - exists s. rewrite app_nil_r in *. done.
  - destruct (Hstep l1 x l2 s eq_refl HP) as (s' & Hf & HP'). simpl. rewrite Hf. simpl.
    apply (IH (l1 ++ [x])); [by rewrite <-app_assoc|done].
Qed.

(** The first error of a [for] loop that only checks. *)
Fixpoint for_each {E A} (f : A → result E unit) (l : list A) : result E unit :=
  match l with
  | [] => Ok tt
  | x :: l => match f x with Ok _ => for_each f l | Err e => Err e end
  end.

Lemma for_each_Ok {E A} (f : A → result E unit) l u :
  for_each f l = Ok u ↔ ∀ x, x ∈ l → f x = Ok tt.
Proof.
  destruct u. induction l as [|x l IH]; simpl; [set_solver|].
  destruct (f x) as [[]|e] eqn:Hfx.
  - rewrite IH. split; [intros Hl y [->|?]%elem_of_cons; auto|set_solver].
  - split; [done|]. intros Hl. rewrite Hl in Hfx by set_solver. done.
Qed.

Lemma for_each_Err {E A} (f : A → result E unit) l e :
  for_each f l = Err e →
  ∃ l1 x l2, l = l1 ++ x :: l2 ∧ f x = Err e ∧ ∀ y, y ∈ l1 → f y = Ok tt.
Proof.
  induction l as [|x l IH]; simpl; [done|].
  destruct (f x) as [[]|e'] eqn:Hfx.
  - intros (l1 & y & l2 & -> & Hy & Hl1)%IH. exists (x :: l1), y, l2.
    split; [done|]. split; [done|]. intros z [->|?]%elem_of_cons; auto.
  - intros [= ->]. exists [], x, l. set_solver.
Qed.

(** [invert_ok] decomposes hypotheses that say a monadic computation
    succeeded. *)
Ltac invert_ok_step :=
  match goal with
  | H : (_ ≫= _) = Ok _ |- _ =>
      apply bind_Ok_inv in H; destruct H as (? & ? & H); simpl in H
  | H : mbind _ _ = Ok _ |- _ =>
      apply bind_Ok_inv in H; destruct H as (? & ? & H); simpl in H
  | H : (_ ≫= _) = Done _ |- _ =>
      apply bind_Done_inv in H; destruct H as (? & ? & H); simpl in H
  | H : mbind _ _ = Done _ |- _ =>
      apply bind_Done_inv in H; destruct H as (? & ? & H); simpl in H
  | H : try_ _ = Done _ |- _ => apply try_Done in H
  | H : unwrap _ = Done _ |- _ => apply unwrap_Done in H
  | H : guard_ _ _ = Ok _ |- _ => apply guard_Ok in H
  | H : ok_or _ _ = Ok _ |- _ => apply ok_or_Ok in H
  | H : for_each _ _ = Ok _ |- _ => rewrite for_each_Ok in H
  | H : Ok _ = Ok _ |- _ => apply Ok_inj in H
  | H : Done _ = Done _ |- _ => apply Done_inj in H
  | H : Err _ = Ok _ |- _ => discriminate H
  | H : Fail _ = Done _ |- _ => discriminate H
  | H : Panic = Done _ |- _ => discriminate H
  end.
Ltac invert_ok := repeat invert_ok_step.

(** [read_guards] turns the tests that a computation passed into propositions. *)
Ltac read_guards :=
  repeat match goal with
  | H : _ || _ = false |- _ => apply orb_false_iff in H; destruct H
  | H : _ && _ = true |- _ => apply andb_true_iff in H; destruct H
  | H : negb _ = false |- _ => apply negb_false_iff in H
  | H : negb _ = true |- _ => apply negb_true_iff in H
  | H : (_ =? _)%Z = true |- _ => apply Z.eqb_eq in H
  | H : (_ =? _)%Z = false |- _ => apply Z.eqb_neq in H
  | H : (_ =? _) = true |- _ => apply Nat.eqb_eq in H
  | H : (_ =? _) = false |- _ => apply Nat.eqb_neq in H
  | H : (_ <=? _)%Z = false |- _ => apply Z.leb_gt in H
  | H : (_ <? _)%Z = false |- _ => apply Z.ltb_ge in H
  | H : bool_decide _ = true |- _ => apply bool_decide_eq_true in H
  | H : bool_decide _ = false |- _ => apply bool_decide_eq_false in H
  end.

Lemma mapM_Ok {E A B} (f : A → result E B) l k :
  mapM f l = Ok k ↔ Forall2 (λ x y, f x = Ok y) l k.
Proof.
  split.
  - revert k. induction l as [|x l IH]; intros k; simpl; intros H.
    + injection H as <-. constructor.
    + invert_ok. injection H as <-. constructor; [done|]. by apply IH.
  - induction 1 as [|x y l k Hx _ IH]; simpl; [done|]. by rewrite Hx, IH.
Qed.

(** [iter().filter_map(f)]. *)
Fixpoint filter_map {A B} (f : A → option B) (l : list A) : list B :=
  match l with
  | [] => []
  | x :: l => match f x with Some y => y :: filter_map f l | None => filter_map f l end
  end.

Lemma elem_of_filter_map {A B} (f : A → option B) l y :
  y ∈ filter_map f l ↔ ∃ x, x ∈ l ∧ f x = Some y.
Proof.
  induction l as [|x l IH]; simpl; [set_solver|].
  destruct (f x) eqn:Hfx; [rewrite elem_of_cons|]; rewrite IH;
    setoid_rewrite elem_of_cons; naive_solver.
Qed.

Lemma filter_map_app {A B} (f : A → option B) l1 l2 :
  filter_map f (l1 ++ l2) = filter_map f l1 ++ filter_map f l2.
Proof. induction l1 as [|x l1 IH]; [done|]. cbn [app filter_map]. rewrite IH. by destruct (f x). Qed.

(** [iter().enumerate()]. *)
Definition enumerate {A} (l : list A) : list (nat * A) := zip (seq 0 (length l)) l.

Lemma elem_of_enumerate {A} (l : list A) i x :
  (i, x) ∈ enumerate l ↔ l !! i = Some x.
Proof.
  unfold enumerate. rewrite list_elem_of_lookup. split.
  - intros [k Hk]. apply lookup_zip_Some in Hk as [[-> ?]%lookup_seq ?]. done.
  - intros Hx. exists i. apply lookup_zip_Some. split; [|done].
    apply lookup_seq. split; [done|]. by eapply lookup_lt_Some.
Qed.

Lemma length_enumerate {A} (l : list A) : length (enumerate l) = length l.
Proof. unfold enumerate. rewrite length_zip, length_seq. lia. Qed.

(** ** Little-endian bytes *)

Fixpoint le_bytes (n : nat) (x : Z) : list Z :=
  match n with
  | O => []
  | S n => (x mod 256)%Z :: le_bytes n (x / 256)%Z
  end.

Lemma length_le_bytes n x : length (le_bytes n x) = n.
Proof. revert x. induction n; intros; simpl; auto. Qed.

Lemma le_bytes_inj n x y :
  (0 ≤ x < 256 ^ Z.of_nat n)%Z → (0 ≤ y < 256 ^ Z.of_nat n)%Z →
  le_bytes n x = le_bytes n y → x = y.
Proof.
  revert x y. induction n as [|n IH]; intros x y Hx Hy Heq.
  { simpl in *. lia. }
  rewrite Nat2Z.inj_succ, Z.pow_succ_r in Hx, Hy by lia.
  simpl in Heq. injection Heq as Hm Hd.
  apply IH in Hd; [|split; [apply Z.div_pos|apply Z.div_lt_upper_bound]; lia..].
  rewrite (Z.div_mod x 256), (Z.div_mod y 256) by lia. by rewrite Hm, Hd.
Qed.

#[export] Hint Rewrite @length_le_bytes @length_enumerate : redline.

(** ** Strings

    A Rust [str] is the list of its Unicode scalar values.  [str_ws] is the
    [White_Space] property that [char::is_whitespace] and [str::trim] use;
    [utf8] is [str::as_bytes]. *)

Abbreviation rstr := (list Z).

Definition str_ws (c : Z) : bool :=
  bool_decide ((9 ≤ c ≤ 13) ∨ c = 32 ∨ c = 133 ∨ c = 160 ∨ c = 5760 ∨
    (8192 ≤ c ≤ 8202) ∨ c = 8232 ∨ c = 8233 ∨ c = 8239 ∨ c = 8287 ∨ c = 12288)%Z.

Fixpoint trim_start (s : rstr) : rstr :=
  match s with
  | [] => []
  | c :: s' => if str_ws c then trim_start s' else s
  end.
Definition trim (s : rstr) : rstr := reverse (trim_start (reverse (trim_start s))).
Definition is_empty {A} (l : list A) : bool := match l with [] => true | _ => false end.

Definition utf8_char (c : Z) : list Z :=
  if (c <? 128)%Z then [c]
  else if (c <? 2048)%Z then [192 + c / 64; 128 + c mod 64]%Z
  else if (c <? 65536)%Z then
    [224 + c / 4096; 128 + (c / 64) mod 64; 128 + c mod 64]%Z
  else [240 + c / 262144; 128 + (c / 4096) mod 64; 128 + (c / 64) mod 64; 128 + c mod 64]%Z.
Definition utf8 (s : rstr) : list Z := s ≫= utf8_char.

Definition to_ascii_lowercase (s : rstr) : rstr :=
  (λ c, if (65 <=? c)%Z && (c <=? 90)%Z then (c + 32)%Z else c) <$> s.

Fixpoint starts_with (s p : rstr) : bool :=
  match p, s with
  | [], _ => true
  | a :: p, b :: s => (a =? b)%Z && starts_with s p
  | _ :: _, [] => false
  end.

(** ASCII literals. *)
Fixpoint lit (s : string) : rstr :=
  match s with
  | EmptyString => []
  | String a s => Z.of_N (Ascii.N_of_ascii a) :: lit s
  end.

Lemma is_empty_true {A} (l : list A) : is_empty l = true ↔ l = [].
Proof. destruct l; naive_solver. Qed.

Lemma is_empty_false {A} (l : list A) : is_empty l = false ↔ l ≠ [].
Proof. destruct l; naive_solver. Qed.

(** ** Checking loops that can panic *)

Fixpoint for_exec {E A} (f : A → exec E unit) (l : list A) : exec E unit :=
  match l with
  | [] => Done tt
  | x :: l => _ ← f x; for_exec f l
  end.

Lemma for_exec_Done {E A} (f : A → exec E unit) l u :
  for_exec f l = Done u ↔ ∀ x, x ∈ l → f x = Done tt.
Proof.
  destruct u. induction l as [|x l IH]; simpl; [set_solver|].
  destruct (f x) as [[]|e|] eqn:Hfx; simpl.
  - rewrite IH. split; [intros Hl y [->|?]%elem_of_cons; auto|set_solver].
  - split; [done|]. intros Hl. rewrite Hl in Hfx by set_solver. done.
  - split; [done|]. intros Hl. rewrite Hl in Hfx by set_solver. done.
Qed.

Lemma for_exec_no_panic {E A} (f : A → exec E unit) l :
  (∀ x, x ∈ l → f x ≠ Panic) → for_exec f l ≠ Panic.
Proof.
  induction l as [|x l IH]; simpl; intros Hf; [done|].
  destruct (f x) as [[]|e|] eqn:Hfx; simpl; [apply IH; set_solver|done|].
  exfalso. apply (Hf x); [set_solver|done].
Qed.

(** ** Loops that carry a state and stop at the first error *)

Fixpoint foldE {E S A} (f : S → A → exec E S) (s : S) (l : list A) : exec E S :=
  match l with
  | [] => Done s
  | x :: l => s' ← f s x; foldE f s' l
  end.

Fixpoint foldR {E S A} (f : S → A → result E S) (s : S) (l : list A) : result E S :=
  match l with
  | [] => Ok s
  | x :: l => s' ← f s x; foldR f s' l
  end.

Lemma foldE_Done_inv {E S A} (P : list A → S → Prop) (f : S → A → exec E S) l s s' :
  P [] s → (∀ l1 x l2 s s', l = l1 ++ x :: l2 → P l1 s → f s x = Done s' → P (l1 ++ [x]) s') →
  foldE f s l = Done s' → P l s'.
Proof.
  intros H0 Hstep.
  cut (∀ l2 l1 s, l = l1 ++ l2 → P l1 s → foldE f s l2 = Done s' → P l s').
  { intros H. by apply (H l [] s). }
  clear H0 s. intros l2. induction l2 as [|x l2 IH]; intros l1 s ->; simpl.
  - intros HP [= <-]. by rewrite app_nil_r.
  - intros HP Hf. apply bind_Done_inv in Hf as (s1 & Hs1 & Hf).
    apply (IH (l1 ++ [x]) s1); [by rewrite <-app_assoc| |done]. by eapply Hstep.
Qed.

Lemma foldE_no_panic {E S A} (P : list A → S → Prop) (f : S → A → exec E S) l s :
  P [] s →
  (∀ l1 x l2 s, l = l1 ++ x :: l2 → P l1 s →
     f s x ≠ Panic ∧ ∀ s', f s x = Done s' → P (l1 ++ [x]) s') →
  foldE f s l ≠ Panic.
Proof.
  intros H0 Hstep.
  cut (∀ l2 l1 s, l = l1 ++ l2 → P l1 s → foldE f s l2 ≠ Panic).
  { intros H. by apply (H l [] s). }
  clear H0 s. intros l2. induction l2 as [|x l2 IH]; intros l1 s Hl HP; simpl; [done|].
  destruct (Hstep l1 x l2 s Hl HP) as [Hnp Hnext].
  destruct (f s x) as [s1|e|] eqn:Hf; simpl; [|done..].
  apply (IH (l1 ++ [x])); [by rewrite <-app_assoc|by apply Hnext].
Qed.

Lemma foldE_ok {E S A} (P : list A → S → Prop) (f : S → A → exec E S) l s :
  P [] s →
  (∀ l1 x l2 s, l = l1 ++ x :: l2 → P l1 s →
     f s x ≠ Panic ∧ ∀ s', f s x = Done s' → P (l1 ++ [x]) s') →
  foldE f s l ≠ Panic ∧ ∀ s', foldE f s l = Done s' → P l s'.
Proof.
  intros H0 Hstep. split; [by apply (foldE_no_panic P)|].
  intros s'. apply (foldE_Done_inv P); [done|]. intros l1 x l2 s1 s2 Hl H1. by eapply Hstep.
Qed.

(** The invariant of a fold, with what holds of its failure. *)
Lemma foldE_result {E S A} (P : list A → S → Prop) (Q : E → Prop) (f : S → A → exec E S) l s :
  P [] s →
  (∀ l1 x l2 s, l = l1 ++ x :: l2 → P l1 s →
     match f s x with Done s' => P (l1 ++ [x]) s' | Fail e => Q e | Panic => False end) →
  match foldE f s l with Done s' => P l s' | Fail e => Q e | Panic => False end.
Proof.
  intros H0 Hstep. cut (∀ l2 l1 s, l = l1 ++ l2 → P l1 s →
    match foldE f s l2 with Done s' => P l s' | Fail e => Q e | Panic => False end).
  { intros H. by apply (H l [] s). }
  clear H0 s. intros l2. induction l2 as [|x l2 IH]; intros l1 s Hl HP; simpl; [by rewrite Hl, app_nil_r|].
  specialize (Hstep l1 x l2 s Hl HP). destruct (f s x) as [s1|e|]; simpl; [|done|done].
  apply (IH (l1 ++ [x])); [by rewrite <-app_assoc|done].
Qed.

Lemma lookup_enumerate {A} (l : list A) i x : l !! i = Some x → enumerate l !! i = Some (i, x).
Proof.
  intros Hi. unfold enumerate. apply lookup_zip_Some. split; [|done].
  apply lookup_seq_lt. by eapply lookup_lt_Some.
Qed.

Lemma enumerate_snd {A} (l : list A) : (enumerate l).*2 = l.
Proof. unfold enumerate. rewrite snd_zip; [done|]. by rewrite length_seq. Qed.

Lemma enumerate_middle {A} (l : list A) l1 i x l2 :
  enumerate l = l1 ++ (i, x) :: l2 → i = length l1 ∧ l !! i = Some x.
Proof.
  intros Hl. assert (enumerate l !! length l1 = Some (i, x)) as Hi by (rewrite Hl; by apply list_lookup_middle).
  unfold enumerate in Hi. apply lookup_zip_Some in Hi as [Hs Hx]. apply lookup_seq in Hs as [-> _]. done.
Qed.

Lemma enumerate_snoc {A} (l : list A) x : enumerate (l ++ [x]) = enumerate l ++ [(length l, x)].
Proof.
  unfold enumerate. rewrite length_app, seq_app, zip_with_app by by rewrite length_seq. done.
Qed.

Lemma prefix_app_cases {A} (l l1 l2 : list A) :
  l `prefix_of` l1 ++ l2 → l `prefix_of` l1 ∨ ∃ k, l = l1 ++ k ∧ k `prefix_of` l2.
Proof.
  intros [k Hk]. apply app_eq_inv in Hk as [(m & -> & ->)|(m & -> & ->)].
  - left. by exists m.
  - right. exists m. split; [done|]. by exists k.
Qed.

(** ** [slice::chunks] *)

Fixpoint chunks_fuel {A} (fuel n : nat) (l : list A) : list (list A) :=
  match fuel, l with
  | S fuel, _ :: _ => take n l :: chunks_fuel fuel n (drop n l)
  | _, _ => []
  end.
Definition chunks {A} (n : nat) (l : list A) : list (list A) := chunks_fuel (length l) n l.

Lemma chunks_concat {A} n (l : list A) : 0 < n → List.concat (chunks n l) = l.
Proof.
  intros Hn. unfold chunks.
  cut (∀ fuel (l : list A), length l ≤ fuel → List.concat (chunks_fuel fuel n l) = l); [intros H; by apply H|].
  clear l. induction fuel as [|fuel IH]; intros [|x l] Hl; simpl in Hl; try lia; try done.
  cbn [chunks_fuel List.concat]. rewrite IH; [apply take_drop|].
  rewrite length_drop. simpl. lia.
Qed.

Lemma chunks_length {A} n (l : list A) c : c ∈ chunks n l → length c ≤ n.
Proof.
  unfold chunks. generalize (length l). intros fuel. revert l.
  induction fuel as [|fuel IH]; intros [|x l]; cbn [chunks_fuel]; try set_solver.
  intros [->|Hc]%elem_of_cons; [rewrite length_take; lia|by eapply IH].
Qed.

(** [windows(2)]. *)
Definition windows2 {A} (l : list A) : list (A * A) := zip l (tail l).

(** [iter().position(f)]. *)
Fixpoint position {A} (f : A → bool) (l : list A) : option nat :=
  match l with
  | [] => None
  | x :: l => if f x then Some 0 else S <$> position f l
  end.

(** [partition_point(f)], for lists on which [f] holds of a prefix only. *)
Fixpoint partition_point {A} (f : A → bool) (l : list A) : nat :=
  match l with
  | [] => 0
  | x :: l => if f x then S (partition_point f l) else 0
  end.

(** [sort_by] is stable: an element goes after those it does not precede. *)
Fixpoint insert_by {A} (c : A → A → comparison) (x : A) (l : list A) : list A :=
  match l with
  | [] => [x]
  | y :: l' => match c y x with Gt => x :: l | _ => y :: insert_by c x l' end
  end.
Definition sort_by {A} (c : A → A → comparison) (l : list A) : list A :=
  foldl (λ acc x, insert_by c x acc) [] l.

Lemma position_Some {A} (f : A → bool) l i :
  position f l = Some i → ∃ x, l !! i = Some x ∧ f x = true.
Proof.
  revert i. induction l as [|x l IH]; intros i; [done|]. cbn [position]. destruct (f x) eqn:Hx.
  - intros [= <-]. by exists x.
  - destruct (position f l) as [j|]; [|done]. intros [= <-]. by apply IH.
Qed.

Lemma position_elem {A} (f : A → bool) l x : x ∈ l → f x = true → is_Some (position f l).
Proof.
  induction 1 as [x l|x y l _ IH]; intros Hf; cbn [position]; [by rewrite Hf|].
  destruct (f y); [done|]. destruct (IH Hf) as [i ->]. done.
Qed.

Lemma partition_point_lt {A} (f : A → bool) l i x : l !! i = Some x → i < partition_point f l → f x = true.
Proof.
  revert i. induction l as [|y l IH]; intros [|i] Hi Hlt; cbn [partition_point] in Hlt; try done.
  - injection Hi as ->. destruct (f x); [done|lia].
  - destruct (f y); [|lia]. apply (IH i); [done|lia].
Qed.

Lemma partition_point_at {A} (f : A → bool) l x : l !! partition_point f l = Some x → f x = false.
Proof.
  induction l as [|y l IH]; [done|]. cbn [partition_point]. destruct (f y) eqn:Hy; [done|]. by intros [= ->].
Qed.

Lemma windows2_Sorted {A} (R : A → A → Prop) l :
  (∀ p, p ∈ windows2 l → R p.1 p.2) ↔ Sorted R l.
Proof.
  unfold windows2. induction l as [|x [|y l] IH]; cbn [tail zip zip_with].
  - split; [constructor|]. by intros _ p Hp%elem_of_nil.
  - split; [repeat constructor|]. by intros _ p Hp%elem_of_nil.
  - cbn [tail] in IH. split.
    + intros H. constructor; [|constructor; apply (H (x, y)); by left].
      apply IH. intros p Hp. apply H. by right.
    + intros [Hs Hd]%Sorted_inv p [->|Hp]%elem_of_cons; [by inversion Hd|]. by apply IH.
Qed.

Section sort.
Context {A : Type} (c : A → A → comparison).
Local Abbreviation le := (λ x y, c x y ≠ Gt).

Lemma insert_by_perm x l : insert_by c x l ≡ₚ x :: l.
Proof using Type.
  induction l as [|y l IH]; [done|]. cbn [insert_by]. destruct (c y x); try done.
  all: rewrite IH; apply Permutation_swap.
Qed.

Lemma sort_by_perm l : sort_by c l ≡ₚ l.
Proof using Type.
  unfold sort_by. enough (∀ acc, foldl (λ acc x, insert_by c x acc) acc l ≡ₚ acc ++ l) as H by apply H.
  induction l as [|x l IH]; intros acc; cbn [foldl]; [by rewrite app_nil_r|].
  rewrite IH, insert_by_perm. cbn. by rewrite Permutation_middle.
Qed.

Context (Htrans : ∀ x y z, le x y → le y z → le x z) (Hanti : ∀ x y, c x y = Gt → le y x).

Lemma insert_by_sorted x l : StronglySorted le l → StronglySorted le (insert_by c x l).
Proof using Htrans Hanti.
  induction 1 as [|y l Hs IH Hy]; [repeat constructor|]. cbn [insert_by].
  destruct (c y x) eqn:Hyx.
  3:{ apply Hanti in Hyx as Hxy. constructor; [by constructor|]. constructor; [done|].
      eapply Forall_impl; [exact Hy|]. intros z Hz. by eapply Htrans. }
  all: constructor; [done|]; rewrite insert_by_perm; constructor; [by rewrite Hyx|done].
Qed.

Lemma sort_by_sorted l : StronglySorted le (sort_by c l).
Proof using Htrans Hanti.
  unfold sort_by. enough (∀ acc, StronglySorted le acc → StronglySorted le (foldl (λ acc x, insert_by c x acc) acc l))
    as H by (apply H; constructor).
  induction l as [|x l IH]; intros acc Hacc; cbn [foldl]; [done|]. by apply IH, insert_by_sorted.
Qed.
End sort.
