(* ===== verification/BTree.v ===== *)
(** * Ordered collections

    [BTreeSet] and [BTreeMap] as their in-order contents: strictly sorted lists.
    Iteration order is observable in the program (dependency lists, hash
    inputs, the topological order), so the model keeps it. *)

From S2P Require Import Prelude.

(** ** Total orders ([Ord]) *)

Class Cmp (K : Type) := cmp : K → K → comparison.

Class CmpOk (K : Type) `{Cmp K} := {
  cmp_eq_iff (x y : K) : cmp x y = Eq ↔ x = y;
  cmp_flip (x y : K) : cmp y x = CompOpp (cmp x y);
  cmp_lt_trans (x y z : K) : cmp x y = Lt → cmp y z = Lt → cmp x z = Lt
}.

#[export] Instance cmp_Z : Cmp Z := Z.compare.
#[export] Instance cmp_nat : Cmp nat := Nat.compare.
#[export] Instance cmp_prod {A B} `{Cmp A, Cmp B} : Cmp (A * B) := λ x y,
  match cmp x.1 y.1 with Eq => cmp x.2 y.2 | c => c end.

Fixpoint list_cmp {A} `{Cmp A} (l1 l2 : list A) : comparison :=
  match l1, l2 with
  | [], [] => Eq
  | [], _ :: _ => Lt
  | _ :: _, [] => Gt
  | x :: l1, y :: l2 => match cmp x y with Eq => list_cmp l1 l2 | c => c end
  end.
#[export] Instance cmp_list {A} `{Cmp A} : Cmp (list A) := list_cmp.

(** A derived [Ord] compares the fields in declaration order, that is, it
    compares the tuples of the fields. *)
Definition cmp_via {A B} `{Cmp B} (f : A → B) : Cmp A := λ x y, cmp (f x) (f y).

#[export] Instance cmp_Z_ok : CmpOk Z.
Proof.
  split; unfold cmp, cmp_Z.
  - apply Z.compare_eq_iff.
  - intros. by rewrite Z.compare_antisym.
  - intros x y z. rewrite !Z.compare_lt_iff. lia.
Qed.

#[export] Instance cmp_nat_ok : CmpOk nat.
Proof.
  split; unfold cmp, cmp_nat.
  - apply Nat.compare_eq_iff.
  - intros. by rewrite Nat.compare_antisym.
  - intros x y z. rewrite !Nat.compare_lt_iff. lia.
Qed.

Section cmp_facts.
Context {K : Type} `{CmpOk K}.
Implicit Types x y z : K.

Lemma cmp_refl x : cmp x x = Eq.
Proof. by apply cmp_eq_iff. Qed.

Lemma cmp_gt_lt x y : cmp x y = Gt ↔ cmp y x = Lt.
Proof. rewrite (cmp_flip x y). destruct (cmp x y); simpl; naive_solver. Qed.

Lemma cmp_lt_ne x y : cmp x y = Lt → x ≠ y.
Proof. intros Hlt ->. by rewrite cmp_refl in Hlt. Qed.

Lemma cmp_lt_asym x y : cmp x y = Lt → cmp y x = Lt → False.
Proof. intros H1 H2. rewrite (cmp_flip x y), H1 in H2. done. Qed.

#[export] Instance cmp_eq_decision : EqDecision K.
Proof.
  refine (λ x y, match cmp x y as c return cmp x y = c → Decision (x = y) with
    | Eq => λ E, left (proj1 (cmp_eq_iff x y) E)
    | _ => λ E, right _
    end eq_refl);
  abstract (intros ->; rewrite cmp_refl in E; discriminate).
Defined.
End cmp_facts.

Lemma cmp_pair {A B} `{Cmp A, Cmp B} (a1 a2 : A) (b1 b2 : B) :
  cmp (a1, b1) (a2, b2) = match cmp a1 a2 with Eq => cmp b1 b2 | c => c end.
Proof. done. Qed.

#[export] Instance cmp_prod_ok {A B} `{CmpOk A, CmpOk B} : CmpOk (A * B).
Proof.
  split.
  - intros [a1 b1] [a2 b2]. rewrite cmp_pair. destruct (cmp a1 a2) eqn:E.
    + apply cmp_eq_iff in E as ->. rewrite cmp_eq_iff. naive_solver.
    + split; [done|]. intros [= -> ->]. by rewrite cmp_refl in E.
    + split; [done|]. intros [= -> ->]. by rewrite cmp_refl in E.
  - intros [a1 b1] [a2 b2]. rewrite !cmp_pair, (cmp_flip a1 a2).
    destruct (cmp a1 a2); simpl; [apply cmp_flip|done|done].
  - intros [a1 b1] [a2 b2] [a3 b3]. rewrite !cmp_pair.
    destruct (cmp a1 a2) eqn:E1; [apply cmp_eq_iff in E1 as ->| |done].
    + destruct (cmp a2 a3) eqn:E2; [apply cmp_lt_trans|done|done].
    + destruct (cmp a2 a3) eqn:E2; [apply cmp_eq_iff in E2 as ->; by rewrite E1| |done].
      by rewrite (cmp_lt_trans a1 a2 a3).
Qed.

Lemma cmp_cons {A} `{Cmp A} (a b : A) l1 l2 :
  cmp (a :: l1) (b :: l2) = match cmp a b with Eq => cmp l1 l2 | c => c end.
Proof. done. Qed.

#[export] Instance cmp_list_ok {A} `{CmpOk A} : CmpOk (list A).
Proof.
  split.
  - induction x as [|a x IH]; intros [|b y]; [by unfold cmp|by unfold cmp|by unfold cmp|].
    rewrite cmp_cons. destruct (cmp a b) eqn:E.
    + apply cmp_eq_iff in E as ->. rewrite IH. naive_solver.
    + split; [done|]. intros [= -> ->]. by rewrite cmp_refl in E.
    + split; [done|]. intros [= -> ->]. by rewrite cmp_refl in E.
  - induction x as [|a x IH]; intros [|b y]; [done..|].
    rewrite !cmp_cons, (cmp_flip a b). destruct (cmp a b); simpl; auto.
  - induction x as [|a x IH]; intros [|b y] [|c z]; [done..|].
    rewrite !cmp_cons.
    destruct (cmp a b) eqn:E1; [apply cmp_eq_iff in E1 as ->| |done].
    + destruct (cmp b c) eqn:E2; [apply IH|done|done].
    + destruct (cmp b c) eqn:E2; [apply cmp_eq_iff in E2 as ->; by rewrite E1| |done].
      by rewrite (cmp_lt_trans a b c).
Qed.

Lemma cmp_via_ok {A B} `{CmpOk B} (f : A → B) `{!Inj (=) (=) f} :
  @CmpOk A (cmp_via f).
Proof.
  split; unfold cmp, cmp_via.
  - intros x y. rewrite cmp_eq_iff. split; [apply (inj f)|by intros ->].
  - intros. apply cmp_flip.
  - intros x y z. apply cmp_lt_trans.
Qed.

(** ** [BTreeSet] *)

Section bset.
Context {K : Type} `{CmpOk K}.
Implicit Types (x y : K) (s : list K).

Definition cmp_lt x y : Prop := cmp x y = Lt.

(** [BTreeSet::insert]; an element already present is left in place. *)
Fixpoint bset_insert x s : list K :=
  match s with
  | [] => [x]
  | y :: s' =>
      match cmp x y with
      | Lt => x :: s
      | Eq => s
      | Gt => y :: bset_insert x s'
      end
  end.

Definition bset_sorted s : Prop := StronglySorted cmp_lt s.

Lemma elem_of_bset_insert x y s : y ∈ bset_insert x s ↔ y = x ∨ y ∈ s.
Proof.
  induction s as [|z s IH]; simpl; [set_solver|].
  destruct (cmp x z) eqn:E; [apply cmp_eq_iff in E as ->| |]; set_solver.
Qed.

Lemma bset_insert_sorted x s : bset_sorted s → bset_sorted (bset_insert x s).
Proof.
  induction 1 as [|y s Hs IH Hall]; simpl; [repeat constructor|].
  destruct (cmp x y) eqn:E.
  - by constructor.
  - constructor; [by constructor|]. constructor; [done|].
    eapply Forall_impl; [done|]. intros z. by apply cmp_lt_trans.
  - constructor; [done|]. apply Forall_forall. intros z.
    rewrite elem_of_bset_insert. intros [->|Hz].
    + by apply cmp_gt_lt.
    + by eapply Forall_forall in Hall.
Qed.

Lemma bset_sorted_NoDup s : bset_sorted s → NoDup s.
Proof.
  induction 1 as [|y s Hs IH Hall]; constructor; [|done].
  intros Hy. eapply Forall_forall in Hall; [|done]. by apply cmp_lt_ne in Hall.
Qed.

Lemma bset_sorted_tail x s : bset_sorted (x :: s) → bset_sorted s.
Proof. by inv 1. Qed.
End bset.

(** ** [BTreeMap] *)

Section bmap.
Context {K V : Type} `{CmpOk K}.
Implicit Types (k : K) (v : V) (m : list (K * V)).

Fixpoint bmap_get k m : option V :=
  match m with
  | [] => None
  | (k', v) :: m => match cmp k k' with Eq => Some v | _ => bmap_get k m end
  end.

(** [BTreeMap::insert]; the previous value is [bmap_get k m]. *)
Fixpoint bmap_insert k v m : list (K * V) :=
  match m with
  | [] => [(k, v)]
  | (k', v') :: m' =>
      match cmp k k' with
      | Lt => (k, v) :: m
      | Eq => (k', v) :: m'
      | Gt => (k', v') :: bmap_insert k v m'
      end
  end.

Fixpoint bmap_remove k m : list (K * V) :=
  match m with
  | [] => []
  | (k', v') :: m' =>
      match cmp k k' with Eq => m' | _ => (k', v') :: bmap_remove k m' end
  end.

Definition bmap_sorted m : Prop := bset_sorted (m.*1).

Lemma bmap_get_insert_eq k v m : bmap_get k (bmap_insert k v m) = Some v.
Proof.
  induction m as [|[k' v'] m IH]; simpl; [by rewrite cmp_refl|].
  destruct (cmp k k') eqn:E; simpl; rewrite ?E, ?cmp_refl; done.
Qed.

Lemma bmap_get_insert_ne k k' v m :
  k ≠ k' → bmap_get k' (bmap_insert k v m) = bmap_get k' m.
Proof.
  intros Hne. assert (cmp k' k ≠ Eq) as Hne' by (rewrite cmp_eq_iff; congruence).
  induction m as [|[k1 v1] m IH]; simpl; [by destruct (cmp k' k)|].
  destruct (cmp k k1) eqn:E; simpl.
  - apply cmp_eq_iff in E as ->. by destruct (cmp k' k1).
  - by destruct (cmp k' k).
  - by rewrite IH.
Qed.

Lemma elem_of_bmap_insert k v m kv :
  kv ∈ bmap_insert k v m → kv = (k, v) ∨ kv ∈ m.
Proof.
  induction m as [|[k1 v1] m IH]; simpl; [set_solver|].
  destruct (cmp k k1) eqn:E; [apply cmp_eq_iff in E as <-| |]; set_solver.
Qed.

Lemma bmap_insert_fst k v m k' :
  k' ∈ (bmap_insert k v m).*1 ↔ k' = k ∨ k' ∈ m.*1.
Proof.
  induction m as [|[k1 v1] m IH]; simpl; [set_solver|].
  destruct (cmp k k1) eqn:E; [apply cmp_eq_iff in E as <-| |]; set_solver.
Qed.

Lemma bmap_insert_sorted k v m : bmap_sorted m → bmap_sorted (bmap_insert k v m).
Proof.
  unfold bmap_sorted, bset_sorted. induction m as [|[k1 v1] m IH]; simpl.
  { intros _. repeat constructor. }
  intros [Hs Hall]%StronglySorted_inv. destruct (cmp k k1) eqn:E; simpl.
  - apply cmp_eq_iff in E as <-. by constructor.
  - constructor; [by constructor|]. constructor; [done|].
    eapply Forall_impl; [done|]. intros z. by apply cmp_lt_trans.
  - constructor; [by apply IH|]. apply Forall_forall. intros z.
    rewrite bmap_insert_fst. intros [->|Hz]; [by apply cmp_gt_lt|].
    by eapply Forall_forall in Hall.
Qed.

Lemma bmap_get_elem k v m : bmap_get k m = Some v → (k, v) ∈ m.
Proof.
  induction m as [|[k1 v1] m IH]; simpl; [done|].
  destruct (cmp k k1) eqn:E; [|set_solver..].
  apply cmp_eq_iff in E as ->. intros [= ->]. set_solver.
Qed.

Lemma bmap_get_None k m : bmap_get k m = None ↔ k ∉ m.*1.
Proof.
  induction m as [|[k1 v1] m IH]; simpl; [set_solver|].
  destruct (cmp k k1) eqn:E.
  - apply cmp_eq_iff in E as ->. set_solver.
  - rewrite IH. apply cmp_lt_ne in E. set_solver.
  - rewrite IH. apply cmp_gt_lt, cmp_lt_ne in E. set_solver.
Qed.

Lemma bmap_elem_get k v m : bmap_sorted m → (k, v) ∈ m → bmap_get k m = Some v.
Proof.
  unfold bmap_sorted, bset_sorted. induction m as [|[k1 v1] m IH]; simpl; [set_solver|].
  intros [Hs Hall]%StronglySorted_inv [[= -> ->]|Hin]%elem_of_cons.
  - by rewrite cmp_refl.
  - assert (cmp k1 k = Lt) as Hlt.
    { eapply (Forall_forall (cmp_lt k1)); [done|].
      apply (list_elem_of_fmap_2 fst _ _ Hin). }
    apply cmp_gt_lt in Hlt. rewrite Hlt. by apply IH.
Qed.

Lemma bmap_get_remove_ne k k' m :
  k ≠ k' → bmap_get k' (bmap_remove k m) = bmap_get k' m.
Proof.
  intros Hne. induction m as [|[k1 v1] m IH]; simpl; [done|].
  destruct (cmp k k1) eqn:E; simpl; [|by rewrite IH..].
  apply cmp_eq_iff in E as <-. assert (cmp k' k ≠ Eq) by (rewrite cmp_eq_iff; congruence).
  by destruct (cmp k' k).
Qed.

Lemma bmap_get_remove_eq k m : bmap_sorted m → bmap_get k (bmap_remove k m) = None.
Proof.
  unfold bmap_sorted, bset_sorted. induction m as [|[k1 v1] m IH]; simpl; [done|].
  intros [Hs Hall]%StronglySorted_inv. destruct (cmp k k1) eqn:E; simpl.
  - apply cmp_eq_iff in E as ->. apply bmap_get_None. intros Hin.
    eapply Forall_forall in Hall; [|done]. by apply cmp_lt_ne in Hall.
  - rewrite E. auto.
  - rewrite E. auto.
Qed.
End bmap.

#[export] Hint Resolve bset_insert_sorted bset_sorted_NoDup bmap_insert_sorted : redline.
