(* ===== verification/F64.v ===== *)
(** * Double-precision comparisons

    An [f64] is its 64 bits.  Comparisons are read off the bits: the IEEE order
    of two numbers that are not NaN is the order of their signed magnitudes, and
    [total_cmp] is defined on the bits by the standard library. *)

From S2P Require Import Prelude.

Definition f64_infinity : Z := 9218868437227405312.
Definition f64_one : Z := 4607182418800017408.
Definition f64_1_03 : Z := 4607317526788838523.

Definition f64_sign (x : Z) : bool := Z.testbit x 63.
Definition f64_magnitude (x : Z) : Z := (x mod 2 ^ 63)%Z.
Definition f64_is_nan (x : Z) : bool := (f64_infinity <? f64_magnitude x)%Z.
Definition f64_is_finite (x : Z) : bool := (f64_magnitude x <? f64_infinity)%Z.

(** Both zeros have order 0. *)
Definition f64_order (x : Z) : Z := if f64_sign x then (- f64_magnitude x)%Z else f64_magnitude x.
Definition f64_lt (x y : Z) : bool :=
  negb (f64_is_nan x) && negb (f64_is_nan y) && (f64_order x <? f64_order y)%Z.
Definition f64_eq (x y : Z) : bool :=
  negb (f64_is_nan x) && negb (f64_is_nan y) && (f64_order x =? f64_order y)%Z.
Definition f64_ge (x y : Z) : bool :=
  negb (f64_is_nan x) && negb (f64_is_nan y) && (f64_order y <=? f64_order x)%Z.

(** [f64::min] returns the other argument when one is NaN. *)
Definition f64_min (x y : Z) : Z :=
  if f64_is_nan x then y else if f64_is_nan y then x
  else if f64_lt y x then y else x.

(** [total_cmp] compares the bits as [i64]s after flipping the magnitude of
    negative numbers. *)
Definition f64_total_key (x : Z) : Z :=
  if f64_sign x then (-1 - f64_magnitude x)%Z else f64_magnitude x.
Definition f64_total_cmp (x y : Z) : comparison := Z.compare (f64_total_key x) (f64_total_key y).

(** A positive number below or at infinity. *)
Definition f64_pos (x : Z) : Prop := f64_sign x = false ∧ (0 < f64_magnitude x ≤ f64_infinity)%Z.

Lemma f64_pos_not_nan x : f64_pos x → f64_is_nan x = false.
Proof. unfold f64_is_nan. intros [_ ?]. lia. Qed.

Lemma f64_pos_order x : f64_pos x → f64_order x = f64_magnitude x ∧ f64_total_key x = f64_magnitude x.
Proof. unfold f64_order, f64_total_key. by intros [-> _]. Qed.

Lemma f64_min_pos x y :
  f64_pos x → f64_pos y →
  f64_pos (f64_min x y) ∧ (f64_order (f64_min x y) ≤ f64_order x)%Z ∧
  (f64_order (f64_min x y) ≤ f64_order y)%Z ∧ (f64_min x y = x ∨ f64_min x y = y).
Proof.
  intros Hx Hy. unfold f64_min, f64_lt. rewrite !f64_pos_not_nan by done. simpl.
  destruct (Z.ltb_spec (f64_order y) (f64_order x)); split_and!; auto; lia.
Qed.

Lemma f64_ge_trans x y z : f64_ge x y = true → f64_ge y z = true → f64_ge x z = true.
Proof.
  unfold f64_ge. rewrite !andb_true_iff, !Z.leb_le. intros [[? ?] ?] [[? ?] ?]. split_and!; auto. lia.
Qed.

Lemma f64_finite_not_nan x : f64_is_finite x = true → f64_is_nan x = false.
Proof. unfold f64_is_finite, f64_is_nan. lia. Qed.

Lemma f64_lt_finite x y :
  f64_is_finite x = true → f64_is_finite y = true →
  f64_lt x y = true ↔ (f64_order x < f64_order y)%Z.
Proof.
  intros Hx%f64_finite_not_nan Hy%f64_finite_not_nan. unfold f64_lt. rewrite Hx, Hy; simpl. lia.
Qed.

Lemma f64_eq_finite x y :
  f64_is_finite x = true → f64_is_finite y = true →
  f64_eq x y = true ↔ f64_order x = f64_order y.
Proof.
  intros Hx%f64_finite_not_nan Hy%f64_finite_not_nan. unfold f64_eq. rewrite Hx, Hy; simpl. lia.
Qed.
