(* ===== verification/Packet.v ===== *)
(** * AQL packets ([redline-rocr/src/packet.rs])

    Packet headers, launch geometry, kernel-dispatch and barrier-AND packets and
    their 64-byte images.  Handles and addresses are 64-bit [Z]s. *)

From S2P Require Import Prelude.

Definition AQL_PACKET_BYTES : nat := 64.
Definition BARRIER_DEPENDENCY_CAPACITY : nat := 5.

Definition PACKET_TYPE_KERNEL_DISPATCH : Z := 2.
Definition PACKET_TYPE_BARRIER_AND : Z := 3.
Definition PACKET_HEADER_TYPE : Z := 0.
Definition PACKET_HEADER_BARRIER : Z := 8.
Definition PACKET_HEADER_SCACQUIRE_FENCE_SCOPE : Z := 9.
Definition PACKET_HEADER_SCRELEASE_FENCE_SCOPE : Z := 11.
Definition KERNEL_DISPATCH_SETUP_DIMENSIONS : Z := 0.

Inductive FenceScope := FenceNone | FenceAgent | FenceSystem.

#[export] Instance FenceScope_eq_dec : EqDecision FenceScope.
Proof. solve_decision. Defined.

(** [scope as u16]. *)
Definition scope_u16 (s : FenceScope) : Z :=
  match s with FenceNone => 0 | FenceAgent => 1 | FenceSystem => 2 end.

Record HeaderPolicy := mkHeader { hdr_barrier : bool; hdr_acquire : FenceScope; hdr_release : FenceScope }.

#[export] Instance HeaderPolicy_eq_dec : EqDecision HeaderPolicy.
Proof. solve_decision. Defined.

Definition RECORDED_DISPATCH := mkHeader true FenceSystem FenceSystem.
Definition CROSS_QUEUE_BARRIER := mkHeader true FenceSystem FenceSystem.
Definition TWO_QUEUE_DISPATCH := mkHeader true FenceSystem FenceAgent.
Definition SAME_AGENT_DISPATCH := mkHeader true FenceAgent FenceAgent.
Definition TWO_QUEUE_DEPENDENCY := mkHeader true FenceNone FenceNone.
Definition TWO_QUEUE_HOST_TERMINAL := mkHeader true FenceNone FenceSystem.
Definition BATCH_BOUNDARY_FIRST_SERIAL := mkHeader true FenceSystem FenceNone.
Definition BATCH_BOUNDARY_INTERNAL_SERIAL := mkHeader true FenceNone FenceNone.
Definition BATCH_INTERNAL_RELEASE_AGENT := mkHeader true FenceNone FenceAgent.
Definition BATCH_INTERNAL_ACQUIRE_AGENT := mkHeader true FenceAgent FenceNone.
Definition BATCH_INTERNAL_RELEASE_SYSTEM := mkHeader true FenceNone FenceSystem.
Definition BATCH_INTERNAL_ACQUIRE_SYSTEM := mkHeader true FenceSystem FenceNone.
Definition BATCH_BOUNDARY_FIRST_INDEPENDENT := mkHeader false FenceSystem FenceNone.
Definition BATCH_BOUNDARY_INTERNAL_INDEPENDENT := mkHeader false FenceNone FenceNone.

(** [u16] shifts drop the bits above the sixteenth. *)
Definition shl16 (x n : Z) : Z := (Z.shiftl x n mod 2 ^ 16)%Z.

Definition packet_header (packet_type : Z) (policy : HeaderPolicy) : Z :=
  let header := shl16 packet_type PACKET_HEADER_TYPE in
  let header := if hdr_barrier policy then Z.lor header (shl16 1 PACKET_HEADER_BARRIER) else header in
  let header := Z.lor header
    (shl16 (scope_u16 (hdr_acquire policy)) PACKET_HEADER_SCACQUIRE_FENCE_SCOPE) in
  Z.lor header (shl16 (scope_u16 (hdr_release policy)) PACKET_HEADER_SCRELEASE_FENCE_SCOPE).

(** ** Errors *)

Inductive PacketError :=
| ZeroDimension (axis : nat)
| WorkgroupExceedsGrid (axis : nat) (workgroup grid : Z)
| InactiveDimensionNotOne (axis : nat)
| GridDimensionOverflow (axis : nat) (workgroups workgroup : Z)
| NullKernelObject
| NullKernarg (required : Z)
| DynamicCallstackNeedsPrivateSize
| DynamicGroupSegmentOverflow (static_bytes dynamic_bytes : Z)
| TooManyBarrierDependencies (count capacity : nat)
| InvalidIndirectBufferAddress (address : Z)
| InvalidIndirectBufferSize (dwords : Z).

(** ** Launch geometry *)

(** A three-element array and its indexing by an axis below three. *)
Record arr3 := mk3 { a3_x : Z; a3_y : Z; a3_z : Z }.
Definition get3 (a : arr3) (axis : nat) : Z :=
  match axis with 0 => a3_x a | 1 => a3_y a | _ => a3_z a end.

Record LaunchGeometry := mkGeometry {
  geo_grid_workitems : arr3;
  geo_workgroup : arr3;
  geo_dimensions : Z
}.

Definition geometry_axis (grid workgroup : arr3) (axis : nat) : result PacketError unit :=
  if (get3 grid axis =? 0)%Z || (get3 workgroup axis =? 0)%Z then Err (ZeroDimension axis)
  else guard_ (get3 grid axis <? get3 workgroup axis)%Z
         (WorkgroupExceedsGrid axis (get3 workgroup axis) (get3 grid axis)).

Definition geometry_new (grid workgroup : arr3) : result PacketError LaunchGeometry :=
  _ ← for_each (geometry_axis grid workgroup) [0; 1; 2];
  let dimensions :=
    if negb (a3_z grid =? 1)%Z || negb (a3_z workgroup =? 1)%Z then 3%Z
    else if negb (a3_y grid =? 1)%Z || negb (a3_y workgroup =? 1)%Z then 2%Z
    else 1%Z in
  if (dimensions <? 3)%Z && (negb (a3_z grid =? 1)%Z || negb (a3_z workgroup =? 1)%Z) then
    Err (InactiveDimensionNotOne 2)
  else if (dimensions <? 2)%Z && (negb (a3_y grid =? 1)%Z || negb (a3_y workgroup =? 1)%Z) then
    Err (InactiveDimensionNotOne 1)
  else Ok (mkGeometry grid workgroup dimensions).

Definition geometry_scale (workgroups workgroup : arr3) (axis : nat) : result PacketError Z :=
  ok_or (checked_mul 32 (get3 workgroups axis) (get3 workgroup axis))
    (GridDimensionOverflow axis (get3 workgroups axis) (get3 workgroup axis)).

Definition from_workgroups (workgroups workgroup : arr3) : result PacketError LaunchGeometry :=
  x ← geometry_scale workgroups workgroup 0;
  y ← geometry_scale workgroups workgroup 1;
  z ← geometry_scale workgroups workgroup 2;
  geometry_new (mk3 x y z) workgroup.

Definition from_hip_workgroups (workgroups workgroup : arr3) : result PacketError LaunchGeometry :=
  geometry ← from_workgroups workgroups workgroup;
  Ok (mkGeometry (geo_grid_workitems geometry) (geo_workgroup geometry) 3).

(** ** Kernel-dispatch packets *)

Record KernelMetadata := mkMetadata {
  md_kernel_object : Z;
  md_kernarg_segment_size : Z;
  md_kernarg_segment_alignment : Z;
  md_group_segment_size : Z;
  md_private_segment_size : Z;
  md_dynamic_callstack : bool
}.

Record KernelDispatchPacket := mkKernelPacket {
  kp_full_header : Z;
  kp_workgroup_size_x : Z;
  kp_workgroup_size_y : Z;
  kp_workgroup_size_z : Z;
  kp_reserved0 : Z;
  kp_grid_size_x : Z;
  kp_grid_size_y : Z;
  kp_grid_size_z : Z;
  kp_private_segment_size : Z;
  kp_group_segment_size : Z;
  kp_kernel_object : Z;
  kp_kernarg_address : Z;
  kp_reserved2 : Z;
  kp_completion_signal : Z
}.

Definition kernel_packet_with_policy (metadata : KernelMetadata) (geometry : LaunchGeometry)
    (dynamic_group_bytes kernarg_address completion_signal : Z) (policy : HeaderPolicy) :
    result PacketError KernelDispatchPacket :=
  if (md_kernel_object metadata =? 0)%Z then Err NullKernelObject
  else if md_dynamic_callstack metadata then Err DynamicCallstackNeedsPrivateSize
  else if negb (md_kernarg_segment_size metadata =? 0)%Z && (kernarg_address =? 0)%Z then
    Err (NullKernarg (md_kernarg_segment_size metadata))
  else
    group_segment_size ← ok_or (checked_add 32 (md_group_segment_size metadata) dynamic_group_bytes)
      (DynamicGroupSegmentOverflow (md_group_segment_size metadata) dynamic_group_bytes);
    let setup := shl16 (geo_dimensions geometry) KERNEL_DISPATCH_SETUP_DIMENSIONS in
    let header := packet_header PACKET_TYPE_KERNEL_DISPATCH policy in
    Ok (mkKernelPacket
          (Z.lor header (Z.shiftl setup 16 mod 2 ^ 32)%Z)
          (a3_x (geo_workgroup geometry)) (a3_y (geo_workgroup geometry)) (a3_z (geo_workgroup geometry))
          0
          (a3_x (geo_grid_workitems geometry)) (a3_y (geo_grid_workitems geometry))
          (a3_z (geo_grid_workitems geometry))
          (md_private_segment_size metadata) group_segment_size (md_kernel_object metadata)
          kernarg_address 0 completion_signal).

Definition kernel_packet_new metadata geometry dynamic_group_bytes kernarg_address completion_signal :=
  kernel_packet_with_policy metadata geometry dynamic_group_bytes kernarg_address completion_signal
    RECORDED_DISPATCH.
Definition kernel_packet_two_queue metadata geometry dynamic_group_bytes kernarg_address completion_signal :=
  kernel_packet_with_policy metadata geometry dynamic_group_bytes kernarg_address completion_signal
    TWO_QUEUE_DISPATCH.

(** ** Barrier-AND packets *)

Record BarrierAndPacket := mkBarrierPacket {
  bp_full_header : Z;
  bp_reserved1 : Z;
  bp_dependency_signals : list Z;
  bp_reserved2 : Z;
  bp_completion_signal : Z
}.

(** [dependency_signals[..len].copy_from_slice(dependencies)] on five zeros. *)
Definition barrier_packet_with_policy (dependencies : list Z) (completion_signal : Z)
    (policy : HeaderPolicy) : result PacketError BarrierAndPacket :=
  if bool_decide (BARRIER_DEPENDENCY_CAPACITY < length dependencies) then
    Err (TooManyBarrierDependencies (length dependencies) BARRIER_DEPENDENCY_CAPACITY)
  else
    let dependency_signals :=
      dependencies ++ drop (length dependencies) (replicate BARRIER_DEPENDENCY_CAPACITY 0%Z) in
    Ok (mkBarrierPacket (packet_header PACKET_TYPE_BARRIER_AND policy) 0 dependency_signals 0
          completion_signal).

Definition barrier_packet_new dependencies completion_signal :=
  barrier_packet_with_policy dependencies completion_signal CROSS_QUEUE_BARRIER.
Definition barrier_two_queue_dependency dependencies :=
  barrier_packet_with_policy dependencies 0 TWO_QUEUE_DEPENDENCY.
Definition barrier_two_queue_host_terminal dependencies completion_signal :=
  barrier_packet_with_policy dependencies completion_signal TWO_QUEUE_HOST_TERMINAL.

(** ** Packet images *)

Record PacketImage := mkImage { img_bytes : list Z; img_header_word : Z }.

(** The [repr(C)] layouts: padding-free little-endian fields. *)
Definition image_kernel (p : KernelDispatchPacket) : PacketImage :=
  mkImage
    (le_bytes 4 (kp_full_header p) ++ le_bytes 2 (kp_workgroup_size_x p)
     ++ le_bytes 2 (kp_workgroup_size_y p) ++ le_bytes 2 (kp_workgroup_size_z p)
     ++ le_bytes 2 (kp_reserved0 p) ++ le_bytes 4 (kp_grid_size_x p)
     ++ le_bytes 4 (kp_grid_size_y p) ++ le_bytes 4 (kp_grid_size_z p)
     ++ le_bytes 4 (kp_private_segment_size p) ++ le_bytes 4 (kp_group_segment_size p)
     ++ le_bytes 8 (kp_kernel_object p) ++ le_bytes 8 (kp_kernarg_address p)
     ++ le_bytes 8 (kp_reserved2 p) ++ le_bytes 8 (kp_completion_signal p))
    (kp_full_header p).

Definition image_barrier (p : BarrierAndPacket) : PacketImage :=
  mkImage
    (le_bytes 4 (bp_full_header p) ++ le_bytes 4 (bp_reserved1 p)
     ++ (bp_dependency_signals p ≫= le_bytes 8) ++ le_bytes 8 (bp_reserved2 p)
     ++ le_bytes 8 (bp_completion_signal p))
    (bp_full_header p).

(** [bytes[at..at + src.len()].copy_from_slice(src)]. *)
Definition copy_at (at_ : nat) (src bytes : list Z) : list Z :=
  take at_ bytes ++ src ++ drop (at_ + length src) bytes.

Definition pm4_indirect_buffer (address dwords completion_signal : Z) : result PacketError PacketImage :=
  if (address =? 0)%Z || negb (Z.land address 3 =? 0)%Z then
    Err (InvalidIndirectBufferAddress address)
  else if (dwords =? 0)%Z || (1048575 <? dwords)%Z then Err (InvalidIndirectBufferSize dwords)
  else
    let pm4_header := Z.lor (Z.lor (Z.shiftl 3 30) (Z.shiftl 2 16)) (Z.shiftl 63 8) in
    let aql_header := packet_header 0 (mkHeader true FenceSystem FenceSystem) in
    let bytes := replicate AQL_PACKET_BYTES 0%Z in
    let bytes := copy_at 0 (le_bytes 2 aql_header) bytes in
    let bytes := copy_at 2 (le_bytes 2 1) bytes in
    let bytes := copy_at 4 (le_bytes 4 pm4_header) bytes in
    let bytes := copy_at 8 (le_bytes 4 (Z.land (address mod 2 ^ 32) 4294967292)) bytes in
    let bytes := copy_at 12 (le_bytes 4 (Z.shiftr address 32 mod 2 ^ 32)) bytes in
    let bytes := copy_at 16 (le_bytes 4 (Z.lor (Z.lor dwords (Z.shiftl 1 23)) (Z.shiftl 3 28))) bytes in
    let bytes := copy_at 20 (le_bytes 4 10) bytes in
    let bytes := copy_at 56 (le_bytes 8 completion_signal) bytes in
    Ok (mkImage bytes (Z.lor aql_header (Z.shiftl 1 16))).

(** ** Headers read back *)

Definition scope_of (x : Z) : FenceScope :=
  if (x =? 0)%Z then FenceNone else if (x =? 1)%Z then FenceAgent else FenceSystem.
Definition header_type (h : Z) : Z := Z.land h 255.
Definition header_policy (h : Z) : HeaderPolicy :=
  mkHeader (Z.testbit h 8) (scope_of (Z.land (Z.shiftr h 9) 3)) (scope_of (Z.land (Z.shiftr h 11) 3)).

Definition all_policies : list HeaderPolicy :=
  [true; false] ≫= λ b, [FenceNone; FenceAgent; FenceSystem] ≫= λ a,
    (λ r, mkHeader b a r) <$> [FenceNone; FenceAgent; FenceSystem].

Lemma elem_of_all_policies p : p ∈ all_policies.
Proof. destruct p as [[] [] []]; vm_compute; repeat constructor. Qed.

Lemma packet_header_bounded t policy :
  (0 ≤ t < 256)%Z →
  header_type (packet_header t policy) = t ∧ header_policy (packet_header t policy) = policy ∧
  in_u 16 (packet_header t policy).
Proof.
  intros Ht.
  assert (forallb (λ t, forallb (λ p,
      (header_type (packet_header (Z.of_nat t) p) =? Z.of_nat t)%Z
      && bool_decide (header_policy (packet_header (Z.of_nat t) p) = p)
      && bool_decide (in_u 16 (packet_header (Z.of_nat t) p))) all_policies) (seq 0 256) = true) as Hall
    by (vm_compute; reflexivity).
  rewrite forallb_forall in Hall. specialize (Hall (Z.to_nat t) ltac:(apply in_seq; lia)).
  rewrite forallb_forall in Hall.
  specialize (Hall policy (proj1 (list_elem_of_In _ _) (elem_of_all_policies policy))).
  rewrite Z2Nat.id in Hall by lia. rewrite !andb_true_iff, Z.eqb_eq, !bool_decide_eq_true in Hall. tauto.
Qed.

(** ** Byte layouts read back *)

Fixpoint le_value (bytes : list Z) : Z :=
  match bytes with [] => 0 | b :: bytes => b + 256 * le_value bytes end%Z.

Definition read_le (at_ n : nat) (bytes : list Z) : Z := le_value (take n (drop at_ bytes)).

Lemma le_value_le_bytes n x : le_value (le_bytes n x) = (x mod 256 ^ Z.of_nat n)%Z.
Proof.
  revert x. induction n as [|n IH]; intros x.
  { simpl. by rewrite Z.mod_1_r. }
  cbn [le_bytes le_value]. rewrite IH, Nat2Z.inj_succ, Z.pow_succ_r by lia.
  rewrite Z.rem_mul_r by lia. lia.
Qed.

Definition layout (fields : list (nat * Z)) : list Z := fields ≫= λ '(n, x), le_bytes n x.
Definition layout_size (fields : list (nat * Z)) : nat := sum_list fields.*1.

Lemma length_layout fields : length (layout fields) = layout_size fields.
Proof.
  unfold layout_size. induction fields as [|[n x] fields IH]; [done|].
  change (layout ((n, x) :: fields)) with (le_bytes n x ++ layout fields).
  rewrite length_app, length_le_bytes, IH. done.
Qed.

Lemma read_layout fs1 n x fs2 :
  read_le (layout_size fs1) n (layout (fs1 ++ (n, x) :: fs2)) = (x mod 256 ^ Z.of_nat n)%Z.
Proof.
  unfold read_le, layout. rewrite bind_app. fold (layout fs1). rewrite drop_app_length' by (by rewrite length_layout).
  change (((n, x) :: fs2) ≫= _) with (le_bytes n x ++ layout fs2).
  rewrite take_app_length' by (by rewrite length_le_bytes). apply le_value_le_bytes.
Qed.

Lemma read_layout_at fs k n x :
  fs !! k = Some (n, x) →
  read_le (layout_size (take k fs)) n (layout fs) = (x mod 256 ^ Z.of_nat n)%Z.
Proof.
  intros Hk. rewrite <-(take_drop_middle fs k (n, x) Hk) at 2. apply read_layout.
Qed.

(** The read of field [k] of the concrete layout [fs]. *)
Ltac read_field fs k :=
  etransitivity; [exact (read_layout_at fs k _ _ eq_refl)
                 |apply Z.mod_small; unfold in_u, umax in *; simpl; lia].

Lemma le_bytes_split a b x :
  (0 ≤ x)%Z → le_bytes (a + b) x = le_bytes a x ++ le_bytes b (x / 256 ^ Z.of_nat a)%Z.
Proof.
  revert x. induction a as [|a IH]; intros x Hx; cbn [le_bytes app Nat.add].
  { by rewrite Z.pow_0_r, Z.div_1_r. }
  rewrite IH by (apply Z.div_pos; lia). do 3 f_equal.
  rewrite Nat2Z.inj_succ, Z.pow_succ_r, Z.div_div by lia. done.
Qed.

Lemma le_bytes_mod n x : le_bytes n (x mod 256 ^ Z.of_nat n)%Z = le_bytes n x.
Proof.
  revert x. induction n as [|n IH]; intros x; cbn [le_bytes]; [done|].
  rewrite Nat2Z.inj_succ, Z.pow_succ_r by lia. rewrite Z.rem_mul_r by lia.
  rewrite (Z.mul_comm 256), Z.mod_add, Zmod_mod by lia. f_equal.
  rewrite Z.div_add by lia. rewrite (Z.div_small (x mod 256)) by (apply Z.mod_pos_bound; lia).
  apply IH.
Qed.

(** A dword as its two halves. *)
Lemma le_bytes_halves x :
  (0 ≤ x)%Z → le_bytes 4 x = le_bytes 2 (x mod 2 ^ 16) ++ le_bytes 2 (x / 2 ^ 16).
Proof. intros Hx. rewrite (le_bytes_split 2 2) by done. by rewrite <-(le_bytes_mod 2 x). Qed.

(** ** Geometry *)

Definition arr3_all (P : Z → Prop) (a : arr3) : Prop := P (a3_x a) ∧ P (a3_y a) ∧ P (a3_z a).

(** The highest axis whose extent is not one. *)
Definition minimal_dimensions (grid workgroup : arr3) : Z :=
  if decide (a3_z grid = 1 ∧ a3_z workgroup = 1)%Z then
    if decide (a3_y grid = 1 ∧ a3_y workgroup = 1)%Z then 1 else 2
  else 3.

Lemma geometry_new_Ok grid workgroup g :
  geometry_new grid workgroup = Ok g ↔
  (∀ axis : nat, axis < 3 → (get3 grid axis ≠ 0 ∧ get3 workgroup axis ≠ 0 ∧
     get3 workgroup axis ≤ get3 grid axis)%Z) ∧
  g = mkGeometry grid workgroup (minimal_dimensions grid workgroup).
Proof.
  unfold geometry_new.
  assert (∀ axis u, geometry_axis grid workgroup axis = Ok u ↔
    (get3 grid axis ≠ 0 ∧ get3 workgroup axis ≠ 0 ∧ get3 workgroup axis ≤ get3 grid axis)%Z) as Haxis.
  { intros axis u. unfold geometry_axis.
    destruct (Z.eqb_spec (get3 grid axis) 0); [naive_solver|].
    destruct (Z.eqb_spec (get3 workgroup axis) 0); [naive_solver|]. simpl.
    rewrite guard_Ok, Z.ltb_ge. tauto. }
  destruct (for_each (geometry_axis grid workgroup) [0; 1; 2]) as [u|e] eqn:Hf;
    cbn [mbind result_bind].
  - rewrite for_each_Ok in Hf. setoid_rewrite Haxis in Hf.
    assert (∀ axis, axis < 3 → (get3 grid axis ≠ 0 ∧ get3 workgroup axis ≠ 0 ∧
      get3 workgroup axis ≤ get3 grid axis)%Z) as Hall.
    { intros axis Ha. apply Hf. destruct axis as [|[|[|]]]; [set_solver..|lia]. }
    unfold minimal_dimensions.
    destruct (Z.eqb_spec (a3_z grid) 1), (Z.eqb_spec (a3_z workgroup) 1),
      (Z.eqb_spec (a3_y grid) 1), (Z.eqb_spec (a3_y workgroup) 1); simpl;
      repeat case_decide; naive_solver.
  - split; [done|]. intros [Hall _].
    apply for_each_Err in Hf as (l1 & axis & l2 & Hl & He & _).
    assert (axis < 3) as Ha.
    { assert (axis ∈ [0; 1; 2]) as Hin by (rewrite Hl; set_solver).
      rewrite !elem_of_cons in Hin. destruct Hin as [->|[->|[->|Hin]]]; [lia..|set_solver]. }
    rewrite (proj2 (Haxis axis tt) (Hall axis Ha)) in He. done.
Qed.

Lemma from_workgroups_Ok ws wg g :
  arr3_all (in_u 32) ws → arr3_all (in_u 16) wg →
  from_workgroups ws wg = Ok g ↔
  (∀ axis : nat, axis < 3 →
     (get3 ws axis ≠ 0 ∧ get3 wg axis ≠ 0 ∧ get3 ws axis * get3 wg axis ≤ umax 32)%Z) ∧
  let grid := mk3 (a3_x ws * a3_x wg) (a3_y ws * a3_y wg) (a3_z ws * a3_z wg) in
  g = mkGeometry grid wg (minimal_dimensions grid wg).
Proof.
  intros (Hx & Hy & Hz) (Hx' & Hy' & Hz'). unfold in_u in *.
  assert (∀ axis v, geometry_scale ws wg axis = Ok v ↔
    v = get3 ws axis * get3 wg axis ∧ get3 ws axis * get3 wg axis ≤ umax 32)%Z as Hs.
  { intros axis v. unfold geometry_scale. by rewrite ok_or_Ok, checked_mul_Some. }
  assert (∀ P : nat → Prop, (∀ axis, axis < 3 → P axis) ↔ P 0 ∧ P 1 ∧ P 2) as H3.
  { intros P. split; [intros H; split_and!; apply H; lia|].
    intros (? & ? & ?) [|[|[|]]] ?; [done..|lia]. }
  unfold from_workgroups. split.
  - intros Hg. invert_ok. rewrite Hs in *. destruct_and!. subst.
    apply geometry_new_Ok in Hg as [Hall ->]. split; [|done].
    rewrite H3 in *; simpl in *. split_and!; nia.
  - intros [Hall ->]. rewrite H3 in Hall. destruct Hall as (H0 & H1 & H2).
    rewrite (proj2 (Hs 0 _) (conj eq_refl (proj2 (proj2 H0)))),
      (proj2 (Hs 1 _) (conj eq_refl (proj2 (proj2 H1)))),
      (proj2 (Hs 2 _) (conj eq_refl (proj2 (proj2 H2)))). cbn [mbind result_bind].
    apply geometry_new_Ok. split; [|done]. rewrite H3; simpl in *. split_and!; nia.
Qed.

(** ** Images *)

Definition kernel_fields (p : KernelDispatchPacket) : list (nat * Z) :=
  [(4, kp_full_header p); (2, kp_workgroup_size_x p); (2, kp_workgroup_size_y p);
   (2, kp_workgroup_size_z p); (2, kp_reserved0 p); (4, kp_grid_size_x p); (4, kp_grid_size_y p);
   (4, kp_grid_size_z p); (4, kp_private_segment_size p); (4, kp_group_segment_size p);
   (8, kp_kernel_object p); (8, kp_kernarg_address p); (8, kp_reserved2 p);
   (8, kp_completion_signal p)].

Lemma image_kernel_layout p : img_bytes (image_kernel p) = layout (kernel_fields p).
Proof. reflexivity. Qed.

Definition metadata_typed (m : KernelMetadata) : Prop :=
  in_u 64 (md_kernel_object m) ∧ in_u 32 (md_kernarg_segment_size m) ∧
  in_u 32 (md_group_segment_size m) ∧ in_u 32 (md_private_segment_size m).
Definition geometry_typed (g : LaunchGeometry) : Prop :=
  arr3_all (in_u 32) (geo_grid_workitems g) ∧ arr3_all (in_u 16) (geo_workgroup g) ∧
  (1 ≤ geo_dimensions g ≤ 3)%Z.

Lemma kernel_packet_Ok m g dyn kernarg signal policy p :
  kernel_packet_with_policy m g dyn kernarg signal policy = Ok p →
  md_kernel_object m ≠ 0%Z ∧ md_dynamic_callstack m = false ∧
  (md_kernarg_segment_size m ≠ 0%Z → kernarg ≠ 0%Z) ∧
  (md_group_segment_size m + dyn ≤ umax 32)%Z ∧
  p = mkKernelPacket
        (Z.lor (packet_header PACKET_TYPE_KERNEL_DISPATCH policy)
           (Z.shiftl (shl16 (geo_dimensions g) 0) 16 mod 2 ^ 32)%Z)
        (a3_x (geo_workgroup g)) (a3_y (geo_workgroup g)) (a3_z (geo_workgroup g)) 0
        (a3_x (geo_grid_workitems g)) (a3_y (geo_grid_workitems g)) (a3_z (geo_grid_workitems g))
        (md_private_segment_size m) (md_group_segment_size m + dyn) (md_kernel_object m)
        kernarg 0 signal.
Proof.
  unfold kernel_packet_with_policy. destruct (Z.eqb_spec (md_kernel_object m) 0); [done|].
  destruct (md_dynamic_callstack m); [done|].
  destruct (negb (md_kernarg_segment_size m =? 0)%Z && (kernarg =? 0)%Z) eqn:Ek; [done|].
  intros Hp. invert_ok. subst p.
  match goal with H : checked_add _ _ _ = Some _ |- _ => apply checked_add_Some in H as [-> ?] end.
  split_and!; [done..| |done|done]. intros Hs Hk. subst.
  rewrite (proj2 (Z.eqb_neq _ _) Hs) in Ek. done.
Qed.

(** The first dword is the header in its low half and the setup in its high half. *)
Lemma full_header_halves policy d :
  (1 ≤ d ≤ 3)%Z →
  let full := Z.lor (packet_header PACKET_TYPE_KERNEL_DISPATCH policy)
                (Z.shiftl (shl16 d 0) 16 mod 2 ^ 32)%Z in
  in_u 32 full ∧ (full mod 2 ^ 16 = packet_header PACKET_TYPE_KERNEL_DISPATCH policy)%Z ∧
  (full / 2 ^ 16 = d)%Z.
Proof.
  intros Hd. assert (d = 1 ∨ d = 2 ∨ d = 3)%Z as [->|[->| ->]] by lia;
    destruct policy as [[] [] []]; vm_compute; split_and!; (done || (intros; discriminate)).
Qed.

(** What a command processor reads from the 64 bytes at the HSA offsets. *)
Record kernel_image_reads (bytes : list Z) (policy : HeaderPolicy) (m : KernelMetadata)
    (g : LaunchGeometry) (dyn kernarg signal : Z) : Prop := {
  ki_length : length bytes = AQL_PACKET_BYTES;
  ki_type : header_type (read_le 0 2 bytes) = PACKET_TYPE_KERNEL_DISPATCH;
  ki_policy : header_policy (read_le 0 2 bytes) = policy;
  ki_setup : read_le 2 2 bytes = geo_dimensions g;
  ki_workgroup : mk3 (read_le 4 2 bytes) (read_le 6 2 bytes) (read_le 8 2 bytes) = geo_workgroup g;
  ki_grid : mk3 (read_le 12 4 bytes) (read_le 16 4 bytes) (read_le 20 4 bytes) = geo_grid_workitems g;
  ki_private : read_le 24 4 bytes = md_private_segment_size m;
  ki_group : read_le 28 4 bytes = (md_group_segment_size m + dyn)%Z;
  ki_object : read_le 32 8 bytes = md_kernel_object m;
  ki_kernarg : read_le 40 8 bytes = kernarg;
  ki_signal : read_le 56 8 bytes = signal
}.

Lemma kernel_image_ok m g dyn kernarg signal policy p :
  metadata_typed m → geometry_typed g → (0 ≤ dyn)%Z → in_u 64 kernarg → in_u 64 signal →
  kernel_packet_with_policy m g dyn kernarg signal policy = Ok p →
  kernel_image_reads (img_bytes (image_kernel p)) policy m g dyn kernarg signal ∧
  img_header_word (image_kernel p) = read_le 0 4 (img_bytes (image_kernel p)).
Proof.
  intros (Hm1 & Hm2 & Hm3 & Hm4) ((Hg1 & Hg2 & Hg3) & (Hw1 & Hw2 & Hw3) & Hd) Hdyn Hk Hs.
  intros (_ & _ & _ & Hle & ->)%kernel_packet_Ok.
  set (full := Z.lor _ _). destruct (full_header_halves policy _ Hd) as (Hfull & Hlow & Hhigh).
  fold full in Hfull, Hlow, Hhigh.
  destruct (packet_header_bounded PACKET_TYPE_KERNEL_DISPATCH policy) as (Ht & Hp & Hh);
    [unfold PACKET_TYPE_KERNEL_DISPATCH; lia|].
  rewrite image_kernel_layout. set (p := mkKernelPacket _ _ _ _ _ _ _ _ _ _ _ _ _ _).
  set (halves := (2, (full mod 2 ^ 16)%Z) :: (2, (full / 2 ^ 16)%Z) :: tail (kernel_fields p)).
  assert (layout (kernel_fields p) = layout halves) as Hsplit.
  { change (layout (kernel_fields p)) with (le_bytes 4 full ++ layout (tail (kernel_fields p))).
    rewrite le_bytes_halves, <-app_assoc by (unfold in_u in Hfull; lia). reflexivity. }
  assert (read_le 0 2 (layout halves) = packet_header PACKET_TYPE_KERNEL_DISPATCH policy) as H0.
  { etransitivity; [exact (read_layout_at halves 0 _ _ eq_refl)|]. rewrite Hlow.
    apply Z.mod_small. unfold in_u, umax in Hh. simpl. lia. }
  assert (read_le 0 4 (layout halves) = full) as H4.
  { rewrite <-Hsplit. read_field (kernel_fields p) 0. }
  rewrite Hsplit. split; [|done]. split.
  - by rewrite length_layout.
  - by rewrite H0.
  - by rewrite H0.
  - rewrite <-Hhigh. read_field halves 1.
  - transitivity (mk3 (a3_x (geo_workgroup g)) (a3_y (geo_workgroup g)) (a3_z (geo_workgroup g)));
      [|by destruct (geo_workgroup g)].
    f_equal; [read_field halves 2|read_field halves 3|read_field halves 4].
  - transitivity (mk3 (a3_x (geo_grid_workitems g)) (a3_y (geo_grid_workitems g))
                    (a3_z (geo_grid_workitems g))); [|by destruct (geo_grid_workitems g)].
    f_equal; [read_field halves 6|read_field halves 7|read_field halves 8].
  - read_field halves 9.
  - read_field halves 10.
  - read_field halves 11.
  - read_field halves 12.
  - read_field halves 14.
Qed.

Definition barrier_fields (p : BarrierAndPacket) : list (nat * Z) :=
  [(4, bp_full_header p); (4, bp_reserved1 p)] ++ ((8,.) <$> bp_dependency_signals p)
  ++ [(8, bp_reserved2 p); (8, bp_completion_signal p)].

Lemma image_barrier_layout p : img_bytes (image_barrier p) = layout (barrier_fields p).
Proof.
  unfold barrier_fields, layout. rewrite !bind_app. unfold image_barrier; cbn [img_bytes].
  cbn [mbind list_bind]. rewrite !app_nil_r, <-!app_assoc. do 2 f_equal. f_equal.
  induction (bp_dependency_signals p) as [|x l IH]; [done|]. cbn. by rewrite <-IH.
Qed.

Record barrier_image_reads (bytes : list Z) (policy : HeaderPolicy) (deps : list Z) (signal : Z) :
    Prop := {
  bi_length : length bytes = AQL_PACKET_BYTES;
  bi_type : header_type (read_le 0 4 bytes) = PACKET_TYPE_BARRIER_AND;
  bi_policy : header_policy (read_le 0 4 bytes) = policy;
  bi_deps k : k < BARRIER_DEPENDENCY_CAPACITY → read_le (8 + 8 * k) 8 bytes = default 0%Z (deps !! k);
  bi_signal : read_le 56 8 bytes = signal
}.

Lemma barrier_image_ok deps signal policy p :
  Forall (in_u 64) deps → in_u 64 signal →
  barrier_packet_with_policy deps signal policy = Ok p →
  barrier_image_reads (img_bytes (image_barrier p)) policy deps signal.
Proof.
  intros Hdeps Hs. unfold barrier_packet_with_policy. case_bool_decide as Hlen; [done|]. intros [= <-].
  rewrite image_barrier_layout. unfold BARRIER_DEPENDENCY_CAPACITY in Hlen.
  set (padded := deps ++ _).
  assert (length padded = 5) as H5.
  { unfold padded, BARRIER_DEPENDENCY_CAPACITY. rewrite length_app, length_drop. simpl. lia. }
  assert (∀ k, k < 5 → padded !! k = Some (default 0%Z (deps !! k))) as Hk.
  { intros k Hk. unfold padded. destruct (decide (k < length deps)) as [Hlt|Hge].
    - rewrite lookup_app_l by done. by destruct (lookup_lt_is_Some_2 deps k Hlt) as [x ->].
    - rewrite lookup_app_r, lookup_drop by lia.
      rewrite (lookup_ge_None_2 deps k) by lia. apply (lookup_replicate_2 5 0%Z). lia. }
  assert (Forall (in_u 64) padded) as Hpad.
  { apply Forall_app. split; [done|]. apply Forall_drop. by repeat constructor. }
  destruct (packet_header_bounded PACKET_TYPE_BARRIER_AND policy) as (Ht & Hp & Hh);
    [unfold PACKET_TYPE_BARRIER_AND; lia|].
  destruct padded as [|x0 [|x1 [|x2 [|x3 [|x4 [|? ?]]]]]]; try discriminate H5.
  set (fs := barrier_fields _).
  assert (read_le 0 4 (layout fs) = packet_header PACKET_TYPE_BARRIER_AND policy) as H0.
  { read_field fs 0. }
  rewrite !Forall_cons in Hpad. destruct Hpad as (P0 & P1 & P2 & P3 & P4 & _). split.
  - by rewrite length_layout.
  - by rewrite H0.
  - by rewrite H0.
  - intros k Hlt. specialize (Hk k Hlt). destruct k as [|[|[|[|[|k]]]]]; simpl in Hk.
    + injection Hk as <-. read_field fs 2.
    + injection Hk as <-. read_field fs 3.
    + injection Hk as <-. read_field fs 4.
    + injection Hk as <-. read_field fs 5.
    + injection Hk as <-. read_field fs 6.
    + unfold BARRIER_DEPENDENCY_CAPACITY in Hlt. lia.
  - read_field fs 8.
Qed.

(** ** The PM4 indirect-buffer packet *)

Lemma land_aligned x :
  (0 ≤ x < 2 ^ 32)%Z → (x mod 4 = 0)%Z → Z.land x 4294967292 = x.
Proof.
  intros Hx Hm. pose proof (Z.div_mod x 4 ltac:(lia)) as Hd. rewrite Hm in Hd.
  assert (x = Z.shiftl (x / 4) 2) as Hsh by (rewrite Z.shiftl_mul_pow2 by lia; lia).
  rewrite Hsh at 1. change 4294967292%Z with (Z.shiftl (Z.ones 30) 2).
  rewrite <-Z.shiftl_land, Z.land_ones, Z.mod_small by lia. by rewrite <-Hsh.
Qed.

Record ib_image_reads (bytes : list Z) (address dwords signal : Z) : Prop := {
  ib_length : length bytes = AQL_PACKET_BYTES;
  ib_type : header_type (read_le 0 2 bytes) = 0%Z;
  ib_policy : header_policy (read_le 0 2 bytes) = mkHeader true FenceSystem FenceSystem;
  ib_format : read_le 2 2 bytes = 1%Z;
  ib_opcode : Z.land (Z.shiftr (read_le 4 4 bytes) 8) 255 = 63%Z;
  ib_address : (read_le 8 4 bytes + 2 ^ 32 * read_le 12 4 bytes = address)%Z;
  ib_dwords : Z.land (read_le 16 4 bytes) 1048575 = dwords;
  ib_signal : read_le 56 8 bytes = signal
}.

Lemma ib_image_ok address dwords signal image :
  in_u 64 address → in_u 32 dwords → in_u 64 signal →
  pm4_indirect_buffer address dwords signal = Ok image →
  ib_image_reads (img_bytes image) address dwords signal.
Proof.
  intros Ha Hd Hs. unfold pm4_indirect_buffer.
  destruct (Z.eqb_spec address 0); [done|]. simpl.
  destruct (Z.eqb_spec (Z.land address 3) 0) as [H3|]; [|done]. simpl.
  destruct (Z.eqb_spec dwords 0); [done|]. simpl.
  destruct (Z.ltb_spec 1048575 dwords); [done|]. intros [= <-]. cbn [img_bytes].
  change 3%Z with (Z.ones 2) in H3. rewrite Z.land_ones in H3 by lia.
  set (lo := Z.land _ _). set (hi := (Z.shiftr address 32 mod 2 ^ 32)%Z). set (dw := Z.lor (Z.lor dwords _) _).
  assert (lo = address mod 2 ^ 32)%Z as Hlo.
  { apply land_aligned; [apply Z.mod_pos_bound; lia|].
    rewrite Z.mod_mod_divide; [done|]. by exists (2 ^ 30)%Z. }
  unfold in_u, umax in *.
  assert (hi = address / 2 ^ 32)%Z as Hhi.
  { unfold hi. rewrite Z.shiftr_div_pow2 by lia. apply Z.mod_small.
    split; [apply Z.div_pos; lia|apply Z.div_lt_upper_bound; lia]. }
  assert (Z.land dw 1048575 = dwords) as Hland.
  { unfold dw. change 1048575%Z with (Z.ones 20). rewrite !Z.land_lor_distr_l.
    change (Z.land (Z.shiftl 1 23) (Z.ones 20)) with 0%Z. change (Z.land (Z.shiftl 3 28) (Z.ones 20)) with 0%Z.
    rewrite !Z.lor_0_r, Z.land_ones by lia. apply Z.mod_small. lia. }
  assert (0 ≤ dw < 2 ^ 32)%Z as Hdw.
  { assert (0 < dw)%Z as Hpos.
    { assert (0 ≤ dw)%Z by (unfold dw; rewrite !Z.lor_nonneg; split_and!; (lia || by vm_compute)).
      assert (dw ≠ 0)%Z; [|lia]. intros E. rewrite E in Hland. rewrite Z.land_0_l in Hland. congruence. }
    split; [lia|]. apply Z.log2_lt_pow2; [done|]. unfold dw.
    rewrite !Z.log2_lor by (rewrite ?Z.lor_nonneg; split_and?; (lia || by vm_compute)).
    assert (Z.log2 dwords < 32)%Z by (apply Z.log2_lt_pow2; lia).
    change (Z.log2 (Z.shiftl 1 23)) with 23%Z. change (Z.log2 (Z.shiftl 3 28)) with 29%Z. lia. }
  set (zeros := (8, 0%Z)).
  set (fs := [(2, packet_header 0 (mkHeader true FenceSystem FenceSystem)); (2, 1%Z);
              (4, Z.lor (Z.lor (Z.shiftl 3 30) (Z.shiftl 2 16)) (Z.shiftl 63 8)); (4, lo); (4, hi); (4, dw);
              (4, 10%Z); zeros; zeros; zeros; zeros; (8, signal)]).
  match goal with |- ib_image_reads ?bytes _ _ _ => assert (bytes = layout fs) as -> by reflexivity end.
  assert (0 ≤ lo < 2 ^ 32)%Z as Hlob by (rewrite Hlo; apply Z.mod_pos_bound; lia).
  assert (0 ≤ hi < 2 ^ 32)%Z as Hhib.
  { rewrite Hhi. split; [apply Z.div_pos; lia|apply Z.div_lt_upper_bound; lia]. }
  split.
  - by rewrite length_layout.
  - reflexivity.
  - reflexivity.
  - reflexivity.
  - reflexivity.
  - assert (read_le 8 4 (layout fs) = lo) as -> by read_field fs 3.
    assert (read_le 12 4 (layout fs) = hi) as -> by read_field fs 4.
    rewrite Hlo, Hhi. pose proof (Z.div_mod address (2 ^ 32) ltac:(lia)). lia.
  - assert (read_le 16 4 (layout fs) = dw) as -> by read_field fs 5. done.
  - read_field fs 11.
Qed.

(** The image of a vendor packet is 64 bytes with its header word in front. *)
Lemma ib_image_header address dwords signal image :
  pm4_indirect_buffer address dwords signal = Ok image →
  take 4 (img_bytes image) = le_bytes 4 (img_header_word image).
Proof.
  unfold pm4_indirect_buffer. destruct (_ || _); [done|]. destruct (_ || _); [done|]. by intros [= <-].
Qed.

(** ** Main results *)

(** A kernel-dispatch packet built from machine-width inputs has a 64-byte
    image in which the command processor finds, at the HSA offsets, the dispatch
    type, the requested barrier and fences, the dimensions, both launch extents,
    the segment sizes (static plus dynamic group bytes), the kernel object, the
    kernarg address and the completion signal; the word published last is the
    image's first dword. *)
Theorem kernel_image_faithful m g dyn kernarg signal policy p :
  metadata_typed m → geometry_typed g → (0 ≤ dyn)%Z → in_u 64 kernarg → in_u 64 signal →
  kernel_packet_with_policy m g dyn kernarg signal policy = Ok p →
  kernel_image_reads (img_bytes (image_kernel p)) policy m g dyn kernarg signal ∧
  img_header_word (image_kernel p) = read_le 0 4 (img_bytes (image_kernel p)).
Proof. apply kernel_image_ok. Qed.

Lemma kernel_image_faithful_witness :
  let m := mkMetadata 281474976710912 64 16 512 0 false in
  let g := mkGeometry (mk3 1024 2 1) (mk3 256 1 1) 3 in
  ∃ p, kernel_packet_with_policy m g 128 4096 77 SAME_AGENT_DISPATCH = Ok p ∧
    header_policy (read_le 0 2 (img_bytes (image_kernel p))) = SAME_AGENT_DISPATCH.
Proof.
  intros m g. eexists. split; [vm_compute; reflexivity|].
  eapply (kernel_image_faithful m g 128 4096 77 SAME_AGENT_DISPATCH);
    [..|vm_compute; reflexivity];
    unfold metadata_typed, geometry_typed, arr3_all, in_u, umax; simpl; lia.
Defined.

(** A barrier-AND packet is built exactly for at most five dependencies, and
    its image holds their signals, zero-padded, behind a barrier-AND header. *)
Theorem barrier_image_faithful deps signal policy :
  Forall (in_u 64) deps → in_u 64 signal →
  (5 < length deps ∧
    barrier_packet_with_policy deps signal policy = Err (TooManyBarrierDependencies (length deps) 5)) ∨
  (length deps ≤ 5 ∧ ∃ p, barrier_packet_with_policy deps signal policy = Ok p ∧
    barrier_image_reads (img_bytes (image_barrier p)) policy deps signal).
Proof.
  intros Hdeps Hs. destruct (decide (5 < length deps)) as [Hlen|Hlen].
  - left. split; [done|]. unfold barrier_packet_with_policy. by rewrite bool_decide_eq_true_2.
  - right. split; [lia|].
    destruct (barrier_packet_with_policy deps signal policy) as [p|e] eqn:E.
    + exists p. split; [done|]. by apply barrier_image_ok.
    + unfold barrier_packet_with_policy in E. rewrite bool_decide_eq_false_2 in E by done. done.
Qed.

Lemma barrier_image_faithful_witness :
  ∃ p, barrier_packet_with_policy [11; 22]%Z 33 TWO_QUEUE_DEPENDENCY = Ok p ∧
    read_le 16 8 (img_bytes (image_barrier p)) = 22%Z.
Proof.
  destruct (barrier_image_faithful [11; 22]%Z 33 TWO_QUEUE_DEPENDENCY) as [[H _]|(_ & p & Hp & Hr)].
  - repeat constructor; unfold in_u, umax; simpl; lia.
  - unfold in_u, umax; lia.
  - exfalso. simpl in H. lia.
  - exists p. split; [exact Hp|]. apply (bi_deps _ _ _ _ Hr 1). unfold BARRIER_DEPENDENCY_CAPACITY. lia.
Defined.

(** HIP-style geometry is accepted exactly when no extent is zero and every
    axis' work-item count fits 32 bits; it then has the products as its grid and
    three dimensions.  The inactive-dimension errors are never reported. *)
Theorem hip_geometry_exact ws wg :
  arr3_all (in_u 32) ws → arr3_all (in_u 16) wg →
  (∀ g, from_hip_workgroups ws wg = Ok g ↔
    (∀ axis : nat, axis < 3 →
      (get3 ws axis ≠ 0 ∧ get3 wg axis ≠ 0 ∧ get3 ws axis * get3 wg axis ≤ umax 32)%Z) ∧
    g = mkGeometry (mk3 (a3_x ws * a3_x wg) (a3_y ws * a3_y wg) (a3_z ws * a3_z wg)) wg 3) ∧
  (∀ axis, from_hip_workgroups ws wg ≠ Err (InactiveDimensionNotOne axis)).
Proof.
  intros Hws Hwg. unfold from_hip_workgroups. split.
  - intros g. split.
    + intros Hg. invert_ok.
      match goal with H : from_workgroups _ _ = Ok _ |- _ => apply from_workgroups_Ok in H as [? ->] end; done.
    + intros [Hall ->]. by rewrite (proj2 (from_workgroups_Ok ws wg _ Hws Hwg) (conj Hall eq_refl)).
  - intros axis. unfold from_workgroups, geometry_scale.
    destruct (checked_mul 32 (get3 ws 0) _), (checked_mul 32 (get3 ws 1) _),
      (checked_mul 32 (get3 ws 2) _); cbn [ok_or mbind result_bind]; try done.
    unfold geometry_new. destruct (for_each _ _) as [u|e] eqn:Hf; cbn [mbind result_bind].
    + destruct (Z.eqb_spec (a3_z (mk3 z z0 z1)) 1), (Z.eqb_spec (a3_z wg) 1),
        (Z.eqb_spec (a3_y (mk3 z z0 z1)) 1), (Z.eqb_spec (a3_y wg) 1); simpl; congruence.
    + apply for_each_Err in Hf as (l1 & a & l2 & _ & He & _). unfold geometry_axis in He.
      destruct (_ || _); [by intros [= ->]|]. unfold guard_ in He. case_match; [|done].
      intros [= ->]. done.
Qed.

Lemma hip_geometry_exact_witness :
  from_hip_workgroups (mk3 4 2 1) (mk3 256 1 1) = Ok (mkGeometry (mk3 1024 2 1) (mk3 256 1 1) 3).
Proof.
  destruct (hip_geometry_exact (mk3 4 2 1) (mk3 256 1 1)) as [H _].
  - unfold arr3_all, in_u, umax; simpl; lia.
  - unfold arr3_all, in_u, umax; simpl; lia.
  - apply H. split; [|reflexivity]. intros [|[|[|axis]]] Ha; unfold umax; simpl; lia.
Defined.

(** The PM4 indirect-buffer packet is accepted exactly for a non-null,
    dword-aligned address and a non-zero length below 2^20 dwords, and the
    image then is 64 bytes of a vendor packet with a system-scope barrier
    header in which the indirect-buffer opcode, the address, the length and
    the completion signal read back unchanged. *)
Theorem ib_image_faithful address dwords signal :
  in_u 64 address → in_u 32 dwords → in_u 64 signal →
  match pm4_indirect_buffer address dwords signal with
  | Ok image => ib_image_reads (img_bytes image) address dwords signal ∧
      (address ≠ 0 ∧ address mod 4 = 0 ∧ 0 < dwords < 2 ^ 20)%Z
  | Err (InvalidIndirectBufferAddress a) => a = address ∧ (address = 0 ∨ address mod 4 ≠ 0)%Z
  | Err (InvalidIndirectBufferSize n) => n = dwords ∧ (dwords = 0 ∨ 2 ^ 20 ≤ dwords)%Z
  | Err _ => False
  end.
Proof.
  intros Ha Hd Hs. destruct (pm4_indirect_buffer address dwords signal) as [image|e] eqn:E.
  { split; [by eapply ib_image_ok|]. revert E. unfold pm4_indirect_buffer, in_u in *.
    change 3%Z with (Z.ones 2). rewrite Z.land_ones by lia. change (2 ^ 2)%Z with 4%Z.
    destruct (Z.eqb_spec address 0); [done|].
    destruct (Z.eqb_spec (address mod 4) 0); [|done].
    destruct (Z.eqb_spec dwords 0); [done|].
    destruct (Z.ltb_spec 1048575 dwords); [done|]. cbn [orb negb].
    intros _. split_and!; [done|done|lia|]. change (2 ^ 20)%Z with 1048576%Z. lia. }
  revert E. unfold pm4_indirect_buffer. change 3%Z with (Z.ones 2). rewrite Z.land_ones by lia.
  change (2 ^ 2)%Z with 4%Z. destruct (Z.eqb_spec address 0); [intros [= <-]; auto|].
  destruct (Z.eqb_spec (address mod 4) 0); cbn [orb negb]; [|intros [= <-]; auto].
  destruct (Z.eqb_spec dwords 0); [intros [= <-]; auto|].
  destruct (Z.ltb_spec 1048575 dwords); [|done]. intros [= <-]. lia.
Qed.

Lemma ib_image_faithful_witness :
  ∃ image, pm4_indirect_buffer 0x7f0000001000 96 0x5000 = Ok image ∧
    ib_image_reads (img_bytes image) 0x7f0000001000 96 0x5000.
Proof.
  pose proof (ib_image_faithful 0x7f0000001000 96 0x5000 ltac:(by vm_compute) ltac:(by vm_compute)
    ltac:(by vm_compute)) as H.
  destruct (pm4_indirect_buffer 0x7f0000001000 96 0x5000) as [image|] eqn:E; [|by vm_compute in E].
  exists image. split; [done|apply H].
Defined.
