(* ===== verification/Device.v ===== *)
(** * Device objects ([redline-rocr/src/runtime.rs])

    What the packet code relies on of the HSA runtime: kernels as the loader
    describes them, kernarg buffers and the launch limits of a GPU.  The HSA
    calls themselves are not modelled; their outcomes are fields of
    [GpuDevice] or arguments. *)

From S2P Require Import Prelude Packet.

Record KernelPm4Metadata := mkPm4 {
  pm4_code_entry : Z;
  pm4_compute_pgm_rsrc1 : Z;
  pm4_compute_pgm_rsrc2 : Z;
  pm4_compute_pgm_rsrc3 : Z;
  pm4_kernel_code_properties : Z
}.

(** A loaded kernel; [k_agent] is the agent of its executable. *)
Record Kernel := mkKernel {
  k_name : rstr;
  k_metadata : KernelMetadata;
  k_pm4 : option KernelPm4Metadata;
  k_agent : Z
}.

(** A kernarg buffer: its address, its bytes and the agent of its pool. *)
Record KernargBuffer := mkKernarg {
  ka_address : Z;
  ka_bytes : list Z;
  ka_agent : Z
}.

(** The errors the modelled code distinguishes; the failures of HSA calls are
    kept as their status. *)
Inductive RuntimeError :=
| HsaFailure (status : Z)
| QueueFault (queue_id status : Z)
| QueueInactive (queue_id : Z)
| QueueCapacityTimeout (queue_id packets : Z)
| SignalTimeout (signal : Z)
| OperationAndTeardown (operation teardown : RuntimeError)
| ZeroQueues
| DuplicateQueueId
| InvalidKernargAlignment (alignment : Z)
| KernargAlignmentNotMet (required address : Z)
| KernargSizeOverflow (length : Z)
| KernargLengthMismatch (expected actual : Z)
| WorkgroupLimit (axis : nat) (requested maximum : Z)
| GridLimit (axis : nat) (requested maximum : Z).

#[export] Instance RuntimeError_eq_dec : EqDecision RuntimeError.
Proof. solve_decision. Defined.

(** A GPU agent with its launch limits, and the outcomes of the HSA calls that
    the graphs make on it: [gpu_queue_sizes count size] of creating a queue set
    (the sizes of the queues), [gpu_signal i] of the [i]-th completion signal a
    graph creates (its handle), [gpu_frequency] of the timestamp frequency. *)
Record GpuDevice := mkGpu {
  gpu_agent : Z;
  gpu_workgroup_max_dim : arr3;
  gpu_workgroup_max_size : Z;
  gpu_grid_max_dim : arr3;
  gpu_grid_max_size : Z;
  gpu_queue_min : Z;
  gpu_queue_max : Z;
  gpu_queue_sizes : nat → Z → result RuntimeError (list Z);
  gpu_signal : nat → result RuntimeError Z;
  gpu_profiling : result RuntimeError unit;
  gpu_frequency : result RuntimeError Z
}.

(** ** Kernarg memory *)

(** A memory pool; [pool_allocate i size] is the outcome of the [i]-th raw
    allocation (budget reservation included), [pool_allow_access i] of granting
    access to it. *)
Record KernargPool := mkPool {
  pool_gpu : Z;
  pool_granule : Z;
  pool_alignment : Z;
  pool_allocate : nat → Z → result RuntimeError Z;
  pool_allow_access : nat → result RuntimeError unit
}.

Definition is_power_of_two (x : Z) : bool := (0 <? x)%Z && (Z.land x (x - 1) =? 0)%Z.

Definition allocate_bytes (pool : KernargPool) (i : nat) (length required_alignment : Z) :
    result RuntimeError KernargBuffer :=
  if negb (is_power_of_two required_alignment) then Err (InvalidKernargAlignment required_alignment)
  else if (length =? 0)%Z then Ok (mkKernarg 0 [] (pool_gpu pool))
  else
    rounded ← ok_or (checked_add 64 length (pool_granule pool - 1)) (KernargSizeOverflow length);
    let allocation_size := (rounded / pool_granule pool * pool_granule pool)%Z in
    pointer ← pool_allocate pool i allocation_size;
    if negb (pointer mod required_alignment =? 0)%Z || negb (pointer mod pool_alignment pool =? 0)%Z
    then Err (KernargAlignmentNotMet (Z.max required_alignment (pool_alignment pool)) pointer)
    else
      _ ← pool_allow_access pool i;
      Ok (mkKernarg pointer (replicate (Z.to_nat length) 0%Z) (pool_gpu pool)).

Definition allocate_for (pool : KernargPool) (i : nat) (m : KernelMetadata) :
    result RuntimeError KernargBuffer :=
  allocate_bytes pool i (md_kernarg_segment_size m) (Z.max (md_kernarg_segment_alignment m) 16).

(** A kernarg buffer has the length and alignment its kernel asks for, lies in
    an allocation at least as long, and is zero. *)
Lemma allocate_for_ok pool i m k :
  (0 ≤ md_kernarg_segment_size m)%Z → (0 < pool_granule pool)%Z → allocate_for pool i m = Ok k →
  ka_bytes k = replicate (Z.to_nat (md_kernarg_segment_size m)) 0%Z ∧ ka_agent k = pool_gpu pool ∧
  (ka_address k mod Z.max (md_kernarg_segment_alignment m) 16 = 0)%Z ∧
  (md_kernarg_segment_size m = 0%Z ∧ ka_address k = 0%Z ∨
   ∃ size, (md_kernarg_segment_size m ≤ size)%Z ∧ pool_allocate pool i size = Ok (ka_address k)).
Proof.
  intros Hsize Hgranule. unfold allocate_for, allocate_bytes.
  destruct (is_power_of_two _); cbn [negb]; [|done].
  destruct (Z.eqb_spec (md_kernarg_segment_size m) 0) as [Hz|Hz].
  { intros [= <-]. rewrite Hz. split_and!; [done|done|by apply Z.mod_0_l; lia|by left]. }
  intros H. apply bind_Ok_inv in H as (rounded & Hr%ok_or_Ok%checked_add_Some & H).
  apply bind_Ok_inv in H as (pointer & Hp & H).
  destruct (Z.eqb_spec (pointer mod Z.max (md_kernarg_segment_alignment m) 16) 0) as [Hal|]; [|done].
  destruct (Z.eqb_spec (pointer mod pool_alignment pool) 0); [|done]. cbn [negb orb] in H.
  apply bind_Ok_inv in H as (u & _ & H). apply Ok_inj in H as <-. cbn [ka_bytes ka_agent ka_address].
  split_and!; [done..|right]. eexists. split; [|exact Hp]. destruct Hr as [-> _].
  pose proof (Z.div_mod (md_kernarg_segment_size m + (pool_granule pool - 1)) (pool_granule pool) ltac:(lia)).
  pose proof (Z.mod_pos_bound (md_kernarg_segment_size m + (pool_granule pool - 1)) (pool_granule pool) Hgranule).
  lia.
Qed.

(** ** [GpuDevice::validate_geometry] *)

Definition validate_geometry_axis (d : GpuDevice) (g : LaunchGeometry) (axis : nat) :
    result RuntimeError unit :=
  let workgroup := get3 (geo_workgroup g) axis in
  let grid := get3 (geo_grid_workitems g) axis in
  if (get3 (gpu_workgroup_max_dim d) axis <? workgroup)%Z then
    Err (WorkgroupLimit axis workgroup (get3 (gpu_workgroup_max_dim d) axis))
  else
    guard_ (get3 (gpu_grid_max_dim d) axis <? grid)%Z
      (GridLimit axis grid (get3 (gpu_grid_max_dim d) axis)).

Definition list3 (a : arr3) : list Z := [a3_x a; a3_y a; a3_z a].

(** The [u64] product of three [u16]s cannot overflow; that of three [u32]s is
    computed with [checked_mul]. *)
Definition validate_geometry (d : GpuDevice) (g : LaunchGeometry) : result RuntimeError unit :=
  _ ← for_each (validate_geometry_axis d g) [0; 1; 2];
  let workgroup_total := foldl Z.mul 1%Z (list3 (geo_workgroup g)) in
  if (gpu_workgroup_max_size d <? workgroup_total)%Z then
    Err (WorkgroupLimit 3 (Z.min workgroup_total u32_max) (gpu_workgroup_max_size d))
  else
    match foldM (checked_mul 64) 1%Z (list3 (geo_grid_workitems g)) with
    | None => Err (GridLimit 3 u64_max (gpu_grid_max_size d))
    | Some grid_total =>
        guard_ (gpu_grid_max_size d <? grid_total)%Z (GridLimit 3 grid_total (gpu_grid_max_size d))
    end.

(** The limits as a predicate. *)
Definition fits_device (d : GpuDevice) (g : LaunchGeometry) : Prop :=
  (∀ axis, axis < 3 → (get3 (geo_workgroup g) axis ≤ get3 (gpu_workgroup_max_dim d) axis ∧
     get3 (geo_grid_workitems g) axis ≤ get3 (gpu_grid_max_dim d) axis)%Z) ∧
  (foldl Z.mul 1 (list3 (geo_workgroup g)) ≤ gpu_workgroup_max_size d)%Z ∧
  (foldl Z.mul 1 (list3 (geo_grid_workitems g)) ≤ gpu_grid_max_size d)%Z.

Lemma foldl_mul3 x y z : foldl Z.mul 1%Z [x; y; z] = (x * y * z)%Z.
Proof. simpl. lia. Qed.

Lemma validate_geometry_axes d g :
  for_each (validate_geometry_axis d g) [0; 1; 2] = Ok tt ↔
  ∀ axis, axis < 3 → (get3 (geo_workgroup g) axis ≤ get3 (gpu_workgroup_max_dim d) axis ∧
     get3 (geo_grid_workitems g) axis ≤ get3 (gpu_grid_max_dim d) axis)%Z.
Proof.
  assert (∀ axis, validate_geometry_axis d g axis = Ok tt ↔
    (get3 (geo_workgroup g) axis ≤ get3 (gpu_workgroup_max_dim d) axis ∧
     get3 (geo_grid_workitems g) axis ≤ get3 (gpu_grid_max_dim d) axis)%Z) as Haxis.
  { intros axis. unfold validate_geometry_axis.
    destruct (Z.ltb_spec (get3 (gpu_workgroup_max_dim d) axis) (get3 (geo_workgroup g) axis));
      [naive_solver lia|]. rewrite guard_Ok, Z.ltb_ge. lia. }
  rewrite for_each_Ok. setoid_rewrite Haxis. split.
  - intros H axis Ha. apply H. destruct axis as [|[|[|]]]; [set_solver..|lia].
  - intros H axis Ha. apply H. rewrite !elem_of_cons in Ha.
    destruct Ha as [->|[->|[->|Ha]]]; [lia..|set_solver].
Qed.

Lemma checked_product3 x y z :
  in_u 32 x → in_u 32 y → in_u 32 z →
  foldM (checked_mul 64) 1%Z [x; y; z] =
    if decide (x * y * z ≤ umax 64)%Z then Some (x * y * z)%Z else None.
Proof.
  unfold in_u, umax. intros Hx Hy Hz. cbn [foldM mbind option_bind].
  rewrite (proj2 (checked_mul_Some 64 1 x x)) by (unfold umax; lia). cbn [mbind option_bind].
  rewrite (proj2 (checked_mul_Some 64 x y (x * y))) by (unfold umax; nia). cbn [mbind option_bind].
  unfold checked_mul. destruct (Z.leb_spec (x * y * z) (umax 64)); case_decide;
    unfold umax in *; first [done|lia].
Qed.

(** A geometry passes exactly when it is within the limits of the device. *)
Lemma validate_geometry_ok d g :
  geometry_typed g → in_u 32 (gpu_grid_max_size d) →
  validate_geometry d g = Ok tt ↔ fits_device d g.
Proof.
  intros ((Hx & Hy & Hz) & _) Hmax. unfold validate_geometry, fits_device, list3.
  destruct (for_each _ _) as [[]|e] eqn:Haxes; cbn [mbind result_bind].
  2:{ split; [done|]. intros [H _]. apply validate_geometry_axes in H. congruence. }
  rewrite validate_geometry_axes in Haxes.
  rewrite checked_product3, !foldl_mul3 by done.
  destruct (Z.ltb_spec (gpu_workgroup_max_size d)
    (a3_x (geo_workgroup g) * a3_y (geo_workgroup g) * a3_z (geo_workgroup g))).
  { split; [done|]. intros (_ & H' & _). lia. }
  case_decide as Hfit.
  - rewrite guard_Ok, Z.ltb_ge. tauto.
  - split; [done|]. intros (_ & _ & H'). unfold in_u, umax in *. lia.
Qed.
