(* ===== verification/AqlQueue.v ===== *)
(** * What AQL queues do with packets

    A semantics of HSA user-mode queues, as far as the packets of [Packet] use
    them: packets of a queue are launched in order, a set barrier bit waits for
    all preceding packets of the queue, no packet is launched past a barrier-AND
    packet that is not complete, a barrier-AND completes when its dependency
    signals are zero, and completing a packet decrements its completion signal.
    Signals start at one.  Nothing else is assumed about timing.

    The general facts about programs whose barriers only wait for packets that
    were emitted earlier: no deadlock, and completion after finitely many
    steps. *)

From stdpp Require Import gmap functions.
From S2P Require Import Prelude Packet.

(** ** Packets as the packet processor reads them *)

Inductive packet_kind :=
| KernelPacket (object kernarg : Z)
| BarrierAnd (deps : list Z)
| IndirectBuffer (address dwords : Z).

Record packet_view := mkView {
  pv_header : HeaderPolicy;
  pv_kind : packet_kind;
  pv_completion : Z
}.
Definition pv_barrier (v : packet_view) : bool := hdr_barrier (pv_header v).

(** The fields of a 64-byte slot; null dependency signals are ignored.  The
    vendor packet with format 1 executes a PM4 indirect buffer. *)
Definition view_packet (bytes : list Z) : option packet_view :=
  let header := read_le 0 2 bytes in
  let policy := header_policy header in
  let completion := read_le 56 8 bytes in
  if (header_type header =? PACKET_TYPE_KERNEL_DISPATCH)%Z then
    Some (mkView policy (KernelPacket (read_le 32 8 bytes) (read_le 40 8 bytes)) completion)
  else if (header_type header =? PACKET_TYPE_BARRIER_AND)%Z then
    Some (mkView policy
      (BarrierAnd (List.filter (λ s, negb (s =? 0)%Z)
        ((λ k, read_le (8 + 8 * k) 8 bytes) <$> seq 0 BARRIER_DEPENDENCY_CAPACITY)))
      completion)
  else if (header_type header =? 0)%Z && (read_le 2 2 bytes =? 1)%Z then
    Some (mkView policy
      (IndirectBuffer (read_le 8 4 bytes + 2 ^ 32 * read_le 12 4 bytes) (Z.land (read_le 16 4 bytes) 1048575))
      completion)
  else None.

Lemma view_kernel m g dyn kernarg signal policy p :
  metadata_typed m → geometry_typed g → (0 ≤ dyn)%Z → in_u 64 kernarg → in_u 64 signal →
  kernel_packet_with_policy m g dyn kernarg signal policy = Ok p →
  view_packet (img_bytes (image_kernel p)) =
    Some (mkView policy (KernelPacket (md_kernel_object m) kernarg) signal).
Proof.
  intros Hm Hg Hd Hk Hs Hp.
  destruct (kernel_image_ok _ _ _ _ _ _ _ Hm Hg Hd Hk Hs Hp) as [[_ Ht Hpol _ _ _ _ _ Hobj Hka Hsig] _].
  unfold view_packet. by rewrite Ht, Hpol, Hobj, Hka, Hsig.
Qed.

Lemma view_indirect address dwords signal image :
  in_u 64 address → in_u 32 dwords → in_u 64 signal →
  pm4_indirect_buffer address dwords signal = Ok image →
  view_packet (img_bytes image) = Some (mkView (mkHeader true FenceSystem FenceSystem) (IndirectBuffer address dwords) signal).
Proof.
  intros Ha Hd Hs Hi. destruct (ib_image_ok _ _ _ _ Ha Hd Hs Hi) as [_ Ht Hpol Hf _ Haddr Hdw Hsig].
  unfold view_packet. by rewrite Ht, Hpol, Hf, Haddr, Hdw, Hsig.
Qed.

Lemma filter_nonzero_deps (deps : list Z) n :
  length deps ≤ n → Forall (λ s, s ≠ 0%Z) deps →
  List.filter (λ s, negb (s =? 0)%Z) ((λ k, default 0%Z (deps !! k)) <$> seq 0 n) = deps.
Proof.
  intros Hn Hdeps. revert deps Hn Hdeps. induction n as [|n IH]; intros deps Hn Hdeps.
  { destruct deps; [done|simpl in Hn; lia]. }
  destruct deps as [|s deps].
  - clear IH. replace ((λ k, default 0%Z ([] !! k)) <$> seq 0 (S n)) with (replicate (S n) 0%Z).
    { generalize (S n). intros k. by induction k. }
    apply list_eq. intros k. rewrite list_lookup_fmap.
    destruct (decide (k < S n)).
    + rewrite lookup_replicate_2, lookup_seq_lt by done. done.
    + rewrite lookup_ge_None_2 by (rewrite length_replicate; lia).
      rewrite lookup_ge_None_2 by (rewrite length_seq; lia). done.
  - simpl in Hn. rewrite Forall_cons in Hdeps. destruct Hdeps as [Hs Hdeps].
    cbn [seq]. rewrite fmap_cons. cbn [List.filter]. simpl (default _ _).
    rewrite (proj2 (Z.eqb_neq s 0)) by done. cbn [negb]. f_equal.
    rewrite <-seq_shift. rewrite <-list_fmap_compose. simpl. apply IH; [lia|done].
Qed.

Lemma view_barrier deps signal policy p :
  Forall (in_u 64) deps → Forall (λ s, s ≠ 0%Z) deps → in_u 64 signal →
  barrier_packet_with_policy deps signal policy = Ok p →
  view_packet (img_bytes (image_barrier p)) =
    Some (mkView policy (BarrierAnd deps) signal).
Proof.
  intros Hdeps Hnz Hs Hp.
  destruct (barrier_image_ok _ _ _ _ Hdeps Hs Hp) as [_ _ _ Hread Hsig].
  assert (length deps ≤ BARRIER_DEPENDENCY_CAPACITY) as Hlen.
  { unfold barrier_packet_with_policy in Hp. case_bool_decide; [done|lia]. }
  assert (read_le 0 2 (img_bytes (image_barrier p)) = packet_header PACKET_TYPE_BARRIER_AND policy)
    as Hheader.
  { unfold barrier_packet_with_policy in Hp. case_bool_decide; [done|]. injection Hp as <-.
    destruct (packet_header_bounded PACKET_TYPE_BARRIER_AND policy) as (_ & _ & Hb);
      [unfold PACKET_TYPE_BARRIER_AND; lia|]. unfold in_u, umax in Hb.
    unfold image_barrier; cbn [img_bytes bp_full_header].
    rewrite le_bytes_halves by lia. unfold read_le. rewrite drop_0, <-!app_assoc.
    rewrite take_app_length' by by rewrite length_le_bytes.
    rewrite le_value_le_bytes. change (256 ^ Z.of_nat 2)%Z with (2 ^ 16)%Z.
    rewrite Zmod_mod. apply Z.mod_small. lia. }
  destruct (packet_header_bounded PACKET_TYPE_BARRIER_AND policy) as (Ht & Hpol & _);
    [unfold PACKET_TYPE_BARRIER_AND; lia|].
  unfold view_packet. rewrite Hheader, Ht, Hpol, Hsig.
  change (PACKET_TYPE_BARRIER_AND =? PACKET_TYPE_KERNEL_DISPATCH)%Z with false.
  rewrite Z.eqb_refl. do 3 f_equal.
  etransitivity; [|by apply (filter_nonzero_deps deps BARRIER_DEPENDENCY_CAPACITY)]. f_equal.
  apply list_fmap_ext. intros i k [Hk Hlt]%lookup_seq. apply Hread. lia.
Qed.

(** ** The queues *)

Abbreviation packet_id := (nat * nat)%type.

Section queues.
Context (program : list (list packet_view)).

Definition packet_at (q : packet_id) : option packet_view :=
  queue ← program !! q.1; queue !! q.2.
Definition is_barrier_and (v : packet_view) : Prop := ∃ deps, pv_kind v = BarrierAnd deps.

Record queues := mkQueueState {
  qs_launched : gset packet_id;
  qs_completed : gset packet_id;
  qs_signals : Z → Z
}.

Definition queues_start : queues := mkQueueState ∅ ∅ (λ _, 1%Z).

(** The decrement of a completion signal; the null handle names none. *)
Definition signal_complete (signals : Z → Z) (s : Z) : Z → Z :=
  if (s =? 0)%Z then signals else <[s := (signals s - 1)%Z]> signals.

Inductive aql_step : relation queues :=
| aql_launch st l i v :
    packet_at (l, i) = Some v → (l, i) ∉ qs_launched st →
    (∀ j, j < i → (l, j) ∈ qs_launched st) →
    (∀ j w, j < i → packet_at (l, j) = Some w → is_barrier_and w → (l, j) ∈ qs_completed st) →
    (pv_barrier v = true → ∀ j, j < i → (l, j) ∈ qs_completed st) →
    aql_step st (mkQueueState ({[ (l, i) ]} ∪ qs_launched st) (qs_completed st) (qs_signals st))
| aql_complete st q v :
    packet_at q = Some v → q ∈ qs_launched st → q ∉ qs_completed st →
    (∀ deps s, pv_kind v = BarrierAnd deps → s ∈ deps → qs_signals st s = 0%Z) →
    aql_step st (mkQueueState (qs_launched st) ({[ q ]} ∪ qs_completed st)
                   (signal_complete (qs_signals st) (pv_completion v))).

(** [s] is the completion signal of the packet [q] and of no other. *)
Definition signals_only (s : Z) (q : packet_id) : Prop :=
  s ≠ 0%Z ∧ (∃ v, packet_at q = Some v ∧ pv_completion v = s) ∧
  ∀ q' v', packet_at q' = Some v' → pv_completion v' = s → q' = q.

Record queues_inv (st : queues) : Prop := {
  qn_completed q : q ∈ qs_completed st → q ∈ qs_launched st;
  qn_launched q : q ∈ qs_launched st → is_Some (packet_at q);
  qn_order l i j : (l, i) ∈ qs_launched st → j < i → (l, j) ∈ qs_launched st;
  qn_barrier_and l i j w : (l, i) ∈ qs_launched st → j < i → packet_at (l, j) = Some w →
    is_barrier_and w → (l, j) ∈ qs_completed st;
  qn_barrier l i j v : (l, i) ∈ qs_launched st → packet_at (l, i) = Some v →
    pv_barrier v = true → j < i → (l, j) ∈ qs_completed st;
  qn_signal s q : signals_only s q →
    qs_signals st s = if decide (q ∈ qs_completed st) then 0%Z else 1%Z;
  qn_deps q v deps s q' : q ∈ qs_completed st → packet_at q = Some v →
    pv_kind v = BarrierAnd deps → s ∈ deps → signals_only s q' → q' ∈ qs_completed st
}.

Lemma queues_inv_start : queues_inv queues_start.
Proof.
  split; simpl; set_solver.
Qed.

Lemma signal_complete_eq signals s :
  s ≠ 0%Z → signal_complete signals s s = (signals s - 1)%Z.
Proof.
  intros Hs. unfold signal_complete. rewrite (proj2 (Z.eqb_neq s 0)) by done.
  apply fn_lookup_insert.
Qed.

Lemma signal_complete_ne signals s s' :
  s ≠ s' → signal_complete signals s s' = signals s'.
Proof.
  intros Hs. unfold signal_complete. case_match; [done|]. by apply fn_lookup_insert_ne.
Qed.

Lemma queues_inv_launch st l i v :
  queues_inv st →
  packet_at (l, i) = Some v → (l, i) ∉ qs_launched st →
  (∀ j, j < i → (l, j) ∈ qs_launched st) →
  (∀ j w, j < i → packet_at (l, j) = Some w → is_barrier_and w → (l, j) ∈ qs_completed st) →
  (pv_barrier v = true → ∀ j, j < i → (l, j) ∈ qs_completed st) →
  queues_inv (mkQueueState ({[ (l, i) ]} ∪ qs_launched st) (qs_completed st) (qs_signals st)).
Proof.
  intros [] Hv Hnew Hord Hand Hbar. split; simpl.
  - intros q Hq. apply elem_of_union_r. auto.
  - intros q [->%elem_of_singleton|Hq]%elem_of_union; eauto.
  - intros l' i' j [Heq%elem_of_singleton|Hq]%elem_of_union Hj; apply elem_of_union_r; [|eauto].
    injection Heq as -> ->. auto.
  - intros l' i' j w [Heq%elem_of_singleton|Hq]%elem_of_union Hj; [|eauto].
    injection Heq as -> ->. eauto.
  - intros l' i' j w [Heq%elem_of_singleton|Hq]%elem_of_union Hw Hb Hj; [|eauto].
    injection Heq as -> ->. simplify_eq. eauto.
  - done.
  - done.
Qed.

Lemma queues_inv_complete st q v :
  queues_inv st →
  packet_at q = Some v → q ∈ qs_launched st → q ∉ qs_completed st →
  (∀ deps s, pv_kind v = BarrierAnd deps → s ∈ deps → qs_signals st s = 0%Z) →
  queues_inv (mkQueueState (qs_launched st) ({[ q ]} ∪ qs_completed st)
                (signal_complete (qs_signals st) (pv_completion v))).
Proof.
  intros [] Hv Hl Hnew Hdeps. split; simpl.
  - intros q' [->%elem_of_singleton|Hq]%elem_of_union; auto.
  - done.
  - done.
  - intros. apply elem_of_union_r. eauto.
  - intros. apply elem_of_union_r. eauto.
  - intros s q' Hs. destruct (decide (pv_completion v = s)) as [Heq|Hne].
    + assert (q' = q) as ->. { destruct Hs as (_ & _ & Huniq). symmetry. by eapply Huniq. }
      rewrite Heq, signal_complete_eq by apply Hs.
      rewrite (qn_signal0 _ _ Hs), decide_False by done.
      rewrite decide_True by (apply elem_of_union_l, elem_of_singleton; done). done.
    + rewrite signal_complete_ne by done. rewrite (qn_signal0 _ _ Hs).
      assert (q' ≠ q) as Hq. { intros ->. destruct Hs as (_ & (w & Hw & Hc) & _). congruence. }
      apply decide_ext. rewrite elem_of_union, elem_of_singleton. tauto.
  - intros q' w deps s q'' [->%elem_of_singleton|Hq']%elem_of_union Hw Hk Hs Hu;
      apply elem_of_union_r; [|by eapply qn_deps0].
    simplify_eq. pose proof (Hdeps _ _ Hk Hs) as H0. rewrite (qn_signal0 _ _ Hu) in H0.
    by case_decide.
Qed.

Lemma queues_inv_step st st' : aql_step st st' → queues_inv st → queues_inv st'.
Proof.
  intros Hstep Hinv. destruct Hstep; [by eapply queues_inv_launch|by eapply queues_inv_complete].
Qed.

Lemma queues_reachable st : rtc aql_step queues_start st → queues_inv st.
Proof.
  intros Hs. pose proof queues_inv_start as H0. revert H0.
  induction Hs as [|x y z Hxy Hyz IH]; [done|]. intros Hx. apply IH. by eapply queues_inv_step.
Qed.

(** Everything has been processed. *)
Definition all_complete (st : queues) : Prop :=
  ∀ q, is_Some (packet_at q) → q ∈ qs_completed st.
End queues.

(** ** Programs in emission order

    The code emits the packets of all lanes in one order.  [lane_of] is the
    queue of a lane, and [rank] the position that the packet emitted at [k]
    takes in it. *)

Definition lane_of {A} (l : nat) (E : list (nat * A)) : list A := snd <$> filter (λ e, e.1 = l) E.
Definition rank {A} (E : list (nat * A)) (l k : nat) : nat := length (lane_of l (take k E)).
Definition program_of (n : nat) (E : list (nat * packet_view)) : list (list packet_view) :=
  (λ l, lane_of l E) <$> seq 0 n.
Definition lanes_below {A} (n : nat) (E : list (nat * A)) : Prop := ∀ k l x, E !! k = Some (l, x) → l < n.

Lemma lane_of_app {A} l (E1 E2 : list (nat * A)) : lane_of l (E1 ++ E2) = lane_of l E1 ++ lane_of l E2.
Proof. unfold lane_of. by rewrite filter_app, fmap_app. Qed.

Lemma lane_of_cons_eq {A} l x (E : list (nat * A)) : lane_of l ((l, x) :: E) = x :: lane_of l E.
Proof. unfold lane_of. by rewrite filter_cons_True. Qed.

Lemma lane_of_cons_ne {A} l l' x (E : list (nat * A)) :
  l' ≠ l → lane_of l ((l', x) :: E) = lane_of l E.
Proof. intros. unfold lane_of. by rewrite filter_cons_False. Qed.

Lemma rank_lookup {A} (E : list (nat * A)) k l x :
  E !! k = Some (l, x) → lane_of l E !! rank E l k = Some x.
Proof.
  intros Hk. assert (lane_of l E = lane_of l (take k E) ++ x :: lane_of l (drop (S k) E)) as ->.
  { by rewrite <-lane_of_cons_eq, <-lane_of_app, take_drop_middle. }
  by apply list_lookup_middle.
Qed.

Lemma rank_exists {A} (E : list (nat * A)) l i x :
  lane_of l E !! i = Some x → ∃ k, E !! k = Some (l, x) ∧ rank E l k = i.
Proof.
  revert i. induction E as [|[l' y] E IH]; intros i Hi; [done|].
  destruct (decide (l' = l)) as [->|Hne].
  - rewrite lane_of_cons_eq in Hi. destruct i as [|i].
    + injection Hi as ->. by exists 0.
    + destruct (IH i Hi) as (k & Hk & Hr). exists (S k). split; [done|].
      unfold rank in *. by rewrite firstn_cons, lane_of_cons_eq, <-Hr.
  - rewrite lane_of_cons_ne in Hi by done. destruct (IH i Hi) as (k & Hk & Hr).
    exists (S k). split; [done|]. unfold rank in *. by rewrite firstn_cons, lane_of_cons_ne.
Qed.

Lemma rank_mono {A} (E : list (nat * A)) l k k' : k ≤ k' → rank E l k ≤ rank E l k'.
Proof.
  intros Hk. unfold rank. replace (take k E) with (take k (take k' E)).
  - rewrite <-(take_drop k (take k' E)) at 2. rewrite lane_of_app, length_app. lia.
  - rewrite take_take. f_equal. lia.
Qed.

Lemma rank_S {A} (E : list (nat * A)) k l x :
  E !! k = Some (l, x) → rank E l (S k) = S (rank E l k).
Proof.
  intros Hk. unfold rank. rewrite (take_S_r _ _ _ Hk), lane_of_app, length_app.
  rewrite lane_of_cons_eq. simpl. lia.
Qed.

Lemma rank_lt {A} (E : list (nat * A)) k k' l x :
  E !! k = Some (l, x) → k < k' → rank E l k < rank E l k'.
Proof. intros Hk Hlt. pose proof (rank_mono E l (S k) k' Hlt). erewrite rank_S in *; [lia|done]. Qed.

Lemma rank_inj {A} (E : list (nat * A)) k k' l x x' :
  E !! k = Some (l, x) → E !! k' = Some (l, x') → rank E l k = rank E l k' → k = k'.
Proof.
  intros Hk Hk' Hr. destruct (Nat.lt_trichotomy k k') as [Hlt|[|Hlt]]; [|done|].
  - pose proof (rank_lt E k k' l x Hk Hlt). lia.
  - pose proof (rank_lt E k' k l x' Hk' Hlt). lia.
Qed.

(** A packet with rank below that of [k] was emitted before [k]. *)
Lemma rank_below {A} (E : list (nat * A)) l k i x :
  lane_of l E !! i = Some x → i < rank E l k → ∃ k', k' < k ∧ E !! k' = Some (l, x) ∧ rank E l k' = i.
Proof.
  intros Hi Hlt. destruct (rank_exists E l i x Hi) as (k' & Hk' & <-). exists k'.
  split; [|done]. destruct (Nat.lt_ge_cases k' k) as [|Hge]; [done|].
  pose proof (rank_mono E l k k' Hge). lia.
Qed.

Lemma program_of_lookup n E l : l < n → program_of n E !! l = Some (lane_of l E).
Proof. intros Hl. unfold program_of. by rewrite list_lookup_fmap, lookup_seq_lt. Qed.

Lemma packet_at_emission n E k l v :
  lanes_below n E → E !! k = Some (l, v) → packet_at (program_of n E) (l, rank E l k) = Some v.
Proof.
  intros Hn Hk. unfold packet_at. cbn [fst snd]. rewrite program_of_lookup by by eapply Hn.
  cbn [mbind option_bind]. by apply rank_lookup.
Qed.

Lemma packet_at_inv n E q v :
  packet_at (program_of n E) q = Some v → ∃ k, E !! k = Some (q.1, v) ∧ q = (q.1, rank E q.1 k).
Proof.
  destruct q as [l i]. unfold packet_at, program_of. cbn [fst snd]. rewrite list_lookup_fmap.
  destruct (seq 0 n !! l) as [l'|] eqn:Hl; [|done]. apply lookup_seq in Hl as [-> _].
  cbn [fmap option_fmap option_map mbind option_bind Nat.add].
  intros (k & Hk & Hr)%rank_exists. exists k. simpl in *. by rewrite Hr.
Qed.

(** Every dependency of a barrier is the completion signal of exactly one
    packet, emitted before the barrier. *)
Definition well_ordered (n : nat) (E : list (nat * packet_view)) : Prop :=
  ∀ k l v deps s, E !! k = Some (l, v) → pv_kind v = BarrierAnd deps → s ∈ deps →
    ∃ k' l' v', k' < k ∧ E !! k' = Some (l', v') ∧ signals_only (program_of n E) s (l', rank E l' k').

(** A completion signal that one emitted packet carries. *)
Lemma signals_only_emission n E k l v :
  lanes_below n E → E !! k = Some (l, v) → pv_completion v ≠ 0%Z →
  (∀ k' l' v', E !! k' = Some (l', v') → pv_completion v' = pv_completion v → k' = k) →
  signals_only (program_of n E) (pv_completion v) (l, rank E l k).
Proof.
  intros Hn Hk Hnz Huniq. split; [done|]. split.
  - exists v. split; [by eapply packet_at_emission|done].
  - intros q' v' (k' & Hk' & ->)%packet_at_inv Hc.
    assert (k' = k) as -> by by eapply Huniq. simplify_eq. simpl. by f_equal.
Qed.

Lemma least_nat (P : nat → Prop) `{∀ n, Decision (P n)} n :
  P n → ∃ m, P m ∧ ∀ j, j < m → ¬ P j.
Proof.
  induction n as [n IH] using lt_wf_ind. intros Hn.
  destruct (decide (Exists P (seq 0 n))) as [He|He].
  - apply Exists_exists in He as (m & Hm%elem_of_seq & HP). apply (IH m); [lia|done].
  - exists n. split; [done|]. intros j Hj HP. apply He, Exists_exists. exists j.
    split; [apply elem_of_seq; lia|done].
Qed.

Section completion.
Context (n : nat) (E : list (nat * packet_view)).
Context (Hlanes : lanes_below n E) (Hordered : well_ordered n E).

Definition pending (st : queues) (k : nat) : Prop :=
  match E !! k with Some (l, _) => (l, rank E l k) ∉ qs_completed st | None => False end.

#[export] Instance pending_dec st k : Decision (pending st k).
Proof. unfold pending. destruct (E !! k) as [[]|]; apply _. Defined.

(** A state in which something is left to do has a step. *)
Lemma progress st :
  rtc (aql_step (program_of n E)) queues_start st → ¬ all_complete (program_of n E) st →
  ∃ st', aql_step (program_of n E) st st'.
Proof using All.
  intros Hst Hleft. pose proof (queues_reachable _ _ Hst) as Hinv.
  assert (∃ k, pending st k) as [k0 Hk0].
  { destruct (decide (Exists (pending st) (seq 0 (length E)))) as [He|He].
    { apply Exists_exists in He as (k & _ & Hk). by exists k. }
    exfalso. apply Hleft. intros q [v Hq]. apply packet_at_inv in Hq as (k & Hk & ->).
    destruct (decide ((q.1, rank E q.1 k) ∈ qs_completed st)) as [|Hn]; [done|]. exfalso.
    apply He, Exists_exists. exists k. split.
    - apply elem_of_seq. split; [lia|]. simpl. by eapply lookup_lt_Some.
    - unfold pending. by rewrite Hk. }
  destruct (least_nat (pending st) k0 Hk0) as (k & Hk & Hmin). clear k0 Hk0 Hleft.
  unfold pending in Hk. destruct (E !! k) as [[l v]|] eqn:Ek; [|done].
  assert (∀ k' l' v', k' < k → E !! k' = Some (l', v') → (l', rank E l' k') ∈ qs_completed st) as Hdone.
  { intros k' l' v' Hlt Hk'. specialize (Hmin k' Hlt). unfold pending in Hmin.
    rewrite Hk' in Hmin. by apply dec_stable in Hmin. }
  assert (∀ j w, j < rank E l k → packet_at (program_of n E) (l, j) = Some w →
    (l, j) ∈ qs_completed st) as Hbefore.
  { intros j w Hj Hw. apply packet_at_inv in Hw as (k' & Hk' & [= ->]). simpl in *.
    apply (Hdone k' l w); [|done]. destruct (Nat.lt_ge_cases k' k) as [|Hge]; [done|].
    pose proof (rank_mono E l k k' Hge). lia. }
  assert (∀ j, j < rank E l k → (l, j) ∈ qs_completed st) as Hall.
  { intros j Hj. destruct (lookup_lt_is_Some_2 (lane_of l E) j) as [w Hw].
    { pose proof (lookup_lt_Some _ _ _ (rank_lookup E k l v Ek)). lia. }
    apply (Hbefore j w Hj). unfold packet_at. cbn [fst snd].
    rewrite program_of_lookup by by eapply Hlanes. done. }
  destruct (decide ((l, rank E l k) ∈ qs_launched st)) as [Hl|Hl].
  - eexists. eapply aql_complete; [by eapply packet_at_emission|done|done|].
    intros deps s Hkind Hs.
    destruct (Hordered _ _ _ _ _ Ek Hkind Hs) as (k' & l' & v' & Hlt & Hk' & Honly).
    rewrite (qn_signal _ _ Hinv _ _ Honly), decide_True by eauto. done.
  - eexists. eapply aql_launch; [by eapply packet_at_emission|done|eauto..].
    intros j Hj. by apply (qn_completed _ _ Hinv), Hall.
Qed.

Definition packet_ids : gset packet_id :=
  list_to_set ((λ '(k, (l, _)), (l, rank E l k)) <$> enumerate E).

Lemma elem_of_packet_ids q : is_Some (packet_at (program_of n E) q) → q ∈ packet_ids.
Proof.
  intros [v Hq]. apply packet_at_inv in Hq as (k & Hk & ->). apply elem_of_list_to_set, list_elem_of_fmap.
  exists (k, (q.1, v)). split; [done|]. by apply elem_of_enumerate.
Qed.

Definition work_left (st : queues) : nat :=
  2 * size packet_ids - size (qs_launched st) - size (qs_completed st).

Lemma work_left_step st st' :
  rtc (aql_step (program_of n E)) queues_start st → aql_step (program_of n E) st st' →
  work_left st' < work_left st.
Proof.
  intros Hst Hstep.
  assert (queues_inv (program_of n E) st') as Hinv'.
  { apply queues_reachable. by eapply rtc_r. }
  assert (∀ q, q ∈ qs_launched st' → q ∈ packet_ids) as Hsub.
  { intros q Hq. by apply elem_of_packet_ids, (qn_launched _ _ Hinv'). }
  assert (size (qs_launched st') ≤ size packet_ids) as H1.
  { by apply subseteq_size. }
  assert (size (qs_completed st') ≤ size packet_ids) as H2.
  { apply subseteq_size. intros q Hq. by apply Hsub, (qn_completed _ _ Hinv'). }
  unfold work_left. destruct Hstep as [st l i v _ Hnew|st q v _ _ Hnew]; simpl in *.
  - rewrite size_union in * by set_solver. rewrite size_singleton in *. lia.
  - rewrite size_union in * by set_solver. rewrite size_singleton in *. lia.
Qed.

(** Whatever the interleaving, the queues stop, and only when all packets have
    been processed. *)
Lemma queues_complete st :
  rtc (aql_step (program_of n E)) queues_start st →
  sn (aql_step (program_of n E)) st ∧
  (nf (aql_step (program_of n E)) st → all_complete (program_of n E) st).
Proof using All.
  intros Hst. split.
  - remember (work_left st) as m eqn:Hm. revert st Hst Hm.
    induction m as [m IH] using lt_wf_ind. intros st Hst ->. constructor. intros st' Hstep.
    unfold flip in Hstep. eapply IH; [by apply work_left_step|by eapply rtc_r|done].
  - intros Hnf. destruct (decide (Forall (λ q, q ∈ qs_completed st) (elements packet_ids))) as [Hd|Hd].
    + intros q Hq. rewrite Forall_forall in Hd. apply Hd, elem_of_elements. by apply elem_of_packet_ids.
    + exfalso. apply Hnf. apply progress; [done|]. intros Hall. apply Hd, Forall_forall.
      intros q Hq%elem_of_elements. apply Hall.
      apply elem_of_list_to_set, list_elem_of_fmap in Hq as ([k [l v]] & -> & Hk%elem_of_enumerate).
      exists v. by eapply packet_at_emission.
Qed.
End completion.

(** ** Orders that every run keeps *)

Section orders.
Context (n : nat) (E : list (nat * packet_view)) (Hlanes : lanes_below n E).

(** A packet after a barrier-AND of its lane finds the packets complete whose
    signals the barrier waits for. *)
Lemma after_barrier_and st k b l v w deps s q :
  rtc (aql_step (program_of n E)) queues_start st →
  E !! k = Some (l, v) → (l, rank E l k) ∈ qs_launched st →
  E !! b = Some (l, w) → b < k → pv_kind w = BarrierAnd deps → s ∈ deps →
  signals_only (program_of n E) s q → q ∈ qs_completed st.
Proof using Hlanes.
  intros Hst%queues_reachable Hk Hl Hb Hlt Hkind Hs Honly.
  assert ((l, rank E l b) ∈ qs_completed st) as Hcomplete.
  { eapply qn_barrier_and; [done|exact Hl|by eapply rank_lt|by eapply packet_at_emission|by eexists]. }
  eapply qn_deps; [done|exact Hcomplete|by eapply packet_at_emission|done|done|done].
Qed.

(** A launched packet with the barrier bit finds its lane complete. *)
Lemma after_barrier_bit st k j l v w :
  rtc (aql_step (program_of n E)) queues_start st →
  E !! k = Some (l, v) → (l, rank E l k) ∈ qs_launched st → pv_barrier v = true →
  E !! j = Some (l, w) → j < k → (l, rank E l j) ∈ qs_completed st.
Proof using Hlanes.
  intros Hst%queues_reachable Hk Hl Hbit Hj Hlt.
  eapply qn_barrier; [done|exact Hl|by eapply packet_at_emission|done|by eapply rank_lt].
Qed.
End orders.
