(* ===== verification/Pm4.v ===== *)
(** * The gfx12 PM4 command builder ([redline-rocr/src/pm4.rs])

    The retained command buffer, its emitters, the register-eliding
    [set_sh_regs], the dispatch lowering and the packet walkers.  Dwords,
    registers and addresses are [Z]s; a [u32] left shift drops the bits above
    the thirty-second. *)

From stdpp Require Import gmap.
From S2P Require Import Prelude Packet Device.

#[local] Open Scope Z_scope.

Definition PACKET3_SET_SH_REG : Z := 0x76.
Definition PACKET3_DISPATCH_DIRECT : Z := 0x15.
Definition PACKET3_COPY_DATA : Z := 0x40.
Definition PACKET3_RELEASE_MEM : Z := 0x49.
Definition PACKET3_EVENT_WRITE : Z := 0x46.
Definition PACKET3_ACQUIRE_MEM : Z := 0x58.
Definition PACKET3_NOP : Z := 0x10.
Definition PACKET3_MAX_BODY_DWORDS : Z := 0x4000.

Definition COMPUTE_NUM_THREAD_X : Z := 0x207.
Definition COMPUTE_PGM_LO : Z := 0x20c.
Definition COMPUTE_PGM_RSRC1 : Z := 0x212.
Definition COMPUTE_RESOURCE_LIMITS : Z := 0x215.
Definition COMPUTE_PGM_RSRC3_GFX12 : Z := 0x228.
Definition COMPUTE_USER_DATA_0 : Z := 0x240.

Definition LDS_SIZE_MASK : Z := 0x00ff8000.
Definition LDS_SIZE_SHIFT : Z := 15.
Definition GFX12_LDS_GRANULE : Z := 512.

Definition ENABLE_SGPR_KERNARG_SEGMENT_PTR : Z := Z.shiftl 1 3.
Definition ENABLE_WAVEFRONT_SIZE32 : Z := Z.shiftl 1 10.
Definition SUPPORTED_KERNEL_PROPERTIES : Z :=
  Z.lor ENABLE_SGPR_KERNARG_SEGMENT_PTR ENABLE_WAVEFRONT_SIZE32.
Definition DISPATCH_INITIATOR_BASE : Z :=
  Z.lor (Z.lor (Z.shiftl 1 0) (Z.shiftl 1 2)) (Z.shiftl 1 5).
Definition DISPATCH_INITIATOR_CS_W32_EN : Z := Z.shiftl 1 15.
Definition GCR_GLK_INV : Z := Z.shiftl 1 7.
Definition GCR_GLV_INV : Z := Z.shiftl 1 8.
Definition GCR_GL1_INV : Z := Z.shiftl 1 9.
Definition GCR_GL2_INV : Z := Z.shiftl 1 14.
Definition GCR_GL2_WB : Z := Z.shiftl 1 15.
Definition GCR_SEQ_FORWARD : Z := Z.shiftl 1 16.

(** [x << n] on [u32], [x as u32] and [!x & y] on [u32]/[u16] operands. *)
Definition shl32 (x n : Z) : Z := Z.shiftl x n mod 2 ^ 32.

Inductive Pm4BuildError :=
| MissingKernelDescriptor
| ScratchUnsupported (private_bytes : Z) (dynamic_callstack : bool)
| UnsupportedKernelProperties (bits : Z)
| NullKernarg
| GroupSegmentOverflow
| GroupSegmentTooLarge (bytes : Z)
| MalformedStream (dword : nat).

#[export] Instance Pm4BuildError_eq_dec : EqDecision Pm4BuildError.
Proof. solve_decision. Defined.

Inductive Gfx12RmwAcquirePolicy :=
| CurrentSequential
| RadvGlobal
| SameAgentParallelL1
| SameAgentParallelL0
| HipLlvmVmemL1.

Definition gcr_cntl (policy : Gfx12RmwAcquirePolicy) : Z :=
  match policy with
  | CurrentSequential => Z.lor (Z.lor GCR_GLK_INV GCR_GLV_INV) GCR_SEQ_FORWARD
  | RadvGlobal =>
      Z.lor (Z.lor (Z.lor (Z.lor GCR_GLK_INV GCR_GLV_INV) GCR_GL1_INV) GCR_GL2_INV) GCR_GL2_WB
  | SameAgentParallelL1 => Z.lor (Z.lor GCR_GLK_INV GCR_GLV_INV) GCR_GL1_INV
  | SameAgentParallelL0 => Z.lor GCR_GLK_INV GCR_GLV_INV
  | HipLlvmVmemL1 => Z.lor GCR_GLV_INV GCR_GL1_INV
  end.

Inductive Gfx12DispatchPacing := PacingNone | PostDispatchNop (body : Z).

Record Gfx12Pm4CommandBuffer := mkBuffer {
  cb_dwords : list Z;
  cb_register_state : option (gmap Z Z);
  cb_cache_dynamic_registers : bool;
  cb_pacing : Gfx12DispatchPacing;
  cb_pacing_dwords : Z
}.

(** [Gfx12Pm4CommandBuffer::{new, new_stateful, new_static_stateful}]. *)
Definition buffer_new : Gfx12Pm4CommandBuffer := mkBuffer [] None false PacingNone 0.
Definition buffer_new_stateful : Gfx12Pm4CommandBuffer :=
  mkBuffer [] (Some ∅) true PacingNone 0.
Definition buffer_new_static_stateful : Gfx12Pm4CommandBuffer :=
  mkBuffer [] (Some ∅) false PacingNone 0.

Definition set_dispatch_pacing (b : Gfx12Pm4CommandBuffer) (pacing : Gfx12DispatchPacing) :=
  mkBuffer (cb_dwords b) (cb_register_state b) (cb_cache_dynamic_registers b) pacing
    (cb_pacing_dwords b).

(** [self.dwords.extend_from_slice(words)] *)
Definition extend (b : Gfx12Pm4CommandBuffer) (words : list Z) : Gfx12Pm4CommandBuffer :=
  mkBuffer (cb_dwords b ++ words) (cb_register_state b) (cb_cache_dynamic_registers b)
    (cb_pacing b) (cb_pacing_dwords b).

Definition packet3 (opcode body_dwords : Z) (compute : bool) : Z :=
  Z.lor (Z.lor (Z.lor (shl32 3 30) (shl32 (body_dwords - 1) 16)) (shl32 opcode 8))
    (if compute then Z.shiftl 1 1 else 0).

Definition dispatch_initiator (wave32 : bool) : Z :=
  Z.lor DISPATCH_INITIATOR_BASE (if wave32 then DISPATCH_INITIATOR_CS_W32_EN else 0).

(** ** Pacing

    [pacing_dwords] counts dwords that are in the vector, so the [u64] sum
    cannot overflow. *)
Definition nop (b : Gfx12Pm4CommandBuffer) (total : Z) : Gfx12Pm4CommandBuffer :=
  let b := extend b [packet3 PACKET3_NOP (total - 1) false] in
  let b := extend b (replicate (Z.to_nat (total - 1)) 0) in
  mkBuffer (cb_dwords b) (cb_register_state b) (cb_cache_dynamic_registers b) (cb_pacing b)
    (cb_pacing_dwords b + total).

Definition pace_after_dispatch (b : Gfx12Pm4CommandBuffer) : Gfx12Pm4CommandBuffer :=
  match cb_pacing b with
  | PostDispatchNop body =>
      if negb (body =? 0) then nop b (Z.min body PACKET3_MAX_BODY_DWORDS + 1) else b
  | PacingNone => b
  end.

(** ** Acquires *)

Definition acquire_system (b : Gfx12Pm4CommandBuffer) : Gfx12Pm4CommandBuffer :=
  extend b [packet3 PACKET3_ACQUIRE_MEM 7 false; 0; u32_max; 0xff; 0; 0; 4;
    Z.lor (Z.lor (Z.lor (Z.lor (Z.lor (Z.lor (Z.lor (Z.lor (Z.lor
      (Z.shiftl 1 16) (Z.shiftl 1 15)) (Z.shiftl 1 14)) (Z.shiftl 1 9)) (Z.shiftl 1 8))
      (Z.shiftl 1 7)) (Z.shiftl 1 6)) (Z.shiftl 1 5)) (Z.shiftl 1 4)) 1].

Definition emit_acquire_gcr (b : Gfx12Pm4CommandBuffer) (gcr : Z) : Gfx12Pm4CommandBuffer :=
  extend b [packet3 PACKET3_ACQUIRE_MEM 7 false; 0; u32_max; 0x00ffffff; 0; 0; 0xa; gcr].

Definition emit_acquire_gcr_radv (b : Gfx12Pm4CommandBuffer) (gcr : Z) : Gfx12Pm4CommandBuffer :=
  extend b [packet3 PACKET3_ACQUIRE_MEM 7 false; 0; u32_max; 0x00ffffff; 0; 0; 0xa; gcr].

Definition acquire_system_gfx12 (b : Gfx12Pm4CommandBuffer) := emit_acquire_gcr b 0xc3b1.

Definition acquire_rmw_gfx12 (b : Gfx12Pm4CommandBuffer) (policy : Gfx12RmwAcquirePolicy) :=
  match policy with
  | CurrentSequential => emit_acquire_gcr b (gcr_cntl policy)
  | _ => emit_acquire_gcr_radv b (gcr_cntl policy)
  end.

Definition acquire_inter_node_gfx12 (b : Gfx12Pm4CommandBuffer) :=
  acquire_rmw_gfx12 b CurrentSequential.

Definition wait_compute_idle (b : Gfx12Pm4CommandBuffer) : Gfx12Pm4CommandBuffer :=
  extend (extend b [packet3 PACKET3_EVENT_WRITE 1 false]) [0x407].

Definition dependency_rmw_same_agent_gfx12 (b : Gfx12Pm4CommandBuffer) :=
  acquire_rmw_gfx12 (wait_compute_idle b) SameAgentParallelL1.

Definition dependency_rmw_hip_llvm_vmem_gfx12 (b : Gfx12Pm4CommandBuffer) :=
  acquire_rmw_gfx12 (wait_compute_idle b) HipLlvmVmemL1.

(** ** Timestamps *)

Definition copy_gpu_timestamp (b : Gfx12Pm4CommandBuffer) (address : Z) : Gfx12Pm4CommandBuffer :=
  let COPY_DATA_TIMESTAMP_TO_MEMORY_64 :=
    Z.lor (Z.lor (Z.lor 9 (Z.shiftl 5 8)) (Z.shiftl 1 16)) (Z.shiftl 1 20) in
  extend b [packet3 PACKET3_COPY_DATA 5 false; COPY_DATA_TIMESTAMP_TO_MEMORY_64; 0; 0;
    as_u32 address; as_u32 (Z.shiftr address 32)].

Definition release_gpu_timestamp (b : Gfx12Pm4CommandBuffer) (address : Z) : Gfx12Pm4CommandBuffer :=
  let BOTTOM_OF_PIPE_TS_EVENT := Z.lor 40 (Z.shiftl 5 8) in
  let TIMESTAMP_AFTER_WRITE_CONFIRM := Z.lor (Z.shiftl 3 24) (Z.shiftl 3 29) in
  extend b [packet3 PACKET3_RELEASE_MEM 7 false; BOTTOM_OF_PIPE_TS_EVENT;
    TIMESTAMP_AFTER_WRITE_CONFIRM; as_u32 address; as_u32 (Z.shiftr address 32); 0; 0; 0].

Definition with_gpu_timestamps (b : Gfx12Pm4CommandBuffer) (start_address end_address : Z) :=
  release_gpu_timestamp (extend (copy_gpu_timestamp buffer_new start_address) (cb_dwords b))
    end_address.

(** ** The packet walk

    The diagnostic passes, and those over retained indirect buffers, share one
    loop: check the header, find the end of the packet, act on the packet and go
    on behind it.  A [cursor + 1 + body] above [usize::MAX] is also above
    [dwords.len()].  [step] is the body of one pass; it sees the position, the
    header and the dwords of the packet. *)

Definition header_body (header : Z) : nat := Z.to_nat (Z.land (Z.shiftr header 16) 0x3fff) + 1.
Definition header_opcode (header : Z) : Z := Z.land (Z.shiftr header 8) 0xff.

Fixpoint walk_at {E S} (malformed : nat → E) (step : S → nat → Z → list Z → exec E S) (fuel : nat)
    (dwords : list Z) (cursor : nat) (s : S) : exec E S :=
  if decide (cursor < length dwords)%nat then
    match fuel with
    | O => Panic
    | Datatypes.S fuel =>
        header ← unwrap (dwords !! cursor);
        if negb (Z.shiftr header 30 =? 3) then Fail (malformed cursor)
        else
          let body := header_body header in
          let next := (cursor + (1 + body))%nat in
          if decide (next ≤ length dwords)%nat then
            s' ← step s cursor header (take (1 + body) (drop cursor dwords));
            walk_at malformed step fuel dwords next s'
          else Fail (malformed cursor)
    end
  else Done s.

Definition walk {S} (step : S → Z → list Z → exec Pm4BuildError S) (fuel : nat)
    (dwords : list Z) (cursor : nat) (s : S) : exec Pm4BuildError S :=
  walk_at MalformedStream (λ s _, step s) fuel dwords cursor s.

(** Every packet is at least two dwords long, so the length bounds the number
    of iterations. *)
Definition walk_all {S} (step : S → Z → list Z → exec Pm4BuildError S) (dwords : list Z) (s : S) :=
  walk step (length dwords) dwords 0 s.

Definition timestamps_step (base_address : Z) (s : Gfx12Pm4CommandBuffer * Z) (header : Z)
    (packet : list Z) : exec Pm4BuildError (Gfx12Pm4CommandBuffer * Z) :=
  let '(timed, slot) := s in
  let timed := extend timed packet in
  if header_opcode header =? PACKET3_DISPATCH_DIRECT then
    offset ← unwrap (checked_mul 64 slot 8);
    address ← unwrap (checked_add 64 base_address offset);
    slot' ← unwrap (checked_add 64 slot 1);
    Done (copy_gpu_timestamp timed address, slot')
  else Done (timed, slot).

Definition with_per_dispatch_timestamps (b : Gfx12Pm4CommandBuffer) (base_address : Z) :
    exec Pm4BuildError Gfx12Pm4CommandBuffer :=
  let timed := copy_gpu_timestamp buffer_new base_address in
  '(timed, _) ← walk_all (timestamps_step base_address) (cb_dwords b) (timed, 1);
  Done timed.

Definition slots_step (slots : nat) (header : Z) (packet : list Z) : exec Pm4BuildError nat :=
  Done (if header_opcode header =? PACKET3_DISPATCH_DIRECT then S slots else slots).

Definition timestamp_slot_count (b : Gfx12Pm4CommandBuffer) : exec Pm4BuildError nat :=
  walk_all slots_step (cb_dwords b) 1%nat.

Record Pm4DispatchSpanAttribution := mkSpan {
  sa_entry_acquire : bool;
  sa_wait_compute_idle : bool;
  sa_acquire_inter_node : bool
}.

Definition span_default : Pm4DispatchSpanAttribution := mkSpan false false false.

Definition spans_step (s : list Pm4DispatchSpanAttribution * Pm4DispatchSpanAttribution * bool)
    (header : Z) (packet : list Z) :
    exec Pm4BuildError (list Pm4DispatchSpanAttribution * Pm4DispatchSpanAttribution * bool) :=
  let '(attributions, pending, saw_dispatch) := s in
  let opcode := header_opcode header in
  Done
    (if opcode =? PACKET3_DISPATCH_DIRECT then (attributions ++ [pending], span_default, true)
     else if opcode =? PACKET3_EVENT_WRITE then
       (attributions,
        mkSpan (sa_entry_acquire pending) true (sa_acquire_inter_node pending), saw_dispatch)
     else if (opcode =? PACKET3_ACQUIRE_MEM) && negb saw_dispatch then
       (attributions,
        mkSpan true (sa_wait_compute_idle pending) (sa_acquire_inter_node pending), saw_dispatch)
     else if opcode =? PACKET3_ACQUIRE_MEM then
       (attributions,
        mkSpan (sa_entry_acquire pending) (sa_wait_compute_idle pending) true, saw_dispatch)
     else (attributions, pending, saw_dispatch)).

Definition dispatch_span_attributions (b : Gfx12Pm4CommandBuffer) :
    exec Pm4BuildError (list Pm4DispatchSpanAttribution) :=
  '(attributions, _, _) ← walk_all spans_step (cb_dwords b) ([], span_default, false);
  Done attributions.

(** ** Register writes *)

Definition emit_set_sh_regs (b : Gfx12Pm4CommandBuffer) (first : Z) (values : list Z) :=
  extend (extend (extend b
    [packet3 PACKET3_SET_SH_REG (1 + Z.of_nat (length values)) true]) [first]) values.

(** The loop of [set_sh_regs] over the values; registers are below [0x300], so
    [first + offset] cannot overflow. *)
Fixpoint changed_runs_loop (register_state : gmap Z Z) (first : Z) (offset : nat)
    (values : list Z) (run_first : option Z) (run_values : list Z)
    (changed_runs : list (Z * list Z)) : gmap Z Z * list (Z * list Z) :=
  match values with
  | [] =>
      (register_state,
       match run_first with
       | Some run_first => changed_runs ++ [(run_first, run_values)]
       | None => changed_runs
       end)
  | value :: values =>
      let register := first + Z.of_nat offset in
      if decide (register_state !! register = Some value) then
        match run_first with
        | Some run_first =>
            changed_runs_loop register_state first (S offset) values None []
              (changed_runs ++ [(run_first, run_values)])
        | None => changed_runs_loop register_state first (S offset) values None run_values changed_runs
        end
      else
        changed_runs_loop (<[register := value]> register_state) first (S offset) values
          (Some (default register run_first)) (run_values ++ [value]) changed_runs
  end.

Definition set_sh_regs (b : Gfx12Pm4CommandBuffer) (first : Z) (values : list Z) :
    Gfx12Pm4CommandBuffer :=
  let static_registers := first =? COMPUTE_RESOURCE_LIMITS in
  if negb (cb_cache_dynamic_registers b) && negb static_registers then
    emit_set_sh_regs b first values
  else
    match cb_register_state b with
    | None => emit_set_sh_regs b first values
    | Some register_state =>
        let '(register_state, changed_runs) :=
          changed_runs_loop register_state first 0 values None [] [] in
        let b := mkBuffer (cb_dwords b) (Some register_state) (cb_cache_dynamic_registers b)
          (cb_pacing b) (cb_pacing_dwords b) in
        foldl (λ b '(run_first, run_values), emit_set_sh_regs b run_first run_values)
          b changed_runs
    end.

(** ** Dispatch *)

Definition div_ceil (a b : Z) : Z := (a + b - 1) / b.

(** The checks of [dispatch]; every early return is before the first write to
    the buffer.  The result is the descriptor with the derived [rsrc2], the
    wave size and whether the kernel takes a kernarg pointer. *)
Definition dispatch_checks (kernel : Kernel) (dynamic_group_bytes kernarg_address : Z) :
    result Pm4BuildError (KernelPm4Metadata * Z * bool * bool) :=
  let loader := k_metadata kernel in
  if negb (md_private_segment_size loader =? 0) || md_dynamic_callstack loader then
    Err (ScratchUnsupported (md_private_segment_size loader) (md_dynamic_callstack loader))
  else
    pm4 ← ok_or (k_pm4 kernel) MissingKernelDescriptor;
    let unsupported := Z.ldiff (pm4_kernel_code_properties pm4) SUPPORTED_KERNEL_PROPERTIES in
    if negb (unsupported =? 0) then Err (UnsupportedKernelProperties unsupported)
    else
      let wave32 :=
        negb (Z.land (pm4_kernel_code_properties pm4) ENABLE_WAVEFRONT_SIZE32 =? 0) in
      let needs_kernarg :=
        negb (Z.land (pm4_kernel_code_properties pm4) ENABLE_SGPR_KERNARG_SEGMENT_PTR =? 0) in
      if needs_kernarg && (kernarg_address =? 0) then Err NullKernarg
      else
        total_group_bytes ←
          ok_or (checked_add 32 (md_group_segment_size loader) dynamic_group_bytes)
            GroupSegmentOverflow;
        let lds_blocks := div_ceil total_group_bytes GFX12_LDS_GRANULE in
        if lds_blocks >? Z.shiftr LDS_SIZE_MASK LDS_SIZE_SHIFT then
          Err (GroupSegmentTooLarge total_group_bytes)
        else
          let rsrc2 := Z.lor (Z.ldiff (pm4_compute_pgm_rsrc2 pm4) LDS_SIZE_MASK)
            (shl32 lds_blocks LDS_SIZE_SHIFT) in
          Ok (pm4, rsrc2, wave32, needs_kernarg).

Definition dispatch (b : Gfx12Pm4CommandBuffer) (kernel : Kernel) (geometry : LaunchGeometry)
    (dynamic_group_bytes kernarg_address : Z) : result Pm4BuildError Gfx12Pm4CommandBuffer :=
  match dispatch_checks kernel dynamic_group_bytes kernarg_address with
  | Err e => Err e
  | Ok (pm4, rsrc2, wave32, needs_kernarg) =>
  let b := set_sh_regs b COMPUTE_PGM_LO
    [as_u32 (Z.shiftr (pm4_code_entry pm4) 8); as_u32 (Z.shiftr (pm4_code_entry pm4) 40)] in
  let b := set_sh_regs b COMPUTE_PGM_RSRC1 [pm4_compute_pgm_rsrc1 pm4; rsrc2] in
  let b := set_sh_regs b COMPUTE_PGM_RSRC3_GFX12 [pm4_compute_pgm_rsrc3 pm4] in
  let b := set_sh_regs b COMPUTE_NUM_THREAD_X
    [a3_x (geo_workgroup geometry); a3_y (geo_workgroup geometry); a3_z (geo_workgroup geometry)] in
  let b := set_sh_regs b COMPUTE_RESOURCE_LIMITS [0x3ff] in
  let b :=
    if needs_kernarg then
      set_sh_regs b COMPUTE_USER_DATA_0
        [as_u32 kernarg_address; as_u32 (Z.shiftr kernarg_address 32)]
    else b in
  let b := extend b [packet3 PACKET3_DISPATCH_DIRECT 4 true] in
  let b := extend b [a3_x (geo_grid_workitems geometry); a3_y (geo_grid_workitems geometry);
    a3_z (geo_grid_workitems geometry)] in
  let b := extend b [dispatch_initiator wave32] in
  Ok (pace_after_dispatch b)
  end.

Definition len_dwords (b : Gfx12Pm4CommandBuffer) : Z := as_u32 (Z.of_nat (length (cb_dwords b))).
Definition buffer_is_empty (b : Gfx12Pm4CommandBuffer) : bool := is_empty (cb_dwords b).
Definition as_bytes (b : Gfx12Pm4CommandBuffer) : list Z := cb_dwords b ≫= le_bytes 4.

#[global] Arguments header_body : simpl never.
#[global] Arguments header_opcode : simpl never.
#[global] Arguments packet3 : simpl never.
