(* ===== verification/AqlGraph.v ===== *)
(** * Recorded packet graphs ([redline-dispatch/src/aql/replay.rs])

    The errors of replay, recorded dispatches and the N-queue dependency graph.
    The outcomes of HSA calls come from [GpuDevice]; a batch is the list of
    packet images that one queue publishes. *)

From S2P Require Import Prelude BTree Packet Device Pm4.

Inductive ReplayError :=
| ReplayRuntime (e : RuntimeError)
| ReplayPacket (e : PacketError)
| ReplayPm4Build (e : Pm4BuildError)
| EmptyGraph
| EmptyPhaseSet
| EmptyBatch
| InvalidBatchShape
| BatchShapeOverflow
| EmptyLane (lane : nat)
| PhaseLaneMismatch (expected actual : nat)
| PhaseHasExplicitDependencies (lane : nat)
| AlreadyInFlight
| GraphInactive
| LaneOutOfRange (node lane queue_count : nat)
| DependencyNotEarlier (node dependency : nat)
| DuplicateDependency (node dependency : nat)
| BatchExceedsQueue (lane : nat) (packets capacity : Z)
| MixedGpuObjects
| KernargMetadataMismatch (kernel : rstr) (metadata_bytes buffer_bytes : Z)
| KernargPatchWhileInFlight
| KernargPatchOutOfBounds (dispatch : nat) (offset bytes kernarg_bytes : Z)
| PolicyShapeMismatch
| ProfilingUnavailable
| InvalidGpuTimestamp (start end_ : Z)
| MalformedPm4IndirectBuffer (dword : nat)
| Pm4DispatchOutOfBounds (dispatch dispatches : nat)
| Pm4ZeroWorkgroup (dispatch : nat) (workgroups : arr3).

(** ** Recorded dispatches *)

Record RecordedDispatch := mkRecorded {
  rd_lane : nat;
  rd_kernel : Kernel;
  rd_geometry : LaunchGeometry;
  rd_kernarg : KernargBuffer;
  rd_dynamic_group_bytes : Z;
  rd_dependencies : list nat
}.

Definition recorded_new (lane : nat) (kernel : Kernel) (geometry : LaunchGeometry)
    (kernarg : KernargBuffer) : result ReplayError RecordedDispatch :=
  let bytes := Z.of_nat (length (ka_bytes kernarg)) in
  let expected := md_kernarg_segment_size (k_metadata kernel) in
  if negb (bytes =? expected)%Z then Err (KernargMetadataMismatch (k_name kernel) expected bytes)
  else if negb (ka_agent kernarg =? k_agent kernel)%Z then Err MixedGpuObjects
  else Ok (mkRecorded lane kernel geometry kernarg 0 []).

Definition with_dynamic_group_bytes (r : RecordedDispatch) (bytes : Z) :
    result ReplayError RecordedDispatch :=
  Ok (mkRecorded (rd_lane r) (rd_kernel r) (rd_geometry r) (rd_kernarg r) bytes (rd_dependencies r)).

Definition with_dependencies (r : RecordedDispatch) (dependencies : list nat) : RecordedDispatch :=
  mkRecorded (rd_lane r) (rd_kernel r) (rd_geometry r) (rd_kernarg r) (rd_dynamic_group_bytes r)
    (rd_dependencies r ++ dependencies).

(** Same agent and launch limits; the checks [validate_nodes] and
    [validate_two_queue_phases] share. *)
Definition validate_objects (d : GpuDevice) (r : RecordedDispatch) : result ReplayError unit :=
  if negb (k_agent (rd_kernel r) =? gpu_agent d)%Z || negb (ka_agent (rd_kernarg r) =? gpu_agent d)%Z
  then Err MixedGpuObjects
  else map_err ReplayRuntime (validate_geometry d (rd_geometry r)).

Definition check_dependency (index : nat) (unique : list nat) (dependency : nat) :
    result ReplayError (list nat) :=
  if index <=? dependency then Err (DependencyNotEarlier index dependency)
  else if bool_decide (dependency ∈ unique) then Err (DuplicateDependency index dependency)
  else Ok (dependency :: unique).

Definition validate_node (d : GpuDevice) (queue_count : nat) (entry : nat * RecordedDispatch) :
    result ReplayError unit :=
  let '(index, node) := entry in
  _ ← guard_ (queue_count <=? rd_lane node) (LaneOutOfRange index (rd_lane node) queue_count);
  _ ← validate_objects d node;
  _ ← foldR (check_dependency index) [] (rd_dependencies node);
  Ok tt.

Definition validate_nodes (d : GpuDevice) (queue_count : nat) (nodes : list RecordedDispatch) :
    result ReplayError unit :=
  if queue_count =? 0 then Err (ReplayRuntime ZeroQueues)
  else for_each (validate_node d queue_count) (enumerate nodes).

(** ** Batches *)

Abbreviation batches := (list (list PacketImage)).

Definition push_packet (bs : batches) (lane : nat) (image : PacketImage) : option batches :=
  vec_update bs lane (λ batch, Some (batch ++ [image])).

Definition push_barrier (policy : HeaderPolicy) (dependencies : list Z) (completion : Z)
    (bs : batches) (lane : nat) : exec ReplayError batches :=
  barrier ← try_ (map_err ReplayPacket (barrier_packet_with_policy dependencies completion policy));
  unwrap (push_packet bs lane (image_barrier barrier)).

Definition push_kernel (policy : HeaderPolicy) (completion : Z) (bs : batches) (lane : nat)
    (r : RecordedDispatch) : exec ReplayError batches :=
  packet ← try_ (map_err ReplayPacket
    (kernel_packet_with_policy (k_metadata (rd_kernel r)) (rd_geometry r) (rd_dynamic_group_bytes r)
       (ka_address (rd_kernarg r)) completion policy));
  unwrap (push_packet bs lane (image_kernel packet)).

(** [queues.size(lane).expect(..)] of every batch. *)
Definition check_capacity (sizes : list Z) (entry : nat * list PacketImage) :
    exec ReplayError unit :=
  let '(lane, batch) := entry in
  capacity ← unwrap (sizes !! lane);
  try_ (guard_ (capacity <? Z.of_nat (length batch))%Z
    (BatchExceedsQueue lane (Z.of_nat (length batch)) capacity)).

Definition check_capacities (sizes : list Z) (bs : batches) : exec ReplayError unit :=
  for_exec (check_capacity sizes) (enumerate bs).

(** The outcome of the [i]-th [CompletionSignal::new]. *)
Definition new_signal (d : GpuDevice) (i : nat) : result ReplayError Z :=
  map_err ReplayRuntime (gpu_signal d i).

(** ** [RecordedGraph::create] *)

Record RecordedGraph := mkGraph {
  rg_nodes : list RecordedDispatch;
  rg_node_signals : list Z;
  rg_final_signal : Z;
  rg_terminal_nodes : list nat;
  rg_batches : batches;
  rg_in_flight : bool;
  rg_usable : bool
}.

Definition depended_on (nodes : list RecordedDispatch) : option (list bool) :=
  foldM (λ flags node, foldM (λ flags dependency, vec_set flags dependency true) flags
                         (rd_dependencies node))
    (replicate (length nodes) false) nodes.

Definition terminal_nodes (flags : list bool) : list nat :=
  filter_map (λ '(index, used), if (used : bool) then None else Some index) (enumerate flags).

(** The barriers that wait for [signals], at most five each. *)
Definition push_waits (lane : nat) (bs : batches) (signals : list Z) : exec ReplayError batches :=
  foldE (λ bs chunk, push_barrier CROSS_QUEUE_BARRIER chunk 0 bs lane) bs
    (chunks BARRIER_DEPENDENCY_CAPACITY signals).

Definition emit_node (node_signals : list Z) (bs : batches) (entry : nat * RecordedDispatch) :
    exec ReplayError batches :=
  let '(index, recorded) := entry in
  dependencies ← unwrap (mapM (λ d, node_signals !! d) (rd_dependencies recorded));
  bs ← push_waits (rd_lane recorded) bs dependencies;
  signal ← unwrap (node_signals !! index);
  push_kernel RECORDED_DISPATCH signal bs (rd_lane recorded) recorded.

Definition graph_batches (queue_count : nat) (nodes : list RecordedDispatch)
    (node_signals : list Z) (final_signal : Z) (terminals : list nat) : exec ReplayError batches :=
  bs ← foldE (emit_node node_signals) (replicate queue_count []) (enumerate nodes);
  terminal_signals ← unwrap (mapM (λ i, node_signals !! i) terminals);
  bs ← push_waits 0 bs terminal_signals;
  push_barrier CROSS_QUEUE_BARRIER [] final_signal bs 0.

Definition graph_create (d : GpuDevice) (queue_count : nat) (queue_size : Z)
    (nodes : list RecordedDispatch) : exec ReplayError RecordedGraph :=
  if is_empty nodes then Fail EmptyGraph
  else
    _ ← try_ (validate_nodes d queue_count nodes);
    sizes ← try_ (map_err ReplayRuntime (gpu_queue_sizes d queue_count queue_size));
    node_signals ← try_ (mapM (new_signal d) (seq 0 (length nodes)));
    final_signal ← try_ (new_signal d (length nodes));
    flags ← unwrap (depended_on nodes);
    let terminals := terminal_nodes flags in
    bs ← graph_batches queue_count nodes node_signals final_signal terminals;
    _ ← check_capacities sizes bs;
    Done (mkGraph nodes node_signals final_signal terminals bs false true).

Definition graph_node_count (g : RecordedGraph) : nat := length (rg_nodes g).
Definition graph_doorbell_writes (g : RecordedGraph) : nat :=
  length (List.filter (λ batch, negb (is_empty batch)) (rg_batches g)).
