(* ===== verification/AqlGraphOk.v ===== *)
(** * What recorded packet graphs guarantee

    The packets a builder of [AqlGraph] has pushed are followed as a list in
    emission order, with the fields the packet processor reads.  From the
    emission of a graph its ordering guarantees and its completion follow by
    the facts of [AqlQueue]. *)

From stdpp Require Import gmap.
From S2P Require Import Prelude BTree Packet Device AqlQueue AqlGraph.

(** ** Batches and emissions *)

Definition views (bs : batches) : option (list (list packet_view)) :=
  mapM (mapM (λ image, view_packet (img_bytes image))) bs.

(** The batches of [n] lanes hold the packets of [E]. *)
Definition holds (n : nat) (E : list (nat * packet_view)) (bs : batches) : Prop :=
  views bs = Some (program_of n E) ∧ lanes_below n E.

Lemma lanes_below_nil {A} n : lanes_below n (@nil (nat * A)).
Proof. by intros k l x. Qed.

Lemma lanes_below_app {A} n (E1 E2 : list (nat * A)) :
  lanes_below n (E1 ++ E2) ↔ lanes_below n E1 ∧ lanes_below n E2.
Proof.
  unfold lanes_below. split.
  - intros H. split; intros k l x Hk.
    + apply (H k l x). by apply lookup_app_l_Some.
    + apply (H (length E1 + k) l x). by rewrite lookup_app_r, Nat.add_comm, Nat.add_sub by lia.
  - intros [H1 H2] k l x [Hk|[_ Hk]]%lookup_app_Some; eauto.
Qed.

Lemma lanes_below_singleton {A} n l (x : A) : l < n → lanes_below n [(l, x)].
Proof. intros Hl [|k] l' x'; [by intros [= <- <-]|done]. Qed.

Lemma holds_start n : holds n [] (replicate n []).
Proof.
  split; [|apply lanes_below_nil]. unfold views, program_of. apply mapM_Some.
  apply Forall2_same_length_lookup. split; [by rewrite length_replicate, length_fmap, length_seq|].
  intros i x y Hx Hy. apply lookup_replicate in Hx as [-> _].
  rewrite list_lookup_fmap in Hy. by destruct (seq 0 n !! i); simplify_eq/=.
Qed.

Lemma holds_push n E bs l v image :
  holds n E bs → l < n → view_packet (img_bytes image) = Some v →
  ∃ bs', push_packet bs l image = Some bs' ∧ holds n (E ++ [(l, v)]) bs'.
Proof.
  intros [Hv Hn] Hl Hi. unfold views in Hv. rewrite mapM_Some in Hv.
  assert (length bs = n) as Hlen.
  { apply Forall2_length in Hv. unfold program_of in Hv. by rewrite length_fmap, length_seq in Hv. }
  destruct (lookup_lt_is_Some_2 bs l) as [batch Hb]; [lia|].
  exists (<[l := batch ++ [image]]> bs). split; [by eapply vec_update_lookup|]. split.
  2:{ apply lanes_below_app. split; [done|by apply lanes_below_singleton]. }
  unfold views. apply mapM_Some. apply Forall2_same_length_lookup. split.
  { unfold program_of. by rewrite length_insert, length_fmap, length_seq. }
  intros i x y Hx Hy.
  assert (i < n) as Hin. { rewrite <-Hlen, <-(length_insert bs l (batch ++ [image])).
    by eapply lookup_lt_Some. }
  rewrite program_of_lookup in Hy by done. injection Hy as <-.
  assert (∀ b, bs !! i = Some b → mapM (λ image, view_packet (img_bytes image)) b
    = Some (lane_of i E)) as Hold.
  { intros b Hib. by apply (Forall2_lookup_lr _ _ _ i b _ Hv Hib), program_of_lookup. }
  rewrite lane_of_app. destruct (decide (l = i)) as [->|Hne].
  - rewrite list_lookup_insert_eq in Hx by lia. injection Hx as <-.
    rewrite lane_of_cons_eq. apply mapM_Some, Forall2_app.
    + apply mapM_Some. by apply Hold.
    + repeat constructor. done.
  - rewrite list_lookup_insert_ne in Hx by done. rewrite lane_of_cons_ne by done.
    rewrite app_nil_r. by apply Hold.
Qed.

Definition handles (signals : list Z) : Prop := Forall (λ s, in_u 64 s ∧ s ≠ 0%Z) signals.

Lemma push_barrier_holds n E bs policy deps c l :
  holds n E bs → l < n → handles deps → in_u 64 c →
  push_barrier policy deps c bs l ≠ Panic ∧
  ∀ bs', push_barrier policy deps c bs l = Done bs' →
    holds n (E ++ [(l, mkView policy (BarrierAnd deps) c)]) bs'.
Proof.
  intros Hh Hl Hdeps Hc. unfold push_barrier.
  destruct (barrier_packet_with_policy deps c policy) as [p|e] eqn:Hp;
    cbn [map_err try_ mbind exec_bind]; [|done].
  destruct (holds_push n E bs l (mkView policy (BarrierAnd deps) c) (image_barrier p))
    as (bs1 & -> & Hh1); [done|done| |].
  - eapply view_barrier; [eapply Forall_impl; [exact Hdeps|by intros ? []]..|done|done].
  - split; [done|]. by intros bs' [= <-].
Qed.

Definition recorded_typed (r : RecordedDispatch) : Prop :=
  metadata_typed (k_metadata (rd_kernel r)) ∧ geometry_typed (rd_geometry r) ∧
  (0 ≤ rd_dynamic_group_bytes r)%Z ∧ in_u 64 (ka_address (rd_kernarg r)).

(** The kernel packet of a dispatch, as the packet processor reads it. *)
Definition kernel_view (header : HeaderPolicy) (r : RecordedDispatch) (completion : Z) : packet_view :=
  mkView header (KernelPacket (md_kernel_object (k_metadata (rd_kernel r))) (ka_address (rd_kernarg r)))
    completion.

Lemma push_kernel_holds n E bs policy c l r :
  holds n E bs → l < n → recorded_typed r → in_u 64 c →
  push_kernel policy c bs l r ≠ Panic ∧
  ∀ bs', push_kernel policy c bs l r = Done bs' →
    holds n (E ++ [(l, kernel_view policy r c)]) bs'.
Proof.
  intros Hh Hl (Hm & Hg & Hd & Hk) Hc. unfold push_kernel.
  destruct (kernel_packet_with_policy _ _ _ _ _ _) as [p|e] eqn:Hp;
    cbn [map_err try_ mbind exec_bind]; [|done].
  destruct (holds_push n E bs l (kernel_view policy r c) (image_kernel p))
    as (bs1 & -> & Hh1); [done|done|exact (view_kernel _ _ _ _ _ _ _ Hm Hg Hd Hk Hc Hp)|].
  split; [done|]. by intros bs' [= <-].
Qed.

(** A loop that emits [f x] for every [x]. *)
Lemma foldE_holds {A} n (f : A → list (nat * packet_view)) (body : batches → A → exec ReplayError batches)
    (l : list A) E bs :
  holds n E bs →
  (∀ x E bs, x ∈ l → holds n E bs →
     body bs x ≠ Panic ∧ ∀ bs', body bs x = Done bs' → holds n (E ++ f x) bs') →
  foldE body bs l ≠ Panic ∧
  ∀ bs', foldE body bs l = Done bs' → holds n (E ++ (l ≫= f)) bs'.
Proof.
  intros Hh Hbody. split.
  - apply (foldE_no_panic (λ l1 bs, holds n (E ++ (l1 ≫= f)) bs)).
    + simpl. by rewrite app_nil_r.
    + intros l1 x l2 bs1 -> Hh1. destruct (Hbody x (E ++ (l1 ≫= f)) bs1) as [Hnp Hd];
        [set_solver|done|]. split; [done|]. intros bs2 Hbs2.
      rewrite bind_app. simpl. rewrite app_nil_r, app_assoc. by apply Hd.
  - intros bs'. apply (foldE_Done_inv (λ l1 bs, holds n (E ++ (l1 ≫= f)) bs)).
    + simpl. by rewrite app_nil_r.
    + intros l1 x l2 bs1 bs2 -> Hh1 Hbs2.
      destruct (Hbody x (E ++ (l1 ≫= f)) bs1) as [_ Hd]; [set_solver|done|].
      rewrite bind_app. simpl. rewrite app_nil_r, app_assoc. by apply Hd.
Qed.

(** ** Completion signals of an emission *)

Definition completions (E : list (nat * packet_view)) : list Z :=
  List.filter (λ s, negb (s =? 0)%Z) ((λ e, pv_completion e.2) <$> E).

Lemma completions_app E1 E2 : completions (E1 ++ E2) = completions E1 ++ completions E2.
Proof. unfold completions. by rewrite fmap_app, List.filter_app. Qed.

Lemma completions_cons_nz l v E :
  pv_completion v ≠ 0%Z → completions ((l, v) :: E) = pv_completion v :: completions E.
Proof.
  intros Hv. unfold completions. rewrite fmap_cons. cbn [List.filter snd].
  by rewrite (proj2 (Z.eqb_neq _ _)) by done.
Qed.

Lemma completions_cons_z l v E :
  pv_completion v = 0%Z → completions ((l, v) :: E) = completions E.
Proof. intros Hv. unfold completions. rewrite fmap_cons. cbn [List.filter snd]. by rewrite Hv. Qed.

Lemma elem_of_completions E s :
  s ∈ completions E ↔ s ≠ 0%Z ∧ ∃ k l v, E !! k = Some (l, v) ∧ pv_completion v = s.
Proof.
  unfold completions. rewrite list_elem_of_In, filter_In, <-list_elem_of_In, negb_true_iff, Z.eqb_neq.
  rewrite list_elem_of_fmap. split.
  - intros (([l v] & -> & (k & Hk)%list_elem_of_lookup) & Hs). split; [done|]. by exists k, l, v.
  - intros (Hs & k & l & v & Hk & <-). split; [|done]. exists (l, v). split; [done|].
    by eapply list_elem_of_lookup_2.
Qed.

(** Among the signals that satisfy [own] every signal is completed once. *)
Section own.
Context (own : Z → Prop) `{∀ s, Decision (own s)}.

Lemma own_unique E k k' l v l' v' :
  NoDup (filter own (completions E)) → own (pv_completion v) →
  E !! k = Some (l, v) → E !! k' = Some (l', v') →
  pv_completion v ≠ 0%Z → pv_completion v' = pv_completion v → k' = k.
Proof using All.
  intros Hnd Hown Hk Hk' Hv Heq.
  assert (∀ i j li vi lj vj, i < j → E !! i = Some (li, vi) → E !! j = Some (lj, vj) →
    own (pv_completion vi) → pv_completion vi ≠ 0%Z → pv_completion vj = pv_completion vi → False) as Hlt.
  { clear -Hnd. intros i j li vi lj vj Hij Hi Hj Ho Hnz Hc.
    rewrite <-(take_drop_middle E j (lj, vj) Hj), completions_app, filter_app in Hnd.
    apply NoDup_app in Hnd as (_ & Hdis & _). apply (Hdis (pv_completion vi)); apply list_elem_of_filter.
    - split; [done|]. apply elem_of_completions. split; [done|]. exists i, li, vi. split; [|done].
      by rewrite lookup_take_lt by lia.
    - split; [done|]. rewrite completions_cons_nz by congruence. rewrite Hc. set_solver. }
  destruct (Nat.lt_trichotomy k k') as [Hlt'|[Hlt'|Hlt']]; [|done|].
  - exfalso. by eapply (Hlt k k').
  - exfalso. eapply (Hlt k' k); [done..|congruence|congruence|done].
Qed.

Lemma own_signals_only n E k l v :
  lanes_below n E → NoDup (filter own (completions E)) → own (pv_completion v) →
  E !! k = Some (l, v) → pv_completion v ≠ 0%Z →
  signals_only (program_of n E) (pv_completion v) (l, rank E l k).
Proof using All.
  intros Hn Hnd Ho Hk Hv. apply signals_only_emission; [done..|].
  intros k' l' v' Hk' Heq. by eapply own_unique.
Qed.

Lemma well_ordered_own n E :
  lanes_below n E → NoDup (filter own (completions E)) →
  (∀ E1 l v E2 deps s, E = E1 ++ (l, v) :: E2 → pv_kind v = BarrierAnd deps → s ∈ deps →
     own s ∧ s ∈ completions E1) →
  well_ordered n E.
Proof using All.
  intros Hn Hnd Hdeps k l v deps s Hk Hkind Hs.
  destruct (Hdeps (take k E) l v (drop (S k) E) deps s (eq_sym (take_drop_middle _ _ _ Hk)) Hkind Hs)
    as (Ho & Hin).
  apply elem_of_completions in Hin as (Hnz & k' & l' & v' & Hk' & <-).
  apply lookup_take_Some in Hk' as [Hk' Hlt]. exists k', l', v'.
  split; [done|]. split; [done|]. by apply own_signals_only.
Qed.
End own.

Lemma filter_always {A} (l : list A) : filter (λ _, True) l = l.
Proof. induction l as [|x l IH]; [done|]. by rewrite filter_cons_True, IH. Qed.

Lemma completions_unique E k k' l v l' v' :
  NoDup (completions E) → E !! k = Some (l, v) → E !! k' = Some (l', v') →
  pv_completion v ≠ 0%Z → pv_completion v' = pv_completion v → k' = k.
Proof. intros Hnd. apply (own_unique (λ _, True)); [by rewrite filter_always|done]. Qed.

Lemma signals_only_completions n E k l v :
  lanes_below n E → NoDup (completions E) → E !! k = Some (l, v) → pv_completion v ≠ 0%Z →
  signals_only (program_of n E) (pv_completion v) (l, rank E l k).
Proof. intros Hn Hnd. apply (own_signals_only (λ _, True)); [done|by rewrite filter_always|done]. Qed.

Lemma well_ordered_intro n E :
  lanes_below n E → NoDup (completions E) →
  (∀ E1 l v E2 deps s, E = E1 ++ (l, v) :: E2 → pv_kind v = BarrierAnd deps → s ∈ deps →
     s ∈ completions E1) →
  well_ordered n E.
Proof.
  intros Hn Hnd Hdeps. apply (well_ordered_own (λ _, True)); [done|by rewrite filter_always|].
  intros. split; [done|]. by eapply Hdeps.
Qed.

(** Where an element of a concatenation stands. *)
Lemma app_middle_inv {A} (l1 l2 E1 E2 : list A) x :
  l1 ++ l2 = E1 ++ x :: E2 →
  (∃ l1', l1 = E1 ++ x :: l1') ∨ (∃ l2', E1 = l1 ++ l2' ∧ l2 = l2' ++ x :: E2).
Proof.
  intros H. apply app_eq_app in H as (k & [[-> Hk]|[-> ->]]).
  - destruct k as [|y k]; [right; exists []; by rewrite !app_nil_r|].
    injection Hk as -> ->. left. by exists k.
  - right. by exists k.
Qed.

Lemma bind_middle_inv {A B} (f : A → list B) (l : list A) E1 x E2 :
  (l ≫= f) = E1 ++ x :: E2 →
  ∃ l1 y l2 a b, l = l1 ++ y :: l2 ∧ f y = a ++ x :: b ∧ E1 = (l1 ≫= f) ++ a.
Proof.
  revert E1. induction l as [|z l IH]; intros E1; simpl; [by destruct E1|].
  intros [[b Hb]|(E1' & -> & Hl)]%app_middle_inv.
  - exists [], z, l, E1, b. done.
  - destruct (IH _ Hl) as (l1 & y & l2 & a & b & -> & Hy & ->).
    exists (z :: l1), y, l2, a, b. split; [done|]. split; [done|]. simpl. by rewrite app_assoc.
Qed.

(** ** The emission of a recorded graph *)

Section graph.
Context (sig : nat → Z).

Definition wait_emission (lane : nat) (signals : list Z) : list (nat * packet_view) :=
  (λ chunk, (lane, mkView CROSS_QUEUE_BARRIER (BarrierAnd chunk) 0)) <$> chunks BARRIER_DEPENDENCY_CAPACITY signals.

Definition kernel_emission (r : RecordedDispatch) (s : Z) : nat * packet_view :=
  (rd_lane r, kernel_view RECORDED_DISPATCH r s).

Definition node_emission (entry : nat * RecordedDispatch) : list (nat * packet_view) :=
  wait_emission (rd_lane entry.2) (sig <$> rd_dependencies entry.2)
  ++ [kernel_emission entry.2 (sig entry.1)].

Definition graph_emission (nodes : list RecordedDispatch) (terminals : list nat) (final : Z) :
    list (nat * packet_view) :=
  (enumerate nodes ≫= node_emission) ++ wait_emission 0 (sig <$> terminals)
  ++ [(0, mkView CROSS_QUEUE_BARRIER (BarrierAnd []) final)].

Lemma completions_wait lane signals : completions (wait_emission lane signals) = [].
Proof.
  unfold wait_emission. induction (chunks _ _) as [|c l IH]; [done|].
  rewrite fmap_cons. by rewrite completions_cons_z.
Qed.

Lemma elem_of_wait lane signals l v deps s :
  (l, v) ∈ wait_emission lane signals → pv_kind v = BarrierAnd deps → s ∈ deps → s ∈ signals.
Proof.
  intros (c & [= -> ->] & Hc)%list_elem_of_fmap [= ->] Hs.
  rewrite <-(chunks_concat BARRIER_DEPENDENCY_CAPACITY signals)
    by (unfold BARRIER_DEPENDENCY_CAPACITY; lia).
  apply list_elem_of_In, in_concat. exists deps. by rewrite <-!list_elem_of_In.
Qed.

Lemma wait_covers lane signals s :
  s ∈ signals → ∃ deps, (lane, mkView CROSS_QUEUE_BARRIER (BarrierAnd deps) 0) ∈ wait_emission lane signals ∧ s ∈ deps.
Proof.
  rewrite <-(chunks_concat BARRIER_DEPENDENCY_CAPACITY signals) at 1
    by (unfold BARRIER_DEPENDENCY_CAPACITY; lia).
  intros (deps & Hd & Hs)%list_elem_of_In%in_concat. rewrite <-!list_elem_of_In in *.
  exists deps. split; [|done]. apply list_elem_of_fmap. by exists deps.
Qed.

Lemma completions_nodes l :
  (∀ i, i ∈ l.*1 → sig i ≠ 0%Z) → completions (l ≫= node_emission) = sig <$> l.*1.
Proof.
  induction l as [|[i r] l IH]; intros Hnz; [done|]. cbn [mbind list_bind].
  change (mbind node_emission l) with (l ≫= node_emission).
  rewrite completions_app, IH by (intros; apply Hnz; set_solver).
  unfold node_emission. rewrite completions_app, completions_wait.
  unfold kernel_emission; cbn [fst snd]. rewrite completions_cons_nz by (apply Hnz; set_solver). done.
Qed.

Lemma enumerate_fst {A} (l : list A) : (enumerate l).*1 = seq 0 (length l).
Proof. unfold enumerate. rewrite fst_zip; [done|]. by rewrite length_seq. Qed.

Lemma completions_graph nodes terminals final :
  (∀ i, i < length nodes → sig i ≠ 0%Z) → final ≠ 0%Z →
  completions (graph_emission nodes terminals final) = (sig <$> seq 0 (length nodes)) ++ [final].
Proof.
  intros Hnz Hf. unfold graph_emission. rewrite !completions_app, completions_wait.
  rewrite completions_cons_nz by done. rewrite completions_nodes, enumerate_fst; [done|].
  rewrite enumerate_fst. intros i Hi%elem_of_seq. apply Hnz. lia.
Qed.
End graph.

(** ** Devices *)

(** What the code relies on of the runtime: signal handles are non-null, 64-bit
    and fresh, and a queue set has as many queues as asked for. *)
Record device_ok (d : GpuDevice) : Prop := {
  dk_signal i s : gpu_signal d i = Ok s → in_u 64 s ∧ s ≠ 0%Z;
  dk_fresh i j s : gpu_signal d i = Ok s → gpu_signal d j = Ok s → i = j;
  dk_queues count size sizes : gpu_queue_sizes d count size = Ok sizes → length sizes = count
}.

Lemma map_err_Ok {E E' A} (f : E → E') (r : result E A) a : map_err f r = Ok a ↔ r = Ok a.
Proof. destruct r; simpl; naive_solver. Qed.

(** Signals created in one go. *)
Lemma new_signals_ok d base count signals :
  device_ok d → mapM (new_signal d) (seq base count) = Ok signals →
  length signals = count ∧ handles signals ∧
  ∀ i s, signals !! i = Some s → gpu_signal d (base + i) = Ok s.
Proof.
  intros Hd H%mapM_Ok. split; [by rewrite <-(Forall2_length _ _ _ H), length_seq|].
  assert (∀ i s, signals !! i = Some s → gpu_signal d (base + i) = Ok s) as Hlook.
  { intros i s Hs. destruct (Forall2_lookup_r _ _ _ _ _ H Hs) as (j & Hj & Hsig).
    apply lookup_seq in Hj as [-> _]. by apply map_err_Ok in Hsig. }
  split; [|done]. apply Forall_forall. intros s (i & Hi)%list_elem_of_lookup.
  by eapply dk_signal, Hlook.
Qed.

(** ** Validated nodes *)

Lemma check_dependencies_Ok index unique deps unique' :
  foldR (check_dependency index) unique deps = Ok unique' → ∀ d, d ∈ deps → d < index.
Proof.
  revert unique. induction deps as [|d deps IH]; intros unique; simpl; [set_solver|].
  destruct (check_dependency index unique d) as [u|e] eqn:Hc; cbn [mbind result_bind]; [|done].
  unfold check_dependency in Hc. destruct (Nat.leb_spec index d) as [|Hd]; [done|].
  intros H x [->|Hx]%elem_of_cons; [done|]. by eapply IH.
Qed.

Definition nodes_ok (queue_count : nat) (nodes : list RecordedDispatch) : Prop :=
  0 < queue_count ∧ ∀ i node, nodes !! i = Some node →
    rd_lane node < queue_count ∧ ∀ d, d ∈ rd_dependencies node → d < i.

Lemma validate_nodes_ok d queue_count nodes u :
  validate_nodes d queue_count nodes = Ok u → nodes_ok queue_count nodes.
Proof.
  unfold validate_nodes. destruct (Nat.eqb_spec queue_count 0) as [|Hq]; [done|].
  rewrite for_each_Ok. intros H. split; [lia|]. intros i node Hi%elem_of_enumerate.
  specialize (H _ Hi). unfold validate_node in H.
  destruct (Nat.leb_spec queue_count (rd_lane node)); [done|]. cbn [guard_ mbind result_bind] in H.
  invert_ok. split; [done|]. by eapply check_dependencies_Ok.
Qed.

Lemma nodes_ok_entry queue_count nodes i node :
  nodes_ok queue_count nodes → (i, node) ∈ enumerate nodes →
  i < length nodes ∧ rd_lane node < queue_count ∧ ∀ d, d ∈ rd_dependencies node → d < i.
Proof.
  intros [_ Hn] Hi%elem_of_enumerate. split; [by eapply lookup_lt_Some|by apply Hn].
Qed.

(** ** Terminal nodes *)

Lemma set_flags_spec deps flags :
  (∀ d, d ∈ deps → d < length flags) →
  ∃ flags', foldM (λ flags dependency, vec_set flags dependency true) flags deps = Some flags' ∧
    length flags' = length flags ∧
    ∀ i, flags' !! i = Some true ↔ flags !! i = Some true ∨ (i ∈ deps ∧ i < length flags).
Proof.
  revert flags. induction deps as [|d deps IH]; intros flags Hd; simpl.
  { exists flags. split; [done|]. split; [done|]. set_solver. }
  rewrite vec_set_lt by (apply Hd; set_solver). cbn [mbind option_bind].
  destruct (IH (<[d:=true]> flags)) as (flags' & -> & Hlen & Hf).
  { intros x Hx. rewrite length_insert. apply Hd. set_solver. }
  rewrite length_insert in Hlen. exists flags'. split; [done|]. split; [done|].
  intros i. rewrite Hf, length_insert, elem_of_cons.
  assert (d < length flags) by (apply Hd; set_solver).
  destruct (decide (d = i)) as [->|Hne].
  - rewrite list_lookup_insert_eq by done. tauto.
  - rewrite list_lookup_insert_ne by done. naive_solver.
Qed.

Lemma depended_on_spec queue_count nodes :
  nodes_ok queue_count nodes →
  ∃ flags, depended_on nodes = Some flags ∧ length flags = length nodes ∧
    ∀ i, flags !! i = Some true ↔
      i < length nodes ∧ ∃ node, node ∈ nodes ∧ i ∈ rd_dependencies node.
Proof.
  intros [_ Hn]. unfold depended_on.
  destruct (foldM_inv (λ l1 flags, length flags = length nodes ∧
    ∀ i, flags !! i = Some true ↔ i < length nodes ∧ ∃ node, node ∈ l1 ∧ i ∈ rd_dependencies node)
    (λ flags node, foldM (λ flags dependency, vec_set flags dependency true) flags
                     (rd_dependencies node)) nodes (replicate (length nodes) false))
    as (flags & -> & Hlen & Hf); [..|by exists flags].
  - split; [by rewrite length_replicate|]. intros i. split; [|set_solver].
    by intros [? _]%lookup_replicate.
  - intros l1 node l2 flags Hl [Hlen Hf].
    assert (nodes !! length l1 = Some node) as Hnode by (rewrite Hl; by apply list_lookup_middle).
    destruct (set_flags_spec (rd_dependencies node) flags) as (flags' & -> & Hlen' & Hf').
    { intros x Hx. rewrite Hlen. apply lookup_lt_Some in Hnode as Hlt.
      pose proof (proj2 (Hn _ _ Hnode) x Hx). lia. }
    exists flags'. split; [done|]. split; [congruence|]. intros i. rewrite Hf', Hf, Hlen.
    setoid_rewrite elem_of_app. setoid_rewrite list_elem_of_singleton. naive_solver.
Qed.

Lemma elem_of_terminal_nodes queue_count nodes flags i :
  nodes_ok queue_count nodes → depended_on nodes = Some flags →
  i ∈ terminal_nodes flags ↔
    i < length nodes ∧ ∀ node, node ∈ nodes → i ∉ rd_dependencies node.
Proof.
  intros Hn Hd. destruct (depended_on_spec _ _ Hn) as (flags' & Hd' & Hlen & Hf). simplify_eq.
  unfold terminal_nodes. rewrite elem_of_filter_map. split.
  - intros ([j used] & Hj%elem_of_enumerate & Hu). destruct used; [done|]. injection Hu as ->.
    split; [rewrite <-Hlen; by eapply lookup_lt_Some|]. intros node Hnode Hi.
    assert (flags !! i = Some true); [|congruence]. apply Hf.
    split; [rewrite <-Hlen; by eapply lookup_lt_Some|by exists node].
  - intros [Hi Hnone]. destruct (lookup_lt_is_Some_2 flags i) as [used Hu]; [lia|].
    exists (i, used). rewrite elem_of_enumerate. split; [done|]. destruct used; [|done].
    exfalso. apply Hf in Hu as (_ & node & Hnode & Hdep). by apply (Hnone node).
Qed.

(** ** What [graph_create] builds *)

Definition signal_at (signals : list Z) (i : nat) : Z := default 0%Z (signals !! i).

Lemma signal_at_lookup signals i : i < length signals → signals !! i = Some (signal_at signals i).
Proof. intros Hi. unfold signal_at. by destruct (lookup_lt_is_Some_2 signals i Hi) as [s ->]. Qed.

Lemma signals_mapM signals ixs :
  (∀ i, i ∈ ixs → i < length signals) →
  mapM (λ i, signals !! i) ixs = Some (signal_at signals <$> ixs).
Proof.
  intros Hi. apply mapM_Some, Forall2_fmap_r, Forall_Forall2_diag, Forall_forall.
  intros i Hin. by apply signal_at_lookup, Hi.
Qed.

Lemma signal_at_all signals : signal_at signals <$> seq 0 (length signals) = signals.
Proof.
  apply list_eq. intros i. rewrite list_lookup_fmap. destruct (decide (i < length signals)) as [Hi|Hi].
  - rewrite lookup_seq_lt by done. simpl. by rewrite signal_at_lookup.
  - rewrite lookup_seq_ge, lookup_ge_None_2 by lia. done.
Qed.

Lemma handles_at signals ixs :
  handles signals → (∀ i, i ∈ ixs → i < length signals) → handles (signal_at signals <$> ixs).
Proof.
  intros Hh Hi. apply Forall_fmap, Forall_forall. intros i Hin. simpl.
  eapply (Forall_lookup_1 _ _ _ _ Hh). by apply signal_at_lookup, Hi.
Qed.

Lemma push_waits_holds n E bs l signals :
  holds n E bs → l < n → handles signals →
  push_waits l bs signals ≠ Panic ∧
  ∀ bs', push_waits l bs signals = Done bs' → holds n (E ++ wait_emission l signals) bs'.
Proof.
  intros Hh Hl Hs. unfold push_waits, wait_emission.
  set (f chunk := [(l, mkView CROSS_QUEUE_BARRIER (BarrierAnd chunk) 0)]).
  replace (_ <$> chunks BARRIER_DEPENDENCY_CAPACITY signals)
    with (chunks BARRIER_DEPENDENCY_CAPACITY signals ≫= f).
  2:{ induction (chunks BARRIER_DEPENDENCY_CAPACITY signals) as [|c cs IH]; [done|].
      rewrite fmap_cons, <-IH. done. }
  apply foldE_holds; [done|]. intros chunk E' bs' Hc Hh'.
  apply (push_barrier_holds n E' bs' CROSS_QUEUE_BARRIER chunk 0 l); [done|done| |by vm_compute].
  apply Forall_forall. intros s Hin. eapply Forall_forall in Hs; [exact Hs|].
  rewrite <-(chunks_concat BARRIER_DEPENDENCY_CAPACITY signals)
    by (unfold BARRIER_DEPENDENCY_CAPACITY; lia).
  apply list_elem_of_In, in_concat. exists chunk. by rewrite <-!list_elem_of_In.
Qed.

Lemma emit_node_holds n signals nodes E bs entry :
  nodes_ok n nodes → length signals = length nodes → handles signals → Forall recorded_typed nodes →
  entry ∈ enumerate nodes → holds n E bs →
  emit_node signals bs entry ≠ Panic ∧
  ∀ bs', emit_node signals bs entry = Done bs' →
    holds n (E ++ node_emission (signal_at signals) entry) bs'.
Proof.
  destruct entry as [i node]. intros Hn Hlen Hs Ht Hin Hh.
  destruct (nodes_ok_entry _ _ _ _ Hn Hin) as (Hi & Hl & Hd).
  assert (recorded_typed node) as Hnode.
  { apply elem_of_enumerate in Hin. by eapply Forall_lookup_1. }
  unfold emit_node, node_emission. cbn [fst snd].
  rewrite signals_mapM by (intros j Hj; specialize (Hd j Hj); lia). cbn [unwrap mbind exec_bind].
  destruct (push_waits_holds n E bs (rd_lane node) (signal_at signals <$> rd_dependencies node))
    as [Hnp Hw]; [done|done|apply handles_at; [done|intros j Hj; specialize (Hd j Hj); lia]|].
  destruct (push_waits _ _ _) as [bs1|e|]; cbn [mbind exec_bind]; [|done|done].
  rewrite signal_at_lookup by lia. cbn [unwrap mbind exec_bind].
  destruct (push_kernel_holds n _ bs1 RECORDED_DISPATCH (signal_at signals i) (rd_lane node) node
    (Hw _ eq_refl)) as [Hnp' Hk]; [done|done| |].
  { eapply Forall_lookup_1 in Hs; [apply Hs|apply signal_at_lookup; lia]. }
  split; [done|]. intros bs' Hbs'. rewrite app_assoc. by apply Hk.
Qed.

Lemma graph_batches_holds n signals nodes final terminals :
  nodes_ok n nodes → length signals = length nodes → handles signals → in_u 64 final →
  Forall recorded_typed nodes → (∀ i, i ∈ terminals → i < length nodes) →
  graph_batches n nodes signals final terminals ≠ Panic ∧
  ∀ bs, graph_batches n nodes signals final terminals = Done bs →
    holds n (graph_emission (signal_at signals) nodes terminals final) bs.
Proof.
  intros Hn Hlen Hs Hf Ht Hterm. unfold graph_batches, graph_emission.
  destruct (foldE_holds n (node_emission (signal_at signals)) (emit_node signals)
    (enumerate nodes) [] (replicate n []) (holds_start n)) as [Hnp1 Hd1].
  { intros entry E bs Hin Hh. by apply (emit_node_holds n signals nodes). }
  destruct (foldE _ _ _) as [bs1|e|]; cbn [mbind exec_bind]; [|done|done].
  rewrite signals_mapM by (intros i Hi; rewrite Hlen; auto). cbn [unwrap mbind exec_bind].
  destruct (push_waits_holds n _ bs1 0 (signal_at signals <$> terminals) (Hd1 _ eq_refl))
    as [Hnp2 Hd2]; [apply Hn|apply handles_at; [done|intros i Hi; rewrite Hlen; auto]|].
  destruct (push_waits _ _ _) as [bs2|e|]; cbn [mbind exec_bind]; [|done|done].
  destruct (push_barrier_holds n _ bs2 CROSS_QUEUE_BARRIER [] final 0 (Hd2 _ eq_refl))
    as [Hnp3 Hd3]; [apply Hn|constructor|done|].
  split; [done|]. intros bs Hbs. specialize (Hd3 _ Hbs). by rewrite <-app_assoc in Hd3.
Qed.

Record created (n : nat) (nodes : list RecordedDispatch) (g : RecordedGraph) : Prop := {
  cr_nodes : rg_nodes g = nodes;
  cr_ok : nodes_ok n nodes;
  cr_length : length (rg_node_signals g) = length nodes;
  cr_handles : handles (rg_node_signals g ++ [rg_final_signal g]);
  cr_nodup : NoDup (rg_node_signals g ++ [rg_final_signal g]);
  cr_terminals i : i ∈ rg_terminal_nodes g ↔
    i < length nodes ∧ ∀ node, node ∈ nodes → i ∉ rd_dependencies node;
  cr_holds : holds n (graph_emission (signal_at (rg_node_signals g)) nodes (rg_terminal_nodes g)
                        (rg_final_signal g)) (rg_batches g);
  cr_flags : rg_in_flight g = false ∧ rg_usable g = true
}.

Lemma holds_length n E bs : holds n E bs → length bs = n.
Proof.
  intros [Hv _]. unfold views in Hv. apply mapM_Some, Forall2_length in Hv.
  unfold program_of in Hv. by rewrite length_fmap, length_seq in Hv.
Qed.

Lemma check_capacities_no_panic sizes bs :
  length bs ≤ length sizes → check_capacities sizes bs ≠ Panic.
Proof.
  intros Hl. apply for_exec_no_panic. intros [lane batch] Hin%elem_of_enumerate%lookup_lt_Some.
  unfold check_capacity. destruct (lookup_lt_is_Some_2 sizes lane) as [c ->]; [lia|].
  cbn [unwrap mbind exec_bind]. by destruct (guard_ _ _).
Qed.

Lemma check_capacities_fit sizes bs u lane batch c :
  check_capacities sizes bs = Done u → bs !! lane = Some batch → sizes !! lane = Some c →
  (Z.of_nat (length batch) ≤ c)%Z.
Proof.
  unfold check_capacities. rewrite for_exec_Done. intros Hc Hl Hs.
  specialize (Hc (lane, batch) (proj2 (elem_of_enumerate _ _ _) Hl)). unfold check_capacity in Hc.
  rewrite Hs in Hc. cbn [unwrap mbind exec_bind] in Hc. by apply try_Done, guard_Ok, Z.ltb_ge in Hc.
Qed.

Lemma new_signals_nodup d base n signals :
  device_ok d → mapM (new_signal d) (seq base n) = Ok signals → NoDup signals.
Proof.
  intros Hd Hs. destruct (new_signals_ok _ _ _ _ Hd Hs) as (_ & _ & Hget). apply NoDup_alt.
  intros i j s Hi Hj. apply Hget in Hi, Hj. pose proof (dk_fresh _ Hd _ _ _ Hi Hj). lia.
Qed.

Lemma device_signals_nodup d n signals final :
  device_ok d → mapM (new_signal d) (seq 0 n) = Ok signals → new_signal d n = Ok final →
  NoDup (signals ++ [final]).
Proof.
  intros Hd Hs Hf%map_err_Ok. destruct (new_signals_ok _ _ _ _ Hd Hs) as (Hlen & _ & Hget).
  apply NoDup_app. split; [|split].
  - by eapply new_signals_nodup.
  - intros s (i & Hi)%list_elem_of_lookup ->%list_elem_of_singleton.
    apply lookup_lt_Some in Hi as Hlt. apply Hget in Hi. simpl in Hi.
    pose proof (dk_fresh _ Hd _ _ _ Hi Hf). lia.
  - apply NoDup_singleton.
Qed.

Lemma graph_create_inv d n size nodes :
  device_ok d → Forall recorded_typed nodes →
  graph_create d n size nodes ≠ Panic ∧
  ∀ g, graph_create d n size nodes = Done g → created n nodes g ∧ nodes ≠ [] ∧
    ∃ sizes, gpu_queue_sizes d n size = Ok sizes ∧ ∀ l batch c, rg_batches g !! l = Some batch →
      sizes !! l = Some c → (Z.of_nat (length batch) ≤ c)%Z.
Proof.
  intros Hd Ht. unfold graph_create. destruct (is_empty nodes) eqn:He; [done|].
  apply is_empty_false in He.
  destruct (validate_nodes d n nodes) as [u|e] eqn:Hv; cbn [try_ mbind exec_bind]; [|done].
  apply validate_nodes_ok in Hv.
  destruct (gpu_queue_sizes d n size) as [sizes|e] eqn:Hq; cbn [map_err try_ mbind exec_bind]; [|done].
  destruct (mapM (new_signal d) _) as [signals|e] eqn:Hs; cbn [try_ mbind exec_bind]; [|done].
  destruct (new_signal d (length nodes)) as [final|e] eqn:Hf; cbn [try_ mbind exec_bind]; [|done].
  destruct (new_signals_ok _ _ _ _ Hd Hs) as (Hlen & Hh & _).
  assert (in_u 64 final ∧ final ≠ 0%Z) as Hfinal by (apply map_err_Ok in Hf; by eapply dk_signal).
  destruct (depended_on_spec _ _ Hv) as (flags & Hdep & _). rewrite Hdep.
  cbn [unwrap mbind exec_bind].
  pose proof (λ i, elem_of_terminal_nodes _ _ _ i Hv Hdep) as Hterm.
  destruct (graph_batches_holds n signals nodes final (terminal_nodes flags) Hv Hlen Hh)
    as [Hnp Hb]; [apply Hfinal|done|intros i Hi; by apply Hterm|].
  destruct (graph_batches _ _ _ _ _) as [bs|e|]; cbn [mbind exec_bind]; [|done|done].
  specialize (Hb _ eq_refl). pose proof (holds_length _ _ _ Hb) as Hbl.
  pose proof (check_capacities_no_panic sizes bs) as Hc.
  rewrite (dk_queues _ Hd _ _ _ Hq), Hbl in Hc. specialize (Hc (le_n _)).
  destruct (check_capacities sizes bs) as [u'|e|] eqn:Hcap; cbn [mbind exec_bind]; [|done|done].
  split; [done|]. intros g [= <-]. split; [|split; [done|]].
  - split; cbn [rg_nodes rg_node_signals rg_final_signal rg_terminal_nodes rg_batches rg_in_flight rg_usable];
      [done|done|done| |by eapply device_signals_nodup|done|done|done].
    apply Forall_app. split; [done|]. by constructor.
  - exists sizes. split; [done|]. intros l batch c. by eapply check_capacities_fit.
Qed.

(** ** A concrete device *)

Definition sample_gpu : GpuDevice :=
  mkGpu 7 (mk3 1024 1024 1024) 1024 (mk3 0xffffffff 0xffffffff 0xffffffff) 0xffffffff 64 0x20000
    (λ count size, Ok (replicate count size))
    (λ i, if i <? 100 then Ok (0x1000 + 64 * Z.of_nat i)%Z else Err (HsaFailure 1))
    (Ok tt) (Ok 100000000%Z).

Lemma sample_gpu_ok : device_ok sample_gpu.
Proof.
  split.
  - intros i s. simpl. destruct (Nat.ltb_spec i 100); [|done]. intros [= <-]. unfold in_u, umax. lia.
  - intros i j s. simpl. destruct (Nat.ltb_spec i 100), (Nat.ltb_spec j 100); try done.
    intros [= <-] [= Hij]. lia.
  - intros count size sizes. simpl. intros [= <-]. by rewrite length_replicate.
Qed.

(** A dispatch whose kernargs start at [address]. *)
Definition sample_dispatch (lane : nat) (address : Z) (dependencies : list nat) : RecordedDispatch :=
  with_dependencies
    (mkRecorded lane
       (mkKernel (lit "k.kd") (mkMetadata 0x7f0000 8 8 0 0 false) None 7)
       (mkGeometry (mk3 256 1 1) (mk3 64 1 1) 1)
       (mkKernarg address (replicate 8 0%Z) 7) 0 [])
    dependencies.

Lemma sample_dispatch_typed lane address dependencies :
  in_u 64 address → recorded_typed (sample_dispatch lane address dependencies).
Proof.
  intros Ha. split_and!; [| |done|done].
  - split_and!; by vm_compute.
  - split_and!; by vm_compute.
Qed.
