(* ===== verification/AqlGraphClaims.v ===== *)
(** * The guarantees of the N-queue packet graph

    The order and completion of a graph built by [graph_create], for every run
    of the queues, with a concrete instance. *)

From stdpp Require Import gmap.
From S2P Require Import Prelude BTree Packet Device AqlQueue AqlGraph AqlGraphOk.

(** The packet of node [i]: it launches the node's kernel with its kernargs
    and completes the node's signal. *)
Definition node_packet (g : RecordedGraph) (prog : list (list packet_view)) (i : nat) (q : packet_id) : Prop :=
  ∃ node s, rg_nodes g !! i = Some node ∧ rg_node_signals g !! i = Some s ∧
    packet_at prog q = Some (kernel_view RECORDED_DISPATCH node s).

(** ** Where the packets of a graph stand *)

Section emission.
Context (n : nat) (nodes : list RecordedDispatch) (sig : nat → Z) (terminals : list nat) (final : Z).

Local Abbreviation E := (graph_emission sig nodes terminals final).

Lemma enumerate_prefix l1 i node l2 :
  enumerate nodes = l1 ++ (i, node) :: l2 → l1.*1 = seq 0 i.
Proof.
  intros Hl. pose proof (enumerate_fst nodes) as Hf. rewrite Hl, fmap_app, fmap_cons in Hf. simpl in Hf.
  assert (length l1 < length nodes).
  { pose proof (length_enumerate nodes) as Hn. rewrite Hl, length_app in Hn. simpl in Hn. lia. }
  assert (i = length l1) as ->.
  { assert ((l1.*1 ++ i :: l2.*1) !! length l1 = Some i) as Hi.
    { by rewrite list_lookup_middle by by rewrite length_fmap. }
    rewrite Hf, lookup_seq_lt in Hi by done. simpl in Hi. by injection Hi. }
  apply (f_equal (take (length l1))) in Hf. rewrite take_app_length' in Hf by by rewrite length_fmap.
  rewrite Hf, take_seq. f_equal. lia.
Qed.

(** The packet of a node is preceded by the barriers that wait for its
    dependencies. *)
Lemma node_position i node :
  (i, node) ∈ enumerate nodes →
  ∃ k, E !! k = Some (kernel_emission node (sig i)) ∧
    ∀ dep, dep ∈ rd_dependencies node → ∃ b deps, b < k ∧
      E !! b = Some (rd_lane node, mkView CROSS_QUEUE_BARRIER (BarrierAnd deps) 0) ∧ sig dep ∈ deps.
Proof.
  intros (l1 & l2 & Hl)%list_elem_of_split. unfold graph_emission. rewrite Hl, bind_app. simpl.
  set (W := wait_emission (rd_lane node) (sig <$> rd_dependencies node)).
  set (A := l1 ≫= node_emission sig).
  change (node_emission sig (i, node)) with (W ++ [kernel_emission node (sig i)]).
  rewrite <-!app_assoc. simpl.
  exists (length A + length W). split.
  - rewrite lookup_app_r, lookup_app_r by lia. by replace (_ - _ - _) with 0 by lia.
  - intros dep Hdep. destruct (wait_covers (rd_lane node) (sig <$> rd_dependencies node) (sig dep))
      as (deps & Hin & Hs).
    { apply list_elem_of_fmap. by exists dep. }
    fold W in Hin. apply list_elem_of_lookup in Hin as [b Hb].
    apply lookup_lt_Some in Hb as Hlt. exists (length A + b), deps. split; [lia|]. split; [|done].
    rewrite lookup_app_r, lookup_app_l by lia. by replace (_ - _) with b by lia.
Qed.

(** Every packet is followed in its lane by the packet of a node, or by the
    barrier that carries the final signal. *)
Lemma packet_position j l v :
  E !! j = Some (l, v) →
  (∃ i node k, (i, node) ∈ enumerate nodes ∧ l = rd_lane node ∧ j ≤ k ∧
     E !! k = Some (kernel_emission node (sig i))) ∨ l = 0.
Proof.
  intros Hj. unfold graph_emission in *. apply lookup_app_Some in Hj as [Hj|[_ Hj]].
  - left. pose proof (take_drop_middle _ _ _ Hj) as Hm. symmetry in Hm.
    apply bind_middle_inv in Hm as (l1 & [i node] & l2 & a & b & Hl & Hy & Ha).
    apply lookup_lt_Some in Hj as Hlt. apply (f_equal length) in Ha. rewrite length_take, length_app in Ha.
    assert ((l, v) ∈ node_emission sig (i, node)) as Hin by (rewrite Hy; set_solver).
    assert (l = rd_lane node) as ->.
    { unfold node_emission in Hin. cbn [fst snd] in Hin. apply elem_of_app in Hin as [Hin|Hin].
      - by apply list_elem_of_fmap in Hin as (c & [= -> ->] & _).
      - by apply list_elem_of_singleton in Hin as [= -> ->]. }
    exists i, node, (length (l1 ≫= node_emission sig) + length (node_emission sig (i, node)) - 1).
    split; [rewrite Hl; set_solver|]. split; [done|].
    assert (length (node_emission sig (i, node)) = length a + 1 + length b) as Hlen.
    { rewrite Hy, length_app. simpl. lia. }
    split; [lia|]. rewrite Hl, bind_app. simpl. rewrite <-!app_assoc.
    rewrite lookup_app_r, lookup_app_l by lia.
    unfold node_emission at 2. unfold node_emission in Hlen |- *. cbn [fst snd] in *.
    rewrite length_app in Hlen |- *. simpl in *.
    rewrite lookup_app_r by lia. by replace (_ - _ - _) with 0 by lia.
  - right. apply lookup_app_Some in Hj as [Hj|[_ Hj]].
    + apply list_elem_of_lookup_2, list_elem_of_fmap in Hj as (c & [= -> ->] & _). done.
    + apply list_lookup_singleton_Some in Hj as [_ [= <- _]]. done.
Qed.

Lemma final_position :
  E !! (length E - 1) = Some (0, mkView CROSS_QUEUE_BARRIER (BarrierAnd []) final) ∧
  ∀ t, t ∈ terminals → ∃ b deps, b < length E - 1 ∧
    E !! b = Some (0, mkView CROSS_QUEUE_BARRIER (BarrierAnd deps) 0) ∧ sig t ∈ deps.
Proof.
  unfold graph_emission. set (A := enumerate nodes ≫= node_emission sig).
  set (W := wait_emission 0 (sig <$> terminals)). rewrite !length_app. simpl. split.
  - rewrite lookup_app_r, lookup_app_r by lia. by replace (_ - _ - _) with 0 by lia.
  - intros t Ht. destruct (wait_covers 0 (sig <$> terminals) (sig t)) as (deps & Hin & Hs).
    { apply list_elem_of_fmap. by exists t. }
    fold W in Hin. apply list_elem_of_lookup in Hin as [b Hb].
    apply lookup_lt_Some in Hb as Hlt. exists (length A + b), deps. split; [lia|]. split; [|done].
    rewrite lookup_app_r, lookup_app_l by lia. by replace (_ - _) with b by lia.
Qed.

Lemma graph_well_ordered :
  nodes_ok n nodes → (∀ i, i ∈ terminals → i < length nodes) → lanes_below n E →
  (∀ i, i < length nodes → sig i ≠ 0%Z) → NoDup (completions E) → well_ordered n E.
Proof.
  intros Hn Ht Hlb Hnz Hnd. apply well_ordered_intro; [done..|].
  assert (∀ l, l ⊆ enumerate nodes → ∀ i, i ∈ l.*1 → sig i ≠ 0%Z) as Hsub.
  { intros l Hl i ([j node] & -> & Hin)%list_elem_of_fmap. apply Hnz. simpl.
    apply Hl, (nodes_ok_entry n) in Hin; [|done]. apply Hin. }
  intros E1 l v E2 deps s Heq Hkind Hs. unfold graph_emission in Heq.
  apply app_middle_inv in Heq as [[l1' Heq]|(E1' & -> & Heq)].
  - apply bind_middle_inv in Heq as (l1 & [i node] & l2 & a & b & Hl & Hy & ->).
    assert ((i, node) ∈ enumerate nodes) as Hin by (rewrite Hl; set_solver).
    destruct (nodes_ok_entry _ _ _ _ Hn Hin) as (_ & _ & Hdeps).
    assert ((l, v) ∈ node_emission sig (i, node)) as Hv by (rewrite Hy; set_solver).
    unfold node_emission in Hv. cbn [fst snd] in Hv. apply elem_of_app in Hv as [Hv|Hv].
    2:{ apply list_elem_of_singleton in Hv as [= -> ->]. done. }
    pose proof (elem_of_wait _ _ _ _ _ _ Hv Hkind Hs) as (d & -> & Hd)%list_elem_of_fmap.
    rewrite completions_app, elem_of_app. left.
    rewrite completions_nodes by (apply Hsub; rewrite Hl; set_solver).
    apply list_elem_of_fmap. exists d. split; [done|]. specialize (Hdeps d Hd).
    rewrite (enumerate_prefix _ _ _ _ Hl). apply elem_of_seq. lia.
  - rewrite completions_app, elem_of_app. left. rewrite completions_nodes by by apply Hsub.
    rewrite enumerate_fst. apply list_elem_of_fmap.
    assert ((l, v) ∈ wait_emission 0 (sig <$> terminals) ++ [(0, mkView CROSS_QUEUE_BARRIER (BarrierAnd []) final)]) as Hv
      by (rewrite Heq; set_solver).
    apply elem_of_app in Hv as [Hv|Hv].
    + pose proof (elem_of_wait _ _ _ _ _ _ Hv Hkind Hs) as (d & -> & Hd)%list_elem_of_fmap.
      exists d. split; [done|]. apply elem_of_seq. specialize (Ht d Hd). lia.
    + apply list_elem_of_singleton in Hv as [= -> ->]. injection Hkind as <-. set_solver.
Qed.
End emission.

(** ** Runs of a built graph *)

Section runs.
Context (n : nat) (nodes : list RecordedDispatch) (g : RecordedGraph) (Hg : created n nodes g).

Local Abbreviation sig := (signal_at (rg_node_signals g)).
Local Abbreviation E := (graph_emission sig nodes (rg_terminal_nodes g) (rg_final_signal g)).
Local Abbreviation prog := (program_of n E).

Lemma graph_sig_nz i : i < length nodes → sig i ≠ 0%Z.
Proof using Hg.
  intros Hi. pose proof (cr_handles _ _ _ Hg) as Hh. apply Forall_app in Hh as [Hh _].
  eapply Forall_lookup_1 in Hh; [apply Hh|]. apply signal_at_lookup. by rewrite (cr_length _ _ _ Hg).
Qed.

Lemma graph_final_nz : rg_final_signal g ≠ 0%Z.
Proof using Hg.
  pose proof (cr_handles _ _ _ Hg) as Hh. apply Forall_app in Hh as [_ Hh].
  by apply Forall_inv in Hh as [].
Qed.

Lemma graph_lanes : lanes_below n E.
Proof using Hg. apply (cr_holds _ _ _ Hg). Qed.

Lemma graph_completions : NoDup (completions E).
Proof using Hg.
  rewrite completions_graph; [|apply graph_sig_nz|apply graph_final_nz].
  rewrite <-(cr_length _ _ _ Hg), signal_at_all. apply (cr_nodup _ _ _ Hg).
Qed.

Lemma graph_ordered : well_ordered n E.
Proof using Hg.
  apply graph_well_ordered; [apply (cr_ok _ _ _ Hg)| |apply graph_lanes|apply graph_sig_nz|
    apply graph_completions].
  intros i Hi. by apply (cr_terminals _ _ _ Hg).
Qed.

Lemma graph_signals_only k l v :
  E !! k = Some (l, v) → pv_completion v ≠ 0%Z →
  signals_only prog (pv_completion v) (l, rank E l k).
Proof using Hg. apply signals_only_completions; [apply graph_lanes|apply graph_completions]. Qed.

(** The packet of a node is the one at the node's position. *)
Lemma node_packet_position i node :
  nodes !! i = Some node →
  ∃ k, E !! k = Some (kernel_emission node (sig i)) ∧
    (∀ q, node_packet g prog i q ↔ q = (rd_lane node, rank E (rd_lane node) k)) ∧
    ∀ dep, dep ∈ rd_dependencies node → ∃ b deps, b < k ∧
      E !! b = Some (rd_lane node, mkView CROSS_QUEUE_BARRIER (BarrierAnd deps) 0) ∧ sig dep ∈ deps.
Proof using Hg.
  intros Hi. pose proof (lookup_lt_Some _ _ _ Hi) as Hlt.
  destruct (node_position nodes sig (rg_terminal_nodes g) (rg_final_signal g) i node) as (k & Hk & Hw).
  { by apply elem_of_enumerate. }
  exists k. split; [done|]. split; [|done].
  pose proof (graph_signals_only k _ _ Hk (graph_sig_nz i Hlt)) as (_ & _ & Huniq).
  assert (rg_node_signals g !! i = Some (sig i)) as Hs.
  { apply signal_at_lookup. by rewrite (cr_length _ _ _ Hg). }
  intros q. split.
  - intros (node' & s & _ & Hs' & Hv). eapply Huniq; [exact Hv|]. simpl. congruence.
  - intros ->. exists node, (sig i). rewrite (cr_nodes _ _ _ Hg). split; [done|]. split; [done|].
    apply packet_at_emission; [apply graph_lanes|done].
Qed.

Context (st : queues) (Hst : rtc (aql_step prog) queues_start st).

(** A launched node finds the packets complete whose signals it waits for. *)
Lemma node_waits i node dep q q' :
  nodes !! i = Some node → dep ∈ rd_dependencies node →
  node_packet g prog i q → node_packet g prog dep q' →
  q ∈ qs_launched st → q' ∈ qs_completed st.
Proof using Hg Hst.
  intros Hi Hdep Hq Hq' Hl.
  destruct (node_packet_position i node Hi) as (k & Hk & Hpk & Hw). apply Hpk in Hq as ->.
  destruct (Hw dep Hdep) as (b & deps & Hb & Eb & Hin).
  assert (dep < i) as Hlt by (apply (proj2 (proj2 (cr_ok _ _ _ Hg) i node Hi)); done).
  destruct (lookup_lt_is_Some_2 nodes dep) as [dnode Hd].
  { apply lookup_lt_Some in Hi. lia. }
  destruct (node_packet_position dep dnode Hd) as (kd & Hkd & Hpd & _). apply Hpd in Hq' as ->.
  eapply after_barrier_and; [apply graph_lanes|exact Hst|exact Hk|exact Hl|exact Eb|exact Hb|done|exact Hin|].
  apply (graph_signals_only kd _ _ Hkd). apply graph_sig_nz. by eapply lookup_lt_Some.
Qed.

(** The completed final signal means that the final barrier is complete. *)
Lemma final_complete :
  qs_signals st (rg_final_signal g) = 0%Z → (0, rank E 0 (length E - 1)) ∈ qs_completed st.
Proof using Hg Hst.
  intros H0. destruct (final_position nodes sig (rg_terminal_nodes g) (rg_final_signal g)) as [Hf _].
  pose proof (graph_signals_only _ _ _ Hf graph_final_nz) as Honly.
  pose proof (qn_signal _ _ (queues_reachable _ _ Hst) _ _ Honly) as Hs. simpl in Hs.
  rewrite H0 in Hs. by case_decide.
Qed.

Lemma all_nodes_complete :
  qs_signals st (rg_final_signal g) = 0%Z →
  ∀ m i node q, i + m = length nodes → nodes !! i = Some node → node_packet g prog i q →
    q ∈ qs_completed st.
Proof using Hg Hst.
  intros H0. pose proof (final_complete H0) as Hfin.
  pose proof (queues_reachable _ _ Hst) as Hinv.
  intros m. induction m as [m IH] using lt_wf_ind. intros i node q Hm Hi Hq.
  pose proof (lookup_lt_Some _ _ _ Hi) as Hlt.
  destruct (node_packet_position i node Hi) as (k & Hk & Hpk & _).
  destruct (decide (i ∈ rg_terminal_nodes g)) as [Ht|Ht].
  - apply Hpk in Hq as ->.
    destruct (final_position nodes sig (rg_terminal_nodes g) (rg_final_signal g)) as [Hf Hw].
    destruct (Hw i Ht) as (b & deps & Hb & Eb & Hin).
    eapply after_barrier_and; [apply graph_lanes|exact Hst|exact Hf| |exact Eb|exact Hb|done|exact Hin|].
    + by apply (qn_completed _ _ Hinv).
    + apply (graph_signals_only k _ _ Hk). by apply graph_sig_nz.
  - rewrite (cr_terminals _ _ _ Hg) in Ht.
    assert (∃ j nodej, nodes !! j = Some nodej ∧ i ∈ rd_dependencies nodej) as (j & nodej & Hj & Hdep).
    { destruct (decide (Exists (λ node, i ∈ rd_dependencies node) nodes)) as [Hex|Hno].
      - apply Exists_exists in Hex as (nodej & [j Hj]%list_elem_of_lookup & Hdep). by exists j, nodej.
      - exfalso. apply Ht. split; [done|]. intros node' Hin Hd. apply Hno, Exists_exists. by exists node'. }
    assert (i < j) as Hij by (apply (proj2 (proj2 (cr_ok _ _ _ Hg) j nodej Hj)); done).
    destruct (node_packet_position j nodej Hj) as (kj & _ & Hpj & _).
    eapply (node_waits j nodej i _ q Hj Hdep); [by apply Hpj|done|].
    apply (qn_completed _ _ Hinv). apply lookup_lt_Some in Hj as Hjl.
    apply (IH (length nodes - j) ltac:(lia) j nodej); [lia|done|by apply Hpj].
Qed.

Lemma final_covers_all : qs_signals st (rg_final_signal g) = 0%Z → all_complete prog st.
Proof using Hg Hst.
  intros H0 q [v Hv]. pose proof (queues_reachable _ _ Hst) as Hinv.
  apply packet_at_inv in Hv as (j & Hj & ->).
  assert (∀ k w, j ≤ k → E !! k = Some (q.1, w) → pv_barrier w = true →
    (q.1, rank E q.1 k) ∈ qs_completed st → (q.1, rank E q.1 j) ∈ qs_completed st) as Hbefore.
  { intros k w Hjk Hk Hbit Hc. destruct (decide (j = k)) as [->|Hne]; [done|].
    eapply after_barrier_bit; [apply graph_lanes|exact Hst|exact Hk|by apply (qn_completed _ _ Hinv)
      |done|exact Hj|lia]. }
  destruct (packet_position _ _ _ _ _ _ _ Hj) as [(i & node & k & Hin & Hl & Hjk & Hk)|Hl].
  - apply elem_of_enumerate in Hin. eapply (Hbefore k); [done|by rewrite Hl|done|].
    destruct (node_packet_position i node Hin) as (k' & Hk' & Hpk & _).
    assert (k = k') as ->.
    { eapply (completions_unique E); [apply graph_completions|exact Hk'|exact Hk| |done].
      simpl. apply graph_sig_nz. by eapply lookup_lt_Some. }
    eapply (all_nodes_complete H0 (length nodes - i) i node); [|done|].
    + apply lookup_lt_Some in Hin. lia.
    + apply Hpk. by rewrite <-Hl.
  - destruct (final_position nodes sig (rg_terminal_nodes g) (rg_final_signal g)) as [Hf _].
    apply lookup_lt_Some in Hj as Hlt. rewrite Hl in *.
    apply (Hbefore (length E - 1) _ ltac:(lia) Hf eq_refl). by apply final_complete.
Qed.

(** A stuck run has decremented the final signal. *)
Lemma complete_final : all_complete prog st → qs_signals st (rg_final_signal g) = 0%Z.
Proof using Hg Hst.
  intros Hall. destruct (final_position nodes sig (rg_terminal_nodes g) (rg_final_signal g)) as [Hf _].
  pose proof (graph_signals_only _ _ _ Hf graph_final_nz) as Honly.
  pose proof (qn_signal _ _ (queues_reachable _ _ Hst) _ _ Honly) as Hs. simpl in Hs. rewrite Hs.
  rewrite decide_True; [done|]. apply Hall. eexists. apply packet_at_emission; [apply graph_lanes|done].
Qed.
End runs.

(** ** The guarantees *)

(** A recorded graph keeps its dependencies on any queues.  Building
    never panics; when it succeeds, every dispatch has exactly one packet, on
    its lane, no queue receives more packets than it has slots, and in every
    interleaving of the queues a dispatch that is launched finds all
    dispatches it depends on complete; the final signal reads zero only when
    every packet of every queue is complete. *)
Theorem graph_respects_dependencies d queue_count queue_size nodes :
  device_ok d → Forall recorded_typed nodes →
  graph_create d queue_count queue_size nodes ≠ Panic ∧
  ∀ g, graph_create d queue_count queue_size nodes = Done g →
  ∃ prog, views (rg_batches g) = Some prog ∧
    (∀ i node, nodes !! i = Some node → ∃ p, ∀ q, node_packet g prog i q ↔ q = (rd_lane node, p)) ∧
    (∃ sizes, gpu_queue_sizes d queue_count queue_size = Ok sizes ∧
       ∀ l queue c, prog !! l = Some queue → sizes !! l = Some c → (Z.of_nat (length queue) ≤ c)%Z) ∧
    ∀ st, rtc (aql_step prog) queues_start st →
      (∀ i node dep q q', nodes !! i = Some node → dep ∈ rd_dependencies node →
         node_packet g prog i q → node_packet g prog dep q' →
         q ∈ qs_launched st → q' ∈ qs_completed st) ∧
      (qs_signals st (rg_final_signal g) = 0%Z → all_complete prog st).
Proof.
  intros Hd Ht. destruct (graph_create_inv d queue_count queue_size nodes Hd Ht) as [Hnp Hinv].
  split; [done|]. intros g (Hg & _ & sizes & Hsizes & Hcap)%Hinv.
  pose proof (proj1 (cr_holds _ _ _ Hg)) as Hv. eexists. split; [exact Hv|]. split; [|split].
  - intros i node Hi. destruct (node_packet_position _ _ _ Hg i node Hi) as (k & _ & Hp & _). by eexists.
  - exists sizes. split; [done|]. intros l queue c Hl Hc. unfold views in Hv. apply mapM_Some in Hv.
    destruct (Forall2_lookup_r _ _ _ _ _ Hv Hl) as (batch & Hb & Hbl).
    apply mapM_Some, Forall2_length in Hbl. rewrite <-Hbl. by eapply Hcap.
  - intros st Hst. split.
    + intros i node dep q q'. by eapply node_waits.
    + by eapply final_covers_all.
Qed.

(** A recorded graph always completes.  Whatever the interleaving, the
    queues take finitely many steps, and they stop only when every packet is
    complete and the final signal reads zero: no dependency or fan-in barrier
    can deadlock. *)
Theorem graph_completes d queue_count queue_size nodes g :
  device_ok d → Forall recorded_typed nodes →
  graph_create d queue_count queue_size nodes = Done g →
  ∃ prog, views (rg_batches g) = Some prog ∧
    ∀ st, rtc (aql_step prog) queues_start st →
      sn (aql_step prog) st ∧
      (nf (aql_step prog) st → all_complete prog st ∧ qs_signals st (rg_final_signal g) = 0%Z).
Proof.
  intros Hd Ht Hc. destruct (graph_create_inv d queue_count queue_size nodes Hd Ht) as [_ Hinv].
  destruct (Hinv g Hc) as (Hg & _). eexists. split; [exact (proj1 (cr_holds _ _ _ Hg))|].
  intros st Hst.
  destruct (queues_complete _ _ (graph_lanes _ _ _ Hg) (graph_ordered _ _ _ Hg) st Hst) as [Hsn Hall].
  split; [done|]. intros Hnf. specialize (Hall Hnf). split; [done|]. by eapply complete_final.
Qed.

(** ** A concrete instance: six roots on three queues and their fan-in *)

Definition sample_nodes : list RecordedDispatch :=
  [sample_dispatch 0 0x1000 []; sample_dispatch 1 0x2000 []; sample_dispatch 2 0x3000 [];
   sample_dispatch 0 0x4000 []; sample_dispatch 1 0x5000 []; sample_dispatch 2 0x6000 [];
   sample_dispatch 1 0x7000 [0; 1; 2; 3; 4; 5]].

Lemma sample_nodes_typed : Forall recorded_typed sample_nodes.
Proof.
  repeat (apply Forall_cons_2; [apply sample_dispatch_typed; by vm_compute|]). apply Forall_nil_2.
Qed.

Definition sample_graph : option RecordedGraph :=
  match graph_create sample_gpu 3 64 sample_nodes with Done g => Some g | _ => None end.

(** Two barriers precede the fan-in dispatch, and the final signal follows one
    barrier for its only terminal. *)
Example sample_graph_packets :
  (λ g, length <$> rg_batches g) <$> sample_graph = Some [4; 5; 2] ∧
  rg_terminal_nodes <$> sample_graph = Some [6].
Proof. split; by vm_compute. Qed.

Lemma graph_respects_dependencies_witness :
  ∃ g prog, graph_create sample_gpu 3 64 sample_nodes = Done g ∧
    (∃ p, ∀ q, node_packet g prog 6 q ↔ q = (1, p)) ∧
    ∀ st q q', rtc (aql_step prog) queues_start st → node_packet g prog 6 q →
      node_packet g prog 5 q' → q ∈ qs_launched st → q' ∈ qs_completed st.
Proof.
  destruct (graph_respects_dependencies sample_gpu 3 64 sample_nodes sample_gpu_ok sample_nodes_typed)
    as [_ H].
  destruct (graph_create sample_gpu 3 64 sample_nodes) as [g|e|] eqn:E;
    [|by vm_compute in E|by vm_compute in E].
  destruct (H g eq_refl) as (prog & _ & Hp & _ & Hrun). exists g, prog. split; [done|]. split.
  - exact (Hp 6 _ eq_refl).
  - intros st q q' Hst. destruct (Hrun st Hst) as [Hd _].
    apply (Hd 6 _ 5 q q' eq_refl). cbn. set_solver.
Defined.

Lemma graph_completes_witness :
  ∃ g prog, graph_create sample_gpu 3 64 sample_nodes = Done g ∧
    sn (aql_step prog) queues_start ∧ ¬ nf (aql_step prog) queues_start.
Proof.
  destruct (graph_create sample_gpu 3 64 sample_nodes) as [g|e|] eqn:E;
    [|by vm_compute in E|by vm_compute in E].
  destruct (graph_completes sample_gpu 3 64 sample_nodes g sample_gpu_ok sample_nodes_typed E)
    as (prog & Hv & Hrun). exists g, prog. split; [done|].
  destruct (Hrun queues_start (rtc_refl _ _)) as [Hsn Hnf]. split; [done|].
  intros [Hall _]%Hnf. assert (is_Some (packet_at prog (0, 0))) as Hp.
  { destruct (Hrun queues_start (rtc_refl _ _)) as [_ _]. clear -Hv E.
    vm_compute in E. injection E as <-. vm_compute in Hv. injection Hv as <-. by eexists. }
  apply Hall in Hp. simpl in Hp. set_solver.
Defined.
