(* ===== verification/AqlTwoQueue.v ===== *)
(** * Two-queue phase graphs ([redline-dispatch/src/aql/replay.rs])

    Tokens made of phases on two queues: one token, a serialized batch of
    tokens, and the batch that hazard-derived packet policies drive.  Indices
    and counts are [usize]; where the code computes them with [checked_*] the
    bound is in the model. *)

From S2P Require Import Prelude BTree Packet Device AqlGraph.

(** ** Phases *)

Record TwoQueuePhase := mkPhase {
  ph_zero : list RecordedDispatch;
  ph_one : list RecordedDispatch
}.

Definition phase_lanes (p : TwoQueuePhase) : list (list RecordedDispatch) := [ph_zero p; ph_one p].

Definition check_phase_dispatch (lane : nat) (r : RecordedDispatch) : result ReplayError unit :=
  _ ← guard_ (negb (rd_lane r =? lane)) (PhaseLaneMismatch lane (rd_lane r));
  guard_ (negb (is_empty (rd_dependencies r))) (PhaseHasExplicitDependencies lane).

Definition check_phase_lane (entry : nat * list RecordedDispatch) : result ReplayError unit :=
  let '(lane, dispatches) := entry in
  _ ← guard_ (is_empty dispatches) (EmptyLane lane);
  for_each (check_phase_dispatch lane) dispatches.

Definition phase_new (lane_zero lane_one : list RecordedDispatch) : result ReplayError TwoQueuePhase :=
  _ ← for_each check_phase_lane (enumerate [lane_zero; lane_one]);
  Ok (mkPhase lane_zero lane_one).

Definition dispatch_count (p : TwoQueuePhase) (lane : nat) : option nat :=
  length <$> phase_lanes p !! lane.

Definition validate_two_queue_phases (d : GpuDevice) (phases : list TwoQueuePhase) :
    result ReplayError unit :=
  for_each (λ phase, for_each (for_each (validate_objects d)) (phase_lanes phase)) phases.

(** ** Packet counts *)

Abbreviation usize_pair := (nat * nat)%type.

Definition of_lane {A} (p : A * A) (lane : nat) : A := if lane =? 0 then p.1 else p.2.

Definition usize_add (a b : nat) : option nat :=
  if (Z.of_nat (a + b) <=? umax 64)%Z then Some (a + b) else None.
Definition usize_mul (a b : nat) : option nat :=
  if (Z.of_nat a * Z.of_nat b <=? umax 64)%Z then Some (a * b) else None.

Definition lane_counts (phases : list TwoQueuePhase) : list usize_pair :=
  (λ p, (length (ph_zero p), length (ph_one p))) <$> phases.

Definition two_queue_batch_counts (phases : list usize_pair) : usize_pair :=
  if is_empty phases then (0, 0)
  else
    let boundary_barriers := length phases - 1 in
    foldl (λ packets phase, (packets.1 + phase.1, packets.2 + phase.2))
      (boundary_barriers + 1, boundary_barriers) phases.

Definition serialized_lane_count (phases : list usize_pair) (token_count phase_barriers token_barriers : nat)
    (lane : nat) : result ReplayError nat :=
  dispatches_per_token ← foldR (λ sum phase, ok_or (usize_add sum (of_lane phase lane)) BatchShapeOverflow)
                           0 phases;
  ok_or (count ← usize_mul dispatches_per_token token_count;
         count ← usize_add count phase_barriers;
         count ← usize_add count token_barriers;
         usize_add count (if lane =? 0 then 1 else 0)) BatchShapeOverflow.

Definition two_queue_serialized_batch_counts (phases : list usize_pair) (token_count : nat) :
    result ReplayError usize_pair :=
  if token_count =? 0 then Err EmptyBatch
  else if is_empty phases then Err EmptyPhaseSet
  else
    phase_barriers ← ok_or (usize_mul (length phases - 1) token_count) BatchShapeOverflow;
    let token_barriers := token_count - 1 in
    zero ← serialized_lane_count phases token_count phase_barriers token_barriers 0;
    one ← serialized_lane_count phases token_count phase_barriers token_barriers 1;
    Ok (zero, one).

Definition two_queue_serialized_signal_count (phase_count token_count : nat) : result ReplayError nat :=
  if token_count =? 0 then Err EmptyBatch
  else ok_or (count ← usize_mul phase_count token_count;
              count ← usize_mul count 2;
              usize_add count 1) BatchShapeOverflow.

Definition required_packet_counts (phases : list TwoQueuePhase) (token_count : nat) :
    result ReplayError usize_pair :=
  if is_empty phases then Err EmptyPhaseSet
  else two_queue_serialized_batch_counts (lane_counts phases) token_count.

(** ** Signals *)

Abbreviation signal_pair := (Z * Z)%type.

(** The tail signals of a phase, the [i]-th and the next signal created. *)
Definition tail_pair (d : GpuDevice) (i : nat) : result ReplayError signal_pair :=
  zero ← new_signal d i; one ← new_signal d (S i); Ok (zero, one).

Definition token_tails (d : GpuDevice) (base phase_count : nat) : result ReplayError (list signal_pair) :=
  mapM (λ p, tail_pair d (base + 2 * p)) (seq 0 phase_count).

Definition batch_tails (d : GpuDevice) (base phase_count token_count : nat) :
    result ReplayError (list (list signal_pair)) :=
  mapM (λ t, token_tails d (base + 2 * (t * phase_count)) phase_count) (seq 0 token_count).

(** ** Emitting phases *)

(** The boundary: on both queues a barrier that waits for both tails. *)
Definition push_boundary (policy : HeaderPolicy) (previous : signal_pair) (bs : batches) :
    exec ReplayError batches :=
  foldE (push_barrier policy [previous.1; previous.2] 0) bs [0; 1].

Definition emit_dispatch (tails : signal_pair) (lane count : nat) (bs : batches)
    (entry : nat * RecordedDispatch) : exec ReplayError batches :=
  let '(dispatch_index, r) := entry in
  let completion := if dispatch_index + 1 =? count then of_lane tails lane else 0%Z in
  push_kernel TWO_QUEUE_DISPATCH completion bs lane r.

Definition emit_lane (tails : signal_pair) (bs : batches) (entry : nat * list RecordedDispatch) :
    exec ReplayError batches :=
  let '(lane, dispatches) := entry in
  foldE (emit_dispatch tails lane (length dispatches)) bs (enumerate dispatches).

Definition emit_phase (tails : list signal_pair) (bs : batches) (entry : nat * TwoQueuePhase) :
    exec ReplayError batches :=
  let '(phase_index, phase) := entry in
  bs ← (if phase_index =? 0 then Done bs
        else previous ← unwrap (tails !! (phase_index - 1));
             push_boundary TWO_QUEUE_DEPENDENCY previous bs);
  own ← unwrap (tails !! phase_index);
  foldE (emit_lane own) bs (enumerate (phase_lanes phase)).

(** The host-visible terminal barrier on queue 0. *)
Definition push_terminal (policy : HeaderPolicy) (tails : signal_pair) (final_signal : Z) (bs : batches) :
    exec ReplayError batches :=
  push_barrier policy [tails.1; tails.2] final_signal bs 0.

(** ** One token *)

Record TwoQueuePhasedGraph := mkPhased {
  pg_phases : list TwoQueuePhase;
  pg_phase_tail_signals : list signal_pair;
  pg_final_signal : Z;
  pg_batches : batches;
  pg_in_flight : bool;
  pg_usable : bool
}.

Definition phased_create (d : GpuDevice) (queue_size : Z) (phases : list TwoQueuePhase) :
    exec ReplayError TwoQueuePhasedGraph :=
  if is_empty phases then Fail EmptyPhaseSet
  else
    _ ← try_ (validate_two_queue_phases d phases);
    sizes ← try_ (map_err ReplayRuntime (gpu_queue_sizes d 2 queue_size));
    tails ← try_ (token_tails d 0 (length phases));
    final_signal ← try_ (new_signal d (2 * length phases));
    bs ← foldE (emit_phase tails) (replicate 2 []) (enumerate phases);
    final_phase ← unwrap (last tails);
    bs ← push_terminal TWO_QUEUE_HOST_TERMINAL final_phase final_signal bs;
    _ ← check_capacities sizes bs;
    Done (mkPhased phases tails final_signal bs false true).

Definition phased_completion_signal_count (g : TwoQueuePhasedGraph) : nat :=
  length (pg_phase_tail_signals g) * 2 + 1.

(** ** A serialized batch of tokens *)

Inductive DerivedProfilingMode :=
| QueueEdges
| AllDispatches.

Record DerivedProfiling := mkProfiling {
  dpr_signals : list Z;
  dpr_mode : DerivedProfilingMode;
  dpr_frequency_hz : Z
}.

Record TwoQueueSerializedBatchGraph := mkSerialized {
  sg_phases : list TwoQueuePhase;
  sg_token_phase_tail_signals : list (list signal_pair);
  sg_final_signal : Z;
  sg_batches : batches;
  sg_token_count : nat;
  sg_in_flight : bool;
  sg_usable : bool;
  sg_derived_profiling : option DerivedProfiling
}.

(** [debug_assert!] *)
Definition assert_ (b : bool) : exec ReplayError unit := unwrap (if b then Some tt else None).

Definition tails_count (tails : list (list signal_pair)) : nat :=
  foldl (λ sum token, sum + length token * 2) 0 tails.

Definition batch_counts (bs : batches) : usize_pair :=
  (length (default [] (bs !! 0)), length (default [] (bs !! 1))).

Definition emit_token (phases : list TwoQueuePhase) (tails : list (list signal_pair)) (bs : batches)
    (token_index : nat) : exec ReplayError batches :=
  bs ← (if token_index =? 0 then Done bs
        else previous ← unwrap (token ← tails !! (token_index - 1); last token);
             push_boundary TWO_QUEUE_DEPENDENCY previous bs);
  own ← unwrap (tails !! token_index);
  foldE (emit_phase own) bs (enumerate phases).

Definition serialized_create (d : GpuDevice) (queue_size : Z) (token_count : nat)
    (phases : list TwoQueuePhase) : exec ReplayError TwoQueueSerializedBatchGraph :=
  if is_empty phases then Fail EmptyPhaseSet
  else
    _ ← try_ (validate_two_queue_phases d phases);
    packet_counts ← try_ (required_packet_counts phases token_count);
    signal_count ← try_ (two_queue_serialized_signal_count (length phases) token_count);
    sizes ← try_ (map_err ReplayRuntime (gpu_queue_sizes d 2 queue_size));
    tails ← try_ (batch_tails d 0 (length phases) token_count);
    _ ← assert_ (tails_count tails + 1 =? signal_count);
    final_signal ← try_ (new_signal d (2 * (token_count * length phases)));
    bs ← foldE (emit_token phases tails) (replicate 2 []) (seq 0 token_count);
    final_phase ← unwrap (token ← last tails; last token);
    bs ← push_terminal TWO_QUEUE_HOST_TERMINAL final_phase final_signal bs;
    _ ← assert_ (bool_decide (batch_counts bs = packet_counts));
    _ ← check_capacities sizes bs;
    Done (mkSerialized phases tails final_signal bs token_count false true None).

Definition serialized_completion_signal_count (g : TwoQueueSerializedBatchGraph) : nat :=
  tails_count (sg_token_phase_tail_signals g) + 1.

(** ** The batch with derived policies *)

Abbreviation policy_pair := (list HeaderPolicy * list HeaderPolicy)%type.

Record TwoQueueDerivedPolicies := mkPolicies {
  tp_first_dispatches : list policy_pair;
  tp_repeated_dispatches : list policy_pair;
  tp_consolidation : HeaderPolicy;
  tp_dependency : HeaderPolicy;
  tp_terminal : HeaderPolicy;
  tp_profile_all_dispatches : bool
}.

Definition check_policy_lane (phase : TwoQueuePhase) (policies : policy_pair) (lane : nat) :
    result ReplayError unit :=
  guard_ (negb (length (of_lane policies lane) =? length (of_lane (ph_zero phase, ph_one phase) lane)))
    PolicyShapeMismatch.

Definition check_policy_phases (phases : list TwoQueuePhase) (dispatches : list policy_pair) :
    result ReplayError unit :=
  _ ← guard_ (negb (length dispatches =? length phases)) PolicyShapeMismatch;
  for_each (λ '(phase, policies), for_each (check_policy_lane phase policies) [0; 1])
    (zip phases dispatches).

Definition validate_derived_policy_shape (phases : list TwoQueuePhase)
    (policies : TwoQueueDerivedPolicies) : result ReplayError unit :=
  for_each (check_policy_phases phases)
    [tp_first_dispatches policies; tp_repeated_dispatches policies].

(** Both queues end with a barriered dispatch. *)
Definition covers_batch (policies : TwoQueueDerivedPolicies) : bool :=
  match last (tp_repeated_dispatches policies) with
  | None => false
  | Some last_phase =>
      forallb (λ lane, match last (of_lane last_phase lane) with
                       | Some policy => hdr_barrier policy
                       | None => false
                       end) [0; 1]
  end.

Definition profiling_mode (policies : TwoQueueDerivedPolicies) : option DerivedProfilingMode :=
  if tp_profile_all_dispatches policies then Some AllDispatches
  else if covers_batch policies then Some QueueEdges
  else None.

Definition profiling_count (phases : list TwoQueuePhase) (token_count : nat) (mode : DerivedProfilingMode) :
    result ReplayError nat :=
  match mode with
  | QueueEdges => Ok 4
  | AllDispatches =>
      let per_token := foldl (λ sum phase, sum + (length (ph_zero phase) + length (ph_one phase))) 0 phases in
      ok_or (usize_mul per_token token_count) BatchShapeOverflow
  end.

(** The profiling signals with the timestamp frequency. *)
Definition profiling_signals (d : GpuDevice) (phases : list TwoQueuePhase) (token_count : nat)
    (mode : option DerivedProfilingMode) : result ReplayError (list Z * option Z) :=
  match mode with
  | None => Ok ([], None)
  | Some mode =>
      _ ← map_err ReplayRuntime (gpu_profiling d);
      count ← profiling_count phases token_count mode;
      signals ← mapM (new_signal d) (seq 0 count);
      frequency ← map_err ReplayRuntime (gpu_frequency d);
      Ok (signals, Some frequency)
  end.

Record derived_context := mkDerived {
  dc_policies : TwoQueueDerivedPolicies;
  dc_signals : list Z;
  dc_tokens : nat;
  dc_phases : nat
}.

(** The completion signal of a dispatch and the next profile index. *)
Definition dispatch_signal (c : derived_context) (token_index phase_index lane count dispatch_index index : nat) :
    exec ReplayError (Z * nat) :=
  let is_first := (token_index =? 0) && (phase_index =? 0) && (dispatch_index =? 0) in
  let is_last := (token_index + 1 =? dc_tokens c) && (phase_index + 1 =? dc_phases c)
                 && (dispatch_index + 1 =? count) in
  if is_first && is_last then Fail InvalidBatchShape
  else if tp_profile_all_dispatches (dc_policies c) then
    signal ← unwrap (dc_signals c !! index); Done (signal, S index)
  else if covers_batch (dc_policies c) && is_first then
    signal ← unwrap (dc_signals c !! lane); Done (signal, index)
  else if covers_batch (dc_policies c) && is_last then
    signal ← unwrap (dc_signals c !! (2 + lane)); Done (signal, index)
  else Done (0%Z, index).

(** The policies of a token. *)
Definition token_policies (c : derived_context) (token_index : nat) : list policy_pair :=
  if token_index =? 0 then tp_first_dispatches (dc_policies c)
  else tp_repeated_dispatches (dc_policies c).

Abbreviation emission_state := (batches * nat)%type.

Definition derived_dispatch (c : derived_context) (token_index phase_index lane count : nat)
    (st : emission_state) (entry : nat * RecordedDispatch) : exec ReplayError emission_state :=
  let '(bs, index) := st in
  let '(dispatch_index, r) := entry in
  '(completion, index) ← dispatch_signal c token_index phase_index lane count dispatch_index index;
  policy ← unwrap (phase ← token_policies c token_index !! phase_index;
                   of_lane phase lane !! dispatch_index);
  bs ← push_kernel policy completion bs lane r;
  Done (bs, index).

Definition derived_lane (c : derived_context) (token_index phase_index : nat) (tails : signal_pair)
    (st : emission_state) (entry : nat * list RecordedDispatch) : exec ReplayError emission_state :=
  let '(lane, dispatches) := entry in
  '(bs, index) ← foldE (derived_dispatch c token_index phase_index lane (length dispatches)) st
                   (enumerate dispatches);
  bs ← push_barrier (tp_consolidation (dc_policies c)) [] (of_lane tails lane) bs lane;
  Done (bs, index).

Definition derived_phase (c : derived_context) (token_index : nat) (tails : list signal_pair)
    (st : emission_state) (entry : nat * TwoQueuePhase) : exec ReplayError emission_state :=
  let '(bs, index) := st in
  let '(phase_index, phase) := entry in
  bs ← (if phase_index =? 0 then Done bs
        else previous ← unwrap (tails !! (phase_index - 1));
             push_boundary (tp_dependency (dc_policies c)) previous bs);
  own ← unwrap (tails !! phase_index);
  foldE (derived_lane c token_index phase_index own) (bs, index) (enumerate (phase_lanes phase)).

Definition derived_token (c : derived_context) (phases : list TwoQueuePhase)
    (tails : list (list signal_pair)) (st : emission_state) (token_index : nat) :
    exec ReplayError emission_state :=
  let '(bs, index) := st in
  bs ← (if token_index =? 0 then Done bs
        else previous ← unwrap (token ← tails !! (token_index - 1); last token);
             push_boundary (tp_dependency (dc_policies c)) previous bs);
  own ← unwrap (tails !! token_index);
  foldE (derived_phase c token_index own) (bs, index) (enumerate phases).

Definition create_derived (d : GpuDevice) (queue_size : Z) (token_count : nat)
    (phases : list TwoQueuePhase) (policies : TwoQueueDerivedPolicies) :
    exec ReplayError TwoQueueSerializedBatchGraph :=
  if is_empty phases then Fail EmptyPhaseSet
  else if token_count =? 0 then Fail EmptyBatch
  else
    _ ← try_ (validate_two_queue_phases d phases);
    _ ← try_ (validate_derived_policy_shape phases policies);
    base_counts ← try_ (required_packet_counts phases token_count);
    extra ← try_ (ok_or (usize_mul (length phases) token_count) BatchShapeOverflow);
    zero ← try_ (ok_or (usize_add base_counts.1 extra) BatchShapeOverflow);
    one ← try_ (ok_or (usize_add base_counts.2 extra) BatchShapeOverflow);
    signal_count ← try_ (two_queue_serialized_signal_count (length phases) token_count);
    sizes ← try_ (map_err ReplayRuntime (gpu_queue_sizes d 2 queue_size));
    '(signals, frequency) ← try_ (profiling_signals d phases token_count (profiling_mode policies));
    tails ← try_ (batch_tails d (length signals) (length phases) token_count);
    _ ← assert_ (tails_count tails + 1 =? signal_count);
    final_signal ← try_ (new_signal d (length signals + 2 * (token_count * length phases)));
    let c := mkDerived policies signals token_count (length phases) in
    '(bs, index) ← foldE (derived_token c phases tails) (replicate 2 [], 0) (seq 0 token_count);
    final_phase ← unwrap (token ← last tails; last token);
    _ ← assert_ (negb (tp_profile_all_dispatches policies) || (index =? length signals));
    bs ← push_terminal (tp_terminal policies) final_phase final_signal bs;
    _ ← assert_ (bool_decide (batch_counts bs = (zero, one)));
    _ ← check_capacities sizes bs;
    profiling ← (match frequency with
                 | None => Done None
                 | Some frequency =>
                     mode ← unwrap (profiling_mode policies);
                     Done (Some (mkProfiling signals mode frequency))
                 end);
    Done (mkSerialized phases tails final_signal bs token_count false true profiling).

(** ** Patching kernargs *)

Definition set_kernarg (r : RecordedDispatch) (k : KernargBuffer) : RecordedDispatch :=
  mkRecorded (rd_lane r) (rd_kernel r) (rd_geometry r) k (rd_dynamic_group_bytes r) (rd_dependencies r).

(** [patch] writes into the kernarg buffer of each dispatch and may fail after
    writing to it; buffers written before an error keep their new bytes. *)
Section patch.
Context {E : Type} (patch : nat → nat → nat → KernargBuffer → KernargBuffer * exec E unit).

Fixpoint patch_lane (phase lane index : nat) (dispatches : list RecordedDispatch) :
    list RecordedDispatch * exec E unit :=
  match dispatches with
  | [] => ([], Done tt)
  | r :: rest =>
      match patch phase lane index (rd_kernarg r) with
      | (k, Done _) =>
          let '(rest, out) := patch_lane phase lane (S index) rest in (set_kernarg r k :: rest, out)
      | (k, out) => (set_kernarg r k :: rest, out)
      end
  end.

Definition patch_phase (phase : nat) (p : TwoQueuePhase) : TwoQueuePhase * exec E unit :=
  match patch_lane phase 0 0 (ph_zero p) with
  | (zero, Done _) => let '(one, out) := patch_lane phase 1 0 (ph_one p) in (mkPhase zero one, out)
  | (zero, out) => (mkPhase zero (ph_one p), out)
  end.

Fixpoint patch_phases (phase : nat) (phases : list TwoQueuePhase) : list TwoQueuePhase * exec E unit :=
  match phases with
  | [] => ([], Done tt)
  | p :: rest =>
      match patch_phase phase p with
      | (p, Done _) => let '(rest, out) := patch_phases (S phase) rest in (p :: rest, out)
      | (p, out) => (p :: rest, out)
      end
  end.

Definition patch_kernargs (g : TwoQueueSerializedBatchGraph) : TwoQueueSerializedBatchGraph * exec E unit :=
  if sg_in_flight g then (g, Panic)
  else
    let '(phases, out) := patch_phases 0 (sg_phases g) in
    (mkSerialized phases (sg_token_phase_tail_signals g) (sg_final_signal g) (sg_batches g)
       (sg_token_count g) (sg_in_flight g) (sg_usable g) (sg_derived_profiling g), out).
End patch.
