(* ===== verification/AqlBlocks.v ===== *)
(** * Serialized blocks on two queues

    The abstract form of all two-queue batches: a sequence of blocks, each with
    packets for both queues and a tail signal per queue, separated by a pair of
    barriers that wait for both tails of the block before, and ended by a
    terminal barrier on queue 0.  Such a sequence serializes its blocks and
    completes. *)

From stdpp Require Import gmap.
From S2P Require Import Prelude BTree Packet Device AqlQueue AqlGraph AqlGraphOk AqlTwoQueue.

Record block := mkBlock {
  bk_lanes : list packet_view * list packet_view;
  bk_tails : signal_pair
}.

Definition on_lane (lane : nat) (l : list packet_view) : list (nat * packet_view) := (λ v, (lane, v)) <$> l.

Definition block_emission (b : block) : list (nat * packet_view) :=
  on_lane 0 (bk_lanes b).1 ++ on_lane 1 (bk_lanes b).2.

Section chain.
Context (dependency terminal : HeaderPolicy).

Definition boundary_view (p : signal_pair) : packet_view := mkView dependency (BarrierAnd [p.1; p.2]) 0.

Definition boundary (previous : option signal_pair) : list (nat * packet_view) :=
  match previous with
  | Some p => [(0, boundary_view p); (1, boundary_view p)]
  | None => []
  end.

Fixpoint chain (previous : option signal_pair) (blocks : list block) : list (nat * packet_view) :=
  match blocks with
  | [] => []
  | b :: blocks => boundary previous ++ block_emission b ++ chain (Some (bk_tails b)) blocks
  end.

(** The tails that the block after [blocks] waits for. *)
Definition tails_after (previous : option signal_pair) (blocks : list block) : option signal_pair :=
  match last blocks with Some b => Some (bk_tails b) | None => previous end.

Definition batch_emission (blocks : list block) (final : Z) : list (nat * packet_view) :=
  chain None blocks ++
  match tails_after None blocks with
  | Some p => [(0, mkView terminal (BarrierAnd [p.1; p.2]) final)]
  | None => []
  end.

Lemma chain_app previous l1 l2 :
  chain previous (l1 ++ l2) = chain previous l1 ++ chain (tails_after previous l1) l2.
Proof.
  revert previous. induction l1 as [|b l1 IH]; intros previous; [done|]. cbn [chain app].
  rewrite IH, <-!app_assoc. do 3 f_equal. unfold tails_after.
  rewrite last_cons. by destruct (last l1).
Qed.

Lemma chain_snoc previous l b :
  chain previous (l ++ [b]) = chain previous l ++ boundary (tails_after previous l) ++ block_emission b.
Proof. rewrite chain_app. cbn [chain]. by rewrite app_nil_r. Qed.

Lemma tails_after_snoc previous l b : tails_after previous (l ++ [b]) = Some (bk_tails b).
Proof. unfold tails_after. by rewrite last_snoc. Qed.

(** [previous] only matters in front of the first block. *)
Lemma chain_previous previous blocks :
  blocks ≠ [] → chain previous blocks = boundary previous ++ chain None blocks.
Proof. destruct blocks as [|b blocks]; [done|]. intros _. done. Qed.

Lemma chain_lanes previous l k lane v : chain previous l !! k = Some (lane, v) → lane < 2.
Proof.
  revert previous k. induction l as [|b l IH]; intros previous k; [done|]. cbn [chain].
  intros [Hk|[_ Hk]]%lookup_app_Some.
  { destruct previous; [|done]. destruct k as [|[|k]]; try done; injection Hk; lia. }
  apply lookup_app_Some in Hk as [Hk|[_ Hk]]; [|by eapply IH].
  apply list_elem_of_lookup_2 in Hk. unfold block_emission, on_lane in Hk.
  apply elem_of_app in Hk as [(v' & [= -> _] & _)%list_elem_of_fmap|(v' & [= -> _] & _)%list_elem_of_fmap]; lia.
Qed.

(** ** Blocks whose last packets carry their tails *)

Context (own : Z → Prop) `{Hown : ∀ s, Decision (own s)}.

Record block_ok (b : block) : Prop := {
  bo_own : filter own (completions (block_emission b)) = [(bk_tails b).1; (bk_tails b).2];
  bo_last lane : lane < 2 → ∃ v, last (of_lane (bk_lanes b) lane) = Some v ∧
    pv_barrier v = true ∧ pv_completion v = of_lane (bk_tails b) lane;
  bo_kinds v deps : v ∈ (bk_lanes b).1 ++ (bk_lanes b).2 → pv_kind v = BarrierAnd deps → deps = []
}.

Definition all_tails (blocks : list block) : list Z := blocks ≫= λ b, [(bk_tails b).1; (bk_tails b).2].

Lemma completions_boundary previous : completions (boundary previous) = [].
Proof. destruct previous; [|done]. unfold boundary. by rewrite !completions_cons_z. Qed.

Lemma own_chain previous blocks :
  Forall block_ok blocks → filter own (completions (chain previous blocks)) = all_tails blocks.
Proof.
  intros Hb. revert previous. induction Hb as [|b blocks Hb _ IH]; intros previous; [done|].
  cbn [chain]. rewrite !completions_app, completions_boundary, !filter_app, (bo_own _ Hb), IH. done.
Qed.

Lemma own_tails b lane : block_ok b → lane < 2 →
  of_lane (bk_tails b) lane ≠ 0%Z ∧ own (of_lane (bk_tails b) lane).
Proof.
  intros Hb Hl. assert (of_lane (bk_tails b) lane ∈ filter own (completions (block_emission b))) as Hin.
  { rewrite (bo_own _ Hb). unfold of_lane. case_match; set_solver. }
  apply list_elem_of_filter in Hin as [Ho Hin]. apply elem_of_completions in Hin as [Hnz _]. done.
Qed.

Context (blocks : list block) (final : Z).
Context (Hblocks : Forall block_ok blocks) (Hne : blocks ≠ []).
Context (Hfinal : own final) (Hfnz : final ≠ 0%Z).
Context (Hnd : NoDup (all_tails blocks ++ [final])).

Local Abbreviation E := (batch_emission blocks final).
Local Abbreviation prog := (program_of 2 E).

Lemma batch_emission_snoc :
  ∃ l b, blocks = l ++ [b] ∧ E = chain None blocks ++
    [(0, mkView terminal (BarrierAnd [(bk_tails b).1; (bk_tails b).2]) final)].
Proof using Hne.
  destruct (exists_last Hne) as (l & b & Hl). exists l, b. split; [done|].
  unfold batch_emission. by rewrite Hl, tails_after_snoc.
Qed.

Lemma batch_own : NoDup (filter own (completions E)).
Proof using Hblocks Hne Hfinal Hfnz Hnd.
  destruct batch_emission_snoc as (l & b & _ & ->).
  rewrite completions_app, filter_app, own_chain by done.
  rewrite completions_cons_nz by done. cbn [pv_completion].
  by rewrite filter_cons_True.
Qed.

Lemma batch_lanes : lanes_below 2 E.
Proof using Hne.
  destruct batch_emission_snoc as (l & b & _ & ->). apply lanes_below_app. split.
  - intros k lane v. apply chain_lanes.
  - apply lanes_below_singleton. lia.
Qed.

Lemma batch_signals_only k lane v :
  E !! k = Some (lane, v) → own (pv_completion v) → pv_completion v ≠ 0%Z →
  signals_only prog (pv_completion v) (lane, rank E lane k).
Proof using All. intros. apply (own_signals_only own); auto using batch_lanes, batch_own. Qed.

(** ** Deadlock freedom *)

Lemma chain_deps previous l E1 lane v E2 deps s :
  Forall block_ok l → chain previous l = E1 ++ (lane, v) :: E2 → pv_kind v = BarrierAnd deps → s ∈ deps →
  (∃ p, previous = Some p ∧ s ∈ [p.1; p.2]) ∨ (own s ∧ s ∈ completions E1).
Proof using Type*.
  intros Hl HE Hkind Hs. revert previous E1 HE. induction Hl as [|b l Hb _ IH]; intros previous E1.
  { by destruct E1. }
  cbn [chain]. intros [[l1 HE]|(E1' & -> & HE)]%app_middle_inv.
  - left. destruct previous as [p|]; [|by destruct E1]. exists p. split; [done|].
    assert ((lane, v) ∈ boundary (Some p)) as Hin by (rewrite HE; set_solver).
    assert (v = boundary_view p) as ->; [|by injection Hkind as <-].
    apply elem_of_cons in Hin as [[= _ ->]|Hin]; [done|]. by apply list_elem_of_singleton in Hin as [= _ ->].
  - apply app_middle_inv in HE as [[l1 HE]|(E2' & -> & HE)].
    + exfalso. assert ((lane, v) ∈ block_emission b) as Hin by (rewrite HE; set_solver).
      assert (v ∈ (bk_lanes b).1 ++ (bk_lanes b).2) as Hv.
      { apply elem_of_app. unfold block_emission, on_lane in Hin. apply elem_of_app in Hin.
        rewrite !list_elem_of_fmap in Hin. naive_solver. }
      rewrite (bo_kinds _ Hb _ _ Hv Hkind) in Hs. set_solver.
    + right. rewrite !completions_app, !elem_of_app.
      destruct (IH _ _ HE) as [(p & [= <-] & Hp)|[Ho Hin]]; [|by auto].
      assert (s ∈ filter own (completions (block_emission b))) as Hin by by rewrite (bo_own _ Hb).
      apply list_elem_of_filter in Hin as [Ho Hin]. by auto.
Qed.

Lemma batch_ordered : well_ordered 2 E.
Proof using All.
  apply (well_ordered_own own); [apply batch_lanes|apply batch_own|].
  intros E1 lane v E2 deps s HE Hkind Hs. destruct batch_emission_snoc as (l & b & Hl & HE').
  rewrite HE' in HE. apply app_middle_inv in HE as [[l1 HE]|(l1 & -> & HE)].
  - destruct (chain_deps None blocks _ _ _ _ _ _ Hblocks HE Hkind Hs) as [(p & ? & _)|?]; done.
  - destruct l1 as [|y l1]; [|destruct l1; done]. injection HE as <- <- <-. rewrite app_nil_r.
    injection Hkind as <-.
    assert (s ∈ filter own (completions (chain None blocks))) as Hin.
    { rewrite own_chain by done. rewrite Hl. unfold all_tails. rewrite bind_app.
      apply elem_of_app. right. exact Hs. }
    by apply list_elem_of_filter in Hin.
Qed.

(** ** Slots *)

Definition lane_length (lane : nat) (b : block) : nat := length (of_lane (bk_lanes b) lane).

(** The slot of the first packet of block [q], after its boundary. *)
Definition block_start (lane q : nat) : nat := sum_list_with (lane_length lane) (take q blocks) + q.

Lemma lane_of_boundary lane p : lane < 2 → lane_of lane (boundary (Some p)) = [boundary_view p].
Proof. intros Hl. assert (lane = 0 ∨ lane = 1) as [-> | ->] by lia; done. Qed.

Lemma lane_of_on_lane lane lane' l : lane_of lane (on_lane lane' l) = if decide (lane' = lane) then l else [].
Proof.
  unfold on_lane. induction l as [|v l IH]; [by case_decide|]. rewrite fmap_cons.
  case_decide as Hd; subst.
  - by rewrite lane_of_cons_eq, IH.
  - by rewrite lane_of_cons_ne, IH.
Qed.

Lemma lane_of_block lane b : lane < 2 → lane_of lane (block_emission b) = of_lane (bk_lanes b) lane.
Proof.
  intros Hl. unfold block_emission. rewrite lane_of_app, !lane_of_on_lane.
  assert (lane = 0 ∨ lane = 1) as [-> | ->] by lia; simpl; by rewrite ?app_nil_r.
Qed.

Lemma lane_of_chain lane l b :
  lane < 2 →
  length (lane_of lane (chain None (l ++ [b]))) = sum_list_with (lane_length lane) (l ++ [b]) + length l.
Proof.
  intros Hl. revert b. induction l as [|b' l IH] using rev_ind; intros b.
  - cbn [app chain boundary]. rewrite !lane_of_app, lane_of_block by done. simpl.
    unfold lane_length. rewrite length_app. simpl. lia.
  - rewrite chain_snoc, tails_after_snoc, !lane_of_app, !length_app, IH, lane_of_boundary, lane_of_block by done.
    rewrite !sum_list_with_app. simpl. unfold lane_length. lia.
Qed.

(** Everything in front of block [q]. *)
Definition before_block (q : nat) : list (nat * packet_view) :=
  chain None (take q blocks) ++ boundary (tails_after None (take q blocks)).

Lemma before_block_length lane q :
  lane < 2 → q < length blocks → length (lane_of lane (before_block q)) = block_start lane q.
Proof.
  intros Hl Hq. unfold before_block, block_start. destruct q as [|q]; [done|].
  destruct (lookup_lt_is_Some_2 blocks q) as [b Hb]; [lia|]. rewrite (take_S_r _ _ _ Hb).
  rewrite tails_after_snoc, lane_of_app, length_app, lane_of_chain, lane_of_boundary by done.
  rewrite length_take. simpl. lia.
Qed.

Lemma batch_split q b :
  blocks !! q = Some b → ∃ rest, E = before_block q ++ block_emission b ++ rest.
Proof.
  intros Hb. pose proof (f_equal (chain None) (take_drop_middle _ _ _ Hb)) as Hc.
  rewrite chain_app in Hc. cbn [chain] in Hc. unfold batch_emission, before_block.
  eexists. rewrite <-Hc, <-!app_assoc. done.
Qed.

Lemma block_slot q b lane i v :
  blocks !! q = Some b → lane < 2 → of_lane (bk_lanes b) lane !! i = Some v →
  packet_at prog (lane, block_start lane q + i) = Some v.
Proof.
  intros Hb Hl Hi. unfold packet_at. cbn [fst snd]. rewrite program_of_lookup by done.
  cbn [mbind option_bind]. destruct (batch_split q b Hb) as [rest ->].
  pose proof (before_block_length lane q Hl (lookup_lt_Some _ _ _ Hb)) as Hlen.
  rewrite !lane_of_app, lane_of_block by done. rewrite lookup_app_r by lia.
  rewrite lookup_app_l by (apply lookup_lt_Some in Hi; lia). rewrite Hlen. by replace (_ - _) with i by lia.
Qed.

(** Every packet that is not a barrier-AND belongs to a block. *)
Lemma chain_packet lane l s v :
  lane < 2 → lane_of lane (chain None l) !! s = Some v →
  is_barrier_and v ∨ ∃ q b i, l !! q = Some b ∧ of_lane (bk_lanes b) lane !! i = Some v ∧
    s = sum_list_with (lane_length lane) (take q l) + q + i.
Proof using Type.
  intros Hl. revert s. induction l as [|b l IH] using rev_ind; intros s; [done|].
  rewrite chain_snoc, !lane_of_app, lane_of_block by done.
  intros [Hs|[Hge Hs]]%lookup_app_Some.
  { destruct (IH s Hs) as [|(q & b' & i & Hq & Hi & ->)]; [by left|right].
    exists q, b', i. split; [by apply lookup_app_l_Some|]. split; [done|].
    rewrite take_app_le; [done|]. apply lookup_lt_Some in Hq. lia. }
  apply lookup_app_Some in Hs as [Hs|[Hge' Hs]].
  - left. destruct (tails_after None l) as [p|]; [|done]. rewrite lane_of_boundary in Hs by done.
    apply list_elem_of_lookup_2, list_elem_of_singleton in Hs as ->. by eexists.
  - right. exists (length l), b, (s - length (lane_of lane (chain None l)) -
      length (lane_of lane (boundary (tails_after None l)))).
    split; [by apply list_lookup_middle|]. split; [done|]. rewrite take_app_length.
    assert (length (lane_of lane (chain None l)) + length (lane_of lane (boundary (tails_after None l))) =
      sum_list_with (lane_length lane) l + length l) as Hlen; [|lia].
    clear Hs Hge Hge' IH. destruct l as [|b' l' _] using rev_ind; [done|].
    rewrite lane_of_chain, tails_after_snoc, lane_of_boundary, length_app by done. simpl. lia.
Qed.

Lemma batch_packet lane s v :
  packet_at prog (lane, s) = Some v →
  is_barrier_and v ∨ ∃ q b i, blocks !! q = Some b ∧ lane < 2 ∧ of_lane (bk_lanes b) lane !! i = Some v ∧
    s = block_start lane q + i.
Proof using Hne.
  intros Hv. assert (lane < 2) as Hl.
  { apply packet_at_inv in Hv as (k & Hk & _). by eapply batch_lanes. }
  unfold packet_at in Hv. cbn [fst snd] in Hv. rewrite program_of_lookup in Hv by done.
  cbn [mbind option_bind] in Hv. unfold batch_emission in Hv. rewrite lane_of_app in Hv.
  apply lookup_app_Some in Hv as [Hv|[_ Hv]].
  - destruct (chain_packet lane blocks s v Hl Hv) as [|(q & b & i & Hq & Hi & ->)]; [by left|right].
    exists q, b, i. done.
  - left. destruct (tails_after None blocks) as [p|]; [|done].
    apply list_elem_of_lookup_2, list_elem_of_fmap in Hv as ([l' w] & -> & [_ Hw]%list_elem_of_filter).
    apply list_elem_of_singleton in Hw as [= _ ->]. by eexists.
Qed.

(** ** Order *)

Lemma last_position {A} (l : list A) x : last l = Some x → l !! (length l - 1) = Some x ∧ 0 < length l.
Proof.
  intros Hl. rewrite last_lookup in Hl. split; [by rewrite Nat.sub_1_r|].
  destruct l; [done|]. simpl. lia.
Qed.

(** The last packet of a lane within a block. *)
Lemma block_tail b lane :
  block_ok b → lane < 2 →
  ∃ t v, block_emission b !! t = Some (lane, v) ∧ pv_barrier v = true ∧
    pv_completion v = of_lane (bk_tails b) lane ∧
    ∀ j w, block_emission b !! j = Some (lane, w) → j ≤ t.
Proof.
  intros Hb Hl. destruct (bo_last _ Hb lane Hl) as (v & Hv & Hbit & Hc).
  apply last_position in Hv as [Hv Hpos]. unfold block_emission, on_lane.
  assert (lane = 0 ∨ lane = 1) as [-> | ->] by lia; cbn [of_lane Nat.eqb] in Hv, Hpos.
  - exists (length (bk_lanes b).1 - 1), v. split_and!; [|done|done|].
    + rewrite lookup_app_l by (rewrite length_fmap; lia). rewrite list_lookup_fmap. by rewrite Hv.
    + intros j w [Hj|[_ Hj]]%lookup_app_Some.
      * apply lookup_lt_Some in Hj. rewrite length_fmap in Hj. lia.
      * by apply list_elem_of_lookup_2, list_elem_of_fmap in Hj as (u & [=] & _).
  - exists (length (bk_lanes b).1 + (length (bk_lanes b).2 - 1)), v. split_and!; [|done|done|].
    + rewrite lookup_app_r by (rewrite length_fmap; lia). rewrite list_lookup_fmap, length_fmap.
      replace (_ - _) with (length (bk_lanes b).2 - 1) by lia. by rewrite Hv.
    + intros j w Hj%lookup_lt_Some. rewrite length_app, !length_fmap in Hj. lia.
Qed.

Lemma chain_tail l b lane :
  block_ok b → lane < 2 →
  ∃ t v, chain None (l ++ [b]) !! t = Some (lane, v) ∧ pv_barrier v = true ∧
    pv_completion v = of_lane (bk_tails b) lane ∧
    ∀ j w, chain None (l ++ [b]) !! j = Some (lane, w) → j ≤ t.
Proof.
  intros Hb Hl. destruct (block_tail b lane Hb Hl) as (t & v & Ht & Hbit & Hc & Hmax).
  rewrite chain_snoc, app_assoc. set (A := chain None l ++ _).
  exists (length A + t), v. split_and!; [|done|done|].
  - rewrite lookup_app_r by lia. by replace (_ - _) with t by lia.
  - intros j w [Hj|[_ Hj]]%lookup_app_Some.
    + apply lookup_lt_Some in Hj. lia.
    + apply Hmax in Hj. lia.
Qed.

(** The boundary in front of block [S q] and the slots around it. *)
Lemma block_boundary q :
  S q < length blocks → ∃ l b rest,
    E = chain None (l ++ [b]) ++ boundary (Some (bk_tails b)) ++ rest ∧ block_ok b ∧
    (∀ lane, lane < 2 → rank E lane (length (chain None (l ++ [b])) + 2) = block_start lane (S q)) ∧
    (∀ lane, lane < 2 → S (rank E lane (length (chain None (l ++ [b])))) = block_start lane (S q)).
Proof using Hblocks.
  intros Hq. destruct (lookup_lt_is_Some_2 blocks q) as [b Hb]; [lia|].
  destruct (lookup_lt_is_Some_2 blocks (S q)) as [b2 Hb2]; [done|].
  destruct (batch_split (S q) b2 Hb2) as [rest HE]. unfold before_block in HE.
  rewrite (take_S_r _ _ _ Hb), tails_after_snoc in HE. rewrite <-app_assoc in HE.
  exists (take q blocks), b. eexists. split; [exact HE|]. split; [by eapply Forall_lookup_1|].
  split; intros x Hx; unfold rank; rewrite <-before_block_length by done; unfold before_block;
    rewrite (take_S_r _ _ _ Hb), tails_after_snoc, HE.
  - rewrite app_assoc. do 2 f_equal. rewrite take_app_length'; [done|]. by rewrite length_app.
  - rewrite take_app_length, lane_of_app, length_app, lane_of_boundary by done. simpl. lia.
Qed.

(** The boundary packet of a lane, in the slot just before its block. *)
Lemma boundary_position q lane l b rest :
  E = chain None (l ++ [b]) ++ boundary (Some (bk_tails b)) ++ rest → lane < 2 →
  S (rank E lane (length (chain None (l ++ [b])))) = block_start lane (S q) →
  E !! (length (chain None (l ++ [b])) + lane) = Some (lane, boundary_view (bk_tails b)) ∧
  block_start lane (S q) - 1 = rank E lane (length (chain None (l ++ [b])) + lane).
Proof using Type.
  intros HE Hl Hend. split.
  - rewrite HE, lookup_app_r by lia. replace (_ - _) with lane by lia.
    assert (lane = 0 ∨ lane = 1) as [-> | ->] by lia; done.
  - rewrite <-Hend. cbn [Nat.sub]. rewrite Nat.sub_0_r. unfold rank. rewrite HE, take_app_length.
    assert (lane = 0 ∨ lane = 1) as [-> | ->] by lia.
    + by rewrite Nat.add_0_r, take_app_length.
    + rewrite take_app_add. by rewrite lane_of_app, app_nil_r.
Qed.

Lemma boundary_packet q lane :
  S q < length blocks → lane < 2 →
  ∃ p, packet_at prog (lane, block_start lane (S q) - 1) = Some (boundary_view p).
Proof using All.
  intros Hq Hl. destruct (block_boundary q Hq) as (l & b & rest & HE & _ & _ & Hend).
  destruct (boundary_position q lane l b rest HE Hl (Hend lane Hl)) as [Hk ->].
  exists (bk_tails b). apply packet_at_emission; [apply batch_lanes|exact Hk].
Qed.

Context (st : queues) (Hst : rtc (aql_step prog) queues_start st).

(** When both tails of a block are complete, so is everything up to it. *)
Lemma tails_complete l b rest :
  E = chain None (l ++ [b]) ++ rest → block_ok b →
  (∀ lane q, lane < 2 → signals_only prog (of_lane (bk_tails b) lane) q → q ∈ qs_completed st) →
  ∀ j lane w, j < length (chain None (l ++ [b])) → E !! j = Some (lane, w) →
    (lane, rank E lane j) ∈ qs_completed st.
Proof using All.
  intros HE Hb Htails j lane w Hj Hw. pose proof (queues_reachable _ _ Hst) as Hinv.
  assert (lane < 2) as Hl by by eapply batch_lanes.
  destruct (chain_tail l b lane Hb Hl) as (t & v & Ht & Hbit & Hc & Hmax).
  assert (E !! t = Some (lane, v)) as Et by (rewrite HE; by apply lookup_app_l_Some).
  assert (chain None (l ++ [b]) !! j = Some (lane, w)) as Hjc.
  { rewrite HE, lookup_app_l in Hw; done. }
  specialize (Hmax j w Hjc). destruct (own_tails b lane Hb Hl) as [Hnz Ho].
  assert ((lane, rank E lane t) ∈ qs_completed st) as Hcomp.
  { apply (Htails lane _ Hl). rewrite <-Hc in *. by apply batch_signals_only. }
  destruct (decide (j = t)) as [->|Hne']; [done|].
  eapply after_barrier_bit; [apply batch_lanes|exact Hst|exact Et|
    by apply (qn_completed _ _ Hinv)|exact Hbit|exact Hw|lia].
Qed.

(** A launched packet behind the boundary of a block finds all earlier blocks
    complete. *)
Lemma blocks_serialized l b rest k lane v :
  E = chain None (l ++ [b]) ++ boundary (Some (bk_tails b)) ++ rest → block_ok b →
  length (chain None (l ++ [b])) + 2 ≤ k → E !! k = Some (lane, v) →
  (lane, rank E lane k) ∈ qs_launched st →
  ∀ j lane' w, j < length (chain None (l ++ [b])) → E !! j = Some (lane', w) →
    (lane', rank E lane' j) ∈ qs_completed st.
Proof using All.
  intros HE Hb Hk Ek Hl. eapply tails_complete; [exact HE|done|].
  assert (lane < 2) as Hlane by by eapply batch_lanes.
  assert (E !! (length (chain None (l ++ [b])) + lane) = Some (lane, boundary_view (bk_tails b))) as Eb.
  { rewrite HE, lookup_app_r by lia. replace (_ - _) with lane by lia.
    assert (lane = 0 ∨ lane = 1) as [-> | ->] by lia; done. }
  intros lane' q Hl' Hq.
  eapply after_barrier_and; [apply batch_lanes|exact Hst|exact Ek|exact Hl|exact Eb|lia|done| |exact Hq].
  assert (lane' = 0 ∨ lane' = 1) as [-> | ->] by lia; cbn; set_solver.
Qed.

(** A launched packet of block [q] finds the packets of all earlier blocks
    complete. *)
Lemma blocks_in_order q lane s lane' s' :
  q < length blocks → (lane, s) ∈ qs_launched st → block_start lane q ≤ s →
  is_Some (packet_at prog (lane', s')) → S s' < block_start lane' q →
  (lane', s') ∈ qs_completed st.
Proof using All.
  intros Hq Hl Hs [w Hw] Hs'. destruct q as [|q]; [unfold block_start in Hs'; simpl in Hs'; lia|].
  destruct (block_boundary q Hq) as (l & b & rest & HE & Hb & Hstart & Hend).
  destruct (qn_launched _ _ (queues_reachable _ _ Hst) _ Hl) as [v Hv].
  apply packet_at_inv in Hv as (k & Hk & [= ->]). apply packet_at_inv in Hw as (j & Hj & [= ->]).
  cbn [fst] in *. pose proof (batch_lanes _ _ _ Hk) as Hlane. pose proof (batch_lanes _ _ _ Hj) as Hlane'.
  eapply blocks_serialized; [exact HE| | |exact Hk|exact Hl| |exact Hj].
  - done.
  - destruct (Nat.le_gt_cases (length (chain None (l ++ [b])) + 2) k) as [|Hlt]; [done|].
    pose proof (rank_lt E _ _ lane v Hk Hlt) as Hr. rewrite Hstart in Hr by done. lia.
  - destruct (Nat.lt_ge_cases j (length (chain None (l ++ [b])))) as [|Hge]; [done|].
    pose proof (rank_mono E lane' _ _ Hge) as Hr. specialize (Hend lane' Hlane'). lia.
Qed.

(** A completed boundary packet finds all earlier blocks complete. *)
Lemma boundary_in_order q lane lane' s' :
  S q < length blocks → lane < 2 → (lane, block_start lane (S q) - 1) ∈ qs_completed st →
  is_Some (packet_at prog (lane', s')) → S s' < block_start lane' (S q) →
  (lane', s') ∈ qs_completed st.
Proof using All.
  intros Hq Hl Hc [w Hw] Hs'. pose proof (queues_reachable _ _ Hst) as Hinv.
  apply packet_at_inv in Hw as (j & Hj & [= ->]). cbn [fst] in *.
  pose proof (batch_lanes _ _ _ Hj) as Hlane'.
  destruct (block_boundary q Hq) as (l & b & rest & HE & Hb & _ & Hend).
  destruct (boundary_position q lane l b rest HE Hl (Hend lane Hl)) as [Hk Heq]. rewrite Heq in Hc.
  eapply tails_complete; [exact HE|done| | |exact Hj].
  - intros lane2 q2 Hl2 Hq2. eapply (qn_deps _ _ Hinv _ (boundary_view (bk_tails b))); [exact Hc| |done| |exact Hq2].
    + apply packet_at_emission; [apply batch_lanes|exact Hk].
    + assert (lane2 = 0 ∨ lane2 = 1) as [-> | ->] by lia; cbn; set_solver.
  - destruct (Nat.lt_ge_cases j (length (chain None (l ++ [b])))) as [|Hge]; [done|].
    pose proof (rank_mono E lane' _ _ Hge) as Hr. specialize (Hend lane' Hlane'). lia.
Qed.

(** The final signal covers the whole batch. *)
Lemma batch_final : qs_signals st final = 0%Z → all_complete prog st.
Proof using All.
  intros H0. destruct batch_emission_snoc as (l & b & Hl & HE). pose proof (queues_reachable _ _ Hst) as Hinv.
  set (C := chain None blocks) in *.
  assert (E !! length C = Some (0, mkView terminal (BarrierAnd [(bk_tails b).1; (bk_tails b).2]) final)) as Ef.
  { rewrite HE. by apply list_lookup_middle. }
  pose proof (batch_signals_only _ _ _ Ef Hfinal Hfnz) as Honly. simpl in Honly.
  pose proof (qn_signal _ _ Hinv _ _ Honly) as Hs. rewrite H0 in Hs. case_decide as Hc; [|done].
  assert (block_ok b) as Hb. { rewrite Hl in Hblocks. apply Forall_app in Hblocks as [_ Hb]. by apply Forall_inv in Hb. }
  intros q [v Hv]. apply packet_at_inv in Hv as (j & Hj & ->).
  apply lookup_lt_Some in Hj as Hlt. rewrite HE, length_app in Hlt. simpl in Hlt.
  destruct (decide (j = length C)) as [->|Hnej].
  { rewrite Ef in Hj. injection Hj as <- _. done. }
  eapply (tails_complete l b); [by rewrite <-Hl; exact HE|done| |rewrite <-Hl; fold C; lia|exact Hj].
  intros lane q' Hlane Hq'.
  eapply (qn_deps _ _ Hinv _ (mkView terminal (BarrierAnd [(bk_tails b).1; (bk_tails b).2]) final));
    [exact Hc| |done| |exact Hq'].
  - apply packet_at_emission; [apply batch_lanes|exact Ef].
  - assert (lane = 0 ∨ lane = 1) as [-> | ->] by lia; cbn; set_solver.
Qed.

Lemma batch_complete_final : all_complete prog st → qs_signals st final = 0%Z.
Proof using All.
  intros Hall. destruct batch_emission_snoc as (l & b & _ & HE).
  set (C := chain None blocks) in *.
  assert (E !! length C = Some (0, mkView terminal (BarrierAnd [(bk_tails b).1; (bk_tails b).2]) final)) as Ef.
  { rewrite HE. by apply list_lookup_middle. }
  pose proof (batch_signals_only _ _ _ Ef Hfinal Hfnz) as Honly. simpl in Honly.
  rewrite (qn_signal _ _ (queues_reachable _ _ Hst) _ _ Honly), decide_True; [done|].
  apply Hall. eexists. apply packet_at_emission; [apply batch_lanes|exact Ef].
Qed.
End chain.
