(* ===== verification/AqlTwoQueueOk.v ===== *)
(** * The two-queue builders emit serialized blocks

    The loops over tokens and phases, the specialised builder and the derived
    one: each succeeds or fails without panicking, and what it has pushed is a
    batch of [AqlBlocks], one block per token and phase. *)

From stdpp Require Import gmap.
From S2P Require Import Prelude BTree Packet Device AqlQueue AqlGraph AqlGraphOk AqlTwoQueue AqlBlocks.

Definition tails_ok (p : signal_pair) : Prop := handles [p.1; p.2].

Lemma tails_ok_lane p lane : tails_ok p → in_u 64 (of_lane p lane) ∧ of_lane p lane ≠ 0%Z.
Proof.
  intros H. unfold tails_ok, handles in H. rewrite !Forall_cons in H. unfold of_lane. case_match; tauto.
Qed.

(** ** Boundaries *)

Lemma push_boundary_holds policy E bs p :
  holds 2 E bs → tails_ok p →
  push_boundary policy p bs ≠ Panic ∧
  ∀ bs', push_boundary policy p bs = Done bs' →
    holds 2 (E ++ boundary policy (Some p)) bs'.
Proof.
  intros Hh Hp. unfold push_boundary.
  apply (foldE_holds 2 (λ lane, [(lane, boundary_view policy p)])); [done|].
  intros lane E' bs' Hl Hh'. apply (push_barrier_holds 2 E' bs' policy [p.1; p.2] 0 lane Hh');
    [|done|by vm_compute]. set_unfold in Hl. lia.
Qed.

(** ** Loops over phases and tokens *)

Section loops.
Context {St : Type} (pi : St → batches) (dependency : HeaderPolicy).
Context (phases : list TwoQueuePhase) (spec : nat → nat → block → Prop) (inv : nat → nat → St → Prop).

(** The tails of the phase before phase [p] of a token. *)
Definition phase_previous (own : list signal_pair) (p : nat) : option signal_pair :=
  if p =? 0 then None else own !! (p - 1).

Definition emits (E : list (nat * packet_view)) (t n : nat) (s : St) : Prop :=
  inv t n s ∧ ∃ blocks, length blocks = n ∧
    (∀ p b, blocks !! p = Some b → spec t p b) ∧ holds 2 (E ++ chain dependency None blocks) (pi s).

Lemma phases_loop (body : St → nat * TwoQueuePhase → exec ReplayError St) t own E s :
  (∀ p b, spec t p b → own !! p = Some (bk_tails b)) →
  (∀ p phase E s, phases !! p = Some phase → inv t p s → holds 2 E (pi s) →
     body s (p, phase) ≠ Panic ∧ ∀ s', body s (p, phase) = Done s' → inv t (S p) s' ∧
       ∃ b, spec t p b ∧
         holds 2 (E ++ boundary dependency (phase_previous own p) ++ block_emission b) (pi s')) →
  inv t 0 s → holds 2 E (pi s) →
  foldE body s (enumerate phases) ≠ Panic ∧
  ∀ s', foldE body s (enumerate phases) = Done s' → emits E t (length phases) s'.
Proof.
  intros Hown Hbody Hinv Hh.
  rewrite <-(length_enumerate phases). apply (foldE_ok (λ l1 s, emits E t (length l1) s)).
  { split; [done|]. exists []. split; [done|]. split; [done|]. by rewrite app_nil_r. }
  intros l1 [p phase] l2 s1 [-> Hp]%enumerate_middle (Hinv1 & blocks & Hlen & Hspec & Hh1).
  destruct (Hbody _ _ _ _ Hp Hinv1 Hh1) as [Hnp Hd]. split; [done|]. intros s2 Hs2.
  destruct (Hd s2 Hs2) as (Hinv2 & b & Hb & Hh2).
  rewrite length_app. cbn [length]. rewrite Nat.add_1_r.
  split; [done|]. exists (blocks ++ [b]). split; [rewrite length_app; simpl; lia|]. split.
  - intros p' b' [Hp'|[Hge Hb']]%lookup_app_Some; [by apply Hspec|].
    apply list_lookup_singleton_Some in Hb' as [Hz <-]. by replace p' with (length l1) by lia.
  - rewrite chain_snoc. rewrite <-app_assoc in Hh2.
    replace (tails_after None blocks) with (phase_previous own (length l1)); [done|].
    unfold phase_previous, tails_after. rewrite <-Hlen. destruct blocks as [|b0 blocks _] using rev_ind; [done|].
    rewrite last_snoc, length_app, Nat.add_1_r. cbn [Nat.eqb length]. rewrite Nat.sub_succ, Nat.sub_0_r.
    apply Hown, Hspec. by apply list_lookup_middle.
Qed.

Context (tokens : list (list signal_pair)).
Context (Hphases : phases ≠ []).
Context (Hspec : ∀ t p b, spec t p b → ∃ own, tokens !! t = Some own ∧ own !! p = Some (bk_tails b)).
Context (Hlength : ∀ t own, tokens !! t = Some own → length own = length phases).

(** The tails of the token before token [t]. *)
Definition token_previous (t : nat) : option signal_pair :=
  if t =? 0 then None else token ← tokens !! (t - 1); last token.

Lemma tokens_loop (body : St → nat → exec ReplayError St) s count :
  (∀ t E s, t < count → inv t 0 s → holds 2 E (pi s) →
     body s t ≠ Panic ∧ ∀ s', body s t = Done s' → inv (S t) 0 s' ∧
       ∃ blocks, length blocks = length phases ∧ (∀ p b, blocks !! p = Some b → spec t p b) ∧
         holds 2 (E ++ chain dependency (token_previous t) blocks) (pi s')) →
  inv 0 0 s → holds 2 [] (pi s) →
  foldE body s (seq 0 count) ≠ Panic ∧
  ∀ s', foldE body s (seq 0 count) = Done s' → inv count 0 s' ∧
    ∃ blocks, length blocks = count * length phases ∧
      (∀ q b, blocks !! q = Some b → spec (q / length phases) (q mod length phases) b) ∧
      holds 2 (chain dependency None blocks) (pi s').
Proof.
  intros Hbody Hinv Hh. assert (length phases ≠ 0) as Hpos by by destruct phases.
  pose (P n s := inv n 0 s ∧ ∃ blocks, length blocks = n * length phases ∧
      (∀ q b, blocks !! q = Some b → spec (q / length phases) (q mod length phases) b) ∧
      holds 2 (chain dependency None blocks) (pi s)).
  destruct (foldE_ok (λ l1 s, P (length l1) s) body (seq 0 count) s) as [Hnp Hd].
  - split; [done|]. exists []. done.
  - intros l1 t l2 s1 Hl (Hinv1 & blocks & Hlen & Hsp & Hh1).
    assert (t = length l1 ∧ t < count) as [-> Ht].
    { assert (seq 0 count !! length l1 = Some t) as Hs by (rewrite Hl; by apply list_lookup_middle).
      apply lookup_seq in Hs as [-> ?]. done. }
    destruct (Hbody _ _ _ Ht Hinv1 Hh1) as [Hnp Hd]. split; [done|]. intros s2 Hs2.
    destruct (Hd s2 Hs2) as (Hinv2 & new & Hnew & Hsn & Hh2). unfold P.
    rewrite length_app. cbn [length]. rewrite Nat.add_1_r. split; [done|].
    exists (blocks ++ new). split; [rewrite length_app; lia|]. split.
    + intros q b [Hq|[Hge Hq]]%lookup_app_Some; [by apply Hsp|].
      apply lookup_lt_Some in Hq as Hlt. apply Hsn in Hq.
      assert (q = length phases * length l1 + (q - length blocks)) as Hq' by (rewrite Nat.mul_comm; lia).
      rewrite <-(Nat.div_unique q (length phases) (length l1) (q - length blocks)) by first [done|lia].
      by rewrite <-(Nat.mod_unique q (length phases) (length l1) (q - length blocks)) by first [done|lia].
    + rewrite chain_app. replace (tails_after None blocks) with (token_previous (length l1)); [done|].
      unfold token_previous, tails_after. destruct (Nat.eqb_spec (length l1) 0) as [Hz|Hz].
      { rewrite Hz in Hlen. by destruct blocks. }
      destruct blocks as [|b0 blocks _] using rev_ind; [simpl in Hlen; nia|]. rewrite last_snoc.
      pose proof (Hsp (length blocks) b0 (list_lookup_middle _ _ _ _ eq_refl)) as Hb0.
      rewrite length_app in Hlen. simpl in Hlen.
      assert (length blocks = length phases * (length l1 - 1) + (length phases - 1)) as Hq by nia.
      assert (length phases - 1 < length phases) as Hlast by lia.
      rewrite <-(Nat.div_unique _ _ _ _ Hlast Hq), <-(Nat.mod_unique _ _ _ _ Hlast Hq) in Hb0.
      apply Hspec in Hb0 as (own & Hown & Hp). rewrite Hown. cbn [mbind option_bind].
      rewrite last_lookup, (Hlength _ _ Hown). by rewrite <-Nat.sub_1_r.
  - rewrite length_seq in Hd. done.
Qed.
End loops.

(** ** The specialised builder *)

Record phase_ok (p : TwoQueuePhase) : Prop := {
  po_lane lane : lane < 2 → of_lane (ph_zero p, ph_one p) lane ≠ [];
  po_dispatch lane r : lane < 2 → r ∈ of_lane (ph_zero p, ph_one p) lane →
    rd_lane r = lane ∧ rd_dependencies r = [] ∧ recorded_typed r
}.

(** [TwoQueuePhase::new] checks what the builders rely on. *)
Lemma phase_new_ok zero one p :
  Forall recorded_typed (zero ++ one) → phase_new zero one = Ok p →
  phase_ok p ∧ ph_zero p = zero ∧ ph_one p = one.
Proof.
  intros Ht. unfold phase_new.
  destruct (for_each check_phase_lane _) as [u|e] eqn:Hc; cbn [mbind result_bind]; [|done].
  intros [= <-]. split; [|done]. rewrite for_each_Ok in Hc. apply Forall_app in Ht as [Ht0 Ht1].
  assert (∀ lane rs, enumerate [zero; one] !! lane = Some (lane, rs) → Forall recorded_typed rs →
    rs ≠ [] ∧ ∀ r, r ∈ rs → rd_lane r = lane ∧ rd_dependencies r = [] ∧ recorded_typed r) as Hlane.
  { intros lane rs Hl Ht. apply list_elem_of_lookup_2 in Hl. specialize (Hc _ Hl).
    unfold check_phase_lane in Hc. destruct (is_empty rs) eqn:He; [done|].
    apply is_empty_false in He. cbn [guard_ mbind result_bind] in Hc. split; [done|].
    rewrite for_each_Ok in Hc. intros r Hr. specialize (Hc r Hr). unfold check_phase_dispatch in Hc.
    destruct (Nat.eqb_spec (rd_lane r) lane) as [Hrl|]; [|done]. cbn [negb guard_ mbind result_bind] in Hc.
    rewrite guard_Ok in Hc. apply negb_false_iff, is_empty_true in Hc.
    split; [done|]. split; [done|]. by eapply Forall_forall. }
  destruct (Hlane 0 zero eq_refl Ht0) as [H0 H0'], (Hlane 1 one eq_refl Ht1) as [H1 H1'].
  split; intros lane; intros; assert (lane = 0 ∨ lane = 1) as [-> | ->] by lia; auto.
Qed.

Definition tail_view (count : nat) (tail : Z) (entry : nat * RecordedDispatch) : packet_view :=
  kernel_view TWO_QUEUE_DISPATCH entry.2 (if entry.1 + 1 =? count then tail else 0%Z).

(** A lane of a phase: only its last packet has a completion signal. *)
Definition lane_views (rs : list RecordedDispatch) (tail : Z) : list packet_view :=
  tail_view (length rs) tail <$> enumerate rs.

Definition phase_block (p : TwoQueuePhase) (tails : signal_pair) : block :=
  mkBlock (lane_views (ph_zero p) tails.1, lane_views (ph_one p) tails.2) tails.

Lemma length_lane_views rs tail : length (lane_views rs tail) = length rs.
Proof. unfold lane_views. by rewrite length_fmap, length_enumerate. Qed.

Lemma lane_views_snoc rs r tail :
  lane_views (rs ++ [r]) tail = ((λ e, kernel_view TWO_QUEUE_DISPATCH e.2 0) <$> enumerate rs) ++ [kernel_view TWO_QUEUE_DISPATCH r tail].
Proof.
  unfold lane_views. rewrite enumerate_snoc, fmap_app. f_equal.
  - apply list_fmap_ext. intros i [j x] Hi. apply list_elem_of_lookup_2, elem_of_enumerate, lookup_lt_Some in Hi.
    unfold tail_view. cbn [fst snd]. rewrite (proj2 (Nat.eqb_neq _ _)); [done|]. rewrite length_app. simpl. lia.
  - unfold tail_view. cbn [fmap list_fmap fst snd]. rewrite (proj2 (Nat.eqb_eq _ _)); [done|].
    rewrite length_app. simpl. lia.
Qed.

Lemma completions_zero lane l :
  (∀ v, v ∈ l → pv_completion v = 0%Z) → completions (on_lane lane l) = [].
Proof.
  induction l as [|v l IH]; intros Hv; [done|]. unfold on_lane. rewrite fmap_cons.
  rewrite completions_cons_z by (apply Hv; set_solver). apply IH. intros. apply Hv. set_solver.
Qed.

Lemma on_lane_app lane l1 l2 : on_lane lane (l1 ++ l2) = on_lane lane l1 ++ on_lane lane l2.
Proof. unfold on_lane. by rewrite fmap_app. Qed.

Lemma completions_lane_views lane rs tail :
  rs ≠ [] → tail ≠ 0%Z →
  completions (on_lane lane (lane_views rs tail)) = [tail] ∧
  ∃ v, last (lane_views rs tail) = Some v ∧ pv_barrier v = true ∧ pv_completion v = tail.
Proof.
  intros Hrs Ht. destruct (exists_last Hrs) as (init & r & ->). rewrite lane_views_snoc, on_lane_app. split.
  - rewrite completions_app, completions_zero.
    + unfold on_lane. cbn [fmap list_fmap]. by rewrite completions_cons_nz.
    + intros v (e & -> & _)%list_elem_of_fmap. done.
  - rewrite last_snoc. by eexists.
Qed.

Lemma lane_views_kinds rs tail v deps :
  v ∈ lane_views rs tail → pv_kind v = BarrierAnd deps → deps = [].
Proof. by intros (e & -> & _)%list_elem_of_fmap. Qed.

Lemma phase_block_ok p tails : phase_ok p → tails_ok tails → block_ok (λ _, True) (phase_block p tails).
Proof.
  intros Hp Ht.
  assert (∀ lane, lane < 2 →
    completions (on_lane lane (of_lane (bk_lanes (phase_block p tails)) lane)) = [of_lane tails lane] ∧
    ∃ v, last (of_lane (bk_lanes (phase_block p tails)) lane) = Some v ∧ pv_barrier v = true ∧
      pv_completion v = of_lane tails lane) as Hlane.
  { intros lane Hl. destruct (tails_ok_lane _ lane Ht) as [_ Hnz]. pose proof (po_lane _ Hp lane Hl) as Hne.
    assert (lane = 0 ∨ lane = 1) as [-> | ->] by lia; by apply completions_lane_views. }
  split.
  - unfold block_emission. rewrite completions_app, filter_always.
    destruct (Hlane 0 ltac:(lia)) as [H0 _], (Hlane 1 ltac:(lia)) as [H1 _].
    cbn [of_lane Nat.eqb] in H0, H1. by rewrite H0, H1.
  - intros lane Hl. by apply Hlane.
  - intros v deps [Hv|Hv]%elem_of_app; apply (lane_views_kinds _ _ _ deps Hv).
Qed.

Lemma emit_lane_holds tails E bs lane rs :
  holds 2 E bs → lane < 2 → Forall recorded_typed rs → tails_ok tails →
  emit_lane tails bs (lane, rs) ≠ Panic ∧
  ∀ bs', emit_lane tails bs (lane, rs) = Done bs' →
    holds 2 (E ++ on_lane lane (lane_views rs (of_lane tails lane))) bs'.
Proof.
  intros Hh Hl Ht Hs. unfold emit_lane.
  set (f e := [(lane, tail_view (length rs) (of_lane tails lane) e)]).
  replace (on_lane lane (lane_views rs (of_lane tails lane))) with (enumerate rs ≫= f).
  2:{ unfold on_lane, lane_views, f. generalize (length rs). intros n.
      induction (enumerate rs) as [|e l IH]; [done|]. rewrite !fmap_cons, <-IH. done. }
  apply foldE_holds; [done|]. intros [i r] E' bs' Hin Hh'.
  apply elem_of_enumerate, (Forall_lookup_1 _ _ _ _ Ht) in Hin as Hr.
  destruct (tails_ok_lane _ lane Hs) as [Hu _].
  apply push_kernel_holds; [done|done|done|]. case_match; [done|by vm_compute].
Qed.

Lemma phase_typed p lane : phase_ok p → lane < 2 → Forall recorded_typed (of_lane (ph_zero p, ph_one p) lane).
Proof. intros Hp Hl. apply Forall_forall. intros r Hr. by apply (po_dispatch _ Hp lane r Hl) in Hr as (_ & _ & ?). Qed.

Lemma emit_phase_holds own E bs p phase :
  holds 2 E bs → phase_ok phase → Forall tails_ok own → p < length own →
  emit_phase own bs (p, phase) ≠ Panic ∧
  ∀ bs', emit_phase own bs (p, phase) = Done bs' → ∃ tails, own !! p = Some tails ∧
    holds 2 (E ++ boundary TWO_QUEUE_DEPENDENCY (phase_previous own p) ++ block_emission (phase_block phase tails)) bs'.
Proof.
  intros Hh Hp Ht Hlt. unfold emit_phase, phase_previous.
  destruct (lookup_lt_is_Some_2 own p Hlt) as [tails Htails]. rewrite Htails.
  pose proof (Forall_lookup_1 _ _ _ _ Ht Htails) as Hto.
  assert (∀ E bs, holds 2 E bs →
    foldE (emit_lane tails) bs (enumerate (phase_lanes phase)) ≠ Panic ∧
    ∀ bs', foldE (emit_lane tails) bs (enumerate (phase_lanes phase)) = Done bs' →
      holds 2 (E ++ block_emission (phase_block phase tails)) bs') as Hlanes.
  { clear E bs Hh. intros E bs Hh. cbn [phase_lanes enumerate length seq zip zip_with foldE].
    destruct (emit_lane_holds tails E bs 0 (ph_zero phase) Hh) as [Hnp Hd];
      [lia|apply (phase_typed _ 0 Hp); lia|done|].
    destruct (emit_lane tails bs (0, _)) as [bs1|e|]; cbn [mbind exec_bind]; [|done|done].
    destruct (emit_lane_holds tails _ bs1 1 (ph_one phase) (Hd _ eq_refl)) as [Hnp' Hd'];
      [lia|apply (phase_typed _ 1 Hp); lia|done|].
    destruct (emit_lane tails bs1 (1, _)) as [bs2|e|]; cbn [mbind exec_bind]; [|done|done].
    split; [done|]. intros bs' [= <-]. specialize (Hd' _ eq_refl). by rewrite <-app_assoc in Hd'. }
  destruct (Nat.eqb_spec p 0) as [Hz|Hz]; cbn [mbind exec_bind unwrap].
  - destruct (Hlanes E bs Hh) as [Hnp Hd]. split; [done|]. intros bs' Hbs'. exists tails. split; [done|]. by apply Hd.
  - destruct (lookup_lt_is_Some_2 own (p - 1)) as [prev Hprev]; [lia|]. rewrite Hprev.
    cbn [unwrap mbind exec_bind].
    destruct (push_boundary_holds TWO_QUEUE_DEPENDENCY E bs prev Hh) as [Hnp Hd];
      [by eapply Forall_lookup_1|].
    destruct (push_boundary _ _ _) as [bs1|e|]; cbn [mbind exec_bind]; [|done|done].
    destruct (Hlanes _ _ (Hd _ eq_refl)) as [Hnp' Hd']. split; [done|]. intros bs' Hbs'.
    exists tails. split; [done|]. rewrite app_assoc. by apply Hd'.
Qed.

(** ** Tail signals *)

Lemma tail_pair_Ok d i p :
  tail_pair d i = Ok p ↔ gpu_signal d i = Ok p.1 ∧ gpu_signal d (S i) = Ok p.2.
Proof.
  unfold tail_pair, new_signal. destruct p as [a b].
  destruct (gpu_signal d i), (gpu_signal d (S i)); simpl; naive_solver.
Qed.

Lemma token_tails_Ok d base n own :
  token_tails d base n = Ok own →
  length own = n ∧ ∀ p pr, own !! p = Some pr →
    gpu_signal d (base + 2 * p) = Ok pr.1 ∧ gpu_signal d (S (base + 2 * p)) = Ok pr.2.
Proof.
  intros H%mapM_Ok. split; [by rewrite <-(Forall2_length _ _ _ H), length_seq|].
  intros p pr Hp. destruct (Forall2_lookup_r _ _ _ _ _ H Hp) as (x & Hx & Hs).
  apply lookup_seq in Hx as [-> _]. by apply tail_pair_Ok in Hs.
Qed.

Lemma batch_tails_Ok d base n count tokens :
  batch_tails d base n count = Ok tokens →
  length tokens = count ∧ ∀ t own, tokens !! t = Some own → length own = n ∧
    ∀ p pr, own !! p = Some pr → gpu_signal d (base + 2 * (t * n + p)) = Ok pr.1 ∧
      gpu_signal d (S (base + 2 * (t * n + p))) = Ok pr.2.
Proof.
  intros H%mapM_Ok. split; [by rewrite <-(Forall2_length _ _ _ H), length_seq|].
  intros t own Ht. destruct (Forall2_lookup_r _ _ _ _ _ H Ht) as (x & Hx & Hs).
  apply lookup_seq in Hx as [-> _]. apply token_tails_Ok in Hs as [Hlen Hs]. split; [done|].
  intros p pr Hp. specialize (Hs p pr Hp).
  replace (base + 2 * (t * n + p)) with (base + 2 * (t * n) + 2 * p) by lia. done.
Qed.

Lemma tails_count_length n tokens :
  (∀ t own, tokens !! t = Some own → length own = n) → tails_count tokens = 2 * (length tokens * n).
Proof.
  intros H. unfold tails_count.
  cut (∀ a, foldl (λ sum token, sum + length token * 2) a tokens = a + 2 * (length tokens * n)).
  { intros H'. by rewrite H'. }
  induction tokens as [|own tokens IH]; intros a; simpl; [lia|].
  rewrite IH by (intros t; apply (H (S t))). rewrite (H 0 own eq_refl). lia.
Qed.

Lemma all_tails_signals d base blocks :
  (∀ q b, blocks !! q = Some b → gpu_signal d (base + 2 * q) = Ok (bk_tails b).1 ∧
     gpu_signal d (S (base + 2 * q)) = Ok (bk_tails b).2) →
  length (all_tails blocks) = 2 * length blocks ∧
  ∀ i s, all_tails blocks !! i = Some s → gpu_signal d (base + i) = Ok s.
Proof.
  induction blocks as [|b blocks IH] using rev_ind; intros H; [done|].
  unfold all_tails. rewrite bind_app. fold (all_tails blocks).
  destruct IH as [Hlen Hs]; [intros q b' Hq; apply H; by apply lookup_app_l_Some|].
  destruct (H (length blocks) b (list_lookup_middle _ _ _ _ eq_refl)) as [H0 H1].
  split; [rewrite !length_app; simpl; lia|].
  intros i s [Hi|[Hge Hi]]%lookup_app_Some; [by apply Hs|]. rewrite Hlen in Hge, Hi.
  destruct (i - 2 * length blocks) as [|[|k]] eqn:Hk; [injection Hi as <-..|done].
  - by replace i with (2 * length blocks) by lia.
  - by replace (base + i) with (S (base + 2 * length blocks)) by lia.
Qed.

Lemma signals_nodup d base l :
  device_ok d → (∀ i s, l !! i = Some s → gpu_signal d (base + i) = Ok s) → NoDup l.
Proof.
  intros Hd H. apply NoDup_alt. intros i j s Hi%H Hj%H. pose proof (dk_fresh _ Hd _ _ _ Hi Hj). lia.
Qed.

(** ** Serialized batches *)

Record serialized (dependency terminal : HeaderPolicy) (own : Z → Prop) `{∀ s, Decision (own s)}
    (blocks : list block) (final : Z) (bs : batches) : Prop := {
  se_holds : holds 2 (batch_emission dependency terminal blocks final) bs;
  se_ok : Forall (block_ok own) blocks;
  se_nonempty : blocks ≠ [];
  se_own : own final;
  se_nonzero : final ≠ 0%Z;
  se_nodup : NoDup (all_tails blocks ++ [final])
}.

Lemma push_terminal_serialized dependency own `{∀ s, Decision (own s)} d base policy blocks final bs :
  device_ok d → holds 2 (chain dependency None blocks) bs → Forall (block_ok own) blocks →
  (∀ q b, blocks !! q = Some b → gpu_signal d (base + 2 * q) = Ok (bk_tails b).1 ∧
     gpu_signal d (S (base + 2 * q)) = Ok (bk_tails b).2) →
  gpu_signal d (base + 2 * length blocks) = Ok final → own final →
  ∀ b l, blocks = l ++ [b] →
  push_terminal policy (bk_tails b) final bs ≠ Panic ∧
  ∀ bs', push_terminal policy (bk_tails b) final bs = Done bs' →
    serialized dependency policy own blocks final bs'.
Proof.
  intros Hd Hh Hok Hsig Hf Hown b l Hl. unfold push_terminal.
  destruct (Hsig (length l) b) as [H0 H1]; [rewrite Hl; by apply list_lookup_middle|].
  destruct (push_barrier_holds 2 _ bs policy [(bk_tails b).1; (bk_tails b).2] final 0 Hh) as [Hnp Hp];
    [lia| |by eapply dk_signal|].
  { repeat apply Forall_cons_2; [by eapply dk_signal..|apply Forall_nil_2]. }
  split; [done|]. intros bs' Hbs'. split; [|done| |done|by eapply dk_signal|].
  - unfold batch_emission. rewrite Hl, tails_after_snoc, <-Hl. by apply Hp.
  - by rewrite Hl; destruct l.
  - destruct (all_tails_signals d base blocks Hsig) as [Hlen Hs].
    apply (signals_nodup d base); [done|]. intros i s [Hi|[Hge Hi]]%lookup_app_Some; [by apply Hs|].
    apply list_lookup_singleton_Some in Hi as [Hz <-]. replace i with (2 * length blocks) by lia. done.
Qed.

(** The number of packets of each queue. *)
Lemma batch_length dependency terminal blocks final lane :
  lane < 2 → blocks ≠ [] →
  length (lane_of lane (batch_emission dependency terminal blocks final)) =
    sum_list_with (lane_length lane) blocks + (length blocks - 1) + (if lane =? 0 then 1 else 0).
Proof.
  intros Hl Hne. destruct (exists_last Hne) as (l & b & ->). unfold batch_emission.
  rewrite tails_after_snoc, lane_of_app, length_app, lane_of_chain by done.
  rewrite length_app. cbn [length].
  assert (lane = 0 ∨ lane = 1) as [-> | ->] by lia; simpl; lia.
Qed.

Lemma holds_counts E bs :
  holds 2 E bs → batch_counts bs = (length (lane_of 0 E), length (lane_of 1 E)).
Proof.
  intros [Hv _]. unfold views in Hv. apply mapM_Some in Hv.
  assert (∀ lane, lane < 2 → length (default [] (bs !! lane)) = length (lane_of lane E)) as Hlane.
  { intros lane Hl. pose proof (program_of_lookup 2 E lane Hl) as Hp.
    destruct (Forall2_lookup_r _ _ _ _ _ Hv Hp) as (batch & -> & Hb).
    by apply mapM_Some, Forall2_length in Hb. }
  unfold batch_counts. by rewrite !Hlane by lia.
Qed.

(** Every block of a batch belongs to a phase, token after token. *)
Lemma sum_over_tokens {A} (f : block → nat) (g : A → nat) (phases : list A) blocks count :
  phases ≠ [] → length blocks = count * length phases →
  (∀ q b, blocks !! q = Some b → ∃ a, phases !! (q mod length phases) = Some a ∧ f b = g a) →
  sum_list_with f blocks = count * sum_list_with g phases.
Proof.
  intros Hne. assert (length phases ≠ 0) as Hpos by by destruct phases.
  revert blocks. induction count as [|count IH]; intros blocks Hlen H.
  { by destruct blocks. }
  rewrite <-(take_drop (length phases) blocks), sum_list_with_app.
  rewrite (IH (drop (length phases) blocks)).
  - cut (sum_list_with f (take (length phases) blocks) = sum_list_with g phases); [lia|].
    assert (Forall2 (λ b a, f b = g a) (take (length phases) blocks) phases) as Hf.
    { apply Forall2_same_length_lookup. split; [rewrite length_take; lia|].
      intros i b a [Hi Hlt]%lookup_take_Some Ha. destruct (H i b Hi) as (a' & Ha' & ->).
      rewrite Nat.mod_small in Ha' by done. congruence. }
    clear -Hf. induction Hf as [|b a bs l Hba _ IHf]; simpl; [done|]. by rewrite Hba, IHf.
  - rewrite length_drop. lia.
  - intros q b Hq. rewrite lookup_drop in Hq. destruct (H _ _ Hq) as (a & Ha & Hfa). exists a.
    split; [|done]. rewrite <-Ha. f_equal.
    rewrite <-(Nat.Div0.mod_add q 1 (length phases)). f_equal. lia.
Qed.

(** ** Packet counts *)

Lemma usize_add_Some a b c : usize_add a b = Some c → c = a + b.
Proof. unfold usize_add. by case_match; intros [=]. Qed.
Lemma usize_mul_Some a b c : usize_mul a b = Some c → c = a * b.
Proof. unfold usize_mul. by case_match; intros [=]. Qed.

Lemma lane_sum phases lane sum out :
  foldR (λ sum phase, ok_or (usize_add sum (of_lane phase lane)) BatchShapeOverflow) sum phases = Ok out →
  out = sum + sum_list_with (λ p : usize_pair, of_lane p lane) phases.
Proof.
  revert sum. induction phases as [|p phases IH]; intros sum; cbn [foldR sum_list_with].
  { intros [= <-]. lia. }
  destruct (usize_add sum _) as [s|] eqn:Hs; cbn [ok_or mbind result_bind]; [|done].
  intros H%IH. apply usize_add_Some in Hs. lia.
Qed.

Lemma serialized_lane_count_Ok phases count pb tb lane n :
  serialized_lane_count phases count pb tb lane = Ok n →
  n = sum_list_with (λ p : usize_pair, of_lane p lane) phases * count + pb + tb + (if lane =? 0 then 1 else 0).
Proof.
  unfold serialized_lane_count. intros H. apply bind_Ok_inv in H as (per & Hper%lane_sum & H).
  apply ok_or_Ok in H. apply bind_Some in H as (a & Ha%usize_mul_Some & H).
  apply bind_Some in H as (b & Hb%usize_add_Some & H). apply bind_Some in H as (c & Hc%usize_add_Some & H).
  apply usize_add_Some in H. subst. lia.
Qed.

Lemma required_counts_Ok phases count c :
  required_packet_counts phases count = Ok c →
  phases ≠ [] ∧ count ≠ 0 ∧ ∀ lane, lane < 2 →
    of_lane c lane = count * sum_list_with (λ p, length (of_lane (ph_zero p, ph_one p) lane)) phases
      + (count * length phases - 1) + (if lane =? 0 then 1 else 0).
Proof.
  unfold required_packet_counts. destruct (is_empty phases) eqn:He; [done|]. apply is_empty_false in He.
  unfold two_queue_serialized_batch_counts. destruct (Nat.eqb_spec count 0) as [|Hc]; [done|].
  destruct (is_empty (lane_counts phases)); [done|]. intros H.
  apply bind_Ok_inv in H as (pb & Hpb%ok_or_Ok%usize_mul_Some & H).
  apply bind_Ok_inv in H as (z & Hz%serialized_lane_count_Ok & H).
  apply bind_Ok_inv in H as (o & Ho%serialized_lane_count_Ok & H). apply Ok_inj in H as <-.
  split; [done|]. split; [done|]. unfold lane_counts in Hpb. rewrite length_fmap in Hpb.
  assert (length phases ≠ 0) by by destruct phases.
  assert (∀ lane, sum_list_with (λ p : usize_pair, of_lane p lane) (lane_counts phases) =
    sum_list_with (λ p, length (of_lane (ph_zero p, ph_one p) lane)) phases) as Hsum.
  { intros lane. unfold lane_counts. clear. induction phases as [|p l IH]; [done|]. simpl.
    f_equal; [|exact IH]. unfold of_lane. by case_match. }
  rewrite Hsum, (Nat.mul_comm _ count) in Hz. rewrite Hsum, (Nat.mul_comm _ count) in Ho.
  assert (pb + (count - 1) = count * length phases - 1) as Hb.
  { destruct (length phases) as [|n]; [done|]. destruct count as [|k]; [done|]. simpl in *. nia. }
  intros lane Hl. assert (lane = 0 ∨ lane = 1) as [-> | ->] by lia; cbn [of_lane Nat.eqb fst snd] in *; lia.
Qed.

(** The tails of the blocks of a batch are those of its tokens. *)
Definition tails_spec (tokens : list (list signal_pair)) (n : nat) (blocks : list block) : Prop :=
  ∀ q b, blocks !! q = Some b →
    ∃ own, tokens !! (q / n) = Some own ∧ own !! (q mod n) = Some (bk_tails b).

Lemma spec_signals d base n count tokens blocks :
  batch_tails d base n count = Ok tokens → n ≠ 0 → tails_spec tokens n blocks →
  ∀ q b, blocks !! q = Some b →
    gpu_signal d (base + 2 * q) = Ok (bk_tails b).1 ∧ gpu_signal d (S (base + 2 * q)) = Ok (bk_tails b).2.
Proof.
  intros Htokens Hn Hsp q b Hq. destruct (Hsp q b Hq) as (own & Ht & Hp).
  apply batch_tails_Ok in Htokens as [_ H]. destruct (H _ _ Ht) as [_ Hs]. specialize (Hs _ _ Hp).
  assert (q / n * n + q mod n = q) as Hq'.
  { rewrite (Nat.div_mod_eq q n) at 3. lia. }
  by rewrite Hq' in Hs.
Qed.

Lemma last_block d base n count tokens blocks :
  batch_tails d base n count = Ok tokens → n ≠ 0 → count ≠ 0 → length blocks = count * n →
  tails_spec tokens n blocks →
  ∃ l b, blocks = l ++ [b] ∧ (token ← last tokens; last token) = Some (bk_tails b).
Proof.
  intros Htokens Hn Hc Hlen Hsp.
  destruct (exists_last (l := blocks)) as (l & b & ->). { intros ->. simpl in Hlen. nia. }
  exists l, b. split; [done|]. rewrite length_app in Hlen. simpl in Hlen.
  assert (length l = n * (count - 1) + (n - 1)) as Hq by nia.
  assert (n - 1 < n) as Hlt by lia.
  destruct (Hsp (length l) b (list_lookup_middle _ _ _ _ eq_refl)) as (own & Ht & Hp).
  rewrite <-(Nat.div_unique _ _ _ _ Hlt Hq) in Ht. rewrite <-(Nat.mod_unique _ _ _ _ Hlt Hq) in Hp.
  pose proof (batch_tails_Ok _ _ _ _ _ Htokens) as [Htl Hol]. destruct (Hol _ _ Ht) as [Hown _].
  rewrite last_lookup, Htl, <-Nat.sub_1_r, Ht. cbn [mbind option_bind].
  by rewrite last_lookup, Hown, <-Nat.sub_1_r.
Qed.

(** ** One token, and a batch of tokens *)

(** Block [p] of token [t] is phase [p] with the tails of that token. *)
Definition phase_spec (phases : list TwoQueuePhase) (tokens : list (list signal_pair)) (t p : nat)
    (b : block) : Prop :=
  ∃ own tails phase, tokens !! t = Some own ∧ own !! p = Some tails ∧ phases !! p = Some phase ∧
    b = phase_block phase tails.

Lemma phase_spec_tails phases tokens (blocks : list block) :
  (∀ q b, blocks !! q = Some b → phase_spec phases tokens (q / length phases) (q mod length phases) b) →
  tails_spec tokens (length phases) blocks.
Proof. intros H q b (own & tails & phase & Ht & Hp & _ & ->)%H. by exists own. Qed.

Section specialised.
Context (d : GpuDevice) (Hd : device_ok d).
Context (phases : list TwoQueuePhase) (Hphases : Forall phase_ok phases) (Hne : phases ≠ []).
Context (count base : nat) (tokens : list (list signal_pair)).
Context (Htokens : batch_tails d base (length phases) count = Ok tokens).

Lemma token_length t own : tokens !! t = Some own → length own = length phases.
Proof using Htokens. intros Ht. apply batch_tails_Ok in Htokens as [_ H]. by apply H in Ht as [? _]. Qed.

Lemma token_tails_valid t own : tokens !! t = Some own → Forall tails_ok own.
Proof using Htokens Hd.
  intros Ht. apply batch_tails_Ok in Htokens as [_ H]. apply H in Ht as [_ Ht].
  apply Forall_forall. intros pr [p Hp]%list_elem_of_lookup. destruct (Ht p pr Hp) as [H0 H1].
  repeat apply Forall_cons_2; [by eapply dk_signal..|apply Forall_nil_2].
Qed.

Lemma phases_emitted t own E bs :
  tokens !! t = Some own → holds 2 E bs →
  foldE (emit_phase own) bs (enumerate phases) ≠ Panic ∧
  ∀ bs', foldE (emit_phase own) bs (enumerate phases) = Done bs' →
    ∃ blocks, length blocks = length phases ∧
      (∀ p b, blocks !! p = Some b → phase_spec phases tokens t p b) ∧
      holds 2 (E ++ chain TWO_QUEUE_DEPENDENCY None blocks) bs'.
Proof using All.
  intros Ht Hh.
  destruct (phases_loop id TWO_QUEUE_DEPENDENCY phases (phase_spec phases tokens) (λ _ _ _, True) (emit_phase own) t own E bs)
    as [Hnp Hdone]; [| |done|done|].
  - intros p b (own' & tails & phase & Ht' & Hp & _ & ->). by simplify_eq.
  - intros p phase E' bs' Hp _ Hh'. pose proof (Forall_lookup_1 _ _ _ _ Hphases Hp) as Hpo.
    destruct (emit_phase_holds own E' bs' p phase Hh' Hpo) as [Hnp Hdn].
    { by eapply token_tails_valid. }
    { rewrite (token_length _ _ Ht). by eapply lookup_lt_Some. }
    split; [done|]. intros bs2 Hbs2. split; [done|]. destruct (Hdn bs2 Hbs2) as (tails & Htl & Hh2).
    exists (phase_block phase tails). split; [by exists own, tails, phase|done].
  - split; [done|]. intros bs' Hbs'. destruct (Hdone bs' Hbs') as (_ & blocks & Hb). by exists blocks.
Qed.

Lemma last_tails t own : tokens !! t = Some own → ∃ p, last own = Some p ∧ tails_ok p.
Proof using All.
  intros Ht. destruct (last own) as [p|] eqn:Hl.
  - exists p. split; [done|]. apply last_Some in Hl as (l & ->).
    pose proof (token_tails_valid _ _ Ht) as Hf. apply Forall_app in Hf as [_ Hf]. by apply Forall_inv in Hf.
  - exfalso. apply last_None in Hl as ->. apply token_length in Ht. by destruct phases.
Qed.

Lemma token_emitted t E bs :
  t < count → holds 2 E bs →
  emit_token phases tokens bs t ≠ Panic ∧
  ∀ bs', emit_token phases tokens bs t = Done bs' →
    ∃ blocks, length blocks = length phases ∧
      (∀ p b, blocks !! p = Some b → phase_spec phases tokens t p b) ∧
      holds 2 (E ++ chain TWO_QUEUE_DEPENDENCY (token_previous tokens t) blocks) bs'.
Proof using All.
  intros Ht Hh. pose proof (batch_tails_Ok _ _ _ _ _ Htokens) as [Hlen _].
  destruct (lookup_lt_is_Some_2 tokens t) as [own Hown]; [lia|].
  unfold emit_token, token_previous. rewrite Hown. destruct (Nat.eqb_spec t 0) as [Hz|Hz];
    cbn [mbind exec_bind unwrap].
  - by apply phases_emitted.
  - destruct (lookup_lt_is_Some_2 tokens (t - 1)) as [prev Hprev]; [lia|]. rewrite Hprev.
    destruct (last_tails _ _ Hprev) as (p & Hp & Hpo). cbn [mbind option_bind]. rewrite Hp.
    cbn [unwrap mbind exec_bind].
    destruct (push_boundary_holds TWO_QUEUE_DEPENDENCY E bs p Hh Hpo) as [Hnp Hdn].
    destruct (push_boundary _ _ _) as [bs1|e|]; cbn [mbind exec_bind]; [|done|done].
    destruct (phases_emitted t own _ bs1 Hown (Hdn _ eq_refl)) as [Hnp' Hdn']. split; [done|].
    intros bs' (blocks & Hbl & Hsp & Hh')%Hdn'. exists blocks. split; [done|]. split; [done|].
    rewrite (chain_previous TWO_QUEUE_DEPENDENCY (Some p)), app_assoc; [done|]. intros ->. by destruct phases.
Qed.

Lemma tokens_emitted :
  foldE (emit_token phases tokens) (replicate 2 []) (seq 0 count) ≠ Panic ∧
  ∀ bs, foldE (emit_token phases tokens) (replicate 2 []) (seq 0 count) = Done bs →
    ∃ blocks, length blocks = count * length phases ∧
      (∀ q b, blocks !! q = Some b →
         phase_spec phases tokens (q / length phases) (q mod length phases) b) ∧
      holds 2 (chain TWO_QUEUE_DEPENDENCY None blocks) bs.
Proof using All.
  destruct (tokens_loop id TWO_QUEUE_DEPENDENCY phases (phase_spec phases tokens) (λ _ _ _, True) tokens Hne)
    with (body := emit_token phases tokens) (s := replicate 2 ([] : list PacketImage)) (count := count)
    as [Hnp Hdn].
  - intros t p b (own & tails & phase & Ht & Hp & _ & ->). by exists own.
  - apply token_length.
  - intros t E s Ht _ Hh. destruct (token_emitted t E s Ht Hh) as [Hnp Hdn]. split; [done|].
    intros s' Hs'. split; [done|]. by apply Hdn.
  - done.
  - apply holds_start.
  - split; [done|]. intros bs Hbs. by destruct (Hdn bs Hbs) as [_ ?].
Qed.

Lemma spec_blocks_ok (blocks : list block) :
  (∀ q b, blocks !! q = Some b → phase_spec phases tokens (q / length phases) (q mod length phases) b) →
  Forall (block_ok (λ _, True)) blocks.
Proof using All.
  intros Hsp. apply Forall_forall. intros b [q Hq]%list_elem_of_lookup.
  destruct (Hsp q b Hq) as (own & tails & phase & Ht & Hp & Hph & ->).
  apply phase_block_ok; [by eapply Forall_lookup_1|]. eapply Forall_lookup_1; [|exact Hp].
  by eapply token_tails_valid.
Qed.

End specialised.

Lemma assert_ok b : b = true → assert_ b = Done tt.
Proof. by intros ->. Qed.

(** The packet counts of a batch whose blocks add [extra] packets per lane. *)
Lemma serialized_counts dependency terminal own `{∀ s, Decision (own s)} (phases : list TwoQueuePhase)
    count extra blocks final bs :
  serialized dependency terminal own blocks final bs → phases ≠ [] →
  length blocks = count * length phases →
  (∀ q b, blocks !! q = Some b → ∃ phase, phases !! (q mod length phases) = Some phase ∧
     ∀ lane, lane < 2 → lane_length lane b = length (of_lane (ph_zero phase, ph_one phase) lane) + extra) →
  ∀ lane, lane < 2 → of_lane (batch_counts bs) lane =
    count * sum_list_with (λ p, length (of_lane (ph_zero p, ph_one p) lane)) phases
    + count * length phases * extra + (count * length phases - 1) + (if lane =? 0 then 1 else 0).
Proof.
  intros Hs Hne Hlen Hb lane Hl.
  assert (of_lane (batch_counts bs) lane = length (lane_of lane (batch_emission dependency terminal blocks final))) as ->.
  { rewrite (holds_counts _ _ (se_holds _ _ _ _ _ _ Hs)).
    assert (lane = 0 ∨ lane = 1) as [-> | ->] by lia; done. }
  rewrite batch_length by (done || apply (se_nonempty _ _ _ _ _ _ Hs)).
  rewrite (sum_over_tokens _ (λ p, length (of_lane (ph_zero p, ph_one p) lane) + extra) phases blocks count Hne Hlen).
  2:{ intros q b Hq. destruct (Hb q b Hq) as (phase & Hp & Hll). exists phase. auto. }
  assert (sum_list_with (λ p, length (of_lane (ph_zero p, ph_one p) lane) + extra) phases =
    sum_list_with (λ p, length (of_lane (ph_zero p, ph_one p) lane)) phases + length phases * extra) as ->.
  { clear. induction phases as [|p l IH]; simpl; [done|]. simpl in IH. lia. }
  rewrite Hlen. lia.
Qed.

Lemma phase_block_length phase tails lane :
  lane < 2 → lane_length lane (phase_block phase tails) = length (of_lane (ph_zero phase, ph_one phase) lane).
Proof.
  intros Hl. unfold lane_length. assert (lane = 0 ∨ lane = 1) as [-> | ->] by lia; apply length_lane_views.
Qed.

(** No queue receives more packets than it has slots. *)
Definition within_queues (d : GpuDevice) (size : Z) (bs : batches) : Prop :=
  ∃ sizes, gpu_queue_sizes d 2 size = Ok sizes ∧
    ∀ lane batch c, bs !! lane = Some batch → sizes !! lane = Some c → (Z.of_nat (length batch) ≤ c)%Z.

Lemma check_capacities_within d size sizes bs u :
  gpu_queue_sizes d 2 size = Ok sizes → check_capacities sizes bs = Done u → within_queues d size bs.
Proof.
  intros Hq Hc. exists sizes. split; [done|]. intros lane batch c. by eapply check_capacities_fit.
Qed.

Lemma signal_count_matches d base n count tokens sc :
  batch_tails d base n count = Ok tokens → two_queue_serialized_signal_count n count = Ok sc →
  tails_count tokens + 1 = sc.
Proof.
  intros Ht Hsc. pose proof (batch_tails_Ok _ _ _ _ _ Ht) as [Htl Hts].
  rewrite (tails_count_length n) by (intros t own H; by apply Hts in H as [? _]).
  unfold two_queue_serialized_signal_count in Hsc. destruct (count =? 0); [done|].
  apply ok_or_Ok in Hsc. apply bind_Some in Hsc as (a & Ha%usize_mul_Some & Hsc).
  apply bind_Some in Hsc as (b & Hb%usize_mul_Some & Hsc%usize_add_Some). subst. lia.
Qed.

(** What a successful creation of a specialised batch establishes. *)
Record specialised_graph (phases : list TwoQueuePhase) (count : nat)
    (tokens : list (list signal_pair)) (final : Z) (bs : batches) (blocks : list block) : Prop := {
  sp_serialized : serialized TWO_QUEUE_DEPENDENCY TWO_QUEUE_HOST_TERMINAL (λ _, True) blocks final bs;
  sp_length : length blocks = count * length phases;
  sp_spec q b : blocks !! q = Some b →
    phase_spec phases tokens (q / length phases) (q mod length phases) b
}.

Lemma specialised_counts phases count tokens final bs blocks lane :
  specialised_graph phases count tokens final bs blocks → phases ≠ [] → lane < 2 →
  of_lane (batch_counts bs) lane =
    count * sum_list_with (λ p, length (of_lane (ph_zero p, ph_one p) lane)) phases
    + (count * length phases - 1) + (if lane =? 0 then 1 else 0).
Proof.
  intros [Hs Hlen Hsp] Hne Hl. rewrite (serialized_counts _ _ _ phases count 0 _ _ _ Hs Hne Hlen); [lia| |done].
  intros q b Hq. destruct (Hsp q b Hq) as (own & tails & phase & _ & _ & Hp & ->). exists phase.
  split; [done|]. intros lane' Hl'. rewrite phase_block_length by done. lia.
Qed.

Lemma serialized_create_inv d size count phases :
  device_ok d → Forall phase_ok phases →
  serialized_create d size count phases ≠ Panic ∧
  ∀ g, serialized_create d size count phases = Done g →
    count ≠ 0 ∧ phases ≠ [] ∧ sg_phases g = phases ∧
    within_queues d size (sg_batches g) ∧
    ∃ blocks, specialised_graph phases count (sg_token_phase_tail_signals g) (sg_final_signal g)
      (sg_batches g) blocks.
Proof.
  intros Hd Hp. unfold serialized_create. destruct (is_empty phases) eqn:He; [done|].
  apply is_empty_false in He.
  destruct (validate_two_queue_phases d phases) as [u|e]; cbn [try_ mbind exec_bind]; [|done].
  destruct (required_packet_counts phases count) as [counts|e] eqn:Hcounts; cbn [try_ mbind exec_bind]; [|done].
  apply required_counts_Ok in Hcounts as (_ & Hc & Hcounts).
  destruct (two_queue_serialized_signal_count _ _) as [sc|e] eqn:Hsc; cbn [try_ mbind exec_bind]; [|done].
  destruct (gpu_queue_sizes d 2 size) as [sizes|e] eqn:Hq; cbn [map_err try_ mbind exec_bind]; [|done].
  destruct (batch_tails d 0 (length phases) count) as [tokens|e] eqn:Ht; cbn [try_ mbind exec_bind]; [|done].
  rewrite assert_ok by by apply Nat.eqb_eq, (signal_count_matches _ _ _ _ _ _ Ht Hsc). cbn [mbind exec_bind].
  destruct (new_signal d _) as [final|e] eqn:Hf; cbn [try_ mbind exec_bind]; [|done].
  apply map_err_Ok in Hf.
  destruct (tokens_emitted d Hd phases Hp He count 0 tokens Ht) as [Hnp Hdn].
  destruct (foldE _ _ _) as [bs1|e|]; cbn [mbind exec_bind]; [|done|done].
  destruct (Hdn _ eq_refl) as (blocks & Hlen & Hsp & Hh).
  pose proof (phase_spec_tails _ _ _ Hsp) as Htsp. assert (length phases ≠ 0) as Hpos by by destruct phases.
  destruct (last_block _ _ _ _ _ _ Ht Hpos Hc Hlen Htsp) as (l & b & Hl & ->).
  cbn [unwrap mbind exec_bind].
  destruct (push_terminal_serialized TWO_QUEUE_DEPENDENCY (λ _, True) d 0 TWO_QUEUE_HOST_TERMINAL blocks final bs1 Hd Hh)
    with (b := b) (l := l) as [Hnp' Hdn']; [by eapply spec_blocks_ok|exact (spec_signals _ _ _ _ _ _ Ht Hpos Htsp)| |done|done|].
  { by rewrite Hlen. }
  destruct (push_terminal _ _ _ _) as [bs2|e|]; cbn [mbind exec_bind]; [|done|done].
  specialize (Hdn' _ eq_refl).
  assert (specialised_graph phases count tokens final bs2 blocks) as Hg by by split.
  assert (batch_counts bs2 = counts) as Heq.
  { pose proof (specialised_counts _ _ _ _ _ _ 0 Hg He ltac:(lia)) as H0.
    pose proof (specialised_counts _ _ _ _ _ _ 1 Hg He ltac:(lia)) as H1.
    rewrite <-Hcounts in H0, H1 by lia. destruct (batch_counts bs2), counts. cbn in H0, H1. congruence. }
  rewrite assert_ok by by apply bool_decide_eq_true. cbn [mbind exec_bind].
  pose proof (check_capacities_no_panic sizes bs2) as Hcap.
  rewrite (dk_queues _ Hd _ _ _ Hq), (holds_length _ _ _ (se_holds _ _ _ _ _ _ (sp_serialized _ _ _ _ _ _ Hg))) in Hcap.
  specialize (Hcap (le_n _)).
  destruct (check_capacities sizes bs2) as [u'|e|] eqn:Hcc; cbn [mbind exec_bind]; [|done|done].
  split; [done|]. intros g [= <-].
  split; [done|]. split; [done|]. split; [done|]. split; [by eapply check_capacities_within|by exists blocks].
Qed.

Lemma batch_tails_one d n tails :
  token_tails d 0 n = Ok tails → batch_tails d 0 n 1 = Ok [tails].
Proof. intros H. unfold batch_tails. simpl. by rewrite H. Qed.

Lemma emit_one_token phases tails bs :
  foldE (emit_token phases [tails]) bs (seq 0 1) = foldE (emit_phase tails) bs (enumerate phases).
Proof. cbn. by destruct (foldE (emit_phase tails) bs (enumerate phases)). Qed.

(** The one-token graph is the batch of one token. *)
Lemma phased_create_inv d size phases :
  device_ok d → Forall phase_ok phases →
  phased_create d size phases ≠ Panic ∧
  ∀ g, phased_create d size phases = Done g →
    phases ≠ [] ∧ pg_phases g = phases ∧ within_queues d size (pg_batches g) ∧
    ∃ blocks, specialised_graph phases 1 [pg_phase_tail_signals g] (pg_final_signal g) (pg_batches g) blocks.
Proof.
  intros Hd Hp. unfold phased_create. destruct (is_empty phases) eqn:He; [done|].
  apply is_empty_false in He.
  destruct (validate_two_queue_phases d phases) as [u|e]; cbn [try_ mbind exec_bind]; [|done].
  destruct (gpu_queue_sizes d 2 size) as [sizes|e] eqn:Hq; cbn [map_err try_ mbind exec_bind]; [|done].
  destruct (token_tails d 0 (length phases)) as [tails|e] eqn:Ht; cbn [try_ mbind exec_bind]; [|done].
  apply batch_tails_one in Ht.
  destruct (new_signal d _) as [final|e] eqn:Hf; cbn [try_ mbind exec_bind]; [|done].
  apply map_err_Ok in Hf.
  destruct (tokens_emitted d Hd phases Hp He 1 0 [tails] Ht) as [Hnp Hdn].
  rewrite emit_one_token in Hnp, Hdn.
  destruct (foldE _ _ _) as [bs1|e|]; cbn [mbind exec_bind]; [|done|done].
  destruct (Hdn _ eq_refl) as (blocks & Hlen & Hsp & Hh).
  pose proof (phase_spec_tails _ _ _ Hsp) as Htsp. assert (length phases ≠ 0) as Hpos by by destruct phases.
  destruct (last_block _ _ _ _ _ _ Ht Hpos ltac:(done) Hlen Htsp) as (l & b & Hl & Hlast).
  cbn [last mbind option_bind] in Hlast. rewrite Hlast. cbn [unwrap mbind exec_bind].
  destruct (push_terminal_serialized TWO_QUEUE_DEPENDENCY (λ _, True) d 0 TWO_QUEUE_HOST_TERMINAL blocks final bs1 Hd Hh)
    with (b := b) (l := l) as [Hnp' Hdn']; [by eapply spec_blocks_ok|exact (spec_signals _ _ _ _ _ _ Ht Hpos Htsp)| |done|done|].
  { rewrite Hlen. by replace (0 + 2 * (1 * length phases)) with (2 * length phases) by lia. }
  destruct (push_terminal _ _ _ _) as [bs2|e|]; cbn [mbind exec_bind]; [|done|done].
  specialize (Hdn' _ eq_refl).
  assert (specialised_graph phases 1 [tails] final bs2 blocks) as Hg by by split.
  pose proof (check_capacities_no_panic sizes bs2) as Hcap.
  rewrite (dk_queues _ Hd _ _ _ Hq), (holds_length _ _ _ (se_holds _ _ _ _ _ _ (sp_serialized _ _ _ _ _ _ Hg))) in Hcap.
  specialize (Hcap (le_n _)).
  destruct (check_capacities sizes bs2) as [u'|e|] eqn:Hcc; cbn [mbind exec_bind]; [|done|done].
  split; [done|]. intros g [= <-].
  split; [done|]. split; [done|]. split; [by eapply check_capacities_within|by exists blocks].
Qed.
