(* ===== verification/AqlDerivedOk.v ===== *)
(** * The derived builder emits serialized blocks

    [create_derived] of [replay.rs]: dispatches carry the derived headers and
    perhaps a profiling signal, and a consolidation barrier per lane carries
    the tail signal.  When the consolidation header has its barrier bit, the
    result is a batch of [AqlBlocks].  Then the slots of the dispatches of a
    batch, the order and completion of its packets for every serialized sequence
    of blocks, and the derived batch as a whole. *)

From stdpp Require Import gmap.
From S2P Require Import Prelude BTree Packet Device AqlQueue AqlGraph AqlGraphOk AqlTwoQueue AqlBlocks AqlTwoQueueOk.

Section derived.
Context (c : derived_context).

(** The profile index after [n] more dispatches. *)
Definition advance (n index : nat) : nat :=
  if tp_profile_all_dispatches (dc_policies c) then index + n else index.

(** There are profiling signals for [n] more dispatches. *)
Definition enough_signals (n index : nat) : Prop :=
  (tp_profile_all_dispatches (dc_policies c) = true → index + n ≤ length (dc_signals c)) ∧
  (tp_profile_all_dispatches (dc_policies c) = false → covers_batch (dc_policies c) = true →
     4 ≤ length (dc_signals c)).

Context (Hsignals : handles (dc_signals c)).

Lemma dispatch_signal_ok t p lane count i index :
  enough_signals 1 index → lane < 2 →
  dispatch_signal c t p lane count i index ≠ Panic ∧
  ∀ s index', dispatch_signal c t p lane count i index = Done (s, index') →
    index' = advance 1 index ∧ (s = 0%Z ∨ s ∈ dc_signals c).
Proof using Type.
  intros [Hall Hfour] Hl. unfold dispatch_signal, advance. case_match; [done|].
  destruct (tp_profile_all_dispatches (dc_policies c)).
  - destruct (lookup_lt_is_Some_2 (dc_signals c) index) as [s Hs]; [specialize (Hall eq_refl); lia|].
    rewrite Hs. split; [done|]. intros s' index' [= <- <-]. split; [lia|right].
    by eapply list_elem_of_lookup_2.
  - destruct (covers_batch (dc_policies c)) eqn:Hcov; [|split; [done|]; intros s index' [= <- <-]; auto].
    specialize (Hfour eq_refl eq_refl). cbn [andb]. case_match.
    { destruct (lookup_lt_is_Some_2 (dc_signals c) lane) as [s Hs]; [lia|]. rewrite Hs.
      split; [done|]. intros s' index' [= <- <-]. split; [done|right]. by eapply list_elem_of_lookup_2. }
    case_match; [|split; [done|]; intros s index' [= <- <-]; auto].
    destruct (lookup_lt_is_Some_2 (dc_signals c) (2 + lane)) as [s Hs]; [lia|]. rewrite Hs.
    split; [done|]. intros s' index' [= <- <-]. split; [done|right]. by eapply list_elem_of_lookup_2.
Qed.

Lemma signal_u64 s : s = 0%Z ∨ s ∈ dc_signals c → in_u 64 s.
Proof using Hsignals.
  intros [->|Hs]; [by vm_compute|]. unfold handles in Hsignals. rewrite Forall_forall in Hsignals.
  by apply Hsignals.
Qed.

(** The first [n] packets of a lane carry the dispatches and their headers. *)
Definition derived_views (rs : list RecordedDispatch) (headers : list HeaderPolicy) (n : nat)
    (ks : list packet_view) : Prop :=
  length ks = n ∧ ∀ i r, i < n → rs !! i = Some r → ∃ header s, headers !! i = Some header ∧
    ks !! i = Some (kernel_view header r s) ∧ (s = 0%Z ∨ s ∈ dc_signals c).

Lemma dispatches_emitted t p lane rs pol E bs index :
  holds 2 E bs → lane < 2 → Forall recorded_typed rs → enough_signals (length rs) index →
  token_policies c t !! p = Some pol → length (of_lane pol lane) = length rs →
  foldE (derived_dispatch c t p lane (length rs)) (bs, index) (enumerate rs) ≠ Panic ∧
  ∀ bs' index', foldE (derived_dispatch c t p lane (length rs)) (bs, index) (enumerate rs) = Done (bs', index') →
    index' = advance (length rs) index ∧
    ∃ ks, derived_views rs (of_lane pol lane) (length rs) ks ∧ holds 2 (E ++ on_lane lane ks) bs'.
Proof using Hsignals.
  intros Hh Hl Ht Hen Hpol Hlen.
  pose (P n (st : emission_state) := n ≤ length rs ∧ st.2 = advance n index ∧
    ∃ ks, derived_views rs (of_lane pol lane) n ks ∧ holds 2 (E ++ on_lane lane ks) st.1).
  destruct (foldE_ok (λ l1 st, P (length l1) st) (derived_dispatch c t p lane (length rs)) (enumerate rs) (bs, index))
    as [Hnp Hdn].
  - split; [simpl; lia|]. split; [unfold advance; simpl; case_match; lia|].
    exists []. split; [split; [done|]; intros; simpl in *; lia|]. simpl. by rewrite app_nil_r.
  - intros l1 [i r] l2 [bs1 index1] [-> Hi]%enumerate_middle (Hle & Hix & ks & [Hkl Hks] & Hh1).
    cbn [fst snd] in *. apply lookup_lt_Some in Hi as Hlt. unfold derived_dispatch.
    assert (enough_signals 1 index1) as Hen1.
    { destruct Hen as [Ha Hf]. subst index1. unfold advance. split; [|done]. intros Hall. rewrite Hall.
      specialize (Ha Hall). lia. }
    destruct (dispatch_signal_ok t p lane (length rs) (length l1) index1 Hen1 Hl) as [Hnps Hs].
    destruct (dispatch_signal _ _ _ _ _ _ _) as [[s index2]|e|]; cbn [mbind exec_bind]; [|done|done].
    destruct (Hs _ _ eq_refl) as [-> Hsig]. rewrite Hpol. cbn [mbind option_bind].
    destruct (lookup_lt_is_Some_2 (of_lane pol lane) (length l1)) as [header Hhd]; [lia|]. rewrite Hhd.
    cbn [unwrap mbind exec_bind].
    destruct (push_kernel_holds 2 _ bs1 header s lane r Hh1 Hl (Forall_lookup_1 _ _ _ _ Ht Hi) (signal_u64 s Hsig))
      as [Hnpk Hk].
    destruct (push_kernel _ _ _ _ _) as [bs2|e|]; cbn [mbind exec_bind]; [|done|done].
    split; [done|]. intros st [= <-]. unfold P. rewrite length_app. cbn [length fst snd].
    split; [lia|]. split; [subst index1; unfold advance; case_match; lia|].
    exists (ks ++ [kernel_view header r s]). split.
    + split; [rewrite length_app; simpl; lia|]. intros j r' Hj Hr'.
      destruct (decide (j = length l1)) as [->|Hne].
      * simplify_eq. exists header, s. split; [done|]. split; [|done].
        rewrite lookup_app_r by lia. by replace (_ - _) with 0 by lia.
      * destruct (Hks j r') as (h & s' & ? & Hkj & ?); [lia|done|]. exists h, s'. split; [done|].
        split; [|done]. by apply lookup_app_l_Some.
    + unfold on_lane. rewrite fmap_app, app_assoc. by apply Hk.
  - split; [done|]. intros bs' index' Hd. destruct (Hdn _ Hd) as (_ & Hix & ks & Hks & Hh').
    rewrite length_enumerate in Hix, Hks. cbn [fst snd] in *. split; [done|]. by exists ks.
Qed.

(** The lane of a derived block: its dispatches and the consolidation. *)
Definition derived_lane_views (rs : list RecordedDispatch) (headers : list HeaderPolicy) (tail : Z)
    (l : list packet_view) : Prop :=
  ∃ ks, derived_views rs headers (length rs) ks ∧
    l = ks ++ [mkView (tp_consolidation (dc_policies c)) (BarrierAnd []) tail].

Lemma derived_lane_emitted t p lane rs pol tails E bs index :
  holds 2 E bs → lane < 2 → Forall recorded_typed rs → enough_signals (length rs) index →
  token_policies c t !! p = Some pol → length (of_lane pol lane) = length rs → tails_ok tails →
  derived_lane c t p tails (bs, index) (lane, rs) ≠ Panic ∧
  ∀ bs' index', derived_lane c t p tails (bs, index) (lane, rs) = Done (bs', index') →
    index' = advance (length rs) index ∧
    ∃ l, derived_lane_views rs (of_lane pol lane) (of_lane tails lane) l ∧
      holds 2 (E ++ on_lane lane l) bs'.
Proof using Hsignals.
  intros Hh Hl Ht Hen Hpol Hlen Hto. unfold derived_lane.
  destruct (dispatches_emitted t p lane rs pol E bs index Hh Hl Ht Hen Hpol Hlen) as [Hnp Hd].
  destruct (foldE _ _ _) as [[bs1 index1]|e|]; cbn [mbind exec_bind]; [|done|done].
  destruct (Hd _ _ eq_refl) as [-> (ks & Hks & Hh1)].
  destruct (tails_ok_lane _ lane Hto) as [Hu _].
  destruct (push_barrier_holds 2 _ bs1 (tp_consolidation (dc_policies c)) [] (of_lane tails lane) lane Hh1 Hl)
    as [Hnp' Hd']; [apply Forall_nil_2|done|].
  destruct (push_barrier _ _ _ _ _) as [bs2|e|]; cbn [mbind exec_bind]; [|done|done].
  split; [done|]. intros bs' index' [= <- <-]. split; [done|]. eexists. split; [by exists ks|].
  rewrite on_lane_app, app_assoc. by apply Hd'.
Qed.

(** ** Phases and tokens *)

Definition lane_dispatches (p : TwoQueuePhase) (lane : nat) : list RecordedDispatch :=
  of_lane (ph_zero p, ph_one p) lane.

Definition derived_spec (phases : list TwoQueuePhase) (tokens : list (list signal_pair)) (t p : nat)
    (b : block) : Prop :=
  ∃ own phase pol, tokens !! t = Some own ∧ own !! p = Some (bk_tails b) ∧ phases !! p = Some phase ∧
    token_policies c t !! p = Some pol ∧
    ∀ lane, lane < 2 → length (of_lane pol lane) = length (lane_dispatches phase lane) ∧
      derived_lane_views (lane_dispatches phase lane) (of_lane pol lane)
        (of_lane (bk_tails b) lane) (of_lane (bk_lanes b) lane).

Lemma derived_lanes_emitted t p phase pol tails E bs index :
  holds 2 E bs → phase_ok phase → tails_ok tails →
  enough_signals (length (ph_zero phase) + length (ph_one phase)) index →
  token_policies c t !! p = Some pol →
  (∀ lane, lane < 2 → length (of_lane pol lane) = length (lane_dispatches phase lane)) →
  foldE (derived_lane c t p tails) (bs, index) (enumerate (phase_lanes phase)) ≠ Panic ∧
  ∀ bs' index', foldE (derived_lane c t p tails) (bs, index) (enumerate (phase_lanes phase)) = Done (bs', index') →
    index' = advance (length (ph_zero phase) + length (ph_one phase)) index ∧
    ∃ b, bk_tails b = tails ∧
      (∀ lane, lane < 2 → derived_lane_views (lane_dispatches phase lane) (of_lane pol lane)
         (of_lane tails lane) (of_lane (bk_lanes b) lane)) ∧
      holds 2 (E ++ block_emission b) bs'.
Proof using Hsignals.
  intros Hh Hp Hto [Ha Hf] Hpol Hlen. cbn [phase_lanes enumerate length seq zip zip_with foldE].
  destruct (derived_lane_emitted t p 0 (ph_zero phase) pol tails E bs index Hh) as [Hnp0 Hd0];
    [lia|apply (phase_typed _ 0 Hp); lia|split; [intros H; specialize (Ha H); lia|done]|done|apply (Hlen 0); lia|done|].
  destruct (derived_lane c t p tails (bs, index) _) as [[bs0 index0]|e|]; cbn [mbind exec_bind]; [|done|done].
  destruct (Hd0 _ _ eq_refl) as [-> (l0 & Hl0 & Hh0)].
  destruct (derived_lane_emitted t p 1 (ph_one phase) pol tails _ bs0 (advance (length (ph_zero phase)) index) Hh0)
    as [Hnp1 Hd1];
    [lia|apply (phase_typed _ 1 Hp); lia| |done|apply (Hlen 1); lia|done|].
  { split; [|done]. intros H. specialize (Ha H). unfold advance. rewrite H. lia. }
  destruct (derived_lane c t p tails (bs0, _) _) as [[bs1 index1]|e|]; cbn [mbind exec_bind]; [|done|done].
  destruct (Hd1 _ _ eq_refl) as [-> (l1 & Hl1 & Hh1)].
  split; [done|]. intros bs' index' [= <- <-]. split; [unfold advance; case_match; lia|].
  exists (mkBlock (l0, l1) tails). split; [done|]. split.
  - intros lane Hl. assert (lane = 0 ∨ lane = 1) as [-> | ->] by lia; done.
  - unfold block_emission. cbn [bk_lanes fst snd]. by rewrite app_assoc.
Qed.

Context (d : GpuDevice) (Hd : device_ok d).
Context (phases : list TwoQueuePhase) (Hphases : Forall phase_ok phases) (Hne : phases ≠ []).
Context (count base : nat) (tokens : list (list signal_pair)).
Context (Htokens : batch_tails d base (length phases) count = Ok tokens).

Definition phase_size (p : TwoQueuePhase) : nat := length (ph_zero p) + length (ph_one p).
Definition per_token : nat := sum_list_with phase_size phases.

(** The profile index in front of phase [p] of token [t]. *)
Definition index_at (t p : nat) : nat :=
  advance (t * per_token + sum_list_with phase_size (take p phases)) 0.

Lemma index_next t p phase :
  phases !! p = Some phase → advance (phase_size phase) (index_at t p) = index_at t (S p).
Proof using Type.
  intros Hp. unfold index_at, advance. rewrite (take_S_r _ _ _ Hp), sum_list_with_app. simpl.
  case_match; [|done]. lia.
Qed.

Lemma index_token t : index_at t (length phases) = index_at (S t) 0.
Proof using Type.
  unfold index_at, advance. rewrite take_ge by lia. fold per_token. case_match; [|done]. simpl. lia.
Qed.

Context (Hall : tp_profile_all_dispatches (dc_policies c) = true → length (dc_signals c) = per_token * count).
Context (Hfour : tp_profile_all_dispatches (dc_policies c) = false →
  covers_batch (dc_policies c) = true → length (dc_signals c) = 4).
Context (Hshape : ∀ t p phase, phases !! p = Some phase → ∃ pol, token_policies c t !! p = Some pol ∧
  ∀ lane, lane < 2 → length (of_lane pol lane) = length (lane_dispatches phase lane)).

Lemma index_enough t p phase :
  t < count → phases !! p = Some phase → enough_signals (phase_size phase) (index_at t p).
Proof using All.
  intros Ht Hp. split.
  - intros H. unfold index_at, advance. rewrite H, (Hall H).
    assert (sum_list_with phase_size (take p phases) + phase_size phase ≤ per_token).
    { unfold per_token. rewrite <-(take_drop_middle _ _ _ Hp) at 2. rewrite sum_list_with_app. simpl. lia. }
    nia.
  - intros H1 H2. by rewrite Hfour.
Qed.

Local Abbreviation dep := (tp_dependency (dc_policies c)).

Lemma derived_phases_emitted t own E bs :
  t < count → tokens !! t = Some own → holds 2 E bs →
  foldE (derived_phase c t own) (bs, index_at t 0) (enumerate phases) ≠ Panic ∧
  ∀ st, foldE (derived_phase c t own) (bs, index_at t 0) (enumerate phases) = Done st →
    st.2 = index_at (S t) 0 ∧ ∃ blocks, length blocks = length phases ∧
      (∀ p b, blocks !! p = Some b → derived_spec phases tokens t p b) ∧
      holds 2 (E ++ chain dep None blocks) st.1.
Proof using All.
  intros Ht Hown Hh.
  assert (length own = length phases) as Hol by by eapply token_length.
  assert (Forall tails_ok own) as Hto by by eapply token_tails_valid.
  destruct (phases_loop fst dep phases (derived_spec phases tokens) (λ t p st, st.2 = index_at t p)
    (derived_phase c t own) t own E (bs, index_at t 0)) as [Hnp Hdone]; [| |done|done|].
  - intros p b (own' & phase & pol & Ht' & Hp & _). by simplify_eq.
  - intros p phase E' [bs' index] Hp Hix Hh'. cbn [fst snd] in *. subst index.
    pose proof (Forall_lookup_1 _ _ _ _ Hphases Hp) as Hpo.
    destruct (Hshape t p phase Hp) as (pol & Hpol & Hlen).
    destruct (lookup_lt_is_Some_2 own p) as [tails Htl]; [rewrite Hol; by eapply lookup_lt_Some|].
    pose proof (Forall_lookup_1 _ _ _ _ Hto Htl) as Htok.
    assert (∀ E bs, holds 2 E bs →
      foldE (derived_lane c t p tails) (bs, index_at t p) (enumerate (phase_lanes phase)) ≠ Panic ∧
      ∀ st, foldE (derived_lane c t p tails) (bs, index_at t p) (enumerate (phase_lanes phase)) = Done st →
        st.2 = index_at t (S p) ∧ ∃ b, derived_spec phases tokens t p b ∧
          holds 2 (E ++ block_emission b) st.1) as Hlanes.
    { intros E2 bs2 Hh2.
      destruct (derived_lanes_emitted t p phase pol tails E2 bs2 (index_at t p) Hh2 Hpo Htok
        (index_enough t p phase Ht Hp) Hpol Hlen) as [Hnp Hdn].
      split; [done|]. intros [bs3 index3] H3. destruct (Hdn _ _ H3) as (-> & b & Hb & Hv & Hh3).
      split; [by apply index_next|]. exists b. split; [|done]. exists own, phase, pol.
      rewrite Hb. split_and!; [done..|]. intros lane Hl. split; [by apply Hlen|by apply Hv]. }
    unfold derived_phase, phase_previous. rewrite Htl.
    destruct (Nat.eqb_spec p 0) as [Hz|Hz]; cbn [mbind exec_bind unwrap].
    + destruct (Hlanes E' bs' Hh') as [Hnp Hdn]. split; [done|]. intros st Hst. by apply Hdn.
    + destruct (lookup_lt_is_Some_2 own (p - 1)) as [prev Hprev]; [apply lookup_lt_Some in Htl; lia|].
      rewrite Hprev. cbn [unwrap mbind exec_bind].
      destruct (push_boundary_holds (tp_dependency (dc_policies c)) E' bs' prev Hh') as [Hnp Hdn];
        [by eapply Forall_lookup_1|].
      destruct (push_boundary _ _ _) as [bs1|e|]; cbn [mbind exec_bind]; [|done|done].
      destruct (Hlanes _ _ (Hdn _ eq_refl)) as [Hnp' Hdn']. split; [done|]. intros st Hst.
      destruct (Hdn' st Hst) as (Hix & b & Hb & Hhb). split; [done|]. exists b. split; [done|].
      by rewrite app_assoc.
  - split; [done|]. intros st Hst. destruct (Hdone st Hst) as (Hix & blocks & Hb).
    split; [by rewrite <-index_token|]. by exists blocks.
Qed.

Lemma derived_token_emitted t E bs :
  t < count → holds 2 E bs →
  derived_token c phases tokens (bs, index_at t 0) t ≠ Panic ∧
  ∀ st, derived_token c phases tokens (bs, index_at t 0) t = Done st →
    st.2 = index_at (S t) 0 ∧ ∃ blocks, length blocks = length phases ∧
      (∀ p b, blocks !! p = Some b → derived_spec phases tokens t p b) ∧
      holds 2 (E ++ chain dep (token_previous tokens t) blocks) st.1.
Proof using All.
  intros Ht Hh. pose proof (batch_tails_Ok _ _ _ _ _ Htokens) as [Hlen _].
  destruct (lookup_lt_is_Some_2 tokens t) as [own Hown]; [lia|].
  unfold derived_token, token_previous. rewrite Hown. destruct (Nat.eqb_spec t 0) as [Hz|Hz];
    cbn [mbind exec_bind unwrap].
  - by apply derived_phases_emitted.
  - destruct (lookup_lt_is_Some_2 tokens (t - 1)) as [prev Hprev]; [lia|]. rewrite Hprev.
    destruct (last_tails d Hd phases Hphases Hne count base tokens Htokens _ _ Hprev) as (p & Hp & Hpo).
    cbn [mbind option_bind]. rewrite Hp. cbn [unwrap mbind exec_bind].
    destruct (push_boundary_holds (tp_dependency (dc_policies c)) E bs p Hh Hpo) as [Hnp Hdn].
    destruct (push_boundary _ _ _) as [bs1|e|]; cbn [mbind exec_bind]; [|done|done].
    destruct (derived_phases_emitted t own _ bs1 Ht Hown (Hdn _ eq_refl)) as [Hnp' Hdn']. split; [done|].
    intros st Hst. destruct (Hdn' st Hst) as (Hix & blocks & Hbl & Hsp & Hh').
    split; [done|]. exists blocks. split; [done|]. split; [done|].
    rewrite (chain_previous dep (Some p)), app_assoc; [done|]. intros ->. by destruct phases.
Qed.

Lemma derived_tokens_emitted :
  foldE (derived_token c phases tokens) (replicate 2 [], 0) (seq 0 count) ≠ Panic ∧
  ∀ bs index, foldE (derived_token c phases tokens) (replicate 2 [], 0) (seq 0 count) = Done (bs, index) →
    index = index_at count 0 ∧
    ∃ blocks, length blocks = count * length phases ∧
      (∀ q b, blocks !! q = Some b →
         derived_spec phases tokens (q / length phases) (q mod length phases) b) ∧
      holds 2 (chain dep None blocks) bs.
Proof using All.
  destruct (tokens_loop fst dep phases (derived_spec phases tokens) (λ t p st, st.2 = index_at t p) tokens Hne)
    with (body := derived_token c phases tokens) (s := (replicate 2 ([] : list PacketImage), 0)) (count := count)
    as [Hnp Hdn].
  - intros t p b (own & phase & pol & Ht & Hp & _). by exists own.
  - intros t own Ht. by eapply token_length.
  - intros t E [bs index] Ht Hix Hh. cbn [fst snd] in *. subst index. by apply derived_token_emitted.
  - unfold index_at, advance. cbn [snd take sum_list_with]. by case_match.
  - apply holds_start.
  - split; [done|]. intros bs index Hbs. destruct (Hdn _ Hbs) as [Hix Hb]. split; [done|]. exact Hb.
Qed.
End derived.

(** ** Blocks *)

Section blocks.
Context (c : derived_context).

Definition not_profiling (s : Z) : Prop := s ∉ dc_signals c.

#[export] Instance not_profiling_dec s : Decision (not_profiling s).
Proof. unfold not_profiling. apply _. Defined.

Lemma derived_views_unowned rs headers ks lane :
  derived_views c rs headers (length rs) ks →
  filter not_profiling (completions (on_lane lane ks)) = [].
Proof.
  intros [Hlen Hks]. apply elem_of_nil_inv. intros s Hs.
  apply list_elem_of_filter in Hs as [Ho Hs]. apply elem_of_completions in Hs as (Hnz & k & l & v & Hk & <-).
  apply list_elem_of_lookup_2, list_elem_of_fmap in Hk as (v' & [= -> ->] & [i Hi]%list_elem_of_lookup).
  apply lookup_lt_Some in Hi as Hlt. destruct (lookup_lt_is_Some_2 rs i) as [r Hr]; [lia|].
  destruct (Hks i r) as (h & s & _ & Hki & [->|Hs]); [lia|done|..]; by simplify_eq/=.
Qed.

Lemma derived_block_ok phases tokens t p b :
  hdr_barrier (tp_consolidation (dc_policies c)) = true →
  derived_spec c phases tokens t p b → tails_ok (bk_tails b) →
  (∀ lane, lane < 2 → not_profiling (of_lane (bk_tails b) lane)) →
  block_ok not_profiling b.
Proof.
  intros Hbit (own & phase & pol & _ & _ & _ & _ & Hv) Ht Hown.
  assert (∀ lane, lane < 2 →
    filter not_profiling (completions (on_lane lane (of_lane (bk_lanes b) lane))) = [of_lane (bk_tails b) lane] ∧
    (∃ v, last (of_lane (bk_lanes b) lane) = Some v ∧ pv_barrier v = true ∧
      pv_completion v = of_lane (bk_tails b) lane) ∧
    ∀ v deps, v ∈ of_lane (bk_lanes b) lane → pv_kind v = BarrierAnd deps → deps = []) as Hlane.
  { intros lane Hl. destruct (Hv lane Hl) as [_ (ks & Hks & ->)].
    destruct (tails_ok_lane _ lane Ht) as [_ Hnz]. split_and!.
    - rewrite on_lane_app, completions_app, filter_app, (derived_views_unowned _ _ _ _ Hks).
      unfold on_lane. cbn [fmap list_fmap]. rewrite completions_cons_nz by done.
      cbn [pv_completion app]. rewrite filter_cons_True by by apply Hown. done.
    - rewrite last_snoc. by eexists.
    - intros v deps [Hin| ->%list_elem_of_singleton]%elem_of_app; [|by intros [= <-]].
      apply list_elem_of_lookup in Hin as [i Hi]. destruct Hks as [Hlen Hks].
      apply lookup_lt_Some in Hi as Hlt. destruct (lookup_lt_is_Some_2 (lane_dispatches phase lane) i) as [r Hr]; [lia|].
      destruct (Hks i r) as (h & s & _ & Hki & _); [lia|done|]. by simplify_eq. }
  split.
  - unfold block_emission. rewrite completions_app, filter_app.
    destruct (Hlane 0 ltac:(lia)) as [H0 _], (Hlane 1 ltac:(lia)) as [H1 _].
    cbn [of_lane Nat.eqb] in H0, H1. by rewrite H0, H1.
  - intros lane Hl. by apply Hlane.
  - intros v deps [Hin|Hin]%elem_of_app.
    + by apply (Hlane 0 ltac:(lia)).
    + by apply (Hlane 1 ltac:(lia)).
Qed.

Lemma derived_block_length phases tokens t p b :
  derived_spec c phases tokens t p b →
  ∃ phase, phases !! p = Some phase ∧
    ∀ lane, lane < 2 → lane_length lane b = length (lane_dispatches phase lane) + 1.
Proof.
  intros (own & phase & pol & _ & _ & Hp & _ & Hv). exists phase. split; [done|]. intros lane Hl.
  destruct (Hv lane Hl) as [_ (ks & [Hlen _] & Heq)]. unfold lane_length. rewrite Heq, length_app, Hlen. done.
Qed.
End blocks.

(** ** The checks of [create_derived] *)

Lemma check_policy_phases_Ok phases dispatches u :
  check_policy_phases phases dispatches = Ok u →
  ∀ p phase, phases !! p = Some phase → ∃ pol, dispatches !! p = Some pol ∧
    ∀ lane, lane < 2 → length (of_lane pol lane) = length (lane_dispatches phase lane).
Proof.
  unfold check_policy_phases. destruct (Nat.eqb_spec (length dispatches) (length phases)) as [Hlen|];
    cbn [negb guard_ mbind result_bind]; [|done].
  rewrite for_each_Ok. intros H p phase Hp.
  destruct (lookup_lt_is_Some_2 dispatches p) as [pol Hpol]; [rewrite Hlen; by eapply lookup_lt_Some|].
  exists pol. split; [done|]. intros lane Hl.
  assert ((phase, pol) ∈ zip phases dispatches) as Hin.
  { apply list_elem_of_lookup. exists p. by apply lookup_zip_Some. }
  specialize (H _ Hin). simpl in H. rewrite (for_each_Ok (check_policy_lane phase pol) [0; 1]) in H.
  assert (lane ∈ [0; 1]) as Hl2 by (assert (lane = 0 ∨ lane = 1) as [-> | ->] by lia; set_solver).
  specialize (H lane Hl2). unfold check_policy_lane in H. apply guard_Ok, negb_false_iff, Nat.eqb_eq in H.
  done.
Qed.

Lemma derived_shape_Ok phases policies signals count u :
  validate_derived_policy_shape phases policies = Ok u →
  ∀ t p phase, phases !! p = Some phase →
    ∃ pol, token_policies (mkDerived policies signals count (length phases)) t !! p = Some pol ∧
      ∀ lane, lane < 2 → length (of_lane pol lane) = length (lane_dispatches phase lane).
Proof.
  unfold validate_derived_policy_shape. rewrite for_each_Ok. intros H t p phase Hp.
  unfold token_policies. cbn [dc_policies].
  case_match; by eapply check_policy_phases_Ok; [apply H; set_solver|].
Qed.

Lemma profiling_signals_Ok d phases count policies signals frequency :
  profiling_signals d phases count (profiling_mode policies) = Ok (signals, frequency) →
  (∀ i s, signals !! i = Some s → gpu_signal d i = Ok s) ∧
  (tp_profile_all_dispatches policies = true → length signals = per_token phases * count) ∧
  (tp_profile_all_dispatches policies = false → covers_batch policies = true → length signals = 4) ∧
  (is_Some frequency → is_Some (profiling_mode policies)) ∧
  (frequency = None → signals = []).
Proof.
  unfold profiling_signals, profiling_mode.
  assert (∀ n signals, mapM (new_signal d) (seq 0 n) = Ok signals →
    length signals = n ∧ ∀ i s, signals !! i = Some s → gpu_signal d i = Ok s) as Hm.
  { intros n l H%mapM_Ok. split; [by rewrite <-(Forall2_length _ _ _ H), length_seq|].
    intros i s Hi. destruct (Forall2_lookup_r _ _ _ _ _ H Hi) as (j & Hj & Hs).
    apply lookup_seq in Hj as [-> _]. by apply map_err_Ok in Hs. }
  assert (∀ a, foldl (λ sum phase, sum + (length (ph_zero phase) + length (ph_one phase))) a phases
    = a + per_token phases) as Hsum.
  { unfold per_token, phase_size. induction phases as [|p l IH]; intros a; simpl; [lia|]. rewrite IH. lia. }
  destruct (tp_profile_all_dispatches policies).
  - intros H. apply bind_Ok_inv in H as (u & _ & H). cbn [profiling_count] in H.
    apply bind_Ok_inv in H as (n & Hn & H). apply bind_Ok_inv in H as (l & Hl & H).
    apply bind_Ok_inv in H as (f & _ & H). injection H as <- <-.
    apply ok_or_Ok, usize_mul_Some in Hn. rewrite Hsum in Hn. destruct (Hm _ _ Hl) as [Hlen Hs].
    split; [done|]. split; [intros _; by rewrite Hlen, Hn|]. split; [done|]. split; [intros _; by eexists|done].
  - destruct (covers_batch policies).
    + intros H. apply bind_Ok_inv in H as (u & _ & H). cbn [profiling_count] in H.
      apply bind_Ok_inv in H as (n & Hn & H). apply bind_Ok_inv in H as (l & Hl & H).
      apply bind_Ok_inv in H as (f & _ & H). injection H as <- <-. injection Hn as <-.
      destruct (Hm _ _ Hl) as [Hlen Hs]. split; [done|]. split; [done|]. split; [done|]. split; [intros _; by eexists|done].
    + intros [= <- <-]. split; [done|]. split; [done|]. split; [done|]. split; [by intros [? ?]|done].
Qed.

(** ** What [create_derived] builds *)

Record derived_graph (phases : list TwoQueuePhase) (count : nat) (policies : TwoQueueDerivedPolicies)
    (signals : list Z) (g : TwoQueueSerializedBatchGraph) (blocks : list block) : Prop := {
  dg_serialized :
    serialized (tp_dependency policies) (tp_terminal policies)
      (not_profiling (mkDerived policies signals count (length phases))) blocks (sg_final_signal g)
      (sg_batches g);
  dg_length : length blocks = count * length phases;
  dg_spec q b : blocks !! q = Some b →
    derived_spec (mkDerived policies signals count (length phases)) phases
      (sg_token_phase_tail_signals g) (q / length phases) (q mod length phases) b
}.

Lemma derived_counts phases count policies signals g blocks lane :
  derived_graph phases count policies signals g blocks → phases ≠ [] → lane < 2 →
  of_lane (batch_counts (sg_batches g)) lane =
    count * sum_list_with (λ p, length (lane_dispatches p lane)) phases
    + count * length phases + (count * length phases - 1) + (if lane =? 0 then 1 else 0).
Proof.
  intros [Hs Hlen Hsp] Hne Hl.
  rewrite (serialized_counts _ _ _ phases count 1 _ _ _ Hs Hne Hlen); [unfold lane_dispatches; lia| |done].
  intros q b Hq. by eapply derived_block_length, Hsp.
Qed.

Section create.
Context (d : GpuDevice) (Hd : device_ok d).
Context (signals : list Z) (Hsignals : ∀ i s, signals !! i = Some s → gpu_signal d i = Ok s).

Lemma profiling_handles : handles signals.
Proof using All. apply Forall_forall. intros s [i Hi%Hsignals]%list_elem_of_lookup. by eapply dk_signal. Qed.

(** Later signals are not profiling signals. *)
Lemma later_not_profiling policies count n i s :
  length signals ≤ i → gpu_signal d i = Ok s → not_profiling (mkDerived policies signals count n) s.
Proof using All.
  intros Hi Hs [j Hj]%list_elem_of_lookup. apply lookup_lt_Some in Hj as Hlt. simpl in *.
  apply Hsignals in Hj. pose proof (dk_fresh _ Hd _ _ _ Hs Hj). lia.
Qed.

Context (phases : list TwoQueuePhase) (Hne : phases ≠ []).
Context (count : nat) (policies : TwoQueueDerivedPolicies).
Context (Hbit : hdr_barrier (tp_consolidation policies) = true).
Context (tokens : list (list signal_pair)).
Context (Htokens : batch_tails d (length signals) (length phases) count = Ok tokens).

Local Abbreviation c := (mkDerived policies signals count (length phases)).

Lemma derived_spec_tails (blocks : list block) :
  (∀ q b, blocks !! q = Some b → derived_spec c phases tokens (q / length phases) (q mod length phases) b) →
  tails_spec tokens (length phases) blocks.
Proof using Type. intros H q b (own & phase & pol & Ht & Hp & _)%H. by exists own. Qed.

Lemma derived_blocks_ok (blocks : list block) :
  (∀ q b, blocks !! q = Some b → derived_spec c phases tokens (q / length phases) (q mod length phases) b) →
  Forall (block_ok (not_profiling c)) blocks.
Proof using All.
  intros Hsp. apply Forall_forall. intros b [q Hq]%list_elem_of_lookup.
  destruct (spec_signals _ _ _ _ _ blocks Htokens) with (q := q) (b := b) as [H0 H1];
    [by destruct phases|by apply derived_spec_tails|done|].
  eapply derived_block_ok; [done|by apply Hsp| |].
  - repeat apply Forall_cons_2; [by eapply dk_signal..|apply Forall_nil_2].
  - intros lane Hl. unfold of_lane. case_match; [eapply later_not_profiling, H0|eapply later_not_profiling, H1]; lia.
Qed.

End create.

(** The profiling signals of a graph. *)
Definition profiled (g : TwoQueueSerializedBatchGraph) : list Z :=
  match sg_derived_profiling g with Some p => dpr_signals p | None => [] end.

Lemma create_derived_inv d size count phases policies :
  device_ok d → Forall phase_ok phases → hdr_barrier (tp_consolidation policies) = true →
  create_derived d size count phases policies ≠ Panic ∧
  ∀ g, create_derived d size count phases policies = Done g →
    count ≠ 0 ∧ phases ≠ [] ∧ sg_phases g = phases ∧ within_queues d size (sg_batches g) ∧
    ∃ blocks, derived_graph phases count policies (profiled g) g blocks.
Proof.
  intros Hd Hp Hbit. unfold create_derived. destruct (is_empty phases) eqn:He; [done|].
  apply is_empty_false in He. destruct (Nat.eqb_spec count 0) as [|Hc]; [done|].
  destruct (validate_two_queue_phases d phases) as [u|e]; cbn [try_ mbind exec_bind]; [|done].
  destruct (validate_derived_policy_shape phases policies) as [u'|e] eqn:Hshape; cbn [try_ mbind exec_bind]; [|done].
  destruct (required_packet_counts phases count) as [counts|e] eqn:Hcounts; cbn [try_ mbind exec_bind]; [|done].
  apply required_counts_Ok in Hcounts as (_ & _ & Hcounts).
  destruct (usize_mul _ _) as [extra|] eqn:Hex; cbn [ok_or try_ mbind exec_bind]; [|done].
  destruct (usize_add counts.1 extra) as [zero|] eqn:Hz; cbn [ok_or try_ mbind exec_bind]; [|done].
  destruct (usize_add counts.2 extra) as [one|] eqn:Ho; cbn [ok_or try_ mbind exec_bind]; [|done].
  apply usize_mul_Some in Hex. apply usize_add_Some in Hz, Ho.
  destruct (two_queue_serialized_signal_count _ _) as [sc|e] eqn:Hsc; cbn [try_ mbind exec_bind]; [|done].
  destruct (gpu_queue_sizes d 2 size) as [sizes|e] eqn:Hq; cbn [map_err try_ mbind exec_bind]; [|done].
  destruct (profiling_signals _ _ _ _) as [[signals frequency]|e] eqn:Hprof; cbn [try_ mbind exec_bind]; [|done].
  apply profiling_signals_Ok in Hprof as (Hsig & Hall & Hfour & Hfreq & Hnone).
  destruct (batch_tails d _ _ _) as [tokens|e] eqn:Ht; cbn [try_ mbind exec_bind]; [|done].
  rewrite assert_ok by by apply Nat.eqb_eq, (signal_count_matches _ _ _ _ _ _ Ht Hsc). cbn [mbind exec_bind].
  destruct (new_signal d _) as [final|e] eqn:Hf; cbn [try_ mbind exec_bind]; [|done].
  apply map_err_Ok in Hf.
  set (c := mkDerived policies signals count (length phases)).
  destruct (derived_tokens_emitted c (profiling_handles d Hd signals Hsig) d Hd phases Hp He count _ tokens Ht Hall Hfour
    (derived_shape_Ok _ _ signals count _ Hshape)) as [Hnp Hdn].
  destruct (foldE _ _ _) as [[bs1 index]|e|]; cbn [mbind exec_bind]; [|done|done].
  destruct (Hdn _ _ eq_refl) as (Hix & blocks & Hlen & Hsp & Hh).
  assert (length phases ≠ 0) as Hpos by by destruct phases.
  pose proof (derived_spec_tails _ _ _ _ _ _ Hsp) as Htsp.
  destruct (last_block _ _ _ _ _ _ Ht Hpos Hc Hlen Htsp) as (l & b & Hl & ->).
  cbn [unwrap mbind exec_bind]. rewrite assert_ok.
  2:{ rewrite Hix. unfold index_at, advance. cbn [c dc_policies take sum_list_with].
      destruct (tp_profile_all_dispatches policies) eqn:Hpa; [|done]. apply Nat.eqb_eq. rewrite Hall, take_0 by done. simpl. lia. }
  cbn [mbind exec_bind].
  destruct (push_terminal_serialized (tp_dependency policies) (not_profiling c) d (length signals)
    (tp_terminal policies) blocks final bs1 Hd Hh) with (b := b) (l := l) as [Hnp' Hdn'];
    [by eapply derived_blocks_ok|exact (spec_signals _ _ _ _ _ _ Ht Hpos Htsp)| | |done|].
  { by rewrite Hlen. }
  { eapply (later_not_profiling d Hd signals Hsig); [|exact Hf]. lia. }
  destruct (push_terminal _ _ _ _) as [bs2|e|]; cbn [mbind exec_bind]; [|done|done].
  specialize (Hdn' _ eq_refl).
  assert (derived_graph phases count policies signals
    (mkSerialized phases tokens final bs2 count false true None) blocks) as Hg by by split.
  pose proof (λ lane, derived_counts _ _ _ _ _ _ lane Hg He) as Hcnt. cbn [sg_batches] in Hcnt.
  rewrite assert_ok.
  2:{ apply bool_decide_eq_true. pose proof (Hcnt 0 ltac:(lia)) as H0. pose proof (Hcnt 1 ltac:(lia)) as H1.
      pose proof (Hcounts 0 ltac:(lia)) as C0. pose proof (Hcounts 1 ltac:(lia)) as C1.
      destruct (batch_counts bs2) as [b0 b1], counts as [c0 c1].
      unfold lane_dispatches, of_lane in H0, H1, C0, C1. simpl in H0, H1, C0, C1, Hz, Ho. f_equal; lia. }
  cbn [mbind exec_bind].
  pose proof (check_capacities_no_panic sizes bs2) as Hcap.
  rewrite (dk_queues _ Hd _ _ _ Hq), (holds_length _ _ _ (se_holds _ _ _ _ _ _ Hdn')) in Hcap.
  specialize (Hcap (le_n _)).
  destruct (check_capacities sizes bs2) as [u2|e|] eqn:Hcc; cbn [mbind exec_bind]; [|done|done].
  assert (∃ profiling, (match frequency with
                 | None => Done None
                 | Some frequency =>
                     mode ← unwrap (profiling_mode policies);
                     Done (Some (mkProfiling signals mode frequency))
                 end : exec ReplayError _) = Done profiling ∧
            match profiling with Some p => dpr_signals p | None => [] end = signals) as (profiling & -> & Hprofiling).
  { destruct frequency as [f|].
    - destruct (Hfreq ltac:(by eexists)) as [m ->]. by eexists.
    - exists None. split; [done|]. symmetry. by apply Hnone. }
  cbn [mbind exec_bind]. split; [done|]. intros g [= <-].
  split; [done|]. split; [done|]. split; [done|]. split; [by eapply check_capacities_within|].
  exists blocks. unfold profiled. cbn [sg_derived_profiling]. rewrite Hprofiling. by split.
Qed.

(** ** Slots of dispatches *)

(** The slot of dispatch [i] of phase [p] of token [t], when every phase of a
    lane has [extra] more packets: one boundary barrier per earlier block. *)
Definition dispatch_slot (phases : list TwoQueuePhase) (extra lane t p i : nat) : nat :=
  let size phase := length (lane_dispatches phase lane) + extra in
  t * sum_list_with size phases + sum_list_with size (take p phases) + (t * length phases + p) + i.

(** Position of phase [p'] of token [t'] before phase [p] of token [t]. *)
Definition earlier (t' p' t p : nat) : Prop := t' < t ∨ (t' = t ∧ p' < p).

Section slots.
Context (phases : list TwoQueuePhase) (Hne : phases ≠ []) (count extra : nat).

(** A later block starts after the end of an earlier one and its boundary. *)
Lemma slot_before lane t p t' p' i' phase :
  lane < 2 → t < count → p < length phases → earlier t' p' t p →
  phases !! p' = Some phase → i' < length (lane_dispatches phase lane) + extra →
  S (dispatch_slot phases extra lane t' p' i') < dispatch_slot phases extra lane t p 0.
Proof using Type.
  intros Hl Ht Hp Hearlier Hphase Hi'. unfold dispatch_slot.
  set (size phase := length (lane_dispatches phase lane) + extra).
  apply lookup_lt_Some in Hphase as Hp'.
  assert (sum_list_with size (take p' phases) + size phase ≤ sum_list_with size phases) as Hle.
  { rewrite <-(take_drop_middle _ _ _ Hphase) at 2. rewrite sum_list_with_app. simpl. lia. }
  assert (i' < size phase) as Hsz by (unfold size; lia).
  destruct Hearlier as [Hlt|[-> Hlt]].
  - assert (t' * sum_list_with size phases + sum_list_with size phases ≤ t * sum_list_with size phases) by nia.
    assert (t' * length phases + length phases ≤ t * length phases) by nia. lia.
  - assert (sum_list_with size (take p' phases) + size phase ≤ sum_list_with size (take p phases)).
    { assert (take p phases = take p' phases ++ phase :: drop (S p') (take p phases)) as ->.
      { rewrite <-(take_drop_middle (take p phases) p' phase) at 1.
        - by rewrite take_take, Nat.min_l by lia.
        - by rewrite lookup_take_lt by lia. }
      rewrite sum_list_with_app. simpl. lia. }
    lia.
Qed.
Context (blocks : list block).
Context (Hlength : length blocks = count * length phases).
Context (Hblocks : ∀ q b, blocks !! q = Some b → ∃ phase, phases !! (q mod length phases) = Some phase ∧
  ∀ lane, lane < 2 → lane_length lane b = length (lane_dispatches phase lane) + extra).

Lemma block_index t p : t < count → p < length phases →
  t * length phases + p < length blocks ∧ (t * length phases + p) / length phases = t ∧
  (t * length phases + p) mod length phases = p.
Proof using Hlength.
  intros Ht Hp. split; [rewrite Hlength; nia|]. split.
  - symmetry. apply (Nat.div_unique _ _ _ p); [done|lia].
  - symmetry. apply (Nat.mod_unique _ _ t); [done|lia].
Qed.

Lemma slot_of_block lane t p i :
  lane < 2 → t < count → p < length phases →
  block_start blocks lane (t * length phases + p) + i = dispatch_slot phases extra lane t p i.
Proof using All.
  intros Hl Ht Hp. unfold block_start, dispatch_slot.
  set (size phase := length (lane_dispatches phase lane) + extra).
  cut (sum_list_with (lane_length lane) (take (t * length phases + p) blocks) =
    t * sum_list_with size phases + sum_list_with size (take p phases)); [lia|].
  assert (t * length phases + p ≤ length blocks) as Hle by (rewrite Hlength; nia).
  rewrite <-(take_drop (t * length phases) (take _ blocks)), sum_list_with_app. f_equal.
  - rewrite take_take, Nat.min_l by lia. apply sum_over_tokens; [done| |].
    + rewrite length_take. lia.
    + intros q b [Hq _]%lookup_take_Some. destruct (Hblocks q b Hq) as (phase & Hph & Hlen).
      exists phase. auto.
  - rewrite skipn_firstn_comm, Nat.add_comm, Nat.add_sub.
    assert (Forall2 (λ b a, lane_length lane b = size a) (take p (drop (t * length phases) blocks)) (take p phases)) as Hf.
    { apply Forall2_same_length_lookup. split; [rewrite !length_take, length_drop; lia|].
      intros j b a [Hj Hlt]%lookup_take_Some [Ha _]%lookup_take_Some. rewrite lookup_drop in Hj.
      destruct (Hblocks _ b Hj) as (phase & Hph & ->); [|done].
      destruct (block_index t j Ht ltac:(lia)) as (_ & _ & Hm). rewrite Hm in Hph. by simplify_eq. }
    clear -Hf. induction Hf as [|b a l k Hba _ IH]; simpl; [done|]. by rewrite Hba, IH.
Qed.

End slots.

(** ** Serialized batches as specification *)

(** What a batch promises: its phases run one after the other, token after
    token, and its final signal covers everything. *)
Record runs_in_order (phases : list TwoQueuePhase) (extra count : nat) (prog : list (list packet_view))
    (final : Z) (st : queues) : Prop := {
  ro_order t p phase lane i r t' p' phase' lane' i' r' :
    t < count → phases !! p = Some phase → lane < 2 → lane_dispatches phase lane !! i = Some r →
    phases !! p' = Some phase' → lane' < 2 → lane_dispatches phase' lane' !! i' = Some r' →
    earlier t' p' t p →
    (lane, dispatch_slot phases extra lane t p i) ∈ qs_launched st →
    (lane', dispatch_slot phases extra lane' t' p' i') ∈ qs_completed st;
  ro_final : qs_signals st final = 0%Z → all_complete prog st
}.

(** What it promises about progress. *)
Definition runs_to_end (prog : list (list packet_view)) (final : Z) (st : queues) : Prop :=
  sn (aql_step prog) st ∧
  (nf (aql_step prog) st → all_complete prog st ∧ qs_signals st final = 0%Z).

Section guarantees.
Context (dependency terminal : HeaderPolicy) (own : Z → Prop) `{∀ s, Decision (own s)}.
Context (phases : list TwoQueuePhase) (Hne : phases ≠ []) (count extra : nat).
Context (blocks : list block) (final : Z) (bs : batches).
Context (Hs : serialized dependency terminal own blocks final bs).
Context (Hlength : length blocks = count * length phases).
Context (Hblocks : ∀ q b, blocks !! q = Some b → ∃ phase, phases !! (q mod length phases) = Some phase ∧
  ∀ lane, lane < 2 → lane_length lane b = length (lane_dispatches phase lane) + extra).

Local Abbreviation E := (batch_emission dependency terminal blocks final).
Local Abbreviation prog := (program_of 2 E).

Lemma batch_views : views bs = Some prog.
Proof using Hs. apply (se_holds _ _ _ _ _ _ Hs). Qed.

Lemma dispatch_packet t p phase lane i r v b :
  t < count → phases !! p = Some phase → lane < 2 → lane_dispatches phase lane !! i = Some r →
  blocks !! (t * length phases + p) = Some b → of_lane (bk_lanes b) lane !! i = Some v →
  packet_at prog (lane, dispatch_slot phases extra lane t p i) = Some v.
Proof using All.
  intros Ht Hp Hl Hi Hb Hv. pose proof (lookup_lt_Some _ _ _ Hp) as Hlt.
  rewrite <-(slot_of_block phases Hne count extra blocks Hlength Hblocks lane t p i Hl Ht Hlt).
  by apply (block_slot dependency terminal blocks final _ b).
Qed.

Lemma batch_runs_in_order st :
  rtc (aql_step prog) queues_start st → runs_in_order phases extra count prog final st.
Proof using All.
  intros Hst. destruct Hs as [_ Hok Hbne Hown Hnz Hnd]. split.
  2:{ by apply (batch_final dependency terminal own). }
  intros t p phase lane i r t' p' phase' lane' i' r' Ht Hp Hl Hi Hp' Hl' Hi' Hearlier Hlaunched.
  pose proof (lookup_lt_Some _ _ _ Hp) as Hlt. pose proof (lookup_lt_Some _ _ _ Hp') as Hlt'.
  assert (t' < count) as Ht' by (destruct Hearlier; lia).
  destruct (block_index phases count blocks Hlength t p Ht Hlt) as (Hq & _ & _).
  destruct (block_index phases count blocks Hlength t' p' Ht' Hlt') as (Hq' & _ & Hm').
  destruct (lookup_lt_is_Some_2 blocks _ Hq') as [b' Hb'].
  eapply (blocks_in_order dependency terminal own blocks final); [done..|exact Hq|exact Hlaunched| | |].
  - rewrite <-(slot_of_block phases Hne count extra blocks Hlength Hblocks lane t p i) by done. lia.
  - destruct (Hblocks _ _ Hb') as (ph & Hph & Hlen). rewrite Hm', Hp' in Hph. injection Hph as <-.
    destruct (lookup_lt_is_Some_2 (of_lane (bk_lanes b') lane') i') as [v Hv].
    { specialize (Hlen lane' Hl'). unfold lane_length in Hlen. rewrite Hlen.
      apply lookup_lt_Some in Hi'. lia. }
    exists v. by apply (dispatch_packet t' p' phase' lane' i' r' v b').
  - pose proof (slot_before phases count extra lane' t p t' p' i' phase' Hl' Ht Hlt Hearlier Hp') as Hb.
    rewrite <-(slot_of_block phases Hne count extra blocks Hlength Hblocks lane' t p 0) in Hb by done.
    apply lookup_lt_Some in Hi'. lia.
Qed.

Lemma batch_runs_to_end st : rtc (aql_step prog) queues_start st → runs_to_end prog final st.
Proof using Hs.
  intros Hst. destruct Hs as [[_ Hlanes] Hok Hbne Hown Hnz Hnd].
  destruct (queues_complete 2 E Hlanes) with (st := st) as [Hsn Hall].
  { by eapply (batch_ordered dependency terminal own). }
  { done. }
  split; [done|]. intros Hnf. specialize (Hall Hnf). split; [done|].
  by eapply (batch_complete_final dependency terminal own).
Qed.
End guarantees.

(** ** The specialised graphs *)

Lemma specialised_blocks phases count tokens final bs blocks :
  specialised_graph phases count tokens final bs blocks →
  ∀ q b, blocks !! q = Some b → ∃ phase, phases !! (q mod length phases) = Some phase ∧
    ∀ lane, lane < 2 → lane_length lane b = length (lane_dispatches phase lane) + 0.
Proof.
  intros Hg q b Hq. destruct (sp_spec _ _ _ _ _ _ Hg q b Hq) as (own & tails & phase & _ & _ & Hp & ->).
  exists phase. split; [done|]. intros lane Hl. rewrite phase_block_length by done. unfold lane_dispatches. lia.
Qed.

Lemma derived_blocks phases count policies signals g blocks :
  derived_graph phases count policies signals g blocks →
  ∀ q b, blocks !! q = Some b → ∃ phase, phases !! (q mod length phases) = Some phase ∧
    ∀ lane, lane < 2 → lane_length lane b = length (lane_dispatches phase lane) + 1.
Proof. intros Hg q b Hq. by eapply derived_block_length, (dg_spec _ _ _ _ _ _ Hg). Qed.

(** Between a dispatch of a lane and a later block on a lane lie the
    consolidation packet of the dispatch's block and the boundary packet of the
    later block, and the boundary packet completes after the consolidation. *)
Record fenced_between (policies : TwoQueueDerivedPolicies) (prog : list (list packet_view))
    (l l' : packet_id) (c b : nat) : Prop := {
  fn_consolidation : l.2 < c ∧ ∃ tail,
    packet_at prog (l.1, c) = Some (mkView (tp_consolidation policies) (BarrierAnd []) tail);
  fn_boundary : b < l'.2 ∧ ∃ deps,
    packet_at prog (l'.1, b) = Some (mkView (tp_dependency policies) (BarrierAnd deps) 0);
  fn_distinct : (l.1, c) ≠ (l'.1, b);
  fn_order st : rtc (aql_step prog) queues_start st →
    (l'.1, b) ∈ qs_completed st → (l.1, c) ∈ qs_completed st
}.

Lemma derived_fence phases count policies signals g blocks t p phase lane i r t' p' lane' i' :
  derived_graph phases count policies signals g blocks → phases ≠ [] →
  phases !! p = Some phase → lane < 2 → lane_dispatches phase lane !! i = Some r →
  t' < count → p' < length phases → lane' < 2 → earlier t p t' p' →
  ∃ c b, fenced_between policies
    (program_of 2 (batch_emission (tp_dependency policies) (tp_terminal policies) blocks (sg_final_signal g)))
    (lane, dispatch_slot phases 1 lane t p i) (lane', dispatch_slot phases 1 lane' t' p' i') c b.
Proof.
  intros Hg Hne Hph Hl Hi Ht' Hp' Hl' He. pose proof (derived_blocks _ _ _ _ _ _ Hg) as Hblocks.
  destruct Hg as [[_ Hok Hbne Hown Hnz Hnd] Hlen Hsp].
  pose proof (lookup_lt_Some _ _ _ Hph) as Hp. pose proof (lookup_lt_Some _ _ _ Hi) as Hil.
  assert (t < count) as Ht by (destruct He; lia).
  destruct (block_index phases count blocks Hlen t p Ht Hp) as (Hq & Hqd & Hqm).
  destruct (block_index phases count blocks Hlen t' p' Ht' Hp') as (Hq' & _).
  destruct (lookup_lt_is_Some_2 blocks _ Hq) as [b Hb].
  destruct (Hsp _ _ Hb) as (own & phase' & pol & _ & _ & Hph' & _ & Hv). rewrite Hqm, Hph in Hph'.
  injection Hph' as <-. destruct (Hv lane Hl) as [_ (ks & [Hkl _] & Hlane)].
  set (k := length (lane_dispatches phase lane)).
  assert (∃ q', t' * length phases + p' = S q') as [q' Eq].
  { exists (pred (t' * length phases + p')). destruct He; nia. }
  pose proof (slot_of_block phases Hne count 1 blocks Hlen Hblocks lane t p k Hl Ht Hp) as Hc.
  pose proof (slot_of_block phases Hne count 1 blocks Hlen Hblocks lane' t' p' 0 Hl' Ht' Hp') as Hs'.
  pose proof (slot_before phases count 1 lane t' p' t p k phase Hl Ht' Hp' He Hph ltac:(lia)) as Hbefore.
  rewrite <-(slot_of_block phases Hne count 1 blocks Hlen Hblocks lane t' p' 0 Hl Ht' Hp') in Hbefore.
  rewrite Nat.add_0_r in Hbefore, Hs'. rewrite Eq in Hbefore, Hs', Hq'.
  set (dep := tp_dependency policies) in *. set (term := tp_terminal policies).
  set (fin := sg_final_signal g) in *.
  assert (packet_at (program_of 2 (batch_emission dep term blocks fin)) (lane, dispatch_slot phases 1 lane t p k) =
    Some (mkView (tp_consolidation policies) (BarrierAnd []) (of_lane (bk_tails b) lane))) as Hcons.
  { rewrite <-Hc. apply (block_slot dep term blocks fin _ b); [exact Hb|done|].
    rewrite Hlane. unfold k. rewrite <-Hkl. by apply list_lookup_middle. }
  exists (dispatch_slot phases 1 lane t p k), (block_start blocks lane' (S q') - 1).
  split; cbn [fst snd].
  - split; [unfold dispatch_slot; lia|]. by eexists.
  - split; [unfold dispatch_slot in *; lia|].
    destruct (boundary_packet dep term _ blocks fin Hok Hbne Hown Hnz Hnd q' lane' Hq' Hl') as [x ->]. by eexists.
  - intros [= <- Heq]. unfold dispatch_slot in *. lia.
  - intros st Hst Hbc. eapply (boundary_in_order dep term _ blocks fin); [done..|exact Hq'|exact Hl'|exact Hbc| |exact Hbefore].
    by eexists.
Qed.

(** The header that the policies give to a dispatch of a token. *)
Definition header_of (policies : TwoQueueDerivedPolicies) (t p lane i : nat) : option HeaderPolicy :=
  phase ← (if t =? 0 then tp_first_dispatches policies else tp_repeated_dispatches policies) !! p;
  of_lane phase lane !! i.

(** Everything a created derived batch guarantees. *)
Record derived_batch (d : GpuDevice) (size : Z) (count : nat) (phases : list TwoQueuePhase)
    (policies : TwoQueueDerivedPolicies) (g : TwoQueueSerializedBatchGraph)
    (prog : list (list packet_view)) : Prop := {
  db_count : count ≠ 0;
  db_phases : sg_phases g = phases;
  db_views : views (sg_batches g) = Some prog;
  db_within : within_queues d size (sg_batches g);
  db_dispatch t p phase lane i r : t < count → phases !! p = Some phase → lane < 2 →
    lane_dispatches phase lane !! i = Some r →
    ∃ header s, header_of policies t p lane i = Some header ∧
      packet_at prog (lane, dispatch_slot phases 1 lane t p i) =
        Some (kernel_view header r s);
  db_other lane s v : packet_at prog (lane, s) = Some v →
    is_barrier_and v ∨ ∃ t p phase i r, t < count ∧ phases !! p = Some phase ∧ lane < 2 ∧
      lane_dispatches phase lane !! i = Some r ∧ s = dispatch_slot phases 1 lane t p i;
  db_fence t p phase lane i r t' p' lane' i' :
    phases !! p = Some phase → lane < 2 → lane_dispatches phase lane !! i = Some r →
    t' < count → p' < length phases → lane' < 2 → earlier t p t' p' →
    ∃ c b, fenced_between policies prog (lane, dispatch_slot phases 1 lane t p i)
      (lane', dispatch_slot phases 1 lane' t' p' i') c b;
  db_order st : rtc (aql_step prog) queues_start st →
    runs_in_order phases 1 count prog (sg_final_signal g) st;
  db_end st : rtc (aql_step prog) queues_start st → runs_to_end prog (sg_final_signal g) st;
  db_counts lane : lane < 2 → of_lane (batch_counts (sg_batches g)) lane =
    count * sum_list_with (λ p, length (lane_dispatches p lane)) phases
    + count * length phases + (count * length phases - 1) + (if lane =? 0 then 1 else 0)
}.

Lemma derived_batch_ok d size count phases policies :
  device_ok d → Forall phase_ok phases → hdr_barrier (tp_consolidation policies) = true →
  create_derived d size count phases policies ≠ Panic ∧
  ∀ g, create_derived d size count phases policies = Done g →
    ∃ prog, derived_batch d size count phases policies g prog.
Proof.
  intros Hd Hp Hbit. destruct (create_derived_inv d size count phases policies Hd Hp Hbit) as [Hnp Hinv].
  split; [done|]. intros g (Hc & Hne & Hsp' & Hwithin & blocks & Hg)%Hinv.
  pose proof (derived_blocks _ _ _ _ _ _ Hg) as Hblocks.
  pose proof (λ lane, derived_counts _ _ _ _ _ _ lane Hg Hne) as Hcnt. pose proof Hg as Hgraph. destruct Hg as [Hs Hlen Hsp].
  eexists. split; [done|done|exact (batch_views _ _ _ blocks _ _ Hs)|done| | | | | |done].
  - intros t p phase lane i r Ht Hph Hl Hi. pose proof (lookup_lt_Some _ _ _ Hph) as Hlt.
    destruct (block_index phases count blocks Hlen t p Ht Hlt) as (Hq & Hqd & Hqm).
    destruct (lookup_lt_is_Some_2 blocks _ Hq) as [b Hb].
    destruct (Hsp _ _ Hb) as (own & phase' & pol & _ & _ & Hph' & Hpol & Hv). rewrite Hqm, Hph in Hph'.
    injection Hph' as <-. rewrite Hqd, Hqm in Hpol. destruct (Hv lane Hl) as [_ (ks & [Hkl Hks] & Hlane)].
    apply lookup_lt_Some in Hi as Hil. destruct (Hks i r Hil Hi) as (header & s & Hh & Hk & _).
    exists header, s. split.
    + unfold header_of. unfold token_policies in Hpol. cbn [dc_policies] in Hpol. by rewrite Hpol.
    + apply (dispatch_packet _ _ _ phases Hne count 1 blocks _ _ Hs Hlen Hblocks t p phase lane i r
        _ b Ht Hph Hl Hi Hb). rewrite Hlane. by apply lookup_app_l_Some.
  - intros lane s v Hv. pose proof Hs as [_ _ Hbne _ _ _].
    destruct (batch_packet _ _ blocks _ Hbne lane s v Hv) as [|(q & b & i & Hq & Hl & Hi & ->)]; [by left|].
    destruct (Hsp _ _ Hq) as (own & phase & pol & _ & _ & Hph & _ & Hlanes).
    destruct (Hlanes lane Hl) as [_ (ks & [Hkl Hks] & Hlane)]. rewrite Hlane in Hi.
    assert (length phases ≠ 0) as Hnz by by destruct phases.
    apply lookup_lt_Some in Hq as Hlt. rewrite Hlen in Hlt.
    assert (q / length phases < count) as Ht.
    { apply Nat.Div0.div_lt_upper_bound. lia. }
    apply lookup_app_Some in Hi as [Hi|[_ Hi]].
    + right. apply lookup_lt_Some in Hi as Hil. rewrite Hkl in Hil.
      destruct (lookup_lt_is_Some_2 _ _ Hil) as [r Hr].
      exists (q / length phases), (q mod length phases), phase, i, r. split_and!; [done..|].
      rewrite <-(slot_of_block phases Hne count 1 blocks Hlen Hblocks) by (done || by eapply lookup_lt_Some).
      f_equal. f_equal. rewrite Nat.mul_comm. by apply Nat.div_mod.
    + left. apply list_elem_of_lookup_2, list_elem_of_singleton in Hi as ->. by eexists.
  - intros. by eapply derived_fence.
  - intros st Hst. by apply (batch_runs_in_order _ _ _ phases Hne count 1 blocks _ (sg_batches g) Hs).
  - intros st Hst. by apply (batch_runs_to_end _ _ _ blocks _ (sg_batches g) Hs).
Qed.
