(* ===== verification/AqlTwoQueueClaims.v ===== *)
(** * The guarantees of the two-queue graphs

    Order, completion and packet counts of the specialised and the derived
    batches, the equivalence of the one-token graph with the batch of one
    token, and concrete instances. *)

From stdpp Require Import gmap.
From S2P Require Import Prelude BTree Packet Device AqlQueue AqlGraph AqlGraphOk AqlTwoQueue AqlBlocks AqlTwoQueueOk AqlDerivedOk.

(** Specialised two-queue batches run token after token, phase after
    phase.  Creation never panics, not even on its debug assertions; when it
    succeeds, dispatch [i] of a phase stands in its own slot of its own queue,
    no queue overflows, and in every interleaving a launched dispatch finds
    all dispatches of earlier phases and earlier tokens on both queues
    complete; the final signal covers the batch, and every run ends with it. *)
Theorem serialized_tokens_in_order d size count phases :
  device_ok d → Forall phase_ok phases →
  serialized_create d size count phases ≠ Panic ∧
  ∀ g, serialized_create d size count phases = Done g →
  ∃ prog, views (sg_batches g) = Some prog ∧ within_queues d size (sg_batches g) ∧
    (∀ t p phase lane i r, t < count → phases !! p = Some phase → lane < 2 →
       lane_dispatches phase lane !! i = Some r →
       ∃ s, packet_at prog (lane, dispatch_slot phases 0 lane t p i) = Some (kernel_view TWO_QUEUE_DISPATCH r s)) ∧
    ∀ st, rtc (aql_step prog) queues_start st →
      runs_in_order phases 0 count prog (sg_final_signal g) st ∧
      runs_to_end prog (sg_final_signal g) st.
Proof.
  intros Hd Hp. destruct (serialized_create_inv d size count phases Hd Hp) as [Hnp Hinv].
  split; [done|]. intros g (Hc & Hne & _ & Hwithin & blocks & Hg)%Hinv.
  pose proof (specialised_blocks _ _ _ _ _ _ Hg) as Hblocks. destruct Hg as [Hs Hlen Hsp].
  exists (program_of 2 (batch_emission TWO_QUEUE_DEPENDENCY TWO_QUEUE_HOST_TERMINAL blocks (sg_final_signal g))).
  split; [exact (batch_views TWO_QUEUE_DEPENDENCY TWO_QUEUE_HOST_TERMINAL (λ _, True) blocks _ _ Hs)|]. split; [done|]. split.
  - intros t p phase lane i r Ht Hph Hl Hi. pose proof (lookup_lt_Some _ _ _ Hph) as Hlt.
    destruct (block_index phases count blocks Hlen t p Ht Hlt) as (Hq & Hqd & Hqm).
    destruct (lookup_lt_is_Some_2 blocks _ Hq) as [b Hb].
    destruct (Hsp _ _ Hb) as (own & tails & phase' & _ & _ & Hph' & ->). rewrite Hqm, Hph in Hph'.
    injection Hph' as <-. eexists.
    apply (dispatch_packet TWO_QUEUE_DEPENDENCY TWO_QUEUE_HOST_TERMINAL (λ _, True) phases Hne count 0 blocks _ _ Hs Hlen Hblocks t p phase lane i r
      _ _ Ht Hph Hl Hi Hb).
    assert (of_lane (bk_lanes (phase_block phase tails)) lane = lane_views (lane_dispatches phase lane) (of_lane tails lane)) as ->.
    { assert (lane = 0 ∨ lane = 1) as [-> | ->] by lia; done. }
    unfold lane_views. rewrite list_lookup_fmap, (lookup_enumerate _ _ _ Hi). done.
  - intros st Hst. split.
    + by apply (batch_runs_in_order TWO_QUEUE_DEPENDENCY TWO_QUEUE_HOST_TERMINAL (λ _, True) phases Hne count 0 blocks _ (sg_batches g)).
    + by apply (batch_runs_to_end TWO_QUEUE_DEPENDENCY TWO_QUEUE_HOST_TERMINAL (λ _, True) blocks _ (sg_batches g)).
Qed.

Lemma one_token_signal_count phases counts :
  Forall phase_ok phases → required_packet_counts phases 1 = Ok counts →
  ∃ sc, two_queue_serialized_signal_count (length phases) 1 = Ok sc.
Proof.
  intros Hp Hcounts. pose proof (required_counts_Ok _ _ _ Hcounts) as (Hne & _ & Hc).
  assert (length phases ≤ sum_list_with (λ p, length (of_lane (ph_zero p, ph_one p) 0)) phases) as Hsum.
  { clear -Hp. induction Hp as [|p l Hp _ IH]; simpl; [lia|].
    pose proof (po_lane _ Hp 0 ltac:(lia)) as H0. cbn in H0. destruct (ph_zero p); [done|]. simpl. lia. }
  assert (Z.of_nat counts.1 ≤ umax 64)%Z as Hmax.
  { unfold required_packet_counts in Hcounts. destruct (is_empty phases); [done|].
    unfold two_queue_serialized_batch_counts in Hcounts. cbn [Nat.eqb] in Hcounts.
    destruct (is_empty (lane_counts phases)); [done|].
    apply bind_Ok_inv in Hcounts as (pb & _ & H). apply bind_Ok_inv in H as (z & Hz & H).
    apply bind_Ok_inv in H as (o & _ & H). apply Ok_inj in H as <-. unfold serialized_lane_count in Hz.
    apply bind_Ok_inv in Hz as (per & _ & Hz). apply ok_or_Ok in Hz.
    apply bind_Some in Hz as (a & _ & Hz). apply bind_Some in Hz as (b & _ & Hz).
    apply bind_Some in Hz as (k & _ & Hz). unfold usize_add in Hz. cbn [Nat.eqb] in Hz.
    destruct (Z.leb_spec (Z.of_nat (k + 1)) (umax 64)) as [Hle|]; [|done]. by injection Hz as <-. }
  specialize (Hc 0 ltac:(lia)). cbn [of_lane Nat.eqb] in Hc, Hsum. rewrite Hc in Hmax.
  assert (length phases ≠ 0) by by destruct phases.
  unfold two_queue_serialized_signal_count, usize_mul, usize_add. cbn [Nat.eqb]. unfold umax in *.
  rewrite (proj2 (Z.leb_le _ _)) by lia. cbn [mbind option_bind].
  rewrite (proj2 (Z.leb_le _ _)) by lia. cbn [mbind option_bind].
  rewrite (proj2 (Z.leb_le _ _)) by lia. by eexists.
Qed.

(** The one-token graph is the batch of one token: when the packet counts
    of one token do not overflow, both constructors have the same outcome, the
    same errors, and on success the same packets and signals. *)
Theorem phased_is_one_token d size phases counts :
  device_ok d → Forall phase_ok phases → required_packet_counts phases 1 = Ok counts →
  match phased_create d size phases with
  | Done g => ∃ g', serialized_create d size 1 phases = Done g' ∧
      sg_batches g' = pg_batches g ∧ sg_final_signal g' = pg_final_signal g ∧
      sg_token_phase_tail_signals g' = [pg_phase_tail_signals g] ∧ batch_counts (pg_batches g) = counts
  | Fail e => serialized_create d size 1 phases = Fail e
  | Panic => False
  end.
Proof.
  intros Hd Hp Hcounts. destruct (serialized_create_inv d size 1 phases Hd Hp) as [Hnp _].
  destruct (one_token_signal_count phases counts Hp Hcounts) as [sc Hsc].
  revert Hnp. unfold phased_create, serialized_create. destruct (is_empty phases); [done|].
  destruct (validate_two_queue_phases d phases) as [u|e]; cbn [try_ mbind exec_bind]; [|done].
  rewrite Hcounts, Hsc. cbn [try_ mbind exec_bind].
  destruct (gpu_queue_sizes d 2 size) as [sizes|e]; cbn [map_err try_ mbind exec_bind]; [|done].
  destruct (token_tails d 0 (length phases)) as [tails|e] eqn:Ht; cbn [try_ mbind exec_bind].
  2:{ assert (batch_tails d 0 (length phases) 1 = Err e) as ->; [|done].
      unfold batch_tails. simpl. by rewrite Ht. }
  rewrite (batch_tails_one _ _ _ Ht). cbn [try_ mbind exec_bind].
  rewrite assert_ok.
  2:{ apply Nat.eqb_eq, (signal_count_matches d 0 (length phases) 1); [by apply batch_tails_one|done]. }
  rewrite Nat.mul_1_l. cbn [mbind exec_bind].
  destruct (new_signal d _) as [final|e]; cbn [try_ mbind exec_bind]; [|done].
  rewrite emit_one_token.
  destruct (foldE (emit_phase tails) _ _) as [bs1|e|]; cbn [mbind exec_bind]; [|done|by intros []].
  cbn [last mbind option_bind]. destruct (last tails) as [lt|]; cbn [unwrap mbind exec_bind]; [|by intros []].
  destruct (push_terminal _ _ _ _) as [bs2|e|]; cbn [mbind exec_bind]; [|done|by intros []].
  case_bool_decide as Hbc; cbn [assert_ unwrap mbind exec_bind]; [|by intros []].
  destruct (check_capacities sizes bs2) as [u'|e|]; cbn [mbind exec_bind]; [|done|by intros []].
  intros _. eexists. split; [done|]. done.
Qed.

(** ** The derived batch *)

(** Derived batches keep the order of phases although their dispatches
    carry no barrier bits.  When the consolidation header has its barrier bit,
    creation never panics, not even on its debug assertions; on success
    dispatch [i] of a phase stands in its own slot with the header that the
    first or the repeated policies give it, and in every interleaving a
    launched dispatch finds all dispatches of earlier phases and earlier
    tokens on both queues complete, whatever the dispatch headers; the final
    signal covers the batch. *)
Theorem derived_batch_in_order d size count phases policies :
  device_ok d → Forall phase_ok phases → hdr_barrier (tp_consolidation policies) = true →
  create_derived d size count phases policies ≠ Panic ∧
  ∀ g, create_derived d size count phases policies = Done g →
  ∃ prog, views (sg_batches g) = Some prog ∧ within_queues d size (sg_batches g) ∧
    (∀ t p phase lane i r, t < count → phases !! p = Some phase → lane < 2 →
       lane_dispatches phase lane !! i = Some r →
       ∃ header s, header_of policies t p lane i = Some header ∧
         packet_at prog (lane, dispatch_slot phases 1 lane t p i) =
           Some (kernel_view header r s)) ∧
    ∀ st, rtc (aql_step prog) queues_start st →
      runs_in_order phases 1 count prog (sg_final_signal g) st.
Proof.
  intros Hd Hp Hbit. destruct (derived_batch_ok d size count phases policies Hd Hp Hbit) as [Hnp Hok].
  split; [done|]. intros g Hg. destruct (Hok g Hg) as [prog []]. by exists prog.
Qed.

(** Derived batches always complete: in every interleaving the queues take
    finitely many steps and stop only when every packet is complete and the
    final signal reads zero; the queues publish exactly the number of packets
    the code computed, one consolidation per phase and token on each queue
    included. *)
Theorem derived_batch_completes d size count phases policies g :
  device_ok d → Forall phase_ok phases → hdr_barrier (tp_consolidation policies) = true →
  create_derived d size count phases policies = Done g →
  ∃ prog, views (sg_batches g) = Some prog ∧
    (∀ st, rtc (aql_step prog) queues_start st → runs_to_end prog (sg_final_signal g) st) ∧
    ∀ lane, lane < 2 → of_lane (batch_counts (sg_batches g)) lane =
      count * sum_list_with (λ p, length (lane_dispatches p lane)) phases
      + count * length phases + (count * length phases - 1) + (if lane =? 0 then 1 else 0).
Proof.
  intros Hd Hp Hbit Hg. destruct (derived_batch_ok d size count phases policies Hd Hp Hbit) as [_ Hok].
  destruct (Hok g Hg) as [prog []]. by exists prog.
Qed.

(** ** Concrete instances *)

(** Two roots and two children per queue. *)
Definition sample_phase (base : Z) : TwoQueuePhase :=
  mkPhase [sample_dispatch 0 base []; sample_dispatch 0 (base + 64) []]
          [sample_dispatch 1 (base + 128) []; sample_dispatch 1 (base + 192) []].

Definition sample_phases : list TwoQueuePhase := [sample_phase 0x1000; sample_phase 0x2000].

Lemma sample_phases_ok : Forall phase_ok sample_phases.
Proof.
  assert (∀ base, in_u 64 base → in_u 64 (base + 192) → phase_ok (sample_phase base)) as H.
  { intros base H0 H1. unfold in_u in *. split.
    - intros lane Hl. assert (lane = 0 ∨ lane = 1) as [-> | ->] by lia; done.
    - intros lane r Hl Hr. assert (lane = 0 ∨ lane = 1) as [-> | ->] by lia; cbn in Hr;
        repeat (apply elem_of_cons in Hr as [->|Hr]; [split; [done|]; split; [done|];
          apply sample_dispatch_typed; unfold in_u; lia|]); by apply elem_of_nil in Hr. }
  repeat (apply Forall_cons_2; [apply H; by vm_compute|]). apply Forall_nil_2.
Qed.

Example sample_phase_builds :
  phase_new (ph_zero (sample_phase 0x1000)) (ph_one (sample_phase 0x1000)) = Ok (sample_phase 0x1000).
Proof. done. Qed.

(** The two queues of the two-phase token: six packets and five. *)
Example sample_phased_counts :
  match phased_create sample_gpu 64 sample_phases with
  | Done g => batch_counts (pg_batches g) = (6, 5) ∧ two_queue_batch_counts (lane_counts sample_phases) = (6, 5)
  | _ => False
  end.
Proof. by vm_compute. Qed.

Lemma serialized_tokens_in_order_witness :
  ∃ g prog, serialized_create sample_gpu 64 2 sample_phases = Done g ∧
    runs_to_end prog (sg_final_signal g) queues_start ∧
    ∀ st, rtc (aql_step prog) queues_start st →
      (0, dispatch_slot sample_phases 0 0 1 0 0) ∈ qs_launched st →
      (1, dispatch_slot sample_phases 0 1 0 1 1) ∈ qs_completed st.
Proof.
  destruct (serialized_tokens_in_order sample_gpu 64 2 sample_phases sample_gpu_ok sample_phases_ok) as [_ H].
  destruct (serialized_create sample_gpu 64 2 sample_phases) as [g|e|] eqn:E;
    [|by vm_compute in E|by vm_compute in E].
  destruct (H g eq_refl) as (prog & _ & _ & _ & Hrun). exists g, prog. split; [done|].
  split; [apply (Hrun queues_start (rtc_refl _ _))|]. intros st Hst. destruct (Hrun st Hst) as [[Hord _] _].
  eapply (Hord 1 0 _ 0 0 _ 0 1 _ 1 1); [lia|done|lia|done|done|lia|done|left; lia].
Defined.

Lemma phased_is_one_token_witness :
  ∃ g g', phased_create sample_gpu 64 sample_phases = Done g ∧
    serialized_create sample_gpu 64 1 sample_phases = Done g' ∧ sg_batches g' = pg_batches g.
Proof.
  pose proof (phased_is_one_token sample_gpu 64 sample_phases (6, 5) sample_gpu_ok sample_phases_ok
    ltac:(by vm_compute)) as H.
  destruct (phased_create sample_gpu 64 sample_phases) as [g|e|] eqn:E;
    [|by vm_compute in E|by vm_compute in E].
  destruct H as (g' & Hg' & Hb & _). by exists g, g'.
Defined.

(** Barrier-free dispatches, an execution-only consolidation. *)
Definition sample_policies : TwoQueueDerivedPolicies :=
  let free := mkHeader false FenceNone FenceNone in
  mkPolicies [([mkHeader false FenceSystem FenceNone; free], [mkHeader false FenceSystem FenceNone; free]);
              ([free; free], [free; free])]
    [([free; free], [free; free]); ([free; free], [free; free])]
    (mkHeader true FenceNone FenceNone) TWO_QUEUE_DEPENDENCY TWO_QUEUE_HOST_TERMINAL false.

Lemma derived_batch_in_order_witness :
  ∃ g prog, create_derived sample_gpu 64 2 sample_phases sample_policies = Done g ∧
    (∃ s, packet_at prog (1, dispatch_slot sample_phases 1 1 1 0 1) =
       Some (kernel_view (mkHeader false FenceNone FenceNone) (sample_dispatch 1 0x10c0 []) s)) ∧
    ∀ st, rtc (aql_step prog) queues_start st →
      (0, dispatch_slot sample_phases 1 0 1 0 0) ∈ qs_launched st →
      (1, dispatch_slot sample_phases 1 1 0 1 1) ∈ qs_completed st.
Proof.
  destruct (derived_batch_in_order sample_gpu 64 2 sample_phases sample_policies sample_gpu_ok
    sample_phases_ok eq_refl) as [_ H].
  destruct (create_derived sample_gpu 64 2 sample_phases sample_policies) as [g|e|] eqn:E;
    [|by vm_compute in E|by vm_compute in E].
  destruct (H g eq_refl) as (prog & _ & _ & Hslot & Hrun). exists g, prog. split; [done|]. split.
  - destruct (Hslot 1 0 _ 1 1 (sample_dispatch 1 0x10c0 []) ltac:(lia) eq_refl ltac:(lia) eq_refl)
      as (header & s & [= <-] & Hs). by exists s.
  - intros st Hst. destruct (Hrun st Hst) as [Hord _].
    eapply (Hord 1 0 _ 0 0 _ 0 1 _ 1 1); [lia|done|lia|done|done|lia|done|left; lia].
Defined.

Lemma derived_batch_completes_witness :
  ∃ g prog, create_derived sample_gpu 64 2 sample_phases sample_policies = Done g ∧
    runs_to_end prog (sg_final_signal g) queues_start ∧ batch_counts (sg_batches g) = (16, 15).
Proof.
  destruct (create_derived sample_gpu 64 2 sample_phases sample_policies) as [g|e|] eqn:E;
    [|by vm_compute in E|by vm_compute in E].
  destruct (derived_batch_completes sample_gpu 64 2 sample_phases sample_policies g sample_gpu_ok
    sample_phases_ok eq_refl E) as (prog & _ & Hrun & Hcnt).
  exists g, prog. split; [done|]. split; [apply Hrun, rtc_refl|].
  pose proof (Hcnt 0 ltac:(lia)) as H0. pose proof (Hcnt 1 ltac:(lia)) as H1.
  destruct (batch_counts (sg_batches g)) as [a b]. cbn in H0, H1. by subst.
Defined.

(** A single-token plan with one dispatch per lane is refused although no
    profiling was asked for. *)
Definition single_phases : list TwoQueuePhase :=
  [mkPhase [sample_dispatch 0 0x1000 []] [sample_dispatch 1 0x2000 []]].
Definition single_policies : TwoQueueDerivedPolicies :=
  let free := mkHeader false FenceNone FenceNone in
  mkPolicies [([free], [free])] [([free], [free])] (mkHeader true FenceNone FenceNone)
    TWO_QUEUE_DEPENDENCY TWO_QUEUE_HOST_TERMINAL false.

Example single_dispatch_refused :
  profiling_mode single_policies = None ∧
  create_derived sample_gpu 64 1 single_phases single_policies = Fail InvalidBatchShape ∧
  ∃ g, create_derived sample_gpu 64 2 single_phases single_policies = Done g.
Proof. split; [done|]. split; [by vm_compute|]. eexists. by vm_compute. Qed.
