(* ===== verification/Ir.v ===== *)
(** * The dispatch IR ([redline-dispatch/src/ir.rs])

    Node, resource and scalar-slot identifiers, byte regions of logical device
    allocations, declared memory accesses, launch dimensions and kernel
    arguments.  Identifier indices are [u32]s that are only ever used to index
    vectors; they are modelled as [nat], and the recorder's [u32::try_from]
    checks are explicit.  Offsets and sizes are [u64]s in [Z]. *)

From S2P Require Import Prelude BTree.

(** ** Identifiers *)

Record NodeId := mkNodeId { node_owner : Z; node_index : nat }.
Record ResourceId := mkResourceId { res_owner : Z; res_index : nat }.
Record ScalarSlotId := mkSlotId { slot_index : Z }.

Definition node_key (n : NodeId) : Z * nat := (node_owner n, node_index n).
Definition res_key (r : ResourceId) : Z * nat := (res_owner r, res_index r).

#[export] Instance node_key_inj : Inj (=) (=) node_key.
Proof. intros [o1 i1] [o2 i2]. unfold node_key; simpl. by intros [= -> ->]. Qed.
#[export] Instance res_key_inj : Inj (=) (=) res_key.
Proof. intros [o1 i1] [o2 i2]. unfold res_key; simpl. by intros [= -> ->]. Qed.
#[export] Instance slot_index_inj : Inj (=) (=) slot_index.
Proof. intros [i1] [i2]; simpl. by intros ->. Qed.

#[export] Instance cmp_NodeId : Cmp NodeId := cmp_via node_key.
#[export] Instance cmp_ResourceId : Cmp ResourceId := cmp_via res_key.
#[export] Instance cmp_ScalarSlotId : Cmp ScalarSlotId := cmp_via slot_index.
#[export] Instance cmp_NodeId_ok : CmpOk NodeId := cmp_via_ok node_key.
#[export] Instance cmp_ResourceId_ok : CmpOk ResourceId := cmp_via_ok res_key.
#[export] Instance cmp_ScalarSlotId_ok : CmpOk ScalarSlotId := cmp_via_ok slot_index.

#[export] Instance NodeId_eq_dec : EqDecision NodeId.
Proof. solve_decision. Defined.
#[export] Instance ResourceId_eq_dec : EqDecision ResourceId.
Proof. solve_decision. Defined.
#[export] Instance ScalarSlotId_eq_dec : EqDecision ScalarSlotId.
Proof. solve_decision. Defined.

(** ** Errors of the recording interface ([RecordError]) *)

Inductive RecordError :=
| EmptyKernelKey
| ZeroLaunchDimension (x y z : Z)
| EmptyResourceLabel
| EmptyResource
| EmptyRegion
| EmptyScalarSlot (slot : ScalarSlotId)
| RegionAddressOverflow (offset len : Z)
| RegionOutOfBounds (resource : ResourceId) (offset len size : Z)
| ResourceArgumentOutOfBounds (resource : ResourceId) (offset size : Z)
| UndeclaredResourceArgument (resource : ResourceId) (offset : Z)
| ForeignResource (resource : ResourceId)
| UnknownResource (resource : ResourceId)
| ForeignNode (node : NodeId)
| UnknownNode (node : NodeId)
| DependencyCycle (node prerequisite : NodeId)
| TooManyResources
| TooManyNodes.

#[export] Instance RecordError_eq_dec : EqDecision RecordError.
Proof. solve_decision. Defined.

(** ** Device regions *)

Record DeviceRegion := mkRegion {
  reg_resource : ResourceId;
  reg_offset : Z;
  reg_len : Z
}.

#[export] Instance DeviceRegion_eq_dec : EqDecision DeviceRegion.
Proof. solve_decision. Defined.

Definition region_new (resource : ResourceId) (offset len : Z) :
    result RecordError DeviceRegion :=
  if (len =? 0)%Z then Err EmptyRegion
  else _ ← ok_or (checked_add 64 offset len) (RegionAddressOverflow offset len);
       Ok (mkRegion resource offset len).

Definition region_end (r : DeviceRegion) : Z := (reg_offset r + reg_len r)%Z.

Definition region_overlaps (a b : DeviceRegion) : bool :=
  bool_decide (reg_resource a = reg_resource b)
  && (reg_offset a <? region_end b)%Z && (reg_offset b <? region_end a)%Z.

Definition region_intersection (a b : DeviceRegion) : option DeviceRegion :=
  if negb (region_overlaps a b) then None
  else
    let offset := Z.max (reg_offset a) (reg_offset b) in
    let end_ := Z.min (region_end a) (region_end b) in
    Some (mkRegion (reg_resource a) offset (end_ - offset)).

(** What [DeviceRegion::new] establishes. *)
Definition region_ok (r : DeviceRegion) : Prop :=
  (0 ≤ reg_offset r)%Z ∧ (0 < reg_len r)%Z ∧ (region_end r ≤ umax 64)%Z.

(** The bytes a region denotes. *)
Definition in_region (r : DeviceRegion) (res : ResourceId) (byte : Z) : Prop :=
  reg_resource r = res ∧ (reg_offset r ≤ byte < region_end r)%Z.

#[export] Instance region_ok_dec r : Decision (region_ok r).
Proof. unfold region_ok. apply _. Defined.
#[export] Instance in_region_dec r res b : Decision (in_region r res b).
Proof. unfold in_region. apply _. Defined.

(** ** Accesses *)

Inductive AccessMode := ReadMode | WriteMode.

Record Access := mkAccess { acc_region : DeviceRegion; acc_mode : AccessMode }.

#[export] Instance AccessMode_eq_dec : EqDecision AccessMode.
Proof. solve_decision. Defined.
#[export] Instance Access_eq_dec : EqDecision Access.
Proof. solve_decision. Defined.

Definition access_read (region : DeviceRegion) : Access := mkAccess region ReadMode.
Definition access_write (region : DeviceRegion) : Access := mkAccess region WriteMode.

(** ** Launch dimensions *)

Record Dim3 := mkDim3 { dim_x : Z; dim_y : Z; dim_z : Z }.

#[export] Instance Dim3_eq_dec : EqDecision Dim3.
Proof. solve_decision. Defined.

Definition dim3_new (x y z : Z) : result RecordError Dim3 :=
  if (x =? 0)%Z || (y =? 0)%Z || (z =? 0)%Z then Err (ZeroLaunchDimension x y z)
  else Ok (mkDim3 x y z).

Definition dim3_x (x : Z) : result RecordError Dim3 := dim3_new x 1 1.

(** ** Kernel arguments *)

Inductive KernelArg :=
| ArgScalar (bytes : list Z)
| ArgScalarSlot (slot : ScalarSlotId) (size : Z)
| ArgResource (resource : ResourceId) (byte_offset : Z).

#[export] Instance KernelArg_eq_dec : EqDecision KernelArg.
Proof. solve_decision. Defined.

Definition kernel_arg_scalar_slot (slot : ScalarSlotId) (size : Z) :
    result RecordError KernelArg :=
  if (size =? 0)%Z then Err (EmptyScalarSlot slot) else Ok (ArgScalarSlot slot size).

(** ** Facts about regions *)

Lemma region_new_ok resource offset len r :
  (0 ≤ offset)%Z → (0 ≤ len)%Z →
  region_new resource offset len = Ok r →
  r = mkRegion resource offset len ∧ region_ok r.
Proof.
  intros Ho Hl. unfold region_new. destruct (Z.eqb_spec len 0) as [|Hne]; [done|].
  intros ?. invert_ok. subst.
  match goal with H : checked_add _ _ _ = Some _ |- _ => apply checked_add_Some in H as [-> ?] end.
  split; [done|]. unfold region_ok, region_end; simpl. lia.
Qed.

Lemma region_overlaps_iff a b :
  region_overlaps a b = true ↔
  reg_resource a = reg_resource b ∧ (reg_offset a < region_end b)%Z ∧
  (reg_offset b < region_end a)%Z.
Proof.
  unfold region_overlaps. rewrite !andb_true_iff, bool_decide_eq_true, !Z.ltb_lt. tauto.
Qed.

Lemma region_overlaps_comm a b : region_overlaps a b = region_overlaps b a.
Proof.
  apply eq_bool_prop_intro. rewrite !Is_true_true, !region_overlaps_iff. naive_solver.
Qed.

(** Two regions overlap exactly when they share a byte. *)
Lemma region_overlaps_bytes a b :
  region_ok a → region_ok b →
  region_overlaps a b = true ↔ ∃ res i, in_region a res i ∧ in_region b res i.
Proof.
  unfold region_ok, in_region. intros Ha Hb. rewrite region_overlaps_iff. split.
  - intros (Hr & H1 & H2). exists (reg_resource a), (Z.max (reg_offset a) (reg_offset b)).
    unfold region_end in *. split; split; (done || lia).
  - intros (res & i & [-> ?] & [<- ?]). split; [done|]. lia.
Qed.

Lemma region_intersection_Some a b r :
  region_intersection a b = Some r →
  region_overlaps a b = true ∧
  r = mkRegion (reg_resource a) (Z.max (reg_offset a) (reg_offset b))
    (Z.min (region_end a) (region_end b) - Z.max (reg_offset a) (reg_offset b)).
Proof. unfold region_intersection. destruct (region_overlaps a b); naive_solver. Qed.

Lemma region_intersection_None a b :
  region_intersection a b = None ↔ region_overlaps a b = false.
Proof. unfold region_intersection. destruct (region_overlaps a b); naive_solver. Qed.

(** The intersection of two overlapping regions is a valid region that denotes
    exactly the shared bytes. *)
Lemma region_intersection_bytes a b r :
  region_ok a → region_ok b → region_intersection a b = Some r →
  region_ok r ∧ ∀ res i, in_region r res i ↔ in_region a res i ∧ in_region b res i.
Proof.
  intros Ha Hb [Ho ->]%region_intersection_Some. apply region_overlaps_iff in Ho as (Hr & H1 & H2).
  unfold region_ok, in_region, region_end in *; simpl in *. split; [lia|].
  intros res i. rewrite <-Hr. intuition lia.
Qed.

Lemma region_intersection_comm a b :
  region_intersection a b = region_intersection b a.
Proof.
  unfold region_intersection. rewrite (region_overlaps_comm b a).
  destruct (region_overlaps a b) eqn:E; simpl; [|done].
  apply region_overlaps_iff in E as [-> _].
  by rewrite (Z.max_comm (reg_offset b)), (Z.min_comm (region_end b)).
Qed.

(** Region overlap and intersection are those of the bytes.  For two
    valid regions, [overlaps] holds exactly when some byte is in both, and the
    intersection is a valid region of exactly the shared bytes, and is absent
    exactly when there are none. *)
Theorem region_algebra_exact a b :
  region_ok a → region_ok b →
  (region_overlaps a b = true ↔ ∃ res i, in_region a res i ∧ in_region b res i) ∧
  match region_intersection a b with
  | Some r => region_ok r ∧ ∀ res i, in_region r res i ↔ in_region a res i ∧ in_region b res i
  | None => ∀ res i, ¬ (in_region a res i ∧ in_region b res i)
  end.
Proof.
  intros Ha Hb. split; [by apply region_overlaps_bytes|].
  destruct (region_intersection a b) as [r|] eqn:E; [by apply region_intersection_bytes|].
  apply region_intersection_None in E. intros res i Hi.
  assert (region_overlaps a b = true) as H by (apply region_overlaps_bytes; eauto). congruence.
Qed.

Lemma region_algebra_exact_witness :
  let a := mkRegion (mkResourceId 7 0) 0 32 in let b := mkRegion (mkResourceId 7 0) 16 32 in
  region_ok a ∧ region_ok b ∧ ∃ r, region_intersection a b = Some r ∧ region_ok r ∧
    in_region r (mkResourceId 7 0) 20.
Proof.
  intros a b. assert (region_ok a) as Ha by (by vm_compute). assert (region_ok b) as Hb by (by vm_compute).
  split; [done|]. split; [done|]. destruct (region_algebra_exact a b Ha Hb) as [_ H].
  eexists. split; [reflexivity|]. destruct H as [Hok Hin]. split; [done|].
  apply Hin. by vm_compute.
Defined.
