(* ===== verification/Identity.v ===== *)
(** * Kernel identities and kernarg ABIs ([redline-dispatch/src/identity.rs])

    SHA-256 is the [sha2] crate: the digest function is the argument [sha256]
    of the definitions that hash, and the incremental hasher is the
    concatenation of its updates. *)

From S2P Require Import Prelude BTree Ir.

Definition DEVICE_POINTER_BYTES : Z := 8.

(** A [Sha256Digest] is its 32 bytes. *)
Abbreviation Sha256Digest := (list Z).

Inductive KernargAbiError :=
| EmptyField
| InvalidAlignment (alignment : Z)
| InvalidSegmentAlignment (alignment : Z)
| MisalignedField (offset alignment : Z)
| FieldAddressOverflow (offset size : Z)
| FieldExceedsSegmentAlignment (index : nat) (field_alignment segment_alignment : Z)
| FieldOutOfBounds (index : nat) (end_ segment_size : Z)
| OverlappingFields (first second : nat)
| ArgumentCount (fields arguments : nat)
| ArgumentSize (index : nat) (expected actual : Z).

#[export] Instance KernargAbiError_eq_dec : EqDecision KernargAbiError.
Proof. solve_decision. Defined.

Record KernargField := mkField { fld_offset : Z; fld_size : Z; fld_alignment : Z }.

#[export] Instance KernargField_eq_dec : EqDecision KernargField.
Proof. solve_decision. Defined.

(** [u32::is_power_of_two]: exactly one bit set. *)
Definition is_power_of_two (x : Z) : bool :=
  (0 <? x)%Z && (Z.land x (x - 1) =? 0)%Z.

Definition is_multiple_of (x m : Z) : bool :=
  if (m =? 0)%Z then (x =? 0)%Z else (x mod m =? 0)%Z.

Definition field_new (offset size alignment : Z) : result KernargAbiError KernargField :=
  if (size =? 0)%Z then Err EmptyField
  else if (alignment =? 0)%Z || negb (is_power_of_two alignment) then
    Err (InvalidAlignment alignment)
  else if negb (is_multiple_of offset alignment) then
    Err (MisalignedField offset alignment)
  else _ ← ok_or (checked_add 32 offset size) (FieldAddressOverflow offset size);
       Ok (mkField offset size alignment).

Definition field_end (f : KernargField) : Z := (fld_offset f + fld_size f)%Z.

Definition field_overlap (f g : KernargField) : bool :=
  (fld_offset f <? field_end g)%Z && (fld_offset g <? field_end f)%Z.

Record KernargAbi := mkAbi {
  abi_segment_size : Z;
  abi_segment_alignment : Z;
  abi_fields : list KernargField;
  abi_hash : Sha256Digest
}.

#[export] Instance KernargAbi_eq_dec : EqDecision KernargAbi.
Proof. solve_decision. Defined.

(** The bytes [hash_abi] feeds to the hasher. *)
Definition hash_abi_input (segment_size segment_alignment : Z)
    (fields : list KernargField) : list Z :=
  lit "redline-kernarg-abi-v1" ++ [0%Z]
  ++ le_bytes 4 segment_size ++ le_bytes 4 segment_alignment
  ++ le_bytes 8 (Z.of_nat (length fields))
  ++ (fields ≫= λ f, le_bytes 4 (fld_offset f) ++ le_bytes 4 (fld_size f)
        ++ le_bytes 4 (fld_alignment f)).

Definition hash_abi (sha256 : list Z → Sha256Digest) (segment_size segment_alignment : Z)
    (fields : list KernargField) : Sha256Digest :=
  sha256 (hash_abi_input segment_size segment_alignment fields).

(** The body of the validation loop of [KernargAbi::new] for field [index]. *)
Definition abi_check_field (segment_size segment_alignment : Z)
    (fields : list KernargField) (i : nat * KernargField) : result KernargAbiError unit :=
  let '(index, field) := i in
  if (segment_alignment <? fld_alignment field)%Z then
    Err (FieldExceedsSegmentAlignment index (fld_alignment field) segment_alignment)
  else if (segment_size <? field_end field)%Z then
    Err (FieldOutOfBounds index (field_end field) segment_size)
  else
    for_each (λ '(other_index, other),
        guard_ (field_overlap field other) (OverlappingFields other_index index))
      (take index (enumerate fields)).

Definition abi_new (sha256 : list Z → Sha256Digest) (segment_size segment_alignment : Z)
    (fields : list KernargField) : result KernargAbiError KernargAbi :=
  if (segment_alignment =? 0)%Z || negb (is_power_of_two segment_alignment) then
    Err (InvalidSegmentAlignment segment_alignment)
  else
    _ ← for_each (abi_check_field segment_size segment_alignment fields) (enumerate fields);
    Ok (mkAbi segment_size segment_alignment fields
          (hash_abi sha256 segment_size segment_alignment fields)).

(** Bytes an argument occupies; a scalar longer than [u32::MAX] saturates. *)
Definition argument_size (a : KernelArg) : Z :=
  match a with
  | ArgScalar bytes => default u32_max (Z.of_nat <$> try_from_len 32 (length bytes))
  | ArgScalarSlot _ size => size
  | ArgResource _ _ => DEVICE_POINTER_BYTES
  end.

Definition validate_arguments (abi : KernargAbi) (arguments : list KernelArg) :
    result KernargAbiError unit :=
  if negb (length arguments =? length (abi_fields abi)) then
    Err (ArgumentCount (length (abi_fields abi)) (length arguments))
  else
    for_each (λ '(index, (argument, field)),
        guard_ (negb (argument_size argument =? fld_size field)%Z)
          (ArgumentSize index (fld_size field) (argument_size argument)))
      (enumerate (zip arguments (abi_fields abi))).

(** ** Artifact identities *)

Record KernelArtifactIdentity := mkIdentity {
  ident_code_object : Sha256Digest;
  ident_symbol_text : Sha256Digest;
  ident_generation : Z
}.

#[export] Instance KernelArtifactIdentity_eq_dec : EqDecision KernelArtifactIdentity.
Proof. solve_decision. Defined.

Definition identity_from_bytes (sha256 : list Z → Sha256Digest)
    (code_object symbol_text : list Z) (generation : Z) : KernelArtifactIdentity :=
  mkIdentity (sha256 code_object) (sha256 symbol_text) generation.

Inductive ArtifactCatalogError := EmptyKernel.

(** [ArtifactCatalog]: a [BTreeMap] from kernel keys to identities. *)
Abbreviation ArtifactCatalog := (list (rstr * KernelArtifactIdentity)).

Definition catalog_new : ArtifactCatalog := [].

Definition catalog_insert (c : ArtifactCatalog) (kernel : rstr)
    (identity : KernelArtifactIdentity) : result ArtifactCatalogError ArtifactCatalog :=
  if is_empty (trim kernel) then Err EmptyKernel
  else Ok (bmap_insert kernel identity c).

Definition catalog_get (c : ArtifactCatalog) (kernel : rstr) :
    option KernelArtifactIdentity := bmap_get kernel c.

(** ** Well-formed layouts *)

Definition field_ok (f : KernargField) : Prop :=
  (0 ≤ fld_offset f)%Z ∧ (0 < fld_size f)%Z ∧ is_power_of_two (fld_alignment f) = true ∧
  (fld_offset f mod fld_alignment f = 0)%Z ∧ (field_end f ≤ umax 32)%Z.

Definition fields_disjoint (f g : KernargField) : Prop :=
  (field_end f ≤ fld_offset g)%Z ∨ (field_end g ≤ fld_offset f)%Z.

(** The contract of [KernargAbi::new]: aligned fields inside the segment that
    do not overlap pairwise. *)
Definition abi_ok (abi : KernargAbi) : Prop :=
  is_power_of_two (abi_segment_alignment abi) = true ∧
  (∀ i f, abi_fields abi !! i = Some f →
     (fld_alignment f ≤ abi_segment_alignment abi)%Z ∧
     (field_end f ≤ abi_segment_size abi)%Z) ∧
  (∀ i j f g, i ≠ j → abi_fields abi !! i = Some f → abi_fields abi !! j = Some g →
     fields_disjoint f g).

Lemma field_new_ok offset size alignment f :
  (0 ≤ offset)%Z → (0 ≤ size)%Z →
  field_new offset size alignment = Ok f →
  f = mkField offset size alignment ∧ field_ok f.
Proof.
  intros Ho Hs. unfold field_new. destruct (Z.eqb_spec size 0); [done|].
  destruct ((alignment =? 0)%Z || negb (is_power_of_two alignment)) eqn:Ea; [done|].
  destruct (is_multiple_of offset alignment) eqn:Em; simpl; [|done].
  intros ?. invert_ok. subst.
  match goal with H : checked_add _ _ _ = Some _ |- _ => apply checked_add_Some in H as [-> ?] end.
  apply orb_false_iff in Ea as [Ea1 Ea2]. rewrite negb_false_iff in Ea2.
  unfold is_multiple_of in Em. rewrite Ea1 in Em.
  split; [done|]. unfold field_ok, field_end; simpl. split_and!; try lia; done.
Qed.

Lemma field_overlap_disjoint f g :
  field_overlap f g = false ↔ fields_disjoint f g.
Proof.
  unfold field_overlap, fields_disjoint. rewrite andb_false_iff, !Z.ltb_ge. lia.
Qed.

Lemma fields_disjoint_comm f g : fields_disjoint f g ↔ fields_disjoint g f.
Proof. unfold fields_disjoint. tauto. Qed.

Lemma elem_of_take_enumerate {A} (l : list A) n i x :
  (i, x) ∈ take n (enumerate l) ↔ i < n ∧ l !! i = Some x.
Proof.
  unfold enumerate. rewrite list_elem_of_lookup. split.
  - intros [k Hk]. apply lookup_take_Some in Hk as [Hk ?].
    apply lookup_zip_Some in Hk as [[-> ?]%lookup_seq ?]. done.
  - intros [Hi Hx]. exists i. apply lookup_take_Some. split; [|done].
    apply lookup_zip_Some. split; [|done].
    apply lookup_seq. split; [done|]. by eapply lookup_lt_Some.
Qed.

Lemma abi_check_field_ok ss sa fields i f u :
  abi_check_field ss sa fields (i, f) = Ok u ↔
  (fld_alignment f ≤ sa)%Z ∧ (field_end f ≤ ss)%Z ∧
  ∀ j g, j < i → fields !! j = Some g → fields_disjoint f g.
Proof.
  unfold abi_check_field. destruct (Z.ltb_spec sa (fld_alignment f)); [split; [done|lia]|].
  destruct (Z.ltb_spec ss (field_end f)); [split; [done|lia]|].
  rewrite for_each_Ok. split.
  - intros Hall. split_and!; [done..|]. intros j g Hj Hg.
    specialize (Hall (j, g)). rewrite elem_of_take_enumerate in Hall.
    specialize (Hall (conj Hj Hg)). simpl in Hall.
    by apply guard_Ok, field_overlap_disjoint in Hall.
  - intros (_ & _ & Hall) [j g] [Hj Hg]%elem_of_take_enumerate. simpl.
    by apply guard_Ok, field_overlap_disjoint, (Hall j).
Qed.

(** [KernargAbi::new] accepts exactly the layouts of the contract. *)
Lemma abi_new_iff sha256 ss sa fields :
  (∃ abi, abi_new sha256 ss sa fields = Ok abi) ↔
  abi_ok (mkAbi ss sa fields (hash_abi sha256 ss sa fields)).
Proof.
  unfold abi_new, abi_ok; simpl.
  destruct ((sa =? 0)%Z || negb (is_power_of_two sa)) eqn:Ea.
  { split; [naive_solver|]. intros [Hp _]. rewrite Hp in Ea. simpl in Ea.
    rewrite orb_false_r in Ea. apply Z.eqb_eq in Ea as ->. done. }
  apply orb_false_iff in Ea as [_ Ea]. rewrite negb_false_iff in Ea.
  destruct (for_each _ _) as [u|e] eqn:Ef; simpl.
  - rewrite for_each_Ok in Ef. split; [|eauto]. intros _. split; [done|].
    assert (∀ i f, fields !! i = Some f → abi_check_field ss sa fields (i, f) = Ok tt) as Hc.
    { intros i f Hf. apply Ef. by apply elem_of_enumerate. }
    split.
    + intros i f Hf. apply Hc, abi_check_field_ok in Hf as (? & ? & _). done.
    + intros i j f g Hij Hf Hg. destruct (decide (j < i)) as [Hlt|Hge].
      * apply Hc, abi_check_field_ok in Hf as (_ & _ & Hd). by apply (Hd j).
      * apply Hc, abi_check_field_ok in Hg as (_ & _ & Hd). apply fields_disjoint_comm.
        apply (Hd i); [lia|done].
  - split; [naive_solver|]. intros (_ & Hb & Hd). exfalso.
    apply for_each_Err in Ef as (l1 & [i f] & l2 & Hl & Hf & _).
    assert ((i, f) ∈ enumerate fields) as Hin by (rewrite Hl; set_solver).
    apply elem_of_enumerate in Hin.
    assert (abi_check_field ss sa fields (i, f) = Ok tt) as Hok; [|by rewrite Hok in Hf].
    apply abi_check_field_ok. destruct (Hb i f Hin). split_and!; [done..|].
    intros j g Hj Hg. apply (Hd i j); [lia|done..].
Qed.

Lemma abi_new_fields sha256 ss sa fields abi :
  abi_new sha256 ss sa fields = Ok abi →
  abi = mkAbi ss sa fields (hash_abi sha256 ss sa fields).
Proof. unfold abi_new. case_match; [done|]. intros ?. by invert_ok. Qed.

Lemma validate_arguments_ok abi args u :
  validate_arguments abi args = Ok u ↔
  length args = length (abi_fields abi) ∧
  ∀ i a f, args !! i = Some a → abi_fields abi !! i = Some f → argument_size a = fld_size f.
Proof.
  unfold validate_arguments. destruct (Nat.eqb_spec (length args) (length (abi_fields abi)));
    simpl; [|naive_solver].
  rewrite for_each_Ok. split.
  - intros Hall. split; [done|]. intros i a f Ha Hf.
    specialize (Hall (i, (a, f))). rewrite elem_of_enumerate in Hall.
    rewrite lookup_zip_Some in Hall. specialize (Hall (conj Ha Hf)). simpl in Hall.
    by apply guard_Ok, negb_false_iff, Z.eqb_eq in Hall.
  - intros [_ Hall] [i [a f]] Hin%elem_of_enumerate.
    apply lookup_zip_Some in Hin as [Ha Hf]. simpl. apply guard_Ok, negb_false_iff, Z.eqb_eq. eauto.
Qed.

(** The kernarg ABI contract.  [KernargAbi::new] accepts a layout exactly
    when the segment alignment is a power of two, every field lies in the
    segment with an alignment not above it, and no two fields overlap; the
    accepted ABI keeps the fields as given, and it accepts an argument list
    exactly when there is one argument per field, each of its field's size. *)
Theorem kernarg_abi_exact sha256 ss sa fields :
  ((∃ abi, abi_new sha256 ss sa fields = Ok abi) ↔
     is_power_of_two sa = true ∧
     (∀ i f, fields !! i = Some f → (fld_alignment f ≤ sa)%Z ∧ (field_end f ≤ ss)%Z) ∧
     (∀ i j f g, i ≠ j → fields !! i = Some f → fields !! j = Some g → fields_disjoint f g)) ∧
  ∀ abi arguments, abi_new sha256 ss sa fields = Ok abi →
    abi_fields abi = fields ∧ abi_segment_size abi = ss ∧ abi_segment_alignment abi = sa ∧
    (validate_arguments abi arguments = Ok tt ↔
       length arguments = length fields ∧
       ∀ i a f, arguments !! i = Some a → fields !! i = Some f → argument_size a = fld_size f).
Proof.
  split; [apply abi_new_iff|]. intros abi arguments Habi.
  pose proof (abi_new_fields _ _ _ _ _ Habi) as ->. cbn. split_and!; [done..|].
  apply validate_arguments_ok.
Qed.

Lemma kernarg_abi_exact_witness :
  let fields := [mkField 0 4 4; mkField 8 8 8] in
  ∃ abi, abi_new (λ _, []) 16 8 fields = Ok abi ∧
    validate_arguments abi [ArgScalar [1; 2; 3; 4]%Z; ArgResource (mkResourceId 0 0) 0] = Ok tt.
Proof.
  intros fields. exists (mkAbi 16 8 fields []).
  assert (abi_new (λ _, []) 16 8 fields = Ok (mkAbi 16 8 fields [])) as Habi by (vm_compute; reflexivity).
  split; [exact Habi|].
  destruct (proj2 (kernarg_abi_exact (λ _, []) 16 8 fields) _
    [ArgScalar [1; 2; 3; 4]%Z; ArgResource (mkResourceId 0 0) 0] Habi) as (_ & _ & _ & H).
  apply H. split; [reflexivity|].
  intros [|[|i]] a f Ha Hf; simpl in Ha, Hf; simplify_eq; reflexivity.
Defined.
