(* ===== verification/Recorder.v ===== *)
(** * Recording a dispatch DAG ([ir.rs]: [KernelLaunch]; [recorder.rs])

    The recorder is a builder: resources and dispatches are appended, and
    dependencies are edges of an ordered set.  [depends_on] refuses an edge that
    would close a cycle, by a depth-first search that is modelled with fuel. *)

From S2P Require Import Prelude BTree Ir Identity.

(** ** Kernel launches *)

(** [NonZeroU32] and [NonZeroUsize] are [positive]s. *)
Record KernelLaunch := mkLaunch {
  launch_kernel : rstr;
  launch_grid : Dim3;
  launch_block : Dim3;
  launch_dynamic_shared_bytes : Z;
  launch_arguments : list KernelArg;
  launch_kernarg_abi : option KernargAbi;
  launch_artifact_identity : option KernelArtifactIdentity;
  launch_estimated_work : positive
}.

#[export] Instance KernelLaunch_eq_dec : EqDecision KernelLaunch.
Proof. solve_decision. Defined.

Definition launch_new (kernel : rstr) (grid block : Dim3) : result RecordError KernelLaunch :=
  if is_empty (trim kernel) then Err EmptyKernelKey
  else Ok (mkLaunch kernel grid block 0 [] None None 1).

Definition with_dynamic_shared_bytes (l : KernelLaunch) (bytes : Z) : KernelLaunch :=
  mkLaunch (launch_kernel l) (launch_grid l) (launch_block l) bytes (launch_arguments l)
    (launch_kernarg_abi l) (launch_artifact_identity l) (launch_estimated_work l).
Definition with_arguments (l : KernelLaunch) (arguments : list KernelArg) : KernelLaunch :=
  mkLaunch (launch_kernel l) (launch_grid l) (launch_block l) (launch_dynamic_shared_bytes l)
    (launch_arguments l ++ arguments) (launch_kernarg_abi l) (launch_artifact_identity l)
    (launch_estimated_work l).
Definition with_kernarg_abi (l : KernelLaunch) (abi : KernargAbi) : KernelLaunch :=
  mkLaunch (launch_kernel l) (launch_grid l) (launch_block l) (launch_dynamic_shared_bytes l)
    (launch_arguments l) (Some abi) (launch_artifact_identity l) (launch_estimated_work l).
Definition with_artifact_identity (l : KernelLaunch) (i : KernelArtifactIdentity) : KernelLaunch :=
  mkLaunch (launch_kernel l) (launch_grid l) (launch_block l) (launch_dynamic_shared_bytes l)
    (launch_arguments l) (launch_kernarg_abi l) (Some i) (launch_estimated_work l).
Definition with_estimated_work (l : KernelLaunch) (work : positive) : KernelLaunch :=
  mkLaunch (launch_kernel l) (launch_grid l) (launch_block l) (launch_dynamic_shared_bytes l)
    (launch_arguments l) (launch_kernarg_abi l) (launch_artifact_identity l) work.

(** ** The recorder *)

Record Resource := mkResource { resource_label : rstr; resource_size : Z }.
Record Node := mkNode { node_id : NodeId; node_launch : KernelLaunch; node_accesses : list Access }.

(** Edges are [(prerequisite, dependent)], in [BTreeSet] order. *)
Record Recorder := mkRecorder {
  rec_owner : Z;
  rec_resources : list Resource;
  rec_nodes : list Node;
  rec_edges : list (NodeId * NodeId)
}.

(** [Recorder::new] draws its owner from the process-wide counter
    [NEXT_RECORDER_ID], which is passed explicitly; the [assert!] on the last
    identity is the panic. *)
Definition recorder_new (next_recorder_id : Z) : option (Z * Recorder) :=
  let owner := next_recorder_id in
  let next := wrapping_add 64 next_recorder_id 1 in
  if (owner =? u64_max)%Z then None
  else Some (next, mkRecorder owner [] [] []).

Definition recorder_resource (r : Recorder) (label : rstr) (size : Z) :
    result RecordError (Recorder * ResourceId) :=
  if is_empty (trim label) then Err EmptyResourceLabel
  else if (size =? 0)%Z then Err EmptyResource
  else
    index ← ok_or (try_from_len 32 (length (rec_resources r))) TooManyResources;
    Ok (mkRecorder (rec_owner r) (rec_resources r ++ [mkResource label size])
          (rec_nodes r) (rec_edges r),
        mkResourceId (rec_owner r) index).

Definition resource_entry (r : Recorder) (resource : ResourceId) : result RecordError Resource :=
  if negb (res_owner resource =? rec_owner r)%Z then Err (ForeignResource resource)
  else ok_or (rec_resources r !! res_index resource) (UnknownResource resource).

Definition validate_region (r : Recorder) (region : DeviceRegion) : result RecordError unit :=
  resource ← resource_entry r (reg_resource region);
  guard_ (resource_size resource <? region_end region)%Z
    (RegionOutOfBounds (reg_resource region) (reg_offset region) (reg_len region)
       (resource_size resource)).

Definition recorder_region (r : Recorder) (resource : ResourceId) (offset len : Z) :
    result RecordError DeviceRegion :=
  region ← region_new resource offset len;
  _ ← validate_region r region;
  Ok region.

(** A declared access covers the byte at [byte_offset] of [resource]. *)
Definition access_covers (resource : ResourceId) (byte_offset : Z) (a : Access) : bool :=
  let region := acc_region a in
  bool_decide (reg_resource region = resource)
  && (reg_offset region <=? byte_offset)%Z && (byte_offset <? region_end region)%Z.

Definition validate_argument (r : Recorder) (accesses : list Access) (argument : KernelArg) :
    result RecordError unit :=
  match argument with
  | ArgResource resource byte_offset =>
      entry ← resource_entry r resource;
      if (resource_size entry <=? byte_offset)%Z then
        Err (ResourceArgumentOutOfBounds resource byte_offset (resource_size entry))
      else
        guard_ (negb (existsb (access_covers resource byte_offset) accesses))
          (UndeclaredResourceArgument resource byte_offset)
  | ArgScalarSlot slot size => guard_ (size =? 0)%Z (EmptyScalarSlot slot)
  | ArgScalar _ => Ok tt
  end.

Definition recorder_dispatch (r : Recorder) (launch : KernelLaunch) (accesses : list Access) :
    result RecordError (Recorder * NodeId) :=
  _ ← for_each (λ a, validate_region r (acc_region a)) accesses;
  _ ← for_each (validate_argument r accesses) (launch_arguments launch);
  index ← ok_or (try_from_len 32 (length (rec_nodes r))) TooManyNodes;
  let id := mkNodeId (rec_owner r) index in
  Ok (mkRecorder (rec_owner r) (rec_resources r)
        (rec_nodes r ++ [mkNode id launch accesses]) (rec_edges r), id).

Definition validate_node (r : Recorder) (node : NodeId) : result RecordError unit :=
  if negb (node_owner node =? rec_owner r)%Z then Err (ForeignNode node)
  else match rec_nodes r !! node_index node with
       | None => Err (UnknownNode node)
       | Some _ => Ok tt
       end.

(** The targets of the edges that leave [node], in edge order. *)
Definition edge_targets (edges : list (NodeId * NodeId)) (node : NodeId) : list NodeId :=
  filter_map (λ e, if decide (e.1 = node) then Some e.2 else None) edges.

(** The depth-first search of [path_exists].  [Vec::pop] takes from the end,
    so the stack is kept reversed: its head is the top. *)
Fixpoint path_exists_loop (fuel : nat) (edges : list (NodeId * NodeId)) (to : NodeId)
    (stack : list NodeId) (seen : list bool) : option bool :=
  match fuel with
  | O => None
  | S fuel =>
      match stack with
      | [] => Some false
      | node :: stack =>
          if decide (node = to) then Some true
          else
            was_seen ← seen !! node_index node;
            seen' ← vec_set seen (node_index node) true;
            if (was_seen : bool) then path_exists_loop fuel edges to stack seen'
            else path_exists_loop fuel edges to
                   (reverse (edge_targets edges node) ++ stack) seen'
      end
  end.

Definition path_exists (r : Recorder) (from to : NodeId) : option bool :=
  path_exists_loop (S (S (length (rec_edges r)))) (rec_edges r) to [from]
    (replicate (length (rec_nodes r)) false).

Definition recorder_depends_on (r : Recorder) (node prerequisite : NodeId) :
    exec RecordError Recorder :=
  _ ← try_ (validate_node r node);
  _ ← try_ (validate_node r prerequisite);
  cyclic ← (if decide (node = prerequisite) then Done true
            else unwrap (path_exists r node prerequisite));
  if (cyclic : bool) then Fail (DependencyCycle node prerequisite)
  else Done (mkRecorder (rec_owner r) (rec_resources r) (rec_nodes r)
               (bset_insert (prerequisite, node) (rec_edges r))).

(** ** The recorder invariant *)

Definition edge (edges : list (NodeId * NodeId)) (p d : NodeId) : Prop := (p, d) ∈ edges.

Definition valid_id (r : Recorder) (n : NodeId) : Prop :=
  node_owner n = rec_owner r ∧ node_index n < length (rec_nodes r).

Definition rid (r : Recorder) (i : nat) : NodeId := mkNodeId (rec_owner r) i.

(** The shape every recorded graph has, acyclicity aside. *)
Record recorder_shape (r : Recorder) : Prop := {
  shape_ids i n : rec_nodes r !! i = Some n → node_id n = rid r i;
  shape_edges p d : edge (rec_edges r) p d → valid_id r p ∧ valid_id r d;
  shape_sorted : bset_sorted (rec_edges r)
}.

Definition region_in_bounds (r : Recorder) (reg : DeviceRegion) : Prop :=
  res_owner (reg_resource reg) = rec_owner r ∧
  ∃ entry, rec_resources r !! res_index (reg_resource reg) = Some entry ∧
    (region_end reg ≤ resource_size entry)%Z.

Definition argument_ok (r : Recorder) (accesses : list Access) (a : KernelArg) : Prop :=
  match a with
  | ArgResource resource byte_offset =>
      res_owner resource = rec_owner r ∧
      (∃ entry, rec_resources r !! res_index resource = Some entry ∧
        (byte_offset < resource_size entry)%Z) ∧
      ∃ acc, acc ∈ accesses ∧ in_region (acc_region acc) resource byte_offset
  | ArgScalarSlot _ size => size ≠ 0%Z
  | ArgScalar _ => True
  end.

Record recorder_wf (r : Recorder) : Prop := {
  wf_shape :> recorder_shape r;
  wf_acyclic x : ¬ tc (edge (rec_edges r)) x x;
  wf_node_count : (Z.of_nat (length (rec_nodes r)) ≤ 2 ^ 32)%Z;
  wf_resource_count : (Z.of_nat (length (rec_resources r)) ≤ 2 ^ 32)%Z;
  wf_resource_sizes res : res ∈ rec_resources r → resource_size res ≠ 0%Z;
  wf_regions n a : n ∈ rec_nodes r → a ∈ node_accesses n → region_in_bounds r (acc_region a);
  wf_arguments n a : n ∈ rec_nodes r → a ∈ launch_arguments (node_launch n) →
    argument_ok r (node_accesses n) a
}.

(** ** The cycle check *)

Lemma elem_of_edge_targets edges n t : t ∈ edge_targets edges n ↔ edge edges n t.
Proof.
  unfold edge_targets, edge. rewrite elem_of_filter_map. split.
  - intros ([p d] & Hin & Hd). case_decide; naive_solver.
  - intros Hin. exists (n, t). split; [done|]. by rewrite decide_True.
Qed.

Lemma edge_targets_cons p d edges n :
  edge_targets ((p, d) :: edges) n =
  if decide (p = n) then d :: edge_targets edges n else edge_targets edges n.
Proof. unfold edge_targets; simpl. by case_decide. Qed.

Definition unseen_edges (edges : list (NodeId * NodeId)) (seen : list bool) : nat :=
  length (filter (λ e, seen !! node_index e.1 = Some false) edges).

Lemma unseen_edges_visit edges seen x :
  seen !! node_index x = Some false →
  length (edge_targets edges x) + unseen_edges edges (<[node_index x := true]> seen)
    ≤ unseen_edges edges seen.
Proof.
  intros Hx. unfold unseen_edges, edge_targets.
  induction edges as [|[p d] edges IH]; simpl; [lia|].
  rewrite !filter_cons; simpl. destruct (decide (p = x)) as [->|Hpx]; simpl.
  - rewrite (decide_True _ _ Hx). rewrite decide_False; simpl; [lia|].
    rewrite list_lookup_insert_eq; [done|]. by eapply lookup_lt_Some.
  - destruct (decide (node_index p = node_index x)) as [Heq|Hne].
    + rewrite Heq, (decide_True _ _ Hx), decide_False; simpl; [lia|].
      rewrite list_lookup_insert_eq; [done|]. by eapply lookup_lt_Some.
    + rewrite list_lookup_insert_ne by done. case_decide; simpl; lia.
Qed.

Section dfs.
Context (owner : Z) (n : nat) (edges : list (NodeId * NodeId)) (from to : NodeId).
Context (Hedges : ∀ p d, edge edges p d → node_owner d = owner ∧ node_index d < n).

Definition seen_at (seen : list bool) (x : NodeId) : Prop :=
  node_owner x = owner ∧ seen !! node_index x = Some true.

Record dfs_inv (stack : list NodeId) (seen : list bool) : Prop := {
  dfs_length : length seen = n;
  dfs_stack x : x ∈ stack → node_owner x = owner ∧ node_index x < n;
  dfs_sound x : x ∈ stack ∨ seen_at seen x → rtc (edge edges) from x;
  dfs_start : from ∈ stack ∨ seen_at seen from;
  dfs_target x : seen_at seen x → x ≠ to;
  dfs_closed x y : seen_at seen x → edge edges x y → y ∈ stack ∨ seen_at seen y
}.

Lemma seen_at_insert seen x y :
  node_owner x = owner → node_index x < length seen →
  seen_at (<[node_index x:=true]> seen) y ↔ y = x ∨ seen_at seen y.
Proof.
  intros Ho Hlt. unfold seen_at. rewrite list_lookup_insert. case_decide as Hd.
  - destruct Hd as [Hd _]. split; [|naive_solver]. intros [? _]. left.
    destruct x, y; simpl in *; congruence.
  - split; [tauto|]. intros [->|?]; [|done]. exfalso. by apply Hd.
Qed.

Lemma dfs_inv_skip x stack seen :
  dfs_inv (x :: stack) seen → seen_at seen x → dfs_inv stack seen.
Proof.
  intros [Hl Hs Hr H0 Ht Hc] Hx. split; [done|set_solver..| |done|].
  - destruct H0 as [[->|?]%elem_of_cons|?]; auto.
  - intros a b Ha Hab. destruct (Hc a b Ha Hab) as [[->|?]%elem_of_cons|?]; auto.
Qed.

Lemma dfs_inv_visit x stack seen :
  dfs_inv (x :: stack) seen → x ≠ to →
  dfs_inv (reverse (edge_targets edges x) ++ stack) (<[node_index x:=true]> seen).
Proof.
  intros [Hl Hs Hr H0 Ht Hc] Hx.
  destruct (Hs x) as [Hox Hix]; [set_solver|].
  assert (∀ y, y ∈ reverse (edge_targets edges x) ++ stack ↔ edge edges x y ∨ y ∈ stack) as Hin.
  { intros y. rewrite elem_of_app, elem_of_reverse, elem_of_edge_targets. done. }
  assert (∀ y, seen_at (<[node_index x:=true]> seen) y ↔ y = x ∨ seen_at seen y) as Hsn.
  { intros y. apply seen_at_insert; [done|lia]. }
  split.
  - by rewrite length_insert.
  - intros y [Hy|Hy]%Hin; [by eapply Hedges|]. apply Hs. set_solver.
  - intros y Hy. rewrite Hin, Hsn in Hy. destruct Hy as [[Hy|Hy]|[->|Hy]].
    + eapply rtc_r; [|done]. apply Hr. set_solver.
    + apply Hr. set_solver.
    + apply Hr. set_solver.
    + apply Hr. by right.
  - rewrite Hin, Hsn. destruct H0 as [[->|?]%elem_of_cons|?]; auto.
  - intros y [->|Hy]%Hsn; auto.
  - intros a b Ha Hab. rewrite Hin, Hsn. apply Hsn in Ha as [->|Ha]; [auto|].
    destruct (Hc a b Ha Hab) as [[->|?]%elem_of_cons|?]; auto.
Qed.

Lemma path_exists_loop_spec fuel stack seen :
  dfs_inv stack seen →
  length stack + unseen_edges edges seen < fuel →
  ∃ b, path_exists_loop fuel edges to stack seen = Some b ∧
    (b = true ↔ rtc (edge edges) from to).
Proof.
  revert stack seen. induction fuel as [|fuel IH]; intros stack seen Hinv Hfuel; [lia|].
  destruct stack as [|x stack]; simpl.
  - exists false. split; [done|]. split; [done|]. intros Hto.
    enough (seen_at seen to) as Hst by (by apply (dfs_target _ _ Hinv) in Hst).
    assert (∀ a b, rtc (edge edges) a b → seen_at seen a → seen_at seen b) as Hcl.
    { induction 1 as [|a b c Hab Hbc IH']; [done|]. intros Ha. apply IH'.
      destruct (dfs_closed _ _ Hinv a b Ha Hab); set_solver. }
    apply (Hcl from to Hto). destruct (dfs_start _ _ Hinv); set_solver.
  - destruct (decide (x = to)) as [->|Hne].
    { exists true. split; [done|]. split; [|done]. intros _. apply (dfs_sound _ _ Hinv). set_solver. }
    destruct (dfs_stack _ _ Hinv x) as [Hox Hix]; [set_solver|].
    rewrite <-(dfs_length _ _ Hinv) in Hix.
    destruct (lookup_lt_is_Some_2 _ _ Hix) as [b Hb]. rewrite Hb; simpl.
    rewrite (vec_set_lt _ _ _ Hix); simpl. destruct b; simpl in Hfuel.
    + rewrite list_insert_id by done. apply IH; [|simpl in *; lia].
      eapply dfs_inv_skip; [done|]. done.
    + apply IH; [by apply dfs_inv_visit|].
      pose proof (unseen_edges_visit edges seen x Hb).
      rewrite length_app, length_reverse. lia.
Qed.
End dfs.

(** [path_exists] returns, and answers reachability. *)
Lemma path_exists_spec r from to :
  recorder_shape r → valid_id r from →
  ∃ b, path_exists r from to = Some b ∧ (b = true ↔ rtc (edge (rec_edges r)) from to).
Proof.
  intros Hshape Hfrom. unfold path_exists.
  apply (path_exists_loop_spec (rec_owner r) (length (rec_nodes r)) _ from).
  - intros p d Hpd. by destruct (shape_edges _ Hshape p d Hpd) as [_ [? ?]].
  - assert (∀ x, ¬ seen_at (rec_owner r) (replicate (length (rec_nodes r)) false) x) as Hno.
    { intros x [_ Hx]. apply lookup_replicate in Hx as [? _]. done. }
    split; [by rewrite length_replicate|..]; try (intros; exfalso; by eapply Hno).
    + intros x ->%list_elem_of_singleton. done.
    + intros x [->%list_elem_of_singleton|Hx]; [done|]. by apply Hno in Hx.
    + left. set_solver.
  - unfold unseen_edges. simpl. pose proof (length_filter (λ e : NodeId * NodeId,
      replicate (length (rec_nodes r)) false !! node_index e.1 = Some false) (rec_edges r)). lia.
Qed.

(** ** Every operation preserves the invariant *)

Lemma resource_entry_Ok r res entry :
  resource_entry r res = Ok entry ↔
  res_owner res = rec_owner r ∧ rec_resources r !! res_index res = Some entry.
Proof.
  unfold resource_entry. destruct (Z.eqb_spec (res_owner res) (rec_owner r)); simpl.
  - rewrite ok_or_Ok. tauto.
  - naive_solver.
Qed.

Lemma validate_region_Ok r reg u :
  validate_region r reg = Ok u ↔ region_in_bounds r reg.
Proof.
  unfold validate_region, region_in_bounds. split.
  - intros ?. invert_ok. rewrite resource_entry_Ok in *. destruct_and?.
    split; [done|]. eexists; split; [done|]. lia.
  - intros (Ho & entry & He & Hle).
    rewrite (proj2 (resource_entry_Ok r (reg_resource reg) entry)) by done. simpl.
    apply guard_Ok. lia.
Qed.

Lemma access_covers_iff res off a :
  access_covers res off a = true ↔ in_region (acc_region a) res off.
Proof.
  unfold access_covers, in_region.
  rewrite !andb_true_iff, bool_decide_eq_true, Z.leb_le, Z.ltb_lt. tauto.
Qed.

Lemma validate_argument_Ok r accs a u :
  validate_argument r accs a = Ok u ↔ argument_ok r accs a.
Proof.
  destruct u, a as [bytes|slot size|res off]; simpl; [done|rewrite guard_Ok; lia|].
  split.
  - intros ?. invert_ok. rewrite resource_entry_Ok in *. destruct_and?.
    destruct (Z.leb_spec (resource_size x) off); [done|]. invert_ok.
    split; [done|]. split; [by eexists|].
    match goal with H : negb _ = false |- _ => apply negb_false_iff, existsb_exists in H as (acc & ?%list_elem_of_In & ?) end.
    exists acc. by rewrite <-access_covers_iff.
  - intros (Ho & (entry & He & Hlt) & (acc & Hacc & Hin)).
    rewrite (proj2 (resource_entry_Ok r res entry)) by done. simpl.
    destruct (Z.leb_spec (resource_size entry) off); [lia|].
    apply guard_Ok, negb_false_iff, existsb_exists. exists acc.
    by rewrite <-list_elem_of_In, access_covers_iff.
Qed.

Lemma validate_node_Ok r x u : validate_node r x = Ok u ↔ valid_id r x.
Proof.
  unfold validate_node, valid_id. destruct u.
  destruct (Z.eqb_spec (node_owner x) (rec_owner r)); simpl; [|naive_solver].
  destruct (rec_nodes r !! node_index x) eqn:E.
  - apply lookup_lt_Some in E. naive_solver.
  - apply lookup_ge_None in E. naive_solver lia.
Qed.

Lemma recorder_new_wf next next' r :
  recorder_new next = Some (next', r) → recorder_wf r.
Proof.
  unfold recorder_new. case_match; [done|]. intros [= <- <-].
  split; [split|..]; simpl; try (intros; set_solver); try lia; [constructor|].
  intros x Hx. unfold edge in Hx. inversion Hx; set_solver.
Qed.

Lemma region_in_bounds_mono r r' reg :
  rec_owner r' = rec_owner r → rec_resources r `prefix_of` rec_resources r' →
  region_in_bounds r reg → region_in_bounds r' reg.
Proof.
  intros Ho Hp (Hown & e & He & Hle). split; [congruence|]. exists e.
  split; [|done]. by eapply prefix_lookup_Some.
Qed.

Lemma argument_ok_mono r r' accs a :
  rec_owner r' = rec_owner r → rec_resources r `prefix_of` rec_resources r' →
  argument_ok r accs a → argument_ok r' accs a.
Proof.
  intros Ho Hp. destruct a as [| |res off]; simpl; [done..|].
  intros (Hown & (e & He & Hle) & Hacc). split; [congruence|]. split; [|done].
  exists e. split; [|done]. by eapply prefix_lookup_Some.
Qed.

Lemma valid_id_mono r r' x :
  rec_owner r' = rec_owner r → length (rec_nodes r) ≤ length (rec_nodes r') →
  valid_id r x → valid_id r' x.
Proof. unfold valid_id. intros -> ? [-> ?]. split; [done|lia]. Qed.

Lemma recorder_resource_wf r label size r' id :
  recorder_wf r → recorder_resource r label size = Ok (r', id) → recorder_wf r'.
Proof.
  intros Hwf. unfold recorder_resource. case_match; [done|].
  destruct (Z.eqb_spec size 0); [done|]. intros ?. invert_ok.
  match goal with H : try_from_len _ _ = Some _ |- _ =>
    apply try_from_len_Some in H as [-> Hlen] end.
  match goal with H : _ = (r', id) |- _ => injection H as <- <- end.
  split; simpl.
  - destruct Hwf as [[? ? ?] _ _ _ _ _]. split; simpl; auto.
  - apply (wf_acyclic _ Hwf).
  - apply (wf_node_count _ Hwf).
  - rewrite length_app; simpl. unfold umax in Hlen. lia.
  - intros res [?| ->%list_elem_of_singleton]%elem_of_app; [|done].
    by apply (wf_resource_sizes _ Hwf).
  - intros nd a Hn Ha. eapply region_in_bounds_mono; [..|by eapply (wf_regions _ Hwf)]; simpl;
      [done|by apply prefix_app_r].
  - intros nd a Hn Ha. eapply argument_ok_mono; [..|by eapply (wf_arguments _ Hwf)]; simpl;
      [done|by apply prefix_app_r].
Qed.

Lemma recorder_dispatch_inv r launch accs r' id :
  recorder_dispatch r launch accs = Ok (r', id) →
  id = rid r (length (rec_nodes r)) ∧
  r' = mkRecorder (rec_owner r) (rec_resources r)
         (rec_nodes r ++ [mkNode id launch accs]) (rec_edges r) ∧
  (Z.of_nat (length (rec_nodes r)) ≤ umax 32)%Z ∧
  (∀ a, a ∈ accs → region_in_bounds r (acc_region a)) ∧
  (∀ a, a ∈ launch_arguments launch → argument_ok r accs a).
Proof.
  unfold recorder_dispatch. intros ?. invert_ok.
  match goal with H : try_from_len _ _ = Some _ |- _ =>
    apply try_from_len_Some in H as [-> Hlen] end.
  match goal with H : _ = (r', id) |- _ => injection H as <- <- end.
  split_and!; [done|done|done|..]; intros a Ha.
  - eapply validate_region_Ok. eauto.
  - eapply validate_argument_Ok. eauto.
Qed.

Lemma recorder_dispatch_wf r launch accs r' id :
  recorder_wf r → recorder_dispatch r launch accs = Ok (r', id) → recorder_wf r'.
Proof.
  intros Hwf (-> & -> & Hlen & Hregs & Hargs)%recorder_dispatch_inv.
  destruct Hwf as [[Hids Hedges Hsorted] Hac Hn Hr Hsz Hreg Harg]. split; simpl; try done.
  - split; simpl; [| |done].
    + intros i nd [[_ Hi]|[-> <-]]%lookup_snoc_Some; [by apply Hids|done].
    + intros p d [Hp Hd]%Hedges. split.
      * eapply valid_id_mono; [..|exact Hp]; simpl; [done|rewrite length_app; lia].
      * eapply valid_id_mono; [..|exact Hd]; simpl; [done|rewrite length_app; lia].
  - rewrite length_app; simpl. unfold umax in Hlen. lia.
  - intros nd a [Hnd| ->%list_elem_of_singleton]%elem_of_app Ha; simpl in *.
    + by apply (Hreg nd).
    + by apply Hregs.
  - intros nd a [Hnd| ->%list_elem_of_singleton]%elem_of_app Ha; simpl in *.
    + by apply (Harg nd).
    + by apply Hargs.
Qed.

Lemma edge_insert_tc edges p d :
  let E := bset_insert (p, d) edges in
  ∀ x y, tc (edge E) x y →
    tc (edge edges) x y ∨ (rtc (edge edges) x p ∧ rtc (edge edges) d y).
Proof.
  intros E x y. assert (∀ a b, edge E a b ↔ (a = p ∧ b = d) ∨ edge edges a b) as HE.
  { intros a b. unfold edge, E. rewrite elem_of_bset_insert. naive_solver. }
  induction 1 as [x y Hxy|x y z Hxy Hyz IH].
  - apply HE in Hxy as [[-> ->]|Hxy]; [right; by split|left; by constructor].
  - apply HE in Hxy as [[-> ->]|Hxy].
    + right. split; [done|]. destruct IH as [IH|[_ IH]]; [by apply tc_rtc|done].
    + destruct IH as [IH|[IH1 IH2]]; [left; by eapply tc_l|right].
      split; [|done]. by eapply rtc_l.
Qed.

Lemma recorder_depends_on_inv r node pre r' :
  recorder_shape r →
  recorder_depends_on r node pre = Done r' →
  valid_id r node ∧ valid_id r pre ∧ ¬ rtc (edge (rec_edges r)) node pre ∧
  r' = mkRecorder (rec_owner r) (rec_resources r) (rec_nodes r)
         (bset_insert (pre, node) (rec_edges r)).
Proof.
  intros Hshape. unfold recorder_depends_on. intros ?. invert_ok.
  rewrite validate_node_Ok in *. destruct x1 as [|]; [done|]. invert_ok. subst r'.
  split_and!; [done..| |done]. case_decide; [done|]. invert_ok.
  destruct (path_exists_spec r node pre) as (b & Hb & Hiff); [done..|].
  rewrite Hb in *. simplify_eq. by intros ?%Hiff.
Qed.

Lemma recorder_depends_on_wf r node pre r' :
  recorder_wf r → recorder_depends_on r node pre = Done r' → recorder_wf r'.
Proof.
  intros Hwf (Hn & Hp & Hno & ->)%recorder_depends_on_inv; [|apply Hwf].
  destruct Hwf as [[Hids Hedges Hsorted] Hac Hcn Hcr Hsz Hreg Harg]. split; simpl; try done.
  - split; simpl; [done| |by apply bset_insert_sorted].
    intros p d [[= -> ->]|Hpd]%elem_of_bset_insert; [done|by apply Hedges].
  - intros x [Hx|[H1 H2]]%edge_insert_tc; [by apply Hac in Hx|]. apply Hno. by etrans.
Qed.

(** [depends_on] never panics and refuses exactly the edges that would close a
    cycle. *)
Lemma recorder_depends_on_cases r node pre :
  recorder_shape r →
  recorder_depends_on r node pre =
    match validate_node r node, validate_node r pre with
    | Err e, _ => Fail e
    | Ok _, Err e => Fail e
    | Ok _, Ok _ =>
        match path_exists r node pre with
        | Some true => Fail (DependencyCycle node pre)
        | _ => Done (mkRecorder (rec_owner r) (rec_resources r) (rec_nodes r)
                 (bset_insert (pre, node) (rec_edges r)))
        end
    end.
Proof.
  intros Hshape. unfold recorder_depends_on.
  destruct (validate_node r node) as [[]|e] eqn:E1; simpl; [|done].
  destruct (validate_node r pre) as [[]|e] eqn:E2; simpl; [|done].
  apply validate_node_Ok in E1, E2.
  destruct (path_exists_spec r node pre) as (b & Hb & Hiff); [done..|]. rewrite Hb.
  case_decide as Heq; simpl; [|by destruct b].
  subst. destruct b; [done|]. destruct Hiff as [_ Hiff]. by discriminate Hiff.
Qed.

(** ** Recording as a state machine *)

Inductive rec_step : relation Recorder :=
| step_resource r label size r' id :
    recorder_resource r label size = Ok (r', id) → rec_step r r'
| step_dispatch r launch accesses r' id :
    recorder_dispatch r launch accesses = Ok (r', id) → rec_step r r'
| step_depends_on r node prerequisite r' :
    recorder_depends_on r node prerequisite = Done r' → rec_step r r'.

Lemma rec_step_wf r r' : rec_step r r' → recorder_wf r → recorder_wf r'.
Proof.
  destruct 1; intros.
  - by eapply recorder_resource_wf.
  - by eapply recorder_dispatch_wf.
  - by eapply recorder_depends_on_wf.
Qed.

(** ** A concrete recording

    A producer that writes [a], and two consumers that read one half of it each
    and write one half of [b]; the consumers depend on the producer. *)

Definition sample_resources : Recorder := mkRecorder 7 [] [] [].

Definition sample_a : ResourceId := mkResourceId 7 0.
Definition sample_b : ResourceId := mkResourceId 7 1.
Definition sample_launch (k : string) (args : list KernelArg) : KernelLaunch :=
  mkLaunch (lit k) (mkDim3 64 1 1) (mkDim3 64 1 1) 0 args None None 5.

Definition sample_dispatches : result RecordError Recorder :=
  '(r, a) ← recorder_resource sample_resources (lit "a") 64;
  '(r, b) ← recorder_resource r (lit "b") 64;
  '(r, _) ← recorder_dispatch r (sample_launch "produce" [ArgResource a 0; ArgScalarSlot (mkSlotId 3) 4])
       [access_write (mkRegion a 0 64)];
  '(r, _) ← recorder_dispatch r (sample_launch "consume" [ArgResource a 0; ArgResource b 0])
       [access_read (mkRegion a 0 32); access_write (mkRegion b 0 32)];
  '(r, _) ← recorder_dispatch r (sample_launch "consume" [ArgResource a 32; ArgResource b 32])
       [access_read (mkRegion a 32 32); access_write (mkRegion b 32 32)];
  Ok r.

Definition sample_racy : Recorder :=
  match sample_dispatches with Ok r => r | Err _ => sample_resources end.

Definition sample : Recorder :=
  match (r ← recorder_depends_on sample_racy (mkNodeId 7 1) (mkNodeId 7 0);
         recorder_depends_on r (mkNodeId 7 2) (mkNodeId 7 0)) with
  | Done r => r
  | _ => sample_racy
  end.

Lemma sample_dispatches_reachable r :
  sample_dispatches = Ok r → rtc rec_step sample_resources r.
Proof.
  unfold sample_dispatches. intros H.
  do 2 (apply bind_Ok_inv in H as ([? ?] & ? & H); eapply rtc_l; [by eapply step_resource|]).
  do 3 (apply bind_Ok_inv in H as ([? ?] & ? & H); eapply rtc_l; [by eapply step_dispatch|]).
  injection H as <-. apply rtc_refl.
Qed.

Lemma sample_racy_reachable : rtc rec_step sample_resources sample_racy.
Proof. by apply sample_dispatches_reachable. Qed.

Lemma sample_reachable : rtc rec_step sample_resources sample.
Proof.
  etrans; [apply sample_racy_reachable|].
  eapply rtc_l; [apply (step_depends_on _ (mkNodeId 7 1) (mkNodeId 7 0)); reflexivity|].
  eapply rtc_l; [apply (step_depends_on _ (mkNodeId 7 2) (mkNodeId 7 0)); reflexivity|].
  apply rtc_refl.
Qed.

Lemma rec_steps_wf r r' : rtc rec_step r r' → recorder_wf r → recorder_wf r'.
Proof. induction 1; [done|]. intros. eauto using rec_step_wf. Qed.

Lemma sample_resources_wf : recorder_wf sample_resources.
Proof. by apply (recorder_new_wf 7 8). Qed.

Lemma sample_racy_wf : recorder_wf sample_racy.
Proof. exact (rec_steps_wf _ _ sample_racy_reachable sample_resources_wf). Qed.

Lemma sample_wf : recorder_wf sample.
Proof. exact (rec_steps_wf _ _ sample_reachable sample_resources_wf). Qed.

(** ** Main results *)

(** C38: whatever is recorded from a new recorder is well-formed: node identifiers
    are their indices, dependency edges connect recorded nodes and never form a
    cycle, and every access and resource argument stays within its allocation. *)
Theorem recording_wf next next' r0 r :
  recorder_new next = Some (next', r0) → rtc rec_step r0 r → recorder_wf r.
Proof. intros H0%recorder_new_wf Hs. by eapply rec_steps_wf. Qed.

Lemma recording_wf_witness :
  recorder_new 7 = Some (8%Z, sample_resources) ∧ recorder_wf sample.
Proof.
  split; [reflexivity|]. apply (recording_wf 7 8 sample_resources sample).
  - reflexivity.
  - exact sample_reachable.
Defined.

(** On recorded nodes, [depends_on] always returns: it refuses the edge, with
    [DependencyCycle], exactly when the prerequisite is already reachable from
    the node, and otherwise adds that edge and changes nothing else. *)
Theorem depends_on_exact r node pre :
  recorder_wf r → valid_id r node → valid_id r pre →
  (rtc (edge (rec_edges r)) node pre ∧
    recorder_depends_on r node pre = Fail (DependencyCycle node pre)) ∨
  (¬ rtc (edge (rec_edges r)) node pre ∧
    ∃ r', recorder_depends_on r node pre = Done r' ∧ rec_owner r' = rec_owner r ∧
      rec_resources r' = rec_resources r ∧ rec_nodes r' = rec_nodes r ∧
      ∀ p d, edge (rec_edges r') p d ↔ (p = pre ∧ d = node) ∨ edge (rec_edges r) p d).
Proof.
  intros Hwf Hn Hp. rewrite recorder_depends_on_cases by apply Hwf.
  rewrite (proj2 (validate_node_Ok r node tt) Hn), (proj2 (validate_node_Ok r pre tt) Hp).
  destruct (path_exists_spec r node pre) as (b & -> & Hiff); [apply Hwf|done|].
  destruct b; [left; split; [by apply Hiff|done]|right].
  split; [intros ?%Hiff; done|]. eexists; split_and!; [done..|].
  intros p d. unfold edge; simpl. rewrite elem_of_bset_insert. naive_solver.
Qed.

Lemma depends_on_exact_witness :
  recorder_depends_on sample (mkNodeId 7 0) (mkNodeId 7 2)
    = Fail (DependencyCycle (mkNodeId 7 0) (mkNodeId 7 2)).
Proof.
  destruct (depends_on_exact sample (mkNodeId 7 0) (mkNodeId 7 2)) as [[_ H]|[Hno _]].
  - exact sample_wf.
  - split; [reflexivity|vm_compute; lia].
  - split; [reflexivity|vm_compute; lia].
  - exact H.
  - exfalso. apply Hno. apply rtc_once. vm_compute. repeat constructor.
Defined.

(** [dispatch] succeeds exactly when the node count fits a [u32], every
    declared region lies in a recorded allocation of this recorder and every
    resource argument points at a byte some declared access covers. *)
Theorem dispatch_iff r launch accesses :
  (∃ r' id, recorder_dispatch r launch accesses = Ok (r', id)) ↔
  (Z.of_nat (length (rec_nodes r)) ≤ umax 32)%Z ∧
  (∀ a, a ∈ accesses → region_in_bounds r (acc_region a)) ∧
  (∀ a, a ∈ launch_arguments launch → argument_ok r accesses a).
Proof.
  split; [intros (r' & id & H%recorder_dispatch_inv); tauto|].
  intros (Hn & Hreg & Harg). unfold recorder_dispatch.
  rewrite (proj2 (for_each_Ok _ accesses tt)) by (intros; by apply validate_region_Ok, Hreg).
  cbn [mbind result_bind].
  rewrite (proj2 (for_each_Ok _ (launch_arguments launch) tt))
    by (intros; by apply validate_argument_Ok, Harg).
  cbn [mbind result_bind]. rewrite (proj2 (try_from_len_Some 32 _ _) (conj eq_refl Hn)).
  cbn [ok_or mbind result_bind]. eauto.
Qed.
