(* ===== verification/Plan.v ===== *)
(** * Compiling a recorded DAG ([plan.rs], [backend.rs])

    [plan_compile] validates the kernel contracts, orders the nodes
    topologically, computes reachability, refuses unordered memory hazards and
    assigns every dispatch to the lane on which it ends first. *)

From S2P Require Import Prelude BTree Ir Identity Recorder.

(** ** Options and errors *)

Inductive ReplayMode :=
| TokenLatency
| Throughput (max_tokens_in_flight : positive).

#[export] Instance ReplayMode_eq_dec : EqDecision ReplayMode.
Proof. solve_decision. Defined.

(** [NonZeroUsize::new]. *)
Definition nonzero (n : nat) : option positive :=
  match n with O => None | S _ => Some (Pos.of_nat n) end.

Definition replay_mode_throughput (max_tokens_in_flight : nat) : option ReplayMode :=
  Throughput <$> nonzero max_tokens_in_flight.

Record CompileOptions := mkOptions { opt_lane_count : positive; opt_replay_mode : ReplayMode }.

Definition options_lanes (lane_count : nat) (mode : ReplayMode) : option CompileOptions :=
  (λ n, mkOptions n mode) <$> nonzero lane_count.

Inductive HazardKind := ReadAfterWrite | WriteAfterRead | WriteAfterWrite.

#[export] Instance HazardKind_eq_dec : EqDecision HazardKind.
Proof. solve_decision. Defined.

Record Hazard := mkHazard {
  hz_first : NodeId;
  hz_second : NodeId;
  hz_kind : HazardKind;
  hz_overlap : DeviceRegion
}.

Inductive CompileError :=
| Cycle (nodes : list NodeId)
| UnorderedHazards (hazards : list Hazard)
| InvalidKernargAbi (kernel : rstr) (cause : KernargAbiError)
| ConflictingScalarSlotSize (slot : ScalarSlotId) (first second : Z)
| ConflictingKernelIdentity (kernel : rstr).

Definition compile_error_hazards (e : CompileError) : list Hazard :=
  match e with
  | UnorderedHazards hazards => hazards
  | Cycle _ | InvalidKernargAbi _ _ | ConflictingScalarSlotSize _ _ _
  | ConflictingKernelIdentity _ => []
  end.

(** ** Plans *)

Record PlannedResource := mkPlannedResource {
  pr_id : ResourceId;
  pr_label : rstr;
  pr_size : Z
}.

Record PlannedDispatch := mkPlannedDispatch {
  pd_node : NodeId;
  pd_lane : nat;
  pd_launch : KernelLaunch;
  pd_accesses : list Access;
  pd_dependencies : list NodeId;
  pd_estimated_start : Z;
  pd_estimated_end : Z
}.

Record CompiledPlan := mkPlan {
  plan_resources : list PlannedResource;
  plan_dispatches : list PlannedDispatch;
  plan_terminals : list NodeId;
  plan_lane_count : positive;
  plan_replay_mode : ReplayMode;
  plan_fingerprint : list Z
}.

(** ** Kernel contracts *)

(** The kernel table maps a key to its ABI hash and artifact identity. *)
Definition kernel_identity (l : KernelLaunch) :
    option Sha256Digest * option KernelArtifactIdentity :=
  (abi_hash <$> launch_kernarg_abi l, launch_artifact_identity l).

Abbreviation slot_table := (list (ScalarSlotId * Z)).
Abbreviation kernel_table :=
  (list (rstr * (option Sha256Digest * option KernelArtifactIdentity))).

Fixpoint check_slots (slots : slot_table) (arguments : list KernelArg) :
    result CompileError slot_table :=
  match arguments with
  | [] => Ok slots
  | ArgScalarSlot slot size :: arguments =>
      match bmap_get slot slots with
      | Some previous =>
          if (previous =? size)%Z then check_slots (bmap_insert slot size slots) arguments
          else Err (ConflictingScalarSlotSize slot previous size)
      | None => check_slots (bmap_insert slot size slots) arguments
      end
  | _ :: arguments => check_slots slots arguments
  end.

Fixpoint validate_contracts_loop (slots : slot_table) (kernels : kernel_table)
    (nodes : list Node) : result CompileError unit :=
  match nodes with
  | [] => Ok tt
  | node :: nodes =>
      let launch := node_launch node in
      _ ← match launch_kernarg_abi launch with
          | Some abi => map_err (InvalidKernargAbi (launch_kernel launch))
                          (validate_arguments abi (launch_arguments launch))
          | None => Ok tt
          end;
      slots' ← check_slots slots (launch_arguments launch);
      let identity := kernel_identity launch in
      match bmap_get (launch_kernel launch) kernels with
      | Some previous =>
          if decide (previous = identity) then
            validate_contracts_loop slots'
              (bmap_insert (launch_kernel launch) identity kernels) nodes
          else Err (ConflictingKernelIdentity (launch_kernel launch))
      | None =>
          validate_contracts_loop slots'
            (bmap_insert (launch_kernel launch) identity kernels) nodes
      end
  end.

Definition validate_kernel_contracts (r : Recorder) : result CompileError unit :=
  validate_contracts_loop [] [] (rec_nodes r).

(** ** Topological order *)

(** [indegree[target] += 1] for every edge. *)
Definition indegrees (edges : list (NodeId * NodeId)) (n : nat) : option (list nat) :=
  foldM (λ indegree e, vec_update indegree (node_index e.2) (λ d, Some (S d)))
    (replicate n 0) edges.

(** The inner loop: decrement the indegree of every target, and make ready those
    that reach zero.  Decrementing zero overflows. *)
Definition release_targets (targets : list NodeId) (st : list nat * list NodeId) :
    option (list nat * list NodeId) :=
  foldM (λ '(indegree, ready) target,
      degree ← indegree !! node_index target;
      degree' ← (match degree with O => None | S d => Some d end);
      indegree' ← vec_set indegree (node_index target) degree';
      Some (indegree', if degree' =? 0 then bset_insert target ready else ready))
    st targets.

Fixpoint topo_loop (fuel : nat) (edges : list (NodeId * NodeId)) (indegree : list nat)
    (ready order : list NodeId) : option (list nat * list NodeId) :=
  match fuel with
  | O => None
  | S fuel =>
      match ready with
      | [] => Some (indegree, order)
      | node :: ready =>
          '(indegree', ready') ← release_targets (edge_targets edges node) (indegree, ready);
          topo_loop fuel edges indegree' ready' (order ++ [node])
      end
  end.

(** [nodes.iter().filter(|node| p(indegree[node.id.index]))], mapped to ids. *)
Definition ids_with_degree (p : nat → bool) (indegree : list nat) (nodes : list Node) :
    option (list NodeId) :=
  foldM (λ acc node,
      d ← indegree !! node_index (node_id node);
      Some (if p d then acc ++ [node_id node] else acc)) [] nodes.

Definition topological_order (r : Recorder) : exec CompileError (list NodeId) :=
  indegree ← unwrap (indegrees (rec_edges r) (length (rec_nodes r)));
  zero ← unwrap (ids_with_degree (λ d, d =? 0) indegree (rec_nodes r));
  let ready := foldr bset_insert [] (reverse zero) in
  '(indegree, order) ← unwrap
    (topo_loop (S (length (rec_nodes r))) (rec_edges r) indegree ready []);
  if length order =? length (rec_nodes r) then Done order
  else
    nodes ← unwrap (ids_with_degree (λ d, negb (d =? 0)) indegree (rec_nodes r));
    Fail (Cycle nodes).

(** ** Reachability *)

(** [row.iter_mut().zip(other)] with [|=]: entries past the end of [other]
    keep their value. *)
Fixpoint row_or (row other : list bool) : list bool :=
  match row, other with
  | r :: row, o :: other => (r || o) :: row_or row other
  | row, [] => row
  | [], _ => []
  end.

(** Process [node]: mark every target and add the target's own descendants. *)
Definition reach_node (node : nat) (targets : list nat) (m : list (list bool)) :
    option (list (list bool)) :=
  foldM (λ m target,
      m ← vec_update m node (λ row, vec_set row target true);
      descendants ← m !! target;
      vec_update m node (λ row, Some (row_or row descendants)))
    m targets.

Definition reachability (r : Recorder) (order : list NodeId) : option (list (list bool)) :=
  let count := length (rec_nodes r) in
  foldM (λ m node,
      reach_node (node_index node) (node_index <$> edge_targets (rec_edges r) node) m)
    (replicate count (replicate count false)) (reverse order).

(** ** Hazards *)

Definition hazard_kind (first second : AccessMode) : option HazardKind :=
  match first, second with
  | ReadMode, ReadMode => None
  | WriteMode, ReadMode => Some ReadAfterWrite
  | ReadMode, WriteMode => Some WriteAfterRead
  | WriteMode, WriteMode => Some WriteAfterWrite
  end.

(** The conflicts of two lists of accesses, in program order. *)
Definition access_conflicts (first second : list Access) : list (HazardKind * DeviceRegion) :=
  first ≫= λ a, filter_map (λ b,
    overlap ← region_intersection (acc_region a) (acc_region b);
    kind ← hazard_kind (acc_mode a) (acc_mode b);
    Some (kind, overlap)) second.

Definition node_hazards (first second : Node) : list Hazard :=
  (λ '(kind, overlap), mkHazard (node_id first) (node_id second) kind overlap)
    <$> access_conflicts (node_accesses first) (node_accesses second).

(** The body for one pair of node indices; [reachable] is indexed by both. *)
Definition pair_hazards (r : Recorder) (reachable : list (list bool)) (i j : nat) :
    option (list Hazard) :=
  row_i ← reachable !! i; row_j ← reachable !! j;
  ij ← row_i !! j;
  ji ← (if (ij : bool) then Some true else row_j !! i);
  if (ij : bool) || ji then Some []
  else
    first ← rec_nodes r !! i; second ← rec_nodes r !! j;
    Some (node_hazards first second).

(** All index pairs [i < j < n], row by row. *)
Definition index_pairs (n : nat) : list (nat * nat) :=
  seq 0 n ≫= λ i, (λ j, (i, j)) <$> seq (S i) (n - S i).

Definition unordered_hazards (r : Recorder) (reachable : list (list bool)) :
    option (list Hazard) :=
  foldM (λ acc '(i, j), hs ← pair_hazards r reachable i j; Some (acc ++ hs))
    [] (index_pairs (length reachable)).

(** ** Lane assignment *)

(** The prerequisites of [node], in edge order. *)
Definition dependencies_of (edges : list (NodeId * NodeId)) (node : NodeId) : list NodeId :=
  filter_map (λ e, if decide (e.2 = node) then Some e.1 else None) edges.

(** [iter().map(..).max().unwrap_or(0)] over the finish times. *)
Definition dependency_finish (node_finish : list Z) (dependencies : list NodeId) : option Z :=
  foldM (λ acc d, f ← node_finish !! node_index d; Some (Z.max acc f)) 0%Z dependencies.

Record Slot := mkSlot { sl_lane : nat; sl_start : Z; sl_end : Z }.

Definition lane_slot (finish work : Z) (lane : nat) (available : Z) : Slot :=
  let start := Z.max available finish in
  mkSlot lane start (saturating_add 64 start work).

(** [min_by_key(|..| (end, start, lane))]: the first of the least elements. *)
Definition slot_key (s : Slot) : Z * Z * nat := (sl_end s, sl_start s, sl_lane s).

Fixpoint min_slot (best : Slot) (l : list Slot) : Slot :=
  match l with
  | [] => best
  | s :: l => min_slot (match cmp (slot_key s) (slot_key best) with Lt => s | _ => best end) l
  end.

Definition choose_lane (lane_available : list Z) (finish work : Z) : option Slot :=
  match (λ '(lane, available), lane_slot finish work lane available)
          <$> enumerate lane_available with
  | [] => None
  | s :: l => Some (min_slot s l)
  end.

Record SchedState := mkSched {
  ss_available : list Z;
  ss_finish : list Z;
  ss_dispatches : list PlannedDispatch
}.

Definition schedule_node (r : Recorder) (st : SchedState) (node : NodeId) : option SchedState :=
  entry ← rec_nodes r !! node_index node;
  let dependencies := dependencies_of (rec_edges r) node in
  finish ← dependency_finish (ss_finish st) dependencies;
  let work := Zpos (launch_estimated_work (node_launch entry)) in
  slot ← choose_lane (ss_available st) finish work;
  available ← vec_set (ss_available st) (sl_lane slot) (sl_end slot);
  node_finish ← vec_set (ss_finish st) (node_index node) (sl_end slot);
  Some (mkSched available node_finish
    (ss_dispatches st ++
      [mkPlannedDispatch node (sl_lane slot) (node_launch entry) (node_accesses entry)
         dependencies (sl_start slot) (sl_end slot)])).

Definition schedule (r : Recorder) (lane_count : nat) (order : list NodeId) :
    option SchedState :=
  foldM (schedule_node r)
    (mkSched (replicate lane_count 0%Z) (replicate (length (rec_nodes r)) 0%Z) []) order.

Definition terminals_of (r : Recorder) : list NodeId :=
  filter_map (λ node,
      if existsb (λ e : NodeId * NodeId, bool_decide (e.1 = node_id node)) (rec_edges r)
      then None else Some (node_id node))
    (rec_nodes r).

Definition planned_resources (r : Recorder) : list PlannedResource :=
  (λ '(index, resource), mkPlannedResource (mkResourceId (rec_owner r) index)
      (resource_label resource) (resource_size resource))
    <$> enumerate (rec_resources r).

(** ** Fingerprints *)

Definition put_u32 (x : Z) : list Z := le_bytes 4 x.
Definition put_u64 (x : Z) : list Z := le_bytes 8 x.
Definition put_bytes (b : list Z) : list Z := put_u64 (Z.of_nat (length b)) ++ b.
Definition put_dim3 (d : Dim3) : list Z := put_u32 (dim_x d) ++ put_u32 (dim_y d) ++ put_u32 (dim_z d).

#[global] Arguments put_u32 x : simpl never.
#[global] Arguments put_u64 x : simpl never.
#[global] Arguments put_bytes b : simpl never.

Definition put_mode (m : ReplayMode) : list Z :=
  match m with
  | TokenLatency => [0%Z]
  | Throughput n => 1%Z :: put_u64 (Zpos n)
  end.

Definition put_argument (a : KernelArg) : list Z :=
  match a with
  | ArgScalar bytes => 0%Z :: put_bytes bytes
  | ArgScalarSlot slot size => 1%Z :: put_u32 (slot_index slot) ++ put_u32 size
  | ArgResource resource byte_offset =>
      2%Z :: put_u32 (Z.of_nat (res_index resource)) ++ put_u64 byte_offset
  end.

Definition put_access (a : Access) : list Z :=
  (match acc_mode a with ReadMode => 0%Z | WriteMode => 1%Z end)
  :: put_u32 (Z.of_nat (res_index (reg_resource (acc_region a))))
  ++ put_u64 (reg_offset (acc_region a)) ++ put_u64 (reg_len (acc_region a)).

Definition put_list {A} (f : A → list Z) (l : list A) : list Z :=
  put_u64 (Z.of_nat (length l)) ++ (l ≫= f).

#[global] Arguments put_list {A} f l : simpl never.

Definition put_launch (l : KernelLaunch) : list Z :=
  put_bytes (utf8 (launch_kernel l)) ++ put_dim3 (launch_grid l) ++ put_dim3 (launch_block l)
  ++ put_u32 (launch_dynamic_shared_bytes l) ++ put_u32 (Zpos (launch_estimated_work l))
  ++ (match launch_kernarg_abi l with
      | Some abi => 1%Z :: abi_hash abi
      | None => [0%Z]
      end)
  ++ (match launch_artifact_identity l with
      | Some i => 1%Z :: ident_code_object i ++ ident_symbol_text i ++ put_u64 (ident_generation i)
      | None => [0%Z]
      end)
  ++ put_list put_argument (launch_arguments l).

Definition put_dispatch (d : PlannedDispatch) : list Z :=
  put_u32 (Z.of_nat (node_index (pd_node d))) ++ put_u64 (Z.of_nat (pd_lane d))
  ++ put_launch (pd_launch d)
  ++ put_list put_access (pd_accesses d)
  ++ put_list (λ n, put_u32 (Z.of_nat (node_index n))) (pd_dependencies d).

Definition put_resource (r : PlannedResource) : list Z :=
  put_u32 (Z.of_nat (res_index (pr_id r))) ++ put_bytes (utf8 (pr_label r)) ++ put_u64 (pr_size r).

(** Everything [fingerprint] feeds to the hasher, in order. *)
Definition fingerprint_input (plan : CompiledPlan) : list Z :=
  lit "redline-compiled-plan-v1" ++ [0%Z]
  ++ put_u64 (Zpos (plan_lane_count plan))
  ++ put_mode (plan_replay_mode plan)
  ++ put_list put_resource (plan_resources plan)
  ++ put_list put_dispatch (plan_dispatches plan)
  ++ put_list (λ n, put_u32 (Z.of_nat (node_index n))) (plan_terminals plan).

Definition fingerprint (sha256 : list Z → Sha256Digest) (plan : CompiledPlan) : list Z :=
  sha256 (fingerprint_input plan).

(** ** Compilation *)

Definition plan_compile (sha256 : list Z → Sha256Digest) (r : Recorder) (o : CompileOptions) :
    exec CompileError CompiledPlan :=
  _ ← try_ (validate_kernel_contracts r);
  order ← topological_order r;
  reachable ← unwrap (reachability r order);
  hazards ← unwrap (unordered_hazards r reachable);
  if negb (is_empty hazards) then Fail (UnorderedHazards hazards)
  else
    st ← unwrap (schedule r (Pos.to_nat (opt_lane_count o)) order);
    let plan := mkPlan (planned_resources r) (ss_dispatches st) (terminals_of r)
                  (opt_lane_count o) (opt_replay_mode o) (replicate 32 0%Z) in
    Done (mkPlan (plan_resources plan) (plan_dispatches plan) (plan_terminals plan)
            (plan_lane_count plan) (plan_replay_mode plan) (fingerprint sha256 plan)).

(** Queries on a compiled plan. *)
Definition plan_scalar_slots (plan : CompiledPlan) : slot_table :=
  foldl (λ slots d, foldl (λ slots a,
      match a with
      | ArgScalarSlot slot size => bmap_insert slot size slots
      | _ => slots
      end) slots (launch_arguments (pd_launch d)))
    [] (plan_dispatches plan).

Definition plan_artifact_identities (plan : CompiledPlan) : ArtifactCatalog :=
  foldl (λ artifacts d,
      match launch_artifact_identity (pd_launch d) with
      | Some identity => bmap_insert (launch_kernel (pd_launch d)) identity artifacts
      | None => artifacts
      end) [] (plan_dispatches plan).
