(* ===== verification/PlanOrder.v ===== *)
(** * Order and hazards ([plan.rs]: [topological_order], [reachability])

    Kahn's algorithm with a [BTreeSet] of ready nodes: it returns on every
    recorded graph, yields a linear extension of the dependencies when the graph
    is acyclic, and otherwise reports nodes that lie on or behind a cycle.  The
    reachability matrix computed along the reversed order is the transitive
    closure of the dependencies, and the list of [unordered_hazards] is empty
    exactly when every two conflicting dispatches are ordered. *)

From S2P Require Import Prelude BTree Ir Identity Recorder Plan.

(** Every prerequisite of a node stands before it. *)
Definition topo_sorted (edges : list (NodeId * NodeId)) (order : list NodeId) : Prop :=
  ∀ l1 x l2, order = l1 ++ x :: l2 → ∀ p, edge edges p x → p ∈ l1.

Record topo_order (r : Recorder) (order : list NodeId) : Prop := {
  to_nodup : NoDup order;
  to_nodes x : x ∈ order ↔ valid_id r x;
  to_sorted : topo_sorted (rec_edges r) order
}.

(** ** Counting pending prerequisites *)

Definition pending (edges : list (NodeId * NodeId)) (order : list NodeId) (i : nat) : nat :=
  length (filter (λ e, node_index e.2 = i ∧ e.1 ∉ order) edges).

Lemma pending_zero edges order i :
  pending edges order i = 0 ↔ ∀ p d, edge edges p d → node_index d = i → p ∈ order.
Proof.
  unfold pending, edge. rewrite length_zero_iff_nil. split.
  - intros Hf p d Hin Hi. destruct (decide (p ∈ order)) as [|Hp]; [done|]. exfalso.
    assert ((p, d) ∈ filter (λ e : NodeId * NodeId, node_index e.2 = i ∧ e.1 ∉ order) edges) as H.
    { apply list_elem_of_filter. done. }
    rewrite Hf in H. set_solver.
  - intros Hall. destruct (filter _ _) as [|[p d] l] eqn:Hf; [done|]. exfalso.
    assert ((p, d) ∈ filter (λ e : NodeId * NodeId, node_index e.2 = i ∧ e.1 ∉ order) edges) as H.
    { rewrite Hf. set_solver. }
    apply list_elem_of_filter in H as [[Hi Hp] Hin]. simpl in *. eauto.
Qed.

Lemma filter_split_length {A} (P Q : A → Prop) `{∀ x, Decision (P x), ∀ x, Decision (Q x)} l :
  length (filter P l) =
  length (filter (λ x, P x ∧ ¬ Q x) l) + length (filter (λ x, P x ∧ Q x) l).
Proof.
  induction l as [|x l IH]; [done|]. rewrite !filter_cons.
  repeat case_decide; simpl; try tauto; lia.
Qed.

Lemma filter_unique_length {A} (P : A → Prop) `{∀ x, Decision (P x)} l a :
  NoDup l → (∀ x, x ∈ l → P x → x = a) → a ∈ l → P a → length (filter P l) = 1.
Proof.
  intros Hnd Hu Ha HPa. assert (filter P l = [a]) as ->; [|done].
  apply Permutation_singleton_r, NoDup_Permutation.
  - by apply NoDup_filter.
  - apply NoDup_singleton.
  - intros x. rewrite list_elem_of_filter, list_elem_of_singleton. naive_solver.
Qed.

Lemma filter_none_length {A} (P : A → Prop) `{∀ x, Decision (P x)} l :
  (∀ x, x ∈ l → ¬ P x) → length (filter P l) = 0.
Proof.
  intros Hn. destruct (filter P l) as [|x l'] eqn:Hf; [done|]. exfalso.
  assert (x ∈ filter P l) as [? ?]%list_elem_of_filter by (rewrite Hf; set_solver). by eapply Hn.
Qed.

Section order.
Context (r : Recorder) (Hshape : recorder_shape r).
Abbreviation n := (length (rec_nodes r)).
Abbreviation E := (rec_edges r).

Lemma rid_index x : valid_id r x → rid r (node_index x) = x.
Proof. destruct x. unfold valid_id, rid; simpl. intros [-> _]. done. Qed.

Lemma valid_rid i : valid_id r (rid r i) ↔ i < n.
Proof. unfold valid_id; simpl. tauto. Qed.

Lemma valid_index_inj x y :
  valid_id r x → valid_id r y → node_index x = node_index y → x = y.
Proof. intros Hx Hy Heq. rewrite <-(rid_index x), <-(rid_index y), Heq; done. Qed.

Lemma edges_NoDup : NoDup E.
Proof. apply bset_sorted_NoDup, Hshape. Qed.

Lemma edge_targets_NoDup node : NoDup (node_index <$> edge_targets E node).
Proof.
  assert (∀ l, (∀ e, e ∈ l → valid_id r e.2) → NoDup l →
    NoDup (node_index <$> edge_targets l node)) as Hg.
  { induction l as [|[p d] l IH]; intros Hv Hnd; [constructor|].
    apply NoDup_cons in Hnd as [Hni Hnd]. rewrite edge_targets_cons.
    case_decide as Hp; [rewrite fmap_cons|apply IH; set_solver].
    constructor; [|apply IH; set_solver]. intros (d' & Hi & Hd')%list_elem_of_fmap.
    apply elem_of_edge_targets in Hd'. unfold edge in Hd'. subst p. apply Hni.
    assert (d = d') as ->; [|done]. apply valid_index_inj; [| |done].
    - apply (Hv (node, d)). set_solver.
    - apply (Hv (node, d')). set_solver. }
  apply Hg; [|apply edges_NoDup]. intros [p d] Hin. by apply (shape_edges _ Hshape) in Hin as [_ ?].
Qed.

Lemma pending_snoc order node i :
  node ∉ order → i < n →
  pending E order i =
  pending E (order ++ [node]) i + (if decide (i ∈ node_index <$> edge_targets E node) then 1 else 0).
Proof.
  intros Hno Hi. unfold pending.
  rewrite (filter_split_length _ (λ e : NodeId * NodeId, e.1 = node)). f_equal.
  - f_equal. apply list_filter_iff. intros [p d]; simpl. rewrite elem_of_app, list_elem_of_singleton. tauto.
  - case_decide as Hd.
    + apply list_elem_of_fmap in Hd as (d & -> & Hd%elem_of_edge_targets).
      apply (filter_unique_length _ _ (node, d)); [apply edges_NoDup| |done|done].
      intros [p d'] Hin [[Hi' _] Hp]; simpl in *. subst p. f_equal.
      apply valid_index_inj; [by apply (shape_edges _ Hshape) in Hin as [_ ?]|
        by apply (shape_edges _ Hshape) in Hd as [_ ?]|done].
    + apply filter_none_length. intros [p d] Hin [[Hi' _] Hp]; simpl in *. subst p. apply Hd.
      apply list_elem_of_fmap. exists d. split; [done|]. by apply elem_of_edge_targets.
Qed.

(** ** The initial indegrees *)

Lemma indegrees_spec :
  ∃ deg, indegrees E n = Some deg ∧ length deg = n ∧
    ∀ i, i < n → deg !! i = Some (pending E [] i).
Proof.
  unfold indegrees.
  destruct (foldM_inv (λ l deg, length deg = n ∧
      ∀ i, i < n → deg !! i = Some (pending l [] i))
    (λ indegree (e : NodeId * NodeId), vec_update indegree (node_index e.2) (λ d, Some (S d)))
    E (replicate n 0)) as (deg & Hf & Hl & Hd); [| |by exists deg].
  - split; [by rewrite length_replicate|]. intros i Hi. by rewrite lookup_replicate_2.
  - intros l1 [p d] l2 deg Heq [Hl Hd].
    assert (edge E p d) as [_ [_ Hidx]]%(shape_edges _ Hshape) by (unfold edge; rewrite Heq; set_solver).
    unfold vec_update; simpl. rewrite (Hd _ Hidx); simpl. rewrite vec_set_lt by lia.
    eexists; split; [done|]. split; [by rewrite length_insert|]. intros i Hi.
    unfold pending in *. rewrite filter_app, length_app, filter_cons; simpl.
    destruct (decide (node_index d = i)) as [<-|Hne].
    + rewrite list_lookup_insert_eq by lia. rewrite decide_True by set_solver. simpl. f_equal; lia.
    + rewrite list_lookup_insert_ne by done. rewrite decide_False by naive_solver.
      simpl. rewrite Nat.add_0_r. by apply Hd.
Qed.

(** ** Releasing the targets of a processed node *)

Lemma release_targets_spec ts deg ready :
  NoDup (node_index <$> ts) →
  (∀ t, t ∈ ts → ∃ d, deg !! node_index t = Some (S d)) →
  ∃ deg' ready', release_targets ts (deg, ready) = Some (deg', ready') ∧
    length deg' = length deg ∧
    (∀ i d, deg !! i = Some d →
      deg' !! i = Some (d - (if decide (i ∈ node_index <$> ts) then 1 else 0))) ∧
    (∀ x, x ∈ ready' ↔ x ∈ ready ∨ (x ∈ ts ∧ deg !! node_index x = Some 1)) ∧
    (bset_sorted ready → bset_sorted ready').
Proof.
  revert deg ready. induction ts as [|t ts IH]; intros deg ready Hnd Hpos.
  { exists deg, ready. split; [done|]. split; [done|]. split; [|set_solver].
    intros i d Hd. case_decide as Hi; [by apply not_elem_of_nil in Hi|]. by rewrite Nat.sub_0_r. }
  simpl in Hnd. apply NoDup_cons in Hnd as [Hni Hnd].
  destruct (Hpos t) as [d Hd]; [set_solver|].
  assert (node_index t < length deg) as Hlt by (by eapply lookup_lt_Some).
  destruct (IH (<[node_index t:=d]> deg)
    (if d =? 0 then bset_insert t ready else ready)) as (deg' & ready' & Hr & Hl & Hdeg & Hrd & Hs).
  { done. }
  { intros t' Ht'. destruct (Hpos t') as [d' Hd']; [set_solver|]. exists d'.
    rewrite list_lookup_insert_ne; [done|]. intros Heq. apply Hni.
    rewrite Heq. by apply list_elem_of_fmap_2. }
  exists deg', ready'. unfold release_targets in *; simpl. rewrite Hd; simpl.
  rewrite (vec_set_lt _ _ _ Hlt); simpl. split; [done|].
  split; [by rewrite Hl, length_insert|]. split; [|split].
  - intros i di Hi. destruct (decide (i = node_index t)) as [->|Hne].
    + rewrite Hd in Hi. injection Hi as <-.
      rewrite (Hdeg (node_index t) d) by (by rewrite list_lookup_insert_eq).
      rewrite decide_False by done. rewrite decide_True by set_solver. f_equal; lia.
    + rewrite (Hdeg i di) by (by rewrite list_lookup_insert_ne).
      do 2 f_equal. apply decide_ext. set_solver.
  - intros x. rewrite Hrd.
    assert (x ∈ (if d =? 0 then bset_insert t ready else ready) ↔
      x ∈ ready ∨ x = t ∧ d = 0) as ->.
    { destruct (Nat.eqb_spec d 0); [rewrite elem_of_bset_insert|]; naive_solver. }
    rewrite elem_of_cons. destruct (decide (x = t)) as [->|Hne].
    + rewrite Hd, list_lookup_insert_eq by done. split; [|naive_solver].
      intros [[?|[_ ->]]|[Ht _]]; [by left|by right; auto|].
      exfalso. apply Hni. by apply list_elem_of_fmap_2.
    + split.
      * intros [[?|[? _]]|[Ht Hx]]; [by left|done|right].
        rewrite list_lookup_insert_ne in Hx; [by auto|]. intros Heq. apply Hni. rewrite Heq.
        by apply list_elem_of_fmap_2.
      * intros [?|[[?|Ht] Hx]]; [by left; left|done|right]. split; [done|].
        rewrite list_lookup_insert_ne; [done|]. intros Heq. apply Hni. rewrite Heq.
        by apply list_elem_of_fmap_2.
  - intros Hsort. apply Hs. destruct (d =? 0); [by apply bset_insert_sorted|done].
Qed.

(** ** The main loop *)

Record topo_inv (deg : list nat) (ready order : list NodeId) : Prop := {
  ti_length : length deg = n;
  ti_degree i : i < n → deg !! i = Some (pending E order i);
  ti_ready x : x ∈ ready ↔ (valid_id r x ∧ (x ∉ order) ∧ pending E order (node_index x) = 0);
  ti_ready_sorted : bset_sorted ready;
  ti_nodup : NoDup order;
  ti_valid x : x ∈ order → valid_id r x;
  ti_sorted : topo_sorted E order
}.

Lemma topo_inv_length deg ready order : topo_inv deg ready order → length order ≤ n.
Proof.
  intros Hinv. rewrite <-(length_fmap node_index order).
  enough (length (node_index <$> order) ≤ length (seq 0 n)) as H by (by rewrite length_seq in H).
  apply submseteq_length, NoDup_submseteq.
  - apply NoDup_fmap_2_strong; [|apply Hinv]. intros x y Hx Hy.
    apply valid_index_inj; by apply (ti_valid _ _ _ Hinv).
  - intros i (x & -> & Hx)%list_elem_of_fmap. apply elem_of_seq.
    apply (ti_valid _ _ _ Hinv) in Hx as [_ ?]. lia.
Qed.

Lemma topo_sorted_snoc order x :
  topo_sorted E order → (∀ p, edge E p x → p ∈ order) → topo_sorted E (order ++ [x]).
Proof.
  intros Hs Hx l1 y l2 Heq p Hp.
  destruct l2 as [|z l2 _] using rev_ind.
  - apply app_inj_tail in Heq as [-> <-]. auto.
  - rewrite app_comm_cons, app_assoc in Heq. apply app_inj_tail in Heq as [-> _].
    by eapply Hs.
Qed.

Lemma topo_inv_step deg node ready order :
  topo_inv deg (node :: ready) order →
  ∃ deg' ready',
    release_targets (edge_targets E node) (deg, ready) = Some (deg', ready') ∧
    topo_inv deg' ready' (order ++ [node]).
Proof.
  intros Hinv. destruct (proj1 (ti_ready _ _ _ Hinv node)) as (Hv & Hno & Hp0); [set_solver|].
  rewrite pending_zero in Hp0.
  assert (∀ t, t ∈ edge_targets E node → ∃ d, deg !! node_index t = Some (S d)) as Hpos.
  { intros t Ht. assert (valid_id r t) as Hvt.
    { apply elem_of_edge_targets, (shape_edges _ Hshape) in Ht as [_ ?]. done. }
    rewrite (ti_degree _ _ _ Hinv) by apply Hvt.
    rewrite (pending_snoc _ node) by (done || apply Hvt).
    rewrite decide_True by (by apply list_elem_of_fmap_2). rewrite Nat.add_1_r. eauto. }
  destruct (release_targets_spec (edge_targets E node) deg ready) as
    (deg' & ready' & Hr & Hl & Hdeg & Hrd & Hs); [apply edge_targets_NoDup|done|].
  exists deg', ready'. split; [done|].
  pose proof (bset_sorted_NoDup _ (ti_ready_sorted _ _ _ Hinv)) as [Hnr _]%NoDup_cons.
  assert (∀ x, (x ∉ order ++ [node]) ↔ (x ∉ order) ∧ x ≠ node) as Hni by set_solver.
  split.
  - rewrite Hl. apply Hinv.
  - intros i Hi. rewrite (Hdeg i (pending E order i)) by (by apply (ti_degree _ _ _ Hinv)).
    rewrite (pending_snoc order node i) by done. f_equal; lia.
  - intros x. rewrite Hrd, Hni. split.
    + intros [Hx|[Ht Hx]].
      * destruct (proj1 (ti_ready _ _ _ Hinv x)) as (Hvx & Hox & Hpx); [set_solver|].
        split; [done|]. split; [split; [done|by intros ->]|].
        rewrite (pending_snoc _ node) in Hpx by (done || apply Hvx). lia.
      * assert (edge E node x) as Hex by (by apply elem_of_edge_targets).
        destruct (shape_edges _ Hshape _ _ Hex) as [_ Hvx].
        rewrite (ti_degree _ _ _ Hinv) in Hx by apply Hvx. injection Hx as Hx.
        rewrite (pending_snoc _ node) in Hx by (done || apply Hvx).
        rewrite decide_True in Hx by (by apply list_elem_of_fmap_2).
        split; [done|]. split; [|lia]. split.
        -- intros Hxo. apply list_elem_of_split in Hxo as (l1 & l2 & Heq).
           pose proof (ti_sorted _ _ _ Hinv _ _ _ Heq _ Hex). apply Hno. rewrite Heq. set_solver.
        -- intros ->. apply Hno. by apply (Hp0 node node).
    + intros (Hvx & [Hxo Hxn] & Hpx).
      pose proof (pending_snoc order node (node_index x) Hno (proj2 Hvx)) as Hsn.
      case_decide as Hd.
      * right. apply list_elem_of_fmap in Hd as (t & Hi & Ht). split.
        -- assert (x = t) as ->; [|done]. apply valid_index_inj; [done| |done].
           apply elem_of_edge_targets, (shape_edges _ Hshape) in Ht as [_ ?]. done.
        -- rewrite (ti_degree _ _ _ Hinv) by apply Hvx. f_equal; lia.
      * left. assert (x ∈ node :: ready) as Hin by (apply (ti_ready _ _ _ Hinv); split_and!; [done..|lia]).
        set_solver.
  - apply Hs. by eapply bset_sorted_tail, Hinv.
  - apply NoDup_app. split; [apply Hinv|]. split; [set_solver|apply NoDup_singleton].
  - intros x [Hx| ->%list_elem_of_singleton]%elem_of_app; [by apply (ti_valid _ _ _ Hinv)|done].
  - apply topo_sorted_snoc; [apply Hinv|]. intros p Hp. by apply (Hp0 p node).
Qed.

Lemma topo_loop_spec fuel deg ready order :
  topo_inv deg ready order → n - length order < fuel →
  ∃ deg' order', topo_loop fuel E deg ready order = Some (deg', order') ∧
    topo_inv deg' [] order'.
Proof.
  revert deg ready order. induction fuel as [|fuel IH]; intros deg ready order Hinv Hf; [lia|].
  destruct ready as [|node ready]; simpl; [by eauto|].
  destruct (topo_inv_step _ _ _ _ Hinv) as (deg' & ready' & -> & Hinv'). simpl.
  apply IH; [done|]. pose proof (topo_inv_length _ _ _ Hinv') as Hle.
  rewrite length_app in *; simpl in *. lia.
Qed.

Lemma ids_with_degree_spec p deg :
  length deg = n →
  ∃ ids, ids_with_degree p deg (rec_nodes r) = Some ids ∧
    ∀ x, x ∈ ids ↔ valid_id r x ∧ ∃ d, deg !! node_index x = Some d ∧ p d = true.
Proof.
  intros Hl. unfold ids_with_degree.
  destruct (foldM_inv (λ l ids, ∀ x, x ∈ ids ↔
      valid_id r x ∧ node_index x < length l ∧ ∃ d, deg !! node_index x = Some d ∧ p d = true)
    (λ acc node, d ← deg !! node_index (node_id node);
      Some (if p d then acc ++ [node_id node] else acc)) (rec_nodes r) [])
    as (ids & Hids & Hx).
  - intros x. simpl. set_solver by lia.
  - intros l1 nd l2 ids Heq Hids.
    assert (rec_nodes r !! length l1 = Some nd) as Hnd by (rewrite Heq; by apply list_lookup_middle).
    rewrite (shape_ids _ Hshape _ _ Hnd); simpl.
    assert (length l1 < n) as Hlt by (by eapply lookup_lt_Some).
    destruct (lookup_lt_is_Some_2 deg (length l1)) as [d Hd]; [lia|]. rewrite Hd; simpl.
    eexists; split; [done|]. intros x. rewrite length_app; simpl.
    assert (node_index x < length l1 + 1 ↔ node_index x < length l1 ∨ node_index x = length l1)
      as -> by lia.
    destruct (p d) eqn:Hpd; [rewrite elem_of_app, list_elem_of_singleton|]; rewrite Hids.
    + split; [intros [?| ->]; [naive_solver|]|].
      * split; [by apply valid_rid|]. simpl. naive_solver.
      * intros (Hv & [?|Hi] & Hd'); [by left|]. right. rewrite <-Hi. symmetry. by apply rid_index.
    + split; [naive_solver|]. intros (Hv & [?|Hi] & d' & Hd' & Hp'); [naive_solver|]. congruence.
  - exists ids. split; [done|]. intros x. rewrite Hx. unfold valid_id. naive_solver.
Qed.

(** What the loop leaves behind, before the final test. *)
Lemma topo_run :
  ∃ deg0 zero deg order,
    indegrees E n = Some deg0 ∧
    ids_with_degree (λ d, d =? 0) deg0 (rec_nodes r) = Some zero ∧
    topo_loop (S n) E deg0 (foldr bset_insert [] (reverse zero)) [] = Some (deg, order) ∧
    topo_inv deg [] order.
Proof.
  destruct indegrees_spec as (deg0 & H0 & Hl0 & Hd0).
  destruct (ids_with_degree_spec (λ d, d =? 0) deg0 Hl0) as (zero & Hz & Hzx).
  assert (∀ (l : list NodeId) x, x ∈ foldr bset_insert [] l ↔ x ∈ l) as Hfold.
  { induction l as [|y l IH]; intros x; simpl; [done|]. rewrite elem_of_bset_insert, IH. set_solver. }
  assert (∀ l : list NodeId, bset_sorted (foldr bset_insert [] l)) as Hsort.
  { induction l as [|y l IH]; simpl; [constructor|by apply bset_insert_sorted]. }
  destruct (topo_loop_spec (S n) deg0 (foldr bset_insert [] (reverse zero)) [])
    as (deg & order & Hloop & Hinv); [|simpl; lia|].
  - split; [done|done| |done|constructor|set_solver|].
    + intros x. rewrite Hfold, elem_of_reverse, Hzx. split.
      * intros (Hv & d & Hd & Hz0). rewrite Hd0 in Hd by apply Hv. injection Hd as <-.
        apply Nat.eqb_eq in Hz0. set_solver.
      * intros (Hv & _ & Hz0). split; [done|]. exists 0. split; [|done].
        rewrite Hd0 by apply Hv. by rewrite Hz0.
    + intros l1 x l2 Heq. by destruct l1.
  - by exists deg0, zero, deg, order.
Qed.
End order.

(** ** Acyclic graphs are ordered completely *)

Lemma minimal_exists {A} (R : relation A) (l : list A) :
  Transitive R → (∀ x, ¬ R x x) → l ≠ [] → ¬¬ ∃ m, m ∈ l ∧ ∀ y, y ∈ l → ¬ R y m.
Proof.
  intros Htr Hirr. induction l as [|x l IH]; [done|]. intros _.
  destruct l as [|z l].
  { intros Hno. apply Hno. exists x. split; [set_solver|]. intros y ->%list_elem_of_singleton. auto. }
  intros Hno. apply IH; [done|]. intros (m & Hm & Hmin).
  assert (¬¬ (R x m ∨ ¬ R x m)) as Hem by tauto. apply Hem. intros [Hx|Hx]; apply Hno.
  - exists x. split; [set_solver|]. intros y [->|Hy]%elem_of_cons; [auto|].
    intros Hyx. apply (Hmin y Hy). by etrans.
  - exists m. split; [set_solver|]. intros y [->|Hy]%elem_of_cons; auto.
Qed.

(** A nonempty set of nodes in which every node has a prerequisite contains a
    cycle. *)
Lemma closed_set_cyclic (edges : list (NodeId * NodeId)) (l : list NodeId) :
  l ≠ [] → (∀ x, x ∈ l → ∃ p, p ∈ l ∧ edge edges p x) → ¬ (∀ x, ¬ tc (edge edges) x x).
Proof.
  intros Hne Hcl Hac. apply (minimal_exists (tc (edge edges)) l (@tc_transitive _ _) Hac Hne).
  intros (m & Hm & Hmin). destruct (Hcl m Hm) as (p & Hp & Hpm). apply (Hmin p Hp). by constructor.
Qed.

Lemma topo_sorted_forward edges order x y :
  topo_sorted edges order → NoDup order → tc (edge edges) x y →
  ∀ l1 l2, order = l1 ++ y :: l2 → x ∈ l1.
Proof.
  intros Hs Hnd. induction 1 as [x y Hxy|x y z Hxy Hyz IH]; intros l1 l2 Heq.
  - by eapply Hs.
  - specialize (IH _ _ Heq). apply list_elem_of_split in IH as (l3 & l4 & ->).
    assert (x ∈ l3) as ?; [|set_solver]. eapply (Hs l3 y (l4 ++ z :: l2)); [|done].
    by rewrite Heq, <-app_assoc.
Qed.

(** Successors stand after a node. *)
Lemma topo_sorted_after edges order l1 x l2 t :
  topo_sorted edges order → NoDup order → order = l1 ++ x :: l2 →
  t ∈ order → tc (edge edges) x t → t ∈ l2.
Proof.
  intros Hs Hnd Heq Ht Hxt. apply list_elem_of_split in Ht as (l3 & l4 & Heq').
  pose proof (topo_sorted_forward _ _ _ _ Hs Hnd Hxt _ _ Heq') as Hx3.
  assert (t ∈ order) as Ht by (rewrite Heq'; set_solver).
  rewrite Heq in Ht. apply elem_of_app in Ht as [Ht|[->|Ht]%elem_of_cons]; [exfalso..|done].
  - apply list_elem_of_split in Ht as (l5 & l6 & ->).
    assert (x ∈ l5) as Hx5.
    { eapply (topo_sorted_forward edges order x t Hs Hnd Hxt l5 (l6 ++ x :: l2)).
      by rewrite Heq, <-app_assoc. }
    rewrite Heq in Hnd. apply NoDup_app in Hnd as (_ & Hd & _). apply (Hd x); set_solver.
  - pose proof (topo_sorted_forward _ _ _ _ Hs Hnd Hxt _ _ Heq) as Hx1.
    rewrite Heq in Hnd. apply NoDup_app in Hnd as (_ & Hd & _). apply (Hd x Hx1). set_solver.
Qed.

Lemma topo_order_acyclic r order :
  recorder_shape r → topo_order r order → ∀ x, ¬ tc (edge (rec_edges r)) x x.
Proof.
  intros Hshape [Hnd Hn Hs] x Hx.
  assert (x ∈ order) as Hin.
  { apply Hn. inversion Hx as [? ? He|? ? ? He]; subst; by apply (shape_edges _ Hshape) in He as [? _]. }
  apply list_elem_of_split in Hin as (l1 & l2 & Heq).
  assert (x ∈ l1) as Hx1 by (by eapply topo_sorted_forward).
  rewrite Heq in Hnd. apply NoDup_app in Hnd as (_ & Hd & _). apply (Hd x Hx1). set_solver.
Qed.

(** The algorithm's two outcomes. *)
Lemma topological_order_cases r :
  recorder_shape r →
  (∃ order, topological_order r = Done order ∧ topo_order r order) ∨
  (∃ nodes, topological_order r = Fail (Cycle nodes) ∧ nodes ≠ [] ∧
     (∀ x, x ∈ nodes → valid_id r x ∧ ∃ p, p ∈ nodes ∧ edge (rec_edges r) p x)).
Proof.
  intros Hshape. destruct (topo_run r Hshape) as (deg0 & zero & deg & order & H0 & Hz & Hloop & Hinv).
  unfold topological_order. rewrite H0. cbn [unwrap mbind exec_bind].
  rewrite Hz. cbn [unwrap mbind exec_bind]. rewrite Hloop. cbn [unwrap mbind exec_bind].
  assert (∀ x, valid_id r x → x ∉ order → pending (rec_edges r) order (node_index x) ≠ 0) as Hpend.
  { intros x Hv Hx Hp. assert (x ∈ []); [|set_solver]. apply (ti_ready _ _ _ _ Hinv). done. }
  destruct (Nat.eqb_spec (length order) (length (rec_nodes r))) as [Hlen|Hlen].
  - left. exists order. split; [done|]. split; [apply Hinv| |apply Hinv].
    intros x. split; [apply Hinv|]. intros Hv.
    assert (order ≡ₚ rid r <$> seq 0 (length (rec_nodes r))) as Hperm.
    { apply submseteq_length_Permutation; [|by rewrite length_fmap, length_seq; lia].
      apply NoDup_submseteq; [apply Hinv|]. intros y Hy%(ti_valid _ _ _ _ Hinv).
      apply list_elem_of_fmap. exists (node_index y). split; [by rewrite rid_index|].
      apply elem_of_seq. destruct Hy. lia. }
    rewrite Hperm. apply list_elem_of_fmap. exists (node_index x).
    split; [by rewrite rid_index|]. apply elem_of_seq. destruct Hv. lia.
  - right. destruct (ids_with_degree_spec r Hshape (λ d, negb (d =? 0)) deg (ti_length _ _ _ _ Hinv))
      as (nodes & -> & Hnx).
    assert (∀ x, x ∈ nodes ↔ valid_id r x ∧ x ∉ order) as Hno.
    { intros x. rewrite Hnx. split.
      - intros (Hv & d & Hd & Hnz). split; [done|]. intros Hx.
        rewrite (ti_degree _ _ _ _ Hinv) in Hd by apply Hv. injection Hd as <-.
        apply negb_true_iff, Nat.eqb_neq in Hnz. apply Hnz, pending_zero.
        intros p d' He Hi. apply list_elem_of_split in Hx as (l1 & l2 & Heq).
        assert (d' = x) as ->.
        { apply (valid_index_inj r); [|done|done]. by apply (shape_edges _ Hshape) in He as [_ ?]. }
        pose proof (ti_sorted _ _ _ _ Hinv _ _ _ Heq _ He). rewrite Heq. set_solver.
      - intros [Hv Hx]. split; [done|]. exists (pending (rec_edges r) order (node_index x)).
        split; [by apply (ti_degree _ _ _ _ Hinv), Hv|].
        apply negb_true_iff, Nat.eqb_neq. auto. }
    exists nodes. split; [done|]. split.
    + intros ->. apply Hlen.
      assert (∀ i, i < length (rec_nodes r) → rid r i ∈ order) as Hall.
      { intros i Hi. destruct (decide (rid r i ∈ order)) as [|Hn]; [done|].
        assert (rid r i ∈ []) as []%not_elem_of_nil. apply Hno. split; [by apply valid_rid|done]. }
      apply Nat.le_antisymm; [by eapply topo_inv_length|].
      rewrite <-(length_seq (length (rec_nodes r)) 0), <-(length_fmap (rid r)) at 1.
      apply submseteq_length, NoDup_submseteq.
      * apply NoDup_fmap_2; [intros ? ? [= ?]; done|apply NoDup_seq].
      * intros x (i & -> & Hi%elem_of_seq)%list_elem_of_fmap. apply Hall. lia.
    + intros x [Hv Hx]%Hno. split; [done|].
      pose proof (Hpend x Hv Hx) as Hp. unfold pending in Hp.
      destruct (filter _ _) as [|[p d] l] eqn:Hf in Hp; [done|].
      assert ((p, d) ∈ filter (λ e : NodeId * NodeId, node_index e.2 = node_index x ∧ e.1 ∉ order)
        (rec_edges r)) as [[Hi Hpo] Hin]%list_elem_of_filter by (rewrite Hf; set_solver).
      simpl in *. destruct (shape_edges _ Hshape _ _ Hin) as [Hvp Hvd].
      assert (d = x) as -> by (by apply (valid_index_inj r)).
      exists p. split; [by apply Hno|done].
Qed.

Lemma topological_order_acyclic r :
  recorder_shape r → (∀ x, ¬ tc (edge (rec_edges r)) x x) →
  ∃ order, topological_order r = Done order ∧ topo_order r order.
Proof.
  intros Hshape Hac. destruct (topological_order_cases r Hshape) as [?|(nodes & _ & Hne & Hx)]; [done|].
  exfalso. apply (closed_set_cyclic (rec_edges r) nodes Hne); [|done].
  intros x Hin. by destruct (Hx x Hin).
Qed.

(** A topological order lists every recorded node once. *)
Lemma topo_order_perm r order :
  recorder_shape r → topo_order r order → order ≡ₚ node_id <$> rec_nodes r.
Proof.
  intros Hshape Hto. apply NoDup_Permutation; [apply Hto| |].
  - apply NoDup_alt. intros i j x Hi Hj.
    apply list_lookup_fmap_Some in Hi as (ni & -> & Hi), Hj as (nj & Hx & Hj).
    rewrite (shape_ids _ Hshape _ _ Hi), (shape_ids _ Hshape _ _ Hj) in Hx. by injection Hx.
  - intros x. rewrite (to_nodes _ _ Hto), list_elem_of_fmap. split.
    + intros [Ho Hi]. destruct (lookup_lt_is_Some_2 _ _ Hi) as [n Hn].
      exists n. rewrite (shape_ids _ Hshape _ _ Hn). split; [|by eapply list_elem_of_lookup_2].
      destruct x; unfold rid; simpl in *; congruence.
    + intros (n & -> & [i Hi]%list_elem_of_lookup). rewrite (shape_ids _ Hshape _ _ Hi).
      split; [done|]. by eapply lookup_lt_Some.
Qed.

Lemma topo_order_length r order :
  recorder_shape r → topo_order r order → length order = length (rec_nodes r).
Proof. intros. by rewrite (topo_order_perm r order), length_fmap. Qed.

(** ** Boolean matrices *)

Record matrix_dims (n : nat) (m : list (list bool)) : Prop := {
  md_rows : length m = n;
  md_cols i row : m !! i = Some row → length row = n
}.

Definition reach_at (m : list (list bool)) (i j : nat) : bool :=
  default false (row ← m !! i; row !! j).

Lemma matrix_lookup n m i :
  matrix_dims n m → i < n → ∃ row, m !! i = Some row ∧ length row = n.
Proof.
  intros [Hr Hc] Hi. destruct (lookup_lt_is_Some_2 m i) as [row Hrow]; [lia|].
  exists row. eauto.
Qed.

Lemma matrix_dims_insert n m i row :
  matrix_dims n m → length row = n → matrix_dims n (<[i:=row]> m).
Proof.
  intros [Hr Hc] Hl. split; [by rewrite length_insert|]. intros j row' Hj.
  apply list_lookup_insert_Some in Hj as [(_ & -> & _)|[_ Hj]]; eauto.
Qed.

Lemma matrix_dims_zero n : matrix_dims n (replicate n (replicate n false)).
Proof.
  split; [by rewrite length_replicate|]. intros i row [-> _]%lookup_replicate.
  by rewrite length_replicate.
Qed.

Lemma length_row_or r o : length (row_or r o) = length r.
Proof. revert o. induction r as [|a r IH]; intros [|b o]; simpl; auto. Qed.

Lemma lookup_row_or r o j a b :
  r !! j = Some a → o !! j = Some b → row_or r o !! j = Some (a || b).
Proof.
  revert o j. induction r as [|x r IH]; intros [|y o] [|j]; simpl; try done.
  - naive_solver.
  - apply IH.
Qed.

(** One pass of the inner loop of [reachability]. *)
Lemma reach_node_spec n node targets m :
  matrix_dims n m → node < n → (∀ t, t ∈ targets → t < n ∧ t ≠ node) →
  ∃ m', reach_node node targets m = Some m' ∧ matrix_dims n m' ∧
    (∀ i, i ≠ node → m' !! i = m !! i) ∧
    (∀ j, j < n → reach_at m' node j = true ↔
       reach_at m node j = true ∨ ∃ t, t ∈ targets ∧ (t = j ∨ reach_at m t j = true)).
Proof.
  intros Hdim Hnode. revert m Hdim.
  induction targets as [|t targets IH]; intros m Hdim Ht.
  { exists m. split; [done|]. split; [done|]. split; [done|]. set_solver. }
  destruct (Ht t) as [Htn Hne]; [set_solver|].
  destruct (matrix_lookup n m node Hdim Hnode) as (row & Hrow & Hlrow).
  destruct (matrix_lookup n m t Hdim Htn) as (trow & Htrow & Hltrow).
  pose proof (md_rows _ _ Hdim) as Hlm.
  set (row' := row_or (<[t:=true]> row) trow).
  destruct (IH (<[node:=row']> m)) as (m' & Hm' & Hdim' & Hother & Hat).
  { apply matrix_dims_insert; [done|]. unfold row'. by rewrite length_row_or, length_insert. }
  { set_solver. }
  exists m'. unfold reach_node in *. erewrite foldM_cons; [split; [exact Hm'|]|].
  2: { rewrite (vec_update_lookup _ _ _ row (<[t:=true]> row)); [|done|apply vec_set_lt; lia].
       cbn [mbind option_bind]. rewrite list_lookup_insert_ne, Htrow by done.
       cbn [mbind option_bind]. erewrite vec_update_lookup;
         [|by apply list_lookup_insert_eq; lia|done].
       by rewrite list_insert_insert_eq. }
  split; [done|]. split.
  { intros i Hi. rewrite Hother by done. by rewrite list_lookup_insert_ne. }
  intros j Hj. rewrite Hat by done.
  assert (reach_at (<[node:=row']> m) node j = true ↔
    reach_at m node j = true ∨ t = j ∨ reach_at m t j = true) as ->.
  { unfold reach_at. rewrite list_lookup_insert_eq by lia. rewrite Hrow, Htrow; simpl.
    destruct (lookup_lt_is_Some_2 row j) as [b Hb]; [lia|].
    destruct (lookup_lt_is_Some_2 trow j) as [c Hc]; [lia|]. rewrite Hb, Hc; simpl.
    destruct (decide (t = j)) as [->|Hne'].
    - unfold row'. rewrite (lookup_row_or _ _ _ true c); [simpl; tauto| |done].
      rewrite list_lookup_insert_eq by lia. done.
    - unfold row'. rewrite (lookup_row_or _ _ _ b c); [|by rewrite list_lookup_insert_ne|done].
      simpl. rewrite orb_true_iff. tauto. }
  assert (∀ t', t' ∈ targets → reach_at (<[node:=row']> m) t' j = reach_at m t' j) as Hrest.
  { intros t' Ht'. unfold reach_at. rewrite list_lookup_insert_ne; [done|].
    destruct (Ht t'); [set_solver|]. done. }
  split.
  - intros [[?|[?|?]]|(t' & Ht' & Hor)]; [by left|right; exists t; set_solver..|].
    right. exists t'. rewrite Hrest in Hor by done. set_solver.
  - intros [?|(t' & [->|Ht']%elem_of_cons & Hor)]; [by auto|left; tauto|].
    right. exists t'. rewrite Hrest by done. done.
Qed.

(** ** The matrix is the transitive closure *)

Definition depends (r : Recorder) : relation NodeId := tc (edge (rec_edges r)).

Record reach_matrix (r : Recorder) (m : list (list bool)) : Prop := {
  rm_dims : matrix_dims (length (rec_nodes r)) m;
  rm_spec i j : i < length (rec_nodes r) → j < length (rec_nodes r) →
    reach_at m i j = true ↔ depends r (rid r i) (rid r j)
}.

Lemma tc_first_step {A} (R : relation A) x z :
  tc R x z ↔ ∃ y, R x y ∧ (y = z ∨ tc R y z).
Proof.
  split.
  - destruct 1 as [x z Hxz|x y z Hxy Hyz]; eauto.
  - intros (y & Hxy & [->|Hyz]); [by constructor|by eapply tc_l].
Qed.

Lemma reachability_spec r order :
  recorder_shape r → topo_order r order →
  ∃ m, reachability r order = Some m ∧ reach_matrix r m.
Proof.
  intros Hshape Hto. unfold reachability. set (n := length (rec_nodes r)).
  destruct (foldM_inv (λ l m, matrix_dims n m ∧
      (∀ x j, x ∈ l → j < n → reach_at m (node_index x) j = true ↔ depends r x (rid r j)) ∧
      (∀ x j, valid_id r x → x ∉ l → reach_at m (node_index x) j = false))
    (λ m node, reach_node (node_index node) (node_index <$> edge_targets (rec_edges r) node) m)
    (reverse order) (replicate n (replicate n false))) as (m & Hm & Hdim & Hin & _).
  - split; [apply matrix_dims_zero|]. split; [set_solver|]. intros x j _ _.
    unfold reach_at. destruct (replicate n (replicate n false) !! node_index x) as [row|] eqn:Hr; [|done].
    apply lookup_replicate in Hr as [-> _]. simpl.
    destruct (replicate n false !! j) as [b|] eqn:Hb; [|done].
    by apply lookup_replicate in Hb as [-> _].
  - intros l1 x l2 m Hrev (Hdim & Hdone & Htodo).
    assert (order = reverse l2 ++ x :: reverse l1) as Hord.
    { rewrite <-(reverse_involutive order), Hrev, reverse_app, reverse_cons, <-app_assoc. done. }
    assert (valid_id r x) as Hvx by (apply (to_nodes _ _ Hto); rewrite Hord; set_solver).
    assert (x ∉ l1) as Hxl1.
    { pose proof (to_nodup _ _ Hto) as Hnd. rewrite Hord in Hnd.
      apply NoDup_app in Hnd as (_ & _ & [Hx _]%NoDup_cons). by rewrite elem_of_reverse in Hx. }
    assert (∀ t, edge (rec_edges r) x t → t ∈ l1 ∧ valid_id r t) as Hafter.
    { intros t Hxt. destruct (shape_edges _ Hshape _ _ Hxt) as [_ Hvt]. split; [|done].
      rewrite <-elem_of_reverse. eapply (topo_sorted_after _ order _ x); [apply Hto|apply Hto|done| |by constructor].
      by apply (to_nodes _ _ Hto). }
    destruct (reach_node_spec n (node_index x) (node_index <$> edge_targets (rec_edges r) x) m)
      as (m' & Hm' & Hdim' & Hother & Hat); [done|apply Hvx| |].
    { intros i (t & -> & [Ht Hvt]%elem_of_edge_targets%Hafter)%list_elem_of_fmap. split; [apply Hvt|].
      intros Heq. apply Hxl1. by rewrite <-(valid_index_inj r t x). }
    assert (∀ y j, node_index y ≠ node_index x → reach_at m' (node_index y) j = reach_at m (node_index y) j) as Hrow.
    { intros y j Hy. unfold reach_at. by rewrite Hother. }
    exists m'. split; [done|]. split; [done|]. split.
    + intros y j [Hy| ->%list_elem_of_singleton]%elem_of_app Hj.
      * rewrite Hrow; [by apply Hdone|]. intros Heq. apply Hxl1.
        rewrite <-(valid_index_inj r y x); [done| |done|done].
        apply (to_nodes _ _ Hto). rewrite Hord. set_solver.
      * rewrite Hat by done. rewrite (Htodo x j Hvx Hxl1).
        unfold depends. rewrite tc_first_step. split.
        -- intros [?|(i & (t & -> & Ht)%list_elem_of_fmap & Hor)]; [done|].
           exists t. rewrite elem_of_edge_targets in Ht. split; [done|].
           destruct (Hafter t Ht) as [Htl Hvt]. destruct Hor as [Hi|Hr].
           ++ left. by rewrite <-(rid_index r t), Hi.
           ++ right. by apply Hdone.
        -- intros (t & Ht & Hor). right. exists (node_index t). split.
           { apply list_elem_of_fmap_2. by apply elem_of_edge_targets. }
           destruct (Hafter t Ht) as [Htl Hvt]. destruct Hor as [->|Hr]; [by left|right].
           by apply Hdone.
    + intros y j Hvy Hy. rewrite Hrow; [apply Htodo; set_solver|].
      intros Heq. apply Hy. rewrite (valid_index_inj r y x); set_solver.
  - exists m. split; [done|]. split; [done|]. intros i j Hi Hj.
    rewrite <-(Hin (rid r i) j); [done| |done]. rewrite elem_of_reverse.
    apply (to_nodes _ _ Hto). by apply valid_rid.
Qed.

(** ** Conflicts *)

(** Two accesses conflict: they overlap and at least one writes. *)
Definition access_conflict (a b : Access) : Prop :=
  region_overlaps (acc_region a) (acc_region b) = true ∧
  (acc_mode a = WriteMode ∨ acc_mode b = WriteMode).

Definition accesses_conflict (first second : list Access) : Prop :=
  ∃ a b, a ∈ first ∧ b ∈ second ∧ access_conflict a b.

Lemma accesses_conflict_sym l1 l2 : accesses_conflict l1 l2 → accesses_conflict l2 l1.
Proof.
  intros (a & b & Ha & Hb & Ho & Hw). exists b, a. split_and!; [done..|].
  split; [by rewrite region_overlaps_comm|tauto].
Qed.

Lemma hazard_kind_None a b : hazard_kind a b = None ↔ a = ReadMode ∧ b = ReadMode.
Proof. destruct a, b; naive_solver. Qed.

Lemma elem_of_access_conflicts l1 l2 k o :
  (k, o) ∈ access_conflicts l1 l2 ↔
  ∃ a b, a ∈ l1 ∧ b ∈ l2 ∧ region_intersection (acc_region a) (acc_region b) = Some o ∧
    hazard_kind (acc_mode a) (acc_mode b) = Some k.
Proof.
  unfold access_conflicts. rewrite list_elem_of_bind.
  setoid_rewrite elem_of_filter_map. split.
  - intros (a & (b & Hb & Hx) & Ha). exists a, b.
    destruct (region_intersection _ _) as [o'|] eqn:Ho; simpl in Hx; [|done].
    destruct (hazard_kind _ _) as [k'|] eqn:Hk; simpl in Hx; naive_solver.
  - intros (a & b & Ha & Hb & Ho & Hk). exists a. split; [|done]. exists b. split; [done|].
    rewrite Ho; simpl. by rewrite Hk.
Qed.

Lemma access_conflicts_nil l1 l2 :
  access_conflicts l1 l2 = [] ↔ ¬ accesses_conflict l1 l2.
Proof.
  split.
  - intros Hnil (a & b & Ha & Hb & Ho & Hw).
    destruct (region_intersection (acc_region a) (acc_region b)) as [o|] eqn:Hi.
    + destruct (hazard_kind (acc_mode a) (acc_mode b)) as [k|] eqn:Hk.
      * assert ((k, o) ∈ access_conflicts l1 l2) as Hin by (apply elem_of_access_conflicts; eauto 10).
        rewrite Hnil in Hin. set_solver.
      * apply hazard_kind_None in Hk as [H1 H2]. destruct Hw; congruence.
    + apply region_intersection_None in Hi. congruence.
  - intros Hno. destruct (access_conflicts l1 l2) as [|[k o] l] eqn:Hc; [done|]. exfalso.
    assert ((k, o) ∈ access_conflicts l1 l2) as Hin by (rewrite Hc; set_solver).
    apply elem_of_access_conflicts in Hin as (a & b & Ha & Hb & Hi & Hk).
    apply Hno. exists a, b. split; [done|]. split; [done|]. split.
    + by apply region_intersection_Some in Hi as [? _].
    + destruct (acc_mode a), (acc_mode b); naive_solver.
Qed.

(** ** The hazard check *)

Definition ordered (r : Recorder) (i j : nat) : Prop :=
  depends r (rid r i) (rid r j) ∨ depends r (rid r j) (rid r i).

Lemma elem_of_index_pairs n i j : (i, j) ∈ index_pairs n ↔ i < j ∧ j < n.
Proof.
  unfold index_pairs. rewrite list_elem_of_bind. setoid_rewrite list_elem_of_fmap.
  setoid_rewrite elem_of_seq. split.
  - intros (i' & (j' & [= -> ->] & ?) & ?). lia.
  - intros [? ?]. exists i. split; [|lia]. exists j. split; [done|]. lia.
Qed.

Lemma reach_lookup n m i j :
  matrix_dims n m → i < n → j < n →
  ∃ row, m !! i = Some row ∧ row !! j = Some (reach_at m i j).
Proof.
  intros Hdim Hi Hj. destruct (matrix_lookup n m i Hdim Hi) as (row & Hrow & Hl).
  exists row. split; [done|]. unfold reach_at. rewrite Hrow; simpl.
  destruct (lookup_lt_is_Some_2 row j) as [b Hb]; [lia|]. by rewrite Hb.
Qed.

Lemma pair_hazards_spec r m i j ni nj :
  reach_matrix r m → rec_nodes r !! i = Some ni → rec_nodes r !! j = Some nj →
  (ordered r i j ∧ pair_hazards r m i j = Some []) ∨
  (¬ ordered r i j ∧ pair_hazards r m i j = Some (node_hazards ni nj)).
Proof.
  intros [Hdim Hspec] Hni Hnj.
  assert (i < length (rec_nodes r)) as Hi by (by eapply lookup_lt_Some).
  assert (j < length (rec_nodes r)) as Hj by (by eapply lookup_lt_Some).
  destruct (reach_lookup _ m i j Hdim Hi Hj) as (ri & Hri & Hij).
  destruct (reach_lookup _ m j i Hdim Hj Hi) as (rj & Hrj & Hji).
  unfold pair_hazards. rewrite Hri; simpl. rewrite Hrj; simpl. rewrite Hij; simpl.
  unfold ordered. rewrite <-!Hspec by done.
  destruct (reach_at m i j); simpl; [left; tauto|]. rewrite Hji; simpl.
  destruct (reach_at m j i); simpl; [left; tauto|]. right.
  rewrite Hni, Hnj; simpl. split; [intros [?|?]; done|done].
Qed.

Lemma unordered_hazards_spec r m :
  reach_matrix r m →
  ∃ hs, unordered_hazards r m = Some hs ∧
    ∀ h, h ∈ hs ↔ ∃ i j ni nj, i < j ∧ rec_nodes r !! i = Some ni ∧
      rec_nodes r !! j = Some nj ∧ ¬ ordered r i j ∧ h ∈ node_hazards ni nj.
Proof.
  intros Hm. unfold unordered_hazards. rewrite (md_rows _ _ (rm_dims _ _ Hm)).
  destruct (foldM_inv (λ l hs, ∀ h, h ∈ hs ↔ ∃ i j ni nj, (i, j) ∈ l ∧
      rec_nodes r !! i = Some ni ∧ rec_nodes r !! j = Some nj ∧ ¬ ordered r i j ∧
      h ∈ node_hazards ni nj)
    (λ acc '(i, j), hs ← pair_hazards r m i j; Some (acc ++ hs))
    (index_pairs (length (rec_nodes r))) []) as (hs & Hhs & Hspec).
  - intros h. split; [set_solver|]. intros (i & j & ni & nj & Hin & _). set_solver.
  - intros l1 [i j] l2 hs Heq Hhs.
    assert ((i, j) ∈ index_pairs (length (rec_nodes r))) as [Hij Hj]%elem_of_index_pairs
      by (rewrite Heq; set_solver).
    destruct (lookup_lt_is_Some_2 (rec_nodes r) i) as [ni Hni]; [lia|].
    destruct (lookup_lt_is_Some_2 (rec_nodes r) j) as [nj Hnj]; [lia|].
    destruct (pair_hazards_spec r m i j ni nj Hm Hni Hnj) as [[Ho ->]|[Ho ->]]; simpl;
      (eexists; split; [done|]); intros h; rewrite elem_of_app, Hhs; split.
    + intros [(i' & j' & ni' & nj' & Hin & ?)|?]; [|set_solver]. exists i', j', ni', nj'. set_solver.
    + intros (i' & j' & ni' & nj' & Hin & Hx). left. exists i', j', ni', nj'.
      apply elem_of_app in Hin as [Hin|[= -> ->]%list_elem_of_singleton]; [done|]. tauto.
    + intros [(i' & j' & ni' & nj' & Hin & ?)|Hh].
      * exists i', j', ni', nj'. set_solver.
      * exists i, j, ni, nj. set_solver.
    + intros (i' & j' & ni' & nj' & Hin & Hni' & Hnj' & Hx & Hh).
      apply elem_of_app in Hin as [Hin|[= -> ->]%list_elem_of_singleton].
      * left. exists i', j', ni', nj'. done.
      * right. by simplify_eq.
  - exists hs. split; [done|]. intros h. rewrite Hspec.
    setoid_rewrite elem_of_index_pairs. split.
    + intros (i & j & ni & nj & [? ?] & ?). exists i, j, ni, nj. tauto.
    + intros (i & j & ni & nj & ? & Hni & Hnj & ?). exists i, j, ni, nj.
      apply lookup_lt_Some in Hnj as ?. tauto.
Qed.

(** Every two recorded dispatches whose declared accesses conflict are ordered
    by dependencies. *)
Definition hazard_free (r : Recorder) : Prop :=
  ∀ i j ni nj, i ≠ j → rec_nodes r !! i = Some ni → rec_nodes r !! j = Some nj →
    accesses_conflict (node_accesses ni) (node_accesses nj) → ordered r i j.

Lemma node_hazards_nil ni nj :
  node_hazards ni nj = [] ↔ ¬ accesses_conflict (node_accesses ni) (node_accesses nj).
Proof.
  unfold node_hazards. rewrite <-access_conflicts_nil. split; [|by intros ->].
  apply fmap_nil_inv.
Qed.

Lemma no_elem_nil {A} (l : list A) : (∀ x, x ∉ l) → l = [].
Proof. destruct l as [|x l]; [done|]. intros Hx. exfalso. apply (Hx x). set_solver. Qed.

Lemma access_conflicts_dec l1 l2 : Decision (accesses_conflict l1 l2).
Proof.
  destruct (access_conflicts l1 l2) eqn:E.
  - right. by apply access_conflicts_nil.
  - left. unfold accesses_conflict.
    assert (p ∈ access_conflicts l1 l2) as Hin by (rewrite E; set_solver).
    destruct p as [k o]. apply elem_of_access_conflicts in Hin as (a & b & Ha & Hb & Hi & Hk).
    exists a, b. split; [done|]. split; [done|]. split.
    + by apply region_intersection_Some in Hi as [? _].
    + destruct (acc_mode a), (acc_mode b); naive_solver.
Defined.

Lemma unordered_hazards_nil r m hs :
  reach_matrix r m → unordered_hazards r m = Some hs → hs = [] ↔ hazard_free r.
Proof.
  intros Hm Hhs. destruct (unordered_hazards_spec r m Hm) as (hs' & Hhs' & Hspec).
  rewrite Hhs in Hhs'. injection Hhs' as <-. split.
  - intros ->.
    assert (∀ i j ni nj, i < j → rec_nodes r !! i = Some ni → rec_nodes r !! j = Some nj →
      accesses_conflict (node_accesses ni) (node_accesses nj) → ordered r i j) as Hlt.
    { intros i j ni nj Hij Hni Hnj Hc.
      destruct (pair_hazards_spec r m i j ni nj Hm Hni Hnj) as [[? _]|[Hno _]]; [done|].
      exfalso. apply (node_hazards_nil ni nj); [|done]. apply no_elem_nil. intros h Hh.
      assert (h ∈ []) as ?; [|set_solver]. apply Hspec. eauto 10. }
    intros i j ni nj Hne Hni Hnj Hc. destruct (decide (i < j)) as [Hij|Hij]; [by eapply Hlt|].
    destruct (Hlt j i nj ni) as [?|?]; [lia|done..|by apply accesses_conflict_sym|by right|by left].
  - intros Hfree. apply no_elem_nil. intros h (i & j & ni & nj & Hij & Hni & Hnj & Hno & Hh)%Hspec.
    apply Hno. eapply Hfree; [|done..|]; [lia|].
    destruct (access_conflicts_dec (node_accesses ni) (node_accesses nj)) as [Hc|Hc]; [done|].
    apply node_hazards_nil in Hc. rewrite Hc in Hh. set_solver.
Qed.
