(* ===== verification/PlanCompile.v ===== *)
(** * Lane assignment and [CompiledPlan::compile] as a whole ([plan.rs])

    List scheduling along the topological order: every dispatch is started after
    its prerequisites and after the dispatches already on its lane, on the lane
    where it would end first.  The kernel contracts as a predicate on the
    recorded nodes, and the three outcomes of compiling a well-formed recording. *)

From S2P Require Import Prelude BTree Ir Identity Recorder Plan PlanOrder.

Definition dispatch_work (d : PlannedDispatch) : Z := Zpos (launch_estimated_work (pd_launch d)).

(** The time at which [lane] becomes free after the dispatches [before]. *)
Definition lane_free (before : list PlannedDispatch) (lane : nat) : Z :=
  foldl (λ t d, if decide (pd_lane d = lane) then Z.max t (pd_estimated_end d) else t)
    0%Z before.

(** [t] is a time at which [lane] is free and all prerequisites of [d] ended. *)
Definition can_start (before : list PlannedDispatch) (d : PlannedDispatch)
    (lane : nat) (t : Z) : Prop :=
  (0 ≤ t)%Z ∧
  (∀ d', d' ∈ before → pd_lane d' = lane → pd_estimated_end d' ≤ t)%Z ∧
  (∀ d', d' ∈ before → pd_node d' ∈ pd_dependencies d → pd_estimated_end d' ≤ t)%Z.

(** What [schedule] guarantees of [d], planned after the dispatches [before]. *)
Record dispatch_ok (r : Recorder) (lanes : nat) (before : list PlannedDispatch)
    (d : PlannedDispatch) : Prop := {
  do_entry : ∃ entry, rec_nodes r !! node_index (pd_node d) = Some entry ∧
    pd_launch d = node_launch entry ∧ pd_accesses d = node_accesses entry;
  do_deps : pd_dependencies d = dependencies_of (rec_edges r) (pd_node d);
  do_planned p : p ∈ pd_dependencies d → ∃ d', d' ∈ before ∧ pd_node d' = p;
  do_lane : pd_lane d < lanes;
  do_start : can_start before d (pd_lane d) (pd_estimated_start d);
  do_end : pd_estimated_end d = saturating_add 64 (pd_estimated_start d) (dispatch_work d);
  do_greedy lane t : lane < lanes → can_start before d lane t →
    (pd_estimated_end d ≤ saturating_add 64 t (dispatch_work d))%Z;
  do_width : in_u 64 (pd_estimated_start d) ∧ in_u 64 (pd_estimated_end d)
}.

Definition schedule_ok (r : Recorder) (lanes : nat) (order : list NodeId)
    (ds : list PlannedDispatch) : Prop :=
  pd_node <$> ds = order ∧ ∀ l1 d l2, ds = l1 ++ d :: l2 → dispatch_ok r lanes l1 d.

(** ** The pieces of one scheduling step *)

Lemma elem_of_dependencies_of edges node p :
  p ∈ dependencies_of edges node ↔ edge edges p node.
Proof.
  unfold dependencies_of, edge. rewrite elem_of_filter_map. split.
  - intros ([a b] & Hin & Hd). case_decide; naive_solver.
  - intros Hin. exists (p, node). split; [done|]. by rewrite decide_True.
Qed.

Lemma saturating_mono w a b c : (a ≤ b → saturating_add w a c ≤ saturating_add w b c)%Z.
Proof. unfold saturating_add. lia. Qed.

Lemma saturating_range w a c : in_u w a → (0 ≤ c)%Z →
  in_u w (saturating_add w a c) ∧ (a ≤ saturating_add w a c)%Z.
Proof. unfold saturating_add, in_u. lia. Qed.

Lemma dependency_finish_spec finish deps :
  (∀ p, p ∈ deps → is_Some (finish !! node_index p)) →
  ∃ f, dependency_finish finish deps = Some f ∧ (0 ≤ f)%Z ∧
    (∀ p v, p ∈ deps → finish !! node_index p = Some v → (v ≤ f)%Z) ∧
    (∀ t, (0 ≤ t)%Z → (∀ p v, p ∈ deps → finish !! node_index p = Some v → (v ≤ t)%Z) → (f ≤ t)%Z).
Proof.
  intros Hdef. unfold dependency_finish.
  apply (foldM_inv (λ l f, (0 ≤ f)%Z ∧
      (∀ p v, p ∈ l → finish !! node_index p = Some v → (v ≤ f)%Z) ∧
      (∀ t, (0 ≤ t)%Z → (∀ p v, p ∈ l → finish !! node_index p = Some v → (v ≤ t)%Z) → (f ≤ t)%Z))).
  - split; [lia|]. split; [set_solver|]. auto with lia.
  - intros l1 p l2 f -> (H0 & Hub & Hlub). destruct (Hdef p) as [v Hv]; [set_solver|].
    rewrite Hv; simpl. eexists; split; [done|]. split; [lia|]. split.
    + intros q w [Hq| ->%list_elem_of_singleton]%elem_of_app Hw.
      * specialize (Hub q w Hq Hw). lia.
      * simplify_eq. lia.
    + intros t Ht Hall. apply Z.max_lub.
      * apply Hlub; [done|]. intros q w Hq. apply Hall. set_solver.
      * apply (Hall p); [set_solver|done].
Qed.

Lemma min_slot_spec l : ∀ best,
  min_slot best l ∈ best :: l ∧ ∀ s, s ∈ best :: l → (sl_end (min_slot best l) ≤ sl_end s)%Z.
Proof.
  induction l as [|s l IH]; intros best; simpl.
  { split; [set_solver|]. intros s ->%list_elem_of_singleton. done. }
  assert (∃ b, (match cmp (slot_key s) (slot_key best) with Lt => s | _ => best end) = b ∧
    (b = s ∨ b = best) ∧ sl_end b ≤ sl_end s ∧ sl_end b ≤ sl_end best)%Z as (b & -> & Hb & H1 & H2).
  { unfold slot_key. rewrite !cmp_pair. unfold cmp at 1, cmp_Z.
    destruct (Z.compare_spec (sl_end s) (sl_end best)); repeat case_match;
      eexists; split_and!; eauto with lia. }
  destruct (IH b) as [Hin Hle]. split.
  - apply elem_of_cons in Hin as [Hin|Hin]; destruct Hb as [->| ->]; set_solver.
  - intros s' [->|[->|Hs]%elem_of_cons]%elem_of_cons; [..|apply Hle; set_solver];
      (etrans; [apply (Hle b); set_solver|done]).
Qed.

Lemma choose_lane_spec available finish work :
  available ≠ [] →
  ∃ slot a, choose_lane available finish work = Some slot ∧
    available !! sl_lane slot = Some a ∧ slot = lane_slot finish work (sl_lane slot) a ∧
    ∀ lane a', available !! lane = Some a' →
      (sl_end slot ≤ sl_end (lane_slot finish work lane a'))%Z.
Proof.
  intros Hne. unfold choose_lane.
  set (l := (λ '(lane, available), lane_slot finish work lane available) <$> enumerate available).
  assert (∀ s, s ∈ l ↔ ∃ lane a, available !! lane = Some a ∧ s = lane_slot finish work lane a) as Hl.
  { intros s. unfold l. rewrite list_elem_of_fmap. split.
    - intros ([lane a] & -> & Hin%elem_of_enumerate). eauto.
    - intros (lane & a & Ha & ->). exists (lane, a). by rewrite elem_of_enumerate. }
  destruct l as [|s l'].
  { exfalso. destruct available as [|a av]; [done|].
    assert (lane_slot finish work 0 a ∈ []) as Hin by (apply Hl; by exists 0, a). set_solver. }
  destruct (min_slot_spec l' s) as [Hin Hmin].
  apply Hl in Hin as (lane & a & Ha & Heq). exists (min_slot s l'), a.
  split; [done|]. rewrite Heq. split_and!; [done..|].
  intros lane' a' Ha'. rewrite <-Heq. apply Hmin, Hl. eauto.
Qed.

(** ** The loop invariant *)

Lemma lane_free_snoc ds d lane :
  lane_free (ds ++ [d]) lane =
  if decide (pd_lane d = lane) then Z.max (lane_free ds lane) (pd_estimated_end d)
  else lane_free ds lane.
Proof. unfold lane_free. by rewrite foldl_app. Qed.

Lemma lane_free_lub ds lane :
  (0 ≤ lane_free ds lane)%Z ∧
  (∀ d, d ∈ ds → pd_lane d = lane → pd_estimated_end d ≤ lane_free ds lane)%Z ∧
  (∀ t, (0 ≤ t)%Z → (∀ d, d ∈ ds → pd_lane d = lane → pd_estimated_end d ≤ t)%Z →
     (lane_free ds lane ≤ t)%Z).
Proof.
  induction ds as [|d ds IH] using rev_ind.
  { unfold lane_free; simpl. split; [lia|]. split; [set_solver|]. auto. }
  destruct IH as (H0 & Hub & Hlub). rewrite lane_free_snoc.
  case_decide as Hd; (split; [lia|]); split.
  - intros d' [Hin| ->%list_elem_of_singleton]%elem_of_app Hl; [|lia].
    specialize (Hub d' Hin Hl). lia.
  - intros t Ht Hall. apply Z.max_lub.
    + apply Hlub; [done|]. set_solver.
    + apply Hall; [set_solver|done].
  - intros d' [Hin| ->%list_elem_of_singleton]%elem_of_app Hl; [by apply Hub|done].
  - intros t Ht Hall. apply Hlub; [done|]. set_solver.
Qed.

Record sched_inv (r : Recorder) (lanes : nat) (l : list NodeId) (st : SchedState) : Prop := {
  si_lanes : length (ss_available st) = lanes;
  si_nodes : length (ss_finish st) = length (rec_nodes r);
  si_available lane : lane < lanes → ss_available st !! lane = Some (lane_free (ss_dispatches st) lane);
  si_free_width lane : in_u 64 (lane_free (ss_dispatches st) lane);
  si_finish d : d ∈ ss_dispatches st →
    ss_finish st !! node_index (pd_node d) = Some (pd_estimated_end d);
  si_ok : schedule_ok r lanes l (ss_dispatches st)
}.

Lemma schedule_ok_snoc r lanes l ds d :
  schedule_ok r lanes l ds → dispatch_ok r lanes ds d →
  schedule_ok r lanes (l ++ [pd_node d]) (ds ++ [d]).
Proof.
  intros [Hn Hall] Hd. split; [by rewrite fmap_app, Hn|].
  intros l1 d' l2 Heq. destruct l2 as [|x l2 _] using rev_ind.
  - apply app_inj_tail in Heq as [-> ->]. done.
  - rewrite app_comm_cons, app_assoc in Heq. apply app_inj_tail in Heq as [-> _]. by eapply Hall.
Qed.

Lemma in_u_max w a b : in_u w a → in_u w b → in_u w (Z.max a b).
Proof. unfold in_u. lia. Qed.

(** The new dispatch of one step meets the specification. *)
Lemma schedule_node_ok r lanes l st node :
  recorder_shape r → sched_inv r lanes l st → 0 < lanes → valid_id r node → node ∉ l →
  (∀ p, edge (rec_edges r) p node → p ∈ l) →
  ∃ st' d, schedule_node r st node = Some st' ∧ pd_node d = node ∧
    dispatch_ok r lanes (ss_dispatches st) d ∧
    st' = mkSched (<[pd_lane d := pd_estimated_end d]> (ss_available st))
            (<[node_index node := pd_estimated_end d]> (ss_finish st))
            (ss_dispatches st ++ [d]).
Proof.
  intros Hshape [Hlen Hnodes Hav Hfw Hfin [Hmap Hall]] Hlanes [Hown Hidx] Hnew Hpre.
  destruct (lookup_lt_is_Some_2 _ _ Hidx) as [entry Hentry].
  set (deps := dependencies_of (rec_edges r) node).
  assert (∀ p, p ∈ deps → ∃ d, d ∈ ss_dispatches st ∧ pd_node d = p) as Hplanned.
  { intros p Hp%elem_of_dependencies_of%Hpre. rewrite <-Hmap in Hp.
    apply list_elem_of_fmap in Hp as (d & -> & Hd). eauto. }
  destruct (dependency_finish_spec (ss_finish st) deps) as (f & Hf & Hf0 & Hfub & Hflub).
  { intros p (d & Hd & <-)%Hplanned. rewrite (Hfin d Hd). eauto. }
  set (work := Zpos (launch_estimated_work (node_launch entry))).
  destruct (choose_lane_spec (ss_available st) f work) as (slot & a & Hslot & Ha & Heq & Hbest).
  { intros E. rewrite E in Hlen. simpl in Hlen. lia. }
  assert (sl_lane slot < lanes) as Hsl by (apply lookup_lt_Some in Ha; lia).
  rewrite Hav in Ha by done. injection Ha as <-.
  assert (in_u 64 f) as Hfu.
  { split; [lia|]. apply Hflub; [done|]. intros p v (d & Hd & <-)%Hplanned Hv.
    rewrite (Hfin d Hd) in Hv. injection Hv as <-. apply list_elem_of_split in Hd as (l1 & l2 & Hd).
    apply (do_width _ _ _ _ (Hall _ _ _ Hd)). }
  destruct (lane_free_lub (ss_dispatches st) (sl_lane slot)) as (Hl0 & Hlub & _).
  assert (sl_start slot = Z.max (lane_free (ss_dispatches st) (sl_lane slot)) f) as Hstart
    by (by rewrite Heq).
  assert (sl_end slot = saturating_add 64 (sl_start slot) work) as Hend by (by rewrite Heq).
  unfold schedule_node. rewrite Hentry; cbn [mbind option_bind]. fold deps. rewrite Hf; cbn [mbind option_bind].
  fold work. rewrite Hslot; cbn [mbind option_bind]. rewrite !vec_set_lt by lia; cbn [mbind option_bind].
  eexists _, (mkPlannedDispatch _ _ _ _ _ _ _). split; [done|]. split; [done|]. split; [|done].
  split; simpl; unfold dispatch_work; simpl; fold work.
  - eauto.
  - done.
  - done.
  - done.
  - rewrite Hstart. split; [lia|]. split.
    + intros d' Hd' Hl'. specialize (Hlub d' Hd' Hl'). lia.
    + simpl. intros d' Hd' Hdep. specialize (Hfub _ _ Hdep (Hfin d' Hd')). lia.
  - done.
  - intros lane t Hlane (Ht0 & Htl & Htd). simpl in Htd.
    etrans; [apply (Hbest lane), Hav, Hlane|]. apply saturating_mono.
    apply Z.max_lub; [by apply lane_free_lub|]. apply Hflub; [done|].
    intros p v Hp Hv. destruct (Hplanned p Hp) as (d & Hd & <-).
    rewrite (Hfin d Hd) in Hv. injection Hv as <-. by apply Htd.
  - rewrite Hend, Hstart. pose proof (in_u_max _ _ _ (Hfw (sl_lane slot)) Hfu).
    split; [done|]. apply saturating_range; [done|]. unfold work. lia.
Qed.

Lemma schedule_node_inv r lanes l st node :
  recorder_shape r → sched_inv r lanes l st → 0 < lanes → valid_id r node → node ∉ l →
  (∀ p, edge (rec_edges r) p node → p ∈ l) →
  (∀ x, x ∈ l → valid_id r x) →
  ∃ st', schedule_node r st node = Some st' ∧ sched_inv r lanes (l ++ [node]) st'.
Proof.
  intros Hshape Hinv Hlanes Hv Hnew Hpre Hl.
  destruct (schedule_node_ok r lanes l st node) as (st' & d & Hst & Hnode & Hd & ->); [done..|].
  eexists; split; [done|]. destruct Hinv as [Hlen Hnodes Hav Hfw Hfin Hok].
  pose proof (do_lane _ _ _ _ Hd) as Hdl.
  split; simpl.
  - by rewrite length_insert.
  - by rewrite length_insert.
  - intros lane Hlane. rewrite lane_free_snoc, list_lookup_insert. case_decide as H1.
    + destruct H1 as [<- _]. rewrite decide_True by done.
      destruct (lane_free_lub (ss_dispatches st) (pd_lane d)) as (_ & _ & Hlub).
      destruct (do_start _ _ _ _ Hd) as (Hs0 & Hsl & _). specialize (Hlub _ Hs0 Hsl).
      pose proof (do_end _ _ _ _ Hd) as He. destruct (do_width _ _ _ _ Hd) as [Hw1 Hw2].
      destruct (saturating_range 64 (pd_estimated_start d) (dispatch_work d)) as [_ Hge];
        [done|unfold dispatch_work; lia|]. f_equal. rewrite Z.max_r; [done|]. rewrite He. lia.
    + rewrite decide_False; [by apply Hav|]. intros Hx. apply H1. split; [done|lia].
  - intros lane. rewrite lane_free_snoc. case_decide; [|done].
    apply in_u_max; [done|]. apply (do_width _ _ _ _ Hd).
  - intros d' [Hd'| ->%list_elem_of_singleton]%elem_of_app.
    + rewrite list_lookup_insert_ne; [by apply Hfin|]. intros Heq. apply Hnew.
      assert (pd_node d' ∈ l) as Hin by (rewrite <-(proj1 Hok); by apply list_elem_of_fmap_2).
      rewrite (valid_index_inj r node (pd_node d')); [done|done|by apply Hl|done].
    + rewrite Hnode. apply list_lookup_insert_eq. destruct Hv. lia.
  - rewrite <-Hnode. by apply schedule_ok_snoc.
Qed.

Lemma schedule_spec r lanes order :
  recorder_shape r → topo_order r order → 0 < lanes →
  ∃ st, schedule r lanes order = Some st ∧ schedule_ok r lanes order (ss_dispatches st).
Proof.
  intros Hshape [Hnd Hn Hs] Hlanes. unfold schedule.
  destruct (foldM_inv (sched_inv r lanes) (schedule_node r) order
    (mkSched (replicate lanes 0%Z) (replicate (length (rec_nodes r)) 0%Z) [])) as (st & Hst & Hinv).
  - split; simpl; [by rewrite length_replicate..| | |set_solver|].
    + intros lane Hl. by apply lookup_replicate.
    + intros lane. unfold lane_free, in_u, umax; simpl. lia.
    + split; [done|]. intros l1 d l2 Heq. destruct l1; done.
  - intros l1 x l2 st Heq Hinv. apply schedule_node_inv; try done.
    + apply Hn. rewrite Heq. set_solver.
    + rewrite Heq in Hnd. apply NoDup_app in Hnd as (_ & Hd & _). intros Hx. apply (Hd x Hx). set_solver.
    + by eapply Hs.
    + intros y Hy. apply Hn. rewrite Heq. set_solver.
  - exists st. split; [done|]. apply Hinv.
Qed.

(** ** Kernel contracts *)

(** A list of key-value uses that gives every key one value. *)
Definition consistent {K V} (uses : list (K * V)) : Prop :=
  ∀ k v v', (k, v) ∈ uses → (k, v') ∈ uses → v = v'.

Definition slot_use (a : KernelArg) : option (ScalarSlotId * Z) :=
  match a with ArgScalarSlot slot size => Some (slot, size) | _ => None end.
Definition slot_uses (arguments : list KernelArg) : list (ScalarSlotId * Z) :=
  filter_map slot_use arguments.
Definition node_slot_uses (nodes : list Node) : list (ScalarSlotId * Z) :=
  nodes ≫= λ n, slot_uses (launch_arguments (node_launch n)).
Definition kernel_uses (nodes : list Node) :
    list (rstr * (option Sha256Digest * option KernelArtifactIdentity)) :=
  (λ n, (launch_kernel (node_launch n), kernel_identity (node_launch n))) <$> nodes.

Definition node_abi_ok (n : Node) : Prop :=
  ∀ abi, launch_kernarg_abi (node_launch n) = Some abi →
    validate_arguments abi (launch_arguments (node_launch n)) = Ok tt.

Record contracts_ok (nodes : list Node) : Prop := {
  co_abi n : n ∈ nodes → node_abi_ok n;
  co_slots : consistent (node_slot_uses nodes);
  co_kernels : consistent (kernel_uses nodes)
}.

Section tables.
Context {K V : Type} `{CmpOk K}.

(** The table holds exactly the uses seen so far. *)
Definition represents (uses : list (K * V)) (t : list (K * V)) : Prop :=
  ∀ k v, bmap_get k t = Some v ↔ (k, v) ∈ uses.

Lemma represents_consistent uses t : represents uses t → consistent uses.
Proof. intros Hr k v v' Hv%Hr Hv'%Hr. congruence. Qed.

Lemma represents_insert uses t k v :
  represents uses t → (∀ v', bmap_get k t = Some v' → v' = v) →
  represents (uses ++ [(k, v)]) (bmap_insert k v t).
Proof.
  intros Hr Hk k' v'. rewrite elem_of_app, list_elem_of_singleton.
  destruct (decide (k = k')) as [<-|Hne].
  - rewrite bmap_get_insert_eq. split; [intros [= ->]; by right|].
    intros [Hin|[= ->]]; [|done]. apply Hr, Hk in Hin. by subst.
  - rewrite bmap_get_insert_ne by done. rewrite (Hr k' v'). naive_solver.
Qed.

Lemma represents_conflict uses t k v v' rest :
  represents uses t → bmap_get k t = Some v' → v' ≠ v →
  ¬ consistent (uses ++ (k, v) :: rest).
Proof. intros Hr Hk Hne Hc. apply Hne, (Hc k); [apply Hr in Hk|]; set_solver. Qed.
End tables.

Lemma check_slots_cases args : ∀ uses t,
  represents uses t →
  (∃ t', check_slots t args = Ok t' ∧ represents (uses ++ slot_uses args) t') ∨
  (∃ slot a b, check_slots t args = Err (ConflictingScalarSlotSize slot a b) ∧
     ∀ rest, ¬ consistent (uses ++ slot_uses args ++ rest)).
Proof.
  induction args as [|arg args IH]; intros uses t Hr; simpl.
  { left. exists t. by rewrite app_nil_r. }
  destruct arg as [bytes|slot size|res off]; simpl; [by apply IH| |by apply IH].
  unfold slot_uses in *; simpl.
  assert ((∀ v', bmap_get slot t = Some v' → v' = size) →
    (∃ t', check_slots (bmap_insert slot size t) args = Ok t' ∧
       represents (uses ++ (slot, size) :: filter_map slot_use args) t') ∨
    (∃ s a b, check_slots (bmap_insert slot size t) args = Err (ConflictingScalarSlotSize s a b) ∧
       ∀ rest, ¬ consistent (uses ++ ((slot, size) :: filter_map slot_use args) ++ rest))) as Hgo.
  { intros Hv. destruct (IH _ _ (represents_insert _ _ _ _ Hr Hv)) as [(t' & Ht' & Hr')|(s & a & b & Hc & Hno)].
    - left. exists t'. by rewrite <-app_assoc in Hr'.
    - right. exists s, a, b. split; [done|]. intros rest. specialize (Hno rest).
      by rewrite <-app_assoc in Hno. }
  destruct (bmap_get slot t) as [previous|] eqn:Hg; [|by apply Hgo].
  destruct (Z.eqb_spec previous size) as [->|Hne]; [apply Hgo; naive_solver|].
  right. exists slot, previous, size. split; [done|]. intros rest.
  by eapply represents_conflict.
Qed.

(** The error a refused recording gets names a genuine violation. *)
Definition contract_violation (nodes : list Node) (e : CompileError) : Prop :=
  match e with
  | InvalidKernargAbi kernel cause => ∃ n abi, n ∈ nodes ∧ launch_kernel (node_launch n) = kernel ∧
      launch_kernarg_abi (node_launch n) = Some abi ∧
      validate_arguments abi (launch_arguments (node_launch n)) = Err cause
  | ConflictingScalarSlotSize _ _ _ => ¬ consistent (node_slot_uses nodes)
  | ConflictingKernelIdentity _ => ¬ consistent (kernel_uses nodes)
  | Cycle _ | UnorderedHazards _ => False
  end.

Lemma validate_contracts_loop_cases nodes : ∀ seen slots kernels,
  (∀ n, n ∈ seen → node_abi_ok n) →
  represents (node_slot_uses seen) slots → represents (kernel_uses seen) kernels →
  (validate_contracts_loop slots kernels nodes = Ok tt ∧ contracts_ok (seen ++ nodes)) ∨
  (∃ e, validate_contracts_loop slots kernels nodes = Err e ∧ contract_violation (seen ++ nodes) e).
Proof.
  induction nodes as [|n nodes IH]; intros seen slots kernels Habi Hs Hk; simpl.
  { left. split; [done|]. rewrite app_nil_r. split; [done|by eapply represents_consistent..]. }
  set (l := node_launch n).
  assert (node_abi_ok n ∨ ∃ abi cause, launch_kernarg_abi l = Some abi ∧
    validate_arguments abi (launch_arguments l) = Err cause) as [Hn|(abi & cause & Ha & Hv)].
  { unfold node_abi_ok. fold l. destruct (launch_kernarg_abi l) as [abi|]; [|left; done].
    destruct (validate_arguments abi (launch_arguments l)) as [[]|c] eqn:E; naive_solver. }
  2: { right. rewrite Ha, Hv; simpl. eexists; split; [done|]. exists n, abi. set_solver. }
  assert (match launch_kernarg_abi l with
     | Some abi => map_err (InvalidKernargAbi (launch_kernel l)) (validate_arguments abi (launch_arguments l))
     | None => Ok tt end = Ok tt) as ->.
  { destruct (launch_kernarg_abi l) as [abi|] eqn:E; [|done]. pose proof (Hn abi E) as Hv. fold l in Hv. by rewrite Hv. }
  cbn [mbind result_bind].
  assert (∀ l1 l2, node_slot_uses (l1 ++ n :: l2) =
    node_slot_uses l1 ++ slot_uses (launch_arguments l) ++ node_slot_uses l2) as Huses.
  { intros l1 l2. unfold node_slot_uses. by rewrite bind_app. }
  destruct (check_slots_cases (launch_arguments l) _ _ Hs) as [(slots' & -> & Hs')|(s & a & b & -> & Hno)].
  2: { right. eexists; split; [done|]. simpl. rewrite Huses. apply Hno. }
  cbn [mbind result_bind].
  assert ((∀ v, bmap_get (launch_kernel l) kernels = Some v → v = kernel_identity l) →
    let kernels' := bmap_insert (launch_kernel l) (kernel_identity l) kernels in
    (validate_contracts_loop slots' kernels' nodes = Ok tt ∧ contracts_ok (seen ++ n :: nodes)) ∨
    (∃ e, validate_contracts_loop slots' kernels' nodes = Err e ∧
       contract_violation (seen ++ n :: nodes) e)) as Hgo.
  { intros Hv. rewrite (app_assoc seen [n] nodes : seen ++ n :: nodes = _). apply IH.
    - intros n' [?| ->%list_elem_of_singleton]%elem_of_app; auto.
    - rewrite Huses. simpl. by rewrite app_nil_r.
    - unfold kernel_uses. rewrite fmap_app; simpl. by apply represents_insert. }
  destruct (bmap_get (launch_kernel l) kernels) as [previous|] eqn:Hg; [|by apply Hgo].
  case_decide as Hd; [apply Hgo; naive_solver|].
  right. eexists; split; [done|]. simpl. unfold kernel_uses. rewrite fmap_app; simpl.
  by eapply represents_conflict.
Qed.

Lemma validate_kernel_contracts_cases r :
  (validate_kernel_contracts r = Ok tt ∧ contracts_ok (rec_nodes r)) ∨
  (∃ e, validate_kernel_contracts r = Err e ∧ contract_violation (rec_nodes r) e).
Proof.
  unfold validate_kernel_contracts. apply (validate_contracts_loop_cases _ []).
  - set_solver.
  - intros k v. simpl. set_solver.
  - intros k v. simpl. set_solver.
Qed.

Lemma contract_violation_not_ok nodes e : contract_violation nodes e → ¬ contracts_ok nodes.
Proof.
  intros Hv [Ha Hs Hk]. destruct e; simpl in Hv; try done.
  destruct Hv as (n & abi & Hn & _ & Habi & Hval). rewrite (Ha n Hn abi Habi) in Hval. done.
Qed.

(** ** The outcome of compilation *)

(** A hazard report is exact: it lists the overlaps of every pair of conflicting
    dispatches that the dependencies leave unordered, and nothing else. *)
Definition hazards_exact (r : Recorder) (hs : list Hazard) : Prop :=
  ∀ h, h ∈ hs ↔ ∃ i j ni nj, i < j ∧ rec_nodes r !! i = Some ni ∧
    rec_nodes r !! j = Some nj ∧ ¬ ordered r i j ∧ h ∈ node_hazards ni nj.

Record compiled (sha256 : list Z → Sha256Digest) (r : Recorder) (o : CompileOptions)
    (order : list NodeId) (plan : CompiledPlan) : Prop := {
  cp_order : topo_order r order;
  cp_dispatches : schedule_ok r (Pos.to_nat (opt_lane_count o)) order (plan_dispatches plan);
  cp_resources : plan_resources plan = planned_resources r;
  cp_terminals : plan_terminals plan = terminals_of r;
  cp_lanes : plan_lane_count plan = opt_lane_count o;
  cp_mode : plan_replay_mode plan = opt_replay_mode o;
  cp_fingerprint : plan_fingerprint plan = sha256 (fingerprint_input plan)
}.

Lemma plan_compile_cases sha256 r o :
  recorder_wf r →
  (∃ e, plan_compile sha256 r o = Fail e ∧ contract_violation (rec_nodes r) e) ∨
  (contracts_ok (rec_nodes r) ∧ ¬ hazard_free r ∧
    ∃ hs, plan_compile sha256 r o = Fail (UnorderedHazards hs) ∧ hazards_exact r hs) ∨
  (contracts_ok (rec_nodes r) ∧ hazard_free r ∧
    ∃ plan order, plan_compile sha256 r o = Done plan ∧ compiled sha256 r o order plan).
Proof.
  intros Hwf. unfold plan_compile.
  destruct (validate_kernel_contracts_cases r) as [[-> Hok]|(e & -> & He)]; [right|left; by exists e].
  cbn [try_ mbind exec_bind].
  destruct (topological_order_acyclic r) as (order & -> & Hto); [apply Hwf..|].
  cbn [mbind exec_bind].
  destruct (reachability_spec r order) as (m & -> & Hm); [apply Hwf|done|].
  cbn [unwrap mbind exec_bind].
  destruct (unordered_hazards_spec r m Hm) as (hs & Hhs & Hspec). rewrite Hhs.
  cbn [unwrap mbind exec_bind]. pose proof (unordered_hazards_nil r m hs Hm Hhs) as Hnil.
  destruct (is_empty hs) eqn:He; cbn [negb].
  - apply is_empty_true in He. right. split; [done|]. split; [by apply Hnil|].
    destruct (schedule_spec r (Pos.to_nat (opt_lane_count o)) order) as (st & -> & Hst);
      [apply Hwf|done|lia|].
    cbn [unwrap mbind exec_bind]. eexists _, order. split; [done|]. by split.
  - apply is_empty_false in He. left. split; [done|]. split; [by rewrite <-Hnil|]. eauto.
Qed.

Lemma plan_compile_Done sha256 r o plan :
  recorder_wf r → plan_compile sha256 r o = Done plan →
  contracts_ok (rec_nodes r) ∧ hazard_free r ∧ ∃ order, compiled sha256 r o order plan.
Proof.
  intros Hwf Hc. destruct (plan_compile_cases sha256 r o Hwf) as
    [(e & He & _)|[(_ & _ & hs & He & _)|(Hok & Hf & plan' & order & He & Hp)]]; [congruence..|].
  rewrite Hc in He. injection He as <-. eauto.
Qed.

Lemma elem_of_terminals r x :
  recorder_shape r →
  x ∈ terminals_of r ↔ valid_id r x ∧ ∀ y, ¬ edge (rec_edges r) x y.
Proof.
  intros Hshape. unfold terminals_of. rewrite elem_of_filter_map. split.
  - intros (n & Hn & Hx). apply list_elem_of_lookup in Hn as [i Hi].
    pose proof (shape_ids _ Hshape i n Hi) as Hid.
    destruct (existsb _ _) eqn:He in Hx; [done|]. injection Hx as <-. rewrite Hid. split.
    + split; [done|]. simpl. by eapply lookup_lt_Some.
    + intros y Hy. rewrite <-Hid in Hy. enough (false = true) by done. rewrite <-He.
      apply existsb_exists. exists (node_id n, y). split; [by apply list_elem_of_In|].
      by apply bool_decide_eq_true.
  - intros [[Ho Hi] Hno]. destruct (lookup_lt_is_Some_2 _ _ Hi) as [n Hn].
    assert (node_id n = x) as Hid.
    { rewrite (shape_ids _ Hshape _ _ Hn). unfold rid. destruct x; simpl in *; congruence. }
    exists n. split; [by eapply list_elem_of_lookup_2|]. rewrite Hid.
    destruct (existsb _ _) eqn:He; [|done]. exfalso.
    apply existsb_exists in He as ([a b] & Hin%list_elem_of_In & Hb%bool_decide_eq_true).
    simpl in Hb. subst a. by apply (Hno b).
Qed.

(** Every node is followed by a terminal. *)
Lemma reaches_terminal r order :
  recorder_shape r → topo_order r order →
  ∀ x, valid_id r x → ∃ t, t ∈ terminals_of r ∧ rtc (edge (rec_edges r)) x t.
Proof.
  intros Hshape Hto.
  assert (∀ l2 l1, order = l1 ++ l2 → ∀ x, x ∈ l2 →
    ∃ t, t ∈ terminals_of r ∧ rtc (edge (rec_edges r)) x t) as Hgo.
  { induction l2 as [|y l2 IH]; intros l1 Heq x Hx; [set_solver|].
    apply elem_of_cons in Hx as [->|Hx]; [|apply (IH (l1 ++ [y])); [by rewrite <-app_assoc|done]].
    assert (valid_id r y) as Hv by (apply (to_nodes _ _ Hto); rewrite Heq; set_solver).
    destruct (edge_targets (rec_edges r) y) as [|z zs] eqn:Ht.
    - exists y. split; [|done]. apply elem_of_terminals; [done|]. split; [done|].
      intros z Hz. apply elem_of_edge_targets in Hz. rewrite Ht in Hz. set_solver.
    - assert (edge (rec_edges r) y z) as Hz by (apply elem_of_edge_targets; rewrite Ht; set_solver).
      destruct (IH (l1 ++ [y])) with (x := z) as (t & Htm & Hp); [by rewrite <-app_assoc| |].
      { eapply (topo_sorted_after _ order l1 y); [apply Hto|apply Hto|done| |by constructor].
        apply (to_nodes _ _ Hto). by destruct (shape_edges _ Hshape _ _ Hz). }
      exists t. split; [done|]. by eapply rtc_l. }
  intros x Hx. apply (Hgo order []); [done|]. by apply (to_nodes _ _ Hto).
Qed.

(** ** Main results *)

(** A concrete stand-in for SHA-256, for the witnesses. *)
Definition sample_sha256 (input : list Z) : Sha256Digest := le_bytes 32 (foldl Z.add 0%Z input).
Definition sample_options : CompileOptions := mkOptions 2 TokenLatency.
Definition sample_plan : CompiledPlan :=
  match plan_compile sample_sha256 sample sample_options with
  | Done plan => plan
  | _ => mkPlan [] [] [] 1 TokenLatency []
  end.

Lemma sample_plan_compiles : plan_compile sample_sha256 sample sample_options = Done sample_plan.
Proof. vm_compute. reflexivity. Qed.

(** C33: compiling a well-formed recording always returns; it never reports a
    cycle, and it yields a plan exactly when the kernel contracts hold and every
    two dispatches with conflicting accesses are ordered by dependencies. *)
Theorem compile_total sha256 r o :
  recorder_wf r →
  plan_compile sha256 r o ≠ Panic ∧
  (∀ nodes, plan_compile sha256 r o ≠ Fail (Cycle nodes)) ∧
  ((∃ plan, plan_compile sha256 r o = Done plan) ↔
    contracts_ok (rec_nodes r) ∧ hazard_free r).
Proof.
  intros Hwf. destruct (plan_compile_cases sha256 r o Hwf) as
    [(e & -> & He)|[(Hok & Hf & hs & -> & _)|(Hok & Hf & plan & order & -> & _)]].
  - split; [done|]. split; [intros nodes [= ->]; done|]. split; [naive_solver|].
    intros [Hok _]. by apply contract_violation_not_ok in He.
  - split; [done|]. split; [done|]. naive_solver.
  - split; [done|]. split; [done|]. naive_solver.
Qed.

Lemma compile_total_witness :
  contracts_ok (rec_nodes sample) ∧ hazard_free sample ∧
  plan_compile sample_sha256 sample_racy sample_options ≠ Panic.
Proof.
  destruct (compile_total sample_sha256 sample sample_options sample_wf) as (_ & _ & [H _]).
  destruct (compile_total sample_sha256 sample_racy sample_options sample_racy_wf) as (H' & _).
  assert (contracts_ok (rec_nodes sample) ∧ hazard_free sample) as [H1 H2].
  { apply H. eexists. vm_compute. reflexivity. }
  exact (conj H1 (conj H2 H')).
Defined.

(** A hazard report lists precisely the overlaps between conflicting accesses
    of two dispatches that the dependencies leave unordered: every reported
    hazard is one, and every such overlap is reported with its kind and bytes. *)
Theorem compile_reports_hazards sha256 r o hs :
  recorder_wf r → plan_compile sha256 r o = Fail (UnorderedHazards hs) →
  hs ≠ [] ∧
  ∀ first second kind overlap, mkHazard first second kind overlap ∈ hs ↔
    ∃ i j ni nj a b, i < j ∧ rec_nodes r !! i = Some ni ∧ rec_nodes r !! j = Some nj ∧
      first = rid r i ∧ second = rid r j ∧
      ¬ depends r first second ∧ ¬ depends r second first ∧
      a ∈ node_accesses ni ∧ b ∈ node_accesses nj ∧
      region_intersection (acc_region a) (acc_region b) = Some overlap ∧
      hazard_kind (acc_mode a) (acc_mode b) = Some kind.
Proof.
  intros Hwf Hc. destruct (plan_compile_cases sha256 r o Hwf) as
    [(e & He & Hv)|[(_ & Hf & hs' & He & Hex)|(_ & _ & plan & order & He & _)]]; [| |congruence].
  { rewrite Hc in He. injection He as <-. done. }
  rewrite Hc in He. injection He as <-.
  assert (∀ ni nj first second kind overlap,
    mkHazard first second kind overlap ∈ node_hazards ni nj ↔
    first = node_id ni ∧ second = node_id nj ∧
    (kind, overlap) ∈ access_conflicts (node_accesses ni) (node_accesses nj)) as Hnh.
  { intros. unfold node_hazards. rewrite list_elem_of_fmap. split.
    - intros ([k ov] & [= -> -> -> ->] & Hin). done.
    - intros (-> & -> & Hin). exists (kind, overlap). done. }
  split.
  - intros ->. apply Hf. intros i j ni nj Hne Hni Hnj Hcf.
    destruct (topological_order_acyclic r) as (order & _ & Hto); [apply Hwf..|].
    destruct (reachability_spec r order) as (m & _ & Hm); [apply Hwf|done|].
    destruct (unordered_hazards_spec r m Hm) as (hs & Hhs & Hspec).
    apply (proj1 (unordered_hazards_nil r m hs Hm Hhs)) with ni nj; [|done..].
    apply no_elem_nil. intros h Hh%Hspec%Hex. set_solver.
  - intros first second kind overlap. rewrite (Hex (mkHazard _ _ _ _)). setoid_rewrite Hnh.
    setoid_rewrite elem_of_access_conflicts. unfold ordered. split.
    + intros (i & j & ni & nj & Hij & Hni & Hnj & Hno & -> & -> & a & b & Ha & Hb & Hov & Hk).
      rewrite (shape_ids _ Hwf _ _ Hni), (shape_ids _ Hwf _ _ Hnj).
      exists i, j, ni, nj, a, b. tauto.
    + intros (i & j & ni & nj & a & b & Hij & Hni & Hnj & -> & -> & H1 & H2 & Ha & Hb & Hov & Hk).
      exists i, j, ni, nj. rewrite (shape_ids _ Hwf _ _ Hni), (shape_ids _ Hwf _ _ Hnj).
      split_and!; [done..|tauto|done|done|]. exists a, b. done.
Qed.

Lemma compile_reports_hazards_witness :
  ∃ hs, plan_compile sample_sha256 sample_racy sample_options = Fail (UnorderedHazards hs) ∧
    hs ≠ [].
Proof.
  eexists. split; [vm_compute; reflexivity|].
  eapply (compile_reports_hazards sample_sha256 sample_racy sample_options);
    [exact sample_racy_wf|vm_compute; reflexivity].
Defined.

(** A compiled plan schedules every recorded dispatch exactly once, after all
    its prerequisites.  Each one starts when its lane is free and its
    prerequisites have ended, and no lane would let it end earlier. *)
Theorem compile_schedules sha256 r o plan :
  recorder_wf r → plan_compile sha256 r o = Done plan →
  pd_node <$> plan_dispatches plan ≡ₚ node_id <$> rec_nodes r ∧
  ∀ l1 d l2, plan_dispatches plan = l1 ++ d :: l2 →
    dispatch_ok r (Pos.to_nat (opt_lane_count o)) l1 d ∧
    (∀ p, edge (rec_edges r) p (pd_node d) ↔ p ∈ pd_dependencies d).
Proof.
  intros Hwf Hc. destruct (plan_compile_Done _ _ _ _ Hwf Hc) as (_ & _ & order & Hcp).
  destruct (cp_dispatches _ _ _ _ _ Hcp) as [Hmap Hall]. split.
  - rewrite Hmap. apply topo_order_perm; [apply Hwf|apply Hcp].
  - intros l1 d l2 Hd. specialize (Hall l1 d l2 Hd). split; [done|].
    intros p. rewrite (do_deps _ _ _ _ Hall). by rewrite elem_of_dependencies_of.
Qed.

Lemma compile_schedules_witness :
  ∃ plan, plan_compile sample_sha256 sample sample_options = Done plan ∧
    pd_node <$> plan_dispatches plan ≡ₚ node_id <$> rec_nodes sample.
Proof.
  eexists. split; [vm_compute; reflexivity|].
  eapply (compile_schedules sample_sha256 sample sample_options);
    [exact sample_wf|vm_compute; reflexivity].
Defined.

(** The terminals of a compiled plan are the dispatches nothing depends on,
    and waiting for them waits for everything: every dispatch is a terminal or
    has one among its transitive dependents. *)
Theorem compile_terminals sha256 r o plan :
  recorder_wf r → plan_compile sha256 r o = Done plan →
  (∀ x, x ∈ plan_terminals plan ↔ valid_id r x ∧ ∀ y, ¬ edge (rec_edges r) x y) ∧
  (∀ x, valid_id r x → ∃ t, t ∈ plan_terminals plan ∧ rtc (edge (rec_edges r)) x t).
Proof.
  intros Hwf Hc. destruct (plan_compile_Done _ _ _ _ Hwf Hc) as (_ & _ & order & Hcp).
  rewrite (cp_terminals _ _ _ _ _ Hcp). split.
  - intros x. apply elem_of_terminals, Hwf.
  - eapply reaches_terminal; [apply Hwf|apply Hcp].
Qed.

Lemma compile_terminals_witness :
  ∃ plan, plan_compile sample_sha256 sample sample_options = Done plan ∧
    mkNodeId 7 1 ∈ plan_terminals plan.
Proof.
  eexists. split; [vm_compute; reflexivity|].
  edestruct (compile_terminals sample_sha256 sample sample_options) as [H _];
    [exact sample_wf|vm_compute; reflexivity|].
  apply H. split; [split; [reflexivity|vm_compute; lia]|].
  intros y Hy%elem_of_edge_targets. vm_compute in Hy. inversion Hy.
Defined.
