(* ===== verification/Determinacy.v ===== *)
(** * What the hazard check buys: schedule-independent results

    Device memory and kernels that respect their declared accesses, and the
    theorem that a plan's result does not depend on the order in which the
    device runs the dispatches, as long as it respects the dependencies. *)

From S2P Require Import Prelude BTree Ir Identity Recorder Plan PlanOrder PlanCompile.

(** ** Linear extensions of a strict order commute *)

Section linear_extensions.
Context {N S : Type} (before : relation N) (step : N → S → S).
Context `{Equiv S, !Equivalence (≡@{S})}.
Context `{Hproper : !∀ x, Proper ((≡) ==> (≡)) (step x)}.
Context (Hcomm : ∀ x y s, x ≠ y → ¬ before x y → ¬ before y x →
  step x (step y s) ≡ step y (step x s)).

(** Nothing that comes later in [l] has to come before. *)
Definition respects (l : list N) : Prop :=
  ∀ l1 x l2, l = l1 ++ x :: l2 → ∀ y, y ∈ l2 → ¬ before y x.

Definition run_list (l : list N) (s : S) : S := foldl (λ s x, step x s) s l.

Lemma run_list_app l1 l2 s : run_list (l1 ++ l2) s = run_list l2 (run_list l1 s).
Proof. apply foldl_app. Qed.

#[local] Instance run_list_proper l : Proper ((≡) ==> (≡)) (run_list l).
Proof using Hproper.
  unfold run_list. induction l as [|x l IH]; intros s s' Hs; simpl; [done|].
  apply IH. by f_equiv.
Qed.

Lemma respects_tail x l : respects (x :: l) → respects l.
Proof. intros Hr l1 y l2 ->. by apply (Hr (x :: l1)). Qed.

Lemma respects_remove l1 x l2 : respects (l1 ++ x :: l2) → respects (l1 ++ l2).
Proof.
  revert l2. induction l1 as [|z l1 IH]; intros l2 Hr; simpl; [by eapply respects_tail|].
  intros k1 y k2 Heq w Hw. destruct k1 as [|k k1]; simplify_eq/=.
  - apply (Hr [] y (l1 ++ x :: l2)); [done|]. set_solver.
  - eapply (IH l2); [by eapply respects_tail|done|done].
Qed.

(** [x] can be moved to the front past elements it is not ordered with. *)
Lemma run_list_front a x s :
  x ∉ a → (∀ y, y ∈ a → ¬ before x y ∧ ¬ before y x) →
  run_list (a ++ [x]) s ≡ run_list (x :: a) s.
Proof using Hcomm Hproper Equivalence0.
  revert s. induction a as [|y a IH]; intros s Hx Hun; [done|].
  change (run_list (a ++ [x]) (step y s) ≡ run_list a (step y (step x s))).
  rewrite IH by set_solver. change (run_list a (step x (step y s)) ≡ run_list a (step y (step x s))).
  apply run_list_proper, Hcomm; [set_solver|apply Hun; set_solver..].
Qed.

Lemma linear_extensions_agree l1 : ∀ l2 s,
  NoDup l1 → l1 ≡ₚ l2 → respects l1 → respects l2 → run_list l1 s ≡ run_list l2 s.
Proof using Hcomm Hproper Equivalence0.
  induction l1 as [|x l1 IH]; intros l2 s Hnd Hp Hr1 Hr2.
  { apply Permutation_nil_l in Hp as ->. done. }
  assert (x ∈ l2) as (a & b & ->)%list_elem_of_split by (rewrite <-Hp; set_solver).
  apply NoDup_cons in Hnd as [Hx Hnd].
  assert (l1 ≡ₚ a ++ b) as Hp'.
  { apply (Permutation_cons_inv (a := x)). rewrite Hp. by rewrite Permutation_middle. }
  change (run_list l1 (step x s) ≡ run_list (a ++ x :: b) s).
  rewrite (IH (a ++ b)); [|done|done|by eapply respects_tail|by eapply respects_remove].
  rewrite (app_assoc a [x] b : a ++ x :: b = _), (run_list_app (a ++ [x])), run_list_app.
  apply run_list_proper. symmetry. apply (run_list_front a x s).
  - intros Hxa. apply Hx. rewrite Hp'. set_solver.
  - intros y Hy. split.
    + apply list_elem_of_split in Hy as (a1 & a2 & ->).
      apply (Hr2 a1 y (a2 ++ x :: b)); [by rewrite <-app_assoc|set_solver].
    + apply (Hr1 [] x l1); [done|]. rewrite Hp'. set_solver.
Qed.
End linear_extensions.

(** ** Memory and kernels *)

(** Device memory: the bytes of every logical allocation. *)
Definition mem : Type := ResourceId → Z → Z.

#[export] Instance mem_equiv : Equiv mem := λ m m', ∀ res i, m res i = m' res i.
#[export] Instance mem_equivalence : Equivalence (≡@{mem}).
Proof.
  split.
  - by intros m res i.
  - intros m m' Hm res i. by rewrite Hm.
  - intros m1 m2 m3 H1 H2 res i. by rewrite H1, H2.
Qed.

Definition touched (accesses : list Access) (res : ResourceId) (i : Z) : Prop :=
  ∃ a, a ∈ accesses ∧ in_region (acc_region a) res i.
Definition written (accesses : list Access) (res : ResourceId) (i : Z) : Prop :=
  ∃ a, a ∈ accesses ∧ acc_mode a = WriteMode ∧ in_region (acc_region a) res i.

#[export] Instance written_dec accesses res i : Decision (written accesses res i).
Proof.
  destruct (decide (Exists (λ a, acc_mode a = WriteMode ∧ in_region (acc_region a) res i) accesses))
    as [He|He]; [left|right]; unfold written; rewrite Exists_exists in He; naive_solver.
Defined.

(** A kernel respects its declared accesses: it changes no byte outside its
    written regions, and what it writes depends on touched bytes only. *)
Record respects_accesses (accesses : list Access) (k : mem → mem) : Prop := {
  ra_frame m res i : ¬ written accesses res i → k m res i = m res i;
  ra_local m m' res i : (∀ res' i', touched accesses res' i' → m res' i' = m' res' i') →
    written accesses res i → k m res i = k m' res i
}.

Lemma written_touched accesses res i : written accesses res i → touched accesses res i.
Proof. intros (a & Ha & _ & Hi). by exists a. Qed.

Lemma respects_accesses_proper accesses k :
  respects_accesses accesses k → Proper ((≡) ==> (≡)) k.
Proof.
  intros [Hf Hl] m m' Hm res i. destruct (decide (written accesses res i)) as [Hw|Hw].
  - apply Hl; [|done]. intros. apply Hm.
  - rewrite !Hf by done. apply Hm.
Qed.

Lemma no_conflict_disjoint l1 l2 res i :
  ¬ accesses_conflict l1 l2 → written l1 res i → ¬ touched l2 res i.
Proof.
  intros Hn (a & Ha & Hm & [Hra Hia]) (b & Hb & [Hrb Hib]). apply Hn.
  exists a, b. split; [done|]. split; [done|]. split; [|by left].
  apply region_overlaps_iff. split; [congruence|]. lia.
Qed.

(** The bytes a kernel declares to read, and the stronger discipline in which
    only they determine what it writes: a kernel that keeps or updates bytes of a
    written region declares to read them as well. *)
Definition loaded (accesses : list Access) (res : ResourceId) (i : Z) : Prop :=
  ∃ a, a ∈ accesses ∧ acc_mode a = ReadMode ∧ in_region (acc_region a) res i.

#[export] Instance loaded_dec accesses res i : Decision (loaded accesses res i).
Proof.
  destruct (decide (Exists (λ a, acc_mode a = ReadMode ∧ in_region (acc_region a) res i) accesses))
    as [He|He]; [left|right]; unfold loaded; rewrite Exists_exists in He; naive_solver.
Defined.

Record loads_and_stores (accesses : list Access) (k : mem → mem) : Prop := {
  ls_frame m res i : ¬ written accesses res i → k m res i = m res i;
  ls_local m m' res i : (∀ res' i', loaded accesses res' i' → m res' i' = m' res' i') →
    written accesses res i → k m res i = k m' res i
}.

Lemma loads_and_stores_respect accesses k : loads_and_stores accesses k → respects_accesses accesses k.
Proof.
  intros [Hf Hl]. split; [done|]. intros m m' res i Heq. apply Hl. intros res' i' (a & Ha & _ & Hi).
  apply Heq. by exists a.
Qed.

Lemma written_loaded_conflict l1 l2 res i :
  written l1 res i → loaded l2 res i → accesses_conflict l1 l2.
Proof.
  intros (a & Ha & Hm & [Hra Hia]) (b & Hb & _ & [Hrb Hib]).
  exists a, b. split; [done|]. split; [done|]. split; [|by left].
  apply region_overlaps_iff. split; [congruence|]. lia.
Qed.

Lemma kernel_past_disjoint l1 l2 k1 k2 m res i :
  respects_accesses l1 k1 → respects_accesses l2 k2 → ¬ accesses_conflict l1 l2 →
  written l1 res i → k1 (k2 m) res i = k1 m res i.
Proof.
  intros H1 H2 Hn Hw. apply (ra_local _ _ H1); [|done]. intros res' i' Ht.
  apply (ra_frame _ _ H2). intros Hw2. eapply no_conflict_disjoint; [|done|exact Ht].
  intros Hc. by apply Hn, accesses_conflict_sym.
Qed.

Lemma kernels_commute l1 l2 k1 k2 m :
  respects_accesses l1 k1 → respects_accesses l2 k2 → ¬ accesses_conflict l1 l2 →
  k1 (k2 m) ≡ k2 (k1 m).
Proof.
  intros H1 H2 Hn res i.
  assert (¬ accesses_conflict l2 l1) as Hn' by (intros Hc; by apply Hn, accesses_conflict_sym).
  destruct (decide (written l1 res i)) as [Hw1|Hw1].
  - rewrite (kernel_past_disjoint l1 l2) by done. symmetry. apply (ra_frame _ _ H2).
    intros Hw2. eapply no_conflict_disjoint; [exact Hn|exact Hw1|by apply written_touched].
  - rewrite (ra_frame _ _ H1) by done. destruct (decide (written l2 res i)) as [Hw2|Hw2].
    + by rewrite (kernel_past_disjoint l2 l1).
    + by rewrite !(ra_frame _ _ H2), (ra_frame _ _ H1).
Qed.

(** ** Running a plan *)

Section running.
(** The effect of the dispatch at each node. *)
Context (r : Recorder) (effect : NodeId → mem → mem).

Definition kernels_respect : Prop := ∀ i n, rec_nodes r !! i = Some n →
  respects_accesses (node_accesses n) (effect (node_id n)).

Definition run_order (order : list NodeId) (m : mem) : mem := run_list effect order m.

Lemma topo_order_respects order :
  topo_order r order → respects (depends r) order.
Proof.
  intros [Hnd _ Hs] l1 x l2 Heq y Hy Hd.
  pose proof (topo_sorted_forward _ _ _ _ Hs Hnd Hd _ _ Heq) as Hy1.
  rewrite Heq in Hnd. apply NoDup_app in Hnd as (_ & Hdis & _). apply (Hdis y Hy1). set_solver.
Qed.

(** Outside the recorded nodes the effect is irrelevant; make it total. *)
Definition guarded (x : NodeId) : mem → mem :=
  if decide (node_owner x = rec_owner r ∧ node_index x < length (rec_nodes r))
  then effect x else id.

Lemma run_guarded order m :
  (∀ x, x ∈ order → valid_id r x) → run_list guarded order m = run_order order m.
Proof.
  unfold run_order, run_list. revert m. induction order as [|x order IH]; intros m Hv; [done|]; simpl.
  rewrite IH by set_solver. f_equal. unfold guarded. rewrite decide_True; [done|].
  apply Hv. set_solver.
Qed.

Lemma guarded_cases x : recorder_shape r → kernels_respect →
  (∃ n, rec_nodes r !! node_index x = Some n ∧ node_id n = x ∧ valid_id r x ∧
    respects_accesses (node_accesses n) (guarded x)) ∨ guarded x = id.
Proof.
  intros Hshape Hk. unfold guarded. case_decide as Hv; [left|by right]. destruct Hv as [Ho Hi].
  destruct (lookup_lt_is_Some_2 _ _ Hi) as [n Hn]. exists n.
  assert (node_id n = x) as Hid.
  { rewrite (shape_ids _ Hshape _ _ Hn). destruct x; unfold rid; simpl in *; congruence. }
  split_and!; [done..|]. rewrite <-Hid. by eapply Hk.
Qed.

Lemma guarded_commute x y m :
  recorder_shape r → kernels_respect → hazard_free r → x ≠ y →
  ¬ depends r x y → ¬ depends r y x → guarded x (guarded y m) ≡ guarded y (guarded x m).
Proof.
  intros Hshape Hk Hf Hne Hxy Hyx.
  destruct (guarded_cases x Hshape Hk) as [(nx & Hnx & Hix & [Hox _] & Hrx)| ->]; [|done].
  destruct (guarded_cases y Hshape Hk) as [(ny & Hny & Hiy & [Hoy _] & Hry)| ->]; [|done].
  apply (kernels_commute (node_accesses nx) (node_accesses ny)); [done..|]. intros Hc.
  destruct (Hf (node_index x) (node_index y) nx ny) as [Hd|Hd]; [|done..| |].
  - intros Heq. apply Hne. destruct x, y; simpl in *; congruence.
  - apply Hxy. rewrite <-(shape_ids _ Hshape _ _ Hnx), <-(shape_ids _ Hshape _ _ Hny) in Hd. congruence.
  - apply Hyx. rewrite <-(shape_ids _ Hshape _ _ Hnx), <-(shape_ids _ Hshape _ _ Hny) in Hd. congruence.
Qed.

Lemma topo_orders_agree l1 l2 m :
  recorder_shape r → kernels_respect → hazard_free r →
  topo_order r l1 → topo_order r l2 → run_order l1 m ≡ run_order l2 m.
Proof.
  intros Hshape Hk Hf Ht1 Ht2.
  rewrite <-(run_guarded l1) by apply (to_nodes _ _ Ht1).
  rewrite <-(run_guarded l2) by apply (to_nodes _ _ Ht2).
  apply (linear_extensions_agree (depends r)).
  - apply _.
  - intros x. destruct (guarded_cases x Hshape Hk) as [(n & _ & _ & _ & Hr)| ->]; [|by intros ? ? ?].
    by eapply respects_accesses_proper.
  - intros. by apply guarded_commute.
  - apply Ht1.
  - apply NoDup_Permutation; [apply Ht1|apply Ht2|]. intros x.
    by rewrite (to_nodes _ _ Ht1), (to_nodes _ _ Ht2).
  - by apply topo_order_respects.
  - by apply topo_order_respects.
Qed.
End running.

(** ** Kernels for the concrete recording *)

#[export] Instance touched_dec accesses res i : Decision (touched accesses res i).
Proof.
  destruct (decide (Exists (λ a, in_region (acc_region a) res i) accesses))
    as [He|He]; [left|right]; unfold touched; rewrite Exists_exists in He; naive_solver.
Defined.

(** Every written byte becomes the byte of [a] at the same offset, if the kernel
    may touch it, plus the node's index. *)
Definition sample_kernel (accesses : list Access) (c : Z) : mem → mem := λ m res i,
  if decide (written accesses res i) then
    if decide (touched accesses sample_a i) then (m sample_a i + c)%Z else c
  else m res i.

Definition sample_effect (x : NodeId) : mem → mem :=
  match rec_nodes sample !! node_index x with
  | Some n => sample_kernel (node_accesses n) (Z.of_nat (node_index x))
  | None => id
  end.

Lemma sample_kernel_respects accesses c : respects_accesses accesses (sample_kernel accesses c).
Proof.
  unfold sample_kernel. split.
  - intros m res i Hw. by rewrite decide_False.
  - intros m m' res i Heq Hw. destruct (decide (written accesses res i)); [|done]. case_decide as Ht; [|done].
    by rewrite (Heq _ _ Ht).
Qed.

Lemma sample_kernels_respect : kernels_respect sample sample_effect.
Proof.
  intros i n Hn. unfold sample_effect. rewrite (shape_ids _ sample_wf _ _ Hn). change (node_index (rid sample i)) with i.
  rewrite Hn. apply sample_kernel_respects.
Qed.

Lemma sample_other_order : topo_order sample [mkNodeId 7 0; mkNodeId 7 2; mkNodeId 7 1].
Proof.
  split.
  - apply (bool_decide_unpack _). vm_compute. done.
  - intros [o i]. unfold valid_id. change (rec_owner sample) with 7%Z.
    change (length (rec_nodes sample)) with 3. rewrite !elem_of_cons; simpl. split.
    + intros [[= -> ->]|[[= -> ->]|[[= -> ->]|Hx]]]; [lia..|set_solver].
    + intros [-> Hi]. destruct i as [|[|[|i]]]; [auto..|lia].
  - intros l1 x l2 Heq p Hp%elem_of_dependencies_of.
    destruct l1 as [|a [|b [|c l1]]]; simplify_eq/=; [vm_compute in Hp..|by destruct l1].
    + inversion Hp.
    + exact Hp.
    + apply elem_of_cons in Hp as [->|Hp]; [set_solver|inversion Hp].
Qed.

(** ** Main result *)

(** C28: if a recording compiles and its kernels stay within their declared
    accesses, then running the dispatches in the plan's order, or in any other
    order that respects the recorded dependencies, leaves the same memory. *)
Theorem compiled_determinate sha256 r o plan effect order m :
  recorder_wf r → plan_compile sha256 r o = Done plan → kernels_respect r effect →
  topo_order r order →
  run_order effect order m ≡ run_order effect (pd_node <$> plan_dispatches plan) m.
Proof.
  intros Hwf Hc Hk Ht. destruct (plan_compile_Done _ _ _ _ Hwf Hc) as (_ & Hf & porder & Hcp).
  rewrite (proj1 (cp_dispatches _ _ _ _ _ Hcp)).
  apply (topo_orders_agree r); [apply Hwf|done..|apply Hcp].
Qed.

Lemma compiled_determinate_witness :
  ∃ plan, plan_compile sample_sha256 sample sample_options = Done plan ∧
    ∀ m, run_order sample_effect [mkNodeId 7 0; mkNodeId 7 2; mkNodeId 7 1] m
      ≡ run_order sample_effect (pd_node <$> plan_dispatches plan) m.
Proof.
  eexists. split; [vm_compute; reflexivity|]. intros m.
  apply (compiled_determinate sample_sha256 sample sample_options).
  - exact sample_wf.
  - vm_compute. reflexivity.
  - exact sample_kernels_respect.
  - exact sample_other_order.
Defined.
