(* ===== verification/AqlTrace.v ===== *)
(** * Runs of the AQL queues and their effect on memory

    The order in which a run completes its packets, the memory that the kernels
    leave when each takes effect at its completion, and the criterion for a
    batch to leave the same memory as its dispatches run one by one, token
    after token.  Then memory behind caches: a kernel reads the value last
    stored to a byte only when the store was released and the release acquired,
    and anything otherwise; and the criterion for the fences of a batch to make
    every read current. *)

From stdpp Require Import gmap functions.
From S2P Require Import Prelude Packet AqlQueue Ir PlanOrder Determinacy.

(** ** Completion order *)

Section runs.
Context (program : list (list packet_view)).

Inductive aql_run : list packet_id → queues → Prop :=
| run_start : aql_run [] queues_start
| run_launch tr st st' :
    aql_run tr st → aql_step program st st' → qs_completed st' = qs_completed st → aql_run tr st'
| run_complete tr st st' q :
    aql_run tr st → aql_step program st st' → q ∉ qs_completed st →
    qs_completed st' = {[ q ]} ∪ qs_completed st → aql_run (tr ++ [q]) st'.

Lemma aql_run_reachable tr st : aql_run tr st → rtc (aql_step program) queues_start st.
Proof. induction 1; [apply rtc_refl|by eapply rtc_r..]. Qed.

(** Every reachable state has a completion order. *)
Lemma reachable_run st : rtc (aql_step program) queues_start st → ∃ tr, aql_run tr st.
Proof.
  intros Hst. apply (rtc_ind_r (R := aql_step program) (λ st, ∃ tr, aql_run tr st) queues_start); [exists []; constructor| |done].
  intros x y _ Hxy [tr Htr]. pose proof Hxy as Hstep. destruct Hxy as [x l i v|x q v Hv Hl Hq Hd].
  - exists tr. by eapply run_launch.
  - exists (tr ++ [q]). by eapply run_complete.
Qed.

Lemma run_completed tr st : aql_run tr st → NoDup tr ∧ ∀ q, q ∈ tr ↔ q ∈ qs_completed st.
Proof.
  induction 1 as [|tr st st' _ [Hnd IH] _ ->|tr st st' q _ [Hnd IH] _ Hq ->].
  - split; [constructor|]. intros q. simpl. set_solver.
  - done.
  - split.
    + apply NoDup_app. split; [done|]. split; [|apply NoDup_singleton].
      intros q' Hq' ->%list_elem_of_singleton. by apply Hq, IH.
    + intros q'. rewrite elem_of_app, IH, list_elem_of_singleton. set_solver.
Qed.

(** What a launched packet finds complete has completed before it. *)
Lemma run_ordered a b :
  (∀ st, rtc (aql_step program) queues_start st → a ∈ qs_launched st → b ∈ qs_completed st) →
  ∀ tr st, aql_run tr st → ∀ l1 l2, tr = l1 ++ a :: l2 → b ∈ l1.
Proof.
  intros Hab tr st Hrun. induction Hrun as [|tr st st' Hrun IH _ _|tr st st' q Hrun IH Hstep Hq Hc]; intros l1 l2 Heq.
  - by destruct l1.
  - by eapply IH.
  - destruct l2 as [|z l2] using rev_ind.
    + apply app_inj_tail in Heq as [-> ->]. apply (run_completed _ _ Hrun).
      apply Hab; [by eapply aql_run_reachable|].
      destruct Hstep as [st l i v|st q' v Hv Hl Hq' Hd]; cbn in Hc; [set_solver|].
      assert (a ∈ {[ q' ]} ∪ qs_completed st) as [->%elem_of_singleton|?]%elem_of_union;
        [rewrite Hc; set_solver|done..].
    + rewrite app_comm_cons, app_assoc in Heq. apply app_inj_tail in Heq as [-> _]. by eapply IH.
Qed.

(** ** Memory *)

Context (kernel_effect : Z → Z → mem → mem).

(** The effect of completing a packet: that of its kernel on its kernargs.
    Batches of recorded dispatches hold no indirect buffers. *)
Definition packet_effect (v : packet_view) : mem → mem :=
  match pv_kind v with KernelPacket object kernarg => kernel_effect object kernarg | _ => id end.

Definition complete_effect (q : packet_id) : mem → mem :=
  match packet_at program q with Some v => packet_effect v | None => id end.

Definition run_memory (tr : list packet_id) (m : mem) : mem := run_list complete_effect tr m.
End runs.

(** Elements that precede nothing may come last. *)
Lemma respects_app {N} (R : relation N) l rest :
  respects R l → (∀ x y, y ∈ rest → ¬ R y x) → respects R (l ++ rest).
Proof.
  intros Hl Hrest l1 x l2 Heq y Hy HR.
  assert (y ∉ rest) as Hny by (intros Hin; by eapply Hrest).
  apply app_eq_inv in Heq as [(k & -> & Heq)|(k & -> & ->)].
  - destruct k as [|x' k]; cbn in Heq.
    + rewrite <-Heq in Hny. set_solver.
    + injection Heq as -> ->. eapply Hl; [done| |done]. set_solver.
  - set_solver.
Qed.

(** ** Batches of tokens *)

Section batch.
Context (program : list (list packet_view)) (kernel_effect : Z → Z → mem → mem).
(** [count] tokens of [n] dispatches each, the slot of every dispatch, its
    declared accesses and the order between the dispatches of a token. *)
Context (count n : nat) (slot : nat → nat → packet_id) (accesses : nat → list Access) (dep : relation nat).

Definition token_order (q q' : packet_id) : Prop :=
  ∃ t i t' i', t < count ∧ i < n ∧ t' < count ∧ i' < n ∧ q = slot t i ∧ q' = slot t' i' ∧
    (t < t' ∨ (t = t' ∧ dep i i')).

Record token_batch : Prop := {
  tb_slot_inj t i t' i' : t < count → i < n → t' < count → i' < n → slot t i = slot t' i' → t = t' ∧ i = i';
  tb_kernel t i : t < count → i < n → ∃ v object kernarg, packet_at program (slot t i) = Some v ∧
    pv_kind v = KernelPacket object kernarg ∧ respects_accesses (accesses i) (kernel_effect object kernarg);
  tb_other q v : packet_at program q = Some v → is_barrier_and v ∨ ∃ t i, t < count ∧ i < n ∧ q = slot t i;
  tb_order st q q' : rtc (aql_step program) queues_start st → token_order q q' →
    q' ∈ qs_launched st → q ∈ qs_completed st;
  tb_forward i i' : dep i i' → i < i';
  tb_conflict i i' : i < n → i' < n → i ≠ i' → accesses_conflict (accesses i) (accesses i') →
    dep i i' ∨ dep i' i
}.
Context (Hb : token_batch).

Definition serial_slots : list packet_id := seq 0 count ≫= λ t, slot t <$> seq 0 n.

Lemma elem_of_serial q : q ∈ serial_slots ↔ ∃ t i, t < count ∧ i < n ∧ q = slot t i.
Proof using Type.
  unfold serial_slots. rewrite list_elem_of_bind. split.
  - intros (t & (i & -> & Hi%elem_of_seq)%list_elem_of_fmap & Ht%elem_of_seq). exists t, i. split_and!; [lia|lia|done].
  - intros (t & i & Ht & Hi & ->). exists t. rewrite list_elem_of_fmap.
    split; [exists i; split; [done|]|]; apply elem_of_seq; lia.
Qed.

(** Positions in the serial order. *)
Lemma serial_lookup k q :
  serial_slots !! k = Some q → ∃ t i, t < count ∧ i < n ∧ q = slot t i ∧ k = t * n + i.
Proof using Type.
  unfold serial_slots. intros Hk.
  cut (∀ c s k, (seq s c ≫= λ t, slot t <$> seq 0 n) !! k = Some q →
    ∃ t i, s ≤ t < s + c ∧ i < n ∧ q = slot t i ∧ k = (t - s) * n + i).
  { intros H. destruct (H count 0 k Hk) as (t & i & Ht & Hi & -> & ->). exists t, i.
    rewrite Nat.sub_0_r. split_and!; [lia|done..]. }
  clear Hk k. intros c. induction c as [|c IH]; intros s k; [done|]. cbn [seq mbind list_bind].
  intros [Hk|[Hge Hk]]%lookup_app_Some.
  - rewrite list_lookup_fmap in Hk. apply fmap_Some in Hk as (i & [-> Hi]%lookup_seq & ->).
    exists s, k. split; [lia|]. split; [lia|]. split; [done|]. by rewrite Nat.sub_diag.
  - rewrite length_fmap, length_seq in Hge, Hk. destruct (IH (S s) _ Hk) as (t & i & Ht & Hi & -> & Heq).
    exists t, i. split; [lia|]. split; [done|]. split; [done|]. assert (t - s = S (t - S s)) as -> by lia. lia.
Qed.

Lemma serial_NoDup : NoDup serial_slots.
Proof using Hb.
  apply NoDup_alt. intros k k' q Hk Hk'. apply serial_lookup in Hk as (t & i & Ht & Hi & -> & ->).
  apply serial_lookup in Hk' as (t' & i' & Ht' & Hi' & Heq & ->).
  by apply (tb_slot_inj Hb) in Heq as [-> ->].
Qed.

Lemma serial_respects : respects token_order serial_slots.
Proof using Hb.
  intros l1 q l2 Heq q' Hq' (t' & i' & t & i & Ht' & Hi' & Ht & Hi & -> & -> & Hbefore).
  assert (serial_slots !! length l1 = Some (slot t i)) as Hk.
  { rewrite Heq. by apply list_lookup_middle. }
  apply list_elem_of_lookup in Hq' as [k' Hk'].
  assert (serial_slots !! (length l1 + S k') = Some (slot t' i')) as Hk2.
  { rewrite Heq, lookup_app_r by lia. replace (_ - _) with (S k') by lia. done. }
  apply serial_lookup in Hk as (u & j & Hu & Hj & He & Hpos).
  apply serial_lookup in Hk2 as (u' & j' & Hu' & Hj' & He' & Hpos').
  apply (tb_slot_inj Hb) in He as [<- <-]; [|done..]. apply (tb_slot_inj Hb) in He' as [<- <-]; [|done..].
  destruct Hbefore as [Hlt|[-> Hd%(tb_forward Hb)]]; nia.
Qed.

Local Abbreviation effect := (complete_effect program kernel_effect).

(** Slots have the effect of their kernel, all other packets none. *)
Lemma effect_cases q :
  (∃ t i, t < count ∧ i < n ∧ q = slot t i ∧ respects_accesses (accesses i) (effect q)) ∨ effect q = id.
Proof using Hb.
  unfold complete_effect. destruct (packet_at program q) as [v|] eqn:Hv; [|by right].
  destruct (tb_other Hb q v Hv) as [[deps Hk]|(t & i & Ht & Hi & ->)].
  - right. unfold packet_effect. by rewrite Hk.
  - left. exists t, i. split_and!; [done..|]. destruct (tb_kernel Hb t i Ht Hi) as (v' & o & k & Hv' & Hk & Hr).
    rewrite Hv in Hv'. injection Hv' as <-. unfold packet_effect. by rewrite Hk.
Qed.

#[local] Instance effect_proper q : Proper ((≡) ==> (≡)) (effect q).
Proof using Hb.
  destruct (effect_cases q) as [(t & i & _ & _ & _ & Hr)| ->]; [by eapply respects_accesses_proper|].
  by intros m m' Hm.
Qed.

Lemma effects_commute q q' m :
  q ≠ q' → ¬ token_order q q' → ¬ token_order q' q → effect q (effect q' m) ≡ effect q' (effect q m).
Proof using Hb.
  intros Hne H1 H2. destruct (effect_cases q) as [(t & i & Ht & Hi & Hq & Hr)| ->]; [|done].
  destruct (effect_cases q') as [(t' & i' & Ht' & Hi' & Hq' & Hr')| ->]; [|done].
  eapply kernels_commute; [done..|]. intros Hc.
  assert (t = t') as <-.
  { destruct (Nat.lt_trichotomy t t') as [|[|]]; [exfalso; apply H1|done|exfalso; apply H2].
    - exists t, i, t', i'. split_and!; auto.
    - exists t', i', t, i. split_and!; auto. }
  assert (i ≠ i') as Hii by congruence.
  destruct (tb_conflict Hb i i' Hi Hi' Hii Hc) as [Hd|Hd].
  - apply H1. exists t, i, t, i'. split_and!; auto.
  - apply H2. exists t, i', t, i. split_and!; auto.
Qed.

Lemma run_other l m : (∀ q, q ∈ l → effect q = id) → run_memory program kernel_effect l m = m.
Proof using Type.
  unfold run_memory, run_list. revert m. induction l as [|q l IH]; intros m Hl; [done|]. simpl.
  rewrite (Hl q) by (apply elem_of_cons; by left). apply IH. intros q' Hq'. apply Hl, elem_of_cons. by right.
Qed.

(** Every complete run leaves the memory of the serial order. *)
Lemma run_memory_serial tr st m :
  aql_run program tr st → all_complete program st →
  run_memory program kernel_effect tr m ≡ run_memory program kernel_effect serial_slots m.
Proof using Hb.
  intros Hrun Hall. destruct (run_completed _ _ _ Hrun) as [Hnd Hin].
  pose proof (queues_reachable _ _ (aql_run_reachable _ _ _ Hrun)) as Hinv.
  assert (∀ q, is_Some (packet_at program q) ↔ q ∈ tr) as Htr.
  { intros q. rewrite Hin. split; [apply Hall|]. intros Hq. apply (qn_launched _ _ Hinv), (qn_completed _ _ Hinv), Hq. }
  set (rest := filter (λ q, q ∉ serial_slots) tr).
  assert (∀ q, q ∈ rest → effect q = id) as Hrest.
  { intros q [Hns Hq]%list_elem_of_filter. destruct (effect_cases q) as [(t & i & Ht & Hi & -> & _)|]; [|done].
    exfalso. apply Hns, elem_of_serial. by exists t, i. }
  transitivity (run_memory program kernel_effect (serial_slots ++ rest) m).
  - apply (linear_extensions_agree token_order effect effects_commute); [done| | |].
    + apply NoDup_Permutation; [done| |].
      * apply NoDup_app. split; [apply serial_NoDup|]. split; [|by apply NoDup_filter].
        intros q Hs [Hns _]%list_elem_of_filter. done.
      * intros q. rewrite elem_of_app. unfold rest. rewrite list_elem_of_filter. split.
        -- intros Hq. destruct (decide (q ∈ serial_slots)); auto.
        -- intros [Hs|[_ Hq]]; [|done]. apply Htr. apply elem_of_serial in Hs as (t & i & Ht & Hi & ->).
           destruct (tb_kernel Hb t i Ht Hi) as (v & _ & _ & -> & _). by eexists.
    + intros l1 q l2 Heq q' Hq' Hbefore.
      assert (q' ∈ l1) as Hq1.
      { eapply (run_ordered program q q'); [|exact Hrun|exact Heq].
        intros st' Hst'. by apply (tb_order Hb). }
      rewrite Heq in Hnd. apply NoDup_app in Hnd as (_ & Hdis & _). apply (Hdis q' Hq1). set_solver.
    + apply respects_app; [apply serial_respects|].
      intros q q' [Hns _]%list_elem_of_filter (t & i & _ & _ & Ht & Hi & _ & _ & -> & _).
      apply Hns, elem_of_serial. eauto 10.
  - pose proof (run_other rest (run_list effect serial_slots m) Hrest) as He. unfold run_memory in *.
    by rewrite run_list_app, He.
Qed.
End batch.

(** ** Memory behind caches

    Stores reach memory in the order in which the packets complete, but a kernel
    sees a store only along fences.  A packet with a release scope releases its
    own stores when it completes and, with its barrier bit, those of the packets
    before it in its queue.  A kernel packet with an acquire scope sees what was
    released when it is launched.  A barrier-AND acquires when it completes, for
    all packets behind it in its queue.  A byte whose last store a kernel does
    not see may read as anything. *)

Definition acquires (v : packet_view) : Prop := hdr_acquire (pv_header v) ≠ FenceNone.
Definition releases (v : packet_view) : Prop := hdr_release (pv_header v) ≠ FenceNone.

(** The packets whose stores the release of [q] covers. *)
Definition covers (v : packet_view) (q w : packet_id) : Prop :=
  w = q ∨ (pv_barrier v = true ∧ w.1 = q.1 ∧ w.2 < q.2).

(** Stores released so far, those visible to the packets of a queue launched
    from now on, and those visible to a launched packet. *)
Record caches := mkCaches {
  ca_released : packet_id → Prop;
  ca_queue : nat → packet_id → Prop;
  ca_seen : packet_id → packet_id → Prop
}.

Definition caches_start : caches := mkCaches (λ _, False) (λ _ _, False) (λ _ _, False).

Definition caches_launch (c : caches) (q : packet_id) (v : packet_view) : caches :=
  mkCaches (ca_released c) (ca_queue c)
    (<[q := λ w, ca_queue c q.1 w ∨ (acquires v ∧ ca_released c w)]> (ca_seen c)).

Definition caches_complete (c : caches) (q : packet_id) (v : packet_view) : caches :=
  mkCaches (λ w, ca_released c w ∨ (releases v ∧ covers v q w))
    (λ l w, ca_queue c l w ∨ (l = q.1 ∧ is_barrier_and v ∧ acquires v ∧ ca_released c w))
    (ca_seen c).

Section caches.
Context (program : list (list packet_view)) (kernel_effect : Z → Z → mem → mem).
(** The declared accesses of the kernel [object] launched with [kernarg]. *)
Context (kernel_accesses : Z → Z → list Access) (start : mem).

Definition packet_accesses (q : packet_id) : list Access :=
  match packet_at program q with
  | Some v => match pv_kind v with KernelPacket object kernarg => kernel_accesses object kernarg | _ => [] end
  | None => []
  end.

(** [w] is the last packet of [tr] that stored to the byte. *)
Definition last_store (tr : list packet_id) (res : ResourceId) (i : Z) (w : packet_id) : Prop :=
  ∃ tr1 tr2, tr = tr1 ++ w :: tr2 ∧ written (packet_accesses w) res i ∧
    ∀ w', w' ∈ tr2 → ¬ written (packet_accesses w') res i.

(** What a kernel that sees the stores of [seen] may read. *)
Definition may_read (tr : list packet_id) (seen : packet_id → Prop) (m view : mem) : Prop :=
  ∀ res i, (∀ w, last_store tr res i w → seen w) → view res i = m res i.

Definition store (q : packet_id) (view m : mem) : mem := λ res i,
  if decide (written (packet_accesses q) res i) then complete_effect program kernel_effect q view res i
  else m res i.

Inductive cached_run : list packet_id → queues → caches → mem → Prop :=
| cached_start : cached_run [] queues_start caches_start start
| cached_launch tr st c m st' q v :
    cached_run tr st c m → aql_step program st st' → packet_at program q = Some v → q ∉ qs_launched st →
    qs_launched st' = {[ q ]} ∪ qs_launched st → qs_completed st' = qs_completed st →
    cached_run tr st' (caches_launch c q v) m
| cached_complete tr st c m st' q v view :
    cached_run tr st c m → aql_step program st st' → packet_at program q = Some v →
    q ∈ qs_launched st → q ∉ qs_completed st → qs_launched st' = qs_launched st →
    qs_completed st' = {[ q ]} ∪ qs_completed st → may_read tr (ca_seen c q) m view →
    cached_run (tr ++ [q]) st' (caches_complete c q v) (store q view m).

Lemma cached_aql_run tr st c m : cached_run tr st c m → aql_run program tr st.
Proof using Type.
  induction 1 as [|tr st c m st' q v _ IH Hs _ _ _ Hc|tr st c m st' q v view _ IH Hs _ _ Hq _ Hc _];
    [constructor|by eapply run_launch|by eapply run_complete].
Qed.

Lemma cached_reachable tr st c m : cached_run tr st c m → rtc (aql_step program) queues_start st.
Proof using Type. intros H%cached_aql_run. by eapply aql_run_reachable. Qed.

(** Caches restrict no run: every run of the queues has one of the memory. *)
Lemma aql_run_cached tr st : aql_run program tr st → ∃ c m, cached_run tr st c m.
Proof using Type.
  induction 1 as [|tr st st' Hrun (c & m & IH) Hs Hc|tr st st' q Hrun (c & m & IH) Hs Hq Hc].
  - do 2 eexists. constructor.
  - pose proof Hs as Hstep. destruct Hs as [st l i v Hv Hn|st q v Hv Hl Hn]; cbn in Hc; [|set_solver].
    do 2 eexists. by eapply cached_launch.
  - pose proof Hs as Hstep. destruct Hs as [st l i v Hv Hn|st q' v Hv Hl Hn]; cbn in Hc; [set_solver|].
    assert (q' = q) as ->.
    { assert (q' ∈ {[ q ]} ∪ qs_completed st) as [->%elem_of_singleton|?]%elem_of_union; [rewrite <-Hc; set_solver|done..]. }
    do 2 eexists. eapply (cached_complete _ _ _ _ _ q v m); [done..|]. by intros res i _.
Qed.

(** ** What fences make visible *)

Lemma run_released tr st c m q v w :
  cached_run tr st c m → q ∈ qs_completed st → packet_at program q = Some v → releases v → covers v q w →
  ca_released c w.
Proof using Type.
  intros Hrun Hq Hv Hr Hc. induction Hrun as [|tr st c m st' x u _ IH _ _ _ _ Heq|tr st c m st' x u view _ IH _ Hu _ _ _ Heq _].
  - set_solver.
  - cbn. apply IH. by rewrite <-Heq.
  - cbn. rewrite Heq in Hq. apply elem_of_union in Hq as [->%elem_of_singleton|Hq]; [right; by simplify_eq|by left; apply IH].
Qed.

(** A launched kernel that acquires sees what was released before its launch. *)
Lemma run_acquired tr st c m q v r u w :
  packet_at program q = Some v → acquires v → packet_at program r = Some u → releases u → covers u r w →
  (∀ st, rtc (aql_step program) queues_start st → q ∈ qs_launched st → r ∈ qs_completed st) →
  cached_run tr st c m → q ∈ qs_launched st → ca_seen c q w.
Proof using Type.
  intros Hv Ha Hu Hr Hc Hord Hrun. induction Hrun as [|tr st c m st' x y Hrun IH Hs Hx Hn Hl Heq|tr st c m st' x y view _ IH _ _ _ _ Hl _ _]; intros Hq.
  - set_solver.
  - cbn. destruct (decide (x = q)) as [->|Hne].
    + rewrite fn_lookup_insert. simplify_eq. right. split; [done|]. eapply run_released; [exact Hrun| |done..].
      rewrite <-Heq. apply Hord; [|done]. eapply rtc_r; [by eapply cached_reachable|done].
    + rewrite fn_lookup_insert_ne by done. apply IH. set_solver.
  - cbn. apply IH. by rewrite <-Hl.
Qed.

Lemma run_queue_acquired tr st c m b v r u w :
  packet_at program b = Some v → is_barrier_and v → acquires v →
  packet_at program r = Some u → releases u → covers u r w → r ≠ b →
  (∀ st, rtc (aql_step program) queues_start st → b ∈ qs_completed st → r ∈ qs_completed st) →
  cached_run tr st c m → b ∈ qs_completed st → ca_queue c b.1 w.
Proof using Type.
  intros Hv Hb Ha Hu Hr Hc Hne Hord Hrun.
  induction Hrun as [|tr st c m st' x y Hrun IH Hs Hx Hn Hl Heq|tr st c m st' x y view Hrun IH Hs Hx Hxl Hxc Hl Heq _]; intros Hq.
  - set_solver.
  - cbn. apply IH. by rewrite <-Heq.
  - cbn. destruct (decide (x = b)) as [->|Hxb].
    + right. simplify_eq. split_and!; [done..|]. eapply run_released; [exact Hrun| |done..].
      assert (r ∈ qs_completed st') as Hin by (apply Hord; [eapply rtc_r; [by eapply cached_reachable|done]|done]).
      set_solver.
    + left. apply IH. set_solver.
Qed.

(** A packet behind a barrier-AND sees what the barrier acquired. *)
Lemma run_behind_acquired tr st c m q b v r u w :
  packet_at program b = Some v → is_barrier_and v → acquires v →
  packet_at program r = Some u → releases u → covers u r w → r ≠ b →
  (∀ st, rtc (aql_step program) queues_start st → b ∈ qs_completed st → r ∈ qs_completed st) →
  b.1 = q.1 → b.2 < q.2 → cached_run tr st c m → q ∈ qs_launched st → ca_seen c q w.
Proof using Type.
  intros Hv Hb Ha Hu Hr Hc Hne Hord Hl Hi Hrun.
  induction Hrun as [|tr st c m st' x y Hrun IH Hs Hx Hn Hla Heq|tr st c m st' x y view _ IH _ _ _ _ Hla _ _]; intros Hq.
  - set_solver.
  - cbn. destruct (decide (x = q)) as [->|Hxq].
    + rewrite fn_lookup_insert. left. rewrite <-Hl. apply (run_queue_acquired tr st c m b v r u w); [done..|].
      rewrite <-Heq. destruct b as [l j], q as [l' i]. simpl in *. subst l'.
      eapply (qn_barrier_and program st'); [|exact Hq|done|done|done].
      apply queues_reachable. eapply rtc_r; [by eapply cached_reachable|done].
    + rewrite fn_lookup_insert_ne by done. apply IH. set_solver.
  - cbn. apply IH. by rewrite <-Hla.
Qed.

(** ** When fences make every read current *)

Definition reads_current : Prop := ∀ tr st c m q res i w,
  cached_run tr st c m → q ∈ qs_launched st → q ∉ qs_completed st →
  loaded (packet_accesses q) res i → last_store tr res i w → ca_seen c q w.

Lemma cached_memory tr st c m :
  (∀ q, loads_and_stores (packet_accesses q) (complete_effect program kernel_effect q)) → reads_current →
  cached_run tr st c m → m ≡ run_memory program kernel_effect tr start.
Proof using Type.
  intros Hk Hcur Hrun. induction Hrun as [|tr st c m st' q v Hrun IH _ _ _ _ _|tr st c m st' q v view Hrun IH Hs Hv Hl Hq _ Hc Hview];
    [done..|].
  unfold run_memory. rewrite run_list_app. intros res i. cbn. unfold store.
  case_decide as Hw.
  - apply (ls_local _ _ (Hk q)); [|done]. intros res' i' Hload. rewrite Hview; [apply IH|].
    intros w. by apply (Hcur tr st c m q).
  - rewrite (ls_frame _ _ (Hk q)) by done. apply IH.
Qed.
End caches.

(** ** Fenced batches *)

Section fenced.
Context (program : list (list packet_view)) (kernel_effect : Z → Z → mem → mem).
Context (kernel_accesses : Z → Z → list Access).
Context (count n : nat) (slot : nat → nat → packet_id) (accesses : nat → list Access) (dep : relation nat).

(** Data flows from dispatch [i] to dispatch [i']. *)
Definition flows (i i' : nat) : Prop := ∃ res x, written (accesses i) res x ∧ loaded (accesses i') res x.

(** A release of the stores of [w] ordered before an acquire in front of [q]. *)
Definition fence_chain (w q : packet_id) : Prop :=
  ∃ r b u v, packet_at program r = Some u ∧ releases u ∧ covers u r w ∧
    packet_at program b = Some v ∧ is_barrier_and v ∧ acquires v ∧ b.1 = q.1 ∧ b.2 < q.2 ∧ r ≠ b ∧
    ∀ st, rtc (aql_step program) queues_start st → b ∈ qs_completed st → r ∈ qs_completed st.

(** Within a token producers release and consumers acquire; what a token reads
    is fenced from earlier tokens or stored before by the token itself. *)
Record fenced_batch : Prop := {
  fb_accesses t i : t < count → i < n → packet_accesses program kernel_accesses (slot t i) = accesses i;
  fb_kernel t i : t < count → i < n → loads_and_stores (accesses i) (complete_effect program kernel_effect (slot t i));
  fb_same t i i' : t < count → i < n → i' < n → dep i i' → flows i i' →
    ∃ u v, packet_at program (slot t i) = Some u ∧ releases u ∧
      packet_at program (slot t i') = Some v ∧ acquires v;
  fb_cross t i t' i' res x : t < t' → t' < count → i < n → i' < n →
    written (accesses i) res x → loaded (accesses i') res x →
    fence_chain (slot t i) (slot t' i') ∨ ∃ k, k < n ∧ dep k i' ∧ written (accesses k) res x
}.
Context (Hb : token_batch program kernel_effect count n slot accesses dep) (Hf : fenced_batch).

Lemma packet_accesses_cases q :
  (∃ t i, t < count ∧ i < n ∧ q = slot t i ∧ packet_accesses program kernel_accesses q = accesses i) ∨
  (packet_accesses program kernel_accesses q = [] ∧ complete_effect program kernel_effect q = id).
Proof using Hb Hf.
  unfold packet_accesses, complete_effect. destruct (packet_at program q) as [v|] eqn:Hv; [|by right].
  destruct (tb_other _ _ _ _ _ _ _ Hb q v Hv) as [[deps Hk]|(t & i & Ht & Hi & ->)].
  - right. unfold packet_effect. by rewrite Hk.
  - left. exists t, i. split_and!; [done..|]. pose proof (fb_accesses Hf t i Ht Hi) as Ha.
    unfold packet_accesses in Ha. by rewrite Hv in Ha.
Qed.

Lemma packet_loads_and_stores q :
  loads_and_stores (packet_accesses program kernel_accesses q) (complete_effect program kernel_effect q).
Proof using Hb Hf.
  destruct (packet_accesses_cases q) as [(t & i & Ht & Hi & -> & ->)|[-> ->]]; [by apply (fb_kernel Hf)|].
  split; [done|]. by intros m m' res i _ (a & Ha%elem_of_nil & _).
Qed.

Lemma batch_reads_current start :
  reads_current program kernel_effect kernel_accesses start.
Proof using Hb Hf.
  intros tr st c m q res x w Hrun Hql Hqc Hload Hlast. pose proof (cached_aql_run _ _ _ _ _ _ _ _ Hrun) as Haql.
  pose proof (aql_run_reachable _ _ _ Haql) as Hst. pose proof (queues_reachable _ _ Hst) as Hinv.
  destruct (run_completed _ _ _ Haql) as [Hnd Htr].
  destruct Hlast as (tr1 & tr2 & -> & Hw & Hlater).
  assert (w ∈ qs_completed st) as Hwc by (apply Htr; set_solver).
  destruct (packet_accesses_cases q) as [(t' & i' & Ht' & Hi' & -> & Hacc')|[Hnil _]];
    [|rewrite Hnil in Hload; destruct Hload as (a & Ha%elem_of_nil & _); done].
  destruct (packet_accesses_cases w) as [(t & i & Ht & Hi & -> & Hacc)|[Hnil _]];
    [|rewrite Hnil in Hw; destruct Hw as (a & Ha%elem_of_nil & _); done].
  rewrite Hacc in Hw. rewrite Hacc' in Hload.
  assert (∀ a b, token_order count n slot dep a b → b ∈ qs_launched st → a ∈ qs_completed st) as Hord.
  { intros a b Hab. by apply (tb_order _ _ _ _ _ _ _ Hb). }
  assert (¬ token_order count n slot dep (slot t' i') (slot t i)) as Hback.
  { intros Ho%Hord; [done|]. by apply (qn_completed _ _ Hinv). }
  destruct (Nat.lt_trichotomy t t') as [Hlt|[<-|Hgt]].
  - destruct (fb_cross Hf t i t' i' res x Hlt Ht' Hi Hi' Hw Hload) as [Hchain|(k & Hk & Hdep & Hwk)].
    + destruct Hchain as (r & b & u & v & Hu & Hrel & Hcov & Hv & Hba & Hacq & Hl & Hlt' & Hne & Hall).
      by apply (run_behind_acquired program kernel_effect kernel_accesses start _ st c m (slot t' i') b v r u _
        Hv Hba Hacq Hu Hrel Hcov Hne Hall Hl Hlt' Hrun).
    + exfalso. assert (slot t' k ∈ tr1) as Hin.
      { assert (slot t' k ∈ tr1 ++ slot t i :: tr2) as Hin.
        { apply Htr. apply (Hord _ (slot t' i')); [|done]. exists t', k, t', i'. split_and!; auto. }
        apply elem_of_app in Hin as [|[Heq|Hin]%elem_of_cons]; [done| |].
        - apply (tb_slot_inj _ _ _ _ _ _ _ Hb) in Heq as [-> _]; [lia|done..].
        - exfalso. apply (Hlater _ Hin). by rewrite (fb_accesses Hf). }
      apply list_elem_of_split in Hin as (l1 & l2 & ->).
      assert (slot t i ∈ l1) as Hin.
      { eapply (run_ordered program (slot t' k) (slot t i)); [|exact Haql|by rewrite <-app_assoc].
        intros st2 Hst2. apply (tb_order _ _ _ _ _ _ _ Hb st2); [done|]. exists t, i, t', k. split_and!; auto. }
      rewrite <-app_assoc in Hnd. apply NoDup_app in Hnd as (_ & Hdis & _). apply (Hdis _ Hin). set_solver.
  - assert (i ≠ i') as Hne by (intros ->; done).
    destruct (tb_conflict _ _ _ _ _ _ _ Hb i i' Hi Hi' Hne) as [Hd|Hd].
    { by eapply written_loaded_conflict. }
    2:{ exfalso. apply Hback. exists t, i', t, i. split_and!; auto. }
    destruct (fb_same Hf t i i' Ht Hi Hi' Hd) as (u & v & Hu & Hrel & Hv & Hacq); [by exists res, x|].
    assert (∀ st, rtc (aql_step program) queues_start st → slot t i' ∈ qs_launched st → slot t i ∈ qs_completed st)
      as Ho.
    { intros st2 Hst2. apply (tb_order _ _ _ _ _ _ _ Hb st2); [done|]. exists t, i, t, i'. split_and!; auto. }
    apply (run_acquired program kernel_effect kernel_accesses start _ st c m _ v _ u _
      Hv Hacq Hu Hrel (or_introl eq_refl) Ho Hrun Hql).
  - exfalso. apply Hback. exists t', i', t, i. split_and!; auto.
Qed.

(** The caches leave the memory of the runs without caches. *)
Lemma fenced_batch_memory start tr st c m :
  cached_run program kernel_effect kernel_accesses start tr st c m →
  m ≡ run_memory program kernel_effect tr start.
Proof using Hb Hf.
  apply cached_memory; [exact packet_loads_and_stores|apply batch_reads_current].
Qed.
End fenced.
