(* ===== verification/Replay.v ===== *)
(** * Replaying a compiled plan ([backend.rs], [plan.rs]: [replay], [mock.rs])

    [DispatchBackend] is the interface between a plan and a queue
    implementation.  [plan_replay] is proved against the interface, and the
    deterministic mock backend implements it. *)

From S2P Require Import Prelude BTree Ir Identity Recorder Plan PlanOrder PlanCompile.

Record BeginReplay := mkBegin { bg_token : Z; bg_mode : ReplayMode; bg_lane_count : nat }.

Record DispatchRequest (Signal : Type) := mkRequest {
  rq_token : Z;
  rq_node : NodeId;
  rq_lane : nat;
  rq_launch : KernelLaunch;
  rq_accesses : list Access;
  rq_dependency_signals : list Signal
}.
Arguments mkRequest {Signal}.
Arguments rq_token {Signal}.
Arguments rq_node {Signal}.
Arguments rq_lane {Signal}.
Arguments rq_launch {Signal}.
Arguments rq_accesses {Signal}.
Arguments rq_dependency_signals {Signal}.

Record EndReplay (Signal : Type) := mkEnd {
  en_token : Z; en_mode : ReplayMode; en_terminal_signals : list Signal
}.
Arguments mkEnd {Signal}.
Arguments en_token {Signal}.
Arguments en_mode {Signal}.
Arguments en_terminal_signals {Signal}.

(** Every method mutates the backend [B]; [None] is a panic inside it. *)
Class DispatchBackend (B Signal Completion Error : Type) := {
  begin_replay : BeginReplay → B → option (B * result Error unit);
  dispatch : DispatchRequest Signal → B → option (B * result Error Signal);
  end_replay : EndReplay Signal → B → option (B * result Error Completion)
}.

(** A backend that never panics. *)
Class BackendTotal {B Signal Completion Error : Type}
    (BE : DispatchBackend B Signal Completion Error) : Prop := {
  begin_total req b : is_Some (begin_replay req b);
  dispatch_total req b : is_Some (dispatch req b);
  end_total req b : is_Some (end_replay req b)
}.

Section replay.
Context {B Signal Completion Error : Type} {BE : DispatchBackend B Signal Completion Error}.

(** [signals[node.index].as_ref().expect(..).clone()]. *)
Definition expect_signal (signals : list (option Signal)) (node : NodeId) : option Signal :=
  s ← signals !! node_index node; s.

Fixpoint replay_loop (token : Z) (dispatches : list PlannedDispatch)
    (signals : list (option Signal)) (b : B) :
    option (B * result Error (list (option Signal))) :=
  match dispatches with
  | [] => Some (b, Ok signals)
  | d :: dispatches =>
      dependency_signals ← mapM (expect_signal signals) (pd_dependencies d);
      '(b, res) ← dispatch (mkRequest token (pd_node d) (pd_lane d) (pd_launch d)
                              (pd_accesses d) dependency_signals) b;
      match res with
      | Err e => Some (b, Err e)
      | Ok signal =>
          signals ← vec_set signals (node_index (pd_node d)) (Some signal);
          replay_loop token dispatches signals b
      end
  end.

Definition plan_replay (plan : CompiledPlan) (token : Z) (b : B) :
    option (B * result Error Completion) :=
  '(b, res) ← begin_replay (mkBegin token (plan_replay_mode plan)
                              (Pos.to_nat (plan_lane_count plan))) b;
  match res with
  | Err e => Some (b, Err e)
  | Ok _ =>
      '(b, res) ← replay_loop token (plan_dispatches plan)
                    (replicate (length (plan_dispatches plan)) None) b;
      match res with
      | Err e => Some (b, Err e)
      | Ok signals =>
          terminal_signals ← mapM (expect_signal signals) (plan_terminals plan);
          end_replay (mkEnd token (plan_replay_mode plan) terminal_signals) b
      end
  end.

(** ** The abstract replay

    Signals are kept by node instead of by vector slot: every dispatch is
    submitted in plan order with the signals the backend returned for its
    prerequisites. *)

Fixpoint signal_of (submitted : list (NodeId * Signal)) (node : NodeId) : option Signal :=
  match submitted with
  | [] => None
  | (n, s) :: submitted => if decide (n = node) then Some s else signal_of submitted node
  end.

Fixpoint abstract_loop (token : Z) (dispatches : list PlannedDispatch)
    (submitted : list (NodeId * Signal)) (b : B) :
    option (B * result Error (list (NodeId * Signal))) :=
  match dispatches with
  | [] => Some (b, Ok submitted)
  | d :: dispatches =>
      '(b, res) ← dispatch (mkRequest token (pd_node d) (pd_lane d) (pd_launch d)
                     (pd_accesses d) (filter_map (signal_of submitted) (pd_dependencies d))) b;
      match res with
      | Err e => Some (b, Err e)
      | Ok signal => abstract_loop token dispatches (submitted ++ [(pd_node d, signal)]) b
      end
  end.

Definition abstract_replay (plan : CompiledPlan) (token : Z) (b : B) :
    option (B * result Error Completion) :=
  '(b, res) ← begin_replay (mkBegin token (plan_replay_mode plan)
                              (Pos.to_nat (plan_lane_count plan))) b;
  match res with
  | Err e => Some (b, Err e)
  | Ok _ =>
      '(b, res) ← abstract_loop token (plan_dispatches plan) [] b;
      match res with
      | Err e => Some (b, Err e)
      | Ok submitted =>
          end_replay (mkEnd token (plan_replay_mode plan)
            (filter_map (signal_of submitted) (plan_terminals plan))) b
      end
  end.

(** ** The simulation *)

Lemma signal_of_snoc submitted x s y :
  x ∉ submitted.*1 →
  signal_of (submitted ++ [(x, s)]) y = if decide (x = y) then Some s else signal_of submitted y.
Proof.
  induction submitted as [|[n t] l IH]; simpl; [done|].
  rewrite not_elem_of_cons. intros [Hne Hx]. rewrite IH by done.
  repeat case_decide; congruence.
Qed.

Lemma signal_of_is_Some submitted x : is_Some (signal_of submitted x) ↔ x ∈ submitted.*1.
Proof.
  induction submitted as [|[n t] l IH]; simpl.
  - split; [by intros [? ?]|set_solver].
  - rewrite elem_of_cons. case_decide; [naive_solver|]. rewrite IH. naive_solver.
Qed.

(** The signal vector holds the signals of the submitted nodes of [r]. *)
Record tracks (r : Recorder) (signals : list (option Signal))
    (submitted : list (NodeId * Signal)) : Prop := {
  tr_length : length signals = length (rec_nodes r);
  tr_signal x : valid_id r x → expect_signal signals x = signal_of submitted x;
  tr_valid x : x ∈ submitted.*1 → valid_id r x
}.

Lemma tracks_submit r signals submitted x s :
  tracks r signals submitted → valid_id r x → x ∉ submitted.*1 →
  tracks r (<[node_index x := Some s]> signals) (submitted ++ [(x, s)]).
Proof.
  intros [Hl Hs Hv] Hx Hnew. split.
  - by rewrite length_insert.
  - intros y Hy. rewrite signal_of_snoc by done. unfold expect_signal. case_decide as Hd.
    + subst y. rewrite list_lookup_insert_eq; [done|]. destruct Hx. lia.
    + rewrite list_lookup_insert_ne; [by apply Hs|]. intros Hi. apply Hd.
      by apply (valid_index_inj r).
  - rewrite fmap_app. intros y [Hy|Hy]%elem_of_app; [by apply Hv|].
    apply list_elem_of_singleton in Hy as ->. done.
Qed.

Lemma tracks_mapM r signals submitted l :
  tracks r signals submitted → (∀ x, x ∈ l → x ∈ submitted.*1) →
  mapM (expect_signal signals) l = Some (filter_map (signal_of submitted) l).
Proof.
  intros Ht. induction l as [|x l IH]; intros Hin; [done|]; simpl.
  assert (x ∈ submitted.*1) as Hx by set_solver.
  rewrite (tr_signal _ _ _ Ht) by (by apply (tr_valid _ _ _ Ht)).
  apply signal_of_is_Some in Hx as [s Hs]. rewrite Hs. rewrite IH by set_solver. done.
Qed.

Lemma replay_loop_refines r token dispatches : ∀ signals submitted b,
  tracks r signals submitted →
  (∀ d, d ∈ dispatches → valid_id r (pd_node d)) →
  NoDup (submitted.*1 ++ (pd_node <$> dispatches)) →
  (∀ l1 d l2, dispatches = l1 ++ d :: l2 → ∀ p, p ∈ pd_dependencies d →
     p ∈ submitted.*1 ++ (pd_node <$> l1)) →
  match abstract_loop token dispatches submitted b with
  | None => replay_loop token dispatches signals b = None
  | Some (b', Err e) => replay_loop token dispatches signals b = Some (b', Err e)
  | Some (b', Ok submitted') => ∃ signals',
      replay_loop token dispatches signals b = Some (b', Ok signals') ∧
      tracks r signals' submitted' ∧ submitted'.*1 = submitted.*1 ++ (pd_node <$> dispatches)
  end.
Proof.
  induction dispatches as [|d ds IH]; intros signals submitted b Ht Hv Hnd Hdeps; simpl.
  { exists signals. rewrite app_nil_r. done. }
  rewrite (tracks_mapM r signals submitted); [|done|].
  2: { intros x Hx. specialize (Hdeps [] d ds eq_refl x Hx). by rewrite app_nil_r in Hdeps. }
  cbn [mbind option_bind].
  destruct (dispatch _ b) as [[b' [signal|e]]|]; cbn [mbind option_bind]; [|done..].
  assert (valid_id r (pd_node d)) as Hvd by (apply Hv; set_solver).
  rewrite vec_set_lt by (rewrite (tr_length _ _ _ Ht); apply Hvd). cbn [mbind option_bind].
  assert (pd_node d ∉ submitted.*1) as Hnew.
  { apply NoDup_app in Hnd as (_ & Hd & _). intros Hin. apply (Hd _ Hin). set_solver. }
  assert ((submitted ++ [(pd_node d, signal)]).*1 = submitted.*1 ++ [pd_node d]) as Hfst
    by (by rewrite fmap_app).
  specialize (IH _ _ b' (tracks_submit _ _ _ _ signal Ht Hvd Hnew)). rewrite Hfst, <-app_assoc in IH.
  apply IH; [set_solver|done|]. intros l1 d' l2 -> p Hp.
  specialize (Hdeps (d :: l1) d' l2 eq_refl p Hp). by rewrite <-app_assoc.
Qed.

Lemma plan_replay_refines sha256 r o order plan token b :
  recorder_shape r → compiled sha256 r o order plan →
  plan_replay plan token b = abstract_replay plan token b.
Proof.
  intros Hshape Hcp. destruct (cp_dispatches _ _ _ _ _ Hcp) as [Hmap Hall].
  pose proof (cp_order _ _ _ _ _ Hcp) as Hto.
  assert (length (plan_dispatches plan) = length (rec_nodes r)) as Hlen.
  { rewrite <-(length_fmap pd_node), Hmap. by apply topo_order_length. }
  unfold plan_replay, abstract_replay.
  destruct (begin_replay _ b) as [[b1 [[]|e]]|]; cbn [mbind option_bind]; [|done..].
  pose proof (replay_loop_refines r token (plan_dispatches plan)
    (replicate (length (plan_dispatches plan)) None) [] b1) as Href.
  assert (tracks r (replicate (length (plan_dispatches plan)) None) []) as Htr.
  { split; [by rewrite length_replicate| |set_solver]. intros x [_ Hx]. unfold expect_signal.
    by rewrite lookup_replicate_2 by lia. }
  specialize (Href Htr). assert (∀ d, d ∈ plan_dispatches plan → valid_id r (pd_node d)) as Hv.
  { intros d Hd. apply (to_nodes _ _ Hto). rewrite <-Hmap. by apply list_elem_of_fmap_2. }
  specialize (Href Hv). simpl in Href. rewrite Hmap in Href. specialize (Href (to_nodup _ _ Hto)).
  assert (∀ l1 d l2, plan_dispatches plan = l1 ++ d :: l2 → ∀ p, p ∈ pd_dependencies d →
    p ∈ pd_node <$> l1) as Hdeps.
  { intros l1 d l2 Hd p Hp. destruct (do_planned _ _ _ _ (Hall _ _ _ Hd) p Hp) as (d' & Hd' & <-).
    by apply list_elem_of_fmap_2. }
  specialize (Href Hdeps).
  destruct (abstract_loop token (plan_dispatches plan) [] b1) as [[b2 [submitted|e]]|];
    [|by rewrite Href..].
  destruct Href as (signals & -> & Ht & Hfst). cbn [mbind option_bind].
  rewrite (tracks_mapM r signals submitted); [done|done|].
  intros x Hx. rewrite Hfst. apply (to_nodes _ _ Hto).
  rewrite (cp_terminals _ _ _ _ _ Hcp) in Hx. by apply elem_of_terminals in Hx as [? _].
Qed.
End replay.

(** ** The mock backend *)

Record MockCompletion := mkCompletion {
  mc_token : Z; mc_mode : ReplayMode; mc_terminal_signals : list Z
}.

Inductive MockCommand :=
| MockBegin (token : Z) (mode : ReplayMode) (lane_count : nat)
| MockDispatch (token : Z) (node : NodeId) (lane : nat) (kernel : rstr)
    (dependencies : list Z) (signal : Z)
| MockEnd (completion : MockCompletion).

Inductive MockError :=
| ReplayAlreadyActive (token : Z)
| ReplayNotActive (token : Z).

Record MockBackend := mkMock {
  mock_commands : list MockCommand;
  mock_next_signal : Z;
  mock_active : option Z
}.

Definition mock_default : MockBackend := mkMock [] 0 None.

Definition mock_begin (req : BeginReplay) (b : MockBackend) :
    option (MockBackend * result MockError unit) :=
  match mock_active b with
  | Some active => Some (b, Err (ReplayAlreadyActive active))
  | None =>
      Some (mkMock (mock_commands b ++ [MockBegin (bg_token req) (bg_mode req) (bg_lane_count req)])
              (mock_next_signal b) (Some (bg_token req)), Ok tt)
  end.

(** [next_signal += 1] is the only panic. *)
Definition mock_dispatch (req : DispatchRequest Z) (b : MockBackend) :
    option (MockBackend * result MockError Z) :=
  if decide (mock_active b = Some (rq_token req)) then
    let signal := mock_next_signal b in
    next ← checked_add 64 (mock_next_signal b) 1;
    Some (mkMock (mock_commands b ++
             [MockDispatch (rq_token req) (rq_node req) (rq_lane req)
                (launch_kernel (rq_launch req)) (rq_dependency_signals req) signal])
            next (mock_active b), Ok signal)
  else Some (b, Err (ReplayNotActive (rq_token req))).

Definition mock_end (req : EndReplay Z) (b : MockBackend) :
    option (MockBackend * result MockError MockCompletion) :=
  if decide (mock_active b = Some (en_token req)) then
    let completion := mkCompletion (en_token req) (en_mode req) (en_terminal_signals req) in
    Some (mkMock (mock_commands b ++ [MockEnd completion]) (mock_next_signal b) None, Ok completion)
  else Some (b, Err (ReplayNotActive (en_token req))).

#[export] Instance mock_backend : DispatchBackend MockBackend Z MockCompletion MockError := {
  begin_replay := mock_begin;
  dispatch := mock_dispatch;
  end_replay := mock_end
}.

(** The signals the mock hands out, from [base] on, in submission order. *)
Fixpoint numbered (base : Z) (nodes : list NodeId) : list (NodeId * Z) :=
  match nodes with
  | [] => []
  | x :: nodes => (x, base) :: numbered (base + 1) nodes
  end.

Lemma numbered_snoc base l x :
  numbered base (l ++ [x]) = numbered base l ++ [(x, base + Z.of_nat (length l))%Z].
Proof.
  revert base. induction l as [|y l IH]; intros base; simpl; [do 2 f_equal; lia|].
  rewrite IH. do 4 f_equal. lia.
Qed.

Lemma signal_of_numbered base l x s :
  signal_of (numbered base l) x = Some s →
  ∃ j, l !! j = Some x ∧ s = (base + Z.of_nat j)%Z.
Proof.
  revert base. induction l as [|y l IH]; intros base; simpl; [done|].
  case_decide as Hd.
  - intros [= <-]. subst y. exists 0. split; [done|lia].
  - intros (j & Hj & ->)%IH. exists (S j). split; [done|lia].
Qed.

Lemma numbered_fst base l : (numbered base l).*1 = l.
Proof. revert base. induction l as [|x l IH]; intros base; simpl; [done|]. by rewrite IH. Qed.

(** The signal list [sigs] names, for every node of [deps], the signal of the
    dispatch with that node among the first [k]. *)
Definition signals_of_earlier (base : Z) (nodes : list NodeId) (k : nat)
    (deps : list NodeId) (sigs : list Z) : Prop :=
  Forall2 (λ p s, ∃ j, j < k ∧ nodes !! j = Some p ∧ s = (base + Z.of_nat j)%Z) deps sigs.

Lemma numbered_signals base nodes k deps :
  (∀ p, p ∈ deps → p ∈ take k nodes) →
  signals_of_earlier base nodes k deps (filter_map (signal_of (numbered base (take k nodes))) deps).
Proof.
  unfold signals_of_earlier. induction deps as [|p deps IH]; intros Hin; simpl; [constructor|].
  assert (is_Some (signal_of (numbered base (take k nodes)) p)) as [s Hs].
  { apply signal_of_is_Some. rewrite numbered_fst. apply Hin. set_solver. }
  rewrite Hs. constructor; [|apply IH; set_solver].
  apply signal_of_numbered in Hs as (j & Hj & ->). apply lookup_take_Some in Hj as [? ?]. eauto.
Qed.

(** The command the mock logs for the [k]-th dispatch. *)
Definition mock_logged (token base : Z) (ds : list PlannedDispatch) (k : nat)
    (d : PlannedDispatch) : MockCommand :=
  MockDispatch token (pd_node d) (pd_lane d) (launch_kernel (pd_launch d))
    (filter_map (signal_of (numbered base (take k (pd_node <$> ds)))) (pd_dependencies d))
    (base + Z.of_nat k).

Lemma mock_loop token base all : ∀ ds l1 b,
  all = l1 ++ ds → mock_active b = Some token →
  mock_next_signal b = (base + Z.of_nat (length l1))%Z →
  (base + Z.of_nat (length all) ≤ umax 64)%Z →
  ∃ cmds, abstract_loop token ds (numbered base (pd_node <$> l1)) b =
      Some (mkMock (mock_commands b ++ cmds) (base + Z.of_nat (length all)) (Some token),
            Ok (numbered base (pd_node <$> all))) ∧
    length cmds = length ds ∧
    ∀ k d, ds !! k = Some d → cmds !! k = Some (mock_logged token base all (length l1 + k) d).
Proof.
  induction ds as [|d ds IH]; intros l1 b Hall Ha Hn Hle.
  { exists []. rewrite app_nil_r in *. subst l1. simpl. rewrite <-Hn, <-Ha. by destruct b. }
  pose proof (f_equal length Hall) as Hlen. rewrite length_app in Hlen; simpl in Hlen.
  cbn [abstract_loop dispatch mock_backend]. unfold mock_dispatch; simpl.
  rewrite Ha, decide_True by done.
  rewrite (proj2 (checked_add_Some 64 (mock_next_signal b) 1 _)) by (split; [reflexivity|lia]).
  simpl. set (b' := mkMock _ _ _).
  destruct (IH (l1 ++ [d]) b') as (cmds & Hc & Hl & Hk).
  - by rewrite <-app_assoc.
  - done.
  - simpl. rewrite length_app, Hn; simpl. lia.
  - done.
  - rewrite fmap_app in Hc; simpl in Hc. rewrite numbered_snoc, length_fmap, <-Hn in Hc.
    rewrite Hc; simpl. eexists (_ :: cmds). rewrite <-app_assoc. split; [done|].
    split; [simpl; by rewrite Hl|]. intros [|k] d' Hd'; simpl in *.
    + injection Hd' as <-. unfold mock_logged. rewrite Nat.add_0_r, Hall, fmap_app.
      rewrite take_app_length' by (by rewrite length_fmap). by rewrite Hn.
    + rewrite (Hk k d' Hd'). rewrite length_app; simpl. do 2 f_equal. lia.
Qed.

(** ** Main results *)

(** C35: on a compiled plan, replay drives any backend as the abstract replay
    does: dispatches go out in plan order, each with the signals the backend
    returned for its prerequisites, and the end is given the signals of the
    terminals.  The [expect]s never fail: a panic can only come from the backend. *)
Theorem replay_refines {B Signal Completion Error : Type}
    (BE : DispatchBackend B Signal Completion Error) sha256 r o plan token b :
  recorder_wf r → plan_compile sha256 r o = Done plan →
  plan_replay plan token b = abstract_replay plan token b ∧
  (BackendTotal BE → is_Some (plan_replay plan token b)).
Proof.
  intros Hwf Hc. destruct (plan_compile_Done _ _ _ _ Hwf Hc) as (_ & _ & order & Hcp).
  rewrite (plan_replay_refines sha256 r o order plan token b); [|apply Hwf|done].
  split; [done|]. intros [Hb Hd He]. unfold abstract_replay.
  destruct (Hb (mkBegin token (plan_replay_mode plan) (Pos.to_nat (plan_lane_count plan))) b)
    as [[b1 [[]|e]] ->]; cbn [mbind option_bind]; [|done].
  assert (∀ ds submitted b, is_Some (abstract_loop token ds submitted b)) as Hloop.
  { induction ds as [|d ds IH]; intros submitted b'; simpl; [done|].
    edestruct Hd as [[b'' [s|e]] ->]; cbn [mbind option_bind]; [apply IH|done]. }
  destruct (Hloop (plan_dispatches plan) [] b1) as [[b2 [sub|e]] ->]; cbn [mbind option_bind]; [|done].
  apply He.
Qed.

Lemma replay_refines_witness :
  ∃ plan, plan_compile sample_sha256 sample sample_options = Done plan ∧
    plan_replay plan 1 mock_default = abstract_replay plan 1 mock_default.
Proof.
  eexists. split; [vm_compute; reflexivity|].
  apply (replay_refines mock_backend sample_sha256 sample sample_options);
    [exact sample_wf|vm_compute; reflexivity].
Defined.

(** Replaying a compiled plan on an idle mock backend with room for its
    signals completes.  The log gains one begin, the dispatches in plan order
    with consecutive signals, and one end; the dependency list of every dispatch
    names the signals of dispatches logged before it, and the backend is idle
    again. *)
Theorem mock_replay_trace sha256 r o plan token b :
  recorder_wf r → plan_compile sha256 r o = Done plan →
  mock_active b = None → (0 ≤ mock_next_signal b)%Z →
  (mock_next_signal b + Z.of_nat (length (plan_dispatches plan)) ≤ umax 64)%Z →
  ∃ cmds terminals,
    let base := mock_next_signal b in
    let nodes := pd_node <$> plan_dispatches plan in
    let completion := mkCompletion token (plan_replay_mode plan) terminals in
    plan_replay plan token b =
      Some (mkMock (mock_commands b
              ++ MockBegin token (plan_replay_mode plan) (Pos.to_nat (plan_lane_count plan))
              :: cmds ++ [MockEnd completion])
              (base + Z.of_nat (length (plan_dispatches plan))) None, Ok completion) ∧
    length cmds = length (plan_dispatches plan) ∧
    (∀ k d, plan_dispatches plan !! k = Some d → ∃ deps,
      cmds !! k = Some (MockDispatch token (pd_node d) (pd_lane d) (launch_kernel (pd_launch d))
                          deps (base + Z.of_nat k)) ∧
      signals_of_earlier base nodes k (pd_dependencies d) deps) ∧
    signals_of_earlier base nodes (length nodes) (plan_terminals plan) terminals.
Proof.
  intros Hwf Hc Ha H0 Hle. destruct (plan_compile_Done _ _ _ _ Hwf Hc) as (_ & _ & order & Hcp).
  rewrite (plan_replay_refines sha256 r o order plan token b); [|apply Hwf|done].
  destruct (cp_dispatches _ _ _ _ _ Hcp) as [Hmap Hall]. pose proof (cp_order _ _ _ _ _ Hcp) as Hto.
  set (base := mock_next_signal b). set (nodes := pd_node <$> plan_dispatches plan).
  unfold abstract_replay. cbn [begin_replay mock_backend]. unfold mock_begin. rewrite Ha; simpl.
  set (b1 := mkMock _ _ _).
  destruct (mock_loop token base (plan_dispatches plan) (plan_dispatches plan) [] b1)
    as (cmds & Hloop & Hl & Hk); [done|done|simpl; lia|done|].
  simpl in Hloop. rewrite Hloop; simpl. unfold mock_end; simpl. rewrite decide_True by done.
  exists cmds, (filter_map (signal_of (numbered base nodes)) (plan_terminals plan)).
  split; [do 3 f_equal; by rewrite <-!app_assoc|]. split; [done|]. split.
  - intros k d Hd. specialize (Hk k d Hd). simpl in Hk. eexists. split; [exact Hk|].
    apply numbered_signals. intros p Hp. apply list_elem_of_split_length in Hd as (l1 & l2 & Hd & ->).
    destruct (do_planned _ _ _ _ (Hall _ _ _ Hd) p Hp) as (d' & Hd' & <-).
    rewrite Hd, fmap_app, take_app_length' by (by rewrite length_fmap).
    by apply list_elem_of_fmap_2.
  - rewrite <-(take_ge nodes (length nodes)) at 3 by done.
    apply numbered_signals. intros x Hx. rewrite take_ge by done. unfold nodes. rewrite Hmap.
    apply (to_nodes _ _ Hto). rewrite (cp_terminals _ _ _ _ _ Hcp) in Hx.
    apply elem_of_terminals in Hx as [? _]; [done|apply Hwf].
Qed.

Lemma mock_replay_trace_witness :
  ∃ plan b' completion, plan_compile sample_sha256 sample sample_options = Done plan ∧
    plan_replay plan 1 mock_default = Some (b', Ok completion).
Proof.
  edestruct (mock_replay_trace sample_sha256 sample sample_options) with (b := mock_default) (token := 1%Z)
    as (cmds & terminals & H & _);
    [exact sample_wf|vm_compute; reflexivity|reflexivity|vm_compute; discriminate|vm_compute; discriminate|].
  eexists _, _, _. split; [vm_compute; reflexivity|]. exact H.
Defined.
