(* ===== verification/Fingerprint.v ===== *)
(** * Plan fingerprints ([plan.rs]: [fingerprint])

    What the hash input determines.  Every field is written with a fixed width
    or a length prefix, so the input can be read back: two plans with the same
    input agree on everything a replay depends on.  The recorder's owner, the
    estimated times and the contents of an ABI beyond its hash are not part of
    the input. *)

From S2P Require Import Prelude BTree Ir Identity Recorder Plan PlanOrder PlanCompile.

(** [f] writes [x] so that the view [v x] and the rest can be read back. *)
Definition readable {A V} (P : A → Prop) (v : A → V) (f : A → list Z) : Prop :=
  ∀ x y s t, P x → P y → f x ++ s = f y ++ t → v x = v y ∧ s = t.

(** Read one field off both sides of [H] and rewrite with what it determines. *)
Ltac read L H :=
  let E := fresh in
  apply L in H; [destruct H as [E H]; unfold id in E; try apply Pos2Z.inj in E; rewrite E; clear E|done..].

Lemma readable_le n :
  readable (λ x, 0 ≤ x < 256 ^ Z.of_nat n)%Z id (le_bytes n).
Proof.
  intros x y s t Hx Hy Heq. apply app_inj_1 in Heq as [Hb Hs]; [|by rewrite !length_le_bytes].
  split; [|done]. by apply (le_bytes_inj n).
Qed.

Lemma readable_u32 : readable (in_u 32) id put_u32.
Proof. intros x y s t Hx Hy. apply (readable_le 4); unfold in_u, umax in *; simpl; lia. Qed.

Lemma readable_u64 : readable (in_u 64) id put_u64.
Proof. intros x y s t Hx Hy. apply (readable_le 8); unfold in_u, umax in *; simpl; lia. Qed.

(** A nonnegative index written as a [u32], and a count written as a [u64]. *)
Definition index_ok (i : nat) : Prop := in_u 32 (Z.of_nat i).
Definition count_ok (n : nat) : Prop := in_u 64 (Z.of_nat n).

Lemma readable_index : readable index_ok id (λ i, put_u32 (Z.of_nat i)).
Proof. intros x y s t Hx Hy [Hz ->]%readable_u32; [|done..]. split; [|done]. by apply Nat2Z.inj. Qed.

Lemma readable_count : readable count_ok id (λ i, put_u64 (Z.of_nat i)).
Proof. intros x y s t Hx Hy [Hz ->]%readable_u64; [|done..]. split; [|done]. by apply Nat2Z.inj. Qed.

Lemma readable_bytes : readable (λ b, count_ok (length b)) id put_bytes.
Proof.
  intros x y s t Hx Hy Heq. unfold put_bytes in Heq. rewrite <-!app_assoc in Heq.
  apply readable_count in Heq as [Hl Heq]; [|done..]. simpl in Hl.
  by apply app_inj_1 in Heq.
Qed.

Lemma readable_items {A V} P v (f : A → list Z) :
  readable P (v : A → V) f → ∀ l l' s t, length l = length l' → Forall P l → Forall P l' →
  (l ≫= f) ++ s = (l' ≫= f) ++ t → v <$> l = v <$> l' ∧ s = t.
Proof.
  intros Hr. induction l as [|x l IH]; intros [|y l'] s t Hlen Hl Hl' Heq; simplify_eq/=; [done|].
  apply Forall_cons in Hl as [Hx Hl], Hl' as [Hy Hl']. rewrite <-!app_assoc in Heq.
  apply Hr in Heq as [-> Heq]; [|done..].
  apply IH in Heq as [-> ->]; done.
Qed.

Lemma readable_list {A V} P v (f : A → list Z) :
  readable P (v : A → V) f →
  readable (λ l, count_ok (length l) ∧ Forall P l) (fmap v) (put_list f).
Proof.
  intros Hr l l' s t [Hn Hl] [Hn' Hl'] Heq. unfold put_list in Heq. rewrite <-!app_assoc in Heq.
  apply readable_count in Heq as [Hlen Heq]; [|done..].
  by apply (readable_items P v f Hr) in Heq.
Qed.

(** ** Views and widths *)

Definition dim3_typed (d : Dim3) : Prop := in_u 32 (dim_x d) ∧ in_u 32 (dim_y d) ∧ in_u 32 (dim_z d).
Definition mode_typed (m : ReplayMode) : Prop :=
  match m with TokenLatency => True | Throughput n => in_u 64 (Zpos n) end.

Definition arg_view (a : KernelArg) : list Z + (Z * Z) + (nat * Z) :=
  match a with
  | ArgScalar bytes => inl (inl bytes)
  | ArgScalarSlot slot size => inl (inr (slot_index slot, size))
  | ArgResource resource off => inr (res_index resource, off)
  end.
Definition arg_typed (a : KernelArg) : Prop :=
  match a with
  | ArgScalar bytes => count_ok (length bytes)
  | ArgScalarSlot slot size => in_u 32 (slot_index slot) ∧ in_u 32 size
  | ArgResource resource off => index_ok (res_index resource) ∧ in_u 64 off
  end.

Definition access_view (a : Access) : AccessMode * nat * Z * Z :=
  (acc_mode a, res_index (reg_resource (acc_region a)), reg_offset (acc_region a), reg_len (acc_region a)).
Definition access_typed (a : Access) : Prop :=
  index_ok (res_index (reg_resource (acc_region a))) ∧ in_u 64 (reg_offset (acc_region a)) ∧
  in_u 64 (reg_len (acc_region a)).

Definition identity_typed (i : KernelArtifactIdentity) : Prop :=
  length (ident_code_object i) = 32 ∧ length (ident_symbol_text i) = 32 ∧ in_u 64 (ident_generation i).

Definition launch_view (l : KernelLaunch) :=
  (utf8 (launch_kernel l), launch_grid l, launch_block l, launch_dynamic_shared_bytes l,
   launch_estimated_work l, abi_hash <$> launch_kernarg_abi l, launch_artifact_identity l,
   arg_view <$> launch_arguments l).
Record launch_typed (l : KernelLaunch) : Prop := {
  lt_kernel : count_ok (length (utf8 (launch_kernel l)));
  lt_grid : dim3_typed (launch_grid l);
  lt_block : dim3_typed (launch_block l);
  lt_shared : in_u 32 (launch_dynamic_shared_bytes l);
  lt_work : in_u 32 (Zpos (launch_estimated_work l));
  lt_abi abi : launch_kernarg_abi l = Some abi → length (abi_hash abi) = 32;
  lt_identity i : launch_artifact_identity l = Some i → identity_typed i;
  lt_arguments : count_ok (length (launch_arguments l)) ∧ Forall arg_typed (launch_arguments l)
}.

Definition dispatch_view (d : PlannedDispatch) :=
  (node_index (pd_node d), pd_lane d, launch_view (pd_launch d), access_view <$> pd_accesses d,
   node_index <$> pd_dependencies d).
Record dispatch_typed (d : PlannedDispatch) : Prop := {
  dt_node : index_ok (node_index (pd_node d));
  dt_lane : count_ok (pd_lane d);
  dt_launch : launch_typed (pd_launch d);
  dt_accesses : count_ok (length (pd_accesses d)) ∧ Forall access_typed (pd_accesses d);
  dt_deps : count_ok (length (pd_dependencies d)) ∧
    Forall (λ n, index_ok (node_index n)) (pd_dependencies d)
}.

Definition resource_view (r : PlannedResource) : nat * list Z * Z :=
  (res_index (pr_id r), utf8 (pr_label r), pr_size r).
Definition resource_typed (r : PlannedResource) : Prop :=
  index_ok (res_index (pr_id r)) ∧ count_ok (length (utf8 (pr_label r))) ∧ in_u 64 (pr_size r).

(** What a plan's fingerprint determines, and the machine widths of its fields. *)
Definition plan_view (p : CompiledPlan) :=
  (plan_lane_count p, plan_replay_mode p, resource_view <$> plan_resources p,
   dispatch_view <$> plan_dispatches p, node_index <$> plan_terminals p).
Record plan_typed (p : CompiledPlan) : Prop := {
  pt_lanes : in_u 64 (Zpos (plan_lane_count p));
  pt_mode : mode_typed (plan_replay_mode p);
  pt_resources : count_ok (length (plan_resources p)) ∧ Forall resource_typed (plan_resources p);
  pt_dispatches : count_ok (length (plan_dispatches p)) ∧ Forall dispatch_typed (plan_dispatches p);
  pt_terminals : count_ok (length (plan_terminals p)) ∧
    Forall (λ n, index_ok (node_index n)) (plan_terminals p)
}.

(** ** Reading the pieces back *)

Lemma cons_eq_inv {A} (a b : A) l1 l2 : a :: l1 = b :: l2 → a = b ∧ l1 = l2.
Proof. by intros [= -> ->]. Qed.

Lemma readable_dim3 : readable dim3_typed id put_dim3.
Proof.
  intros [x1 y1 z1] [x2 y2 z2] s t (Hx1 & Hy1 & Hz1) (Hx2 & Hy2 & Hz2) Heq.
  unfold put_dim3 in Heq; cbn [dim_x dim_y dim_z] in Heq. rewrite <-!app_assoc in Heq.
  read readable_u32 Heq.
  read readable_u32 Heq.
  read readable_u32 Heq. done.
Qed.

Lemma readable_mode : readable mode_typed id put_mode.
Proof.
  intros [|n] [|m] s t Hn Hm Heq; cbn in Heq; [by simplify_eq|done..|].
  apply cons_eq_inv in Heq as [_ Heq]. read readable_u64 Heq. done.
Qed.

Lemma readable_argument : readable arg_typed arg_view put_argument.
Proof.
  intros a b s t Ha Hb Heq.
  destruct a as [l1|[s1] z1|r1 o1], b as [l2|[s2] z2|r2 o2]; cbn in Heq; try done;
    apply cons_eq_inv in Heq as [_ Heq]; cbn in Ha, Hb; cbn.
  - read readable_bytes Heq. done.
  - destruct Ha, Hb. rewrite <-!app_assoc in Heq. read readable_u32 Heq.
    read readable_u32 Heq. done.
  - destruct Ha, Hb. rewrite <-!app_assoc in Heq. apply readable_index in Heq as [Hi Heq]; [|done..].
    cbn in Hi. rewrite Hi. read readable_u64 Heq. done.
Qed.

Lemma readable_access : readable access_typed access_view put_access.
Proof.
  intros [[r1 o1 l1] m1] [[r2 o2 l2] m2] s t (H1 & H2 & H3) (H4 & H5 & H6) Heq.
  unfold access_view, put_access in *; cbn in *. apply cons_eq_inv in Heq as [Hm Heq].
  rewrite <-!app_assoc in Heq. apply readable_index in Heq as [Hi Heq]; [|done..].
  apply readable_u64 in Heq as [Ho Heq]; [|done..]. apply readable_u64 in Heq as [Hl ->]; [|done..].
  unfold id in *. rewrite Hi, Ho, Hl. by destruct m1, m2.
Qed.

(** The optional fields of a launch: a tag byte, then fixed-width contents. *)
Definition put_abi (o : option KernargAbi) : list Z :=
  match o with Some abi => 1%Z :: abi_hash abi | None => [0%Z] end.
Definition put_identity (o : option KernelArtifactIdentity) : list Z :=
  match o with
  | Some i => 1%Z :: ident_code_object i ++ ident_symbol_text i ++ put_u64 (ident_generation i)
  | None => [0%Z]
  end.

Lemma readable_abi :
  readable (λ o, ∀ abi, o = Some abi → length (abi_hash abi) = 32) (fmap abi_hash) put_abi.
Proof.
  intros [a|] [b|] s t Ha Hb Heq; cbn in *; [|done..|by simplify_eq].
  apply cons_eq_inv in Heq as [_ Heq].
  apply app_inj_1 in Heq as [-> ->]; [done|]. by rewrite Ha, Hb.
Qed.

Lemma readable_identity :
  readable (λ o, ∀ i, o = Some i → identity_typed i) id put_identity.
Proof.
  intros [a|] [b|] s t Ha Hb Heq; cbn in *; [|done..|by simplify_eq].
  apply cons_eq_inv in Heq as [_ Heq].
  destruct a as [a1 a2 a3], b as [b1 b2 b3].
  destruct (Ha _ eq_refl) as (H1 & H2 & H3), (Hb _ eq_refl) as (H4 & H5 & H6). cbn in *.
  rewrite <-!app_assoc in Heq. apply app_inj_1 in Heq as [-> Heq]; [|congruence].
  apply app_inj_1 in Heq as [-> Heq]; [|congruence].
  read readable_u64 Heq. done.
Qed.

Lemma put_launch_fields l :
  put_launch l = put_bytes (utf8 (launch_kernel l)) ++ put_dim3 (launch_grid l)
    ++ put_dim3 (launch_block l) ++ put_u32 (launch_dynamic_shared_bytes l)
    ++ put_u32 (Zpos (launch_estimated_work l)) ++ put_abi (launch_kernarg_abi l)
    ++ put_identity (launch_artifact_identity l) ++ put_list put_argument (launch_arguments l).
Proof. done. Qed.

Lemma readable_launch : readable launch_typed launch_view put_launch.
Proof.
  intros l1 l2 s t [] [] Heq. rewrite !put_launch_fields, <-!app_assoc in Heq. unfold launch_view.
  read readable_bytes Heq.
  read readable_dim3 Heq.
  read readable_dim3 Heq.
  read readable_u32 Heq.
  read readable_u32 Heq.
  read readable_abi Heq.
  read readable_identity Heq.
  read (readable_list _ _ _ readable_argument) Heq. done.
Qed.

Lemma readable_node : readable (λ n, index_ok (node_index n)) node_index
  (λ n, put_u32 (Z.of_nat (node_index n))).
Proof. intros x y s t Hx Hy Heq. by apply readable_index in Heq. Qed.

Lemma readable_dispatch : readable dispatch_typed dispatch_view put_dispatch.
Proof.
  intros d1 d2 s t [] [] Heq. unfold put_dispatch in Heq. rewrite <-!app_assoc in Heq.
  unfold dispatch_view.
  read readable_index Heq.
  read readable_count Heq.
  read readable_launch Heq.
  read (readable_list _ _ _ readable_access) Heq.
  read (readable_list _ _ _ readable_node) Heq. done.
Qed.

Lemma readable_resource : readable resource_typed resource_view put_resource.
Proof.
  intros r1 r2 s t (H1 & H2 & H3) (H4 & H5 & H6) Heq. unfold put_resource in Heq.
  rewrite <-!app_assoc in Heq. unfold resource_view.
  read readable_index Heq.
  read readable_bytes Heq.
  read readable_u64 Heq. done.
Qed.

(** ** Main result *)

(** Two plans with the same fingerprint have the same lane count, replay mode,
    resources, dispatches (order, lanes, launches, accesses and dependencies) and
    terminals, as long as the hash does not collide on their inputs. *)
Theorem fingerprint_determines_plan sha256 p q :
  plan_typed p → plan_typed q →
  (sha256 (fingerprint_input p) = sha256 (fingerprint_input q) →
     fingerprint_input p = fingerprint_input q) →
  fingerprint sha256 p = fingerprint sha256 q → plan_view p = plan_view q.
Proof.
  intros [] [] Hinj Heq. apply Hinj in Heq. unfold fingerprint_input in Heq.
  apply app_inv_head in Heq. cbn in Heq. apply cons_eq_inv in Heq as [_ Heq].
  rewrite <-(app_nil_r (put_list _ (plan_terminals p))), <-(app_nil_r (put_list _ (plan_terminals q))) in Heq.
  unfold plan_view.
  read readable_u64 Heq.
  read readable_mode Heq.
  read (readable_list _ _ _ readable_resource) Heq.
  read (readable_list _ _ _ readable_dispatch) Heq.
  read (readable_list _ _ _ readable_node) Heq. done.
Qed.

Lemma sample_plan_typed : plan_typed sample_plan.
Proof.
  assert (sample_plan = ltac:(let p := eval vm_compute in sample_plan in exact p)) as ->
    by (vm_compute; reflexivity).
  repeat (split || apply Forall_cons || apply Forall_nil || done ||
          (unfold count_ok, index_ok, in_u, umax; simpl; lia) || (cbn; intros ? [=])).
Qed.

Lemma fingerprint_determines_plan_witness :
  let q := mkPlan (plan_resources sample_plan) (plan_dispatches sample_plan)
             (plan_terminals sample_plan) (plan_lane_count sample_plan)
             (plan_replay_mode sample_plan) [] in
  fingerprint sample_sha256 sample_plan = fingerprint sample_sha256 q ∧
  plan_view sample_plan = plan_view q.
Proof.
  intros q. split; [vm_compute; reflexivity|].
  apply (fingerprint_determines_plan sample_sha256 sample_plan q).
  - exact sample_plan_typed.
  - destruct sample_plan_typed. split; assumption.
  - intros _. vm_compute. reflexivity.
  - vm_compute. reflexivity.
Defined.
