(* ===== verification/Bindings.v ===== *)
(** * Replay bindings ([bindings.rs])

    Physical allocations and scalar bytes bound to the logical resources and
    slots of a plan, the validation that makes logical disjointness physical,
    and the stamp that decides whether a prepared plan is still current. *)

From S2P Require Import Prelude BTree Ir Identity Recorder Plan PlanOrder PlanCompile.

Inductive AllocationPolicy := HipCoarse | HsaCoarse | HsaFine | Uncached | External.

Definition policy_tag (p : AllocationPolicy) : Z :=
  match p with HipCoarse => 0 | HsaCoarse => 1 | HsaFine => 2 | Uncached => 3 | External => 4 end.

(** [BindingRevision] is its counter. *)
Definition revision_next (revision : Z) : Z := wrapping_add 64 revision 1.

Record ResourceBinding := mkBinding {
  bind_base : Z;
  bind_size : Z;
  bind_revision : Z;
  bind_policy : AllocationPolicy
}.

Inductive ReplayBindingError :=
| NullResourcePointer
| EmptyResourceBinding
| ResourceAddressOverflow (size : Z)
| ResourceNotBound (resource : ResourceId)
| ResourceTooSmall (resource : ResourceId) (required bound : Z)
| AliasingResources (first second : ResourceId)
| ScalarNotBound (slot : ScalarSlotId)
| ScalarSize (slot : ScalarSlotId) (expected : Z) (actual : nat).

(** [usize::try_from(size)] succeeds: both are 64 bits wide. *)
Definition binding_new (base size revision : Z) (policy : AllocationPolicy) :
    result ReplayBindingError ResourceBinding :=
  if (base =? 0)%Z then Err NullResourcePointer
  else if (size =? 0)%Z then Err EmptyResourceBinding
  else
    _ ← ok_or (checked_add 64 base size) (ResourceAddressOverflow size);
    Ok (mkBinding base size revision policy).

Record ReplayBindings := mkBindings {
  rb_resources : list (ResourceId * ResourceBinding);
  rb_scalars : list (ScalarSlotId * list Z)
}.

Definition bindings_new : ReplayBindings := mkBindings [] [].
Definition bind_resource (b : ReplayBindings) (resource : ResourceId) (binding : ResourceBinding) :
    ReplayBindings :=
  mkBindings (bmap_insert resource binding (rb_resources b)) (rb_scalars b).
Definition bind_scalar (b : ReplayBindings) (slot : ScalarSlotId) (bytes : list Z) : ReplayBindings :=
  mkBindings (rb_resources b) (bmap_insert slot bytes (rb_scalars b)).
Definition bindings_resource (b : ReplayBindings) (resource : ResourceId) : option ResourceBinding :=
  bmap_get resource (rb_resources b).
Definition bindings_scalar (b : ReplayBindings) (slot : ScalarSlotId) : option (list Z) :=
  bmap_get slot (rb_scalars b).

Definition check_bound (b : ReplayBindings) (planned : PlannedResource) :
    result ReplayBindingError unit :=
  binding ← ok_or (bindings_resource b (pr_id planned)) (ResourceNotBound (pr_id planned));
  guard_ (bind_size binding <? pr_size planned)%Z
    (ResourceTooSmall (pr_id planned) (pr_size planned) (bind_size binding)).

Definition check_scalar (b : ReplayBindings) (entry : ScalarSlotId * Z) :
    result ReplayBindingError unit :=
  let '(slot, expected) := entry in
  bytes ← ok_or (bindings_scalar b slot) (ScalarNotBound slot);
  guard_ (negb (Z.of_nat (length bytes) =? expected)%Z)
    (ScalarSize slot expected (length bytes)).

(** [self.resources[&id]] and the end of its range; both can panic. *)
Definition bound_range (b : ReplayBindings) (id : ResourceId) :
    exec ReplayBindingError (Z * Z) :=
  binding ← unwrap (bindings_resource b id);
  end_ ← unwrap (checked_add 64 (bind_base binding) (bind_size binding));
  Done (bind_base binding, end_).

Definition check_alias (b : ReplayBindings) (first : PlannedResource)
    (first_start first_end : Z) (second : PlannedResource) : exec ReplayBindingError unit :=
  '(second_start, second_end) ← bound_range b (pr_id second);
  if (first_start <? second_end)%Z && (second_start <? first_end)%Z then
    Fail (AliasingResources (pr_id first) (pr_id second))
  else Done tt.

Definition bindings_validate (b : ReplayBindings) (plan : CompiledPlan) :
    exec ReplayBindingError unit :=
  _ ← try_ (for_each (check_bound b) (plan_resources plan));
  _ ← try_ (for_each (check_scalar b) (plan_scalar_slots plan));
  let resources := plan_resources plan in
  for_exec (λ '(index, first),
      '(first_start, first_end) ← bound_range b (pr_id first);
      for_exec (check_alias b first first_start first_end) (drop (S index) resources))
    (enumerate resources).

(** ** Layout fingerprints *)

Definition put_binding (b : ReplayBindings) (r : PlannedResource) : exec ReplayBindingError (list Z) :=
  binding ← unwrap (bindings_resource b (pr_id r));
  Done (put_u32 (Z.of_nat (res_index (pr_id r))) ++ put_u64 (pr_size r)
        ++ [policy_tag (bind_policy binding)]).

Fixpoint collect_exec {E A B} (f : A → exec E B) (l : list A) : exec E (list B) :=
  match l with
  | [] => Done []
  | x :: l => y ← f x; ys ← collect_exec f l; Done (y :: ys)
  end.

Definition layout_fingerprint (sha256 : list Z → Sha256Digest) (b : ReplayBindings)
    (plan : CompiledPlan) : exec ReplayBindingError (list Z) :=
  _ ← bindings_validate b plan;
  resources ← collect_exec (put_binding b) (plan_resources plan);
  Done (sha256 (lit "redline-binding-layout-v1" ++ [0%Z]
          ++ put_u64 (Z.of_nat (length (plan_resources plan))) ++ concat resources
          ++ (plan_scalar_slots plan ≫= λ '(slot, size), put_u32 (slot_index slot) ++ put_u32 size))).

(** ** Prepared-plan stamps *)

Inductive PreparedPlanState :=
| Current
| NeedsRebind (resources : list ResourceId).

Inductive PreparedPlanInvalidation :=
| PlanChanged (prepared current : list Z)
| InvalidBindings (cause : ReplayBindingError)
| BindingLayoutChanged (prepared current : list Z)
| ArtifactMissing (kernel : rstr)
| ArtifactChanged (kernel : rstr) (prepared current : KernelArtifactIdentity).

Record PreparedPlanStamp := mkStamp {
  stamp_plan : list Z;
  stamp_layout : list Z;
  stamp_revisions : list (nat * Z);
  stamp_artifacts : list (rstr * KernelArtifactIdentity)
}.

(** [collect] into a [BTreeMap]. *)
Definition collect_map {K V} `{Cmp K} (l : list (K * V)) : list (K * V) :=
  foldl (λ m '(k, v), bmap_insert k v m) [] l.

Definition bound_revision (b : ReplayBindings) (r : PlannedResource) :
    exec ReplayBindingError (nat * Z) :=
  binding ← unwrap (bindings_resource b (pr_id r));
  Done (res_index (pr_id r), bind_revision binding).

Definition stamp_capture (sha256 : list Z → Sha256Digest) (plan : CompiledPlan)
    (b : ReplayBindings) : exec ReplayBindingError PreparedPlanStamp :=
  layout ← layout_fingerprint sha256 b plan;
  revisions ← collect_exec (bound_revision b) (plan_resources plan);
  Done (mkStamp (plan_fingerprint plan) layout (collect_map revisions)
          (collect_map (plan_artifact_identities plan))).

Definition map_fail {E E' A} (f : E → E') (x : exec E A) : exec E' A :=
  match x with Done a => Done a | Fail e => Fail (f e) | Panic => Panic end.

Definition check_artifact (artifacts : ArtifactCatalog) (entry : rstr * KernelArtifactIdentity) :
    result PreparedPlanInvalidation unit :=
  let '(kernel, expected) := entry in
  current ← ok_or (catalog_get artifacts kernel) (ArtifactMissing kernel);
  if decide (expected = current) then Ok tt
  else Err (ArtifactChanged kernel expected current).

(** The resources whose revision differs from the captured one, in plan order. *)
Fixpoint changed_resources (revisions : list (nat * Z)) (b : ReplayBindings)
    (l : list PlannedResource) : exec PreparedPlanInvalidation (list ResourceId) :=
  match l with
  | [] => Done []
  | r :: l =>
      binding ← unwrap (bindings_resource b (pr_id r));
      rest ← changed_resources revisions b l;
      Done (if decide (bmap_get (res_index (pr_id r)) revisions = Some (bind_revision binding))
            then rest else pr_id r :: rest)
  end.

Definition stamp_validate (sha256 : list Z → Sha256Digest) (stamp : PreparedPlanStamp)
    (plan : CompiledPlan) (b : ReplayBindings) (artifacts : ArtifactCatalog) :
    exec PreparedPlanInvalidation PreparedPlanState :=
  if negb (bool_decide (stamp_plan stamp = plan_fingerprint plan)) then
    Fail (PlanChanged (stamp_plan stamp) (plan_fingerprint plan))
  else
    current_layout ← map_fail InvalidBindings (layout_fingerprint sha256 b plan);
    if negb (bool_decide (stamp_layout stamp = current_layout)) then
      Fail (BindingLayoutChanged (stamp_layout stamp) current_layout)
    else
      _ ← try_ (for_each (check_artifact artifacts) (stamp_artifacts stamp));
      changed ← changed_resources (stamp_revisions stamp) b (plan_resources plan);
      if is_empty changed then Done Current else Done (NeedsRebind changed).

(** ** Validation *)

Definition binding_ok (bd : ResourceBinding) : Prop :=
  (0 < bind_base bd)%Z ∧ (0 < bind_size bd)%Z ∧ (bind_base bd + bind_size bd ≤ umax 64)%Z.

Definition bindings_ok (b : ReplayBindings) : Prop :=
  ∀ id bd, bindings_resource b id = Some bd → binding_ok bd.

Definition ranges_disjoint (x y : ResourceBinding) : Prop :=
  (bind_base x + bind_size x ≤ bind_base y ∨ bind_base y + bind_size y ≤ bind_base x)%Z.

(** What [validate] promises about the bindings of a plan. *)
Record bindings_valid (b : ReplayBindings) (plan : CompiledPlan) : Prop := {
  bv_bound p : p ∈ plan_resources plan →
    ∃ bd, bindings_resource b (pr_id p) = Some bd ∧ (pr_size p ≤ bind_size bd)%Z;
  bv_scalars slot size : (slot, size) ∈ plan_scalar_slots plan →
    ∃ bytes, bindings_scalar b slot = Some bytes ∧ Z.of_nat (length bytes) = size;
  bv_disjoint i j p q bp bq : i ≠ j →
    plan_resources plan !! i = Some p → plan_resources plan !! j = Some q →
    bindings_resource b (pr_id p) = Some bp → bindings_resource b (pr_id q) = Some bq →
    ranges_disjoint bp bq
}.

Lemma binding_new_ok base size revision policy bd :
  (0 ≤ base)%Z → (0 ≤ size)%Z → binding_new base size revision policy = Ok bd →
  bd = mkBinding base size revision policy ∧ binding_ok bd.
Proof.
  intros Hb Hs. unfold binding_new. destruct (Z.eqb_spec base 0); [done|].
  destruct (Z.eqb_spec size 0); [done|]. intros ?. invert_ok. subst.
  match goal with H : checked_add _ _ _ = Some _ |- _ => apply checked_add_Some in H as [-> ?] end.
  split; [done|]. unfold binding_ok; simpl. lia.
Qed.

Lemma bindings_new_ok : bindings_ok bindings_new.
Proof. done. Qed.

Lemma bind_resource_ok b id bd : bindings_ok b → binding_ok bd → bindings_ok (bind_resource b id bd).
Proof.
  intros Hb Hbd id' bd'. unfold bind_resource, bindings_resource; simpl.
  destruct (decide (id = id')) as [<-|Hne].
  - rewrite bmap_get_insert_eq. by intros [= <-].
  - rewrite bmap_get_insert_ne by done. apply Hb.
Qed.

Lemma bind_scalar_ok b slot bytes : bindings_ok b → bindings_ok (bind_scalar b slot bytes).
Proof. done. Qed.

Lemma check_bound_Ok b p u :
  check_bound b p = Ok u ↔
  ∃ bd, bindings_resource b (pr_id p) = Some bd ∧ (pr_size p ≤ bind_size bd)%Z.
Proof.
  unfold check_bound. destruct (bindings_resource b (pr_id p)) as [bd|]; simpl; [|naive_solver].
  rewrite guard_Ok, Z.ltb_ge. naive_solver.
Qed.

Lemma check_scalar_Ok b slot size u :
  check_scalar b (slot, size) = Ok u ↔
  ∃ bytes, bindings_scalar b slot = Some bytes ∧ Z.of_nat (length bytes) = size.
Proof.
  unfold check_scalar. destruct (bindings_scalar b slot) as [bytes|]; simpl; [|naive_solver].
  rewrite guard_Ok, negb_false_iff, Z.eqb_eq. naive_solver.
Qed.

Lemma bound_range_ok b id bd :
  bindings_ok b → bindings_resource b id = Some bd →
  bound_range b id = Done (bind_base bd, bind_base bd + bind_size bd)%Z.
Proof.
  intros Hok Hid. unfold bound_range. rewrite Hid; simpl.
  destruct (Hok id bd Hid) as (? & ? & Hle). by rewrite (proj2 (checked_add_Some 64 _ _ _) (conj eq_refl Hle)).
Qed.

Lemma check_alias_ok b p bp q bq :
  bindings_ok b → bindings_resource b (pr_id q) = Some bq →
  let f := check_alias b p (bind_base bp) (bind_base bp + bind_size bp) q in
  f ≠ Panic ∧ (f = Done tt ↔ ranges_disjoint bp bq).
Proof.
  intros Hok Hq. unfold check_alias. rewrite (bound_range_ok b _ bq) by done; simpl.
  unfold ranges_disjoint. destruct ((_ <? _)%Z && (_ <? _)%Z) eqn:E.
  - apply andb_true_iff in E as [?%Z.ltb_lt ?%Z.ltb_lt]. split; [done|]. split; [done|lia].
  - split; [done|]. split; [|done]. intros _. apply andb_false_iff in E as [?%Z.ltb_ge|?%Z.ltb_ge]; lia.
Qed.

Lemma ranges_disjoint_comm x y : ranges_disjoint x y → ranges_disjoint y x.
Proof. unfold ranges_disjoint. tauto. Qed.

Lemma validate_spec b plan :
  bindings_ok b →
  bindings_validate b plan ≠ Panic ∧ (bindings_validate b plan = Done tt ↔ bindings_valid b plan).
Proof.
  intros Hok. unfold bindings_validate.
  destruct (for_each (check_bound b) (plan_resources plan)) as [u|e] eqn:Hb; simpl.
  2: { split; [done|]. split; [done|]. intros [Hbound _ _].
       apply for_each_Err in Hb as (l1 & p & l2 & Hl & Hp & _).
       destruct (Hbound p) as (bd & Hbd); [rewrite Hl; set_solver|].
       rewrite (proj2 (check_bound_Ok b p tt)) in Hp by eauto. done. }
  rewrite for_each_Ok in Hb. setoid_rewrite check_bound_Ok in Hb.
  destruct (for_each (check_scalar b) (plan_scalar_slots plan)) as [u'|e] eqn:Hs; simpl.
  2: { split; [done|]. split; [done|]. intros [_ Hsc _].
       apply for_each_Err in Hs as (l1 & [slot size] & l2 & Hl & Hp & _).
       rewrite (proj2 (check_scalar_Ok b slot size tt)) in Hp; [done|]. apply Hsc. rewrite Hl. set_solver. }
  rewrite for_each_Ok in Hs.
  assert (∀ i p, plan_resources plan !! i = Some p → ∃ bp, bindings_resource b (pr_id p) = Some bp) as Hget.
  { intros i p Hp. destruct (Hb p) as (bd & ? & _); [by eapply list_elem_of_lookup_2|]. eauto. }
  split.
  - apply for_exec_no_panic. intros [i p] Hp%elem_of_enumerate. destruct (Hget i p Hp) as [bp Hbp].
    rewrite (bound_range_ok b _ bp) by done; simpl. apply for_exec_no_panic.
    intros q [k Hq]%list_elem_of_lookup. rewrite lookup_drop in Hq. destruct (Hget _ q Hq) as [bq Hbq].
    by apply (check_alias_ok b p bp q bq).
  - rewrite for_exec_Done. split.
    + intros Hall. split; [done|intros slot size Hin; by apply (check_scalar_Ok b slot size tt), Hs|].
      assert (∀ i j p q bp bq, i < j → plan_resources plan !! i = Some p →
        plan_resources plan !! j = Some q → bindings_resource b (pr_id p) = Some bp →
        bindings_resource b (pr_id q) = Some bq → ranges_disjoint bp bq) as Hlt.
      { intros i j p q bp bq Hij Hp Hq Hbp Hbq.
        specialize (Hall (i, p)). rewrite elem_of_enumerate in Hall. specialize (Hall Hp). simpl in Hall.
        rewrite (bound_range_ok b _ bp) in Hall by done; simpl in Hall. rewrite for_exec_Done in Hall.
        apply (check_alias_ok b p bp q bq); [done..|]. apply Hall.
        apply list_elem_of_lookup. exists (j - S i). rewrite lookup_drop.
        by replace (S i + (j - S i)) with j by lia. }
      intros i j p q bp bq Hne Hp Hq Hbp Hbq. destruct (decide (i < j)); [by eapply Hlt|].
      apply ranges_disjoint_comm. eapply (Hlt j i); eauto. lia.
    + intros [_ _ Hdis] [i p] Hp%elem_of_enumerate. destruct (Hget i p Hp) as [bp Hbp].
      rewrite (bound_range_ok b _ bp) by done; simpl. apply for_exec_Done.
      intros q [k Hq]%list_elem_of_lookup. rewrite lookup_drop in Hq. destruct (Hget _ q Hq) as [bq Hbq].
      apply (check_alias_ok b p bp q bq); [done..|]. eapply (Hdis i (S i + k)); eauto. lia.
Qed.

(** ** From logical regions to addresses *)

(** The device addresses of a region under a binding. *)
Definition region_address (b : ReplayBindings) (reg : DeviceRegion) (address : Z) : Prop :=
  ∃ bd, bindings_resource b (reg_resource reg) = Some bd ∧
    (bind_base bd + reg_offset reg ≤ address < bind_base bd + region_end reg)%Z.

Definition region_planned (plan : CompiledPlan) (reg : DeviceRegion) : Prop :=
  region_ok reg ∧ ∃ p, p ∈ plan_resources plan ∧ pr_id p = reg_resource reg ∧
    (region_end reg ≤ pr_size p)%Z.

Lemma regions_share_address b plan x y :
  bindings_valid b plan →
  region_planned plan x → region_planned plan y →
  (∃ address, region_address b x address ∧ region_address b y address) ↔
  region_overlaps x y = true.
Proof.
  intros [Hbound _ Hdis] [Hx (p & Hp & Hpx & Hpe)] [Hy (q & Hq & Hqy & Hqe)].
  destruct (Hbound p Hp) as (bp & Hbp & Hbps), (Hbound q Hq) as (bq & Hbq & Hbqs).
  rewrite Hpx in Hbp. rewrite Hqy in Hbq. unfold region_address, region_ok in *.
  rewrite region_overlaps_iff. split.
  - intros (addr & (bd & Hbd & Ha) & (bd' & Hbd' & Ha')). simplify_eq.
    apply list_elem_of_lookup in Hp as [i Hi], Hq as [j Hj].
    destruct (decide (i = j)) as [->|Hne].
    + simplify_eq. rewrite Hpx in Hqy. rewrite Hqy in *. simplify_eq. split; [done|]. lia.
    + exfalso. assert (ranges_disjoint bp bq) as Hd.
      { eapply (Hdis i j p q); [done..|by rewrite Hpx|by rewrite Hqy]. }
      unfold ranges_disjoint in Hd. lia.
  - intros (Hr & H1 & H2). rewrite Hr in Hbp. assert (bp = bq) as -> by congruence.
    exists (bind_base bq + Z.max (reg_offset x) (reg_offset y))%Z. unfold region_end in *.
    split; exists bq; (split; [by rewrite ?Hr|lia]).
Qed.

(** ** Collected maps *)

Lemma collect_map_from {K V} `{CmpOk K} (l : list (K * V)) : ∀ uses m,
  represents uses m → consistent (uses ++ l) →
  represents (uses ++ l) (foldl (λ m '(k, v), bmap_insert k v m) m l).
Proof.
  induction l as [|[k v] l IH]; intros uses m Hr Hc; simpl; [by rewrite app_nil_r|].
  rewrite (app_assoc uses [(k, v)] l : uses ++ (k, v) :: l = _) in *. apply IH; [|done].
  apply represents_insert; [done|]. intros v' Hv'. apply Hr in Hv'. apply (Hc k); set_solver.
Qed.

Lemma collect_map_get {K V} `{CmpOk K} (l : list (K * V)) k v :
  consistent l → bmap_get k (collect_map l) = Some v ↔ (k, v) ∈ l.
Proof. intros Hc. apply (collect_map_from l [] []); [|done]. intros ? ?; simpl. set_solver. Qed.

Lemma collect_map_sorted {K V} `{CmpOk K} (l : list (K * V)) : bmap_sorted (collect_map l).
Proof.
  unfold collect_map. assert (bmap_sorted ([] : list (K * V))) as H1 by constructor.
  revert H1. generalize ([] : list (K * V)). induction l as [|[k v] l IH]; intros m Hm; simpl; [done|].
  apply IH. by apply bmap_insert_sorted.
Qed.

Lemma elem_of_collect_map {K V} `{CmpOk K} (l : list (K * V)) k v :
  consistent l → (k, v) ∈ collect_map l ↔ (k, v) ∈ l.
Proof.
  intros Hc. rewrite <-(collect_map_get l) by done. split.
  - apply bmap_elem_get, collect_map_sorted.
  - apply bmap_get_elem.
Qed.

Lemma foldl_collect {A K V} `{Cmp K} (f : A → option (K * V)) (l : list A) m :
  foldl (λ m x, match f x with Some (k, v) => bmap_insert k v m | None => m end) m l =
  foldl (λ m '(k, v), bmap_insert k v m) m (filter_map f l).
Proof.
  revert m. induction l as [|x l IH]; intros m; simpl; [done|]. destruct (f x) as [[k v]|]; apply IH.
Qed.

Definition dispatch_artifact (d : PlannedDispatch) : option (rstr * KernelArtifactIdentity) :=
  (λ i, (launch_kernel (pd_launch d), i)) <$> launch_artifact_identity (pd_launch d).

Lemma plan_artifacts_collect plan :
  plan_artifact_identities plan = collect_map (filter_map dispatch_artifact (plan_dispatches plan)).
Proof.
  unfold plan_artifact_identities, collect_map. rewrite <-foldl_collect. generalize ([] : ArtifactCatalog).
  induction (plan_dispatches plan) as [|d ds IH]; intros m; simpl; [done|].
  rewrite IH. f_equal. unfold dispatch_artifact. by destruct (launch_artifact_identity _).
Qed.

Definition dispatch_slots (d : PlannedDispatch) : list (ScalarSlotId * Z) :=
  slot_uses (launch_arguments (pd_launch d)).

Lemma plan_slots_collect plan :
  plan_scalar_slots plan = collect_map (plan_dispatches plan ≫= dispatch_slots).
Proof.
  unfold plan_scalar_slots, collect_map. generalize ([] : slot_table).
  induction (plan_dispatches plan) as [|d ds IH]; intros m; simpl; [done|].
  rewrite IH. change (mbind dispatch_slots (d :: ds)) with (dispatch_slots d ++ (ds ≫= dispatch_slots)).
  rewrite foldl_app. f_equal. unfold dispatch_slots, slot_uses. rewrite <-foldl_collect.
  revert m. induction (launch_arguments (pd_launch d)) as [|a l IHl]; intros m; simpl; [done|].
  rewrite IHl. f_equal. by destruct a.
Qed.

(** In a compiled plan, resource indices are unique and kernel keys and slots
    have one identity and one size. *)
Record plan_consistent (plan : CompiledPlan) : Prop := {
  pc_resources p q : p ∈ plan_resources plan → q ∈ plan_resources plan →
    res_index (pr_id p) = res_index (pr_id q) → p = q;
  pc_artifacts : consistent (filter_map dispatch_artifact (plan_dispatches plan));
  pc_slots : consistent (plan_dispatches plan ≫= dispatch_slots)
}.

Lemma dispatch_node sha256 r o order plan d :
  compiled sha256 r o order plan → d ∈ plan_dispatches plan →
  ∃ n, n ∈ rec_nodes r ∧ pd_launch d = node_launch n ∧ pd_accesses d = node_accesses n.
Proof.
  intros Hcp (l1 & l2 & Hd)%list_elem_of_split. destruct (cp_dispatches _ _ _ _ _ Hcp) as [_ Hall].
  destruct (do_entry _ _ _ _ (Hall _ _ _ Hd)) as (n & Hn & Hl & Ha).
  exists n. split; [by eapply list_elem_of_lookup_2|]. done.
Qed.

Lemma elem_of_planned_resources r p :
  p ∈ planned_resources r ↔ ∃ i res, rec_resources r !! i = Some res ∧
    p = mkPlannedResource (mkResourceId (rec_owner r) i) (resource_label res) (resource_size res).
Proof.
  unfold planned_resources. rewrite list_elem_of_fmap. split.
  - intros ([i res] & -> & Hin%elem_of_enumerate). eauto.
  - intros (i & res & Hi & ->). exists (i, res). by rewrite elem_of_enumerate.
Qed.

Lemma compiled_consistent sha256 r o order plan :
  contracts_ok (rec_nodes r) → compiled sha256 r o order plan → plan_consistent plan.
Proof.
  intros [_ Hslots Hkernels] Hcp. split.
  - intros p q. rewrite (cp_resources _ _ _ _ _ Hcp), !elem_of_planned_resources.
    intros (i & ri & Hi & ->) (j & rj & Hj & ->); simpl. intros ->. by simplify_eq.
  - intros k v v' (d & Hd & Hv)%elem_of_filter_map (d' & Hd' & Hv')%elem_of_filter_map.
    destruct (dispatch_node _ _ _ _ _ _ Hcp Hd) as (n & Hn & Hl & _).
    destruct (dispatch_node _ _ _ _ _ _ Hcp Hd') as (n' & Hn' & Hl' & _).
    unfold dispatch_artifact in *. rewrite Hl in Hv. rewrite Hl' in Hv'.
    apply fmap_Some in Hv as (i & Hi & [= -> ->]), Hv' as (i' & Hi' & [= Hk ->]).
    assert (kernel_identity (node_launch n) = kernel_identity (node_launch n')) as Heq.
    { apply (Hkernels (launch_kernel (node_launch n))); apply list_elem_of_fmap;
        [exists n|exists n']; rewrite ?Hk; done. }
    unfold kernel_identity in Heq. injection Heq as _ Heq. congruence.
  - intros k v v' (d & Hv & Hd)%list_elem_of_bind (d' & Hv' & Hd')%list_elem_of_bind.
    destruct (dispatch_node _ _ _ _ _ _ Hcp Hd) as (n & Hn & Hl & _).
    destruct (dispatch_node _ _ _ _ _ _ Hcp Hd') as (n' & Hn' & Hl' & _).
    unfold dispatch_slots in *. rewrite Hl in Hv. rewrite Hl' in Hv'.
    apply (Hslots k); apply list_elem_of_bind; eauto.
Qed.

(** ** Stamps *)

Lemma collect_exec_Done {E A B} (f : A → exec E B) (g : A → B) l :
  (∀ x, x ∈ l → f x = Done (g x)) → collect_exec f l = Done (g <$> l).
Proof.
  induction l as [|x l IH]; intros Hf; simpl; [done|].
  rewrite (Hf x) by set_solver; simpl. rewrite IH by set_solver. done.
Qed.

Definition revision_of (b : ReplayBindings) (p : PlannedResource) : Z :=
  default 0%Z (bind_revision <$> bindings_resource b (pr_id p)).
Definition policy_of (b : ReplayBindings) (p : PlannedResource) : AllocationPolicy :=
  default External (bind_policy <$> bindings_resource b (pr_id p)).

(** The hash input of a valid layout. *)
Definition layout_input (b : ReplayBindings) (plan : CompiledPlan) : list Z :=
  lit "redline-binding-layout-v1" ++ [0%Z]
  ++ put_u64 (Z.of_nat (length (plan_resources plan)))
  ++ concat ((λ p, put_u32 (Z.of_nat (res_index (pr_id p))) ++ put_u64 (pr_size p)
                   ++ [policy_tag (policy_of b p)]) <$> plan_resources plan)
  ++ (plan_scalar_slots plan ≫= λ '(slot, size), put_u32 (slot_index slot) ++ put_u32 size).

Lemma layout_fingerprint_valid sha256 b plan :
  bindings_valid b plan → bindings_ok b →
  layout_fingerprint sha256 b plan = Done (sha256 (layout_input b plan)).
Proof.
  intros Hv Hok. unfold layout_fingerprint. destruct (validate_spec b plan Hok) as [_ [_ Hd]].
  rewrite (Hd Hv). cbn [mbind exec_bind].
  erewrite collect_exec_Done; [done|]. intros p Hp. destruct (bv_bound _ _ Hv p Hp) as (bd & Hbd & _).
  unfold put_binding, policy_of. rewrite Hbd. done.
Qed.

Lemma layout_fingerprint_spec sha256 b plan :
  bindings_ok b →
  layout_fingerprint sha256 b plan ≠ Panic ∧
  ∀ h, layout_fingerprint sha256 b plan = Done h ↔
    bindings_valid b plan ∧ h = sha256 (layout_input b plan).
Proof.
  intros Hok. destruct (validate_spec b plan Hok) as [Hnp Hd].
  destruct (bindings_validate b plan) as [[]|e|] eqn:E; [| |done].
  - rewrite layout_fingerprint_valid by (by try apply Hd). split; [done|]. intros h. split.
    + intros [= <-]. split; [by apply Hd|done].
    + by intros [_ ->].
  - unfold layout_fingerprint. rewrite E. split; [done|]. intros h. split; [done|].
    intros [Hv _]. by apply Hd in Hv.
Qed.

Lemma stamp_capture_spec sha256 plan b stamp :
  bindings_ok b → stamp_capture sha256 plan b = Done stamp →
  bindings_valid b plan ∧
  stamp = mkStamp (plan_fingerprint plan) (sha256 (layout_input b plan))
    (collect_map ((λ p, (res_index (pr_id p), revision_of b p)) <$> plan_resources plan))
    (collect_map (plan_artifact_identities plan)).
Proof.
  intros Hok. unfold stamp_capture. intros Hc. apply bind_Done_inv in Hc as (h & Hh & Hc).
  apply (layout_fingerprint_spec sha256 b plan Hok) in Hh as [Hv ->]. split; [done|].
  rewrite (collect_exec_Done _ (λ p, (res_index (pr_id p), revision_of b p))) in Hc.
  - by injection Hc as <-.
  - intros p Hp. destruct (bv_bound _ _ Hv p Hp) as (bd & Hbd & _).
    unfold bound_revision, revision_of. by rewrite Hbd.
Qed.

Lemma revisions_consistent plan b :
  plan_consistent plan →
  consistent ((λ p, (res_index (pr_id p), revision_of b p)) <$> plan_resources plan).
Proof.
  intros Hpc k v v' (p & [= -> ->] & Hp)%list_elem_of_fmap (q & [= Hk ->] & Hq)%list_elem_of_fmap.
  by rewrite (pc_resources _ Hpc p q).
Qed.

(** The resources of a plan whose revision differs between two bindings. *)
Definition moved (b0 b : ReplayBindings) (l : list PlannedResource) : list ResourceId :=
  filter_map (λ p, if decide (revision_of b0 p = revision_of b p) then None else Some (pr_id p)) l.

Lemma changed_resources_moved plan b0 b l :
  plan_consistent plan → bindings_valid b plan → (∀ p, p ∈ l → p ∈ plan_resources plan) →
  changed_resources
    (collect_map ((λ p, (res_index (pr_id p), revision_of b0 p)) <$> plan_resources plan)) b l
  = Done (moved b0 b l).
Proof.
  intros Hpc Hv. induction l as [|p l IH]; intros Hl; simpl; [done|].
  destruct (bv_bound _ _ Hv p) as (bd & Hbd & _); [set_solver|]. rewrite Hbd; cbn [unwrap mbind exec_bind].
  rewrite IH by set_solver. cbn [mbind exec_bind]. f_equal.
  assert (revision_of b p = bind_revision bd) as Hrev by (unfold revision_of; by rewrite Hbd).
  assert (bmap_get (res_index (pr_id p))
     (collect_map ((λ p, (res_index (pr_id p), revision_of b0 p)) <$> plan_resources plan))
     = Some (bind_revision bd) ↔ revision_of b0 p = revision_of b p) as Hiff.
  { rewrite collect_map_get by (by apply revisions_consistent). rewrite list_elem_of_fmap, Hrev. split.
    - intros (q & [= Hi ->] & Hq). by rewrite (pc_resources _ Hpc p q) by set_solver.
    - intros Heq. exists p. rewrite Heq. set_solver. }
  unfold moved; simpl. destruct (decide (revision_of b0 p = revision_of b p)) as [He|He].
  - by rewrite decide_True by (by apply Hiff).
  - by rewrite decide_False by (by rewrite Hiff).
Qed.

Lemma artifacts_match plan artifacts :
  plan_consistent plan →
  for_each (check_artifact artifacts) (collect_map (plan_artifact_identities plan)) = Ok tt ↔
  ∀ d i, d ∈ plan_dispatches plan → launch_artifact_identity (pd_launch d) = Some i →
    catalog_get artifacts (launch_kernel (pd_launch d)) = Some i.
Proof.
  intros Hpc. rewrite for_each_Ok, plan_artifacts_collect.
  set (uses := filter_map dispatch_artifact (plan_dispatches plan)).
  assert (consistent uses) as Hc by apply Hpc.
  assert (consistent (collect_map uses)) as Hcc.
  { intros k v v'. rewrite !elem_of_collect_map by done. apply Hc. }
  assert (∀ k i, check_artifact artifacts (k, i) = Ok tt ↔ catalog_get artifacts k = Some i) as Hck.
  { intros k i. unfold check_artifact. destruct (catalog_get artifacts k); simpl; [|done].
    case_decide; naive_solver. }
  split.
  - intros Hall d i Hd Hi. apply Hck, Hall. rewrite !elem_of_collect_map by done.
    apply elem_of_filter_map. exists d. unfold dispatch_artifact. by rewrite Hi.
  - intros Hall [k i]. rewrite !elem_of_collect_map, Hck by done.
    intros (d & Hd & Hx)%elem_of_filter_map. unfold dispatch_artifact in Hx.
    apply fmap_Some in Hx as (i' & Hi' & [= -> ->]). by apply Hall.
Qed.

(** The bindings and artifacts have not changed in a way that needs preparing
    again from scratch. *)
Record stamp_matches (sha256 : list Z → Sha256Digest) (plan : CompiledPlan)
    (b0 b : ReplayBindings) (artifacts : ArtifactCatalog) : Prop := {
  sm_valid : bindings_valid b plan;
  sm_layout : sha256 (layout_input b0 plan) = sha256 (layout_input b plan);
  sm_artifacts d i : d ∈ plan_dispatches plan → launch_artifact_identity (pd_launch d) = Some i →
    catalog_get artifacts (launch_kernel (pd_launch d)) = Some i
}.

Lemma stamp_validate_spec sha256 plan b0 b artifacts stamp :
  plan_consistent plan → bindings_ok b0 → bindings_ok b →
  stamp_capture sha256 plan b0 = Done stamp →
  let out := stamp_validate sha256 stamp plan b artifacts in
  out ≠ Panic ∧
  ∀ state, out = Done state ↔ stamp_matches sha256 plan b0 b artifacts ∧
    state = (if is_empty (moved b0 b (plan_resources plan)) then Current
             else NeedsRebind (moved b0 b (plan_resources plan))).
Proof.
  intros Hpc H0 Hb Hc. destruct (stamp_capture_spec _ _ _ _ H0 Hc) as [Hv0 ->].
  unfold stamp_validate; cbn [stamp_plan stamp_layout stamp_artifacts stamp_revisions].
  rewrite (bool_decide_eq_true_2 (plan_fingerprint plan = plan_fingerprint plan)) by done. cbn [negb].
  destruct (layout_fingerprint_spec sha256 b plan Hb) as [Hnp Hl].
  destruct (layout_fingerprint sha256 b plan) as [h|e|]; [|..|done]; cbn [map_fail mbind exec_bind].
  2: { split; [done|]. intros st. split; [done|]. intros [Hm _].
       destruct (Hl (sha256 (layout_input b plan))) as [_ Hl'].
       discriminate (Hl' (conj (sm_valid _ _ _ _ _ Hm) eq_refl)). }
  destruct (proj1 (Hl h) eq_refl) as [Hv ->].
  case_bool_decide as Heq; cbn [negb].
  2: { split; [done|]. intros st. split; [done|]. intros [Hm _]. by destruct Heq; apply Hm. }
  pose proof (artifacts_match plan artifacts Hpc) as Ha.
  destruct (for_each _ _) as [[]|e] eqn:Hf; cbn [try_ mbind exec_bind].
  2: { split; [done|]. intros st. split; [done|]. intros [Hm _]. destruct Ha as [_ Ha].
       discriminate (Ha (sm_artifacts _ _ _ _ _ Hm)). }
  rewrite (changed_resources_moved plan b0 b) by done. cbn [mbind exec_bind].
  assert (stamp_matches sha256 plan b0 b artifacts) as Hm by (split; [done..|by apply Ha]).
  destruct (is_empty (moved b0 b (plan_resources plan))); (split; [done|]); intros st; split.
  - intros [= <-]. done.
  - by intros [_ ->].
  - intros [= <-]. done.
  - by intros [_ ->].
Qed.

(** ** Main results *)

Lemma in_bounds_planned sha256 r o order plan reg :
  compiled sha256 r o order plan → region_ok reg → region_in_bounds r reg → region_planned plan reg.
Proof.
  intros Hcp Hok (Ho & entry & He & Hle). split; [done|].
  exists (mkPlannedResource (mkResourceId (rec_owner r) (res_index (reg_resource reg)))
            (resource_label entry) (resource_size entry)).
  rewrite (cp_resources _ _ _ _ _ Hcp), elem_of_planned_resources.
  split; [eauto|]. simpl. split; [|done]. destruct (reg_resource reg); simpl in *; congruence.
Qed.

Definition sample_bindings : ReplayBindings :=
  bind_scalar (bind_resource (bind_resource bindings_new
    sample_a (mkBinding 4096 64 1 HipCoarse)) sample_b (mkBinding 8192 128 1 HsaFine))
    (mkSlotId 3) [1; 2; 3; 4]%Z.
Definition sample_rebound : ReplayBindings :=
  bind_resource sample_bindings sample_b (mkBinding 16384 128 2 HsaFine).

Lemma sample_bindings_ok : bindings_ok sample_bindings.
Proof.
  apply bind_scalar_ok. apply bind_resource_ok; [apply bind_resource_ok; [apply bindings_new_ok|]|];
    unfold binding_ok, umax; simpl; lia.
Qed.

Lemma sample_rebound_ok : bindings_ok sample_rebound.
Proof. apply bind_resource_ok; [apply sample_bindings_ok|]. unfold binding_ok, umax; simpl; lia. Qed.

(** Validating bindings never panics, and accepts them exactly when every
    planned resource is bound to at least its size, every scalar slot to exactly
    its size, and no two bound ranges overlap. *)
Theorem bindings_validate_exact b plan :
  bindings_ok b →
  bindings_validate b plan ≠ Panic ∧ (bindings_validate b plan = Done tt ↔ bindings_valid b plan).
Proof. apply validate_spec. Qed.

Lemma bindings_validate_exact_witness : bindings_valid sample_bindings sample_plan.
Proof.
  apply (bindings_validate_exact sample_bindings sample_plan sample_bindings_ok).
  vm_compute. reflexivity.
Defined.

(** C31: a compiled plan on validated bindings has no race at the level of device
    addresses: if two dispatches access a common address and one of them writes
    it, then one depends on the other. *)
Theorem no_address_race sha256 r o plan b i j ni nj x y address :
  recorder_wf r → plan_compile sha256 r o = Done plan →
  bindings_ok b → bindings_validate b plan = Done tt →
  i ≠ j → rec_nodes r !! i = Some ni → rec_nodes r !! j = Some nj →
  x ∈ node_accesses ni → y ∈ node_accesses nj →
  region_ok (acc_region x) → region_ok (acc_region y) →
  acc_mode x = WriteMode ∨ acc_mode y = WriteMode →
  region_address b (acc_region x) address → region_address b (acc_region y) address →
  depends r (rid r i) (rid r j) ∨ depends r (rid r j) (rid r i).
Proof.
  intros Hwf Hc Hb Hbv Hne Hni Hnj Hx Hy Hxo Hyo Hw Hax Hay.
  destruct (plan_compile_Done _ _ _ _ Hwf Hc) as (_ & Hf & order & Hcp).
  apply (Hf i j ni nj Hne Hni Hnj). exists x, y. split_and!; [done..|]. split; [|done].
  apply (regions_share_address b plan); [by apply validate_spec| | |by exists address].
  - eapply in_bounds_planned; [done..|]. eapply (wf_regions _ Hwf ni); [by eapply list_elem_of_lookup_2|done].
  - eapply in_bounds_planned; [done..|]. eapply (wf_regions _ Hwf nj); [by eapply list_elem_of_lookup_2|done].
Qed.

Lemma no_address_race_witness :
  depends sample (rid sample 0) (rid sample 2) ∨ depends sample (rid sample 2) (rid sample 0).
Proof.
  eapply (no_address_race sample_sha256 sample sample_options sample_plan sample_bindings 0 2 _ _
    (access_write (mkRegion sample_a 0 64)) (access_read (mkRegion sample_a 32 32)) 4140).
  - exact sample_wf.
  - exact sample_plan_compiles.
  - exact sample_bindings_ok.
  - vm_compute. reflexivity.
  - discriminate.
  - vm_compute. reflexivity.
  - vm_compute. reflexivity.
  - simpl. left.
  - simpl. left.
  - apply (bool_decide_unpack _). vm_compute. exact I.
  - apply (bool_decide_unpack _). vm_compute. exact I.
  - left. reflexivity.
  - eexists. split; [vm_compute; reflexivity|]. unfold region_end. simpl. lia.
  - eexists. split; [vm_compute; reflexivity|]. unfold region_end. simpl. lia.
Defined.

(** A stamp captured for a compiled plan decides what a replay may reuse:
    checking it always returns; it is accepted exactly when the new bindings are
    valid, their layout hash is the captured one and every kernel artifact of the
    plan is still the catalogued one; and then it asks to rebind precisely the
    resources whose revision changed. *)
Theorem stamp_validate_exact sha256 r o plan b0 b artifacts stamp :
  recorder_wf r → plan_compile sha256 r o = Done plan →
  bindings_ok b0 → bindings_ok b → stamp_capture sha256 plan b0 = Done stamp →
  let out := stamp_validate sha256 stamp plan b artifacts in
  out ≠ Panic ∧
  ∀ state, out = Done state ↔ stamp_matches sha256 plan b0 b artifacts ∧
    state = (if is_empty (moved b0 b (plan_resources plan)) then Current
             else NeedsRebind (moved b0 b (plan_resources plan))).
Proof.
  intros Hwf Hc H0 Hb Hcap. destruct (plan_compile_Done _ _ _ _ Hwf Hc) as (Hok & _ & order & Hcp).
  apply stamp_validate_spec; [|done..]. by eapply compiled_consistent.
Qed.

Lemma stamp_validate_exact_witness :
  ∃ stamp, stamp_capture sample_sha256 sample_plan sample_bindings = Done stamp ∧
    stamp_validate sample_sha256 stamp sample_plan sample_rebound [] = Done (NeedsRebind [sample_b]).
Proof.
  eexists. split; [vm_compute; reflexivity|].
  edestruct (stamp_validate_exact sample_sha256 sample sample_options sample_plan sample_bindings
    sample_rebound []) as [_ H];
    [exact sample_wf|exact sample_plan_compiles|exact sample_bindings_ok|exact sample_rebound_ok
    |vm_compute; reflexivity|].
  apply H. split; [|vm_compute; reflexivity]. split.
  - apply (validate_spec sample_rebound sample_plan sample_rebound_ok). vm_compute. reflexivity.
  - vm_compute. reflexivity.
  - intros d i Hd Hi. exfalso.
    assert (Forall (λ d, launch_artifact_identity (pd_launch d) = None) (plan_dispatches sample_plan)) as Hn.
    { vm_compute. repeat constructor. }
    rewrite Forall_forall in Hn. rewrite (Hn d Hd) in Hi. discriminate.
Defined.
