(* ===== verification/Selection.v ===== *)
(** * Backend selection and the prepared-plan cache ([selection.rs])

    The gate that decides which backend the Auto mode may use, and the cache of
    prepared plans whose entries a queue fault poisons. *)

From S2P Require Import Prelude BTree F64 Ir Identity Recorder Plan PlanOrder PlanCompile Bindings.

(** ** Automatic selection *)

Inductive BackendKind := HipSerial | HipMultiStream | DirectAql.

#[export] Instance BackendKind_eq_dec : EqDecision BackendKind.
Proof. solve_decision. Defined.

Record BackendEvidence := mkEvidence {
  ev_backend : BackendKind;
  ev_speedup_over_hip_serial : Z;
  ev_parity_passed : bool;
  ev_guards_passed : bool;
  ev_same_artifact : bool;
  ev_automatic_clocks : bool;
  ev_gpu_timestamps_verified : bool;
  ev_poisoned : bool
}.

Definition certified (backend : BackendKind) (speedup : Z) : BackendEvidence :=
  mkEvidence backend speedup true true true true true false.

Definition passes_gates (e : BackendEvidence) : bool :=
  f64_is_finite (ev_speedup_over_hip_serial e)
  && f64_lt 0 (ev_speedup_over_hip_serial e)
  && ev_parity_passed e && ev_guards_passed e && ev_same_artifact e
  && ev_automatic_clocks e && ev_gpu_timestamps_verified e && negb (ev_poisoned e).

Record AutoPolicy := mkPolicy { pol_minimum_speedup : Z; pol_minimum_independent_runs : nat }.
Definition policy_default : AutoPolicy := mkPolicy f64_1_03 2.

(** The two message shapes of [AutoDecision::reason]. *)
Inductive AutoReason := ClearedEveryRun (backend : BackendKind) (minimum_speedup : Z) | NoneCleared.

Record AutoDecision := mkDecision {
  dec_selected : BackendKind;
  dec_lower_bound_speedup : Z;
  dec_reason : AutoReason
}.

Definition runs_of (evidence : list BackendEvidence) (backend : BackendKind) : list BackendEvidence :=
  filter (λ run, ev_backend run = backend) evidence.

Definition lower_bound (runs : list BackendEvidence) : Z :=
  foldl f64_min f64_infinity (ev_speedup_over_hip_serial <$> runs).

Definition candidate (p : AutoPolicy) (evidence : list BackendEvidence) (backend : BackendKind) :
    option (BackendKind * Z) :=
  let runs := runs_of evidence backend in
  if bool_decide (length runs < pol_minimum_independent_runs p)
     || existsb (λ run, negb (passes_gates run)) runs then None
  else
    let lower := lower_bound runs in
    if f64_ge lower (pol_minimum_speedup p) then Some (backend, lower) else None.

Definition decide_backend (p : AutoPolicy) (evidence : list BackendEvidence) : AutoDecision :=
  let passing := filter_map (candidate p evidence) [DirectAql; HipMultiStream] in
  match sort_by (λ left right, f64_total_cmp right.2 left.2) passing with
  | (selected, lower) :: _ =>
      mkDecision selected lower (ClearedEveryRun selected (pol_minimum_speedup p))
  | [] => mkDecision HipSerial f64_one NoneCleared
  end.

(** ** The prepared-plan cache *)

Record PlanCacheKey := mkKey {
  key_plan : list Z;
  key_binding_layout : list Z;
  key_artifacts : list Z;
  key_device : rstr;
  key_backend : BackendKind
}.

Definition backend_rank (b : BackendKind) : nat :=
  match b with HipSerial => 0 | HipMultiStream => 1 | DirectAql => 2 end.
Definition cache_key_tuple (k : PlanCacheKey) : list Z * list Z * list Z * list Z * nat :=
  (key_plan k, key_binding_layout k, key_artifacts k, key_device k, backend_rank (key_backend k)).

#[export] Instance cache_key_tuple_inj : Inj (=) (=) cache_key_tuple.
Proof.
  intros [p1 l1 a1 d1 b1] [p2 l2 a2 d2 b2]. unfold cache_key_tuple; simpl.
  intros [= -> -> -> -> Hb]. by destruct b1, b2.
Qed.
#[export] Instance cmp_PlanCacheKey : Cmp PlanCacheKey := cmp_via cache_key_tuple.
#[export] Instance cmp_PlanCacheKey_ok : CmpOk PlanCacheKey := cmp_via_ok cache_key_tuple.
#[export] Instance PlanCacheKey_eq_dec : EqDecision PlanCacheKey.
Proof. solve_decision. Defined.

Definition cache_key_new (sha256 : list Z → Sha256Digest) (plan : CompiledPlan) (b : ReplayBindings)
    (device : rstr) (backend : BackendKind) : exec ReplayBindingError PlanCacheKey :=
  let hash := sha256 (lit "redline-plan-artifacts-v1" ++ [0%Z]
    ++ (plan_artifact_identities plan ≫= λ '(kernel, identity),
          put_bytes (utf8 kernel) ++ ident_code_object identity ++ ident_symbol_text identity
          ++ put_u64 (ident_generation identity))) in
  binding_layout ← layout_fingerprint sha256 b plan;
  Done (mkKey (plan_fingerprint plan) binding_layout hash device backend).

Inductive PlanCacheError := AlreadyPresent | Missing | Poisoned.

Section cache.
Context {T : Type}.

Record CacheEntry := mkEntry { entry_value : T; entry_poisoned : bool }.

Abbreviation cache := (list (PlanCacheKey * CacheEntry)).

Definition cache_new : cache := [].

Definition cache_insert (c : cache) (key : PlanCacheKey) (value : T) : result PlanCacheError cache :=
  match bmap_get key c with
  | Some _ => Err AlreadyPresent
  | None => Ok (bmap_insert key (mkEntry value false) c)
  end.

(** [get_mut] yields a reference to the value of a healthy entry. *)
Definition cache_get_mut (c : cache) (key : PlanCacheKey) : result PlanCacheError T :=
  entry ← ok_or (bmap_get key c) Missing;
  if (entry_poisoned entry : bool) then Err Poisoned else Ok (entry_value entry).

(** Writing [value] through that reference. *)
Definition cache_write (c : cache) (key : PlanCacheKey) (value : T) : result PlanCacheError cache :=
  _ ← cache_get_mut c key;
  Ok (bmap_insert key (mkEntry value false) c).

Definition cache_poison (c : cache) (key : PlanCacheKey) : result PlanCacheError cache :=
  entry ← ok_or (bmap_get key c) Missing;
  Ok (bmap_insert key (mkEntry (entry_value entry) true) c).

Definition cache_remove (c : cache) (key : PlanCacheKey) : cache * option T :=
  (bmap_remove key c, entry_value <$> bmap_get key c).
End cache.
Arguments CacheEntry : clear implicits.
Arguments cache_new {T} : simpl never.

(** ** Selection fails closed *)

Lemma passes_gates_pos e : passes_gates e = true → f64_pos (ev_speedup_over_hip_serial e).
Proof.
  unfold passes_gates, f64_lt, f64_is_finite. rewrite !andb_true_iff, Z.ltb_lt, Z.ltb_lt.
  intros [[[[[[[Hfin [_ Hpos]] _] _] _] _] _] _]. change (f64_order 0) with 0%Z in Hpos.
  unfold f64_order, f64_pos in *. pose proof (Z.mod_pos_bound (ev_speedup_over_hip_serial e) (2 ^ 63)).
  unfold f64_magnitude in *. destruct (f64_sign _); lia.
Qed.

Lemma fold_min_spec l : ∀ acc,
  f64_pos acc → Forall f64_pos l →
  let r := foldl f64_min acc l in
  f64_pos r ∧ (∀ x, x = acc ∨ x ∈ l → f64_order r ≤ f64_order x)%Z ∧ (r = acc ∨ r ∈ l).
Proof.
  induction l as [|x l IH]; intros acc Ha Hl; simpl.
  { split; [done|]. split; [|by left]. intros y [->|Hy]; [done|set_solver]. }
  apply Forall_cons in Hl as [Hx Hl].
  destruct (f64_min_pos acc x Ha Hx) as (Hp & H1 & H2 & H3).
  destruct (IH (f64_min acc x) Hp Hl) as (Hr & Hle & Hor). split; [done|]. split.
  - pose proof (Hle (f64_min acc x) (or_introl eq_refl)) as Hm.
    intros y [->|[->|Hy]%elem_of_cons]; [lia|lia|]. apply Hle. by right.
  - destruct Hor as [->|Hor]; [|set_solver]. destruct H3 as [->| ->]; set_solver.
Qed.

Lemma lower_bound_spec runs :
  (∀ run, run ∈ runs → passes_gates run = true) →
  f64_pos (lower_bound runs) ∧
  (∀ run, run ∈ runs → f64_order (lower_bound runs) ≤ f64_order (ev_speedup_over_hip_serial run))%Z ∧
  (lower_bound runs = f64_infinity ∧ runs = [] ∨
   ∃ run, run ∈ runs ∧ lower_bound runs = ev_speedup_over_hip_serial run).
Proof.
  intros Hall. unfold lower_bound.
  destruct (fold_min_spec (ev_speedup_over_hip_serial <$> runs) f64_infinity) as (Hp & Hle & Hor).
  { split; [done|]. vm_compute. done. }
  { apply Forall_fmap, Forall_forall. intros run Hr. by apply passes_gates_pos, Hall. }
  split; [done|]. split.
  - intros run Hr. apply Hle. right. by apply list_elem_of_fmap_2.
  - destruct runs as [|e runs]; [by left|right].
    destruct Hor as [Hinf|(run & Hr & Hin)%list_elem_of_fmap]; [|eauto].
    exfalso. assert (passes_gates e = true) as He by (apply Hall; set_solver).
    pose proof (Hle (ev_speedup_over_hip_serial e)) as Hee. rewrite Hinf in Hee.
    rewrite (proj1 (f64_pos_order _ (passes_gates_pos e He))) in Hee.
    change (f64_order f64_infinity) with f64_infinity in Hee.
    unfold passes_gates, f64_is_finite in He. rewrite !andb_true_iff, Z.ltb_lt in He. destruct_and!.
    enough (f64_infinity ≤ f64_magnitude (ev_speedup_over_hip_serial e))%Z by lia.
    apply Hee. right. set_solver.
Qed.

(** A backend qualifies: enough runs, all of them certified, and every one of
    them at least as fast as the policy demands. *)
Definition qualifies (p : AutoPolicy) (evidence : list BackendEvidence) (backend : BackendKind) : Prop :=
  let runs := runs_of evidence backend in
  pol_minimum_independent_runs p ≤ length runs ∧
  (∀ run, run ∈ runs → passes_gates run = true ∧
     f64_ge (ev_speedup_over_hip_serial run) (pol_minimum_speedup p) = true) ∧
  (runs = [] → f64_ge f64_infinity (pol_minimum_speedup p) = true).

Lemma candidate_spec p evidence backend :
  (qualifies p evidence backend ∧
    candidate p evidence backend = Some (backend, lower_bound (runs_of evidence backend))) ∨
  (¬ qualifies p evidence backend ∧ candidate p evidence backend = None).
Proof.
  unfold candidate, qualifies. set (runs := runs_of evidence backend).
  case_bool_decide as Hlen; simpl; [right; split; [intros [? _]; lia|done]|].
  destruct (existsb _ runs) eqn:Hex.
  { right. split; [|done]. intros (_ & Hall & _). apply existsb_exists in Hex as (run & Hr & Hn).
    apply list_elem_of_In in Hr. destruct (Hall run Hr) as [Hp _]. by rewrite Hp in Hn. }
  assert (∀ run, run ∈ runs → passes_gates run = true) as Hall.
  { intros run Hr. destruct (passes_gates run) eqn:E; [done|]. exfalso.
    enough (existsb (λ run, negb (passes_gates run)) runs = true) by congruence.
    apply existsb_exists. exists run. rewrite E. split; [by apply list_elem_of_In|done]. }
  destruct (lower_bound_spec runs Hall) as (Hpos & Hle & Hor).
  assert (∀ run, run ∈ runs → f64_ge (ev_speedup_over_hip_serial run) (lower_bound runs) = true) as Hge.
  { intros run Hr. unfold f64_ge. rewrite !f64_pos_not_nan; [|done|by apply passes_gates_pos, Hall].
    simpl. apply Z.leb_le. by apply Hle. }
  destruct (f64_ge (lower_bound runs) (pol_minimum_speedup p)) eqn:E.
  - left. split; [|done]. split; [lia|]. split.
    + intros run Hr. split; [by apply Hall|]. eapply f64_ge_trans; [by apply Hge|done].
    + intros Hn. destruct Hor as [[<- _]|(run & Hr & _)]; [done|]. rewrite Hn in Hr. set_solver.
  - right. split; [|done]. intros (_ & Hq & Hn).
    destruct Hor as [[Hinf Hnil]|(run & Hr & Heq)].
    + rewrite Hinf in E. rewrite Hn in E by done. done.
    + destruct (Hq run Hr) as [_ Hq']. rewrite <-Heq in Hq'. congruence.
Qed.

(** ** The cache as a state machine *)

Section cache_machine.
Context {T : Type}.
Abbreviation cache := (list (PlanCacheKey * CacheEntry T)).

(** The calls on the cache, other than removing [kept]. *)
Inductive cache_step (kept : PlanCacheKey) : relation cache :=
| cstep_insert c key value c' : cache_insert c key value = Ok c' → cache_step kept c c'
| cstep_write c key value c' : cache_write c key value = Ok c' → cache_step kept c c'
| cstep_poison c key c' : cache_poison c key = Ok c' → cache_step kept c c'
| cstep_remove c key : key ≠ kept → cache_step kept c (cache_remove c key).1.

Definition poisoned_at (key : PlanCacheKey) (c : cache) : Prop :=
  ∃ v, bmap_get key c = Some (mkEntry v true).

Lemma poisoned_insert_other key key' e (c : cache) :
  key' ≠ key → poisoned_at key c → poisoned_at key (bmap_insert key' e c).
Proof. intros Hne [v Hv]. exists v. by rewrite bmap_get_insert_ne. Qed.

Lemma cache_poison_spec c key c' :
  cache_poison c key = Ok c' → poisoned_at key c'.
Proof.
  unfold cache_poison. intros ?. invert_ok. subst. eexists. by rewrite bmap_get_insert_eq.
Qed.

Lemma cache_step_poisoned key c c' :
  cache_step key c c' → poisoned_at key c → poisoned_at key c'.
Proof.
  intros Hstep Hp. destruct Hstep as [c k v c' H|c k v c' H|c k c' H|c k Hne];
    [| | |destruct Hp as [v Hv]; exists v; simpl; by rewrite bmap_get_remove_ne].
  - unfold cache_insert in H. destruct (bmap_get k c) eqn:E; [done|]. injection H as <-.
    apply poisoned_insert_other; [|done]. intros ->. destruct Hp as [w Hw]. congruence.
  - unfold cache_write, cache_get_mut in H. invert_ok. subst.
    match goal with H : bmap_get _ _ = Some ?e |- _ => destruct (entry_poisoned e) eqn:E; [done|] end.
    apply poisoned_insert_other; [|done]. intros ->. destruct Hp as [w Hw]. naive_solver.
  - destruct (decide (k = key)) as [->|Hne]; [by eapply cache_poison_spec|].
    unfold cache_poison in H. invert_ok. subst. by apply poisoned_insert_other.
Qed.

Lemma poisoned_refuses key (c : cache) :
  poisoned_at key c →
  cache_get_mut c key = Err Poisoned ∧ (∀ v, cache_insert c key v = Err AlreadyPresent) ∧
  (∀ v, cache_write c key v = Err Poisoned).
Proof.
  intros [v Hv]. unfold cache_write, cache_get_mut, cache_insert. rewrite Hv. done.
Qed.
End cache_machine.

(** ** Main results *)

(** Automatic selection fails closed: an accelerated backend is chosen only
    if it has enough runs, each of them certified and at least as fast as the
    threshold, and then its slowest run is at least as fast as that of any other
    backend that qualifies; otherwise HIP serial is chosen. *)
Theorem decide_backend_exact p evidence :
  let d := decide_backend p evidence in
  (dec_selected d = HipSerial ∧ ∀ b, b ≠ HipSerial → ¬ qualifies p evidence b) ∨
  (dec_selected d ≠ HipSerial ∧ qualifies p evidence (dec_selected d) ∧
    dec_lower_bound_speedup d = lower_bound (runs_of evidence (dec_selected d)) ∧
    ∀ b, b ≠ HipSerial → qualifies p evidence b →
      (f64_order (lower_bound (runs_of evidence b)) ≤ f64_order (dec_lower_bound_speedup d))%Z).
Proof.
  assert (∀ b, qualifies p evidence b → f64_pos (lower_bound (runs_of evidence b))) as Hpos.
  { intros b (_ & Hall & _). apply lower_bound_spec. intros run Hr. by apply Hall. }
  unfold decide_backend, sort_by; cbn [filter_map].
  destruct (candidate_spec p evidence DirectAql) as [[Hd ->]|[Hd ->]],
    (candidate_spec p evidence HipMultiStream) as [[Hm ->]|[Hm ->]];
    cbn [foldl insert_by fst snd].
  - right. pose proof (f64_pos_order _ (Hpos _ Hd)) as [Hod Hkd].
    pose proof (f64_pos_order _ (Hpos _ Hm)) as [Hom Hkm].
    unfold f64_total_cmp. rewrite Hkd, Hkm.
    destruct (Z.compare_spec (f64_magnitude (lower_bound (runs_of evidence HipMultiStream)))
                (f64_magnitude (lower_bound (runs_of evidence DirectAql)))); simpl;
      (split_and!; [done..|]); intros [] ? ?; try done; lia.
  - right. split_and!; [done..|]. intros []; naive_solver.
  - right. split_and!; [done..|]. intros []; naive_solver.
  - left. split; [done|]. intros []; naive_solver.
Qed.

(** A poisoned cache entry stays poisoned: whatever calls follow, short of
    removing that key, its value is not handed out, replaced or written. *)
Theorem cache_poison_sticky (T : Type) (c c1 c2 : list (PlanCacheKey * CacheEntry T)) key :
  cache_poison c key = Ok c1 → rtc (cache_step key) c1 c2 →
  cache_get_mut c2 key = Err Poisoned ∧ (∀ v, cache_insert c2 key v = Err AlreadyPresent) ∧
  (∀ v, cache_write c2 key v = Err Poisoned).
Proof.
  intros Hp%cache_poison_spec Hs. apply poisoned_refuses.
  induction Hs as [|? ? ? Hstep _ IH]; [done|]. apply IH. by eapply cache_step_poisoned.
Qed.

Lemma cache_poison_sticky_witness :
  let k1 := mkKey [1%Z] [2%Z] [3%Z] (lit "gfx1100") DirectAql in
  let k2 := mkKey [1%Z] [2%Z] [3%Z] (lit "gfx1100") HipMultiStream in
  let c := bmap_insert k2 (mkEntry 5 false) (bmap_insert k1 (mkEntry 4 true) []) in
  cache_get_mut c k1 = Err Poisoned.
Proof.
  intros k1 k2 c. eapply (cache_poison_sticky nat [(k1, mkEntry 4 false)] [(k1, mkEntry 4 true)] c k1).
  - vm_compute. reflexivity.
  - apply rtc_once. apply (cstep_insert k1 _ k2 5). vm_compute. reflexivity.
Defined.

(** Removing a key hands its value out even when the entry is poisoned, and
    frees the key for a fresh insertion. *)
Example remove_returns_poisoned :
  let k := mkKey [1%Z] [2%Z] [3%Z] (lit "gfx1100") DirectAql in
  cache_remove [(k, mkEntry 4 true)] k = ([], Some 4).
Proof. vm_compute. reflexivity. Qed.

(** A policy that asks for no runs selects an accelerated backend without any
    evidence, with an infinite lower bound. *)
Example no_runs_required :
  decide_backend (mkPolicy f64_1_03 0) [] =
  mkDecision DirectAql f64_infinity (ClearedEveryRun DirectAql f64_1_03).
Proof. vm_compute. reflexivity. Qed.

(** The default policy takes the worst of at least two certified runs. *)
Example default_policy_decides :
  decide_backend policy_default
    [certified DirectAql 4609434218613702656; certified HipMultiStream 4609434218613702656;
     certified DirectAql 4607632778762754458] =
  mkDecision DirectAql 4607632778762754458 (ClearedEveryRun DirectAql f64_1_03).
Proof. vm_compute. reflexivity. Qed.
