(* ===== verification/Visibility.v ===== *)
(** * AQL visibility and barriers ([visibility.rs])

    Headers for the packets of a compiled plan: a barrier only where the open
    epoch of the queue holds something the dispatch depends on or conflicts with,
    and fences only around read-after-write pairs and the plan's boundary. *)

From S2P Require Import Prelude BTree Packet Ir Identity Recorder Plan.

Inductive EntryBoundary := EntryHostToAql | EntryHipToAql | EntryAqlToAql.
Inductive ExitBoundary := ExitAqlToHost | ExitAqlToHip | ExitAqlToAql.
Record ApiBoundary := mkBoundary { bnd_entry : EntryBoundary; bnd_exit : ExitBoundary }.
Definition boundary_default : ApiBoundary := mkBoundary EntryHostToAql ExitAqlToHost.

Inductive VisibilityReason :=
| ReasonEntry (b : EntryBoundary)
| RawProducer (consumer : NodeId) (overlap : DeviceRegion)
| RawConsumer (producer : NodeId) (overlap : DeviceRegion)
| ReasonExit (b : ExitBoundary).

Inductive OrderReason :=
| OrderedAfter (node : NodeId)
| CrossLaneDependency (node : NodeId)
| MemoryConflict (with_ : NodeId) (kind : HazardKind) (overlap : DeviceRegion).

#[export] Instance OrderReason_eq_dec : EqDecision OrderReason.
Proof. solve_decision. Defined.

Inductive BarrierDecision :=
| BarrierRequired (reasons : list OrderReason)
| BarrierElided (adjacent_predecessor : option NodeId) (independent_of_open_epoch : list NodeId).

Record DerivedDispatchPolicy := mkPolicyOf {
  dp_node : NodeId;
  dp_lane : nat;
  dp_header : HeaderPolicy;
  dp_barrier : BarrierDecision;
  dp_acquire_reasons : list VisibilityReason;
  dp_release_reasons : list VisibilityReason
}.

Record LaneConsolidationPolicy := mkConsolidation {
  lc_lane : nat;
  lc_header : HeaderPolicy;
  lc_covered_nodes : list NodeId
}.

Record TerminalVisibilityPolicy := mkTerminal {
  tv_header : HeaderPolicy;
  tv_lanes : list nat;
  tv_reason : VisibilityReason
}.

Record DerivedVisibilityPlan := mkVisibility {
  vp_boundary : ApiBoundary;
  vp_dispatches : list DerivedDispatchPolicy;
  vp_lane_consolidations : list LaneConsolidationPolicy;
  vp_terminal : TerminalVisibilityPolicy
}.

Inductive VisibilityError :=
| EmptyPlan
| UnorderedConflict (first second : NodeId) (kind : HazardKind) (overlap : DeviceRegion).

Definition entry_scope (b : EntryBoundary) : FenceScope :=
  match b with EntryHostToAql | EntryHipToAql => FenceSystem | EntryAqlToAql => FenceAgent end.
Definition exit_scope (b : ExitBoundary) : FenceScope :=
  match b with ExitAqlToHost | ExitAqlToHip => FenceSystem | ExitAqlToAql => FenceAgent end.
Definition max_scope (left right : FenceScope) : FenceScope :=
  if (scope_u16 right <=? scope_u16 left)%Z then left else right.

(** ** Reachability over the planned dispatches *)

(** One prerequisite of [node]: [reachable[dependency][node] = true], and the
    row of [node] is added to the row of [dependency]. *)
Definition vis_reach_dependency (node : nat) (m : list (list bool)) (dependency : nat) :
    option (list (list bool)) :=
  m ← vec_update m dependency (λ row, vec_set row node true);
  descendants ← m !! node;
  vec_update m dependency (λ row, Some (row_or row descendants)).

Definition vis_reachability (dispatches : list PlannedDispatch) : option (list (list bool)) :=
  let count := length dispatches in
  foldM (λ m d, foldM (vis_reach_dependency (node_index (pd_node d))) m
                  (node_index <$> pd_dependencies d))
    (replicate count (replicate count false)) (reverse dispatches).

Definition reach_get (m : list (list bool)) (i j : nat) : option bool := row ← m !! i; row !! j.

Definition vis_conflicts (first second : PlannedDispatch) : list (HazardKind * DeviceRegion) :=
  access_conflicts (pd_accesses first) (pd_accesses second).

(** ** The conflict check *)

Definition check_pair (dispatches : list PlannedDispatch) (m : list (list bool)) (ij : nat * nat) :
    exec VisibilityError unit :=
  first ← unwrap (dispatches !! ij.1);
  second ← unwrap (dispatches !! ij.2);
  for_exec (λ '(kind, overlap),
      reached ← unwrap (reach_get m (node_index (pd_node first)) (node_index (pd_node second)));
      if (reached : bool) then Done tt
      else Fail (UnorderedConflict (pd_node first) (pd_node second) kind overlap))
    (vis_conflicts first second).

Definition validate_ordered_conflicts (dispatches : list PlannedDispatch) (m : list (list bool)) :
    exec VisibilityError unit :=
  for_exec (check_pair dispatches m) (index_pairs (length dispatches)).

(** ** Read-after-write pairs *)

Abbreviation reason_table := (list (list VisibilityReason)).

Definition push_reason (t : reason_table) (i : nat) (r : VisibilityReason) : option reason_table :=
  vec_update t i (λ l, Some (l ++ [r])).

Definition raw_pair (dispatches : list PlannedDispatch) (m : list (list bool))
    (st : reason_table * reason_table) (ij : nat * nat) : option (reason_table * reason_table) :=
  first ← dispatches !! ij.1;
  second ← dispatches !! ij.2;
  reached ← reach_get m (node_index (pd_node first)) (node_index (pd_node second));
  if (reached : bool) then
    foldM (λ '(acquire, release) '(kind, overlap),
        if decide (kind = ReadAfterWrite) then
          release ← push_reason release ij.1 (RawProducer (pd_node second) overlap);
          acquire ← push_reason acquire ij.2 (RawConsumer (pd_node first) overlap);
          Some (acquire, release)
        else Some (acquire, release))
      st (vis_conflicts first second)
  else Some st.

Definition derive_raw_visibility (dispatches : list PlannedDispatch) (m : list (list bool)) :
    option (reason_table * reason_table) :=
  foldM (raw_pair dispatches m)
    (replicate (length dispatches) [], replicate (length dispatches) [])
    (index_pairs (length dispatches)).

(** ** Barriers *)

Definition push_unique {A} `{EqDecision A} (l : list A) (x : A) : list A :=
  if decide (x ∈ l) then l else l ++ [x].

Definition lanes_by_node (dispatches : list PlannedDispatch) : option (list nat) :=
  foldM (λ lanes d, vec_set lanes (node_index (pd_node d)) (pd_lane d))
    (replicate (length dispatches) 0) dispatches.

Definition cross_lane_reasons (lane_by_node : list nat) (d : PlannedDispatch) :
    option (list OrderReason) :=
  foldM (λ reasons dependency,
      lane ← lane_by_node !! node_index dependency;
      Some (if decide (lane = pd_lane d) then reasons
            else push_unique reasons (CrossLaneDependency dependency)))
    [] (pd_dependencies d).

Definition epoch_reasons (dispatches : list PlannedDispatch) (m : list (list bool))
    (d : PlannedDispatch) (reasons : list OrderReason) (epoch : list nat) :
    option (list OrderReason) :=
  foldM (λ reasons prior_index,
      prior ← dispatches !! prior_index;
      reached ← reach_get m (node_index (pd_node prior)) (node_index (pd_node d));
      let reasons := if (reached : bool) then push_unique reasons (OrderedAfter (pd_node prior))
                     else reasons in
      Some (foldl (λ reasons '(kind, overlap),
              push_unique reasons (MemoryConflict (pd_node prior) kind overlap))
            reasons (vis_conflicts prior d)))
    reasons epoch.

Record LaneState := mkLanes {
  ls_epochs : list (list nat);
  ls_nodes : list (list NodeId);
  ls_previous : list (option NodeId)
}.

(** The body of the loop over the dispatches, for dispatch [i]. *)
Definition derive_dispatch (dispatches : list PlannedDispatch) (m : list (list bool))
    (lane_by_node : list nat) (acquire_reasons release_reasons : reason_table)
    (boundary : ApiBoundary) (st : LaneState) (i : nat) (d : PlannedDispatch) :
    option (LaneState * DerivedDispatchPolicy) :=
  let lane := pd_lane d in
  epoch ← ls_epochs st !! lane;
  reasons ← cross_lane_reasons lane_by_node d;
  reasons ← epoch_reasons dispatches m d reasons epoch;
  previous ← ls_previous st !! lane;
  independent ← mapM (λ index, pd_node <$> dispatches !! index) epoch;
  let barrier := negb (is_empty reasons) in
  let decision := if is_empty reasons then BarrierElided previous independent
                  else BarrierRequired reasons in
  acquired ← acquire_reasons !! i;
  released ← release_reasons !! i;
  nodes ← ls_nodes st !! lane;
  let acquire := if is_empty acquired then FenceNone else FenceAgent in
  let acquire' := if is_empty nodes then max_scope acquire (entry_scope (bnd_entry boundary))
                  else acquire in
  let acquired' := if is_empty nodes then ReasonEntry (bnd_entry boundary) :: acquired
                   else acquired in
  let release := if is_empty released then FenceNone else FenceAgent in
  let epoch' := (if barrier then [] else epoch) ++ [i] in
  epochs ← vec_set (ls_epochs st) lane epoch';
  nodes ← vec_set (ls_nodes st) lane (nodes ++ [pd_node d]);
  previous ← vec_set (ls_previous st) lane (Some (pd_node d));
  Some (mkLanes epochs nodes previous,
        mkPolicyOf (pd_node d) lane (mkHeader barrier acquire' release) decision acquired' released).

Definition derive_dispatches (dispatches : list PlannedDispatch) (m : list (list bool))
    (lane_by_node : list nat) (acquire_reasons release_reasons : reason_table)
    (boundary : ApiBoundary) (lane_count : nat) :
    option (LaneState * list DerivedDispatchPolicy) :=
  foldM (λ '(st, derived) '(i, d),
      '(st, p) ← derive_dispatch dispatches m lane_by_node acquire_reasons release_reasons
                   boundary st i d;
      Some (st, derived ++ [p]))
    (mkLanes (replicate lane_count []) (replicate lane_count []) (replicate lane_count None), [])
    (enumerate dispatches).

Definition consolidation_header : HeaderPolicy := mkHeader true FenceNone FenceNone.

Definition lane_consolidations (lane_nodes : list (list NodeId)) : list LaneConsolidationPolicy :=
  filter_map (λ '(lane, covered),
      if is_empty covered then None else Some (mkConsolidation lane consolidation_header covered))
    (enumerate lane_nodes).

Definition derive_aql_visibility (plan : CompiledPlan) (boundary : ApiBoundary) :
    exec VisibilityError DerivedVisibilityPlan :=
  let dispatches := plan_dispatches plan in
  if is_empty dispatches then Fail EmptyPlan
  else
    m ← unwrap (vis_reachability dispatches);
    _ ← validate_ordered_conflicts dispatches m;
    '(acquire_reasons, release_reasons) ← unwrap (derive_raw_visibility dispatches m);
    lane_by_node ← unwrap (lanes_by_node dispatches);
    '(st, derived) ← unwrap (derive_dispatches dispatches m lane_by_node acquire_reasons
                               release_reasons boundary (Pos.to_nat (plan_lane_count plan)));
    let consolidations := lane_consolidations (ls_nodes st) in
    Done (mkVisibility boundary derived consolidations
            (mkTerminal (mkHeader true FenceNone (exit_scope (bnd_exit boundary)))
               (lc_lane <$> consolidations) (ReasonExit (bnd_exit boundary)))).
