(* ===== verification/VisibilityOk.v ===== *)
(** * Deriving visibility for a compiled plan succeeds and is sound

    The derivation never panics and never finds an unordered conflict on a plan
    that was compiled, and its barriers separate every two dispatches of a lane
    that depend on each other or conflict. *)

From S2P Require Import Prelude BTree Packet Ir Identity Recorder Plan PlanOrder PlanCompile Visibility.

(** ** Reachability *)

Lemma reach_at_insert n m i row j k :
  matrix_dims n m → i < n →
  reach_at (<[i:=row]> m) j k = if decide (j = i) then default false (row !! k) else reach_at m j k.
Proof.
  intros Hdim Hi. unfold reach_at. case_decide as Hd.
  - subst. by rewrite list_lookup_insert_eq by (rewrite (md_rows _ _ Hdim); done).
  - by rewrite list_lookup_insert_ne.
Qed.

Lemma default_row_or row o k :
  length row = length o →
  default false (row_or row o !! k) = default false (row !! k) || default false (o !! k).
Proof.
  intros Hl. destruct (row !! k) as [a|] eqn:Ha.
  - destruct (lookup_lt_is_Some_2 o k) as [b Hb]; [rewrite <-Hl; by eapply lookup_lt_Some|].
    by rewrite (lookup_row_or _ _ _ a b), Hb.
  - apply lookup_ge_None in Ha. rewrite !lookup_ge_None_2; [done|lia|]. rewrite length_row_or. lia.
Qed.

Lemma vis_reach_dependency_spec n node m p :
  matrix_dims n m → node < n → p < n → p ≠ node →
  ∃ m', vis_reach_dependency node m p = Some m' ∧ matrix_dims n m' ∧
    ∀ i j, j < n → reach_at m' i j = true ↔
      reach_at m i j = true ∨ (i = p ∧ (j = node ∨ reach_at m node j = true)).
Proof.
  intros Hdim Hnode Hp Hne.
  destruct (matrix_lookup n m p Hdim Hp) as (row & Hrow & Hlrow).
  destruct (matrix_lookup n m node Hdim Hnode) as (nrow & Hnrow & Hlnrow).
  unfold vis_reach_dependency.
  rewrite (vec_update_lookup _ _ _ row (<[node:=true]> row)); [|done|apply vec_set_lt; lia].
  cbn [mbind option_bind]. rewrite list_lookup_insert_ne, Hnrow by done. cbn [mbind option_bind].
  erewrite vec_update_lookup;
    [|apply list_lookup_insert_eq; rewrite (md_rows _ _ Hdim); lia|done].
  rewrite list_insert_insert_eq. eexists; split; [done|].
  split; [apply matrix_dims_insert; [done|]; by rewrite length_row_or, length_insert|].
  intros i j Hj. rewrite (reach_at_insert n) by done. case_decide as Hi.
  - subst i. rewrite default_row_or by (rewrite length_insert; lia). rewrite orb_true_iff.
    unfold reach_at. rewrite Hrow, Hnrow; simpl. destruct (decide (j = node)) as [->|Hjn].
    + rewrite list_lookup_insert_eq by lia. simpl. tauto.
    + rewrite list_lookup_insert_ne by done. tauto.
  - tauto.
Qed.

Lemma vis_reach_node_spec n node deps m :
  matrix_dims n m → node < n → (∀ p, p ∈ deps → p < n ∧ p ≠ node) →
  ∃ m', foldM (vis_reach_dependency node) m deps = Some m' ∧ matrix_dims n m' ∧
    ∀ i j, j < n → reach_at m' i j = true ↔
      reach_at m i j = true ∨ (i ∈ deps ∧ (j = node ∨ reach_at m node j = true)).
Proof.
  intros Hdim Hnode Hdeps.
  apply (foldM_inv (λ l m', matrix_dims n m' ∧
    ∀ i j, j < n → reach_at m' i j = true ↔
      reach_at m i j = true ∨ (i ∈ l ∧ (j = node ∨ reach_at m node j = true)))).
  - split; [done|]. intros. set_solver.
  - intros l1 p l2 m1 Heq [Hdim1 Hat1]. destruct (Hdeps p) as [Hp Hne]; [rewrite Heq; set_solver|].
    destruct (vis_reach_dependency_spec n node m1 p) as (m2 & Hm2 & Hdim2 & Hat2); [done..|].
    exists m2. split; [done|]. split; [done|]. intros i j Hj. rewrite Hat2, !Hat1 by done.
    assert (node ∉ l1) as Hnl.
    { intros Hin. destruct (Hdeps node) as [_ ?]; [rewrite Heq; set_solver|done]. }
    rewrite elem_of_app, list_elem_of_singleton. tauto.
Qed.

(** The edges out of [i] that lead to a visited node have been followed. *)
Lemma vis_reachability_spec r lanes order ds :
  recorder_shape r → topo_order r order → schedule_ok r lanes order ds →
  ∃ m, vis_reachability ds = Some m ∧ reach_matrix r m.
Proof.
  intros Hshape Hto [Hmap Hall].
  assert (length ds = length (rec_nodes r)) as Hlen.
  { rewrite <-(length_fmap pd_node ds), Hmap. by apply topo_order_length. }
  unfold vis_reachability. rewrite Hlen. set (n := length (rec_nodes r)).
  destruct (foldM_inv (λ l m, matrix_dims n m ∧
      ∀ x j, valid_id r x → j < n → reach_at m (node_index x) j = true ↔
        ∃ t, edge (rec_edges r) x t ∧ t ∈ pd_node <$> l ∧ (t = rid r j ∨ depends r t (rid r j)))
    (λ m d, foldM (vis_reach_dependency (node_index (pd_node d))) m (node_index <$> pd_dependencies d))
    (reverse ds) (replicate n (replicate n false))) as (m & Hm & Hdim & Hat).
  - split; [apply matrix_dims_zero|]. intros x j _ Hj. split; [|set_solver].
    unfold reach_at. destruct (replicate n (replicate n false) !! node_index x) as [row|] eqn:Hr; [|done].
    apply lookup_replicate in Hr as [-> _]. simpl. by rewrite lookup_replicate_2 by done.
  - intros l1 d l2 m Hrev [Hdim Hat].
    assert (ds = reverse l2 ++ d :: reverse l1) as Hds.
    { rewrite <-(reverse_involutive ds), Hrev, reverse_app, reverse_cons, <-app_assoc. done. }
    pose proof (Hall _ _ _ Hds) as Hd. set (x := pd_node d).
    assert (∀ d', d' ∈ ds → valid_id r (pd_node d')) as Hv.
    { intros d' Hd'. apply (to_nodes _ _ Hto). rewrite <-Hmap. by apply list_elem_of_fmap_2. }
    assert (valid_id r x) as Hvx by (apply Hv; rewrite Hds; set_solver).
    assert (∀ p, p ∈ pd_dependencies d ↔ edge (rec_edges r) p x) as Hdep.
    { intros p. rewrite (do_deps _ _ _ _ Hd). apply elem_of_dependencies_of. }
    destruct (vis_reach_node_spec n (node_index x) (node_index <$> pd_dependencies d) m)
      as (m' & Hm' & Hdim' & Hat'); [done|apply Hvx| |].
    { intros i (p & -> & Hp%Hdep)%list_elem_of_fmap. destruct (shape_edges _ Hshape _ _ Hp) as [Hvp _].
      split; [apply Hvp|]. intros Hi. apply (topo_order_acyclic r order Hshape Hto x).
      constructor. assert (p = x) as Hpx by (by apply (valid_index_inj r)). by rewrite Hpx in Hp. }
    exists m'. split; [done|]. split; [done|]. intros y j Hvy Hj. rewrite Hat' by done.
    rewrite fmap_app. setoid_rewrite elem_of_app. cbn [fmap list_fmap].
    setoid_rewrite list_elem_of_singleton. rewrite (Hat y j Hvy Hj).
    assert (node_index y ∈ node_index <$> pd_dependencies d ↔ edge (rec_edges r) y x) as Hin.
    { rewrite list_elem_of_fmap, <-Hdep. split; [|eauto]. intros (p & Hi & Hp).
      rewrite (valid_index_inj r y p); [done|done| |done].
      by destruct (shape_edges _ Hshape _ _ (proj1 (Hdep p) Hp)). }
    rewrite Hin, (Hat x j Hvx Hj). fold x.
    assert (∀ t, edge (rec_edges r) x t → t ∈ pd_node <$> l1) as Hafter.
    { intros t Ht. rewrite <-elem_of_reverse, <-fmap_reverse.
      destruct (shape_edges _ Hshape _ _ Ht) as [_ Hvt].
      eapply (topo_sorted_after _ order (pd_node <$> reverse l2) x); [apply Hto|apply Hto| | |by constructor].
      - by rewrite <-Hmap, Hds, fmap_app.
      - by apply (to_nodes _ _ Hto). }
    assert (∀ t, t = rid r j ↔ j = node_index t ∧ node_owner t = rec_owner r) as Hrid.
    { intros [o i]. unfold rid; simpl. naive_solver. }
    split.
    + intros [(t & Ht)|[Hyx [Hj'|(t & Ht & _ & Hor)]]].
      * exists t. tauto.
      * exists x. split; [done|]. split; [by right|]. left. apply Hrid. split; [done|apply Hvx].
      * exists x. split; [done|]. split; [by right|]. right. unfold depends.
        destruct Hor as [->|Hor]; [by constructor|by eapply tc_l].
    + intros (t & Ht & [Hl| ->] & Hor); [left; eauto|]. right. split; [done|].
      destruct Hor as [Hx|Hx]; [left; by apply Hrid in Hx as [? _]|right].
      unfold depends in Hx. apply tc_first_step in Hx as (t & Hxt & Hor). exists t.
      split; [done|]. split; [by apply Hafter|]. destruct Hor as [->|?]; [by left|by right].
  - exists m. split; [done|]. split; [done|]. intros i j Hi Hj.
    change i with (node_index (rid r i)) at 1. rewrite (Hat (rid r i) j); [|by apply valid_rid|done].
    unfold depends. rewrite tc_first_step. split.
    + intros (t & Ht & _ & Hor). eauto.
    + intros (t & Ht & Hor). exists t. split; [done|]. split; [|done].
      rewrite fmap_reverse, elem_of_reverse, Hmap. apply (to_nodes _ _ Hto).
      by destruct (shape_edges _ Hshape _ _ Ht).
Qed.

(** ** Reason tables *)

(** [t'] differs from [t] in slot [k] only, which is nonempty if it was or [P]. *)
Record grown (t t' : reason_table) (k : nat) (P : Prop) : Prop := {
  gr_length : length t' = length t;
  gr_other k' : k' ≠ k → t' !! k' = t !! k';
  gr_slot l' : t' !! k = Some l' → ∃ l, t !! k = Some l ∧ (l' ≠ [] ↔ l ≠ [] ∨ P)
}.

Lemma grown_refl t k (P : Prop) : ¬ P → grown t t k P.
Proof. intros HP. split; [done..|]. intros l Hl. exists l. tauto. Qed.

Lemma grown_push t t' k (P Q : Prop) x :
  k < length t → grown t t' k P → Q →
  ∃ t'', push_reason t' k x = Some t'' ∧ grown t t'' k Q.
Proof.
  intros Hk [Hlen Hoth Hslot] HQ. destruct (lookup_lt_is_Some_2 t' k) as [l' Hl']; [lia|].
  unfold push_reason. rewrite (vec_update_lookup _ _ _ l' (l' ++ [x])) by done.
  eexists; split; [done|]. split.
  - by rewrite length_insert.
  - intros k' Hne. rewrite list_lookup_insert_ne by done. by apply Hoth.
  - intros l'' Hl''. rewrite list_lookup_insert_eq in Hl'' by lia. injection Hl'' as <-.
    destruct (Hslot l' Hl') as (l & Hl & _). exists l. split; [done|].
    split; [by right|]. intros _ Hn. by apply app_nil in Hn as [_ ?].
Qed.

Lemma grown_weaken t t' k (P Q : Prop) : (P ↔ Q) → grown t t' k P → grown t t' k Q.
Proof.
  intros HPQ [Hl Ho Hs]. split; [done..|]. intros l' Hl'. destruct (Hs l' Hl') as (l & Hk & Hiff).
  exists l. split; [done|]. tauto.
Qed.

(** The inner loop of [derive_raw_visibility] for one ordered pair. *)
Lemma raw_conflicts_spec (i j : nat) (n1 n2 : NodeId) (cs : list (HazardKind * DeviceRegion))
    acquire release :
  i < length release → j < length acquire →
  ∃ acquire' release',
    foldM (λ '(acquire, release) '(kind, overlap),
        if decide (kind = ReadAfterWrite) then
          release ← push_reason release i (RawProducer n2 overlap);
          acquire ← push_reason acquire j (RawConsumer n1 overlap);
          Some (acquire, release)
        else Some (acquire, release)) (acquire, release) cs = Some (acquire', release') ∧
    grown acquire acquire' j (∃ ov, (ReadAfterWrite, ov) ∈ cs) ∧
    grown release release' i (∃ ov, (ReadAfterWrite, ov) ∈ cs).
Proof.
  intros Hi Hj.
  destruct (foldM_inv (λ l '(a, rl), grown acquire a j (∃ ov, (ReadAfterWrite, ov) ∈ l) ∧
      grown release rl i (∃ ov, (ReadAfterWrite, ov) ∈ l))
    (λ '(acquire, release) '(kind, overlap),
        if decide (kind = ReadAfterWrite) then
          release ← push_reason release i (RawProducer n2 overlap);
          acquire ← push_reason acquire j (RawConsumer n1 overlap);
          Some (acquire, release)
        else Some (acquire, release)) cs (acquire, release)) as ([a' rl'] & Hf & Ha & Hr).
  - split; apply grown_refl; set_solver.
  - intros l1 [k ov] l2 [a rl] _ [Ha Hr]. case_decide as Hk.
    + subst k.
      destruct (grown_push release rl i _ (∃ ov', (ReadAfterWrite, ov') ∈ l1 ++ [(ReadAfterWrite, ov)])
        (RawProducer n2 ov) Hi Hr) as (rl' & -> & Hr'); [exists ov; set_solver|].
      destruct (grown_push acquire a j _ (∃ ov', (ReadAfterWrite, ov') ∈ l1 ++ [(ReadAfterWrite, ov)])
        (RawConsumer n1 ov) Hj Ha) as (a' & -> & Ha'); [exists ov; set_solver|].
      cbn [mbind option_bind]. eexists; split; [done|]. done.
    + eexists; split; [done|].
      assert ((∃ ov', (ReadAfterWrite, ov') ∈ l1) ↔ ∃ ov', (ReadAfterWrite, ov') ∈ l1 ++ [(k, ov)]) as Hiff.
      { setoid_rewrite elem_of_app. setoid_rewrite list_elem_of_singleton. naive_solver. }
      split; by eapply grown_weaken.
  - exists a', rl'. done.
Qed.

(** Entries of the acquire table name their producer. *)
Definition raw_consumer (reason : VisibilityReason) : Prop := ∃ n ov, reason = RawConsumer n ov.

Lemma push_reason_consumer t i n ov t' :
  Forall (Forall raw_consumer) t → push_reason t i (RawConsumer n ov) = Some t' → Forall (Forall raw_consumer) t'.
Proof.
  intros Ht H. unfold push_reason, vec_update in H. destruct (t !! i) as [l|] eqn:Hi; [|done].
  cbn [mbind option_bind] in H. apply vec_set_Some in H as [_ ->]. apply Forall_insert; [done|].
  apply Forall_app. split; [by eapply Forall_lookup_1|]. apply Forall_singleton. by do 2 eexists.
Qed.

Lemma raw_consumers ds m acquire release :
  derive_raw_visibility ds m = Some (acquire, release) → Forall (Forall raw_consumer) acquire.
Proof.
  unfold derive_raw_visibility. intros H.
  apply (foldM_preserves (λ st, Forall (Forall raw_consumer) st.1) _ _ _ _) in H; [done| |by apply Forall_replicate].
  clear. intros st st' ij Hst H. unfold raw_pair in H.
  destruct (ds !! ij.1) as [first|]; [|done]. destruct (ds !! ij.2) as [second|]; [|done].
  cbn [mbind option_bind] in H. destruct (reach_get _ _ _) as [[]|]; cbn [mbind option_bind] in H;
    [|by injection H as <-|done].
  apply (foldM_preserves (λ st, Forall (Forall raw_consumer) st.1) _ _ _ _) in H; [done| |done].
  clear. intros [a r] st' [k ov] Hst H. case_decide; [|by injection H as <-].
  destruct (push_reason r _ _) as [r'|]; cbn [mbind option_bind] in H; [|done].
  destruct (push_reason a _ _) as [a'|] eqn:Ha; cbn [mbind option_bind] in H; [|done].
  injection H as <-. by eapply push_reason_consumer.
Qed.

(** ** Dispatches by position *)

Section positions.
Context (r : Recorder) (lanes : nat) (order : list NodeId) (ds : list PlannedDispatch).
Context (Hshape : recorder_shape r) (Hto : topo_order r order) (Hsched : schedule_ok r lanes order ds).
Context (Hfree : hazard_free r).

(** The dispatch at a position is ordered before another. *)
Definition ordered_before (d d' : PlannedDispatch) : Prop := depends r (pd_node d) (pd_node d').
Definition conflicting (d d' : PlannedDispatch) : Prop :=
  accesses_conflict (pd_accesses d) (pd_accesses d').

Lemma position_ok i d : ds !! i = Some d → dispatch_ok r lanes (take i ds) d.
Proof using Hsched.
  intros Hi. destruct Hsched as [_ Hall]. apply (Hall _ _ (drop (S i) ds)).
  by rewrite take_drop_middle.
Qed.

Lemma position_order i d : ds !! i = Some d → order !! i = Some (pd_node d).
Proof using Hsched. intros Hi. rewrite <-(proj1 Hsched). apply list_lookup_fmap_Some. eauto. Qed.

Lemma position_valid i d : ds !! i = Some d → valid_id r (pd_node d).
Proof using Hsched Hto.
  intros Hi%position_order. apply (to_nodes _ _ Hto). by eapply list_elem_of_lookup_2.
Qed.

Lemma position_inj i j d d' :
  ds !! i = Some d → ds !! j = Some d' → pd_node d = pd_node d' → i = j.
Proof using Hsched Hto.
  intros Hi%position_order Hj%position_order Heq. rewrite Heq in Hi.
  eapply NoDup_lookup; [apply Hto|done|done].
Qed.

Lemma positions_length : length ds = length (rec_nodes r).
Proof using Hshape Hto Hsched.
  rewrite <-(length_fmap pd_node ds), (proj1 Hsched). by apply topo_order_length.
Qed.

Lemma position_index i d : ds !! i = Some d → node_index (pd_node d) < length ds.
Proof using Hshape Hto Hsched. intros Hi%position_valid. rewrite positions_length. apply Hi. Qed.

Lemma ordered_before_lt i j d d' :
  ds !! i = Some d → ds !! j = Some d' → ordered_before d d' → i < j.
Proof using Hto Hsched.
  intros Hi%position_order Hj%position_order Hd.
  assert (order = take j order ++ pd_node d' :: drop (S j) order) as Heq by (by rewrite take_drop_middle).
  assert (pd_node d ∈ take j order) as (k & Hk)%list_elem_of_lookup.
  { eapply topo_sorted_forward; [apply Hto|apply Hto|exact Hd|exact Heq]. }
  apply lookup_take_Some in Hk as [Hk Hkj].
  assert (i = k) as ->; [|done]. eapply NoDup_lookup; [apply Hto|done|done].
Qed.

Lemma conflicting_ordered i j d d' :
  ds !! i = Some d → ds !! j = Some d' → i < j → conflicting d d' → ordered_before d d'.
Proof using All.
  intros Hi Hj Hij Hc.
  destruct (do_entry _ _ _ _ (position_ok i d Hi)) as (ni & Hni & _ & Hai).
  destruct (do_entry _ _ _ _ (position_ok j d' Hj)) as (nj & Hnj & _ & Haj).
  assert (rid r (node_index (pd_node d)) = pd_node d) as Hri by (by apply rid_index, (position_valid i)).
  assert (rid r (node_index (pd_node d')) = pd_node d') as Hrj by (by apply rid_index, (position_valid j)).
  destruct (Hfree (node_index (pd_node d)) (node_index (pd_node d')) ni nj) as [Hd|Hd]; [|done..| | |].
  - intros Heq. assert (i = j); [|lia]. eapply (position_inj i j); [done..|]. congruence.
  - unfold conflicting in Hc. by rewrite Hai, Haj in Hc.
  - by rewrite Hri, Hrj in Hd.
  - rewrite Hri, Hrj in Hd. pose proof (ordered_before_lt j i d' d Hj Hi Hd). lia.
Qed.

Lemma position_reach m i j d d' :
  reach_matrix r m → ds !! i = Some d → ds !! j = Some d' →
  ∃ b : bool, reach_get m (node_index (pd_node d)) (node_index (pd_node d')) = Some b ∧
    (b = true ↔ ordered_before d d').
Proof using Hshape Hto Hsched.
  intros [Hdim Hspec] Hi Hj. pose proof (position_valid i d Hi) as Hvi.
  pose proof (position_valid j d' Hj) as Hvj.
  destruct (reach_lookup _ m (node_index (pd_node d)) (node_index (pd_node d')) Hdim) as (row & Hrow & Hb);
    [apply Hvi|apply Hvj|].
  eexists. unfold reach_get. rewrite Hrow; cbn [mbind option_bind]. split; [exact Hb|].
  rewrite Hspec by (apply Hvi || apply Hvj). unfold ordered_before. by rewrite !rid_index.
Qed.

Lemma elem_of_vis_conflicts d d' k ov : (k, ov) ∈ vis_conflicts d d' → conflicting d d'.
Proof.
  intros Hin. destruct (decide (access_conflicts (pd_accesses d) (pd_accesses d') = [])) as [Hn|Hn].
  - unfold vis_conflicts in Hin. rewrite Hn in Hin. set_solver.
  - unfold conflicting. destruct (access_conflicts_dec (pd_accesses d) (pd_accesses d')); [done|].
    by apply access_conflicts_nil in n.
Qed.

(** ** The conflict check passes *)

Lemma validate_ordered_ok m :
  reach_matrix r m → validate_ordered_conflicts ds m = Done tt.
Proof using All.
  intros Hm. apply for_exec_Done. intros [i j] [Hij Hj]%elem_of_index_pairs. unfold check_pair; simpl.
  destruct (lookup_lt_is_Some_2 ds i) as [d Hd]; [lia|]. rewrite Hd; cbn [unwrap mbind exec_bind].
  destruct (lookup_lt_is_Some_2 ds j Hj) as [d' Hd']. rewrite Hd'; cbn [unwrap mbind exec_bind].
  apply for_exec_Done. intros [k ov] Hc%elem_of_vis_conflicts.
  destruct (position_reach m i j d d' Hm Hd Hd') as (b & -> & Hb). cbn [unwrap mbind exec_bind].
  by rewrite (proj2 Hb (conflicting_ordered i j d d' Hd Hd' Hij Hc)).
Qed.

(** ** Read-after-write pairs *)

(** A write of the dispatch at [i] is read at [j], on the bytes [ov]. *)
Definition raw_at (i j : nat) (ov : DeviceRegion) : Prop :=
  ∃ d d', ds !! i = Some d ∧ ds !! j = Some d' ∧ i < j ∧ (ReadAfterWrite, ov) ∈ vis_conflicts d d'.

(** The reason tables hold exactly the read-after-write pairs of [l]. *)
Record raw_tables (l : list (nat * nat)) (acquire release : reason_table) : Prop := {
  rt_acquire_length : length acquire = length ds;
  rt_release_length : length release = length ds;
  rt_acquire j reasons : acquire !! j = Some reasons →
    (reasons ≠ [] ↔ ∃ i ov, (i, j) ∈ l ∧ raw_at i j ov);
  rt_release i reasons : release !! i = Some reasons →
    (reasons ≠ [] ↔ ∃ j ov, (i, j) ∈ l ∧ raw_at i j ov)
}.

Lemma raw_tables_step l acquire release acquire' release' i j (P : Prop) :
  raw_tables l acquire release → grown acquire acquire' j P → grown release release' i P →
  (P ↔ ∃ ov, raw_at i j ov) → raw_tables (l ++ [(i, j)]) acquire' release'.
Proof.
  intros [Hal Hrl Ha Hr] Hga Hgr HP. split.
  - by rewrite (gr_length _ _ _ _ Hga).
  - by rewrite (gr_length _ _ _ _ Hgr).
  - intros k reasons Hk. setoid_rewrite elem_of_app. setoid_rewrite list_elem_of_singleton.
    destruct (decide (k = j)) as [->|Hne].
    + destruct (gr_slot _ _ _ _ Hga _ Hk) as (l0 & Hl0 & Hiff). rewrite Hiff, (Ha j l0 Hl0), HP.
      split; [naive_solver|]. intros (i' & ov & [Hin|[= ->]] & Hraw); [left; eauto|right; eauto].
    + rewrite (gr_other _ _ _ _ Hga) in Hk by done. rewrite (Ha k reasons Hk). naive_solver.
  - intros k reasons Hk. setoid_rewrite elem_of_app. setoid_rewrite list_elem_of_singleton.
    destruct (decide (k = i)) as [->|Hne].
    + destruct (gr_slot _ _ _ _ Hgr _ Hk) as (l0 & Hl0 & Hiff). rewrite Hiff, (Hr i l0 Hl0), HP.
      split; [naive_solver|]. intros (j' & ov & [Hin|[= ->]] & Hraw); [left; eauto|right; eauto].
    + rewrite (gr_other _ _ _ _ Hgr) in Hk by done. rewrite (Hr k reasons Hk). naive_solver.
Qed.

Lemma derive_raw_ok m :
  reach_matrix r m →
  ∃ acquire release, derive_raw_visibility ds m = Some (acquire, release) ∧
    raw_tables (index_pairs (length ds)) acquire release.
Proof using All.
  intros Hm. unfold derive_raw_visibility.
  destruct (foldM_inv (λ l '(a, rl), raw_tables l a rl) (raw_pair ds m) (index_pairs (length ds))
    (replicate (length ds) [], replicate (length ds) [])) as ([a rl] & Hf & Ht).
  - split; [by rewrite length_replicate..| |]; intros k reasons [-> _]%lookup_replicate; set_solver.
  - intros l1 [i j] l2 [a rl] Heq Ht.
    assert ((i, j) ∈ index_pairs (length ds)) as [Hij Hj]%elem_of_index_pairs by (rewrite Heq; set_solver).
    destruct (lookup_lt_is_Some_2 ds i) as [d Hd]; [lia|].
    destruct (lookup_lt_is_Some_2 ds j Hj) as [d' Hd'].
    unfold raw_pair; cbn [fst snd]. rewrite Hd, Hd'; cbn [mbind option_bind].
    destruct (position_reach m i j d d' Hm Hd Hd') as (b & -> & Hb). cbn [mbind option_bind].
    assert ((∃ ov, (ReadAfterWrite, ov) ∈ vis_conflicts d d') ↔ ∃ ov, raw_at i j ov) as Hraw.
    { split.
      - intros (ov & Hov). exists ov, d, d'. done.
      - intros (ov & e & e' & He & He' & _ & Hov). simplify_eq. eauto. }
    destruct b.
    + destruct (raw_conflicts_spec i j (pd_node d) (pd_node d') (vis_conflicts d d') a rl)
        as (a' & rl' & Hfold & Hga & Hgr);
        [rewrite (rt_release_length _ _ _ Ht); lia|rewrite (rt_acquire_length _ _ _ Ht); lia|].
      eexists; split; [exact Hfold|]. by eapply raw_tables_step.
    + eexists; split; [done|]. eapply (raw_tables_step l1 a rl a rl i j False); [done| | |].
      * apply grown_refl. tauto.
      * apply grown_refl. tauto.
      * split; [done|]. intros (ov & Hov)%Hraw. apply elem_of_vis_conflicts in Hov.
        by discriminate (proj2 Hb (conflicting_ordered i j d d' Hd Hd' Hij Hov)).
  - exists a, rl. done.
Qed.

(** ** Lanes *)

Lemma lanes_by_node_ok :
  ∃ v, lanes_by_node ds = Some v ∧
    ∀ i d, ds !! i = Some d → v !! node_index (pd_node d) = Some (pd_lane d).
Proof using All.
  unfold lanes_by_node.
  destruct (foldM_inv (λ l v, length v = length ds ∧
      ∀ d, d ∈ l → v !! node_index (pd_node d) = Some (pd_lane d))
    (λ lanes d, vec_set lanes (node_index (pd_node d)) (pd_lane d)) ds (replicate (length ds) 0))
    as (v & Hv & _ & Hl).
  - split; [by rewrite length_replicate|set_solver].
  - intros l1 d l2 v Heq [Hlen Hl].
    assert (ds !! length l1 = Some d) as Hd by (rewrite Heq; by apply list_lookup_middle).
    pose proof (position_index _ _ Hd) as Hidx. rewrite vec_set_lt by lia.
    eexists; split; [done|]. split; [by rewrite length_insert|].
    intros d' [Hd'| ->%list_elem_of_singleton]%elem_of_app.
    + rewrite list_lookup_insert_ne; [by apply Hl|]. intros Hi.
      apply list_elem_of_lookup in Hd' as [k Hk].
      assert (ds !! k = Some d') as Hk' by (rewrite Heq; by apply lookup_app_l_Some).
      assert (k = length l1) as ->.
      { eapply position_inj; [exact Hk'|exact Hd|]. symmetry.
        eapply (valid_index_inj r); [by eapply position_valid..|done]. }
      apply lookup_lt_Some in Hk. lia.
    + apply list_lookup_insert_eq. lia.
  - exists v. split; [done|]. intros i d Hi. apply Hl. by eapply list_elem_of_lookup_2.
Qed.

(** ** Order reasons *)

Lemma push_unique_nonempty {A} `{EqDecision A} (l : list A) x : push_unique l x ≠ [].
Proof.
  unfold push_unique. case_decide as Hd; [intros ->; set_solver|].
  intros Hn. by apply app_nil in Hn as [_ ?].
Qed.

(** A prerequisite of [d] runs in another lane. *)
Definition cross_lane (d : PlannedDispatch) : Prop :=
  ∃ k dk, ds !! k = Some dk ∧ pd_node dk ∈ pd_dependencies d ∧ pd_lane dk ≠ pd_lane d.

Lemma cross_lane_reasons_ok v i d :
  (∀ k dk, ds !! k = Some dk → v !! node_index (pd_node dk) = Some (pd_lane dk)) →
  ds !! i = Some d →
  ∃ reasons, cross_lane_reasons v d = Some reasons ∧ (reasons ≠ [] ↔ cross_lane d).
Proof using All.
  intros Hv Hi.
  assert (∀ p, p ∈ pd_dependencies d → ∃ k dk, ds !! k = Some dk ∧ pd_node dk = p) as Hdep.
  { intros p Hp. destruct (do_planned _ _ _ _ (position_ok i d Hi) p Hp) as (dk & Hdk & Hn).
    apply list_elem_of_lookup in Hdk as [k Hk]. apply lookup_take_Some in Hk as [Hk _]. eauto. }
  unfold cross_lane_reasons.
  destruct (foldM_inv (λ l reasons, reasons ≠ [] ↔
      ∃ k dk, ds !! k = Some dk ∧ pd_node dk ∈ l ∧ pd_lane dk ≠ pd_lane d)
    (λ reasons dependency,
      lane ← v !! node_index dependency;
      Some (if decide (lane = pd_lane d) then reasons
            else push_unique reasons (CrossLaneDependency dependency)))
    (pd_dependencies d) []) as (reasons & Hf & Hr).
  - split; [done|]. intros (k & dk & _ & Hin & _). set_solver.
  - intros l1 p l2 reasons Heq Hr. destruct (Hdep p) as (k & dk & Hk & Hn); [rewrite Heq; set_solver|].
    pose proof (Hv k dk Hk) as Hlane. rewrite Hn in Hlane. rewrite Hlane; cbn [mbind option_bind].
    eexists; split; [done|]. case_decide as Hd.
    + rewrite Hr. split; [intros (k' & dk' & ? & ? & ?); exists k', dk'; set_solver|].
      intros (k' & dk' & Hk' & [Hin|Hin%list_elem_of_singleton]%elem_of_app & Hne); [eauto|].
      assert (k' = k) as -> by (eapply position_inj; [done..|congruence]). simplify_eq.
    + split; [|intros _; apply push_unique_nonempty]. intros _. exists k, dk. set_solver.
  - exists reasons. done.
Qed.

(** The dispatch at [k] must be complete before [d] starts. *)
Definition blocks (k : nat) (d : PlannedDispatch) : Prop :=
  ∃ dk, ds !! k = Some dk ∧ (ordered_before dk d ∨ conflicting dk d).

Lemma conflict_reasons_nil (p : NodeId) cs : ∀ reasons,
  foldl (λ reasons '(kind, overlap), push_unique reasons (MemoryConflict p kind overlap)) reasons cs ≠ []
  ↔ reasons ≠ [] ∨ cs ≠ [].
Proof.
  induction cs as [|[k ov] cs IH]; intros reasons; simpl; [naive_solver|].
  rewrite IH. split; [by right|]. intros _. left. apply push_unique_nonempty.
Qed.

Lemma epoch_reasons_ok m i d reasons epoch :
  reach_matrix r m → ds !! i = Some d → (∀ k, k ∈ epoch → k < length ds) →
  ∃ reasons', epoch_reasons ds m d reasons epoch = Some reasons' ∧
    (reasons' ≠ [] ↔ reasons ≠ [] ∨ ∃ k, k ∈ epoch ∧ blocks k d).
Proof using All.
  intros Hm Hi Hep. unfold epoch_reasons.
  apply (foldM_inv (λ l reasons', reasons' ≠ [] ↔ reasons ≠ [] ∨ ∃ k, k ∈ l ∧ blocks k d)).
  - split; [by left|]. intros [?|(k & Hk & _)]; [done|set_solver].
  - intros l1 k l2 reasons1 Heq Hr.
    destruct (lookup_lt_is_Some_2 ds k) as [dk Hk]; [apply Hep; rewrite Heq; set_solver|].
    rewrite Hk; cbn [mbind option_bind].
    destruct (position_reach m k i dk d Hm Hk Hi) as (b & -> & Hb). cbn [mbind option_bind].
    eexists; split; [done|]. rewrite conflict_reasons_nil.
    assert (vis_conflicts dk d ≠ [] ↔ conflicting dk d) as Hc.
    { unfold vis_conflicts, conflicting.
      destruct (access_conflicts_dec (pd_accesses dk) (pd_accesses d)) as [Hy|Hn].
      - split; [done|]. intros _ Hn. by apply access_conflicts_nil in Hn.
      - split; [|done]. intros Hx. by apply access_conflicts_nil in Hn. }
    assert ((if b then push_unique reasons1 (OrderedAfter (pd_node dk)) else reasons1) ≠ []
      ↔ reasons1 ≠ [] ∨ ordered_before dk d) as ->.
    { destruct b; [|split; [by left|intros [?|?%Hb]; done]].
      split; [intros _; right; by apply Hb|intros _; apply push_unique_nonempty]. }
    rewrite Hc, Hr. setoid_rewrite elem_of_app. setoid_rewrite list_elem_of_singleton.
    assert (blocks k d ↔ ordered_before dk d ∨ conflicting dk d) as Hblk.
    { unfold blocks. split; [intros (dk' & Hk' & ?); by simplify_eq|eauto]. }
    split.
    + intros [[[?|(k' & ? & ?)]|?]|?]; [by left|right; exists k'; tauto|right; exists k; tauto..].
    + intros [?|(k' & [?| ->] & Hbk)]; [tauto|left; left; right; eauto|].
      apply Hblk in Hbk. tauto.
Qed.

(** ** The derived policies *)

Definition first_in_lane (i : nat) (d : PlannedDispatch) : Prop :=
  ∀ k dk, k < i → ds !! k = Some dk → pd_lane dk ≠ pd_lane d.

(** The derived policy of the dispatch at [i]: fences exactly where data flows,
    and a barrier exactly where something may still have to finish. *)
Record policy_ok (boundary : ApiBoundary) (i : nat) (d : PlannedDispatch)
    (p : DerivedDispatchPolicy) : Prop := {
  po_node : dp_node p = pd_node d;
  po_lane : dp_lane p = pd_lane d;
  po_acquire_raw k ov : raw_at k i ov → hdr_acquire (dp_header p) ≠ FenceNone;
  po_raw_reason k ov : raw_at k i ov → ∃ reason, reason ∈ dp_acquire_reasons p ∧ raw_consumer reason;
  po_acquire_entry : first_in_lane i d →
    (scope_u16 (entry_scope (bnd_entry boundary)) ≤ scope_u16 (hdr_acquire (dp_header p)))%Z;
  po_acquire_only : hdr_acquire (dp_header p) ≠ FenceNone →
    first_in_lane i d ∨ ∃ k ov, raw_at k i ov;
  po_release : hdr_release (dp_header p) = FenceAgent ∧ (∃ k ov, raw_at i k ov) ∨
    hdr_release (dp_header p) = FenceNone ∧ ¬ (∃ k ov, raw_at i k ov);
  po_cross : cross_lane d → hdr_barrier (dp_header p) = true;
  po_needed : hdr_barrier (dp_header p) = true → cross_lane d ∨
    ∃ k dk, k < i ∧ ds !! k = Some dk ∧ pd_lane dk = pd_lane d ∧ blocks k d
}.

(** A barriered packet of [lane] strictly after [i] and before [j]. *)
Definition barrier_between (derived : list DerivedDispatchPolicy) (lane i j : nat) : Prop :=
  ∃ b p, i < b ∧ b < j ∧ derived !! b = Some p ∧ dp_lane p = lane ∧
    hdr_barrier (dp_header p) = true.

Record lane_inv (boundary : ApiBoundary) (k : nat) (st : LaneState)
    (derived : list DerivedDispatchPolicy) : Prop := {
  li_epochs : length (ls_epochs st) = lanes;
  li_nodes_length : length (ls_nodes st) = lanes;
  li_previous : length (ls_previous st) = lanes;
  li_derived : length derived = k;
  li_nodes lane : lane < lanes →
    ls_nodes st !! lane = Some (pd_node <$> filter (λ d, pd_lane d = lane) (take k ds));
  li_policy i d p : ds !! i = Some d → derived !! i = Some p → policy_ok boundary i d p;
  li_epoch_bound lane epoch i : ls_epochs st !! lane = Some epoch → i ∈ epoch →
    i < k ∧ ∃ d, ds !! i = Some d ∧ pd_lane d = lane;
  li_epoch lane epoch i d : ls_epochs st !! lane = Some epoch → i < k →
    ds !! i = Some d → pd_lane d = lane → i ∈ epoch ∨ barrier_between derived lane i k;
  li_separated i j d : i < j → j < k → ds !! j = Some d → blocks i d →
    (∃ d', ds !! i = Some d' ∧ pd_lane d' = pd_lane d) → barrier_between derived (pd_lane d) i (S j)
}.

Lemma barrier_between_app derived p lane i j j' :
  j ≤ j' → barrier_between derived lane i j → barrier_between (derived ++ [p]) lane i j'.
Proof.
  intros Hle (b & q & ? & ? & Hb & ? & ?). exists b, q. split_and!; [done|lia| |done..].
  by apply lookup_app_l_Some.
Qed.

Lemma barrier_between_last derived p i :
  i < length derived → hdr_barrier (dp_header p) = true →
  barrier_between (derived ++ [p]) (dp_lane p) i (S (length derived)).
Proof.
  intros Hi Hb. exists (length derived), p. split_and!; [done|lia| |done..].
  by apply list_lookup_middle.
Qed.

Lemma filter_take_S k d lane :
  ds !! k = Some d →
  pd_node <$> filter (λ d, pd_lane d = lane) (take (S k) ds) =
  (pd_node <$> filter (λ d, pd_lane d = lane) (take k ds)) ++
    (if decide (pd_lane d = lane) then [pd_node d] else []).
Proof.
  intros Hk. rewrite (take_S_r _ _ _ Hk), filter_app, fmap_app. f_equal.
  rewrite filter_cons, filter_nil. by case_decide.
Qed.

Lemma first_in_lane_nil k d :
  ds !! k = Some d →
  pd_node <$> filter (λ d', pd_lane d' = pd_lane d) (take k ds) = [] ↔ first_in_lane k d.
Proof.
  intros Hk. split.
  - intros Hn%fmap_nil_inv j dj Hj Hdj Hl.
    assert (dj ∈ filter (λ d', pd_lane d' = pd_lane d) (take k ds)) as Hin; [|rewrite Hn in Hin; set_solver].
    apply list_elem_of_filter. split; [done|]. apply list_elem_of_lookup. exists j.
    by rewrite lookup_take_lt.
  - intros Hf. destruct (filter _ _) as [|d' l] eqn:E; [done|]. exfalso.
    assert (d' ∈ filter (λ d', pd_lane d' = pd_lane d) (take k ds)) as Hin by (rewrite E; set_solver).
    apply list_elem_of_filter in Hin as [Hl [j Hj]%list_elem_of_lookup].
    apply lookup_take_Some in Hj as [Hj Hjk]. by apply (Hf j d').
Qed.

(** One iteration, evaluated. *)
Lemma derive_dispatch_eval m v acquire release boundary k st derived d :
  reach_matrix r m →
  (∀ j dj, ds !! j = Some dj → v !! node_index (pd_node dj) = Some (pd_lane dj)) →
  raw_tables (index_pairs (length ds)) acquire release →
  lane_inv boundary k st derived → ds !! k = Some d →
  ∃ epoch reasons acquired released previous independent,
    let lane := pd_lane d in
    let nodes := pd_node <$> filter (λ d', pd_lane d' = lane) (take k ds) in
    let base := if is_empty acquired then FenceNone else FenceAgent in
    let barrier := negb (is_empty reasons) in
    ls_epochs st !! lane = Some epoch ∧
    (reasons ≠ [] ↔ cross_lane d ∨ ∃ j, j ∈ epoch ∧ blocks j d) ∧
    acquire !! k = Some acquired ∧ release !! k = Some released ∧
    derive_dispatch ds m v acquire release boundary st k d = Some
      (mkLanes (<[lane := (if barrier then [] else epoch) ++ [k]]> (ls_epochs st))
               (<[lane := nodes ++ [pd_node d]]> (ls_nodes st))
               (<[lane := Some (pd_node d)]> (ls_previous st)),
       mkPolicyOf (pd_node d) lane
         (mkHeader barrier
            (if is_empty nodes then max_scope base (entry_scope (bnd_entry boundary)) else base)
            (if is_empty released then FenceNone else FenceAgent))
         (if is_empty reasons then BarrierElided previous independent else BarrierRequired reasons)
         (if is_empty nodes then ReasonEntry (bnd_entry boundary) :: acquired else acquired)
         released).
Proof using All.
  intros Hm Hv Ht Hinv Hk.
  pose proof (do_lane _ _ _ _ (position_ok k d Hk)) as Hlane.
  pose proof (lookup_lt_Some _ _ _ Hk) as Hlt.
  destruct (lookup_lt_is_Some_2 (ls_epochs st) (pd_lane d)) as [epoch He];
    [by rewrite (li_epochs _ _ _ _ Hinv)|].
  destruct (lookup_lt_is_Some_2 (ls_previous st) (pd_lane d)) as [previous Hp];
    [by rewrite (li_previous _ _ _ _ Hinv)|].
  destruct (lookup_lt_is_Some_2 acquire k) as [acquired Ha]; [by rewrite (rt_acquire_length _ _ _ Ht)|].
  destruct (lookup_lt_is_Some_2 release k) as [released Hr]; [by rewrite (rt_release_length _ _ _ Ht)|].
  assert (∀ j, j ∈ epoch → ∃ dj, ds !! j = Some dj) as Hep.
  { intros j Hj. destruct (li_epoch_bound _ _ _ _ Hinv _ _ _ He Hj) as (_ & dj & Hdj & _). eauto. }
  destruct (cross_lane_reasons_ok v k d Hv Hk) as (reasons0 & Hr0 & Hiff0).
  destruct (epoch_reasons_ok m k d reasons0 epoch Hm Hk) as (reasons & Hr1 & Hiff1).
  { intros j (dj & Hdj)%Hep. by eapply lookup_lt_Some. }
  assert (is_Some (mapM (λ index, pd_node <$> ds !! index) epoch)) as [independent Hind].
  { apply mapM_is_Some_2, Forall_forall. intros j (dj & Hdj)%Hep. exists (pd_node dj).
    apply fmap_Some. eauto. }
  exists epoch, reasons, acquired, released, previous, independent. simpl.
  split; [done|]. split; [by rewrite Hiff1, Hiff0|]. split; [done|]. split; [done|].
  unfold derive_dispatch. rewrite He; cbn [mbind option_bind]. rewrite Hr0; cbn [mbind option_bind].
  rewrite Hr1; cbn [mbind option_bind]. rewrite Hp; cbn [mbind option_bind].
  rewrite Hind; cbn [mbind option_bind]. rewrite Ha; cbn [mbind option_bind].
  rewrite Hr; cbn [mbind option_bind]. rewrite (li_nodes _ _ _ _ Hinv _ Hlane); cbn [mbind option_bind].
  rewrite (vec_set_lt (ls_epochs st)) by (by rewrite (li_epochs _ _ _ _ Hinv)). cbn [mbind option_bind].
  rewrite (vec_set_lt (ls_nodes st)) by (by rewrite (li_nodes_length _ _ _ _ Hinv)). cbn [mbind option_bind].
  rewrite (vec_set_lt (ls_previous st)) by (by rewrite (li_previous _ _ _ _ Hinv)). done.
Qed.

Lemma raw_at_pairs i j ov : raw_at i j ov → (i, j) ∈ index_pairs (length ds).
Proof.
  intros (d & d' & _ & Hj & Hij & _). apply elem_of_index_pairs. split; [done|]. by eapply lookup_lt_Some.
Qed.

Lemma derived_policy_ok acquire release boundary k (epoch : list nat) d (reasons : list OrderReason) acquired released bd ar :
  raw_tables (index_pairs (length ds)) acquire release → ds !! k = Some d →
  (∀ j, j ∈ epoch → j < k ∧ ∃ dj, ds !! j = Some dj ∧ pd_lane dj = pd_lane d) →
  (reasons ≠ [] ↔ cross_lane d ∨ ∃ j, j ∈ epoch ∧ blocks j d) →
  acquire !! k = Some acquired → release !! k = Some released →
  Forall raw_consumer acquired → acquired ⊆ ar →
  let nodes := pd_node <$> filter (λ d', pd_lane d' = pd_lane d) (take k ds) in
  let base := if is_empty acquired then FenceNone else FenceAgent in
  policy_ok boundary k d
    (mkPolicyOf (pd_node d) (pd_lane d)
       (mkHeader (negb (is_empty reasons))
          (if is_empty nodes then max_scope base (entry_scope (bnd_entry boundary)) else base)
          (if is_empty released then FenceNone else FenceAgent)) bd ar released).
Proof using All.
  intros Ht Hk Hep Hreasons Ha Hr Hconsumers Har nodes base.
  assert (acquired ≠ [] ↔ ∃ i ov, raw_at i k ov) as Hacq.
  { rewrite (rt_acquire _ _ _ Ht k acquired Ha). split; [naive_solver|].
    intros (i & ov & Hraw). exists i, ov. split; [by eapply raw_at_pairs|done]. }
  assert (released ≠ [] ↔ ∃ j ov, raw_at k j ov) as Hrel.
  { rewrite (rt_release _ _ _ Ht k released Hr). split; [naive_solver|].
    intros (i & ov & Hraw). exists i, ov. split; [by eapply raw_at_pairs|done]. }
  assert (nodes = [] ↔ first_in_lane k d) as Hfirst by (by apply first_in_lane_nil).
  split; simpl; try done.
  - intros i ov Hraw. assert (acquired ≠ []) as Hne by (apply Hacq; eauto).
    unfold base. rewrite (proj2 (is_empty_false acquired) Hne).
    destruct (is_empty nodes); [|done]. by destruct (bnd_entry boundary).
  - intros i ov Hraw. assert (acquired ≠ []) as Hne by (apply Hacq; eauto).
    destruct acquired as [|reason acquired]; [done|]. exists reason. split; [apply Har; set_solver|].
    by inversion Hconsumers.
  - intros Hf. rewrite (proj2 (is_empty_true nodes) (proj2 Hfirst Hf)).
    unfold base. destruct (is_empty acquired), (bnd_entry boundary); vm_compute; done.
  - intros Hne. destruct (is_empty nodes) eqn:En; [left; by apply Hfirst, is_empty_true|].
    right. apply Hacq. intros ->. by apply Hne.
  - destruct (is_empty released) eqn:E; [right|left]; (split; [done|]); apply is_empty_true in E || apply is_empty_false in E.
    + rewrite <-Hrel, E. tauto.
    + by apply Hrel.
  - intros Hc. apply negb_true_iff, is_empty_false, Hreasons. by left.
  - intros Hb%negb_true_iff%is_empty_false%Hreasons. destruct Hb as [?|(j & Hj & Hbl)]; [by left|right].
    destruct (Hep j Hj) as (Hjk & dj & Hdj & Hl). exists j, dj. done.
Qed.

Lemma lane_inv_start boundary :
  lane_inv boundary 0
    (mkLanes (replicate lanes []) (replicate lanes []) (replicate lanes None)) [].
Proof.
  split; simpl; rewrite ?length_replicate; try done.
  - intros lane Hl. by apply lookup_replicate.
  - intros lane epoch i [-> _]%lookup_replicate. set_solver.
  - lia.
  - lia.
Qed.

(** The new epoch: the dispatch itself, and the old one if no barrier was set. *)
Lemma lane_inv_step boundary k st derived d epoch (reasons : list OrderReason) p previous nodes :
  lane_inv boundary k st derived → ds !! k = Some d →
  ls_epochs st !! pd_lane d = Some epoch →
  (reasons ≠ [] ↔ cross_lane d ∨ ∃ j, j ∈ epoch ∧ blocks j d) →
  policy_ok boundary k d p → hdr_barrier (dp_header p) = negb (is_empty reasons) →
  nodes = (pd_node <$> filter (λ d', pd_lane d' = pd_lane d) (take k ds)) ++ [pd_node d] →
  lane_inv boundary (S k)
    (mkLanes (<[pd_lane d := (if negb (is_empty reasons) then [] else epoch) ++ [k]]> (ls_epochs st))
             (<[pd_lane d := nodes]> (ls_nodes st))
             (<[pd_lane d := previous]> (ls_previous st)))
    (derived ++ [p]).
Proof using All.
  intros Hinv Hk He Hreasons Hp Hbar ->.
  pose proof (do_lane _ _ _ _ (position_ok k d Hk)) as Hlane.
  destruct Hinv as [Hle Hln Hlp Hld Hnodes Hpol Hbound Hepoch Hsep].
  assert (∀ i, i < k → reasons ≠ [] → barrier_between (derived ++ [p]) (pd_lane d) i (S k)) as Hnew.
  { intros i Hi Hne. rewrite <-(po_lane _ _ _ _ Hp), <-Hld. apply barrier_between_last; [lia|].
    rewrite Hbar. by apply negb_true_iff, is_empty_false. }
  assert (∀ i d', i < k → ds !! i = Some d' → pd_lane d' = pd_lane d →
    reasons = [] → blocks i d → False ∨ barrier_between derived (pd_lane d) i k) as Helide.
  { intros i d' Hi Hd' Hl Hnil Hbl. destruct (Hepoch _ _ i d' He Hi Hd' Hl) as [Hin|?]; [left|by right].
    assert (reasons ≠ []); [|done]. apply Hreasons. right. eauto. }
  split; simpl; rewrite ?length_insert; try done.
  - rewrite length_app, Hld; simpl. lia.
  - intros lane Hl. rewrite (filter_take_S k d lane Hk), list_lookup_insert. case_decide as Hd.
    + destruct Hd as [<- _]. by rewrite decide_True.
    + rewrite decide_False, app_nil_r; [by apply Hnodes|]. intros Hx. apply Hd. split; [done|lia].
  - intros i d' q Hi Hq. destruct (decide (i = k)) as [->|Hne].
    + rewrite <-Hld, list_lookup_middle in Hq by done. by simplify_eq.
    + apply (Hpol i d' q Hi). apply lookup_app_Some in Hq as [Hq|[Hge Hq]]; [done|].
      apply lookup_lt_Some in Hq. simpl in Hq. lia.
  - intros lane ep i Hep Hi. apply list_lookup_insert_Some in Hep as [(<- & <- & _)|[Hne Hep]].
    + apply elem_of_app in Hi as [Hi|Hi].
      * destruct (is_empty reasons); simpl in Hi; [|set_solver].
        destruct (Hbound _ _ _ He Hi) as [? ?]. split; [lia|done].
      * apply list_elem_of_singleton in Hi as ->. split; [lia|eauto].
    + destruct (Hbound _ _ _ Hep Hi) as [? ?]. split; [lia|done].
  - intros lane ep i d' Hep Hi Hd' Hl. apply list_lookup_insert_Some in Hep as [(<- & <- & _)|[Hne Hep]].
    + destruct (decide (i = k)) as [->|Hik]; [left; set_solver|].
      destruct (is_empty reasons) eqn:Er; simpl.
      * destruct (Hepoch _ _ i d' He) as [?|Hb]; [lia|done..|left; set_solver|right].
        eapply barrier_between_app; [|done]. lia.
      * right. apply Hnew; [lia|]. by apply is_empty_false.
    + destruct (decide (i = k)) as [->|Hik]; [by simplify_eq|].
      destruct (Hepoch _ _ i d' Hep) as [?|Hb]; [lia|done..|by left|right].
      eapply barrier_between_app; [|done]. lia.
  - intros i j d' Hij Hj Hd' Hbl (di & Hdi & Hl). destruct (decide (j = k)) as [->|Hjk].
    + assert (d' = d) as -> by congruence. destruct (is_empty reasons) eqn:Er.
      * destruct (Helide i di Hij Hdi Hl) as [[]|Hb]; [by apply is_empty_true|done|].
        eapply barrier_between_app; [|done]. lia.
      * apply Hnew; [lia|]. by apply is_empty_false.
    + eapply barrier_between_app; [done|]. apply (Hsep i j d'); [done|lia|done..|]. eauto.
Qed.

Lemma derive_dispatches_ok m v acquire release boundary :
  reach_matrix r m →
  (∀ j dj, ds !! j = Some dj → v !! node_index (pd_node dj) = Some (pd_lane dj)) →
  raw_tables (index_pairs (length ds)) acquire release → Forall (Forall raw_consumer) acquire →
  ∃ st derived, derive_dispatches ds m v acquire release boundary lanes = Some (st, derived) ∧
    lane_inv boundary (length ds) st derived.
Proof using All.
  intros Hm Hv Ht Hcons. unfold derive_dispatches.
  destruct (foldM_inv (λ l '(st, derived), lane_inv boundary (length l) st derived)
    (λ '(st, derived) '(i, d),
      '(st, p) ← derive_dispatch ds m v acquire release boundary st i d; Some (st, derived ++ [p]))
    (enumerate ds)
    (mkLanes (replicate lanes []) (replicate lanes []) (replicate lanes None), []))
    as ([st derived] & Hf & Hinv).
  - apply lane_inv_start.
  - intros l1 [i d] l2 [st derived] Heq Hinv.
    assert (i = length l1 ∧ ds !! i = Some d) as [-> Hd].
    { assert (enumerate ds !! length l1 = Some (i, d)) as He by (rewrite Heq; by apply list_lookup_middle).
      unfold enumerate in He. apply lookup_zip_Some in He as [[-> _]%lookup_seq He]. done. }
    destruct (derive_dispatch_eval m v acquire release boundary _ st derived d Hm Hv Ht Hinv Hd)
      as (epoch & reasons & acquired & released & previous & independent & He & Hr & Ha & Hrel & ->).
    cbn [mbind option_bind]. eexists; split; [done|].
    rewrite length_app, Nat.add_1_r. eapply lane_inv_step; [done..| |done|done].
    eapply derived_policy_ok; [done..| |done|done|done| |].
    + intros j Hj. eapply li_epoch_bound; done.
    + by eapply Forall_lookup_1.
    + case_match; set_solver.
  - exists st, derived. split; [done|]. by rewrite length_enumerate in Hinv.
Qed.
End positions.

(** ** The whole derivation *)

Record visibility_ok (r : Recorder) (plan : CompiledPlan) (boundary : ApiBoundary)
    (vp : DerivedVisibilityPlan) : Prop := {
  vo_length : length (vp_dispatches vp) = length (plan_dispatches plan);
  vo_policy i d p : plan_dispatches plan !! i = Some d → vp_dispatches vp !! i = Some p →
    policy_ok r (plan_dispatches plan) boundary i d p;
  vo_separated i j di dj : plan_dispatches plan !! i = Some di → plan_dispatches plan !! j = Some dj →
    i < j → pd_lane di = pd_lane dj → ordered_before r di dj ∨ conflicting di dj →
    barrier_between (vp_dispatches vp) (pd_lane dj) i (S j);
  vo_covered lane nodes : mkConsolidation lane consolidation_header nodes ∈ vp_lane_consolidations vp ↔
    lane < Pos.to_nat (plan_lane_count plan) ∧ nodes ≠ [] ∧
    nodes = pd_node <$> filter (λ d, pd_lane d = lane) (plan_dispatches plan);
  vo_terminal_lanes lane : lane ∈ tv_lanes (vp_terminal vp) ↔
    ∃ d, d ∈ plan_dispatches plan ∧ pd_lane d = lane;
  vo_terminal : tv_header (vp_terminal vp) = mkHeader true FenceNone (exit_scope (bnd_exit boundary))
}.

Lemma elem_of_lane_consolidations lane_nodes c :
  c ∈ lane_consolidations lane_nodes ↔
  ∃ lane nodes, lane_nodes !! lane = Some nodes ∧ nodes ≠ [] ∧
    c = mkConsolidation lane consolidation_header nodes.
Proof.
  unfold lane_consolidations. rewrite elem_of_filter_map. split.
  - intros ([lane nodes] & Hin%elem_of_enumerate & Hc). destruct (is_empty nodes) eqn:E; [done|].
    apply is_empty_false in E. injection Hc as <-. eauto.
  - intros (lane & nodes & Hl & Hne%is_empty_false & ->). exists (lane, nodes).
    by rewrite elem_of_enumerate, Hne.
Qed.

Lemma derive_visibility_compiled sha256 r o order plan boundary :
  recorder_shape r → hazard_free r → compiled sha256 r o order plan → plan_dispatches plan ≠ [] →
  ∃ vp, derive_aql_visibility plan boundary = Done vp ∧ visibility_ok r plan boundary vp.
Proof.
  intros Hshape Hfree Hcp Hne. set (ds := plan_dispatches plan). set (lanes := Pos.to_nat (opt_lane_count o)).
  pose proof (cp_order _ _ _ _ _ Hcp) as Hto. pose proof (cp_dispatches _ _ _ _ _ Hcp) as Hs.
  fold ds lanes in Hs. unfold derive_aql_visibility. fold ds.
  rewrite (proj2 (is_empty_false ds) Hne), (cp_lanes _ _ _ _ _ Hcp). fold lanes.
  destruct (vis_reachability_spec r lanes order ds Hshape Hto Hs) as (m & -> & Hm).
  cbn [unwrap mbind exec_bind].
  rewrite (validate_ordered_ok r lanes order ds Hshape Hto Hs Hfree m Hm). cbn [mbind exec_bind].
  destruct (derive_raw_ok r lanes order ds Hshape Hto Hs Hfree m Hm) as (acq & rel & Hraw & Ht).
  pose proof (raw_consumers _ _ _ _ Hraw) as Hcons. rewrite Hraw.
  cbn [unwrap mbind exec_bind].
  destruct (lanes_by_node_ok r lanes order ds Hshape Hto Hs Hfree) as (v & -> & Hv).
  cbn [unwrap mbind exec_bind].
  destruct (derive_dispatches_ok r lanes order ds Hshape Hto Hs Hfree m v acq rel boundary Hm Hv Ht Hcons)
    as (st & derived & -> & Hinv).
  cbn [unwrap mbind exec_bind]. eexists; split; [done|].
  assert (∀ lane, lane < lanes → ls_nodes st !! lane = Some (pd_node <$> filter (λ d, pd_lane d = lane) ds))
    as Hnodes.
  { intros lane Hl. rewrite (li_nodes _ _ _ _ _ _ _ Hinv lane Hl). by rewrite take_ge. }
  assert (∀ lane nodes, ls_nodes st !! lane = Some nodes ↔
    lane < lanes ∧ nodes = pd_node <$> filter (λ d, pd_lane d = lane) ds) as Hget.
  { intros lane nodes. split.
    - intros Hl. apply lookup_lt_Some in Hl as Hlt. rewrite (li_nodes_length _ _ _ _ _ _ _ Hinv) in Hlt.
      split; [done|]. rewrite Hnodes in Hl by done. congruence.
    - intros [Hl ->]. by apply Hnodes. }
  split; simpl.
  - apply Hinv.
  - intros i d p Hd Hp. by eapply li_policy.
  - intros i j di dj Hdi Hdj Hij Hl Hor. eapply (li_separated _ _ _ _ _ _ _ Hinv); [done|..].
    + by eapply lookup_lt_Some.
    + done.
    + by exists di.
    + eauto.
  - intros lane nodes. rewrite elem_of_lane_consolidations, (cp_lanes _ _ _ _ _ Hcp). fold lanes. split.
    + intros (l & ns & Hl & Hn & [= -> ->]). apply Hget in Hl as [? ->]. done.
    + intros (Hl & Hn & ->). exists lane. eexists. rewrite Hget. done.
  - intros lane. rewrite list_elem_of_fmap. setoid_rewrite elem_of_lane_consolidations. split.
    + intros (c & -> & l & nodes & [Hl ->]%Hget & Hn & ->). simpl.
      destruct (filter _ ds) as [|d l'] eqn:E; [done|]. exists d.
      assert (d ∈ filter (λ d, pd_lane d = l) ds) as Hin by (rewrite E; set_solver).
      apply list_elem_of_filter in Hin. tauto.
    + intros (d & Hd & <-). eexists. split; [|exists (pd_lane d); eexists; split; [apply Hnodes|split; [|done]]].
      * done.
      * apply list_elem_of_split in Hd as (l1 & l2 & Hd). apply (do_lane _ _ _ _ (proj2 Hs _ _ _ Hd)).
      * intros Hn%fmap_nil_inv. assert (d ∈ filter (λ d', pd_lane d' = pd_lane d) ds) as Hin; [|rewrite Hn in Hin; set_solver].
        by apply list_elem_of_filter.
  - done.
Qed.

(** ** Queues

    The lanes as AQL queues: packets of a lane launch in order, a barriered
    packet waits for all earlier packets of its lane to complete, and a dispatch
    waits for its prerequisites in other lanes (the dependency signals every
    backend must honour).  Completion is otherwise unordered. *)

Record queue_state := mkQueues { q_launched : list nat; q_completed : list nat }.

Section queues.
Context (plan : CompiledPlan) (vp : DerivedVisibilityPlan).

Definition earlier_in_lane (i j : nat) : Prop :=
  ∃ p q, vp_dispatches vp !! i = Some p ∧ vp_dispatches vp !! j = Some q ∧
    i < j ∧ dp_lane p = dp_lane q.

Definition cross_lane_prerequisite (i j : nat) : Prop :=
  ∃ di dj, plan_dispatches plan !! i = Some di ∧ plan_dispatches plan !! j = Some dj ∧
    pd_node di ∈ pd_dependencies dj ∧ pd_lane di ≠ pd_lane dj.

Inductive queue_step : relation queue_state :=
| queue_launch s j p :
    vp_dispatches vp !! j = Some p → j ∉ q_launched s →
    (∀ i, earlier_in_lane i j → i ∈ q_launched s) →
    (hdr_barrier (dp_header p) = true → ∀ i, earlier_in_lane i j → i ∈ q_completed s) →
    (∀ i, cross_lane_prerequisite i j → i ∈ q_completed s) →
    queue_step s (mkQueues (j :: q_launched s) (q_completed s))
| queue_complete s i :
    i ∈ q_launched s → queue_step s (mkQueues (q_launched s) (i :: q_completed s)).

Definition queue_start : queue_state := mkQueues [] [].

Record queue_inv (s : queue_state) : Prop := {
  qi_completed i : i ∈ q_completed s → i ∈ q_launched s;
  qi_launched j : j ∈ q_launched s → is_Some (vp_dispatches vp !! j);
  qi_order i j : j ∈ q_launched s → earlier_in_lane i j → i ∈ q_launched s;
  qi_barrier i j p : j ∈ q_launched s → vp_dispatches vp !! j = Some p →
    hdr_barrier (dp_header p) = true → earlier_in_lane i j → i ∈ q_completed s;
  qi_cross i j : j ∈ q_launched s → cross_lane_prerequisite i j → i ∈ q_completed s
}.

Lemma queue_inv_start : queue_inv queue_start.
Proof. split; simpl; set_solver. Qed.

Lemma queue_inv_step s s' : queue_step s s' → queue_inv s → queue_inv s'.
Proof.
  intros Hstep [H1 H2 H3 H4 H5].
  destruct Hstep as [s j p Hp Hj Hord Hbar Hcross|s i Hi]; split; simpl.
  - set_solver.
  - intros k [->|Hk]%elem_of_cons; [eauto|by apply H2].
  - intros k l [->|Hl]%elem_of_cons He; right; [by apply Hord|by eapply H3].
  - intros k l q [->|Hl]%elem_of_cons Hq Hb He; [|by eapply H4]. simplify_eq. by apply Hbar.
  - intros k l [->|Hl]%elem_of_cons Hc; [by apply Hcross|by eapply H5].
  - intros k [->|Hk]%elem_of_cons; [done|by apply H1].
  - done.
  - done.
  - intros. right. by eapply H4.
  - intros. right. by eapply H5.
Qed.

Lemma queue_reachable_inv s : rtc queue_step queue_start s → queue_inv s.
Proof.
  intros Hs. pose proof queue_inv_start as H0. revert H0.
  induction Hs as [|x y z Hxy Hyz IH]; [done|]. intros Hx. apply IH. by eapply queue_inv_step.
Qed.
End queues.

Lemma tc_last_step {A} (R : relation A) x z :
  tc R x z → ∃ y, R y z ∧ (x = y ∨ tc R x y).
Proof.
  induction 1 as [x z Hxz|x y z Hxy Hyz IH]; [eauto|].
  destruct IH as (w & Hw & [->|Hyw]); exists w; (split; [done|]); right.
  - by constructor.
  - by eapply tc_l.
Qed.

Lemma position_of_node r order lanes ds x :
  topo_order r order → schedule_ok r lanes order ds → valid_id r x →
  ∃ k d, ds !! k = Some d ∧ pd_node d = x.
Proof.
  intros Hto [Hmap _] Hx. assert (x ∈ pd_node <$> ds) as Hin by (rewrite Hmap; by apply (to_nodes _ _ Hto)).
  apply list_elem_of_fmap in Hin as (d & -> & [k Hk]%list_elem_of_lookup). eauto.
Qed.

Lemma earlier_in_lane_of r plan boundary vp i j di dj :
  visibility_ok r plan boundary vp →
  plan_dispatches plan !! i = Some di → plan_dispatches plan !! j = Some dj →
  i < j → pd_lane di = pd_lane dj → earlier_in_lane vp i j.
Proof.
  intros Hvo Hi Hj Hij Hl.
  destruct (lookup_lt_is_Some_2 (vp_dispatches vp) i) as [p Hp].
  { rewrite (vo_length _ _ _ _ Hvo). by eapply lookup_lt_Some. }
  destruct (lookup_lt_is_Some_2 (vp_dispatches vp) j) as [q Hq].
  { rewrite (vo_length _ _ _ _ Hvo). by eapply lookup_lt_Some. }
  exists p, q. split_and!; [done..|].
  by rewrite (po_lane _ _ _ _ _ _ (vo_policy _ _ _ _ Hvo _ _ _ Hi Hp)),
    (po_lane _ _ _ _ _ _ (vo_policy _ _ _ _ Hvo _ _ _ Hj Hq)).
Qed.

(** Within a lane, a launched dispatch finds everything it depends on complete. *)
Lemma same_lane_complete r plan boundary vp s i j di dj :
  visibility_ok r plan boundary vp → queue_inv plan vp s →
  plan_dispatches plan !! i = Some di → plan_dispatches plan !! j = Some dj →
  i < j → pd_lane di = pd_lane dj → ordered_before r di dj ∨ conflicting di dj →
  j ∈ q_launched s → i ∈ q_completed s.
Proof.
  intros Hvo Hq Hi Hj Hij Hl Hor Hjl.
  destruct (vo_separated _ _ _ _ Hvo i j di dj Hi Hj Hij Hl Hor) as (b & p & Hib & Hbj & Hb & Hbl & Hbar).
  destruct (lookup_lt_is_Some_2 (plan_dispatches plan) b) as [db Hdb].
  { rewrite <-(vo_length _ _ _ _ Hvo). by eapply lookup_lt_Some. }
  rewrite (po_lane _ _ _ _ _ _ (vo_policy _ _ _ _ Hvo _ _ _ Hdb Hb)) in Hbl.
  assert (b ∈ q_launched s) as Hbs.
  { destruct (decide (b = j)) as [->|Hne]; [done|]. apply (qi_order _ _ _ Hq b j Hjl).
    apply (earlier_in_lane_of r plan boundary vp b j db dj); [done..|lia|done]. }
  eapply (qi_barrier _ _ _ Hq i b p); [done..|].
  apply (earlier_in_lane_of r plan boundary vp i b di db); [done..|congruence].
Qed.

Lemma launched_after_prerequisites sha256 r o order plan boundary vp s :
  recorder_shape r → compiled sha256 r o order plan → visibility_ok r plan boundary vp →
  queue_inv plan vp s →
  ∀ j dj i di, plan_dispatches plan !! j = Some dj → plan_dispatches plan !! i = Some di →
    ordered_before r di dj → j ∈ q_launched s → i ∈ q_completed s.
Proof.
  intros Hshape Hcp Hvo Hq. pose proof (cp_order _ _ _ _ _ Hcp) as Hto.
  pose proof (cp_dispatches _ _ _ _ _ Hcp) as Hs.
  intros j. induction (lt_wf j) as [j _ IH]. intros dj i di Hj Hi Hd Hjl.
  pose proof (ordered_before_lt r _ order _ Hto Hs i j di dj Hi Hj Hd) as Hij.
  destruct (decide (pd_lane di = pd_lane dj)) as [Hl|Hl].
  { apply (same_lane_complete r plan boundary vp s i j di dj); auto. }
  destruct (tc_last_step _ _ _ Hd) as (y & Hy & Hor).
  destruct (shape_edges _ Hshape _ _ Hy) as [Hvy _].
  destruct (position_of_node r order _ _ y Hto Hs Hvy) as (k & dk & Hk & <-).
  assert (ordered_before r dk dj) as Hkj by (by constructor).
  pose proof (ordered_before_lt r _ order _ Hto Hs k j dk dj Hk Hj Hkj) as Hlt.
  assert (k ∈ q_launched s ∧ (pd_lane dk ≠ pd_lane dj → k ∈ q_completed s)) as [Hkl Hkc].
  { destruct (decide (pd_lane dk = pd_lane dj)) as [Hlk|Hlk].
    - split; [|done]. apply (qi_order _ _ _ Hq k j Hjl). by eapply (earlier_in_lane_of r plan boundary).
    - assert (k ∈ q_completed s) as Hc; [|split; [by apply (qi_completed _ _ _ Hq)|done]].
      apply (qi_cross _ _ _ Hq k j Hjl). exists dk, dj. split_and!; [done..| |done].
      rewrite (do_deps _ _ _ _ (position_ok r _ order _ Hs j dj Hj)). by apply elem_of_dependencies_of. }
  destruct Hor as [Heq|Hor].
  - assert (i = k) as -> by (by eapply (position_inj r _ order)). apply Hkc.
    assert (di = dk) as <- by congruence. done.
  - by eapply (IH k Hlt dk i di).
Qed.

(** ** Main results *)

(** For every nonempty compiled plan the derivation succeeds.  A dispatch
    acquires at agent scope or wider if it reads what an earlier dispatch wrote,
    and at least the entry scope if it is the first of its lane; it releases
    exactly if a later dispatch reads what it writes; fences and barriers appear
    only where one of these reasons or an ordering reason exists; consolidation
    packets cover exactly the dispatches of the nonempty lanes. *)
Theorem visibility_derived sha256 r o plan boundary :
  recorder_wf r → plan_compile sha256 r o = Done plan → plan_dispatches plan ≠ [] →
  ∃ vp, derive_aql_visibility plan boundary = Done vp ∧ visibility_ok r plan boundary vp.
Proof.
  intros Hwf Hc Hne. destruct (plan_compile_Done _ _ _ _ Hwf Hc) as (_ & Hf & order & Hcp).
  eapply derive_visibility_compiled; [apply Hwf|done..].
Qed.

Lemma visibility_derived_witness :
  ∃ vp, derive_aql_visibility sample_plan boundary_default = Done vp ∧
    length (vp_dispatches vp) = 3.
Proof.
  destruct (visibility_derived sample_sha256 sample sample_options sample_plan boundary_default)
    as (vp & Hvp & Hok).
  - exact sample_wf.
  - exact sample_plan_compiles.
  - vm_compute. discriminate.
  - exists vp. split; [exact Hvp|]. rewrite (vo_length _ _ _ _ Hok). vm_compute. reflexivity.
Defined.

(** C29: barrier elision is sound.  However the queues interleave, once a dispatch
    has been launched every dispatch it transitively depends on has completed,
    and no dispatch that conflicts with it on memory is still running. *)
Theorem barriers_sound sha256 r o plan boundary vp s j dj i di :
  recorder_wf r → plan_compile sha256 r o = Done plan →
  derive_aql_visibility plan boundary = Done vp →
  rtc (queue_step plan vp) queue_start s →
  plan_dispatches plan !! j = Some dj → plan_dispatches plan !! i = Some di →
  j ∈ q_launched s → i < j → ordered_before r di dj ∨ conflicting di dj →
  i ∈ q_completed s.
Proof.
  intros Hwf Hc Hvp Hs Hj Hi Hjl Hij Hor.
  destruct (plan_compile_Done _ _ _ _ Hwf Hc) as (_ & Hf & order & Hcp).
  destruct (derive_visibility_compiled sha256 r o order plan boundary) as (vp' & Hvp' & Hvo);
    [apply Hwf|done..| |].
  { intros E. rewrite E in Hj. done. }
  rewrite Hvp in Hvp'. injection Hvp' as <-.
  eapply (launched_after_prerequisites sha256 r o order plan boundary vp s);
    [apply Hwf|done|done|by apply queue_reachable_inv|exact Hj|exact Hi| |done].
  destruct Hor as [?|Hcf]; [done|].
  eapply (conflicting_ordered r _ order); [apply Hwf|apply Hcp|apply Hcp|done|exact Hi|exact Hj|done|done].
Qed.

Definition sample_visibility : DerivedVisibilityPlan :=
  match derive_aql_visibility sample_plan boundary_default with
  | Done vp => vp
  | _ => mkVisibility boundary_default [] [] (mkTerminal consolidation_header [] (ReasonExit ExitAqlToHost))
  end.

Definition sample_queue : queue_state := mkQueues [1; 0] [0].

Lemma sample_cross i : cross_lane_prerequisite sample_plan i 1 → i = 0.
Proof.
  intros (di & dj & Hi & Hj & Hin & _). vm_compute in Hj. injection Hj as <-. cbn in Hin.
  apply list_elem_of_singleton in Hin.
  destruct i as [|[|[|i]]]; vm_compute in Hi; [done|injection Hi as <-; discriminate Hin..|discriminate Hi].
Qed.

Lemma sample_queue_reachable : rtc (queue_step sample_plan sample_visibility) queue_start sample_queue.
Proof.
  eapply rtc_l; [eapply (queue_launch _ _ queue_start 0)|].
  { vm_compute. reflexivity. }
  { set_solver. }
  { intros i (p & q & _ & _ & ? & _). lia. }
  { intros _ i (p & q & _ & _ & ? & _). lia. }
  { intros i (di & dj & _ & Hj & Hin & _). vm_compute in Hj. injection Hj as <-. cbn in Hin. inversion Hin. }
  eapply rtc_l; [apply (queue_complete _ _ _ 0); simpl; set_solver|].
  apply rtc_once. eapply (queue_launch _ _ (mkQueues [0] [0]) 1).
  { vm_compute. reflexivity. }
  { simpl. set_solver. }
  { intros i (p & q & _ & _ & ? & _). assert (i = 0) as -> by lia. simpl. set_solver. }
  { intros _ i (p & q & _ & _ & ? & _). assert (i = 0) as -> by lia. simpl. set_solver. }
  { intros i ->%sample_cross. simpl. set_solver. }
Qed.

Lemma barriers_sound_witness : 0 ∈ q_completed sample_queue.
Proof.
  eapply (barriers_sound sample_sha256 sample sample_options sample_plan boundary_default
    sample_visibility sample_queue 1 _ 0 _).
  - exact sample_wf.
  - exact sample_plan_compiles.
  - vm_compute. reflexivity.
  - exact sample_queue_reachable.
  - vm_compute. reflexivity.
  - vm_compute. reflexivity.
  - simpl. left.
  - lia.
  - left. constructor. apply elem_of_edge_targets. vm_compute. left.
Defined.
