(* ===== verification/Partition.v ===== *)
(** * CU partitions ([partition.rs])

    Splitting a device's compute units into contiguous worker partitions. *)

From S2P Require Import Prelude.

Inductive PartitionPolicy :=
| PartitionNone
| PartitionEqual (parts : positive)
| PartitionExplicit (counts : list Z).

Record CuPartition := mkPartition { cu_index : Z; cu_offset : Z; cu_count : Z }.

Inductive PartitionError :=
| NonDividing (device_cu_count : Z) (parts : Z)
| EmptyExplicit
| ZeroCount (index : nat)
| SumMismatch (sum device_cu_count : Z).

(** The loop over the explicit counts: partitions so far, offset and sum.  The
    [expect] on the index is the panic. *)
Fixpoint explicit_loop (i : nat) (counts : list Z) (partitions : list CuPartition)
    (offset sum : Z) : exec PartitionError (list CuPartition * Z) :=
  match counts with
  | [] => Done (partitions, sum)
  | count :: counts =>
      if (count =? 0)%Z then Fail (ZeroCount i)
      else
        index ← unwrap (try_from_len 32 i);
        explicit_loop (S i) counts
          (partitions ++ [mkPartition (Z.of_nat index) offset count])
          (saturating_add 32 offset count) (saturating_add 32 sum count)
  end.

Definition partition_validate (policy : PartitionPolicy) (device_cu_count : Z) :
    exec PartitionError (list CuPartition) :=
  match policy with
  | PartitionNone => Done [mkPartition 0 0 device_cu_count]
  | PartitionEqual parts =>
      let n := Zpos parts in
      if (umax 32 <? n)%Z then Fail (NonDividing device_cu_count n)
      else if negb (device_cu_count mod n =? 0)%Z then Fail (NonDividing device_cu_count n)
      else
        let cu_each := (device_cu_count / n)%Z in
        Done ((λ index : nat, mkPartition (Z.of_nat index) (Z.of_nat index * cu_each) cu_each)
                <$> seq 0 (Pos.to_nat parts))
  | PartitionExplicit counts =>
      if is_empty counts then Fail EmptyExplicit
      else
        '(partitions, sum) ← explicit_loop 0 counts [] 0 0;
        if negb (sum =? device_cu_count)%Z then Fail (SumMismatch sum device_cu_count)
        else Done partitions
  end.

(** ** Tilings *)

(** The partitions are numbered from [i], the first starts at [offset], each
    starts where the previous one ends, and the last ends at [stop]. *)
Fixpoint tiles (i : nat) (offset : Z) (ps : list CuPartition) (stop : Z) : Prop :=
  match ps with
  | [] => offset = stop
  | p :: ps => cu_index p = Z.of_nat i ∧ cu_offset p = offset ∧ (0 ≤ cu_count p)%Z ∧
      tiles (S i) (offset + cu_count p) ps stop
  end.

Lemma tiles_snoc ps : ∀ i offset stop p,
  tiles i offset ps stop → cu_index p = Z.of_nat (i + length ps) → cu_offset p = stop →
  (0 ≤ cu_count p)%Z → tiles i offset (ps ++ [p]) (stop + cu_count p).
Proof.
  induction ps as [|q ps IH]; intros i offset stop p; simpl.
  - intros -> Hi Ho Hc. split; [rewrite Hi; f_equal; lia|]. split_and!; (done || lia).
  - intros (H1 & H2 & H3 & Ht) Hi Ho Hc. split_and!; [done..|]. apply IH; [done| |done|done].
    rewrite Hi. f_equal. lia.
Qed.

Lemma tiles_lookup ps : ∀ i offset stop k p,
  tiles i offset ps stop → ps !! k = Some p →
  (offset ≤ cu_offset p ∧ cu_offset p + cu_count p ≤ stop)%Z.
Proof.
  assert (∀ ps i offset stop, tiles i offset ps stop → (offset ≤ stop)%Z) as Hle.
  { clear. induction ps as [|q ps IH]; intros i offset stop; simpl; [lia|].
    intros (_ & _ & Hc & Ht%IH). lia. }
  induction ps as [|q ps IH]; intros i offset stop k p; simpl; [done|].
  intros (_ & Ho & Hc & Ht) Hk. destruct k as [|k]; simpl in Hk.
  - injection Hk as ->. apply Hle in Ht. lia.
  - apply (IH _ _ _ _ _ Ht) in Hk. lia.
Qed.

Definition total (counts : list Z) : Z := foldr Z.add 0%Z counts.

Lemma total_nonneg counts : Forall (λ c, 0 ≤ c)%Z counts → (0 ≤ total counts)%Z.
Proof. induction 1; simpl; lia. Qed.

(** The sum saturates at the end exactly as it does along the way. *)
Lemma explicit_loop_sum counts : ∀ i ps offset sum ps' sum',
  Forall (λ c, 0 ≤ c)%Z counts → (0 ≤ sum ≤ umax 32)%Z →
  explicit_loop i counts ps offset sum = Done (ps', sum') →
  sum' = Z.min (sum + total counts) (umax 32).
Proof.
  induction counts as [|c counts IH]; intros i ps offset sum ps' sum' Hc Hs; simpl.
  { intros [= _ <-]. lia. }
  apply Forall_cons in Hc as [Hc0 Hc]. destruct (Z.eqb_spec c 0); [done|].
  intros Hl. apply bind_Done_inv in Hl as (idx & _ & Hl).
  pose proof (total_nonneg counts Hc).
  apply IH in Hl; [|done|unfold saturating_add; lia]. rewrite Hl. unfold saturating_add. lia.
Qed.

Lemma explicit_loop_tiles counts : ∀ i ps offset sum ps' sum',
  Forall (λ c, 0 ≤ c)%Z counts → i = length ps → tiles 0 0 ps offset →
  (offset + total counts ≤ umax 32)%Z →
  explicit_loop i counts ps offset sum = Done (ps', sum') →
  tiles 0 0 ps' (offset + total counts) ∧ cu_count <$> ps' = (cu_count <$> ps) ++ counts ∧
  Forall (λ c, 0 < c)%Z counts.
Proof.
  induction counts as [|c counts IH]; intros i ps offset sum ps' sum' Hc Hi Ht Hle; simpl in *.
  { intros [= <- _]. rewrite app_nil_r, Z.add_0_r. done. }
  apply Forall_cons in Hc as [Hc0 Hc]. destruct (Z.eqb_spec c 0); [done|].
  intros Hl. apply bind_Done_inv in Hl as (idx & [-> Hidx]%unwrap_Done%try_from_len_Some & Hl).
  pose proof (total_nonneg counts Hc) as Hnn.
  assert (saturating_add 32 offset c = offset + c)%Z as Hsat by (unfold saturating_add; lia).
  rewrite Hsat in Hl. apply IH in Hl as (H1 & H2 & H3); [|done|rewrite length_app; simpl; lia| |lia].
  - split; [by rewrite Z.add_assoc|]. split; [by rewrite H2, fmap_app, <-app_assoc|].
    constructor; [lia|done].
  - apply (tiles_snoc _ 0 0 offset (mkPartition _ _ _)); simpl; [done|by rewrite Hi|done|done].
Qed.

Lemma tiles_seq each n : ∀ i,
  (0 ≤ each)%Z →
  tiles i (Z.of_nat i * each)
    ((λ index : nat, mkPartition (Z.of_nat index) (Z.of_nat index * each) each) <$> seq i n)
    (Z.of_nat (i + n) * each).
Proof.
  induction n as [|n IH]; intros i He; simpl; [by rewrite Nat.add_0_r|].
  split_and!; [done..|]. replace (Z.of_nat i * each + each)%Z with (Z.of_nat (S i) * each)%Z by lia.
  rewrite <-Nat.add_succ_comm. by apply IH.
Qed.

(** ** Main results *)

(** On a device with fewer than [u32::MAX] compute units, a validated policy
    yields numbered, contiguous partitions that cover the device exactly, in
    order and without overlap; equal splits have one size and explicit splits
    the requested, nonzero sizes. *)
Theorem partitions_tile policy device ps :
  (0 ≤ device < umax 32)%Z →
  (∀ counts, policy = PartitionExplicit counts → Forall (in_u 32) counts) →
  partition_validate policy device = Done ps →
  tiles 0 0 ps device ∧
  match policy with
  | PartitionNone => length ps = 1
  | PartitionEqual parts => length ps = Pos.to_nat parts ∧
      ∀ p, p ∈ ps → (cu_count p * Zpos parts = device)%Z
  | PartitionExplicit counts => cu_count <$> ps = counts ∧ Forall (λ c, 0 < c)%Z counts
  end.
Proof.
  intros Hd Hc. destruct policy as [|parts|counts]; simpl.
  - intros [= <-]. simpl. split_and!; (done || lia).
  - destruct (Z.ltb_spec (umax 32) (Zpos parts)); [done|].
    destruct (Z.eqb_spec (device mod Zpos parts) 0) as [Hm|]; [|done]. simpl. intros [= <-].
    pose proof (Z.div_mod device (Zpos parts) ltac:(lia)) as Hdm. rewrite Hm, Z.add_0_r in Hdm.
    split.
    + pose proof (tiles_seq (device / Zpos parts) (Pos.to_nat parts) 0) as Ht.
      rewrite Nat.add_0_l, positive_nat_Z, <-Hdm in Ht. apply Ht. apply Z.div_pos; lia.
    + split; [by rewrite length_fmap, length_seq|].
      intros p (k & -> & _)%list_elem_of_fmap. simpl. lia.
  - specialize (Hc counts eq_refl).
    assert (Forall (λ c, 0 ≤ c)%Z counts) as Hnn by (eapply Forall_impl; [done|]; unfold in_u; lia).
    destruct (is_empty counts); [done|]. intros Hv.
    apply bind_Done_inv in Hv as ([ps' sum] & Hl & Hv). simpl in Hv.
    destruct (Z.eqb_spec sum device) as [->|]; [|done]. injection Hv as <-.
    assert (0 ≤ 0 ≤ umax 32)%Z as H0 by (unfold umax; lia).
    pose proof (explicit_loop_sum _ _ _ _ _ _ _ Hnn H0 Hl) as Hsum.
    assert (total counts = device) as Htot by lia.
    apply explicit_loop_tiles in Hl as (H1 & H2 & H3); [|done|done|done|lia].
    rewrite Z.add_0_l, Htot in H1. done.
Qed.

Lemma partitions_tile_witness :
  ∃ ps, partition_validate (PartitionExplicit [16; 48; 32]%Z) 96 = Done ps ∧ tiles 0 0 ps 96.
Proof.
  eexists. split; [vm_compute; reflexivity|].
  eapply (partitions_tile (PartitionExplicit [16; 48; 32]%Z) 96);
    [unfold umax; lia| |vm_compute; reflexivity].
  intros counts [= <-]. repeat constructor; unfold in_u, umax; lia.
Defined.

(** Saturation hides an overflowing explicit sum on a device that reports
    [u32::MAX] units: the counts below do not sum to the device's, and the
    second partition lies outside it. *)
Example saturated_sum_accepted :
  partition_validate (PartitionExplicit [u32_max; u32_max]) u32_max =
  Done [mkPartition 0 0 u32_max; mkPartition 1 u32_max u32_max].
Proof. vm_compute. reflexivity. Qed.
