(* ===== verification/Lanes.v ===== *)
(** * Lane counts ([lanes.rs], [aql/queue_policy.rs])

    How many queue lanes to submit on: the measured table, explicit widths,
    runtime probes and their profiles, and the operator's queue policy. *)

From S2P Require Import Prelude F64.

Definition CONSERVATIVE_LANES : nat := 2.
Definition MAX_LANES : nat := 16.

Inductive LaneWidth :=
| LaneSingle
| LaneExplicit (n : positive)
| LaneMeasured
| LaneProbe (candidates : list nat) (dispatches : nat).

Inductive LaneError :=
| TooWide (requested : nat)
| NoWork.

Definition measured_lanes (device_name : rstr) : option nat :=
  if starts_with device_name (lit "gfx1030") then Some 4
  else if starts_with device_name (lit "gfx1100") then Some 4
  else if starts_with device_name (lit "gfx1151") then Some 4
  else if starts_with device_name (lit "gfx1201") then Some 2
  else None.

(** One sample; the state is the best lane so far and its cost. *)
Definition best_step (best : option nat * Z) (sample : nat * Z) : option nat * Z :=
  let '(best_lane, best_cost) := best in
  let '(lane, cost) := sample in
  if lane =? 0 then best
  else if negb (f64_is_finite cost) then best
  else match best_lane with
       | None => (Some lane, cost)
       | Some current_best =>
           if f64_lt cost best_cost then (Some lane, cost)
           else if f64_eq cost best_cost && (lane <? current_best) then (Some lane, best_cost)
           else best
       end.

Definition best_from_samples (samples : list (nat * Z)) : option nat :=
  (foldl best_step (None, f64_infinity) samples).1.

Definition clamp_lanes (requested dispatch_count : nat) : nat := (requested `min` dispatch_count) `max` 1.

(** The guard and the clamp that every resolution ends with. *)
Definition guard_lanes (requested dispatch_count : nat) : result LaneError nat :=
  if MAX_LANES <? requested then Err (TooWide requested) else Ok (clamp_lanes requested dispatch_count).

Fixpoint probe_loop (dispatch_count : nat) (candidates out : list nat) : result LaneError (list nat) :=
  match candidates with
  | [] => Ok out
  | c :: candidates =>
      if c =? 0 then Err NoWork
      else if MAX_LANES <? c then Err (TooWide c)
      else
        let clamped := clamp_lanes c dispatch_count in
        probe_loop dispatch_count candidates (if decide (clamped ∈ out) then out else out ++ [clamped])
  end.

Definition probe_plan (policy : LaneWidth) (device_name : rstr) (dispatch_count : nat) :
    result LaneError (list nat) :=
  if dispatch_count =? 0 then Err NoWork
  else match policy with
       | LaneSingle => w ← guard_lanes 1 dispatch_count; Ok [w]
       | LaneExplicit n => w ← guard_lanes (Pos.to_nat n) dispatch_count; Ok [w]
       | LaneMeasured =>
           w ← guard_lanes (default CONSERVATIVE_LANES (measured_lanes device_name)) dispatch_count;
           Ok [w]
       | LaneProbe candidates _ =>
           if is_empty candidates then Err NoWork
           else
             out ← probe_loop dispatch_count candidates [];
             if is_empty out then Err NoWork else Ok out
       end.

Definition lanes_resolve (policy : LaneWidth) (device_name : rstr) (dispatch_count : nat) :
    result LaneError nat :=
  if dispatch_count =? 0 then Err NoWork
  else
    let requested := match policy with
      | LaneSingle => 1
      | LaneExplicit n => Pos.to_nat n
      | LaneMeasured => default CONSERVATIVE_LANES (measured_lanes device_name)
      | LaneProbe _ _ => CONSERVATIVE_LANES
      end in
    guard_lanes requested dispatch_count.

Record LaneProfile := mkProfile {
  prof_device : rstr;
  prof_lanes : nat;
  prof_samples : list (nat * Z)
}.

Definition profile_from_samples (device : rstr) (samples : list (nat * Z)) : option LaneProfile :=
  lanes ← best_from_samples samples;
  if (lanes =? 0) || (MAX_LANES <? lanes) then None else Some (mkProfile device lanes samples).

Definition profile_resolve (p : LaneProfile) (device_name : rstr) (dispatch_count : nat) :
    result LaneError nat :=
  if dispatch_count =? 0 then Err NoWork
  else
    let requested := if decide (prof_device p = device_name) then prof_lanes p else CONSERVATIVE_LANES in
    guard_lanes requested dispatch_count.

Definition matches_device (p : LaneProfile) (device_name : rstr) : bool :=
  bool_decide (prof_device p = device_name).

Definition resolve_with_profile (policy : LaneWidth) (device_name : rstr) (dispatch_count : nat)
    (profile : option LaneProfile) : result LaneError nat :=
  if dispatch_count =? 0 then Err NoWork
  else
    let requested := match policy with
      | LaneSingle => 1
      | LaneExplicit n => Pos.to_nat n
      | LaneMeasured => default CONSERVATIVE_LANES (measured_lanes device_name)
      | LaneProbe _ _ =>
          match profile with
          | Some p => if decide (prof_device p = device_name) then prof_lanes p else CONSERVATIVE_LANES
          | None => CONSERVATIVE_LANES
          end
      end in
    guard_lanes requested dispatch_count.

(** ** Queue policies *)

Inductive QueuePolicy := QueueAuto | QueueOne | QueueTwo | QueueFour.

Definition policy_as_str (p : QueuePolicy) : rstr :=
  match p with
  | QueueAuto => lit "auto" | QueueOne => lit "1" | QueueTwo => lit "2" | QueueFour => lit "4"
  end.

Definition explicit_lanes (p : QueuePolicy) : option nat :=
  match p with
  | QueueAuto => None | QueueOne => Some 1 | QueueTwo => Some 2 | QueueFour => Some 4
  end.

Definition automatic_lane_limit (device_name : rstr) : nat :=
  let normalized := to_ascii_lowercase device_name in
  match measured_lanes normalized with
  | Some measured => measured
  | None =>
      if starts_with normalized (lit "gfx12") then 2
      else if starts_with normalized (lit "gfx11") then 4
      else 1
  end.

Definition policy_resolve (p : QueuePolicy) (device_name : rstr) (independent_width : nat) : nat :=
  let available := independent_width `max` 1 in
  let requested := default (automatic_lane_limit device_name) (explicit_lanes p) in
  requested `min` available.

(** The error carries the text that was not understood. *)
Definition policy_from_str (value : rstr) : result rstr QueuePolicy :=
  let v := to_ascii_lowercase value in
  if decide (v = lit "auto") then Ok QueueAuto
  else if decide (v = lit "1") then Ok QueueOne
  else if decide (v = lit "one") then Ok QueueOne
  else if decide (v = lit "2") then Ok QueueTwo
  else if decide (v = lit "two") then Ok QueueTwo
  else if decide (v = lit "4") then Ok QueueFour
  else if decide (v = lit "four") then Ok QueueFour
  else Err value.

(** ** The best sample *)

Definition sample_valid (s : nat * Z) : Prop := s.1 ≠ 0 ∧ f64_is_finite s.2 = true.

(** [s] is at least as good as [t]: cheaper, or as cheap on no more lanes. *)
Definition sample_le (s t : nat * Z) : Prop :=
  (f64_order s.2 < f64_order t.2)%Z ∨ (f64_order s.2 = f64_order t.2 ∧ s.1 ≤ t.1).

(** The loop state after the samples [l]: nothing valid so far, or a lane and a
    cost of the order of the best sample. *)
Definition best_inv (l : list (nat * Z)) (best : option nat * Z) : Prop :=
  match best with
  | (None, _) => ∀ s, s ∈ l → ¬ sample_valid s
  | (Some lane, cost) => f64_is_finite cost = true ∧
      ∃ s, s ∈ l ∧ sample_valid s ∧ s.1 = lane ∧ f64_order s.2 = f64_order cost ∧
        ∀ t, t ∈ l → sample_valid t → sample_le s t
  end.

Lemma sample_le_trans s t u : sample_le s t → sample_le t u → sample_le s u.
Proof. unfold sample_le. lia. Qed.

Lemma best_step_inv l best x : best_inv l best → best_inv (l ++ [x]) (best_step best x).
Proof.
  destruct best as [[lane|] cost], x as [l0 c0]; simpl; intros Hinv.
  - destruct Hinv as (Hcost & s & Hs & Hv & Hl & Ho & Hbest).
    assert (¬ sample_valid (l0, c0) → best_inv (l ++ [(l0, c0)]) (Some lane, cost)) as Hskip.
    { intros Hn. split; [done|]. exists s. split_and!; [set_solver|done..|].
      intros t [Ht| ->%list_elem_of_singleton]%elem_of_app Hvt; [by apply Hbest|done]. }
    destruct (Nat.eqb_spec l0 0) as [->|Hl0]; [apply Hskip; unfold sample_valid; simpl; tauto|].
    destruct (f64_is_finite c0) eqn:Hc0; simpl; [|apply Hskip; intros [_ Hf]; simpl in Hf; congruence].
    assert (sample_valid (l0, c0)) as Hv0 by done.
    destruct (f64_lt c0 cost) eqn:Hlt; [|destruct (f64_eq c0 cost && (l0 <? lane)) eqn:Heq].
    + apply f64_lt_finite in Hlt; [|done..]. split; [done|]. exists (l0, c0).
      split_and!; [set_solver|done..|]. intros t [Ht| ->%list_elem_of_singleton]%elem_of_app Hvt.
      * eapply sample_le_trans; [|by apply Hbest]. left. simpl. lia.
      * right. done.
    + apply andb_true_iff in Heq as [Heq Hlt']. apply f64_eq_finite in Heq; [|done..].
      apply Nat.ltb_lt in Hlt'. split; [done|]. exists (l0, c0). split_and!; [set_solver|done..|].
      intros t [Ht| ->%list_elem_of_singleton]%elem_of_app Hvt.
      * eapply sample_le_trans; [|by apply Hbest]. right. simpl. lia.
      * right. done.
    + split; [done|]. exists s. split_and!; [set_solver|done..|].
      intros t [Ht| ->%list_elem_of_singleton]%elem_of_app Hvt; [by apply Hbest|].
      assert (¬ (f64_order c0 < f64_order cost)%Z) as Hge
        by (rewrite <-(f64_lt_finite c0 cost); congruence).
      apply andb_false_iff in Heq as [Heq|Hlt'].
      * assert (f64_order c0 ≠ f64_order cost) by (rewrite <-(f64_eq_finite c0 cost); congruence).
        left. simpl. lia.
      * apply Nat.ltb_ge in Hlt'. unfold sample_le; simpl. lia.
  - destruct (Nat.eqb_spec l0 0) as [->|Hl0].
    { intros s [Hs| ->%list_elem_of_singleton]%elem_of_app; [by apply Hinv|]. by intros [? _]. }
    destruct (f64_is_finite c0) eqn:Hc0; simpl.
    + split; [done|]. exists (l0, c0). split_and!; [set_solver|done..|].
      intros t [Ht| ->%list_elem_of_singleton]%elem_of_app Hvt; [by apply Hinv in Hvt|].
      right. done.
    + intros s [Hs| ->%list_elem_of_singleton]%elem_of_app; [by apply Hinv|].
      intros [_ Hf]. simpl in Hf. congruence.
Qed.

Lemma best_inv_fold samples : best_inv samples (foldl best_step (None, f64_infinity) samples).
Proof.
  induction samples as [|x l IH] using rev_ind; [simpl; set_solver|].
  rewrite foldl_app; simpl. by apply best_step_inv.
Qed.

(** ** Resolution *)

Lemma guard_lanes_Ok requested count w :
  0 < count → guard_lanes requested count = Ok w →
  requested ≤ MAX_LANES ∧ w = clamp_lanes requested count ∧ 1 ≤ w ∧ w ≤ count ∧ w ≤ MAX_LANES.
Proof.
  intros Hc. unfold guard_lanes, clamp_lanes. destruct (Nat.ltb_spec MAX_LANES requested); [done|].
  intros [= <-]. unfold MAX_LANES in *. lia.
Qed.

Lemma clamp_lanes_bounds c count : 0 < count → c ≤ MAX_LANES →
  1 ≤ clamp_lanes c count ∧ clamp_lanes c count ≤ count ∧ clamp_lanes c count ≤ MAX_LANES.
Proof. unfold clamp_lanes, MAX_LANES. lia. Qed.

Lemma probe_loop_Ok count cs : ∀ out out',
  probe_loop count cs out = Ok out' → NoDup out →
  NoDup out' ∧ (∀ w, w ∈ out' ↔ w ∈ out ∨ ∃ c, c ∈ cs ∧ w = clamp_lanes c count) ∧
  (∀ c, c ∈ cs → c ≠ 0 ∧ c ≤ MAX_LANES).
Proof.
  induction cs as [|c cs IH]; intros out out'; simpl.
  { intros [= <-] Hnd. split; [done|]. split; [|set_solver]. intros w. set_solver. }
  destruct (Nat.eqb_spec c 0); [done|]. destruct (Nat.ltb_spec MAX_LANES c); [done|].
  intros Hl Hnd. case_decide as Hin.
  - destruct (IH _ _ Hl Hnd) as (H1 & H2 & H3). split; [done|]. split; [|set_solver].
    intros w. rewrite H2. set_solver.
  - destruct (IH _ _ Hl) as (H1 & H2 & H3).
    { apply NoDup_app. split; [done|]. split; [set_solver|apply NoDup_singleton]. }
    split; [done|]. split; [|set_solver]. intros w. rewrite H2. set_solver.
Qed.

Lemma measured_lanes_bound device n : measured_lanes device = Some n → n = 2 ∨ n = 4.
Proof.
  unfold measured_lanes.
  destruct (starts_with device (lit "gfx1030")), (starts_with device (lit "gfx1100")),
    (starts_with device (lit "gfx1151")), (starts_with device (lit "gfx1201")); naive_solver.
Qed.

(** ** Main results *)

(** The selected lane count is that of a valid sample of least cost, with the
    fewest lanes among equally cheap ones; there is none exactly when no sample
    has a nonzero lane count and a finite cost. *)
Theorem best_from_samples_exact samples :
  match best_from_samples samples with
  | Some lane => ∃ s, s ∈ samples ∧ sample_valid s ∧ s.1 = lane ∧
      ∀ t, t ∈ samples → sample_valid t → sample_le s t
  | None => ∀ s, s ∈ samples → ¬ sample_valid s
  end.
Proof.
  pose proof (best_inv_fold samples) as Hinv. unfold best_from_samples.
  destruct (foldl _ _ samples) as [[lane|] cost]; simpl in *; [|done].
  destruct Hinv as (_ & s & Hs & Hv & Hl & _ & Hb). eauto.
Qed.

(** A probe plan lists distinct lane counts between one and both the dispatch
    count and the guard, namely the clamped candidates, and a resolved width
    obeys the same bounds; for policies that are not probes the plan is the
    resolved width, with or without a profile. *)
Theorem lane_resolution_bounded policy device count profile :
  (∀ out, probe_plan policy device count = Ok out → out ≠ [] ∧ NoDup out ∧
     ∀ w, w ∈ out → 1 ≤ w ∧ w ≤ count ∧ w ≤ MAX_LANES) ∧
  (∀ w, resolve_with_profile policy device count profile = Ok w →
     1 ≤ w ∧ w ≤ count ∧ w ≤ MAX_LANES) ∧
  resolve_with_profile policy device count None = lanes_resolve policy device count ∧
  match policy with
  | LaneProbe _ _ => True
  | _ => resolve_with_profile policy device count profile = lanes_resolve policy device count ∧
      probe_plan policy device count = (w ← lanes_resolve policy device count; Ok [w])
  end.
Proof.
  unfold probe_plan, resolve_with_profile, lanes_resolve.
  destruct (Nat.eqb_spec count 0) as [|Hc]; [split_and!; [done..|by destruct policy]|].
  assert (∀ req w, guard_lanes req count = Ok w → 1 ≤ w ∧ w ≤ count ∧ w ≤ MAX_LANES) as Hg.
  { intros req w Hw. apply guard_lanes_Ok in Hw; [|lia]. tauto. }
  assert (∀ req out, (w ← guard_lanes req count; Ok [w]) = Ok out →
    out ≠ [] ∧ NoDup out ∧ ∀ w, w ∈ out → 1 ≤ w ∧ w ≤ count ∧ w ≤ MAX_LANES) as Hg1.
  { intros req out Ho. apply bind_Ok_inv in Ho as (w & Hw & [= <-]).
    split; [done|]. split; [apply NoDup_singleton|]. intros w' ->%list_elem_of_singleton. by apply Hg in Hw. }
  split_and!.
  - destruct policy as [|n| |cs d]; intros out; [apply Hg1..|].
    destruct (is_empty cs); [done|]. intros Ho. apply bind_Ok_inv in Ho as (out' & Hl & Ho).
    destruct (is_empty out') eqn:E; [done|]. injection Ho as <-. apply is_empty_false in E.
    apply probe_loop_Ok in Hl as (H1 & H2 & H3); [|constructor]. split; [done|]. split; [done|].
    intros w [?|(c & Hcs & ->)]%H2; [set_solver|]. apply clamp_lanes_bounds; [lia|by apply H3].
  - intros w. apply Hg.
  - done.
  - by destruct policy.
Qed.

(** Queue policies print and parse back, in any letter case, and a resolved
    policy is positive and never wider than the independent work or four. *)
Theorem queue_policy_ok p device width :
  policy_from_str (policy_as_str p) = Ok p ∧
  (∀ v, to_ascii_lowercase v = policy_as_str p → policy_from_str v = Ok p) ∧
  1 ≤ policy_resolve p device width ∧ policy_resolve p device width ≤ width `max` 1 ∧
  policy_resolve p device width ≤ 4.
Proof.
  split; [by destruct p|]. split.
  { intros v Hv. unfold policy_from_str. rewrite Hv. by destruct p. }
  assert (∀ d, 1 ≤ automatic_lane_limit d ∧ automatic_lane_limit d ≤ 4) as Ha.
  { intros d. unfold automatic_lane_limit.
    destruct (measured_lanes _) as [n|] eqn:Hm; [apply measured_lanes_bound in Hm; lia|].
    destruct (starts_with (to_ascii_lowercase d) (lit "gfx12")), (starts_with (to_ascii_lowercase d) (lit "gfx11")); lia. }
  unfold policy_resolve. specialize (Ha device). revert Ha. generalize (automatic_lane_limit device). intros a Ha. destruct p; cbn [explicit_lanes from_option]; unfold id; lia.
Qed.
