(* ===== verification/Pm4Exec.v ===== *)
(** * What a PM4 stream does

    A semantics of the packets that [Pm4] emits: shader registers, dispatches
    that see them and boundary commands, in order.  The streams the builder
    produces are sequences of well-formed packets, and running one has the
    effect of the operations it was built from, whatever registers the builder
    left out and whatever pacing it added. *)

From stdpp Require Import gmap.
From S2P Require Import Prelude Packet Device Pm4.

#[local] Open Scope Z_scope.

(** ** Packet headers *)

Lemma lor_add_low k a b : 0 ≤ k → 0 ≤ b < 2 ^ k → Z.lor (a * 2 ^ k) b = a * 2 ^ k + b.
Proof.
  intros Hk Hb. symmetry. apply Z.add_nocarry_lor. apply Z.bits_inj'. intros i Hi.
  rewrite Z.bits_0, Z.land_spec.
  destruct (decide (i < k)).
  - rewrite Z.mul_pow2_bits_low by lia. done.
  - rewrite <-(Z.mod_small b (2 ^ k)) by done. rewrite Z.mod_pow2_bits_high by lia.
    by rewrite andb_false_r.
Qed.

Definition compute_bit (compute : bool) : Z := if compute then 2 else 0.

Lemma packet3_value opcode n compute :
  0 ≤ opcode < 256 → 1 ≤ n ≤ 0x4000 →
  packet3 opcode n compute = 3 * 2 ^ 30 + (n - 1) * 2 ^ 16 + opcode * 2 ^ 8 + compute_bit compute.
Proof.
  intros Hop Hn. unfold packet3, shl32.
  rewrite !Z.shiftl_mul_pow2 by lia. rewrite !Z.mod_small by lia.
  rewrite (lor_add_low 30 3) by lia.
  replace (3 * 2 ^ 30 + (n - 1) * 2 ^ 16) with ((3 * 2 ^ 14 + (n - 1)) * 2 ^ 16) by lia.
  rewrite (lor_add_low 16) by lia.
  replace ((3 * 2 ^ 14 + (n - 1)) * 2 ^ 16 + opcode * 2 ^ 8)
    with (((3 * 2 ^ 14 + (n - 1)) * 2 ^ 8 + opcode) * 2 ^ 8) by lia.
  destruct compute; cbn [compute_bit].
  - rewrite (lor_add_low 8) by lia. lia.
  - rewrite Z.lor_0_r. lia.
Qed.

Lemma land_low x k : 0 ≤ k → Z.land x (Z.ones k) = x mod 2 ^ k.
Proof. intros. by rewrite Z.land_ones. Qed.

Lemma header_opcode_mod h : header_opcode h = (h / 2 ^ 8) mod 2 ^ 8.
Proof.
  unfold header_opcode. rewrite Z.shiftr_div_pow2 by lia. change 0xff with (Z.ones 8).
  by rewrite land_low by lia.
Qed.

Lemma header_body_mod h : header_body h = (Z.to_nat ((h / 2 ^ 16) mod 2 ^ 14) + 1)%nat.
Proof.
  unfold header_body. rewrite Z.shiftr_div_pow2 by lia. change 0x3fff with (Z.ones 14).
  by rewrite land_low by lia.
Qed.

(** The four fields of a type-3 header read back. *)
Lemma packet3_fields opcode n compute :
  0 ≤ opcode < 256 → 1 ≤ n ≤ 0x4000 →
  Z.shiftr (packet3 opcode n compute) 30 = 3 ∧
  header_body (packet3 opcode n compute) = Z.to_nat n ∧
  header_opcode (packet3 opcode n compute) = opcode ∧
  Z.land (packet3 opcode n compute) 0xff = compute_bit compute.
Proof.
  intros Hop Hn. rewrite header_opcode_mod, header_body_mod, Z.shiftr_div_pow2 by lia.
  change 0xff with (Z.ones 8). rewrite land_low, packet3_value by lia.
  destruct compute; cbn [compute_bit]; change (2 ^ 30) with 1073741824;
    change (2 ^ 16) with 65536; change (2 ^ 14) with 16384; change (2 ^ 8) with 256;
    (split_and!; [Z.div_mod_to_equations; lia| |Z.div_mod_to_equations; lia..]);
    (replace ((_ / 65536) mod 16384) with (n - 1) by (Z.div_mod_to_equations; lia)); lia.
Qed.

(** ** Packets and streams *)

Record packet := mkPacket { p_header : Z; p_body : list Z }.

Definition p_dwords (p : packet) : list Z := p_header p :: p_body p.
Definition p_opcode (p : packet) : Z := header_opcode (p_header p).
Definition stream (ps : list packet) : list Z := ps ≫= p_dwords.

Definition valid_packet (p : packet) : Prop :=
  Z.shiftr (p_header p) 30 = 3 ∧ length (p_body p) = header_body (p_header p).

(** A stream is cut at the lengths its headers announce. *)
Fixpoint split_packets (fuel : nat) (dwords : list Z) : option (list packet) :=
  match dwords with
  | [] => Some []
  | h :: rest =>
      match fuel with
      | O => None
      | S fuel =>
          if decide (Z.shiftr h 30 = 3 ∧ (header_body h ≤ length rest)%nat) then
            ps ← split_packets fuel (drop (header_body h) rest);
            Some (mkPacket h (take (header_body h) rest) :: ps)
          else None
      end
  end.

Definition packets_of (dwords : list Z) : option (list packet) :=
  split_packets (length dwords) dwords.

Lemma stream_cons p ps : stream (p :: ps) = p_dwords p ++ stream ps.
Proof. done. Qed.

Lemma stream_app ps qs : stream (ps ++ qs) = stream ps ++ stream qs.
Proof. unfold stream. by rewrite bind_app. Qed.

Lemma stream_singleton p : stream [p] = p_dwords p.
Proof. unfold stream. simpl. by rewrite app_nil_r. Qed.

Lemma length_stream ps : (length ps ≤ length (stream ps))%nat.
Proof. induction ps; [done|]. rewrite stream_cons, length_app. simpl. lia. Qed.

Lemma split_stream ps fuel :
  Forall valid_packet ps → (length ps ≤ fuel)%nat → split_packets fuel (stream ps) = Some ps.
Proof.
  revert fuel. induction ps as [|[h body] ps IH]; intros fuel Hv Hf; [by destruct fuel|].
  apply Forall_cons in Hv as [[H3 Hlen] Hv]. simpl in *.
  destruct fuel as [|fuel]; [lia|]. cbn [split_packets].
  rewrite decide_True by (rewrite length_app; split; [done|lia]).
  rewrite drop_app_length', take_app_length' by lia. rewrite IH by (done || lia). done.
Qed.

Lemma packets_of_stream ps : Forall valid_packet ps → packets_of (stream ps) = Some ps.
Proof. intros. apply split_stream; [done|]. apply length_stream. Qed.

Lemma split_packets_stream fuel dwords ps :
  split_packets fuel dwords = Some ps → dwords = stream ps ∧ Forall valid_packet ps.
Proof.
  revert dwords ps. induction fuel as [|fuel IH]; intros [|h rest] ps; cbn [split_packets];
    [intros [= <-]; by split|done|intros [= <-]; by split|].
  case_decide as Hd; [|done]. destruct Hd as [H3 Hlen].
  destruct (split_packets _ _) as [qs|] eqn:Hq; [|done]. cbn [mbind option_bind].
  intros Hps. apply (inj Some) in Hps as <-.
  apply IH in Hq as [Hs Hv]. split.
  - rewrite stream_cons, <-Hs. unfold p_dwords. cbn [p_header p_body].
    by rewrite <-app_comm_cons, take_drop.
  - constructor; [|done]. split; [done|]. cbn [p_header p_body]. rewrite length_take. lia.
Qed.

(** ** The walk visits the packets of a stream in order *)

Fixpoint fold_at {E S} (step : S → nat → Z → list Z → exec E S) (cursor : nat) (s : S)
    (ps : list packet) : exec E S :=
  match ps with
  | [] => Done s
  | p :: ps => s' ← step s cursor (p_header p) (p_dwords p); fold_at step (cursor + length (p_dwords p)) s' ps
  end.

Fixpoint fold_exec {S} (step : S → Z → list Z → exec Pm4BuildError S) (s : S)
    (ps : list packet) : exec Pm4BuildError S :=
  match ps with
  | [] => Done s
  | p :: ps => s' ← step s (p_header p) (p_dwords p); fold_exec step s' ps
  end.

Lemma walk_at_stream {E S} (malformed : nat → E) (step : S → nat → Z → list Z → exec E S) fuel pre ps s :
  Forall valid_packet ps → (length ps ≤ fuel)%nat →
  walk_at malformed step fuel (pre ++ stream ps) (length pre) s = fold_at step (length pre) s ps.
Proof.
  revert fuel pre s. induction ps as [|p ps IH]; intros fuel pre s Hv Hf.
  { cbn [fold_at]. unfold stream. cbn [mbind list_bind]. rewrite app_nil_r.
    destruct fuel; cbn [walk_at]; by rewrite decide_False by lia. }
  apply Forall_cons in Hv as [[H3 Hlen] Hv]. cbn [length] in Hf.
  destruct fuel as [|fuel]; [lia|]. rewrite stream_cons.
  assert (length (p_dwords p) = 1 + header_body (p_header p))%nat as Hp
    by (unfold p_dwords; simpl; lia).
  cbn [walk_at fold_at]. rewrite decide_True by (rewrite !length_app; lia).
  rewrite lookup_app_r, Nat.sub_diag by lia. replace ((p_dwords p ++ stream ps) !! 0%nat) with (Some (p_header p)) by done.
  cbn [unwrap mbind exec_bind]. rewrite H3, Z.eqb_refl. cbn [negb].
  rewrite decide_True by (rewrite !length_app; lia).
  rewrite drop_app_length, take_app_length' by lia.
  destruct (step s (length pre) (p_header p) (p_dwords p)) as [s'|e|]; cbn [mbind exec_bind]; [|done..].
  rewrite app_assoc. rewrite <-Hp, <-length_app. apply IH; [done|lia].
Qed.

Lemma fold_at_exec {S} (step : S → Z → list Z → exec Pm4BuildError S) cursor s ps :
  fold_at (λ s _, step s) cursor s ps = fold_exec step s ps.
Proof.
  revert cursor s. induction ps as [|p ps IH]; intros cursor s; [done|]. cbn [fold_at fold_exec].
  destruct (step s _ _); [apply IH|done..].
Qed.

Lemma walk_all_stream {S} (step : S → Z → list Z → exec Pm4BuildError S) ps s :
  Forall valid_packet ps → walk_all step (stream ps) s = fold_exec step s ps.
Proof.
  intros Hv. unfold walk_all, walk. rewrite <-(fold_at_exec step 0%nat).
  apply (walk_at_stream _ _ _ []); [done|]. apply length_stream.
Qed.

(** ** The semantics *)

Abbreviation regs := (gmap Z Z).

Fixpoint write_regs (r : regs) (first : Z) (values : list Z) : regs :=
  match values with
  | [] => r
  | v :: values => write_regs (<[first := v]> r) (first + 1) values
  end.

(** A dispatch sees the shader registers and its own operands; any other
    command is observed with its operands. *)
Inductive event :=
| EvDispatch (r : regs) (operands : list Z)
| EvCommand (opcode : Z) (operands : list Z).

Definition step_packet (r : regs) (p : packet) : regs * list event :=
  if p_opcode p =? PACKET3_SET_SH_REG then
    match p_body p with
    | first :: values => (write_regs r first values, [])
    | [] => (r, [])
    end
  else if p_opcode p =? PACKET3_NOP then (r, [])
  else if p_opcode p =? PACKET3_DISPATCH_DIRECT then (r, [EvDispatch r (p_body p)])
  else (r, [EvCommand (p_opcode p) (p_body p)]).

Fixpoint run (r : regs) (ps : list packet) : regs * list event :=
  match ps with
  | [] => (r, [])
  | p :: ps =>
      let s := step_packet r p in
      let t := run (fst s) ps in
      (fst t, snd s ++ snd t)
  end.

Definition run_dwords (r : regs) (dwords : list Z) : option (regs * list event) :=
  ps ← packets_of dwords; Some (run r ps).

Lemma run_app r ps qs :
  run r (ps ++ qs) = (fst (run (fst (run r ps)) qs), snd (run r ps) ++ snd (run (fst (run r ps)) qs)).
Proof.
  revert r. induction ps as [|p ps IH]; intros r; simpl; [by destruct (run r qs)|].
  rewrite IH. simpl. by rewrite app_assoc.
Qed.

Lemma run_dwords_stream r ps :
  Forall valid_packet ps → run_dwords r (stream ps) = Some (run r ps).
Proof. intros Hv. unfold run_dwords. by rewrite packets_of_stream. Qed.

Lemma write_regs_app r first v1 v2 :
  write_regs r first (v1 ++ v2) = write_regs (write_regs r first v1) (first + Z.of_nat (length v1)) v2.
Proof.
  revert r first. induction v1 as [|v v1 IH]; intros r first; cbn [app write_regs length].
  { by rewrite Z.add_0_r. }
  rewrite IH. f_equal. lia.
Qed.

Lemma write_regs_outside r first values k :
  k < first ∨ first + Z.of_nat (length values) ≤ k → write_regs r first values !! k = r !! k.
Proof.
  revert r first. induction values as [|v values IH]; intros r first Hk; [done|].
  cbn [write_regs length] in *. rewrite IH by lia. rewrite lookup_insert_ne by lia. done.
Qed.

Lemma write_regs_inside r first values i v :
  values !! i = Some v → write_regs r first values !! (first + Z.of_nat i) = Some v.
Proof.
  revert r first i. induction values as [|w values IH]; intros r first [|i] Hi; [done..| |];
    cbn [write_regs] in *.
  - rewrite write_regs_outside by lia. injection Hi as ->. rewrite Z.add_0_r.
    by rewrite lookup_insert_eq.
  - replace (first + Z.of_nat (S i)) with (first + 1 + Z.of_nat i) by lia. by apply IH.
Qed.

(** ** Packets the builder emits *)

Definition pk (opcode : Z) (body : list Z) (compute : bool) : packet :=
  mkPacket (packet3 opcode (Z.of_nat (length body)) compute) body.

Lemma pk_valid opcode body compute :
  0 ≤ opcode < 256 → 1 ≤ Z.of_nat (length body) ≤ 0x4000 → valid_packet (pk opcode body compute).
Proof.
  intros Hop Hb. destruct (packet3_fields opcode (Z.of_nat (length body)) compute)
    as (H3 & Hl & _); [lia..|].
  split; [done|]. cbn [pk p_header p_body]. rewrite Hl. lia.
Qed.

Lemma pk_opcode opcode body compute :
  0 ≤ opcode < 256 → 1 ≤ Z.of_nat (length body) ≤ 0x4000 → p_opcode (pk opcode body compute) = opcode.
Proof.
  intros Hop Hb. unfold p_opcode. cbn [pk p_header].
  by destruct (packet3_fields opcode (Z.of_nat (length body)) compute) as (_ & _ & H & _); [lia..|].
Qed.

Lemma run_pk r opcode body compute :
  0 ≤ opcode < 256 → 1 ≤ Z.of_nat (length body) ≤ 0x4000 →
  run r [pk opcode body compute] =
    (if opcode =? PACKET3_SET_SH_REG then
       (write_regs r (default 0 (head body)) (tail body), [])
     else if opcode =? PACKET3_NOP then (r, [])
     else if opcode =? PACKET3_DISPATCH_DIRECT then (r, [EvDispatch r body])
     else (r, [EvCommand opcode body])).
Proof.
  intros Hop Hb. cbn [run]. unfold step_packet. rewrite pk_opcode by done.
  cbn [pk p_body]. destruct body as [|x body]; [cbn in Hb; lia|].
  repeat case_match; cbn [fst snd app head tail default]; try done.
Qed.

(** ** Register elision *)

Definition write_runs (r : regs) (runs : list (Z * list Z)) : regs :=
  foldl (λ r '(first, values), write_regs r first values) r runs.

Definition write_pending (r : regs) (run_first : option Z) (run_values : list Z) : regs :=
  match run_first with Some first => write_regs r first run_values | None => r end.

Definition pending_ok (run_first : option Z) (run_values : list Z) (register : Z) : Prop :=
  match run_first with
  | Some first => first + Z.of_nat (length run_values) = register ∧ run_values ≠ []
  | None => run_values = []
  end.

Definition runs_sized (n : nat) (runs : list (Z * list Z)) : Prop :=
  Forall (λ run, 1 ≤ length run.2 ≤ n)%nat runs.

Lemma write_runs_snoc r runs first values :
  write_runs r (runs ++ [(first, values)]) = write_regs (write_runs r runs) first values.
Proof. unfold write_runs. by rewrite foldl_app. Qed.

Lemma pending_push r run_first run_values register v :
  pending_ok run_first run_values register →
  pending_ok (Some (default register run_first)) (run_values ++ [v]) (register + 1) ∧
  write_pending r (Some (default register run_first)) (run_values ++ [v]) =
    <[register := v]> (write_pending r run_first run_values).
Proof.
  unfold pending_ok, write_pending. destruct run_first as [f|]; cbn [default from_option id].
  - intros [Hf Hne]. rewrite length_app, write_regs_app. cbn [length write_regs].
    rewrite Hf. split; [|done]. split; [lia|]. by destruct run_values.
  - intros ->. cbn. split; [split; [lia|done]|done].
Qed.

(** Changed runs stay in the range of the registers written. *)
Lemma changed_runs_within hi values : ∀ st lo first offset run_first run_values runs st' runs',
  changed_runs_loop st first offset values run_first run_values runs = (st', runs') →
  lo ≤ first + Z.of_nat offset → first + Z.of_nat offset + Z.of_nat (length values) ≤ hi →
  (∀ f, run_first = Some f → lo ≤ f ∧ f + Z.of_nat (length run_values) = first + Z.of_nat offset) →
  (run_first = None → run_values = []) →
  Forall (λ run, lo ≤ run.1 ∧ run.1 + Z.of_nat (length run.2) ≤ hi) runs →
  Forall (λ run, lo ≤ run.1 ∧ run.1 + Z.of_nat (length run.2) ≤ hi) runs'.
Proof.
  induction values as [|v values IH]; intros st lo first offset rf rv runs st' runs' Hloop Hlo Hhi Hf Hn Hr;
    cbn [changed_runs_loop length] in *.
  - injection Hloop as <- <-. destruct rf as [f|]; [|done]. destruct (Hf f eq_refl) as [? ?].
    apply Forall_app. split; [done|]. repeat constructor; cbn [fst snd]; lia.
  - case_decide.
    + destruct rf as [f|].
      * destruct (Hf f eq_refl) as [? ?]. eapply IH; [exact Hloop|lia|lia|done|done|].
        apply Forall_app. split; [done|]. repeat constructor; cbn [fst snd]; lia.
      * rewrite (Hn eq_refl) in Hloop. eapply IH; [exact Hloop|lia|lia|done|done|done].
    + eapply IH; [exact Hloop|lia|lia| |done|done]. intros f [= <-]. rewrite length_app. cbn [length].
      destruct rf as [f|]; cbn [default from_option id].
      * destruct (Hf f eq_refl). lia.
      * rewrite (Hn eq_refl). cbn [length]. lia.
Qed.

(** Writing only the changed runs leaves the registers as a full write would,
    and the retained state stays a part of the hardware state. *)
Lemma changed_runs_ok r n values : ∀ st first offset run_first run_values runs st' runs',
  changed_runs_loop st first offset values run_first run_values runs = (st', runs') →
  let hw := write_pending (write_runs r runs) run_first run_values in
  let register := first + Z.of_nat offset in
  st ⊆ hw → pending_ok run_first run_values register →
  runs_sized n runs → (length run_values + length values ≤ n)%nat →
  write_runs r runs' = write_regs hw register values ∧
  st' ⊆ write_runs r runs' ∧ runs_sized n runs' ∧
  ∀ k, is_Some (st' !! k) →
    is_Some (st !! k) ∨ register ≤ k < register + Z.of_nat (length values).
Proof.
  induction values as [|v values IH]; intros st first offset rf rv runs st' runs' Hloop hw register
    Hst Hp Hs Hn; cbn [changed_runs_loop] in Hloop; fold register in Hloop.
  - injection Hloop as <- <-. destruct rf as [f|]; cbn [write_regs].
    + rewrite write_runs_snoc. fold (write_pending (write_runs r runs) (Some f) rv).
      split; [done|]. split; [done|]. split; [|by auto].
      apply Forall_app. split; [done|]. repeat constructor; simpl in *; [|lia].
      destruct rv; [by destruct Hp|simpl; lia].
    + split; [done|]. split; [done|]. by auto.
  - assert (register + 1 = first + Z.of_nat (S offset)) as Hnext by (subst register; lia).
    cbn [length] in *. case_decide as Hhit.
    + assert (hw !! register = Some v) as Hhw by (by eapply lookup_weaken).
      assert (∃ runs2, changed_runs_loop st first (S offset) values None [] runs2 = (st', runs') ∧
        write_runs r runs2 = hw ∧ runs_sized n runs2) as (runs2 & Hloop2 & Hw2 & Hs2).
      { destruct rf as [f|].
        - eexists. split; [exact Hloop|]. split; [apply write_runs_snoc|].
          apply Forall_app. split; [done|]. repeat constructor; simpl in *; [|lia].
          destruct rv; [by destruct Hp|simpl; lia].
        - cbn in Hp. subst rv. by exists runs. }
      destruct (IH _ _ _ _ _ _ _ _ Hloop2) as (Heq & Hsub & Hs' & Hdom);
        cbn [write_pending length]; [by rewrite Hw2|done|done|lia|].
      cbn [write_regs]. rewrite (insert_id hw) by done.
      split; [rewrite Heq, Hnext; cbn [write_pending]; by rewrite Hw2|].
      split; [done|]. split; [done|].
      intros k Hk. destruct (Hdom k Hk); [by left|right; lia].
    + destruct (pending_push (write_runs r runs) rf rv register v Hp) as [Hp2 Hw2].
      rewrite Hnext in Hp2. fold hw in Hw2.
      destruct (IH _ _ _ _ _ _ _ _ Hloop) as (Heq & Hsub & Hs' & Hdom);
        [rewrite Hw2; by apply insert_mono|done|done|rewrite length_app; simpl; lia|].
      cbn [write_regs]. split; [by rewrite Heq, Hw2, Hnext|].
      split; [done|]. split; [done|].
      intros k Hk. destruct (Hdom k Hk) as [Hd|]; [|right; lia].
      destruct (decide (k = register)) as [->|Hne]; [right; lia|].
      rewrite lookup_insert_ne in Hd by done. by left.
Qed.
