(* ===== verification/Pm4Build.v ===== *)
(** * The builder implements its operations

    [spec_op] says what an operation of the builder means for the hardware:
    new register values and the commands issued.  The buffer invariant relates
    a buffer to the packets it holds; every operation preserves it and appends
    packets that do what [spec_op] says, whether registers are elided or not
    and whatever the pacing. *)

From stdpp Require Import gmap.
From S2P Require Import Prelude Packet Device Pm4 Pm4Exec.

#[local] Open Scope Z_scope.

(** ** Operations *)

Inductive op :=
| OpAcquireSystem
| OpAcquireSystemGfx12
| OpAcquireRmw (policy : Gfx12RmwAcquirePolicy)
| OpAcquireInterNode
| OpWaitComputeIdle
| OpDependencySameAgent
| OpDependencyVmem
| OpSetPacing (pacing : Gfx12DispatchPacing)
| OpDispatch (kernel : Kernel) (geometry : LaunchGeometry)
    (dynamic_group_bytes kernarg_address : Z).

Definition apply_op (b : Gfx12Pm4CommandBuffer) (o : op) :
    result Pm4BuildError Gfx12Pm4CommandBuffer :=
  match o with
  | OpAcquireSystem => Ok (acquire_system b)
  | OpAcquireSystemGfx12 => Ok (acquire_system_gfx12 b)
  | OpAcquireRmw policy => Ok (acquire_rmw_gfx12 b policy)
  | OpAcquireInterNode => Ok (acquire_inter_node_gfx12 b)
  | OpWaitComputeIdle => Ok (wait_compute_idle b)
  | OpDependencySameAgent => Ok (dependency_rmw_same_agent_gfx12 b)
  | OpDependencyVmem => Ok (dependency_rmw_hip_llvm_vmem_gfx12 b)
  | OpSetPacing pacing => Ok (set_dispatch_pacing b pacing)
  | OpDispatch kernel geometry dynamic_group_bytes kernarg_address =>
      dispatch b kernel geometry dynamic_group_bytes kernarg_address
  end.

Fixpoint build (b : Gfx12Pm4CommandBuffer) (os : list op) :
    result Pm4BuildError Gfx12Pm4CommandBuffer :=
  match os with
  | [] => Ok b
  | o :: os => b' ← apply_op b o; build b' os
  end.

(** ** What they mean *)

Definition acquire_event (gcr : Z) : event :=
  EvCommand PACKET3_ACQUIRE_MEM [0; u32_max; 0x00ffffff; 0; 0; 0xa; gcr].
Definition idle_event : event := EvCommand PACKET3_EVENT_WRITE [0x407].

(** The registers a dispatch programs, in the order it writes them. *)
Definition dispatch_writes (pm4 : KernelPm4Metadata) (rsrc2 : Z) (needs_kernarg : bool)
    (geometry : LaunchGeometry) (kernarg_address : Z) : list (Z * list Z) :=
  [(COMPUTE_PGM_LO,
     [as_u32 (Z.shiftr (pm4_code_entry pm4) 8); as_u32 (Z.shiftr (pm4_code_entry pm4) 40)]);
   (COMPUTE_PGM_RSRC1, [pm4_compute_pgm_rsrc1 pm4; rsrc2]);
   (COMPUTE_PGM_RSRC3_GFX12, [pm4_compute_pgm_rsrc3 pm4]);
   (COMPUTE_NUM_THREAD_X,
     [a3_x (geo_workgroup geometry); a3_y (geo_workgroup geometry); a3_z (geo_workgroup geometry)]);
   (COMPUTE_RESOURCE_LIMITS, [0x3ff])] ++
  (if needs_kernarg then
     [(COMPUTE_USER_DATA_0, [as_u32 kernarg_address; as_u32 (Z.shiftr kernarg_address 32)])]
   else []).

Definition dispatch_operands (wave32 : bool) (geometry : LaunchGeometry) : list Z :=
  [a3_x (geo_grid_workitems geometry); a3_y (geo_grid_workitems geometry);
   a3_z (geo_grid_workitems geometry); dispatch_initiator wave32].

Definition spec_op (r : regs) (o : op) : result Pm4BuildError (regs * list event) :=
  match o with
  | OpAcquireSystem =>
      Ok (r, [EvCommand PACKET3_ACQUIRE_MEM [0; u32_max; 0xff; 0; 0; 4; 0x1c3f1]])
  | OpAcquireSystemGfx12 => Ok (r, [acquire_event 0xc3b1])
  | OpAcquireRmw policy => Ok (r, [acquire_event (gcr_cntl policy)])
  | OpAcquireInterNode => Ok (r, [acquire_event 0x10180])
  | OpWaitComputeIdle => Ok (r, [idle_event])
  | OpDependencySameAgent => Ok (r, [idle_event; acquire_event 0x380])
  | OpDependencyVmem => Ok (r, [idle_event; acquire_event 0x300])
  | OpSetPacing _ => Ok (r, [])
  | OpDispatch kernel geometry dynamic_group_bytes kernarg_address =>
      match dispatch_checks kernel dynamic_group_bytes kernarg_address with
      | Err e => Err e
      | Ok (pm4, rsrc2, wave32, needs_kernarg) =>
          let r' := write_runs r
            (dispatch_writes pm4 rsrc2 needs_kernarg geometry kernarg_address) in
          Ok (r', [EvDispatch r' (dispatch_operands wave32 geometry)])
      end
  end.

Fixpoint spec_ops (r : regs) (os : list op) : result Pm4BuildError (regs * list event) :=
  match os with
  | [] => Ok (r, [])
  | o :: os =>
      match spec_op r o with
      | Err e => Err e
      | Ok s =>
          match spec_ops (fst s) os with
          | Err e => Err e
          | Ok t => Ok (fst t, snd s ++ snd t)
          end
      end
  end.

(** ** The buffer invariant *)

Definition pacing_typed (p : Gfx12DispatchPacing) : Prop :=
  match p with PacingNone => True | PostDispatchNop body => in_u 32 body end.

Definition op_typed (o : op) : Prop :=
  match o with OpSetPacing p => pacing_typed p | _ => True end.

(** The registers a [SET_SH_REG] writes are in the shader range. *)
Definition set_small (p : packet) : Prop :=
  p_opcode p = PACKET3_SET_SH_REG →
  ∃ first values, p_body p = first :: values ∧ 0 ≤ first ∧ first + Z.of_nat (length values) ≤ 0x400.

(** What the register cache knows is true of the hardware after the packets,
    whatever the registers held before; without dynamic caching it knows one
    register only. *)
Record buffer_ok (b : Gfx12Pm4CommandBuffer) (ps : list packet) : Prop := {
  bo_valid : Forall valid_packet ps;
  bo_dwords : cb_dwords b = stream ps;
  bo_pacing : pacing_typed (cb_pacing b);
  bo_state : ∀ st r, cb_register_state b = Some st → st ⊆ fst (run r ps);
  bo_static : ∀ st k, cb_register_state b = Some st → cb_cache_dynamic_registers b = false →
    is_Some (st !! k) → k = COMPUTE_RESOURCE_LIMITS;
  bo_sets : Forall set_small ps
}.

(** Appending [qs] to a buffer that holds [ps]. *)
Record appends (b b' : Gfx12Pm4CommandBuffer) (ps qs : list packet) : Prop := {
  ap_ok : buffer_ok b' (ps ++ qs);
  ap_pacing : cb_pacing b' = cb_pacing b
}.

Lemma empty_ok b :
  b = buffer_new ∨ b = buffer_new_stateful ∨ b = buffer_new_static_stateful → buffer_ok b [].
Proof.
  intros [->|[->| ->]]; split; try done; cbn.
  all: try (intros st r [= <-]; apply map_subseteq_spec; intros k v; by rewrite lookup_empty).
  all: intros st k [= <-] _; rewrite lookup_empty; by intros [].
Qed.

(** Packets that write no register. *)
Definition quiet (p : packet) : Prop := valid_packet p ∧ p_opcode p ≠ PACKET3_SET_SH_REG.

Lemma run_quiet r ps : Forall quiet ps → fst (run r ps) = r.
Proof.
  induction 1 as [|p ps [_ Hp] _ IH]; [done|]. cbn [run fst]. unfold step_packet.
  rewrite (proj2 (Z.eqb_neq _ _) Hp). repeat case_match; done.
Qed.

Lemma extend_quiet b ps qs ws :
  buffer_ok b ps → Forall quiet qs → ws = stream qs → appends b (extend b ws) ps qs.
Proof.
  intros [Hv Hd Hp Hst Hs Hsm] Hq ->. split; [|done]. split; cbn.
  - apply Forall_app. split; [done|].
    eapply Forall_impl; [exact Hq|]. by intros p [H _].
  - by rewrite Hd, stream_app.
  - done.
  - intros st r Hb. rewrite run_app. cbn [fst]. rewrite run_quiet by done. by apply Hst.
  - done.
  - apply Forall_app. split; [done|]. eapply Forall_impl; [exact Hq|]. by intros p [_ H] Ho.
Qed.

Lemma appends_trans b1 b2 b3 ps qs1 qs2 :
  appends b1 b2 ps qs1 → appends b2 b3 (ps ++ qs1) qs2 → appends b1 b3 ps (qs1 ++ qs2).
Proof. intros [H1 P1] [H2 P2]. split; [by rewrite app_assoc|congruence]. Qed.

Lemma pk_quiet opcode body compute :
  0 ≤ opcode < 256 → opcode ≠ PACKET3_SET_SH_REG → 1 ≤ Z.of_nat (length body) ≤ 0x4000 →
  quiet (pk opcode body compute).
Proof. intros. split; [by apply pk_valid|]. by rewrite pk_opcode. Qed.

(** ** Register writes *)

Definition set_packets (runs : list (Z * list Z)) : list packet :=
  (λ '(first, values), pk PACKET3_SET_SH_REG (first :: values) true) <$> runs.

Lemma set_packets_ok n runs :
  runs_sized n runs → Z.of_nat n < 0x4000 →
  Forall valid_packet (set_packets runs) ∧
  ∀ r, run r (set_packets runs) = (write_runs r runs, []).
Proof.
  intros Hs Hn. induction runs as [|[first values] runs IH]; [by split|].
  apply Forall_cons in Hs as [Hlen Hs]. destruct (IH Hs) as [Hv Hr]. cbn [snd] in Hlen.
  assert (1 ≤ Z.of_nat (length (first :: values)) ≤ 0x4000) as Hl by (cbn [length]; lia).
  split.
  - constructor; [|done]. apply pk_valid; [by vm_compute|done].
  - intros r. change (set_packets ((first, values) :: runs))
      with ([pk PACKET3_SET_SH_REG (first :: values) true] ++ set_packets runs).
    rewrite run_app, run_pk by (by vm_compute || done). cbn [fst snd app]. rewrite Hr. done.
Qed.

Definition runs_small (runs : list (Z * list Z)) : Prop :=
  Forall (λ run, 0 ≤ run.1 ∧ run.1 + Z.of_nat (length run.2) ≤ 0x400) runs.

Lemma set_packets_small runs : runs_small runs → Forall set_small (set_packets runs).
Proof.
  induction 1 as [|[first values] runs [H0 Hh] _ IH]; [constructor|]. cbn [fst snd] in *.
  constructor; [|done]. intros _. by exists first, values.
Qed.

Lemma foldl_emit_dwords runs b :
  let b' := foldl (λ b '(first, values), emit_set_sh_regs b first values) b runs in
  cb_dwords b' = cb_dwords b ++ stream (set_packets runs) ∧
  cb_register_state b' = cb_register_state b ∧
  cb_cache_dynamic_registers b' = cb_cache_dynamic_registers b ∧ cb_pacing b' = cb_pacing b.
Proof.
  revert b. induction runs as [|[first values] runs IH]; intros b; cbn [foldl].
  { by rewrite app_nil_r. }
  destruct (IH (emit_set_sh_regs b first values)) as (Hd & H2 & H3 & H4).
  split; [|done]. rewrite Hd. cbn [emit_set_sh_regs extend cb_dwords].
  change (set_packets ((first, values) :: runs))
    with (pk PACKET3_SET_SH_REG (first :: values) true :: set_packets runs).
  rewrite stream_cons. unfold pk, p_dwords. cbn [p_header p_body].
  rewrite <-!app_assoc. cbn [length]. rewrite Nat2Z.inj_succ, <-Z.add_1_l. done.
Qed.

(** The registers [first..first+n) are the static one or avoid it. *)
Definition static_disjoint (first : Z) (n : nat) : Prop :=
  (first = COMPUTE_RESOURCE_LIMITS ∧ n = 1%nat) ∨
  first + Z.of_nat n ≤ COMPUTE_RESOURCE_LIMITS ∨ COMPUTE_RESOURCE_LIMITS < first.

(** Emitting [runs] and recording [st'] keeps the invariant. *)
Lemma emit_runs_ok b b0 ps n runs st' :
  buffer_ok b ps → runs_sized n runs → runs_small runs → Z.of_nat n < 0x4000 →
  cb_dwords b0 = cb_dwords b → cb_pacing b0 = cb_pacing b → cb_register_state b0 = st' →
  cb_cache_dynamic_registers b0 = cb_cache_dynamic_registers b →
  (∀ st r, st' = Some st → st ⊆ write_runs (fst (run r ps)) runs) →
  (∀ st k, st' = Some st → cb_cache_dynamic_registers b = false →
    is_Some (st !! k) → k = COMPUTE_RESOURCE_LIMITS) →
  appends b (foldl (λ b '(first, values), emit_set_sh_regs b first values) b0 runs)
    ps (set_packets runs).
Proof.
  intros [Hv Hd Hp Hst Hsta Hsm] Hs Hrs Hn D P R C Hsub Hdom.
  destruct (set_packets_ok n runs Hs Hn) as [Hv' Hr].
  destruct (foldl_emit_dwords runs b0) as (Ed & Er & Ec & Ep).
  split; [|congruence]. split.
  - by apply Forall_app.
  - by rewrite Ed, D, Hd, stream_app.
  - by rewrite Ep, P.
  - intros st r. rewrite Er, R, run_app. cbn [fst]. rewrite Hr. cbn [fst]. by apply Hsub.
  - intros st k. rewrite Er, R, Ec, C. by apply Hdom.
  - apply Forall_app. split; [done|]. by apply set_packets_small.
Qed.

Lemma subseteq_write_regs (st r : regs) first values :
  st ⊆ r →
  (∀ k, is_Some (st !! k) → k < first ∨ first + Z.of_nat (length values) ≤ k) →
  st ⊆ write_regs r first values.
Proof.
  intros Hsub Hk. apply map_subseteq_spec. intros k v Hkv.
  rewrite write_regs_outside by (apply Hk; by eexists). by eapply lookup_weaken.
Qed.

Lemma set_sh_regs_ok b ps first values :
  buffer_ok b ps → (1 ≤ length values)%nat → Z.of_nat (length values) < 0x4000 →
  static_disjoint first (length values) → 0 ≤ first → first + Z.of_nat (length values) ≤ 0x400 →
  ∃ qs, appends b (set_sh_regs b first values) ps qs ∧
    ∀ r, run (fst (run r ps)) qs = (write_regs (fst (run r ps)) first values, []).
Proof.
  intros Hb H1 Hn Hstat H0 Hhi. pose proof Hb as [Hv Hd Hp Hst Hsta _].
  assert (runs_sized (length values) [(first, values)]) as Hs by (repeat constructor; simpl; lia).
  assert ((cb_register_state b = None ∨
      cb_cache_dynamic_registers b = false ∧ first ≠ COMPUTE_RESOURCE_LIMITS) →
    ∃ qs, appends b (emit_set_sh_regs b first values) ps qs ∧
    ∀ r, run (fst (run r ps)) qs = (write_regs (fst (run r ps)) first values, [])) as Hplain.
  { intros Hcase. exists (set_packets [(first, values)]). split.
    - change (emit_set_sh_regs b first values) with
        (foldl (λ b '(first, values), emit_set_sh_regs b first values) b [(first, values)]).
      eapply emit_runs_ok; [done|exact Hs|by repeat constructor|done|done..| |].
      + intros st r Hb'. cbn. apply subseteq_write_regs; [by apply Hst|].
        intros k Hk. destruct Hcase as [Hc|[Hc Hne]]; [congruence|].
        apply (Hsta st k Hb' Hc) in Hk as ->. destruct Hstat as [[? _]|[?|?]]; [done|lia..].
      + intros st k Hb' Hc. by apply (Hsta st k).
    - intros r. destruct (set_packets_ok _ _ Hs Hn) as [_ Hr]. by rewrite Hr. }
  unfold set_sh_regs. destruct (cb_cache_dynamic_registers b) eqn:Hc,
    (first =? COMPUTE_RESOURCE_LIMITS) eqn:Hf; cbn [negb andb];
    try (apply Hplain; right; split; [done|by apply Z.eqb_neq]).
  all: destruct (cb_register_state b) as [st|] eqn:Hbst; [|apply Hplain; by left].
  all: destruct (changed_runs_loop st first 0 values None [] []) as [st' runs] eqn:Hloop.
  all: assert (∀ r, st ⊆ r → write_runs r runs = write_regs r first values ∧
    st' ⊆ write_runs r runs ∧ runs_sized (length values) runs ∧
    ∀ k, is_Some (st' !! k) → is_Some (st !! k) ∨ first ≤ k < first + Z.of_nat (length values))
    as Hruns by
    (intros r Hr; pose proof (changed_runs_ok r (length values) values _ _ _ _ _ _ _ _ Hloop) as Hcr;
     cbn zeta in Hcr; rewrite Z.add_0_r in Hcr; apply Hcr; [done|done|constructor|simpl; lia]).
  all: destruct (Hruns st) as (_ & _ & Hsz & Hdom); [done|].
  all: assert (runs_small runs) as Hrs by
    (eapply (changed_runs_within 0x400 values); [exact Hloop|lia|lia|done|done|constructor]).
  all: exists (set_packets runs); split;
    [eapply emit_runs_ok; [done|exact Hsz|done|done|done|done|done|by cbn| |]|
     intros r; destruct (set_packets_ok _ _ Hsz Hn) as [_ Hr]; rewrite Hr; f_equal;
     apply Hruns; by apply Hst].
  all: cbn; try (intros st2 r [= <-]; apply Hruns; by apply Hst).
  all: intros st2 k [= <-] Hcf Hk; try congruence.
  destruct (Hdom k Hk) as [Hin|Hin]; [by apply (Hsta st k)|].
  apply Z.eqb_eq in Hf. destruct Hstat as [[_ Hl]|[?|?]]; lia.
Qed.

Definition set_all (b : Gfx12Pm4CommandBuffer) (writes : list (Z * list Z)) :=
  foldl (λ b '(first, values), set_sh_regs b first values) b writes.

Definition write_fits (w : Z * list Z) : Prop :=
  (1 ≤ length w.2)%nat ∧ Z.of_nat (length w.2) < 0x4000 ∧ static_disjoint w.1 (length w.2) ∧
  0 ≤ w.1 ∧ w.1 + Z.of_nat (length w.2) ≤ 0x400.

Lemma set_all_ok writes : ∀ b ps,
  buffer_ok b ps → Forall write_fits writes →
  ∃ qs, appends b (set_all b writes) ps qs ∧
    ∀ r, run (fst (run r ps)) qs = (write_runs (fst (run r ps)) writes, []).
Proof.
  induction writes as [|[first values] writes IH]; intros b ps Hb Hw.
  { exists []. split; [split; [by rewrite app_nil_r|done]|done]. }
  apply Forall_cons in Hw as [(H1 & Hn & Hd & H0 & Hh) Hw].
  destruct (set_sh_regs_ok b ps first values Hb H1 Hn Hd H0 Hh) as (qs1 & Ha1 & Hr1).
  destruct (IH _ _ (ap_ok _ _ _ _ Ha1) Hw) as (qs2 & Ha2 & Hr2).
  exists (qs1 ++ qs2). split; [by eapply appends_trans|].
  intros r. specialize (Hr2 r). rewrite run_app in Hr2. cbn [fst] in Hr2.
  rewrite run_app, Hr1. rewrite Hr1 in Hr2. cbn [fst snd] in *. by rewrite Hr2.
Qed.

Lemma dispatch_writes_fit pm4 rsrc2 needs_kernarg geometry kernarg_address :
  Forall write_fits (dispatch_writes pm4 rsrc2 needs_kernarg geometry kernarg_address).
Proof.
  unfold dispatch_writes. destruct needs_kernarg; cbn [app];
    repeat apply Forall_cons_2; try apply Forall_nil_2;
    unfold write_fits, static_disjoint, COMPUTE_RESOURCE_LIMITS, COMPUTE_PGM_LO,
      COMPUTE_PGM_RSRC1, COMPUTE_PGM_RSRC3_GFX12, COMPUTE_NUM_THREAD_X, COMPUTE_USER_DATA_0;
    cbn [length fst snd]; lia.
Qed.

(** ** Each operation does what it means *)

Definition op_ok (b : Gfx12Pm4CommandBuffer) (ps : list packet) (o : op) : Prop :=
  match apply_op b o with
  | Ok b' => ∃ qs, buffer_ok b' (ps ++ qs) ∧
      ∀ r, spec_op (fst (run r ps)) o = Ok (run (fst (run r ps)) qs)
  | Err e => ∀ r, spec_op r o = Err e
  end.

Ltac solve_quiet :=
  repeat constructor; try apply pk_quiet; repeat constructor; by vm_compute.

Lemma quiet_op_ok b ps o qs ws :
  buffer_ok b ps → apply_op b o = Ok (extend b ws) → Forall quiet qs → ws = stream qs →
  (∀ r, spec_op r o = Ok (run r qs)) → op_ok b ps o.
Proof.
  intros Hb Ho Hq Hws Hr. unfold op_ok. rewrite Ho. exists qs.
  split; [by eapply ap_ok, extend_quiet|]. intros r. apply Hr.
Qed.

Lemma extend_extend b ws1 ws2 : extend (extend b ws1) ws2 = extend b (ws1 ++ ws2).
Proof. unfold extend. cbn. by rewrite <-app_assoc. Qed.

Definition acquire_packet (gcr : Z) : packet :=
  pk PACKET3_ACQUIRE_MEM [0; u32_max; 0x00ffffff; 0; 0; 0xa; gcr] false.
Definition idle_packet : packet := pk PACKET3_EVENT_WRITE [0x407] false.

Lemma acquire_packet_quiet gcr : quiet (acquire_packet gcr).
Proof. unfold acquire_packet. apply pk_quiet; by vm_compute. Qed.
Lemma idle_packet_quiet : quiet idle_packet.
Proof. unfold idle_packet. apply pk_quiet; by vm_compute. Qed.

Lemma run_acquire r gcr : run r [acquire_packet gcr] = (r, [acquire_event gcr]).
Proof. unfold acquire_packet. by rewrite run_pk by (by vm_compute). Qed.
Lemma run_idle r : run r [idle_packet] = (r, [idle_event]).
Proof. unfold idle_packet. by rewrite run_pk by (by vm_compute). Qed.
Lemma run_idle_acquire r gcr :
  run r [idle_packet; acquire_packet gcr] = (r, [idle_event; acquire_event gcr]).
Proof.
  change [idle_packet; acquire_packet gcr] with ([idle_packet] ++ [acquire_packet gcr]).
  by rewrite run_app, run_idle, run_acquire.
Qed.

Lemma emit_acquire_stream b gcr : emit_acquire_gcr b gcr = extend b (stream [acquire_packet gcr]).
Proof. by rewrite stream_singleton. Qed.
Lemma rmw_stream b policy :
  acquire_rmw_gfx12 b policy = extend b (stream [acquire_packet (gcr_cntl policy)]).
Proof. rewrite stream_singleton. by destruct policy. Qed.
Lemma idle_stream b : wait_compute_idle b = extend b (stream [idle_packet]).
Proof. rewrite stream_singleton. unfold wait_compute_idle. by rewrite extend_extend. Qed.

#[local] Hint Resolve acquire_packet_quiet idle_packet_quiet : core.

(** ** Dispatch *)

Definition dispatch_packet (wave32 : bool) (geometry : LaunchGeometry) : packet :=
  pk PACKET3_DISPATCH_DIRECT (dispatch_operands wave32 geometry) true.

Definition nop_packets (pacing : Gfx12DispatchPacing) : list packet :=
  match pacing with
  | PostDispatchNop body =>
      if negb (body =? 0) then
        [pk PACKET3_NOP (replicate (Z.to_nat (Z.min body PACKET3_MAX_BODY_DWORDS)) 0) false]
      else []
  | PacingNone => []
  end.

Lemma nop_packets_ok pacing :
  pacing_typed pacing →
  Forall quiet (nop_packets pacing) ∧ ∀ r, run r (nop_packets pacing) = (r, []).
Proof.
  unfold nop_packets, pacing_typed, in_u. destruct pacing as [|body]; [by split|]. intros Hb.
  destruct (Z.eqb_spec body 0) as [|Hne]; cbn [negb]; [by split|].
  assert (1 ≤ Z.of_nat (length (replicate (Z.to_nat (Z.min body PACKET3_MAX_BODY_DWORDS)) 0%Z))
    ≤ 0x4000) as Hl by (rewrite length_replicate; unfold PACKET3_MAX_BODY_DWORDS; lia).
  split; [repeat constructor; by apply pk_quiet|]. intros r. by rewrite run_pk.
Qed.

(** Pacing changes the counter besides the dwords, which the invariant does
    not see. *)
Lemma pace_ok b ps :
  buffer_ok b ps → appends b (pace_after_dispatch b) ps (nop_packets (cb_pacing b)).
Proof.
  intros Hb. pose proof (bo_pacing _ _ Hb) as Ht.
  destruct (nop_packets_ok _ Ht) as [Hq _].
  unfold pace_after_dispatch. unfold nop_packets in *.
  destruct (cb_pacing b) as [|body] eqn:Hp; [split; [by rewrite app_nil_r|done]|].
  destruct (Z.eqb_spec body 0) as [|Hne]; cbn [negb] in *;
    [split; [by rewrite app_nil_r|done]|].
  pose proof (extend_quiet b ps _ _ Hb Hq eq_refl) as [[Hv Hd Hpt Hst Hs] Hpp].
  unfold in_u in Ht. cbn [pacing_typed] in Ht. unfold in_u in Ht. split; [|done]. split; [done| |done..].
  rewrite <-Hd. unfold nop. cbn [extend cb_dwords]. rewrite stream_singleton. unfold p_dwords, pk.
  cbn [p_header p_body]. rewrite length_replicate, <-app_assoc. f_equal. cbn [app]. f_equal.
  - f_equal. unfold PACKET3_MAX_BODY_DWORDS. lia.
  - do 2 f_equal. lia.
Qed.

Lemma dispatch_shape b kernel geometry dyn kernarg pm4 rsrc2 wave32 needs_kernarg :
  dispatch_checks kernel dyn kernarg = Ok (pm4, rsrc2, wave32, needs_kernarg) →
  dispatch b kernel geometry dyn kernarg =
    Ok (pace_after_dispatch
      (extend (set_all b (dispatch_writes pm4 rsrc2 needs_kernarg geometry kernarg))
         (stream [dispatch_packet wave32 geometry]))).
Proof.
  intros Hc. unfold dispatch. rewrite Hc, !extend_extend, stream_singleton.
  by destruct needs_kernarg.
Qed.

Lemma dispatch_op_ok b ps kernel geometry dyn kernarg :
  buffer_ok b ps → op_ok b ps (OpDispatch kernel geometry dyn kernarg).
Proof.
  intros Hb. unfold op_ok. cbn [apply_op spec_op].
  destruct (dispatch_checks kernel dyn kernarg) as [[[[pm4 rsrc2] wave32] nk]|e] eqn:Hc;
    [|by unfold dispatch; rewrite Hc].
  rewrite (dispatch_shape b _ geometry _ _ _ _ _ _ Hc).
  destruct (set_all_ok _ b ps Hb (dispatch_writes_fit pm4 rsrc2 nk geometry kernarg))
    as (qs & Ha & Hr).
  assert (Forall quiet [dispatch_packet wave32 geometry]) as Hq
    by (repeat constructor; apply pk_quiet; by vm_compute).
  pose proof (extend_quiet _ _ _ _ (ap_ok _ _ _ _ Ha) Hq eq_refl) as Ha2.
  pose proof (pace_ok _ _ (ap_ok _ _ _ _ Ha2)) as Ha3.
  pose proof (nop_packets_ok _ (bo_pacing _ _ (ap_ok _ _ _ _ Ha2))) as [_ Hn].
  eexists. split.
  { pose proof (appends_trans _ _ _ _ _ _ Ha Ha2) as Ha'. rewrite <-app_assoc in Ha3.
    exact (ap_ok _ _ _ _ (appends_trans _ _ _ _ _ _ Ha' Ha3)). }
  intros r. rewrite !run_app, Hr. cbn [fst snd]. unfold dispatch_packet.
  rewrite run_pk by (by vm_compute). cbn [Z.eqb fst snd app].
  rewrite Hn. done.
Qed.

Lemma apply_op_ok b ps o : buffer_ok b ps → op_typed o → op_ok b ps o.
Proof.
  intros Hb Ht. destruct o as [| |policy| | | | |pacing|kernel geometry dyn kernarg].
  - eapply (quiet_op_ok b ps _ [pk PACKET3_ACQUIRE_MEM [0; u32_max; 0xff; 0; 0; 4; 0x1c3f1] false]);
      [done|done| |by rewrite stream_singleton|].
    + repeat constructor; apply pk_quiet; by vm_compute.
    + intros r. by rewrite run_pk by (by vm_compute).
  - eapply (quiet_op_ok b ps _ [acquire_packet 0xc3b1]); [done| |by auto|done|].
    + cbn. unfold acquire_system_gfx12. by rewrite emit_acquire_stream.
    + intros r. by rewrite run_acquire.
  - eapply (quiet_op_ok b ps _ [acquire_packet (gcr_cntl policy)]); [done| |by auto|done|].
    + cbn [apply_op]. by rewrite rmw_stream.
    + intros r. by rewrite run_acquire.
  - eapply (quiet_op_ok b ps _ [acquire_packet 0x10180]); [done| |by auto|done|].
    + cbn [apply_op]. unfold acquire_inter_node_gfx12. by rewrite rmw_stream.
    + intros r. by rewrite run_acquire.
  - eapply (quiet_op_ok b ps _ [idle_packet]); [done| |by auto|done|].
    + cbn [apply_op]. by rewrite idle_stream.
    + intros r. by rewrite run_idle.
  - eapply (quiet_op_ok b ps _ [idle_packet; acquire_packet 0x380]); [done| |by auto|done|].
    + cbn [apply_op]. unfold dependency_rmw_same_agent_gfx12.
      by rewrite rmw_stream, idle_stream, extend_extend, <-stream_app.
    + intros r. by rewrite run_idle_acquire.
  - eapply (quiet_op_ok b ps _ [idle_packet; acquire_packet 0x300]); [done| |by auto|done|].
    + cbn [apply_op]. unfold dependency_rmw_hip_llvm_vmem_gfx12.
      by rewrite rmw_stream, idle_stream, extend_extend, <-stream_app.
    + intros r. by rewrite run_idle_acquire.
  - exists []. rewrite app_nil_r. split; [|done]. by destruct Hb.
  - by apply dispatch_op_ok.
Qed.

(** The refinement for a whole sequence of operations. *)
Lemma build_ok os : ∀ b ps,
  buffer_ok b ps → Forall op_typed os →
  match build b os with
  | Ok b' => ∃ qs, buffer_ok b' (ps ++ qs) ∧
      ∀ r, spec_ops (fst (run r ps)) os = Ok (run (fst (run r ps)) qs)
  | Err e => ∀ r, spec_ops (fst (run r ps)) os = Err e
  end.
Proof.
  induction os as [|o os IH]; intros b ps Hb Ht.
  { cbn. exists []. by rewrite app_nil_r. }
  apply Forall_cons in Ht as [Ho Ht]. pose proof (apply_op_ok b ps o Hb Ho) as Hok.
  unfold op_ok in Hok. cbn [build spec_ops].
  destruct (apply_op b o) as [b'|e]; cbn [mbind result_bind]; [|intros r; by rewrite Hok].
  destruct Hok as (qs & Hb' & Hr). specialize (IH b' (ps ++ qs) Hb' Ht).
  assert (∀ r, fst (run (fst (run r ps)) qs) = fst (run r (ps ++ qs))) as Hfst
    by (intros r; by rewrite run_app).
  destruct (build b' os) as [b''|e].
  - destruct IH as (qs2 & Hb'' & Hr2). exists (qs ++ qs2). rewrite app_assoc.
    split; [done|]. intros r. rewrite Hr. cbn [fst snd]. rewrite Hfst, Hr2.
    by rewrite (run_app _ qs qs2), Hfst.
  - intros r. rewrite Hr, Hfst, IH. done.
Qed.
