(* ===== verification/Pm4Ok.v ===== *)
(** * What the PM4 builder guarantees

    The theorems on [Pm4]: refinement of the operation semantics, register
    values at a dispatch, the admission checks and the diagnostic walks. *)

From stdpp Require Import gmap.
From S2P Require Import Prelude Packet Device Pm4 Pm4Exec Pm4Build.

#[local] Open Scope Z_scope.

Definition fresh_buffer (b : Gfx12Pm4CommandBuffer) : Prop :=
  b = buffer_new ∨ b = buffer_new_stateful ∨ b = buffer_new_static_stateful.

Lemma build_fresh b0 os :
  fresh_buffer b0 → Forall op_typed os →
  match build b0 os with
  | Ok b => ∃ ps, buffer_ok b ps ∧ ∀ r, spec_ops r os = Ok (run r ps)
  | Err e => ∀ r, spec_ops r os = Err e
  end.
Proof. intros Hf Ht. exact (build_ok os b0 [] (empty_ok b0 Hf) Ht). Qed.

Lemma buffer_run b ps r : buffer_ok b ps → run_dwords r (cb_dwords b) = Some (run r ps).
Proof. intros [Hv -> _ _ _]. by apply run_dwords_stream. Qed.

(** ** Pacing does not matter *)

Definition is_pacing (o : op) : bool := match o with OpSetPacing _ => true | _ => false end.
Definition unpaced (os : list op) : list op := filter_map (λ o, if is_pacing o then None else Some o) os.

Lemma spec_ops_unpaced r os : spec_ops r os = spec_ops r (unpaced os).
Proof.
  revert r. induction os as [|o os IH]; intros r; [done|].
  destruct o; cbn [unpaced filter_map is_pacing]; fold (unpaced os).
  all: try (cbn [spec_ops]; destruct (spec_op r _) as [s|]; [by rewrite IH|done]).
  cbn [spec_ops spec_op fst snd]. rewrite IH. destruct (spec_ops r (unpaced os)) as [[]|]; done.
Qed.

(** ** Walks *)

Definition is_dispatch_packet (p : packet) : bool := p_opcode p =? PACKET3_DISPATCH_DIRECT.
Definition is_dispatch_event (e : event) : bool := match e with EvDispatch _ _ => true | _ => false end.

Definition count {A} (f : A → bool) (l : list A) : nat := length (List.filter f l).

Lemma step_packet_dispatches r p :
  count is_dispatch_event (snd (step_packet r p)) = if is_dispatch_packet p then 1%nat else 0%nat.
Proof.
  unfold step_packet, is_dispatch_packet.
  destruct (Z.eqb_spec (p_opcode p) PACKET3_SET_SH_REG) as [->|]; [by destruct (p_body p)|].
  destruct (Z.eqb_spec (p_opcode p) PACKET3_NOP) as [->|]; [done|].
  by destruct (p_opcode p =? PACKET3_DISPATCH_DIRECT).
Qed.

Lemma count_app {A} (f : A → bool) l1 l2 : count f (l1 ++ l2) = (count f l1 + count f l2)%nat.
Proof. unfold count. by rewrite List.filter_app, length_app. Qed.

Lemma run_dispatches r ps :
  count is_dispatch_event (snd (run r ps)) = count is_dispatch_packet ps.
Proof.
  revert r. induction ps as [|p ps IH]; intros r; [done|]. cbn [run snd].
  rewrite count_app, step_packet_dispatches, IH. unfold count. cbn [List.filter].
  by destruct (is_dispatch_packet p).
Qed.

Lemma slots_fold n ps : fold_exec slots_step n ps = Done (n + count is_dispatch_packet ps)%nat.
Proof.
  revert n. induction ps as [|p ps IH]; intros n; cbn [fold_exec].
  { unfold count. cbn. by rewrite Nat.add_0_r. }
  cbn [slots_step mbind exec_bind]. rewrite IH. f_equal.
  unfold count, is_dispatch_packet, p_opcode. cbn [List.filter].
  destruct (header_opcode (p_header p) =? PACKET3_DISPATCH_DIRECT); cbn [length]; lia.
Qed.

(** A stream that is not a sequence of packets is reported, and the position
    is inside it. *)
Lemma walk_at_malformed {E S} (malformed : nat → E) (step : S → nat → Z → list Z → exec E S) :
  (∀ s c h p, ∃ s', step s c h p = Done s') →
  ∀ fuel dwords cursor s,
  (cursor ≤ length dwords)%nat → (length dwords ≤ cursor + fuel)%nat →
  split_packets fuel (drop cursor dwords) = None →
  ∃ c, (c < length dwords)%nat ∧ walk_at malformed step fuel dwords cursor s = Fail (malformed c).
Proof.
  intros Hstep fuel dwords. induction fuel as [|fuel IH]; intros cursor s Hc Hf Hsplit.
  { rewrite drop_ge in Hsplit by lia. done. }
  destruct (drop cursor dwords) as [|h rest] eqn:Hd; [done|].
  assert (dwords !! cursor = Some h) as Hh by (by rewrite <-(Nat.add_0_r cursor), <-lookup_drop, Hd).
  pose proof (lookup_lt_Some _ _ _ Hh) as Hlt.
  assert (length rest + 1 + cursor = length dwords)%nat as Hrest
    by (apply (f_equal length) in Hd; rewrite length_drop in Hd; cbn [length] in Hd; lia).
  cbn [walk_at]. rewrite decide_True, Hh by done. cbn [unwrap mbind exec_bind].
  cbn [split_packets] in Hsplit.
  destruct (Z.eqb_spec (Z.shiftr h 30) 3) as [H3|H3]; cbn [negb]; [|by exists cursor].
  destruct (decide (cursor + (1 + header_body h) ≤ length dwords)%nat) as [Hfit|Hfit]; [|by exists cursor].
  destruct (Hstep s cursor h (take (1 + header_body h) (drop cursor dwords))) as [s' Hs'].
  rewrite Hs'. cbn [mbind exec_bind].
  apply IH; [lia..|]. rewrite decide_True in Hsplit by (split; [done|lia]).
  rewrite <-drop_drop, Hd. cbn [Nat.add drop].
  by destruct (split_packets fuel (drop (header_body h) rest)).
Qed.

Lemma walk_malformed {S} (step : S → Z → list Z → exec Pm4BuildError S) :
  (∀ s h p, ∃ s', step s h p = Done s') →
  ∀ fuel dwords cursor s,
  (cursor ≤ length dwords)%nat → (length dwords ≤ cursor + fuel)%nat →
  split_packets fuel (drop cursor dwords) = None →
  ∃ c, (c < length dwords)%nat ∧ walk step fuel dwords cursor s = Fail (MalformedStream c).
Proof. intros Hstep. by apply (walk_at_malformed MalformedStream (λ s _, step s)). Qed.

Lemma packets_of_Some dwords ps :
  packets_of dwords = Some ps → dwords = stream ps ∧ Forall valid_packet ps.
Proof. apply split_packets_stream. Qed.

(** ** The register values a dispatch sees *)

Definition reads_regs (r : regs) (first : Z) (values : list Z) : Prop :=
  ∀ i v, values !! i = Some v → r !! (first + Z.of_nat i) = Some v.

(** The register file of an accepted dispatch: the code entry (of which the
    hardware drops the low eight bits), the descriptor's resource words with
    the granted LDS size in place of its own, the workgroup and the kernarg
    pointer. *)
Record dispatch_regs (r : regs) (kernel : Kernel) (pm4 : KernelPm4Metadata)
    (geometry : LaunchGeometry) (dynamic_group_bytes kernarg_address : Z) : Prop := {
  dr_code : ∃ lo hi, reads_regs r COMPUTE_PGM_LO [lo; hi] ∧
    lo + 2 ^ 32 * hi = pm4_code_entry pm4 / 256;
  dr_rsrc : ∃ rsrc2, reads_regs r COMPUTE_PGM_RSRC1 [pm4_compute_pgm_rsrc1 pm4; rsrc2] ∧
    (rsrc2 / 2 ^ 15) mod 2 ^ 9 =
      (md_group_segment_size (k_metadata kernel) + dynamic_group_bytes + 511) / 512 ∧
    (∀ i, 0 ≤ i → ~ (15 ≤ i < 24) →
      Z.testbit rsrc2 i = Z.testbit (pm4_compute_pgm_rsrc2 pm4) i);
  dr_rsrc3 : reads_regs r COMPUTE_PGM_RSRC3_GFX12 [pm4_compute_pgm_rsrc3 pm4];
  dr_workgroup : reads_regs r COMPUTE_NUM_THREAD_X
    [a3_x (geo_workgroup geometry); a3_y (geo_workgroup geometry); a3_z (geo_workgroup geometry)];
  dr_limits : reads_regs r COMPUTE_RESOURCE_LIMITS [0x3ff];
  dr_kernarg : Z.testbit (pm4_kernel_code_properties pm4) 3 = true →
    ∃ lo hi, reads_regs r COMPUTE_USER_DATA_0 [lo; hi] ∧ lo + 2 ^ 32 * hi = kernarg_address
}.

Definition pm4_typed (pm4 : KernelPm4Metadata) : Prop :=
  in_u 64 (pm4_code_entry pm4) ∧ in_u 32 (pm4_compute_pgm_rsrc1 pm4) ∧
  in_u 32 (pm4_compute_pgm_rsrc2 pm4) ∧ in_u 32 (pm4_compute_pgm_rsrc3 pm4) ∧
  in_u 16 (pm4_kernel_code_properties pm4).

Definition kernel_typed (kernel : Kernel) : Prop :=
  in_u 32 (md_group_segment_size (k_metadata kernel)) ∧
  match k_pm4 kernel with Some pm4 => pm4_typed pm4 | None => True end.

Ltac lookup_regs :=
  repeat first
    [ rewrite lookup_insert, decide_False by lia
    | rewrite lookup_insert, decide_True by lia ].

Ltac unfold_registers :=
  unfold COMPUTE_RESOURCE_LIMITS, COMPUTE_PGM_LO, COMPUTE_PGM_RSRC1, COMPUTE_PGM_RSRC3_GFX12,
    COMPUTE_NUM_THREAD_X, COMPUTE_USER_DATA_0.

Lemma dispatch_writes_read r pm4 rsrc2 nk geometry kernarg :
  Forall (λ w, reads_regs (write_runs r (dispatch_writes pm4 rsrc2 nk geometry kernarg)) w.1 w.2)
    (dispatch_writes pm4 rsrc2 nk geometry kernarg).
Proof.
  unfold dispatch_writes, write_runs.
  destruct nk; cbn [app foldl write_regs]; repeat apply Forall_cons_2; try apply Forall_nil_2;
    intros [|[|[|i]]] v Hv; cbn in Hv; try discriminate; apply (inj Some) in Hv as <-;
    cbn [fst]; unfold_registers; cbn [Z.of_nat Pos.of_succ_nat Pos.succ]; lookup_regs; done.
Qed.

(** ** The admission checks *)

Lemma land_bit x k : 0 ≤ k → negb (Z.land x (Z.shiftl 1 k) =? 0) = Z.testbit x k.
Proof.
  intros Hk. assert (Z.land x (Z.shiftl 1 k) = Z.shiftl (Z.b2z (Z.testbit x k)) k) as ->.
  { apply Z.bits_inj'. intros i Hi. rewrite Z.land_spec, !Z.shiftl_spec by lia.
    destruct (decide (i = k)) as [->|Hne].
    - rewrite Z.sub_diag. by destruct (Z.testbit x k).
    - destruct (decide (i < k)); [by rewrite !(Z.testbit_neg_r _ (i - k)), andb_false_r by lia|].
      replace (Z.testbit 1 (i - k)) with false by
        (symmetry; change 1 with (2 ^ 0); apply Z.pow2_bits_false; lia).
      rewrite andb_false_r. destruct (Z.testbit x k); cbn [Z.b2z]; [|by rewrite Z.testbit_0_l].
      symmetry. change 1 with (2 ^ 0). apply Z.pow2_bits_false. lia. }
  destruct (Z.testbit x k); cbn [Z.b2z]; [|by rewrite Z.shiftl_0_l].
  rewrite Z.shiftl_1_l. apply negb_true_iff, Z.eqb_neq. lia.
Qed.

Lemma testbit_supported i :
  Z.testbit SUPPORTED_KERNEL_PROPERTIES i = bool_decide (i = 3 ∨ i = 10).
Proof.
  unfold SUPPORTED_KERNEL_PROPERTIES, ENABLE_SGPR_KERNARG_SEGMENT_PTR, ENABLE_WAVEFRONT_SIZE32.
  rewrite Z.lor_spec, !Z.shiftl_1_l. destruct (decide (i = 3)) as [->|H3]; [done|].
  destruct (decide (i = 10)) as [->|H10]; [done|].
  rewrite !Z.pow2_bits_false by lia. symmetry. apply bool_decide_eq_false. lia.
Qed.

Definition properties_supported (props : Z) : Prop :=
  ∀ i, 0 ≤ i → Z.testbit props i = true → i = 3 ∨ i = 10.

Lemma unsupported_zero props :
  Z.ldiff props SUPPORTED_KERNEL_PROPERTIES = 0 ↔ properties_supported props.
Proof.
  unfold properties_supported. split.
  - intros H0 i Hi Hb. apply (f_equal (λ x, Z.testbit x i)) in H0.
    rewrite Z.ldiff_spec, Z.testbit_0_l, Hb, testbit_supported in H0. cbn in H0.
    apply negb_false_iff, bool_decide_eq_true in H0. done.
  - intros Hp. apply Z.bits_inj'. intros i Hi.
    rewrite Z.ldiff_spec, Z.testbit_0_l, testbit_supported.
    destruct (Z.testbit props i) eqn:Hb; [|done]. cbn.
    apply negb_false_iff, bool_decide_eq_true. by apply Hp.
Qed.

(** The largest group segment the LDS field can grant: 511 granules. *)
Definition max_group_bytes : Z := 261632.

Record accepted (kernel : Kernel) (dyn kernarg : Z) (pm4 : KernelPm4Metadata) : Prop := {
  ac_private : md_private_segment_size (k_metadata kernel) = 0;
  ac_callstack : md_dynamic_callstack (k_metadata kernel) = false;
  ac_pm4 : k_pm4 kernel = Some pm4;
  ac_properties : properties_supported (pm4_kernel_code_properties pm4);
  ac_kernarg : Z.testbit (pm4_kernel_code_properties pm4) 3 = true → kernarg ≠ 0;
  ac_group : md_group_segment_size (k_metadata kernel) + dyn ≤ max_group_bytes
}.

Definition granted_rsrc2 (kernel : Kernel) (dyn : Z) (pm4 : KernelPm4Metadata) : Z :=
  Z.lor (Z.ldiff (pm4_compute_pgm_rsrc2 pm4) LDS_SIZE_MASK)
    (shl32 (div_ceil (md_group_segment_size (k_metadata kernel) + dyn) GFX12_LDS_GRANULE)
       LDS_SIZE_SHIFT).

Lemma group_fits total :
  0 ≤ total →
  (div_ceil total GFX12_LDS_GRANULE >? Z.shiftr LDS_SIZE_MASK LDS_SIZE_SHIFT) = false ↔
  total ≤ max_group_bytes.
Proof.
  intros Ht. unfold div_ceil, GFX12_LDS_GRANULE, max_group_bytes.
  change (Z.shiftr LDS_SIZE_MASK LDS_SIZE_SHIFT) with 511.
  rewrite Z.gtb_ltb, Z.ltb_ge. split; intros H; Z.div_mod_to_equations; lia.
Qed.

Lemma dispatch_checks_Ok kernel dyn kernarg pm4 rsrc2 wave32 nk :
  0 ≤ md_group_segment_size (k_metadata kernel) + dyn →
  dispatch_checks kernel dyn kernarg = Ok (pm4, rsrc2, wave32, nk) ↔
  accepted kernel dyn kernarg pm4 ∧ rsrc2 = granted_rsrc2 kernel dyn pm4 ∧
  wave32 = Z.testbit (pm4_kernel_code_properties pm4) 10 ∧
  nk = Z.testbit (pm4_kernel_code_properties pm4) 3.
Proof.
  intros Hpos. unfold dispatch_checks.
  destruct (Z.eqb_spec (md_private_segment_size (k_metadata kernel)) 0) as [Hp|Hp];
    cbn [negb orb]; [|split; [done|intros [[] _]; done]].
  destruct (md_dynamic_callstack (k_metadata kernel)) eqn:Hc;
    [split; [done|intros [[] _]; congruence]|].
  destruct (k_pm4 kernel) as [pm4'|] eqn:Hk; cbn [ok_or mbind result_bind];
    [|split; [done|intros [[] _]; congruence]].
  destruct (Z.eqb_spec (Z.ldiff (pm4_kernel_code_properties pm4') SUPPORTED_KERNEL_PROPERTIES) 0)
    as [Hs|Hs]; rewrite unsupported_zero in Hs; cbn [negb];
    [|split; [done|intros [[] _]; by simplify_eq]].
  unfold ENABLE_WAVEFRONT_SIZE32, ENABLE_SGPR_KERNARG_SEGMENT_PTR. rewrite !land_bit by lia.
  destruct (Z.testbit (pm4_kernel_code_properties pm4') 3 && (kernarg =? 0)) eqn:Hn.
  { split; [done|]. apply andb_true_iff in Hn as [Hb ->%Z.eqb_eq].
    intros [Hacc _]. pose proof (ac_pm4 _ _ _ _ Hacc). simplify_eq.
    by destruct (ac_kernarg _ _ _ _ Hacc Hb). }
  destruct (checked_add 32 _ dyn) as [total|] eqn:Ha; cbn [ok_or mbind result_bind].
  2: { apply checked_add_None in Ha. split; [done|]. intros [[] _].
    unfold max_group_bytes, umax in *. lia. }
  apply checked_add_Some in Ha as [-> Hle]. pose proof (group_fits _ Hpos) as Hfit.
  destruct (_ >? _).
  { split; [done|]. intros [[] _]. apply Hfit in ac_group0. done. }
  split.
  - intros [= -> <- <- <-]. split_and!; [|done..]. split; try done; [|by apply Hfit].
    intros Hb ->. rewrite Hb in Hn. done.
  - intros ([] & -> & -> & ->). by simplify_eq.
Qed.

(** ** The LDS field *)

Lemma testbit_lds_mask i :
  0 ≤ i → Z.testbit LDS_SIZE_MASK i = bool_decide (15 ≤ i < 24).
Proof.
  intros Hi. change LDS_SIZE_MASK with (Z.shiftl (Z.ones 9) 15). rewrite Z.shiftl_spec by lia.
  destruct (decide (15 ≤ i < 24)) as [H|H].
  - rewrite bool_decide_eq_true_2 by done. apply Z.ones_spec_low. lia.
  - rewrite bool_decide_eq_false_2 by done.
    destruct (decide (i < 15)); [apply Z.testbit_neg_r; lia|apply Z.ones_spec_high; lia].
Qed.

Lemma rsrc2_fields d n :
  0 ≤ n < 512 →
  let rsrc2 := Z.lor (Z.ldiff d LDS_SIZE_MASK) (shl32 n LDS_SIZE_SHIFT) in
  (rsrc2 / 2 ^ 15) mod 2 ^ 9 = n ∧
  ∀ i, 0 ≤ i → ~ (15 ≤ i < 24) → Z.testbit rsrc2 i = Z.testbit d i.
Proof.
  intros Hn rsrc2.
  assert (shl32 n LDS_SIZE_SHIFT = Z.shiftl n 15) as Hshl.
  { unfold shl32, LDS_SIZE_SHIFT. rewrite Z.shiftl_mul_pow2 by lia. apply Z.mod_small. lia. }
  assert (∀ i, 9 ≤ i → Z.testbit n i = false) as Hhigh.
  { intros i Hi. rewrite <-(Z.mod_small n (2 ^ 9)) by lia. apply Z.mod_pow2_bits_high. lia. }
  assert (∀ i, 0 ≤ i → Z.testbit rsrc2 i =
    if decide (15 ≤ i < 24) then Z.testbit n (i - 15) else Z.testbit d i) as Hbit.
  { intros i Hi. subst rsrc2.
    rewrite Z.lor_spec, Z.ldiff_spec, testbit_lds_mask, Hshl, Z.shiftl_spec by lia.
    destruct (decide (15 ≤ i < 24)) as [H|H].
    - rewrite bool_decide_eq_true_2 by done. by rewrite andb_false_r.
    - rewrite bool_decide_eq_false_2, andb_true_r by done.
      destruct (decide (i < 15)); [rewrite (Z.testbit_neg_r n (i - 15)) by lia|rewrite (Hhigh (i - 15)) by lia];
        by rewrite orb_false_r. }
  split.
  - apply Z.bits_inj'. intros i Hi. destruct (decide (i < 9)).
    + rewrite Z.mod_pow2_bits_low, Z.div_pow2_bits, Hbit, decide_True by lia. f_equal. lia.
    + rewrite Z.mod_pow2_bits_high, Hhigh by lia. done.
  - intros i Hi Ho. by rewrite Hbit, decide_False.
Qed.

(** ** Timestamps *)

Definition timestamp_packet (address : Z) : packet :=
  pk PACKET3_COPY_DATA
    [0x110509; 0; 0; as_u32 address; as_u32 (Z.shiftr address 32)] false.
Definition timestamp_event (address : Z) : event :=
  EvCommand PACKET3_COPY_DATA [0x110509; 0; 0; as_u32 address; as_u32 (Z.shiftr address 32)].

Fixpoint stamp_packets (base slot : Z) (ps : list packet) : list packet :=
  match ps with
  | [] => []
  | p :: ps =>
      if is_dispatch_packet p then
        p :: timestamp_packet (base + slot * 8) :: stamp_packets base (slot + 1) ps
      else p :: stamp_packets base slot ps
  end.

(** Every dispatch is followed by the timestamp of the next slot. *)
Fixpoint stamp_events (base slot : Z) (evs : list event) : list event :=
  match evs with
  | [] => []
  | EvDispatch r operands :: evs =>
      EvDispatch r operands :: timestamp_event (base + slot * 8) :: stamp_events base (slot + 1) evs
  | e :: evs => e :: stamp_events base slot evs
  end.

Lemma timestamp_packet_quiet a : quiet (timestamp_packet a).
Proof. unfold timestamp_packet. apply pk_quiet; by vm_compute. Qed.

Lemma run_timestamp r a ps :
  run r (timestamp_packet a :: ps) = (fst (run r ps), timestamp_event a :: snd (run r ps)).
Proof.
  change (timestamp_packet a :: ps) with ([timestamp_packet a] ++ ps).
  rewrite run_app. unfold timestamp_packet. by rewrite run_pk by (by vm_compute).
Qed.

Lemma stamp_events_app base slot e1 e2 :
  stamp_events base slot (e1 ++ e2) =
    stamp_events base slot e1 ++ stamp_events base (slot + Z.of_nat (count is_dispatch_event e1)) e2.
Proof.
  revert slot. induction e1 as [|e e1 IH]; intros slot; [unfold count; cbn; by rewrite Z.add_0_r|].
  unfold count in *. destruct e; cbn [app stamp_events List.filter is_dispatch_event length];
    rewrite IH; cbn [app]; [|done].
  rewrite Nat2Z.inj_succ, <-Z.add_1_l, Z.add_assoc. done.
Qed.

Lemma run_cons r p ps :
  run r (p :: ps) =
    (fst (run (fst (step_packet r p)) ps),
     snd (step_packet r p) ++ snd (run (fst (step_packet r p)) ps)).
Proof. done. Qed.

Lemma run_stamp base slot ps : ∀ r,
  run r (stamp_packets base slot ps) =
    (fst (run r ps), stamp_events base slot (snd (run r ps))).
Proof.
  revert slot. induction ps as [|p ps IH]; intros slot r; [done|].
  pose proof (step_packet_dispatches r p) as Hd. cbn [stamp_packets].
  destruct (is_dispatch_packet p) eqn:Hp.
  - rewrite (run_cons r p ps), (run_cons r p (_ :: _)), run_timestamp, IH. cbn [fst snd].
    assert (∃ r' o, snd (step_packet r p) = [EvDispatch r' o]) as (r' & o & ->).
    { unfold step_packet, is_dispatch_packet in *. apply Z.eqb_eq in Hp. rewrite Hp in *.
      by exists r, (p_body p). }
    done.
  - rewrite (run_cons r p ps), (run_cons r p (stamp_packets _ _ _)), IH.
    cbn [fst snd]. rewrite stamp_events_app, Hd, Z.add_0_r. f_equal. f_equal.
    clear -Hd. destruct (snd (step_packet r p)) as [|[|] l] eqn:He; [done|done|].
    unfold step_packet in He. destruct (_ =? PACKET3_SET_SH_REG); [by destruct (p_body p)|].
    repeat case_match; by simplify_eq/=.
Qed.

Lemma timestamps_fold base ps : ∀ timed qs slot,
  buffer_ok timed qs → cb_register_state timed = None → Forall valid_packet ps → Forall set_small ps →
  0 ≤ base → 0 ≤ slot → base + 8 * (slot + Z.of_nat (count is_dispatch_packet ps)) ≤ u64_max →
  ∃ timed' slot', fold_exec (timestamps_step base) (timed, slot) ps = Done (timed', slot') ∧
    cb_dwords timed' = stream (qs ++ stamp_packets base slot ps) ∧
    Forall valid_packet (qs ++ stamp_packets base slot ps).
Proof.
  induction ps as [|p ps IH]; intros timed qs slot Hb Hnone Hv Hsm Hbase Hslot Hmax.
  { cbn. exists timed, slot. rewrite app_nil_r. by destruct Hb. }
  apply Forall_cons in Hv as [Hp Hv]. apply Forall_cons in Hsm as [Hp' Hsm].
  cbn [fold_exec timestamps_step stamp_packets].
  assert (count is_dispatch_packet (p :: ps) =
    (if is_dispatch_packet p then 1 else 0) + count is_dispatch_packet ps)%nat as Hcount
    by (unfold count; cbn [List.filter]; by destruct (is_dispatch_packet p)).
  assert (∀ ws rs, Forall valid_packet rs → Forall set_small rs → ws = stream rs →
    buffer_ok (extend timed ws) (qs ++ rs)) as Hext.
  { intros ws rs Hrs Hrs' ->. destruct Hb as [H1 H2 H3 H4 H5 H6]. split; cbn.
    - by apply Forall_app.
    - by rewrite H2, stream_app.
    - done.
    - intros st r. by rewrite Hnone.
    - intros st k. by rewrite Hnone.
    - by apply Forall_app. }
  change (header_opcode (p_header p)) with (p_opcode p).
  fold (is_dispatch_packet p). destruct (is_dispatch_packet p) eqn:Hd.
  - unfold u64_max in Hmax.
    assert (checked_mul 64 slot 8 = Some (slot * 8)) as ->
      by (apply checked_mul_Some; unfold umax; lia).
    assert (checked_add 64 base (slot * 8) = Some (base + slot * 8)) as Ha
      by (apply checked_add_Some; unfold umax; lia).
    assert (checked_add 64 slot 1 = Some (slot + 1)) as Hs
      by (apply checked_add_Some; unfold umax; lia).
    cbn [unwrap mbind exec_bind]. rewrite Ha. cbn [unwrap mbind exec_bind]. rewrite Hs.
    cbn [unwrap mbind exec_bind].
    destruct (IH (copy_gpu_timestamp (extend timed (p_dwords p)) (base + slot * 8))
      (qs ++ [p; timestamp_packet (base + slot * 8)]) (slot + 1)) as (t' & s' & Hf & Hdw & Hval);
      [|done|done|done|done|lia|unfold u64_max; lia|].
    + unfold copy_gpu_timestamp. rewrite extend_extend. apply Hext; [| |done].
      * apply Forall_cons_2; [done|]. apply Forall_cons_2; [apply timestamp_packet_quiet|constructor].
      * apply Forall_cons_2; [done|]. apply Forall_cons_2; [|constructor].
        intros Ho. by destruct (timestamp_packet_quiet (base + slot * 8)).
    + exists t', s'. rewrite <-app_assoc in Hdw, Hval. done.
  - cbn [mbind exec_bind].
    destruct (IH (extend timed (p_dwords p)) (qs ++ [p]) slot) as (t' & s' & Hf & Hdw & Hval);
      [|done|done|done|done|lia|lia|].
    + apply Hext; [by constructor|by constructor|]. by rewrite stream_singleton.
    + exists t', s'. rewrite <-app_assoc in Hdw, Hval. done.
Qed.

Definition timestamp_address (e : event) : option Z :=
  match e with
  | EvCommand opcode [_; _; _; lo; hi] =>
      if opcode =? PACKET3_COPY_DATA then Some (lo + 2 ^ 32 * hi) else None
  | _ => None
  end.

(** The addresses that the stamped events write, and the events without them. *)
Lemma stamp_addresses base evs : ∀ slot,
  0 ≤ base → 0 ≤ slot →
  base + 8 * (slot + Z.of_nat (count is_dispatch_event evs)) ≤ u64_max →
  Forall (λ e, timestamp_address e = None) evs →
  filter_map timestamp_address (stamp_events base slot evs) =
    (λ i, base + 8 * Z.of_nat i) <$> seq (Z.to_nat slot) (count is_dispatch_event evs).
Proof.
  induction evs as [|e evs IH]; intros slot Hb Hs Hm Hn; [done|].
  apply Forall_cons in Hn as [He Hn]. unfold count in *.
  destruct e as [r operands|opcode operands]; cbn [List.filter is_dispatch_event length] in *.
  - cbn [stamp_events filter_map timestamp_address timestamp_event].
    rewrite Z.eqb_refl, IH by (done || lia). cbn [seq fmap list_fmap]. f_equal.
    + unfold as_u32. rewrite Z.shiftr_div_pow2 by lia.
      rewrite (Z.mod_small (_ / _)) by
        (unfold u64_max in Hm; split; [apply Z.div_pos|apply Z.div_lt_upper_bound]; lia).
      pose proof (Z.div_mod (base + slot * 8) (2 ^ 32)). lia.
    + do 2 f_equal. lia.
  - cbn [stamp_events filter_map]. rewrite He. by apply IH.
Qed.

Lemma spec_ops_no_timestamps os : ∀ r t,
  spec_ops r os = Ok t → Forall (λ e, timestamp_address e = None) (snd t).
Proof.
  induction os as [|o os IH]; intros r t; cbn [spec_ops]; [by intros [= <-]|].
  destruct (spec_op r o) as [s|] eqn:Hs; [|done].
  destruct (spec_ops (fst s) os) as [t'|] eqn:Ht; [|done]. intros [= <-]. cbn [snd].
  apply Forall_app. split; [|by eapply IH].
  destruct o; cbn [spec_op] in Hs;
    try (injection Hs as <-; cbn [snd]; repeat constructor; done).
  destruct (dispatch_checks _ _ _) as [[[[? ?] ?] ?]|]; [|done]. injection Hs as <-.
  by repeat constructor.
Qed.

(** ** Spans *)

(** The packets before each dispatch, back to the previous one. *)
Fixpoint before_dispatches (acc ps : list packet) : list (list packet) :=
  match ps with
  | [] => []
  | p :: ps =>
      if is_dispatch_packet p then acc :: before_dispatches [] ps
      else before_dispatches (acc ++ [p]) ps
  end.

Definition has_opcode (opcode : Z) (ps : list packet) : bool :=
  existsb (λ p, p_opcode p =? opcode) ps.

Definition span_of (first : bool) (seg : list packet) : Pm4DispatchSpanAttribution :=
  mkSpan (first && has_opcode PACKET3_ACQUIRE_MEM seg) (has_opcode PACKET3_EVENT_WRITE seg)
    (negb first && has_opcode PACKET3_ACQUIRE_MEM seg).

Definition spans_of (segs : list (list packet)) : list Pm4DispatchSpanAttribution :=
  match segs with
  | [] => []
  | seg :: segs => span_of true seg :: (span_of false <$> segs)
  end.

Lemma has_opcode_snoc opcode ps p :
  has_opcode opcode (ps ++ [p]) = has_opcode opcode ps || (p_opcode p =? opcode).
Proof. unfold has_opcode. rewrite existsb_app. cbn. by rewrite orb_false_r. Qed.

Lemma spans_fold ps : ∀ attributions acc saw,
  ∃ pending saw', fold_exec spans_step (attributions, span_of (negb saw) acc, saw) ps =
    Done (attributions ++
      (if saw then span_of false <$> before_dispatches acc ps else spans_of (before_dispatches acc ps)),
      pending, saw').
Proof.
  induction ps as [|p ps IH]; intros attributions acc saw.
  { cbn. do 2 eexists. destruct saw; by rewrite app_nil_r. }
  cbn [fold_exec before_dispatches]. unfold spans_step at 2. fold (p_opcode p).
  unfold is_dispatch_packet.
  destruct (Z.eqb_spec (p_opcode p) PACKET3_DISPATCH_DIRECT) as [Hd|Hd].
  - cbn [mbind exec_bind]. destruct (IH (attributions ++ [span_of (negb saw) acc]) [] true)
      as (pending & saw' & Hf). exists pending, saw'.
    change (span_of (negb true) []) with span_default in Hf. rewrite Hf, <-app_assoc.
    by destruct saw.
  - cbn [mbind exec_bind].
    assert ((if p_opcode p =? PACKET3_EVENT_WRITE then
        mkSpan (sa_entry_acquire (span_of (negb saw) acc)) true
          (sa_acquire_inter_node (span_of (negb saw) acc))
      else if (p_opcode p =? PACKET3_ACQUIRE_MEM) && negb saw then
        mkSpan true (sa_wait_compute_idle (span_of (negb saw) acc))
          (sa_acquire_inter_node (span_of (negb saw) acc))
      else if p_opcode p =? PACKET3_ACQUIRE_MEM then
        mkSpan (sa_entry_acquire (span_of (negb saw) acc))
          (sa_wait_compute_idle (span_of (negb saw) acc)) true
      else span_of (negb saw) acc) = span_of (negb saw) (acc ++ [p])) as Heq.
    { unfold span_of. rewrite !has_opcode_snoc.
      destruct (Z.eqb_spec (p_opcode p) PACKET3_EVENT_WRITE) as [->|];
        [|destruct (Z.eqb_spec (p_opcode p) PACKET3_ACQUIRE_MEM)];
        destruct saw; cbn; by rewrite ?orb_false_r, ?orb_true_r. }
    destruct (IH attributions (acc ++ [p]) saw) as (pending & saw' & Hf). exists pending, saw'.
    rewrite <-Hf, <-Heq.
    destruct (p_opcode p =? PACKET3_EVENT_WRITE); [done|].
    by destruct (p_opcode p =? PACKET3_ACQUIRE_MEM), saw.
Qed.
