(* ===== verification/Pm4Claims.v ===== *)
(** * The properties of the PM4 builder

    The statements about [pm4.rs] as a whole, each with a concrete instance. *)

From stdpp Require Import gmap.
From S2P Require Import Prelude Packet Device Pm4 Pm4Exec Pm4Build Pm4Ok.

#[local] Open Scope Z_scope.

(** ** A sample kernel and command sequence *)

Definition sample_pm4 : KernelPm4Metadata := mkPm4 0x7f0000001200 0x60af0000 0x98 0 0x408.
Definition sample_kernel : Kernel :=
  mkKernel (lit "k") (mkMetadata 0x7f0000002000 64 16 1024 0 false) (Some sample_pm4) 1.
Definition sample_geometry : LaunchGeometry := mkGeometry (mk3 256 2 1) (mk3 64 1 1) 2.
Definition sample_ops : list op :=
  [OpAcquireSystemGfx12; OpSetPacing (PostDispatchNop 3);
   OpDispatch sample_kernel sample_geometry 512 0x10000;
   OpDependencySameAgent;
   OpDispatch sample_kernel sample_geometry 512 0x20000; OpWaitComputeIdle].

Lemma sample_ops_typed : Forall op_typed sample_ops.
Proof. repeat constructor; by vm_compute. Qed.

Definition sample_buffer : Gfx12Pm4CommandBuffer :=
  match build buffer_new_stateful sample_ops with Ok b => b | Err _ => buffer_new end.

Lemma sample_built : build buffer_new_stateful sample_ops = Ok sample_buffer.
Proof. by vm_compute. Qed.

Definition sample_plain : Gfx12Pm4CommandBuffer :=
  match build buffer_new (unpaced sample_ops) with Ok b => b | Err _ => buffer_new end.

Lemma sample_plain_built : build buffer_new (unpaced sample_ops) = Ok sample_plain.
Proof. by vm_compute. Qed.

Definition sample_next : Gfx12Pm4CommandBuffer :=
  match dispatch sample_buffer sample_kernel sample_geometry 512 0x30000 with
  | Ok b => b
  | Err _ => buffer_new
  end.

Lemma sample_next_built :
  dispatch sample_buffer sample_kernel sample_geometry 512 0x30000 = Ok sample_next.
Proof. by vm_compute. Qed.

Lemma sample_kernel_typed : kernel_typed sample_kernel.
Proof. unfold kernel_typed, pm4_typed, in_u. by vm_compute. Qed.
Lemma sample_dyn_typed : in_u 32 512.
Proof. by vm_compute. Qed.
Lemma sample_kernarg_typed : in_u 64 0x30000.
Proof. by vm_compute. Qed.

Lemma unpaced_ops_typed : Forall op_typed (unpaced sample_ops).
Proof. repeat constructor. Qed.

(** C30: Refinement of the PM4 builder.  For every sequence of builder
    operations, from a plain, a stateful or a static-stateful buffer, the
    build fails exactly when the operation semantics does and with the same
    error; otherwise the retained dwords are a well-formed packet stream, and
    running it from any register contents issues the same commands, in the
    same order, each dispatch seeing the same registers, as the operations
    mean. *)
Theorem builder_refines b0 os :
  fresh_buffer b0 → Forall op_typed os →
  ∀ r, match build b0 os with
  | Ok b => ∃ t, spec_ops r os = Ok t ∧ run_dwords r (cb_dwords b) = Some t
  | Err e => spec_ops r os = Err e
  end.
Proof.
  intros Hf Ht r. pose proof (build_fresh b0 os Hf Ht) as Hb.
  destruct (build b0 os) as [b|e]; [|apply Hb].
  destruct Hb as (ps & Hok & Hr). exists (run r ps).
  split; [apply Hr|by apply buffer_run].
Qed.

Lemma builder_refines_witness :
  fresh_buffer buffer_new_stateful ∧ Forall op_typed sample_ops ∧
  ∃ t, spec_ops ∅ sample_ops = Ok t ∧ run_dwords ∅ (cb_dwords sample_buffer) = Some t.
Proof.
  split; [by right; left|]. split; [apply sample_ops_typed|].
  pose proof (builder_refines buffer_new_stateful sample_ops) as H.
  specialize (H ltac:(by right; left) sample_ops_typed ∅). by rewrite sample_built in H.
Defined.

(** C34: Register elision and pacing are invisible.  Two builds from buffers
    of any two modes, with operations that differ only in pacing, have the
    same outcome, and when they succeed the two streams have the same effect
    from any register contents. *)
Theorem elision_pacing_transparent b1 b2 os1 os2 :
  fresh_buffer b1 → fresh_buffer b2 → Forall op_typed os1 → Forall op_typed os2 →
  unpaced os1 = unpaced os2 →
  match build b1 os1, build b2 os2 with
  | Ok c1, Ok c2 => ∀ r, ∃ t,
      run_dwords r (cb_dwords c1) = Some t ∧ run_dwords r (cb_dwords c2) = Some t
  | Err e1, Err e2 => e1 = e2
  | _, _ => False
  end.
Proof.
  intros F1 F2 T1 T2 Hu.
  assert (∀ r, spec_ops r os1 = spec_ops r os2) as Hs
    by (intros r; by rewrite spec_ops_unpaced, Hu, <-spec_ops_unpaced).
  pose proof (build_fresh b1 os1 F1 T1) as H1. pose proof (build_fresh b2 os2 F2 T2) as H2.
  destruct (build b1 os1) as [c1|e1], (build b2 os2) as [c2|e2].
  - destruct H1 as (p1 & O1 & R1), H2 as (p2 & O2 & R2). intros r. exists (run r p1).
    split; [by apply buffer_run|]. rewrite (buffer_run _ _ _ O2). f_equal.
    specialize (R1 r). rewrite Hs, R2 in R1. by apply Ok_inj in R1.
  - destruct H1 as (p1 & _ & R1). specialize (R1 ∅). rewrite Hs, H2 in R1. done.
  - destruct H2 as (p2 & _ & R2). specialize (R2 ∅). rewrite <-Hs, H1 in R2. done.
  - specialize (H1 ∅). rewrite Hs, H2 in H1. by injection H1.
Qed.

Lemma elision_pacing_transparent_witness :
  sample_ops ≠ unpaced sample_ops ∧
  length (cb_dwords sample_buffer) ≠ length (cb_dwords sample_plain) ∧
  ∀ r, ∃ t, run_dwords r (cb_dwords sample_buffer) = Some t ∧
    run_dwords r (cb_dwords sample_plain) = Some t.
Proof.
  split; [done|]. split; [by vm_compute|].
  pose proof (elision_pacing_transparent buffer_new_stateful buffer_new sample_ops
    (unpaced sample_ops) ltac:(by right; left) ltac:(by left) sample_ops_typed
    unpaced_ops_typed eq_refl) as H.
  rewrite sample_built, sample_plain_built in H. exact H.
Defined.

(** A dispatch programs its kernel.  Appending a dispatch to a buffer of
    any mode issues one command more, a dispatch whose operands are the grid
    and the wave-size bit of the kernel descriptor, and the registers it sees
    hold the kernel's code address, resource words with an LDS grant of
    exactly the static plus dynamic group bytes rounded up to 512 (all other
    bits of the second word as in the descriptor), the workgroup, the wave
    limit and, when the kernel takes one, the kernarg address. *)
Theorem dispatch_programs b0 os b kernel pm4 geometry dyn kernarg b' :
  fresh_buffer b0 → Forall op_typed os → build b0 os = Ok b →
  kernel_typed kernel → in_u 32 dyn → in_u 64 kernarg → k_pm4 kernel = Some pm4 →
  dispatch b kernel geometry dyn kernarg = Ok b' →
  ∀ r, ∃ r1 evs r2,
    run_dwords r (cb_dwords b) = Some (r1, evs) ∧
    run_dwords r (cb_dwords b') =
      Some (r2, evs ++ [EvDispatch r2
        (dispatch_operands (Z.testbit (pm4_kernel_code_properties pm4) 10) geometry)]) ∧
    dispatch_regs r2 kernel pm4 geometry dyn kernarg.
Proof.
  intros Hf Ht Hb [Hg Hk] Hd Ha Hpm Hdisp r. rewrite Hpm in Hk. destruct Hk as (Hce & _).
  pose proof (build_fresh b0 os Hf Ht) as Hok. rewrite Hb in Hok.
  destruct Hok as (ps & Hok & _).
  pose proof (dispatch_op_ok b ps kernel geometry dyn kernarg Hok) as Hop.
  unfold op_ok in Hop. cbn [apply_op spec_op] in Hop. rewrite Hdisp in Hop.
  destruct Hop as (qs & Hok' & Hr). specialize (Hr r).
  destruct (dispatch_checks kernel dyn kernarg) as [[[[pm4' rsrc2] wave32] nk]|] eqn:Hc; [|done].
  unfold in_u, umax in *. apply dispatch_checks_Ok in Hc as (Hacc & -> & -> & ->); [|lia].
  pose proof (ac_pm4 _ _ _ _ Hacc) as Hpm'. rewrite Hpm in Hpm'. injection Hpm' as <-.
  apply Ok_inj in Hr.
  exists (fst (run r ps)), (snd (run r ps)). eexists. split_and!.
  - rewrite (buffer_run _ _ _ Hok). by destruct (run r ps).
  - rewrite (buffer_run _ _ _ Hok'), run_app, <-Hr. reflexivity.
  - pose proof (dispatch_writes_read (fst (run r ps)) pm4 (granted_rsrc2 kernel dyn pm4)
      (Z.testbit (pm4_kernel_code_properties pm4) 3) geometry kernarg) as Hreads.
    cbn [fst]. revert Hreads. generalize (write_runs (fst (run r ps))
      (dispatch_writes pm4 (granted_rsrc2 kernel dyn pm4)
        (Z.testbit (pm4_kernel_code_properties pm4) 3) geometry kernarg)).
    intros r2 Hreads. unfold dispatch_writes in Hreads. apply Forall_app in Hreads as [Hreads Hka].
    repeat apply Forall_cons in Hreads as [? Hreads]. cbn [fst snd] in *.
    assert (∀ x, 0 ≤ x < 2 ^ 64 → as_u32 x + 2 ^ 32 * as_u32 (Z.shiftr x 32) = x) as Hhalves.
    { intros x Hx. unfold as_u32. rewrite Z.shiftr_div_pow2 by lia.
      rewrite (Z.mod_small (_ / _)) by (split; [apply Z.div_pos|apply Z.div_lt_upper_bound]; lia).
      pose proof (Z.div_mod x (2 ^ 32)). lia. }
    split; try done.
    + do 2 eexists. split; [done|]. pose proof (Hhalves (Z.shiftr (pm4_code_entry pm4) 8)) as Hh.
      rewrite Z.shiftr_shiftr in Hh by lia. change 256 with (2 ^ 8).
      rewrite <-(Z.shiftr_div_pow2 _ 8) by lia. apply Hh. rewrite Z.shiftr_div_pow2 by lia.
      split; [apply Z.div_pos|apply Z.div_lt_upper_bound]; lia.
    + eexists. split; [done|]. pose proof (ac_group _ _ _ _ Hacc) as Hmax.
      unfold max_group_bytes in Hmax. unfold granted_rsrc2, div_ceil, GFX12_LDS_GRANULE.
      destruct (rsrc2_fields (pm4_compute_pgm_rsrc2 pm4)
        ((md_group_segment_size (k_metadata kernel) + dyn + 512 - 1) / 512)) as [Hlds Hrest];
        [split; [apply Z.div_pos|apply Z.div_lt_upper_bound]; lia|].
      split; [|done]. rewrite Hlds. f_equal. lia.
    + intros Hbit. rewrite Hbit in Hka. apply Forall_cons in Hka as [Hka _].
      do 2 eexists. split; [done|]. apply Hhalves. lia.
Qed.

Lemma dispatch_programs_witness :
  dispatch sample_buffer sample_kernel sample_geometry 512 0x30000 = Ok sample_next ∧
  ∀ r, ∃ r1 evs r2,
    run_dwords r (cb_dwords sample_buffer) = Some (r1, evs) ∧
    run_dwords r (cb_dwords sample_next) =
      Some (r2, evs ++ [EvDispatch r2
        (dispatch_operands (Z.testbit (pm4_kernel_code_properties sample_pm4) 10) sample_geometry)]) ∧
    dispatch_regs r2 sample_kernel sample_pm4 sample_geometry 512 0x30000.
Proof.
  split; [apply sample_next_built|].
  exact (dispatch_programs buffer_new_stateful sample_ops sample_buffer sample_kernel sample_pm4
    sample_geometry 512 0x30000 sample_next (or_intror (or_introl eq_refl)) sample_ops_typed
    sample_built sample_kernel_typed sample_dyn_typed sample_kernarg_typed eq_refl
    sample_next_built).
Defined.

(** Which dispatches are accepted.  [dispatch] succeeds exactly when the
    kernel needs no scratch and no dynamic call stack, has descriptor
    metadata, requires no implicit SGPR beyond the kernarg pointer and the
    wave size, gets a kernarg address if it takes one, and its static plus
    dynamic group segment fits 511 granules of 512 bytes; the [u32] overflow
    check never lets a wrapped total through. *)
Theorem dispatch_accepts_exact b kernel geometry dyn kernarg :
  kernel_typed kernel → in_u 32 dyn →
  (∃ b', dispatch b kernel geometry dyn kernarg = Ok b') ↔
  ∃ pm4, accepted kernel dyn kernarg pm4.
Proof.
  intros [Hg _] Hd. unfold in_u in *.
  assert (0 ≤ md_group_segment_size (k_metadata kernel) + dyn) as Hpos by lia. split.
  - intros [b' Hb]. unfold dispatch in Hb.
    destruct (dispatch_checks kernel dyn kernarg) as [[[[pm4 rsrc2] w] nk]|] eqn:Hc; [|done].
    apply dispatch_checks_Ok in Hc as [Hacc _]; [|done]. by exists pm4.
  - intros [pm4 Hacc]. eexists. apply dispatch_shape. by apply dispatch_checks_Ok.
Qed.

Lemma dispatch_accepts_exact_witness :
  (∃ b', dispatch buffer_new sample_kernel sample_geometry 512 0x30000 = Ok b') ∧
  ~ (∃ b', dispatch buffer_new sample_kernel sample_geometry 0xffffffff 0x30000 = Ok b').
Proof.
  split.
  - apply (dispatch_accepts_exact buffer_new sample_kernel sample_geometry 512 0x30000
      sample_kernel_typed sample_dyn_typed).
    exists sample_pm4. apply (dispatch_checks_Ok _ _ _ _ (granted_rsrc2 sample_kernel 512 sample_pm4)
      true true); [by vm_compute|by vm_compute].
  - intros H. apply (dispatch_accepts_exact buffer_new sample_kernel sample_geometry 0xffffffff 0x30000
      sample_kernel_typed ltac:(by vm_compute)) in H as [pm4 H].
    destruct (ac_group _ _ _ _ H). by vm_compute.
Defined.

(** The diagnostic walks are total and exact.  On any dwords at all, the
    timestamp slot count and the span attribution succeed exactly when the
    dwords are a sequence of whole PACKET3 packets: then there is one slot
    more than there are dispatches, and span [i] says which boundary commands
    lie between dispatches [i - 1] and [i], an acquire counting as the entry
    acquire in span 0 only and as an inter-node one in the others only.
    Otherwise both report a malformed stream at a position inside it. *)
Theorem walks_exact b :
  match packets_of (cb_dwords b) with
  | Some ps =>
      timestamp_slot_count b = Done (1 + count is_dispatch_packet ps)%nat ∧
      dispatch_span_attributions b = Done (spans_of (before_dispatches [] ps))
  | None =>
      (∃ c, (c < length (cb_dwords b))%nat ∧ timestamp_slot_count b = Fail (MalformedStream c)) ∧
      (∃ c, (c < length (cb_dwords b))%nat ∧ dispatch_span_attributions b = Fail (MalformedStream c))
  end.
Proof.
  destruct (packets_of (cb_dwords b)) as [ps|] eqn:Hps.
  - apply packets_of_Some in Hps as [Hd Hv].
    unfold timestamp_slot_count, dispatch_span_attributions. rewrite Hd, !walk_all_stream by done.
    split; [apply slots_fold|].
    destruct (spans_fold ps [] [] false) as (pending & saw & Hf).
    change (span_of (negb false) []) with span_default in Hf. by rewrite Hf.
  - unfold packets_of in Hps. split.
    + destruct (walk_malformed slots_step ltac:(intros; by eexists) (length (cb_dwords b))
        (cb_dwords b) 0 1%nat) as (c & Hc & Hw); [lia..|done|]. by exists c.
    + destruct (walk_malformed spans_step ltac:(intros [[a p] s] h q; by eexists)
        (length (cb_dwords b)) (cb_dwords b) 0 ([], span_default, false)) as (c & Hc & Hw);
        [lia..|done|].
      exists c. split; [done|]. unfold dispatch_span_attributions, walk_all. by rewrite Hw.
Qed.

(** Per-dispatch timestamps.  On any built buffer whose slots fit in the
    address space behind [base], the instrumented copy exists, its length
    walk agrees with the slot count, and it does what the original does,
    with a timestamp before everything and one right behind every dispatch;
    the addresses written are exactly the slots [base + 8 * i], each once and
    in order. *)
Theorem timestamps_per_dispatch b0 os b base slots :
  fresh_buffer b0 → Forall op_typed os → build b0 os = Ok b →
  timestamp_slot_count b = Done slots →
  0 ≤ base → base + 8 * Z.of_nat slots ≤ u64_max →
  ∃ timed, with_per_dispatch_timestamps b base = Done timed ∧
  ∀ r, ∃ r' evs evs',
    run_dwords r (cb_dwords b) = Some (r', evs) ∧
    run_dwords r (cb_dwords timed) = Some (r', evs') ∧
    evs' = timestamp_event base :: stamp_events base 1 evs ∧
    filter_map timestamp_address evs' = (λ i, base + 8 * Z.of_nat i) <$> seq 0 slots.
Proof.
  intros Hf Ht Hb Hslots Hbase Hmax. pose proof (build_fresh b0 os Hf Ht) as Hok. rewrite Hb in Hok.
  destruct Hok as (ps & Hok & Hspec). pose proof Hok as [Hv Hd _ _ _ Hsm].
  unfold timestamp_slot_count in Hslots. rewrite Hd, walk_all_stream, slots_fold in Hslots by done.
  apply Done_inj in Hslots as <-.
  assert (buffer_ok (copy_gpu_timestamp buffer_new base) [timestamp_packet base]) as Ht0.
  { apply (ap_ok buffer_new _ []). apply extend_quiet; [apply empty_ok; by left| |by rewrite stream_singleton].
    repeat constructor; apply timestamp_packet_quiet. }
  destruct (timestamps_fold base ps _ _ 1 Ht0 eq_refl Hv Hsm) as (timed & slot' & Hfold & Hdw & Hval);
    [done|lia|lia|].
  exists timed. split.
  { unfold with_per_dispatch_timestamps. by rewrite Hd, walk_all_stream, Hfold. }
  intros r. exists (fst (run r ps)), (snd (run r ps)). eexists. split_and!.
  - rewrite (buffer_run _ _ _ Hok). by destruct (run r ps).
  - rewrite Hdw, run_dwords_stream by done. cbn [app]. rewrite run_timestamp, run_stamp. done.
  - done.
  - cbn [filter_map timestamp_address timestamp_event snd]. rewrite Z.eqb_refl.
    rewrite stamp_addresses; rewrite ?run_dispatches; [|lia..|].
    + cbn [Nat.add seq fmap list_fmap]. f_equal.
      unfold as_u32. rewrite Z.shiftr_div_pow2 by lia. unfold u64_max in Hmax.
      rewrite (Z.mod_small (_ / _)) by (split; [apply Z.div_pos|apply Z.div_lt_upper_bound]; lia).
      pose proof (Z.div_mod base (2 ^ 32)). lia.
    + by eapply spec_ops_no_timestamps.
Qed.

Lemma timestamps_per_dispatch_witness :
  timestamp_slot_count sample_buffer = Done 3%nat ∧
  ∃ timed, with_per_dispatch_timestamps sample_buffer 0x1000 = Done timed ∧
  ∀ r, ∃ r' evs evs',
    run_dwords r (cb_dwords sample_buffer) = Some (r', evs) ∧
    run_dwords r (cb_dwords timed) = Some (r', evs') ∧
    evs' = timestamp_event 0x1000 :: stamp_events 0x1000 1 evs ∧
    filter_map timestamp_address evs' = (λ i, 0x1000 + 8 * Z.of_nat i) <$> seq 0 3.
Proof.
  assert (timestamp_slot_count sample_buffer = Done 3%nat) as Hs by (by vm_compute).
  split; [done|].
  exact (timestamps_per_dispatch buffer_new_stateful sample_ops sample_buffer 0x1000 3
    (or_intror (or_introl eq_refl)) sample_ops_typed sample_built Hs
    ltac:(by vm_compute) ltac:(by vm_compute)).
Defined.
