(* ===== verification/Pm4Decode.v ===== *)
(** * PM4 packet decoding ([redline-rocr/src/pm4_decode.rs])

    The strict decoder and encoder of the default single-queue packet subset.
    [ShReg], [NonZeroGrid] and [DispatchInitiator] have private fields and a
    checking constructor; [packet_typed] is the invariant that gives. *)

From stdpp Require Import gmap.
From S2P Require Import Prelude Packet Device Pm4.

#[local] Open Scope Z_scope.

Definition SET_SH_REG : Z := 0x76.
Definition DISPATCH_DIRECT : Z := 0x15.
Definition EVENT_WRITE : Z := 0x46.
Definition ACQUIRE_MEM : Z := 0x58.
Definition SH_FIRST : Z := 0x200.
Definition SH_LAST : Z := 0x2ff.
Definition INITIATOR_BASE : Z := 0x25.
Definition WAVE32 : Z := 0x8000.
Definition SYSTEM_GCR : Z := 0xc3b1.
Definition INTER_NODE_GCR : Z := 0x10180.
Definition ACQUIRE_PREFIX : list Z := [0; u32_max; 0x00ffffff; 0; 0; 0xa].

Inductive Pm4Family := Gfx10 | Gfx11 | Gfx12_0.
Inductive ParseMode := Certified | Diagnostic.
Inductive ResolvedRelocations : Set := NoRelocations.

#[export] Instance Pm4Family_eq_dec : EqDecision Pm4Family.
Proof. solve_decision. Defined.

(** The checking constructors. *)
Definition ShReg_try_new (offset : Z) : option Z :=
  if (SH_FIRST <=? offset) && (offset <=? SH_LAST) then Some offset else None.
Definition NonZeroGrid_try_new (d : arr3) : option arr3 :=
  if negb (a3_x d =? 0) && negb (a3_y d =? 0) && negb (a3_z d =? 0) then Some d else None.
Definition DispatchInitiator_try_new (word : Z) : option Z :=
  if (word =? INITIATOR_BASE) || (word =? Z.lor INITIATOR_BASE WAVE32) then Some word else None.

Inductive CacheScope := ScopeSystem | ScopeInterNode.

Definition scope_gcr (s : CacheScope) : Z :=
  match s with ScopeSystem => SYSTEM_GCR | ScopeInterNode => INTER_NODE_GCR end.

Inductive Pm4Packet :=
| SetShRegs (first : Z) (values : list Z)
| DispatchDirect (dimensions : arr3) (initiator : Z)
| EventComputeIdle
| Acquire (scope : CacheScope) (gcr : Z).

Record Pm4ParseError := reject { pe_dword : nat; pe_reason : string }.

(** ** Parsing *)

Definition decode_packet (at_ : nat) (opcode : Z) (count : nat) (body : list Z) :
    exec Pm4ParseError Pm4Packet :=
  if opcode =? SET_SH_REG then
    if decide (count < 2)%nat then Fail (reject at_ "SET_SH_REG needs a register and values")
    else
      word ← unwrap (body !! 0%nat);
      first ← try_ (ok_or (ShReg_try_new word) (reject (at_ + 1) "register outside gfx12 SH window"));
      if first + Z.of_nat (count - 2) >? SH_LAST then
        Fail (reject at_ "register run exceeds gfx12 SH window")
      else Done (SetShRegs first (drop 1 body))
  else if opcode =? DISPATCH_DIRECT then
    if negb (bool_decide (count = 4%nat)) then
      Fail (reject at_ "DISPATCH_DIRECT requires four body dwords")
    else
      x ← unwrap (body !! 0%nat); y ← unwrap (body !! 1%nat); z ← unwrap (body !! 2%nat);
      dimensions ← try_ (ok_or (NonZeroGrid_try_new (mk3 x y z)) (reject at_ "zero dispatch dimension"));
      word ← unwrap (body !! 3%nat);
      initiator ← try_ (ok_or (DispatchInitiator_try_new word)
        (reject (at_ + 4) "unsupported dispatch initiator"));
      Done (DispatchDirect dimensions initiator)
  else if opcode =? EVENT_WRITE then
    if negb (bool_decide (body = [0x407])) then Fail (reject at_ "not a CS_PARTIAL_FLUSH event")
    else Done EventComputeIdle
  else if opcode =? ACQUIRE_MEM then
    if negb (bool_decide (count = 7%nat)) || negb (bool_decide (take 6 body = ACQUIRE_PREFIX)) then
      Fail (reject at_ "unsupported ACQUIRE_MEM shape")
    else
      gcr ← unwrap (body !! 6%nat);
      if gcr =? SYSTEM_GCR then Done (Acquire ScopeSystem gcr)
      else if gcr =? INTER_NODE_GCR then Done (Acquire ScopeInterNode gcr)
      else Fail (reject (at_ + 7) "unsupported ACQUIRE_MEM scope")
  else Panic.

(** The compute bit each supported opcode requires. *)
Definition compute_of (at_ : nat) (opcode : Z) : exec Pm4ParseError Z :=
  if (opcode =? SET_SH_REG) || (opcode =? DISPATCH_DIRECT) then Done 2
  else if (opcode =? EVENT_WRITE) || (opcode =? ACQUIRE_MEM) then Done 0
  else Fail (reject at_ "unsupported PM4 opcode (including diagnostics)").

Fixpoint parse_loop (fuel : nat) (words : list Z) (at_ : nat) (packets : list Pm4Packet) :
    exec Pm4ParseError (list Pm4Packet) :=
  if decide (at_ < length words)%nat then
    match fuel with
    | O => Panic
    | S fuel =>
        header ← unwrap (words !! at_);
        if negb (Z.shiftr header 30 =? 3) then Fail (reject at_ "not a PACKET3 header")
        else
          let count := header_body header in
          let opcode := header_opcode header in
          compute ← compute_of at_ opcode;
          if negb (Z.land header 0xff =? compute) then
            Fail (reject at_ "reserved header bits or wrong compute bit")
          else
            let end_ := (at_ + (1 + count))%nat in
            if decide (end_ ≤ length words)%nat then
              packet ← decode_packet at_ opcode count (take count (drop (at_ + 1) words));
              parse_loop fuel words end_ (packets ++ [packet])
            else Fail (reject at_ "truncated packet")
    end
  else Done packets.

(** A packet is at least two dwords long, so the length bounds the number of
    iterations. *)
Definition parse_pm4 (family : Pm4Family) (words : list Z) (mode : ParseMode)
    (reloc : ResolvedRelocations) : exec Pm4ParseError (list Pm4Packet) :=
  if negb (bool_decide (family = Gfx12_0)) then Fail (reject 0 "unsupported PM4 family")
  else parse_loop (length words) words 0 [].

(** ** Encoding *)

Definition header (opcode : Z) (count : nat) (compute : bool) : Z :=
  Z.lor (Z.lor (Z.lor (shl32 3 30) (shl32 (Z.of_nat count - 1) 16)) (shl32 opcode 8))
    (shl32 (if compute then 1 else 0) 1).

(** One iteration of the loop of [encode_pm4]: the words after the packet. *)
Definition encode_packet (words : list Z) (packet : Pm4Packet) : result Pm4BuildError (list Z) :=
  let invalid := MalformedStream (length words) in
  match packet with
  | SetShRegs first values =>
      if is_empty values || (Z.of_nat (length values) >? SH_LAST - first + 1) then Err invalid
      else Ok (((words ++ [header SET_SH_REG (1 + length values) true]) ++ [first]) ++ values)
  | DispatchDirect dimensions initiator =>
      Ok (((words ++ [header DISPATCH_DIRECT 4 true]) ++
        [a3_x dimensions; a3_y dimensions; a3_z dimensions]) ++ [initiator])
  | EventComputeIdle => Ok (words ++ [header EVENT_WRITE 1 false; 0x407])
  | Acquire scope gcr =>
      if negb (gcr =? scope_gcr scope) then Err invalid
      else Ok (((words ++ [header ACQUIRE_MEM 7 false]) ++ ACQUIRE_PREFIX) ++ [gcr])
  end.

Fixpoint encode_loop (words : list Z) (packets : list Pm4Packet) : result Pm4BuildError (list Z) :=
  match packets with
  | [] => Ok words
  | packet :: packets => words' ← encode_packet words packet; encode_loop words' packets
  end.

Definition encode_pm4 (family : Pm4Family) (packets : list Pm4Packet)
    (reloc : ResolvedRelocations) : result Pm4BuildError (list Z) :=
  if negb (bool_decide (family = Gfx12_0)) then Err (MalformedStream 0)
  else encode_loop [] packets.

#[global] Arguments header : simpl never.
