(* ===== verification/Pm4DecodeClaims.v ===== *)
(** * The PM4 decoder and encoder are inverse

    Round trips of [Pm4Decode] in both directions, totality of the parser, and
    acceptance of what the builder emits by default, with concrete streams. *)

From stdpp Require Import gmap.
From S2P Require Import Prelude Packet Device Pm4 Pm4Exec Pm4Build Pm4Ok Pm4Claims Pm4Decode.

#[local] Open Scope Z_scope.

(** ** The encoding of one packet *)

Definition enc_opcode (p : Pm4Packet) : Z :=
  match p with
  | SetShRegs _ _ => SET_SH_REG
  | DispatchDirect _ _ => DISPATCH_DIRECT
  | EventComputeIdle => EVENT_WRITE
  | Acquire _ _ => ACQUIRE_MEM
  end.

Definition enc_compute (p : Pm4Packet) : bool :=
  match p with SetShRegs _ _ | DispatchDirect _ _ => true | _ => false end.

Definition enc_body (p : Pm4Packet) : list Z :=
  match p with
  | SetShRegs first values => first :: values
  | DispatchDirect d initiator => [a3_x d; a3_y d; a3_z d; initiator]
  | EventComputeIdle => [0x407]
  | Acquire _ gcr => ACQUIRE_PREFIX ++ [gcr]
  end.

Definition enc (p : Pm4Packet) : list Z :=
  packet3 (enc_opcode p) (Z.of_nat (length (enc_body p))) (enc_compute p) :: enc_body p.

(** What the private fields guarantee, and what the encoder checks. *)
Definition packet_typed (p : Pm4Packet) : Prop :=
  match p with
  | SetShRegs first _ => SH_FIRST ≤ first ≤ SH_LAST
  | DispatchDirect d initiator =>
      arr3_all (λ n, n ≠ 0) d ∧ (initiator = INITIATOR_BASE ∨ initiator = Z.lor INITIATOR_BASE WAVE32)
  | _ => True
  end.

Definition encodable (p : Pm4Packet) : Prop :=
  match p with
  | SetShRegs first values => values ≠ [] ∧ first + Z.of_nat (length values) ≤ SH_LAST + 1
  | Acquire scope gcr => gcr = scope_gcr scope
  | _ => True
  end.

Definition good (p : Pm4Packet) : Prop := packet_typed p ∧ encodable p.

Lemma header_packet3 opcode count compute :
  header opcode count compute = packet3 opcode (Z.of_nat count) compute.
Proof. unfold header, packet3. by destruct compute. Qed.

Lemma encode_packet_Ok words p ws :
  encode_packet words p = Ok ws ↔ encodable p ∧ ws = words ++ enc p.
Proof.
  destruct p as [first values|d initiator| |scope gcr]; cbn [encode_packet encodable];
    rewrite ?header_packet3; unfold enc; cbn [enc_opcode enc_body enc_compute length].
  - destruct (is_empty values) eqn:He; cbn [orb].
    { apply is_empty_true in He as ->. naive_solver. }
    apply is_empty_false in He. rewrite Z.gtb_ltb.
    destruct (Z.ltb_spec (SH_LAST - first + 1) (Z.of_nat (length values))).
    + split; [done|]. intros [[_ ?] _]. lia.
    + rewrite <-!app_assoc. cbn [app]. split; [intros [= <-]|by intros [_ ->]].
      split; [split; [done|lia]|done].
  - rewrite <-!app_assoc. cbn [app]. naive_solver.
  - naive_solver.
  - destruct (Z.eqb_spec gcr (scope_gcr scope)); cbn [negb]; [|naive_solver].
    rewrite <-!app_assoc. rewrite length_app. naive_solver.
Qed.

Lemma encode_loop_Ok packets : ∀ words ws,
  encode_loop words packets = Ok ws ↔ Forall encodable packets ∧ ws = words ++ (packets ≫= enc).
Proof.
  induction packets as [|p packets IH]; intros words ws; cbn [encode_loop].
  { cbn. rewrite app_nil_r. split; [intros [= ->]; by split|by intros [_ ->]]. }
  rewrite Forall_cons. cbn [mbind list_bind]. split.
  - intros H. destruct (encode_packet words p) as [w'|] eqn:Hp; cbn [result_bind] in H; [|done].
    apply encode_packet_Ok in Hp as [He ->]. apply IH in H as [Hps ->].
    by rewrite app_assoc.
  - intros [[He Hps] ->]. pose proof (proj2 (encode_packet_Ok words p _) (conj He eq_refl)) as ->.
    cbn [result_bind]. apply IH. split; [done|]. by rewrite app_assoc.
Qed.

Lemma encode_pm4_Ok packets ws :
  encode_pm4 Gfx12_0 packets NoRelocations = Ok ws ↔
  Forall encodable packets ∧ ws = packets ≫= enc.
Proof. apply (encode_loop_Ok packets [] ws). Qed.

(** ** Decoding what was encoded *)

Lemma decode_enc at_ p :
  good p → decode_packet at_ (enc_opcode p) (length (enc_body p)) (enc_body p) = Done p.
Proof.
  intros [Ht He]. destruct p as [first values|[x y z] initiator| |scope gcr];
    cbn [packet_typed encodable] in *; unfold decode_packet; cbn [enc_opcode enc_body length].
  - destruct He as [Hne Hlast]. cbn [Z.eqb SET_SH_REG Pos.eqb].
    destruct values as [|v values]; [done|]. rewrite decide_False by (cbn [length]; lia).
    cbn [unwrap mbind exec_bind lookup list_lookup ShReg_try_new]. unfold ShReg_try_new.
    rewrite (proj2 (Z.leb_le _ _) (proj1 Ht)), (proj2 (Z.leb_le _ _) (proj2 Ht)).
    cbn [andb ok_or try_ mbind exec_bind]. rewrite Z.gtb_ltb.
    rewrite (proj2 (Z.ltb_ge _ _)); [done|]. unfold SH_LAST in *. cbn [length] in *. lia.
  - destruct Ht as [(Hx & Hy & Hz) Hi]. cbn in Hx, Hy, Hz.
    cbn. unfold NonZeroGrid_try_new. cbn [a3_x a3_y a3_z].
    rewrite (proj2 (Z.eqb_neq _ _) Hx), (proj2 (Z.eqb_neq _ _) Hy), (proj2 (Z.eqb_neq _ _) Hz).
    by destruct Hi as [->| ->].
  - done.
  - subst gcr. by destruct scope.
Qed.

Lemma enc_fields p :
  good p →
  0 ≤ enc_opcode p < 256 ∧ 1 ≤ Z.of_nat (length (enc_body p)) ≤ 0x4000.
Proof.
  intros [Ht He]. destruct p; cbn [enc_opcode enc_body encodable packet_typed length] in *;
    (split; [by vm_compute|]); try by vm_compute.
  unfold SH_FIRST, SH_LAST in *. lia.
Qed.

Lemma parse_loop_enc ps : ∀ fuel pre acc,
  Forall good ps → (length ps ≤ fuel)%nat →
  parse_loop fuel (pre ++ (ps ≫= enc)) (length pre) acc = Done (acc ++ ps).
Proof.
  induction ps as [|p ps IH]; intros fuel pre acc Hg Hf.
  { cbn [mbind list_bind]. rewrite !app_nil_r.
    destruct fuel; cbn [parse_loop]; by rewrite decide_False by lia. }
  apply Forall_cons in Hg as [Hp Hg]. cbn [length] in Hf. destruct fuel as [|fuel]; [lia|].
  change ((p :: ps) ≫= enc) with (enc p ++ (ps ≫= enc)).
  destruct (enc_fields p Hp) as [Hop Hlen].
  destruct (packet3_fields (enc_opcode p) (Z.of_nat (length (enc_body p))) (enc_compute p) Hop Hlen)
    as (H3 & Hb & Ho & Hc). rewrite Nat2Z.id in Hb.
  assert (length (enc p) = 1 + length (enc_body p))%nat as Hl by done.
  cbn [parse_loop]. rewrite decide_True by (rewrite !length_app; lia).
  rewrite lookup_app_r, Nat.sub_diag by lia.
  replace ((enc p ++ (ps ≫= enc)) !! 0%nat)
    with (Some (packet3 (enc_opcode p) (Z.of_nat (length (enc_body p))) (enc_compute p))) by done.
  cbn [unwrap mbind exec_bind]. rewrite H3, Z.eqb_refl, Ho, Hb, Hc. cbn [negb].
  assert (compute_of (length pre) (enc_opcode p) = Done (compute_bit (enc_compute p))) as ->
    by (by destruct p).
  cbn [mbind exec_bind]. rewrite Z.eqb_refl. cbn [negb].
  rewrite decide_True by (rewrite !length_app; lia).
  replace (take (length (enc_body p)) (drop (length pre + 1) (pre ++ enc p ++ (ps ≫= enc))))
    with (enc_body p).
  2: { rewrite <-drop_drop, drop_app_length. change (drop 1 (enc p ++ (ps ≫= enc)))
         with (enc_body p ++ (ps ≫= enc)). by rewrite take_app_length. }
  rewrite decode_enc by done. cbn [mbind exec_bind].
  rewrite <-Hl, <-length_app, app_assoc, IH by (done || lia). by rewrite <-app_assoc.
Qed.

Lemma length_bind_enc ps : (length ps ≤ length (ps ≫= enc))%nat.
Proof.
  induction ps as [|p ps IH]; [done|].
  change ((p :: ps) ≫= enc) with (enc p ++ (ps ≫= enc)). rewrite length_app. cbn. lia.
Qed.

Lemma parse_enc mode reloc ps :
  Forall good ps → parse_pm4 Gfx12_0 (ps ≫= enc) mode reloc = Done ps.
Proof.
  intros Hg. exact (parse_loop_enc ps _ [] [] Hg (length_bind_enc ps)).
Qed.

(** ** Encoding what was decoded *)

Lemma header_rebuild h compute :
  in_u 32 h → Z.shiftr h 30 = 3 → Z.land h 0xff = compute_bit compute →
  h = packet3 (header_opcode h) (Z.of_nat (header_body h)) compute.
Proof.
  intros Hh H3 Hc. rewrite header_opcode_mod, header_body_mod. rewrite Z.shiftr_div_pow2 in H3 by lia.
  change 0xff with (Z.ones 8) in Hc. rewrite land_low in Hc by lia. unfold in_u, umax in Hh.
  pose proof (Z.mod_pos_bound (h / 2 ^ 8) (2 ^ 8)). pose proof (Z.mod_pos_bound (h / 2 ^ 16) (2 ^ 14)).
  rewrite packet3_value by lia. rewrite <-Hc.
  replace (Z.of_nat (Z.to_nat ((h / 2 ^ 16) mod 2 ^ 14) + 1) - 1) with ((h / 2 ^ 16) mod 2 ^ 14) by lia.
  change (2 ^ 30) with 1073741824 in *. change (2 ^ 16) with 65536 in *.
  change (2 ^ 14) with 16384 in *. change (2 ^ 8) with 256 in *.
  clear Hc. Z.div_mod_to_equations. lia.
Qed.

Lemma list_4 {A} (l : list A) : length l = 4%nat → ∃ a b c d, l = [a; b; c; d].
Proof. destruct l as [|? [|? [|? [|? [|]]]]]; cbn; intros; try lia. by do 4 eexists. Qed.

Lemma decode_inv at_ opcode count body p :
  length body = count → decode_packet at_ opcode count body = Done p →
  good p ∧ body = enc_body p ∧ opcode = enc_opcode p.
Proof.
  intros Hl. unfold decode_packet.
  destruct (Z.eqb_spec opcode SET_SH_REG) as [->|];
    [|destruct (Z.eqb_spec opcode DISPATCH_DIRECT) as [->|];
    [|destruct (Z.eqb_spec opcode EVENT_WRITE) as [->|];
    [|destruct (Z.eqb_spec opcode ACQUIRE_MEM) as [->|]; [|done]]]].
  - case_decide as Hc; [done|]. destruct body as [|word [|v values]]; cbn [length] in *; [lia..|].
    cbn [lookup list_lookup]. intros H. invert_ok. cbn in H0. injection H0 as <-.
    unfold ShReg_try_new in H1.
    destruct (Z.leb_spec SH_FIRST word), (Z.leb_spec word SH_LAST); cbn [andb] in H1; try discriminate.
    injection H1 as <-. rewrite Z.gtb_ltb in H.
    destruct (Z.ltb_spec SH_LAST (word + Z.of_nat (count - 2))); [done|].
    apply Done_inj in H as <-. split; [|done].
    split; cbn [packet_typed encodable]; [by split|]. split; [done|]. subst count.
    cbn [drop length]. unfold SH_LAST in *. lia.
  - case_bool_decide as Hc; cbn [negb]; [|done]. rewrite Hc in Hl.
    apply list_4 in Hl as (x & y & z & w & ->). cbn [unwrap lookup list_lookup mbind exec_bind].
    intros H. apply bind_Done_inv in H as (d & Hd & H). apply bind_Done_inv in H as (i & Hi & H).
    apply try_Done, ok_or_Ok in Hd, Hi.
    unfold NonZeroGrid_try_new in Hd. unfold DispatchInitiator_try_new in Hi.
    cbn [a3_x a3_y a3_z] in Hd.
    destruct (Z.eqb_spec x 0), (Z.eqb_spec y 0), (Z.eqb_spec z 0); cbn [negb andb] in Hd;
      try discriminate.
    injection Hd as <-.
    destruct ((w =? INITIATOR_BASE) || (w =? Z.lor INITIATOR_BASE WAVE32)) eqn:Hw; [|done].
    injection Hi as <-. apply Done_inj in H as <-. split; [|done]. split; [|done].
    split; [done|]. apply orb_true_iff in Hw as [Hw|Hw]; apply Z.eqb_eq in Hw; auto.
  - case_bool_decide as Hb; cbn [negb]; [|done]. intros [= <-]. by subst body.
  - case_bool_decide as Hc; cbn [negb orb]; [|done].
    case_bool_decide as Hp; cbn [negb]; [|done]. intros H. invert_ok.
    assert (body = ACQUIRE_PREFIX ++ [x]) as Hbody.
    { rewrite <-(take_drop 6 body), Hp. f_equal. rewrite (drop_S _ x) by done.
      rewrite drop_ge by lia. done. }
    destruct (Z.eqb_spec x SYSTEM_GCR) as [->|]; [by apply Done_inj in H as <-|].
    destruct (Z.eqb_spec x INTER_NODE_GCR) as [->|]; [by apply Done_inj in H as <-|done].
Qed.

Lemma parse_loop_sound fuel words : ∀ at_ acc out,
  Forall (in_u 32) words → (at_ ≤ length words)%nat → parse_loop fuel words at_ acc = Done out →
  ∃ ps, out = acc ++ ps ∧ Forall good ps ∧ drop at_ words = ps ≫= enc.
Proof.
  induction fuel as [|fuel IH]; intros at_ acc out Hw Hat; cbn [parse_loop]; case_decide as Hlt;
    [done| |
     |]; try (intros Hd; apply Done_inj in Hd as <-; exists []; rewrite app_nil_r, drop_ge by lia; done).
  destruct (lookup_lt_is_Some_2 _ _ Hlt) as [h Hh]. rewrite Hh. cbn [unwrap mbind exec_bind].
  assert (in_u 32 h) as Hhu by (by eapply Forall_lookup_1).
  destruct (Z.eqb_spec (Z.shiftr h 30) 3) as [H3|]; cbn [negb]; [|done].
  intros H. apply bind_Done_inv in H as (compute & Hcomp & H).
  destruct (Z.eqb_spec (Z.land h 0xff) compute) as [Hbit|]; cbn [negb] in H; [|done].
  destruct (decide (at_ + (1 + header_body h) ≤ length words)%nat) as [Hend|]; [|done].
  apply bind_Done_inv in H as (p & Hp & H). apply IH in H as (ps & -> & Hg & Hdrop); [|done|lia].
  assert (length (take (header_body h) (drop (at_ + 1) words)) = header_body h) as Hlen
    by (rewrite length_take, length_drop; lia).
  destruct (decode_inv _ _ _ _ _ Hlen Hp) as (Hgood & Hbody & Hopc).
  exists (p :: ps). split; [by rewrite <-app_assoc|]. split; [by constructor|].
  assert (compute = compute_bit (enc_compute p)) as ->.
  { rewrite Hopc in Hcomp. destruct p; cbn in Hcomp; by apply Done_inj in Hcomp as <-. }
  change ((p :: ps) ≫= enc) with (enc p ++ (ps ≫= enc)). rewrite <-Hdrop. unfold enc.
  rewrite <-Hopc, <-Hbody, Hlen, <-header_rebuild by done.
  rewrite (drop_S _ h) by done. cbn [app]. f_equal.
  replace (S at_) with (at_ + 1)%nat by lia.
  rewrite <-(take_drop (header_body h) (drop (at_ + 1) words)) at 1. f_equal.
  rewrite drop_drop. f_equal. lia.
Qed.

(** ** Totality *)

Lemma decode_total at_ opcode count body :
  length body = count → (1 ≤ count)%nat →
  opcode = SET_SH_REG ∨ opcode = DISPATCH_DIRECT ∨ opcode = EVENT_WRITE ∨ opcode = ACQUIRE_MEM →
  match decode_packet at_ opcode count body with
  | Done _ => True
  | Fail e => (at_ ≤ pe_dword e ≤ at_ + count)%nat
  | Panic => False
  end.
Proof.
  intros Hl H1 Hop. unfold decode_packet. destruct Hop as [->|[->|[->| ->]]];
    cbn [Z.eqb SET_SH_REG DISPATCH_DIRECT EVENT_WRITE ACQUIRE_MEM Pos.eqb].
  - case_decide; cbn [pe_dword]; [lia|]. destruct body as [|w body]; [cbn in Hl; lia|].
    cbn [lookup list_lookup unwrap mbind exec_bind].
    destruct (ShReg_try_new w); cbn [ok_or try_ mbind exec_bind pe_dword]; [|lia].
    destruct (_ >? _); cbn [pe_dword]; [lia|done].
  - case_bool_decide as Hc; cbn [negb pe_dword]; [|lia]. rewrite Hc in Hl.
    apply list_4 in Hl as (x & y & z & w & ->). cbn [lookup list_lookup unwrap mbind exec_bind].
    destruct (NonZeroGrid_try_new _); cbn [ok_or try_ mbind exec_bind pe_dword]; [|lia].
    destruct (DispatchInitiator_try_new w); cbn [ok_or try_ mbind exec_bind pe_dword]; [done|lia].
  - case_bool_decide; cbn [negb pe_dword]; [done|lia].
  - case_bool_decide as Hc; cbn [negb orb pe_dword]; [|lia].
    case_bool_decide; cbn [negb pe_dword]; [|lia].
    destruct (lookup_lt_is_Some_2 body 6 ltac:(lia)) as [g ->]. cbn [unwrap mbind exec_bind].
    destruct (g =? SYSTEM_GCR); [done|]. destruct (g =? INTER_NODE_GCR); [done|].
    cbn [pe_dword]. lia.
Qed.

Lemma header_body_pos h : (1 ≤ header_body h)%nat.
Proof. unfold header_body. lia. Qed.

Lemma compute_of_cases at_ opcode :
  (∃ compute, compute_of at_ opcode = Done compute ∧
    (opcode = SET_SH_REG ∨ opcode = DISPATCH_DIRECT ∨ opcode = EVENT_WRITE ∨ opcode = ACQUIRE_MEM)) ∨
  (∃ e, compute_of at_ opcode = Fail e ∧ pe_dword e = at_).
Proof.
  unfold compute_of.
  destruct (Z.eqb_spec opcode SET_SH_REG); [left; exists 2; auto|].
  destruct (Z.eqb_spec opcode DISPATCH_DIRECT); [left; exists 2; auto|].
  destruct (Z.eqb_spec opcode EVENT_WRITE); [left; exists 0; auto|].
  destruct (Z.eqb_spec opcode ACQUIRE_MEM); [left; exists 0; auto 6|].
  right. by eexists.
Qed.

Lemma parse_loop_total fuel words : ∀ at_ acc,
  (at_ ≤ length words)%nat → (length words ≤ at_ + fuel)%nat →
  match parse_loop fuel words at_ acc with
  | Done _ => True
  | Fail e => (pe_dword e < length words)%nat
  | Panic => False
  end.
Proof.
  induction fuel as [|fuel IH]; intros at_ acc Hat Hf; cbn [parse_loop]; case_decide as Hlt;
    [lia|done| |done].
  destruct (lookup_lt_is_Some_2 _ _ Hlt) as [h Hh]. rewrite Hh. cbn [unwrap mbind exec_bind].
  destruct (_ =? 3); cbn [negb pe_dword]; [|done].
  destruct (compute_of_cases at_ (header_opcode h)) as [(compute & -> & Hop)|(e & -> & He)];
    cbn [mbind exec_bind]; [|by rewrite He].
  destruct (_ =? compute); cbn [negb pe_dword]; [|done].
  destruct (decide (at_ + (1 + header_body h) ≤ length words)%nat) as [Hend|]; cbn [pe_dword]; [|done].
  assert (length (take (header_body h) (drop (at_ + 1) words)) = header_body h) as Hlen
    by (rewrite length_take, length_drop; lia).
  pose proof (decode_total at_ _ _ _ Hlen (header_body_pos h) Hop) as Ht.
  destruct (decode_packet _ _ _ _) as [p|e|]; cbn [mbind exec_bind]; [|lia|done].
  apply IH; lia.
Qed.

(** ** The builder's default tapes *)

Definition in_range (lo hi : Z) (w : Z * list Z) : Prop :=
  lo ≤ w.1 ∧ w.2 ≠ [] ∧ w.1 + Z.of_nat (length w.2) ≤ hi.

Lemma changed_runs_range lo hi values : ∀ st first offset run_first run_values runs st' runs',
  changed_runs_loop st first offset values run_first run_values runs = (st', runs') →
  let register := first + Z.of_nat offset in
  pending_ok run_first run_values register → (∀ f, run_first = Some f → lo ≤ f) →
  lo ≤ register → register + Z.of_nat (length values) ≤ hi →
  Forall (in_range lo hi) runs → Forall (in_range lo hi) runs'.
Proof.
  induction values as [|v values IH]; intros st first offset rf rv runs st' runs' Hloop register
    Hp Hf Hlo Hhi Hruns; cbn [changed_runs_loop] in Hloop; fold register in Hloop;
    cbn [length] in Hhi.
  - injection Hloop as <- <-. destruct rf as [f|]; [|done]. destruct Hp as [Hfr Hne].
    apply Forall_app. split; [done|]. repeat constructor; cbn; [by apply Hf|done|lia].
  - assert (register + 1 = first + Z.of_nat (S offset)) as Hnext by (subst register; lia).
    case_decide.
    + destruct rf as [f|].
      * destruct Hp as [Hfr Hne]. eapply IH; [exact Hloop|done|done|lia|lia|].
        apply Forall_app. split; [done|]. repeat constructor; cbn; [by apply Hf|done|lia].
      * eapply IH; [exact Hloop|done|done|lia|lia|done].
    + eapply IH; [exact Hloop| | |lia|lia|done].
      * rewrite <-Hnext. by apply (pending_push ∅).
      * intros f [= <-]. destruct rf as [f|]; cbn; [by apply Hf|lia].
Qed.

Record decodable (b : Gfx12Pm4CommandBuffer) : Prop := {
  de_pacing : cb_pacing b = PacingNone;
  de_packets : ∃ ps, Forall good ps ∧ cb_dwords b = ps ≫= enc
}.

Lemma decodable_extend b ps : decodable b → Forall good ps → decodable (extend b (ps ≫= enc)).
Proof.
  intros [Hp (qs & Hq & Hd)] Hg. split; [done|]. exists (qs ++ ps).
  split; [by apply Forall_app|]. cbn. by rewrite bind_app, Hd.
Qed.

Lemma decodable_emit b lo hi w :
  decodable b → in_range lo hi w → SH_FIRST ≤ lo → hi ≤ SH_LAST + 1 →
  decodable (emit_set_sh_regs b w.1 w.2).
Proof.
  destruct w as [first values]. cbn [fst snd]. intros Hb (Hf & Hne & Hl) Hlo Hhi. cbn [fst snd] in *.
  assert (good (SetShRegs first values)) as Hg.
  { split; [|split; [done|lia]]. cbn. destruct values; [done|]. cbn [length] in *. lia. }
  pose proof (decodable_extend b [SetShRegs first values] Hb ltac:(by constructor)) as H.
  unfold emit_set_sh_regs. rewrite !extend_extend.
  cbn [mbind list_bind] in H. rewrite app_nil_r in H. unfold enc in H.
  cbn [enc_opcode enc_body enc_compute length] in H.
  rewrite Nat2Z.inj_succ, <-Z.add_1_l in H. exact H.
Qed.

Lemma decodable_foldl runs lo hi : ∀ b,
  decodable b → Forall (in_range lo hi) runs → SH_FIRST ≤ lo → hi ≤ SH_LAST + 1 →
  decodable (foldl (λ b '(first, values), emit_set_sh_regs b first values) b runs).
Proof.
  induction runs as [|[first values] runs IH]; intros b Hb Hr Hlo Hhi; [done|].
  apply Forall_cons in Hr as [Hr0 Hr]. cbn [foldl]. apply IH; [|done..].
  by apply (decodable_emit b lo hi (first, values)).
Qed.

Lemma decodable_set_sh_regs b first values :
  decodable b → values ≠ [] → SH_FIRST ≤ first →
  first + Z.of_nat (length values) ≤ SH_LAST + 1 → decodable (set_sh_regs b first values).
Proof.
  intros Hb Hne Hlo Hhi.
  assert (decodable (emit_set_sh_regs b first values)) as Hplain.
  { apply (decodable_emit b first (first + Z.of_nat (length values)) (first, values));
      [done| |done|done]. split_and!; [done|done|cbn; lia]. }
  unfold set_sh_regs. destruct (negb _ && negb _); [done|].
  destruct (cb_register_state b) as [st|]; [|done].
  destruct (changed_runs_loop st first 0 values None [] []) as [st' runs] eqn:Hloop.
  apply (decodable_foldl runs first (first + Z.of_nat (length values))); [|  |done|done].
  - destruct Hb as [Hp Hps]. by split.
  - by eapply changed_runs_range; [exact Hloop|done|done|lia|lia|constructor].
Qed.

(** The operations of the default tape: system and inter-node acquires,
    idle waits, and dispatches whose grid has no zero dimension. *)
Definition default_op (o : op) : Prop :=
  match o with
  | OpAcquireSystemGfx12 | OpAcquireRmw CurrentSequential | OpAcquireInterNode
  | OpWaitComputeIdle => True
  | OpDispatch _ geometry _ _ => arr3_all (λ n, n ≠ 0) (geo_grid_workitems geometry)
  | _ => False
  end.

Lemma decodable_set_all writes : ∀ b,
  decodable b →
  Forall (λ w, w.2 ≠ [] ∧ SH_FIRST ≤ w.1 ∧ w.1 + Z.of_nat (length w.2) ≤ SH_LAST + 1) writes →
  decodable (set_all b writes).
Proof.
  induction writes as [|[first values] writes IH]; intros b Hb Hw; [done|].
  apply Forall_cons in Hw as [(Hne & Hlo & Hhi) Hw]. cbn [set_all foldl fst snd] in *.
  apply IH; [|done]. by apply decodable_set_sh_regs.
Qed.

Lemma dispatch_writes_window pm4 rsrc2 nk geometry kernarg :
  Forall (λ w, w.2 ≠ [] ∧ SH_FIRST ≤ w.1 ∧ w.1 + Z.of_nat (length w.2) ≤ SH_LAST + 1)
    (dispatch_writes pm4 rsrc2 nk geometry kernarg).
Proof.
  unfold dispatch_writes. destruct nk; cbn [app]; repeat apply Forall_cons_2;
    try apply Forall_nil_2; (split; [done|]); by vm_compute.
Qed.

Lemma apply_op_decodable b o b' :
  decodable b → default_op o → apply_op b o = Ok b' → decodable b'.
Proof.
  intros Hb Ho H.
  assert (∀ ps ws, Forall good ps → ws = ps ≫= enc → b' = extend b ws → decodable b') as Hext
    by (intros ps ws Hg -> ->; by apply decodable_extend).
  destruct o as [| |[]| | | | | |kernel geometry dyn kernarg]; cbn [default_op] in Ho; try done;
    cbn [apply_op] in H.
  - apply Ok_inj in H as <-. by eapply (Hext [Acquire ScopeSystem SYSTEM_GCR]); [repeat constructor|..].
  - apply Ok_inj in H as <-. by eapply (Hext [Acquire ScopeInterNode INTER_NODE_GCR]); [repeat constructor|..].
  - apply Ok_inj in H as <-. by eapply (Hext [Acquire ScopeInterNode INTER_NODE_GCR]); [repeat constructor|..].
  - apply Ok_inj in H as <-. eapply (Hext [EventComputeIdle]); [repeat constructor|done|].
    unfold wait_compute_idle. by rewrite extend_extend.
  - destruct (dispatch_checks kernel dyn kernarg) as [[[[pm4 rsrc2] wave32] nk]|] eqn:Hc;
      [|unfold dispatch in H; by rewrite Hc in H].
    rewrite (dispatch_shape b _ geometry _ _ _ _ _ _ Hc) in H. apply Ok_inj in H as <-.
    pose proof (decodable_set_all _ b Hb (dispatch_writes_window pm4 rsrc2 nk geometry kernarg)) as Hs.
    unfold pace_after_dispatch. cbn [extend cb_pacing]. rewrite (de_pacing _ Hs).
    apply (decodable_extend _ [DispatchDirect (geo_grid_workitems geometry) (dispatch_initiator wave32)]);
      [done|].
    constructor; [|constructor]. split; [|done]. split; [done|]. destruct wave32; [by right|by left].
Qed.

Lemma build_decodable os : ∀ b b',
  decodable b → Forall default_op os → build b os = Ok b' → decodable b'.
Proof.
  induction os as [|o os IH]; intros b b' Hb Ho; cbn [build]; [by intros [= <-]|].
  apply Forall_cons in Ho as [Ho Hos]. intros H. apply bind_Ok_inv in H as (b1 & H1 & H).
  eapply IH; [by eapply apply_op_decodable|done|done].
Qed.

(** ** A sample stream *)

Definition sample_packets : list Pm4Packet :=
  [Acquire ScopeSystem SYSTEM_GCR; SetShRegs 0x20c [0x1234; 0x5678];
   DispatchDirect (mk3 256 2 1) 0x8025; EventComputeIdle; Acquire ScopeInterNode INTER_NODE_GCR].

Definition sample_words : list Z := sample_packets ≫= enc.

Lemma sample_packets_typed : Forall packet_typed sample_packets.
Proof.
  repeat apply Forall_cons_2; try apply Forall_nil_2; cbn [packet_typed]; [done|by vm_compute| |done|done].
  split; [split_and!; cbn; lia|by right].
Qed.

Lemma sample_words_typed : Forall (in_u 32) sample_words.
Proof.
  unfold in_u, sample_words. repeat apply Forall_cons_2; try apply Forall_nil_2; by vm_compute.
Qed.

(** Decoding inverts encoding.  Whenever [encode_pm4] accepts a list of
    packets, [parse_pm4] reads exactly those packets back from the words. *)
Theorem decode_encode_roundtrip family packets ws mode reloc :
  Forall packet_typed packets → encode_pm4 family packets reloc = Ok ws →
  parse_pm4 family ws mode reloc = Done packets.
Proof.
  intros Ht He. unfold encode_pm4 in He. case_bool_decide as Hf; [|done]. cbn [negb] in He.
  subst family. apply (encode_loop_Ok packets [] ws) in He as [He ->].
  apply parse_enc. apply Forall_and. done.
Qed.

Lemma decode_encode_roundtrip_witness :
  encode_pm4 Gfx12_0 sample_packets NoRelocations = Ok sample_words ∧
  parse_pm4 Gfx12_0 sample_words Certified NoRelocations = Done sample_packets.
Proof.
  assert (encode_pm4 Gfx12_0 sample_packets NoRelocations = Ok sample_words) as He by (by vm_compute).
  split; [done|].
  exact (decode_encode_roundtrip Gfx12_0 sample_packets sample_words Certified NoRelocations
    sample_packets_typed He).
Defined.

(** C36: Encoding inverts decoding, byte for byte.  Whenever [parse_pm4]
    accepts a stream of 32-bit words, the packets satisfy the invariants of
    their types and [encode_pm4] reproduces the very same words: nothing in
    an accepted stream is ignored. *)
Theorem encode_decode_roundtrip family ws packets mode reloc :
  Forall (in_u 32) ws → parse_pm4 family ws mode reloc = Done packets →
  Forall packet_typed packets ∧ encode_pm4 family packets reloc = Ok ws.
Proof.
  intros Hw Hp. unfold parse_pm4 in Hp. case_bool_decide as Hf; [|done]. cbn [negb] in Hp. subst family.
  apply parse_loop_sound in Hp as (ps & -> & Hg & Hd); [|done|lia]. rewrite drop_0 in Hd. subst ws.
  apply Forall_and in Hg as [Ht He]. split; [done|]. by apply (encode_loop_Ok ps [] _).
Qed.

Lemma encode_decode_roundtrip_witness :
  parse_pm4 Gfx12_0 sample_words Diagnostic NoRelocations = Done sample_packets ∧
  Forall packet_typed sample_packets ∧ encode_pm4 Gfx12_0 sample_packets NoRelocations = Ok sample_words.
Proof.
  assert (parse_pm4 Gfx12_0 sample_words Diagnostic NoRelocations = Done sample_packets) as Hp
    by (by vm_compute).
  split; [done|].
  exact (encode_decode_roundtrip Gfx12_0 sample_words sample_packets Diagnostic NoRelocations
    sample_words_typed Hp).
Defined.

(** The parser is total.  On any words, [parse_pm4] returns packets or an
    error; it never indexes out of bounds or reaches the [unreachable!] arm,
    and the error of a supported family points at a dword of the input. *)
Theorem parse_total family ws mode reloc :
  match parse_pm4 family ws mode reloc with
  | Done _ => family = Gfx12_0
  | Fail e => family ≠ Gfx12_0 ∧ pe_dword e = 0%nat ∨ (pe_dword e < length ws)%nat
  | Panic => False
  end.
Proof.
  unfold parse_pm4. case_bool_decide as Hf; cbn [negb]; [|by left].
  pose proof (parse_loop_total (length ws) ws 0 []) as H.
  destruct (parse_loop _ _ _ _); [done|right|]; apply H; lia.
Qed.

(** The decoder accepts what the builder emits.  A tape built from the
    default operations (system and inter-node acquires, idle waits and
    dispatches with a non-zero grid), in any register mode, is decoded
    without error, every register run inside the SH window, and the decoded
    packets encode back to the same dwords. *)
Theorem builder_decodable b0 os b mode reloc :
  fresh_buffer b0 → Forall default_op os → build b0 os = Ok b →
  ∃ packets, parse_pm4 Gfx12_0 (cb_dwords b) mode reloc = Done packets ∧
    encode_pm4 Gfx12_0 packets reloc = Ok (cb_dwords b).
Proof.
  intros Hf Hos Hb.
  assert (decodable b0) as H0 by (destruct Hf as [->|[->| ->]]; split; [done|by exists []|
    done|by exists []|done|by exists []]).
  destruct (build_decodable os b0 b H0 Hos Hb) as [_ (ps & Hg & ->)].
  exists ps. split; [by apply parse_enc|]. apply Forall_and in Hg as [_ He].
  by apply (encode_loop_Ok ps [] _).
Qed.

Definition default_ops : list op :=
  [OpAcquireSystemGfx12; OpDispatch sample_kernel sample_geometry 512 0x10000;
   OpWaitComputeIdle; OpAcquireInterNode; OpDispatch sample_kernel sample_geometry 512 0x20000;
   OpWaitComputeIdle].

Definition default_tape : Gfx12Pm4CommandBuffer :=
  match build buffer_new_stateful default_ops with Ok b => b | Err _ => buffer_new end.

Lemma default_tape_built : build buffer_new_stateful default_ops = Ok default_tape.
Proof. by vm_compute. Qed.

Lemma default_ops_default : Forall default_op default_ops.
Proof.
  repeat apply Forall_cons_2; try apply Forall_nil_2; cbn [default_op]; try done;
    split_and!; cbn; lia.
Qed.

Lemma builder_decodable_witness :
  ∃ packets, parse_pm4 Gfx12_0 (cb_dwords default_tape) Certified NoRelocations = Done packets ∧
    encode_pm4 Gfx12_0 packets NoRelocations = Ok (cb_dwords default_tape).
Proof.
  exact (builder_decodable buffer_new_stateful default_ops default_tape Certified NoRelocations
    (or_intror (or_introl eq_refl)) default_ops_default default_tape_built).
Defined.
