(* ===== verification/AqlGeneric.v ===== *)
(** * Lowering a plan onto two AQL queues ([redline-dispatch/src/aql/generic.rs])

    The kernel catalog, dependency levels and phases with their recorded
    dispatches, the packet policies of first and repeated tokens, kernarg
    packing, the queue size, and the preparation and refresh of a plan. *)

From S2P Require Import Prelude BTree Packet Device AqlGraph AqlTwoQueue Ir Identity Recorder Plan Bindings Visibility.

Inductive GenericAqlError :=
| EmptyKernelKey
| KernelAlreadyRegistered (kernel : rstr)
| KernelNotRegistered (kernel : rstr)
| MissingKernargAbi (kernel : rstr)
| MissingArtifactIdentity (kernel : rstr)
| RegisteredAbiChanged (kernel : rstr)
| ArtifactIdentityChanged (kernel : rstr)
| LoaderAbiMismatch (kernel : rstr)
    (loader_size loader_alignment recorded_size recorded_alignment : Z)
| UnsupportedLaneCount (lanes : positive)
| UnsupportedReplayMode (mode : ReplayMode)
| GenericEmptyPlan
| EmptyTokenBatch
| EmptyPhaseLane (phase : nat)
| BlockDimensionTooLarge (axis : nat)
| GenericKernargAbi (e : KernargAbiError)
| KernargBufferSize (expected : Z) (actual : nat)
| ResourceArgumentOutOfBounds (resource : nat) (offset bound : Z)
| ResourcePointerOverflow (resource : nat)
| QueueSizeOverflow
| QueueCapacity (required maximum : Z)
| VisibilityNodeMissing (node : nat)
| MissingLaneConsolidation
| GenericBindings (e : ReplayBindingError)
| GenericRuntime (e : RuntimeError)
| GenericReplay (e : ReplayError)
| GenericVisibility (e : VisibilityError)
| GenericInvalidated (e : PreparedPlanInvalidation).

(** ** The kernel catalog *)

Record AqlKernelBinding := mkKernelBinding {
  kb_kernel : Kernel;
  kb_abi : KernargAbi;
  kb_identity : KernelArtifactIdentity
}.

Record AqlKernelCatalog := mkCatalog {
  kc_entries : list (rstr * AqlKernelBinding);
  kc_identities : ArtifactCatalog
}.

Definition kernel_catalog_new : AqlKernelCatalog := mkCatalog [] catalog_new.

Definition register (c : AqlKernelCatalog) (key : rstr) (kernel : Kernel)
    (abi : KernargAbi) (identity : KernelArtifactIdentity) :
    result GenericAqlError AqlKernelCatalog :=
  let metadata := k_metadata kernel in
  if is_empty (trim key) then Err EmptyKernelKey
  else if negb (md_kernarg_segment_size metadata =? abi_segment_size abi)%Z
       || negb (md_kernarg_segment_alignment metadata =? abi_segment_alignment abi)%Z then
    Err (LoaderAbiMismatch key (md_kernarg_segment_size metadata) (md_kernarg_segment_alignment metadata)
           (abi_segment_size abi) (abi_segment_alignment abi))
  else
    match bmap_get key (kc_entries c) with
    | Some _ => Err (KernelAlreadyRegistered key)
    | None =>
        identities ← map_err (λ _, EmptyKernelKey) (catalog_insert (kc_identities c) key identity);
        Ok (mkCatalog (bmap_insert key (mkKernelBinding kernel abi identity) (kc_entries c)) identities)
    end.

(** ** Guards of [prepare_internal] *)

Definition prepare_guards (plan : CompiledPlan) (token_count : nat) : result GenericAqlError unit :=
  if negb (bool_decide (plan_replay_mode plan = TokenLatency)) then
    Err (UnsupportedReplayMode (plan_replay_mode plan))
  else if negb (bool_decide (plan_lane_count plan = 2%positive)) then
    Err (UnsupportedLaneCount (plan_lane_count plan))
  else if token_count =? 0 then Err EmptyTokenBatch
  else Ok tt.

(** ** Dependency levels and phases *)

Definition nodes_of_plan (plan : CompiledPlan) : list NodeId := pd_node <$> plan_dispatches plan.

Definition level_of (levels : list nat) (d : PlannedDispatch) : option nat :=
  foldM (λ best dependency, l ← levels !! node_index dependency; Some (Nat.max best (l + 1)))
    0 (pd_dependencies d).

Definition level_step (st : list nat * nat) (d : PlannedDispatch) : option (list nat * nat) :=
  let '(levels, max_level) := st in
  level ← level_of levels d;
  levels ← vec_set levels (node_index (pd_node d)) level;
  Some (levels, Nat.max max_level level).

Definition levels_of (dispatches : list PlannedDispatch) : option (list nat * nat) :=
  foldM level_step (replicate (length dispatches) 0, 0) dispatches.

Abbreviation lane_pair := (list NodeId * list NodeId)%type.

(** [phase[lane].push(x)] on a two-element array. *)
Definition push_lane {A} (phase : list A * list A) (lane : nat) (x : A) : option (list A * list A) :=
  match lane with
  | 0 => Some (fst phase ++ [x], snd phase)
  | 1 => Some (fst phase, snd phase ++ [x])
  | _ => None
  end.

(** [phases[level][lane].push(x)]. *)
Definition phase_push {A} (phases : list (list A * list A)) (level lane : nat) (x : A) :
    option (list (list A * list A)) :=
  vec_update phases level (λ phase, push_lane phase lane x).

(** The registered kernel of a dispatch, if the recorded ABI and identity are
    still those of the catalog. *)
Definition dispatch_contract (kernels : AqlKernelCatalog) (launch : KernelLaunch) :
    result GenericAqlError (AqlKernelBinding * KernargAbi) :=
  let kernel := launch_kernel launch in
  registered ← ok_or (bmap_get kernel (kc_entries kernels)) (KernelNotRegistered kernel);
  recorded_abi ← ok_or (launch_kernarg_abi launch) (MissingKernargAbi kernel);
  if negb (bool_decide (recorded_abi = kb_abi registered)) then Err (RegisteredAbiChanged kernel)
  else
    recorded_identity ← ok_or (launch_artifact_identity launch) (MissingArtifactIdentity kernel);
    if negb (bool_decide (recorded_identity = kb_identity registered)) then
      Err (ArtifactIdentityChanged kernel)
    else Ok (registered, recorded_abi).

(** [u16::try_from] of the block, then the HIP launch geometry. *)
Definition dispatch_geometry (launch : KernelLaunch) : result GenericAqlError LaunchGeometry :=
  let grid := launch_grid launch in
  let block := launch_block launch in
  _ ← guard_ (u16_max <? dim_x block)%Z (BlockDimensionTooLarge 0);
  _ ← guard_ (u16_max <? dim_y block)%Z (BlockDimensionTooLarge 1);
  _ ← guard_ (u16_max <? dim_z block)%Z (BlockDimensionTooLarge 2);
  map_err (λ e, GenericReplay (ReplayPacket e))
    (from_hip_workgroups (mk3 (dim_x grid) (dim_y grid) (dim_z grid))
       (mk3 (dim_x block) (dim_y block) (dim_z block))).

(** ** Cross-token visibility *)

Definition writes_over (d : PlannedDispatch) (read : Access) : bool :=
  existsb (λ access, bool_decide (acc_mode access = WriteMode) &&
             region_overlaps (acc_region access) (acc_region read)) (pd_accesses d).

(** One read of the dispatch at [read_index]: [true] is the early return. *)
Definition read_crosses (dispatches : list PlannedDispatch) (read_index : nat) (read : Access) : bool :=
  if existsb (λ prior, writes_over prior read) (take read_index dispatches) then false
  else existsb (λ candidate, writes_over candidate read) dispatches.

Definition has_cross_token_raw (plan : CompiledPlan) : bool :=
  existsb (λ '(read_index, dispatch),
      existsb (read_crosses (plan_dispatches plan) read_index)
        (List.filter (λ access, bool_decide (acc_mode access = ReadMode)) (pd_accesses dispatch)))
    (enumerate (plan_dispatches plan)).

(** ** Packet policies *)

Definition is_raw_consumer (r : VisibilityReason) : bool :=
  match r with RawConsumer _ _ => true | _ => false end.

(** First and repeated header of one node. *)
Definition node_policies (by_node : list (NodeId * DerivedDispatchPolicy)) (node : NodeId) :
    result GenericAqlError (HeaderPolicy * HeaderPolicy) :=
  policy ← ok_or (bmap_get node by_node) (VisibilityNodeMissing (node_index node));
  let first := dp_header policy in
  let repeated_acquire :=
    if existsb is_raw_consumer (dp_acquire_reasons policy) then FenceAgent else FenceNone in
  Ok (first, mkHeader (hdr_barrier first) repeated_acquire (hdr_release first)).

Fixpoint lane_policies (by_node : list (NodeId * DerivedDispatchPolicy)) (nodes : list NodeId) :
    result GenericAqlError (list (HeaderPolicy * HeaderPolicy)) :=
  match nodes with
  | [] => Ok []
  | node :: nodes =>
      p ← node_policies by_node node; ps ← lane_policies by_node nodes; Ok (p :: ps)
  end.

Fixpoint phase_policies (by_node : list (NodeId * DerivedDispatchPolicy)) (phases : list lane_pair) :
    result GenericAqlError (list (policy_pair * policy_pair)) :=
  match phases with
  | [] => Ok []
  | phase :: phases =>
      l0 ← lane_policies by_node (fst phase);
      l1 ← lane_policies by_node (snd phase);
      rest ← phase_policies by_node phases;
      Ok (((l0.*1, l1.*1), (l0.*2, l1.*2)) :: rest)
  end.

Definition lower_policies (plan : CompiledPlan) (phase_nodes : list lane_pair)
    (visibility : DerivedVisibilityPlan) : result GenericAqlError TwoQueueDerivedPolicies :=
  let by_node := collect_map ((λ p, (dp_node p, p)) <$> vp_dispatches visibility) in
  policies ← phase_policies by_node phase_nodes;
  consolidation ← ok_or (head (vp_lane_consolidations visibility)) MissingLaneConsolidation;
  let consolidation := lc_header consolidation in
  let cross_token_raw := has_cross_token_raw plan in
  Ok (mkPolicies policies.*1 policies.*2
    (mkHeader (hdr_barrier consolidation) (hdr_acquire consolidation)
       (if cross_token_raw then FenceAgent else hdr_release consolidation))
    (mkHeader (hdr_barrier TWO_QUEUE_DEPENDENCY)
       (if cross_token_raw then FenceAgent else hdr_acquire TWO_QUEUE_DEPENDENCY)
       (hdr_release TWO_QUEUE_DEPENDENCY))
    (tv_header (vp_terminal visibility)) false).

(** ** Kernarg packing *)

Definition argument_value (b : ReplayBindings) (argument : KernelArg) :
    result GenericAqlError (list Z) :=
  match argument with
  | ArgScalar value => Ok value
  | ArgScalarSlot slot size =>
      value ← ok_or (bindings_scalar b slot) (GenericBindings (ScalarNotBound slot));
      if negb (Z.of_nat (length value) =? size)%Z then
        Err (GenericBindings (ScalarSize slot size (length value)))
      else Ok value
  | ArgResource resource byte_offset =>
      binding ← ok_or (bindings_resource b resource) (GenericBindings (ResourceNotBound resource));
      if (bind_size binding <=? byte_offset)%Z then
        Err (ResourceArgumentOutOfBounds (res_index resource) byte_offset (bind_size binding))
      else
        address ← ok_or (checked_add 64 (bind_base binding) byte_offset)
                    (ResourcePointerOverflow (res_index resource));
        Ok (le_bytes 8 address)
  end.

(** [bytes[start..end].copy_from_slice(&value)]: panics when the slice is out
    of range or the lengths differ. *)
Definition write_slice (bytes : list Z) (start end_ : nat) (value : list Z) : option (list Z) :=
  if decide (start ≤ end_ ∧ end_ ≤ length bytes ∧ length value = end_ - start) then
    Some (take start bytes ++ value ++ drop end_ bytes)
  else None.

(** The bytes of the buffer and the outcome. *)
Fixpoint pack_loop (b : ReplayBindings) (bytes : list Z) (l : list (KernelArg * KernargField)) :
    list Z * exec GenericAqlError unit :=
  match l with
  | [] => (bytes, Done tt)
  | (argument, field) :: l =>
      match argument_value b argument with
      | Err e => (bytes, Fail e)
      | Ok value =>
          let start := Z.to_nat (fld_offset field) in
          let end_ := start + Z.to_nat (fld_size field) in
          match write_slice bytes start end_ value with
          | None => (bytes, Panic)
          | Some bytes => pack_loop b bytes l
          end
      end
  end.

Definition pack_kernarg (arguments : list KernelArg) (abi : KernargAbi) (b : ReplayBindings)
    (output : list Z) : list Z * exec GenericAqlError unit :=
  match validate_arguments abi arguments with
  | Err e => (output, Fail (GenericKernargAbi e))
  | Ok _ =>
      if negb (Z.of_nat (length output) =? abi_segment_size abi)%Z then
        (output, Fail (KernargBufferSize (abi_segment_size abi) (length output)))
      else pack_loop b (replicate (length output) 0%Z) (zip arguments (abi_fields abi))
  end.

(** ** Queue size *)

Definition queue_size_for (minimum maximum : Z) (packets0 packets1 : nat) :
    result GenericAqlError Z :=
  required ← ok_or (try_from_len 32 (Nat.max packets0 packets1)) QueueSizeOverflow;
  let required := Z.of_nat required in
  requested ← ok_or (next_power_of_two 32 (Z.max required minimum)) QueueSizeOverflow;
  if (maximum <? requested)%Z then Err (QueueCapacity required maximum) else Ok requested.

(** ** [lower_phases] *)

Section prepare.
Context (d : GpuDevice) (pool : KernargPool) (plan : CompiledPlan) (bindings : ReplayBindings)
  (kernels : AqlKernelCatalog).

(** The recorded dispatch of one planned dispatch; [i] counts the kernarg
    allocations before it. *)
Definition lower_dispatch (i : nat) (dispatch : PlannedDispatch) :
    exec GenericAqlError RecordedDispatch :=
  let launch := pd_launch dispatch in
  '(registered, recorded_abi) ← try_ (dispatch_contract kernels launch);
  let kernel := kb_kernel registered in
  kernarg ← try_ (map_err GenericRuntime (allocate_for pool i (k_metadata kernel)));
  let '(bytes, packed) := pack_kernarg (launch_arguments launch) recorded_abi bindings (ka_bytes kernarg) in
  _ ← packed;
  geometry ← try_ (dispatch_geometry launch);
  _ ← try_ (map_err GenericRuntime (validate_geometry d geometry));
  recorded ← try_ (map_err GenericReplay
    (recorded_new (pd_lane dispatch) kernel geometry (mkKernarg (ka_address kernarg) bytes (ka_agent kernarg))));
  try_ (map_err GenericReplay (with_dynamic_group_bytes recorded (launch_dynamic_shared_bytes launch))).

Abbreviation lane_dispatches_pair := (list RecordedDispatch * list RecordedDispatch)%type.

Record lowering := mkLowering {
  lo_dispatches : list lane_dispatches_pair;
  lo_nodes : list lane_pair;
  lo_allocations : nat
}.

Definition lower_step (levels : list nat) (st : lowering) (dispatch : PlannedDispatch) :
    exec GenericAqlError lowering :=
  let lane := pd_lane dispatch in
  level ← unwrap (levels !! node_index (pd_node dispatch));
  recorded ← lower_dispatch (lo_allocations st) dispatch;
  dispatches ← unwrap (phase_push (lo_dispatches st) level lane recorded);
  nodes ← unwrap (phase_push (lo_nodes st) level lane (pd_node dispatch));
  Done (mkLowering dispatches nodes (S (lo_allocations st))).

Definition collect_phase (entry : nat * lane_dispatches_pair) : result GenericAqlError TwoQueuePhase :=
  let '(phase, lanes) := entry in
  if is_empty (fst lanes) || is_empty (snd lanes) then Err (EmptyPhaseLane phase)
  else map_err GenericReplay (phase_new (fst lanes) (snd lanes)).

Definition lower_phases : exec GenericAqlError (list TwoQueuePhase * list lane_pair) :=
  let dispatches := plan_dispatches plan in
  if is_empty dispatches then Fail GenericEmptyPlan
  else
    '(levels, max_level) ← unwrap (levels_of dispatches);
    st ← foldE (lower_step levels)
           (mkLowering (replicate (S max_level) ([], [])) (replicate (S max_level) ([], [])) 0) dispatches;
    phases ← try_ (mapM collect_phase (enumerate (lo_dispatches st)));
    Done (phases, lo_nodes st).

(** ** [PreparedAqlPlan] *)

Record PreparedAqlPlan := mkPrepared {
  ap_graph : TwoQueueSerializedBatchGraph;
  ap_stamp : PreparedPlanStamp;
  ap_phase_nodes : list lane_pair;
  ap_visibility : DerivedVisibilityPlan
}.

Context (sha256 : list Z → Sha256Digest).

Definition set_profile_all (p : TwoQueueDerivedPolicies) (all : bool) : TwoQueueDerivedPolicies :=
  mkPolicies (tp_first_dispatches p) (tp_repeated_dispatches p) (tp_consolidation p) (tp_dependency p)
    (tp_terminal p) all.

Definition prepare_internal (token_count : nat) (boundary : ApiBoundary) (profile_all_dispatches : bool) :
    exec GenericAqlError PreparedAqlPlan :=
  _ ← try_ (prepare_guards plan token_count);
  _ ← map_fail GenericBindings (bindings_validate bindings plan);
  '(phases, phase_nodes) ← lower_phases;
  visibility ← map_fail GenericVisibility (derive_aql_visibility plan boundary);
  policies ← try_ (lower_policies plan phase_nodes visibility);
  let policies := set_profile_all policies profile_all_dispatches in
  base_packet_counts ← try_ (map_err GenericReplay (required_packet_counts phases token_count));
  consolidations ← try_ (ok_or (usize_mul (length phases) token_count) QueueSizeOverflow);
  zero ← try_ (ok_or (usize_add base_packet_counts.1 consolidations) QueueSizeOverflow);
  one ← try_ (ok_or (usize_add base_packet_counts.2 consolidations) QueueSizeOverflow);
  queue_size ← try_ (queue_size_for (gpu_queue_min d) (gpu_queue_max d) zero one);
  graph ← map_fail GenericReplay (create_derived d queue_size token_count phases policies);
  stamp ← map_fail GenericBindings (stamp_capture sha256 plan bindings);
  Done (mkPrepared graph stamp phase_nodes visibility).

Definition prepare (token_count : nat) : exec GenericAqlError PreparedAqlPlan :=
  prepare_internal token_count boundary_default false.
Definition prepare_with_boundary (token_count : nat) (boundary : ApiBoundary) :
    exec GenericAqlError PreparedAqlPlan :=
  prepare_internal token_count boundary false.
Definition prepare_profiled_all (token_count : nat) (boundary : ApiBoundary) :
    exec GenericAqlError PreparedAqlPlan :=
  prepare_internal token_count boundary true.

Definition validate_current (p : PreparedAqlPlan) : exec PreparedPlanInvalidation PreparedPlanState :=
  stamp_validate sha256 (ap_stamp p) plan bindings (kc_identities kernels).

(** The closure indexes the planned dispatches by the node's index. *)
Definition refresh_patch (phase_nodes : list lane_pair) (phase_index lane dispatch_index : nat)
    (kernarg : KernargBuffer) : KernargBuffer * exec GenericAqlError unit :=
  match (phase ← phase_nodes !! phase_index;
         node ← of_lane phase lane !! dispatch_index;
         plan_dispatches plan !! node_index node) with
  | None => (kernarg, Panic)
  | Some dispatch =>
      let launch := pd_launch dispatch in
      match launch_kernarg_abi launch with
      | None => (kernarg, Fail (MissingKernargAbi (launch_kernel launch)))
      | Some abi =>
          let '(bytes, out) := pack_kernarg (launch_arguments launch) abi bindings (ka_bytes kernarg) in
          (mkKernarg (ka_address kernarg) bytes (ka_agent kernarg), out)
      end
  end.

Definition refresh_bindings (p : PreparedAqlPlan) :
    PreparedAqlPlan * exec GenericAqlError PreparedPlanState :=
  match map_fail GenericInvalidated (validate_current p) with
  | Fail e => (p, Fail e)
  | Panic => (p, Panic)
  | Done state =>
      let '(graph, patched) := patch_kernargs (refresh_patch (ap_phase_nodes p)) (ap_graph p) in
      let p' := mkPrepared graph (ap_stamp p) (ap_phase_nodes p) (ap_visibility p) in
      match patched with
      | Fail e => (p', Fail e)
      | Panic => (p', Panic)
      | Done _ =>
          match map_fail GenericBindings (stamp_capture sha256 plan bindings) with
          | Fail e => (p', Fail e)
          | Panic => (p', Panic)
          | Done stamp => (mkPrepared graph stamp (ap_phase_nodes p) (ap_visibility p), Done state)
          end
      end
  end.
End prepare.
