(* ===== verification/AqlGenericOk.v ===== *)
(** * What the AQL lowering guarantees

    Phases follow the dependencies, packed kernargs hold exactly the recorded
    arguments, the cross-token fence decision and the queue size; at the end a
    small two-lane program with its catalog, kernarg pool and compiled plan, for
    concrete instances. *)

From S2P Require Import Prelude BTree Packet Device AqlQueue AqlGraph AqlGraphOk AqlTwoQueue AqlBlocks AqlTwoQueueOk AqlDerivedOk Ir Identity Recorder Plan PlanOrder PlanCompile Bindings Visibility VisibilityOk AqlGeneric.

(** ** Dependency levels *)

Lemma level_of_spec levels d :
  (∀ p, p ∈ pd_dependencies d → is_Some (levels !! node_index p)) →
  ∃ l, level_of levels d = Some l ∧
    (∀ p lp, p ∈ pd_dependencies d → levels !! node_index p = Some lp → lp < l) ∧
    (l = 0 ∨ ∃ p lp, p ∈ pd_dependencies d ∧ levels !! node_index p = Some lp ∧ l = S lp).
Proof.
  intros Hdef. unfold level_of.
  apply (foldM_inv (λ deps l,
    (∀ p lp, p ∈ deps → levels !! node_index p = Some lp → lp < l) ∧
    (l = 0 ∨ ∃ p lp, p ∈ deps ∧ levels !! node_index p = Some lp ∧ l = S lp))).
  - split; [set_solver|by left].
  - intros l1 p l2 best Heq [Hlt Hatt].
    destruct (Hdef p) as [lp Hp]; [rewrite Heq; set_solver|]. rewrite Hp. cbn [mbind option_bind].
    eexists; split; [done|]. split.
    + intros q lq [Hq| ->%list_elem_of_singleton]%elem_of_app Hlq; [|simplify_eq; lia].
      specialize (Hlt q lq Hq Hlq). lia.
    + destruct (Nat.max_spec best (lp + 1)) as [[_ ->]|[_ ->]].
      * right. exists p, lp. split; [set_solver|]. split; [done|lia].
      * destruct Hatt as [->|(q & lq & Hq & Hlq & ->)]; [by left|right].
        exists q, lq. split; [set_solver|done].
Qed.

(** The level of a dispatch, one more than that of its deepest prerequisite. *)
Record leveled (ds : list PlannedDispatch) (level : NodeId → nat) : Prop := {
  lv_after d p : d ∈ ds → p ∈ pd_dependencies d → level p < level (pd_node d);
  lv_tight d : d ∈ ds → level (pd_node d) = 0 ∨
    ∃ p, p ∈ pd_dependencies d ∧ level (pd_node d) = S (level p)
}.

Definition level_fun (levels : list nat) (n : NodeId) : nat := default 0 (levels !! node_index n).

(** ** Placing dispatches *)

(** The items that belong on lane [lane] of phase [k]. *)
Definition items_at {A B} (level : NodeId → nat) (f : PlannedDispatch * A → B) (k lane : nat)
    (zs : list (PlannedDispatch * A)) : list B :=
  f <$> filter (λ z, level (pd_node z.1) = k ∧ pd_lane z.1 = lane) zs.

Lemma items_at_snoc {A B} level (f : PlannedDispatch * A → B) k lane zs z :
  items_at level f k lane (zs ++ [z]) = items_at level f k lane zs ++
    (if decide (level (pd_node z.1) = k ∧ pd_lane z.1 = lane) then [f z] else []).
Proof. unfold items_at. rewrite filter_app, fmap_app, filter_cons, filter_nil. by case_decide. Qed.

(** Phases [0] to [mx] hold the items of [zs]. *)
Definition placed {A B} (level : NodeId → nat) (mx : nat) (f : PlannedDispatch * A → B)
    (zs : list (PlannedDispatch * A)) (phases : list (list B * list B)) : Prop :=
  length phases = S mx ∧
  ∀ k, k ≤ mx → phases !! k = Some (items_at level f k 0 zs, items_at level f k 1 zs).

Lemma placed_nil {A B} level mx (f : PlannedDispatch * A → B) :
  placed level mx f [] (replicate (S mx) ([], [])).
Proof.
  split; [by rewrite length_replicate|]. intros k Hk. by rewrite lookup_replicate_2 by lia.
Qed.

Lemma placed_push {A B} level mx (f : PlannedDispatch * A → B) zs z phases :
  placed level mx f zs phases → level (pd_node z.1) ≤ mx → pd_lane z.1 = 0 ∨ pd_lane z.1 = 1 →
  ∃ phases', phase_push phases (level (pd_node z.1)) (pd_lane z.1) (f z) = Some phases' ∧
    placed level mx f (zs ++ [z]) phases'.
Proof.
  intros [Hlen Hph] Hle Hlane. set (l := level (pd_node z.1)) in *. unfold phase_push.
  assert (∃ ph', push_lane (items_at level f l 0 zs, items_at level f l 1 zs) (pd_lane z.1) (f z) = Some ph' ∧
    ph' = (items_at level f l 0 (zs ++ [z]), items_at level f l 1 (zs ++ [z]))) as (ph' & Hpush & Hph').
  { rewrite !items_at_snoc. fold l. destruct Hlane as [E|E]; rewrite E; cbn [push_lane];
      eexists; (split; [done|]); cbn [fst snd]; repeat case_decide; try lia; by rewrite ?app_nil_r. }
  rewrite (vec_update_lookup _ _ _ _ _ (Hph l Hle) Hpush).
  eexists; split; [done|]. split; [by rewrite length_insert|].
  intros k Hk. destruct (decide (k = l)) as [->|Hne].
  - rewrite list_lookup_insert_eq by lia. by rewrite Hph'.
  - rewrite list_lookup_insert_ne, Hph, !items_at_snoc by done. fold l.
    rewrite !decide_False by naive_solver. by rewrite !app_nil_r.
Qed.

Definition nodes_at (level : NodeId → nat) (k lane : nat) (l : list PlannedDispatch) : list NodeId :=
  pd_node <$> filter (λ d, level (pd_node d) = k ∧ pd_lane d = lane) l.

Lemma nodes_items {A} level k lane (zs : list (PlannedDispatch * A)) :
  items_at level (λ z, pd_node z.1) k lane zs = nodes_at level k lane zs.*1.
Proof.
  unfold items_at, nodes_at. induction zs as [|z zs IH]; [done|]. rewrite fmap_cons, !filter_cons.
  case_decide; [|done]. rewrite !fmap_cons. by rewrite IH.
Qed.

Section lowering.
Context (r : Recorder) (lanes : nat) (order : list NodeId) (ds : list PlannedDispatch).
Context (Hshape : recorder_shape r) (Hto : topo_order r order) (Hsched : schedule_ok r lanes order ds).

Lemma index_inj d d' : d ∈ ds → d' ∈ ds →
  node_index (pd_node d) = node_index (pd_node d') → pd_node d = pd_node d'.
Proof using Hto Hsched.
  intros [i Hi]%list_elem_of_lookup [j Hj]%list_elem_of_lookup Heq.
  eapply (valid_index_inj r); [by eapply position_valid..|done].
Qed.

Lemma dependency_before l1 d l2 p :
  ds = l1 ++ d :: l2 → p ∈ pd_dependencies d → ∃ d', d' ∈ l1 ∧ pd_node d' = p.
Proof using Hsched.
  intros Heq Hp. destruct Hsched as [_ Hall]. by apply (do_planned _ _ _ _ (Hall _ _ _ Heq)).
Qed.

Lemma not_before l1 d l2 d' :
  ds = l1 ++ d :: l2 → d' ∈ l1 → node_index (pd_node d') ≠ node_index (pd_node d).
Proof using Hto Hsched.
  intros Heq [k Hk]%list_elem_of_lookup Hix.
  assert (ds !! k = Some d') as Hk' by (rewrite Heq; by apply lookup_app_l_Some).
  assert (ds !! length l1 = Some d) as Hd by (rewrite Heq; by apply list_lookup_middle).
  assert (k = length l1) as ->; [|apply lookup_lt_Some in Hk; lia].
  eapply position_inj; [done..|]. apply index_inj; [by eapply list_elem_of_lookup_2..|done].
Qed.

Record levels_inv (done : list PlannedDispatch) (st : list nat * nat) : Prop := {
  lv_length : length st.1 = length ds;
  lv_leveled : leveled done (level_fun st.1);
  lv_max d : d ∈ done → level_fun st.1 (pd_node d) ≤ st.2;
  lv_reached : st.2 = 0 ∨ ∃ d, d ∈ done ∧ level_fun st.1 (pd_node d) = st.2
}.

Lemma level_step_ok l1 d l2 st :
  ds = l1 ++ d :: l2 → levels_inv l1 st →
  ∃ st', level_step st d = Some st' ∧ levels_inv (l1 ++ [d]) st'.
Proof using All.
  intros Heq [Hlen [Haft Htight] Hmax Hreach]. destruct st as [levels mx]. cbn [fst snd] in *.
  assert (d ∈ ds) as Hd by (rewrite Heq; set_solver).
  assert (∀ d', d' ∈ l1 → d' ∈ ds) as Hsub by (intros; rewrite Heq; set_solver).
  assert (∀ d', d' ∈ ds → node_index (pd_node d') < length levels) as Hix.
  { intros d' [i Hi]%list_elem_of_lookup. rewrite Hlen.
    by eapply (position_index r lanes order ds Hshape Hto Hsched). }
  destruct (level_of_spec levels d) as (l & Hl & Hgt & Hatt).
  { intros p Hp. destruct (dependency_before _ _ _ p Heq Hp) as (d' & Hd' & <-).
    apply lookup_lt_is_Some_2. by apply Hix, Hsub. }
  unfold level_step. rewrite Hl. cbn [mbind option_bind].
  rewrite vec_set_lt by (by apply Hix). cbn [mbind option_bind]. eexists; split; [done|].
  assert (∀ d', d' ∈ l1 → level_fun (<[node_index (pd_node d):=l]> levels) (pd_node d') =
    level_fun levels (pd_node d')) as Hold.
  { intros d' Hd'. unfold level_fun.
    rewrite list_lookup_insert_ne; [done|]. intros E. by apply (not_before _ _ _ _ Heq Hd'). }
  assert (level_fun (<[node_index (pd_node d):=l]> levels) (pd_node d) = l) as Hnew.
  { unfold level_fun. rewrite list_lookup_insert_eq by (by apply Hix). done. }
  assert (∀ d0 p, d0 ∈ l1 ++ [d] → p ∈ pd_dependencies d0 →
    level_fun (<[node_index (pd_node d):=l]> levels) p = level_fun levels p) as Hdep.
  { intros d0 p Hd0 Hp.
    assert (∃ d', d' ∈ l1 ∧ pd_node d' = p) as (d' & Hd' & <-); [|by apply Hold].
    apply elem_of_app in Hd0 as [Hd0| ->%list_elem_of_singleton]; [|by eapply dependency_before].
    apply list_elem_of_split in Hd0 as (a & b & ->).
    destruct (dependency_before a d0 (b ++ d :: l2) p) as (d' & Hd' & <-);
      [by rewrite Heq, <-app_assoc|done|]. exists d'. set_solver. }
  split; cbn [fst snd].
  - by rewrite length_insert.
  - split.
    + intros d0 p Hd0 Hp. rewrite (Hdep d0 p Hd0 Hp).
      apply elem_of_app in Hd0 as [Hd0| ->%list_elem_of_singleton].
      * rewrite Hold by done. by apply Haft.
      * rewrite Hnew. destruct (dependency_before _ _ _ p Heq Hp) as (d' & Hd' & <-).
        destruct (lookup_lt_is_Some_2 levels (node_index (pd_node d'))) as [lp Hlp];
          [by apply Hix, Hsub|]. unfold level_fun. rewrite Hlp. by eapply Hgt.
    + intros d0 Hd0. pose proof (Hdep d0) as Hdep0.
      apply elem_of_app in Hd0 as [Hd0| ->%list_elem_of_singleton].
      * rewrite Hold by done. destruct (Htight d0 Hd0) as [?|(p & Hp & ?)]; [by left|right].
        exists p. rewrite Hdep0 by set_solver. done.
      * rewrite Hnew. destruct Hatt as [?|(p & lp & Hp & Hlp & ->)]; [by left|right].
        exists p. split; [done|]. rewrite Hdep0 by set_solver. unfold level_fun. by rewrite Hlp.
  - intros d0 [Hd0| ->%list_elem_of_singleton]%elem_of_app; [|rewrite Hnew; lia].
    rewrite Hold by done. specialize (Hmax d0 Hd0). lia.
  - destruct (Nat.max_spec mx l) as [[_ ->]|[_ ->]].
    + right. exists d. split; [set_solver|done].
    + destruct Hreach as [?|(d0 & Hd0 & ?)]; [by left|right]. exists d0.
      split; [set_solver|]. by rewrite Hold.
Qed.

Lemma levels_of_ok :
  ∃ levels mx, levels_of ds = Some (levels, mx) ∧ levels_inv ds (levels, mx).
Proof using All.
  destruct (foldM_inv levels_inv level_step ds (replicate (length ds) 0, 0)) as ([levels mx] & Hf & Hinv).
  - split; cbn [fst snd]; [by rewrite length_replicate|split; set_solver|set_solver|by left].
  - intros l1 d l2 st Heq Hst. by eapply level_step_ok.
  - by exists levels, mx.
Qed.

(** ** Phases *)

Context (Htwo : lanes = 2).

(** What the fold over the dispatches needs at each of them. *)
Lemma dispatch_place levels mx l1 d l2 :
  levels_inv ds (levels, mx) → ds = l1 ++ d :: l2 →
  levels !! node_index (pd_node d) = Some (level_fun levels (pd_node d)) ∧
  level_fun levels (pd_node d) ≤ mx ∧ (pd_lane d = 0 ∨ pd_lane d = 1).
Proof using All.
  intros Hinv Heq. assert (d ∈ ds) as Hd by (rewrite Heq; set_solver).
  destruct (lookup_lt_is_Some_2 levels (node_index (pd_node d))) as [l Hl].
  { pose proof (lv_length _ _ Hinv) as Hll. cbn [fst] in Hll. rewrite Hll.
    apply list_elem_of_lookup in Hd as [i Hi].
    by eapply (position_index r lanes order ds Hshape Hto Hsched). }
  assert (level_fun levels (pd_node d) = l) as Hlf by (unfold level_fun; by rewrite Hl).
  rewrite Hlf. split; [done|]. split; [rewrite <-Hlf; by apply (lv_max _ _ Hinv)|].
  destruct Hsched as [_ Hall]. pose proof (do_lane _ _ _ _ (Hall _ _ _ Heq)). lia.
Qed.
End lowering.

(** ** Kernarg packing *)

Definition field_start (f : KernargField) : nat := Z.to_nat (fld_offset f).
Definition field_size (f : KernargField) : nat := Z.to_nat (fld_size f).

(** The bytes of a field. *)
Definition field_bytes (bytes : list Z) (f : KernargField) : list Z :=
  take (field_size f) (drop (field_start f) bytes).

Definition in_field (f : KernargField) (k : nat) : Prop :=
  field_start f ≤ k < field_start f + field_size f.

Lemma write_slice_Some bytes start end_ value :
  start ≤ end_ → end_ ≤ length bytes → length value = end_ - start →
  ∃ out, write_slice bytes start end_ value = Some out ∧ length out = length bytes ∧
    take (end_ - start) (drop start out) = value ∧
    ∀ k, ~ (start ≤ k < end_) → out !! k = bytes !! k.
Proof.
  intros Hs He Hv. unfold write_slice. rewrite decide_True by done. eexists; split; [done|].
  split; [rewrite !length_app, length_take, length_drop; lia|]. split.
  - rewrite drop_app_length' by (rewrite length_take; lia). by rewrite take_app_length'.
  - intros k Hk. destruct (decide (k < start)).
    + rewrite lookup_app_l by (rewrite length_take; lia). by apply lookup_take_lt.
    + rewrite lookup_app_r by (rewrite length_take; lia).
      rewrite lookup_app_r by (rewrite length_take; lia).
      rewrite lookup_drop, length_take. f_equal. lia.
Qed.

Lemma field_bytes_ext bytes bytes' f :
  (∀ k, in_field f k → bytes !! k = bytes' !! k) → field_bytes bytes f = field_bytes bytes' f.
Proof.
  intros Hk. apply list_eq. intros i. unfold field_bytes.
  destruct (decide (i < field_size f)).
  - rewrite !lookup_take_lt, !lookup_drop by done. apply Hk. unfold in_field. lia.
  - by rewrite !lookup_take_ge by lia.
Qed.

(** What the packing loop relies on: every field inside the buffer, fields
    pairwise disjoint, and every value as long as its field. *)
Record packable (b : ReplayBindings) (len : nat) (l : list (KernelArg * KernargField)) : Prop := {
  pk_inside a f : (a, f) ∈ l → field_start f + field_size f ≤ len;
  pk_disjoint i j p q k : i ≠ j → l !! i = Some p → l !! j = Some q →
    in_field p.2 k → ¬ in_field q.2 k;
  pk_value a f v : (a, f) ∈ l → argument_value b a = Ok v → length v = field_size f
}.

Lemma pack_loop_ok b l : ∀ bytes,
  packable b (length bytes) l →
  match pack_loop b bytes l with
  | (out, Done _) => length out = length bytes ∧
      (∀ a f, (a, f) ∈ l → argument_value b a = Ok (field_bytes out f)) ∧
      (∀ k, (∀ a f, (a, f) ∈ l → ¬ in_field f k) → out !! k = bytes !! k)
  | (out, Fail e) => length out = length bytes ∧ ∃ a f, (a, f) ∈ l ∧ argument_value b a = Err e
  | (_, Panic) => False
  end.
Proof.
  induction l as [|[a f] l IH]; intros bytes [Hin Hdis Hval]; cbn [pack_loop].
  { split; [done|]. split; [set_solver|done]. }
  destruct (argument_value b a) as [v|e] eqn:Hv; [|split; [done|]; exists a, f; set_solver].
  assert ((a, f) ∈ (a, f) :: l) as Hhd by set_solver.
  fold (field_start f) (field_size f).
  destruct (write_slice_Some bytes (field_start f) (field_start f + field_size f) v)
    as (bytes' & -> & Hlen & Hslice & Hrest); [lia|by eapply Hin|rewrite (Hval a f v Hhd Hv); lia|].
  assert (packable b (length bytes') l) as Hp.
  { split.
    - intros a' f' H. rewrite Hlen. apply (Hin a'). set_solver.
    - intros i j p q k Hij Hi Hj. by apply (Hdis (S i) (S j)); [lia|..].
    - intros a' f' v' H. apply (Hval a'). set_solver. }
  specialize (IH bytes' Hp). destruct (pack_loop b bytes' l) as [out [[]|e|]];
    [|destruct IH as (? & a' & f' & ? & ?); split; [congruence|]; exists a', f'; set_solver|done].
  destruct IH as (Hl & Hfields & Hout). split; [congruence|]. split.
  - intros a' f' [[= -> ->]|H]%elem_of_cons; [|by apply Hfields].
    rewrite Hv. f_equal. rewrite <-Hslice. replace (_ + _ - _) with (field_size f) by lia.
    apply field_bytes_ext. intros k Hk. symmetry. apply Hout.
    intros a' f' [i Hi]%list_elem_of_lookup. by apply (Hdis 0 (S i) (a, f) (a', f') k).
  - intros k Hk. rewrite Hout by (intros a' f' H; apply (Hk a'); set_solver).
    apply Hrest. apply (Hk a). set_solver.
Qed.

(** A scalar argument is at most [u32::MAX] bytes long. *)
Definition scalar_small (a : KernelArg) : Prop :=
  match a with ArgScalar bytes => (Z.of_nat (length bytes) ≤ u32_max)%Z | _ => True end.

Lemma argument_value_length b a v :
  scalar_small a → argument_value b a = Ok v → Z.of_nat (length v) = argument_size a.
Proof.
  destruct a as [bytes|slot size|resource offset]; cbn [scalar_small argument_value argument_size].
  - intros Hs [= <-]. unfold try_from_len.
    rewrite (proj2 (Z.leb_le _ _)); [done|]. unfold umax, u32_max in *. lia.
  - intros _ H. invert_ok. destruct (Z.eqb_spec (Z.of_nat (length x)) size); cbn [negb] in H; [|done].
    by apply Ok_inj in H as <-.
  - intros _ H. apply bind_Ok_inv in H as (bd & _ & H).
    destruct (bind_size bd <=? offset)%Z; [done|]. apply bind_Ok_inv in H as (address & _ & H).
    apply Ok_inj in H as <-. by rewrite length_le_bytes.
Qed.

Lemma packable_abi b abi arguments :
  abi_ok abi → Forall field_ok (abi_fields abi) → Forall scalar_small arguments →
  length arguments = length (abi_fields abi) →
  (∀ i a f, arguments !! i = Some a → abi_fields abi !! i = Some f → argument_size a = fld_size f) →
  packable b (Z.to_nat (abi_segment_size abi)) (zip arguments (abi_fields abi)).
Proof.
  intros (_ & Hbound & Hdis) Hf Hs Hlen Hsize.
  assert (∀ i a f, zip arguments (abi_fields abi) !! i = Some (a, f) →
    arguments !! i = Some a ∧ abi_fields abi !! i = Some f ∧ field_ok f) as Hget.
  { intros i a f Hi. apply lookup_zip_Some in Hi as [Ha Hfi]. split_and!; [done..|].
    by eapply Forall_lookup_1. }
  split.
  - intros a f [i Hi]%list_elem_of_lookup. destruct (Hget _ _ _ Hi) as (_ & Hfi & (H0 & H1 & _)).
    destruct (Hbound i f Hfi) as [_ He]. unfold field_end in He. unfold field_start, field_size. lia.
  - intros i j [a f] [a' f'] k Hij Hi Hj.
    destruct (Hget _ _ _ Hi) as (_ & Hfi & (H0 & H1 & _)).
    destruct (Hget _ _ _ Hj) as (_ & Hfj & (H0' & H1' & _)).
    specialize (Hdis i j f f' Hij Hfi Hfj). unfold fields_disjoint, field_end in Hdis.
    unfold in_field, field_start, field_size. cbn [snd]. lia.
  - intros a f v [i Hi]%list_elem_of_lookup Hv. destruct (Hget _ _ _ Hi) as (Ha & Hfi & (_ & H1 & _)).
    pose proof (argument_value_length b a v ltac:(by eapply Forall_lookup_1) Hv) as Hl.
    rewrite (Hsize i a f Ha Hfi) in Hl. unfold field_size. lia.
Qed.

(** ** Cross-token reads *)

Definition write_covers (d : PlannedDispatch) (read : Access) : Prop :=
  ∃ w, w ∈ pd_accesses d ∧ acc_mode w = WriteMode ∧
    region_overlaps (acc_region w) (acc_region read) = true.

Lemma existsb_elem {A} (f : A → bool) l : existsb f l = true ↔ ∃ x, x ∈ l ∧ f x = true.
Proof.
  rewrite existsb_exists. split; intros (x & Hx & Hf); exists x; (split; [|done]); by apply list_elem_of_In.
Qed.

Lemma writes_over_true d read : writes_over d read = true ↔ write_covers d read.
Proof.
  unfold writes_over, write_covers. rewrite existsb_elem.
  split; intros (w & Hw & H); exists w; (split; [done|]).
  - apply andb_true_iff in H as [H%bool_decide_eq_true ?]. done.
  - destruct H as [-> ->]. done.
Qed.

#[export] Instance write_covers_dec d read : Decision (write_covers d read).
Proof.
  destruct (writes_over d read) eqn:E; [left; by apply writes_over_true|right].
  intros H%writes_over_true. congruence.
Defined.

Lemma read_crosses_true ds i read :
  read_crosses ds i read = true ↔
  (∀ d, d ∈ take i ds → ¬ write_covers d read) ∧ ∃ d, d ∈ ds ∧ write_covers d read.
Proof.
  unfold read_crosses. destruct (existsb (λ prior, writes_over prior read) (take i ds)) eqn:He.
  - apply existsb_elem in He as (d & Hd & Hw%writes_over_true). split; [done|].
    intros [Hno _]. by destruct (Hno d Hd).
  - rewrite existsb_elem. setoid_rewrite writes_over_true. split; [|tauto]. intros H. split; [|done].
    intros d Hd Hw%writes_over_true.
    assert (existsb (λ prior, writes_over prior read) (take i ds) = true); [|congruence].
    apply existsb_elem. eauto.
Qed.

(** The cross-token fence decision.  Tokens are fenced against each other
    exactly when some dispatch has a read that no earlier dispatch of the
    token overlaps with a write while some dispatch of the plan does. *)
Lemma cross_token_raw_exact plan :
  has_cross_token_raw plan = true ↔
  ∃ i d read, plan_dispatches plan !! i = Some d ∧ read ∈ pd_accesses d ∧
    acc_mode read = ReadMode ∧
    (∀ d', d' ∈ take i (plan_dispatches plan) → ¬ write_covers d' read) ∧
    ∃ d', d' ∈ plan_dispatches plan ∧ write_covers d' read.
Proof.
  unfold has_cross_token_raw. rewrite existsb_elem. split.
  - intros ([i d] & Hin%elem_of_enumerate & He). apply existsb_elem in He as (read & Hr & Hc).
    apply list_elem_of_In, List.filter_In in Hr as [Hr%list_elem_of_In Hm%bool_decide_eq_true].
    apply read_crosses_true in Hc as [H1 H2]. by exists i, d, read.
  - intros (i & d & read & Hi & Hr & Hm & H1 & H2). exists (i, d).
    split; [by apply elem_of_enumerate|]. apply existsb_elem. exists read.
    split; [|by apply read_crosses_true].
    apply list_elem_of_In, List.filter_In. split; [by apply list_elem_of_In|by apply bool_decide_eq_true].
Qed.

(** ** Powers of two *)

Lemma next_power_of_two_Some x p :
  (0 ≤ x)%Z → next_power_of_two 32 x = Some p ↔
  (∃ k, (0 ≤ k < 32)%Z ∧ p = (2 ^ k)%Z) ∧ (x ≤ p)%Z ∧ (∀ k, (0 ≤ k)%Z → x ≤ 2 ^ k → p ≤ 2 ^ k)%Z.
Proof.
  intros Hx. unfold next_power_of_two.
  set (q := if (x <=? 1)%Z then 1%Z else (2 ^ (Z.log2 (x - 1) + 1))%Z).
  assert (∃ k, (0 ≤ k)%Z ∧ q = (2 ^ k)%Z ∧ (x ≤ q)%Z ∧ ∀ k', (0 ≤ k')%Z → (x ≤ 2 ^ k')%Z → (k ≤ k')%Z)
    as (k & Hk & Hq & Hle & Hmin).
  { subst q. destruct (Z.leb_spec x 1).
    - exists 0%Z. split_and!; [lia|done|lia|lia].
    - pose proof (Z.log2_spec (x - 1) ltac:(lia)) as [Hlo Hhi].
      pose proof (Z.log2_nonneg (x - 1)). exists (Z.log2 (x - 1) + 1)%Z.
      rewrite <-Z.add_1_r in Hhi. split_and!; [lia|done|lia|].
      intros k' Hk' Hxk. assert (Z.log2 (x - 1) < k')%Z; [|lia].
      apply Z.log2_lt_pow2; lia. }
  assert (q ≤ umax 32 ↔ k < 32)%Z as H32.
  { rewrite Hq. unfold umax. split; intros H.
    - apply (Z.pow_lt_mono_r_iff 2); lia.
    - pose proof (Z.pow_le_mono_r 2 k 31 ltac:(lia) ltac:(lia)). lia. }
  assert (∀ k', (0 ≤ k')%Z → (x ≤ 2 ^ k')%Z → (q ≤ 2 ^ k')%Z) as Hleast.
  { intros k' Hk' Hxk. rewrite Hq. apply Z.pow_le_mono_r; [lia|by apply Hmin]. }
  destruct (Z.leb_spec q (umax 32)) as [Hf|Hf].
  - split.
    + intros [= <-]. split_and!; [exists k; rewrite H32 in Hf; lia|done|done].
    + intros ((k' & Hk' & ->) & Hxp & Hp). f_equal.
      specialize (Hleast k' ltac:(lia) Hxp). rewrite Hq in Hle. specialize (Hp k Hk Hle). lia.
  - split; [done|]. intros ((k' & Hk' & ->) & Hxp & _). specialize (Hmin k' ltac:(lia) Hxp).
    assert (¬ (k < 32))%Z by (rewrite <-H32; lia). lia.
Qed.

(** ** Packed buffers *)

(** Every field holds its argument and everything else is zero. *)
Definition packed_as (arguments : list KernelArg) (abi : KernargAbi) (b : ReplayBindings)
    (bytes : list Z) : Prop :=
  Z.of_nat (length bytes) = abi_segment_size abi ∧
  (∀ i a f, arguments !! i = Some a → abi_fields abi !! i = Some f →
     argument_value b a = Ok (field_bytes bytes f)) ∧
  (∀ k, k < length bytes → (∀ f, f ∈ abi_fields abi → ¬ in_field f k) → bytes !! k = Some 0%Z).

Definition packable_launch (arguments : list KernelArg) (abi : KernargAbi) : Prop :=
  abi_ok abi ∧ Forall field_ok (abi_fields abi) ∧ (0 ≤ abi_segment_size abi)%Z ∧
  Forall scalar_small arguments.

Lemma pack_kernarg_ok arguments abi b output :
  packable_launch arguments abi →
  match pack_kernarg arguments abi b output with
  | (bytes, Done _) => length bytes = length output ∧ packed_as arguments abi b bytes
  | (bytes, Fail e) => length bytes = length output ∧
      ((∃ e', validate_arguments abi arguments = Err e' ∧ e = GenericKernargAbi e') ∨
       (Z.of_nat (length output) ≠ abi_segment_size abi ∧
          e = KernargBufferSize (abi_segment_size abi) (length output)) ∨
       (∃ a, a ∈ arguments ∧ argument_value b a = Err e))
  | (_, Panic) => False
  end.
Proof.
  intros (Habi & Hf & Hpos & Hs). unfold pack_kernarg.
  destruct (validate_arguments abi arguments) as [u|e] eqn:Hv; [|split; [done|left; by exists e]].
  apply validate_arguments_ok in Hv as [Hlen Hsize].
  destruct (Z.eqb_spec (Z.of_nat (length output)) (abi_segment_size abi)) as [Hl|Hl]; cbn [negb];
    [|split; [done|right; by left]].
  pose proof (packable_abi b abi arguments Habi Hf Hs Hlen Hsize) as Hp.
  rewrite <-Hl, Nat2Z.id in Hp.
  pose proof (pack_loop_ok b (zip arguments (abi_fields abi)) (replicate (length output) 0%Z)) as H.
  rewrite length_replicate in H. specialize (H Hp).
  destruct (pack_loop _ _ _) as [bytes [u'|e|]]; [| |done].
  - destruct H as (Hlb & Hfields & Hrest). split; [done|]. split; [by rewrite Hlb|]. split.
    + intros i a f Ha Hfi. apply Hfields. apply list_elem_of_lookup. exists i.
      by apply lookup_zip_Some.
    + intros k Hk Hno. rewrite Hrest.
      * apply lookup_replicate_2. lia.
      * intros a f [i [_ Hfi]%lookup_zip_Some]%list_elem_of_lookup. apply Hno.
        by eapply list_elem_of_lookup_2.
  - destruct H as (Hlb & a & f & Hin & He). split; [done|]. right. right. exists a. split; [|done].
    apply list_elem_of_lookup in Hin as [i [Ha _]%lookup_zip_Some].
    by eapply list_elem_of_lookup_2.
Qed.

(** ** Lowered dispatches *)

Lemma mapM_Err {E A B} (f : A → result E B) l e : mapM f l = Err e → ∃ x, x ∈ l ∧ f x = Err e.
Proof.
  induction l as [|x l IH]; simpl; [done|]. destruct (f x) as [y|e'] eqn:Hx; cbn [mbind result_bind].
  - destruct (mapM f l) as [k|e'] eqn:Hl; cbn [mbind result_bind]; [done|]. intros [= ->].
    destruct (IH eq_refl) as (x' & ? & ?). exists x'. set_solver.
  - intros [= ->]. exists x. set_solver.
Qed.

Lemma phase_new_Ok zero one :
  zero ≠ [] → one ≠ [] →
  (∀ r, r ∈ zero → rd_lane r = 0 ∧ rd_dependencies r = []) →
  (∀ r, r ∈ one → rd_lane r = 1 ∧ rd_dependencies r = []) →
  phase_new zero one = Ok (mkPhase zero one).
Proof.
  intros H0 H1 Hz Ho. unfold phase_new.
  assert (for_each check_phase_lane (enumerate [zero; one]) = Ok tt) as ->; [|done].
  apply for_each_Ok. intros [lane rs] Hin%elem_of_enumerate.
  assert ((lane = 0 ∧ rs = zero) ∨ (lane = 1 ∧ rs = one)) as Hcase.
  { destruct lane as [|[|lane]]; [injection Hin as ->; by left|injection Hin as ->; by right|done]. }
  assert (rs ≠ [] ∧ ∀ r, r ∈ rs → rd_lane r = lane ∧ rd_dependencies r = []) as [Hne Hrs].
  { destruct Hcase as [[-> ->]|[-> ->]]; done. }
  unfold check_phase_lane. rewrite (proj2 (is_empty_false _) Hne). cbn [guard_ mbind result_bind].
  apply for_each_Ok. intros rd Hr. destruct (Hrs rd Hr) as [Hl Hd]. unfold check_phase_dispatch.
  by rewrite Hl, Nat.eqb_refl, Hd.
Qed.

Section lowered.
Context (d : GpuDevice) (pool : KernargPool) (plan : CompiledPlan) (bindings : ReplayBindings)
  (kernels : AqlKernelCatalog).

(** The recorded dispatch [r] carries out the planned dispatch [p]. *)
Record lowered (p : PlannedDispatch) (r : RecordedDispatch) : Prop := {
  lw_lane : rd_lane r = pd_lane p;
  lw_dependencies : rd_dependencies r = [];
  lw_kernel : ∃ registered abi, dispatch_contract kernels (pd_launch p) = Ok (registered, abi) ∧
    rd_kernel r = kb_kernel registered ∧
    packed_as (launch_arguments (pd_launch p)) abi bindings (ka_bytes (rd_kernarg r));
  lw_geometry : dispatch_geometry (pd_launch p) = Ok (rd_geometry r) ∧
    validate_geometry d (rd_geometry r) = Ok tt;
  lw_dynamic : rd_dynamic_group_bytes r = launch_dynamic_shared_bytes (pd_launch p);
  lw_memory : ∃ i k, allocate_for pool i (k_metadata (rd_kernel r)) = Ok k ∧
    ka_address (rd_kernarg r) = ka_address k
}.

Definition dispatch_packable (p : PlannedDispatch) : Prop :=
  ∀ abi, launch_kernarg_abi (pd_launch p) = Some abi →
    packable_launch (launch_arguments (pd_launch p)) abi.

Lemma dispatch_contract_Ok launch registered abi :
  dispatch_contract kernels launch = Ok (registered, abi) →
  bmap_get (launch_kernel launch) (kc_entries kernels) = Some registered ∧
  launch_kernarg_abi launch = Some abi ∧ abi = kb_abi registered ∧
  launch_artifact_identity launch = Some (kb_identity registered).
Proof.
  unfold dispatch_contract. intros H. apply bind_Ok_inv in H as (reg & Hr%ok_or_Ok & H).
  apply bind_Ok_inv in H as (a & Ha%ok_or_Ok & H). case_bool_decide as Hb; cbn [negb] in H; [|done].
  apply bind_Ok_inv in H as (i & Hi%ok_or_Ok & H). case_bool_decide as Hc; cbn [negb] in H; [|done].
  apply Ok_inj in H as [= <- <-]. by rewrite <-Hc.
Qed.

Lemma lower_dispatch_ok i p :
  dispatch_packable p →
  match lower_dispatch d pool bindings kernels i p with
  | Done r => lowered p r
  | Fail _ => True
  | Panic => False
  end.
Proof.
  intros Hp. unfold lower_dispatch.
  destruct (dispatch_contract kernels (pd_launch p)) as [[registered abi]|e] eqn:Hc; cbn [try_ mbind exec_bind]; [|done].
  apply dispatch_contract_Ok in Hc as Hc'. destruct Hc' as (_ & Habi & _).
  destruct (allocate_for _ _ _) as [k|e] eqn:Hk; cbn [map_err try_ mbind exec_bind]; [|done].
  pose proof (pack_kernarg_ok _ abi bindings (ka_bytes k) (Hp abi Habi)) as Hpack.
  destruct (pack_kernarg _ _ _ _) as [bytes [u|e|]]; cbn [mbind exec_bind]; [|done|done].
  destruct Hpack as [Hlen Hpack].
  destruct (dispatch_geometry (pd_launch p)) as [g|e] eqn:Hg; cbn [try_ mbind exec_bind]; [|done].
  destruct (validate_geometry d g) as [[]|e] eqn:Hv; cbn [map_err try_ mbind exec_bind]; [|done].
  destruct (recorded_new _ _ _ _) as [r|e] eqn:Hr; cbn [map_err try_ mbind exec_bind]; [|done].
  unfold recorded_new in Hr. destruct (negb _) in Hr; [done|]. destruct (negb _) in Hr; [done|].
  apply Ok_inj in Hr as <-. cbn [with_dynamic_group_bytes map_err try_]. split; cbn; [done|done| |done|done|].
  - by exists registered, abi.
  - by exists i, k.
Qed.

(** ** Lowered phases *)

Context (r : Recorder) (order : list NodeId).
Context (Hshape : recorder_shape r) (Hto : topo_order r order).
Context (Hsched : schedule_ok r 2 order (plan_dispatches plan)).
Context (Hpackable : Forall dispatch_packable (plan_dispatches plan)).

Local Abbreviation ds := (plan_dispatches plan).

(** The state of the loop: the recorded dispatches of the planned ones so far,
    placed by level and lane. *)
Definition lowering_inv (level : NodeId → nat) (mx : nat) (done : list PlannedDispatch) (st : lowering) : Prop :=
  ∃ zs : list (PlannedDispatch * RecordedDispatch), zs.*1 = done ∧
    Forall (λ z, lowered z.1 z.2) zs ∧
    placed level mx snd zs (lo_dispatches st) ∧ placed level mx (λ z, pd_node z.1) zs (lo_nodes st).

Lemma lower_loop_ok levels mx :
  levels_inv ds ds (levels, mx) →
  let start := mkLowering (replicate (S mx) ([], [])) (replicate (S mx) ([], [])) 0 in
  foldE (lower_step d pool bindings kernels levels) start ds ≠ Panic ∧
  (∀ e, foldE (lower_step d pool bindings kernels levels) start ds = Fail e →
     ∃ i p, p ∈ ds ∧ lower_dispatch d pool bindings kernels i p = Fail e) ∧
  ∀ st, foldE (lower_step d pool bindings kernels levels) start ds = Done st →
    lowering_inv (level_fun levels) mx ds st.
Proof using All.
  intros Hinv start.
  assert (∀ l1 p l2 st, ds = l1 ++ p :: l2 → lowering_inv (level_fun levels) mx l1 st →
    match lower_step d pool bindings kernels levels st p with
    | Done st' => lowering_inv (level_fun levels) mx (l1 ++ [p]) st'
    | Fail e => lower_dispatch d pool bindings kernels (lo_allocations st) p = Fail e
    | Panic => False
    end) as Hstep.
  { intros l1 p l2 st Heq (zs & Hz & Hlow & Hpd & Hpn).
    destruct (dispatch_place r 2 order ds Hshape Hto Hsched eq_refl levels mx l1 p l2 Hinv Heq) as (Hl & Hle & Hlane).
    unfold lower_step. rewrite Hl. cbn [unwrap mbind exec_bind].
    assert (dispatch_packable p) as Hp.
    { eapply Forall_forall; [exact Hpackable|]. rewrite Heq. set_solver. }
    pose proof (lower_dispatch_ok (lo_allocations st) p Hp) as Hr.
    destruct (lower_dispatch _ _ _ _ _ _) as [rd|e|]; cbn [mbind exec_bind]; [|done|done].
    destruct (placed_push _ _ snd zs (p, rd) _ Hpd Hle Hlane) as (pd' & Hpush & Hpd').
    destruct (placed_push _ _ (λ z, pd_node z.1) zs (p, rd) _ Hpn Hle Hlane) as (pn' & Hpushn & Hpn').
    cbn [fst snd] in Hpush, Hpushn. rewrite Hpush. cbn [unwrap mbind exec_bind]. rewrite Hpushn.
    cbn [unwrap mbind exec_bind]. exists (zs ++ [(p, rd)]). split; [by rewrite fmap_app, Hz|].
    split; [|done]. apply Forall_app. split; [done|]. by apply Forall_singleton. }
  assert (lowering_inv (level_fun levels) mx [] start) as H0.
  { exists []. split; [done|]. split; [done|]. split; apply placed_nil. }
  split; [|split].
  - apply (foldE_no_panic (lowering_inv (level_fun levels) mx)); [done|].
    intros l1 p l2 st Heq Hst. specialize (Hstep l1 p l2 st Heq Hst).
    destruct (lower_step _ _ _ _ _ _ _) as [st'|e|]; [|done|done]. split; [done|]. by intros ? [= <-].
  - intros e He.
    cut (∀ l2 l1 st, ds = l1 ++ l2 → lowering_inv (level_fun levels) mx l1 st →
      foldE (lower_step d pool bindings kernels levels) st l2 = Fail e →
      ∃ i p, p ∈ ds ∧ lower_dispatch d pool bindings kernels i p = Fail e).
    { intros H. exact (H ds [] start eq_refl H0 He). }
    intros l2. induction l2 as [|p l2 IH]; intros l1 st Heq Hst; [done|]. cbn [foldE].
    specialize (Hstep l1 p l2 st Heq Hst).
    destruct (lower_step _ _ _ _ _ _ _) as [st'|e'|]; cbn [mbind exec_bind]; [|intros [= ->]|done].
    + apply (IH (l1 ++ [p])); [by rewrite <-app_assoc|done].
    + exists (lo_allocations st), p. split; [rewrite Heq; set_solver|done].
  - intros st. apply (foldE_Done_inv (lowering_inv (level_fun levels) mx)); [done|].
    intros l1 p l2 st1 st2 Heq Hst1 Hd. specialize (Hstep l1 p l2 st1 Heq Hst1). by rewrite Hd in Hstep.
Qed.

(** The phases that the nodes of the plan form. *)
Definition phase_of (level : NodeId → nat) (k : nat) : lane_pair :=
  (nodes_at level k 0 ds, nodes_at level k 1 ds).

(** The dispatches of a lane carry out its nodes. *)
Definition lane_lowered (nodes : list NodeId) (rs : list RecordedDispatch) : Prop :=
  Forall2 (λ node rd, ∃ p, p ∈ ds ∧ pd_node p = node ∧ lowered p rd) nodes rs.

Lemma items_lowered level k lane (zs : list (PlannedDispatch * RecordedDispatch)) :
  zs.*1 = ds → Forall (λ z, lowered z.1 z.2) zs →
  lane_lowered (items_at level (λ z, pd_node z.1) k lane zs) (items_at level snd k lane zs) ∧
  ∀ rd, rd ∈ items_at level snd k lane zs → rd_lane rd = lane ∧ rd_dependencies rd = [].
Proof using Type.
  intros Hz Hlow. unfold items_at, lane_lowered. split.
  - apply Forall2_fmap, Forall_Forall2_diag, Forall_forall. intros z [_ Hin]%list_elem_of_filter.
    exists z.1. split; [rewrite <-Hz; apply list_elem_of_fmap; by exists z|]. split; [done|].
    rewrite Forall_forall in Hlow. by apply Hlow.
  - intros rd (z & -> & [[_ Hlane] Hin]%list_elem_of_filter)%list_elem_of_fmap.
    rewrite Forall_forall in Hlow. destruct (Hlow z Hin) as [Hl Hd _ _ _ _]. split; [congruence|done].
Qed.

Lemma lower_phases_ok :
  ds ≠ [] →
  ∃ level n, leveled ds level ∧ (∀ p, p ∈ ds → level (pd_node p) < n) ∧
    (∃ p, p ∈ ds ∧ S (level (pd_node p)) = n) ∧
    match lower_phases d pool plan bindings kernels with
    | Done (phases, nodes) => nodes = phase_of level <$> seq 0 n ∧ length phases = n ∧
        ∀ k phase, phases !! k = Some phase → ∀ lane, lane < 2 →
          lane_dispatches phase lane ≠ [] ∧
          lane_lowered (of_lane (phase_of level k) lane) (lane_dispatches phase lane) ∧
          ∀ rd, rd ∈ lane_dispatches phase lane → rd_lane rd = lane ∧ rd_dependencies rd = []
    | Fail e =>
        (∃ k, k < n ∧ e = EmptyPhaseLane k ∧ ((phase_of level k).1 = [] ∨ (phase_of level k).2 = [])) ∨
        (∃ i p, p ∈ ds ∧ lower_dispatch d pool bindings kernels i p = Fail e)
    | Panic => False
    end.
Proof using All.
  intros Hne. destruct (levels_of_ok r 2 order ds Hshape Hto Hsched) as (levels & mx & Hlev & Hinv).
  pose proof (lv_max _ _ _ Hinv) as Hmax. pose proof (lv_reached _ _ _ Hinv) as Hreach. cbn [fst snd] in *.
  exists (level_fun levels), (S mx). split; [apply (lv_leveled _ _ _ Hinv)|].
  split; [intros p Hp; specialize (Hmax p Hp); lia|]. split.
  { destruct Hreach as [->|(p & Hp & <-)]; [|by exists p].
    destruct ds as [|p l] eqn:E; [done|]. exists p. split; [set_solver|].
    specialize (Hmax p ltac:(set_solver)). lia. }
  unfold lower_phases. rewrite (proj2 (is_empty_false _) Hne), Hlev. cbn [unwrap mbind exec_bind].
  destruct (lower_loop_ok levels mx Hinv) as (Hnp & Herr & Hok).
  destruct (foldE _ _ _) as [st|e|]; cbn [mbind exec_bind]; [|right; by apply Herr|done].
  destruct (Hok st eq_refl) as (zs & Hz & Hlow & [Hlen Hpd] & [Hlenn Hpn]).
  assert (∀ k rs, lo_dispatches st !! k = Some rs → k ≤ mx ∧
    rs = (items_at (level_fun levels) snd k 0 zs, items_at (level_fun levels) snd k 1 zs)) as Hget.
  { intros k rs Hk. apply lookup_lt_Some in Hk as Hlt. split; [lia|]. rewrite Hpd in Hk by lia. by injection Hk. }
  assert (∀ k lane, lane < 2 →
    lane_lowered (of_lane (phase_of (level_fun levels) k) lane) (items_at (level_fun levels) snd k lane zs) ∧
    ∀ rd, rd ∈ items_at (level_fun levels) snd k lane zs → rd_lane rd = lane ∧ rd_dependencies rd = []) as Hlane.
  { intros k lane Hl. destruct (items_lowered (level_fun levels) k lane zs Hz Hlow) as [H1 H2].
    split; [|done]. rewrite nodes_items, Hz in H1.
    assert (lane = 0 ∨ lane = 1) as [-> | ->] by lia; done. }
  assert (∀ k lane, lane < 2 → items_at (level_fun levels) snd k lane zs = [] →
    of_lane (phase_of (level_fun levels) k) lane = []) as Hempty.
  { intros k lane Hl He. destruct (Hlane k lane Hl) as [Hf _]. rewrite He in Hf. by apply Forall2_nil_inv_r in Hf. }
  destruct (mapM collect_phase (enumerate (lo_dispatches st))) as [phases|e] eqn:Hm; cbn [try_ mbind exec_bind].
  - apply mapM_Ok in Hm. pose proof (Forall2_length _ _ _ Hm) as Hpl. rewrite length_enumerate in Hpl.
    split; [|split; [lia|]].
    + apply list_eq. intros k. rewrite list_lookup_fmap. destruct (decide (k ≤ mx)) as [Hk|Hk].
      * rewrite Hpn, lookup_seq_lt by lia. unfold phase_of. by rewrite !nodes_items, Hz.
      * rewrite lookup_ge_None_2, lookup_seq_ge by lia. done.
    + intros k phase Hk lane Hl. destruct (Forall2_lookup_r _ _ _ _ _ Hm Hk) as ([k' [rs0 rs1]] & Hk' & Hc).
      apply lookup_zip_Some in Hk' as [Hs Hrs]. apply lookup_seq in Hs as [-> _]. simpl in Hrs, Hc.
      destruct (Hget _ _ Hrs) as [_ [= -> ->]].
      destruct (is_empty (items_at _ _ k 0 zs)) eqn:E0; [done|].
      destruct (is_empty (items_at _ _ k 1 zs)) eqn:E1; [done|]. apply is_empty_false in E0, E1. cbn [orb] in Hc.
      rewrite phase_new_Ok in Hc by (done || apply Hlane; lia). injection Hc as <-.
      assert (lane = 0 ∨ lane = 1) as [-> | ->] by lia; (split; [done|]; apply Hlane; lia).
  - left. apply mapM_Err in Hm as ([k [rs0 rs1]] & Hin%elem_of_enumerate & Hc).
    destruct (Hget _ _ Hin) as [Hk [= -> ->]]. exists k. split; [lia|]. unfold collect_phase in Hc. cbn [fst snd] in Hc.
    destruct (is_empty (items_at _ _ k 0 zs)) eqn:E0; cbn [orb] in Hc.
    { injection Hc as <-. split; [done|left]. apply is_empty_true in E0. by apply (Hempty k 0 ltac:(lia)). }
    destruct (is_empty (items_at _ _ k 1 zs)) eqn:E1.
    { injection Hc as <-. split; [done|right]. apply is_empty_true in E1. by apply (Hempty k 1 ltac:(lia)). }
    apply is_empty_false in E0, E1. rewrite phase_new_Ok in Hc by (done || apply Hlane; lia). done.
Qed.
End lowered.

(** A pointer and a scalar slot. *)
Definition duo_abi : KernargAbi := mkAbi 16 8 [mkField 0 8 8; mkField 8 4 4] [].
Definition duo_identity : KernelArtifactIdentity := mkIdentity [1%Z] [2%Z] 1.

Definition duo_launch (k : string) (args : list KernelArg) : KernelLaunch :=
  mkLaunch (lit k) (mkDim3 4 1 1) (mkDim3 64 1 1) 0 args (Some duo_abi) (Some duo_identity) 5.

Definition duo_args (r : ResourceId) (offset : Z) : list KernelArg :=
  [ArgResource r offset; ArgScalarSlot (mkSlotId 3) 4].

Definition duo_dispatches : result RecordError Recorder :=
  '(r, a) ← recorder_resource sample_resources (lit "a") 64;
  '(r, b) ← recorder_resource r (lit "b") 64;
  '(r, _) ← recorder_dispatch r (duo_launch "produce" (duo_args a 0)) [access_write (mkRegion a 0 64)];
  '(r, _) ← recorder_dispatch r (duo_launch "produce" (duo_args b 0)) [access_write (mkRegion b 0 64)];
  '(r, _) ← recorder_dispatch r (duo_launch "consume" (duo_args a 0))
       [access_read (mkRegion b 0 32); access_write (mkRegion a 0 32)];
  '(r, _) ← recorder_dispatch r (duo_launch "consume" (duo_args a 32))
       [access_read (mkRegion b 32 32); access_write (mkRegion a 32 32)];
  Ok r.

Definition duo_edges : list (nat * nat) := [(2, 0); (2, 1); (3, 0); (3, 1)].

(** The children depend on both roots. *)
Definition duo_linked (r : Recorder) : exec RecordError Recorder :=
  foldE (λ r '(child, root), recorder_depends_on r (mkNodeId 7 child) (mkNodeId 7 root)) r duo_edges.

Definition duo_unlinked : Recorder :=
  match duo_dispatches with Ok r => r | Err _ => sample_resources end.
Definition duo : Recorder :=
  match duo_linked duo_unlinked with Done r => r | _ => duo_unlinked end.

Lemma linked_steps edges : ∀ r r',
  foldE (λ r '(child, root), recorder_depends_on r (mkNodeId 7 child) (mkNodeId 7 root)) r edges = Done r' →
  rtc rec_step r r'.
Proof.
  induction edges as [|[child root] edges IH]; intros r r'; cbn [foldE]; [intros [= ->]; apply rtc_refl|].
  destruct (recorder_depends_on _ _ _) as [r1|e|] eqn:E; cbn [mbind exec_bind]; [|done|done].
  intros H. eapply rtc_l; [by eapply step_depends_on|by apply IH].
Qed.

Lemma duo_unlinked_reachable : rtc rec_step sample_resources duo_unlinked.
Proof.
  unfold duo_unlinked. destruct duo_dispatches as [r|e] eqn:E; [|apply rtc_refl].
  unfold duo_dispatches in E.
  do 2 (apply bind_Ok_inv in E as ([? ?] & ? & E); eapply rtc_l; [by eapply step_resource|]).
  do 4 (apply bind_Ok_inv in E as ([? ?] & ? & E); eapply rtc_l; [by eapply step_dispatch|]).
  injection E as <-. apply rtc_refl.
Qed.

Lemma duo_wf : recorder_wf duo.
Proof.
  eapply rec_steps_wf; [|exact sample_resources_wf]. etrans; [exact duo_unlinked_reachable|].
  apply (linked_steps duo_edges). by vm_compute.
Qed.

Definition duo_plan : CompiledPlan :=
  match plan_compile sample_sha256 duo sample_options with
  | Done plan => plan
  | _ => mkPlan [] [] [] 1 TokenLatency []
  end.

Lemma duo_compiles : plan_compile sample_sha256 duo sample_options = Done duo_plan.
Proof. vm_compute. reflexivity. Qed.

Definition duo_kernel (name : string) : Kernel :=
  mkKernel (lit name) (mkMetadata 0x7f0000 16 8 0 0 false) None 7.

Definition duo_catalog : AqlKernelCatalog :=
  match
    (c ← register kernel_catalog_new (lit "produce") (duo_kernel "produce.kd") duo_abi duo_identity;
     register c (lit "consume") (duo_kernel "consume.kd") duo_abi duo_identity)
  with
  | Ok c => c
  | Err _ => kernel_catalog_new
  end.

(** A pool that hands out a page per allocation. *)
Definition duo_pool : KernargPool :=
  mkPool 7 4096 4096
    (λ i _, if i <? 16 then Ok (0x10000 + 4096 * Z.of_nat i)%Z else Err (HsaFailure 1)) (λ _, Ok tt).

Definition duo_bindings : ReplayBindings :=
  bind_scalar (bind_resource (bind_resource bindings_new
    sample_a (mkBinding 4096 64 1 HipCoarse)) sample_b (mkBinding 8192 64 1 HipCoarse)) (mkSlotId 3) [1; 2; 3; 4]%Z.

Lemma duo_abi_ok : abi_ok duo_abi ∧ Forall field_ok (abi_fields duo_abi).
Proof.
  split; [|repeat apply Forall_cons_2; try apply Forall_nil_2; by vm_compute].
  split; [done|]. split.
  - intros [|[|i]] f; cbn; intros H; try discriminate; apply (inj Some) in H as <-; by vm_compute.
  - intros [|[|i]] [|[|j]] f g Hij; cbn; intros Hf Hg; try discriminate; try lia;
      apply (inj Some) in Hf as <-, Hg as <-; unfold fields_disjoint, field_end; cbn; lia.
Qed.

Lemma duo_packable : Forall dispatch_packable (plan_dispatches duo_plan).
Proof.
  assert (Forall (λ p, launch_kernarg_abi (pd_launch p) = Some duo_abi ∧
    ∃ r offset, launch_arguments (pd_launch p) = duo_args r offset) (plan_dispatches duo_plan)) as H.
  { vm_compute. repeat (apply Forall_cons_2; [split; [done|by do 2 eexists]|]). apply Forall_nil_2. }
  eapply Forall_impl; [exact H|]. intros p (Ha & r & offset & Hargs) abi Habi. rewrite Ha in Habi.
  injection Habi as <-. destruct duo_abi_ok as [Hok Hf]. split_and!; [done|done|done|].
  rewrite Hargs. unfold duo_args. repeat (apply Forall_cons_2; [done|]). apply Forall_nil_2.
Qed.

(** ** Packet policies *)

Lemma lower_policies_consolidation plan nodes v policies :
  lower_policies plan nodes v = Ok policies →
  ∃ c, c ∈ vp_lane_consolidations v ∧ hdr_barrier (tp_consolidation policies) = hdr_barrier (lc_header c).
Proof.
  unfold lower_policies. intros H. apply bind_Ok_inv in H as (ps & _ & H).
  apply bind_Ok_inv in H as (c & Hc%ok_or_Ok & H). apply Ok_inj in H as <-. exists c.
  split; [|done]. destruct (vp_lane_consolidations v); [done|]. injection Hc as ->. set_solver.
Qed.

(** A cross-token read releases every lane at the end of its phase and acquires
    at every phase boundary. *)
Lemma lower_policies_cross plan nodes v policies :
  lower_policies plan nodes v = Ok policies → has_cross_token_raw plan = true →
  hdr_release (tp_consolidation policies) = FenceAgent ∧ hdr_acquire (tp_dependency policies) = FenceAgent.
Proof.
  unfold lower_policies. intros H Hx. apply bind_Ok_inv in H as (ps & _ & H).
  apply bind_Ok_inv in H as (c & _ & H). apply Ok_inj in H as <-. cbn. by rewrite Hx.
Qed.

Lemma elem_of_collect_map_inv {K V} `{CmpOk K} (l : list (K * V)) kv : kv ∈ collect_map l → kv ∈ l.
Proof.
  unfold collect_map. cut (∀ m, kv ∈ foldl (λ m '(k, v), bmap_insert k v m) m l → kv ∈ m ∨ kv ∈ l).
  { intros Hc Hin. destruct (Hc _ Hin) as [Hn|]; [by apply elem_of_nil in Hn|done]. }
  induction l as [|[k v] l IH]; intros m Hin; [by left|]. cbn [foldl] in Hin.
  destruct (IH _ Hin) as [Hm|]; [|right; set_solver].
  apply elem_of_bmap_insert in Hm as [->|]; [right; set_solver|by left].
Qed.

Lemma lane_policies_lookup by_node nodes ps j node :
  lane_policies by_node nodes = Ok ps → nodes !! j = Some node →
  ∃ p, node_policies by_node node = Ok p ∧ ps !! j = Some p.
Proof.
  revert ps j. induction nodes as [|x nodes IH]; intros ps j H Hj; [done|]. cbn [lane_policies] in H.
  apply bind_Ok_inv in H as (p & Hp & H). apply bind_Ok_inv in H as (qs & Hqs & H). apply Ok_inj in H as <-.
  destruct j as [|j]; [injection Hj as ->; by exists p|]. destruct (IH qs j Hqs Hj) as (q & Hq & Hl). by exists q.
Qed.

Lemma phase_policies_lookup by_node phases pols k phase lane :
  phase_policies by_node phases = Ok pols → phases !! k = Some phase → lane < 2 →
  ∃ pair ps, pols !! k = Some pair ∧ lane_policies by_node (of_lane phase lane) = Ok ps ∧
    of_lane pair.1 lane = ps.*1 ∧ of_lane pair.2 lane = ps.*2.
Proof.
  revert pols k. induction phases as [|x phases IH]; intros pols k H Hk Hl; [done|]. cbn [phase_policies] in H.
  apply bind_Ok_inv in H as (l0 & H0 & H). apply bind_Ok_inv in H as (l1 & H1 & H).
  apply bind_Ok_inv in H as (rest & Hr & H). apply Ok_inj in H as <-.
  destruct k as [|k]; [injection Hk as ->|exact (IH rest k Hr Hk Hl)].
  assert (lane = 0 ∨ lane = 1) as [-> | ->] by lia; do 2 eexists; (split; [done|]); split; [exact H0|done|exact H1|done].
Qed.

(** The header of a dispatch: its derived one in the first token; later tokens
    keep the release and acquire exactly for read-after-write data. *)
Lemma lower_policies_header plan nodes v policies t k phase lane j node :
  lower_policies plan nodes v = Ok policies → nodes !! k = Some phase → lane < 2 →
  of_lane phase lane !! j = Some node →
  ∃ p header, p ∈ vp_dispatches v ∧ dp_node p = node ∧ header_of policies t k lane j = Some header ∧
    hdr_release header = hdr_release (dp_header p) ∧
    hdr_acquire header = (if t =? 0 then hdr_acquire (dp_header p)
      else if existsb is_raw_consumer (dp_acquire_reasons p) then FenceAgent else FenceNone).
Proof.
  unfold lower_policies. intros H Hk Hl Hj. apply bind_Ok_inv in H as (ps & Hps & H).
  apply bind_Ok_inv in H as (c & _ & H). apply Ok_inj in H as <-.
  destruct (phase_policies_lookup _ _ _ _ _ _ Hps Hk Hl) as (pair & l & Hpair & Hlane & H1 & H2).
  destruct (lane_policies_lookup _ _ _ _ _ Hlane Hj) as ([first repeated] & Hnode & Hlj).
  unfold node_policies in Hnode. apply bind_Ok_inv in Hnode as (p & Hp%ok_or_Ok & Hnode).
  apply Ok_inj in Hnode as [= <- <-].
  apply bmap_get_elem, elem_of_collect_map_inv, list_elem_of_fmap in Hp as (p' & [= Heq <-] & Hin).
  exists p. unfold header_of. cbn [tp_first_dispatches tp_repeated_dispatches].
  destruct (t =? 0); rewrite list_lookup_fmap, Hpair; cbn [fmap option_fmap option_map mbind option_bind];
    rewrite ?H1, ?H2, list_lookup_fmap, Hlj; eexists; split_and!; done.
Qed.
