(* ===== verification/AqlGenericClaims.v ===== *)
(** * The properties of the AQL lowering

    The statements about [aql/generic.rs], with concrete instances and the
    behaviours that differ from the comments. *)

From S2P Require Import Prelude BTree Packet Device AqlGraph AqlGraphOk AqlTwoQueue AqlBlocks AqlTwoQueueOk AqlDerivedOk Ir Identity Recorder Plan PlanOrder PlanCompile Bindings Visibility VisibilityOk AqlGeneric AqlGenericOk.

(** Lowered phases follow the dependencies.  Lowering a plan compiled for
    two lanes never panics and assigns every dispatch a level that is above the
    levels of all its prerequisites and exactly one above one of them unless it
    is zero.  On success phase [k] holds, per lane and in plan order, one
    recorded dispatch for exactly the dispatches of level [k], with the
    registered kernel, the geometry and the packed arguments of its launch, so
    no two dispatches of a phase depend on each other.  It fails with a phase
    that has an empty lane, and names it, or because one dispatch cannot be
    lowered. *)
Theorem phases_follow_dependencies sha256 r o plan d pool bindings kernels :
  recorder_wf r → plan_compile sha256 r o = Done plan →
  plan_lane_count plan = 2%positive → plan_dispatches plan ≠ [] →
  Forall dispatch_packable (plan_dispatches plan) →
  ∃ level n, leveled (plan_dispatches plan) level ∧
    (∀ p, p ∈ plan_dispatches plan → level (pd_node p) < n) ∧
    (∃ p, p ∈ plan_dispatches plan ∧ S (level (pd_node p)) = n) ∧
    match lower_phases d pool plan bindings kernels with
    | Done (phases, nodes) => nodes = phase_of plan level <$> seq 0 n ∧ length phases = n ∧
        ∀ k phase, phases !! k = Some phase → ∀ lane, lane < 2 →
          lane_dispatches phase lane ≠ [] ∧
          lane_lowered d pool plan bindings kernels (of_lane (phase_of plan level k) lane)
            (lane_dispatches phase lane)
    | Fail e =>
        (∃ k, k < n ∧ e = EmptyPhaseLane k ∧
           ((phase_of plan level k).1 = [] ∨ (phase_of plan level k).2 = [])) ∨
        (∃ i p, p ∈ plan_dispatches plan ∧ lower_dispatch d pool bindings kernels i p = Fail e)
    | Panic => False
    end.
Proof.
  intros Hwf Hc Hl Hne Hp. destruct (plan_compile_Done _ _ _ _ Hwf Hc) as (_ & _ & order & Hcp).
  pose proof (cp_order _ _ _ _ _ Hcp) as Hto. pose proof (cp_dispatches _ _ _ _ _ Hcp) as Hs.
  rewrite <-(cp_lanes _ _ _ _ _ Hcp), Hl in Hs. assert (recorder_shape r) as Hshape by apply Hwf.
  destruct (lower_phases_ok d pool plan bindings kernels r order Hshape Hto Hs Hp Hne)
    as (level & n & Hlev & Hlt & Hmax & Hres).
  exists level, n. split_and!; [done..|].
  destruct (lower_phases _ _ _ _ _) as [[phases nodes]|e|]; [|done..].
  destruct Hres as (Hn & Hlen & Hph). split_and!; [done..|]. intros k phase Hk lane Hlane.
  by destruct (Hph k phase Hk lane Hlane) as (H1 & H2 & _).
Qed.

(** C37: Packed kernargs are exactly the recorded arguments.  For a valid ABI,
    packing never panics; when it succeeds, every field of the buffer holds
    the bytes of its argument (the scalar, the bound slot value, or the bound
    address plus offset, little-endian) and every other byte is zero, whatever
    the buffer held before.  It fails only because the arguments do not match
    the ABI, the buffer has the wrong size, or an argument cannot be resolved
    against the bindings; the first two leave the buffer untouched. *)
Theorem pack_kernarg_exact arguments abi b output :
  packable_launch arguments abi →
  match pack_kernarg arguments abi b output with
  | (bytes, Done _) => length bytes = length output ∧ packed_as arguments abi b bytes
  | (bytes, Fail e) => length bytes = length output ∧
      ((∃ e', validate_arguments abi arguments = Err e' ∧ e = GenericKernargAbi e' ∧ bytes = output) ∨
       (Z.of_nat (length output) ≠ abi_segment_size abi ∧ bytes = output ∧
          e = KernargBufferSize (abi_segment_size abi) (length output)) ∨
       (∃ a, a ∈ arguments ∧ argument_value b a = Err e))
  | (_, Panic) => False
  end.
Proof.
  intros Hp. pose proof (pack_kernarg_ok arguments abi b output Hp) as H.
  destruct (pack_kernarg arguments abi b output) as [bytes [u|e|]] eqn:E; [done| |done].
  destruct H as (Hlen & [(e' & Hv & ->)|[[Hs ->]|Ha]]); (split; [done|]).
  - left. exists e'. split_and!; [done..|]. unfold pack_kernarg in E. rewrite Hv in E. by injection E as <-.
  - right; left. split_and!; [done| |done]. unfold pack_kernarg in E.
    destruct (validate_arguments abi arguments); [|done].
    rewrite (proj2 (Z.eqb_neq _ _) Hs) in E. by injection E as <-.
  - by right; right.
Qed.

(** The queue size.  On success it is the least power of two that holds
    both batches and the device minimum, it fits [u32] and does not exceed the
    device maximum; [QueueCapacity] is reported exactly when that power of two
    is above the maximum, and an overflow exactly when it needs more than 32
    bits. *)
Theorem queue_size_exact minimum maximum p0 p1 :
  in_u 32 minimum → in_u 32 maximum →
  let need := Z.max (Z.of_nat (Nat.max p0 p1)) minimum in
  match queue_size_for minimum maximum p0 p1 with
  | Ok n => (∃ k, 0 ≤ k < 32 ∧ n = 2 ^ k)%Z ∧ (need ≤ n ≤ maximum)%Z ∧
      (∀ k, 0 ≤ k → need ≤ 2 ^ k → n ≤ 2 ^ k)%Z
  | Err (QueueCapacity required m) => required = Z.of_nat (Nat.max p0 p1) ∧ m = maximum ∧
      (∀ k, 0 ≤ k → need ≤ 2 ^ k → maximum < 2 ^ k)%Z
  | Err QueueSizeOverflow => (2 ^ 31 < need)%Z
  | Err _ => False
  end.
Proof.
  intros Hmin Hmax need. unfold queue_size_for, in_u in *.
  destruct (try_from_len 32 (Nat.max p0 p1)) as [m|] eqn:Ht; cbn [ok_or mbind result_bind].
  2: { unfold try_from_len in Ht. destruct (Z.leb_spec (Z.of_nat (Nat.max p0 p1)) (umax 32)); [done|].
       subst need. unfold umax in *. lia. }
  apply try_from_len_Some in Ht as [-> Hle]. fold need.
  assert (0 ≤ need)%Z as Hpos by (subst need; lia).
  destruct (next_power_of_two 32 need) as [p|] eqn:Hp; cbn [ok_or mbind result_bind].
  - apply next_power_of_two_Some in Hp as ((k & Hk & ->) & Hnp & Hleast); [|done].
    destruct (Z.ltb_spec maximum (2 ^ k)).
    + split_and!; [done|done|]. intros k' Hk' Hn. specialize (Hleast k' Hk' Hn). lia.
    + split_and!; [by exists k|lia|lia|done].
  - destruct (Z.lt_ge_cases (2 ^ 31) need) as [|Hn]; [done|]. exfalso.
    assert (∃ p, next_power_of_two 32 need = Some p) as [p Hsome]; [|congruence].
    unfold next_power_of_two.
    destruct (Z.leb_spec need 1); [by eexists|].
    assert (Z.log2 (need - 1) < 31)%Z by (apply Z.log2_lt_pow2; lia).
    assert (2 ^ (Z.log2 (need - 1) + 1) ≤ 2 ^ 31)%Z by (apply Z.pow_le_mono_r; lia).
    rewrite (proj2 (Z.leb_le _ _)); [by eexists|]. unfold umax. lia.
Qed.

(** ** Concrete instances *)

Lemma phases_follow_dependencies_witness :
  ∃ level phases,
    lower_phases sample_gpu duo_pool duo_plan duo_bindings duo_catalog =
      Done (phases, phase_of duo_plan level <$> seq 0 2) ∧ level (mkNodeId 7 1) < level (mkNodeId 7 2).
Proof.
  destruct (phases_follow_dependencies sample_sha256 duo sample_options duo_plan sample_gpu duo_pool
    duo_bindings duo_catalog duo_wf duo_compiles eq_refl ltac:(by vm_compute) duo_packable)
    as (level & n & Hl & _ & _ & H).
  exists level. destruct (lower_phases _ _ _ _ _) as [[phases nodes]|e|] eqn:E;
    [|by vm_compute in E|by vm_compute in E].
  destruct H as (-> & Hlen & _). exists phases. split.
  - assert (length phases = 2) as H2 by (vm_compute in E; by injection E as <- _). by rewrite <-H2, Hlen.
  - destruct (plan_dispatches duo_plan !! 2) as [p|] eqn:Hp; [|by vm_compute in Hp].
    apply list_elem_of_lookup_2 in Hp as Hin. vm_compute in Hp. injection Hp as <-.
    apply (lv_after _ _ Hl _ (mkNodeId 7 1) Hin). by apply (list_elem_of_lookup_2 _ 1).
Defined.

Definition sample_abi : KernargAbi :=
  mkAbi 24 8 [mkField 0 4 4; mkField 8 8 8; mkField 16 4 4] [].
Definition sample_arguments : list KernelArg :=
  [ArgScalar [9; 8; 7; 6]%Z; ArgResource sample_b 32; ArgScalarSlot (mkSlotId 3) 4].

Lemma sample_abi_ok : abi_ok sample_abi.
Proof.
  split; [done|]. split.
  - intros [|[|[|i]]] f; cbn; intros H; try discriminate; apply (inj Some) in H as <-;
      by vm_compute.
  - intros [|[|[|i]]] [|[|[|j]]] f g Hij; cbn; intros Hf Hg; try discriminate; try lia;
      apply (inj Some) in Hf as <-, Hg as <-; unfold fields_disjoint, field_end; cbn; lia.
Qed.

Lemma sample_abi_fields : Forall field_ok (abi_fields sample_abi).
Proof. repeat apply Forall_cons_2; try apply Forall_nil_2; by vm_compute. Qed.

Lemma sample_arguments_small : Forall scalar_small sample_arguments.
Proof. repeat apply Forall_cons_2; try apply Forall_nil_2; by vm_compute. Qed.

Lemma sample_packable : packable_launch sample_arguments sample_abi.
Proof.
  split; [exact sample_abi_ok|]. split; [exact sample_abi_fields|]. split; [done|exact sample_arguments_small].
Qed.

Lemma pack_kernarg_exact_witness :
  ∃ bytes, pack_kernarg sample_arguments sample_abi sample_bindings (replicate 24 255%Z) = (bytes, Done tt) ∧
    argument_value sample_bindings (ArgResource sample_b 32) = Ok (field_bytes bytes (mkField 8 8 8)) ∧
    bytes !! 5 = Some 0%Z.
Proof.
  pose proof (pack_kernarg_exact sample_arguments sample_abi sample_bindings (replicate 24 255%Z)
    sample_packable) as H.
  destruct (pack_kernarg _ _ _ _) as [bytes [[]|e|]] eqn:E; [|by vm_compute in E|by vm_compute in E].
  exists bytes. split; [done|]. destruct H as (Hl & _ & Hf & Hz). split.
  - by apply (Hf 1).
  - apply Hz; [rewrite Hl, length_replicate; lia|]. intros f Hin. unfold in_field. unfold sample_abi in Hin. cbn [abi_fields] in Hin.
    repeat (apply elem_of_cons in Hin as [->|Hin]; [unfold field_start, field_size; cbn [fld_offset fld_size]; lia|]). by apply elem_of_nil in Hin.
Defined.

Lemma queue_size_exact_witness :
  queue_size_for 64 131072 100 90 = Ok 128%Z ∧ (∀ k, 0 ≤ k → 100 ≤ 2 ^ k → 128 ≤ 2 ^ k)%Z.
Proof.
  split; [by vm_compute|].
  destruct (queue_size_exact 64 131072 100 90 ltac:(by vm_compute) ltac:(by vm_compute)) as (_ & _ & H).
  exact H.
Defined.

(** ** A read that an earlier write covers only in part

    [first] writes bytes 0 to 3, [second] reads bytes 0 to 7, [third] writes
    bytes 4 to 7.  From the second token on, [second] reads what [third] wrote
    in the token before; the plan is still not fenced, because [first]
    overlaps the read. *)

Definition partial_recording : exec RecordError Recorder :=
  match
    ('(r, a) ← recorder_resource sample_resources (lit "a") 8;
     '(r, _) ← recorder_dispatch r (sample_launch "first" []) [access_write (mkRegion a 0 4)];
     '(r, _) ← recorder_dispatch r (sample_launch "second" []) [access_read (mkRegion a 0 8)];
     '(r, _) ← recorder_dispatch r (sample_launch "third" []) [access_write (mkRegion a 4 4)];
     Ok r)
  with
  | Ok r => r ← recorder_depends_on r (mkNodeId 7 1) (mkNodeId 7 0);
            recorder_depends_on r (mkNodeId 7 2) (mkNodeId 7 1)
  | Err e => Fail e
  end.

Definition partial_plan : CompiledPlan :=
  match partial_recording with
  | Done r => match plan_compile sample_sha256 r sample_options with Done plan => plan | _ => sample_plan end
  | _ => sample_plan
  end.

Example partial_cover_missed :
  nodes_of_plan partial_plan = [mkNodeId 7 0; mkNodeId 7 1; mkNodeId 7 2] ∧
  has_cross_token_raw partial_plan = false ∧
  (∃ d r, plan_dispatches partial_plan !! 1 = Some d ∧ r ∈ pd_accesses d ∧
     acc_mode r = ReadMode ∧ in_region (acc_region r) sample_a 5) ∧
  (∃ d w, plan_dispatches partial_plan !! 2 = Some d ∧ w ∈ pd_accesses d ∧
     acc_mode w = WriteMode ∧ in_region (acc_region w) sample_a 5) ∧
  (∃ d, plan_dispatches partial_plan !! 0 = Some d ∧
     pd_accesses d = [access_write (mkRegion sample_a 0 4)]).
Proof.
  split; [by vm_compute|]. split; [by vm_compute|]. split_and!.
  - eexists _, (access_read (mkRegion sample_a 0 8)). split; [by vm_compute|].
    split; [cbn; set_solver|]. split; [done|]. split; [done|unfold region_end; cbn; lia].
  - eexists _, (access_write (mkRegion sample_a 4 4)). split; [by vm_compute|].
    split; [cbn; set_solver|]. split; [done|]. split; [done|unfold region_end; cbn; lia].
  - eexists. split; by vm_compute.
Qed.

(** ** Refreshing a plan recorded against its dependencies

    [zero] is recorded first and depends on [one].  The plan lists [one] first,
    so indexing the planned dispatches with the node index of [zero] finds the
    dispatch of [one]. *)

Definition backward_recording : exec RecordError Recorder :=
  match
    ('(r, a) ← recorder_resource sample_resources (lit "a") 8;
     '(r, _) ← recorder_dispatch r (sample_launch "zero" [ArgResource a 0]) [access_read (mkRegion a 0 4)];
     '(r, _) ← recorder_dispatch r (sample_launch "one" [ArgResource a 0]) [access_write (mkRegion a 0 4)];
     Ok r)
  with
  | Ok r => recorder_depends_on r (mkNodeId 7 0) (mkNodeId 7 1)
  | Err e => Fail e
  end.

Definition backward_plan : CompiledPlan :=
  match backward_recording with
  | Done r => match plan_compile sample_sha256 r sample_options with Done plan => plan | _ => sample_plan end
  | _ => sample_plan
  end.

Example refresh_misindexes :
  nodes_of_plan backward_plan = [mkNodeId 7 1; mkNodeId 7 0] ∧
  (∃ d, plan_dispatches backward_plan !! node_index (mkNodeId 7 0) = Some d ∧ pd_node d = mkNodeId 7 1) ∧
  (∀ bindings kernarg, refresh_patch backward_plan bindings [([mkNodeId 7 0], [])] 0 0 0 kernarg =
     (kernarg, Fail (MissingKernargAbi (lit "one")))).
Proof. split; [by vm_compute|]. split; [eexists; split; by vm_compute|done]. Qed.
