(* ===== verification/AqlPrepareClaims.v ===== *)
(** * The guarantees of a prepared AQL plan

    From the compiled plan to the queues: the dispatches of a plan in the slots
    of the derived batch, their order in every interleaving, and the memory
    that a complete run leaves, the plan run in order, token after token. *)

From stdpp Require Import gmap.
From S2P Require Import Prelude BTree Packet Device AqlQueue AqlGraph AqlGraphOk AqlTwoQueue AqlBlocks AqlTwoQueueOk AqlDerivedOk Ir Identity Recorder Plan PlanOrder PlanCompile Determinacy AqlTrace Fingerprint Bindings Visibility VisibilityOk AqlGeneric AqlGenericOk.

(** ** Positions in a filtered list *)

Lemma filter_position {A} (P : A → Prop) `{∀ x, Decision (P x)} (l : list A) i x :
  l !! i = Some x → P x → filter P l !! length (filter P (take i l)) = Some x.
Proof.
  intros Hi Hx. replace (filter P l) with (filter P (take i l ++ x :: drop (S i) l)) by by rewrite take_drop_middle.
  rewrite filter_app, filter_cons_True by done.
  by apply list_lookup_middle.
Qed.

Lemma filter_position_inv {A} (P : A → Prop) `{∀ x, Decision (P x)} (l : list A) j x :
  filter P l !! j = Some x → ∃ i, l !! i = Some x ∧ P x ∧ j = length (filter P (take i l)).
Proof.
  revert j. induction l as [|y l IH]; intros j; [done|]. rewrite filter_cons.
  case_decide as Hy.
  - destruct j as [|j]; [intros [= ->]; by exists 0|]. intros (i & Hi & Hx & ->)%IH.
    exists (S i). split; [done|]. split; [done|]. simpl. by rewrite filter_cons_True.
  - intros (i & Hi & Hx & ->)%IH. exists (S i). split; [done|]. split; [done|].
    simpl. by rewrite filter_cons_False.
Qed.

(** ** Machine widths *)

(** The widths of the registered metadata, of the kernarg addresses and of the
    launch geometry. *)
Definition catalog_typed (c : AqlKernelCatalog) : Prop :=
  ∀ key binding, bmap_get key (kc_entries c) = Some binding → metadata_typed (k_metadata (kb_kernel binding)).
Definition pool_typed (pool : KernargPool) : Prop :=
  ∀ i size pointer, pool_allocate pool i size = Ok pointer → in_u 64 pointer.
Definition launch_widths (l : KernelLaunch) : Prop :=
  dim3_typed (launch_grid l) ∧ dim3_typed (launch_block l) ∧ in_u 32 (launch_dynamic_shared_bytes l).

Lemma dispatch_geometry_typed l g :
  launch_widths l → dispatch_geometry l = Ok g → geometry_typed g.
Proof.
  intros ((Hgx & Hgy & Hgz) & (Hbx & Hby & Hbz) & _) H. unfold dispatch_geometry in H. invert_ok.
  repeat match goal with H : guard_ _ _ = Ok _ |- _ => apply guard_Ok, Z.ltb_ge in H end.
  apply map_err_Ok in H. unfold from_hip_workgroups in H. apply bind_Ok_inv in H as (g' & Hg & H).
  apply Ok_inj in H as <-. unfold in_u, umax, u16_max in *.
  apply from_workgroups_Ok in Hg as [Hall ->]; [|unfold arr3_all, in_u, umax; simpl; lia..].
  pose proof (Hall 0 ltac:(lia)) as Hx. pose proof (Hall 1 ltac:(lia)) as Hy. pose proof (Hall 2 ltac:(lia)) as Hz.
  cbn in Hx, Hy, Hz. unfold umax in *. unfold geometry_typed, arr3_all, in_u, umax; cbn. nia.
Qed.

Lemma allocate_address pool i m k : pool_typed pool → allocate_for pool i m = Ok k → in_u 64 (ka_address k).
Proof.
  intros Hp H. unfold allocate_for, allocate_bytes in H. destruct (negb _); [done|].
  destruct (_ =? 0)%Z; [injection H as <-; unfold in_u, umax; simpl; lia|].
  apply bind_Ok_inv in H as (rounded & _ & H). apply bind_Ok_inv in H as (pointer & Ha & H).
  destruct (_ || _); [done|]. apply bind_Ok_inv in H as (u & _ & H). apply Ok_inj in H as <-.
  by eapply Hp.
Qed.

Lemma lowered_typed d pool bindings kernels p r :
  catalog_typed kernels → pool_typed pool → launch_widths (pd_launch p) →
  lowered d pool bindings kernels p r → recorded_typed r.
Proof.
  intros Hc Hp Hw [_ _ (reg & abi & Hcontract & Hk & _) [Hg _] Hdyn (i & k & Ha & Haddr)].
  apply dispatch_contract_Ok in Hcontract as (Hget & _). split_and!.
  - rewrite Hk. by eapply Hc.
  - by eapply dispatch_geometry_typed.
  - rewrite Hdyn. destruct Hw as (_ & _ & [H0 _]). lia.
  - rewrite Haddr. by eapply allocate_address.
Qed.

Lemma visibility_consolidations plan boundary v c :
  derive_aql_visibility plan boundary = Done v → c ∈ vp_lane_consolidations v →
  lc_header c = consolidation_header.
Proof.
  unfold derive_aql_visibility. destruct (is_empty _); [done|]. intros H.
  apply bind_Done_inv in H as (m & _ & H). apply bind_Done_inv in H as (u & _ & H).
  apply bind_Done_inv in H as ([acquire release] & _ & H). apply bind_Done_inv in H as (lanes & _ & H).
  apply bind_Done_inv in H as ([st derived] & _ & H). apply Done_inj in H as <-. cbn.
  by intros (lane & nodes & _ & _ & ->)%elem_of_lane_consolidations.
Qed.

(** ** Prepared plans *)

(** A compiled recording with what the loader and the allocator provide. *)
Record preparable (sha256 : list Z → Sha256Digest) (r : Recorder) (o : CompileOptions) (plan : CompiledPlan)
    (d : GpuDevice) (pool : KernargPool) (bindings : ReplayBindings) (kernels : AqlKernelCatalog) : Prop := {
  pb_wf : recorder_wf r;
  pb_compile : plan_compile sha256 r o = Done plan;
  pb_device : device_ok d;
  pb_catalog : catalog_typed kernels;
  pb_pool : pool_typed pool;
  pb_bindings : bindings_ok bindings;
  pb_widths : Forall (λ p, launch_widths (pd_launch p)) (plan_dispatches plan);
  pb_packable : Forall dispatch_packable (plan_dispatches plan)
}.

(** The graph of a prepared plan: one phase per level. *)
Record prepared_graph (plan : CompiledPlan) (d : GpuDevice) (pool : KernargPool) (bindings : ReplayBindings)
    (kernels : AqlKernelCatalog) (count : nat) (p : PreparedAqlPlan) (level : NodeId → nat)
    (prog : list (list packet_view)) : Prop := {
  pg_lanes : plan_lane_count plan = 2%positive;
  pg_leveled : leveled (plan_dispatches plan) level;
  pg_below q : q ∈ plan_dispatches plan → level (pd_node q) < length (sg_phases (ap_graph p));
  pg_nodes : ap_phase_nodes p = phase_of plan level <$> seq 0 (length (sg_phases (ap_graph p)));
  pg_phase k phase lane : sg_phases (ap_graph p) !! k = Some phase → lane < 2 →
    lane_lowered d pool plan bindings kernels (of_lane (phase_of plan level k) lane) (lane_dispatches phase lane);
  pg_batch : ∃ size policies,
    derived_batch d size count (sg_phases (ap_graph p)) policies (ap_graph p) prog
}.

(** The packet policies of a prepared plan, with the derivation they come from. *)
Definition prepared_policies (r : Recorder) (plan : CompiledPlan) (d : GpuDevice) (count : nat)
    (p : PreparedAqlPlan) (prog : list (list packet_view)) : Prop :=
  ∃ size policies boundary v profile,
    derived_batch d size count (sg_phases (ap_graph p)) (set_profile_all policies profile) (ap_graph p) prog ∧
    visibility_ok r plan boundary v ∧ lower_policies plan (ap_phase_nodes p) v = Ok policies ∧
    hdr_barrier (tp_consolidation policies) = true.

Lemma stamp_capture_no_panic sha256 plan b : bindings_ok b → stamp_capture sha256 plan b ≠ Panic.
Proof.
  intros Hb. unfold stamp_capture. destruct (layout_fingerprint_spec sha256 b plan Hb) as [Hnp Hd].
  destruct (layout_fingerprint sha256 b plan) as [h|e|]; cbn [mbind exec_bind]; [|done|done].
  destruct (proj1 (Hd h) eq_refl) as [Hv _].
  rewrite (collect_exec_Done _ (λ p, (res_index (pr_id p), revision_of b p))); [done|].
  intros p Hp. destruct (bv_bound _ _ Hv p Hp) as (bd & Hbd & _).
  unfold bound_revision, revision_of. by rewrite Hbd.
Qed.

Lemma map_fail_no_panic {E E' A} (f : E → E') (x : exec E A) : x ≠ Panic → map_fail f x ≠ Panic.
Proof. by destruct x. Qed.

Lemma lane_lowered_typed d pool plan bindings kernels nodes rs :
  catalog_typed kernels → pool_typed pool → Forall (λ p, launch_widths (pd_launch p)) (plan_dispatches plan) →
  lane_lowered d pool plan bindings kernels nodes rs → ∀ rd, rd ∈ rs → recorded_typed rd.
Proof.
  intros Hc Hp Hw Hl rd [i Hi]%list_elem_of_lookup.
  destruct (Forall2_lookup_r _ _ _ _ _ Hl Hi) as (node & _ & p & Hin & _ & Hlow).
  rewrite Forall_forall in Hw. eapply lowered_typed; [done|done|by apply Hw|done].
Qed.

Lemma prepare_internal_inv sha256 r o plan d pool bindings kernels count boundary profile :
  preparable sha256 r o plan d pool bindings kernels →
  prepare_internal d pool plan bindings kernels sha256 count boundary profile ≠ Panic ∧
  ∀ p, prepare_internal d pool plan bindings kernels sha256 count boundary profile = Done p →
    ∃ level prog, prepared_graph plan d pool bindings kernels count p level prog ∧
      prepared_policies r plan d count p prog.
Proof.
  intros [Hwf Hc Hd Hcat Hpool Hb Hw Hp]. unfold prepare_internal.
  destruct (prepare_guards plan count) as [u|e] eqn:Hg; cbn [try_ mbind exec_bind]; [|done].
  assert (plan_lane_count plan = 2%positive) as Hl.
  { unfold prepare_guards in Hg. do 2 (case_bool_decide; cbn [negb] in Hg; [|done]). done. }
  destruct (plan_compile_Done _ _ _ _ Hwf Hc) as (_ & Hf & order & Hcp).
  assert (recorder_shape r) as Hshape by apply Hwf.
  pose proof (cp_order _ _ _ _ _ Hcp) as Hto. pose proof (cp_dispatches _ _ _ _ _ Hcp) as Hs.
  rewrite <-(cp_lanes _ _ _ _ _ Hcp), Hl in Hs.
  destruct (validate_spec bindings plan Hb) as [Hnp _].
  destruct (bindings_validate bindings plan) as [u'|e|]; cbn [map_fail mbind exec_bind]; [|done|done].
  destruct (decide (plan_dispatches plan = [])) as [He|Hne].
  { unfold lower_phases. by rewrite He. }
  destruct (lower_phases_ok d pool plan bindings kernels r order Hshape Hto Hs Hp Hne)
    as (level & n & Hlev & Hlt & _ & Hres).
  destruct (lower_phases _ _ _ _ _) as [[phases nodes]|e|]; cbn [mbind exec_bind]; [|done|done].
  destruct Hres as (Hn & Hlen & Hph).
  destruct (derive_visibility_compiled sha256 r o order plan boundary Hshape Hf Hcp Hne) as (v & Hvis & Hvok).
  rewrite Hvis. cbn [map_fail mbind exec_bind].
  destruct (lower_policies plan nodes v) as [policies|e] eqn:Hpol; cbn [try_ mbind exec_bind]; [|done].
  destruct (required_packet_counts phases count) as [counts|e]; cbn [map_err try_ mbind exec_bind]; [|done].
  destruct (usize_mul _ _) as [extra|]; cbn [ok_or try_ mbind exec_bind]; [|done].
  destruct (usize_add counts.1 _) as [zero|]; cbn [ok_or try_ mbind exec_bind]; [|done].
  destruct (usize_add counts.2 _) as [one|]; cbn [ok_or try_ mbind exec_bind]; [|done].
  destruct (queue_size_for _ _ _ _) as [size|e]; cbn [try_ mbind exec_bind]; [|done].
  assert (Forall phase_ok phases) as Hphases.
  { apply Forall_forall. intros phase [k Hk]%list_elem_of_lookup. split.
    - intros lane Hlane. by destruct (Hph k phase Hk lane Hlane) as (H & _).
    - intros lane rd Hlane Hrd. destruct (Hph k phase Hk lane Hlane) as (_ & Hlow & Hrds).
      destruct (Hrds rd Hrd). split_and!; [done..|]. by eapply lane_lowered_typed. }
  assert (hdr_barrier (tp_consolidation (set_profile_all policies profile)) = true) as Hbit.
  { destruct (lower_policies_consolidation _ _ _ _ Hpol) as (c & Hin & Hbar). cbn.
    by rewrite Hbar, (visibility_consolidations _ _ _ c Hvis Hin). }
  destruct (derived_batch_ok d size count phases _ Hd Hphases Hbit) as [Hnpd Hok].
  destruct (create_derived _ _ _ _ _) as [g|e|]; cbn [map_fail mbind exec_bind]; [|done|done].
  destruct (Hok g eq_refl) as [prog Hbatch]. pose proof (db_phases _ _ _ _ _ _ _ Hbatch) as Hgp.
  pose proof (stamp_capture_no_panic sha256 plan bindings Hb) as Hst.
  destruct (stamp_capture sha256 plan bindings) as [stamp|e|]; cbn [map_fail mbind exec_bind]; [|done|done].
  split; [done|]. intros p [= <-]. exists level, prog.
  split; [|do 5 eexists; split_and!; [cbn [ap_graph]; rewrite Hgp; exact Hbatch|exact Hvok|exact Hpol|exact Hbit]].
  split; cbn [ap_graph ap_phase_nodes]; rewrite ?Hgp.
  - done.
  - done.
  - rewrite Hlen. exact Hlt.
  - by rewrite Hlen.
  - intros k phase lane Hk Hlane. by destruct (Hph k phase Hk lane Hlane) as (_ & H & _).
  - by do 2 eexists.
Qed.

(** ** The slots of the planned dispatches *)

Section slots.
Context (r : Recorder) (order : list NodeId) (plan : CompiledPlan).
Context (Hshape : recorder_shape r) (Hto : topo_order r order) (Hfree : hazard_free r).
Context (Hsched : schedule_ok r 2 order (plan_dispatches plan)).
Context (d : GpuDevice) (pool : KernargPool) (bindings : ReplayBindings) (kernels : AqlKernelCatalog).
Context (count : nat) (p : PreparedAqlPlan) (level : NodeId → nat) (prog : list (list packet_view)).
Context (Hpg : prepared_graph plan d pool bindings kernels count p level prog).

Local Abbreviation ds := (plan_dispatches plan).
Local Abbreviation phases := (sg_phases (ap_graph p)).

(** The earlier dispatches of the plan on the same lane of the same phase. *)
Definition peers (i : nat) (q : PlannedDispatch) : nat :=
  length (filter (λ q', level (pd_node q') = level (pd_node q) ∧ pd_lane q' = pd_lane q) (take i ds)).

(** The slot of dispatch [i] of the plan in token [t]. *)
Definition plan_slot (t i : nat) : packet_id :=
  match ds !! i with
  | Some q => (pd_lane q, dispatch_slot phases 1 (pd_lane q) t (level (pd_node q)) (peers i q))
  | None => (0, 0)
  end.

(** Dispatch [i] of the plan with what was recorded for it. *)
Record placed_dispatch (i : nat) (q : PlannedDispatch) (phase : TwoQueuePhase) (rd : RecordedDispatch) : Prop := {
  pl_lane : pd_lane q < 2;
  pl_phase : phases !! level (pd_node q) = Some phase;
  pl_node : of_lane (phase_of plan level (level (pd_node q))) (pd_lane q) !! peers i q = Some (pd_node q);
  pl_dispatch : lane_dispatches phase (pd_lane q) !! peers i q = Some rd;
  pl_lowered : lowered d pool bindings kernels q rd
}.

Lemma of_phase k lane : lane < 2 → of_lane (phase_of plan level k) lane = nodes_at level k lane ds.
Proof using Type. intros Hl. assert (lane = 0 ∨ lane = 1) as [-> | ->] by lia; done. Qed.

Lemma dispatch_placed i q : ds !! i = Some q → ∃ phase rd, placed_dispatch i q phase rd.
Proof using All.
  intros Hi. pose proof (do_lane _ _ _ _ (position_ok r 2 order ds Hsched i q Hi)) as Hl.
  assert (q ∈ ds) as Hin by by eapply list_elem_of_lookup_2.
  destruct (lookup_lt_is_Some_2 phases (level (pd_node q))) as [phase Hphase]; [by apply (pg_below _ _ _ _ _ _ _ _ _ Hpg)|].
  assert (nodes_at level (level (pd_node q)) (pd_lane q) ds !! peers i q = Some (pd_node q)) as Hnode.
  { unfold nodes_at, peers. rewrite list_lookup_fmap.
    rewrite (filter_position (λ q', level (pd_node q') = level (pd_node q) ∧ pd_lane q' = pd_lane q) ds i q) by done.
    done. }
  pose proof (pg_phase _ _ _ _ _ _ _ _ _ Hpg _ phase (pd_lane q) Hphase Hl) as Hlow.
  rewrite of_phase in Hlow by done.
  destruct (Forall2_lookup_l _ _ _ _ _ Hlow Hnode) as (rd & Hrd & q' & Hq' & Heq & Hlowered).
  exists phase, rd. split; [done|done|by rewrite of_phase|done|].
  apply list_elem_of_lookup in Hq' as [j Hj].
  assert (j = i) as ->; [|congruence]. by eapply (position_inj r 2 order ds Hto Hsched).
Qed.

Lemma edge_level x y : edge (rec_edges r) x y → level x < level y.
Proof using All.
  intros He. destruct (shape_edges _ Hshape _ _ He) as [_ Hy].
  apply (to_nodes _ _ Hto) in Hy. rewrite <-(proj1 Hsched) in Hy.
  apply list_elem_of_fmap in Hy as (q & -> & Hq).
  apply (lv_after _ _ (pg_leveled _ _ _ _ _ _ _ _ _ Hpg)); [done|].
  apply list_elem_of_lookup in Hq as [i Hi].
  rewrite (do_deps _ _ _ _ (position_ok r 2 order ds Hsched i q Hi)). by apply elem_of_dependencies_of.
Qed.

Lemma depends_level x y : depends r x y → level x < level y.
Proof using All. induction 1; [by apply edge_level|]. pose proof (edge_level x y H). lia. Qed.

(** Dispatch [i] of the plan comes before dispatch [i']. *)
Definition plan_order (i i' : nat) : Prop :=
  ∃ q q', ds !! i = Some q ∧ ds !! i' = Some q' ∧ ordered_before r q q'.

Lemma slots_disjoint t i q t' i' q' :
  ds !! i = Some q → ds !! i' = Some q' → t < count → pd_lane q = pd_lane q' →
  earlier t' (level (pd_node q')) t (level (pd_node q)) → plan_slot t i ≠ plan_slot t' i'.
Proof using All.
  intros Hi Hi' Ht Hl He Heq.
  destruct (dispatch_placed i q Hi) as (phase & rd & [Hlane Hph _ Hd _]).
  destruct (dispatch_placed i' q' Hi') as (phase' & rd' & [_ Hph' _ Hd' _]).
  unfold plan_slot in Heq. rewrite Hi, Hi', <-Hl in Heq. injection Heq as Heq. rewrite <-Hl in Hd'.
  pose proof (slot_before phases count 1 (pd_lane q) t _ t' _ (peers i' q') _ Hlane Ht
    (lookup_lt_Some _ _ _ Hph) He Hph') as Hb. apply lookup_lt_Some in Hd'. specialize (Hb ltac:(lia)).
  unfold dispatch_slot in *. lia.
Qed.

Lemma plan_slot_inj t i t' i' :
  t < count → i < length ds → t' < count → i' < length ds → plan_slot t i = plan_slot t' i' → t = t' ∧ i = i'.
Proof using All.
  intros Ht [q Hi]%lookup_lt_is_Some_2 Ht' [q' Hi']%lookup_lt_is_Some_2 Heq.
  assert (pd_lane q = pd_lane q') as Hl by (unfold plan_slot in Heq; rewrite Hi, Hi' in Heq; by injection Heq).
  assert (¬ earlier t' (level (pd_node q')) t (level (pd_node q))) as H1.
  { intros He. by apply (slots_disjoint t i q t' i' q'). }
  assert (¬ earlier t (level (pd_node q)) t' (level (pd_node q'))) as H2.
  { intros He. by apply (slots_disjoint t' i' q' t i q). }
  unfold earlier in *. assert (t = t') as <- by lia.
  assert (level (pd_node q) = level (pd_node q')) as Hlev by lia. split; [done|].
  assert (peers i q = peers i' q') as Hp.
  { unfold plan_slot, dispatch_slot in Heq. rewrite Hi, Hi', Hl, Hlev in Heq. injection Heq. lia. }
  destruct (dispatch_placed i q Hi) as (phase & rd & [_ _ Hn _ _]).
  destruct (dispatch_placed i' q' Hi') as (phase' & rd' & [_ _ Hn' _ _]).
  rewrite Hlev, Hl, Hp in Hn. assert (pd_node q = pd_node q') as Hnode by congruence.
  by eapply (position_inj r 2 order ds Hto Hsched).
Qed.

(** The packet in the slot of a dispatch. *)
Lemma plan_slot_packet t i q :
  t < count → ds !! i = Some q →
  ∃ phase rd header s, placed_dispatch i q phase rd ∧
    packet_at prog (plan_slot t i) = Some (kernel_view header rd s).
Proof using All.
  intros Ht Hi. destruct (dispatch_placed i q Hi) as (phase & rd & Hpl).
  destruct (pg_batch _ _ _ _ _ _ _ _ _ Hpg) as (size & policies & Hbatch). pose proof Hpl as [Hl Hph _ Hd _].
  destruct (db_dispatch _ _ _ _ _ _ _ Hbatch t _ phase _ _ rd Ht Hph Hl Hd) as (header & s & _ & Hv).
  exists phase, rd, header, s. split; [done|]. unfold plan_slot. by rewrite Hi.
Qed.

Lemma plan_slot_other l v :
  packet_at prog l = Some v → is_barrier_and v ∨ ∃ t i, t < count ∧ i < length ds ∧ l = plan_slot t i.
Proof using All.
  intros Hv. destruct l as [lane s]. destruct (pg_batch _ _ _ _ _ _ _ _ _ Hpg) as (size & policies & Hbatch).
  destruct (db_other _ _ _ _ _ _ _ Hbatch lane s v Hv) as [|(t & k & phase & j & rd & Ht & Hph & Hl & Hd & ->)];
    [by left|right].
  pose proof (pg_phase _ _ _ _ _ _ _ _ _ Hpg k phase lane Hph Hl) as Hlow. rewrite of_phase in Hlow by done.
  destruct (Forall2_lookup_r _ _ _ _ _ Hlow Hd) as (node & Hnode & _).
  unfold nodes_at in Hnode. apply list_lookup_fmap_Some in Hnode as (q & -> & Hq).
  apply (filter_position_inv (λ q', level (pd_node q') = k ∧ pd_lane q' = lane)) in Hq as (i & Hi & [<- <-] & ->).
  exists t, i. split; [done|]. split; [by eapply lookup_lt_Some|]. unfold plan_slot. by rewrite Hi.
Qed.

(** A launched dispatch finds all earlier tokens complete and everything its
    token orders before it. *)
Lemma plan_slot_order st t i t' i' :
  rtc (aql_step prog) queues_start st → t < count → i < length ds → t' < count → i' < length ds →
  t < t' ∨ (t = t' ∧ plan_order i i') → plan_slot t' i' ∈ qs_launched st → plan_slot t i ∈ qs_completed st.
Proof using All.
  intros Hst Ht [q Hi]%lookup_lt_is_Some_2 Ht' [q' Hi']%lookup_lt_is_Some_2 Hbefore Hl.
  destruct (dispatch_placed i q Hi) as (phase & rd & [Hlane Hph _ Hd _]).
  destruct (dispatch_placed i' q' Hi') as (phase' & rd' & [Hlane' Hph' _ Hd' _]).
  destruct (pg_batch _ _ _ _ _ _ _ _ _ Hpg) as (size & policies & Hbatch).
  unfold plan_slot in *. rewrite Hi'  in Hl. rewrite Hi.
  eapply (ro_order _ _ _ _ _ _ (db_order _ _ _ _ _ _ _ Hbatch st Hst) t'); [done..| |exact Hl].
  destruct Hbefore as [Hlt|[-> (q0 & q0' & Hq0 & Hq0' & Hord%depends_level)]]; [by left|right].
  split; [done|]. congruence.
Qed.
End slots.

(** ** The memory a batch leaves *)

(** [effect] gives every node the effect of the packet recorded for it. *)
Definition plan_effects (p : PreparedAqlPlan) (kernel_effect : Z → Z → mem → mem)
    (effect : NodeId → mem → mem) : Prop :=
  ∀ k nodes phase lane j node rd,
    ap_phase_nodes p !! k = Some nodes → sg_phases (ap_graph p) !! k = Some phase → lane < 2 →
    of_lane nodes lane !! j = Some node → lane_dispatches phase lane !! j = Some rd →
    effect node = kernel_effect (md_kernel_object (k_metadata (rd_kernel rd))) (ka_address (rd_kernarg rd)).

(** [kernel_accesses] knows the packets of the batch by the accesses that the
    recording declares for them. *)
Definition plan_declares (plan : CompiledPlan) (p : PreparedAqlPlan) (kernel_accesses : Z → Z → list Access) : Prop :=
  ∀ k nodes phase lane j q rd,
    ap_phase_nodes p !! k = Some nodes → sg_phases (ap_graph p) !! k = Some phase → lane < 2 →
    q ∈ plan_dispatches plan → of_lane nodes lane !! j = Some (pd_node q) →
    lane_dispatches phase lane !! j = Some rd →
    kernel_accesses (md_kernel_object (k_metadata (rd_kernel rd))) (ka_address (rd_kernarg rd)) = pd_accesses q.

(** What the kernels store is determined by the bytes they declare to read. *)
Definition kernels_load_and_store (r : Recorder) (effect : NodeId → mem → mem) : Prop :=
  ∀ i n, rec_nodes r !! i = Some n → loads_and_stores (node_accesses n) (effect (node_id n)).

Lemma kernels_load_and_store_respect r effect : kernels_load_and_store r effect → kernels_respect r effect.
Proof. intros Hk i n Hn. by eapply loads_and_stores_respect, Hk. Qed.

(** A read that overlaps an earlier write of the same token finds all its bytes
    that the plan writes written by earlier dispatches. *)
Definition reads_produced_whole (plan : CompiledPlan) : Prop := ∀ i q read,
  plan_dispatches plan !! i = Some q → read ∈ pd_accesses q → acc_mode read = ReadMode →
  (∃ d, d ∈ take i (plan_dispatches plan) ∧ write_covers d read) →
  ∀ res x d, in_region (acc_region read) res x → d ∈ plan_dispatches plan → written (pd_accesses d) res x →
    ∃ d', d' ∈ take i (plan_dispatches plan) ∧ written (pd_accesses d') res x.

Lemma written_covers d read res x :
  written (pd_accesses d) res x → in_region (acc_region read) res x → write_covers d read.
Proof.
  intros (w & Hw & Hm & [Hr Hx]) [Hr' Hx']. exists w. split; [done|]. split; [done|].
  apply region_overlaps_iff. split; [congruence|]. lia.
Qed.

(** Without a cross-token fence every read finds its bytes written in its token. *)
Lemma read_produced plan i q d res x :
  has_cross_token_raw plan = false → reads_produced_whole plan → plan_dispatches plan !! i = Some q →
  loaded (pd_accesses q) res x → d ∈ plan_dispatches plan → written (pd_accesses d) res x →
  ∃ k q', k < i ∧ plan_dispatches plan !! k = Some q' ∧ written (pd_accesses q') res x.
Proof.
  intros Hx Hwhole Hi (read & Hread & Hm & Hin) Hd Hw.
  destruct (decide (Exists (λ d', write_covers d' read) (take i (plan_dispatches plan)))) as [He|Hn].
  - apply Exists_exists in He. destruct (Hwhole i q read Hi Hread Hm He res x d Hin Hd Hw) as (q' & Hq' & Hw').
    apply list_elem_of_lookup in Hq' as [k Hk]. apply lookup_take_Some in Hk as [Hk Hlt]. by exists k, q'.
  - exfalso. assert (has_cross_token_raw plan = true); [|congruence]. apply cross_token_raw_exact.
    exists i, q, read. split_and!; [done..| |].
    + intros d' Hd' Hc. apply Hn, Exists_exists. by exists d'.
    + exists d. split; [done|]. by eapply written_covers.
Qed.

Lemma run_list_effects {N S} (step : N → S → S) l s :
  run_list step l s = foldl (λ s f, f s) s (step <$> l).
Proof. unfold run_list. revert s. induction l as [|x l IH]; intros s; [done|]. simpl. apply IH. Qed.

Section memory.
Context (r : Recorder) (order : list NodeId) (plan : CompiledPlan).
Context (Hshape : recorder_shape r) (Hto : topo_order r order) (Hfree : hazard_free r).
Context (Hsched : schedule_ok r 2 order (plan_dispatches plan)).
Context (d : GpuDevice) (pool : KernargPool) (bindings : ReplayBindings) (kernels : AqlKernelCatalog).
Context (count : nat) (p : PreparedAqlPlan) (level : NodeId → nat) (prog : list (list packet_view)).
Context (Hpg : prepared_graph plan d pool bindings kernels count p level prog).
Context (kernel_effect : Z → Z → mem → mem) (effect : NodeId → mem → mem).
Context (Heffects : plan_effects p kernel_effect effect) (Hrespect : kernels_respect r effect).

Local Abbreviation ds := (plan_dispatches plan).
Local Abbreviation slot := (plan_slot plan p level).

Lemma slot_effect t i q :
  t < count → ds !! i = Some q →
  ∃ v object kernarg, packet_at prog (slot t i) = Some v ∧ pv_kind v = KernelPacket object kernarg ∧
    kernel_effect object kernarg = effect (pd_node q).
Proof using All.
  intros Ht Hi.
  destruct (plan_slot_packet r order plan Hshape Hto Hfree Hsched d pool bindings kernels count p level prog Hpg
    t i q Ht Hi) as (phase & rd & header & s & [Hl Hph Hn Hd _] & Hv).
  do 3 eexists. split; [exact Hv|]. split; [done|]. symmetry.
  eapply (Heffects (level (pd_node q)) (phase_of plan level (level (pd_node q)))); [|done..].
  rewrite (pg_nodes _ _ _ _ _ _ _ _ _ Hpg), list_lookup_fmap.
  by rewrite lookup_seq_lt by (by eapply lookup_lt_Some).
Qed.

Definition accesses_at (i : nat) : list Access := from_option pd_accesses [] (ds !! i).

Lemma prepared_token_batch :
  token_batch prog kernel_effect count (length ds) slot accesses_at (plan_order r plan).
Proof using All.
  split.
  - by apply (plan_slot_inj r order plan Hshape Hto Hfree Hsched d pool bindings kernels count p level prog Hpg).
  - intros t i Ht [q Hi]%lookup_lt_is_Some_2. destruct (slot_effect t i q Ht Hi) as (v & a & k & Hv & Hk & He).
    exists v, a, k. split_and!; [done..|]. rewrite He. unfold accesses_at. rewrite Hi. simpl.
    destruct (do_entry _ _ _ _ (position_ok r 2 order ds Hsched i q Hi)) as (n & Hn & _ & ->).
    pose proof (shape_ids _ Hshape _ _ Hn) as Hid.
    rewrite rid_index in Hid by by eapply (position_valid r 2 order ds Hto Hsched).
    rewrite <-Hid. by eapply Hrespect.
  - intros q v Hv.
    by apply (plan_slot_other r order plan Hshape Hto Hfree Hsched d pool bindings kernels count p level prog Hpg).
  - intros st q q' Hst (t & i & t' & i' & Ht & Hi & Ht' & Hi' & -> & -> & Hb).
    by apply (plan_slot_order r order plan Hshape Hto Hfree Hsched d pool bindings kernels count p level prog Hpg).
  - intros i i' (q & q' & Hi & Hi' & Ho). by eapply (ordered_before_lt r 2 order ds Hto Hsched).
  - intros i i' [q Hi]%lookup_lt_is_Some_2 [q' Hi']%lookup_lt_is_Some_2 Hne Hc.
    unfold accesses_at in Hc. rewrite Hi, Hi' in Hc. simpl in Hc.
    destruct (Nat.lt_trichotomy i i') as [Hlt|[|Hlt]]; [left|done|right].
    + exists q, q'. split_and!; [done..|].
      by eapply (conflicting_ordered r 2 order ds Hshape Hto Hsched Hfree i i').
    + exists q', q. split_and!; [done..|].
      eapply (conflicting_ordered r 2 order ds Hshape Hto Hsched Hfree i' i); [done..|].
      by apply accesses_conflict_sym.
Qed.

(** One token of the serial order runs the plan once. *)
Lemma serial_memory m :
  run_memory prog kernel_effect (serial_slots count (length ds) slot) m =
    Nat.iter count (run_order effect (pd_node <$> ds)) m.
Proof using All.
  unfold serial_slots, run_memory. cut (∀ c, c ≤ count →
    run_list (complete_effect prog kernel_effect) (seq 0 c ≫= λ t, slot t <$> seq 0 (length ds)) m =
    Nat.iter c (run_order effect (pd_node <$> ds)) m); [auto|].
  intros c. induction c as [|c IH]; intros Hc; [done|].
  rewrite seq_S, bind_app, run_list_app, IH by lia. cbn [mbind list_bind app Nat.add Nat.iter nat_rect].
  rewrite app_nil_r. change (Nat.iter (S c) ?f m) with (f (Nat.iter c f m)).
  unfold run_order. rewrite !run_list_effects. f_equal.
  apply list_eq. intros i. rewrite !list_lookup_fmap.
  destruct (ds !! i) as [q|] eqn:Hi.
  - rewrite lookup_seq_lt by by eapply lookup_lt_Some. simpl. f_equal.
    destruct (slot_effect c i q Hc Hi) as (v & a & k & Hv & Hk & <-).
    unfold complete_effect, packet_effect. by rewrite Hv, Hk.
  - rewrite lookup_seq_ge by by apply lookup_ge_None. done.
Qed.

(** *** The fences of the batch *)

Context (Hpol : prepared_policies r plan d count p prog).
Context (kernel_accesses : Z → Z → list Access) (Hdeclares : plan_declares plan p kernel_accesses).
Context (Hstores : kernels_load_and_store r effect).
Context (Hcarried : has_cross_token_raw plan = true ∨ reads_produced_whole plan).

Lemma slot_raw i i' q q' :
  plan_order r plan i i' → ds !! i = Some q → ds !! i' = Some q' → flows accesses_at i i' →
  ∃ ov, raw_at ds i i' ov.
Proof using Hsched Hto.
  intros (q0 & q0' & Hq & Hq' & Ho) Hi Hi' (res & x & Hw & Hl).
  rewrite Hi in Hq. rewrite Hi' in Hq'. injection Hq as <-. injection Hq' as <-.
  pose proof (ordered_before_lt r 2 order ds Hto Hsched i i' q q' Hi Hi' Ho) as Hlt.
  unfold accesses_at in Hw, Hl. rewrite Hi in Hw. rewrite Hi' in Hl. cbn in Hw, Hl.
  destruct Hw as (a & Ha & Hma & Hina), Hl as (b & Hb & Hmb & Hinb).
  destruct (region_intersection (acc_region a) (acc_region b)) as [ov|] eqn:Hov.
  - exists ov, q, q'. split_and!; [done..|]. apply elem_of_access_conflicts. exists a, b.
    split_and!; [done..|]. by rewrite Hma, Hmb.
  - exfalso. apply region_intersection_None in Hov.
    assert (region_overlaps (acc_region a) (acc_region b) = true); [|congruence].
    destruct Hina, Hinb. apply region_overlaps_iff. split; [congruence|]. lia.
Qed.

(** The header in the slot of a dispatch follows its derived policy. *)
Lemma slot_header t i q :
  t < count → ds !! i = Some q →
  ∃ boundary pol v, policy_ok r ds boundary i q pol ∧ packet_at prog (slot t i) = Some v ∧
    hdr_release (pv_header v) = hdr_release (dp_header pol) ∧
    hdr_acquire (pv_header v) = (if t =? 0 then hdr_acquire (dp_header pol)
      else if existsb is_raw_consumer (dp_acquire_reasons pol) then FenceAgent else FenceNone).
Proof using Hpol Hpg Hsched Hto Hshape Hfree.
  intros Ht Hi.
  destruct (dispatch_placed r order plan Hshape Hto Hfree Hsched d pool bindings kernels count p level prog Hpg i q Hi)
    as (phase & rd & [Hl Hph Hn Hd _]).
  destruct Hpol as (size & policies & boundary & v & profile & Hbatch & Hvis & Hlow & _).
  destruct (db_dispatch _ _ _ _ _ _ _ Hbatch t _ phase _ _ rd Ht Hph Hl Hd) as (header & s & Hh & Hv).
  assert (ap_phase_nodes p !! level (pd_node q) = Some (phase_of plan level (level (pd_node q)))) as Hnodes.
  { rewrite (pg_nodes _ _ _ _ _ _ _ _ _ Hpg), list_lookup_fmap. by rewrite lookup_seq_lt by (by eapply lookup_lt_Some). }
  destruct (lower_policies_header plan _ v policies t _ _ _ _ _ Hlow Hnodes Hl Hn)
    as (pol & header' & Hpin & Hnode & Hh' & Hrel & Hacq).
  assert (header = header') as <- by (change (header_of policies t (level (pd_node q)) (pd_lane q) (peers plan level i q)
    = Some header) in Hh; congruence).
  apply list_elem_of_lookup in Hpin as [j Hj].
  destruct (lookup_lt_is_Some_2 ds j) as [qj Hqj].
  { rewrite <-(vo_length _ _ _ _ Hvis). by eapply lookup_lt_Some. }
  pose proof (vo_policy _ _ _ _ Hvis j qj pol Hqj Hj) as Hpo.
  assert (j = i) as ->.
  { eapply (position_inj r 2 order ds Hto Hsched); [done..|]. by rewrite <-(po_node _ _ _ _ _ _ Hpo). }
  simplify_eq. exists boundary, pol, (kernel_view header rd s). split; [done|]. split; [|done].
  unfold plan_slot. by rewrite Hi.
Qed.

(** Producers release and consumers acquire within every token. *)
Lemma slot_fences t i i' :
  t < count → i < length ds → i' < length ds → plan_order r plan i i' → flows accesses_at i i' →
  ∃ u v, packet_at prog (slot t i) = Some u ∧ releases u ∧ packet_at prog (slot t i') = Some v ∧ acquires v.
Proof using Hpol Hpg Hsched Hto Hshape Hfree.
  intros Ht [q Hi]%lookup_lt_is_Some_2 [q' Hi']%lookup_lt_is_Some_2 Ho Hflow.
  destruct (slot_raw i i' q q' Ho Hi Hi' Hflow) as [ov Hraw].
  destruct (slot_header t i q Ht Hi) as (b & pol & u & Hpo & Hu & Hrel & _).
  destruct (slot_header t i' q' Ht Hi') as (b' & pol' & v & Hpo' & Hv & _ & Hacq).
  exists u, v. split; [done|]. split; [|split; [done|]].
  - unfold releases. rewrite Hrel. destruct (po_release _ _ _ _ _ _ Hpo) as [[-> _]|[_ Hno]]; [done|].
    exfalso. apply Hno. eauto.
  - unfold acquires. rewrite Hacq. destruct (t =? 0).
    + by eapply (po_acquire_raw _ _ _ _ _ _ Hpo').
    + destruct (po_raw_reason _ _ _ _ _ _ Hpo' i ov Hraw) as (reason & Hin & (n & o & ->)).
      assert (existsb is_raw_consumer (dp_acquire_reasons pol') = true) as ->; [|done].
      apply existsb_elem. by eexists.
Qed.

(** What flows between tokens is fenced at the boundaries. *)
Lemma slot_chain t i t' i' :
  t < t' → t' < count → i < length ds → i' < length ds → has_cross_token_raw plan = true →
  fence_chain prog (slot t i) (slot t' i').
Proof using Hpol Hpg Hsched Hto Hshape Hfree.
  intros Htt Ht' [q Hi]%lookup_lt_is_Some_2 [q' Hi']%lookup_lt_is_Some_2 Hx.
  destruct (dispatch_placed r order plan Hshape Hto Hfree Hsched d pool bindings kernels count p level prog Hpg i q Hi)
    as (phase & rd & [Hl Hph _ Hd _]).
  destruct (dispatch_placed r order plan Hshape Hto Hfree Hsched d pool bindings kernels count p level prog Hpg i' q' Hi')
    as (phase' & rd' & [Hl' Hph' _ _ _]).
  destruct Hpol as (size & policies & boundary & v & profile & Hbatch & _ & Hlow & Hbit).
  destruct (lower_policies_cross _ _ _ _ Hlow Hx) as [Hrel Hacq].
  destruct (db_fence _ _ _ _ _ _ _ Hbatch t _ phase _ _ rd t' _ (pd_lane q') (peers plan level i' q')
    Hph Hl Hd Ht' (lookup_lt_Some _ _ _ Hph') Hl' ltac:(by left)) as (c & b & [(Hc & tail & Hcv) (Hb & deps & Hbv) Hne Ho]).
  cbn [fst snd] in *. unfold plan_slot. rewrite Hi, Hi'.
  eexists (pd_lane q, c), (pd_lane q', b), _, _.
  split; [exact Hcv|]. split; [unfold releases; cbn; by rewrite Hrel|].
  split; [right; split; [exact Hbit|by split]|]. split; [exact Hbv|]. split; [by eexists|].
  split; [unfold acquires; cbn; by rewrite Hacq|]. done.
Qed.

Lemma prepared_fenced_batch :
  fenced_batch prog kernel_effect kernel_accesses count (length ds) slot accesses_at (plan_order r plan).
Proof using All.
  split.
  - intros t i Ht [q Hi]%lookup_lt_is_Some_2. unfold packet_accesses.
    destruct (plan_slot_packet r order plan Hshape Hto Hfree Hsched d pool bindings kernels count p level prog Hpg
      t i q Ht Hi) as (phase & rd & header & s & [Hl Hph Hn Hd _] & ->).
    unfold accesses_at. rewrite Hi. cbn.
    eapply (Hdeclares (level (pd_node q)) (phase_of plan level (level (pd_node q)))); [|done..|
      by eapply list_elem_of_lookup_2|done|done].
    rewrite (pg_nodes _ _ _ _ _ _ _ _ _ Hpg), list_lookup_fmap.
    by rewrite lookup_seq_lt by (by eapply lookup_lt_Some).
  - intros t i Ht [q Hi]%lookup_lt_is_Some_2. destruct (slot_effect t i q Ht Hi) as (v & a & k & Hv & Hk & He).
    unfold complete_effect, packet_effect, accesses_at. rewrite Hv, Hk, He, Hi. cbn.
    destruct (do_entry _ _ _ _ (position_ok r 2 order ds Hsched i q Hi)) as (n & Hn & _ & ->).
    pose proof (shape_ids _ Hshape _ _ Hn) as Hid.
    rewrite rid_index in Hid by by eapply (position_valid r 2 order ds Hto Hsched).
    rewrite <-Hid. by eapply Hstores.
  - exact slot_fences.
  - intros t i t' i' res x Htt Ht' Hi Hi' Hw Hload.
    destruct (has_cross_token_raw plan) eqn:Hx; [left; by apply slot_chain|right].
    destruct Hcarried as [|Hwhole]; [done|]. unfold accesses_at in Hw, Hload |- *.
    apply lookup_lt_is_Some_2 in Hi as [q Hi]. apply lookup_lt_is_Some_2 in Hi' as [q' Hi'].
    rewrite Hi in Hw. rewrite Hi' in Hload. cbn in Hw, Hload.
    destruct (read_produced plan i' q' q res x Hx Hwhole Hi' Hload) as (k & qk & Hlt & Hk & Hwk);
      [by eapply list_elem_of_lookup_2|done|].
    exists k. split; [by eapply lookup_lt_Some|]. split; [|by rewrite Hk].
    exists qk, q'. split_and!; [done..|].
    eapply (conflicting_ordered r 2 order ds Hshape Hto Hsched Hfree k i'); [done..|].
    by eapply written_loaded_conflict.
Qed.
End memory.

(** A prepared plan on the queues: every dispatch of every token has a slot of
    its own lane with the registered kernel and its packed arguments, and a
    launched dispatch finds complete all dispatches of earlier tokens, all its
    prerequisites and all earlier dispatches it conflicts with. *)
Record plan_runs (r : Recorder) (plan : CompiledPlan) (d : GpuDevice) (pool : KernargPool)
    (bindings : ReplayBindings) (kernels : AqlKernelCatalog) (count : nat) (p : PreparedAqlPlan)
    (prog : list (list packet_view)) (slot : nat → nat → packet_id) : Prop := {
  pr_views : views (sg_batches (ap_graph p)) = Some prog;
  pr_slot t i q : t < count → plan_dispatches plan !! i = Some q →
    (slot t i).1 = pd_lane q ∧
    ∃ rd header s, lowered d pool bindings kernels q rd ∧ packet_at prog (slot t i) = Some (kernel_view header rd s);
  pr_other l v : packet_at prog l = Some v →
    is_barrier_and v ∨ ∃ t i, t < count ∧ i < length (plan_dispatches plan) ∧ l = slot t i;
  pr_order st t i q t' i' q' : rtc (aql_step prog) queues_start st → t < count → t' < count →
    plan_dispatches plan !! i = Some q → plan_dispatches plan !! i' = Some q' →
    t < t' ∨ (t = t' ∧ (ordered_before r q q' ∨ i < i' ∧ conflicting q q')) →
    slot t' i' ∈ qs_launched st → slot t i ∈ qs_completed st;
  pr_end st : rtc (aql_step prog) queues_start st → runs_to_end prog (sg_final_signal (ap_graph p)) st;
  pr_final st : rtc (aql_step prog) queues_start st →
    qs_signals st (sg_final_signal (ap_graph p)) = 0%Z → all_complete prog st
}.

(** C2: A prepared plan respects the recorded dependencies on the queues.
    Preparing a compiled recording never panics; when it succeeds, the packets
    on the two queues are exactly one kernel packet per dispatch and token, in
    the lane the compiler chose and with the arguments recorded for it, and
    barrier-AND packets.  In every interleaving a launched dispatch finds
    complete everything of the earlier tokens, and of its own token everything
    it depends on and every earlier dispatch whose accesses conflict with its
    own.  The queues always run to the end, and the final signal reads zero
    only when everything is complete. *)
Theorem prepared_plan_runs sha256 r o plan d pool bindings kernels count boundary profile :
  preparable sha256 r o plan d pool bindings kernels →
  prepare_internal d pool plan bindings kernels sha256 count boundary profile ≠ Panic ∧
  ∀ p, prepare_internal d pool plan bindings kernels sha256 count boundary profile = Done p →
    ∃ prog slot, plan_runs r plan d pool bindings kernels count p prog slot.
Proof.
  intros Hpb. destruct (prepare_internal_inv sha256 r o plan d pool bindings kernels count boundary profile Hpb)
    as [Hnp Hinv]. split; [done|]. intros p Hp. destruct (Hinv p Hp) as (level & prog & Hpg & _).
  pose proof Hpb as [Hwf Hc _ _ _ _ _ _]. destruct (plan_compile_Done _ _ _ _ Hwf Hc) as (_ & Hf & order & Hcp).
  assert (recorder_shape r) as Hshape by apply Hwf.
  pose proof (cp_order _ _ _ _ _ Hcp) as Hto. pose proof (cp_dispatches _ _ _ _ _ Hcp) as Hs.
  rewrite <-(cp_lanes _ _ _ _ _ Hcp), (pg_lanes _ _ _ _ _ _ _ _ _ Hpg) in Hs.
  destruct (pg_batch _ _ _ _ _ _ _ _ _ Hpg) as (size & policies & Hbatch).
  exists prog, (plan_slot plan p level). split.
  - apply (db_views _ _ _ _ _ _ _ Hbatch).
  - intros t i q Ht Hi.
    destruct (plan_slot_packet r order plan Hshape Hto Hf Hs d pool bindings kernels count p level prog Hpg t i q Ht Hi)
      as (phase & rd & header & s & [] & Hv). split; [unfold plan_slot; by rewrite Hi|]. eauto.
  - apply (plan_slot_other r order plan Hshape Hto Hf Hs d pool bindings kernels count p level prog Hpg).
  - intros st t i q t' i' q' Hst Ht Ht' Hi Hi' Hb.
    apply (plan_slot_order r order plan Hshape Hto Hf Hs d pool bindings kernels count p level prog Hpg);
      [done|done|by eapply lookup_lt_Some|done|by eapply lookup_lt_Some|].
    destruct Hb as [|[-> Hb]]; [by left|right]. split; [done|]. exists q, q'. split_and!; [done..|].
    destruct Hb as [|[Hlt Hcf]]; [done|]. by eapply (conflicting_ordered r 2 order _ Hshape Hto Hs Hf i i').
  - apply (db_end _ _ _ _ _ _ _ Hbatch).
  - intros st Hst. apply (ro_final _ _ _ _ _ _ (db_order _ _ _ _ _ _ _ Hbatch st Hst)).
Qed.

(** C1: Replaying a prepared plan is running it in order, caches included.
    Give every node the effect and the declared accesses of the kernel packet
    prepared for it, with kernels that store only to their written regions and
    values determined by the bytes they declare to read.  In every interleaving
    in which the final signal of a batch of [count] tokens has been reached, and
    whatever a kernel reads from a byte whose last store no fence has made
    visible to it, the memory is the one that the dispatches leave when they run
    one by one in the order of the plan, [count] times.  The packets' own release
    and acquire scopes are the only fences.  The plan is one that needs fences
    between tokens by the code's criterion, or whose partly produced reads are
    produced whole. *)
Theorem prepared_batch_memory sha256 r o plan d pool bindings kernels count boundary profile p
    kernel_effect kernel_accesses effect :
  preparable sha256 r o plan d pool bindings kernels →
  prepare_internal d pool plan bindings kernels sha256 count boundary profile = Done p →
  plan_effects p kernel_effect effect → plan_declares plan p kernel_accesses →
  kernels_load_and_store r effect → has_cross_token_raw plan = true ∨ reads_produced_whole plan →
  ∃ prog, views (sg_batches (ap_graph p)) = Some prog ∧
    ∀ start tr st c m, cached_run prog kernel_effect kernel_accesses start tr st c m →
      qs_signals st (sg_final_signal (ap_graph p)) = 0%Z →
      m ≡ Nat.iter count (run_order effect (pd_node <$> plan_dispatches plan)) start.
Proof.
  intros Hpb Hp Heff Hdecl Hstores Hcarried. pose proof (kernels_load_and_store_respect _ _ Hstores) as Hresp.
  destruct (prepare_internal_inv sha256 r o plan d pool bindings kernels count boundary profile Hpb) as [_ Hinv].
  destruct (Hinv p Hp) as (level & prog & Hpg & Hpol).
  pose proof Hpb as [Hwf Hc _ _ _ _ _ _]. destruct (plan_compile_Done _ _ _ _ Hwf Hc) as (_ & Hf & order & Hcp).
  assert (recorder_shape r) as Hshape by apply Hwf.
  pose proof (cp_order _ _ _ _ _ Hcp) as Hto. pose proof (cp_dispatches _ _ _ _ _ Hcp) as Hs.
  rewrite <-(cp_lanes _ _ _ _ _ Hcp), (pg_lanes _ _ _ _ _ _ _ _ _ Hpg) in Hs.
  destruct (pg_batch _ _ _ _ _ _ _ _ _ Hpg) as (size & policies & Hbatch).
  pose proof (prepared_token_batch r order plan Hshape Hto Hf Hs d pool bindings kernels count p level prog Hpg
    kernel_effect effect Heff Hresp) as Htokens.
  exists prog. split; [apply (db_views _ _ _ _ _ _ _ Hbatch)|]. intros start tr st ca m Hrun Hfinal.
  pose proof (cached_aql_run _ _ _ _ _ _ _ _ Hrun) as Haql.
  rewrite <-(serial_memory r order plan Hshape Hto Hf Hs d pool bindings kernels count p level prog Hpg
    kernel_effect effect Heff Hresp).
  etransitivity; [eapply fenced_batch_memory; [exact Htokens| |exact Hrun]|].
  - by apply (prepared_fenced_batch r order plan Hshape Hto Hf Hs d pool bindings kernels count p level prog Hpg
      kernel_effect effect Heff Hresp).
  - eapply run_memory_serial; [exact Htokens|exact Haql|].
    eapply (ro_final _ _ _ _ _ _ (db_order _ _ _ _ _ _ _ Hbatch st (aql_run_reachable _ _ _ Haql))), Hfinal.
Qed.

(** ** Concrete instances *)

Lemma duo_catalog_typed : catalog_typed duo_catalog.
Proof.
  assert (k_metadata ∘ kb_kernel <$> (kc_entries duo_catalog).*2 =
    [mkMetadata 0x7f0000 16 8 0 0 false; mkMetadata 0x7f0000 16 8 0 0 false]) as H by by vm_compute.
  intros key b Hb%bmap_get_elem.
  assert (k_metadata (kb_kernel b) ∈ k_metadata ∘ kb_kernel <$> (kc_entries duo_catalog).*2) as Hin.
  { apply (list_elem_of_fmap_2 (k_metadata ∘ kb_kernel)), (list_elem_of_fmap_2 snd _ (key, b)), Hb. }
  rewrite H, !elem_of_cons, elem_of_nil in Hin.
  destruct Hin as [->|[->|[]]]; split_and!; unfold in_u, umax; simpl; lia.
Qed.

Lemma duo_widths : Forall (λ p, launch_widths (pd_launch p)) (plan_dispatches duo_plan).
Proof.
  assert (Forall (λ p, launch_grid (pd_launch p) = mkDim3 4 1 1 ∧ launch_block (pd_launch p) = mkDim3 64 1 1 ∧
    launch_dynamic_shared_bytes (pd_launch p) = 0%Z) (plan_dispatches duo_plan)) as H.
  { vm_compute. repeat (apply Forall_cons_2; [done|]). apply Forall_nil_2. }
  eapply Forall_impl; [exact H|]. intros p (Hg & Hb & Hs). unfold launch_widths, dim3_typed. rewrite Hg, Hb, Hs.
  split_and!; unfold in_u, umax; simpl; lia.
Qed.

Lemma duo_bindings_ok : bindings_ok duo_bindings.
Proof.
  apply bind_scalar_ok, bind_resource_ok; [apply bind_resource_ok; [apply bindings_new_ok|]|];
    unfold binding_ok, umax; simpl; lia.
Qed.

Lemma duo_pool_typed : pool_typed duo_pool.
Proof.
  intros i size pointer. simpl. destruct (Nat.ltb_spec i 16); [|done]. intros [= <-]. unfold in_u, umax. lia.
Qed.

Lemma duo_preparable :
  preparable sample_sha256 duo sample_options duo_plan sample_gpu duo_pool duo_bindings duo_catalog.
Proof.
  split; [exact duo_wf|exact duo_compiles|exact sample_gpu_ok|exact duo_catalog_typed|exact duo_pool_typed
    |exact duo_bindings_ok|exact duo_widths|exact duo_packable].
Qed.

(** Every written byte becomes the byte of [b] at the same offset, if the kernel
    reads it, plus the node's index. *)
Definition duo_copy (accesses : list Access) (c : Z) : mem → mem := λ m res i,
  if decide (written accesses res i) then
    if decide (loaded accesses sample_b i) then (m sample_b i + c)%Z else c
  else m res i.

Lemma duo_copy_loads_and_stores accesses c : loads_and_stores accesses (duo_copy accesses c).
Proof.
  unfold duo_copy. split.
  - intros m res i Hw. by rewrite decide_False.
  - intros m m' res i Heq Hw. destruct (decide (written accesses res i)); [|done]. case_decide as Ht; [|done].
    by rewrite (Heq _ _ Ht).
Qed.

(** The kernel of the dispatch at node [x] copies between its accesses; its
    kernargs are the page that the pool handed out for it. *)
Definition duo_effect (x : NodeId) : mem → mem :=
  match rec_nodes duo !! node_index x with
  | Some n => duo_copy (node_accesses n) (Z.of_nat (node_index x))
  | None => id
  end.
Definition duo_kernel_effect (object kernarg : Z) : mem → mem :=
  duo_effect (mkNodeId 7 (Z.to_nat ((kernarg - 0x10000) / 4096))).

Definition duo_kernel_accesses (object kernarg : Z) : list Access :=
  from_option node_accesses [] (rec_nodes duo !! Z.to_nat ((kernarg - 0x10000) / 4096)).

Lemma duo_load_and_store : kernels_load_and_store duo duo_effect.
Proof.
  intros i n Hn. unfold duo_effect. rewrite (shape_ids _ duo_wf _ _ Hn). change (node_index (rid duo i)) with i.
  rewrite Hn. apply duo_copy_loads_and_stores.
Qed.

Definition lane_kernargs (phase : TwoQueuePhase) : list Z * list Z :=
  ((λ rd, ka_address (rd_kernarg rd)) <$> ph_zero phase, (λ rd, ka_address (rd_kernarg rd)) <$> ph_one phase).

Lemma duo_prepares :
  ∃ p, prepare sample_gpu duo_pool duo_plan duo_bindings duo_catalog sample_sha256 2 = Done p ∧
    ap_phase_nodes p = [([mkNodeId 7 0], [mkNodeId 7 1]); ([mkNodeId 7 2], [mkNodeId 7 3])] ∧
    lane_kernargs <$> sg_phases (ap_graph p) = [([0x10000], [0x11000]); ([0x12000], [0x13000])]%Z.
Proof.
  assert (match prepare sample_gpu duo_pool duo_plan duo_bindings duo_catalog sample_sha256 2 with
    | Done p => ap_phase_nodes p = [([mkNodeId 7 0], [mkNodeId 7 1]); ([mkNodeId 7 2], [mkNodeId 7 3])] ∧
        lane_kernargs <$> sg_phases (ap_graph p) = [([0x10000], [0x11000]); ([0x12000], [0x13000])]%Z
    | _ => False end) as H by by vm_compute.
  destruct (prepare _ _ _ _ _ _ _) as [p|e|]; [by exists p|destruct H..].
Qed.

(** The kernargs of a packet tell the node it was prepared for. *)
Lemma duo_packets p k nodes phase lane j node rd :
  ap_phase_nodes p = [([mkNodeId 7 0], [mkNodeId 7 1]); ([mkNodeId 7 2], [mkNodeId 7 3])] →
  lane_kernargs <$> sg_phases (ap_graph p) = [([0x10000], [0x11000]); ([0x12000], [0x13000])]%Z →
  ap_phase_nodes p !! k = Some nodes → sg_phases (ap_graph p) !! k = Some phase → lane < 2 →
  of_lane nodes lane !! j = Some node → lane_dispatches phase lane !! j = Some rd →
  mkNodeId 7 (Z.to_nat ((ka_address (rd_kernarg rd) - 0x10000) / 4096)) = node.
Proof.
  intros Hnodes Hkernargs Hk Hphase Hl Hnode Hrd.
  assert (of_lane (lane_kernargs phase) lane !! j = Some (ka_address (rd_kernarg rd))) as Hka.
  { unfold lane_dispatches in Hrd. destruct (lane =? 0) eqn:E; unfold of_lane in *; rewrite E in *;
      cbn [lane_kernargs fst snd] in *; by rewrite list_lookup_fmap, Hrd. }
  assert ((lane_kernargs <$> sg_phases (ap_graph p)) !! k = Some (lane_kernargs phase)) as Hp
    by by rewrite list_lookup_fmap, Hphase.
  rewrite Hkernargs in Hp. rewrite Hnodes in Hk.
  destruct k as [|[|k]]; [| |done]; injection Hk as <-; apply (inj Some) in Hp; rewrite <-Hp in Hka;
    (assert (lane = 0 ∨ lane = 1) as [-> | ->] by lia); cbn in Hnode, Hka;
    (destruct j as [|j]; [|done]); injection Hnode as <-; injection Hka as <-; by vm_compute.
Qed.

Lemma duo_plan_effects p :
  ap_phase_nodes p = [([mkNodeId 7 0], [mkNodeId 7 1]); ([mkNodeId 7 2], [mkNodeId 7 3])] →
  lane_kernargs <$> sg_phases (ap_graph p) = [([0x10000], [0x11000]); ([0x12000], [0x13000])]%Z →
  plan_effects p duo_kernel_effect duo_effect.
Proof.
  intros Hnodes Hkernargs k nodes phase lane j node rd Hk Hphase Hl Hnode Hrd. unfold duo_kernel_effect.
  by rewrite (duo_packets p k nodes phase lane j node rd).
Qed.

Lemma duo_accesses :
  pd_accesses <$> plan_dispatches duo_plan =
    [[access_write (mkRegion sample_a 0 64)]; [access_write (mkRegion sample_b 0 64)];
     [access_read (mkRegion sample_b 0 32); access_write (mkRegion sample_a 0 32)];
     [access_read (mkRegion sample_b 32 32); access_write (mkRegion sample_a 32 32)]].
Proof. by vm_compute. Qed.

Lemma duo_declares p :
  ap_phase_nodes p = [([mkNodeId 7 0], [mkNodeId 7 1]); ([mkNodeId 7 2], [mkNodeId 7 3])] →
  lane_kernargs <$> sg_phases (ap_graph p) = [([0x10000], [0x11000]); ([0x12000], [0x13000])]%Z →
  plan_declares duo_plan p duo_kernel_accesses.
Proof.
  intros Hnodes Hkernargs k nodes phase lane j q rd Hk Hphase Hl Hq Hnode Hrd.
  pose proof (duo_packets p k nodes phase lane j (pd_node q) rd Hnodes Hkernargs Hk Hphase Hl Hnode Hrd) as Heq.
  assert (forallb (λ q, bool_decide (from_option node_accesses [] (rec_nodes duo !! node_index (pd_node q)) = pd_accesses q))
    (plan_dispatches duo_plan) = true) as Hall by by vm_compute.
  unfold duo_kernel_accesses. rewrite forallb_forall in Hall. specialize (Hall q (proj1 (list_elem_of_In _ _) Hq)).
  apply bool_decide_eq_true in Hall. rewrite <-Hall, <-Heq. done.
Qed.

(** Both reads lie in what the second dispatch writes. *)
Lemma duo_produced_whole : reads_produced_whole duo_plan.
Proof.
  pose proof duo_accesses as Hacc.
  pose proof (f_equal (.!! 1) Hacc) as Hone. apply list_lookup_fmap_Some in Hone as (q1 & Ha1 & Hq1).
  intros i q read Hi Hread Hm _ res x d Hin _ _.
  assert ((pd_accesses <$> plan_dispatches duo_plan) !! i = Some (pd_accesses q)) as Hai
    by by rewrite list_lookup_fmap, Hi.
  assert (2 ≤ i ∧ in_region (mkRegion sample_b 0 64) res x) as [Hle Hb].
  { rewrite Hacc in Hai. clear -Hai Hread Hm Hin. destruct i as [|[|[|[|i]]]]; cbn in Hai; [..|done]; injection Hai as Hai; rewrite <-Hai in Hread;
      repeat (apply elem_of_cons in Hread as [->|Hread]; [first [done|idtac]|]); try by apply elem_of_nil in Hread.
    all: destruct Hin as [<- Hx]; split; [lia|split; [done|]]; unfold region_end in *; cbn in *; lia. }
  exists q1. split.
  - apply list_elem_of_lookup. exists 1. rewrite lookup_take_lt; [exact Hq1|exact Hle].
  - rewrite <-Ha1. exists (access_write (mkRegion sample_b 0 64)).
    split; [by apply list_elem_of_singleton|]. split; [reflexivity|exact Hb].
Qed.

Lemma prepared_plan_runs_witness :
  ∃ p prog slot, prepare sample_gpu duo_pool duo_plan duo_bindings duo_catalog sample_sha256 2 = Done p ∧
    views (sg_batches (ap_graph p)) = Some prog ∧ runs_to_end prog (sg_final_signal (ap_graph p)) queues_start ∧
    ∀ st, rtc (aql_step prog) queues_start st → slot 1 0 ∈ qs_launched st → slot 0 3 ∈ qs_completed st.
Proof.
  destruct duo_prepares as (p & Hp & _).
  destruct (prepared_plan_runs sample_sha256 duo sample_options duo_plan sample_gpu duo_pool duo_bindings
    duo_catalog 2 boundary_default false duo_preparable) as [_ H].
  destruct (H p Hp) as (prog & slot & [Hv _ _ Hord Hend _]). exists p, prog, slot.
  split; [exact Hp|]. split; [exact Hv|]. split; [apply Hend, rtc_refl|]. intros st Hst.
  destruct (plan_dispatches duo_plan !! 0) as [q|] eqn:Hq; [|by vm_compute in Hq].
  destruct (plan_dispatches duo_plan !! 3) as [q'|] eqn:Hq'; [|by vm_compute in Hq'].
  apply (Hord st 0 3 q' 1 0 q Hst); [lia|lia|exact Hq'|exact Hq|left; lia].
Defined.

Lemma prepared_batch_memory_witness :
  ∃ p prog, prepare sample_gpu duo_pool duo_plan duo_bindings duo_catalog sample_sha256 2 = Done p ∧
    views (sg_batches (ap_graph p)) = Some prog ∧
    ∀ start tr st c m, cached_run prog duo_kernel_effect duo_kernel_accesses start tr st c m →
      qs_signals st (sg_final_signal (ap_graph p)) = 0%Z →
      m ≡ Nat.iter 2 (run_order duo_effect (pd_node <$> plan_dispatches duo_plan)) start.
Proof.
  destruct duo_prepares as (p & Hp & Hnodes & Hkernargs).
  destruct (prepared_batch_memory sample_sha256 duo sample_options duo_plan sample_gpu duo_pool duo_bindings
    duo_catalog 2 boundary_default false p duo_kernel_effect duo_kernel_accesses duo_effect duo_preparable Hp
    (duo_plan_effects p Hnodes Hkernargs) (duo_declares p Hnodes Hkernargs) duo_load_and_store
    (or_intror duo_produced_whole)) as (prog & Hv & Hm).
  exists p, prog. split; [exact Hp|]. split; [exact Hv|exact Hm].
Defined.

(** ** A queue that starts without the entry acquire

    [n0] feeds [n1] and [n2]; [n3] is independent and reads [b], which the plan
    never writes.  In the order of the plan [n2] is the first dispatch of lane 1
    and gets the acquire of the entry boundary; its level puts it into the second
    phase, so the first packet of queue 1 is that of [n3]. *)

Definition skew_launch (work : positive) (args : list KernelArg) : KernelLaunch :=
  mkLaunch (lit "consume") (mkDim3 4 1 1) (mkDim3 64 1 1) 0 args (Some duo_abi) (Some duo_identity) work.

Definition skew_recording : exec RecordError Recorder :=
  match
    ('(r, a) ← recorder_resource sample_resources (lit "a") 64;
     '(r, b) ← recorder_resource r (lit "b") 64;
     '(r, _) ← recorder_dispatch r (skew_launch 5 (duo_args a 0)) [access_write (mkRegion a 0 32)];
     '(r, _) ← recorder_dispatch r (skew_launch 5 (duo_args a 0)) [access_read (mkRegion a 0 32)];
     '(r, _) ← recorder_dispatch r (skew_launch 4 (duo_args a 0)) [access_read (mkRegion a 0 32)];
     '(r, _) ← recorder_dispatch r (skew_launch 5 (duo_args b 0))
        [access_read (mkRegion b 0 64); access_write (mkRegion a 32 32)];
     Ok r)
  with
  | Ok r => foldE (λ r '(child, root), recorder_depends_on r (mkNodeId 7 child) (mkNodeId 7 root)) r [(1, 0); (2, 0)]
  | Err e => Fail e
  end.

Definition skew_plan : CompiledPlan :=
  match skew_recording with
  | Done r => match plan_compile sample_sha256 r sample_options with Done plan => plan | _ => duo_plan end
  | _ => duo_plan
  end.

Definition header_at (p : PreparedAqlPlan) (l : packet_id) : option HeaderPolicy :=
  prog ← views (sg_batches (ap_graph p)); pv_header <$> packet_at prog l.

Example first_packet_unacquired :
  nodes_of_plan skew_plan = [mkNodeId 7 0; mkNodeId 7 1; mkNodeId 7 2; mkNodeId 7 3] ∧
  match prepare sample_gpu duo_pool skew_plan duo_bindings duo_catalog sample_sha256 1 with
  | Done p =>
      ap_phase_nodes p = [([mkNodeId 7 0], [mkNodeId 7 3]); ([mkNodeId 7 1], [mkNodeId 7 2])] ∧
      header_at p (0, 0) = Some (mkHeader false FenceSystem FenceAgent) ∧
      header_at p (1, 0) = Some (mkHeader false FenceNone FenceNone) ∧
      header_at p (1, 3) = Some (mkHeader true FenceSystem FenceNone)
  | _ => False
  end.
Proof. split; [by vm_compute|]. vm_compute. repeat split. Qed.
