(* ===== verification/AqlRing.v ===== *)
(** * User-mode queues ([redline-rocr/src/runtime.rs])

    The ring of an HSA queue as its host owner drives it: the fault word, the
    capacity wait, publication of a batch of packets, the doorbell, and
    inactivation.  The host owns the write index, the slots it fills and the
    doorbell; what it loads from words that others write (the read index, the
    fault word) and the statuses of HSA calls are arguments.

    A loop that polls until a deadline runs on a list of observations, one per
    iteration before the deadline, and a last one at or after it. *)

From S2P Require Import Prelude Packet Device AqlQueue AqlGraph.

(** ** The fault word *)

Definition QUEUE_FAULT_NONE : Z := 0.

(** [compare_exchange(NONE, bit 63 | status as u32)]. *)
Definition fault_record (encoded status : Z) : Z :=
  if (encoded =? QUEUE_FAULT_NONE)%Z then Z.lor (Z.shiftl 1 63) (status mod 2 ^ 32) else encoded.

(** [encoded as u32 as i32]. *)
Definition as_i32 (x : Z) : Z := let y := (x mod 2 ^ 32)%Z in if (y <? 2 ^ 31)%Z then y else (y - 2 ^ 32)%Z.
Definition as_i64 (x : Z) : Z := let y := (x mod 2 ^ 64)%Z in if (y <? 2 ^ 63)%Z then y else (y - 2 ^ 64)%Z.

Definition fault_status (encoded : Z) : option Z :=
  if (encoded =? QUEUE_FAULT_NONE)%Z then None else Some (as_i32 encoded).

(** ** Queues *)

(** [aq_doorbell] lists the values stored to the doorbell signal, latest
    last. *)
Record AqlQueue := mkAql {
  aq_id : Z;
  aq_size : Z;
  aq_active : bool;
  aq_slots : list (list Z);
  aq_write : Z;
  aq_doorbell : list Z
}.

Definition ensure_active (q : AqlQueue) : result RuntimeError unit :=
  if aq_active q then Ok tt else Err (QueueInactive (aq_id q)).

Definition fault_error (q : AqlQueue) (fault : Z) : option RuntimeError :=
  (λ status, QueueFault (aq_id q) status) <$> fault_status fault.

Definition check_fault (q : AqlQueue) (fault : Z) : result RuntimeError unit :=
  match fault_error q fault with Some error => Err error | None => Ok tt end.

(** ** Waiting for capacity *)

Record polls (P : Type) := mkPolls { pl_before : list P; pl_deadline : P }.
Arguments mkPolls {P} _ _.
Arguments pl_before {P} _.
Arguments pl_deadline {P} _.

(** [body] returns from the loop or lets it go on. *)
Fixpoint poll_loop {P A} (body : P → option (result RuntimeError A)) (timeout : P → RuntimeError)
    (before : list P) (deadline : P) : result RuntimeError A :=
  match before with
  | [] => match body deadline with Some r => r | None => Err (timeout deadline) end
  | p :: before => match body p with Some r => r | None => poll_loop body timeout before deadline end
  end.

Record capacity_poll := mkCapacity { cp_fault : Z; cp_read : Z }.

Definition wrapping_sub (w a b : Z) : Z := ((a - b) mod 2 ^ w)%Z.

Definition capacity_body (q : AqlQueue) (count : Z) (p : capacity_poll) : option (result RuntimeError unit) :=
  match check_fault q (cp_fault p) with
  | Err e => Some (Err e)
  | Ok _ =>
      let last_packet_id := wrapping_add 64 (aq_write q) (count - 1) in
      if (wrapping_sub 64 last_packet_id (cp_read p) <? aq_size q)%Z then Some (Ok tt) else None
  end.

Definition wait_for_capacity (q : AqlQueue) (count : Z) (ps : polls capacity_poll) : result RuntimeError unit :=
  poll_loop (capacity_body q count) (λ _, QueueCapacityTimeout (aq_id q) count)
    (pl_before ps) (pl_deadline ps).

(** ** Publication *)

Definition slot_index (size id : Z) : nat := Z.to_nat (Z.land id (size - 1)).

(** The stores of [publish_batch]: bytes 4 to 64 of a slot, then its first
    word. *)
Inductive ring_write :=
| WriteTail (slot : nat) (bytes : list Z)
| WriteHeader (slot : nat) (word : Z).

Definition apply_write (slots : list (list Z)) (w : ring_write) : list (list Z) :=
  match w with
  | WriteTail slot bytes => alter (λ s, take 4 s ++ bytes) slot slots
  | WriteHeader slot word => alter (λ s, le_bytes 4 word ++ drop 4 s) slot slots
  end.

Definition publish_packet (size id : Z) (packet : PacketImage) : list ring_write :=
  let slot := slot_index size id in
  [WriteTail slot (drop 4 (img_bytes packet)); WriteHeader slot (img_header_word packet)].

Definition publish_writes (size first_packet_id : Z) (packets : list PacketImage) : list ring_write :=
  enumerate packets ≫= λ '(offset, packet),
    publish_packet size (wrapping_add 64 first_packet_id (Z.of_nat offset)) packet.

Definition publish_batch (q : AqlQueue) (packets : list PacketImage) : AqlQueue * Z :=
  let count := Z.of_nat (length packets) in
  let first_packet_id := aq_write q in
  let last_packet_id := wrapping_add 64 first_packet_id (count - 1) in
  (mkAql (aq_id q) (aq_size q) (aq_active q)
     (foldl apply_write (aq_slots q) (publish_writes (aq_size q) first_packet_id packets))
     (wrapping_add 64 first_packet_id count) (aq_doorbell q),
   as_i64 last_packet_id).

(** Returns the value for the doorbell, if there is anything to ring. *)
Definition prepare_batch (q : AqlQueue) (packets : list PacketImage) (fault : Z)
    (ps : polls capacity_poll) : AqlQueue * exec RuntimeError (option Z) :=
  if (aq_size q <? Z.of_nat (length packets))%Z then (q, Panic)
  else
    match (_ ← ensure_active q; check_fault q fault) with
    | Err e => (q, Fail e)
    | Ok _ =>
        if is_empty packets then (q, Done None)
        else
          match wait_for_capacity q (Z.of_nat (length packets)) ps with
          | Err e => (q, Fail e)
          | Ok _ => let '(q, doorbell) := publish_batch q packets in (q, Done (Some doorbell))
          end
    end.

Definition ring (q : AqlQueue) (final_packet_id : Z) : AqlQueue :=
  mkAql (aq_id q) (aq_size q) (aq_active q) (aq_slots q) (aq_write q) (aq_doorbell q ++ [final_packet_id]).

Definition check_status (status : Z) : result RuntimeError unit :=
  if (status =? 0)%Z then Ok tt else Err (HsaFailure status).

(** [status] is the outcome of [hsa_queue_inactivate]. *)
Definition inactivate (q : AqlQueue) (status : Z) : AqlQueue * result RuntimeError unit :=
  if negb (aq_active q) then (q, Ok tt)
  else
    match check_status status with
    | Err e => (q, Err e)
    | Ok _ => (mkAql (aq_id q) (aq_size q) false (aq_slots q) (aq_write q) (aq_doorbell q), Ok tt)
    end.

(** ** Packet images as 64 bytes *)

(** An image fills a slot, and its header word is its first word. *)
Record image_wf (image : PacketImage) : Prop := {
  iw_length : length (img_bytes image) = AQL_PACKET_BYTES;
  iw_header : take 4 (img_bytes image) = le_bytes 4 (img_header_word image)
}.

Lemma image_kernel_wf p : image_wf (image_kernel p).
Proof. split; [|done]. unfold image_kernel; cbn [img_bytes]. by autorewrite with redline list. Qed.

Lemma length_bind_le_bytes n l : length (l ≫= le_bytes n) = length l * n.
Proof.
  induction l as [|x l IH]; [done|]. rewrite bind_cons, length_app, length_le_bytes, IH. simpl. lia.
Qed.

Lemma image_barrier_wf p :
  length (bp_dependency_signals p) = BARRIER_DEPENDENCY_CAPACITY → image_wf (image_barrier p).
Proof.
  intros Hl. split; [|done]. unfold image_barrier; cbn [img_bytes].
  rewrite !length_app, length_bind_le_bytes, !length_le_bytes, Hl. done.
Qed.

Lemma barrier_packet_wf deps completion policy p :
  barrier_packet_with_policy deps completion policy = Ok p → image_wf (image_barrier p).
Proof.
  unfold barrier_packet_with_policy. case_bool_decide as Hc; [done|]. intros Hp%Ok_inj. subst p.
  apply image_barrier_wf. cbn [bp_dependency_signals].
  rewrite length_app, length_drop, length_replicate. unfold BARRIER_DEPENDENCY_CAPACITY in *. lia.
Qed.

(** ** Rings *)

Record ring_wf (q : AqlQueue) : Prop := {
  rw_size : ∃ k, (0 ≤ k < 32)%Z ∧ aq_size q = (2 ^ k)%Z;
  rw_slots : Z.of_nat (length (aq_slots q)) = aq_size q;
  rw_bytes : Forall (λ s, length s = AQL_PACKET_BYTES) (aq_slots q);
  rw_write : in_u 64 (aq_write q)
}.

Section ring.
Context (size : Z) (Hsize : ∃ k, (0 ≤ k < 32)%Z ∧ size = (2 ^ k)%Z).

Lemma size_bounds : (0 < size < 2 ^ 32)%Z.
Proof using Hsize.
  destruct Hsize as (k & Hk & ->). split; [by apply Z.pow_pos_nonneg; lia|].
  apply Z.pow_lt_mono_r; lia.
Qed.

(** Indices wrap at [2^64], a multiple of the ring size. *)
Lemma slot_index_offset w i :
  slot_index size (wrapping_add 64 w i) = Z.to_nat ((w + i) mod size).
Proof using Hsize.
  destruct Hsize as (k & Hk & ->). unfold slot_index, wrapping_add. f_equal.
  rewrite Z.sub_1_r, <-Z.ones_equiv, Z.land_ones by lia.
  apply Z.mod_mod_divide.
  exists (2 ^ (64 - k))%Z. rewrite <-Z.pow_add_r by lia. f_equal. lia.
Qed.

Lemma slot_index_lt w i : slot_index size (wrapping_add 64 w i) < Z.to_nat size.
Proof using Hsize.
  rewrite slot_index_offset. pose proof size_bounds.
  pose proof (Z.mod_pos_bound (w + i) size). lia.
Qed.

(** Two packets less than a ring apart have different slots. *)
Lemma slot_index_inj w i j :
  (Z.abs (i - j) < size)%Z →
  slot_index size (wrapping_add 64 w i) = slot_index size (wrapping_add 64 w j) → i = j.
Proof using Hsize.
  intros Hd. rewrite !slot_index_offset. pose proof size_bounds.
  pose proof (Z.mod_pos_bound (w + i) size). pose proof (Z.mod_pos_bound (w + j) size).
  intros Heq%Z2Nat.inj; [|lia..].
  assert (i - j = size * ((w + i) / size - (w + j) / size))%Z as Hq.
  { pose proof (Z.div_mod (w + i) size). pose proof (Z.div_mod (w + j) size). lia. }
  revert Hq. generalize ((w + i) / size - (w + j) / size)%Z. intros q Hq.
  assert (q = 0)%Z by nia. lia.
Qed.

Lemma apply_write_length slots w : length (apply_write slots w) = length slots.
Proof using Type. destruct w; apply length_alter. Qed.

(** One published packet: its slot holds the image. *)
Lemma publish_packet_lookup slots id packet s :
  image_wf packet → Forall (λ s, length s = AQL_PACKET_BYTES) slots → slot_index size id < length slots →
  foldl apply_write slots (publish_packet size id packet) !! s =
    if decide (s = slot_index size id) then Some (img_bytes packet) else slots !! s.
Proof using Type.
  intros [Hl Hh] Hslots Hlt. cbn [publish_packet foldl apply_write]. case_decide as Hs.
  - subst s. destruct (lookup_lt_is_Some_2 _ _ Hlt) as [old Hold].
    rewrite !list_lookup_alter_eq, Hold. cbn [fmap option_fmap option_map]. f_equal.
    pose proof (Forall_lookup_1 _ _ _ _ Hslots Hold) as Hlen. simpl in Hlen.
    rewrite (drop_app_length' (take 4 old)) by (rewrite length_take, Hlen; done).
    rewrite <-(take_drop 4 (img_bytes packet)) at 2. by rewrite Hh.
  - by rewrite !list_lookup_alter_ne.
Qed.

Lemma publish_writes_snoc w packets p :
  publish_writes size w (packets ++ [p]) =
    publish_writes size w packets
    ++ publish_packet size (wrapping_add 64 w (Z.of_nat (length packets))) p.
Proof using Type. unfold publish_writes. by rewrite enumerate_snoc, bind_app, bind_singleton. Qed.

Lemma apply_writes_length ws slots : length (foldl apply_write slots ws) = length slots.
Proof using Type.
  revert slots. induction ws as [|w ws IH]; intros slots; [done|]. cbn [foldl].
  by rewrite IH, apply_write_length.
Qed.

(** The slots that a range of ids occupies. *)
Definition in_range (w : Z) (n s : nat) : Prop :=
  ∃ i, i < n ∧ s = slot_index size (wrapping_add 64 w (Z.of_nat i)).

(** What a batch of packets leaves in the ring. *)
Record published (w : Z) (packets : list PacketImage) (slots slots' : list (list Z)) : Prop := {
  pb_length : length slots' = length slots;
  pb_bytes : Forall (λ s, length s = AQL_PACKET_BYTES) slots';
  pb_packet i p : packets !! i = Some p →
    slots' !! slot_index size (wrapping_add 64 w (Z.of_nat i)) = Some (img_bytes p);
  pb_other s : ¬ in_range w (length packets) s → slots' !! s = slots !! s
}.

Lemma publish_published w packets slots :
  Forall image_wf packets → Forall (λ s, length s = AQL_PACKET_BYTES) slots →
  Z.of_nat (length slots) = size → (Z.of_nat (length packets) ≤ size)%Z →
  published w packets slots (foldl apply_write slots (publish_writes size w packets)).
Proof using Hsize.
  intros Hp Hs Hl. induction packets as [|p packets IH] using rev_ind; intros Hn.
  { by split. }
  rewrite Forall_app, Forall_singleton in Hp. destruct Hp as [Hps Hp].
  rewrite length_app in Hn. simpl in Hn. specialize (IH Hps ltac:(lia)) as [Hlen Hb Hget Hother].
  rewrite publish_writes_snoc, foldl_app.
  set (mid := foldl apply_write slots (publish_writes size w packets)) in *.
  set (last := Z.of_nat (length packets)).
  pose proof (slot_index_lt w last) as Hlt.
  assert (∀ s, foldl apply_write mid (publish_packet size (wrapping_add 64 w last) p) !! s =
    if decide (s = slot_index size (wrapping_add 64 w last)) then Some (img_bytes p) else mid !! s) as Hlook.
  { intros s. apply publish_packet_lookup; [done|done|]. lia. }
  split.
  - by rewrite apply_writes_length.
  - apply Forall_lookup_2. intros s x. rewrite Hlook. case_decide.
    + intros [= <-]. apply Hp.
    + by apply (Forall_lookup_1 _ _ _ _ Hb).
  - intros i x Hi. rewrite Hlook. apply lookup_snoc_Some in Hi as [[Hi Hx]|[-> ->]].
    + rewrite decide_False; [by apply Hget|]. intros Heq%slot_index_inj; unfold last in *; lia.
    + by rewrite decide_True.
  - intros s Hout. rewrite Hlook. rewrite decide_False.
    + apply Hother. intros (i & Hi & ->). apply Hout. exists i. rewrite length_app. simpl. split; [lia|done].
    + intros ->. apply Hout. exists (length packets). rewrite length_app. simpl. split; [lia|done].
Qed.

(** A prefix of the stores: complete packets, perhaps followed by the tail of
    the next one. *)
Lemma publish_prefix w packets pre :
  pre `prefix_of` publish_writes size w packets →
  ∃ k, pre = publish_writes size w (take k packets) ∨
    ∃ p, packets !! k = Some p ∧
      pre = publish_writes size w (take k packets)
            ++ [WriteTail (slot_index size (wrapping_add 64 w (Z.of_nat k))) (drop 4 (img_bytes p))].
Proof using Type.
  induction packets as [|p packets IH] using rev_ind.
  { intros ->%prefix_nil_inv. exists 0. by left. }
  rewrite publish_writes_snoc. intros [Hpre|(k & -> & Hk)]%prefix_app_cases.
  - destruct (IH Hpre) as (k & [->|(p' & Hp' & ->)]).
    + exists (min k (length packets)). left. f_equal. rewrite take_app_le by lia.
      by rewrite <-take_take, (take_ge packets (length packets)) by done.
    + exists k. right. exists p'. apply lookup_lt_Some in Hp' as Hlt.
      rewrite lookup_app_l, take_app_le by lia. done.
  - unfold publish_packet in Hk.
    destruct k as [|w1 [|w2 k]].
    + exists (length packets). left. by rewrite app_nil_r, take_app_length.
    + apply prefix_cons_inv_1 in Hk. subst w1. exists (length packets). right. exists p.
      by rewrite list_lookup_middle, take_app_length.
    + exists (length packets + 1). left. apply prefix_cons_inv_1 in Hk as H1.
      apply prefix_cons_inv_2 in Hk. apply prefix_cons_inv_1 in Hk as H2.
      apply prefix_cons_inv_2, prefix_nil_inv in Hk. subst.
      rewrite take_ge by (rewrite length_app; done). by rewrite publish_writes_snoc.
Qed.
End ring.

(** ** The operations *)

Lemma poll_loop_Ok {P A} (body : P → option (result RuntimeError A)) timeout before deadline a :
  poll_loop body timeout before deadline = Ok a →
  ∃ p, p ∈ before ++ [deadline] ∧ body p = Some (Ok a).
Proof.
  induction before as [|p before IH]; cbn [poll_loop app].
  - destruct (body deadline) as [r|] eqn:Hb; [|done]. intros ->. exists deadline. split; [constructor|done].
  - destruct (body p) as [r|] eqn:Hb.
    + intros ->. exists p. split; [constructor|done].
    + intros (p' & Hp' & Hb')%IH. exists p'. split; [by constructor|done].
Qed.

(** The ids of a queue that are not retired, when [read] was loaded. *)
Definition unretired (q : AqlQueue) (read : Z) : Z := wrapping_sub 64 (aq_write q) read.

Lemma capacity_body_Ok q count p u :
  capacity_body q count p = Some (Ok u) →
  fault_status (cp_fault p) = None ∧
  (wrapping_sub 64 (wrapping_add 64 (aq_write q) (count - 1)) (cp_read p) < aq_size q)%Z.
Proof.
  unfold capacity_body, check_fault, fault_error. destruct (fault_status (cp_fault p)); [done|]. simpl.
  destruct (Z.ltb_spec (wrapping_sub 64 (wrapping_add 64 (aq_write q) (count - 1)) (cp_read p)) (aq_size q)); done.
Qed.

(** With at most a ring of unretired packets, the test is the sum. *)
Lemma capacity_fits q count read :
  (0 < count ≤ aq_size q)%Z → (aq_size q < 2 ^ 32)%Z → (unretired q read ≤ aq_size q)%Z →
  wrapping_sub 64 (wrapping_add 64 (aq_write q) (count - 1)) read = (unretired q read + count - 1)%Z.
Proof.
  intros Hc Hsize Hu. unfold unretired, wrapping_sub, wrapping_add in *.
  rewrite Zminus_mod_idemp_l.
  replace (aq_write q + (count - 1) - read)%Z with (aq_write q - read + (count - 1))%Z by lia.
  rewrite <-Zplus_mod_idemp_l.
  pose proof (Z.mod_pos_bound (aq_write q - read) (2 ^ 64)). rewrite Z.mod_small; lia.
Qed.

Lemma publish_batch_wf q packets :
  ring_wf q → Forall image_wf packets → (Z.of_nat (length packets) ≤ aq_size q)%Z →
  ring_wf (publish_batch q packets).1 ∧
  published (aq_size q) (aq_write q) packets (aq_slots q) (aq_slots (publish_batch q packets).1).
Proof.
  intros [Hsize Hslots Hbytes Hw] Hp Hn.
  pose proof (publish_published _ Hsize (aq_write q) packets (aq_slots q) Hp Hbytes Hslots Hn) as Hpub.
  split; [|done]. split; cbn [publish_batch fst aq_size aq_slots aq_write]; [done| |apply Hpub|].
  - by rewrite (pb_length _ _ _ _ _ Hpub).
  - unfold wrapping_add, in_u, umax.
    pose proof (Z.mod_pos_bound (aq_write q + Z.of_nat (length packets)) (2 ^ 64)). lia.
Qed.

(** Publishing where the capacity test succeeded leaves the slots of
    unretired packets alone. *)
Lemma publish_keeps_unretired q packets read slots' :
  ring_wf q → published (aq_size q) (aq_write q) packets (aq_slots q) slots' →
  (unretired q read + Z.of_nat (length packets) ≤ aq_size q)%Z →
  ∀ j, (0 < j ≤ unretired q read)%Z →
    slots' !! slot_index (aq_size q) (wrapping_sub 64 (aq_write q) j) =
      aq_slots q !! slot_index (aq_size q) (wrapping_sub 64 (aq_write q) j).
Proof.
  intros Hq Hpub Hfit j Hj. apply (pb_other _ _ _ _ _ Hpub). intros (i & Hi & Heq).
  pose proof (size_bounds _ (rw_size _ Hq)).
  unfold wrapping_sub in Heq. change ((aq_write q - j) mod 2 ^ 64)%Z with (wrapping_add 64 (aq_write q) (- j)) in Heq.
  apply (slot_index_inj _ (rw_size _ Hq)) in Heq; lia.
Qed.

(** C32: Publishing a batch on a ring.  A batch that fits the queue never
    trips the assertion; an error leaves the queue as it was; success fills
    exactly the slots of the reserved ids with the images (indices wrap at
    [2^64] and at the ring size), advances the write index by the number of
    packets, returns the id of the last packet, and rings nothing.  A slot
    whose packet was not retired at the load that found room is not touched,
    and afterwards at most a ring of packets is unretired. *)
Theorem prepare_batch_publishes q packets fault ps q' out :
  ring_wf q → Forall image_wf packets → (Z.of_nat (length packets) ≤ aq_size q)%Z →
  prepare_batch q packets fault ps = (q', out) →
  match out with
  | Panic => False
  | Fail _ => q' = q
  | Done None => packets = [] ∧ q' = q
  | Done (Some id) =>
      aq_active q = true ∧ ring_wf q' ∧
      (aq_id q', aq_size q', aq_active q', aq_doorbell q') = (aq_id q, aq_size q, aq_active q, aq_doorbell q) ∧
      aq_write q' = wrapping_add 64 (aq_write q) (Z.of_nat (length packets)) ∧
      id = as_i64 (aq_write q + Z.of_nat (length packets) - 1) ∧
      published (aq_size q) (aq_write q) packets (aq_slots q) (aq_slots q') ∧
      ∃ p, p ∈ pl_before ps ++ [pl_deadline ps] ∧ fault_status (cp_fault p) = None ∧
        ((unretired q (cp_read p) ≤ aq_size q)%Z →
         (unretired q' (cp_read p) ≤ aq_size q)%Z ∧
         ∀ j, (0 < j ≤ unretired q (cp_read p))%Z →
           aq_slots q' !! slot_index (aq_size q) (wrapping_sub 64 (aq_write q) j) =
             aq_slots q !! slot_index (aq_size q) (wrapping_sub 64 (aq_write q) j))
  end.
Proof.
  intros Hq Hp Hn. unfold prepare_batch.
  destruct (Z.ltb_spec (aq_size q) (Z.of_nat (length packets))); [lia|].
  unfold ensure_active. destruct (aq_active q) eqn:Ha; cbn [mbind result_bind].
  2:{ by intros [= <- <-]. }
  destruct (check_fault q fault) as [u|e]; [|by intros [= <- <-]].
  destruct (is_empty packets) eqn:He.
  { apply is_empty_true in He. by intros [= <- <-]. }
  destruct (wait_for_capacity _ _ ps) as [u'|e] eqn:Hw; [|by intros [= <- <-]].
  apply poll_loop_Ok in Hw as (p & Hin & [Hf Hfit]%capacity_body_Ok).
  destruct (publish_batch_wf q packets Hq Hp Hn) as [Hwf Hpub].
  destruct (publish_batch q packets) as [q1 id] eqn:Hpb. cbn [fst] in *. intros [= <- <-].
  assert (q1 = (publish_batch q packets).1) as Hq1 by by rewrite Hpb.
  assert (id = (publish_batch q packets).2) as Hid by by rewrite Hpb.
  apply is_empty_false in He. assert (0 < length packets) by (destruct packets; simpl; [done|lia]).
  pose proof (size_bounds _ (rw_size _ Hq)).
  split; [done|]. split; [done|]. split; [rewrite Hq1; simpl; by rewrite Ha|].
  split; [by rewrite Hq1|]. split.
  { rewrite Hid. unfold publish_batch, as_i64, wrapping_add. cbn [snd]. rewrite Zmod_mod.
    by rewrite Z.add_sub_assoc. }
  split; [done|]. exists p. split; [done|]. split; [done|]. intros Hu.
  rewrite capacity_fits in Hfit by lia. split.
  - rewrite Hq1. unfold unretired, publish_batch, wrapping_sub, wrapping_add in *. cbn [fst aq_write].
    rewrite Zminus_mod_idemp_l.
    replace (aq_write q + Z.of_nat (length packets) - cp_read p)%Z
      with (aq_write q - cp_read p + Z.of_nat (length packets))%Z by lia.
    rewrite <-Zplus_mod_idemp_l. pose proof (Z.mod_pos_bound (aq_write q - cp_read p) (2 ^ 64)).
    rewrite Z.mod_small; lia.
  - apply (publish_keeps_unretired q packets); [done|done|lia].
Qed.

(** A packet is never visible half-written.  After any prefix of the
    stores of a publication, the packets of the batch up to some point are in
    their slots in full, and every later slot still has its old first word,
    which is what tells the packet processor to wait; no other slot changes. *)
Theorem no_torn_packet q packets stores :
  ring_wf q → Forall image_wf packets → (Z.of_nat (length packets) ≤ aq_size q)%Z →
  stores `prefix_of` publish_writes (aq_size q) (aq_write q) packets →
  let slots := foldl apply_write (aq_slots q) stores in
  let slot i := slot_index (aq_size q) (wrapping_add 64 (aq_write q) (Z.of_nat i)) in
  ∃ k, k ≤ length packets ∧
    (∀ i p, i < k → packets !! i = Some p → slots !! slot i = Some (img_bytes p)) ∧
    (∀ i, k ≤ i < length packets → take 4 <$> slots !! slot i = take 4 <$> aq_slots q !! slot i) ∧
    (∀ s, (∀ i, i < length packets → s ≠ slot i) → slots !! s = aq_slots q !! s).
Proof.
  intros Hq Hp Hn Hpre slots slot.
  apply publish_prefix in Hpre as (k & Hk).
  assert (Forall image_wf (take k packets)) as Hpk by by apply Forall_take.
  pose proof (length_take packets k) as Hl.
  pose proof (publish_published _ (rw_size _ Hq) (aq_write q) (take k packets) (aq_slots q) Hpk
    (rw_bytes _ Hq) (rw_slots _ Hq) ltac:(lia)) as [_ Hb Hget Hother].
  set (mid := foldl apply_write (aq_slots q) (publish_writes (aq_size q) (aq_write q) (take k packets))) in *.
  assert (∀ i j, i < length packets → j < length packets → slot i = slot j → i = j) as Hinj.
  { intros i j Hi Hj Heq%(slot_index_inj _ (rw_size _ Hq)); lia. }
  assert (∀ i, min k (length packets) ≤ i < length packets → mid !! slot i = aq_slots q !! slot i) as Hlate.
  { intros i Hi. apply Hother. intros (j & Hj & Heq). apply Hinj in Heq; lia. }
  assert (∀ s, (∀ i, i < length packets → s ≠ slot i) → mid !! s = aq_slots q !! s) as Hout.
  { intros s Hs. apply Hother. intros (j & Hj & Heq). eapply (Hs j); [lia|done]. }
  assert (∀ i p, i < k → packets !! i = Some p → mid !! slot i = Some (img_bytes p)) as Hdone.
  { intros i p Hi Hip. apply Hget. by rewrite lookup_take_lt. }
  exists (min k (length packets)). split; [lia|].
  destruct Hk as [->|(p & Hpk' & ->)].
  { split; [intros i p Hi; apply Hdone; lia|]. split; [|done]. intros i Hi. by rewrite Hlate. }
  apply lookup_lt_Some in Hpk' as Hlt. subst slots. rewrite foldl_snoc. fold mid. cbn [apply_write].
  fold (slot k). split; [|split].
  - intros i p' Hi Hip. rewrite list_lookup_alter_ne; [apply Hdone; [lia|done]|].
    intros Heq%Hinj; lia.
  - intros i Hi. rewrite <-Hlate by lia. destruct (decide (i = k)) as [->|Hne].
    + rewrite list_lookup_alter_eq. destruct (mid !! slot k) as [old|] eqn:Hold; [|done]. simpl. f_equal.
      pose proof (Forall_lookup_1 _ _ _ _ Hb Hold) as Hlen. simpl in Hlen.
      rewrite take_app_length' by (rewrite length_take, Hlen; done). done.
    + rewrite list_lookup_alter_ne; [done|]. intros Heq%Hinj; lia.
  - intros s Hs. rewrite list_lookup_alter_ne; [by apply Hout|]. intros Heq. by apply (Hs k).
Qed.

(** ** Concrete rings *)

Definition empty_slot : list Z := 1%Z :: replicate 63 0%Z.
Definition new_queue (id size write : Z) : AqlQueue :=
  mkAql id size true (replicate (Z.to_nat size) empty_slot) write [].

Lemma new_queue_wf id k write :
  (0 ≤ k < 32)%Z → in_u 64 write → ring_wf (new_queue id (2 ^ k) write).
Proof.
  intros Hk Hw. split; cbn [new_queue aq_size aq_slots aq_write]; [by exists k| | |done].
  - rewrite length_replicate. pose proof (Z.pow_pos_nonneg 2 k). lia.
  - by apply Forall_replicate.
Qed.

(** A ring of four slots at the end of the index range. *)
Definition wrap_queue : AqlQueue := new_queue 9 4 (2 ^ 64 - 1).

Definition sample_images : list PacketImage :=
  [image_barrier (mkBarrierPacket 0x1503 0 [0x1000; 0; 0; 0; 0]%Z 0 0);
   image_barrier (mkBarrierPacket 0x1503 0 [0; 0; 0; 0; 0]%Z 0 0x2000)].

Lemma wrap_queue_wf : ring_wf wrap_queue.
Proof. apply (new_queue_wf 9 2); [lia|]. by vm_compute. Qed.

Lemma sample_images_wf : Forall image_wf sample_images.
Proof. repeat (apply Forall_cons_2; [by apply image_barrier_wf|]). apply Forall_nil_2. Qed.

(** Ids [2^64 - 1] and 0 are published in slots 3 and 0. *)
Example prepare_wraps :
  let '(q, out) := prepare_batch wrap_queue sample_images 0 (mkPolls [] (mkCapacity 0 (2 ^ 64 - 3))) in
  out = Done (Some 0%Z) ∧ aq_write q = 1%Z ∧
  aq_slots q = [img_bytes (default (mkImage [] 0) (sample_images !! 1)); empty_slot; empty_slot;
                img_bytes (default (mkImage [] 0) (sample_images !! 0))].
Proof. split; [by vm_compute|]. split; by vm_compute. Qed.

(** Three unretired packets leave no room for two. *)
Example prepare_full :
  prepare_batch wrap_queue sample_images 0 (mkPolls [mkCapacity 0 (2 ^ 64 - 4)] (mkCapacity 0 (2 ^ 64 - 4))) =
    (wrap_queue, Fail (QueueCapacityTimeout 9 2)).
Proof. by vm_compute. Qed.

Lemma prepare_batch_publishes_witness :
  ∃ q', prepare_batch wrap_queue sample_images 0 (mkPolls [] (mkCapacity 0 (2 ^ 64 - 3))) = (q', Done (Some 0%Z)) ∧
    ring_wf q' ∧ published 4 (2 ^ 64 - 1) sample_images (aq_slots wrap_queue) (aq_slots q').
Proof.
  assert ((prepare_batch wrap_queue sample_images 0 (mkPolls [] (mkCapacity 0 (2 ^ 64 - 3)))).2 = Done (Some 0%Z)) as Hout
    by by vm_compute.
  destruct (prepare_batch wrap_queue sample_images 0 (mkPolls [] (mkCapacity 0 (2 ^ 64 - 3)))) as [q' out] eqn:E.
  cbn [snd] in Hout. subst out. exists q'. split; [reflexivity|].
  assert (Z.of_nat (length sample_images) ≤ aq_size wrap_queue)%Z as Hfit by by vm_compute.
  pose proof (prepare_batch_publishes wrap_queue sample_images 0 _ q' (Done (Some 0%Z)) wrap_queue_wf
    sample_images_wf Hfit E) as (_ & Hwf & _ & _ & _ & Hpub & _).
  split; [exact Hwf|exact Hpub].
Defined.

Lemma no_torn_packet_witness :
  let stores := take 3 (publish_writes 4 (2 ^ 64 - 1) sample_images) in
  stores `prefix_of` publish_writes 4 (2 ^ 64 - 1) sample_images ∧
  ∃ k, k ≤ 2 ∧ ∀ i p, i < k → sample_images !! i = Some p →
    foldl apply_write (aq_slots wrap_queue) stores !!
      slot_index 4 (wrapping_add 64 (2 ^ 64 - 1) (Z.of_nat i)) = Some (img_bytes p).
Proof.
  assert (take 3 (publish_writes 4 (2 ^ 64 - 1) sample_images) `prefix_of`
    publish_writes 4 (2 ^ 64 - 1) sample_images) as Hpre by apply prefix_take.
  split; [exact Hpre|].
  assert (Z.of_nat (length sample_images) ≤ aq_size wrap_queue)%Z as Hfit by by vm_compute.
  destruct (no_torn_packet wrap_queue sample_images _ wrap_queue_wf sample_images_wf Hfit Hpre) as (k & Hk & Hdone & _).
  exists k. split; [exact Hk|exact Hdone].
Defined.
