(* ===== verification/AqlSubmit.v ===== *)
(** * Submitting recorded batches ([redline-rocr/src/runtime.rs],
    [redline-dispatch/src/aql/replay.rs])

    The queue set of a graph, and the state machine that submits the graph's
    batches, waits for them and cancels them.  The two graph types have the
    same code here; they differ in the signals that a submission resets.

    Loads of words that the device or the error callback writes, and the
    statuses of HSA calls, are arguments, by lane. *)

From stdpp Require Import functions.
From S2P Require Import Prelude Packet Device AqlQueue AqlGraph AqlTwoQueue AqlRing.

(** ** [QueueSet] *)

Record QueueSet := mkSet {
  set_queues : list AqlQueue;
  set_prepared : list (option Z)
}.

Definition no_doorbells (prepared : list (option Z)) : list (option Z) := (λ _, None) <$> prepared.

Definition check_faults (s : QueueSet) (faults : nat → Z) : result RuntimeError unit :=
  for_each (λ '(lane, q), check_fault q (faults lane)) (enumerate (set_queues s)).

Fixpoint first_error {E} (rs : list (result E unit)) : result E unit :=
  match rs with
  | [] => Ok tt
  | Err e :: _ => Err e
  | Ok _ :: rs => first_error rs
  end.

(** Every queue is attempted; the first error is reported. *)
Definition inactivate_all (s : QueueSet) (statuses : nat → Z) : QueueSet * result RuntimeError unit :=
  let outcomes := imap (λ lane q, inactivate q (statuses lane)) (set_queues s) in
  (mkSet outcomes.*1 (no_doorbells (set_prepared s)), first_error outcomes.*2).

Definition inactivate_after_error (s : QueueSet) (statuses : nat → Z) (operation : RuntimeError) :
    QueueSet * RuntimeError :=
  match inactivate_all s statuses with
  | (s, Ok _) => (s, operation)
  | (s, Err teardown) => (s, OperationAndTeardown operation teardown)
  end.

Record prepare_env := mkPrepareEnv {
  pe_faults : nat → Z;
  pe_lane_faults : nat → Z;
  pe_polls : nat → polls capacity_poll;
  pe_statuses : nat → Z
}.

Fixpoint prepare_lanes (env : prepare_env) (s : QueueSet) (lanes : list (nat * list PacketImage)) :
    QueueSet * exec RuntimeError unit :=
  match lanes with
  | [] => (s, Done tt)
  | (lane, batch) :: lanes =>
      match set_queues s !! lane with
      | None => (s, Panic)
      | Some q =>
          let '(q, prepared) := prepare_batch q batch (pe_lane_faults env lane) (pe_polls env lane) in
          let s := mkSet (<[lane:=q]> (set_queues s)) (set_prepared s) in
          match prepared with
          | Panic => (s, Panic)
          | Fail error =>
              let '(s, error) := inactivate_after_error (mkSet (set_queues s) (no_doorbells (set_prepared s)))
                                   (pe_statuses env) error in
              (s, Fail error)
          | Done doorbell =>
              match vec_set (set_prepared s) lane doorbell with
              | None => (s, Panic)
              | Some prepared => prepare_lanes env (mkSet (set_queues s) prepared) lanes
              end
          end
      end
  end.

Definition prepare_batches (s : QueueSet) (bs : batches) (env : prepare_env) :
    QueueSet * exec RuntimeError unit :=
  if negb (length bs =? length (set_queues s)) then (s, Panic)
  else if negb (forallb (λ d, bool_decide (d = None)) (set_prepared s)) then (s, Panic)
  else
    match check_faults s (pe_faults env) with
    | Err error => let '(s, error) := inactivate_after_error s (pe_statuses env) error in (s, Fail error)
    | Ok _ => prepare_lanes env s (enumerate bs)
    end.

Fixpoint ring_lanes (queues : list AqlQueue) (doorbells : list (option Z)) :
    list AqlQueue * list (option Z) :=
  match queues, doorbells with
  | q :: queues, doorbell :: doorbells =>
      let '(queues, doorbells) := ring_lanes queues doorbells in
      ((match doorbell with Some final_packet_id => ring q final_packet_id | None => q end) :: queues,
       None :: doorbells)
  | _, _ => (queues, doorbells)
  end.

Definition ring_prepared (s : QueueSet) (faults statuses : nat → Z) : QueueSet * result RuntimeError unit :=
  match check_faults s faults with
  | Err error =>
      let '(s, error) := inactivate_after_error (mkSet (set_queues s) (no_doorbells (set_prepared s)))
                           statuses error in
      (s, Err error)
  | Ok _ => let '(queues, doorbells) := ring_lanes (set_queues s) (set_prepared s) in
            (mkSet queues doorbells, Ok tt)
  end.

(** One iteration of [wait_signal]: the fault words and the signal value. *)
Record wait_poll := mkWait { wp_faults : nat → Z; wp_value : Z }.

Definition signal_is_complete (value : Z) : bool := (value <? 1)%Z.

Definition wait_body (s : QueueSet) (p : wait_poll) : option (result RuntimeError unit) :=
  match check_faults s (wp_faults p) with
  | Err e => Some (Err e)
  | Ok _ => if signal_is_complete (wp_value p) then Some (Ok tt) else None
  end.

Definition wait_signal (s : QueueSet) (signal : Z) (ps : polls wait_poll) : result RuntimeError unit :=
  poll_loop (wait_body s) (λ _, SignalTimeout signal) (pl_before ps) (pl_deadline ps).

(** ** The state of a graph *)

(** What its operations change. *)
Record GraphState := mkState {
  gs_queues : QueueSet;
  gs_in_flight : bool;
  gs_usable : bool
}.

Inductive QuiescenceTransition := Completed | Cancelled | Failed.

Definition apply_quiescence_transition (g : GraphState) (t : QuiescenceTransition) : GraphState :=
  match t with
  | Completed => mkState (gs_queues g) false (gs_usable g)
  | Cancelled => mkState (gs_queues g) false false
  | Failed => mkState (gs_queues g) true false
  end.

(** [CompletionSignal::reset]. *)
Definition signal_reset (signals : Z → Z) (s : Z) : Z → Z := <[s := 1%Z]> signals.

Record submit_env := mkSubmitEnv {
  se_prepare : prepare_env;
  se_ring_faults : nat → Z;
  se_ring_statuses : nat → Z
}.

(** [resets] are the signals that the graph resets, in this order. *)
Definition submit (resets : list Z) (bs : batches) (g : GraphState) (signals : Z → Z) (env : submit_env) :
    GraphState * (Z → Z) * exec ReplayError unit :=
  if gs_in_flight g then (g, signals, Fail AlreadyInFlight)
  else if negb (gs_usable g) then (g, signals, Fail GraphInactive)
  else
    let signals := foldl signal_reset signals resets in
    match prepare_batches (gs_queues g) bs (se_prepare env) with
    | (s, Panic) => (mkState s false (gs_usable g), signals, Panic)
    | (s, Fail error) => (mkState s false false, signals, Fail (ReplayRuntime error))
    | (s, Done _) =>
        match ring_prepared s (se_ring_faults env) (se_ring_statuses env) with
        | (s, Err error) => (mkState s false false, signals, Fail (ReplayRuntime error))
        | (s, Ok _) => (mkState s true (gs_usable g), signals, Done tt)
        end
    end.

Definition wait_internal (final : Z) (g : GraphState) (ps : polls wait_poll) (statuses : nat → Z) :
    GraphState * result ReplayError unit :=
  if negb (gs_in_flight g) then (g, Ok tt)
  else
    match wait_signal (gs_queues g) final ps with
    | Ok _ => (apply_quiescence_transition g Completed, Ok tt)
    | Err wait_error =>
        match inactivate_all (gs_queues g) statuses with
        | (s, Ok _) =>
            (apply_quiescence_transition (mkState s (gs_in_flight g) (gs_usable g)) Cancelled,
             Err (ReplayRuntime wait_error))
        | (s, Err teardown_error) =>
            (apply_quiescence_transition (mkState s (gs_in_flight g) (gs_usable g)) Failed,
             Err (ReplayRuntime (OperationAndTeardown wait_error teardown_error)))
        end
    end.

Definition cancel_internal (g : GraphState) (statuses : nat → Z) : GraphState * result ReplayError unit :=
  if negb (gs_in_flight g) then (g, Ok tt)
  else
    match inactivate_all (gs_queues g) statuses with
    | (s, Ok _) => (apply_quiescence_transition (mkState s (gs_in_flight g) (gs_usable g)) Cancelled, Ok tt)
    | (s, Err error) =>
        (apply_quiescence_transition (mkState s (gs_in_flight g) (gs_usable g)) Failed,
         Err (ReplayRuntime error))
    end.

(** ** Tickets *)

(** What becomes of a submission ticket: waited for, cancelled, dropped, or
    leaked with [mem::forget]. *)
Inductive ticket_end :=
| TicketWait (ps : polls wait_poll) (statuses : nat → Z)
| TicketCancel (statuses : nat → Z)
| TicketDrop (statuses : nat → Z)
| TicketForget.

(** The state after the ticket's own [drop]: [completed] is set by [wait] and
    [cancel], so that only a dropped ticket cancels there. *)
Definition end_ticket (final : Z) (g : GraphState) (t : ticket_end) : GraphState * option (result ReplayError unit) :=
  match t with
  | TicketWait ps statuses => let '(g, r) := wait_internal final g ps statuses in (g, Some r)
  | TicketCancel statuses => let '(g, r) := cancel_internal g statuses in (g, Some r)
  | TicketDrop statuses => ((cancel_internal g statuses).1, None)
  | TicketForget => (g, None)
  end.

(** The signals that the two kinds of graph reset. *)
Definition recorded_resets (g : RecordedGraph) : list Z := rg_node_signals g ++ [rg_final_signal g].

Definition batch_resets (g : TwoQueueSerializedBatchGraph) : list Z :=
  (List.concat (sg_token_phase_tail_signals g) ≫= λ phase, [phase.1; phase.2])
  ++ match sg_derived_profiling g with Some p => dpr_signals p | None => [] end
  ++ [sg_final_signal g].
