(* ===== verification/AqlPm4.v ===== *)
(** * Retained PM4 indirect buffers ([redline-dispatch/src/aql/replay.rs])

    A command stream of the PM4 builder kept in executable memory and replayed
    through one vendor packet ([SingleQueuePm4Ib]), or one stream per phase and
    lane with barriers between the phases ([PhasedMultiQueuePm4Ib]).  Their
    creation, the passes over the retained dwords, the patching of dispatch
    dimensions, and replay; what a replay does on the queues is in the state of
    [AqlSubmit]. *)

From stdpp Require Import functions.
From S2P Require Import Prelude Packet Device Pm4 AqlQueue AqlGraph AqlRing AqlSubmit.

(** [chunks_exact(n)] and [from_le_bytes] of every chunk. *)
Definition chunks_exact {A} (n : nat) (l : list A) : list (list A) :=
  (λ i, take n (drop (n * i) l)) <$> seq 0 (length l / n).

Definition le_words (n : nat) (bytes : list Z) : list Z := le_value <$> chunks_exact n bytes.

(** ** The passes over retained dwords *)

Definition PM4_COMPUTE_NUM_THREAD_X : Z := 0x207.
Definition PM4_SET_SH_REG : Z := 0x76.
Definition PM4_DISPATCH_DIRECT : Z := 0x15.

Definition ib_walk {S} (step : S → nat → Z → list Z → exec ReplayError S) (bytes : list Z) (s : S) :
    exec ReplayError S :=
  if negb (length bytes mod 4 =? 0) then Fail (MalformedPm4IndirectBuffer (length bytes / 4))
  else
    let dwords := le_words 4 bytes in
    walk_at MalformedPm4IndirectBuffer step (length dwords) dwords 0 s.

Definition offsets_step (offsets : list nat) (cursor : nat) (header : Z) (packet : list Z) :
    exec ReplayError (list nat) :=
  if (header_opcode header =? 0x15)%Z then
    if negb (length (tail packet) =? 4) then Fail (MalformedPm4IndirectBuffer cursor)
    else Done (offsets ++ [(cursor + 1) * 4])
  else Done offsets.

Definition pm4_dispatch_workgroup_offsets (bytes : list Z) : exec ReplayError (list nat) :=
  ib_walk offsets_step bytes [].

Record DecodedDispatch := mkDecoded {
  dd_dimensions : arr3;
  dd_workgroup : option arr3
}.

Definition in_num_thread (register : Z) : bool :=
  (PM4_COMPUTE_NUM_THREAD_X <=? register)%Z && (register <? PM4_COMPUTE_NUM_THREAD_X + 3)%Z.

(** The registers that a [SET_SH_REG] writes; [first + i] is a [u32] sum. *)
Fixpoint set_threads (first : Z) (i : nat) (values : list Z) (threads : list (option Z)) :
    exec ReplayError (list (option Z)) :=
  match values with
  | [] => Done threads
  | value :: values =>
      register ← unwrap (checked_add 32 first (Z.of_nat i));
      threads ← (if in_num_thread register
                 then unwrap (vec_set threads (Z.to_nat (register - PM4_COMPUTE_NUM_THREAD_X)) (Some value))
                 else Done threads);
      set_threads first (S i) values threads
  end.

Definition threads_workgroup (threads : list (option Z)) : option arr3 :=
  match threads with [Some x; Some y; Some z] => Some (mk3 x y z) | _ => None end.

Definition decode_step (s : list DecodedDispatch * list (option Z)) (cursor : nat) (header : Z)
    (packet : list Z) : exec ReplayError (list DecodedDispatch * list (option Z)) :=
  let '(out, threads) := s in
  let body := tail packet in
  if (header_opcode header =? PM4_SET_SH_REG)%Z then
    first ← unwrap (body !! 0);
    threads ← set_threads first 0 (tail body) threads;
    Done (out, threads)
  else if (header_opcode header =? PM4_DISPATCH_DIRECT)%Z then
    if negb (length body =? 4) then Fail (MalformedPm4IndirectBuffer cursor)
    else
      x ← unwrap (body !! 0); y ← unwrap (body !! 1); z ← unwrap (body !! 2);
      Done (out ++ [mkDecoded (mk3 x y z) (threads_workgroup threads)], threads)
  else Done (out, threads).

Definition decode_pm4_dispatches (bytes : list Z) : exec ReplayError (list DecodedDispatch) :=
  '(out, _) ← ib_walk decode_step bytes ([], [None; None; None]);
  Done out.

(** ** [SingleQueuePm4Ib] *)

(** What replay does not change but for the contents of the buffers; the queue
    set and the two flags are a [GraphState].  [si_queue_sizes] are the sizes
    of the queues that were created for it. *)
Record SingleQueuePm4Ib := mkIb {
  si_queue_sizes : list Z;
  si_completion : Z;
  si_indirect : KernargBuffer;
  si_batch : list PacketImage;
  si_timestamps : option KernargBuffer;
  si_timestamp_frequency_hz : option Z;
  si_dispatch_workgroup_offsets : list nat
}.

Definition with_bytes (k : KernargBuffer) (bytes : list Z) : KernargBuffer :=
  mkKernarg (ka_address k) bytes (ka_agent k).

(** [KernargBuffer::write_exact]. *)
Definition write_exact (k : KernargBuffer) (bytes : list Z) : result RuntimeError KernargBuffer :=
  if negb (length bytes =? length (ka_bytes k)) then
    Err (KernargLengthMismatch (Z.of_nat (length (ka_bytes k))) (Z.of_nat (length bytes)))
  else Ok (with_bytes k bytes).

Definition allocate_executable_bytes (pool : KernargPool) (i length : nat) : result RuntimeError KernargBuffer :=
  allocate_bytes pool i (Z.of_nat length) 16.

(** [as_mut_bytes().fill(0)]. *)
Definition zeroed (k : KernargBuffer) : KernargBuffer := with_bytes k (replicate (length (ka_bytes k)) 0%Z).

Definition create_encoded (d : GpuDevice) (pool : KernargPool) (allocation : nat) (bytes : list Z) (dwords : Z)
    (timestamps : option KernargBuffer) (frequency_hz : option Z) : exec ReplayError SingleQueuePm4Ib :=
  if (dwords =? 0)%Z then Fail EmptyGraph
  else
    offsets ← pm4_dispatch_workgroup_offsets bytes;
    indirect ← try_ (map_err ReplayRuntime (allocate_executable_bytes pool allocation (length bytes)));
    indirect ← try_ (map_err ReplayRuntime (write_exact indirect bytes));
    completion ← try_ (new_signal d 0);
    packet ← try_ (map_err ReplayPacket (pm4_indirect_buffer (ka_address indirect) dwords completion));
    sizes ← try_ (map_err ReplayRuntime (gpu_queue_sizes d 1 (gpu_queue_min d)));
    Done (mkIb sizes completion indirect [packet] timestamps frequency_hz offsets).

(** The indirect buffer comes from [ib_pool] if there is one, everything else
    from [pool]; [ib_allocation] counts the raw allocations of a pool. *)
Definition ib_source (pool : KernargPool) (ib_pool : option KernargPool) (used : nat) : KernargPool * nat :=
  match ib_pool with Some ib_pool => (ib_pool, 0) | None => (pool, used) end.

(** [create] and [create_with_ib_pool]. *)
Definition ib_create (d : GpuDevice) (pool : KernargPool) (ib_pool : option KernargPool)
    (commands : Gfx12Pm4CommandBuffer) : exec ReplayError SingleQueuePm4Ib :=
  let '(source, allocation) := ib_source pool ib_pool 0 in
  create_encoded d source allocation (as_bytes commands) (len_dwords commands) None None.

(** [create_profiled] and [create_profiled_with_ib_pool]. *)
Definition ib_create_profiled (d : GpuDevice) (pool : KernargPool) (ib_pool : option KernargPool)
    (commands : Gfx12Pm4CommandBuffer) : exec ReplayError SingleQueuePm4Ib :=
  if buffer_is_empty commands then Fail EmptyGraph
  else
    timestamps ← try_ (map_err ReplayRuntime (allocate_executable_bytes pool 0 16));
    let timestamps := zeroed timestamps in
    let start := ka_address timestamps in
    end_ ← unwrap (checked_add 64 start 8);
    let timed := with_gpu_timestamps commands start end_ in
    frequency_hz ← try_ (map_err ReplayRuntime (gpu_frequency d));
    let '(source, allocation) := ib_source pool ib_pool 1 in
    create_encoded d source allocation (as_bytes timed) (len_dwords timed) (Some timestamps) (Some frequency_hz).

(** The outcome of a builder pass under [map_err(ReplayError::Pm4Build)]. *)
Definition pm4_pass {A} (r : exec Pm4BuildError A) : exec ReplayError A :=
  match r with Done a => Done a | Fail e => Fail (ReplayPm4Build e) | Panic => Panic end.

Definition ib_create_dispatch_profiled (d : GpuDevice) (pool : KernargPool)
    (commands : Gfx12Pm4CommandBuffer) : exec ReplayError SingleQueuePm4Ib :=
  if buffer_is_empty commands then Fail EmptyGraph
  else
    slots ← pm4_pass (timestamp_slot_count commands);
    timestamps ← try_ (map_err ReplayRuntime (allocate_executable_bytes pool 0 (slots * 8)));
    let timestamps := zeroed timestamps in
    timed ← pm4_pass (with_per_dispatch_timestamps commands (ka_address timestamps));
    frequency_hz ← try_ (map_err ReplayRuntime (gpu_frequency d));
    create_encoded d pool 1 (as_bytes timed) (len_dwords timed) (Some timestamps) (Some frequency_hz).

(** ** Patching *)

Definition set_indirect (p : SingleQueuePm4Ib) (bytes : list Z) : SingleQueuePm4Ib :=
  mkIb (si_queue_sizes p) (si_completion p) (with_bytes (si_indirect p) bytes) (si_batch p)
    (si_timestamps p) (si_timestamp_frequency_hz p) (si_dispatch_workgroup_offsets p).

Definition patch_destination (destination : list Z) (dimensions : arr3) : list Z :=
  foldl (λ bytes '(axis, value), copy_at (axis * 4) (le_bytes 4 value) bytes) destination
    (enumerate (list3 dimensions)).

Definition patch_dispatch_dimensions (p : SingleQueuePm4Ib) (usable : bool) (dispatch : nat) (dimensions : arr3) :
    result ReplayError SingleQueuePm4Ib :=
  if negb usable then Err GraphInactive
  else if bool_decide (0%Z ∈ list3 dimensions) then Err (Pm4ZeroWorkgroup dispatch dimensions)
  else
    offset ← ok_or (si_dispatch_workgroup_offsets p !! dispatch)
               (Pm4DispatchOutOfBounds dispatch (length (si_dispatch_workgroup_offsets p)));
    let bytes := ka_bytes (si_indirect p) in
    let end_ := offset + 12 in
    if length bytes <? end_ then Err (MalformedPm4IndirectBuffer (offset / 4))
    else
      let destination := patch_destination (take 12 (drop offset bytes)) dimensions in
      Ok (set_indirect p (take offset bytes ++ destination ++ drop end_ bytes)).

Definition decode_dispatches (p : SingleQueuePm4Ib) : exec ReplayError (list DecodedDispatch) :=
  decode_pm4_dispatches (ka_bytes (si_indirect p)).

(** ** Replay *)

Inductive Quiescence := Proven | Unknown.

Definition reset_timestamp_progress (p : SingleQueuePm4Ib) : SingleQueuePm4Ib :=
  mkIb (si_queue_sizes p) (si_completion p) (si_indirect p) (si_batch p) (zeroed <$> si_timestamps p)
    (si_timestamp_frequency_hz p) (si_dispatch_workgroup_offsets p).

(** The buffers once a replay has started: the timestamps are reset when the
    guards of [replay_start] pass. *)
Definition replay_buffers (p : SingleQueuePm4Ib) (g : GraphState) : SingleQueuePm4Ib :=
  if negb (gs_usable g) || gs_in_flight g then p else reset_timestamp_progress p.

(** [replay_and_wait_inner_checked] up to the doorbell, and from the wait on;
    what it does to the buffers is [replay_buffers]. *)
Definition replay_start (p : SingleQueuePm4Ib) (g : GraphState) (signals : Z → Z) (env : submit_env) :
    GraphState * (Z → Z) * exec (ReplayError * Quiescence) unit :=
  if negb (gs_usable g) then (g, signals, Fail (GraphInactive, Proven))
  else if gs_in_flight g then (g, signals, Fail (AlreadyInFlight, Proven))
  else
    let signals := signal_reset signals (si_completion p) in
    match prepare_batches (gs_queues g) [si_batch p] (se_prepare env) with
    | (s, Panic) => (mkState s (gs_in_flight g) (gs_usable g), signals, Panic)
    | (s, Fail error) =>
        (apply_quiescence_transition (mkState s (gs_in_flight g) (gs_usable g)) Cancelled, signals,
         Fail (ReplayRuntime error, Proven))
    | (s, Done _) =>
        match ring_prepared s (se_ring_faults env) (se_ring_statuses env) with
        | (s, Err error) =>
            (apply_quiescence_transition (mkState s true (gs_usable g)) Cancelled, signals,
             Fail (ReplayRuntime error, Proven))
        | (s, Ok _) => (mkState s true (gs_usable g), signals, Done tt)
        end
    end.

Definition replay_finish (p : SingleQueuePm4Ib) (g : GraphState) (ps : polls wait_poll) (statuses : nat → Z) :
    GraphState * result (ReplayError * Quiescence) unit :=
  match wait_signal (gs_queues g) (si_completion p) ps with
  | Ok _ => (apply_quiescence_transition g Completed, Ok tt)
  | Err operation =>
      match inactivate_all (gs_queues g) statuses with
      | (s, Ok _) =>
          (apply_quiescence_transition (mkState s (gs_in_flight g) (gs_usable g)) Cancelled,
           Err (ReplayRuntime operation, Proven))
      | (s, Err teardown) =>
          (apply_quiescence_transition (mkState s (gs_in_flight g) (gs_usable g)) Failed,
           Err (ReplayRuntime (OperationAndTeardown operation teardown), Unknown))
      end
  end.

Definition quiesce (g : GraphState) (statuses : nat → Z) : GraphState * result ReplayError unit :=
  if negb (gs_in_flight g) then (g, Ok tt)
  else
    match inactivate_all (gs_queues g) statuses with
    | (s, Ok _) => (apply_quiescence_transition (mkState s (gs_in_flight g) (gs_usable g)) Cancelled, Ok tt)
    | (s, Err error) =>
        (apply_quiescence_transition (mkState s (gs_in_flight g) (gs_usable g)) Failed,
         Err (ReplayRuntime error))
    end.

(** ** Timestamps *)

Record GpuMultiQueueTiming := mkTiming {
  gt_first_start : Z;
  gt_last_end : Z;
  gt_frequency_hz : Z
}.

Definition saturating_mul (w a b : Z) : Z := Z.min (a * b) (umax w).

Definition checked_div (a b : Z) : option Z := if (b =? 0)%Z then None else Some (a / b)%Z.



Definition span_step (frequency_hz : Z) (spans : list Z) (pair : Z * Z) : exec ReplayError (list Z) :=
  let '(start, end_) := pair in
  if (start =? 0)%Z || (end_ <? start)%Z then Fail (InvalidGpuTimestamp start end_)
  else
    span ← unwrap (checked_div (saturating_mul 64 (end_ - start) 1000000000) frequency_hz);
    Done (spans ++ [span]).

(** [read_dispatch_profile] on the bytes that the buffer then holds. *)
Definition read_dispatch_profile (p : SingleQueuePm4Ib) (bytes : list Z) :
    exec ReplayError (GpuMultiQueueTiming * list Z) :=
  frequency_hz ← try_ (ok_or (si_timestamp_frequency_hz p) ProfilingUnavailable);
  _ ← try_ (ok_or (si_timestamps p) ProfilingUnavailable);
  let ticks := le_words 8 bytes in
  if length ticks <? 2 then Fail ProfilingUnavailable
  else
    spans ← foldE (span_step frequency_hz) [] (windows2 ticks);
    first ← unwrap (ticks !! 0);
    last ← unwrap (last ticks);
    Done (mkTiming first last frequency_hz, spans).

(** The end of [replay_and_wait_profiled_checked]. *)
Definition read_profile (p : SingleQueuePm4Ib) (bytes : list Z) : exec ReplayError GpuMultiQueueTiming :=
  frequency_hz ← try_ (ok_or (si_timestamp_frequency_hz p) ProfilingUnavailable);
  _ ← try_ (ok_or (si_timestamps p) ProfilingUnavailable);
  if length bytes <? 16 then Panic
  else
    let start := read_le 0 8 bytes in
    let end_ := read_le 8 8 bytes in
    if (start =? 0)%Z || (end_ <? start)%Z then Fail (InvalidGpuTimestamp start end_)
    else Done (mkTiming start end_ frequency_hz).
