(* ===== verification/AqlPhased.v ===== *)
(** * Phased retained buffers ([redline-dispatch/src/aql/replay.rs])

    [PhasedMultiQueuePm4Ib]: one retained stream per phase and lane, ordered by
    completion signals and barrier packets, and its replay.  The element type
    of a phase and its encoding are parameters; the gfx12 builder is one
    instance. *)

From stdpp Require Import functions.
From S2P Require Import Prelude Packet Device Pm4 AqlQueue AqlGraph AqlRing AqlSubmit AqlPm4.

Definition retained_queue_size (required_packets : nat) (minimum maximum : Z) : result ReplayError Z :=
  queue_size ← ok_or (next_power_of_two 64 (Z.of_nat required_packets)) PolicyShapeMismatch;
  let queue_size := Z.max queue_size minimum in
  if (umax 32 <? queue_size)%Z then Err PolicyShapeMismatch
  else if (maximum <? queue_size)%Z then Err PolicyShapeMismatch
  else Ok queue_size.

Record PhasedMultiQueuePm4Ib := mkPhased {
  ph_queue_sizes : list Z;
  ph_phase_completions : list (list Z);
  ph_logical_phase_count : nat;
  ph_indirects : list KernargBuffer;
  ph_batches : batches;
  ph_timestamps : option (list KernargBuffer);
  ph_timestamp_frequency_hz : option Z
}.

(** The variables of the loops of [create_encoded]; [pb_used] counts the raw
    allocations and [pb_signals] the signals created so far. *)
Record phased_build := mkBuild {
  pb_batches : batches;
  pb_indirects : list KernargBuffer;
  pb_timestamps : option (list KernargBuffer);
  pb_completions : list (list Z);
  pb_prior : list Z;
  pb_used : nat;
  pb_signals : nat
}.

Section phased.
Context {C : Type} (encode : C → option (Z * Z) → list Z * Z).
Context (d : GpuDevice) (pool : KernargPool).

(** The timestamp buffer of one stream, and the addresses it is encoded with. *)
Definition lane_timestamps (timestamps : option (list KernargBuffer)) (used : nat) :
    exec ReplayError (option (Z * Z) * option (list KernargBuffer) * nat) :=
  match timestamps with
  | None => Done (None, None, used)
  | Some timestamps =>
      timestamp ← try_ (map_err ReplayRuntime (allocate_executable_bytes pool used 16));
      let timestamp := zeroed timestamp in
      let start := ka_address timestamp in
      end_ ← unwrap (checked_add 64 start 8);
      Done (Some (start, end_), Some (timestamps ++ [timestamp]), S used)
  end.

Definition phased_lane (completions : list Z) (s : phased_build) (entry : nat * C) : exec ReplayError phased_build :=
  let '(lane, commands) := entry in
  bs ← push_waits lane (pb_batches s) (pb_prior s);
  '(timestamp_pair, timestamps, used) ← lane_timestamps (pb_timestamps s) (pb_used s);
  let '(bytes, dwords) := encode commands timestamp_pair in
  if (dwords =? 0)%Z then Fail EmptyGraph
  else
    indirect ← try_ (map_err ReplayRuntime (allocate_executable_bytes pool used (length bytes)));
    indirect ← try_ (map_err ReplayRuntime (write_exact indirect bytes));
    completion ← unwrap (completions !! lane);
    packet ← try_ (map_err ReplayPacket (pm4_indirect_buffer (ka_address indirect) dwords completion));
    bs ← unwrap (push_packet bs lane packet);
    Done (mkBuild bs (pb_indirects s ++ [indirect]) timestamps (pb_completions s) (pb_prior s) (S used) (pb_signals s)).

Definition phased_phase (s : phased_build) (phase : list C) : exec ReplayError phased_build :=
  completions ← try_ (mapM (new_signal d) (seq (pb_signals s) (length phase)));
  s ← foldE (phased_lane completions) s (enumerate phase);
  Done (mkBuild (pb_batches s) (pb_indirects s) (pb_timestamps s) (pb_completions s ++ [completions])
          completions (pb_used s) (pb_signals s + length phase)).

Definition phased_create (phases : list (list C)) (frequency_hz : option Z) : exec ReplayError PhasedMultiQueuePm4Ib :=
  if is_empty phases || existsb is_empty phases then Fail EmptyGraph
  else
    let queue_count := max_list (length <$> phases) in
    s ← foldE phased_phase
          (mkBuild (replicate queue_count []) [] ((λ _, []) <$> frequency_hz) [] [] 0 0) phases;
    let required_packets := max_list (length <$> pb_batches s) in
    queue_size ← try_ (retained_queue_size required_packets (gpu_queue_min d) (gpu_queue_max d));
    sizes ← try_ (map_err ReplayRuntime (gpu_queue_sizes d queue_count queue_size));
    _ ← check_capacities sizes (pb_batches s);
    Done (mkPhased sizes (pb_completions s) (length phases) (pb_indirects s) (pb_batches s)
            (pb_timestamps s) frequency_hz).
End phased.

(** [create_profiled] for gfx12 streams. *)
Definition encode_gfx12 (commands : Gfx12Pm4CommandBuffer) (timestamps : option (Z * Z)) : list Z * Z :=
  let commands := match timestamps with
                  | Some (start, end_) => with_gpu_timestamps commands start end_
                  | None => commands
                  end in
  (as_bytes commands, len_dwords commands).

Definition phased_create_profiled (d : GpuDevice) (pool : KernargPool) (phases : list (list Gfx12Pm4CommandBuffer)) :
    exec ReplayError PhasedMultiQueuePm4Ib :=
  frequency_hz ← try_ (map_err ReplayRuntime (gpu_frequency d));
  phased_create encode_gfx12 d pool phases (Some frequency_hz).

Definition phased_packet_count (p : PhasedMultiQueuePm4Ib) : nat := sum_list (length <$> ph_batches p).

(** ** Replay *)

(** One iteration of [wait_signals]. *)
Record waits_poll := mkWaits { wa_faults : nat → Z; wa_values : Z → Z }.

Definition waits_body (s : QueueSet) (signals : list Z) (p : waits_poll) : option (result RuntimeError unit) :=
  match check_faults s (wa_faults p) with
  | Err e => Some (Err e)
  | Ok _ => if forallb (λ signal, signal_is_complete (wa_values p signal)) signals then Some (Ok tt) else None
  end.

Definition waits_timeout (signals : list Z) (p : waits_poll) : RuntimeError :=
  SignalTimeout (default 0%Z (head (List.filter (λ signal, negb (signal_is_complete (wa_values p signal))) signals))).

Definition wait_signals (s : QueueSet) (signals : list Z) (ps : polls waits_poll) : result RuntimeError unit :=
  poll_loop (waits_body s signals) (waits_timeout signals) (pl_before ps) (pl_deadline ps).

Record PhasedState := mkPhasedState { phs_queues : QueueSet; phs_usable : bool }.

(** [replay_and_wait_inner] up to the doorbells, and from the wait on. *)
Definition phased_start (p : PhasedMultiQueuePm4Ib) (g : PhasedState) (signals : Z → Z) (env : submit_env) :
    PhasedState * (Z → Z) * exec ReplayError unit :=
  if negb (phs_usable g) then (g, signals, Fail GraphInactive)
  else
    let signals := foldl (foldl signal_reset) signals (ph_phase_completions p) in
    match prepare_batches (phs_queues g) (ph_batches p) (se_prepare env) with
    | (s, Panic) => (mkPhasedState s (phs_usable g), signals, Panic)
    | (s, Fail error) => (mkPhasedState s false, signals, Fail (ReplayRuntime error))
    | (s, Done _) =>
        match ring_prepared s (se_ring_faults env) (se_ring_statuses env) with
        | (s, Err error) => (mkPhasedState s false, signals, Fail (ReplayRuntime error))
        | (s, Ok _) => (mkPhasedState s (phs_usable g), signals, Done tt)
        end
    end.

Definition phased_finish (p : PhasedMultiQueuePm4Ib) (g : PhasedState) (ps : polls waits_poll) (statuses : nat → Z) :
    PhasedState * exec ReplayError unit :=
  match last (ph_phase_completions p) with
  | None => (g, Panic)
  | Some terminal =>
      match wait_signals (phs_queues g) terminal ps with
      | Ok _ => (g, Done tt)
      | Err operation =>
          match inactivate_all (phs_queues g) statuses with
          | (s, Ok _) => (mkPhasedState s false, Fail (ReplayRuntime operation))
          | (s, Err teardown) => (mkPhasedState s false, Fail (ReplayRuntime (OperationAndTeardown operation teardown)))
          end
      end
  end.

(** The makespan of [replay_and_wait_profiled], from the bytes that the
    timestamp buffers then hold. *)
Definition makespan_step (s : Z * Z) (bytes : list Z) : exec ReplayError (Z * Z) :=
  let '(first_start, last_end) := s in
  if length bytes <? 16 then Panic
  else
    let start := read_le 0 8 bytes in
    let end_ := read_le 8 8 bytes in
    if (start =? 0)%Z || (end_ <? start)%Z then Fail (InvalidGpuTimestamp start end_)
    else Done (Z.min first_start start, Z.max last_end end_).

Definition phased_makespan (p : PhasedMultiQueuePm4Ib) (buffers : list (list Z)) : exec ReplayError GpuMultiQueueTiming :=
  frequency_hz ← try_ (ok_or (ph_timestamp_frequency_hz p) ProfilingUnavailable);
  _ ← try_ (ok_or (ph_timestamps p) ProfilingUnavailable);
  '(first_start, last_end) ← foldE makespan_step (u64_max, 0%Z) buffers;
  Done (mkTiming first_start last_end frequency_hz).
