(* ===== verification/AqlPm4Ok.v ===== *)
(** * The passes over a retained indirect buffer

    The dwords of a buffer as packets, what [pm4_dispatch_workgroup_offsets]
    accepts, what [decode_pm4_dispatches] reports, and the effect of a patch. *)

From stdpp Require Import gmap functions.
From S2P Require Import Prelude Packet Device Pm4 Pm4Exec Pm4Build Pm4Ok AqlQueue AqlGraph AqlRing AqlSubmit AqlPm4.

(** ** Words *)

Lemma length_le_words n bytes : length (le_words n bytes) = length bytes / n.
Proof. unfold le_words, chunks_exact. by rewrite !length_fmap, length_seq. Qed.

Lemma le_words_lookup n bytes i :
  i < length bytes / n → le_words n bytes !! i = Some (read_le (n * i) n bytes).
Proof.
  intros Hi. unfold le_words, chunks_exact. rewrite !list_lookup_fmap, lookup_seq_lt by done. done.
Qed.

Section words.
Context (n : nat) (Hn : 0 < n).

Lemma le_words_nil : le_words n [] = [].
Proof using Hn. unfold le_words, chunks_exact. by rewrite Nat.Div0.div_0_l. Qed.

(** The words of two byte strings, the first of whole words. *)
Lemma le_words_app b1 b2 : length b1 mod n = 0 → le_words n (b1 ++ b2) = le_words n b1 ++ le_words n b2.
Proof using Hn.
  intros Hm. assert (length b1 = n * (length b1 / n)) as Hl by (apply Nat.Div0.div_exact; done).
  assert (length (b1 ++ b2) / n = length b1 / n + length b2 / n) as Hlen.
  { rewrite length_app, Hl at 1. rewrite Nat.mul_comm, Nat.div_add_l by lia. done. }
  apply list_eq. intros i. destruct (decide (i < length b1 / n)) as [Hi|Hi].
  - rewrite lookup_app_l by (by rewrite length_le_words). rewrite !le_words_lookup by lia.
    f_equal. unfold read_le. rewrite drop_app_le by nia. rewrite take_app_le; [done|]. rewrite length_drop. nia.
  - rewrite lookup_app_r by (rewrite length_le_words; lia). rewrite length_le_words.
    destruct (decide (i < length b1 / n + length b2 / n)) as [Hi2|Hi2].
    + rewrite !le_words_lookup by lia. f_equal. unfold read_le. f_equal. f_equal.
      rewrite drop_app_ge by nia. f_equal. nia.
    + rewrite !lookup_ge_None_2; [done| |]; rewrite length_le_words; lia.
Qed.

Lemma le_words_take bytes a : n * a ≤ length bytes → le_words n (take (n * a) bytes) = take a (le_words n bytes).
Proof using Hn.
  intros Ha. rewrite <-(take_drop (n * a) bytes) at 2.
  assert (length (take (n * a) bytes) = n * a) as Hl by (rewrite length_take; lia).
  rewrite le_words_app by (rewrite Hl, Nat.mul_comm; apply Nat.Div0.mod_mul).
  rewrite take_app_length'; [done|]. rewrite length_le_words, Hl, Nat.mul_comm, Nat.div_mul by lia. done.
Qed.

Lemma le_words_drop bytes a : n * a ≤ length bytes → le_words n (drop (n * a) bytes) = drop a (le_words n bytes).
Proof using Hn.
  intros Ha. rewrite <-(take_drop (n * a) bytes) at 2.
  assert (length (take (n * a) bytes) = n * a) as Hl by (rewrite length_take; lia).
  rewrite le_words_app by (rewrite Hl, Nat.mul_comm; apply Nat.Div0.mod_mul).
  rewrite drop_app_length'; [done|]. rewrite length_le_words, Hl, Nat.mul_comm, Nat.div_mul by lia. done.
Qed.

Lemma le_words_le_bytes x : le_words n (le_bytes n x) = [(x mod 256 ^ Z.of_nat n)%Z].
Proof using Hn.
  unfold le_words, chunks_exact. rewrite length_le_bytes, Nat.div_same by lia. cbn [seq fmap list_fmap].
  rewrite Nat.mul_0_r, drop_0, take_ge by (by rewrite length_le_bytes). by rewrite le_value_le_bytes.
Qed.

Lemma le_words_bind ws : Forall (λ w, 0 ≤ w < 256 ^ Z.of_nat n)%Z ws → le_words n (ws ≫= le_bytes n) = ws.
Proof using Hn.
  induction 1 as [|w ws Hw _ IH]; [apply le_words_nil|]. rewrite bind_cons.
  rewrite le_words_app by (rewrite length_le_bytes; by apply Nat.Div0.mod_same).
  by rewrite le_words_le_bytes, IH, Z.mod_small.
Qed.
End words.

(** ** Packets of a buffer *)

Definition ib_packets (bytes : list Z) : option (list packet) :=
  if length bytes mod 4 =? 0 then packets_of (le_words 4 bytes) else None.

(** A pass over a buffer of whole packets visits them in order; on any other
    buffer it does not succeed. *)
Lemma ib_walk_packets {S} (step : S → nat → Z → list Z → exec ReplayError S) bytes ps s :
  ib_packets bytes = Some ps → ib_walk step bytes s = fold_at step 0 s ps.
Proof.
  unfold ib_packets, ib_walk. destruct (Nat.eqb_spec (length bytes mod 4) 0); [|done]. cbn [negb].
  intros [-> Hv]%packets_of_Some. apply (walk_at_stream _ _ _ []); [done|]. apply length_stream.
Qed.

Lemma walk_at_Done {E S} (malformed : nat → E) (step : S → nat → Z → list Z → exec E S) fuel dwords cursor s s' :
  cursor ≤ length dwords → length dwords ≤ cursor + fuel →
  walk_at malformed step fuel dwords cursor s = Done s' → is_Some (split_packets fuel (drop cursor dwords)).
Proof.
  revert cursor s. induction fuel as [|fuel IH]; intros cursor s Hc Hf Hw.
  { rewrite drop_ge by lia. by eexists. }
  destruct (drop cursor dwords) as [|h rest] eqn:Hd; [by eexists|].
  assert (dwords !! cursor = Some h) as Hh by (by rewrite <-(Nat.add_0_r cursor), <-lookup_drop, Hd).
  pose proof (lookup_lt_Some _ _ _ Hh) as Hlt.
  assert (length rest + 1 + cursor = length dwords) as Hrest
    by (apply (f_equal length) in Hd; rewrite length_drop in Hd; cbn [length] in Hd; lia).
  cbn [walk_at] in Hw. rewrite decide_True, Hh in Hw by done. cbn [unwrap mbind exec_bind] in Hw.
  destruct (Z.eqb_spec (Z.shiftr h 30) 3) as [H3|H3]; cbn [negb] in Hw; [|done].
  destruct (decide (cursor + (1 + header_body h) ≤ length dwords)) as [Hfit|Hfit]; [|done].
  apply bind_Done_inv in Hw as (s1 & _ & Hw). apply IH in Hw; [|lia..].
  cbn [split_packets]. rewrite decide_True by (split; [done|lia]).
  rewrite <-drop_drop, Hd in Hw. cbn [Nat.add drop] in Hw. destruct Hw as [qs ->]. by eexists.
Qed.

Lemma ib_walk_Done {S} (step : S → nat → Z → list Z → exec ReplayError S) bytes s s' :
  ib_walk step bytes s = Done s' → is_Some (ib_packets bytes).
Proof.
  unfold ib_walk, ib_packets. destruct (_ =? 0); cbn [negb]; [|done]. intros Hw.
  apply (walk_at_Done _ _ _ _ 0) in Hw; [|lia..]. by rewrite drop_0 in Hw.
Qed.

Lemma walk_at_no_panic {E S} (malformed : nat → E) (step : S → nat → Z → list Z → exec E S) fuel dwords cursor s :
  (∀ s c h p, step s c h p ≠ Panic) → length dwords ≤ cursor + fuel →
  walk_at malformed step fuel dwords cursor s ≠ Panic.
Proof.
  intros Hstep. revert cursor s. induction fuel as [|fuel IH]; intros cursor s Hf.
  { cbn [walk_at]. by rewrite decide_False by lia. }
  cbn [walk_at]. case_decide as Hlt; [|done].
  destruct (lookup_lt_is_Some_2 _ _ Hlt) as [h ->]. cbn [unwrap mbind exec_bind].
  destruct (negb _); [done|]. case_decide; [|done].
  specialize (Hstep s cursor h (take (1 + header_body h) (drop cursor dwords))).
  destruct (step _ _ _ _) as [s'|e|]; [|done..]. cbn [mbind exec_bind]. apply IH. lia.
Qed.

(** ** Offsets *)

(** Byte positions of the operands of the dispatches of [ps], behind [cursor]
    dwords. *)
Fixpoint dispatch_offsets (cursor : nat) (ps : list packet) : list nat :=
  match ps with
  | [] => []
  | p :: ps =>
      (if is_dispatch_packet p then [(cursor + 1) * 4] else [])
      ++ dispatch_offsets (cursor + length (p_dwords p)) ps
  end.

Definition dispatch_shaped (p : packet) : Prop := is_dispatch_packet p = true → length (p_body p) = 4.

Lemma offsets_step_spec offsets cursor p :
  offsets_step offsets cursor (p_header p) (p_dwords p) =
    if is_dispatch_packet p then
      if length (p_body p) =? 4 then Done (offsets ++ [(cursor + 1) * 4]) else Fail (MalformedPm4IndirectBuffer cursor)
    else Done offsets.
Proof.
  unfold offsets_step, is_dispatch_packet, p_opcode. change 0x15%Z with PACKET3_DISPATCH_DIRECT.
  cbn [p_dwords tail].
  destruct (header_opcode (p_header p) =? PACKET3_DISPATCH_DIRECT)%Z; [|done]. by destruct (length (p_body p) =? 4).
Qed.

Lemma offsets_fold cursor offsets ps offsets' :
  fold_at offsets_step cursor offsets ps = Done offsets' ↔
  Forall dispatch_shaped ps ∧ offsets' = offsets ++ dispatch_offsets cursor ps.
Proof.
  revert cursor offsets. induction ps as [|p ps IH]; intros cursor offsets; cbn [fold_at dispatch_offsets].
  { rewrite app_nil_r. split; [by intros [= ->]|by intros [_ ->]]. }
  rewrite offsets_step_spec, Forall_cons. unfold dispatch_shaped at 1.
  destruct (is_dispatch_packet p); [destruct (Nat.eqb_spec (length (p_body p)) 4)|]; cbn [mbind exec_bind].
  - rewrite IH, <-app_assoc. naive_solver.
  - naive_solver.
  - rewrite IH. naive_solver.
Qed.

Lemma offsets_ok bytes offsets :
  pm4_dispatch_workgroup_offsets bytes = Done offsets ↔
  ∃ ps, ib_packets bytes = Some ps ∧ Forall dispatch_shaped ps ∧ offsets = dispatch_offsets 0 ps.
Proof.
  unfold pm4_dispatch_workgroup_offsets. split.
  - intros H. destruct (ib_walk_Done _ _ _ _ H) as [ps Hps].
    rewrite (ib_walk_packets _ _ _ _ Hps) in H. apply offsets_fold in H. by exists ps.
  - intros (ps & Hps & H). rewrite (ib_walk_packets _ _ _ _ Hps). by apply offsets_fold.
Qed.

Lemma offsets_no_panic bytes : pm4_dispatch_workgroup_offsets bytes ≠ Panic.
Proof.
  unfold pm4_dispatch_workgroup_offsets, ib_walk. destruct (negb _); [done|].
  apply walk_at_no_panic; [|lia]. intros s c h p. unfold offsets_step. by repeat case_match.
Qed.

(** ** Decoding *)

Definition num_thread (r : regs) : list (option Z) :=
  [r !! PM4_COMPUTE_NUM_THREAD_X; r !! (PM4_COMPUTE_NUM_THREAD_X + 1)%Z; r !! (PM4_COMPUTE_NUM_THREAD_X + 2)%Z].

(** The dispatch that an event of [Pm4Exec] is. *)
Definition event_dispatch (e : event) : option DecodedDispatch :=
  match e with
  | EvDispatch r (x :: y :: z :: _) => Some (mkDecoded (mk3 x y z) (threads_workgroup (num_thread r)))
  | _ => None
  end.

(** The register range of a [SET_SH_REG] does not leave [u32]. *)
Definition set_fits (p : packet) : bool :=
  negb (p_opcode p =? PACKET3_SET_SH_REG)%Z
  || match p_body p with
     | first :: values => (first + Z.of_nat (length values) <=? 2 ^ 32)%Z
     | [] => true
     end.

Lemma set_thread r register value :
  (if in_num_thread register
   then unwrap (vec_set (num_thread r) (Z.to_nat (register - PM4_COMPUTE_NUM_THREAD_X)) (Some value))
   else Done (num_thread r)) = @Done ReplayError _ (num_thread (<[register := value]> r)).
Proof.
  unfold in_num_thread, num_thread, PM4_COMPUTE_NUM_THREAD_X.
  destruct (Z.leb_spec 0x207 register) as [Hlo|Hlo]; destruct (Z.ltb_spec register (0x207 + 3)) as [Hhi|Hhi]; cbn [andb].
  2-4: rewrite !lookup_insert_ne by lia; done.
  assert (register = 0x207 ∨ register = 0x207 + 1 ∨ register = 0x207 + 2)%Z as [-> |[-> | ->]] by lia;
    rewrite lookup_insert_eq, !lookup_insert_ne by lia; done.
Qed.

Lemma set_threads_run r first i values :
  (first + Z.of_nat i + Z.of_nat (length values) ≤ 2 ^ 32)%Z →
  set_threads first i values (num_thread r) = Done (num_thread (write_regs r (first + Z.of_nat i) values)).
Proof.
  revert r i. induction values as [|v values IH]; intros r i Hl; [done|]. cbn [set_threads write_regs length] in *.
  rewrite (proj2 (checked_add_Some 32 first (Z.of_nat i) _)) by (unfold umax; split; [done|lia]).
  cbn [unwrap mbind exec_bind]. rewrite set_thread. cbn [mbind exec_bind]. rewrite IH by lia.
  do 3 f_equal. lia.
Qed.

Lemma decode_fold cursor out r ps :
  Forall valid_packet ps → Forall dispatch_shaped ps → Forall (λ p, set_fits p = true) ps →
  fold_at decode_step cursor (out, num_thread r) ps =
    Done (out ++ filter_map event_dispatch (run r ps).2, num_thread (run r ps).1).
Proof.
  revert cursor out r. induction ps as [|p ps IH]; intros cursor out r Hv Hs Hf; cbn [fold_at run].
  { cbn [fst snd filter_map]. by rewrite app_nil_r. }
  apply Forall_cons in Hv as [[_ Hl] Hv]. apply Forall_cons in Hs as [Hs1 Hs]. apply Forall_cons in Hf as [Hf1 Hf].
  cbn [fst snd]. rewrite filter_map_app, app_assoc.
  assert (1 ≤ length (p_body p)) as Hne by (rewrite Hl, header_body_mod; lia).
  unfold decode_step, step_packet. unfold set_fits in Hf1. unfold dispatch_shaped, is_dispatch_packet in Hs1.
  change PM4_SET_SH_REG with PACKET3_SET_SH_REG. change PM4_DISPATCH_DIRECT with PACKET3_DISPATCH_DIRECT.
  fold (p_opcode p). cbn [p_dwords tail].
  destruct (Z.eqb_spec (p_opcode p) PACKET3_SET_SH_REG) as [Ho|Ho]; cbn [negb orb] in Hf1.
  { destruct (p_body p) as [|first values]; [simpl in Hne; lia|]. apply Z.leb_le in Hf1.
    cbn [lookup list_lookup unwrap mbind exec_bind tail]. rewrite set_threads_run by lia.
    cbn [mbind exec_bind]. rewrite IH by done. cbn [fst snd filter_map]. by rewrite Z.add_0_r, app_nil_r. }
  destruct (Z.eqb_spec (p_opcode p) PACKET3_DISPATCH_DIRECT) as [Hd|Hd].
  { rewrite Hd. change (PACKET3_DISPATCH_DIRECT =? PACKET3_NOP)%Z with false. rewrite Hs1 by done. cbn [Nat.eqb negb].
    specialize (Hs1 eq_refl). destruct (p_body p) as [|x [|y [|z [|w [|]]]]]; simplify_eq/=. by rewrite IH. }
  cbn [mbind exec_bind]. destruct (p_opcode p =? PACKET3_NOP)%Z; cbn [fst snd filter_map event_dispatch];
    rewrite app_nil_r; by apply IH.
Qed.

Lemma decode_run bytes offsets ps :
  pm4_dispatch_workgroup_offsets bytes = Done offsets → ib_packets bytes = Some ps →
  Forall (λ p, set_fits p = true) ps →
  decode_pm4_dispatches bytes = Done (filter_map event_dispatch (run ∅ ps).2).
Proof.
  intros (ps' & Hps' & Hs & _)%offsets_ok Hps Hf. rewrite Hps in Hps'. injection Hps' as <-.
  assert (Forall valid_packet ps) as Hv.
  { unfold ib_packets in Hps. destruct (_ =? 0); [|done]. by apply packets_of_Some in Hps as [_ Hv]. }
  unfold decode_pm4_dispatches. rewrite (ib_walk_packets _ _ _ _ Hps).
  change [None; None; None] with (num_thread ∅). by rewrite decode_fold.
Qed.

(** ** Patching *)

(** The dimensions of a dispatch packet replaced. *)
Definition redimension (dimensions : arr3) (p : packet) : packet :=
  mkPacket (p_header p) (list3 dimensions ++ drop 3 (p_body p)).

Lemma patch_destination_words destination dimensions :
  length destination = 12 →
  patch_destination destination dimensions = list3 dimensions ≫= le_bytes 4.
Proof.
  intros Hl. do 12 (destruct destination as [|? destination]; [done|]). destruct destination; [|done]. done.
Qed.

Lemma dispatch_offsets_lookup cursor ps k offset :
  dispatch_offsets cursor ps !! k = Some offset →
  ∃ ps1 p ps2, ps = ps1 ++ p :: ps2 ∧ is_dispatch_packet p = true ∧ count is_dispatch_packet ps1 = k ∧
    offset = 4 * (cursor + length (stream ps1) + 1).
Proof.
  revert cursor k. induction ps as [|p ps IH]; intros cursor k Hk; [done|]. cbn [dispatch_offsets] in Hk.
  assert (∀ k', dispatch_offsets (cursor + length (p_dwords p)) ps !! k' = Some offset →
    (if is_dispatch_packet p then 1 else 0) + k' = k →
    ∃ ps1 p0 ps2, p :: ps = ps1 ++ p0 :: ps2 ∧ is_dispatch_packet p0 = true ∧ count is_dispatch_packet ps1 = k ∧
      offset = 4 * (cursor + length (stream ps1) + 1)) as Hlater.
  { intros k' Hk' Hkk. destruct (IH _ _ Hk') as (ps1 & q & ps2 & -> & Hq & Hc & ->).
    exists (p :: ps1), q, ps2. split; [done|]. split; [done|]. split.
    - unfold count in *. cbn [List.filter]. destruct (is_dispatch_packet p); simpl; lia.
    - rewrite stream_cons, length_app. lia. }
  destruct (is_dispatch_packet p) eqn:Hp; cbn [app] in Hk.
  - destruct k as [|k]; [|by apply (Hlater k)]. injection Hk as <-. exists [], p, ps.
    split; [done|]. split; [done|]. split; [done|]. simpl. lia.
  - by apply (Hlater k).
Qed.

(** The packets of a patched buffer. *)
Lemma patched_packets bytes ps1 p ps2 dimensions :
  ib_packets bytes = Some (ps1 ++ p :: ps2) → length (p_body p) = 4 →
  Forall (in_u 32) (list3 dimensions) →
  let offset := 4 * (length (stream ps1) + 1) in
  offset + 12 ≤ length bytes ∧
  let bytes' := take offset bytes ++ (list3 dimensions ≫= le_bytes 4) ++ drop (offset + 12) bytes in
  length bytes' = length bytes ∧ ib_packets bytes' = Some (ps1 ++ redimension dimensions p :: ps2).
Proof.
  intros Hps Hl Hd offset. unfold ib_packets in Hps.
  destruct (Nat.eqb_spec (length bytes mod 4) 0) as [Hm|]; [|done].
  apply packets_of_Some in Hps as [Hw Hv].
  assert (length bytes = 4 * length (stream (ps1 ++ p :: ps2))) as Hlen.
  { rewrite <-Hw, length_le_words. by apply Nat.Div0.div_exact. }
  rewrite stream_app, stream_cons in Hw, Hlen. rewrite !length_app in Hlen. cbn [p_dwords length] in Hlen.
  assert (offset + 12 ≤ length bytes) as Hfit by lia. split; [done|]. intros bytes'.
  assert (length (list3 dimensions ≫= le_bytes 4) = 12) as H12 by done.
  assert (length bytes' = length bytes) as Hlen'.
  { unfold bytes'. rewrite !length_app, length_take, length_drop, H12. lia. }
  split; [done|]. unfold ib_packets. rewrite Hlen', Hm. cbn [Nat.eqb].
  apply Forall_app in Hv as [Hv1 [[H3 Hb] Hv2]%Forall_cons].
  assert (le_words 4 bytes' = stream (ps1 ++ redimension dimensions p :: ps2)) as ->.
  - assert (length (take offset bytes) = 4 * (length (stream ps1) + 1)) as Ht by (rewrite length_take; lia).
    unfold bytes'. rewrite le_words_app; [|lia|rewrite Ht, Nat.mul_comm; apply Nat.Div0.mod_mul].
    rewrite le_words_app by (done || lia). rewrite le_words_bind; [|lia|].
    2:{ eapply Forall_impl; [exact Hd|]. unfold in_u, umax. intros x Hx. simpl. lia. }
    replace (offset + 12) with (4 * (length (stream ps1) + 4)) by lia. unfold offset.
    rewrite le_words_take, le_words_drop by lia. rewrite Hw, stream_app, stream_cons.
    rewrite take_app_ge, drop_app_ge by lia.
    replace (length (stream ps1) + 1 - length (stream ps1)) with 1 by lia.
    replace (length (stream ps1) + 4 - length (stream ps1)) with 4 by lia.
    cbn [p_dwords app take drop redimension p_header p_body]. rewrite take_0, drop_app_le by lia.
    rewrite <-!app_assoc. done.
  - apply packets_of_stream, Forall_app. split; [done|]. constructor; [|done]. split; [done|].
    cbn [redimension p_header p_body]. rewrite length_app, length_drop, Hl. cbn [list3 length]. lia.
Qed.

Lemma redimension_dispatch dimensions p : is_dispatch_packet (redimension dimensions p) = is_dispatch_packet p.
Proof. done. Qed.

(** The same commands but for the operands of one dispatch. *)
Lemma run_redimension r ps1 p ps2 dimensions :
  is_dispatch_packet p = true →
  ∃ evs1 evs2, count is_dispatch_event evs1 = count is_dispatch_packet ps1 ∧
    run r (ps1 ++ p :: ps2) =
      ((run r (ps1 ++ p :: ps2)).1, evs1 ++ EvDispatch (run r ps1).1 (p_body p) :: evs2) ∧
    run r (ps1 ++ redimension dimensions p :: ps2) =
      ((run r (ps1 ++ p :: ps2)).1,
       evs1 ++ EvDispatch (run r ps1).1 (list3 dimensions ++ drop 3 (p_body p)) :: evs2).
Proof.
  intros Hp. exists (run r ps1).2, (run (run r ps1).1 ps2).2. split; [apply run_dispatches|].
  rewrite !run_app. cbn [fst snd run]. unfold step_packet. unfold is_dispatch_packet in Hp. apply Z.eqb_eq in Hp.
  change (p_opcode (redimension dimensions p)) with (p_opcode p). rewrite Hp. done.
Qed.

Lemma fold_at_app {E S} (step : S → nat → Z → list Z → exec E S) cursor s ps qs :
  fold_at step cursor s (ps ++ qs) =
    s' ← fold_at step cursor s ps; fold_at step (cursor + length (stream ps)) s' qs.
Proof.
  revert cursor s. induction ps as [|p ps IH]; intros cursor s.
  { cbn. by rewrite Nat.add_0_r. }
  cbn [app fold_at]. destruct (step s cursor _ _) as [s'|e|]; cbn [mbind exec_bind]; [|done..].
  rewrite IH, stream_cons, length_app, Nat.add_assoc. done.
Qed.

(** Decoding appends one entry per dispatch, whatever came before. *)
Lemma decode_step_frame out threads cursor p s' :
  decode_step (out, threads) cursor (p_header p) (p_dwords p) = Done s' →
  ∃ new threads', s' = (out ++ new, threads') ∧ length new = (if is_dispatch_packet p then 1 else 0) ∧
    ∀ out2 cursor2, decode_step (out2, threads) cursor2 (p_header p) (p_dwords p) = Done (out2 ++ new, threads').
Proof.
  unfold decode_step, is_dispatch_packet. change PM4_SET_SH_REG with PACKET3_SET_SH_REG.
  change PM4_DISPATCH_DIRECT with PACKET3_DISPATCH_DIRECT. fold (p_opcode p). cbn [p_dwords tail].
  destruct (Z.eqb_spec (p_opcode p) PACKET3_SET_SH_REG) as [->|Ho].
  { destruct (unwrap (p_body p !! 0)) as [first|e|]; cbn [mbind exec_bind]; [|done..].
    destruct (set_threads first 0 _ threads) as [t|e|]; cbn [mbind exec_bind]; [|done..].
    intros [= <-]. exists [], t. split; [by rewrite app_nil_r|]. split; [done|]. intros. by rewrite app_nil_r. }
  destruct (p_opcode p =? PACKET3_DISPATCH_DIRECT)%Z.
  - destruct (negb _); [done|]. destruct (p_body p) as [|x [|y [|z rest]]]; try done. cbn.
    intros [= <-]. by eexists [_], threads.
  - intros [= <-]. exists [], threads. split; [by rewrite app_nil_r|]. split; [done|]. intros. by rewrite app_nil_r.
Qed.

Lemma decode_frame cursor out threads ps s' :
  fold_at decode_step cursor (out, threads) ps = Done s' →
  ∃ new threads', s' = (out ++ new, threads') ∧ length new = count is_dispatch_packet ps ∧
    ∀ out2 cursor2, fold_at decode_step cursor2 (out2, threads) ps = Done (out2 ++ new, threads').
Proof.
  revert cursor out threads. induction ps as [|p ps IH]; intros cursor out threads; cbn [fold_at].
  { intros [= <-]. exists [], threads. split; [by rewrite app_nil_r|]. split; [done|]. intros. by rewrite app_nil_r. }
  intros H. apply bind_Done_inv in H as (s1 & H1 & H).
  destruct (decode_step_frame _ _ _ _ _ H1) as (new1 & t1 & -> & Hl1 & Hf1).
  destruct (IH _ _ _ H) as (new2 & t2 & -> & Hl2 & Hf2). exists (new1 ++ new2), t2.
  split; [by rewrite app_assoc|]. split.
  - rewrite length_app, Hl1, Hl2. unfold count. cbn [List.filter]. by destruct (is_dispatch_packet p).
  - intros out2 c2. rewrite Hf1. cbn [mbind exec_bind]. by rewrite Hf2, app_assoc.
Qed.

Lemma decode_step_dispatch out threads cursor p x y z w :
  is_dispatch_packet p = true → p_body p = [x; y; z; w] →
  decode_step (out, threads) cursor (p_header p) (p_dwords p) =
    Done (out ++ [mkDecoded (mk3 x y z) (threads_workgroup threads)], threads).
Proof.
  intros Ho%Z.eqb_eq Hb. unfold decode_step. unfold p_opcode in Ho. cbn [p_dwords tail]. by rewrite Ho, Hb.
Qed.

Lemma decode_redimension cursor threads ps1 p ps2 dimensions ds threads' :
  is_dispatch_packet p = true → length (p_body p) = 4 →
  fold_at decode_step cursor ([], threads) (ps1 ++ p :: ps2) = Done (ds, threads') →
  fold_at decode_step cursor ([], threads) (ps1 ++ redimension dimensions p :: ps2) =
    Done (alter (λ d, mkDecoded dimensions (dd_workgroup d)) (count is_dispatch_packet ps1) ds, threads').
Proof.
  intros Hp Hl. rewrite !fold_at_app. intros H. apply bind_Done_inv in H as (s1 & H1 & H). rewrite H1.
  cbn [mbind exec_bind fold_at]. apply decode_frame in H1 as (new1 & t1 & -> & Hl1 & _). cbn [app fold_at] in H |- *.
  destruct (p_body p) as [|x [|y [|z [|w [|]]]]] eqn:Hb; [done..| |done].
  rewrite (decode_step_dispatch _ _ _ _ _ _ _ _ Hp Hb) in H. cbn [mbind exec_bind] in H.
  rewrite (decode_step_dispatch _ _ _ (redimension dimensions p) (a3_x dimensions) (a3_y dimensions) (a3_z dimensions) w)
    by (done || by cbn [redimension p_body]; rewrite Hb).
  cbn [mbind exec_bind]. apply decode_frame in H as (new2 & t2 & Heq & _ & Hf). injection Heq as -> ->.
  rewrite Hf, <-!app_assoc, <-Hl1. cbn [app]. do 2 f_equal.
  clear. induction new1 as [|d new1 IH]; [by destruct dimensions|]. cbn [length app]. by rewrite IH.
Qed.

(** Same positions, same shapes. *)
Lemma redimension_offsets cursor ps1 p ps2 dimensions :
  length (p_body p) = 4 →
  dispatch_offsets cursor (ps1 ++ redimension dimensions p :: ps2) = dispatch_offsets cursor (ps1 ++ p :: ps2).
Proof.
  intros Hl. revert cursor. induction ps1 as [|q ps1 IH]; intros cursor; cbn [app dispatch_offsets]; [|by rewrite IH].
  rewrite redimension_dispatch. do 3 f_equal. cbn [redimension p_dwords p_header p_body length].
  rewrite length_app, length_drop, Hl. done.
Qed.

Lemma redimension_shaped ps1 p ps2 dimensions :
  length (p_body p) = 4 → Forall dispatch_shaped (ps1 ++ p :: ps2) →
  Forall dispatch_shaped (ps1 ++ redimension dimensions p :: ps2).
Proof.
  intros Hl. rewrite !Forall_app, !Forall_cons. intros (H1 & _ & H2). split; [done|]. split; [|done].
  intros _. cbn [redimension p_body]. by rewrite length_app, length_drop, Hl.
Qed.
