(* ===== verification/AqlSubmitOk.v ===== *)
(** * Facts about submissions

    What each step of a submission does to the queues of a set: preparing
    publishes batches without ringing, ringing makes whole batches visible, an
    error leaves no prepared doorbell. *)

From stdpp Require Import functions.
From S2P Require Import Prelude Packet Device AqlQueue AqlGraph AqlGraphOk AqlRing AqlSubmit.

(** ** Queues *)

(** A queue after an attempt to inactivate it. *)
Definition deactivated (q q' : AqlQueue) : Prop :=
  q' = q ∨ q' = mkAql (aq_id q) (aq_size q) false (aq_slots q) (aq_write q) (aq_doorbell q).

(** A queue after [prepare_batch] succeeded. *)
Definition lane_prepared (q : AqlQueue) (batch : list PacketImage) (q' : AqlQueue) : Prop :=
  (batch = [] ∧ q' = q) ∨ (batch ≠ [] ∧ q' = (publish_batch q batch).1).

Definition doorbell_for (batch : list PacketImage) (q' : AqlQueue) : option Z :=
  if is_empty batch then None else Some (as_i64 (aq_write q' - 1)).

(** What preparing a lane needs. *)
Record lane_fits (q : AqlQueue) (batch : list PacketImage) : Prop := {
  lf_ring : ring_wf q;
  lf_images : Forall image_wf batch;
  lf_size : (Z.of_nat (length batch) ≤ aq_size q)%Z
}.

Lemma deactivated_refl q : deactivated q q.
Proof. by left. Qed.

Lemma inactivate_deactivated q status : deactivated q (inactivate q status).1.
Proof.
  unfold inactivate. destruct (aq_active q); cbn [negb]; [|by left].
  unfold check_status. destruct (status =? 0)%Z; [by right|by left].
Qed.

(** A successful inactivation leaves the queue inactive. *)
Lemma inactivate_Ok q status u : (inactivate q status).2 = Ok u → aq_active (inactivate q status).1 = false.
Proof.
  unfold inactivate. destruct (aq_active q) eqn:Ha; cbn [negb]; [|done].
  unfold check_status. by destruct (status =? 0)%Z.
Qed.

Lemma ring_wf_deactivated q q' : deactivated q q' → ring_wf q → ring_wf q'.
Proof. intros [->| ->]; [done|]. intros []. by split. Qed.

Lemma doorbell_publish q batch :
  batch ≠ [] → (publish_batch q batch).2 = as_i64 (aq_write (publish_batch q batch).1 - 1).
Proof.
  intros _. unfold publish_batch, as_i64, wrapping_add. cbn [fst snd aq_write].
  by rewrite Zmod_mod, Zminus_mod_idemp_l, Z.add_sub_assoc.
Qed.

(** [prepare_batch] on a lane that fits. *)
Lemma prepare_batch_ok q batch fault ps :
  lane_fits q batch →
  match prepare_batch q batch fault ps with
  | (_, Panic) => False
  | (q', Fail _) => q' = q
  | (q', Done doorbell) =>
      aq_active q = true ∧ lane_prepared q batch q' ∧ doorbell = doorbell_for batch q'
  end.
Proof.
  intros [Hq Hp Hn]. unfold prepare_batch, lane_prepared, doorbell_for.
  destruct (Z.ltb_spec (aq_size q) (Z.of_nat (length batch))); [lia|].
  unfold ensure_active. destruct (aq_active q) eqn:Ha; cbn [mbind result_bind]; [|done].
  destruct (check_fault q fault) as [u|e]; [|done].
  destruct (is_empty batch) eqn:He.
  { apply is_empty_true in He. subst batch. split; [done|]. split; [by left|done]. }
  apply is_empty_false in He. destruct (wait_for_capacity q _ ps) as [u'|e]; [|done].
  pose proof (doorbell_publish q batch He) as Hd.
  destruct (publish_batch q batch) as [q' doorbell]. cbn [fst snd] in *.
  split; [done|]. split; [by right|]. by f_equal.
Qed.

Lemma lane_prepared_wf q batch q' : lane_fits q batch → lane_prepared q batch q' → ring_wf q'.
Proof.
  intros [Hq Hp Hn] [[_ ->]|[_ ->]]; [done|]. by apply publish_batch_wf.
Qed.

(** ** Queue sets *)

Lemma inactivate_all_lookup s statuses lane q :
  set_queues s !! lane = Some q →
  set_queues (inactivate_all s statuses).1 !! lane = Some (inactivate q (statuses lane)).1.
Proof.
  intros Hq. unfold inactivate_all. cbn [fst set_queues].
  by rewrite list_lookup_fmap, list_lookup_imap, Hq.
Qed.

Lemma inactivate_all_length s statuses :
  length (set_queues (inactivate_all s statuses).1) = length (set_queues s).
Proof. unfold inactivate_all. cbn [fst set_queues]. by rewrite length_fmap, length_imap. Qed.

Lemma first_error_Ok {E} (rs : list (result E unit)) u : first_error rs = Ok u → Forall (λ r, r = Ok tt) rs.
Proof.
  induction rs as [|[[]|e] rs IH]; simpl; [constructor| |done]. intros H. constructor; [done|by apply IH].
Qed.

(** When every attempt succeeded, every queue is inactive. *)
Lemma inactivate_all_Ok s statuses u :
  (inactivate_all s statuses).2 = Ok u →
  ∀ lane q, set_queues (inactivate_all s statuses).1 !! lane = Some q → aq_active q = false.
Proof.
  intros H lane q Hq. unfold inactivate_all in *. cbn [fst snd set_queues] in *.
  apply first_error_Ok in H. rewrite list_lookup_fmap in Hq.
  destruct (imap _ _ !! lane) as [[q' r]|] eqn:Hl; [|done]. injection Hq as <-.
  assert (r = Ok tt) as ->.
  { eapply (Forall_lookup_1 _ _ lane _ H). by rewrite list_lookup_fmap, Hl. }
  rewrite list_lookup_imap in Hl. destruct (set_queues s !! lane) as [q0|]; [|done]. injection Hl as Hl.
  pose proof (inactivate_Ok q0 (statuses lane) tt) as Hi. rewrite Hl in Hi. by apply Hi.
Qed.

(** A set whose queues were perhaps inactivated, with nothing prepared. *)
Record settled (s s' : QueueSet) : Prop := {
  st_length : length (set_queues s') = length (set_queues s);
  st_queue lane q : set_queues s !! lane = Some q →
    ∃ q', set_queues s' !! lane = Some q' ∧ deactivated q q';
  st_prepared : set_prepared s' = replicate (length (set_prepared s)) None
}.

Lemma no_doorbells_replicate prepared : no_doorbells prepared = replicate (length prepared) None.
Proof. unfold no_doorbells. induction prepared as [|d l IH]; [done|]. simpl. by f_equal. Qed.

Lemma inactivate_all_settled s statuses : settled s (inactivate_all s statuses).1.
Proof.
  split; [apply inactivate_all_length| |apply no_doorbells_replicate].
  intros lane q Hq. eexists. split; [by apply inactivate_all_lookup|apply inactivate_deactivated].
Qed.

Lemma after_error_settled s statuses e : settled s (inactivate_after_error s statuses e).1.
Proof.
  unfold inactivate_after_error. pose proof (inactivate_all_settled s statuses) as H.
  by destruct (inactivate_all s statuses) as [s' []].
Qed.

(** ** Preparing *)

Definition lanes_fit (s : QueueSet) (lanes : list (nat * list PacketImage)) : Prop :=
  ∀ lane batch, (lane, batch) ∈ lanes →
    lane < length (set_prepared s) ∧ ∃ q, set_queues s !! lane = Some q ∧ lane_fits q batch.

(** Every lane of the list is prepared, and no other queue has changed. *)
Record prepared_set (s s' : QueueSet) (lanes : list (nat * list PacketImage)) : Prop := {
  ps_length : length (set_queues s') = length (set_queues s);
  ps_doorbells : length (set_prepared s') = length (set_prepared s);
  ps_other lane : lane ∉ lanes.*1 →
    set_queues s' !! lane = set_queues s !! lane ∧ set_prepared s' !! lane = set_prepared s !! lane;
  ps_lane lane batch q : (lane, batch) ∈ lanes → set_queues s !! lane = Some q →
    aq_active q = true ∧ ∃ q', set_queues s' !! lane = Some q' ∧ lane_prepared q batch q' ∧
      set_prepared s' !! lane = Some (doorbell_for batch q')
}.

(** Some lanes are prepared, all queues were perhaps inactivated, and nothing
    is prepared any more. *)
Record failed_set (s s' : QueueSet) (lanes : list (nat * list PacketImage)) : Prop := {
  fs_length : length (set_queues s') = length (set_queues s);
  fs_doorbells : set_prepared s' = replicate (length (set_prepared s)) None;
  fs_queue lane q : set_queues s !! lane = Some q →
    ∃ q1 q', set_queues s' !! lane = Some q' ∧ deactivated q1 q' ∧
      (q1 = q ∨ ∃ batch, (lane, batch) ∈ lanes ∧ lane_prepared q batch q1)
}.

Lemma settled_failed s s' lanes : settled s s' → failed_set s s' lanes.
Proof.
  intros [Hl Hq Hp]. split; [done|done|]. intros lane q Hlane.
  destruct (Hq lane q Hlane) as (q' & Hq' & Hd). exists q, q'. split; [done|]. split; [done|by left].
Qed.

(** One more lane in front. *)
Lemma prepared_cons s s1 s' lane batch lanes q q' prepared :
  set_queues s !! lane = Some q → aq_active q = true → lane_prepared q batch q' →
  s1 = mkSet (<[lane:=q']> (set_queues s)) prepared → vec_set (set_prepared s) lane (doorbell_for batch q') = Some prepared →
  lane ∉ lanes.*1 → prepared_set s1 s' lanes → prepared_set s s' ((lane, batch) :: lanes).
Proof.
  intros Hq Ha Hp -> [Hlt ->]%vec_set_Some Hnew [Hl Hd Ho Hlane]. cbn [set_queues set_prepared] in *.
  rewrite length_insert in Hl. rewrite length_insert in Hd. split; [done|done| |].
  - intros l Hl'. rewrite fmap_cons, elem_of_cons in Hl'. cbn [fst] in Hl'.
    destruct (Ho l) as [-> ->]; [tauto|]. rewrite !list_lookup_insert_ne by (intros ->; tauto). done.
  - intros l b q0 [[= -> ->]|Hin]%elem_of_cons Hq0.
    + simplify_eq. split; [done|]. exists q'. destruct (Ho lane Hnew) as [-> ->].
      rewrite !list_lookup_insert_eq by (first [done|by eapply lookup_lt_Some]). done.
    + assert (lane ≠ l) as Hne.
      { intros ->. apply Hnew, list_elem_of_fmap. by exists (l, b). }
      apply (Hlane l b q0 Hin). by rewrite list_lookup_insert_ne.
Qed.

Lemma failed_cons s s1 s' lane batch lanes q q' prepared :
  set_queues s !! lane = Some q → lane_prepared q batch q' →
  s1 = mkSet (<[lane:=q']> (set_queues s)) prepared → length prepared = length (set_prepared s) →
  lane ∉ lanes.*1 → failed_set s1 s' lanes → failed_set s s' ((lane, batch) :: lanes).
Proof.
  intros Hq Hp -> Hlen Hnew [Hl Hd Hf]. cbn [set_queues set_prepared] in *.
  rewrite length_insert in Hl. split; [done|by rewrite Hd, Hlen|].
  intros l q0 Hq0. destruct (decide (l = lane)) as [->|Hne].
  - simplify_eq. destruct (Hf lane q') as (q1 & q2 & Hq2 & Hde & H1).
    { by rewrite list_lookup_insert_eq by by eapply lookup_lt_Some. }
    exists q1, q2. split; [done|]. split; [done|]. right. exists batch. split; [constructor|].
    destruct H1 as [->|(b & Hb & _)]; [done|]. exfalso. apply Hnew, list_elem_of_fmap. by exists (lane, b).
  - destruct (Hf l q0) as (q1 & q2 & Hq2 & Hde & H1); [by rewrite list_lookup_insert_ne|].
    exists q1, q2. split; [done|]. split; [done|]. destruct H1 as [->|(b & Hb & H1)]; [by left|].
    right. exists b. split; [by constructor|done].
Qed.

Lemma prepare_lanes_ok env lanes : ∀ s, NoDup lanes.*1 → lanes_fit s lanes →
  match prepare_lanes env s lanes with
  | (_, Panic) => False
  | (s', Fail _) => failed_set s s' lanes
  | (s', Done _) => prepared_set s s' lanes
  end.
Proof.
  induction lanes as [|[lane batch] lanes IH]; intros s Hnd Hfit; cbn [prepare_lanes].
  { split; [done|done|done|]. intros lane batch q Hin. by apply elem_of_nil in Hin. }
  rewrite fmap_cons, NoDup_cons in Hnd. cbn [fst] in Hnd. destruct Hnd as [Hnew Hnd].
  destruct (Hfit lane batch) as (Hlt & q & Hq & Hlf); [constructor|]. rewrite Hq.
  pose proof (prepare_batch_ok q batch (pe_lane_faults env lane) (pe_polls env lane) Hlf) as Hb.
  destruct (prepare_batch _ _ _ _) as [q' [doorbell|e|]]; [|subst q'|done].
  - destruct Hb as (Ha & Hp & ->). cbn [set_queues set_prepared]. rewrite vec_set_lt by done.
    set (s1 := mkSet _ _). specialize (IH s1 Hnd).
    assert (lanes_fit s1 lanes) as Hfit1.
    { intros l b Hin. destruct (Hfit l b) as (Hl & q0 & Hq0 & Hf0); [by constructor|].
      unfold s1; cbn [set_queues set_prepared]. rewrite length_insert. split; [done|]. exists q0.
      rewrite list_lookup_insert_ne; [done|]. intros ->. apply Hnew, list_elem_of_fmap. by exists (l, b). }
    specialize (IH Hfit1). destruct (prepare_lanes env s1 lanes) as [s' [u|e|]]; [| |done].
    + eapply prepared_cons; [done|done|done|reflexivity|by apply vec_set_lt|done|done].
    + eapply failed_cons; [done|done|reflexivity|by rewrite length_insert|done|done].
  - cbn [set_queues set_prepared]. rewrite (list_insert_id (set_queues s) lane q Hq).
    pose proof (after_error_settled (mkSet (set_queues s) (no_doorbells (set_prepared s))) (pe_statuses env) e) as H.
    destruct (inactivate_after_error _ _ _) as [s' e']. apply settled_failed.
    destruct H as [Hl Hqs Hp]. cbn [fst set_queues set_prepared] in *.
    split; [done|done|]. rewrite Hp. unfold no_doorbells. by rewrite length_fmap.
Qed.

Lemma prepare_batches_ok s bs env :
  length bs = length (set_queues s) → set_prepared s = replicate (length bs) None →
  (∀ lane batch q, bs !! lane = Some batch → set_queues s !! lane = Some q → lane_fits q batch) →
  match prepare_batches s bs env with
  | (_, Panic) => False
  | (s', Fail _) => failed_set s s' (enumerate bs)
  | (s', Done _) => prepared_set s s' (enumerate bs)
  end.
Proof.
  intros Hl Hp Hfit. unfold prepare_batches. rewrite Hl, Nat.eqb_refl. cbn [negb].
  assert (forallb (λ d, bool_decide (d = None)) (set_prepared s) = true) as ->.
  { rewrite Hp. apply forallb_forall. intros d Hd%list_elem_of_In%elem_of_replicate. by destruct Hd as [-> _]. }
  cbn [negb]. destruct (check_faults s (pe_faults env)) as [u|e].
  - apply prepare_lanes_ok.
    + rewrite enumerate_fst. apply NoDup_seq.
    + intros lane batch Hin%elem_of_enumerate. apply lookup_lt_Some in Hin as Hlt.
      rewrite Hp, length_replicate. split; [done|].
      destruct (lookup_lt_is_Some_2 (set_queues s) lane) as [q Hq]; [lia|]. exists q. eauto.
  - pose proof (after_error_settled s (pe_statuses env) e) as H.
    destruct (inactivate_after_error _ _ _) as [s' e']. by apply settled_failed.
Qed.

(** ** Ringing *)

Definition rung (q : AqlQueue) (doorbell : option Z) : AqlQueue :=
  match doorbell with Some final_packet_id => ring q final_packet_id | None => q end.

Lemma ring_lanes_zip queues doorbells :
  length queues = length doorbells →
  ring_lanes queues doorbells = (zip_with rung queues doorbells, replicate (length doorbells) None).
Proof.
  revert doorbells. induction queues as [|q queues IH]; intros [|d doorbells] Hl; [done..|].
  cbn [ring_lanes]. rewrite IH by (simpl in Hl; lia). done.
Qed.

(** An error after preparing. *)
Lemma prepared_settled s s1 s2 bs :
  length bs = length (set_queues s) → prepared_set s s1 (enumerate bs) →
  settled (mkSet (set_queues s1) (no_doorbells (set_prepared s1))) s2 → failed_set s s2 (enumerate bs).
Proof.
  intros Hlen [Hl Hd _ Hlane] [Hl2 Hq2 Hp2]. cbn [set_queues set_prepared] in *.
  unfold no_doorbells in Hp2. rewrite length_fmap in Hp2.
  split; [congruence|by rewrite Hp2, Hd|]. intros lane q Hq.
  destruct (lookup_lt_is_Some_2 bs lane) as [batch Hb].
  { rewrite Hlen. by eapply lookup_lt_Some. }
  destruct (Hlane lane batch q) as (_ & q1 & Hq1 & Hp & _); [by apply elem_of_enumerate|done|].
  destruct (Hq2 lane q1 Hq1) as (q' & Hq' & Hde). exists q1, q'. split; [done|]. split; [done|].
  right. exists batch. split; [by apply elem_of_enumerate|done].
Qed.

(** The queues of a set whose batches are prepared and rung. *)
Record submitted_set (s s' : QueueSet) (bs : batches) : Prop := {
  ss_length : length (set_queues s') = length (set_queues s);
  ss_doorbells : set_prepared s' = replicate (length (set_prepared s)) None;
  ss_lane lane batch q : bs !! lane = Some batch → set_queues s !! lane = Some q →
    aq_active q = true ∧ ∃ q', lane_prepared q batch q' ∧
      set_queues s' !! lane = Some (rung q' (doorbell_for batch q'))
}.

Lemma ring_prepared_ok s s1 bs faults statuses :
  length bs = length (set_queues s) → length (set_prepared s) = length (set_queues s) →
  prepared_set s s1 (enumerate bs) →
  match ring_prepared s1 faults statuses with
  | (s2, Err _) => failed_set s s2 (enumerate bs)
  | (s2, Ok _) => submitted_set s s2 bs
  end.
Proof.
  intros Hlen Hlp Hp. unfold ring_prepared. destruct (check_faults s1 faults) as [u|e].
  - destruct Hp as [Hl Hd _ Hlane]. rewrite ring_lanes_zip by congruence.
    split; cbn [set_queues set_prepared].
    + rewrite length_zip_with. lia.
    + by rewrite Hd.
    + intros lane batch q Hb Hq.
      destruct (Hlane lane batch q) as (Ha & q' & Hq' & Hpq & Hdb); [by apply elem_of_enumerate|done|].
      split; [done|]. exists q'. split; [done|]. by rewrite lookup_zip_with, Hq', Hdb.
  - pose proof (after_error_settled (mkSet (set_queues s1) (no_doorbells (set_prepared s1))) statuses e) as H.
    destruct (inactivate_after_error _ _ _) as [s2 e']. by eapply prepared_settled.
Qed.
