(* ===== verification/AqlSession.v ===== *)
(** * Sessions: a graph, its queues and the device

    The life of a submitted graph: calls of [AqlSubmit] on the host interleave
    with steps of the packet processors, which read packets from the ring slots
    up to the doorbell.  The invariant of all sessions: nothing is reset or
    republished under a running batch. *)

From stdpp Require Import gmap functions.
From S2P Require Import Prelude Packet Device AqlQueue AqlGraph AqlGraphOk AqlDerivedOk AqlRing AqlSubmit AqlSubmitOk.

(** ** What a graph brings *)

(** Batches that a graph can submit: the packets they hold, the signals reset
    before each submission, and the final signal, which covers everything. *)
Record submittable (bs : batches) (resets : list Z) (final : Z) (prog : list (list packet_view)) : Prop := {
  su_views : views bs = Some prog;
  su_images : Forall (Forall image_wf) bs;
  su_signals q v : packet_at prog q = Some v → pv_completion v = 0%Z ∨ pv_completion v ∈ resets;
  su_deps q v deps s : packet_at prog q = Some v → pv_kind v = BarrierAnd deps → s ∈ deps → s ∈ resets;
  su_final : ∃ q, signals_only prog final q;
  su_covers st : rtc (aql_step prog) queues_start st → qs_signals st final = 0%Z → all_complete prog st;
  su_ends st : rtc (aql_step prog) queues_start st → runs_to_end prog final st
}.

(** ** The device *)

Record world := mkWorld { w_graph : GraphState; w_device : queues }.

Definition w_queues (w : world) : list AqlQueue := set_queues (gs_queues (w_graph w)).

(** The [n] packets published last, as the packet processor reads them from
    the ring. *)
Definition ring_lane (q : AqlQueue) (n : nat) : option (list packet_view) :=
  mapM (λ i, slot ← aq_slots q !! slot_index (aq_size q) (wrapping_sub 64 (aq_write q) (Z.of_nat (n - i)));
             view_packet slot) (seq 0 n).

Definition ring_program (bs : batches) (queues : list AqlQueue) : option (list (list packet_view)) :=
  mapM (λ '(q, batch), ring_lane q (length batch)) (zip queues bs).

(** A queue processes what was published last once its doorbell says so, until
    it is inactivated. *)
Definition lane_live (q : AqlQueue) : Prop :=
  aq_active q = true ∧ last (aq_doorbell q) = Some (as_i64 (aq_write q - 1)).

Definition live_at (w : world) (lane : nat) : Prop := ∃ q, w_queues w !! lane = Some q ∧ lane_live q.

(** Packets that a step launches or completes. *)
Definition touched (st st' : queues) (p : packet_id) : Prop :=
  (p ∈ qs_launched st' ∧ p ∉ qs_launched st) ∨ (p ∈ qs_completed st' ∧ p ∉ qs_completed st).

Inductive device_step (bs : batches) : relation world :=
| dev_step g st st' prog :
    ring_program bs (set_queues (gs_queues g)) = Some prog → aql_step prog st st' →
    (∀ p, touched st st' p → live_at (mkWorld g st) p.1) →
    device_step bs (mkWorld g st) (mkWorld g st').

(** Publication makes the packets of a lane new. *)
Definition republished (g g' : GraphState) (lane : nat) : Prop :=
  aq_write <$> set_queues (gs_queues g') !! lane ≠ aq_write <$> set_queues (gs_queues g) !! lane.

#[export] Instance republished_dec g g' lane : Decision (republished g g' lane).
Proof. unfold republished. apply _. Defined.

Definition renew (g g' : GraphState) (ps : gset packet_id) : gset packet_id :=
  filter (λ p, ¬ republished g g' p.1) ps.

(** Values of the final signal that a polling host observes while the device
    runs. *)
Inductive observed (bs : batches) (final : Z) : world → list wait_poll → world → Prop :=
| obs_nil w : observed bs final w [] w
| obs_poll w p ps w1 w2 :
    rtc (device_step bs) w w1 → wp_value p = qs_signals (w_device w1) final →
    observed bs final w1 ps w2 → observed bs final w (p :: ps) w2.

(** ** Sessions *)

Inductive session_step (bs : batches) (resets : list Z) (final : Z) : relation world :=
| ss_device w w' : device_step bs w w' → session_step bs resets final w w'
| ss_submit g st env g' signals out :
    submit resets bs g (qs_signals st) env = (g', signals, out) →
    session_step bs resets final (mkWorld g st)
      (mkWorld g' (mkQueueState (renew g g' (qs_launched st)) (renew g g' (qs_completed st)) signals))
| ss_ticket w t w1 :
    match t with
    | TicketWait ps _ => observed bs final w (pl_before ps ++ [pl_deadline ps]) w1
    | _ => w1 = w
    end →
    session_step bs resets final w (mkWorld (end_ticket final (w_graph w1) t).1 (w_device w1)).

(** A graph as created: its queues are new. *)
Record initial (sizes : list Z) (bs : batches) (w : world) : Prop := {
  in_length : length bs = length sizes;
  in_sizes : aq_size <$> w_queues w = sizes;
  in_rings : Forall ring_wf (w_queues w);
  in_new : Forall (λ q, aq_active q = true ∧ aq_doorbell q = []) (w_queues w);
  in_prepared : set_prepared (gs_queues (w_graph w)) = replicate (length bs) None;
  in_flags : gs_in_flight (w_graph w) = false ∧ gs_usable (w_graph w) = true;
  in_device : qs_launched (w_device w) = ∅ ∧ qs_completed (w_device w) = ∅
}.

(** No packet of a live queue is left to process. *)
Definition quiescent (bs : batches) (w : world) : Prop :=
  ∀ lane batch i, live_at w lane → bs !! lane = Some batch → i < length batch →
    (lane, i) ∈ qs_launched (w_device w) ∧ (lane, i) ∈ qs_completed (w_device w).

Definition starting (signals : Z → Z) : queues := mkQueueState ∅ ∅ signals.

(** The batches run from signals that the resets have set. *)
Definition running (bs : batches) (resets : list Z) (prog : list (list packet_view)) (w : world) : Prop :=
  ring_program bs (w_queues w) = Some prog ∧
  ∃ signals, (∀ s, s ∈ resets → signals s = 1%Z) ∧ rtc (aql_step prog) (starting signals) (w_device w).

Record session (sizes : list Z) (bs : batches) (resets : list Z) (prog : list (list packet_view)) (w : world) : Prop := {
  sn_sizes : aq_size <$> w_queues w = sizes;
  sn_rings : Forall ring_wf (w_queues w);
  sn_prepared : set_prepared (gs_queues (w_graph w)) = replicate (length bs) None;
  sn_usable : gs_usable (w_graph w) = true → Forall (λ q, aq_active q = true) (w_queues w);
  sn_rung : gs_usable (w_graph w) = true →
    Forall (λ q, aq_doorbell q = [] ∨ last (aq_doorbell q) = Some (as_i64 (aq_write q - 1))) (w_queues w);
  sn_bound p : p ∈ qs_launched (w_device w) ∨ p ∈ qs_completed (w_device w) →
    ∃ batch, bs !! p.1 = Some batch ∧ p.2 < length batch;
  sn_idle : gs_in_flight (w_graph w) = false → quiescent bs w;
  sn_running : gs_in_flight (w_graph w) = true → running bs resets prog w;
  sn_live lane batch : gs_in_flight (w_graph w) = true → gs_usable (w_graph w) = true →
    bs !! lane = Some batch → batch ≠ [] → live_at w lane
}.

(** ** Runs from reset signals *)

Section reset_runs.
Context (bs : batches) (resets : list Z) (final : Z) (prog : list (list packet_view)).
Context (Hsub : submittable bs resets final prog).

(** Same packets, and the same values of the signals that are reset. *)
Record agree (st st' : queues) : Prop := {
  ag_launched : qs_launched st = qs_launched st';
  ag_completed : qs_completed st = qs_completed st';
  ag_signals s : s ∈ resets → qs_signals st s = qs_signals st' s
}.

Lemma agree_step st1 st1' st2 :
  aql_step prog st1 st1' → agree st1 st2 → ∃ st2', aql_step prog st2 st2' ∧ agree st1' st2'.
Proof using Hsub.
  intros Hstep [Hl Hc Hs]. destruct Hstep as [st l i v Hv Hn Hord Hand Hbar|st q v Hv Hq Hn Hdeps].
  - eexists. split; [apply (aql_launch _ st2 l i v Hv)|]; rewrite <-?Hl, <-?Hc; [done..|].
    split; cbn [qs_launched qs_completed qs_signals]; [by rewrite Hl|by rewrite Hc|done].
  - eexists. split; [apply (aql_complete _ st2 q v Hv)|]; rewrite <-?Hl, <-?Hc; [done..| |].
    + intros deps s Hk Hin. rewrite <-Hs; [by eapply Hdeps|by eapply (su_deps _ _ _ _ Hsub)].
    + split; cbn [qs_launched qs_completed qs_signals]; [by rewrite Hl|by rewrite Hc|].
      intros s Hin. destruct (decide (pv_completion v = 0%Z)) as [->|Hnz].
      { unfold signal_complete. simpl. by apply Hs. }
      destruct (decide (pv_completion v = s)) as [<-|Hne].
      * rewrite !signal_complete_eq by done. by rewrite Hs.
      * rewrite !signal_complete_ne by done. by apply Hs.
Qed.

Lemma agree_run signals st :
  (∀ s, s ∈ resets → signals s = 1%Z) → rtc (aql_step prog) (starting signals) st →
  ∃ st', rtc (aql_step prog) queues_start st' ∧ agree st st'.
Proof using Hsub.
  intros Hone Hst.
  apply (rtc_ind_r (R := aql_step prog) (λ st, ∃ st', rtc (aql_step prog) queues_start st' ∧ agree st st') (starting signals)); [| |done].
  - exists queues_start. split; [apply rtc_refl|]. by split.
  - intros x y _ Hxy (x' & Hx' & Hag). destruct (agree_step _ _ _ Hxy Hag) as (y' & Hy' & Hag').
    exists y'. split; [by eapply rtc_r|done].
Qed.

Lemma final_reset : final ∈ resets.
Proof using Hsub.
  destruct (su_final _ _ _ _ Hsub) as (q & Hnz & (v & Hv & Hc) & _).
  destruct (su_signals _ _ _ _ Hsub q v Hv) as [H|H]; [congruence|by rewrite <-Hc].
Qed.

(** Facts of runs, for runs from reset signals. *)
Lemma reset_run_facts signals st :
  (∀ s, s ∈ resets → signals s = 1%Z) → rtc (aql_step prog) (starting signals) st →
  (∀ p, p ∈ qs_completed st → p ∈ qs_launched st) ∧
  ((qs_signals st final < 1)%Z → all_complete prog st).
Proof using Hsub.
  intros Hone Hst. destruct (agree_run signals st Hone Hst) as (st' & Hst' & [Hl Hc Hs]).
  pose proof (queues_reachable _ _ Hst') as Hinv. split.
  - intros p. rewrite Hl, Hc. apply (qn_completed _ _ Hinv).
  - rewrite (Hs final final_reset). intros Hlt q Hq. rewrite Hc. revert q Hq.
    apply (su_covers _ _ _ _ Hsub); [done|].
    destruct (su_final _ _ _ _ Hsub) as (q & Hq). rewrite (qn_signal _ _ Hinv _ _ Hq) in *.
    by case_decide.
Qed.
End reset_runs.
