(* ===== verification/AqlSessionOk.v ===== *)
(** * The invariant of sessions

    Every step of a session, on the host or the device, keeps [session]. *)

From stdpp Require Import gmap functions.
From S2P Require Import Prelude Packet Device AqlQueue AqlGraph AqlGraphOk AqlDerivedOk AqlRing AqlSubmit AqlSubmitOk AqlSession.

(** ** Published lanes *)

Lemma as_i64_mod a b : as_i64 a = as_i64 b → (a mod 2 ^ 64 = b mod 2 ^ 64)%Z.
Proof.
  unfold as_i64. pose proof (Z.mod_pos_bound a (2 ^ 64)). pose proof (Z.mod_pos_bound b (2 ^ 64)).
  destruct (Z.ltb_spec (a mod 2 ^ 64) (2 ^ 63)), (Z.ltb_spec (b mod 2 ^ 64) (2 ^ 63)); lia.
Qed.

Lemma mod_shift_ne w n : (0 < n < 2 ^ 64)%Z → ((w + n) mod 2 ^ 64 ≠ w mod 2 ^ 64)%Z.
Proof.
  intros Hn Heq. assert (((w + n) - w) mod 2 ^ 64 = 0)%Z as H0.
  { rewrite Zminus_mod, Heq, Z.sub_diag. done. }
  replace (w + n - w)%Z with n in H0 by lia. rewrite Z.mod_small in H0; lia.
Qed.

(** A publication moves the write index and leaves the doorbell behind. *)
Lemma publish_moves q batch :
  lane_fits q batch → batch ≠ [] →
  aq_write (publish_batch q batch).1 ≠ aq_write q ∧
  as_i64 (aq_write (publish_batch q batch).1 - 1) ≠ as_i64 (aq_write q - 1).
Proof.
  intros [Hq _ Hn] Hne. pose proof (size_bounds _ (rw_size _ Hq)).
  assert (0 < length batch) by (destruct batch; simpl; [done|lia]).
  assert (0 < Z.of_nat (length batch) < 2 ^ 64)%Z as Hb by lia.
  cbn [publish_batch fst aq_write]. unfold wrapping_add. split.
  - pose proof (rw_write _ Hq) as Hw. unfold in_u, umax in Hw.
    intros Heq. apply (mod_shift_ne (aq_write q) _ Hb). rewrite Heq, Z.mod_small; lia.
  - intros Heq%as_i64_mod. rewrite Zminus_mod_idemp_l in Heq.
    apply (mod_shift_ne (aq_write q - 1) _ Hb).
    by replace (aq_write q - 1 + Z.of_nat (length batch))%Z
      with (aq_write q + Z.of_nat (length batch) - 1)%Z by lia.
Qed.

Lemma mapM_indices {A B} (f : nat → option B) (g : A → option B) (l : list A) :
  (∀ i x, l !! i = Some x → f i = g x) → mapM f (seq 0 (length l)) = mapM g l.
Proof.
  cut (∀ j, (∀ i x, l !! i = Some x → f (j + i) = g x) → mapM f (seq j (length l)) = mapM g l);
    [intros H; apply (H 0)|].
  induction l as [|x l IH]; intros j H; [done|]. cbn [length seq mapM].
  rewrite <-(H 0 x eq_refl), Nat.add_0_r, (IH (S j)); [done|].
  intros i y Hi. rewrite Nat.add_succ_l, <-Nat.add_succ_r. by apply H.
Qed.

(** The ring of a published lane holds the packets of its batch. *)
Lemma ring_lane_published q batch q' :
  lane_fits q batch → lane_prepared q batch q' →
  ring_lane q' (length batch) = mapM (λ image, view_packet (img_bytes image)) batch.
Proof.
  intros [Hq Hp Hn] [[-> ->]|[Hne ->]]; [done|].
  destruct (publish_batch_wf q batch Hq Hp Hn) as [_ Hpub].
  assert (∀ i image, batch !! i = Some image →
    aq_slots (publish_batch q batch).1 !! slot_index (aq_size (publish_batch q batch).1)
      (wrapping_sub 64 (aq_write (publish_batch q batch).1) (Z.of_nat (length batch - i)))
    = Some (img_bytes image)) as Hslot.
  { intros i image Hi. rewrite <-(pb_packet _ _ _ _ _ Hpub i image Hi). f_equal.
    apply lookup_lt_Some in Hi. unfold publish_batch, wrapping_sub, wrapping_add.
    cbn [fst aq_write aq_size]. f_equal. rewrite Zminus_mod_idemp_l. f_equal. lia. }
  unfold ring_lane. apply mapM_indices. intros i image Hi. by rewrite (Hslot i image Hi).
Qed.

(** ** Queues that are inactivated or published *)

Lemma sizes_preserved (queues queues' : list AqlQueue) :
  length queues' = length queues →
  (∀ lane q q', queues !! lane = Some q → queues' !! lane = Some q' → aq_size q' = aq_size q) →
  aq_size <$> queues' = aq_size <$> queues.
Proof.
  intros Hl Hq. apply list_eq. intros lane. rewrite !list_lookup_fmap.
  destruct (queues' !! lane) as [q'|] eqn:Hq'.
  - destruct (lookup_lt_is_Some_2 queues lane) as [q Hlane].
    { rewrite <-Hl. by eapply lookup_lt_Some. }
    rewrite Hlane. simpl. f_equal. by eapply Hq.
  - apply lookup_ge_None in Hq'. by rewrite lookup_ge_None_2 by lia.
Qed.

Lemma deactivated_active q q' : deactivated q q' → aq_active q' = true → q' = q.
Proof. by intros [->| ->]. Qed.

Lemma deactivated_size q q' : deactivated q q' → aq_size q' = aq_size q.
Proof. by intros [->| ->]. Qed.

Lemma lane_prepared_size q batch q' : lane_prepared q batch q' → aq_size q' = aq_size q.
Proof. by intros [[_ ->]|[_ ->]]. Qed.

Lemma ring_wf_rung (q : AqlQueue) doorbell : ring_wf q → ring_wf (rung q doorbell).
Proof. destruct doorbell; [|done]. intros []. by split. Qed.

Lemma lane_prepared_active q batch q' : lane_prepared q batch q' → aq_active q' = aq_active q.
Proof. by intros [[_ ->]|[_ ->]]. Qed.

(** Preparing and ringing a batch makes its lane live. *)
Lemma rung_live batch q' :
  batch ≠ [] → aq_active q' = true → lane_live (rung q' (doorbell_for batch q')).
Proof.
  intros Hne Ha. unfold doorbell_for. rewrite (proj2 (is_empty_false batch) Hne).
  split; [done|]. cbn [rung ring aq_doorbell aq_write]. by rewrite last_snoc.
Qed.

Lemma ring_lane_rung q doorbell n : ring_lane (rung q doorbell) n = ring_lane q n.
Proof. by destruct doorbell. Qed.

(** A queue that was published without being rung is not live. *)
Lemma prepared_not_live q batch q' :
  lane_fits q batch → batch ≠ [] → lane_prepared q batch q' →
  (aq_doorbell q = [] ∨ last (aq_doorbell q) = Some (as_i64 (aq_write q - 1))) → ¬ lane_live q'.
Proof.
  intros Hfit Hne [[? _]|[_ ->]] Hrung [_ Hlast]; [done|]. cbn [publish_batch fst aq_doorbell] in Hlast.
  destruct Hrung as [Hnil|Hrung]; [by rewrite Hnil in Hlast|].
  rewrite Hrung in Hlast. injection Hlast as Heq.
  by apply (proj2 (publish_moves q batch Hfit Hne)).
Qed.

Section sessions.
Context (sizes : list Z) (bs : batches) (resets : list Z) (final : Z) (prog : list (list packet_view)).
Context (Hsub : submittable bs resets final prog).
Context (Hlength : length bs = length sizes).
Context (Hfits : ∀ lane batch c, bs !! lane = Some batch → sizes !! lane = Some c → (Z.of_nat (length batch) ≤ c)%Z).

Local Abbreviation session := (session sizes bs resets prog).
Local Abbreviation device_step := (device_step bs).

(** ** The device *)

Lemma ring_program_packet queues prog' lane i v :
  ring_program bs queues = Some prog' → packet_at prog' (lane, i) = Some v →
  ∃ batch, bs !! lane = Some batch ∧ i < length batch.
Proof using Type.
  unfold ring_program, packet_at. cbn [fst snd]. intros Hp%mapM_Some Hv.
  destruct (prog' !! lane) as [views|] eqn:Hviews; [|done]. cbn [mbind option_bind] in Hv.
  destruct (Forall2_lookup_r _ _ _ _ _ Hp Hviews) as ([q batch] & Hz & Hlane).
  apply lookup_zip_Some in Hz as [_ Hb]. exists batch. split; [done|].
  apply mapM_Some, Forall2_length in Hlane. rewrite length_seq in Hlane. rewrite Hlane. by eapply lookup_lt_Some.
Qed.

Lemma touched_packet prog' st st' p :
  aql_step prog' st st' → touched st st' p → is_Some (packet_at prog' p).
Proof using Type.
  intros Hstep Ht. destruct Hstep as [st l i v Hv|st q v Hv]; unfold touched in Ht; cbn in Ht.
  - destruct Ht as [[[->%elem_of_singleton|?]%elem_of_union ?]|[? ?]]; [by exists v|done..].
  - destruct Ht as [[? ?]|[[->%elem_of_singleton|?]%elem_of_union ?]]; [done|by exists v|done].
Qed.

(** A step touches a packet that was not complete. *)
Lemma step_touches prog' st st' :
  aql_step prog' st st' → ∃ p, touched st st' p ∧ ¬ (p ∈ qs_launched st ∧ p ∈ qs_completed st).
Proof using Type.
  intros [st0 l i v Hv Hn|st0 q v Hv Hl Hn]; unfold touched; cbn.
  - exists (l, i). split; [left; split; [apply elem_of_union_l, elem_of_singleton; done|done]|tauto].
  - exists q. split; [right; split; [apply elem_of_union_l, elem_of_singleton; done|done]|tauto].
Qed.

Lemma quiescent_stuck w w' : quiescent bs w → ¬ device_step w w'.
Proof using Type.
  intros Hq Hstep. destruct Hstep as [g st st' prog' Hp Hstep Hlive].
  destruct (step_touches _ _ _ Hstep) as ([lane i] & Ht & Hn).
  destruct (touched_packet _ _ _ _ Hstep Ht) as [v Hv].
  destruct (ring_program_packet _ _ _ _ _ Hp Hv) as (batch & Hb & Hi).
  apply Hn. by apply (Hq lane batch i (Hlive _ Ht)).
Qed.

Lemma aql_step_grows prog' st st' :
  aql_step prog' st st' → qs_launched st ⊆ qs_launched st' ∧ qs_completed st ⊆ qs_completed st'.
Proof using Type. by intros [|]; cbn; split; try apply union_subseteq_r. Qed.

Lemma device_session w w' : device_step w w' → session w → session w'.
Proof using Type.
  intros Hstep Hs. assert (gs_in_flight (w_graph w) = true) as Hf.
  { destruct (gs_in_flight (w_graph w)) eqn:Hf; [done|]. exfalso.
    by apply (quiescent_stuck w w' (sn_idle _ _ _ _ _ Hs Hf)). }
  destruct Hstep as [g st st' prog' Hp Hstep Hlive]. destruct Hs as [? ? ? ? ? Hb Hi Hr Hl].
  destruct (Hr Hf) as (Hprog & signals & Hone & Hrun). unfold w_queues in Hprog. cbn [w_graph w_device] in *.
  rewrite Hp in Hprog. injection Hprog as ->.
  split; cbn [w_graph w_device]; [done|done|done|done|done| |congruence| |done].
  - intros [lane i] Hin.
    destruct (decide (touched st st' (lane, i))) as [Ht|Ht].
    + destruct (touched_packet _ _ _ _ Hstep Ht) as [v Hv]. by eapply ring_program_packet.
    + apply Hb. unfold touched in Ht.
      destruct (decide ((lane, i) ∈ qs_launched st)), (decide ((lane, i) ∈ qs_completed st)); tauto.
  - intros _. split; [done|]. exists signals. split; [done|]. by eapply rtc_r.
Qed.

Lemma device_sessions w w' : rtc device_step w w' → session w → session w' ∧ w_graph w' = w_graph w.
Proof using Type.
  induction 1 as [w|w1 w2 w3 H12 _ IH]; [done|]. intros Hs.
  destruct (IH (device_session _ _ H12 Hs)) as [? ->]. split; [done|]. by destruct H12.
Qed.

(** ** Failed submissions *)

Lemma queues_length w : session w → length (w_queues w) = length bs.
Proof using Hlength. intros Hs. by rewrite Hlength, <-(sn_sizes _ _ _ _ _ Hs), length_fmap. Qed.

Lemma session_fits w lane batch q :
  session w → bs !! lane = Some batch → w_queues w !! lane = Some q → lane_fits q batch.
Proof using Hsub Hfits.
  intros Hs Hb Hq. split.
  - by apply (Forall_lookup_1 _ _ lane _ (sn_rings _ _ _ _ _ Hs)).
  - by apply (Forall_lookup_1 _ _ lane _ (su_images _ _ _ _ Hsub)).
  - apply (Hfits lane); [done|]. by rewrite <-(sn_sizes _ _ _ _ _ Hs), list_lookup_fmap, Hq.
Qed.

Lemma elem_of_renew g g' ps p : p ∈ renew g g' ps ↔ ¬ republished g g' p.1 ∧ p ∈ ps.
Proof using Type. unfold renew. by rewrite elem_of_filter. Qed.

Lemma failed_queue s s' lane q' :
  failed_set s s' (enumerate bs) → set_queues s' !! lane = Some q' →
  ∃ q q1, set_queues s !! lane = Some q ∧ deactivated q1 q' ∧
    (q1 = q ∨ ∃ batch, bs !! lane = Some batch ∧ lane_prepared q batch q1).
Proof using Type.
  intros [Hl _ Hf] Hq'. destruct (lookup_lt_is_Some_2 (set_queues s) lane) as [q Hq].
  { rewrite <-Hl. by eapply lookup_lt_Some. }
  destruct (Hf lane q Hq) as (q1 & q2 & Hq2 & Hd & H1). simplify_eq.
  exists q, q1. split; [done|]. split; [done|]. destruct H1 as [->|(batch & Hin & H1)]; [by left|].
  right. exists batch. by rewrite elem_of_enumerate in Hin.
Qed.

(** A submission that failed: nothing is rung, and the graph is unusable. *)
Lemma failed_session g st s' signals :
  session (mkWorld g st) → gs_in_flight g = false → gs_usable g = true →
  failed_set (gs_queues g) s' (enumerate bs) →
  let g' := mkState s' false false in
  session (mkWorld g' (mkQueueState (renew g g' (qs_launched st)) (renew g g' (qs_completed st)) signals)).
Proof using Hsub Hlength Hfits.
  intros Hs Hflight Husable Hfail g'. pose proof (queues_length _ Hs) as Hlen.
  pose proof (λ lane batch q, session_fits _ lane batch q Hs) as Hfit.
  destruct Hs as [Hsz Hrings Hprep _ Hrung Hbound Hidle _ _]. specialize (Hidle Hflight). specialize (Hrung Husable).
  unfold w_queues in *. cbn [w_graph w_device] in *.
  split; unfold w_queues; cbn [w_graph w_device gs_queues gs_in_flight gs_usable qs_launched qs_completed g'];
    [| | |done|done| | |done|done].
  - rewrite <-Hsz. apply sizes_preserved; [apply Hfail|]. intros lane q q' Hq Hq'.
    destruct (failed_queue _ _ _ _ Hfail Hq') as (q0 & q1 & Hq0 & ->%deactivated_size & H1). simplify_eq.
    destruct H1 as [->|(batch & _ & Hp)]; [done|by eapply lane_prepared_size].
  - apply Forall_lookup_2. intros lane q' Hq'.
    destruct (failed_queue _ _ _ _ Hfail Hq') as (q & q1 & Hq & Hd & H1).
    apply (ring_wf_deactivated _ _ Hd). destruct H1 as [->|(batch & Hb & Hp)].
    + by apply (Forall_lookup_1 _ _ lane _ Hrings).
    + by eapply lane_prepared_wf; [eapply Hfit|].
  - rewrite (fs_doorbells _ _ _ Hfail), Hprep, length_replicate. done.
  - intros p [[_ Hp]%elem_of_renew|[_ Hp]%elem_of_renew]; apply Hbound; [by left|by right].
  - intros _ lane batch i (q' & Hq' & Hlive) Hb Hi. unfold w_queues in Hq'. cbn in Hq'.
    destruct (failed_queue _ _ _ _ Hfail Hq') as (q & q1 & Hq & Hd & H1).
    apply deactivated_active in Hd; [|apply Hlive]. subst q'.
    assert (q1 = q) as ->.
    { destruct H1 as [->|(b & Hb' & Hp)]; [done|]. simplify_eq. exfalso.
      eapply prepared_not_live; [by eapply Hfit|by intros ->; simpl in Hi; lia|exact Hp| |done].
      by apply (Forall_lookup_1 _ _ lane _ Hrung). }
    cbn [w_device qs_launched qs_completed]. rewrite !elem_of_renew. cbn [fst].
    assert (¬ republished g g' lane) as Hsame.
    { unfold republished, g'. cbn [gs_queues]. rewrite Hq, Hq'. tauto. }
    destruct (Hidle lane batch i) as [Hl Hc]; [by exists q|done|done|]. done.
Qed.

(** ** Submissions *)

Lemma submitted_lookup s s' lane q' :
  length bs = length (set_queues s) → submitted_set s s' bs → set_queues s' !! lane = Some q' →
  ∃ batch q q1, bs !! lane = Some batch ∧ set_queues s !! lane = Some q ∧ aq_active q = true ∧
    lane_prepared q batch q1 ∧ q' = rung q1 (doorbell_for batch q1).
Proof using Type.
  intros Hlen [Hl _ Hlane] Hq'.
  assert (lane < length (set_queues s)) as Hlt. { rewrite <-Hl. by eapply lookup_lt_Some. }
  destruct (lookup_lt_is_Some_2 _ _ Hlt) as [q Hq]. rewrite <-Hlen in Hlt.
  destruct (lookup_lt_is_Some_2 _ _ Hlt) as [batch Hb].
  destruct (Hlane lane batch q Hb Hq) as (Ha & q1 & Hp & Hq1). simplify_eq. by exists batch, q, q1.
Qed.

(** After a submission the rings hold the program of the batches. *)
Lemma submitted_program w s' :
  session w → submitted_set (gs_queues (w_graph w)) s' bs → ring_program bs (set_queues s') = Some prog.
Proof using Hsub Hlength Hfits.
  intros Hs Hsubm. pose proof (queues_length _ Hs) as Hlen.
  pose proof (su_views _ _ _ _ Hsub) as Hv. unfold views in Hv. apply mapM_Some in Hv.
  apply mapM_Some, Forall2_same_length_lookup. split.
  { rewrite length_zip_with, (ss_length _ _ _ Hsubm), <-(Forall2_length _ _ _ Hv).
    unfold w_queues in Hlen. lia. }
  intros lane [q' batch] queue [Hq' Hb]%lookup_zip_Some Hqueue.
  pose proof (Forall2_lookup_lr _ _ _ lane batch queue Hv Hb Hqueue) as Hbatch. simpl in Hbatch.
  destruct (submitted_lookup _ _ _ _ (eq_sym Hlen) Hsubm Hq') as (batch' & q & q1 & Hb' & Hq & Ha & Hp & ->).
  simplify_eq. rewrite ring_lane_rung.
  by rewrite (ring_lane_published q) by (first [done|by eapply session_fits]).
Qed.

Lemma reset_all signals s : s ∈ resets → foldl signal_reset signals resets s = 1%Z.
Proof using Type.
  clear. induction resets as [|x l IH] using rev_ind; [by intros ?%elem_of_nil|].
  rewrite foldl_snoc. unfold signal_reset at 1.
  destruct (decide (x = s)) as [->|Hne]; [by rewrite fn_lookup_insert|].
  rewrite fn_lookup_insert_ne by done. intros [Hin|Hin%list_elem_of_singleton]%elem_of_app; [by apply IH|done].
Qed.

Lemma submitted_session g st s' signals :
  session (mkWorld g st) → gs_in_flight g = false → gs_usable g = true →
  submitted_set (gs_queues g) s' bs →
  let g' := mkState s' true true in
  session (mkWorld g' (mkQueueState (renew g g' (qs_launched st)) (renew g g' (qs_completed st))
                        (foldl signal_reset signals resets))).
Proof using Hsub Hlength Hfits.
  intros Hs Hflight Husable Hsubm g'. pose proof (submitted_program _ s' Hs Hsubm) as Hprog.
  pose proof (queues_length _ Hs) as Hlen.
  pose proof (λ lane batch q, session_fits _ lane batch q Hs) as Hfit.
  destruct Hs as [Hsz Hrings Hprep _ Hrung Hbound _ _ _]. specialize (Hrung Husable).
  unfold w_queues in *. cbn [w_graph w_device] in *.
  pose proof (λ lane q', submitted_lookup _ s' lane q' (eq_sym Hlen) Hsubm) as Hlook.
  assert (∀ p, p ∈ qs_launched st ∨ p ∈ qs_completed st → republished g g' p.1) as Hnew.
  { intros [lane i] Hp. destruct (Hbound _ Hp) as (batch & Hb & Hi). cbn [fst snd] in *.
    destruct (lookup_lt_is_Some_2 (set_queues (gs_queues g)) lane) as [q Hq].
    { rewrite Hlen. by eapply lookup_lt_Some. }
    destruct (ss_lane _ _ _ Hsubm lane batch q Hb Hq) as (_ & q1 & Hp1 & Hq1).
    unfold republished, g'. cbn [gs_queues]. rewrite Hq1, Hq. simpl.
    assert (batch ≠ []) as Hne by (intros ->; simpl in Hi; lia).
    destruct Hp1 as [[? _]|[_ ->]]; [done|]. intros [= Heq].
    apply (proj1 (publish_moves q batch (Hfit _ _ _ Hb Hq) Hne)). rewrite <-Heq.
    by destruct (doorbell_for _ _). }
  split; unfold w_queues; cbn [w_graph w_device gs_queues gs_in_flight gs_usable qs_launched qs_completed g'];
    [| | | | | |done| |].
  - rewrite <-Hsz. apply sizes_preserved; [apply Hsubm|]. intros lane q q' Hq Hq'.
    destruct (Hlook _ _ Hq') as (batch & q0 & q1 & Hb & Hq0 & _ & Hp & ->). simplify_eq.
    rewrite <-(lane_prepared_size _ _ _ Hp). by destruct (doorbell_for _ _).
  - apply Forall_lookup_2. intros lane q' Hq'.
    destruct (Hlook _ _ Hq') as (batch & q & q1 & Hb & Hq & _ & Hp & ->).
    apply ring_wf_rung. by eapply lane_prepared_wf; [eapply Hfit|].
  - rewrite (ss_doorbells _ _ _ Hsubm), Hprep, length_replicate. done.
  - intros _. apply Forall_lookup_2. intros lane q' Hq'.
    destruct (Hlook _ _ Hq') as (batch & q & q1 & Hb & Hq & Ha & Hp & ->).
    rewrite <-Ha, <-(lane_prepared_active _ _ _ Hp). by destruct (doorbell_for _ _).
  - intros _. apply Forall_lookup_2. intros lane q' Hq'.
    destruct (Hlook _ _ Hq') as (batch & q & q1 & Hb & Hq & Ha & Hp & ->).
    destruct (decide (batch = [])) as [->|Hne].
    + destruct Hp as [[_ ->]|[? _]]; [|done]. by apply (Forall_lookup_1 _ _ lane _ Hrung).
    + right. apply rung_live; [done|]. by rewrite (lane_prepared_active _ _ _ Hp).
  - intros p [[_ Hp]%elem_of_renew|[_ Hp]%elem_of_renew]; apply Hbound; [by left|by right].
  - intros _. split; [done|]. exists (foldl signal_reset signals resets).
    split; [intros s; apply reset_all|].
    replace (renew g g' (qs_launched st)) with (∅ : gset packet_id).
    { replace (renew g g' (qs_completed st)) with (∅ : gset packet_id); [apply rtc_refl|].
      symmetry. apply (set_eq (C := gset packet_id)). intros p. rewrite elem_of_renew. split; [|set_solver].
      intros [Hn Hp]. exfalso. apply Hn, Hnew. by right. }
    symmetry. apply (set_eq (C := gset packet_id)). intros p. rewrite elem_of_renew. split; [|set_solver].
    intros [Hn Hp]. exfalso. apply Hn, Hnew. by left.
  - intros lane batch _ _ Hb Hne. destruct (lookup_lt_is_Some_2 (set_queues (gs_queues g)) lane) as [q Hq].
    { rewrite Hlen. by eapply lookup_lt_Some. }
    destruct (ss_lane _ _ _ Hsubm lane batch q Hb Hq) as (Ha & q1 & Hp1 & Hq1).
    exists (rung q1 (doorbell_for batch q1)). split; [done|]. apply rung_live; [done|].
    by rewrite (lane_prepared_active _ _ _ Hp1).
Qed.

Lemma renew_same g ps : renew g g ps = ps.
Proof using Type.
  apply (set_eq (C := gset packet_id)). intros p. rewrite elem_of_renew. unfold republished. tauto.
Qed.

(** What [submit] does in a session. *)
Lemma submit_ok g st env :
  session (mkWorld g st) →
  match submit resets bs g (qs_signals st) env with
  | (_, _, Panic) => False
  | (g', signals, Fail e) =>
      (g' = g ∧ signals = qs_signals st ∧
        (gs_in_flight g = true ∧ e = AlreadyInFlight ∨
         gs_in_flight g = false ∧ gs_usable g = false ∧ e = GraphInactive)) ∨
      (gs_in_flight g = false ∧ gs_usable g = true ∧
       ∃ s', g' = mkState s' false false ∧ failed_set (gs_queues g) s' (enumerate bs))
  | (g', signals, Done _) =>
      gs_in_flight g = false ∧ gs_usable g = true ∧ signals = foldl signal_reset (qs_signals st) resets ∧
      ∃ s', g' = mkState s' true true ∧ submitted_set (gs_queues g) s' bs
  end.
Proof using Hsub Hlength Hfits.
  intros Hs. pose proof (queues_length _ Hs) as Hlen.
  pose proof (λ lane batch q, session_fits _ lane batch q Hs) as Hfit.
  pose proof (sn_prepared _ _ _ _ _ Hs) as Hprep. unfold w_queues in *. cbn [w_graph] in *.
  unfold submit. destruct (gs_in_flight g) eqn:Hf; [left; tauto|].
  destruct (gs_usable g) eqn:Hu; cbn [negb]; [|left; tauto].
  pose proof (prepare_batches_ok (gs_queues g) bs (se_prepare env) (eq_sym Hlen) Hprep Hfit) as Hp.
  destruct (prepare_batches _ _ _) as [s1 [u|e|]]; [| |done].
  - pose proof (ring_prepared_ok (gs_queues g) s1 bs (se_ring_faults env) (se_ring_statuses env) (eq_sym Hlen)) as Hr.
    rewrite Hprep, length_replicate in Hr. specialize (Hr (eq_sym Hlen) Hp).
    destruct (ring_prepared _ _ _) as [s2 [u2|e]].
    + do 3 (split; [done|]). by exists s2.
    + right. do 2 (split; [done|]). by exists s2.
  - right. do 2 (split; [done|]). by exists s1.
Qed.

Lemma submit_session g st env g' signals out :
  session (mkWorld g st) → submit resets bs g (qs_signals st) env = (g', signals, out) →
  session (mkWorld g' (mkQueueState (renew g g' (qs_launched st)) (renew g g' (qs_completed st)) signals)).
Proof using Hsub Hlength Hfits.
  intros Hs E. pose proof (submit_ok g st env Hs) as H. rewrite E in H.
  destruct out as [u|e|]; [| |done].
  - destruct H as (Hf & Hu & -> & s' & -> & Hsubm). by apply submitted_session.
  - destruct H as [(-> & -> & _)|(Hf & Hu & s' & -> & Hfail)].
    + rewrite !renew_same. by destruct st.
    + by apply failed_session.
Qed.

(** ** Tickets *)

Lemma observed_session w ps w1 :
  observed bs final w ps w1 → session w →
  session w1 ∧ w_graph w1 = w_graph w ∧
  ∀ p, p ∈ ps → ∃ wk, session wk ∧ w_graph wk = w_graph w ∧
    wp_value p = qs_signals (w_device wk) final ∧ rtc device_step wk w1.
Proof using Type.
  induction 1 as [w|w p ps wk w1 Hwk Hv Hobs IH]; intros Hs.
  { split; [done|]. split; [done|]. by intros p ?%elem_of_nil. }
  destruct (device_sessions _ _ Hwk Hs) as [Hsk Hgk]. destruct (IH Hsk) as (Hs1 & Hg1 & Hps).
  split; [done|]. split; [congruence|]. intros p' [->|Hin]%elem_of_cons.
  - exists wk. split; [done|]. split; [done|]. split; [done|].
    clear -Hobs. induction Hobs as [|w p ps wk w1 Hwk Hv _ IH]; [apply rtc_refl|by etrans].
  - destruct (Hps p' Hin) as (w' & Hs' & Hg' & ? & ?). exists w'. split; [done|]. split; [congruence|done].
Qed.

Lemma device_grows w w' : rtc device_step w w' → qs_completed (w_device w) ⊆ qs_completed (w_device w').
Proof using Type.
  induction 1 as [|w1 w2 w3 H12 _ IH]; [done|]. etrans; [|exact IH].
  destruct H12 as [g st st' prog' _ Hstep _]. by apply (aql_step_grows prog').
Qed.

(** A running batch whose final signal was seen complete is over. *)
Lemma final_seen w w1 :
  session w → rtc device_step w w1 → gs_in_flight (w_graph w) = true →
  (qs_signals (w_device w) final < 1)%Z → all_complete prog (w_device w1) ∧ quiescent bs w1.
Proof using Hsub Hlength.
  intros Hs Hw1 Hf Hlt. destruct (device_sessions _ _ Hw1 Hs) as [Hs1 Hg1].
  destruct (sn_running _ _ _ _ _ Hs Hf) as (_ & signals & Hone & Hrun).
  destruct (reset_run_facts _ _ _ _ Hsub _ _ Hone Hrun) as [_ Hall]. specialize (Hall Hlt).
  assert (all_complete prog (w_device w1)) as Hall1.
  { intros q Hq. apply (device_grows _ _ Hw1). by apply Hall. }
  split; [done|]. intros lane batch i _ Hb Hi.
  destruct (sn_running _ _ _ _ _ Hs1) as (_ & signals1 & Hone1 & Hrun1); [by rewrite Hg1|].
  destruct (reset_run_facts _ _ _ _ Hsub _ _ Hone1 Hrun1) as [Hlaunch _].
  assert ((lane, i) ∈ qs_completed (w_device w1)) as Hc.
  { apply Hall1. pose proof (su_views _ _ _ _ Hsub) as Hv. unfold views in Hv. apply mapM_Some in Hv.
    destruct (Forall2_lookup_l _ _ _ _ _ Hv Hb) as (queue & Hqueue & Hbatch).
    apply length_mapM in Hbatch. unfold packet_at. cbn [fst snd]. rewrite Hqueue. cbn [mbind option_bind].
    apply lookup_lt_is_Some_2. lia. }
  split; [by apply Hlaunch|done].
Qed.

Lemma wait_signal_Ok s ps u :
  wait_signal s final ps = Ok u → ∃ p, p ∈ pl_before ps ++ [pl_deadline ps] ∧ (wp_value p < 1)%Z.
Proof using Type.
  unfold wait_signal. intros (p & Hin & Hb)%poll_loop_Ok. exists p. split; [done|].
  unfold wait_body in Hb. destruct (check_faults _ _); [|done]. unfold signal_is_complete in Hb.
  destruct (Z.ltb_spec (wp_value p) 1); done.
Qed.

(** ** Inactivation *)

Lemma deactivated_program queues queues' :
  length queues' = length queues →
  (∀ lane q, queues !! lane = Some q → ∃ q', queues' !! lane = Some q' ∧ deactivated q q') →
  ring_program bs queues = Some prog → ring_program bs queues' = Some prog.
Proof using Type.
  clear. unfold ring_program. intros Hl Hd Hp%mapM_Some. apply mapM_Some.
  apply Forall2_same_length_lookup. apply Forall2_same_length_lookup in Hp as [Hlen Hp].
  rewrite length_zip_with in *. split; [by rewrite Hl|].
  intros lane [q' batch] queue [Hq' Hb]%lookup_zip_Some Hqueue.
  destruct (lookup_lt_is_Some_2 queues lane) as [q Hq]. { rewrite <-Hl. by eapply lookup_lt_Some. }
  destruct (Hd lane q Hq) as (q2 & Hq2 & Hde). simplify_eq.
  rewrite <-(Hp lane (q, batch) queue); [|by apply lookup_zip_Some|done].
  by destruct Hde as [->| ->].
Qed.

(** The session after every queue was asked to stop. *)
Lemma inactivated_session w statuses in_flight :
  session w → gs_in_flight (w_graph w) = true →
  (in_flight = false → (inactivate_all (gs_queues (w_graph w)) statuses).2 = Ok tt) →
  session (mkWorld (mkState (inactivate_all (gs_queues (w_graph w)) statuses).1 in_flight false) (w_device w)).
Proof using All.
  intros Hs Hf Hok.
  pose proof (inactivate_all_settled (gs_queues (w_graph w)) statuses) as [Hl Hq Hp].
  pose proof (inactivate_all_Ok (gs_queues (w_graph w)) statuses tt) as Hin.
  destruct (inactivate_all _ _) as [s' r]. cbn [fst snd] in *.
  destruct Hs as [Hsz Hrings Hprep _ _ Hbound _ Hrun _]. unfold w_queues in *.
  assert (∀ lane q', set_queues s' !! lane = Some q' → ∃ q, set_queues (gs_queues (w_graph w)) !! lane = Some q ∧
    deactivated q q') as Hback.
  { intros lane q' Hq'. destruct (lookup_lt_is_Some_2 (set_queues (gs_queues (w_graph w))) lane) as [q Hlane].
    { rewrite <-Hl. by eapply lookup_lt_Some. }
    destruct (Hq lane q Hlane) as (q2 & ? & ?). simplify_eq. by exists q. }
  split; unfold w_queues; cbn [w_graph w_device gs_queues gs_in_flight gs_usable]; [| | |done|done|done| | |done].
  - rewrite <-Hsz. apply sizes_preserved; [done|]. intros lane q q' Hlane Hq'.
    destruct (Hback _ _ Hq') as (q0 & ? & Hd). simplify_eq. by apply deactivated_size.
  - apply Forall_lookup_2. intros lane q' Hq'. destruct (Hback _ _ Hq') as (q & Hlane & Hd).
    apply (ring_wf_deactivated _ _ Hd). by apply (Forall_lookup_1 _ _ lane _ Hrings).
  - by rewrite Hp, Hprep, length_replicate.
  - intros Hff lane batch i (q' & Hq' & Ha & _). unfold w_queues in Hq'. cbn in Hq'. specialize (Hok Hff).
    rewrite (Hin Hok lane q' Hq') in Ha. done.
  - intros _. destruct (Hrun Hf) as (Hprog & H). split; [|done]. by eapply deactivated_program.
Qed.

Lemma completed_session w :
  session w → quiescent bs w →
  session (mkWorld (apply_quiescence_transition (w_graph w) Completed) (w_device w)).
Proof using Type.
  intros Hs Hq. destruct Hs as [? ? ? ? ? ? ? ? ?].
  split; cbn [w_graph w_device apply_quiescence_transition gs_in_flight gs_usable]; try done.
Qed.

(** ** Steps *)

Lemma ticket_session w t w1 :
  match t with
  | TicketWait ps _ => observed bs final w (pl_before ps ++ [pl_deadline ps]) w1
  | _ => w1 = w
  end → session w → session (mkWorld (end_ticket final (w_graph w1) t).1 (w_device w1)).
Proof using All.
  intros Ht Hs.
  assert (session w1) as Hs1.
  { destruct t; [by eapply observed_session|by subst..]. }
  assert (∀ statuses, session (mkWorld (cancel_internal (w_graph w1) statuses).1 (w_device w1))) as Hcancel.
  { intros statuses. unfold cancel_internal. destruct (gs_in_flight (w_graph w1)) eqn:Hf; cbn [negb].
    2:{ by destruct w1. }
    pose proof (inactivated_session w1 statuses) as H.
    destruct (inactivate_all _ _) as [s' [[]|e]] eqn:E; cbn [fst snd apply_quiescence_transition gs_queues] in *.
    - by apply H.
    - by apply H. }
  destruct t as [ps statuses|statuses|statuses|]; cbn [end_ticket].
  - destruct (observed_session _ _ _ Ht Hs) as (_ & Hg1 & Hps). unfold wait_internal.
    destruct (gs_in_flight (w_graph w1)) eqn:Hf; cbn [negb]; [|by destruct w1].
    destruct (wait_signal _ _ _) as [u|e] eqn:Hw.
    + apply wait_signal_Ok in Hw as (p & Hin & Hlt). destruct (Hps p Hin) as (wk & Hsk & Hgk & Hv & Hk).
      rewrite Hv in Hlt. apply completed_session; [done|].
      eapply final_seen; [exact Hsk|done|by rewrite Hgk, <-Hg1|done].
    + pose proof (inactivated_session w1 statuses) as H.
      destruct (inactivate_all _ _) as [s' [[]|e']] eqn:E; cbn [fst snd apply_quiescence_transition gs_queues] in *;
        by apply H.
  - specialize (Hcancel statuses). by destruct (cancel_internal _ _).
  - apply Hcancel.
  - by destruct w1.
Qed.

Lemma initial_session w : initial sizes bs w → session w.
Proof using All.
  intros [Hl Hsz Hr Hnew Hp [Hf Hu] [Hla Hco]].
  split; [done|done|done| | | | |congruence|congruence].
  - intros _. eapply Forall_impl; [exact Hnew|]. by intros q [].
  - intros _. eapply Forall_impl; [exact Hnew|]. intros q []. by left.
  - intros p. rewrite Hla, Hco. set_solver.
  - intros _ lane batch i (q & Hq & _ & Hlast). pose proof (Forall_lookup_1 _ _ _ _ Hnew Hq) as [_ Hd].
    by rewrite Hd in Hlast.
Qed.

Lemma session_reachable w0 w : initial sizes bs w0 → rtc (session_step bs resets final) w0 w → session w.
Proof using Hsub Hlength Hfits.
  intros H0%initial_session Hw. revert H0. induction Hw as [w|w1 w2 w3 H12 _ IH]; [done|].
  intros Hs. apply IH. clear IH. destruct H12 as [w w' Hd|g st env g' signals out E|w t w1 Ht].
  - by eapply device_session.
  - by eapply submit_session.
  - by eapply ticket_session.
Qed.
End sessions.
