(* ===== verification/AqlSubmittable.v ===== *)
(** * The graphs that can be submitted

    The batches of the recorded graph and of the two-queue batches satisfy
    [submittable]: their images fill ring slots, a submission resets every
    signal that a packet completes or waits for, and the final signal covers
    all packets. *)

From stdpp Require Import gmap.
From S2P Require Import Prelude BTree Packet Device AqlQueue AqlGraph AqlGraphOk AqlGraphClaims AqlTwoQueue AqlBlocks AqlTwoQueueOk AqlDerivedOk AqlRing AqlSubmit AqlSession.

(** ** Images *)

Definition images_wf (bs : batches) : Prop := Forall (Forall image_wf) bs.

Lemma images_wf_start n : images_wf (replicate n []).
Proof. apply Forall_replicate, Forall_nil_2. Qed.

Lemma push_packet_images bs bs' lane image :
  images_wf bs → image_wf image → push_packet bs lane image = Some bs' → images_wf bs'.
Proof.
  intros Hbs Hi Hp. unfold push_packet, vec_update in Hp.
  apply bind_Some in Hp as (batch & Hb & Hp). cbn [mbind option_bind] in Hp.
  apply vec_set_Some in Hp as [_ ->]. apply Forall_insert; [done|].
  apply Forall_app. split; [|by apply Forall_singleton]. by apply (Forall_lookup_1 _ _ _ _ Hbs Hb).
Qed.

Lemma push_barrier_images policy deps completion bs bs' lane :
  images_wf bs → push_barrier policy deps completion bs lane = Done bs' → images_wf bs'.
Proof.
  intros Hbs H. unfold push_barrier in H.
  apply bind_Done_inv in H as (p & Hp%try_Done%map_err_Ok & H%unwrap_Done).
  eapply push_packet_images; [done|by eapply barrier_packet_wf|done].
Qed.

Lemma push_kernel_images policy completion bs bs' lane r :
  images_wf bs → push_kernel policy completion bs lane r = Done bs' → images_wf bs'.
Proof.
  intros Hbs H. unfold push_kernel in H. apply bind_Done_inv in H as (p & _ & H%unwrap_Done).
  eapply push_packet_images; [done|apply image_kernel_wf|done].
Qed.

(** Loops of pushes. *)
Lemma foldE_images {A} (f : batches → A → exec ReplayError batches) l bs bs' :
  (∀ bs x bs', images_wf bs → f bs x = Done bs' → images_wf bs') →
  images_wf bs → foldE f bs l = Done bs' → images_wf bs'.
Proof. intros Hf Hbs. apply (foldE_Done_inv (λ _, images_wf)); [done|]. intros. by eapply Hf. Qed.

Lemma foldE_images_pair {A} (f : emission_state → A → exec ReplayError emission_state) l st st' :
  (∀ st x st', images_wf st.1 → f st x = Done st' → images_wf st'.1) →
  images_wf st.1 → foldE f st l = Done st' → images_wf st'.1.
Proof. intros Hf Hbs. apply (foldE_Done_inv (λ _ st, images_wf st.1)); [done|]. intros. by eapply Hf. Qed.

Lemma push_waits_images lane bs signals bs' :
  images_wf bs → push_waits lane bs signals = Done bs' → images_wf bs'.
Proof. apply foldE_images. intros. by eapply push_barrier_images. Qed.

Lemma graph_batches_images n nodes signals final terminals bs :
  graph_batches n nodes signals final terminals = Done bs → images_wf bs.
Proof.
  unfold graph_batches. intros H. apply bind_Done_inv in H as (bs1 & H1 & H).
  apply bind_Done_inv in H as (ts & _ & H). apply bind_Done_inv in H as (bs2 & H2 & H).
  eapply push_barrier_images; [|exact H]. eapply push_waits_images; [|exact H2].
  eapply foldE_images; [|apply images_wf_start|exact H1]. clear. intros bs [i r] bs' Hbs H. unfold emit_node in H.
  apply bind_Done_inv in H as (deps & _ & H). apply bind_Done_inv in H as (bs1 & H1 & H).
  apply bind_Done_inv in H as (s & _ & H). eapply push_kernel_images; [|exact H]. by eapply push_waits_images.
Qed.

Lemma push_boundary_images policy previous bs bs' :
  images_wf bs → push_boundary policy previous bs = Done bs' → images_wf bs'.
Proof. apply foldE_images. intros. by eapply push_barrier_images. Qed.

(** An optional boundary in front of a phase or token. *)
Lemma optional_boundary_images (first : bool) (previous : option signal_pair) policy bs bs' :
  images_wf bs →
  (if first then Done bs else previous ← unwrap previous; push_boundary policy previous bs) = Done bs' →
  images_wf bs'.
Proof.
  intros Hbs. destruct first; [by intros [= <-]|]. intros H. apply bind_Done_inv in H as (p & _ & H).
  by eapply push_boundary_images.
Qed.

Lemma emit_phase_images tails bs entry bs' :
  images_wf bs → emit_phase tails bs entry = Done bs' → images_wf bs'.
Proof.
  destruct entry as [i p]. intros Hbs H. unfold emit_phase in H.
  apply bind_Done_inv in H as (bs1 & H1%optional_boundary_images & H); [|done].
  apply bind_Done_inv in H as (own & _ & H). eapply foldE_images; [|exact H1|exact H].
  clear. intros bs [lane rs] bs' Hbs. apply foldE_images; [|done].
  clear. intros bs [j r] bs' Hbs. by apply push_kernel_images.
Qed.

Lemma emit_token_images phases tails bs token bs' :
  images_wf bs → emit_token phases tails bs token = Done bs' → images_wf bs'.
Proof.
  intros Hbs H. unfold emit_token in H.
  apply bind_Done_inv in H as (bs1 & H1%optional_boundary_images & H); [|done].
  apply bind_Done_inv in H as (own & _ & H). eapply foldE_images; [|exact H1|exact H].
  intros. by eapply emit_phase_images.
Qed.

Lemma derived_phase_images c token tails st entry st' :
  images_wf st.1 → derived_phase c token tails st entry = Done st' → images_wf st'.1.
Proof.
  destruct st as [bs index], entry as [i p]. intros Hbs H. unfold derived_phase in H.
  apply bind_Done_inv in H as (bs1 & H1%optional_boundary_images & H); [|done].
  apply bind_Done_inv in H as (own & _ & H). eapply (foldE_images_pair _ _ (bs1, index)); [|exact H1|exact H].
  clear. intros [bs index] [lane rs] st' Hbs H. unfold derived_lane in H.
  apply bind_Done_inv in H as ([bs1 index1] & H1 & H). apply bind_Done_inv in H as (bs2 & H2 & H).
  injection H as <-. eapply push_barrier_images; [|exact H2].
  apply (foldE_images_pair _ _ (bs, index) (bs1, index1)) in H1; [done| |done].
  clear. intros [bs index] [j r] st' Hbs H. unfold derived_dispatch in H.
  apply bind_Done_inv in H as ([s index'] & _ & H). apply bind_Done_inv in H as (policy & _ & H).
  apply bind_Done_inv in H as (bs' & H' & H). injection H as <-. by eapply push_kernel_images.
Qed.

Lemma derived_token_images c phases tails st token st' :
  images_wf st.1 → derived_token c phases tails st token = Done st' → images_wf st'.1.
Proof.
  destruct st as [bs index]. intros Hbs H. unfold derived_token in H.
  apply bind_Done_inv in H as (bs1 & H1%optional_boundary_images & H); [|done].
  apply bind_Done_inv in H as (own & _ & H). eapply (foldE_images_pair _ _ (bs1, index)); [|exact H1|exact H].
  intros. by eapply derived_phase_images.
Qed.

(** The images of created graphs. *)
Ltac next_bind H := apply bind_Done_inv in H as (? & ? & H).

Lemma graph_create_images d n size nodes g : graph_create d n size nodes = Done g → images_wf (rg_batches g).
Proof.
  unfold graph_create. destruct (is_empty nodes); [done|]. intros H. do 5 next_bind H.
  apply bind_Done_inv in H as (bs & Hbs & H). next_bind H. injection H as <-.
  by eapply graph_batches_images.
Qed.

Lemma serialized_create_images d size count phases g :
  serialized_create d size count phases = Done g → images_wf (sg_batches g).
Proof.
  unfold serialized_create. destruct (is_empty phases); [done|]. intros H. do 7 next_bind H.
  apply bind_Done_inv in H as (bs & Hbs & H). next_bind H.
  apply bind_Done_inv in H as (bs' & Hbs' & H). do 2 next_bind H. injection H as <-.
  eapply push_barrier_images; [|exact Hbs']. eapply foldE_images; [|apply images_wf_start|exact Hbs].
  intros. by eapply emit_token_images.
Qed.

Lemma create_derived_images d size count phases policies g :
  create_derived d size count phases policies = Done g → images_wf (sg_batches g).
Proof.
  unfold create_derived. destruct (is_empty phases); [done|]. destruct (count =? 0); [done|]. intros H.
  do 8 next_bind H. apply bind_Done_inv in H as ([signals frequency] & _ & H). do 3 next_bind H.
  apply bind_Done_inv in H as ([bs index] & Hbs & H). do 2 next_bind H.
  apply bind_Done_inv in H as (bs' & Hbs' & H). do 3 next_bind H. injection H as <-.
  eapply push_barrier_images; [|exact Hbs'].
  apply (foldE_images_pair _ _ (replicate 2 [], 0) (bs, index)) in Hbs; [done| |apply images_wf_start].
  intros. by eapply derived_token_images.
Qed.

(** ** Signals *)

(** In a well-ordered program what packets wait for is what packets complete. *)
Lemma ordered_deps n E (resets : list Z) :
  well_ordered n E → lanes_below n E →
  (∀ q v, packet_at (program_of n E) q = Some v → pv_completion v = 0%Z ∨ pv_completion v ∈ resets) →
  ∀ q v deps s, packet_at (program_of n E) q = Some v → pv_kind v = BarrierAnd deps → s ∈ deps → s ∈ resets.
Proof.
  intros Ho Hl Hc q v deps s (k & Hk & _)%packet_at_inv Hkind Hs.
  destruct (Ho _ _ _ _ _ Hk Hkind Hs) as (k' & l' & v' & _ & _ & Hnz & (w & Hw & Heq) & _).
  destruct (Hc _ _ Hw) as [H0|Hin]; [congruence|by rewrite <-Heq].
Qed.

(** The recorded graph. *)
Lemma recorded_submittable n nodes g :
  created n nodes g → images_wf (rg_batches g) →
  submittable (rg_batches g) (recorded_resets g) (rg_final_signal g)
    (program_of n (graph_emission (signal_at (rg_node_signals g)) nodes (rg_terminal_nodes g) (rg_final_signal g))).
Proof.
  intros Hg Himg. set (E := graph_emission _ _ _ _).
  assert (∀ q v, packet_at (program_of n E) q = Some v →
    pv_completion v = 0%Z ∨ pv_completion v ∈ recorded_resets g) as Hc.
  { intros q v (k & Hk & _)%packet_at_inv. destruct (decide (pv_completion v = 0%Z)) as [|Hnz]; [by left|right].
    assert (pv_completion v ∈ completions E) as Hin.
    { apply elem_of_completions. split; [done|]. by exists k, q.1, v. }
    unfold E in Hin. rewrite completions_graph in Hin.
    - rewrite <-(cr_length _ _ _ Hg), signal_at_all in Hin. exact Hin.
    - intros i. by apply (graph_sig_nz n nodes g Hg).
    - by apply (graph_final_nz n nodes g Hg). }
  split; [exact (proj1 (cr_holds _ _ _ Hg))|done|done| | | |].
  - by apply ordered_deps; [apply graph_ordered|apply graph_lanes|].
  - destruct (final_position nodes (signal_at (rg_node_signals g)) (rg_terminal_nodes g) (rg_final_signal g)) as [Hf _].
    eexists. by apply (graph_signals_only n nodes g Hg _ _ _ Hf), (graph_final_nz n nodes g Hg).
  - intros st Hst. by apply (final_covers_all n nodes g Hg).
  - intros st Hst. destruct (queues_complete _ _ (graph_lanes _ _ _ Hg) (graph_ordered _ _ _ Hg) st Hst) as [Hsn Hall].
    split; [done|]. intros Hnf. specialize (Hall Hnf). split; [done|]. by eapply complete_final.
Qed.

(** Two-queue batches whose blocks complete signals of [resets] only. *)
Section batches.
Context (dependency terminal : HeaderPolicy) (own : Z → Prop) `{∀ s, Decision (own s)}.
Context (blocks : list block) (final : Z) (bs : batches) (resets : list Z).
Context (Hs : serialized dependency terminal own blocks final bs).
Context (Hresets : ∀ b lane v, b ∈ blocks → (lane, v) ∈ block_emission b →
  pv_completion v = 0%Z ∨ pv_completion v ∈ resets).
Context (Hfinal : final ∈ resets).

Local Abbreviation E := (batch_emission dependency terminal blocks final).

Lemma chain_completions previous l lane v :
  l ⊆ blocks → (lane, v) ∈ chain dependency previous l → pv_completion v = 0%Z ∨ pv_completion v ∈ resets.
Proof using Hresets.
  revert previous. induction l as [|b l IH]; intros previous Hl; cbn [chain]; [by intros ?%elem_of_nil|].
  rewrite !elem_of_app. intros [Hv|[Hv|Hv]].
  - left. destruct previous as [p|]; [|by apply elem_of_nil in Hv].
    apply elem_of_cons in Hv as [[= _ ->]|Hv]; [done|]. by apply list_elem_of_singleton in Hv as [= _ ->].
  - eapply Hresets; [|done]. apply Hl. constructor.
  - eapply IH; [|done]. intros x Hx. apply Hl. by constructor.
Qed.

Lemma batch_submittable : images_wf bs → submittable bs resets final (program_of 2 E).
Proof using All.
  intros Himg. pose proof Hs as [_ Hok Hne Hown Hnz Hnd].
  assert (∀ q v, packet_at (program_of 2 E) q = Some v → pv_completion v = 0%Z ∨ pv_completion v ∈ resets) as Hc.
  { intros q v (k & Hk & _)%packet_at_inv. apply list_elem_of_lookup_2 in Hk.
    destruct (batch_emission_snoc dependency terminal blocks final Hne) as (l & b & _ & HE).
    rewrite HE, elem_of_app in Hk. destruct Hk as [Hk|Hk%list_elem_of_singleton].
    - by eapply (chain_completions None blocks).
    - injection Hk as _ ->. by right. }
  split; [by eapply batch_views|done|done| | | |].
  - apply ordered_deps; [by apply (batch_ordered _ _ own)|by apply batch_lanes|done].
  - destruct (batch_emission_snoc dependency terminal blocks final Hne) as (l & b & _ & HE).
    exists (0, rank E 0 (length (chain dependency None blocks))).
    refine (batch_signals_only dependency terminal own blocks final Hok Hne Hown Hnz Hnd _ 0
      (mkView terminal (BarrierAnd [(bk_tails b).1; (bk_tails b).2]) final) _ Hown Hnz).
    rewrite HE. by apply list_lookup_middle.
  - intros st Hst. by apply (batch_final dependency terminal own).
  - intros st Hst. by apply (batch_runs_to_end _ _ _ _ _ bs Hs).
Qed.
End batches.

(** The tail signals of the tokens are reset. *)
Lemma tails_reset g t own p tails s :
  sg_token_phase_tail_signals g !! t = Some own → own !! p = Some tails → s = tails.1 ∨ s = tails.2 →
  s ∈ batch_resets g.
Proof.
  intros Ht Hp Hs. unfold batch_resets. apply elem_of_app. left. apply list_elem_of_bind.
  exists tails. split; [destruct Hs as [->| ->]; set_solver|].
  apply list_elem_of_In, in_concat. exists own. rewrite <-!list_elem_of_In.
  split; by eapply list_elem_of_lookup_2.
Qed.

Lemma final_in_resets g : sg_final_signal g ∈ batch_resets g.
Proof. unfold batch_resets. rewrite !elem_of_app. right; right. constructor. Qed.

Lemma profiled_reset g s : s ∈ profiled g → s ∈ batch_resets g.
Proof. intros Hs. unfold batch_resets. rewrite !elem_of_app. by right; left. Qed.

Lemma serialized_submittable d size count phases g :
  device_ok d → Forall phase_ok phases → serialized_create d size count phases = Done g →
  ∃ prog, submittable (sg_batches g) (batch_resets g) (sg_final_signal g) prog.
Proof.
  intros Hd Hp Hc. destruct (serialized_create_inv d size count phases Hd Hp) as [_ Hinv].
  destruct (Hinv g Hc) as (_ & _ & _ & _ & blocks & [Hs Hlen Hspec]). eexists.
  apply (batch_submittable TWO_QUEUE_DEPENDENCY TWO_QUEUE_HOST_TERMINAL (λ _, True) blocks); [done| |apply final_in_resets|by eapply serialized_create_images].
  intros b lane v [q Hq]%list_elem_of_lookup Hv.
  destruct (decide (pv_completion v = 0%Z)) as [|Hnz]; [by left|right].
  destruct (Hspec q b Hq) as (own & tails & phase & Ht & Hpt & _ & ->).
  pose proof (Forall_lookup_1 _ _ _ _ (se_ok _ _ _ _ _ _ Hs) Hq) as Hok.
  pose proof (bo_own _ _ Hok) as Hown. rewrite filter_always in Hown.
  apply list_elem_of_lookup in Hv as [k Hk].
  assert (pv_completion v ∈ completions (block_emission (phase_block phase tails))) as Hin.
  { apply elem_of_completions. split; [done|]. by exists k, lane, v. }
  rewrite Hown in Hin. eapply tails_reset; [exact Ht|exact Hpt|].
  apply elem_of_cons in Hin as [->| ->%list_elem_of_singleton]; [by left|by right].
Qed.

Lemma derived_submittable d size count phases policies g :
  device_ok d → Forall phase_ok phases → hdr_barrier (tp_consolidation policies) = true →
  create_derived d size count phases policies = Done g →
  ∃ prog, submittable (sg_batches g) (batch_resets g) (sg_final_signal g) prog.
Proof.
  intros Hd Hp Hbit Hc. destruct (create_derived_inv d size count phases policies Hd Hp Hbit) as [_ Hinv].
  destruct (Hinv g Hc) as (_ & _ & _ & _ & blocks & [Hs Hlen Hspec]). eexists.
  eapply (batch_submittable _ _ _ blocks); [exact Hs| |apply final_in_resets|by eapply create_derived_images].
  intros b lane v [q Hq]%list_elem_of_lookup Hv.
  destruct (Hspec q b Hq) as (own & phase & pol & Ht & Hpt & _ & _ & Hlanes).
  assert (∀ lane, lane < 2 → v ∈ of_lane (bk_lanes b) lane →
    pv_completion v = 0%Z ∨ pv_completion v ∈ batch_resets g) as Hlane.
  { clear lane Hv. intros lane Hl Hin. destruct (Hlanes lane Hl) as [_ (ks & [Hkl Hks] & Hviews)].
    rewrite Hviews in Hin. apply elem_of_app in Hin as [[i Hi]%list_elem_of_lookup|Hin].
    - apply lookup_lt_Some in Hi as Hlt. rewrite Hkl in Hlt.
      destruct (lookup_lt_is_Some_2 _ _ Hlt) as [r Hr].
      destruct (Hks i r Hlt Hr) as (header & s & _ & Hk & Hsig). rewrite Hi in Hk. injection Hk as ->.
      destruct Hsig as [->|Hsig]; [by left|right]. by apply profiled_reset.
    - apply list_elem_of_singleton in Hin as ->. right. eapply tails_reset; [exact Ht|exact Hpt|].
      cbn [pv_completion]. unfold of_lane. case_match; [by left|by right]. }
  unfold block_emission, on_lane in Hv. apply elem_of_app in Hv as [Hv|Hv].
  - apply list_elem_of_fmap in Hv as (v' & [= -> ->] & Hin). by apply (Hlane 0); [lia|].
  - apply list_elem_of_fmap in Hv as (v' & [= -> ->] & Hin). by apply (Hlane 1); [lia|].
Qed.
