(* ===== verification/AqlSessionClaims.v ===== *)
(** * The guarantees of sessions

    What holds in every session of a graph, whatever the order of submissions,
    waits, cancellations and leaked tickets, and whatever the device does in
    between. *)

From stdpp Require Import gmap functions.
From S2P Require Import Prelude BTree Packet Device AqlQueue AqlGraph AqlGraphOk AqlGraphClaims AqlTwoQueue AqlBlocks AqlTwoQueueOk AqlDerivedOk AqlTwoQueueClaims AqlRing AqlSubmit AqlSubmitOk AqlSession AqlSessionOk AqlSubmittable.

(** The queues of a graph can take its batches. *)
Record queues_take (sizes : list Z) (bs : batches) : Prop := {
  qt_length : length bs = length sizes;
  qt_fits lane batch c : bs !! lane = Some batch → sizes !! lane = Some c → (Z.of_nat (length batch) ≤ c)%Z
}.

(** The states of the sessions of a graph on new queues. *)
Definition reachable_session (sizes : list Z) (bs : batches) (resets : list Z) (final : Z) (w : world) : Prop :=
  ∃ w0, initial sizes bs w0 ∧ rtc (session_step bs resets final) w0 w.

Section facts.
Context (sizes : list Z) (bs : batches) (resets : list Z) (final : Z) (prog : list (list packet_view)).
Context (Hsub : submittable bs resets final prog) (Htake : queues_take sizes bs).
Context (w : world) (Hw : reachable_session sizes bs resets final w).

Lemma reachable_is_session : session sizes bs resets prog w.
Proof using All.
  destruct Hw as (w0 & H0 & Hsteps).
  by apply (session_reachable sizes bs resets final prog Hsub (qt_length _ _ Htake) (qt_fits _ _ Htake) w0).
Qed.

(** The launched and completed packets are those of a run of the batches. *)
Lemma session_run :
  gs_in_flight (w_graph w) = true →
  ∃ st, rtc (aql_step prog) queues_start st ∧ agree resets (w_device w) st.
Proof using All.
  intros Hf. destruct (sn_running _ _ _ _ _ reachable_is_session Hf) as (_ & signals & Hone & Hrun).
  by apply (agree_run bs resets final prog Hsub signals).
Qed.

Lemma session_idle : gs_in_flight (w_graph w) = false → nf (device_step bs) w.
Proof using All.
  intros Hf [w' Hstep]. eapply quiescent_stuck; [|exact Hstep].
  by apply (sn_idle _ _ _ _ _ reachable_is_session).
Qed.

(** After a ticket ended, the session goes on. *)
Lemma ticket_reachable t w1 :
  match t with
  | TicketWait ps _ => observed bs final w (pl_before ps ++ [pl_deadline ps]) w1
  | _ => w1 = w
  end →
  reachable_session sizes bs resets final (mkWorld (end_ticket final (w_graph w1) t).1 (w_device w1)).
Proof using Hw.
  intros Ht. destruct Hw as (w0 & H0 & Hsteps). exists w0. split; [done|]. eapply rtc_r; [exact Hsteps|].
  by apply ss_ticket.
Qed.

(** A step of the batch is a step of the device while all lanes are live. *)
Lemma device_lift st' :
  gs_in_flight (w_graph w) = true → gs_usable (w_graph w) = true → aql_step prog (w_device w) st' →
  device_step bs w (mkWorld (w_graph w) st').
Proof using All.
  intros Hf Hu Hstep. pose proof reachable_is_session as Hs.
  destruct (sn_running _ _ _ _ _ Hs Hf) as (Hprog & _).
  pose proof (λ lane batch, sn_live _ _ _ _ _ Hs lane batch Hf Hu) as Hlive.
  destruct w as [g st]. econstructor; [exact Hprog|exact Hstep|].
  intros [lane i] Ht. cbn [fst]. destruct (touched_packet _ _ _ _ Hstep Ht) as [v Hv].
  destruct (ring_program_packet _ _ _ _ _ _ Hprog Hv) as (batch & Hb & Hi).
  apply (Hlive lane batch Hb). intros ->. simpl in Hi. lia.
Qed.
End facts.

(** A ticket that reports success leaves nothing in flight. *)
Lemma ticket_Ok_idle final g t :
  (end_ticket final g t).2 = Some (Ok tt) → gs_in_flight (end_ticket final g t).1 = false.
Proof.
  assert (∀ statuses, (cancel_internal g statuses).2 = Ok tt → gs_in_flight (cancel_internal g statuses).1 = false) as Hc.
  { intros statuses. unfold cancel_internal. destruct (gs_in_flight g) eqn:Hf; cbn [negb]; [|done].
    by destruct (inactivate_all _ _) as [s [[]|e]]. }
  destruct t as [ps statuses|statuses|statuses|]; cbn [end_ticket]; try done.
  - unfold wait_internal. destruct (gs_in_flight g) eqn:Hf; cbn [negb]; [|done].
    destruct (wait_signal _ _ _); [done|]. by destruct (inactivate_all _ _) as [s [[]|e']].
  - specialize (Hc statuses). destruct (cancel_internal g statuses) as [g' r]. intros [= ->]. by apply Hc.
Qed.

(** The device comes to rest. *)
Lemma device_terminates sizes bs resets final prog st :
  submittable bs resets final prog → sn (aql_step prog) st →
  ∀ w, session sizes bs resets prog w → gs_in_flight (w_graph w) = true → agree resets (w_device w) st →
    sn (device_step bs) w.
Proof.
  intros Hsub. induction 1 as [st _ IH]. intros w Hs Hf Hag. constructor. intros w' Hstep. unfold flip in Hstep.
  pose proof (device_session sizes bs resets prog _ _ Hstep Hs) as Hs'.
  destruct (sn_running _ _ _ _ _ Hs Hf) as (Hprog & _).
  destruct Hstep as [g st1 st1' prog' Hp Hstep _]. unfold w_queues in Hprog. cbn [w_graph w_device] in *.
  rewrite Hp in Hprog. injection Hprog as ->.
  destruct (agree_step bs resets final prog Hsub _ _ _ Hstep Hag) as (st' & Hst' & Hag').
  by apply (IH st' Hst').
Qed.

(** A wait whose only poll sees no fault and a complete signal. *)
Lemma wait_signal_done s final value faults :
  (∀ lane, fault_status (faults lane) = None) → (value < 1)%Z →
  wait_signal s final (mkPolls [] (mkWait faults value)) = Ok tt.
Proof.
  intros Hfaults Hlt. unfold wait_signal. cbn [pl_before pl_deadline poll_loop]. unfold wait_body.
  cbn [wp_faults wp_value]. assert (check_faults s faults = Ok tt) as ->.
  { apply for_each_Ok. intros [lane q] _. unfold check_fault, fault_error. by rewrite Hfaults. }
  unfold signal_is_complete. by destruct (Z.ltb_spec value 1); [|lia].
Qed.

(** A submission in flight on a usable graph ends with its final signal
    complete. *)
Lemma flight_ends sizes bs resets final prog w :
  submittable bs resets final prog → queues_take sizes bs → reachable_session sizes bs resets final w →
  gs_in_flight (w_graph w) = true → gs_usable (w_graph w) = true →
  sn (device_step bs) w ∧ (nf (device_step bs) w → (qs_signals (w_device w) final < 1)%Z).
Proof.
  intros Hsub Htake Hw Hf Hu. pose proof (reachable_is_session _ _ _ _ _ Hsub Htake w Hw) as Hs.
  destruct (session_run _ _ _ _ _ Hsub Htake w Hw Hf) as (st & Hst & Hag).
  destruct (su_ends _ _ _ _ Hsub st Hst) as [Hsn Hend]. split; [by eapply device_terminates|].
  intros Hnf. assert (nf (aql_step prog) st) as Hstuck.
  { intros [st' Hstep]. destruct Hag as [Hl Hc Hsig].
    destruct (agree_step bs resets final prog Hsub st st' (w_device w) Hstep) as (dev' & Hdev & _).
    { split; [done|done|]. intros s Hin. by rewrite Hsig. }
    apply Hnf. eexists. by eapply (device_lift sizes bs resets final prog Hsub Htake w Hw). }
  destruct (Hend Hstuck) as [_ H0].
  rewrite (ag_signals _ _ _ Hag final (final_reset bs resets final prog Hsub)), H0. lia.
Qed.

(** A wait that succeeds for a submission in flight has seen everything
    complete. *)
Lemma waited_complete sizes bs resets final prog w ps w1 :
  submittable bs resets final prog → queues_take sizes bs → reachable_session sizes bs resets final w →
  observed bs final w (pl_before ps ++ [pl_deadline ps]) w1 → gs_in_flight (w_graph w1) = true →
  wait_signal (gs_queues (w_graph w1)) final ps = Ok tt → all_complete prog (w_device w1).
Proof.
  intros Hsub Htake Hw Ht Hf Hwait. pose proof (reachable_is_session _ _ _ _ _ Hsub Htake w Hw) as Hs.
  destruct (observed_session sizes bs resets final prog _ _ _ Ht Hs) as (_ & Hg1 & Hps).
  apply wait_signal_Ok in Hwait as (p & Hin & Hlt). destruct (Hps p Hin) as (wk & Hsk & Hgk & Hv & Hk).
  rewrite Hv in Hlt. eapply (final_seen sizes bs resets final prog Hsub (qt_length _ _ Htake) wk);
    [done|done|by rewrite Hgk, <-Hg1|done].
Qed.

(** ** Any batch that can be submitted *)

(** C3: Nothing is reset or republished under a running batch.  In every
    state that a session on new queues reaches, submitting never trips an
    assertion; it succeeds only when the device has nothing left to do, and
    then the rings hold exactly the program of the batches and every signal
    that a packet completes or waits for is one; whenever no submission is in
    flight the device is at rest; and while the graph is usable no queue has
    been inactivated. *)
Theorem session_quiescence sizes bs resets final prog w :
  submittable bs resets final prog → queues_take sizes bs → reachable_session sizes bs resets final w →
  (∀ env, (submit resets bs (w_graph w) (qs_signals (w_device w)) env).2 ≠ Panic) ∧
  (∀ env g' signals, submit resets bs (w_graph w) (qs_signals (w_device w)) env = (g', signals, Done tt) →
     nf (device_step bs) w ∧ ring_program bs (set_queues (gs_queues g')) = Some prog ∧
     ∀ q v, packet_at prog q = Some v →
       (pv_completion v ≠ 0%Z → signals (pv_completion v) = 1%Z) ∧
       (∀ deps s, pv_kind v = BarrierAnd deps → s ∈ deps → signals s = 1%Z)) ∧
  (gs_in_flight (w_graph w) = false → nf (device_step bs) w) ∧
  (gs_usable (w_graph w) = true → Forall (λ q, aq_active q = true) (w_queues w)).
Proof.
  intros Hsub Htake Hw. pose proof (reachable_is_session _ _ _ _ _ Hsub Htake w Hw) as Hs.
  pose proof (session_idle _ _ _ _ _ Hsub Htake w Hw) as Hidle.
  assert (session sizes bs resets prog (mkWorld (w_graph w) (w_device w))) as Hs' by by destruct w.
  pose proof (λ env, submit_ok sizes bs resets final prog Hsub (qt_length _ _ Htake) (qt_fits _ _ Htake) _ _ env Hs') as Hok.
  split; [|split; [|split]].
  - intros env. specialize (Hok env). by destruct (submit _ _ _ _ env) as [[g' signals] [u|e|]].
  - intros env g' signals E. specialize (Hok env). rewrite E in Hok.
    destruct Hok as (Hf & Hu & -> & s' & -> & Hsubm). split; [by apply Hidle|]. split.
    + by apply (submitted_program sizes bs resets final prog Hsub (qt_length _ _ Htake) (qt_fits _ _ Htake) w).
    + intros q v Hv. split.
      * intros Hnz. destruct (su_signals _ _ _ _ Hsub q v Hv) as [?|?]; [done|]. by apply reset_all.
      * intros deps s Hk Hin. apply reset_all. by eapply (su_deps _ _ _ _ Hsub).
  - done.
  - apply (sn_usable _ _ _ _ _ Hs).
Qed.

(** C4: [Ok] proves quiescence.  When a wait or a cancellation returns [Ok]
    in any reachable state, the device has nothing left to do; when a wait
    returned it for a submission in flight, every packet of every queue has
    completed. *)
Theorem ok_proves_quiescence sizes bs resets final prog w t w1 :
  submittable bs resets final prog → queues_take sizes bs → reachable_session sizes bs resets final w →
  match t with
  | TicketWait ps _ => observed bs final w (pl_before ps ++ [pl_deadline ps]) w1
  | _ => w1 = w
  end →
  (end_ticket final (w_graph w1) t).2 = Some (Ok tt) →
  nf (device_step bs) (mkWorld (end_ticket final (w_graph w1) t).1 (w_device w1)) ∧
  ∀ ps statuses, t = TicketWait ps statuses → gs_in_flight (w_graph w1) = true →
    all_complete prog (w_device w1).
Proof.
  intros Hsub Htake Hw Ht Hok. split.
  - eapply session_idle; [exact Hsub|exact Htake|by eapply ticket_reachable|by apply ticket_Ok_idle].
  - intros ps statuses -> Hf. cbn [end_ticket] in Hok. unfold wait_internal in Hok. rewrite Hf in Hok.
    cbn [negb] in Hok. destruct (wait_signal _ _ _) as [[]|e] eqn:Hwait.
    2:{ by destruct (inactivate_all _ _) as [s [[]|e']]. }
    by eapply waited_complete.
Qed.

(** C5: A submission completes.  While a submission is in flight on a usable
    graph the device takes finitely many steps; it stops only when the final
    signal is complete, and then a wait whose polls see no queue fault returns
    [Ok] and leaves the graph ready for the next submission. *)
Theorem submission_completes sizes bs resets final prog w :
  submittable bs resets final prog → queues_take sizes bs → reachable_session sizes bs resets final w →
  gs_in_flight (w_graph w) = true → gs_usable (w_graph w) = true →
  sn (device_step bs) w ∧
  (nf (device_step bs) w →
   (qs_signals (w_device w) final < 1)%Z ∧
   ∀ faults statuses,
     (∀ lane, fault_status (faults lane) = None) →
     wait_internal final (w_graph w) (mkPolls [] (mkWait faults (qs_signals (w_device w) final))) statuses =
       (mkState (gs_queues (w_graph w)) false true, Ok tt)).
Proof.
  intros Hsub Htake Hw Hf Hu.
  destruct (flight_ends _ _ _ _ _ w Hsub Htake Hw Hf Hu) as [Hsn Hend]. split; [done|]. intros Hnf.
  specialize (Hend Hnf). split; [done|]. intros faults statuses Hfaults. unfold wait_internal. rewrite Hf.
  cbn [negb]. rewrite wait_signal_done by done. unfold apply_quiescence_transition. by rewrite Hu.
Qed.

(** ** The graphs of the program *)

Lemma recorded_queues_take d n size nodes g sizes :
  device_ok d → Forall recorded_typed nodes → graph_create d n size nodes = Done g →
  gpu_queue_sizes d n size = Ok sizes → queues_take sizes (rg_batches g) ∧ created n nodes g.
Proof.
  intros Hd Ht Hc Hsz. destruct (graph_create_inv d n size nodes Hd Ht) as [_ Hinv].
  destruct (Hinv g Hc) as (Hg & _ & sizes' & Hsz' & Hcap). rewrite Hsz in Hsz'. injection Hsz' as <-.
  split; [|done]. split; [|done]. rewrite (dk_queues _ Hd _ _ _ Hsz). by eapply holds_length, (cr_holds _ _ _ Hg).
Qed.

(** C23: A recorded graph keeps its dependencies in every session.  However
    its submissions, waits and cancellations interleave with the device, while
    a submission is in flight the rings hold the packets the graph built, and
    a dispatch that is launched finds all dispatches it depends on complete in
    the same submission. *)
Theorem recorded_session_order d queue_count queue_size nodes g sizes w :
  device_ok d → Forall recorded_typed nodes → graph_create d queue_count queue_size nodes = Done g →
  gpu_queue_sizes d queue_count queue_size = Ok sizes →
  reachable_session sizes (rg_batches g) (recorded_resets g) (rg_final_signal g) w →
  gs_in_flight (w_graph w) = true →
  ∃ prog, views (rg_batches g) = Some prog ∧ ring_program (rg_batches g) (w_queues w) = Some prog ∧
    ∀ i node dep q q', nodes !! i = Some node → dep ∈ rd_dependencies node →
      node_packet g prog i q → node_packet g prog dep q' →
      q ∈ qs_launched (w_device w) → q' ∈ qs_completed (w_device w).
Proof.
  intros Hd Ht Hc Hsz Hw Hf. destruct (recorded_queues_take _ _ _ _ _ _ Hd Ht Hc Hsz) as [Htake Hg].
  pose proof (recorded_submittable _ _ _ Hg (graph_create_images _ _ _ _ _ Hc)) as Hsub.
  eexists. split; [exact (su_views _ _ _ _ Hsub)|]. split.
  { by apply (sn_running _ _ _ _ _ (reachable_is_session _ _ _ _ _ Hsub Htake w Hw) Hf). }
  destruct (session_run _ _ _ _ _ Hsub Htake w Hw Hf) as (st & Hst & [Hl Hco _]).
  intros i node dep q q' Hi Hdep Hq Hq'. rewrite Hl, Hco. by eapply (node_waits queue_count nodes g Hg st Hst).
Qed.

(** C24: A derived batch runs in order in every session.  While a submission
    is in flight the rings hold the packets of the batch, everything of an
    earlier phase or token is complete before a dispatch is launched, and the
    final signal covers the whole batch. *)
Theorem batch_session_order d queue_size count phases policies g sizes w :
  device_ok d → Forall phase_ok phases → hdr_barrier (tp_consolidation policies) = true →
  create_derived d queue_size count phases policies = Done g →
  gpu_queue_sizes d 2 queue_size = Ok sizes →
  reachable_session sizes (sg_batches g) (batch_resets g) (sg_final_signal g) w →
  gs_in_flight (w_graph w) = true →
  ∃ prog, views (sg_batches g) = Some prog ∧ ring_program (sg_batches g) (w_queues w) = Some prog ∧
    runs_in_order phases 1 count prog (sg_final_signal g) (w_device w).
Proof.
  intros Hd Hp Hbit Hc Hsz Hw Hf.
  destruct (derived_submittable _ _ _ _ _ _ Hd Hp Hbit Hc) as (prog & Hsub).
  destruct (derived_batch_ok d queue_size count phases policies Hd Hp Hbit) as [_ Hb].
  destruct (Hb g Hc) as (prog' & Hbatch). pose proof (su_views _ _ _ _ Hsub) as Hv.
  rewrite (db_views _ _ _ _ _ _ _ Hbatch) in Hv. injection Hv as ->.
  assert (queues_take sizes (sg_batches g)) as Htake.
  { destruct (db_within _ _ _ _ _ _ _ Hbatch) as (sizes' & Hsz' & Hcap). rewrite Hsz in Hsz'. injection Hsz' as <-.
    split; [|done]. rewrite (dk_queues _ Hd _ _ _ Hsz).
    pose proof (db_views _ _ _ _ _ _ _ Hbatch) as Hv. unfold views in Hv.
    destruct (create_derived_inv d queue_size count phases policies Hd Hp Hbit) as [_ Hinv].
    destruct (Hinv g Hc) as (_ & _ & _ & _ & blocks & [Hs _ _]). by eapply holds_length, (se_holds _ _ _ _ _ _ Hs). }
  exists prog. split; [by apply (db_views _ _ _ _ _ _ _ Hbatch)|]. split.
  { by apply (sn_running _ _ _ _ _ (reachable_is_session _ _ _ _ _ Hsub Htake w Hw) Hf). }
  destruct (session_run _ _ _ _ _ Hsub Htake w Hw Hf) as (st & Hst & Hag).
  destruct (db_order _ _ _ _ _ _ _ Hbatch st Hst) as [Horder Hfinal]. destruct Hag as [Hl Hco Hsig]. split.
  - intros. rewrite Hco. rewrite Hl in *. eauto.
  - rewrite (Hsig _ (final_in_resets g)). intros H0 q Hq. rewrite Hco. by apply Hfinal.
Qed.

(** ** A concrete session: the fan-in graph on three queues *)

Definition new_world (sizes : list Z) : world :=
  mkWorld (mkState (mkSet (imap (λ i size, new_queue (Z.of_nat i) size 0) sizes)
                      (replicate (length sizes) None)) false true) queues_start.

(** No faults, and a read index that leaves room. *)
Definition calm_env : submit_env :=
  mkSubmitEnv (mkPrepareEnv (λ _, 0%Z) (λ _, 0%Z) (λ _, mkPolls [] (mkCapacity 0 0)) (λ _, 0%Z))
    (λ _, 0%Z) (λ _, 0%Z).

Definition submitted_world (resets : list Z) (bs : batches) (w : world) : world :=
  let '(g, signals, _) := submit resets bs (w_graph w) (qs_signals (w_device w)) calm_env in
  mkWorld g (mkQueueState (renew (w_graph w) g (qs_launched (w_device w)))
               (renew (w_graph w) g (qs_completed (w_device w))) signals).

Lemma submitted_reachable sizes bs resets final w :
  initial sizes bs w → reachable_session sizes bs resets final (submitted_world resets bs w).
Proof.
  intros Hw. exists w. split; [done|]. apply rtc_once. destruct w as [g st]. unfold submitted_world.
  cbn [w_graph w_device]. destruct (submit _ _ _ _ _) as [[g' signals] out] eqn:E. by eapply ss_submit.
Qed.

(** Whether a submission on new queues of 64 slots succeeds. *)
Definition starts (n : nat) (resets : list Z) (bs : batches) : bool :=
  let g := w_graph (submitted_world resets bs (new_world (replicate n 64%Z))) in gs_in_flight g && gs_usable g.

Lemma new_world_initial n bs : length bs = n → initial (replicate n 64%Z) bs (new_world (replicate n 64%Z)).
Proof.
  intros Hl. split; unfold w_queues; cbn [new_world w_graph w_device gs_queues set_queues set_prepared gs_in_flight gs_usable];
    [by rewrite length_replicate| | | |by rewrite length_replicate, Hl|done|done].
  - apply list_eq. intros i. rewrite list_lookup_fmap, list_lookup_imap.
    by destruct (replicate n 64%Z !! i) eqn:Hi.
  - apply Forall_lookup_2. intros i q Hq. rewrite list_lookup_imap in Hq.
    destruct (replicate n 64%Z !! i) as [c|] eqn:Hc; [|done]. apply lookup_replicate in Hc as [-> _].
    injection Hq as <-. apply (new_queue_wf _ 6); [lia|by vm_compute].
  - apply Forall_lookup_2. intros i q Hq. rewrite list_lookup_imap in Hq.
    destruct (replicate n 64%Z !! i); [|done]. by injection Hq as <-.
Qed.

Lemma started_session n bs resets final :
  length bs = n → starts n resets bs = true →
  ∃ w, reachable_session (replicate n 64%Z) bs resets final w ∧
    gs_in_flight (w_graph w) = true ∧ gs_usable (w_graph w) = true.
Proof.
  intros Hl [Hf Hu]%andb_prop. eexists. split; [by apply submitted_reachable, new_world_initial|done].
Qed.

Lemma sample_session :
  ∃ g w prog, graph_create sample_gpu 3 64 sample_nodes = Done g ∧
    submittable (rg_batches g) (recorded_resets g) (rg_final_signal g) prog ∧
    queues_take [64; 64; 64]%Z (rg_batches g) ∧
    reachable_session [64; 64; 64]%Z (rg_batches g) (recorded_resets g) (rg_final_signal g) w ∧
    gs_in_flight (w_graph w) = true ∧ gs_usable (w_graph w) = true.
Proof.
  assert (match sample_graph with
          | Some g => starts 3 (recorded_resets g) (rg_batches g) | None => false end = true) as Hstart
    by by vm_compute.
  unfold sample_graph in Hstart.
  destruct (graph_create sample_gpu 3 64 sample_nodes) as [g|e|] eqn:E; [|done..].
  destruct (recorded_queues_take _ _ _ _ _ [64; 64; 64]%Z sample_gpu_ok sample_nodes_typed E eq_refl) as [Htake Hg].
  pose proof (recorded_submittable _ _ _ Hg (graph_create_images _ _ _ _ _ E)) as Hsub.
  destruct (started_session 3 (rg_batches g) (recorded_resets g) (rg_final_signal g) (qt_length _ _ Htake) Hstart)
    as (w & Hw & Hf & Hu).
  by eexists g, w, _.
Qed.

Lemma inactivate_all_success s : (inactivate_all s (λ _, 0%Z)).2 = Ok tt.
Proof.
  unfold inactivate_all. cbn [snd].
  assert (Forall (λ r, r = Ok tt) (imap (λ _ q, inactivate q 0) (set_queues s)).*2) as H.
  { apply Forall_lookup_2. intros i r Hr. rewrite list_lookup_fmap, list_lookup_imap in Hr.
    destruct (set_queues s !! i) as [q|]; [|done]. injection Hr as <-. unfold inactivate. by destruct (aq_active q). }
  revert H. generalize (imap (λ _ q, inactivate q 0) (set_queues s)).*2. intros l.
  induction 1 as [|r l -> _ IH]; done.
Qed.

Lemma session_quiescence_witness :
  ∃ g w, reachable_session [64; 64; 64]%Z (rg_batches g) (recorded_resets g) (rg_final_signal g) w ∧
    gs_in_flight (w_graph w) = true ∧
    (submit (recorded_resets g) (rg_batches g) (w_graph w) (qs_signals (w_device w)) calm_env).2 ≠ Panic.
Proof.
  destruct sample_session as (g & w & prog & _ & Hsub & Htake & Hw & Hf & _). exists g, w.
  split; [exact Hw|]. split; [exact Hf|].
  exact (proj1 (session_quiescence _ _ _ _ prog w Hsub Htake Hw) calm_env).
Defined.

Lemma ok_proves_quiescence_witness :
  ∃ g w w', gs_in_flight (w_graph w) = true ∧
    w' = mkWorld (end_ticket (rg_final_signal g) (w_graph w) (TicketCancel (λ _, 0%Z))).1 (w_device w) ∧
    nf (device_step (rg_batches g)) w'.
Proof.
  destruct sample_session as (g & w & prog & _ & Hsub & Htake & Hw & Hf & _).
  exists g, w. eexists. split; [exact Hf|]. split; [reflexivity|].
  refine (proj1 (ok_proves_quiescence _ _ _ _ prog w (TicketCancel (λ _, 0%Z)) w Hsub Htake Hw eq_refl _)).
  cbn [end_ticket]. unfold cancel_internal. rewrite Hf. cbn [negb].
  pose proof (inactivate_all_success (gs_queues (w_graph w))) as H.
  destruct (inactivate_all _ _) as [s r]. cbn [snd] in H. by subst r.
Defined.

Lemma submission_completes_witness :
  ∃ g w, reachable_session [64; 64; 64]%Z (rg_batches g) (recorded_resets g) (rg_final_signal g) w ∧
    gs_in_flight (w_graph w) = true ∧ sn (device_step (rg_batches g)) w.
Proof.
  destruct sample_session as (g & w & prog & _ & Hsub & Htake & Hw & Hf & Hu). exists g, w.
  split; [exact Hw|]. split; [exact Hf|].
  exact (proj1 (submission_completes _ _ _ _ prog w Hsub Htake Hw Hf Hu)).
Defined.

Lemma recorded_session_order_witness :
  ∃ g w prog, graph_create sample_gpu 3 64 sample_nodes = Done g ∧ gs_in_flight (w_graph w) = true ∧
    ring_program (rg_batches g) (w_queues w) = Some prog ∧
    ∀ q q', node_packet g prog 6 q → node_packet g prog 5 q' →
      q ∈ qs_launched (w_device w) → q' ∈ qs_completed (w_device w).
Proof.
  destruct sample_session as (g & w & _ & E & _ & _ & Hw & Hf & _).
  destruct (recorded_session_order sample_gpu 3 64 sample_nodes g [64; 64; 64]%Z w sample_gpu_ok sample_nodes_typed
    E eq_refl Hw Hf) as (prog & _ & Hp & H).
  exists g, w, prog. split; [exact E|]. split; [exact Hf|]. split; [exact Hp|].
  intros q q'. apply (H 6 _ 5 q q' eq_refl). cbn. set_solver.
Defined.

Lemma batch_session_order_witness :
  ∃ g w prog, create_derived sample_gpu 64 2 sample_phases sample_policies = Done g ∧
    gs_in_flight (w_graph w) = true ∧ ring_program (sg_batches g) (w_queues w) = Some prog ∧
    runs_in_order sample_phases 1 2 prog (sg_final_signal g) (w_device w).
Proof.
  assert (match create_derived sample_gpu 64 2 sample_phases sample_policies with
          | Done g => (length (sg_batches g) =? 2) && starts 2 (batch_resets g) (sg_batches g)
          | _ => false end = true) as Hstart by by vm_compute.
  destruct (create_derived sample_gpu 64 2 sample_phases sample_policies) as [g|e|] eqn:E; [|done..].
  apply andb_prop in Hstart as [Hl%Nat.eqb_eq Hstart].
  destruct (started_session 2 (sg_batches g) (batch_resets g) (sg_final_signal g) Hl Hstart) as (w & Hw & Hf & _).
  destruct (batch_session_order sample_gpu 64 2 sample_phases sample_policies g [64; 64]%Z w sample_gpu_ok
    sample_phases_ok eq_refl E eq_refl Hw Hf) as (prog & _ & Hp & H).
  exists g, w, prog. split; [reflexivity|]. split; [exact Hf|]. split; [exact Hp|exact H].
Defined.
