(* ===== verification/AqlPm4Claims.v ===== *)
(** * The guarantees of retained indirect buffers

    What a created buffer holds, what a patch changes, and what a replay call
    proves about the device. *)

From stdpp Require Import gmap functions.
From S2P Require Import Prelude Packet Device Pm4 Pm4Exec Pm4Build Pm4Ok Pm4Claims AqlQueue AqlGraph AqlGraphOk AqlRing AqlSubmit AqlSubmitOk AqlPm4 AqlPm4Ok AqlDerivedOk AqlSession AqlSessionOk AqlSessionClaims.

(** ** Created buffers *)

(** The recorded offsets are those of the retained dwords. *)
Definition offsets_current (p : SingleQueuePm4Ib) : Prop :=
  pm4_dispatch_workgroup_offsets (ka_bytes (si_indirect p)) = Done (si_dispatch_workgroup_offsets p).

(** Raw allocations are addresses. *)
Definition pool_ok (pool : KernargPool) : Prop := ∀ i size a, pool_allocate pool i size = Ok a → in_u 64 a.

Lemma allocate_bytes_address pool i length alignment k :
  pool_ok pool → allocate_bytes pool i length alignment = Ok k → in_u 64 (ka_address k).
Proof.
  intros Hp. unfold allocate_bytes. destruct (negb _); [done|]. destruct (length =? 0)%Z.
  { intros [= <-]. by vm_compute. }
  intros H. apply bind_Ok_inv in H as (rounded & _ & H). apply bind_Ok_inv in H as (pointer & Ha & H).
  destruct (_ || _); [done|]. apply bind_Ok_inv in H as (u & _ & H). injection H as <-. by eapply Hp.
Qed.

(** What [create_encoded] makes. *)
Record encoded (d : GpuDevice) (bytes : list Z) (dwords : Z) (p : SingleQueuePm4Ib) : Prop := {
  en_bytes : ka_bytes (si_indirect p) = bytes;
  en_offsets : offsets_current p;
  en_completion : gpu_signal d 0 = Ok (si_completion p);
  en_batch : ∃ image, si_batch p = [image] ∧
    pm4_indirect_buffer (ka_address (si_indirect p)) dwords (si_completion p) = Ok image;
  en_address : in_u 64 (ka_address (si_indirect p));
  en_sizes : gpu_queue_sizes d 1 (gpu_queue_min d) = Ok (si_queue_sizes p)
}.

Lemma create_encoded_ok d pool i bytes dwords ts f :
  pool_ok pool →
  create_encoded d pool i bytes dwords ts f ≠ Panic ∧
  ∀ p, create_encoded d pool i bytes dwords ts f = Done p → encoded d bytes dwords p.
Proof.
  intros Hpool. unfold create_encoded. destruct (dwords =? 0)%Z; [done|].
  pose proof (offsets_no_panic bytes) as Hnp.
  destruct (pm4_dispatch_workgroup_offsets bytes) as [offsets|e|] eqn:Hoff; cbn [mbind exec_bind]; [|done..].
  destruct (allocate_executable_bytes pool i (length bytes)) as [k|e] eqn:Ha; cbn [map_err try_ mbind exec_bind]; [|done].
  apply (allocate_bytes_address _ _ _ _ _ Hpool) in Ha as Haddr.
  destruct (write_exact k bytes) as [k'|e] eqn:Hw; cbn [map_err try_ mbind exec_bind]; [|done].
  unfold write_exact in Hw. destruct (negb _); [done|]. injection Hw as <-. unfold new_signal.
  destruct (gpu_signal d 0) as [s|e] eqn:Hs; cbn [map_err try_ mbind exec_bind]; [|done].
  destruct (pm4_indirect_buffer _ _ _) as [image|e] eqn:Hi; cbn [map_err try_ mbind exec_bind]; [|done].
  destruct (gpu_queue_sizes _ _ _) as [sizes|e] eqn:Hq; cbn [map_err try_ mbind exec_bind]; [|done].
  split; [done|]. intros p [= <-]. split; try done. by eexists.
Qed.

(** A tape of the builder. *)
Lemma built_packets b0 os b :
  fresh_buffer b0 → Forall op_typed os → build b0 os = Ok b → Forall (in_u 32) (cb_dwords b) →
  ∃ ps, ib_packets (as_bytes b) = Some ps ∧ Forall (λ p, set_fits p = true) ps ∧
    spec_ops ∅ os = Ok (run ∅ ps).
Proof.
  intros Hf Ht Hb Hu. pose proof (build_fresh b0 os Hf Ht) as H. rewrite Hb in H.
  destruct H as (ps & [Hv Hd _ _ _ Hsm] & Hr). exists ps. split; [|split; [|apply Hr]].
  - unfold ib_packets, as_bytes. rewrite length_bind_le_bytes, Nat.Div0.mod_mul. cbn [Nat.eqb].
    rewrite le_words_bind; [|lia|].
    + rewrite Hd. by apply packets_of_stream.
    + eapply Forall_impl; [exact Hu|]. unfold in_u, umax. intros x Hx. simpl. lia.
  - eapply Forall_impl; [exact Hsm|]. intros p Hp. unfold set_small, set_fits in *.
    destruct (Z.eqb_spec (p_opcode p) PACKET3_SET_SH_REG) as [Ho|]; [|done]. cbn [negb orb].
    destruct (Hp Ho) as (first & values & -> & H0 & Hh). apply Z.leb_le. lia.
Qed.

Lemma decoded_events r ps :
  Forall dispatch_shaped ps →
  length (filter_map event_dispatch (run r ps).2) = count is_dispatch_event (run r ps).2 ∧
  length (dispatch_offsets 0 ps) = count is_dispatch_packet ps.
Proof.
  generalize 0. revert r. induction ps as [|p ps IH]; intros r cursor Hs; [done|].
  apply Forall_cons in Hs as [Hp Hs]. cbn [run fst snd dispatch_offsets].
  destruct (IH (step_packet r p).1 (cursor + length (p_dwords p)) Hs) as [IH1 IH2].
  rewrite filter_map_app, !length_app, count_app, IH1, IH2. unfold dispatch_shaped in Hp.
  pose proof (step_packet_dispatches r p) as Hc. split.
  - f_equal. rewrite Hc. unfold step_packet, is_dispatch_packet in *.
    destruct (Z.eqb_spec (p_opcode p) PACKET3_SET_SH_REG) as [->|]; [by destruct (p_body p)|].
    destruct (Z.eqb_spec (p_opcode p) PACKET3_NOP) as [->|]; [done|].
    destruct (p_opcode p =? PACKET3_DISPATCH_DIRECT)%Z; [|done]. specialize (Hp eq_refl).
    by destruct (p_body p) as [|x [|y [|z rest]]].
  - unfold count. cbn [List.filter]. by destruct (is_dispatch_packet p).
Qed.

(** C26: A retained tape is what was recorded.  Creating a retained buffer
    from any tape of the builder never panics; when it succeeds, the buffer
    holds the dwords of the tape, its one packet makes the queue execute
    exactly these dwords and then decrement the completion signal, and decoding
    the buffer never panics and returns, in order, one entry per dispatch that
    was appended: its dimensions, and the workgroup size that the registers
    hold at it in the meaning of the builder operations, whatever registers
    the builder elided. *)
Theorem retained_tape_decodes b0 os b d pool ib_pool :
  fresh_buffer b0 → Forall op_typed os → build b0 os = Ok b → Forall (in_u 32) (cb_dwords b) →
  (Z.of_nat (length (cb_dwords b)) < 2 ^ 32)%Z →
  device_ok d → pool_ok pool → (∀ q, ib_pool = Some q → pool_ok q) →
  ib_create d pool ib_pool b ≠ Panic ∧
  ∀ p, ib_create d pool ib_pool b = Done p →
    ka_bytes (si_indirect p) = as_bytes b ∧
    views [si_batch p] = Some [[mkView (mkHeader true FenceSystem FenceSystem) (IndirectBuffer (ka_address (si_indirect p))
                                               (Z.of_nat (length (cb_dwords b)))) (si_completion p)]] ∧
    ∃ r evs, spec_ops ∅ os = Ok (r, evs) ∧
      decode_dispatches p = Done (filter_map event_dispatch evs) ∧
      length (filter_map event_dispatch evs) = count is_dispatch_event evs ∧
      length (si_dispatch_workgroup_offsets p) = count is_dispatch_event evs.
Proof.
  intros Hf Ht Hb Hu Hlen Hd Hpool Hib. unfold ib_create.
  destruct (ib_source pool ib_pool 0) as [source allocation] eqn:Hsrc.
  assert (pool_ok source) as Hsource.
  { destruct ib_pool as [q|]; injection Hsrc as <- _; [by apply Hib|done]. }
  destruct (create_encoded_ok d source allocation (as_bytes b) (len_dwords b) None None Hsource) as [Hnp Hok].
  split; [done|]. intros p Hp. destruct (Hok p Hp) as [Hby Hoff Hc (image & Hbatch & Hi) Haddr Hsz].
  assert (len_dwords b = Z.of_nat (length (cb_dwords b))) as Hdw by (unfold len_dwords, as_u32; apply Z.mod_small; lia).
  rewrite Hdw in Hi. split; [done|]. split.
  { rewrite Hbatch. unfold views. cbn. destruct (dk_signal _ Hd _ _ Hc) as [Hs _].
    assert (in_u 32 (Z.of_nat (length (cb_dwords b)))) as Hn by (unfold in_u, umax; lia).
    by rewrite (view_indirect _ _ _ _ Haddr Hn Hs Hi). }
  destruct (built_packets b0 os b Hf Ht Hb Hu) as (ps & Hps & Hfit & Hspec).
  unfold offsets_current in Hoff. rewrite Hby in Hoff. destruct (run ∅ ps) as [r evs] eqn:Hrun. exists r, evs.
  split; [done|]. apply offsets_ok in Hoff as Hoff'. destruct Hoff' as (ps' & Hps' & Hshaped & Ho). rewrite Hps in Hps'. injection Hps' as <-.
  destruct (decoded_events ∅ ps Hshaped) as [He Hl]. rewrite Hrun in He. cbn [snd] in He. split.
  { unfold decode_dispatches. rewrite Hby, (decode_run _ _ _ Hoff Hps Hfit), Hrun. done. }
  split; [done|]. rewrite Ho, Hl. rewrite <-(run_dispatches ∅), Hrun. done.
Qed.

(** ** Patching *)

Lemma run_dwords_packets r bytes ps :
  ib_packets bytes = Some ps → run_dwords r (le_words 4 bytes) = Some (run r ps).
Proof. unfold ib_packets, run_dwords. destruct (_ =? 0); [|done]. by intros ->. Qed.

(** A patch changes one dispatch.  On a buffer whose offsets are those of
    its dwords, patching succeeds exactly when the object is usable, no
    dimension is zero and the dispatch exists, and otherwise reports the first
    of these that fails; the offsets are never found outside the buffer.  A
    successful patch keeps the length, the offsets and everything but the
    dwords; the buffer then issues the same commands from any register
    contents, except that the dispatch of that number has the new dimensions
    (its initiator and registers unchanged), and decodes accordingly.  So
    patches can be repeated. *)
Theorem patch_dispatch_exact p usable k dimensions :
  offsets_current p → Forall (in_u 32) (list3 dimensions) →
  match patch_dispatch_dimensions p usable k dimensions with
  | Ok p' =>
      usable = true ∧ (0%Z ∉ list3 dimensions) ∧ k < length (si_dispatch_workgroup_offsets p) ∧
      offsets_current p' ∧ p' = set_indirect p (ka_bytes (si_indirect p')) ∧
      length (ka_bytes (si_indirect p')) = length (ka_bytes (si_indirect p)) ∧
      (∀ ds, decode_dispatches p = Done ds →
         decode_dispatches p' = Done (alter (λ d, mkDecoded dimensions (dd_workgroup d)) k ds)) ∧
      ∀ r, ∃ r' evs1 r1 operands evs2, count is_dispatch_event evs1 = k ∧
        run_dwords r (le_words 4 (ka_bytes (si_indirect p))) = Some (r', evs1 ++ EvDispatch r1 operands :: evs2) ∧
        run_dwords r (le_words 4 (ka_bytes (si_indirect p'))) =
          Some (r', evs1 ++ EvDispatch r1 (list3 dimensions ++ drop 3 operands) :: evs2)
  | Err GraphInactive => usable = false
  | Err (Pm4ZeroWorkgroup i ws) => usable = true ∧ i = k ∧ ws = dimensions ∧ 0%Z ∈ list3 dimensions
  | Err (Pm4DispatchOutOfBounds i n) =>
      usable = true ∧ (0%Z ∉ list3 dimensions) ∧ i = k ∧ n = length (si_dispatch_workgroup_offsets p) ∧ n ≤ k
  | Err _ => False
  end.
Proof.
  intros Hcur Hd. apply offsets_ok in Hcur as Hcur'. destruct Hcur' as (ps & Hps & Hs & Hoff).
  unfold patch_dispatch_dimensions. destruct usable; cbn [negb]; [|done]. case_bool_decide as Hz; [done|].
  destruct (si_dispatch_workgroup_offsets p !! k) as [offset|] eqn:Hk; cbn [ok_or mbind result_bind].
  2:{ by apply lookup_ge_None_1 in Hk. }
  apply lookup_lt_Some in Hk as Hlt. rewrite Hoff in Hk.
  apply dispatch_offsets_lookup in Hk as (ps1 & q & ps2 & Heq & Hq & Hc & ->). cbn [Nat.add].
  assert (length (p_body q) = 4) as Hq4.
  { rewrite Heq in Hs. apply Forall_app in Hs as [_ [H _]%Forall_cons]. by apply H. }
  rewrite Heq in Hps. destruct (patched_packets _ _ _ _ _ Hps Hq4 Hd) as (Hfit & Hlen & Hps').
  set (offset := 4 * (length (stream ps1) + 1)) in *.
  destruct (Nat.ltb_spec (length (ka_bytes (si_indirect p))) (offset + 12)) as [|_]; [lia|].
  rewrite patch_destination_words by (rewrite length_take, length_drop; lia).
  set (bytes' := take offset _ ++ _) in *. split; [done|]. split; [done|]. split; [done|].
  cbn [set_indirect with_bytes si_indirect ka_bytes si_dispatch_workgroup_offsets]. split; [|split; [done|split; [done|]]].
  { apply offsets_ok. exists (ps1 ++ redimension dimensions q :: ps2). split; [done|].
    rewrite redimension_offsets by done. split; [|by rewrite <-Heq].
    apply redimension_shaped; [done|by rewrite <-Heq]. }
  split.
  - intros ds. unfold decode_dispatches, decode_pm4_dispatches. cbn [si_indirect ka_bytes].
    rewrite (ib_walk_packets _ _ _ _ Hps), (ib_walk_packets _ _ _ _ Hps'). intros H.
    apply bind_Done_inv in H as ([ds' t] & Hw & [= <-]). rewrite (decode_redimension _ _ _ _ _ _ _ _ Hq Hq4 Hw).
    cbn [mbind exec_bind]. by rewrite Hc.
  - intros r. destruct (run_redimension r ps1 q ps2 dimensions Hq) as (evs1 & evs2 & Hcount & H1 & H2).
    do 5 eexists. split; [by rewrite Hcount|]. rewrite (run_dwords_packets _ _ _ Hps), (run_dwords_packets _ _ _ Hps').
    split; f_equal; [exact H1|exact H2].
Qed.

(** ** A concrete tape *)

Definition sample_pool : KernargPool :=
  mkPool 7 4096 4096
    (λ i _, if i <? 16 then Ok (0x10000 + 4096 * Z.of_nat i)%Z else Err (HsaFailure 1)) (λ _, Ok tt).

Lemma sample_pool_ok : pool_ok sample_pool.
Proof.
  intros i size a. unfold sample_pool. cbn [pool_allocate]. destruct (Nat.ltb_spec i 16); [|done]. intros [= <-]. unfold in_u, umax. lia.
Qed.

Definition empty_ib : SingleQueuePm4Ib := mkIb [] 0 (mkKernarg 0 [] 0) [] None None [].

Definition sample_ib : SingleQueuePm4Ib :=
  match ib_create sample_gpu sample_pool None sample_buffer with Done p => p | _ => empty_ib end.

Lemma sample_ib_created : ib_create sample_gpu sample_pool None sample_buffer = Done sample_ib.
Proof. vm_compute. reflexivity. Qed.

Lemma sample_words_u32 : Forall (in_u 32) (cb_dwords sample_buffer).
Proof. apply (bool_decide_unpack _). by vm_compute. Qed.

(** Two dispatches of 256 by 2 work-items in workgroups of 64. *)
Example sample_decodes :
  decode_dispatches sample_ib =
    Done (replicate 2 (mkDecoded (mk3 256 2 1) (Some (mk3 64 1 1)))).
Proof. by vm_compute. Qed.

Lemma retained_tape_decodes_witness :
  ib_create sample_gpu sample_pool None sample_buffer = Done sample_ib ∧
  ∃ r evs, spec_ops ∅ sample_ops = Ok (r, evs) ∧
    decode_dispatches sample_ib = Done (filter_map event_dispatch evs).
Proof.
  split; [apply sample_ib_created|].
  assert (Z.of_nat (length (cb_dwords sample_buffer)) < 2 ^ 32)%Z as Hlen by by vm_compute.
  assert (∀ q, None = Some q → pool_ok q) as Hno by by intros.
  destruct (proj2 (retained_tape_decodes buffer_new_stateful sample_ops sample_buffer sample_gpu sample_pool None
    (or_intror (or_introl eq_refl)) sample_ops_typed sample_built sample_words_u32 Hlen sample_gpu_ok sample_pool_ok Hno)
    sample_ib sample_ib_created) as (_ & _ & r & evs & Hs & Hdec & _).
  exists r, evs. split; [exact Hs|exact Hdec].
Defined.

Definition sample_patched : SingleQueuePm4Ib :=
  match patch_dispatch_dimensions sample_ib true 1 (mk3 512 4 1) with Ok p => p | Err _ => empty_ib end.

Lemma sample_patches : patch_dispatch_dimensions sample_ib true 1 (mk3 512 4 1) = Ok sample_patched.
Proof. vm_compute. reflexivity. Qed.

Lemma sample_offsets_current : offsets_current sample_ib.
Proof. unfold offsets_current. by vm_compute. Qed.

Lemma patch_dispatch_exact_witness :
  offsets_current sample_ib ∧
  decode_dispatches sample_patched =
    Done [mkDecoded (mk3 256 2 1) (Some (mk3 64 1 1)); mkDecoded (mk3 512 4 1) (Some (mk3 64 1 1))].
Proof.
  assert (Forall (in_u 32) (list3 (mk3 512 4 1))) as Hd by (apply (bool_decide_unpack _); by vm_compute).
  split; [apply sample_offsets_current|].
  pose proof (patch_dispatch_exact sample_ib true 1 (mk3 512 4 1) sample_offsets_current Hd) as H.
  rewrite sample_patches in H. destruct H as (_ & _ & _ & _ & _ & _ & H & _).
  exact (H _ sample_decodes).
Defined.
