(* ===== verification/AqlPm4Replay.v ===== *)
(** * Replaying a retained indirect buffer

    Replay calls, [quiesce] and the device interleave as a session of
    [AqlSession] on the buffer's one packet; what the outcome of a call says
    about the device. *)

From stdpp Require Import gmap functions.
From S2P Require Import Prelude Packet Device Pm4 Pm4Claims AqlQueue AqlGraph AqlGraphOk AqlDerivedOk AqlRing AqlSubmit AqlSubmitOk AqlSession AqlSessionOk AqlSessionClaims AqlPm4 AqlPm4Ok AqlPm4Claims.

(** ** The one-packet program *)

Lemma packet_at_single v q v' : packet_at [[v]] q = Some v' ↔ q = (0, 0) ∧ v' = v.
Proof.
  unfold packet_at. destruct q as [[|[|l]] [|[|i]]]; cbn; try naive_solver.
Qed.

Lemma single_program v : program_of 1 [(0, v)] = [[v]].
Proof. done. Qed.

Section single.
Context (v : packet_view) (final : Z) (Hnz : final ≠ 0%Z) (Hc : pv_completion v = final).
Context (Hkind : ¬ is_barrier_and v).

Lemma single_signals_only : signals_only [[v]] final (0, 0).
Proof using All.
  split; [done|]. split; [by exists v|]. intros q' v' Hq _. by apply packet_at_single in Hq as [-> _].
Qed.

Lemma single_submittable image :
  view_packet (img_bytes image) = Some v → image_wf image → submittable [[image]] [final] final [[v]].
Proof using All.
  intros Hv Hi. pose proof single_signals_only as Honly. split.
  - unfold views. cbn. by rewrite Hv.
  - repeat constructor; apply Hi.
  - intros q v' [-> ->]%packet_at_single. right. rewrite Hc. by constructor.
  - intros q v' deps s [-> ->]%packet_at_single Hk. destruct Hkind. by eexists.
  - by exists (0, 0).
  - intros st Hst H0 q [v' [-> ->]%packet_at_single].
    rewrite (qn_signal _ _ (queues_reachable _ _ Hst) _ _ Honly) in H0. by case_decide.
  - intros st Hst. rewrite <-single_program in Hst |- *.
    assert (lanes_below 1 [(0, v)]) as Hl by (intros [|k] l x; [by intros [= <- _]; lia|done]).
    assert (well_ordered 1 [(0, v)]) as Ho.
    { intros [|k] l x deps s; [|done]. intros [= <- <-] Hk. destruct Hkind. by eexists. }
    destruct (queues_complete 1 [(0, v)] Hl Ho st Hst) as [Hsn Hall]. split; [done|]. intros Hnf.
    specialize (Hall Hnf). split; [done|]. rewrite (qn_signal _ _ (queues_reachable _ _ Hst) _ _ Honly).
    rewrite decide_True; [done|]. apply Hall. by exists v.
Qed.
End single.

(** Buffers that [create_encoded] makes. *)
Definition retained_view (p : SingleQueuePm4Ib) (dwords : Z) : packet_view :=
  mkView (mkHeader true FenceSystem FenceSystem) (IndirectBuffer (ka_address (si_indirect p)) dwords) (si_completion p).

Lemma encoded_submittable d bytes dwords p :
  device_ok d → in_u 32 dwords → encoded d bytes dwords p →
  submittable [si_batch p] [si_completion p] (si_completion p) [[retained_view p dwords]].
Proof.
  intros Hd Hdw [_ _ Hs (image & -> & Hi) Ha _]. destruct (dk_signal _ Hd _ _ Hs) as [Hsu Hnz].
  apply single_submittable; [done|done|by intros [deps [=]]| |].
  - by apply view_indirect.
  - destruct (ib_image_ok _ _ _ _ Ha Hdw Hsu Hi) as [Hl _ _ _ _ _ _ _]. split; [done|]. by eapply ib_image_header.
Qed.

(** ** Calls *)

(** [replay_and_wait_inner_checked]: refused before the doorbell, or waited for
    while the device runs. *)
Inductive replay_call (p : SingleQueuePm4Ib) (w : world) : result (ReplayError * Quiescence) unit → world → Prop :=
| call_refused env g signals e :
    replay_start p (w_graph w) (qs_signals (w_device w)) env = (g, signals, Fail e) →
    replay_call p w (Err e)
      (mkWorld g (mkQueueState (renew (w_graph w) g (qs_launched (w_device w)))
                    (renew (w_graph w) g (qs_completed (w_device w))) signals))
| call_waited env g signals ps statuses w1 :
    replay_start p (w_graph w) (qs_signals (w_device w)) env = (g, signals, Done tt) →
    observed [si_batch p] (si_completion p)
      (mkWorld g (mkQueueState (renew (w_graph w) g (qs_launched (w_device w)))
                    (renew (w_graph w) g (qs_completed (w_device w))) signals))
      (pl_before ps ++ [pl_deadline ps]) w1 →
    replay_call p w (replay_finish p (w_graph w1) ps statuses).2
      (mkWorld (replay_finish p (w_graph w1) ps statuses).1 (w_device w1)).

Inductive ib_step (p : SingleQueuePm4Ib) : relation world :=
| ib_device w w' : device_step [si_batch p] w w' → ib_step p w w'
| ib_replay w r w' : replay_call p w r w' → ib_step p w w'
| ib_quiesce w statuses : ib_step p w (mkWorld (quiesce (w_graph w) statuses).1 (w_device w)).

Definition ib_reachable (p : SingleQueuePm4Ib) (w : world) : Prop :=
  ∃ w0, initial (si_queue_sizes p) [si_batch p] w0 ∧ rtc (ib_step p) w0 w.

(** A replay is a submission and a wait. *)
Lemma replay_start_submit p g signals env :
  let '(g1, signals1, out1) := replay_start p g signals env in
  let '(g2, signals2, out2) := submit [si_completion p] [si_batch p] g signals env in
  g1 = g2 ∧ signals1 = signals2 ∧
  match out1 with
  | Done _ => out2 = Done tt ∧ gs_in_flight g1 = true ∧ gs_usable g1 = true
  | Fail (_, q) => q = Proven ∧ (∃ e, out2 = Fail e) ∧ (gs_in_flight g = false → gs_in_flight g1 = false)
  | Panic => out2 = Panic
  end.
Proof.
  unfold replay_start, submit. destruct g as [s [] []]; cbn [gs_usable gs_in_flight gs_queues negb].
  1-2, 4: split; [done|]; split; [done|]; split; [done|]; split; [by eexists|done].
  cbn [foldl]. destruct (prepare_batches _ _ _) as [s1 [u|e|]].
  - destruct (ring_prepared _ _ _) as [s2 [u2|e]]; [done|].
    split; [done|]. split; [done|]. split; [done|]. split; [by eexists|done].
  - split; [done|]. split; [done|]. split; [done|]. split; [by eexists|done].
  - done.
Qed.

Lemma replay_finish_wait p g ps statuses :
  gs_in_flight g = true →
  (replay_finish p g ps statuses).1 = (end_ticket (si_completion p) g (TicketWait ps statuses)).1 ∧
  match (replay_finish p g ps statuses).2 with
  | Ok _ => wait_signal (gs_queues g) (si_completion p) ps = Ok tt ∧
      (replay_finish p g ps statuses).1 = mkState (gs_queues g) false (gs_usable g)
  | Err (_, Proven) => gs_in_flight (replay_finish p g ps statuses).1 = false
  | Err (_, Unknown) => gs_in_flight (replay_finish p g ps statuses).1 = true ∧
      gs_usable (replay_finish p g ps statuses).1 = false
  end.
Proof.
  intros Hf. unfold replay_finish. cbn [end_ticket]. unfold wait_internal. rewrite Hf. cbn [negb].
  destruct (wait_signal _ _ _) as [[]|e]; [done|]. by destruct (inactivate_all _ _) as [s [u|e']].
Qed.

Lemma device_graph bs w w' : rtc (device_step bs) w w' → w_graph w' = w_graph w.
Proof. induction 1 as [|w w1 w2 Hstep _ IH]; [done|]. rewrite IH. by destruct Hstep. Qed.

Lemma observed_graph bs final w ps w1 : observed bs final w ps w1 → w_graph w1 = w_graph w.
Proof.
  induction 1 as [|w p ps w1 w2 Hsteps _ _ IH]; [done|]. rewrite IH. by eapply device_graph.
Qed.

Lemma ib_step_session p w w' :
  ib_step p w w' → rtc (session_step [si_batch p] [si_completion p] (si_completion p)) w w'.
Proof.
  intros [w1 w1' Hstep|w1 r w1' Hcall|w1 statuses].
  - by apply rtc_once, ss_device.
  - destruct w1 as [g st]. destruct Hcall as [env g1 signals1 e Hstart|env g1 signals1 ps statuses w2 Hstart Hobs];
      cbn [w_graph w_device] in *; pose proof (replay_start_submit p g (qs_signals st) env) as H; rewrite Hstart in H;
      destruct (submit _ _ _ _ _) as [[g2 signals2] out2] eqn:Hsub; destruct H as (-> & -> & H).
    + by eapply rtc_once, ss_submit.
    + destruct H as (_ & Hf & _). eapply rtc_l; [by eapply ss_submit|].
      pose proof (observed_graph _ _ _ _ _ Hobs) as Hg. cbn [w_graph] in Hg.
      rewrite (proj1 (replay_finish_wait p (w_graph w2) ps statuses ltac:(by rewrite Hg))).
      apply rtc_once. by apply (ss_ticket _ _ _ _ (TicketWait ps statuses) w2).
  - assert ((quiesce (w_graph w1) statuses).1 =
      (end_ticket (si_completion p) (w_graph w1) (TicketCancel statuses)).1) as ->.
    { cbn [end_ticket]. change (quiesce (w_graph w1) statuses) with (cancel_internal (w_graph w1) statuses).
      by destruct (cancel_internal _ _). }
    apply rtc_once. by apply (ss_ticket _ _ _ w1 (TicketCancel statuses) w1).
Qed.

Lemma ib_steps_session p w w' :
  rtc (ib_step p) w w' → rtc (session_step [si_batch p] [si_completion p] (si_completion p)) w w'.
Proof. induction 1 as [|x y z Hstep _ IH]; [apply rtc_refl|]. etrans; [by apply ib_step_session|done]. Qed.

(** ** What an outcome proves *)

Section outcomes.
Context (d : GpuDevice) (bytes : list Z) (dwords : Z) (p : SingleQueuePm4Ib).
Context (Hd : device_ok d) (Hdwords : in_u 32 dwords) (Hp : encoded d bytes dwords p).
Context (w : world) (Hw : ib_reachable p w).

Lemma ib_queues_take : queues_take (si_queue_sizes p) [si_batch p].
Proof using All.
  destruct Hw as (w0 & Hinit & _). split; [exact (eq_sym (dk_queues _ Hd _ _ _ (en_sizes _ _ _ _ Hp)))|].
  intros lane batch c Hb Hc. destruct (en_batch _ _ _ _ Hp) as (image & Heq & _). rewrite Heq in Hb.
  destruct lane as [|lane]; [|done]. injection Hb as <-. rewrite <-(in_sizes _ _ _ Hinit) in Hc.
  rewrite list_lookup_fmap in Hc. destruct (w_queues w0 !! 0) as [q|] eqn:Hq; [|done]. injection Hc as <-.
  pose proof (Forall_lookup_1 _ _ _ _ (in_rings _ _ _ Hinit) Hq) as Hring.
  pose proof (size_bounds _ (rw_size _ Hring)). simpl. lia.
Qed.

Lemma ib_session : reachable_session (si_queue_sizes p) [si_batch p] [si_completion p] (si_completion p) w.
Proof using Hw.
  destruct Hw as (w0 & Hinit & Hsteps). exists w0. split; [done|]. by apply ib_steps_session.
Qed.

Lemma ib_idle : gs_in_flight (w_graph w) = false → nf (device_step [si_batch p]) w.
Proof using All. by eapply session_idle; [by eapply encoded_submittable|apply ib_queues_take|apply ib_session]. Qed.

Lemma ib_call_reachable r w' : replay_call p w r w' → ib_reachable p w'.
Proof using Hw.
  intros Hc. destruct Hw as (w0 & Hinit & Hsteps). exists w0. split; [done|]. eapply rtc_r; [exact Hsteps|].
  by eapply ib_replay.
Qed.

(** Between the doorbell and the wait. *)
Lemma ib_started env g signals :
  replay_start p (w_graph w) (qs_signals (w_device w)) env = (g, signals, Done tt) →
  let w1 := mkWorld g (mkQueueState (renew (w_graph w) g (qs_launched (w_device w)))
              (renew (w_graph w) g (qs_completed (w_device w))) signals) in
  reachable_session (si_queue_sizes p) [si_batch p] [si_completion p] (si_completion p) w1 ∧
  gs_in_flight g = true ∧ gs_usable g = true.
Proof using Hw.
  intros Hstart. destruct ib_session as (w0 & Hinit & Hsteps).
  pose proof (replay_start_submit p (w_graph w) (qs_signals (w_device w)) env) as H. rewrite Hstart in H.
  destruct (submit _ _ _ _ _) as [[g2 signals2] out2] eqn:Hsub. destruct H as (-> & -> & _ & Hf & Hu).
  split; [|done]. exists w0. split; [done|]. eapply rtc_r; [exact Hsteps|]. destruct w as [g0 st]. by eapply ss_submit.
Qed.
End outcomes.

(** C25: [Quiescence::Proven] proves quiescence, for calls on an idle object.
    In every state that replay calls, [quiesce] and the device reach on a
    created buffer, a replay never panics; when it returns [Ok] the command
    stream has completed, the device is at rest and the object is ready for the
    next replay; when it reports [Proven] after a call that found no replay in
    flight, the device is at rest; when it reports [Unknown] the object stays
    in flight, so that its destructor retries, and refuses to be used. *)
Theorem replay_quiescence d bytes dwords p w :
  device_ok d → in_u 32 dwords → encoded d bytes dwords p → ib_reachable p w →
  (∀ env, (replay_start p (w_graph w) (qs_signals (w_device w)) env).2 ≠ Panic) ∧
  ∀ r w', replay_call p w r w' →
    match r with
    | Ok _ =>
        (0, 0) ∈ qs_completed (w_device w') ∧ nf (device_step [si_batch p]) w' ∧
        gs_in_flight (w_graph w') = false ∧ gs_usable (w_graph w') = true
    | Err (_, Proven) => gs_in_flight (w_graph w) = false → nf (device_step [si_batch p]) w'
    | Err (_, Unknown) => gs_in_flight (w_graph w') = true ∧ gs_usable (w_graph w') = false
    end.
Proof.
  intros Hd Hdw Hp Hw. pose proof (encoded_submittable _ _ _ _ Hd Hdw Hp) as Hsub.
  pose proof (ib_queues_take _ _ _ _ Hd Hdw Hp _ Hw) as Htake. split.
  - intros env. pose proof (replay_start_submit p (w_graph w) (qs_signals (w_device w)) env) as H.
    pose proof (reachable_is_session _ _ _ _ _ Hsub Htake w (ib_session p w Hw)) as Hs.
    assert (session (si_queue_sizes p) [si_batch p] [si_completion p] [[retained_view p dwords]]
      (mkWorld (w_graph w) (w_device w))) as Hs' by by destruct w.
    pose proof (submit_ok _ _ _ _ _ Hsub (qt_length _ _ Htake) (qt_fits _ _ Htake) _ _ env Hs') as Hok.
    destruct (submit _ _ _ _ env) as [[g2 s2] out2], (replay_start _ _ _ env) as [[g1 s1] [u|e|]]; [done..|].
    destruct H as (_ & _ & ->). by destruct Hok.
  - intros r w' Hcall. pose proof (ib_call_reachable p w Hw r w' Hcall) as Hw'.
    pose proof (ib_idle d bytes dwords p Hd Hdw Hp w' Hw') as Hidle.
    destruct Hcall as [env g signals [e q] Hstart|env g signals ps statuses w1 Hstart Hobs].
    + pose proof (replay_start_submit p (w_graph w) (qs_signals (w_device w)) env) as H. rewrite Hstart in H.
      destruct (submit _ _ _ _ env) as [[g2 s2] out2]. destruct H as (_ & _ & -> & _ & Hf).
      intros Hg. apply Hidle. by apply Hf.
    + destruct (ib_started p w Hw env g signals Hstart) as (Hreach & Hf & Hu).
      pose proof (observed_graph _ _ _ _ _ Hobs) as Hg1. cbn [w_graph] in Hg1.
      destruct (replay_finish_wait p (w_graph w1) ps statuses ltac:(by rewrite Hg1)) as [_ Hfin].
      destruct (replay_finish p (w_graph w1) ps statuses).2 as [[]|[e []]].
      * destruct Hfin as [Hwait Hst]. split; [|split; [|by rewrite Hst; cbn; rewrite Hg1]].
        -- eapply (waited_complete _ _ _ _ _ _ _ _ Hsub Htake Hreach Hobs); [by rewrite Hg1|done|]. by eexists.
        -- apply Hidle. cbn [w_graph]. by rewrite Hst.
      * intros _. by apply Hidle.
      * done.
Qed.

(** A replay returns.  Once a replay has rung the doorbell the device
    takes finitely many steps and stops only with the completion signal
    complete; a wait that then sees no queue fault ends the call with [Ok] and
    the object ready for the next replay. *)
Theorem replay_returns d bytes dwords p w env g signals :
  device_ok d → in_u 32 dwords → encoded d bytes dwords p → ib_reachable p w →
  replay_start p (w_graph w) (qs_signals (w_device w)) env = (g, signals, Done tt) →
  let w1 := mkWorld g (mkQueueState (renew (w_graph w) g (qs_launched (w_device w)))
              (renew (w_graph w) g (qs_completed (w_device w))) signals) in
  sn (device_step [si_batch p]) w1 ∧
  ∀ w2, rtc (device_step [si_batch p]) w1 w2 → nf (device_step [si_batch p]) w2 →
    ∀ faults statuses, (∀ lane, fault_status (faults lane) = None) →
      replay_call p w (Ok tt) (mkWorld (mkState (gs_queues g) false true) (w_device w2)) ∧
      replay_finish p g (mkPolls [] (mkWait faults (qs_signals (w_device w2) (si_completion p)))) statuses =
        (mkState (gs_queues g) false true, Ok tt).
Proof.
  intros Hd Hdw Hp Hw Hstart w1. pose proof (encoded_submittable _ _ _ _ Hd Hdw Hp) as Hsub.
  pose proof (ib_queues_take _ _ _ _ Hd Hdw Hp _ Hw) as Htake.
  destruct (ib_started p w Hw env g signals Hstart) as (Hreach & Hf & Hu). fold w1 in Hreach.
  destruct (flight_ends _ _ _ _ _ w1 Hsub Htake Hreach Hf Hu) as [Hsn _]. split; [done|].
  intros w2 Hsteps Hnf faults statuses Hfaults. pose proof (device_graph _ _ _ Hsteps) as Hg2.
  assert (reachable_session (si_queue_sizes p) [si_batch p] [si_completion p] (si_completion p) w2) as Hreach2.
  { destruct Hreach as (w0 & Hinit & Hs). exists w0. split; [done|]. etrans; [exact Hs|]. clear -Hsteps.
    induction Hsteps as [|x y z Hstep _ IH]; [apply rtc_refl|]. eapply rtc_l; [by apply ss_device|done]. }
  destruct (flight_ends _ _ _ _ _ w2 Hsub Htake Hreach2 ltac:(by rewrite Hg2) ltac:(by rewrite Hg2)) as [_ Hend].
  specialize (Hend Hnf).
  assert (replay_finish p g (mkPolls [] (mkWait faults (qs_signals (w_device w2) (si_completion p)))) statuses =
    (mkState (gs_queues g) false true, Ok tt)) as Hfin.
  { unfold replay_finish. rewrite wait_signal_done by done. unfold apply_quiescence_transition. by rewrite Hu. }
  split; [|done].
  pose proof (call_waited p w env g signals (mkPolls [] (mkWait faults (qs_signals (w_device w2) (si_completion p))))
    statuses w2 Hstart) as Hcall.
  rewrite Hg2 in Hcall. change (w_graph w1) with g in Hcall. rewrite Hfin in Hcall. apply Hcall.
  eapply obs_poll; [exact Hsteps|done|apply obs_nil].
Qed.

(** ** A replay that is given up *)

Definition sample_world : world := new_world [64]%Z.

Local Abbreviation sample_start :=
  (replay_start sample_ib (w_graph sample_world) (qs_signals (w_device sample_world)) calm_env).

Lemma sample_starts : sample_start.2 = Done tt ∧ gs_in_flight sample_start.1.1 = true.
Proof. by vm_compute. Qed.

Definition sample_running : world :=
  mkWorld sample_start.1.1
    (mkQueueState (renew (w_graph sample_world) sample_start.1.1 (qs_launched (w_device sample_world)))
       (renew (w_graph sample_world) sample_start.1.1 (qs_completed (w_device sample_world))) sample_start.1.2).

Lemma outcome_triple {A B E} (x : A * B * exec E unit) : x.2 = Done tt → x = (x.1.1, x.1.2, Done tt).
Proof. by destruct x as [[a b] out]; intros H; cbn in *; subst. Qed.

Lemma sample_started :
  replay_start sample_ib (w_graph sample_world) (qs_signals (w_device sample_world)) calm_env =
    (sample_start.1.1, sample_start.1.2, Done tt).
Proof. exact (outcome_triple sample_start (proj1 sample_starts)). Qed.

Lemma sample_world_initial : initial (si_queue_sizes sample_ib) [si_batch sample_ib] sample_world.
Proof. apply (new_world_initial 1). done. Qed.

Lemma sample_world_reachable : ib_reachable sample_ib sample_world.
Proof. exists sample_world. split; [apply sample_world_initial|apply rtc_refl]. Qed.

(** The deadline passes before the device has done anything, and
    [hsa_queue_inactivate] fails. *)
Definition late : polls wait_poll := mkPolls [] (mkWait (λ _, 0%Z) 1).

Definition stale_world : world :=
  mkWorld (replay_finish sample_ib (w_graph sample_running) late (λ _, 1%Z)).1 (w_device sample_running).

Lemma stale_outcome :
  (replay_finish sample_ib (w_graph sample_running) late (λ _, 1%Z)).2 =
    Err (ReplayRuntime (OperationAndTeardown (SignalTimeout 0x1000) (HsaFailure 1)), Unknown).
Proof. by vm_compute. Qed.

Lemma stale_call :
  replay_call sample_ib sample_world
    (Err (ReplayRuntime (OperationAndTeardown (SignalTimeout 0x1000) (HsaFailure 1)), Unknown)) stale_world.
Proof.
  rewrite <-stale_outcome. apply (call_waited _ _ _ _ _ late (λ _, 1%Z) sample_running sample_started).
  eapply obs_poll; [apply rtc_refl|by vm_compute|apply obs_nil].
Qed.

Lemma stale_reachable : ib_reachable sample_ib stale_world.
Proof.
  exists sample_world. split; [apply sample_world_initial|]. apply rtc_once. eapply ib_replay, stale_call.
Qed.

(** A live queue from which nothing was launched launches its first packet. *)
Definition first_ready (bs : batches) (w : world) : bool :=
  match ring_program bs (w_queues w), w_queues w !! 0 with
  | Some ((_ :: _) :: _), Some q =>
      aq_active q && bool_decide (last (aq_doorbell q) = Some (as_i64 (aq_write q - 1)))
  | _, _ => false
  end.

Lemma first_launch bs w :
  first_ready bs w = true → (∀ q, q ∉ qs_launched (w_device w)) → ∃ w', device_step bs w w'.
Proof.
  unfold first_ready. destruct (ring_program bs (w_queues w)) as [[|[|v vs] lanes]|] eqn:Hprog; [done..| |done].
  destruct (w_queues w !! 0) as [q0|] eqn:Hq0; [|done]. intros [Ha Hdb%bool_decide_eq_true]%andb_prop Hnone.
  assert (live_at w 0) as Hlive by by exists q0.
  assert (packet_at ((v :: vs) :: lanes) (0, 0) = Some v) as Hv by done.
  destruct w as [g st]. eexists. econstructor; [exact Hprog|apply (aql_launch _ _ 0 0 v Hv); [apply Hnone|lia..]|].
  intros q [[H _]|[H Hn]]; cbn [qs_launched qs_completed] in H; [|by destruct Hn].
  apply elem_of_union in H as [->%elem_of_singleton|H]; [exact Hlive|]. by destruct (Hnone q).
Qed.

(** The queue still runs the packet. *)
Lemma stale_device_step : ∃ w', device_step [si_batch sample_ib] stale_world w'.
Proof.
  apply first_launch; [by vm_compute|]. intros q [_ Hq]%elem_of_renew. by apply elem_of_empty in Hq.
Qed.

(** [Proven] does not prove quiescence after a failed teardown.  There is
    a buffer and a sequence of calls (a replay that times out while
    [hsa_queue_inactivate] fails and reports [Unknown], then another replay)
    after which the second call has returned [GraphInactive] with [Proven]
    although the device can still start the command stream of the first. *)
Theorem stale_proven :
  replay_call sample_ib sample_world
    (Err (ReplayRuntime (OperationAndTeardown (SignalTimeout 0x1000) (HsaFailure 1)), Unknown)) stale_world ∧
  replay_call sample_ib stale_world (Err (GraphInactive, Proven)) stale_world ∧
  ∃ w', device_step [si_batch sample_ib] stale_world w'.
Proof.
  split; [apply stale_call|]. split; [|apply stale_device_step].
  assert (gs_usable (w_graph stale_world) = false) as Hu by by vm_compute.
  revert Hu. generalize stale_world. intros [g [launched completed signals]] Hu. cbn [w_graph] in Hu.
  pose proof (call_refused sample_ib (mkWorld g (mkQueueState launched completed signals)) calm_env g signals
    (GraphInactive, Proven)) as H. cbn [w_graph w_device qs_launched qs_completed qs_signals] in H.
  rewrite !renew_same in H. apply H. unfold replay_start. by rewrite Hu.
Qed.

Lemma ib_create_encoded d pool b p :
  pool_ok pool → ib_create d pool None b = Done p → encoded d (as_bytes b) (len_dwords b) p.
Proof. intros Hp. by apply (create_encoded_ok d pool 0 (as_bytes b) (len_dwords b) None None Hp). Qed.

Lemma sample_encoded : encoded sample_gpu (as_bytes sample_buffer) (len_dwords sample_buffer) sample_ib.
Proof. exact (ib_create_encoded _ _ _ _ sample_pool_ok sample_ib_created). Qed.

Lemma sample_dwords_u32 : in_u 32 (len_dwords sample_buffer).
Proof. by vm_compute. Qed.

Lemma replay_quiescence_witness :
  ib_reachable sample_ib sample_world ∧
  gs_in_flight (w_graph stale_world) = true ∧ gs_usable (w_graph stale_world) = false.
Proof.
  split; [apply sample_world_reachable|].
  exact (proj2 (replay_quiescence sample_gpu (as_bytes sample_buffer) (len_dwords sample_buffer) sample_ib sample_world
    sample_gpu_ok sample_dwords_u32 sample_encoded sample_world_reachable) _ _ stale_call).
Defined.

Lemma replay_returns_witness :
  ib_reachable sample_ib sample_world ∧
  ∃ g signals, replay_start sample_ib (w_graph sample_world) (qs_signals (w_device sample_world)) calm_env =
      (g, signals, Done tt) ∧
    sn (device_step [si_batch sample_ib])
      (mkWorld g (mkQueueState (renew (w_graph sample_world) g (qs_launched (w_device sample_world)))
         (renew (w_graph sample_world) g (qs_completed (w_device sample_world))) signals)).
Proof.
  split; [apply sample_world_reachable|]. do 2 eexists. split; [exact sample_started|].
  exact (proj1 (replay_returns sample_gpu (as_bytes sample_buffer) (len_dwords sample_buffer) sample_ib sample_world
    calm_env _ _ sample_gpu_ok sample_dwords_u32 sample_encoded sample_world_reachable sample_started)).
Defined.
