(* ===== verification/AqlPhasedClaims.v ===== *)
(** * The guarantees of phased buffers

    The packets that [phased_create] pushes, phase by phase, and what every
    run of the queues keeps: a stream starts after all streams of all earlier
    phases, and the completions of the last phase cover everything. *)

From stdpp Require Import gmap.
From S2P Require Import Prelude Packet Device AqlQueue Pm4 AqlGraph AqlGraphOk AqlDerivedOk Pm4Exec Pm4Build Pm4Claims AqlPm4 AqlPhased AqlPm4Ok AqlPm4Claims.

(** ** The emission *)

(** The stream of one lane, after barriers for the signals of the phase before. *)
Definition entry : Type := nat * packet_view * list Z.
Definition entry_emission (e : entry) : list (nat * packet_view) :=
  wait_emission e.1.1 e.2 ++ [(e.1.1, e.1.2)].

Definition phase_entries (prior : list Z) (v : list packet_view) : list entry := imap (λ lane x, (lane, x, prior)) v.

Fixpoint entries (prior : list Z) (vs : list (list packet_view)) : list entry :=
  match vs with
  | [] => []
  | v :: vs => phase_entries prior v ++ entries (pv_completion <$> v) vs
  end.

Definition last_completions (prior : list Z) (vs : list (list packet_view)) : list Z :=
  match last vs with Some v => pv_completion <$> v | None => prior end.

Lemma entries_snoc prior vs v :
  entries prior (vs ++ [v]) = entries prior vs ++ phase_entries (last_completions prior vs) v.
Proof.
  revert prior. induction vs as [|w vs IH]; intros prior; cbn [entries app].
  { by rewrite app_nil_r. }
  rewrite IH, <-app_assoc. do 3 f_equal. unfold last_completions. rewrite last_cons. by destruct (last vs).
Qed.

Lemma phase_entries_snoc prior v x :
  phase_entries prior (v ++ [x]) = phase_entries prior v ++ [(length v, x, prior)].
Proof. unfold phase_entries. rewrite imap_app. cbn. by rewrite Nat.add_0_r. Qed.

Definition phased_emission (vs : list (list packet_view)) : list (nat * packet_view) :=
  entries [] vs ≫= entry_emission.

(** The completions that a lane of phase [p] waits for. *)
Definition awaited (prior : list Z) (vs : list (list packet_view)) (p : nat) : list Z :=
  match p with
  | O => prior
  | S m => match vs !! m with Some v => pv_completion <$> v | None => [] end
  end.

Lemma entries_lookup prior vs p v lane x :
  vs !! p = Some v → v !! lane = Some x →
  (lane, x, awaited prior vs p) ∈ entries prior vs.
Proof.
  revert prior p. induction vs as [|w vs IH]; intros prior p Hp Hx; [done|]. cbn [entries]. apply elem_of_app.
  destruct p as [|p].
  - injection Hp as ->. left. unfold phase_entries. apply elem_of_lookup_imap. by exists lane, x.
  - right. specialize (IH (pv_completion <$> w) p Hp Hx). by destruct p.
Qed.

Lemma elem_of_entries prior vs e :
  e ∈ entries prior vs → ∃ p v, vs !! p = Some v ∧ v !! e.1.1 = Some e.1.2 ∧
    e.2 = awaited prior vs p.
Proof.
  revert prior. induction vs as [|w vs IH]; intros prior He; cbn [entries] in He; [by apply elem_of_nil in He|].
  apply elem_of_app in He as [He|He].
  - apply elem_of_lookup_imap in He as (lane & x & -> & Hx). by exists 0, w.
  - destruct (IH _ He) as (p & v & Hp & Hx & Heq). exists (S p), v. split; [done|]. split; [done|]. by destruct p.
Qed.

(** What is waited for was completed by an earlier entry. *)
Lemma entries_prior prior vs l1 e l2 s :
  entries prior vs = l1 ++ e :: l2 → s ∈ e.2 → s ∈ prior ∨ ∃ e', e' ∈ l1 ∧ pv_completion e'.1.2 = s.
Proof.
  revert prior l1. induction vs as [|w vs IH]; intros prior l1 Heq Hs; cbn [entries] in Heq; [by destruct l1|].
  apply app_middle_inv in Heq as [[l1' Heq]|(l1' & -> & Heq)].
  - assert (e ∈ phase_entries prior w) as He by (rewrite Heq; set_solver).
    apply elem_of_lookup_imap in He as (lane & x & -> & _). by left.
  - destruct (IH _ _ Heq Hs) as [Hin|(e' & He' & Hc)]; right.
    + apply list_elem_of_fmap in Hin as (x & -> & Hx). apply list_elem_of_lookup in Hx as [lane Hx].
      exists (lane, x, prior). split; [|done]. apply elem_of_app. left. apply elem_of_lookup_imap. by exists lane, x.
    + exists e'. split; [|done]. apply elem_of_app. by right.
Qed.

Lemma completions_entries l :
  (∀ e, e ∈ l → pv_completion e.1.2 ≠ 0%Z) → completions (l ≫= entry_emission) = (λ e, pv_completion e.1.2) <$> l.
Proof.
  induction l as [|e l IH]; intros Hnz; [done|]. rewrite bind_cons, completions_app, fmap_cons.
  rewrite IH by (intros; apply Hnz; by constructor). unfold entry_emission.
  rewrite completions_app, completions_wait, completions_cons_nz by (apply Hnz; by constructor). done.
Qed.

Lemma entries_completions prior vs :
  (λ e, pv_completion e.1.2) <$> entries prior vs = pv_completion <$> List.concat vs.
Proof.
  revert prior. induction vs as [|v vs IH]; intros prior; [done|]. cbn [entries List.concat].
  rewrite !fmap_app, IH. f_equal. unfold phase_entries. rewrite fmap_imap. unfold compose. cbn [fst snd].
  apply list_eq. intros i. rewrite list_lookup_imap, list_lookup_fmap. done.
Qed.

Lemma elem_of_middle {A} (x : A) l1 l2 : x ∈ l1 ++ x :: l2.
Proof. apply elem_of_app. right. by constructor. Qed.

(** The packet that completes signal [s]. *)
Definition completes (prog : list (list packet_view)) (s : Z) (q : packet_id) : Prop :=
  ∃ v, packet_at prog q = Some v ∧ pv_completion v = s.

Section phased.
Context (n : nat) (vs : list (list packet_view)).
Context (Hlanes : lanes_below n (phased_emission vs)).
Context (Hnz : Forall (λ s, s ≠ 0%Z) (pv_completion <$> List.concat vs)).
Context (Hnd : NoDup (pv_completion <$> List.concat vs)).
Context (Hkind : ∀ x, x ∈ List.concat vs → pv_barrier x = true ∧ ¬ is_barrier_and x).
Context (Hne : Forall (λ v, v ≠ []) vs).

Local Abbreviation E := (phased_emission vs).
Local Abbreviation prog := (program_of n E).

Lemma entry_view e : e ∈ entries [] vs → e.1.2 ∈ List.concat vs.
Proof using Type.
  intros (p & v & Hp & Hx & _)%elem_of_entries. apply list_elem_of_In, in_concat. exists v.
  rewrite <-!list_elem_of_In. split; by eapply list_elem_of_lookup_2.
Qed.

Lemma entry_nz e : e ∈ entries [] vs → pv_completion e.1.2 ≠ 0%Z.
Proof using Hnz.
  intros He%entry_view. eapply Forall_forall in Hnz; [exact Hnz|]. by apply list_elem_of_fmap_2.
Qed.

Lemma phased_completions : completions E = pv_completion <$> List.concat vs.
Proof using Hnz. unfold phased_emission. by rewrite completions_entries, entries_completions by apply entry_nz. Qed.

Lemma phased_ordered : well_ordered n E.
Proof using Hlanes Hnz Hnd Hkind.
  apply well_ordered_intro; [done|by rewrite phased_completions|].
  intros E1 l x E2 deps s Heq Hk Hs. apply bind_middle_inv in Heq as (l1 & e & l2 & a & b & Hl & Hy & ->).
  assert (e ∈ entries [] vs) as He by (rewrite Hl; apply elem_of_middle).
  assert ((l, x) ∈ entry_emission e) as Hx by (rewrite Hy; apply elem_of_middle).
  unfold entry_emission in Hx. apply elem_of_app in Hx as [Hx|Hx].
  2:{ apply list_elem_of_singleton in Hx as [= -> ->]. destruct (proj2 (Hkind _ (entry_view _ He))). by exists deps. }
  pose proof (elem_of_wait _ _ _ _ _ _ Hx Hk Hs) as Hin.
  destruct (entries_prior _ _ _ _ _ _ Hl Hin) as [Hnil|(e' & He' & <-)]; [by apply elem_of_nil in Hnil|].
  rewrite completions_app, elem_of_app. left. rewrite completions_entries.
  - by apply (list_elem_of_fmap_2 (λ e : entry, pv_completion e.1.2)).
  - intros e2 He2. apply entry_nz. rewrite Hl. apply elem_of_app. by left.
Qed.

Lemma phased_signals_only k l x :
  E !! k = Some (l, x) → pv_completion x ≠ 0%Z → signals_only prog (pv_completion x) (l, rank E l k).
Proof using Hlanes Hnz Hnd. intros. apply signals_only_completions; [done|by rewrite phased_completions|done..]. Qed.

(** The packet of an entry, and the barriers in front of it. *)
Lemma entry_position e :
  e ∈ entries [] vs →
  ∃ k, E !! k = Some (e.1.1, e.1.2) ∧
    ∀ s, s ∈ e.2 → ∃ b deps, b < k ∧ E !! b = Some (e.1.1, mkView CROSS_QUEUE_BARRIER (BarrierAnd deps) 0) ∧ s ∈ deps.
Proof using Type.
  intros (l1 & l2 & Hl)%list_elem_of_split. set (A := l1 ≫= entry_emission). set (W := wait_emission e.1.1 e.2).
  assert (E = A ++ W ++ (e.1.1, e.1.2) :: (l2 ≫= entry_emission)) as ->.
  { unfold phased_emission. rewrite Hl, bind_app, bind_cons. unfold entry_emission at 2. by rewrite <-!app_assoc. }
  exists (length A + length W). split.
  - rewrite !lookup_app_r by lia. by replace (_ - _ - _) with 0 by lia.
  - intros s Hs. destruct (wait_covers e.1.1 e.2 s Hs) as (deps & Hin & Hd). fold W in Hin.
    apply list_elem_of_lookup in Hin as [b Hb]. apply lookup_lt_Some in Hb as Hlt.
    exists (length A + b), deps. split; [lia|]. split; [|done].
    rewrite lookup_app_r, lookup_app_l by lia. by replace (length A + b - length A) with b by lia.
Qed.

(** Every packet is at or before the packet of an entry of its lane. *)
Lemma packet_entry j l x :
  E !! j = Some (l, x) → ∃ e k, e ∈ entries [] vs ∧ e.1.1 = l ∧ j ≤ k ∧ E !! k = Some (e.1.1, e.1.2).
Proof using Type.
  intros Hj. pose proof (take_drop_middle _ _ _ Hj) as Hm. symmetry in Hm. unfold phased_emission in Hm at 1.
  apply bind_middle_inv in Hm as (l1 & e & l2 & a & b & Hl & Hy & Ha).
  apply lookup_lt_Some in Hj as Hlt. apply (f_equal length) in Ha. rewrite length_take, length_app in Ha.
  assert ((l, x) ∈ entry_emission e) as Hin by (rewrite Hy; apply elem_of_middle).
  exists e, (length (l1 ≫= entry_emission) + length (entry_emission e) - 1).
  assert (length (entry_emission e) = length a + 1 + length b) as Hlen by (rewrite Hy, length_app; simpl; lia).
  split; [rewrite Hl; apply elem_of_middle|]. split.
  { unfold entry_emission in Hin. apply elem_of_app in Hin as [Hin|Hin].
    - by apply list_elem_of_fmap in Hin as (c & [= -> ->] & _).
    - by apply list_elem_of_singleton in Hin as [= -> ->]. }
  split; [lia|]. unfold phased_emission. rewrite Hl, bind_app, bind_cons. rewrite lookup_app_r, lookup_app_l by lia.
  unfold entry_emission at 2. unfold entry_emission in Hlen |- *. rewrite length_app in Hlen |- *. simpl in *.
  rewrite lookup_app_r by lia. by replace (_ - _ - _) with 0 by lia.
Qed.

(** ** Runs *)


Lemma entry_completes p v lane x :
  vs !! p = Some v → v !! lane = Some x →
  ∃ k, E !! k = Some (lane, x) ∧ (∀ q, completes prog (pv_completion x) q ↔ q = (lane, rank E lane k)) ∧
    ∀ m w s, p = S m → vs !! m = Some w → s ∈ pv_completion <$> w →
      ∃ b deps, b < k ∧ E !! b = Some (lane, mkView CROSS_QUEUE_BARRIER (BarrierAnd deps) 0) ∧ s ∈ deps.
Proof using Hlanes Hnz Hnd.
  intros Hp Hx. pose proof (entries_lookup [] vs p v lane x Hp Hx) as He.
  destruct (entry_position _ He) as (k & Hk & Hb). cbn [fst snd] in *. exists k. split; [done|].
  pose proof (phased_signals_only k _ _ Hk (entry_nz _ He)) as (_ & Hex & Huniq). split.
  - intros q. split; [intros (v' & Hv & Hc); by eapply Huniq|]. intros ->. done.
  - intros m w s -> Hw Hs. apply Hb. cbn [awaited]. by rewrite Hw.
Qed.

Context (st : queues) (Hst : rtc (aql_step prog) queues_start st).

Lemma phase_waits p v x p' v' x' q q' :
  vs !! p = Some v → x ∈ v → vs !! p' = Some v' → x' ∈ v' → p' < p →
  completes prog (pv_completion x) q → completes prog (pv_completion x') q' →
  q ∈ qs_launched st → q' ∈ qs_completed st.
Proof using All.
  revert v x q. induction p as [|m IH]; intros v x q Hp [lane Hx]%list_elem_of_lookup Hp' Hx' Hlt Hq Hq' Hl; [lia|].
  destruct (entry_completes _ _ _ _ Hp Hx) as (k & Hk & Hpk & Hb). apply Hpk in Hq as ->.
  destruct (lookup_lt_is_Some_2 vs m) as [w Hw]; [apply lookup_lt_Some in Hp; lia|].
  assert (∀ y qy, y ∈ w → completes prog (pv_completion y) qy → qy ∈ qs_completed st) as Hprev.
  { intros y qy Hy Hqy. destruct (Hb m w (pv_completion y) eq_refl Hw) as (b & deps & Hbk & Eb & Hin).
    { by apply list_elem_of_fmap_2. }
    apply list_elem_of_lookup in Hy as [ly Hy]. destruct (entry_completes _ _ _ _ Hw Hy) as (ky & Hky & Hpy & _).
    apply Hpy in Hqy as ->.
    eapply after_barrier_and; [exact Hlanes|exact Hst|exact Hk|exact Hl|exact Eb|exact Hbk|done|exact Hin|].
    apply (phased_signals_only ky _ _ Hky). eapply (entry_nz (ly, y, _)). by eapply entries_lookup. }
  destruct (decide (p' = m)) as [->|Hpm].
  { rewrite Hw in Hp'. injection Hp' as ->. by eapply Hprev. }
  pose proof (Forall_lookup_1 _ _ _ _ Hne Hw) as Hwne. destruct w as [|y w]; [done|].
  destruct (entry_completes _ _ 0 y Hw eq_refl) as (ky & _ & Hpy & _).
  apply (IH (y :: w) y (0, rank E 0 ky)); [done|by constructor|done|done|lia|by apply Hpy|done|].
  apply (qn_completed _ _ (queues_reachable _ _ Hst)). eapply Hprev; [by constructor|]. by apply Hpy.
Qed.

Lemma phased_covers v :
  last vs = Some v → (∀ s, s ∈ pv_completion <$> v → qs_signals st s = 0%Z) → all_complete prog st.
Proof using All.
  intros Hlast H0 q [y Hy]. pose proof (queues_reachable _ _ Hst) as Hinv. apply packet_at_inv in Hy as (j & Hj & ->).
  destruct (packet_entry _ _ _ Hj) as (e & k & He & Hlane & Hjk & Hk). rewrite <-Hlane in Hj |- *.
  assert ((e.1.1, rank E e.1.1 k) ∈ qs_completed st) as Hc.
  { apply elem_of_entries in He as (p & w & Hp & Hx & _). rewrite last_lookup in Hlast.
    assert (∀ x, x ∈ v → ∃ qx, completes prog (pv_completion x) qx ∧ qx ∈ qs_completed st) as Hterm.
    { intros x [lx Hxl]%list_elem_of_lookup. destruct (entry_completes _ _ _ _ Hlast Hxl) as (kx & Hkx & Hpx & _).
      eexists. split; [by apply Hpx|]. assert (pv_completion x ≠ 0%Z) as Hxz.
      { exact (entry_nz (lx, x, _) (entries_lookup _ _ _ _ _ _ Hlast Hxl)). }
      pose proof (qn_signal _ _ Hinv _ _ (phased_signals_only _ _ _ Hkx Hxz)) as Hs.
      rewrite H0 in Hs by (apply list_elem_of_fmap_2; by eapply list_elem_of_lookup_2). by case_decide. }
    destruct (entry_completes _ _ _ _ Hp Hx) as (k' & Hk' & Hpk & _).
    assert (completes prog (pv_completion e.1.2) (e.1.1, rank E e.1.1 k)) as Hek.
    { exists e.1.2. split; [|done]. by apply packet_at_emission. }
    destruct (decide (p = pred (length vs))) as [->|Hnp].
    - rewrite Hlast in Hp. injection Hp as <-. destruct (Hterm e.1.2) as (qx & Hqx & Hcx); [by eapply list_elem_of_lookup_2|].
      apply Hpk in Hqx, Hek. by rewrite Hek, <-Hqx.
    - pose proof (Forall_lookup_1 _ _ _ _ Hne Hlast) as Hvne. destruct v as [|x v]; [done|].
      destruct (Hterm x) as (qx & Hqx & Hcx); [by constructor|].
      eapply (phase_waits _ _ x p w e.1.2 qx); [exact Hlast|by constructor|done|by eapply list_elem_of_lookup_2| |done|done|].
      + apply lookup_lt_Some in Hp. lia.
      + by apply (qn_completed _ _ Hinv). }
  destruct (decide (j = k)) as [->|Hjne]; [done|].
  eapply after_barrier_bit; [exact Hlanes|exact Hst|exact Hk|by apply (qn_completed _ _ Hinv)| |exact Hj|lia].
  by apply (Hkind _ (entry_view _ He)).
Qed.
End phased.

(** ** Creation *)

Section create.
Context {C : Type} (encode : C → option (Z * Z) → list Z * Z).
Context (Hencode : ∀ c ts, in_u 32 (encode c ts).2).
Context (d : GpuDevice) (pool : KernargPool) (Hd : device_ok d) (Hpool : pool_ok pool).

(** The packet of a stream executes the buffer that holds its encoding. *)
Definition encoded_stream (e : C * option (Z * Z)) (k : KernargBuffer) (x : packet_view) : Prop :=
  ka_bytes k = (encode e.1 e.2).1 ∧
  x = mkView (mkHeader true FenceSystem FenceSystem) (IndirectBuffer (ka_address k) (encode e.1 e.2).2) (pv_completion x).

(** The timestamp addresses that [n] streams were encoded with. *)
Definition stream_timestamps (n : nat) (timestamps : option (list KernargBuffer)) : list (option (Z * Z)) :=
  match timestamps with
  | None => replicate n None
  | Some l => (λ k, Some (ka_address k, (ka_address k + 8)%Z)) <$> l
  end.

Record streams (cs : list C) (timestamps : option (list KernargBuffer)) (indirects : list KernargBuffer)
    (xs : list packet_view) : Prop := {
  sm_length : length (stream_timestamps (length cs) timestamps) = length cs;
  sm_encoded : Forall3 encoded_stream (zip cs (stream_timestamps (length cs) timestamps)) indirects xs
}.

Lemma streams_snoc cs ts ks xs c e ts' k x :
  streams cs ts ks xs → stream_timestamps (S (length cs)) ts' = stream_timestamps (length cs) ts ++ [e] →
  encoded_stream (c, e) k x → streams (cs ++ [c]) ts' (ks ++ [k]) (xs ++ [x]).
Proof using Type.
  intros [Hl Hs] Hts He. split; rewrite length_app, Nat.add_1_r, Hts.
  - rewrite length_app, Hl. simpl. lia.
  - rewrite zip_with_app by done. apply Forall3_app; [done|]. apply Forall3_cons; [done|apply Forall3_nil].
Qed.

Lemma allocated_fields i length k :
  allocate_executable_bytes pool i length = Ok k →
  in_u 64 (ka_address k) ∧ checked_add 64 (ka_address k) 8 = Some (ka_address k + 8)%Z.
Proof using Hpool.
  intros Ha. apply (allocate_bytes_address _ _ _ _ _ Hpool) in Ha as Haddr. split; [done|].
  unfold allocate_executable_bytes, allocate_bytes in Ha. cbn [is_power_of_two] in Ha.
  unfold checked_add. rewrite (proj2 (Z.leb_le _ _)); [done|].
  assert (ka_address k mod 16 = 0)%Z as Hmod.
  { destruct (negb (is_power_of_two 16)); [done|]. destruct (_ =? 0)%Z; [by injection Ha as <-|].
    apply bind_Ok_inv in Ha as (rounded & _ & Ha). apply bind_Ok_inv in Ha as (pointer & _ & Ha).
    destruct (Z.eqb_spec (pointer mod 16) 0) as [Hz|]; [|done]. destruct (_ || _); [done|].
    apply bind_Ok_inv in Ha as (u & _ & Ha). by injection Ha as <-. }
  unfold in_u, umax in *. change (2 ^ 64)%Z with 18446744073709551616%Z in *.
  pose proof (Z.div_mod (ka_address k) 16). lia.
Qed.

Lemma lane_timestamps_ok ts used n :
  lane_timestamps pool ts used ≠ Panic ∧
  ∀ pair ts' used', lane_timestamps pool ts used = Done (pair, ts', used') →
    stream_timestamps (S n) ts' = stream_timestamps n ts ++ [pair].
Proof using Hpool.
  destruct ts as [l|]; cbn [lane_timestamps].
  - destruct (allocate_executable_bytes pool used 16) as [k|e] eqn:Ha; cbn [map_err try_ mbind exec_bind]; [|done].
    destruct (allocated_fields _ _ _ Ha) as [_ Hadd]. cbn [zeroed with_bytes ka_address]. rewrite Hadd.
    cbn [unwrap mbind exec_bind]. split; [done|]. intros pair ts' used' [= <- <- <-]. cbn [stream_timestamps].
    by rewrite fmap_app.
  - split; [done|]. intros pair ts' used' [= <- <- <-]. cbn [stream_timestamps].
    by rewrite replicate_S_end.
Qed.

Lemma phased_lane_ok n E cs xs s completions lane c :
  holds n E (pb_batches s) → lane < n → lane < length completions → handles (pb_prior s) → handles completions →
  streams cs (pb_timestamps s) (pb_indirects s) xs →
  phased_lane encode pool completions s (lane, c) ≠ Panic ∧
  ∀ s', phased_lane encode pool completions s (lane, c) = Done s' →
    ∃ x, completions !! lane = Some (pv_completion x) ∧
      holds n (E ++ entry_emission (lane, x, pb_prior s)) (pb_batches s') ∧
      streams (cs ++ [c]) (pb_timestamps s') (pb_indirects s') (xs ++ [x]) ∧
      pb_prior s' = pb_prior s ∧ pb_completions s' = pb_completions s ∧ pb_signals s' = pb_signals s.
Proof using Hencode Hpool.
  intros Hh Hn Hlane Hprior Hcomp Hs. unfold phased_lane.
  destruct (push_waits_holds n E (pb_batches s) lane (pb_prior s) Hh Hn Hprior) as [Hnp Hw].
  destruct (push_waits _ _ _) as [bs|e|]; cbn [mbind exec_bind]; [|done..]. specialize (Hw _ eq_refl).
  destruct (lane_timestamps_ok (pb_timestamps s) (pb_used s) (length cs)) as [Hnp1 Hts].
  destruct (lane_timestamps _ _ _) as [[[pair ts] used]|e|]; cbn [mbind exec_bind]; [|done..].
  specialize (Hts _ _ _ eq_refl). pose proof (Hencode c pair) as Hdw.
  destruct (encode c pair) as [bytes dwords] eqn:He. destruct (dwords =? 0)%Z; [done|].
  destruct (allocate_executable_bytes pool used (length bytes)) as [k|e] eqn:Ha; cbn [map_err try_ mbind exec_bind]; [|done].
  destruct (allocated_fields _ _ _ Ha) as [Haddr _].
  destruct (write_exact k bytes) as [k'|e] eqn:Hk; cbn [map_err try_ mbind exec_bind]; [|done].
  unfold write_exact in Hk. destruct (negb _); [done|]. injection Hk as <-.
  destruct (lookup_lt_is_Some_2 completions lane Hlane) as [c' Hc']. rewrite Hc'. cbn [unwrap mbind exec_bind].
  destruct (pm4_indirect_buffer _ _ _) as [image|e] eqn:Hi; cbn [map_err try_ mbind exec_bind]; [|done].
  assert (in_u 64 c') as Hcu by (eapply Forall_lookup_1 in Hcomp; [apply Hcomp|done]).
  pose proof (view_indirect _ _ _ _ Haddr Hdw Hcu Hi) as Hview.
  destruct (holds_push n _ bs lane _ image Hw Hn Hview) as (bs' & -> & Hh'). cbn [unwrap mbind exec_bind].
  split; [done|]. intros s' [= <-]. cbn [pb_batches pb_timestamps pb_indirects pb_prior pb_completions pb_signals].
  exists (mkView (mkHeader true FenceSystem FenceSystem) (IndirectBuffer (ka_address k) dwords) c').
  split; [done|]. split; [unfold entry_emission; cbn [fst snd]; by rewrite app_assoc|].
  split; [|done]. eapply streams_snoc; [exact Hs|exact Hts|].
  unfold encoded_stream. cbn [fst snd with_bytes ka_bytes ka_address pv_completion]. by rewrite He.
Qed.

Definition stream_completions (xs : list packet_view) : list Z := pv_completion <$> xs.

(** What the loop has made of the phases [done]: streams [vs]. *)
Record made (n : nat) (done : list (list C)) (vs : list (list packet_view)) (s : phased_build) : Prop := {
  md_shape : length <$> vs = length <$> done;
  md_holds : holds n (phased_emission vs) (pb_batches s);
  md_prior : pb_prior s = last_completions [] vs;
  md_completions : pb_completions s = stream_completions <$> vs;
  md_signals : mapM (new_signal d) (seq 0 (pb_signals s)) = Ok (stream_completions (List.concat vs));
  md_streams : streams (List.concat done) (pb_timestamps s) (pb_indirects s) (List.concat vs)
}.

Lemma made_prior n done vs s : made n done vs s → handles (pb_prior s).
Proof using Hd.
  intros [_ _ -> _ Hs _]. destruct (new_signals_ok _ _ _ _ Hd Hs) as (_ & Hh & _). unfold last_completions.
  destruct vs as [|v vs _] using rev_ind; [constructor|]. rewrite last_snoc.
  unfold stream_completions in Hh. rewrite concat_app, fmap_app in Hh. apply Forall_app in Hh as [_ Hh]. simpl in Hh. by rewrite app_nil_r in Hh.
Qed.

Lemma phased_emission_snoc vs v :
  phased_emission (vs ++ [v]) = phased_emission vs ++ (phase_entries (last_completions [] vs) v ≫= entry_emission).
Proof using Type. unfold phased_emission. by rewrite entries_snoc, bind_app. Qed.

Lemma phased_phase_ok n done vs s phase :
  made n done vs s → length phase ≤ n →
  phased_phase encode d pool s phase ≠ Panic ∧
  ∀ s', phased_phase encode d pool s phase = Done s' → ∃ v, made n (done ++ [phase]) (vs ++ [v]) s'.
Proof using All.
  intros Hm Hn. pose proof (made_prior _ _ _ _ Hm) as Hprior. destruct Hm as [Hsh Hh Hpr Hco Hsig Hst].
  unfold phased_phase. destruct (mapM (new_signal d) (seq (pb_signals s) _)) as [cs|e] eqn:Hcs; cbn [try_ mbind exec_bind]; [|done].
  destruct (new_signals_ok _ _ _ _ Hd Hcs) as (Hlen & Hcomp & _).
  destruct (foldE_ok (λ l1 s1, ∃ v, pv_completion <$> v = take (length l1) cs ∧
    holds n (phased_emission vs ++ (phase_entries (pb_prior s) v ≫= entry_emission)) (pb_batches s1) ∧
    streams (List.concat done ++ l1.*2) (pb_timestamps s1) (pb_indirects s1) (List.concat vs ++ v) ∧
    pb_prior s1 = pb_prior s ∧ pb_completions s1 = pb_completions s ∧ pb_signals s1 = pb_signals s)
    (phased_lane encode pool cs) (enumerate phase) s) as [Hnp Hok].
  - exists []. cbn [phase_entries imap mbind list_bind fmap list_fmap]. by rewrite !app_nil_r.
  - intros l1 [lane c] l2 s1 Heq (v & Hv & Hh1 & Hs1 & Hp1 & Hc1 & Hg1).
    apply enumerate_middle in Heq as [-> Hl]. apply lookup_lt_Some in Hl as Hlt.
    assert (length l1 < n) as Hln by lia. assert (length l1 < length cs) as Hlc by lia.
    assert (handles (pb_prior s1)) as Hprior1 by by rewrite Hp1.
    destruct (phased_lane_ok n _ _ _ s1 cs (length l1) c Hh1 Hln Hlc Hprior1 Hcomp Hs1) as [Hnp Hok].
    split; [done|]. intros s2 (x & Hx & Hh2 & Hs2 & Hp2 & Hc2 & Hg2)%Hok. exists (v ++ [x]).
    assert (length v = length l1) as Hlv.
    { apply (f_equal length) in Hv. rewrite length_fmap, length_take in Hv. lia. }
    split; [|split; [|split; [|by rewrite Hp2, Hc2, Hg2]]].
    + rewrite fmap_app, length_app, Nat.add_1_r, Hv. cbn [fmap list_fmap]. symmetry. by apply take_S_r.
    + rewrite phase_entries_snoc, bind_app, Hlv, app_assoc. cbn [mbind list_bind]. rewrite app_nil_r.
      by rewrite <-Hp1 at 2.
    + by rewrite fmap_app, !app_assoc.
  - destruct (foldE _ _ _) as [s'|e|]; cbn [mbind exec_bind]; [|done..].
    destruct (Hok _ eq_refl) as (v & Hv & Hh' & Hs' & Hp' & Hc' & Hg'). split; [done|]. intros s2 [= <-].
    rewrite length_enumerate, take_ge in Hv by lia. exists v. split; cbn [pb_batches pb_prior pb_completions pb_signals pb_timestamps pb_indirects].
    + rewrite !fmap_app, Hsh. f_equal. cbn [fmap list_fmap]. do 2 f_equal.
      apply (f_equal length) in Hv. rewrite length_fmap in Hv. lia.
    + rewrite phased_emission_snoc, <-Hpr. done.
    + unfold last_completions. by rewrite last_snoc.
    + rewrite fmap_app, Hc', Hco. f_equal. cbn [fmap list_fmap]. f_equal. done.
    + unfold stream_completions. rewrite concat_app, fmap_app. cbn [List.concat]. rewrite app_nil_r, Hv, Hg', seq_app.
      apply mapM_Ok. apply Forall2_app; by apply mapM_Ok.
    + rewrite !concat_app. cbn [List.concat]. rewrite !app_nil_r. by rewrite enumerate_snd in Hs'.
Qed.
End create.

(** ** Created buffers *)

Section created.
Context {C : Type} (encode : C → option (Z * Z) → list Z * Z).
Context (Hencode : ∀ c ts, in_u 32 (encode c ts).2).
Context (d : GpuDevice) (pool : KernargPool) (Hd : device_ok d) (Hpool : pool_ok pool).

(** What a created buffer holds: stream [lane] of phase [i] is [vs !! i !! lane]. *)
Record phased_holds (phases : list (list C)) (p : PhasedMultiQueuePm4Ib) (vs : list (list packet_view)) : Prop := {
  pd_shape : length <$> vs = length <$> phases;
  pd_nonempty : phases ≠ [] ∧ Forall (λ v, v ≠ []) vs;
  pd_holds : holds (max_list (length <$> phases)) (phased_emission vs) (ph_batches p);
  pd_completions : ph_phase_completions p = stream_completions <$> vs;
  pd_handles : handles (stream_completions (List.concat vs));
  pd_nodup : NoDup (stream_completions (List.concat vs));
  pd_streams : streams encode (List.concat phases) (ph_timestamps p) (ph_indirects p) (List.concat vs);
  pd_fits lane batch c : ph_batches p !! lane = Some batch → ph_queue_sizes p !! lane = Some c →
    (Z.of_nat (length batch) ≤ c)%Z
}.

Lemma shape_nonempty {A B} (l : list (list A)) (k : list (list B)) :
  length <$> l = length <$> k → Forall (λ x, x ≠ []) k → Forall (λ x, x ≠ []) l.
Proof using Type.
  revert k. induction l as [|x l IH]; intros [|y k]; [constructor|done..|]. intros [= Hxy Hl] [Hy Hk]%Forall_cons.
  constructor; [by destruct x, y|by eapply IH].
Qed.

Lemma phased_create_ok phases f :
  phased_create encode d pool phases f ≠ Panic ∧
  ∀ p, phased_create encode d pool phases f = Done p → ∃ vs, phased_holds phases p vs.
Proof using All.
  unfold phased_create. destruct (is_empty phases) eqn:He; [done|]. apply is_empty_false in He.
  destruct (existsb is_empty phases) eqn:Hx; [done|]. cbn [orb].
  assert (Forall (λ x, x ≠ []) phases) as Hne.
  { apply Forall_forall. intros phase Hin ->. assert (existsb is_empty phases = true); [|congruence].
    apply existsb_exists. exists []. by rewrite <-list_elem_of_In. }
  set (n := max_list (length <$> phases)).
  destruct (foldE_ok (λ l1 s, ∃ vs, made encode d n l1 vs s) (phased_phase encode d pool) phases
    (mkBuild (replicate n []) [] ((λ _, []) <$> f) [] [] 0 0)) as [Hnp Hok].
  - exists []. split; try done; [apply holds_start|]. split; [by destruct f|].
    cbn [List.concat length pb_timestamps pb_indirects]. destruct f; apply Forall3_nil.
  - intros l1 phase l2 s Heq [vs Hm].
    assert (length phase ≤ n) as Hn.
    { apply max_list_elem_of_le, list_elem_of_fmap_2. rewrite Heq. set_solver. }
    destruct (phased_phase_ok encode Hencode d pool Hd Hpool n l1 vs s phase Hm Hn) as [Hnp Hok].
    split; [done|]. intros s' [v Hv]%Hok. by exists (vs ++ [v]).
  - destruct (foldE _ _ _) as [s|e|]; cbn [mbind exec_bind]; [|done..].
    destruct (Hok _ eq_refl) as [vs [Hsh Hh _ Hco Hsig Hst]].
    destruct (retained_queue_size _ _ _) as [size|e]; cbn [try_ mbind exec_bind]; [|done].
    destruct (gpu_queue_sizes d n size) as [sizes|e] eqn:Hq; cbn [map_err try_ mbind exec_bind]; [|done].
    pose proof (check_capacities_no_panic sizes (pb_batches s)) as Hcap.
    rewrite (dk_queues _ Hd _ _ _ Hq), (holds_length _ _ _ Hh) in Hcap. specialize (Hcap (le_n _)).
    destruct (check_capacities sizes _) as [u|e|] eqn:Hc; cbn [mbind exec_bind]; [|done..].
    split; [done|]. intros p [= <-]. exists vs.
    split; cbn [ph_batches ph_phase_completions ph_timestamps ph_indirects ph_queue_sizes]; try done.
    + split; [done|]. by eapply shape_nonempty.
    + by eapply new_signals_ok.
    + by eapply new_signals_nodup.
    + intros lane batch c. by eapply check_capacities_fit.
Qed.

(** Streams are indirect buffers with barrier bits. *)
Lemma streams_kind cs ts ks xs x :
  streams encode cs ts ks xs → x ∈ xs → pv_barrier x = true ∧ ¬ is_barrier_and x.
Proof using Type.
  intros [_ Hs] Hx. induction Hs as [|e k y l l' l'' [_ Hy] _ IH]; [by apply elem_of_nil in Hx|].
  apply elem_of_cons in Hx as [->|Hx]; [|by apply IH]. rewrite Hy. split; [done|]. by intros [deps [=]].
Qed.
End created.

(** The program of the queues, and the order its runs keep. *)
Record phases_in_order (vs : list (list packet_view)) (prog : list (list packet_view)) (st : queues) : Prop := {
  po_after i j v w x y q q' :
    vs !! i = Some v → x ∈ v → packet_at prog q = Some x →
    vs !! j = Some w → y ∈ w → packet_at prog q' = Some y →
    j < i → q ∈ qs_launched st → q' ∈ qs_completed st;
  po_covers v : last vs = Some v → (∀ x, x ∈ v → qs_signals st (pv_completion x) = 0%Z) → all_complete prog st;
  po_ends : sn (aql_step prog) st ∧ (nf (aql_step prog) st → all_complete prog st)
}.

(** C27: Phases are ordered whatever the queues do.  Creating a phased buffer
    never panics; when it succeeds, no queue overflows, every stream of every
    phase has its own buffer with exactly its encoding (with the timestamp
    addresses of that stream), and its packet stands on the queue of its lane
    with its own completion signal.  In every interleaving of the queues a
    stream is launched only after every stream of every earlier phase has
    completed, also those of phases with more lanes; the signals of the last
    phase, the only ones the host waits for, cover all packets; and every run is
    finite and ends with all packets complete. *)
Theorem phased_order {C} (encode : C → option (Z * Z) → list Z * Z) d pool phases f :
  (∀ c ts, in_u 32 (encode c ts).2) → device_ok d → pool_ok pool →
  phased_create encode d pool phases f ≠ Panic ∧
  ∀ p, phased_create encode d pool phases f = Done p →
  ∃ vs prog, views (ph_batches p) = Some prog ∧
    (∀ lane batch c, ph_batches p !! lane = Some batch → ph_queue_sizes p !! lane = Some c →
       (Z.of_nat (length batch) ≤ c)%Z) ∧
    length <$> vs = length <$> phases ∧ ph_phase_completions p = stream_completions <$> vs ∧
    NoDup (stream_completions (List.concat vs)) ∧
    streams encode (List.concat phases) (ph_timestamps p) (ph_indirects p) (List.concat vs) ∧
    (∀ i v lane x, vs !! i = Some v → v !! lane = Some x → ∃ k, packet_at prog (lane, k) = Some x) ∧
    ∀ st, rtc (aql_step prog) queues_start st → phases_in_order vs prog st.
Proof.
  intros Henc Hd Hpool. destruct (phased_create_ok encode Henc d pool Hd Hpool phases f) as [Hnp Hok].
  split; [done|]. intros p [vs [Hsh [_ Hne] [Hv Hlanes] Hco Hh Hnd Hst Hfit]]%Hok.
  set (n := max_list _) in *.
  assert (Forall (λ s, s ≠ 0%Z) (pv_completion <$> List.concat vs)) as Hnz by (eapply Forall_impl; [exact Hh|by intros s []]).
  pose proof (λ x, streams_kind encode _ _ _ _ x Hst) as Hkind.
  exists vs, (program_of n (phased_emission vs)).
  split; [done|]. split; [done|]. split; [done|]. split; [done|]. split; [done|]. split; [done|]. split.
  - intros i v lane x Hi Hx. destruct (entry_completes n vs Hlanes Hnz Hnd _ _ _ _ Hi Hx) as (k & Hk & _).
    exists (rank (phased_emission vs) lane k). by apply packet_at_emission.
  - intros st Hrun. split.
    + intros i j v w x y q q' Hi Hx Hq Hj Hy Hq' Hlt. eapply (phase_waits n vs Hlanes Hnz Hnd Hkind Hne st Hrun i v x j w y);
        try done; by eexists.
    + intros v Hl H0. apply (phased_covers n vs Hlanes Hnz Hnd Hkind Hne st Hrun v Hl).
      intros s (x & -> & Hx)%list_elem_of_fmap. by apply H0.
    + apply queues_complete; [done|by apply phased_ordered|done].
Qed.

(** ** A concrete buffer *)

Lemma encode_gfx12_dwords c ts : in_u 32 (encode_gfx12 c ts).2.
Proof.
  unfold encode_gfx12, len_dwords, as_u32. cbn [snd]. unfold in_u, umax.
  pose proof (Z.mod_pos_bound (Z.of_nat (length (cb_dwords match ts with
    | Some (start, end_) => with_gpu_timestamps c start end_ | None => c end))) (2 ^ 32)). lia.
Qed.

(** Two streams, then one, with timestamps. *)
Definition sample_streams : list (list Gfx12Pm4CommandBuffer) := [[sample_buffer; sample_buffer]; [sample_buffer]].

Example sample_streams_packets :
  match phased_create_profiled sample_gpu sample_pool sample_streams with
  | Done p => (phased_packet_count p, length (ph_indirects p), length <$> ph_phase_completions p) = (4, 3, [2; 1])
  | _ => False
  end.
Proof. by vm_compute. Qed.

Lemma phased_order_witness :
  ∃ p vs prog, phased_create encode_gfx12 sample_gpu sample_pool sample_streams (Some 100000000%Z) = Done p ∧
    views (ph_batches p) = Some prog ∧ length <$> vs = [2; 1] ∧ phases_in_order vs prog queues_start.
Proof.
  destruct (phased_order encode_gfx12 sample_gpu sample_pool sample_streams (Some 100000000%Z)
    encode_gfx12_dwords sample_gpu_ok sample_pool_ok) as [_ H].
  destruct (phased_create encode_gfx12 sample_gpu sample_pool sample_streams (Some 100000000%Z)) as [p|e|] eqn:E;
    [|by vm_compute in E|by vm_compute in E].
  destruct (H p eq_refl) as (vs & prog & Hv & _ & Hsh & _ & _ & _ & _ & Hord).
  exists p, vs, prog. split; [done|]. split; [done|]. split; [exact Hsh|]. apply Hord, rtc_refl.
Defined.
