(* ===== verification/RailCopy.v ===== *)
(** * Copy programs ([railgun/src/lib.rs], [railgun/src/copy.rs])

    Host words, affine formulas, resources, copy nodes, and [prepare], which
    binds a program to allocations and words, checks it, resolves every copy
    and writes the images of the pointer tables.  Identifiers are indices.
    [Span::end] is a sum on [u64], which wraps in a release build; that it never
    does on a span that [prepare] made is part of [RailCopyOk]. *)

From S2P Require Import Prelude Packet.

(** ** Programs *)

Abbreviation WordId := nat.
Abbreviation ResourceId := nat.

Record Word := mkWord { wd_name : rstr; wd_domain : Z * Z }.

Record Formula := mkFormula { fm_c0 : Z; fm_terms : list (WordId * Z) }.

Record Addr := mkAddr { ad_resource : ResourceId; ad_offset : Formula }.

Record CopySpec := mkSpec { cs_src : Addr; cs_dst : Addr; cs_len : Formula }.

Inductive ResourceKind :=
| Weights | Kv | DnState | ConvState | EfResidual | Tape | HiddenRing | DraftScratch | VerifyScratch
| ScratchKind | Logits | ControlWord
| PointerTable (entries : list CopySpec).

Record Resource := mkRes { re_label : rstr; re_size : Formula; re_kind : ResourceKind }.

Record Binding := mkBinding { bi_base : Z; bi_bytes : Z }.

Inductive Node :=
| Copy (spec : CopySpec)
| CopyBatch (table : ResourceId) (n : Formula).

Record Program := mkProgram {
  pg_arch : rstr;
  pg_words : list Word;
  pg_resources : list Resource;
  pg_nodes : list Node
}.

Inductive PrepareError :=
| WordCount (got want : nat)
| WordOutOfDomain (name : rstr) (value lo hi : Z)
| BindingCount (got want : nat)
| UnknownWord (word : nat)
| UnknownResource (resource : nat)
| Overflow
| BindingTooSmall (label : rstr) (bound size : Z)
| OutOfBounds (node : nat) (label : rstr) (offset len size : Z)
| TooLong (node : nat) (len max : Z)
| SelfOverlap (node : nat)
| WritesTable (node : nat) (label : rstr)
| NotATable (node : nat) (label : rstr)
| SharedTable (node : nat) (label : rstr)
| BatchSize (node : nat) (n : Z) (entries : nat) (max : Z)
| TableTooSmall (node : nat) (label : rstr) (need size : Z)
| BatchOverlap (node a b : nat) (reads : bool)
| TooManySlots (node : nat) (label : rstr) (source : bool) (count max : nat)
| SlotRange (node entry : nat) (label : rstr) (offset len max : Z).

(** ** Formulas *)

Definition constant (c0 : Z) : Formula := mkFormula c0 [].
Definition word (w : WordId) (coeff : Z) : Formula := mkFormula 0 [(w, coeff)].
Definition plus (f : Formula) (c : Z) : option Formula :=
  c0 ← checked_add 64 (fm_c0 f) c; Some (mkFormula c0 (fm_terms f)).

Definition eval_term (words : list Z) (acc : Z) (term : WordId * Z) : result PrepareError Z :=
  value ← ok_or (words !! term.1) (UnknownWord term.1);
  ok_or (t ← checked_mul 64 term.2 value; checked_add 64 acc t) Overflow.

Definition formula_eval (f : Formula) (words : list Z) : result PrepareError Z :=
  foldR (eval_term words) (fm_c0 f) (fm_terms f).

(** ** Copy kernels *)

Definition BLOCK : Z := 256.
Definition CHUNK_BYTES : Z := BLOCK * 16 * 2.
Definition MAX_GRID_X : Z := Z.shiftl 1 23.
Definition MAX_COPY_BYTES : Z := umax 32.
Definition MAX_BATCH : Z := 65535.
Definition ENTRY_BYTES : Z := 24.
Definition SRC_SLOTS : nat := 8.
Definition DST_SLOTS : nat := 8.
Definition MAX_SLOT_END : Z := Z.shiftl 1 32.
Definition BATCH_KERNARG_BYTES : nat := 16 + 8 * (SRC_SLOTS + DST_SLOTS).
Definition MAX_FILL_WORDS : Z := Z.shiftl 1 30.

Record CopyEntry := mkCopyEntry {
  ce_src_slot : Z;
  ce_src_offset : Z;
  ce_dst_slot : Z;
  ce_dst_offset : Z;
  ce_bytes : Z
}.

Definition entry_encode (e : CopyEntry) (out : list Z) : list Z :=
  foldl (λ out word, out ++ le_bytes 4 word) out
    [ce_src_slot e; ce_src_offset e; ce_dst_slot e; ce_dst_offset e; ce_bytes e; 0%Z].

Record Launch := mkLaunch { ln_symbol : rstr; ln_grid : arr3; ln_block : arr3; ln_kernarg : list Z }.

Definition COPY_SYMBOL : rstr := lit "railgun_copy".
Definition BATCH_SYMBOL : rstr := lit "railgun_copy_batch".
Definition FILL_SYMBOL : rstr := lit "railgun_fill_u32".

Definition div_ceil (a b : Z) : Z := ((a + b - 1) / b)%Z.
Definition clamp (x lo hi : Z) : Z := Z.max lo (Z.min x hi).

Definition grid_x (bytes : Z) : Z := as_u32 (clamp (div_ceil bytes CHUNK_BYTES) 1 MAX_GRID_X).

(** [Vec::resize] with zeros. *)
Definition resize0 (n : nat) (l : list Z) : list Z := take n l ++ replicate (n - length l) 0%Z.

Definition copy_launch (src dst bytes : Z) : Launch :=
  mkLaunch COPY_SYMBOL (mk3 (grid_x bytes) 1 1) (mk3 BLOCK 1 1)
    (resize0 24 (le_bytes 8 src ++ le_bytes 8 dst ++ le_bytes 4 bytes)).

Definition fill_launch (dst value words : Z) : exec unit Launch :=
  if negb ((1 <=? words)%Z && (words <=? MAX_FILL_WORDS)%Z) then Panic
  else if negb (dst mod 4 =? 0)%Z then Panic
  else Done (mkLaunch FILL_SYMBOL (mk3 (grid_x (words * 4)) 1 1) (mk3 BLOCK 1 1)
               (le_bytes 8 dst ++ le_bytes 4 value ++ le_bytes 4 words)).

Inductive FillError := FillWords | FillAlignment | FillOverflow | FillExtent.

Definition check_fill (dst_offset words dst_size : Z) : result FillError Z :=
  if (words =? 0)%Z || (MAX_FILL_WORDS <? words)%Z then Err FillWords
  else if negb (dst_offset mod 4 =? 0)%Z then Err FillAlignment
  else
    end_ ← ok_or (checked_add 64 dst_offset (words * 4)) FillOverflow;
    if (dst_size <? end_)%Z then Err FillExtent else Ok dst_offset.

Definition slot_arguments (bases : list Z) (slots : nat) : list Z :=
  seq 0 slots ≫= λ k, le_bytes 8 (default 0%Z (bases !! k)).

Definition batch_launch (table n : Z) (src dst : list Z) (max_bytes : Z) : option Launch :=
  if (SRC_SLOTS <? length src) || (DST_SLOTS <? length dst) then None
  else
    Some (mkLaunch BATCH_SYMBOL (mk3 (grid_x max_bytes) n 1) (mk3 BLOCK 1 1)
            (resize0 16 (le_bytes 8 table ++ le_bytes 4 n)
             ++ slot_arguments src SRC_SLOTS ++ slot_arguments dst DST_SLOTS)).

(** ** Spans *)

Record Span := mkSpan { sp_resource : ResourceId; sp_offset : Z; sp_len : Z }.

Definition span_end (s : Span) : Z := wrapping_add 64 (sp_offset s) (sp_len s).

Definition span_overlaps (s other : Span) : bool :=
  (sp_resource s =? sp_resource other) && (0 <? sp_len s)%Z && (0 <? sp_len other)%Z
  && (sp_offset s <? span_end other)%Z && (sp_offset other <? span_end s)%Z.

Record ResolvedCopy := mkCopy { rc_src : Span; rc_dst : Span; rc_src_addr : Z; rc_dst_addr : Z }.

Record Slot := mkSlot { sl_resource : ResourceId; sl_base : Z }.

Inductive PreparedNode :=
| PCopy (c : ResolvedCopy)
| PCopyBatch (table : ResourceId) (table_addr : Z) (src_slots dst_slots : list Slot) (copies : list ResolvedCopy).

Record TableImage := mkImageOf { ti_resource : ResourceId; ti_addr : Z; ti_bytes : list Z }.

Record Prepared := mkPrepared { pr_nodes : list PreparedNode; pr_tables : list TableImage }.

#[export] Instance span_eq_dec : EqDecision Span.
Proof. solve_decision. Defined.
#[export] Instance resolved_eq_dec : EqDecision ResolvedCopy.
Proof. solve_decision. Defined.

(** ** Slots and order independence *)

Definition push_new (ids : list ResourceId) (id : ResourceId) : list ResourceId :=
  if existsb (Nat.eqb id) ids then ids else ids ++ [id].

Definition slot_map (node : nat) (label : rstr) (entries : list CopySpec) :
    result PrepareError (list ResourceId * list ResourceId) :=
  let '(src, dst) := foldl (λ '(src, dst) e,
      (push_new src (ad_resource (cs_src e)), push_new dst (ad_resource (cs_dst e)))) ([], []) entries in
  _ ← guard_ (SRC_SLOTS <? length src) (TooManySlots node label true (length src) SRC_SLOTS);
  _ ← guard_ (DST_SLOTS <? length dst) (TooManySlots node label false (length dst) DST_SLOTS);
  Ok (src, dst).

(** Tuples of a resource and an offset are ordered lexicographically. *)
Definition key_compare (a b : ResourceId * Z) : comparison :=
  match Nat.compare a.1 b.1 with Eq => (a.2 ?= b.2)%Z | c => c end.

Definition key (s : Span) : ResourceId * Z := (sp_resource s, sp_offset s).

Definition destinations (copies : list ResolvedCopy) : list (Span * nat) :=
  (λ '(i, c), (rc_dst c, i)) <$> List.filter (λ '(_, c), (0 <? sp_len (rc_dst c))%Z) (enumerate copies).

Definition sorted_destinations (copies : list ResolvedCopy) : list (Span * nat) :=
  sort_by (λ a b, key_compare (key a.1) (key b.1)) (destinations copies).

Definition ends_before (s : Span) (d : Span * nat) : bool :=
  match key_compare (sp_resource d.1, span_end d.1) (sp_resource s, sp_offset s) with Gt => false | _ => true end.

Definition check_pair (node : nat) (pair : (Span * nat) * (Span * nat)) : result PrepareError unit :=
  guard_ (span_overlaps pair.1.1 pair.2.1) (BatchOverlap node pair.1.2 pair.2.2 false).

Definition check_source (node : nat) (dsts : list (Span * nat)) (entry : nat * ResolvedCopy) :
    result PrepareError unit :=
  let '(b, c) := entry in
  let s := rc_src c in
  if (0 <? sp_len s)%Z then
    match dsts !! partition_point (ends_before s) dsts with
    | Some (d, a) => guard_ (negb (a =? b) && span_overlaps d s) (BatchOverlap node a b true)
    | None => Ok tt
    end
  else Ok tt.

Definition check_independent (node : nat) (copies : list ResolvedCopy) : result PrepareError unit :=
  let dsts := sorted_destinations copies in
  _ ← for_each (check_pair node) (windows2 dsts);
  for_each (check_source node dsts) (enumerate copies).

(** ** [prepare] *)

Section prepare.
Context (p : Program) (words : list Z) (bindings : list Binding).

Definition resource (id : ResourceId) : result PrepareError Resource :=
  ok_or (pg_resources p !! id) (UnknownResource id).

Definition check_word (entry : Word * Z) : result PrepareError unit :=
  let '(w, value) := entry in
  let '(lo, hi) := wd_domain w in
  guard_ (negb ((lo <=? value)%Z && (value <=? hi)%Z)) (WordOutOfDomain (wd_name w) value lo hi).

Definition size_of (entry : Resource * Binding) : result PrepareError Z :=
  let '(r, b) := entry in
  size ← formula_eval (re_size r) words;
  if (bi_bytes b <? size)%Z then Err (BindingTooSmall (re_label r) (bi_bytes b) size) else Ok size.

Section env.
Context (sizes : list Z).

Definition span_at (node : nat) (at_ : Addr) (len : Z) : exec PrepareError (Span * Z) :=
  r ← try_ (resource (ad_resource at_));
  offset ← try_ (formula_eval (ad_offset at_) words);
  size ← unwrap (sizes !! ad_resource at_);
  if negb (match checked_add 64 offset len with Some end_ => (end_ <=? size)%Z | None => false end) then
    Fail (OutOfBounds node (re_label r) offset len size)
  else
    b ← unwrap (bindings !! ad_resource at_);
    addr ← try_ (ok_or (checked_add 64 (bi_base b) offset) Overflow);
    Done (mkSpan (ad_resource at_) offset len, addr).

Definition is_table (kind : ResourceKind) : bool := match kind with PointerTable _ => true | _ => false end.

Definition resolve (node : nat) (spec : CopySpec) : exec PrepareError ResolvedCopy :=
  len ← try_ (formula_eval (cs_len spec) words);
  if (MAX_COPY_BYTES <? len)%Z then Fail (TooLong node len MAX_COPY_BYTES)
  else
    '(src, src_addr) ← span_at node (cs_src spec) len;
    '(dst, dst_addr) ← span_at node (cs_dst spec) len;
    dst_resource ← try_ (resource (sp_resource dst));
    if (0 <? len)%Z && is_table (re_kind dst_resource) then Fail (WritesTable node (re_label dst_resource))
    else if span_overlaps src dst then Fail (SelfOverlap node)
    else Done (mkCopy src dst src_addr dst_addr).

Definition slot_of (r : ResourceId) : exec PrepareError Slot :=
  _ ← try_ (resource r);
  b ← unwrap (bindings !! r);
  Done (mkSlot r (bi_base b)).

Definition place (node entry : nat) (ids : list ResourceId) (span : Span) : exec PrepareError (Z * Z) :=
  if (sp_offset span <=? umax 32)%Z && (span_end span <=? MAX_SLOT_END)%Z then
    slot ← unwrap (position (Nat.eqb (sp_resource span)) ids);
    Done (as_u32 (Z.of_nat slot), sp_offset span)
  else
    r ← try_ (resource (sp_resource span));
    Fail (SlotRange node entry (re_label r) (sp_offset span) (sp_len span) MAX_SLOT_END).

Definition table_entry (node : nat) (src_ids dst_ids : list ResourceId) (bytes : list Z)
    (item : nat * ResolvedCopy) : exec PrepareError (list Z) :=
  let '(entry, c) := item in
  '(src_slot, src_offset) ← place node entry src_ids (rc_src c);
  '(dst_slot, dst_offset) ← place node entry dst_ids (rc_dst c);
  Done (entry_encode (mkCopyEntry src_slot src_offset dst_slot dst_offset (as_u32 (sp_len (rc_dst c)))) bytes).

(** A loop that collects. *)
Definition collect {E A B} (f : A → exec E B) (l : list A) : exec E (list B) :=
  foldE (λ out x, y ← f x; Done (out ++ [y])) [] l.

Definition prepare_batch (node : nat) (used : list bool) (table : ResourceId) (n : Formula) :
    exec PrepareError (list bool * PreparedNode * TableImage) :=
  t ← try_ (resource table);
  match re_kind t with
  | PointerTable entries =>
      was ← unwrap (used !! table);
      used ← unwrap (vec_set used table true);
      if (was : bool) then Fail (SharedTable node (re_label t))
      else
        count ← try_ (formula_eval n words);
        if (Z.of_nat (length entries) <? count)%Z || (MAX_BATCH <? count)%Z then
          Fail (BatchSize node count (length entries) MAX_BATCH)
        else
          let need := (count * ENTRY_BYTES)%Z in
          size ← unwrap (sizes !! table);
          if (size <? need)%Z then Fail (TableTooSmall node (re_label t) need size)
          else
            '(src_ids, dst_ids) ← try_ (slot_map node (re_label t) entries);
            src_slots ← collect slot_of src_ids;
            dst_slots ← collect slot_of dst_ids;
            copies ← collect (resolve node) (take (Z.to_nat count) entries);
            _ ← try_ (check_independent node copies);
            bytes ← foldE (table_entry node src_ids dst_ids) [] (enumerate copies);
            b ← unwrap (bindings !! table);
            Done (used, PCopyBatch table (bi_base b) src_slots dst_slots copies,
                  mkImageOf table (bi_base b) bytes)
  | _ => Fail (NotATable node (re_label t))
  end.

Definition prepare_node (s : list bool * Prepared) (entry : nat * Node) : exec PrepareError (list bool * Prepared) :=
  let '(used, out) := s in
  let '(node, item) := entry in
  match item with
  | Copy spec =>
      c ← resolve node spec;
      Done (used, mkPrepared (pr_nodes out ++ [PCopy c]) (pr_tables out))
  | CopyBatch table n =>
      '(used, prepared, image) ← prepare_batch node used table n;
      Done (used, mkPrepared (pr_nodes out ++ [prepared]) (pr_tables out ++ [image]))
  end.
End env.

Definition prepare : exec PrepareError Prepared :=
  if negb (length words =? length (pg_words p)) then Fail (WordCount (length words) (length (pg_words p)))
  else
    _ ← try_ (for_each check_word (zip (pg_words p) words));
    if negb (length bindings =? length (pg_resources p)) then
      Fail (BindingCount (length bindings) (length (pg_resources p)))
    else
      sizes ← try_ (mapM size_of (zip (pg_resources p) bindings));
      '(_, out) ← foldE (prepare_node sizes) (replicate (length (pg_resources p)) false, mkPrepared [] [])
                    (enumerate (pg_nodes p));
      Done out.
End prepare.

(** ** Effects and launches of prepared nodes *)

Inductive Access := Read | Write.
Inductive Via := Kernarg | ViaSlot (table : ResourceId) (slot : Z).
Record Effect := mkEffect { ef_span : Span; ef_access : Access; ef_via : Via }.

Definition via_slot (table : ResourceId) (slots : list Slot) (span : Span) : option Via :=
  slot ← position (λ s, sl_resource s =? sp_resource span) slots;
  Some (ViaSlot table (as_u32 (Z.of_nat slot))).

Definition copy_effects (table : ResourceId) (src_slots dst_slots : list Slot) (c : ResolvedCopy) :
    option (list Effect) :=
  if (0 <? sp_len (rc_dst c))%Z then
    src ← via_slot table src_slots (rc_src c);
    dst ← via_slot table dst_slots (rc_dst c);
    Some [mkEffect (rc_src c) Read src; mkEffect (rc_dst c) Write dst]
  else Some [].

(** [None] is the failed [expect]. *)
Definition effects (n : PreparedNode) : option (list Effect) :=
  match n with
  | PCopy c =>
      Some (if (sp_len (rc_dst c) =? 0)%Z then []
            else [mkEffect (rc_src c) Read Kernarg; mkEffect (rc_dst c) Write Kernarg])
  | PCopyBatch table _ src_slots dst_slots copies =>
      rest ← mapM (copy_effects table src_slots dst_slots) copies;
      Some (mkEffect (mkSpan table 0 (Z.of_nat (length copies) * ENTRY_BYTES)) Read Kernarg :: List.concat rest)
  end.

(** The outer [None] is the failed assertion of [batch_launch]. *)
Definition node_launch (n : PreparedNode) : option (option Launch) :=
  match n with
  | PCopy c =>
      Some (if (sp_len (rc_dst c) =? 0)%Z then None
            else Some (copy_launch (rc_src_addr c) (rc_dst_addr c) (as_u32 (sp_len (rc_dst c)))))
  | PCopyBatch table table_addr src_slots dst_slots copies =>
      if is_empty copies then Some None
      else
        let max := foldr Z.max 0%Z ((λ c, sp_len (rc_dst c)) <$> copies) in
        l ← batch_launch table_addr (as_u32 (Z.of_nat (length copies))) (sl_base <$> src_slots)
              (sl_base <$> dst_slots) max;
        Some (Some l)
  end.
