(* ===== verification/RailCopyOk.v ===== *)
(** * Prepared copies are well formed

    Formulas without overflow, spans inside their resources, and the sorted
    test of order independence against its definition. *)

From S2P Require Import Prelude Packet RailCopy.

(** ** Formulas *)

Definition formula_typed (f : Formula) : Prop := in_u 64 (fm_c0 f) ∧ Forall (λ t, in_u 64 t.2) (fm_terms f).

(** The value without overflow checks. *)
Definition term_value (words : list Z) (t : WordId * Z) : Z := (t.2 * default 0 (words !! t.1))%Z.
Fixpoint terms_value (words : list Z) (ts : list (WordId * Z)) : Z :=
  match ts with [] => 0 | t :: ts => term_value words t + terms_value words ts end.
Definition formula_value (f : Formula) (words : list Z) : Z := fm_c0 f + terms_value words (fm_terms f).

Lemma word_nonneg words i : Forall (in_u 64) words → (0 ≤ default 0 (words !! i))%Z.
Proof.
  intros Hw. destruct (words !! i) as [v|] eqn:Hv; [|simpl; lia]. by apply (Forall_lookup_1 _ _ _ _ Hw) in Hv as [].
Qed.

Lemma term_nonneg words t : Forall (in_u 64) words → in_u 64 t.2 → (0 ≤ term_value words t)%Z.
Proof. intros Hw [Ht _]. pose proof (word_nonneg words t.1 Hw). unfold term_value. nia. Qed.

Lemma terms_nonneg words ts :
  Forall (in_u 64) words → Forall (λ t, in_u 64 t.2) ts → (0 ≤ terms_value words ts)%Z.
Proof.
  intros Hw. induction 1 as [|t ts Ht _ IH]; [done|]. cbn [terms_value].
  pose proof (term_nonneg _ _ Hw Ht). lia.
Qed.

Lemma formula_value_nonneg words f :
  Forall (in_u 64) words → formula_typed f → (0 ≤ formula_value f words)%Z.
Proof. intros Hw [[Hc _] Ht]. pose proof (terms_nonneg _ _ Hw Ht). unfold formula_value. lia. Qed.

Lemma formula_eval_Ok f words v :
  formula_typed f → Forall (in_u 64) words →
  formula_eval f words = Ok v ↔
  Forall (λ t, is_Some (words !! t.1)) (fm_terms f) ∧ v = formula_value f words ∧ (v ≤ umax 64)%Z.
Proof.
  destruct f as [c0 ts]. intros [Hc Ht] Hw. unfold formula_eval, formula_value. cbn [fm_c0 fm_terms] in *.
  assert (0 ≤ c0)%Z as Hc0 by apply Hc. assert (c0 ≤ umax 64)%Z as Hc1 by apply Hc. clear Hc.
  revert c0 Hc0 Hc1. induction Ht as [|t ts Ht Hts IH]; intros c0 Hc0 Hc1.
  { cbn. rewrite Z.add_0_r. split; [intros [= <-]; repeat split; [constructor|done]|]. by intros (_ & -> & _). }
  cbn [foldR terms_value]. pose proof (terms_nonneg _ _ Hw Hts) as Hrest.
  pose proof (term_nonneg _ _ Hw Ht) as Hnn. rewrite Forall_cons. unfold eval_term. unfold term_value in Hnn |- *.
  destruct (words !! t.1) as [x|]; cbn [ok_or mbind result_bind default] in *; [|by split; [|intros [[[y Hy] _] _]]].
  unfold checked_mul, checked_add. cbn [from_option id] in Hnn |- *.
  destruct (Z.leb_spec (t.2 * x) (umax 64)); cbn [mbind option_bind].
  2:{ cbn [ok_or mbind result_bind]. split; [done|]. intros (_ & -> & Hle). unfold id in *. lia. }
  destruct (Z.leb_spec (c0 + t.2 * x) (umax 64)); cbn [ok_or mbind result_bind].
  2:{ split; [done|]. intros (_ & -> & Hle). unfold id in *. lia. }
  rewrite IH by (unfold id in *; lia). rewrite Z.add_assoc. split; [intros (? & ? & ?); split; [split; [by eexists|done]|done]|].
  intros ([_ ?] & ? & ?). done.
Qed.

(** ** Spans *)

Record span_in (sizes : list Z) (s : Span) : Prop := {
  si_offset : (0 ≤ sp_offset s)%Z;
  si_len : (0 ≤ sp_len s)%Z;
  si_size : ∃ size, sizes !! sp_resource s = Some size ∧ (sp_offset s + sp_len s ≤ size)%Z ∧ (size ≤ umax 64)%Z
}.

Lemma span_in_end sizes s : span_in sizes s → span_end s = (sp_offset s + sp_len s)%Z.
Proof.
  intros [Ho Hl (size & _ & Hs & Hu)]. unfold span_end, wrapping_add. apply Z.mod_small. unfold umax in Hu. lia.
Qed.

(** Byte [x] of resource [r] lies in the span. *)
Definition in_span (s : Span) (r : ResourceId) (x : Z) : Prop :=
  sp_resource s = r ∧ (sp_offset s ≤ x < sp_offset s + sp_len s)%Z.

#[export] Instance in_span_dec s r x : Decision (in_span s r x).
Proof. unfold in_span. apply _. Defined.

Definition meets (s t : Span) : Prop := ∃ r x, in_span s r x ∧ in_span t r x.

Lemma meets_bounds s t :
  meets s t ↔ sp_resource s = sp_resource t ∧ (0 < sp_len s)%Z ∧ (0 < sp_len t)%Z ∧
    (sp_offset s < sp_offset t + sp_len t)%Z ∧ (sp_offset t < sp_offset s + sp_len s)%Z.
Proof.
  unfold meets, in_span. split.
  - intros (r & x & [-> Hs] & [-> Ht]). lia.
  - intros (Hr & Hs & Ht & H1 & H2). exists (sp_resource s), (Z.max (sp_offset s) (sp_offset t)). lia.
Qed.

Lemma meets_sym s t : meets s t → meets t s.
Proof. intros (r & x & Hs & Ht). by exists r, x. Qed.

Lemma overlaps_meets sizes s t :
  span_in sizes s → span_in sizes t → span_overlaps s t = true ↔ meets s t.
Proof.
  intros Hs Ht. rewrite meets_bounds. unfold span_overlaps.
  rewrite (span_in_end _ _ Hs), (span_in_end _ _ Ht), !andb_true_iff, Nat.eqb_eq, !Z.ltb_lt. tauto.
Qed.

Lemma overlaps_false sizes s t :
  span_in sizes s → span_in sizes t → span_overlaps s t = false ↔ ¬ meets s t.
Proof.
  intros Hs Ht. rewrite <-(overlaps_meets sizes s t Hs Ht). by rewrite not_true_iff_false.
Qed.

(** A resolved copy. *)
Record copy_in (sizes : list Z) (c : ResolvedCopy) : Prop := {
  ci_src : span_in sizes (rc_src c);
  ci_dst : span_in sizes (rc_dst c);
  ci_len : sp_len (rc_src c) = sp_len (rc_dst c);
  ci_max : (sp_len (rc_dst c) ≤ MAX_COPY_BYTES)%Z;
  ci_self : ¬ meets (rc_src c) (rc_dst c)
}.

(** ** Order independence *)

(** No entry writes what another entry writes or reads. *)
Definition independent (copies : list ResolvedCopy) : Prop :=
  ∀ a b ca cb, copies !! a = Some ca → copies !! b = Some cb → a ≠ b →
    ¬ meets (rc_dst ca) (rc_dst cb) ∧ ¬ meets (rc_dst ca) (rc_src cb).

Lemma key_compare_le a b :
  key_compare a b ≠ Gt ↔ a.1 < b.1 ∨ (a.1 = b.1 ∧ (a.2 ≤ b.2)%Z).
Proof.
  unfold key_compare. destruct (Nat.compare_spec a.1 b.1) as [H|H|H].
  - change ((a.2 ?= b.2)%Z ≠ Gt) with (a.2 ≤ b.2)%Z. lia.
  - split; [lia|done].
  - split; [done|lia].
Qed.

Lemma key_compare_trans a b c : key_compare a b ≠ Gt → key_compare b c ≠ Gt → key_compare a c ≠ Gt.
Proof. rewrite !key_compare_le. lia. Qed.

Lemma key_compare_gt a b : key_compare a b = Gt ↔ b.1 < a.1 ∨ (a.1 = b.1 ∧ (b.2 < a.2)%Z).
Proof.
  unfold key_compare. destruct (Nat.compare_spec a.1 b.1) as [H|H|H].
  - rewrite Z.compare_gt_iff. lia.
  - split; [done|lia].
  - split; [lia|done].
Qed.

Lemma key_compare_anti a b : key_compare a b = Gt → key_compare b a ≠ Gt.
Proof. rewrite key_compare_le, key_compare_gt. lia. Qed.

Lemma elem_of_destinations copies d i :
  (d, i) ∈ destinations copies ↔ ∃ c, copies !! i = Some c ∧ d = rc_dst c ∧ (0 < sp_len d)%Z.
Proof.
  unfold destinations. rewrite list_elem_of_fmap. split.
  - intros ([j c] & [= -> ->] & Hin). apply list_elem_of_In, filter_In in Hin as [Hin Hlt].
    apply list_elem_of_In, elem_of_enumerate in Hin. apply Z.ltb_lt in Hlt. by exists c.
  - intros (c & Hc & -> & Hlt). exists (i, c). split; [done|].
    apply list_elem_of_In, filter_In. split; [by apply list_elem_of_In, elem_of_enumerate|by apply Z.ltb_lt].
Qed.

Lemma NoDup_destinations copies : NoDup (destinations copies).*2.
Proof.
  unfold destinations. rewrite <-list_fmap_compose.
  assert (∀ l : list (nat * ResolvedCopy), NoDup l.*1 →
    NoDup (snd ∘ (λ '(i, c), (rc_dst c, i)) <$> List.filter (λ '(_, c), (0 <? sp_len (rc_dst c))%Z) l)) as H.
  { induction l as [|[i c] l IH]; [done|]. cbn [fmap list_fmap fst List.filter]. intros [Hi Hl]%NoDup_cons.
    specialize (IH Hl). destruct (0 <? _)%Z; [|done]. constructor; [|done].
    intros ([j e] & Hj & Hin)%list_elem_of_fmap. cbn in Hj. subst i.
    apply list_elem_of_In, filter_In in Hin as [Hin _]. apply Hi, list_elem_of_fmap.
    exists (j, e). split; [done|]. by apply list_elem_of_In. }
  apply H. unfold enumerate. rewrite fst_zip by (by rewrite length_seq). apply NoDup_seq.
Qed.

Lemma windows2_cons {A} (x y : A) l : windows2 (x :: y :: l) = (x, y) :: windows2 (y :: l).
Proof. done. Qed.

Lemma StronglySorted_lookup_lt {A} (R : A → A → Prop) l i j x y :
  StronglySorted R l → l !! i = Some x → l !! j = Some y → i < j → R x y.
Proof.
  intros Hs. revert i j. induction Hs as [|z l _ IH Hz]; intros i j Hi Hj Hlt; [done|].
  destruct j as [|j]; [lia|]. cbn in Hj. destruct i as [|i]; [|apply (IH i j); [done|done|lia]].
  injection Hi as ->. by apply (Forall_lookup_1 _ _ _ _ Hz Hj).
Qed.

Section sweep.
Context (sizes : list Z) (copies : list ResolvedCopy) (Hcopies : Forall (copy_in sizes) copies).
Local Abbreviation D := (sorted_destinations copies).

Lemma elem_of_sorted d i :
  (d, i) ∈ D ↔ ∃ c, copies !! i = Some c ∧ d = rc_dst c ∧ (0 < sp_len d)%Z.
Proof using Type. unfold sorted_destinations. rewrite sort_by_perm. apply elem_of_destinations. Qed.

Lemma sorted_in e : e ∈ D → span_in sizes e.1 ∧ (0 < sp_len e.1)%Z.
Proof using Hcopies.
  destruct e as [d i]. intros (c & Hc & -> & Hl)%elem_of_sorted. split; [|done].
  by apply (Forall_lookup_1 _ _ _ _ Hcopies) in Hc as [].
Qed.

Lemma sorted_unique i j d e : D !! i = Some d → D !! j = Some e → d.2 = e.2 → i = j.
Proof using Type.
  intros Hi Hj Heq. assert (NoDup D.*2) as Hnd.
  { unfold sorted_destinations. rewrite sort_by_perm. apply NoDup_destinations. }
  eapply (NoDup_lookup D.*2); [done|by rewrite list_lookup_fmap, Hi|by rewrite list_lookup_fmap, Hj, Heq].
Qed.

(** [a] ends at or before the start of [b]. *)
Definition precedes (a b : Span * nat) : Prop :=
  sp_resource a.1 < sp_resource b.1 ∨
  (sp_resource a.1 = sp_resource b.1 ∧ (sp_offset a.1 + sp_len a.1 ≤ sp_offset b.1)%Z).

Lemma precedes_apart a b : precedes a b → ¬ meets a.1 b.1.
Proof using Type. rewrite meets_bounds. unfold precedes. lia. Qed.

(** Neighbours that do not overlap: no two destinations do. *)
Lemma sorted_precedes :
  (∀ p, p ∈ windows2 D → ¬ meets p.1.1 p.2.1) ↔ StronglySorted precedes D.
Proof using Hcopies.
  assert (StronglySorted (λ a b : Span * nat, key_compare (key a.1) (key b.1) ≠ Gt) D) as Hsort.
  { unfold sorted_destinations. apply (sort_by_sorted (λ a b : Span * nat, key_compare (key a.1) (key b.1))).
    - intros x y z. apply key_compare_trans.
    - intros x y. apply key_compare_anti. }
  assert (Forall (λ e : Span * nat, 0 < sp_len e.1)%Z D) as Hlen.
  { apply Forall_forall. intros e He. by apply sorted_in. }
  split.
  - intros Hw. induction Hsort as [|x l Hl IH Hx]; [constructor|]. apply Forall_cons in Hlen as [Hxl Hlen].
    assert (StronglySorted precedes l) as Hp.
    { apply IH; [done|]. intros p Hp. apply Hw. destruct l as [|y l]; [by apply elem_of_nil in Hp|].
      rewrite windows2_cons. by right. }
    constructor; [done|]. destruct l as [|y l]; [constructor|].
    apply Forall_cons in Hx as [Hxy _]. apply Forall_cons in Hlen as [Hyl _].
    assert (precedes x y) as Hpxy.
    { specialize (Hw (x, y) ltac:(by left)). cbn [fst snd] in Hw. rewrite meets_bounds in Hw.
      apply key_compare_le in Hxy. unfold precedes, key in *. cbn [fst snd] in *. lia. }
    inversion_clear Hp as [|? ? Hl' Hy]. constructor; [done|]. eapply Forall_impl; [exact Hy|].
    intros z Hz. unfold precedes in *. lia.
  - intros Hp p Hin. apply precedes_apart. revert p Hin. apply windows2_Sorted. by apply StronglySorted_Sorted.
Qed.

Lemma check_pair_Ok node p : p ∈ windows2 D → check_pair node p = Ok tt ↔ ¬ meets p.1.1 p.2.1.
Proof using Hcopies.
  intros Hp. assert (p.1 ∈ D ∧ p.2 ∈ D) as [H1 H2].
  { destruct p as [x y]. apply list_elem_of_lookup in Hp as [i Hi]. unfold windows2 in Hi.
    apply lookup_zip_Some in Hi as [Hx Hy]. rewrite lookup_tail in Hy. split; by eapply list_elem_of_lookup_2. }
  unfold check_pair. rewrite guard_Ok. apply (overlaps_false sizes); by apply sorted_in.
Qed.

(** The first destination that ends after the start of a source is the only
    one that can meet it. *)
Lemma first_ending s d a k :
  StronglySorted precedes D → span_in sizes s → D !! k = Some (d, a) → meets d s →
  ∃ d' a', D !! partition_point (ends_before s) D = Some (d', a') ∧ meets d' s ∧ (k = partition_point (ends_before s) D ∨ a' ≠ a).
Proof using Hcopies.
  intros Hs Hin Hk Hm. set (at_ := partition_point (ends_before s) D).
  destruct (sorted_in _ (list_elem_of_lookup_2 _ _ _ Hk)) as [Hd Hdl]. cbn [fst] in Hd, Hdl.
  assert (ends_before s (d, a) = false) as Hnb.
  { unfold ends_before. cbn [fst]. rewrite (span_in_end _ _ Hd). apply meets_bounds in Hm.
    rewrite (proj2 (key_compare_gt _ _)); [done|]. cbn [fst snd]. lia. }
  assert (at_ ≤ k) as Hle.
  { destruct (le_lt_dec at_ k) as [|Hlt]; [done|]. by rewrite (partition_point_lt _ _ _ _ Hk Hlt) in Hnb. }
  destruct (decide (at_ = k)) as [->|Hne]; [by exists d, a; auto|].
  destruct (lookup_lt_is_Some_2 D at_) as [[d' a'] Hat]; [apply lookup_lt_Some in Hk; lia|].
  exists d', a'. split; [done|]. pose proof (partition_point_at _ _ _ Hat) as Hf.
  destruct (sorted_in _ (list_elem_of_lookup_2 _ _ _ Hat)) as [Hd' Hdl']. cbn [fst] in Hd', Hdl'. split.
  - assert (precedes (d', a') (d, a)) as Hp.
    { apply (StronglySorted_lookup_lt precedes D at_ k); [done|done|done|lia]. }
    unfold ends_before in Hf. cbn [fst] in Hf. rewrite (span_in_end _ _ Hd') in Hf.
    pose proof (key_compare_gt (sp_resource d', sp_offset d' + sp_len d')%Z (sp_resource s, sp_offset s)) as Ha.
    destruct (key_compare _ _); [done..|]. apply proj1 in Ha. specialize (Ha eq_refl). cbn [fst snd] in Ha.
    apply meets_bounds in Hm. apply meets_bounds. unfold precedes in Hp. cbn [fst] in Hp. lia.
  - right. intros <-. apply Hne. by eapply (sorted_unique _ _ (d', a') (d, a')).
Qed.

(** What a reported overlap says. *)
Definition conflict (node : nat) (e : PrepareError) : Prop :=
  ∃ a b reads ca cb, e = BatchOverlap node a b reads ∧ a ≠ b ∧ copies !! a = Some ca ∧ copies !! b = Some cb ∧
    meets (rc_dst ca) (if (reads : bool) then rc_src cb else rc_dst cb).

Lemma check_pair_Err node p e : p ∈ windows2 D → check_pair node p = Err e → conflict node e.
Proof using Hcopies.
  intros Hp He. pose proof (check_pair_Ok node p Hp) as Hok. rewrite He in Hok.
  unfold check_pair, guard_ in He. destruct (span_overlaps _ _) eqn:Ho; [|done]. injection He as <-.
  destruct p as [[x i] [y j]]. apply list_elem_of_lookup in Hp as [k Hk]. unfold windows2 in Hk.
  apply lookup_zip_Some in Hk as [Hx Hy]. rewrite lookup_tail in Hy.
  assert (i ≠ j) as Hij by (intros ->; by pose proof (sorted_unique _ _ _ _ Hx Hy eq_refl); lia).
  apply list_elem_of_lookup_2 in Hx, Hy.
  pose proof (sorted_in _ Hx) as [Hsx _]. pose proof (sorted_in _ Hy) as [Hsy _].
  apply elem_of_sorted in Hx as (ca & Ha & -> & _), Hy as (cb & Hb & -> & _).
  exists i, j, false, ca, cb. do 4 (split; [done|]). by apply (overlaps_meets sizes).
Qed.

Lemma check_source_Err node b c e :
  copies !! b = Some c → check_source node D (b, c) = Err e → conflict node e.
Proof using Hcopies.
  intros Hb. unfold check_source. destruct (0 <? sp_len (rc_src c))%Z; [|done].
  destruct (D !! _) as [[d a]|] eqn:Hd; [|done]. unfold guard_.
  destruct (Nat.eqb_spec a b) as [|Hab]; [done|]. cbn [negb andb].
  destruct (span_overlaps d (rc_src c)) eqn:Ho; [|done]. intros [= <-].
  apply list_elem_of_lookup_2 in Hd. pose proof (sorted_in _ Hd) as [Hsd _].
  apply elem_of_sorted in Hd as (ca & Ha & -> & _). exists a, b, true, ca, c. do 4 (split; [done|]).
  eapply (overlaps_meets sizes); [done|by eapply ci_src, (Forall_lookup_1 _ _ _ _ Hcopies)|done].
Qed.

Lemma check_source_Ok node b c a ca :
  StronglySorted precedes D → copies !! b = Some c → copies !! a = Some ca → a ≠ b →
  check_source node D (b, c) = Ok tt → ¬ meets (rc_dst ca) (rc_src c).
Proof using Hcopies.
  intros Hs Hb Ha Hab Hc Hm. pose proof (Forall_lookup_1 _ _ _ _ Hcopies Hb) as [Hsrc Hdst Hlen _ Hself].
  pose proof (proj1 (meets_bounds _ _) Hm) as (_ & Hdl & Hsl & _).
  assert ((rc_dst ca, a) ∈ D) as Hin by (apply elem_of_sorted; by exists ca).
  apply list_elem_of_lookup in Hin as [k Hk].
  destruct (first_ending (rc_src c) (rc_dst ca) a k Hs Hsrc Hk Hm) as (d' & a' & Hat & Hm' & Hor).
  unfold check_source in Hc. rewrite (proj2 (Z.ltb_lt _ _) Hsl), Hat in Hc. apply guard_Ok in Hc.
  pose proof (list_elem_of_lookup_2 _ _ _ Hat) as Hd'. pose proof (sorted_in _ Hd') as [Hsd' _]. cbn [fst] in Hsd'.
  rewrite (proj2 (overlaps_meets sizes _ _ Hsd' Hsrc) Hm'), andb_true_r in Hc.
  apply negb_false_iff, Nat.eqb_eq in Hc as ->.
  apply elem_of_sorted in Hd' as (cb & Hcb & -> & _). rewrite Hb in Hcb. injection Hcb as <-.
  apply Hself, meets_sym, Hm'.
Qed.

Lemma check_independent_spec node :
  match check_independent node copies with
  | Ok _ => independent copies
  | Err e => conflict node e
  end.
Proof using Hcopies.
  unfold check_independent. destruct (for_each (check_pair node) _) as [u|e] eqn:Hp; cbn [mbind result_bind].
  2:{ apply for_each_Err in Hp as (l1 & x & l2 & Heq & He & _). eapply check_pair_Err; [|exact He]. rewrite Heq. set_solver. }
  assert (StronglySorted precedes D) as Hs.
  { apply sorted_precedes. intros p Hin. rewrite for_each_Ok in Hp. by apply (check_pair_Ok node), Hp. }
  destruct (for_each (check_source node D) _) as [u'|e] eqn:Hc.
  2:{ apply for_each_Err in Hc as (l1 & [b c] & l2 & Heq & He & _). eapply check_source_Err; [|exact He].
      apply elem_of_enumerate. rewrite Heq. set_solver. }
  rewrite for_each_Ok in Hc. intros a b ca cb Ha Hb Hab. split.
  - intros Hm. pose proof (proj1 (meets_bounds _ _) Hm) as (_ & Hla & Hlb & _).
    assert ((rc_dst ca, a) ∈ D) as [i Hi]%list_elem_of_lookup by (apply elem_of_sorted; by exists ca).
    assert ((rc_dst cb, b) ∈ D) as [j Hj]%list_elem_of_lookup by (apply elem_of_sorted; by exists cb).
    destruct (lt_eq_lt_dec i j) as [[Hlt| ->]|Hlt].
    + by apply (precedes_apart _ _ (StronglySorted_lookup_lt precedes D i j _ _ Hs Hi Hj Hlt)).
    + rewrite Hi in Hj. injection Hj as _ ->. done.
    + by apply (precedes_apart _ _ (StronglySorted_lookup_lt precedes D j i _ _ Hs Hj Hi Hlt)), meets_sym.
  - eapply check_source_Ok; [done|exact Hb|exact Ha|done|]. apply Hc. by apply elem_of_enumerate.
Qed.
End sweep.

(** ** Resolution *)

Definition spec_typed (s : CopySpec) : Prop :=
  formula_typed (ad_offset (cs_src s)) ∧ formula_typed (ad_offset (cs_dst s)) ∧ formula_typed (cs_len s).
Definition kind_typed (k : ResourceKind) : Prop :=
  match k with PointerTable entries => Forall spec_typed entries | _ => True end.
Definition node_typed (n : Node) : Prop :=
  match n with Copy s => spec_typed s | CopyBatch _ n => formula_typed n end.

Record program_typed (p : Program) : Prop := {
  pt_resources : Forall (λ r, formula_typed (re_size r) ∧ kind_typed (re_kind r)) (pg_resources p);
  pt_nodes : Forall node_typed (pg_nodes p)
}.

Definition binding_typed (b : Binding) : Prop := in_u 64 (bi_base b) ∧ in_u 64 (bi_bytes b).

Section resolve.
Context (p : Program) (words : list Z) (bindings : list Binding) (sizes : list Z).
Context (Hp : program_typed p) (Hw : Forall (in_u 64) words) (Hb : Forall binding_typed bindings).
Context (Hlen : length bindings = length (pg_resources p)) (Hsizes : length sizes = length (pg_resources p)).
Context (Hfit : ∀ r size b, sizes !! r = Some size → bindings !! r = Some b → (0 ≤ size ≤ bi_bytes b)%Z).

(** Where a span lies on the device. *)
Definition placed (s : Span) (address : Z) : Prop :=
  ∃ b, bindings !! sp_resource s = Some b ∧ address = (bi_base b + sp_offset s)%Z ∧
    (sp_offset s + sp_len s ≤ bi_bytes b)%Z.

(** What [resolve] makes of an entry. *)
Record resolved (spec : CopySpec) (c : ResolvedCopy) : Prop := {
  rv_in : copy_in sizes c;
  rv_src : sp_resource (rc_src c) = ad_resource (cs_src spec) ∧
    sp_offset (rc_src c) = formula_value (ad_offset (cs_src spec)) words;
  rv_dst : sp_resource (rc_dst c) = ad_resource (cs_dst spec) ∧
    sp_offset (rc_dst c) = formula_value (ad_offset (cs_dst spec)) words;
  rv_len : sp_len (rc_dst c) = formula_value (cs_len spec) words;
  rv_src_addr : placed (rc_src c) (rc_src_addr c);
  rv_dst_addr : placed (rc_dst c) (rc_dst_addr c);
  rv_table r : (0 < sp_len (rc_dst c))%Z → pg_resources p !! sp_resource (rc_dst c) = Some r → is_table (re_kind r) = false
}.

Lemma span_at_ok node a len :
  formula_typed (ad_offset a) → (0 ≤ len)%Z →
  span_at p words bindings sizes node a len ≠ Panic ∧
  ∀ s address, span_at p words bindings sizes node a len = Done (s, address) →
    span_in sizes s ∧ sp_resource s = ad_resource a ∧ sp_offset s = formula_value (ad_offset a) words ∧
    sp_len s = len ∧ placed s address.
Proof using Hw Hb Hlen Hsizes Hfit.
  intros Ha Hl. unfold span_at, resource. destruct (pg_resources p !! ad_resource a) as [r|] eqn:Hr;
    cbn [ok_or try_ mbind exec_bind]; [|done]. apply lookup_lt_Some in Hr as Hlt.
  destruct (formula_eval (ad_offset a) words) as [offset|e] eqn:Ho; cbn [try_ mbind exec_bind]; [|done].
  apply formula_eval_Ok in Ho as (_ & Ho & _); [|done..].
  pose proof (formula_value_nonneg words _ Hw Ha) as Hnn. rewrite <-Ho in Hnn.
  destruct (lookup_lt_is_Some_2 sizes (ad_resource a)) as [size Hs]; [lia|]. rewrite Hs. cbn [unwrap mbind exec_bind].
  destruct (lookup_lt_is_Some_2 bindings (ad_resource a)) as [b Hbi]; [lia|]. rewrite Hbi.
  pose proof (Forall_lookup_1 _ _ _ _ Hb Hbi) as [_ [_ Hu]]. pose proof (Hfit _ _ _ Hs Hbi) as [H0 H1].
  destruct (checked_add 64 offset len) as [end_|] eqn:He; [|done]. apply checked_add_Some in He as [-> _].
  destruct (Z.leb_spec (offset + len) size); cbn [negb]; [|done]. cbn [unwrap mbind exec_bind].
  destruct (checked_add 64 (bi_base b) offset) as [address|] eqn:Had; cbn [ok_or try_ mbind exec_bind]; [|done].
  apply checked_add_Some in Had as [-> _]. split; [done|]. intros s' address' [= <- <-]. cbn [sp_resource sp_offset sp_len].
  split; [|split; [done|split; [done|split; [done|exists b; cbn [sp_resource sp_offset sp_len]; split; [done|split; [done|lia]]]]]].
  split; cbn [sp_resource sp_offset sp_len]; [done|done|]. exists size. split; [done|]. lia.
Qed.

Lemma resolve_ok node spec :
  spec_typed spec →
  resolve p words bindings sizes node spec ≠ Panic ∧
  ∀ c, resolve p words bindings sizes node spec = Done c → resolved spec c.
Proof using Hw Hb Hlen Hsizes Hfit.
  intros (Hts & Htd & Htl). unfold resolve.
  destruct (formula_eval (cs_len spec) words) as [len|e] eqn:Hl; cbn [try_ mbind exec_bind]; [|done].
  apply formula_eval_Ok in Hl as (_ & Hl & _); [|done..].
  pose proof (formula_value_nonneg words _ Hw Htl) as Hnn. rewrite <-Hl in Hnn.
  destruct (Z.ltb_spec MAX_COPY_BYTES len); [done|].
  destruct (span_at_ok node (cs_src spec) len Hts Hnn) as [Hnp1 Hs].
  destruct (span_at _ _ _ _ node (cs_src spec) len) as [[src src_addr]|e|]; cbn [mbind exec_bind]; [|done..].
  destruct (Hs _ _ eq_refl) as (Hsi & Hsr & Hso & Hsl & Hsp).
  destruct (span_at_ok node (cs_dst spec) len Htd Hnn) as [Hnp2 Hd].
  destruct (span_at _ _ _ _ node (cs_dst spec) len) as [[dst dst_addr]|e|]; cbn [mbind exec_bind]; [|done..].
  destruct (Hd _ _ eq_refl) as (Hdi & Hdr & Hdo & Hdl & Hdp).
  destruct (resource p (sp_resource dst)) as [r|e] eqn:Hr; cbn [try_ mbind exec_bind]; [|done]. apply ok_or_Ok in Hr.
  destruct ((0 <? len)%Z && is_table (re_kind r)) eqn:Ht; [done|].
  destruct (span_overlaps src dst) eqn:Ho; [done|]. apply (overlaps_false sizes) in Ho; [|done..].
  split; [done|]. intros c [= <-]. split; cbn [rc_src rc_dst rc_src_addr rc_dst_addr]; try done.
  - split; cbn [rc_src rc_dst]; congruence || done || lia.
  - congruence.
  - intros r' Hpos Hr'. rewrite Hr in Hr'. injection Hr' as <-. rewrite Hdl in Hpos.
    rewrite (proj2 (Z.ltb_lt _ _) Hpos) in Ht. done.
Qed.
End resolve.

(** ** Tables *)

Lemma collect_ok {E A B} (P : A → B → Prop) (f : A → exec E B) l :
  (∀ x, x ∈ l → f x ≠ Panic ∧ ∀ y, f x = Done y → P x y) →
  collect f l ≠ Panic ∧ ∀ ys, collect f l = Done ys → Forall2 P l ys.
Proof.
  intros Hf. unfold collect. apply (foldE_ok (λ l1 ys, Forall2 P l1 ys)); [constructor|].
  intros l1 x l2 ys -> Hys. destruct (Hf x) as [Hnp Hd]; [set_solver|].
  destruct (f x) as [y|e|]; cbn [mbind exec_bind]; [|done..]. split; [done|]. intros ys' [= <-].
  apply Forall2_app; [done|]. constructor; [by apply Hd|constructor].
Qed.

Lemma elem_of_push_new ids id x : x ∈ push_new ids id ↔ x ∈ ids ∨ x = id.
Proof.
  unfold push_new. destruct (existsb (Nat.eqb id) ids) eqn:He.
  - apply existsb_exists in He as (y & Hy%list_elem_of_In & ->%Nat.eqb_eq). naive_solver.
  - set_solver.
Qed.

Lemma slot_map_ok node label entries src dst :
  slot_map node label entries = Ok (src, dst) →
  length src ≤ SRC_SLOTS ∧ length dst ≤ DST_SLOTS ∧
  (∀ e, e ∈ entries → ad_resource (cs_src e) ∈ src ∧ ad_resource (cs_dst e) ∈ dst).
Proof.
  unfold slot_map. destruct (foldl _ _ _) as [src' dst'] eqn:Hf. intros H.
  apply bind_Ok_inv in H as (u1 & H1%guard_Ok%Nat.ltb_ge & H). apply bind_Ok_inv in H as (u2 & H2%guard_Ok%Nat.ltb_ge & H).
  injection H as <- <-. split; [done|]. split; [done|].
  enough (∀ acc src0 dst0, foldl (λ '(src, dst) e,
      (push_new src (ad_resource (cs_src e)), push_new dst (ad_resource (cs_dst e)))) acc entries = (src0, dst0) →
    (∀ x, x ∈ acc.1 → x ∈ src0) ∧ (∀ x, x ∈ acc.2 → x ∈ dst0) ∧
    ∀ e, e ∈ entries → ad_resource (cs_src e) ∈ src0 ∧ ad_resource (cs_dst e) ∈ dst0) as Hall by (by eapply Hall).
  clear. induction entries as [|e l IH]; intros [a b] src0 dst0; cbn [foldl].
  - intros [= <- <-]. split; [done|]. split; [done|]. by intros e He%elem_of_nil.
  - intros (H1 & H2 & H3)%IH. cbn [fst snd] in *. setoid_rewrite elem_of_push_new in H1.
    setoid_rewrite elem_of_push_new in H2. split; [auto|]. split; [auto|].
    intros e' [->|He]%elem_of_cons; auto.
Qed.

Lemma entry_encode_app e out :
  entry_encode e out = out ++ ([ce_src_slot e; ce_src_offset e; ce_dst_slot e; ce_dst_offset e; ce_bytes e; 0%Z] ≫= le_bytes 4).
Proof. unfold entry_encode. cbn [foldl mbind list_bind]. by rewrite <-!app_assoc, app_nil_r. Qed.

(** An entry names a copy through the slots. *)
Record side_of (slots : list Slot) (slot offset : Z) (s : Span) (address : Z) : Prop := {
  sd_slot : (0 ≤ slot < 8)%Z;
  sd_lookup : ∃ base, slots !! Z.to_nat slot = Some (mkSlot (sp_resource s) base) ∧ address = (base + offset)%Z;
  sd_offset : offset = sp_offset s ∧ (0 ≤ offset)%Z ∧ (offset + sp_len s ≤ 2 ^ 32)%Z ∧ in_u 32 offset
}.

Record entry_of (src_slots dst_slots : list Slot) (c : ResolvedCopy) (e : CopyEntry) : Prop := {
  eo_src : side_of src_slots (ce_src_slot e) (ce_src_offset e) (rc_src c) (rc_src_addr c);
  eo_dst : side_of dst_slots (ce_dst_slot e) (ce_dst_offset e) (rc_dst c) (rc_dst_addr c);
  eo_bytes : ce_bytes e = sp_len (rc_dst c) ∧ in_u 32 (ce_bytes e)
}.

(** [slots] is [ids] with the bases of the bindings. *)
Definition slots_of (bindings : list Binding) (ids : list ResourceId) (slots : list Slot) : Prop :=
  Forall2 (λ r s, ∃ b, bindings !! r = Some b ∧ s = mkSlot r (bi_base b)) ids slots.

Definition slot_bound (bindings : list Binding) (s : Slot) : Prop :=
  ∃ b, bindings !! sl_resource s = Some b ∧ sl_base s = bi_base b.

Lemma slots_of_bound bindings ids slots : slots_of bindings ids slots → Forall (slot_bound bindings) slots.
Proof.
  intros H. apply Forall_lookup. intros i s Hs. destruct (Forall2_lookup_r _ _ _ _ _ H Hs) as (r & _ & b & Hb & ->).
  by exists b.
Qed.

Section tables.
Context (p : Program) (words : list Z) (bindings : list Binding) (sizes : list Z).
Context (Hp : program_typed p) (Hw : Forall (in_u 64) words) (Hb : Forall binding_typed bindings).
Context (Hlen : length bindings = length (pg_resources p)) (Hsizes : length sizes = length (pg_resources p)).
Context (Hfit : ∀ r size b, sizes !! r = Some size → bindings !! r = Some b → (0 ≤ size ≤ bi_bytes b)%Z).

Lemma slots_ok ids :
  collect (slot_of p bindings) ids ≠ Panic ∧
  ∀ slots, collect (slot_of p bindings) ids = Done slots → slots_of bindings ids slots.
Proof using Hlen.
  apply collect_ok. intros r _. unfold slot_of, resource.
  destruct (pg_resources p !! r) as [x|] eqn:Hr; cbn [ok_or try_ mbind exec_bind]; [|done].
  apply lookup_lt_Some in Hr. destruct (lookup_lt_is_Some_2 bindings r) as [b Hbr]; [clear -Hr Hlen; lia|].
  rewrite Hbr. cbn [unwrap mbind exec_bind]. split; [done|]. intros y [= <-]. by exists b.
Qed.

Lemma place_ok node entry ids slots s address :
  slots_of bindings ids slots → length ids ≤ 8 → sp_resource s ∈ ids → span_in sizes s → placed bindings s address →
  place p node entry ids s ≠ Panic ∧
  ∀ slot offset, place p node entry ids s = Done (slot, offset) → side_of slots slot offset s address.
Proof using Type.
  intros Hslots Hids Hin Hs (b & Hbs & Had & _). unfold place.
  destruct ((sp_offset s <=? umax 32)%Z && (span_end s <=? MAX_SLOT_END)%Z) eqn:Hc.
  2:{ destruct (resource p (sp_resource s)); cbn [try_ mbind exec_bind]; done. }
  apply andb_true_iff in Hc as [Ho%Z.leb_le He%Z.leb_le]. rewrite (span_in_end _ _ Hs) in He.
  destruct (position_elem (Nat.eqb (sp_resource s)) ids _ Hin (Nat.eqb_refl _)) as [k Hk]. rewrite Hk.
  cbn [unwrap mbind exec_bind]. split; [done|]. intros slot offset [= <- <-].
  apply position_Some in Hk as (r & Hr & Heq%Nat.eqb_eq). subst r. apply lookup_lt_Some in Hr as Hlt.
  assert (as_u32 (Z.of_nat k) = Z.of_nat k) as -> by (clear -Hlt Hids; unfold as_u32; apply Z.mod_small; lia).
  destruct (Forall2_lookup_l _ _ _ _ _ Hslots Hr) as (sl & Hsl & b' & Hb' & ->).
  rewrite Hbs in Hb'. injection Hb' as <-. destruct Hs as [Hnn _ _]. split.
  - clear -Hlt Hids. lia.
  - exists (bi_base b). by rewrite Nat2Z.id.
  - unfold in_u. change MAX_SLOT_END with (2 ^ 32)%Z in He. done.
Qed.

Definition image_of (es : list CopyEntry) : list Z := es ≫= λ e, entry_encode e [].

Lemma table_entries_ok node src_ids dst_ids src_slots dst_slots copies :
  slots_of bindings src_ids src_slots → slots_of bindings dst_ids dst_slots → length src_ids ≤ 8 → length dst_ids ≤ 8 →
  Forall (λ c, sp_resource (rc_src c) ∈ src_ids ∧ sp_resource (rc_dst c) ∈ dst_ids ∧ copy_in sizes c ∧
    placed bindings (rc_src c) (rc_src_addr c) ∧ placed bindings (rc_dst c) (rc_dst_addr c)) copies →
  foldE (table_entry p node src_ids dst_ids) [] (enumerate copies) ≠ Panic ∧
  ∀ bytes, foldE (table_entry p node src_ids dst_ids) [] (enumerate copies) = Done bytes →
    ∃ es, Forall2 (entry_of src_slots dst_slots) copies es ∧ bytes = image_of es.
Proof using Type.
  intros Hss Hds Hsl Hdl Hc.
  destruct (foldE_ok (λ l1 bytes, ∃ es, Forall2 (entry_of src_slots dst_slots) (l1.*2) es ∧ bytes = image_of es)
    (table_entry p node src_ids dst_ids) (enumerate copies) []) as [Hnp Hok].
  - by exists [].
  - intros l1 [i c] l2 bytes Hl (es & Hes & ->). apply enumerate_middle in Hl as [-> Hi].
    destruct (Forall_lookup_1 _ _ _ _ Hc Hi) as (Hs & Hd & Hin & Hps & Hpd). unfold table_entry.
    destruct (place_ok node (length l1) src_ids src_slots (rc_src c) _ Hss Hsl Hs (ci_src _ _ Hin) Hps) as [Hnp1 H1].
    destruct (place _ _ _ src_ids _) as [[ss so]|e|]; cbn [mbind exec_bind]; [|done..].
    destruct (place_ok node (length l1) dst_ids dst_slots (rc_dst c) _ Hds Hdl Hd (ci_dst _ _ Hin) Hpd) as [Hnp2 H2].
    destruct (place _ _ _ dst_ids _) as [[ds do_]|e|]; cbn [mbind exec_bind]; [|done..].
    split; [done|]. intros bytes' [= <-]. exists (es ++ [mkCopyEntry ss so ds do_ (as_u32 (sp_len (rc_dst c)))]). split.
    + rewrite fmap_app. apply Forall2_app; [done|]. constructor; [|constructor].
      assert (as_u32 (sp_len (rc_dst c)) = sp_len (rc_dst c) ∧ in_u 32 (sp_len (rc_dst c))) as [Heq Hu].
      { destruct Hin as [_ [_ Hnn _] _ Hm _]. unfold MAX_COPY_BYTES, umax in Hm. unfold as_u32, in_u, umax.
        clear -Hnn Hm. split; [apply Z.mod_small|]; lia. }
      split; cbn [ce_src_slot ce_src_offset ce_dst_slot ce_dst_offset ce_bytes]; [by apply H1|by apply H2|].
      by rewrite Heq.
    + unfold image_of. rewrite bind_app. cbn [mbind list_bind]. rewrite app_nil_r.
      by rewrite !entry_encode_app.
  - split; [done|]. intros bytes (es & Hes & ->)%Hok. exists es. by rewrite enumerate_snd in Hes.
Qed.
End tables.

(** ** [prepare] *)

Lemma length_image es : length (image_of es) = 24 * length es.
Proof.
  induction es as [|e es IH]; [done|]. unfold image_of in *. rewrite bind_cons, length_app, IH, entry_encode_app.
  simpl. lia.
Qed.

Section prepared.
Context (p : Program) (words : list Z) (bindings : list Binding) (sizes : list Z).
Context (Hp : program_typed p) (Hw : Forall (in_u 64) words) (Hb : Forall binding_typed bindings).
Context (Hlen : length bindings = length (pg_resources p)) (Hsizes : length sizes = length (pg_resources p)).
Context (Hfit : ∀ r size b, sizes !! r = Some size → bindings !! r = Some b → (0 ≤ size ≤ bi_bytes b)%Z).

(** A prepared batch and the image of its table. *)
Record batch_made (table : ResourceId) (n : Formula) (address : Z) (src_slots dst_slots : list Slot)
    (copies : list ResolvedCopy) (image : TableImage) : Prop := {
  bm_table : ∃ r entries, pg_resources p !! table = Some r ∧ re_kind r = PointerTable entries ∧
    (formula_value n words ≤ Z.of_nat (length entries))%Z ∧
    Forall2 (resolved p words bindings sizes) (take (Z.to_nat (formula_value n words)) entries) copies;
  bm_count : Z.of_nat (length copies) = formula_value n words ∧ (formula_value n words ≤ MAX_BATCH)%Z;
  bm_independent : independent copies;
  bm_slots : length src_slots ≤ 8 ∧ length dst_slots ≤ 8;
  bm_bound : Forall (slot_bound bindings) src_slots ∧ Forall (slot_bound bindings) dst_slots;
  bm_binding : ∃ b, bindings !! table = Some b ∧ address = bi_base b ∧
    (Z.of_nat (length (ti_bytes image)) ≤ bi_bytes b)%Z;
  bm_image : ti_resource image = table ∧ ti_addr image = address;
  bm_entries : ∃ es, Forall2 (entry_of src_slots dst_slots) copies es ∧ ti_bytes image = image_of es
}.

Definition node_made (item : Node) (out : PreparedNode * option TableImage) : Prop :=
  match item, out with
  | Copy spec, (PCopy c, None) => resolved p words bindings sizes spec c
  | CopyBatch table n, (PCopyBatch table' address ss ds copies, Some image) =>
      table' = table ∧ batch_made table n address ss ds copies image
  | _, _ => False
  end.

Lemma prepare_table_ok node used table n :
  formula_typed n → length used = length (pg_resources p) →
  prepare_batch p words bindings sizes node used table n ≠ Panic ∧
  ∀ used' prepared image, prepare_batch p words bindings sizes node used table n = Done (used', prepared, image) →
    used !! table = Some false ∧ used' = <[table:=true]> used ∧ node_made (CopyBatch table n) (prepared, Some image).
Proof using All.
  intros Hn Hu. unfold prepare_batch. destruct (resource p table) as [r|e] eqn:Hr; cbn [try_ mbind exec_bind]; [|done].
  unfold resource in Hr. apply ok_or_Ok in Hr. apply lookup_lt_Some in Hr as Hlt.
  destruct (re_kind r) as [| | | | | | | | | | | |entries] eqn:Hk; try done.
  destruct (lookup_lt_is_Some_2 used table) as [was Hwas]; [lia|]. rewrite Hwas. cbn [unwrap mbind exec_bind].
  rewrite vec_set_lt by lia. cbn [unwrap mbind exec_bind]. destruct was; [done|].
  destruct (formula_eval n words) as [count|e] eqn:Hc; cbn [try_ mbind exec_bind]; [|done].
  apply formula_eval_Ok in Hc as (_ & Hc & _); [|done..].
  pose proof (formula_value_nonneg words _ Hw Hn) as Hnn. rewrite <-Hc in Hnn.
  destruct (_ || _) eqn:Hor; [done|]. apply orb_false_iff in Hor as [Hce%Z.ltb_ge Hcm%Z.ltb_ge].
  destruct (lookup_lt_is_Some_2 sizes table) as [size Hs]; [lia|]. rewrite Hs. cbn [unwrap mbind exec_bind].
  destruct (Z.ltb_spec size (count * ENTRY_BYTES)); [done|].
  destruct (slot_map node (re_label r) entries) as [[src_ids dst_ids]|e] eqn:Hm; cbn [try_ mbind exec_bind]; [|done].
  apply slot_map_ok in Hm as (Hsl & Hdl & Hcover).
  destruct (slots_ok p bindings Hlen src_ids) as [Hnp1 H1].
  destruct (collect _ src_ids) as [ss|e|]; cbn [mbind exec_bind]; [|done..]. specialize (H1 _ eq_refl).
  destruct (slots_ok p bindings Hlen dst_ids) as [Hnp2 H2].
  destruct (collect _ dst_ids) as [ds|e|]; cbn [mbind exec_bind]; [|done..]. specialize (H2 _ eq_refl).
  pose proof (Forall_lookup_1 _ _ _ _ (pt_resources _ Hp) Hr) as [_ Ht]. rewrite Hk in Ht. cbn [kind_typed] in Ht.
  destruct (collect_ok (resolved p words bindings sizes) (resolve p words bindings sizes node)
    (take (Z.to_nat count) entries)) as [Hnp3 H3].
  { intros spec Hin%elem_of_take. destruct Hin as (i & Hi & _). apply (resolve_ok p words bindings sizes); try done.
    by apply (Forall_lookup_1 _ _ _ _ Ht Hi). }
  destruct (collect _ (take _ entries)) as [copies|e|]; cbn [mbind exec_bind]; [|done..]. specialize (H3 _ eq_refl).
  assert (Forall (copy_in sizes) copies) as Hin.
  { apply Forall_lookup. intros i c Hi. destruct (Forall2_lookup_r _ _ _ _ _ H3 Hi) as (x & _ & Hx). apply Hx. }
  pose proof (check_independent_spec sizes copies Hin node) as Hind.
  destruct (check_independent node copies) as [u|e]; cbn [try_ mbind exec_bind]; [|done].
  destruct (table_entries_ok p bindings sizes node src_ids dst_ids ss ds copies H1 H2 Hsl Hdl) as [Hnp4 H4].
  { apply Forall_lookup. intros i c Hi. destruct (Forall2_lookup_r _ _ _ _ _ H3 Hi) as (spec & Hspec & [? [Hr1 _] [Hr2 _] _ ? ? _]).
    rewrite Hr1, Hr2. split_and!; try done; apply Hcover; eapply subseteq_take, list_elem_of_lookup_2, Hspec. }
  destruct (foldE _ _ (enumerate copies)) as [bytes|e|]; cbn [mbind exec_bind]; [|done..].
  destruct (H4 _ eq_refl) as (es & Hes & ->).
  destruct (lookup_lt_is_Some_2 bindings table) as [b Hbt]; [lia|]. rewrite Hbt. cbn [unwrap mbind exec_bind].
  split; [done|]. intros used' prepared image [= <- <- <-]. split; [done|]. split; [done|]. split; [done|].
  apply Forall2_length in H3 as Hl3. rewrite length_take in Hl3.
  apply Forall2_length in Hes as Hle. apply Forall2_length in H1 as Hl1. apply Forall2_length in H2 as Hl2.
  split; cbn [ti_resource ti_addr ti_bytes]; try done.
  - exists r, entries. rewrite <-Hc. split; [done|]. split; [done|]. split; [lia|done].
  - rewrite <-Hc. split; [lia|done].
  - unfold SRC_SLOTS, DST_SLOTS in *. lia.
  - by split; eapply slots_of_bound.
  - exists b. split; [done|]. split; [done|]. rewrite length_image. specialize (Hfit _ _ _ Hs Hbt).
    unfold ENTRY_BYTES in *. lia.
  - by exists es.
Qed.

Record all_made (done : list Node) (s : list bool * Prepared) : Prop := {
  am_used : length s.1 = length (pg_resources p);
  am_nodes : ∃ outs, Forall2 node_made done outs ∧ pr_nodes s.2 = outs.*1 ∧ pr_tables s.2 = filter_map snd outs;
  am_tables : NoDup (ti_resource <$> pr_tables s.2);
  am_marked t : t ∈ ti_resource <$> pr_tables s.2 → s.1 !! t = Some true
}.

Lemma prepare_nodes_ok :
  let start := (replicate (length (pg_resources p)) false, mkPrepared [] []) in
  foldE (prepare_node p words bindings sizes) start (enumerate (pg_nodes p)) ≠ Panic ∧
  ∀ s, foldE (prepare_node p words bindings sizes) start (enumerate (pg_nodes p)) = Done s → all_made (pg_nodes p) s.
Proof using All.
  intros start. destruct (foldE_ok (λ l1 s, all_made (l1.*2) s) (prepare_node p words bindings sizes)
    (enumerate (pg_nodes p)) start) as [Hnp Hok].
  - split; cbn; [by rewrite length_replicate|by exists []|constructor|by intros t Ht%elem_of_nil].
  - intros l1 [i item] l2 [used out] Hl [Hu (outs & Ho & Hn & Ht) Hnd Hm]. cbn [fst snd] in *.
    apply enumerate_middle in Hl as [-> Hi]. pose proof (Forall_lookup_1 _ _ _ _ (pt_nodes _ Hp) Hi) as Hty.
    destruct item as [spec|table n]; cbn [prepare_node node_typed] in *.
    + destruct (resolve_ok p words bindings sizes Hw Hb Hlen Hsizes Hfit (length l1) spec Hty) as [Hnp H].
      destruct (resolve _ _ _ _ _ _) as [c|e|]; cbn [mbind exec_bind]; [|done..]. split; [done|]. intros s [= <-].
      split; cbn [fst snd pr_nodes pr_tables]; [done| |done|done].
      exists (outs ++ [(PCopy c, None)]). rewrite fmap_app, Hn, Ht, filter_map_app. cbn [filter_map snd]. rewrite app_nil_r.
      split; [|by rewrite fmap_app]. apply Forall2_app; [done|]. constructor; [by apply H|constructor].
    + destruct (prepare_table_ok (length l1) used table n Hty Hu) as [Hnp H].
      destruct (prepare_batch _ _ _ _ _ _ _ _) as [[[used' prepared] image]|e|]; cbn [mbind exec_bind]; [|done..].
      split; [done|]. intros s [= <-]. destruct (H _ _ _ eq_refl) as (Hf & -> & Hmade).
      assert (ti_resource image = table) as Hres by (destruct prepared; [done|]; by destruct Hmade as [_ [_ _ _ _ _ _ [? _] _]]).
      split; cbn [fst snd pr_nodes pr_tables].
      * by rewrite length_insert.
      * exists (outs ++ [(prepared, Some image)]). rewrite !fmap_app, Hn, Ht, filter_map_app. cbn [filter_map snd].
        split; [|done]. apply Forall2_app; [done|]. constructor; [done|constructor].
      * rewrite fmap_app. apply NoDup_app. split; [done|]. split; [|apply NoDup_singleton].
        intros t Hin ->%list_elem_of_singleton. apply Hm in Hin. rewrite Hres, Hf in Hin. done.
      * intros t. rewrite fmap_app. change (ti_resource <$> [image]) with [ti_resource image].
        rewrite elem_of_app, list_elem_of_singleton, Hres. intros [Hin| ->].
        -- destruct (decide (t = table)) as [->|Hne]; [apply list_lookup_insert_eq; apply lookup_lt_Some in Hf; lia|].
           rewrite list_lookup_insert_ne by done. by apply Hm.
        -- apply list_lookup_insert_eq. by apply lookup_lt_Some in Hf.
  - split; [done|]. intros s Hs. specialize (Hok _ Hs). by rewrite enumerate_snd in Hok.
Qed.
End prepared.

Record prepared (p : Program) (words : list Z) (bindings : list Binding) (sizes : list Z) (out : Prepared) : Prop := {
  pp_words : Forall2 (λ w v, (wd_domain w).1 ≤ v ≤ (wd_domain w).2)%Z (pg_words p) words;
  pp_bindings : length bindings = length (pg_resources p);
  pp_sizes : sizes = (λ r, formula_value (re_size r) words) <$> pg_resources p;
  pp_fit r size b : sizes !! r = Some size → bindings !! r = Some b → (0 ≤ size ≤ bi_bytes b)%Z;
  pp_nodes : ∃ outs, Forall2 (node_made p words bindings sizes) (pg_nodes p) outs ∧
    pr_nodes out = outs.*1 ∧ pr_tables out = filter_map snd outs;
  pp_tables : NoDup (ti_resource <$> pr_tables out)
}.

Lemma zip_checks {A B} (P : A → B → Prop) l k :
  length l = length k → (∀ x y, (x, y) ∈ zip l k → P x y) → Forall2 P l k.
Proof.
  intros Hl H. apply Forall2_same_length_lookup. split; [done|]. intros i x y Hx Hy. apply H.
  apply list_elem_of_lookup. exists i. by apply lookup_zip_Some.
Qed.

Lemma prepare_ok p words bindings :
  program_typed p → Forall (in_u 64) words → Forall binding_typed bindings →
  prepare p words bindings ≠ Panic ∧
  ∀ out, prepare p words bindings = Done out → ∃ sizes, prepared p words bindings sizes out.
Proof.
  intros Hp Hw Hb. unfold prepare. destruct (Nat.eqb_spec (length words) (length (pg_words p))) as [Hwl|]; [|done].
  cbn [negb]. destruct (for_each check_word _) as [u|e] eqn:Hcw; cbn [try_ mbind exec_bind]; [|done].
  destruct (Nat.eqb_spec (length bindings) (length (pg_resources p))) as [Hbl|]; [|done]. cbn [negb].
  destruct (mapM (size_of words) _) as [sizes|e] eqn:Hs; cbn [try_ mbind exec_bind]; [|done].
  assert (∀ r re b, pg_resources p !! r = Some re → bindings !! r = Some b →
    sizes !! r = Some (formula_value (re_size re) words) ∧ (0 ≤ formula_value (re_size re) words ≤ bi_bytes b)%Z) as Hsz.
  { intros r re b Hr Hbr. apply mapM_Ok in Hs.
    destruct (Forall2_lookup_l _ _ _ r (re, b) Hs) as (size & Hsr & Hsize); [by apply lookup_zip_Some|].
    pose proof (Forall_lookup_1 _ _ _ _ (pt_resources _ Hp) Hr) as [Ht _]. unfold size_of in Hsize.
    apply bind_Ok_inv in Hsize as (v & Hv & Hsize). apply formula_eval_Ok in Hv as (_ & -> & _); [|done..].
    destruct (Z.ltb_spec (bi_bytes b) (formula_value (re_size re) words)); [done|]. injection Hsize as <-.
    split; [done|]. split; [by apply formula_value_nonneg|done]. }
  assert (sizes = (λ r, formula_value (re_size r) words) <$> pg_resources p) as Hsizes.
  { apply list_eq_same_length with (n := length (pg_resources p)).
    - by rewrite length_fmap.
    - apply mapM_Ok, Forall2_length in Hs. rewrite length_zip in Hs. lia.
    - intros i x y Hi Hx Hy. rewrite list_lookup_fmap in Hy.
      destruct (pg_resources p !! i) as [re|] eqn:Hr; [|done]. injection Hy as <-.
      destruct (lookup_lt_is_Some_2 bindings i) as [b Hbi]; [lia|]. destruct (Hsz _ _ _ Hr Hbi) as [Heq _]. congruence. }
  assert (∀ r size b, sizes !! r = Some size → bindings !! r = Some b → (0 ≤ size ≤ bi_bytes b)%Z) as Hfit.
  { intros r size b Hr Hbr. rewrite Hsizes, list_lookup_fmap in Hr.
    destruct (pg_resources p !! r) as [re|] eqn:Hre; [|done]. injection Hr as <-. by eapply Hsz. }
  assert (length sizes = length (pg_resources p)) as Hsl by (by rewrite Hsizes, length_fmap).
  destruct (prepare_nodes_ok p words bindings sizes Hp Hw Hb Hbl Hsl Hfit) as [Hnp Hok].
  destruct (foldE _ _ _) as [[used out]|e|]; cbn [mbind exec_bind]; [|done..].
  split; [done|]. intros out' [= <-]. destruct (Hok _ eq_refl) as [_ Hn Hnd _]. exists sizes.
  split; [|done|done|done|done|done]. apply zip_checks; [done|]. intros w v Hin.
  rewrite for_each_Ok in Hcw. specialize (Hcw _ Hin). unfold check_word in Hcw.
  destruct (wd_domain w) as [lo hi]. apply guard_Ok, negb_false_iff, andb_true_iff in Hcw. cbn. lia.
Qed.
