(* ===== verification/RailKernel.v ===== *)
(** * The copy kernels ([kernels/src/railgun_copy.hip])

    What the threads of [railgun_copy] and [railgun_copy_batch] load and store,
    byte by byte: a move [(src, dst)] loads the byte at device address [src] and
    stores it at [dst].  Indices and offsets are 32-bit and wrap. *)

From stdpp Require Import list_numbers.
From S2P Require Import Prelude Packet RailCopy.

Definition add32 (a b : Z) : Z := wrapping_add 32 a b.

(** [for (i = g; i < bound; i += stride)]; [fuel] bounds the iterations. *)
Fixpoint strided (fuel : nat) (i stride bound : Z) : list Z :=
  match fuel with
  | O => []
  | S fuel => if (i <? bound)%Z then i :: strided fuel (add32 i stride) stride bound else []
  end.

Definition loop (g stride bound : Z) : list Z := strided (S (Z.to_nat bound)) g stride bound.

Section range.
Context (s so d dof n g stride : Z).

Definition range_head : Z :=
  let head := Z.land (16 - Z.land (add32 (as_u32 d) dof) 15) 15 in
  if (n <? head)%Z then n else head.
Definition range_nvec : Z := Z.shiftr (n - range_head) 4.
Definition range_done : Z := range_head + Z.shiftl range_nvec 4.

Definition byte_move (o : Z) : Z * Z := ((s + add32 so o)%Z, (d + add32 dof o)%Z).

(** A 16-byte load and store. *)
Definition vector_move (i : Z) : list (Z * Z) :=
  let o := add32 range_head (Z.shiftl i 4) in
  (λ k, (s + add32 so o + k, d + add32 dof o + k)%Z) <$> seqZ 0 16.

Definition copy_range : list (Z * Z) :=
  (byte_move <$> loop g stride range_head)
  ++ (loop g stride range_nvec ≫= vector_move)
  ++ ((λ i, byte_move (add32 range_done i)) <$> loop g stride (n - range_done)).
End range.

(** Thread [threadIdx.x] of block [blockIdx.x]. *)
Definition threads (gx : Z) : list Z :=
  seqZ 0 gx ≫= λ block, (λ thread, add32 (as_u32 (block * BLOCK)) thread) <$> seqZ 0 BLOCK.

(** The moves of all threads. *)
Definition copy_kernel (src dst bytes gx : Z) : list (Z * Z) :=
  threads gx ≫= λ g, copy_range src 0 dst 0 bytes g (as_u32 (gx * BLOCK)).

Definition KERNEL_SLOTS : Z := 8.

(** Block row [e] of [railgun_copy_batch] with pointer arguments [ss], [ds]. *)
Definition batch_row (table : list Z) (n : Z) (ss ds : list Z) (gx e : Z) : list (Z * Z) :=
  if (n <=? e)%Z then []
  else
    let t := (λ j, read_le (24 * Z.to_nat e + 4 * j) 4 table) in
    let a := t 0 in
    let b := t 2 in
    if (KERNEL_SLOTS <=? Z.lor a b)%Z then []
    else
      let s := default 0%Z (ss !! Z.to_nat a) in
      let d := default 0%Z (ds !! Z.to_nat b) in
      threads gx ≫= λ g, copy_range s (t 1) d (t 3) (t 4) g (as_u32 (gx * BLOCK)).

Definition batch_kernel (table : list Z) (n : Z) (ss ds : list Z) (gx gy : Z) : list (Z * Z) :=
  seqZ 0 gy ≫= batch_row table n ss ds gx.

(** A launch reads its kernarg segment. *)
Definition run_launch (l : Launch) (table : Z → list Z) : list (Z * Z) :=
  let k := ln_kernarg l in
  let gx := a3_x (ln_grid l) in
  if bool_decide (ln_symbol l = COPY_SYMBOL) then
    copy_kernel (read_le 0 8 k) (read_le 8 8 k) (read_le 16 4 k) gx
  else
    batch_kernel (table (read_le 0 8 k)) (read_le 8 4 k)
      ((λ i, read_le (16 + 8 * i) 8 k) <$> seq 0 SRC_SLOTS)
      ((λ i, read_le (16 + 8 * (SRC_SLOTS + i)) 8 k) <$> seq 0 DST_SLOTS) gx (a3_y (ln_grid l)).

(** ** Every byte once *)

Lemma add32_small a b : (0 ≤ a)%Z → (0 ≤ b)%Z → (a + b < 2 ^ 32)%Z → add32 a b = (a + b)%Z.
Proof. intros. unfold add32, wrapping_add. apply Z.mod_small. lia. Qed.

Lemma elem_of_strided fuel i stride bound x :
  (0 ≤ i)%Z → (0 < stride)%Z → (stride + bound ≤ 2 ^ 32)%Z → (bound - i < Z.of_nat fuel)%Z →
  x ∈ strided fuel i stride bound ↔ (i ≤ x < bound ∧ (x - i) mod stride = 0)%Z.
Proof.
  intros Hi Hs Hb. revert i Hi. induction fuel as [|fuel IH]; intros i Hi Hf; cbn [strided].
  { split; [by intros ?%elem_of_nil|lia]. }
  destruct (Z.ltb_spec i bound) as [Hlt|Hge].
  2:{ split; [by intros ?%elem_of_nil|lia]. }
  rewrite elem_of_cons, add32_small by lia. rewrite IH by lia. split.
  - intros [->|[Hx Hm]].
    + split; [lia|]. by rewrite Z.sub_diag, Z.mod_0_l by lia.
    + split; [lia|]. replace (x - i)%Z with (x - (i + stride) + 1 * stride)%Z by lia. by rewrite Z.mod_add by lia.
  - intros [Hx Hm]. destruct (decide (x = i)) as [->|Hne]; [by left|]. right.
    apply Z.mod_divide in Hm as [k Hk]; [|lia]. assert (1 ≤ k)%Z by nia. split; [nia|].
    apply Z.mod_divide; [lia|]. exists (k - 1)%Z. lia.
Qed.

Lemma NoDup_strided fuel i stride bound :
  (0 ≤ i)%Z → (0 < stride)%Z → (stride + bound ≤ 2 ^ 32)%Z → (bound - i < Z.of_nat fuel)%Z →
  NoDup (strided fuel i stride bound).
Proof.
  intros Hi Hs Hb. revert i Hi. induction fuel as [|fuel IH]; intros i Hi Hf; cbn [strided]; [constructor|].
  destruct (Z.ltb_spec i bound) as [Hlt|Hge]; [|constructor]. rewrite add32_small by lia. constructor.
  - rewrite elem_of_strided by lia. lia.
  - apply IH; lia.
Qed.

(** The threads share out the indices below a bound. *)
Lemma loops_perm stride bound :
  (0 < stride)%Z → (0 ≤ bound)%Z → (stride + bound ≤ 2 ^ 32)%Z →
  (seqZ 0 stride ≫= λ g, loop g stride bound) ≡ₚ seqZ 0 bound.
Proof.
  intros Hs H0 Hb. unfold loop.
  assert (∀ g, g ∈ seqZ 0 stride → (0 ≤ g < stride)%Z) as Hg by (intros g Hg%elem_of_seqZ; lia).
  apply NoDup_Permutation; [|apply NoDup_seqZ|].
  - apply NoDup_bind; [| |apply NoDup_seqZ].
    + intros g1 g2 x Hg1%Hg Hg2%Hg Hx1 Hx2. apply elem_of_strided in Hx1 as [Hx1 Hm1]; [|lia..].
      apply elem_of_strided in Hx2 as [Hx2 Hm2]; [|lia..].
      apply Z.mod_divide in Hm1 as [k1 Hk1]; [|lia]. apply Z.mod_divide in Hm2 as [k2 Hk2]; [|lia].
      assert (k1 = k2) by nia. lia.
    + intros g Hg'%Hg. apply NoDup_strided; lia.
  - intros x. rewrite elem_of_seqZ, list_elem_of_bind. split.
    + intros (g & Hx & Hg'%Hg). apply elem_of_strided in Hx; lia.
    + intros Hx. exists (x mod stride)%Z. pose proof (Z.mod_pos_bound x stride Hs).
      rewrite elem_of_seqZ, elem_of_strided by lia. split; [|lia]. pose proof (Z.mod_le x stride). split; [lia|].
      apply Z.mod_divide; [lia|]. exists (x / stride)%Z. pose proof (Z.div_mod x stride). lia.
Qed.

Lemma bind_app_perm {A B} (l : list A) (f g : A → list B) : (l ≫= λ x, f x ++ g x) ≡ₚ (l ≫= f) ++ (l ≫= g).
Proof.
  induction l as [|x l IH]; [done|]. rewrite !bind_cons, IH. rewrite <-!app_assoc. f_equiv.
  rewrite !app_assoc. f_equiv. apply Permutation_app_comm.
Qed.

Lemma bind_fmap_out {A B C} (f : B → C) (h : A → list B) (l : list A) : (l ≫= λ x, f <$> h x) = f <$> (l ≫= h).
Proof. induction l as [|x l IH]; [done|]. by rewrite !bind_cons, fmap_app, IH. Qed.

Lemma bind_bind {A B C} (f : B → list C) (h : A → list B) (l : list A) : (l ≫= λ x, h x ≫= f) = (l ≫= h) ≫= f.
Proof. induction l as [|x l IH]; [done|]. by rewrite !bind_cons, bind_app, IH. Qed.

Lemma bind_ext_elem {A B} (f g : A → list B) (l : list A) : (∀ x, x ∈ l → f x = g x) → l ≫= f = l ≫= g.
Proof.
  induction l as [|x l IH]; intros H; [done|]. rewrite !bind_cons, H by by left. by rewrite IH by (intros; apply H; by right).
Qed.

Lemma fmap_ext_elem {A B} (f g : A → B) (l : list A) : (∀ x, x ∈ l → f x = g x) → f <$> l = g <$> l.
Proof. intros H. apply list_fmap_ext. intros i x Hx. by eapply H, list_elem_of_lookup_2. Qed.

(** Blocks of [w] indices tile their union. *)
Lemma blocks_tile {A} (f : Z → A) (w : Z) (m : nat) :
  (0 ≤ w)%Z →
  (seqZ 0 (Z.of_nat m) ≫= λ i, (λ k, f (i * w + k)%Z) <$> seqZ 0 w) = f <$> seqZ 0 (w * Z.of_nat m).
Proof.
  intros Hw. induction m as [|m IH]; [by rewrite Z.mul_0_r|].
  rewrite seqZ_S, bind_app, IH.
  replace (w * Z.of_nat (S m))%Z with (w * Z.of_nat m + w)%Z by lia. rewrite (seqZ_app 0 (w * Z.of_nat m)) by lia.
  rewrite fmap_app. f_equal. rewrite bind_cons. cbn [mbind list_bind]. rewrite app_nil_r, !Z.add_0_l.
  replace (seqZ (w * Z.of_nat m) w) with (Z.add (w * Z.of_nat m) <$> seqZ 0 w) by (by rewrite fmap_add_seqZ, Z.add_0_r).
  rewrite <-list_fmap_compose. apply list_fmap_ext. intros i x _. unfold compose. f_equal. lia.
Qed.

Section cover.
Context (s so d dof n stride : Z).
Context (Hn : (0 ≤ n)%Z) (Hso : (0 ≤ so)%Z) (Hdo : (0 ≤ dof)%Z) (Hsn : (so + n ≤ 2 ^ 32)%Z) (Hdn : (dof + n ≤ 2 ^ 32)%Z).
Context (Hstride : (0 < stride ≤ 2 ^ 31)%Z) (Hn32 : (n < 2 ^ 32)%Z).
Local Abbreviation head := (range_head d dof n).
Local Abbreviation nvec := (range_nvec d dof n).

Lemma range_bounds :
  (0 ≤ head ≤ n)%Z ∧ (head < 16)%Z ∧ (0 ≤ nvec)%Z ∧ (nvec < 2 ^ 28)%Z ∧
  range_done d dof n = (head + 16 * nvec)%Z ∧ (head + 16 * nvec ≤ n < head + 16 * nvec + 16)%Z.
Proof using Hn Hn32.
  assert (0 ≤ head ≤ n ∧ head < 16)%Z as [Hh Hh16].
  { unfold range_head. set (h := Z.land (16 - _) 15).
    assert (0 ≤ h < 16)%Z.
    { subst h. generalize (16 - Z.land (add32 (as_u32 d) dof) 15)%Z. intros x. change 15%Z with (Z.ones 4).
      rewrite Z.land_ones by lia. apply Z.mod_pos_bound. lia. }
    destruct (Z.ltb_spec n h); lia. }
  unfold range_done, range_nvec. rewrite Z.shiftr_div_pow2, Z.shiftl_mul_pow2 by lia. change (2 ^ 4)%Z with 16%Z.
  pose proof (Z.div_mod (n - head) 16 ltac:(lia)). pose proof (Z.mod_pos_bound (n - head) 16 ltac:(lia)).
  pose proof (Z.div_pos (n - head) 16 ltac:(lia) ltac:(lia)). lia.
Qed.

Definition target (o : Z) : Z * Z := ((s + so + o)%Z, (d + dof + o)%Z).

Lemma byte_move_target o : (0 ≤ o < n)%Z → byte_move s so d dof o = target o.
Proof using Hso Hdo Hsn Hdn. intros Ho. unfold byte_move, target. rewrite !add32_small by lia. f_equal; lia. Qed.

Lemma vector_move_target i :
  (0 ≤ i < nvec)%Z → vector_move s so d dof n i = (λ k, target (head + (i * 16 + k))) <$> seqZ 0 16.
Proof using Hn Hn32 Hso Hdo Hsn Hdn.
  intros Hi. destruct range_bounds as (Hh & Hh16 & Hv0 & Hv & _ & Hend). unfold vector_move.
  rewrite Z.shiftl_mul_pow2 by lia. change (2 ^ 4)%Z with 16%Z. rewrite (add32_small head) by lia.
  apply fmap_ext_elem. intros k Hk%elem_of_seqZ. unfold target. rewrite !add32_small by lia. f_equal; lia.
Qed.

Lemma range_cover :
  (seqZ 0 stride ≫= λ g, copy_range s so d dof n g stride) ≡ₚ target <$> seqZ 0 n.
Proof using All.
  destruct range_bounds as (Hh & Hh16 & Hv0 & Hv & Hdone & Hend). unfold copy_range.
  rewrite !bind_app_perm, !bind_fmap_out, bind_bind, !loops_perm by lia. rewrite Hdone.
  rewrite (fmap_ext_elem (byte_move _ _ _ _) target) by (intros o Ho%elem_of_seqZ; apply byte_move_target; lia).
  rewrite (bind_ext_elem (vector_move _ _ _ _ _) (λ i, (λ k, target (head + (i * 16 + k))) <$> seqZ 0 16)).
  2:{ intros i Hi%elem_of_seqZ. apply vector_move_target. lia. }
  rewrite <-(Z2Nat.id nvec Hv0) at 1. rewrite (blocks_tile (λ o, target (head + o))), (Z2Nat.id nvec Hv0) by lia.
  rewrite (fmap_ext_elem (λ i, byte_move s so d dof (add32 (head + 16 * nvec) i)) (λ o, target (head + 16 * nvec + o))).
  2:{ intros o Ho%elem_of_seqZ. rewrite add32_small by lia. apply byte_move_target. lia. }
  rewrite (list_fmap_compose (Z.add head) target), (list_fmap_compose (Z.add (head + 16 * nvec)) target).
  rewrite !fmap_add_seqZ, !Z.add_0_r, <-!fmap_app.
  pose proof (seqZ_app 0 head (16 * nvec + (n - (head + 16 * nvec)))%Z ltac:(lia) ltac:(lia)) as Heq.
  rewrite Z.add_0_l, (seqZ_app head (16 * nvec)) in Heq by lia.
  replace (head + (16 * nvec + (n - (head + 16 * nvec))))%Z with n in Heq by lia.
  by rewrite Heq.
Qed.
End cover.

Lemma threads_seq gx : (0 ≤ gx ≤ MAX_GRID_X)%Z → threads gx = seqZ 0 (gx * BLOCK).
Proof.
  change MAX_GRID_X with (2 ^ 23)%Z. intros Hgx. unfold threads.
  rewrite (bind_ext_elem _ (λ i, (λ k, (i * BLOCK + k)%Z) <$> seqZ 0 BLOCK)).
  - rewrite <-(Z2Nat.id gx) by lia. pose proof (blocks_tile id BLOCK (Z.to_nat gx) ltac:(done)) as Ht.
    unfold id in Ht. rewrite Ht, list_fmap_id. f_equal. lia.
  - intros i Hi%elem_of_seqZ. apply fmap_ext_elem. intros k Hk%elem_of_seqZ. unfold BLOCK in *.
    unfold as_u32. rewrite (Z.mod_small (i * 256)) by lia. rewrite add32_small by lia. done.
Qed.

Lemma grid_x_bounds bytes : (0 ≤ bytes)%Z → (1 ≤ grid_x bytes ≤ MAX_GRID_X)%Z.
Proof.
  intros Hb. unfold grid_x, clamp, as_u32. change MAX_GRID_X with (2 ^ 23)%Z.
  rewrite Z.mod_small by lia. lia.
Qed.

(** One copy by all threads of a grid. *)
Lemma grid_cover s so d dof n gx :
  (1 ≤ gx ≤ MAX_GRID_X)%Z → (0 ≤ n < 2 ^ 32)%Z → (0 ≤ so)%Z → (0 ≤ dof)%Z → (so + n ≤ 2 ^ 32)%Z → (dof + n ≤ 2 ^ 32)%Z →
  (threads gx ≫= λ g, copy_range s so d dof n g (as_u32 (gx * BLOCK))) ≡ₚ target s so d dof <$> seqZ 0 n.
Proof.
  intros Hgx Hn Hso Hdo Hsn Hdn. rewrite threads_seq by lia.
  assert (as_u32 (gx * BLOCK) = gx * BLOCK ∧ 0 < gx * BLOCK ≤ 2 ^ 31)%Z as [-> Hs].
  { change MAX_GRID_X with (2 ^ 23)%Z in Hgx. unfold BLOCK, as_u32. rewrite Z.mod_small by lia. lia. }
  apply range_cover; lia.
Qed.

(** The bytes of a copy from [s] to [d]. *)
Definition byte_moves (s d n : Z) : list (Z * Z) := (λ o, (s + o, d + o)%Z) <$> seqZ 0 n.

Lemma copy_kernel_moves src dst bytes gx :
  (1 ≤ gx ≤ MAX_GRID_X)%Z → (0 ≤ bytes < 2 ^ 32)%Z → copy_kernel src dst bytes gx ≡ₚ byte_moves src dst bytes.
Proof.
  intros Hgx Hb. unfold copy_kernel. rewrite grid_cover by lia. unfold target, byte_moves.
  by setoid_rewrite Z.add_0_r.
Qed.

(** ** Entries *)

Definition entry_fields (e : CopyEntry) : list (nat * Z) :=
  [(4, ce_src_slot e); (4, ce_src_offset e); (4, ce_dst_slot e); (4, ce_dst_offset e); (4, ce_bytes e); (4, 0%Z)].

Lemma read_entry es k e j x :
  es !! k = Some e → entry_fields e !! j = Some (4, x) → in_u 32 x →
  read_le (24 * k + 4 * j) 4 (es ≫= λ e, entry_encode e []) = x.
Proof.
  intros Hk Hj Hx. set (fs := es ≫= entry_fields).
  assert ((es ≫= λ e, entry_encode e []) = layout fs) as ->.
  { subst fs. unfold layout. rewrite <-bind_bind. apply bind_ext_elem. intros y _. done. }
  assert (∀ l, length (l ≫= entry_fields) = 6 * length l ∧ layout_size (l ≫= entry_fields) = 24 * length l) as Hsize.
  { induction l as [|y l [IH1 IH2]]; [done|]. rewrite bind_cons. unfold layout_size in *. cbn in *. lia. }
  pose proof (take_drop_middle _ _ _ Hk) as Hm. apply lookup_lt_Some in Hk as Hlt. apply lookup_lt_Some in Hj as Hjlt.
  destruct (Hsize (take k es)) as [Hl1 Hl2]. rewrite length_take, Nat.min_l in Hl1, Hl2 by lia.
  assert (fs !! (6 * k + j) = Some (4, x)) as Hf.
  { subst fs. rewrite <-Hm, bind_app, bind_cons. rewrite lookup_app_r by lia. rewrite Hl1, Nat.add_comm, Nat.add_sub.
    by rewrite lookup_app_l. }
  assert (layout_size (take (6 * k + j) fs) = 24 * k + 4 * j) as <-.
  { subst fs. rewrite <-Hm, bind_app, bind_cons. rewrite <-Hl1 at 1. rewrite take_app_add, take_app_le by lia.
    unfold layout_size in *. rewrite fmap_app, sum_list_with_app, Hl2. f_equal. cbn in Hjlt. clear -Hjlt.
    do 6 (destruct j as [|j]; [done|]). lia. }
  rewrite (read_layout_at _ _ _ _ Hf). unfold in_u, umax in Hx. change (256 ^ Z.of_nat 4)%Z with (2 ^ 32)%Z. apply Z.mod_small. lia.
Qed.

(** ** Launches *)

Lemma run_copy_launch src dst bytes table :
  in_u 64 src → in_u 64 dst → in_u 32 bytes →
  run_launch (copy_launch src dst bytes) table = copy_kernel src dst bytes (grid_x bytes).
Proof.
  intros Hs Hd Hb. unfold run_launch, copy_launch. cbn [ln_kernarg ln_grid ln_symbol a3_x].
  rewrite bool_decide_true by done. set (fs := [(8, src); (8, dst); (4, bytes); (4, 0%Z)]).
  assert (resize0 24 (le_bytes 8 src ++ le_bytes 8 dst ++ le_bytes 4 bytes) = layout fs) as -> by done.
  assert (read_le 0 8 (layout fs) = src) as -> by read_field fs 0.
  assert (read_le 8 8 (layout fs) = dst) as -> by read_field fs 1.
  assert (read_le 16 4 (layout fs) = bytes) as -> by read_field fs 2. done.
Qed.

Definition slot_args (bases : list Z) (slots : nat) : list Z := (λ k, default 0%Z (bases !! k)) <$> seq 0 slots.

Lemma slot_base bases k : Forall (in_u 64) bases → in_u 64 (default 0%Z (bases !! k)).
Proof.
  intros Hb. destruct (bases !! k) as [b|] eqn:Hk; [by apply (Forall_lookup_1 _ _ _ _ Hb Hk)|]. by vm_compute.
Qed.

Lemma slot_arguments_layout bases slots :
  slot_arguments bases slots = layout ((λ x, (8, x)) <$> slot_args bases slots).
Proof.
  unfold slot_arguments, slot_args, layout. induction (seq 0 slots) as [|k l IH]; [done|].
  rewrite bind_cons, !fmap_cons, bind_cons, IH. done.
Qed.

Lemma read_slots fs0 bases fs1 :
  Forall (in_u 64) bases →
  (λ i, read_le (layout_size fs0 + 8 * i) 8 (layout (fs0 ++ ((λ x, (8, x)) <$> slot_args bases 8) ++ fs1))) <$> seq 0 8 =
  slot_args bases 8.
Proof.
  intros Hb. apply fmap_ext_elem. intros i [_ Hi]%elem_of_seq. set (fs := fs0 ++ _).
  assert (fs !! (length fs0 + i) = Some (8, default 0%Z (bases !! i))) as Hf.
  { subst fs. rewrite lookup_app_r by lia. rewrite Nat.add_comm, Nat.add_sub.
    rewrite lookup_app_l by (by rewrite length_fmap; unfold slot_args; rewrite length_fmap, length_seq).
    rewrite list_lookup_fmap. unfold slot_args. rewrite list_lookup_fmap, lookup_seq_lt by lia. done. }
  assert (layout_size (take (length fs0 + i) fs) = layout_size fs0 + 8 * i) as <-.
  { subst fs. rewrite take_app_add, take_app_le by (unfold slot_args; rewrite !length_fmap, length_seq; lia).
    unfold layout_size. rewrite fmap_app, sum_list_with_app. f_equal. unfold slot_args.
    rewrite <-!fmap_take, take_seq, Nat.min_l by lia. rewrite <-!list_fmap_compose.
    rewrite (sum_list_fmap_same 8), length_seq by (by apply Forall_true). lia. }
  rewrite (read_layout_at _ _ _ _ Hf). apply Z.mod_small. pose proof (slot_base bases i Hb) as [H0 H1].
  unfold umax in H1. change (256 ^ Z.of_nat 8)%Z with (2 ^ 64)%Z. lia.
Qed.

Lemma run_batch_launch addr n src dst max_bytes l table :
  in_u 64 addr → in_u 32 n → Forall (in_u 64) src → Forall (in_u 64) dst →
  batch_launch addr n src dst max_bytes = Some l →
  run_launch l table = batch_kernel (table addr) n (slot_args src 8) (slot_args dst 8) (grid_x max_bytes) n.
Proof.
  intros Ha Hn Hs Hd. unfold batch_launch. destruct (_ || _); [done|]. intros H. apply (inj Some) in H as <-.
  unfold run_launch. cbn [ln_kernarg ln_grid ln_symbol a3_x a3_y]. rewrite bool_decide_false by done.
  set (fs0 := [(8, addr); (4, n); (4, 0%Z)]).
  assert (resize0 16 (le_bytes 8 addr ++ le_bytes 4 n) = layout fs0) as -> by done.
  rewrite !slot_arguments_layout. unfold SRC_SLOTS, DST_SLOTS.
  set (fs1 := (λ x, (8, x)) <$> slot_args src 8). set (fs2 := (λ x, (8, x)) <$> slot_args dst 8).
  assert (layout fs0 ++ layout fs1 ++ layout fs2 = layout (fs0 ++ fs1 ++ fs2)) as -> by (unfold layout; by rewrite !bind_app).
  pose proof (read_slots fs0 src fs2 Hs) as H1. pose proof (read_slots (fs0 ++ fs1) dst [] Hd) as H2.
  rewrite app_nil_r, <-app_assoc in H2. change (layout_size fs0) with 16 in H1.
  change (layout_size (fs0 ++ fs1)) with 80 in H2. fold fs1 fs2 in H1, H2. rewrite H1.
  assert (∀ i, 16 + 8 * (8 + i) = 80 + 8 * i) as Heq by lia.
  rewrite (fmap_ext_elem _ (λ i, read_le (80 + 8 * i) 8 (layout (fs0 ++ fs1 ++ fs2)))) by (intros i _; by rewrite Heq).
  rewrite H2.
  assert (read_le 0 8 (layout (fs0 ++ fs1 ++ fs2)) = addr) as -> by read_field (fs0 ++ fs1 ++ fs2) 0.
  assert (read_le 8 4 (layout (fs0 ++ fs1 ++ fs2)) = n) as -> by read_field (fs0 ++ fs1 ++ fs2) 1. done.
Qed.

(** ** The batch kernel *)

Lemma read_le_app_l a n l r : a + n ≤ length l → read_le a n (l ++ r) = read_le a n l.
Proof. intros H. unfold read_le. rewrite drop_app_le by lia. by rewrite take_app_le by (rewrite length_drop; lia). Qed.

Definition entry_typed (e : CopyEntry) : Prop :=
  (0 ≤ ce_src_slot e < KERNEL_SLOTS)%Z ∧ (0 ≤ ce_dst_slot e < KERNEL_SLOTS)%Z ∧ in_u 32 (ce_src_offset e) ∧
  in_u 32 (ce_dst_offset e) ∧ in_u 32 (ce_bytes e) ∧
  (ce_src_offset e + ce_bytes e ≤ 2 ^ 32)%Z ∧ (ce_dst_offset e + ce_bytes e ≤ 2 ^ 32)%Z.

(** What an entry asks for, given the slot arguments. *)
Definition entry_moves (ss ds : list Z) (e : CopyEntry) : list (Z * Z) :=
  byte_moves (default 0%Z (ss !! Z.to_nat (ce_src_slot e)) + ce_src_offset e)
    (default 0%Z (ds !! Z.to_nat (ce_dst_slot e)) + ce_dst_offset e) (ce_bytes e).

Lemma batch_row_moves es rest ss ds gx k e :
  es !! k = Some e → entry_typed e → (1 ≤ gx ≤ MAX_GRID_X)%Z →
  batch_row ((es ≫= λ e, entry_encode e []) ++ rest) (Z.of_nat (length es)) ss ds gx (Z.of_nat k) ≡ₚ entry_moves ss ds e.
Proof.
  intros Hk (Ha & Hb & Hso & Hdo & Hn & Hsn & Hdn) Hgx. unfold batch_row. apply lookup_lt_Some in Hk as Hlt.
  rewrite (proj2 (Z.leb_gt _ _)) by lia. rewrite Nat2Z.id.
  assert (length (es ≫= λ e, entry_encode e []) = 24 * length es) as Hlen.
  { clear. induction es as [|e es IH]; [done|]. rewrite bind_cons, length_app, IH. cbn. lia. }
  assert (∀ j x, entry_fields e !! j = Some (4, x) → in_u 32 x →
    read_le (24 * k + 4 * j) 4 ((es ≫= λ e, entry_encode e []) ++ rest) = x) as Hread.
  { intros j x Hj Hx. apply lookup_lt_Some in Hj as Hj'. cbn in Hj'. rewrite read_le_app_l by lia. by eapply read_entry. }
  unfold KERNEL_SLOTS in *.
  assert (in_u 32 (ce_src_slot e) ∧ in_u 32 (ce_dst_slot e)) as [Hin0 Hin2] by (unfold in_u, umax; lia).
  rewrite (Hread 0 _ eq_refl Hin0), (Hread 1 _ eq_refl Hso), (Hread 2 _ eq_refl Hin2), (Hread 3 _ eq_refl Hdo),
    (Hread 4 _ eq_refl Hn).
  assert (Z.lor (ce_src_slot e) (ce_dst_slot e) < 8)%Z as Hor.
  { assert (∀ a, (0 ≤ a < 8)%Z → Z.land a (Z.ones 3) = a) as Hl.
    { intros a Hr. rewrite Z.land_ones by lia. apply Z.mod_small. lia. }
    assert (Z.lor (ce_src_slot e) (ce_dst_slot e) = Z.lor (ce_src_slot e) (ce_dst_slot e) mod 2 ^ 3)%Z as ->.
    { rewrite <-Z.land_ones, Z.land_lor_distr_l, !Hl by lia. done. }
    apply Z.mod_pos_bound. lia. }
  rewrite (proj2 (Z.leb_gt _ _)) by lia. unfold in_u, umax in *.
  rewrite grid_cover by lia. unfold entry_moves, byte_moves, target. done.
Qed.

Lemma batch_kernel_moves es rest ss ds gx :
  Forall entry_typed es → (1 ≤ gx ≤ MAX_GRID_X)%Z →
  batch_kernel ((es ≫= λ e, entry_encode e []) ++ rest) (Z.of_nat (length es)) ss ds gx (Z.of_nat (length es)) ≡ₚ
  es ≫= entry_moves ss ds.
Proof.
  intros Ht Hgx. unfold batch_kernel. set (table := _ ++ rest).
  assert (∀ m, m ≤ length es →
    (seqZ 0 (Z.of_nat m) ≫= batch_row table (Z.of_nat (length es)) ss ds gx) ≡ₚ take m es ≫= entry_moves ss ds) as H.
  { induction m as [|m IH]; intros Hm; [done|]. destruct (lookup_lt_is_Some_2 es m) as [e He]; [lia|].
    rewrite seqZ_S, bind_app, IH, (take_S_r _ _ _ He), bind_app by lia. f_equiv. rewrite !bind_cons. cbn [mbind list_bind].
    rewrite !app_nil_r, Z.add_0_l. apply batch_row_moves; [done|by apply (Forall_lookup_1 _ _ _ _ Ht He)|done]. }
  rewrite H by done. by rewrite take_ge.
Qed.
