(* ===== verification/RailCopyRun.v ===== *)
(** * Running copy programs on the device

    Device memory, the loads and stores of a launch in any interleaving, and
    prepared nodes in program order.  Resources are bound to disjoint
    allocations (the [InBoundsNoAlias] obligation of [railgun/src/kernel.rs]).
    Then a launch always comes to an end, and a batch leaves the memory its
    entries' memcpys leave in table order. *)

From stdpp Require Import gmap fin_maps list_numbers relations.
From S2P Require Import Prelude Packet RailCopy RailCopyOk RailKernel.

Abbreviation mem := (Z → Z).

Definition store (m : mem) (a v : Z) : mem := λ x, if decide (x = a) then v else m x.

(** [bs_loaded] holds what the moves have loaded, [bs_stored] those that have stored. *)
Record byte_state := mkBytes { bs_mem : mem; bs_loaded : gmap nat Z; bs_stored : gset nat }.

Definition bytes_start (m : mem) : byte_state := mkBytes m ∅ ∅.

Inductive byte_step (moves : list (Z * Z)) : byte_state → byte_state → Prop :=
| load_byte k src dst m loaded stored :
    moves !! k = Some (src, dst) → loaded !! k = None →
    byte_step moves (mkBytes m loaded stored) (mkBytes m (<[k:=m src]> loaded) stored)
| store_byte k src dst v m loaded stored :
    moves !! k = Some (src, dst) → loaded !! k = Some v → (k ∉ stored) →
    byte_step moves (mkBytes m loaded stored) (mkBytes (store m dst v) loaded ({[k]} ∪ stored)).

(** A launch has run when no thread can go on. *)
Definition moves_run (moves : list (Z * Z)) (m m' : mem) : Prop :=
  ∃ s, rtc (byte_step moves) (bytes_start m) s ∧ nf (byte_step moves) s ∧ bs_mem s = m'.

(** [hipMemcpyDtoD] of disjoint ranges. *)
Definition memcpy (m : mem) (c : ResolvedCopy) : mem := λ x,
  if decide (rc_dst_addr c ≤ x < rc_dst_addr c + sp_len (rc_dst c))%Z
  then m (rc_src_addr c + (x - rc_dst_addr c))%Z else m x.

Definition memcpys (m : mem) (copies : list ResolvedCopy) : mem := foldl memcpy m copies.

(** The bytes a launch reads at its table argument. *)
Definition table_at (m : mem) (a : Z) : list Z := m <$> seqZ a (MAX_BATCH * ENTRY_BYTES).

(** Prepared nodes in program order. *)
Inductive nodes_run : list PreparedNode → mem → mem → Prop :=
| nodes_done m : nodes_run [] m m
| node_skipped n ns m m' : node_launch n = Some None → nodes_run ns m m' → nodes_run (n :: ns) m m'
| node_launched n l ns m m1 m' :
    node_launch n = Some (Some l) → moves_run (run_launch l (table_at m)) m m1 → nodes_run ns m1 m' →
    nodes_run (n :: ns) m m'.

Definition node_copies (n : PreparedNode) : list ResolvedCopy :=
  match n with PCopy c => [c] | PCopyBatch _ _ _ _ copies => copies end.

(** ** Interleavings *)

Record moves_apart (moves : list (Z * Z)) : Prop := {
  ma_dst : NoDup moves.*2;
  ma_src x : x ∈ moves.*1 → (x ∉ moves.*2)
}.

Definition moved (moves : list (Z * Z)) (m m' : mem) : Prop :=
  (∀ s d, (s, d) ∈ moves → m' d = m s) ∧ (∀ x, (x ∉ moves.*2) → m' x = m x).

Lemma moved_perm moves moves' m m' : moves ≡ₚ moves' → moved moves m m' → moved moves' m m'.
Proof. intros Hp [H1 H2]. split; [intros s d; rewrite <-Hp; apply H1|intros x; rewrite <-Hp; apply H2]. Qed.

#[export] Instance moves_apart_proper : Proper ((≡ₚ) ==> impl) moves_apart.
Proof.
  intros l k Hp [H1 H2]. split; [by rewrite <-Hp|]. intros x. rewrite <-!Hp. apply H2.
Qed.

Section interleavings.
Context (moves : list (Z * Z)) (m0 : mem) (Hap : moves_apart moves).
Local Abbreviation all := (set_seq (C := gset nat) 0 (length moves)).

Lemma move_index k src dst : moves !! k = Some (src, dst) → k ∈ all.
Proof using Type. intros H%lookup_lt_Some. apply elem_of_set_seq. lia. Qed.

Lemma same_destination k j s1 s2 d : moves !! k = Some (s1, d) → moves !! j = Some (s2, d) → k = j.
Proof using Hap.
  intros Hk Hj. apply (NoDup_lookup _ k j d (ma_dst _ Hap)); by rewrite list_lookup_fmap, ?Hk, ?Hj.
Qed.

(** The memory part way through: the stored moves have happened, nothing else has. *)
Record part_way (s : byte_state) : Prop := {
  pw_loaded k v : bs_loaded s !! k = Some v → ∃ src dst, moves !! k = Some (src, dst) ∧ v = m0 src;
  pw_stored k : k ∈ bs_stored s → ∃ src dst, moves !! k = Some (src, dst) ∧ bs_mem s dst = m0 src;
  pw_rest x : (∀ k src, moves !! k = Some (src, x) → (k ∉ bs_stored s)) → bs_mem s x = m0 x
}.

Lemma part_way_source s k src dst : part_way s → moves !! k = Some (src, dst) → bs_mem s src = m0 src.
Proof using Hap.
  intros [_ _ Hr] Hk. apply Hr. intros j src' Hj. exfalso.
  apply (ma_src _ Hap src); apply list_elem_of_fmap; [exists (src, dst)|exists (src', src)];
    (split; [done|by eapply list_elem_of_lookup_2]).
Qed.

Lemma part_way_step s s' : byte_step moves s s' → part_way s → part_way s'.
Proof using Hap.
  intros [k src dst m loaded stored Hk Hl|k src dst v m loaded stored Hk Hl Hs] Hpw.
  - pose proof (part_way_source _ _ _ _ Hpw Hk) as Hsrc. destruct Hpw as [H1 H2 H3].
    split; cbn [bs_mem bs_loaded bs_stored] in *; [|done|done].
    intros j v. destruct (decide (j = k)) as [->|Hne].
    + rewrite lookup_insert_eq. intros [= <-]. eauto.
    + rewrite lookup_insert_ne by done. apply H1.
  - destruct Hpw as [H1 H2 H3]. split; cbn [bs_mem bs_loaded bs_stored] in *; [done| |].
    + intros j Hj. unfold store. destruct (decide (j = k)) as [->|Hne].
      * exists src, dst. split; [done|]. rewrite decide_True by done. destruct (H1 _ _ Hl) as (s1 & d1 & Hk' & ->). congruence.
      * destruct (H2 j) as (s1 & d1 & Hj1 & Hm); [set_solver|]. exists s1, d1. split; [done|].
        rewrite decide_False; [done|]. intros ->. apply Hne. by eapply same_destination.
    + intros x Hx. unfold store. rewrite decide_False.
      * apply H3. intros j src' Hj. specialize (Hx j src' Hj). set_solver.
      * intros ->. specialize (Hx k src Hk). set_solver.
Qed.

Lemma reached_part_way s : rtc (byte_step moves) (bytes_start m0) s → part_way s.
Proof using Hap.
  intros H. eapply (rtc_ind_l (λ s', part_way s' → part_way s)); [done| |exact H|].
  - intros x y Hxy _ IH Hx. by apply IH, (part_way_step x).
  - split; cbn; [by intros ??; rewrite lookup_empty|set_solver|done].
Qed.

(** A thread can go on until every byte is stored. *)
Lemma stuck_stored s k src dst : nf (byte_step moves) s → moves !! k = Some (src, dst) → k ∈ bs_stored s.
Proof using Type.
  clear Hap.
  intros Hnf Hk. destruct (decide (k ∈ bs_stored s)) as [|Hs]; [done|]. exfalso. apply Hnf.
  destruct s as [m loaded stored]. cbn [bs_stored] in *. destruct (loaded !! k) as [v|] eqn:Hl.
  - eexists. by eapply store_byte.
  - eexists. by eapply load_byte.
Qed.

Lemma run_moved m' : moves_run moves m0 m' → moved moves m0 m'.
Proof using Hap.
  intros (s & Hs & Hnf & <-). apply reached_part_way in Hs as [_ H2 H3]. split.
  - intros src dst Hin. apply list_elem_of_lookup in Hin as [k Hk].
    destruct (H2 k) as (s1 & d1 & Hk' & ?); [by eapply stuck_stored|]. congruence.
  - intros x Hx. apply H3. intros k src Hk. destruct Hx. apply list_elem_of_fmap.
    exists (src, x). split; [done|by eapply list_elem_of_lookup_2].
Qed.

(** ** Termination *)

Definition bytes_left (s : byte_state) : nat := size (all ∖ dom (bs_loaded s)) + size (all ∖ bs_stored s).

Lemma left_step s s' : byte_step moves s s' → bytes_left s' < bytes_left s.
Proof using Type.
  clear Hap.
  assert (∀ (X : gset nat) k, k ∈ all → (k ∉ X) → size (all ∖ ({[k]} ∪ X)) < size (all ∖ X)) as Hlt.
  { intros X k Hk HX. apply subset_size. set_solver. }
  intros [k src dst m loaded stored Hk Hl|k src dst v m loaded stored Hk Hl Hs];
    apply move_index in Hk; unfold bytes_left; cbn [bs_loaded bs_stored].
  - rewrite dom_insert_L. apply not_elem_of_dom in Hl. specialize (Hlt _ _ Hk Hl). lia.
  - specialize (Hlt _ _ Hk Hs). lia.
Qed.

Lemma steps_end s : sn (byte_step moves) s.
Proof using Type.
  induction s as [s IH] using (well_founded_induction (well_founded_ltof _ bytes_left)).
  constructor. intros s' Hs. by apply IH, left_step.
Qed.

Lemma run_exists : ∃ m', moves_run moves m0 m'.
Proof using Type.
  clear Hap.
  enough (∀ s, ∃ s', rtc (byte_step moves) s s' ∧ nf (byte_step moves) s') as H.
  { destruct (H (bytes_start m0)) as (s & ? & ?). by exists (bs_mem s), s. }
  intros s. induction s as [s IH] using (well_founded_induction (well_founded_ltof _ bytes_left)).
  destruct (decide (set_Forall (λ k, k ∈ bs_stored s) all)) as [Hall|Hnot].
  - destruct (decide (set_Forall (λ k, k ∈ dom (bs_loaded s)) all)) as [Hld|Hnld].
    + exists s. split; [done|]. intros [s' Hs]. destruct Hs as [k src dst m loaded stored Hk Hl|k src dst v m loaded stored Hk Hl Hst].
      * specialize (Hld k (move_index _ _ _ Hk)). cbn in Hld. by apply not_elem_of_dom in Hl.
      * by specialize (Hall k (move_index _ _ _ Hk)).
    + apply not_set_Forall_Exists in Hnld as (k & Hk & Hl); [|apply _].
      apply elem_of_set_seq in Hk. destruct (lookup_lt_is_Some_2 moves k) as [[src dst] Hmk]; [lia|].
      destruct s as [m loaded stored]. cbn in Hl. apply not_elem_of_dom in Hl.
      assert (byte_step moves (mkBytes m loaded stored) (mkBytes m (<[k:=m src]> loaded) stored)) as Hs by (by eapply load_byte).
      destruct (IH _ (left_step _ _ Hs)) as (s' & ? & ?). exists s'. split; [by eapply rtc_l|done].
  - apply not_set_Forall_Exists in Hnot as (k & Hk & Hst); [|apply _].
    apply elem_of_set_seq in Hk. destruct (lookup_lt_is_Some_2 moves k) as [[src dst] Hmk]; [lia|].
    destruct s as [m loaded stored]. cbn in Hst.
    assert (∃ s', byte_step moves (mkBytes m loaded stored) s') as [s1 Hs].
    { destruct (loaded !! k) eqn:Hl; eexists; [by eapply store_byte|by eapply load_byte]. }
    destruct (IH _ (left_step _ _ Hs)) as (s' & ? & ?). exists s'. split; [by eapply rtc_l|done].
Qed.
End interleavings.

(** ** Moves one after the other *)

Lemma moved_unique moves m m1 m2 : moved moves m m1 → moved moves m m2 → ∀ x, m1 x = m2 x.
Proof.
  intros [H1 H2] [H3 H4] x. destruct (decide (x ∈ moves.*2)) as [Hin|Hout].
  - apply list_elem_of_fmap in Hin as ([s d] & -> & Hin). cbn [snd]. by rewrite (H1 s d), (H3 s d).
  - by rewrite H2, H4.
Qed.

Lemma moved_app l1 l2 m m1 m2 :
  moves_apart (l1 ++ l2) → moved l1 m m1 → moved l2 m1 m2 → moved (l1 ++ l2) m m2.
Proof.
  intros [Hnd Hsrc] [H1 H2] [H3 H4]. setoid_rewrite fmap_app in Hsrc. rewrite fmap_app in Hnd.
  apply NoDup_app in Hnd as (_ & Hdis & _). split.
  - intros s d [Hin|Hin]%elem_of_app.
    + rewrite H4; [by apply H1|]. apply Hdis. by apply (list_elem_of_fmap_2 snd) in Hin.
    + rewrite (H3 _ _ Hin). apply H2. intros Hd. apply (Hsrc s); [|set_solver].
      apply elem_of_app. right. by apply (list_elem_of_fmap_2 fst) in Hin.
  - intros x. rewrite fmap_app, not_elem_of_app. intros [Hx1 Hx2]. by rewrite H4, H2.
Qed.

(** ** Copies *)

Definition copy_moves (c : ResolvedCopy) : list (Z * Z) :=
  byte_moves (rc_src_addr c) (rc_dst_addr c) (sp_len (rc_dst c)).

Lemma byte_moves_src s d n x : x ∈ (byte_moves s d n).*1 ↔ (s ≤ x < s + n)%Z.
Proof.
  unfold byte_moves. rewrite <-list_fmap_compose, list_elem_of_fmap. split.
  - intros (o & -> & Ho%elem_of_seqZ). cbn. lia.
  - intros Hx. exists (x - s)%Z. rewrite elem_of_seqZ. cbn. lia.
Qed.

Lemma byte_moves_dst s d n : (byte_moves s d n).*2 = seqZ d n.
Proof.
  unfold byte_moves. rewrite <-list_fmap_compose. transitivity (Z.add d <$> seqZ 0 n); [done|].
  by rewrite fmap_add_seqZ, Z.add_0_r.
Qed.

Lemma memcpy_moved m c : moved (copy_moves c) m (memcpy m c).
Proof.
  unfold copy_moves, memcpy. split.
  - intros s d (o & [= -> ->] & Ho%elem_of_seqZ)%list_elem_of_fmap. rewrite decide_True by lia. f_equal. lia.
  - intros x. rewrite byte_moves_dst, elem_of_seqZ. intros Hx. by rewrite decide_False by lia.
Qed.

(** Device allocations are disjoint ranges of the 64-bit address space. *)
Record allocations_apart (bindings : list Binding) : Prop := {
  aa_disjoint i j b b' x : i ≠ j → bindings !! i = Some b → bindings !! j = Some b' →
    (bi_base b ≤ x < bi_base b + bi_bytes b)%Z → ¬ (bi_base b' ≤ x < bi_base b' + bi_bytes b')%Z;
  aa_space : Forall (λ b, bi_base b + bi_bytes b ≤ 2 ^ 64)%Z bindings
}.

(** A copy inside its allocations. *)
Record copy_placed (sizes : list Z) (bindings : list Binding) (c : ResolvedCopy) : Prop := {
  cp_in : copy_in sizes c;
  cp_src : placed bindings (rc_src c) (rc_src_addr c);
  cp_dst : placed bindings (rc_dst c) (rc_dst_addr c)
}.

Section placed.
Context (sizes : list Z) (bindings : list Binding) (Ha : allocations_apart bindings).

Lemma placed_meets s t a b x :
  placed bindings s a → placed bindings t b → span_in sizes s → span_in sizes t →
  (a ≤ x < a + sp_len s)%Z → (b ≤ x < b + sp_len t)%Z → meets s t.
Proof using Ha.
  intros (bs & Hbs & -> & Hs) (bt & Hbt & -> & Ht) [Hs0 Hs1 _] [Ht0 Ht1 _] Hx Hy.
  destruct (decide (sp_resource s = sp_resource t)) as [Heq|Hne].
  - assert (bs = bt) as <- by congruence. exists (sp_resource s), (x - bi_base bs)%Z. unfold in_span.
    clear -Heq Hx Hy. lia.
  - destruct (aa_disjoint _ Ha _ _ _ _ x Hne Hbs Hbt); clear -Hs0 Ht0 Hs Ht Hx Hy; lia.
Qed.

Lemma copies_apart copies :
  Forall (copy_placed sizes bindings) copies → independent copies → moves_apart (copies ≫= copy_moves).
Proof using Ha.
  induction 1 as [|c l [Hin Hps Hpd] Hl IH]; intros Hind; [split; [constructor|intros x; set_solver]|].
  assert (independent l) as Hl'.
  { intros a b ca cb Hca Hcb Hne. apply (Hind (S a) (S b)); [done|done|clear -Hne; lia]. }
  destruct (IH Hl') as [Hnd Hsrc].
  assert (∀ c' x, c' ∈ l → x ∈ (copy_moves c').*2 → (x ∉ (copy_moves c).*2)) as Hdd.
  { intros c' x Hc'. pose proof Hc' as [k Hk]%list_elem_of_lookup. rewrite Forall_forall in Hl.
    destruct (Hl _ Hc') as [Hin' _ Hpd']. unfold copy_moves. rewrite !byte_moves_dst, !elem_of_seqZ. intros Hx Hy.
    destruct (Hind 0 (S k) c c' eq_refl Hk (Nat.neq_0_succ k)) as [Hno _]. apply Hno.
    by apply (placed_meets _ _ _ _ x Hpd Hpd' (ci_dst _ _ Hin) (ci_dst _ _ Hin')). }
  assert (∀ i j ci cj x, (c :: l) !! i = Some ci → (c :: l) !! j = Some cj → i ≠ j →
    x ∈ (copy_moves ci).*1 → (x ∉ (copy_moves cj).*2)) as Hsd.
  { intros i j ci cj x Hi Hj Hne. assert (Forall (copy_placed sizes bindings) (c :: l)) as Hall by (by constructor).
    destruct (Forall_lookup_1 _ _ _ _ Hall Hi) as [Hin1 Hps1 _]. destruct (Forall_lookup_1 _ _ _ _ Hall Hj) as [Hin2 _ Hpd2].
    unfold copy_moves. rewrite byte_moves_src, byte_moves_dst, elem_of_seqZ, <-(ci_len _ _ Hin1). intros Hx Hy.
    destruct (Hind j i cj ci Hj Hi (not_eq_sym Hne)) as [_ Hno]. apply Hno.
    by apply (placed_meets _ _ _ _ x Hpd2 Hps1 (ci_dst _ _ Hin2) (ci_src _ _ Hin1)). }
  assert (∀ x, x ∈ (l ≫= copy_moves).*1 → ∃ k c', l !! k = Some c' ∧ x ∈ (copy_moves c').*1) as Hsplit1.
  { intros x ([s d] & -> & (c' & Hm & [k Hk]%list_elem_of_lookup)%list_elem_of_bind)%list_elem_of_fmap.
    exists k, c'. split; [done|]. by apply (list_elem_of_fmap_2 fst) in Hm. }
  assert (∀ x, x ∈ (l ≫= copy_moves).*2 → ∃ k c', l !! k = Some c' ∧ x ∈ (copy_moves c').*2) as Hsplit2.
  { intros x ([s d] & -> & (c' & Hm & [k Hk]%list_elem_of_lookup)%list_elem_of_bind)%list_elem_of_fmap.
    exists k, c'. split; [done|]. by apply (list_elem_of_fmap_2 snd) in Hm. }
  rewrite bind_cons. split; rewrite fmap_app.
  - apply NoDup_app. split; [unfold copy_moves; rewrite byte_moves_dst; apply NoDup_seqZ|]. split; [|done].
    intros x Hx (k & c' & Hk & Hx')%Hsplit2. apply (Hdd c' x); [by eapply list_elem_of_lookup_2|done|done].
  - intros x Hx. rewrite fmap_app, not_elem_of_app. apply elem_of_app in Hx as [Hx|Hx].
    + split.
      * unfold copy_moves in *. rewrite byte_moves_src, <-(ci_len _ _ Hin) in Hx. rewrite byte_moves_dst, elem_of_seqZ. intros Hy.
        apply (ci_self _ _ Hin). by apply (placed_meets _ _ _ _ x Hps Hpd (ci_src _ _ Hin) (ci_dst _ _ Hin)).
      * intros (k & c' & Hk & Hx')%Hsplit2. by apply (Hsd 0 (S k) c c' x eq_refl Hk (Nat.neq_0_succ k) Hx).
    + split; [|by apply Hsrc]. apply Hsplit1 in Hx as (k & c' & Hk & Hx). by apply (Hsd (S k) 0 c' c x Hk eq_refl (Nat.neq_succ_0 k) Hx).
Qed.
End placed.

Lemma memcpys_moved copies m : moves_apart (copies ≫= copy_moves) → moved (copies ≫= copy_moves) m (memcpys m copies).
Proof.
  revert m. induction copies as [|c l IH]; intros m Hap; [by split; [intros s d Hin%elem_of_nil|]|].
  rewrite bind_cons in *. apply (moved_app _ _ m (memcpy m c)); [done|apply memcpy_moved|]. apply IH.
  destruct Hap as [Hnd Hsrc]. setoid_rewrite fmap_app in Hsrc. rewrite fmap_app in Hnd. apply NoDup_app in Hnd as (_ & _ & Hnd).
  split; [done|]. intros x Hx Hy. apply (Hsrc x); rewrite ?fmap_app; apply elem_of_app; by right.
Qed.

(** ** Launches *)

Lemma slot_args_lookup slots slot offset s address :
  side_of slots slot offset s address →
  (default 0 (slot_args (sl_base <$> slots) 8 !! Z.to_nat slot) + offset)%Z = address.
Proof.
  intros [Hs (base & Hl & ->) _]. unfold slot_args. rewrite list_lookup_fmap, lookup_seq_lt by lia. cbn [fmap option_fmap option_map].
  rewrite Nat.add_0_l, list_lookup_fmap, Hl. done.
Qed.

Lemma entry_moves_copy ss ds c e :
  entry_of ss ds c e → entry_moves (slot_args (sl_base <$> ss) 8) (slot_args (sl_base <$> ds) 8) e = copy_moves c.
Proof.
  intros [Hs Hd [Hb _]]. unfold entry_moves, copy_moves. by rewrite (slot_args_lookup _ _ _ _ _ Hs), (slot_args_lookup _ _ _ _ _ Hd), Hb.
Qed.

Lemma entry_of_typed ss ds c e : sp_len (rc_src c) = sp_len (rc_dst c) → entry_of ss ds c e → entry_typed e.
Proof.
  intros Hl [[Hs _ (Ho1 & _ & Ho2 & Ho3)] [Hd _ (Hp1 & _ & Hp2 & Hp3)] [Hb Hu]]. unfold entry_typed, KERNEL_SLOTS.
  rewrite Hb in *. rewrite Hl in Ho2. done.
Qed.

Definition table_loaded (m : mem) (image : TableImage) : Prop :=
  ∀ k v, ti_bytes image !! k = Some v → m (ti_addr image + Z.of_nat k)%Z = v.

Lemma table_at_image m image :
  table_loaded m image → (Z.of_nat (length (ti_bytes image)) ≤ MAX_BATCH * ENTRY_BYTES)%Z →
  ∃ rest, table_at m (ti_addr image) = ti_bytes image ++ rest.
Proof.
  intros Hl Hn. exists (drop (length (ti_bytes image)) (table_at m (ti_addr image))).
  rewrite <-(take_drop (length (ti_bytes image)) (table_at m (ti_addr image))) at 1. f_equal.
  apply list_eq_same_length with (n := length (ti_bytes image)); [done| |].
  - rewrite length_take. unfold table_at. rewrite length_fmap, length_seqZ. lia.
  - intros i x y Hi Hx Hy. rewrite lookup_take_lt in Hx by done. unfold table_at in Hx.
    rewrite list_lookup_fmap, lookup_seqZ_lt in Hx by lia. injection Hx as <-. by apply Hl.
Qed.

Lemma max_nonneg l : (0 ≤ foldr Z.max 0 l)%Z.
Proof. induction l; cbn [foldr]; lia. Qed.

(** A launch moves exactly the bytes of the node's copies. *)
Definition launches_copies (m : mem) (n : PreparedNode) : Prop :=
  ∃ l, node_launch n = Some l ∧
    match l with
    | None => node_copies n ≫= copy_moves = []
    | Some l => run_launch l (table_at m) ≡ₚ node_copies n ≫= copy_moves
    end.

Lemma placed_address bindings s a n :
  Forall binding_typed bindings → allocations_apart bindings → placed bindings s a → (0 ≤ sp_offset s)%Z →
  (0 < n ≤ sp_len s)%Z → in_u 64 a.
Proof.
  intros Hb Ha (b & Hbs & -> & Hs) Ho Hn. destruct (Forall_lookup_1 _ _ _ _ Hb Hbs) as [[H0 _] _].
  pose proof (Forall_lookup_1 _ _ _ _ (aa_space _ Ha) Hbs). unfold in_u, umax. cbn in *. lia.
Qed.

Lemma copy_launches sizes bindings m c :
  Forall binding_typed bindings → allocations_apart bindings → copy_placed sizes bindings c → launches_copies m (PCopy c).
Proof.
  intros Hb Ha [Hin Hs Hd]. unfold launches_copies. cbn [node_launch node_copies]. rewrite bind_cons. cbn [mbind list_bind].
  rewrite app_nil_r. destruct (Z.eqb_spec (sp_len (rc_dst c)) 0) as [H0|H0].
  { eexists. split; [done|]. unfold copy_moves, byte_moves. by rewrite H0. }
  pose proof (ci_dst _ _ Hin) as [Ho Hl _]. pose proof (ci_src _ _ Hin) as [Hso Hsl _]. pose proof (ci_max _ _ Hin) as Hm.
  pose proof (ci_len _ _ Hin) as Heq. unfold MAX_COPY_BYTES, umax in Hm.
  eexists. split; [done|]. cbn beta iota.
  assert (as_u32 (sp_len (rc_dst c)) = sp_len (rc_dst c)) as -> by (unfold as_u32; apply Z.mod_small; lia).
  rewrite run_copy_launch.
  - apply copy_kernel_moves; [apply grid_x_bounds|]; lia.
  - eapply (placed_address _ _ _ (sp_len (rc_dst c))); [done|done|exact Hs|done|lia].
  - eapply (placed_address _ _ _ (sp_len (rc_dst c))); [done|done|exact Hd|done|lia].
  - unfold in_u, umax. lia.
Qed.

Lemma slots_typed bindings slots :
  Forall binding_typed bindings → Forall (slot_bound bindings) slots → Forall (in_u 64) (sl_base <$> slots).
Proof.
  intros Hb Hs. apply Forall_fmap. eapply Forall_impl; [exact Hs|]. intros s (b & Hbs & Heq). cbn. rewrite Heq.
  by destruct (Forall_lookup_1 _ _ _ _ Hb Hbs).
Qed.

Lemma batch_launches p words bindings sizes m table n address ss ds copies image :
  Forall binding_typed bindings →
  batch_made p words bindings sizes table n address ss ds copies image → table_loaded m image →
  launches_copies m (PCopyBatch table address ss ds copies).
Proof.
  intros Hb [(r & entries & _ & _ & _ & Hres) [Hcount Hmax] _ [Hss Hds] [Hsb Hdb] (b & Hbt & -> & _) [_ Haddr] (es & Hes & Hbytes)] Hl.
  unfold launches_copies. cbn [node_launch node_copies].
  destruct copies as [|c0 copies']; [by exists None|]. cbn [is_empty]. set (copies := c0 :: copies') in *.
  apply Forall2_length in Hes as Hlen. assert (0 < length copies) as Hpos by (subst copies; cbn; lia). clearbody copies. clear c0 copies'.
  unfold MAX_BATCH in *.
  assert (as_u32 (Z.of_nat (length copies)) = Z.of_nat (length copies)) as -> by (unfold as_u32; apply Z.mod_small; lia).
  destruct (batch_launch _ _ _ _ _) as [l|] eqn:Hbl.
  2:{ unfold batch_launch, SRC_SLOTS, DST_SLOTS in Hbl. rewrite !length_fmap in Hbl.
      destruct (Nat.ltb_spec 8 (length ss)); [lia|]. destruct (Nat.ltb_spec 8 (length ds)); [lia|]. done. }
  exists (Some l). split; [done|]. cbn beta iota.
  pose proof (Forall_lookup_1 _ _ _ _ Hb Hbt) as [Hbase _].
  assert (in_u 32 (Z.of_nat (length copies))) as Hn by (unfold in_u, umax; lia).
  rewrite (run_batch_launch _ _ _ _ _ _ _ Hbase Hn (slots_typed _ _ Hb Hsb) (slots_typed _ _ Hb Hdb) Hbl).
  destruct (table_at_image m image Hl) as [rest Hrest]; [rewrite Hbytes, length_image; unfold MAX_BATCH, ENTRY_BYTES; lia|].
  rewrite <-Haddr, Hrest, Hbytes. unfold image_of. rewrite Hlen. rewrite batch_kernel_moves.
  - assert (∀ l1 l2, Forall2 (entry_of ss ds) l1 l2 →
      l2 ≫= entry_moves (slot_args (sl_base <$> ss) 8) (slot_args (sl_base <$> ds) 8) = l1 ≫= copy_moves) as H.
    { induction 1 as [|c e l1 l2 Hce _ IH]; [done|]. rewrite !bind_cons, IH. by rewrite (entry_moves_copy _ _ _ _ Hce). }
    by rewrite (H _ _ Hes).
  - apply Forall_lookup. intros k e He. destruct (Forall2_lookup_r _ _ _ _ _ Hes He) as (c & Hc & Hce).
    destruct (Forall2_lookup_r _ _ _ _ _ Hres Hc) as (spec & _ & Hr). eapply entry_of_typed; [|exact Hce].
    apply (ci_len _ _ (rv_in _ _ _ _ _ _ Hr)).
  - apply grid_x_bounds, max_nonneg.
Qed.

(** ** What a program means *)

(** The bytes of each resource, from the base of its allocation. *)
Abbreviation contents := (ResourceId → Z → Z).

Definition copy_contents (words : list Z) (st : contents) (s : CopySpec) : contents := λ r x,
  let o := formula_value (ad_offset (cs_dst s)) words in
  if decide (r = ad_resource (cs_dst s) ∧ (o ≤ x < o + formula_value (cs_len s) words)%Z)
  then st (ad_resource (cs_src s)) (formula_value (ad_offset (cs_src s)) words + (x - o))%Z else st r x.

Definition node_specs (p : Program) (words : list Z) (n : Node) : list CopySpec :=
  match n with
  | Copy s => [s]
  | CopyBatch table n =>
      match re_kind <$> pg_resources p !! table with
      | Some (PointerTable entries) => take (Z.to_nat (formula_value n words)) entries
      | _ => []
      end
  end.

(** Copies one at a time: nodes in program order, entries in table order. *)
Definition program_contents (p : Program) (words : list Z) (st : contents) : contents :=
  foldl (copy_contents words) st (pg_nodes p ≫= node_specs p words).

Definition represents (bindings : list Binding) (m : mem) (st : contents) : Prop :=
  ∀ r b x, bindings !! r = Some b → (0 ≤ x < bi_bytes b)%Z → m (bi_base b + x)%Z = st r x.

Section program.
Context (p : Program) (words : list Z) (bindings : list Binding) (sizes : list Z).
Context (Hb : Forall binding_typed bindings) (Ha : allocations_apart bindings).

Lemma memcpy_represents spec c m st :
  resolved p words bindings sizes spec c → represents bindings m st →
  represents bindings (memcpy m c) (copy_contents words st spec).
Proof using Ha.
  intros [Hin [Hs1 Hs2] [Hd1 Hd2] Hlen (bs & Hbs & Hsa & Hsl) (bd & Hbd & Hda & Hdl) _] Hm r b x Hr Hx.
  unfold memcpy, copy_contents. rewrite <-Hd1, <-Hd2, <-Hlen, <-Hs1, <-Hs2.
  pose proof (ci_len _ _ Hin) as Heq. destruct (ci_src _ _ Hin) as [Hs0 _ _]. destruct (ci_dst _ _ Hin) as [Hd0 _ _].
  destruct (decide (r = sp_resource (rc_dst c))) as [->|Hne].
  - assert (b = bd) as -> by congruence. rewrite Hda.
    destruct (decide (bi_base bd + sp_offset (rc_dst c) ≤ bi_base bd + x < bi_base bd + sp_offset (rc_dst c) + sp_len (rc_dst c))%Z) as [H|H].
    + rewrite decide_True by (clear -H; lia). rewrite Hsa, <-(Hm _ bs _ Hbs).
      * f_equal. clear. lia.
      * clear -H Heq Hsl Hs0. lia.
    + rewrite decide_False by (clear -H; lia). by apply Hm.
  - rewrite (decide_False (P := r = _ ∧ _)) by (by intros [? _]). rewrite decide_False; [by apply Hm|].
    intros H. apply (aa_disjoint _ Ha _ _ _ _ (bi_base b + x) Hne Hr Hbd); clear -H Hda Hdl Hx Hd0; lia.
Qed.

Lemma memcpys_represents specs copies m st :
  Forall2 (resolved p words bindings sizes) specs copies → represents bindings m st →
  represents bindings (memcpys m copies) (foldl (copy_contents words) st specs).
Proof using Ha.
  intros H. revert m st. induction H as [|spec c l1 l2 Hc _ IH]; intros m st Hm; [done|].
  apply (IH (memcpy m c)). by apply memcpy_represents.
Qed.

Lemma node_made_copies item n image :
  node_made p words bindings sizes item (n, image) →
  Forall2 (resolved p words bindings sizes) (node_specs p words item) (node_copies n) ∧ independent (node_copies n).
Proof using Type.
  destruct item as [spec|table f], n as [c|t a ss ds copies], image as [image|]; try done; cbn [node_made].
  - intros Hc. split; [by constructor|]. intros i j ci cj Hi Hj Hne. apply lookup_lt_Some in Hi, Hj. cbn in Hi, Hj. lia.
  - intros [-> [(r & entries & Hr & Hk & _ & Hres) _ Hind _ _ _ _ _]]. cbn [node_specs node_copies].
    rewrite Hr. cbn [fmap option_fmap option_map]. by rewrite Hk.
Qed.

Lemma resolved_placed specs copies :
  Forall2 (resolved p words bindings sizes) specs copies → Forall (copy_placed sizes bindings) copies.
Proof using Type.
  intros H. apply Forall_lookup. intros i c Hc. destruct (Forall2_lookup_r _ _ _ _ _ H Hc) as (s & _ & []). by split.
Qed.

(** Only bytes of resources that are not tables are written. *)
Definition written_by (copies : list ResolvedCopy) (x : Z) : Prop := x ∈ (copies ≫= copy_moves).*2.

Lemma written_inside specs copies x :
  Forall2 (resolved p words bindings sizes) specs copies → written_by copies x →
  ∃ r b, bindings !! r = Some b ∧ (bi_base b ≤ x < bi_base b + bi_bytes b)%Z ∧
    ∀ res, pg_resources p !! r = Some res → is_table (re_kind res) = false.
Proof using Type.
  intros H ([s d] & -> & (c & Hm & [k Hk]%list_elem_of_lookup)%list_elem_of_bind)%list_elem_of_fmap. cbn [snd].
  destruct (Forall2_lookup_r _ _ _ _ _ H Hk) as (spec & _ & [Hin _ _ _ _ (b & Hbd & Hda & Hdl) Htab]).
  apply (list_elem_of_fmap_2 snd) in Hm. unfold copy_moves in Hm. rewrite byte_moves_dst, elem_of_seqZ in Hm. cbn [snd] in Hm.
  destruct (ci_dst _ _ Hin) as [Hd0 _ _]. exists (sp_resource (rc_dst c)), b. split; [done|]. split; [clear -Hm Hda Hdl Hd0; lia|].
  intros res. apply Htab. clear -Hm. lia.
Qed.

(** A table that its binding holds. *)
Definition table_held (image : TableImage) : Prop :=
  ∃ r b, pg_resources p !! ti_resource image = Some r ∧ is_table (re_kind r) = true ∧
    bindings !! ti_resource image = Some b ∧ ti_addr image = bi_base b ∧
    (Z.of_nat (length (ti_bytes image)) ≤ bi_bytes b)%Z.

Lemma table_unwritten specs copies image k v :
  Forall2 (resolved p words bindings sizes) specs copies → table_held image → ti_bytes image !! k = Some v →
  ¬ written_by copies (ti_addr image + Z.of_nat k).
Proof using Ha.
  intros H (res & b & Hres & Ht & Hb' & Had & Hl) Hk%lookup_lt_Some (r & b' & Hr & Hx & Hnt)%(written_inside _ _ _ H).
  destruct (decide (r = ti_resource image)) as [->|Hne]; [by rewrite (Hnt _ Hres) in Ht|].
  apply (aa_disjoint _ Ha _ _ _ _ _ Hne Hr Hb' Hx). rewrite Had. clear -Hk Hl. lia.
Qed.

Lemma node_made_held item n image : node_made p words bindings sizes item (n, Some image) → table_held image.
Proof using Type.
  destruct item as [spec|table f], n as [c|t a ss ds copies]; try done; cbn [node_made].
  intros [-> [(r & entries & Hr & Hk & _) _ _ _ _ (b & Hbt & -> & Hl) [Ht Had] _]].
  exists r, b. rewrite Ht, Hk. done.
Qed.

Definition outside (x : Z) : Prop := ∀ r b, bindings !! r = Some b → ¬ (bi_base b ≤ x < bi_base b + bi_bytes b)%Z.

(** The memory while a program runs. *)
Record running (tables : list TableImage) (m0 m : mem) (st : contents) : Prop := {
  rn_contents : represents bindings m st;
  rn_tables : Forall (table_loaded m) tables;
  rn_outside x : outside x → m x = m0 x
}.

Lemma moved_running tables m0 m m1 st specs copies :
  Forall2 (resolved p words bindings sizes) specs copies → independent copies → Forall table_held tables →
  running tables m0 m st → moved (copies ≫= copy_moves) m m1 → running tables m0 m1 (foldl (copy_contents words) st specs).
Proof using Ha.
  intros H Hind Hheld [Hm Ht Ho] Hmoved.
  pose proof (copies_apart sizes bindings Ha copies (resolved_placed _ _ H) Hind) as Hap.
  pose proof (moved_unique _ _ _ _ Hmoved (memcpys_moved copies m Hap)) as Heq. split.
  - intros r b x Hr Hx. rewrite Heq. by apply (memcpys_represents specs copies m st).
  - apply Forall_forall. intros image Hin k v Hk. rewrite Forall_forall in Ht, Hheld.
    rewrite (proj2 Hmoved); [by apply (Ht _ Hin)|]. by apply (table_unwritten specs copies image k v H (Hheld _ Hin)).
  - intros x Hx. rewrite (proj2 Hmoved); [by apply Ho|]. intros (r & b & Hr & Hxr & _)%(written_inside _ _ _ H).
    by apply (Hx r b).
Qed.

Lemma node_launches item n image m :
  node_made p words bindings sizes item (n, image) → (∀ i, image = Some i → table_loaded m i) → launches_copies m n.
Proof using Hb Ha.
  intros Hn Hi. destruct n as [c|t a ss ds copies].
  - apply (copy_launches sizes bindings); [done|done|]. apply node_made_copies in Hn as [H _]. cbn [node_copies] in H.
    apply resolved_placed in H. exact (Forall_inv H).
  - destruct item as [spec|table f], image as [image|]; try done. destruct Hn as [-> Hn].
    by eapply batch_launches; [|exact Hn|apply Hi].
Qed.

Lemma nodes_refine items outs tables m0 :
  Forall2 (node_made p words bindings sizes) items outs → Forall table_held tables →
  (∀ i, Some i ∈ outs.*2 → i ∈ tables) → ∀ m st, running tables m0 m st →
  (∃ m', nodes_run outs.*1 m m') ∧
  ∀ m', nodes_run outs.*1 m m' → running tables m0 m' (foldl (copy_contents words) st (items ≫= node_specs p words)).
Proof using Hb Ha.
  intros H Hheld. induction H as [|item [n image] items outs Hn _ IH]; intros Htab m st Hrun.
  { split; [exists m; constructor|]. intros m' Hm'. inversion Hm'; subst. exact Hrun. }
  destruct (node_made_copies _ _ _ Hn) as [Hres Hind].
  assert (∀ i, image = Some i → table_loaded m i) as Hi.
  { intros i ->. pose proof (rn_tables _ _ _ _ Hrun) as Ht. rewrite Forall_forall in Ht. apply Ht, Htab. rewrite fmap_cons. by left. }
  specialize (IH (λ i Hin, Htab i (list_elem_of_further _ _ _ Hin))).
  destruct (node_launches _ _ _ _ Hn Hi) as (l & Hl & Hmoves).
  pose proof (copies_apart sizes bindings Ha _ (resolved_placed _ _ Hres) Hind) as Hap.
  rewrite bind_cons, foldl_app, !fmap_cons. cbn [fst].
  assert (∀ m1, moved (node_copies n ≫= copy_moves) m m1 → running tables m0 m1 (foldl (copy_contents words) st (node_specs p words item))) as Hstep.
  { intros m1. by apply moved_running. }
  destruct l as [l|].
  - assert (moves_apart (run_launch l (table_at m))) as Hap' by (by rewrite Hmoves).
    assert (∀ m1, moves_run (run_launch l (table_at m)) m m1 → moved (node_copies n ≫= copy_moves) m m1) as Hmv.
    { intros m1 Hm1. eapply moved_perm; [exact Hmoves|]. by apply run_moved. }
    split.
    + destruct (run_exists (run_launch l (table_at m)) m) as [m1 Hm1].
      destruct (IH m1 _ (Hstep _ (Hmv _ Hm1))) as [[m' Hm'] _]. exists m'. by eapply node_launched.
    + intros m' Hm'. inversion Hm' as [|? ? ? ? Hl'|? l' ? ? m1 ? Hl' Hm1 Hrest]; subst; [congruence|].
      assert (l' = l) as -> by congruence. by apply (IH m1 _ (Hstep _ (Hmv _ Hm1))).
  - assert (moved (node_copies n ≫= copy_moves) m m) as Hmv.
    { rewrite Hmoves. split; [by intros s d Hin%elem_of_nil|done]. }
    destruct (IH m _ (Hstep _ Hmv)) as [[m' Hm'] Hall]. split.
    + exists m'. by apply node_skipped.
    + intros m1 Hm1. inversion Hm1 as [|? ? ? ? Hl' Hrest|? l' ? ? ? ? Hl']; subst; [by apply Hall|congruence].
Qed.
End program.
