(* ===== verification/RailCopyClaims.v ===== *)
(** * What [prepare] guarantees

    Order independence, the checks of [prepare], the kernels' loops, the
    declared effects, and the whole program on the device. *)

From stdpp Require Import gmap list_numbers relations.
From S2P Require Import Prelude Packet RailCopy RailCopyOk RailKernel RailCopyRun.

(** ** Effects *)

(** The bytes of an effect on the device. *)
Definition effect_at (bindings : list Binding) (e : Effect) (x : Z) : Prop :=
  ∃ b, bindings !! sp_resource (ef_span e) = Some b ∧
    (bi_base b + sp_offset (ef_span e) ≤ x < bi_base b + sp_offset (ef_span e) + sp_len (ef_span e))%Z.

(** The argument an effect names is bound to the effect's resource. *)
Definition via_bound (n : PreparedNode) (e : Effect) : Prop :=
  match ef_via e, n with
  | Kernarg, _ => True
  | ViaSlot t k, PCopyBatch table _ src_slots dst_slots _ =>
      t = table ∧ ∃ s, (match ef_access e with Read => src_slots | Write => dst_slots end) !! Z.to_nat k = Some s ∧
        sl_resource s = sp_resource (ef_span e)
  | ViaSlot _ _, PCopy _ => False
  end.

(** The table a batch reads. *)
Definition table_effect (n : PreparedNode) : list Effect :=
  match n with
  | PCopy _ => []
  | PCopyBatch table _ _ _ copies => [mkEffect (mkSpan table 0 (Z.of_nat (length copies) * ENTRY_BYTES)) Read Kernarg]
  end.

Lemma via_slot_ok table slots slot offset s address :
  length slots ≤ 8 → side_of slots slot offset s address →
  ∃ k sl, via_slot table slots s = Some (ViaSlot table k) ∧ slots !! Z.to_nat k = Some sl ∧ sl_resource sl = sp_resource s.
Proof.
  intros Hlen [_ (base & Hl & _) _]. unfold via_slot.
  destruct (position_elem (λ x, sl_resource x =? sp_resource s) slots (mkSlot (sp_resource s) base)) as [k Hk].
  { by eapply list_elem_of_lookup_2. }
  { cbn [sl_resource]. apply Nat.eqb_refl. }
  rewrite Hk. apply position_Some in Hk as (sl & Hsl & Heq%Nat.eqb_eq). apply lookup_lt_Some in Hsl as Hlt.
  exists (as_u32 (Z.of_nat k)), sl. cbn [mbind option_bind]. split; [done|].
  unfold as_u32. rewrite Z.mod_small by lia. by rewrite Nat2Z.id.
Qed.

(** The effects of one copy. *)
Definition effects_of (n : PreparedNode) (c : ResolvedCopy) (l : list Effect) : Prop :=
  if decide (0 < sp_len (rc_dst c))%Z
  then ∃ vs vd, l = [mkEffect (rc_src c) Read vs; mkEffect (rc_dst c) Write vd] ∧ Forall (via_bound n) l
  else l = [].

(** The addresses a launch loads and stores are those its effects declare; a
    batch also declares the table that it reads its entries from. *)
Record accesses_declared (bindings : list Binding) (moves : list (Z * Z)) (n : PreparedNode) (es : list Effect) : Prop := {
  ad_bound : Forall (via_bound n) es;
  ad_rest : ∃ rest, es = table_effect n ++ rest ∧
    (∀ x, x ∈ moves.*1 ↔ ∃ e, e ∈ rest ∧ ef_access e = Read ∧ effect_at bindings e x) ∧
    (∀ x, x ∈ moves.*2 ↔ ∃ e, e ∈ rest ∧ ef_access e = Write ∧ effect_at bindings e x)
}.

Lemma placed_at bindings s a acc via x :
  placed bindings s a → effect_at bindings (mkEffect s acc via) x ↔ (a ≤ x < a + sp_len s)%Z.
Proof.
  intros (b & Hb & -> & _). unfold effect_at. cbn [ef_span]. split; [|by exists b].
  intros (b' & Hb' & Hx). congruence.
Qed.

Lemma effects_declared sizes bindings n rest :
  Forall (copy_placed sizes bindings) (node_copies n) → Forall2 (effects_of n) (node_copies n) rest →
  Forall (via_bound n) (List.concat rest) ∧
  (∀ x, x ∈ (node_copies n ≫= copy_moves).*1 ↔ ∃ e, e ∈ List.concat rest ∧ ef_access e = Read ∧ effect_at bindings e x) ∧
  (∀ x, x ∈ (node_copies n ≫= copy_moves).*2 ↔ ∃ e, e ∈ List.concat rest ∧ ef_access e = Write ∧ effect_at bindings e x).
Proof.
  intros Hc H. revert Hc. induction H as [|c l copies rest Hcl _ IH]; intros Hc.
  { split; [constructor|]. split; intros x; set_solver. }
  apply Forall_cons in Hc as [[Hin Hs Hd] Hc]. destruct (IH Hc) as (Hb & Hr & Hw). rewrite bind_cons. cbn [List.concat].
  pose proof (ci_len _ _ Hin) as Hlen. unfold effects_of in Hcl. destruct (decide _) as [Hpos|Hzero].
  - destruct Hcl as (vs & vd & -> & Hv). split; [by apply Forall_app|].
    split; intros x; rewrite fmap_app, elem_of_app, ?Hr, ?Hw.
    + unfold copy_moves. rewrite byte_moves_src, <-Hlen, <-(placed_at _ _ _ Read vs x Hs). split.
      * intros [Hx|(e & ? & ?)]; [exists (mkEffect (rc_src c) Read vs)|exists e]; set_solver.
      * intros (e & [->|[->|He]%elem_of_cons]%elem_of_cons & Ha & Hx); [by left|done|]. right. by exists e.
    + unfold copy_moves. rewrite byte_moves_dst, elem_of_seqZ, <-(placed_at _ _ _ Write vd x Hd). split.
      * intros [Hx|(e & ? & ?)]; [exists (mkEffect (rc_dst c) Write vd)|exists e]; set_solver.
      * intros (e & [->|[->|He]%elem_of_cons]%elem_of_cons & Ha & Hx); [done|by left|]. right. by exists e.
  - subst l. assert (copy_moves c = []) as ->.
    { unfold copy_moves, byte_moves. by rewrite seqZ_nil by lia. }
    done.
Qed.

Lemma effects_made p words bindings sizes item n image :
  node_made p words bindings sizes item (n, image) →
  ∃ rest, effects n = Some (table_effect n ++ List.concat rest) ∧ Forall2 (effects_of n) (node_copies n) rest.
Proof.
  intros Hn. destruct (node_made_copies _ _ _ _ _ _ _ Hn) as [Hres _]. pose proof (resolved_placed _ _ _ _ _ _ Hres) as Hpl.
  destruct n as [c|table address ss ds copies].
  - cbn [effects table_effect node_copies app] in *. apply Forall_inv in Hpl as [Hin _ _]. pose proof (si_len _ _ (ci_dst _ _ Hin)).
    eexists [_]. split; [cbn [List.concat]; by rewrite app_nil_r|]. constructor; [|constructor]. unfold effects_of.
    destruct (Z.eqb_spec (sp_len (rc_dst c)) 0); [rewrite decide_False by lia; done|]. rewrite decide_True by lia.
    eexists _, _. split; [done|]. repeat constructor.
  - destruct item as [spec|t f], image as [image|]; try done. cbn [node_made] in Hn.
    destruct Hn as [-> [_ _ _ [Hss Hds] _ _ _ (ents & Hents & _)]]. cbn [effects node_copies table_effect] in *.
    assert (∃ rest, mapM (copy_effects t ss ds) copies = Some rest ∧ Forall2 (effects_of (PCopyBatch t address ss ds copies)) copies rest)
      as (rest & -> & Hrest); [|by exists rest].
    set (n := PCopyBatch _ _ _ _ _). assert (∀ c e, entry_of ss ds c e → ∃ l, copy_effects t ss ds c = Some l ∧ effects_of n c l) as Hone.
    { intros c e [Hs Hd _]. unfold copy_effects, effects_of.
      destruct (decide (0 < sp_len (rc_dst c))%Z) as [Hp|Hp];
        [rewrite (proj2 (Z.ltb_lt _ _)) by lia|rewrite (proj2 (Z.ltb_ge _ _)) by lia; by exists []].
      destruct (via_slot_ok t _ _ _ _ _ Hss Hs) as (k & sl & -> & Hk & Heq).
      destruct (via_slot_ok t _ _ _ _ _ Hds Hd) as (j & sl' & -> & Hj & Heq'). cbn [mbind option_bind].
      eexists. split; [done|]. eexists _, _. split; [done|].
      repeat constructor; cbn [ef_access ef_span ef_via]; [by exists sl|by exists sl']. }
    clearbody n. clear Hres Hpl. induction Hents as [|c e l1 l2 Hce _ IH]; [by exists []|].
    destruct (Hone _ _ Hce) as (l & Hl & Hef), IH as (rest & Hrest & Hall). exists (l :: rest). split; [|by constructor].
    cbn [mapM]. by rewrite Hl, Hrest.
Qed.

(** ** Loops of the kernels *)

Lemma strided_fuel fuel fuel' i stride bound :
  (0 ≤ i)%Z → (0 < stride)%Z → (stride + bound ≤ 2 ^ 32)%Z → (bound - i < Z.of_nat fuel)%Z → (bound - i < Z.of_nat fuel')%Z →
  strided fuel i stride bound = strided fuel' i stride bound.
Proof.
  intros Hi Hs Hb. revert fuel' i Hi. induction fuel as [|fuel IH]; intros [|fuel'] i Hi Hf Hf'; cbn [strided]; [done| | |].
  - destruct (Z.ltb_spec i bound); [lia|done].
  - destruct (Z.ltb_spec i bound); [lia|done].
  - destruct (Z.ltb_spec i bound); [|done]. f_equal. rewrite add32_small by lia. apply IH; lia.
Qed.

Lemma vector_store_aligned d dof n i :
  (0 ≤ d)%Z → (0 ≤ dof)%Z → (0 ≤ n < 2 ^ 32)%Z → (dof + n ≤ 2 ^ 32)%Z → (0 ≤ i < range_nvec d dof n)%Z →
  ((d + add32 dof (add32 (range_head d dof n) (Z.shiftl i 4))) mod 16 = 0)%Z.
Proof.
  intros Hd Hdo Hn Hdn Hi. destruct (range_bounds d dof n) as (Hh & Hh16 & _ & Hv & _ & Hend); [lia..|].
  assert (range_head d dof n = (16 - (d + dof) mod 16) mod 16)%Z as Heq.
  { assert (∀ x, Z.land x 15 = x mod 16)%Z as Hland by (intros x; change 15%Z with (Z.ones 4); by rewrite Z.land_ones).
    unfold range_head in *. rewrite !Hland in *. unfold add32, wrapping_add, as_u32 in *.
    assert (((d mod 2 ^ 32 + dof) mod 2 ^ 32) mod 16 = (d + dof) mod 16)%Z as Hmod.
    { rewrite Z.add_mod_idemp_l by lia. change (2 ^ 32)%Z with (16 * 2 ^ 28)%Z.
      apply Z.mod_mod_divide. by exists (2 ^ 28)%Z. }
    rewrite Hmod in *. destruct (Z.ltb_spec n ((16 - (d + dof) mod 16) mod 16)); [|done]. lia. }
  rewrite Z.shiftl_mul_pow2 by lia. change (2 ^ 4)%Z with 16%Z. rewrite (add32_small (range_head _ _ _)) by lia.
  rewrite add32_small by lia. rewrite Heq.
  pose proof (Z.div_mod (d + dof) 16 ltac:(lia)) as H1. pose proof (Z.mod_pos_bound (d + dof) 16 ltac:(lia)) as H2.
  set (r := ((d + dof) mod 16)%Z) in *. pose proof (Z.div_mod (16 - r) 16 ltac:(lia)) as H3.
  apply Z.mod_divide; [lia|]. exists ((d + dof) / 16 + i + 1 - (16 - r) / 16)%Z. lia.
Qed.

(** For any bases, offsets, grid and length within the kernels' bounds, the
    threads of a grid move every byte of the copy exactly once and no other
    byte; their loops end; and the stores of the vector loop are aligned. *)
Theorem kernel_copies_once s so d dof n gx :
  (1 ≤ gx ≤ MAX_GRID_X)%Z → (0 ≤ n < 2 ^ 32)%Z → (0 ≤ d)%Z → (0 ≤ so)%Z → (0 ≤ dof)%Z →
  (so + n ≤ 2 ^ 32)%Z → (dof + n ≤ 2 ^ 32)%Z →
  (threads gx ≫= λ g, copy_range s so d dof n g (as_u32 (gx * BLOCK))) ≡ₚ byte_moves (s + so) (d + dof) n ∧
  (∀ g bound fuel, (0 ≤ g)%Z → (0 ≤ bound ≤ 2 ^ 31)%Z → (bound < Z.of_nat fuel)%Z →
     strided fuel g (as_u32 (gx * BLOCK)) bound = loop g (as_u32 (gx * BLOCK)) bound) ∧
  (∀ i, (0 ≤ i < range_nvec d dof n)%Z →
     ((d + add32 dof (add32 (range_head d dof n) (Z.shiftl i 4))) mod 16 = 0)%Z) ∧
  (0 ≤ range_head d dof n ≤ 2 ^ 31)%Z ∧ (0 ≤ range_nvec d dof n ≤ 2 ^ 31)%Z ∧ (0 ≤ n - range_done d dof n ≤ 2 ^ 31)%Z.
Proof.
  intros Hgx Hn Hd Hso Hdo Hsn Hdn. destruct (range_bounds d dof n) as (Hh & Hh16 & Hv0 & Hv & Hdone & Hend); [lia..|].
  split; [by apply grid_cover|]. split; [|split; [by intros i; apply vector_store_aligned|lia]].
  intros g bound fuel Hg Hb Hf. change MAX_GRID_X with (2 ^ 23)%Z in Hgx. unfold loop, as_u32, BLOCK.
  rewrite Z.mod_small by lia. apply strided_fuel; lia.
Qed.

Lemma kernel_copies_once_witness :
  (threads 2 ≫= λ g, copy_range 1000 3 5000 7 50 g (as_u32 (2 * BLOCK))) ≡ₚ byte_moves 1003 5007 50.
Proof. apply (kernel_copies_once 1000 3 5000 7 50 2); vm_compute; intuition discriminate. Defined.

(** C7: The sweep over sorted destinations accepts exactly the batches whose
    entries are independent of each other: no destination meets another
    destination or another entry's source.  A reported pair does overlap. *)
Theorem check_independent_exact sizes node copies :
  Forall (copy_in sizes) copies →
  (check_independent node copies = Ok tt ↔ independent copies) ∧
  ∀ e, check_independent node copies = Err e → conflict copies node e.
Proof.
  intros Hc. pose proof (check_independent_spec sizes copies Hc node) as H.
  destruct (check_independent node copies) as [[]|e]; [done|]. split; [|by intros e' [= <-]].
  split; [done|]. intros Hind. destruct H as (a & b & reads & ca & cb & _ & Hne & Ha & Hb & Hm).
  destruct (Hind a b ca cb Ha Hb Hne) as [H1 H2]. by destruct reads.
Qed.

(** Overlapping destinations, a destination over the next entry's source, and a chain that only touches. *)
Definition check_example (copies : list (Z * Z * Z)) : list ResolvedCopy :=
  (λ '(s, d, n), mkCopy (mkSpan 0 s n) (mkSpan 1 d n) s (1000 + d)) <$> copies.

Lemma check_independent_exact_witness :
  check_independent 0 (check_example [(0, 0, 8); (0, 8, 8)]%Z) = Ok tt ∧
  ¬ independent (check_example [(0, 0, 8); (0, 7, 8)]%Z).
Proof.
  assert (∀ l, Forall (λ '(s, d, n), 0 ≤ s ∧ 0 ≤ d ∧ 0 ≤ n ∧ s + n ≤ 64 ∧ d + n ≤ 64)%Z l →
    Forall (copy_in [64; 64]%Z) (check_example l)) as H.
  { intros l Hl. apply Forall_fmap. eapply Forall_impl; [exact Hl|]. intros [[s d] n] Hb. cbn in Hb. split; cbn.
    - split; [cbn; lia..|]. exists 64%Z. split; [done|]. unfold umax. cbn. lia.
    - split; [cbn; lia..|]. exists 64%Z. split; [done|]. unfold umax. cbn. lia.
    - done.
    - unfold MAX_COPY_BYTES, umax. lia.
    - intros (r & x & [<- _] & [[=] _]). }
  split; [done|]. intros Hi.
  assert (Forall (copy_in [64; 64]%Z) (check_example [(0, 0, 8); (0, 7, 8)]%Z)) as Hc by (apply H; repeat constructor; done).
  by apply (check_independent_exact _ 0 _ Hc) in Hi.
Defined.

(** ** Prepared programs *)

Lemma launch_made p words bindings sizes item n image :
  node_made p words bindings sizes item (n, image) → is_Some (node_launch n).
Proof.
  destruct item as [spec|t f], n as [c|table address ss ds copies], image as [i|]; try done; cbn [node_made node_launch].
  intros [_ [_ _ _ [Hss Hds] _ _ _ _]]. destruct (is_empty copies); [done|].
  unfold batch_launch, SRC_SLOTS, DST_SLOTS. rewrite !length_fmap.
  destruct (Nat.ltb_spec 8 (length ss)); [lia|]. destruct (Nat.ltb_spec 8 (length ds)); [lia|]. done.
Qed.

Lemma node_of_prepared p words bindings sizes out n :
  prepared p words bindings sizes out → n ∈ pr_nodes out →
  ∃ item image, item ∈ pg_nodes p ∧ node_made p words bindings sizes item (n, image) ∧
    ∀ i, image = Some i → i ∈ pr_tables out.
Proof.
  intros [_ _ _ _ (outs & Hmade & -> & ->) _] ([n' image] & -> & Hin)%list_elem_of_fmap.
  pose proof Hin as [k Hk]%list_elem_of_lookup. destruct (Forall2_lookup_r _ _ _ _ _ Hmade Hk) as (item & Hit & Hn).
  exists item, image. split; [by eapply list_elem_of_lookup_2|]. split; [done|]. intros i ->.
  clear -Hin. induction outs as [|[n2 [i2|]] outs IH]; [set_solver| |]; cbn [filter_map snd];
    apply elem_of_cons in Hin as [[= -> ->]|Hin]; set_solver.
Qed.

Lemma tables_held p words bindings sizes out :
  prepared p words bindings sizes out → Forall (table_held p bindings) (pr_tables out).
Proof.
  intros [_ _ _ _ (outs & Hmade & _ & ->) _]. clear -Hmade.
  induction Hmade as [|item [n [i|]] items outs Hn _ IH]; cbn [filter_map snd]; [constructor| |done].
  constructor; [by eapply node_made_held|done].
Qed.

(** A cache of 64 rows of one byte each, a scratch and a table of two entries;
    the word is the number of rows. *)
Definition example_entry (s d : Z) : CopySpec :=
  mkSpec (mkAddr 0 (constant s)) (mkAddr 1 (constant d)) (word 0 1).
Definition example_program : Program :=
  mkProgram (lit "gfx1201") [mkWord (lit "rows") (0, 20)%Z]
    [mkRes (lit "kv") (constant 64) Kv; mkRes (lit "scratch") (constant 64) ScratchKind;
     mkRes (lit "table") (constant 48) (PointerTable [example_entry 0 32; example_entry 3 7])]
    [Copy (example_entry 40 0); CopyBatch 2 (constant 2)].
Definition example_bindings : list Binding := [mkBinding 4096 64; mkBinding 8192 100; mkBinding 12288 48].
Definition example_prepared : exec PrepareError Prepared := prepare example_program [20%Z] example_bindings.
Definition example_out : Prepared := match example_prepared with Done out => out | _ => mkPrepared [] [] end.
Definition example_mem : mem := λ x,
  if (12288 <=? x)%Z then default 0%Z ((pr_tables example_out ≫= ti_bytes) !! Z.to_nat (x - 12288)) else (x mod 256)%Z.

Lemma example_typed :
  program_typed example_program ∧ Forall (in_u 64) [20]%Z ∧ Forall binding_typed example_bindings ∧
  allocations_apart example_bindings.
Proof.
  split_and!.
  - split; repeat constructor; done.
  - repeat constructor; done.
  - repeat constructor; done.
  - split; [|repeat constructor; done]. intros i j b b' x Hne Hi Hj.
    do 3 (destruct i as [|i]; [injection Hi as <-; do 3 (destruct j as [|j]; [injection Hj as <-; cbn; lia|]); done|]). done.
Qed.

Lemma example_loaded : Forall (table_loaded example_mem) (pr_tables example_out).
Proof.
  assert (∃ bs, pr_tables example_out = [mkImageOf 2 12288 bs]) as [bs Hbs] by (by eexists; vm_compute).
  assert (∀ k : nat, example_mem (12288 + Z.of_nat k) = default 0%Z (bs !! k)) as H.
  { intros k. unfold example_mem. rewrite (proj2 (Z.leb_le _ _)) by lia. rewrite Hbs. cbn [mbind list_bind ti_bytes].
    rewrite app_nil_r. do 2 f_equal. lia. }
  rewrite Hbs. constructor; [|constructor]. intros k v Hk. cbn [ti_bytes ti_addr] in *. by rewrite H, Hk.
Qed.

(** [prepare] never panics.  When it succeeds, the words are in their domains,
    every span of every copy lies in the bound part of its allocation and its
    end does not wrap, every table image fits its resource and is written for
    one batch only, batches are order independent, and [effects] and [launch]
    succeed on every node. *)
Theorem prepare_safe p words bindings :
  program_typed p → Forall (in_u 64) words → Forall binding_typed bindings →
  prepare p words bindings ≠ Panic ∧
  ∀ out, prepare p words bindings = Done out →
    (∃ sizes, prepared p words bindings sizes out) ∧
    Forall (table_held p bindings) (pr_tables out) ∧
    ∀ n, n ∈ pr_nodes out → is_Some (effects n) ∧ is_Some (node_launch n) ∧ independent (node_copies n) ∧
      ∀ c s, c ∈ node_copies n → s = rc_src c ∨ s = rc_dst c →
        ∃ b, bindings !! sp_resource s = Some b ∧ (0 ≤ sp_offset s)%Z ∧ (0 ≤ sp_len s ≤ MAX_COPY_BYTES)%Z ∧
          span_end s = (sp_offset s + sp_len s)%Z ∧ (span_end s ≤ bi_bytes b)%Z.
Proof.
  intros Hp Hw Hb. destruct (prepare_ok p words bindings Hp Hw Hb) as [Hnp Hok]. split; [done|].
  intros out Hout. destruct (Hok _ Hout) as [sizes Hprep]. split; [by exists sizes|]. split; [by eapply tables_held|].
  intros n Hn. destruct (node_of_prepared _ _ _ _ _ _ Hprep Hn) as (item & image & _ & Hmade & _).
  destruct (effects_made _ _ _ _ _ _ _ Hmade) as (rest & -> & _). split; [done|]. split; [by eapply launch_made|].
  destruct (node_made_copies _ _ _ _ _ _ _ Hmade) as [Hres Hind]. split; [done|].
  intros c s Hc Hs. pose proof (resolved_placed _ _ _ _ _ _ Hres) as Hpl. rewrite Forall_forall in Hpl.
  destruct (Hpl _ Hc) as [[Hsi Hdi Hlen Hmax _] (bs & Hbs & _ & Hls) (bd & Hbd & _ & Hld)].
  destruct Hs as [-> | ->]; [exists bs; rewrite (span_in_end _ _ Hsi); destruct Hsi|
    exists bd; rewrite (span_in_end _ _ Hdi); destruct Hdi]; split_and!; (done || lia).
Qed.

Lemma prepare_safe_witness :
  example_prepared = Done example_out ∧ is_Some (pr_nodes example_out !! 1) ∧
  Forall (table_held example_program example_bindings) (pr_tables example_out).
Proof.
  assert (example_prepared = Done example_out) as Hout by (by vm_compute).
  split; [done|]. split; [vm_compute; by eexists|].
  destruct example_typed as (Hp & Hw & Hb & _).
  by apply (prepare_safe example_program [20]%Z example_bindings Hp Hw Hb).
Defined.

(** On a prepared node, [effects] declares exactly the addresses that its
    launch loads and stores, each under the argument that is bound to the
    resource; a batch also declares its table. *)
Theorem effects_exact p words bindings out n l m :
  program_typed p → Forall (in_u 64) words → Forall binding_typed bindings → allocations_apart bindings →
  prepare p words bindings = Done out → Forall (table_loaded m) (pr_tables out) →
  n ∈ pr_nodes out → node_launch n = Some (Some l) →
  ∃ es, effects n = Some es ∧ accesses_declared bindings (run_launch l (table_at m)) n es.
Proof.
  intros Hp Hw Hb Ha Hout Ht Hn Hl. destruct (prepare_ok p words bindings Hp Hw Hb) as [_ Hok].
  destruct (Hok _ Hout) as [sizes Hprep]. destruct (node_of_prepared _ _ _ _ _ _ Hprep Hn) as (item & image & _ & Hmade & Htab).
  destruct (effects_made _ _ _ _ _ _ _ Hmade) as (rest & Heff & Hrest). exists (table_effect n ++ List.concat rest).
  split; [done|]. destruct (node_made_copies _ _ _ _ _ _ _ Hmade) as [Hres _].
  pose proof (resolved_placed _ _ _ _ _ _ Hres) as Hpl.
  destruct (effects_declared _ _ _ _ Hpl Hrest) as (Hbound & Hr & Hwr).
  destruct (node_launches p words bindings sizes Hb Ha item n image m Hmade) as (l' & Hl' & Hmoves).
  { intros i Hi%Htab. by rewrite Forall_forall in Ht; apply Ht. }
  assert (l' = Some l) as -> by congruence. split.
  - apply Forall_app. split; [|done]. destruct n; repeat constructor.
  - exists (List.concat rest). split; [done|]. split; intros x; by rewrite Hmoves.
Qed.

Lemma effects_exact_witness :
  ∃ n l es, pr_nodes example_out !! 1 = Some n ∧ node_launch n = Some (Some l) ∧ effects n = Some es ∧ length es = 5 ∧
    accesses_declared example_bindings (run_launch l (table_at example_mem)) n es.
Proof.
  destruct example_typed as (Hp & Hw & Hb & Ha).
  assert (match pr_nodes example_out !! 1 with
          | Some n => is_Some (node_launch n ≫= id) ∧ length <$> effects n = Some 5
          | None => False end) as Hex by (vm_compute; split; [by eexists|done]).
  destruct (pr_nodes example_out !! 1) as [n|] eqn:Hn; [|done]. destruct Hex as [[l Hl] Hlen].
  destruct (node_launch n) as [l'|] eqn:Hl'; [|done]. cbn [mbind option_bind id] in Hl. subst l'.
  destruct (effects_exact example_program [20]%Z example_bindings example_out n l example_mem Hp Hw Hb Ha) as (es & Hes & Hacc).
  - by vm_compute.
  - apply example_loaded.
  - by eapply list_elem_of_lookup_2.
  - exact Hl'.
  - rewrite Hes in Hlen. injection Hlen as Hlen. exists n, l, es. exact (conj eq_refl (conj Hl' (conj Hes (conj Hlen Hacc)))).
Defined.

(** C6: A prepared program does on the device what its copies say, one at a time
    in program and table order, whatever the interleaving of the loads and
    stores of each launch: a run exists, no launch can run forever, and every
    run ends with the specified bytes in every resource, the tables intact
    and the memory outside the allocations unchanged. *)
Theorem program_refines p words bindings out m st :
  program_typed p → Forall (in_u 64) words → Forall binding_typed bindings → allocations_apart bindings →
  prepare p words bindings = Done out → represents bindings m st → Forall (table_loaded m) (pr_tables out) →
  (∃ m', nodes_run (pr_nodes out) m m') ∧
  (∀ n l table s, n ∈ pr_nodes out → node_launch n = Some (Some l) → sn (byte_step (run_launch l table)) s) ∧
  ∀ m', nodes_run (pr_nodes out) m m' →
    represents bindings m' (program_contents p words st) ∧ Forall (table_loaded m') (pr_tables out) ∧
    ∀ x, outside bindings x → m' x = m x.
Proof.
  intros Hp Hw Hb Ha Hout Hm Ht. destruct (prepare_ok p words bindings Hp Hw Hb) as [_ Hok].
  destruct (Hok _ Hout) as [sizes Hprep]. pose proof (tables_held _ _ _ _ _ Hprep) as Hheld.
  destruct Hprep as [_ _ _ _ (outs & Hmade & Hn & Htabs) _].
  destruct (nodes_refine p words bindings sizes Hb Ha (pg_nodes p) outs (pr_tables out) m Hmade Hheld) with (m := m) (st := st) as [Hex Hall].
  { intros i Hi. rewrite Htabs. clear -Hi. induction outs as [|[n2 [i2|]] outs IH]; [set_solver| |]; cbn [filter_map snd];
      rewrite fmap_cons in Hi; apply elem_of_cons in Hi as [[= ->]|Hi]; set_solver. }
  { by split. }
  rewrite Hn. split; [done|]. split; [intros; apply steps_end|].
  intros m' Hm'. by destruct (Hall m' Hm') as [? ? ?].
Qed.

Lemma program_refines_witness :
  ∃ m', nodes_run (pr_nodes example_out) example_mem m' ∧
    ([m' 8192; m' 8199; m' 8230; m' 8292; m' 8491] =
     [example_mem 4136; example_mem 4099; example_mem 4102; example_mem 8292; example_mem 8491])%Z.
Proof.
  destruct example_typed as (Hp & Hw & Hb & Ha).
  set (st := (λ (r : nat) x, example_mem (default 0%Z (bi_base <$> example_bindings !! r) + x)%Z) : contents).
  destruct (program_refines example_program [20]%Z example_bindings example_out example_mem st Hp Hw Hb Ha) as ([m' Hm'] & _ & Hall).
  - by vm_compute.
  - intros r b x Hr _. subst st. cbn beta. by rewrite Hr.
  - apply example_loaded.
  - exists m'. split; [done|]. destruct (Hall m' Hm') as (Hr & _ & Ho).
    pose proof (Hr 1 (mkBinding 8192 100) 0%Z eq_refl ltac:(cbn; lia)) as H0.
    pose proof (Hr 1 (mkBinding 8192 100) 7%Z eq_refl ltac:(cbn; lia)) as H1.
    pose proof (Hr 1 (mkBinding 8192 100) 38%Z eq_refl ltac:(cbn; lia)) as H2.
    rewrite (Ho 8292%Z), (Ho 8491%Z).
    + change (m' 8192%Z = example_mem 4136) in H0. change (m' 8199%Z = example_mem 4099) in H1.
      change (m' 8230%Z = example_mem 4102) in H2. by rewrite H0, H1, H2.
    + intros r b Hrb. do 3 (destruct r as [|r]; [injection Hrb as <-; cbn; lia|]). done.
    + intros r b Hrb. do 3 (destruct r as [|r]; [injection Hrb as <-; cbn; lia|]). done.
Defined.
