(* ===== verification/RailKernels.v ===== *)
(** * Kernel programs ([railgun/src/kernel.rs])

    Typed nodes, words and patches, the expressions of a patch, and the one
    encoder of a node's kernarg segment.  The encoder works in place: a failure
    carries the bytes written so far.  Texts of refusals are tags. *)

From S2P Require Import Prelude Packet RailCopy.

(** ** Facts of a kernel *)

Inductive MemClass := VmemLoad | VmemStore | SmemLoad | Atomic | AtomicCommutative | LdsDma.

#[export] Instance mem_class_eq_dec : EqDecision MemClass.
Proof. solve_decision. Defined.

Definition class_reads (c : MemClass) : bool := negb (bool_decide (c = VmemStore)).
Definition class_writes (c : MemClass) : bool :=
  match c with VmemStore | Atomic | AtomicCommutative => true | _ => false end.

Inductive ReadCache := NotRead | VmemOnly | ScalarOnly | ScalarAndVmem | CacheUnknown.

Inductive ArgRole :=
| Pointer (classes : list MemClass) (read_cache : ReadCache)
| Integer
| NotLoaded.

Record ArgFact := mkArgFact { af_offset : nat; af_size : nat; af_role : ArgRole }.

Record IndexLoad := mkIndexLoad { il_source_arg_offset : nat; il_element : rstr; il_class : MemClass }.

Record IndexedArgEffect := mkIndexed {
  ie_base_arg_offset : nat;
  ie_class : MemClass;
  ie_index_loads : list IndexLoad
}.

Record ArgGuard := mkGuard { ag_kind : rstr; ag_arg_offset : nat; ag_size : nat; ag_value : rstr }.

Inductive HiddenKind :=
| BlockCount (axis : nat)
| GroupSize (axis : nat)
| Remainder (axis : nat)
| GlobalOffset (axis : nat)
| GridDims
| DynamicLdsSize
| OtherHidden.

Record HiddenArg := mkHidden { hd_offset : nat; hd_size : nat; hd_kind : HiddenKind; hd_value_kind : rstr; hd_loaded : bool }.

Record KernelRef := mkRef { kr_artifact_sha256 : rstr; kr_receipt_sha256 : rstr }.

(** ** Expressions *)

Inductive ExprError := UnknownInput (name : rstr) | ExprOverflow.

(** Divisors are [NonZeroU64]. *)
Inductive Expr :=
| Const (c : Z)
| Input (name : rstr)
| Add (a b : Expr)
| Mul (a b : Expr)
| SubSat (a b : Expr)
| Min (a b : Expr)
| Max (a b : Expr)
| Div (a : Expr) (c : Z)
| Rem (a : Expr) (c : Z)
| CeilDiv (a : Expr) (c : Z).

Section eval.
Context (input : rstr → option Z).

Fixpoint expr_eval (e : Expr) : result ExprError Z :=
  match e with
  | Const c => Ok c
  | Input name => ok_or (input name) (UnknownInput name)
  | Add a b => x ← expr_eval a; y ← expr_eval b; ok_or (checked_add 64 x y) ExprOverflow
  | Mul a b => x ← expr_eval a; y ← expr_eval b; ok_or (checked_mul 64 x y) ExprOverflow
  | SubSat a b => x ← expr_eval a; y ← expr_eval b; Ok (Z.max 0 (x - y))
  | Min a b => x ← expr_eval a; y ← expr_eval b; Ok (Z.min x y)
  | Max a b => x ← expr_eval a; y ← expr_eval b; Ok (Z.max x y)
  | Div a c => x ← expr_eval a; Ok (x / c)%Z
  | Rem a c => x ← expr_eval a; Ok (x mod c)%Z
  | CeilDiv a c => x ← expr_eval a; Ok (div_ceil x c)
  end.
End eval.

(** ** Patches *)

Inductive Axis := AxisX | AxisY | AxisZ.
Definition axis_index (a : Axis) : nat := match a with AxisX => 0 | AxisY => 1 | AxisZ => 2 end.

Record ScalarField := mkScalar { sf_node : nat; sf_offset : nat }.

Inductive PatchKind :=
| Scalar32 (field : ScalarField) (expr : Expr) (domain : Z * Z)
| Interior64 (node arg_offset : nat) (resource : ResourceId) (byte_offset required_extent : Expr)
| GridAxis (node : nat) (axis : Axis) (expr : Expr) (domain : Z * Z).

Inductive WordRole := GdnFrame (frames : Z) | WindowWord.

#[export] Instance word_role_eq_dec : EqDecision WordRole.
Proof. solve_decision. Defined.

(** ** Programs *)

Inductive Arg :=
| ArgConst (bytes : list Z)
| ArgResource (resource : ResourceId) (interior : Z)
| ArgWord (id : WordId).

Record RegionEffect := mkRegionEffect { re_arg_offset : nat; re_resource : ResourceId; re_classes : list MemClass }.
Definition effect_reads (e : RegionEffect) : bool := existsb class_reads (re_classes e).
Definition effect_writes (e : RegionEffect) : bool := existsb class_writes (re_classes e).
Definition effect_has (e : RegionEffect) (class : MemClass) : bool := bool_decide (class ∈ re_classes e).

Inductive Lowering := Pm4Lowering | GraphLowering | HipDirect | ConditionalLowering.
Definition is_pm4 (l : Lowering) : bool := match l with Pm4Lowering => true | _ => false end.

Record IndexedNode := mkIndexedNode {
  ix_args : list ArgFact;
  ix_effects : list IndexedArgEffect;
  ix_guards : list ArgGuard;
  ix_witnesses : list rstr;
  ix_case_digest : rstr
}.

Record KernelNode := mkNode {
  kn_symbol : rstr;
  kn_kref : option KernelRef;
  kn_grid : arr3;
  kn_block : arr3;
  kn_dynamic_lds : Z;
  kn_segment_bytes : option nat;
  kn_args : list (nat * Arg);
  kn_hidden : list HiddenArg;
  kn_effects : list RegionEffect;
  kn_lowering : Lowering;
  kn_indexed : option IndexedNode;
  kn_guard : option ResourceId
}.

Record ProgramWord := mkProgramWord { pw_node : nat; pw_offset : nat; pw_role : WordRole; pw_authored : Z }.

(** An IF on a flag: the nodes from [cd_start] to before [cd_end]. *)
Inductive CondLowering := KernelGuard | CpSkip.

#[export] Instance cond_lowering_eq_dec : EqDecision CondLowering.
Proof. solve_decision. Defined.

Record Conditional := mkConditional { cd_flag : ResourceId; cd_start : nat; cd_end : nat; cd_lowering : CondLowering }.

Record KernelProgram := mkKernelProgram {
  kp_arch : rstr;
  kp_resources : list Binding;
  kp_words : list ProgramWord;
  kp_nodes : list KernelNode;
  kp_conditionals : list Conditional
}.

Record ImageOverrides := mkOverrides {
  ov_grid : option arr3;
  ov_resources : option (list Binding);
  ov_interiors : list (nat * Z)
}.

Definition default_overrides : ImageOverrides := mkOverrides None None [].

(** ** The encoder *)

Inductive EncodeFault :=
| NoNode (node : nat)
| NoSegment
| SegmentSize (loader segment : nat)
| EmptyAxis
| EncodeUnknownResource (resource : nat)
| PointerOverflows
| NoWordValue (word : nat)
| HiddenDoesNotFit (value : Z) (size : nat).

(** [image[at..at + bytes.len()].copy_from_slice(bytes)]. *)
Definition put {E} (image : list Z) (at_ : nat) (bytes : list Z) : exec E (list Z) :=
  if decide (at_ + length bytes ≤ length image) then Done (copy_at at_ bytes image) else Panic.

(** [?] while [image] is being written. *)
Definition or_fail {A} (o : option A) (e : EncodeFault) (image : list Z) : exec (EncodeFault * list Z) A :=
  match o with Some a => Done a | None => Fail (e, image) end.

Definition interior_of (overrides : ImageOverrides) (offset : nat) (interior : Z) : Z :=
  default interior (snd <$> List.find (λ p, p.1 =? offset) (ov_interiors overrides)).

Definition axis3 (a : arr3) (axis : nat) : option Z := if axis <? 3 then Some (get3 a axis) else None.

Definition grid_dims (grid block : arr3) : Z :=
  if negb (a3_z grid =? 1)%Z || negb (a3_z block =? 1)%Z then 3
  else if negb (a3_y grid =? 1)%Z || negb (a3_y block =? 1)%Z then 2
  else 1.

Definition has_zero (a : arr3) : bool := (a3_x a =? 0)%Z || (a3_y a =? 0)%Z || (a3_z a =? 0)%Z.

Section encode.
Context (program : KernelProgram) (words : list Z) (overrides : ImageOverrides).
Local Abbreviation encoding := (exec (EncodeFault * list Z)).

Definition live_resources : list Binding := default (kp_resources program) (ov_resources overrides).

Definition encode_arg (image : list Z) (entry : nat * Arg) : encoding (list Z) :=
  let '(offset, arg) := entry in
  match arg with
  | ArgConst bytes => put image offset bytes
  | ArgResource resource interior =>
      binding ← or_fail (live_resources !! resource) (EncodeUnknownResource resource) image;
      address ← or_fail (checked_add 64 (bi_base binding) (interior_of overrides offset interior)) PointerOverflows image;
      put image offset (le_bytes 8 address)
  | ArgWord id =>
      value ← or_fail (words !! id) (NoWordValue id) image;
      put image offset (le_bytes 4 value)
  end.

Definition hidden_value (n : KernelNode) (grid : arr3) (kind : HiddenKind) : option Z :=
  match kind with
  | BlockCount axis => axis3 grid axis
  | GroupSize axis => axis3 (kn_block n) axis
  | Remainder _ | GlobalOffset _ | OtherHidden => Some 0%Z
  | GridDims => Some (grid_dims grid (kn_block n))
  | DynamicLdsSize => Some (kn_dynamic_lds n)
  end.

Definition encode_hidden (n : KernelNode) (grid : arr3) (image : list Z) (h : HiddenArg) : encoding (list Z) :=
  value ← unwrap (hidden_value n grid (hd_kind h));
  let size := hd_size h in
  if (8 <? size) || ((size <? 8) && negb (Z.shiftr value (8 * Z.of_nat size) =? 0)%Z) then
    Fail (HiddenDoesNotFit value size, image)
  else put image (hd_offset h) (take size (le_bytes 8 value)).

Definition encode_kernarg_into (node : nat) (out : list Z) : encoding (list Z) :=
  n ← or_fail (kp_nodes program !! node) (NoNode node) out;
  segment ← or_fail (kn_segment_bytes n) NoSegment out;
  if negb (length out =? segment) then Fail (SegmentSize (length out) segment, out)
  else
    let grid := default (kn_grid n) (ov_grid overrides) in
    if bool_decide (is_Some (ov_grid overrides)) && has_zero grid then Fail (EmptyAxis, out)
    else
      let image := replicate (length out) 0%Z in
      image ← foldE encode_arg image (kn_args n);
      foldE (encode_hidden n grid) image (kn_hidden n).
End encode.

Definition kernarg_image (program : KernelProgram) (node loader_bytes : nat) (words : list Z) :
    exec EncodeFault (list Z) :=
  match encode_kernarg_into program words default_overrides node (replicate loader_bytes 0%Z) with
  | Done image => Done image
  | Fail (e, _) => Fail e
  | Panic => Panic
  end.

Definition authored_words (program : KernelProgram) : list Z := pw_authored <$> kp_words program.

Definition conditional_nodes (program : KernelProgram) : list nat :=
  fst <$> List.filter (λ '(_, n), bool_decide (is_Some (kn_indexed n))) (enumerate (kp_nodes program)).

Definition assume_indexed_witness (program : KernelProgram) : KernelProgram :=
  mkKernelProgram (kp_arch program) (kp_resources program) (kp_words program)
    ((λ n, match kn_indexed n, kn_lowering n with
           | Some _, ConditionalLowering =>
               mkNode (kn_symbol n) (kn_kref n) (kn_grid n) (kn_block n) (kn_dynamic_lds n) (kn_segment_bytes n)
                 (kn_args n) (kn_hidden n) (kn_effects n) Pm4Lowering (kn_indexed n) (kn_guard n)
           | _, _ => n
           end) <$> kp_nodes program) (kp_conditionals program).
