(* ===== verification/RailKernelsOk.v ===== *)
(** * What the encoder writes

    A kernarg image holds the bytes of every argument and hidden field where the
    node places it, and zeros elsewhere. *)

From stdpp Require Import sorting.
From S2P Require Import Prelude Packet RailCopy RailKernels.

(** ** Fields of an image *)

(** Bytes and where they go. *)
Definition field : Type := nat * list Z.
Definition covers (f : field) (i : nat) : Prop := f.1 ≤ i < f.1 + length f.2.
Definition field_fits (n : nat) (f : field) : Prop := f.1 + length f.2 ≤ n.
Definition fields_apart (f g : field) : Prop := ∀ i, covers f i → ¬ covers g i.

Lemma lookup_copy_at at_ bs image i :
  at_ + length bs ≤ length image →
  copy_at at_ bs image !! i = if decide (at_ ≤ i < at_ + length bs) then bs !! (i - at_) else image !! i.
Proof.
  intros Hfit. unfold copy_at. assert (length (take at_ image) = at_) as Hl by (rewrite length_take; lia).
  destruct (decide (at_ ≤ i < at_ + length bs)) as [Hi|Hi].
  - rewrite lookup_app_r by lia. rewrite Hl, lookup_app_l by lia. done.
  - destruct (Nat.lt_ge_cases i at_).
    + rewrite lookup_app_l by lia. by rewrite lookup_take_lt.
    + rewrite lookup_app_r by lia. rewrite Hl, lookup_app_r by lia. rewrite lookup_drop. f_equal. lia.
Qed.

Lemma length_copy_at at_ bs image : at_ + length bs ≤ length image → length (copy_at at_ bs image) = length image.
Proof. intros H. unfold copy_at. rewrite !length_app, length_take, length_drop. lia. Qed.

(** [image] holds the fields [fs], and zeros elsewhere. *)
Record image_of (n : nat) (fs : list field) (image : list Z) : Prop := {
  io_length : length image = n;
  io_field f i : f ∈ fs → covers f i → image !! i = f.2 !! (i - f.1);
  io_zero i : i < n → (∀ f, f ∈ fs → ¬ covers f i) → image !! i = Some 0%Z
}.

Lemma image_put n fs image f :
  image_of n fs image → field_fits n f → (∀ g, g ∈ fs → fields_apart f g) →
  ∃ image', (∀ E, put (E := E) image f.1 f.2 = Done image') ∧ image_of n (fs ++ [f]) image'.
Proof.
  intros [Hl Hf Hz] Hfit Hap. unfold field_fits in Hfit. exists (copy_at f.1 f.2 image). split.
  { intros E. unfold put. by rewrite decide_True by lia. }
  split.
  - by rewrite length_copy_at by lia.
  - intros g i Hg Hc. rewrite lookup_copy_at by lia. apply elem_of_app in Hg as [Hg|Hg%list_elem_of_singleton].
    + rewrite decide_False; [by apply Hf|]. intros Hi. by apply (Hap g Hg i).
    + subst. by rewrite decide_True.
  - intros i Hi Hno. rewrite lookup_copy_at by lia. rewrite decide_False.
    + apply Hz; [done|]. intros g Hg. apply Hno. set_solver.
    + apply (Hno f). set_solver.
Qed.

(** ** Writing a list of entries *)

(** Where an entry is written: offset and size. *)
Definition span : Type := nat * nat.
Definition span_fits (n : nat) (s : span) : Prop := s.1 + s.2 ≤ n.
Definition spans_apart (s t : span) : Prop := s.1 + s.2 ≤ t.1 ∨ t.1 + t.2 ≤ s.1.
Definition field_span (f : field) : span := (f.1, length f.2).

Section entries.
Context {A : Type} (span_of : A → span) (field_of : A → option field) (encode : list Z → A → exec (EncodeFault * list Z) (list Z)).

(** One entry is written as its field, or refused when it has no bytes. *)
Definition writes_field (x : A) : Prop :=
  match field_of x with
  | Some f => span_of x = field_span f ∧ ∀ image, encode image x = put image f.1 f.2
  | None => ∀ image, ∃ e, encode image x = Fail (e, image)
  end.

Lemma encode_entries n l fs0 image :
  (∀ x, x ∈ l → writes_field x) → image_of n fs0 image →
  Forall (span_fits n) (span_of <$> l) → StronglySorted spans_apart ((field_span <$> fs0) ++ (span_of <$> l)) →
  match mapM field_of l with
  | Some fs => ∃ image', foldE encode image l = Done image' ∧ image_of n (fs0 ++ fs) image' ∧ span_of <$> l = field_span <$> fs
  | None => ∃ e image', foldE encode image l = Fail (e, image') ∧ length image' = n
  end.
Proof using Type.
  revert fs0 image. induction l as [|x l IH]; intros fs0 image Hw Him Hfit Hap; cbn [mapM foldE].
  { exists image. by rewrite app_nil_r. }
  pose proof (Hw x ltac:(by left)) as Hx. unfold writes_field in Hx.
  assert (∀ y, y ∈ l → writes_field y) as Hw' by (intros y Hy; apply Hw; by right).
  destruct (field_of x) as [f|] eqn:Hf; cbn [mbind option_bind].
  2:{ destruct (Hx image) as [e ->]. exists e, image. split; [done|apply (io_length _ _ _ Him)]. }
  destruct Hx as [Hspan Henc]. cbn [fmap list_fmap] in Hfit, Hap. apply Forall_cons_1 in Hfit as [Hfx Hfit].
  rewrite Hspan in Hfx, Hap. destruct (image_put n fs0 image f Him) as (image1 & Hput & Him1); [done| |].
  { intros g Hg. assert (spans_apart (field_span g) (field_span f)) as Hgf.
    { eapply StronglySorted_app_1_elem_of; [exact Hap| |by left]. by apply list_elem_of_fmap_2. }
    unfold spans_apart, fields_apart, covers in *. cbn in Hgf. lia. }
  rewrite Henc, Hput. cbn [mbind exec_bind]. specialize (IH (fs0 ++ [f]) image1 Hw' Him1 Hfit).
  rewrite fmap_app, <-app_assoc in IH. specialize (IH Hap). destruct (mapM field_of l) as [fs|]; cbn [mret option_ret].
  - destruct IH as (image2 & H1 & H2 & H3). exists image2. split; [done|]. rewrite <-app_assoc in H2. split; [done|].
    cbn [fmap list_fmap]. by rewrite Hspan, H3.
  - done.
Qed.
End entries.

(** ** A node *)

Definition arg_span (entry : nat * Arg) : span :=
  (entry.1, match entry.2 with ArgConst bytes => length bytes | ArgResource _ _ => 8 | ArgWord _ => 4 end).
Definition hidden_span (h : HiddenArg) : span := (hd_offset h, hd_size h).

Definition arr3_nonneg (a : arr3) : Prop := (0 ≤ a3_x a ∧ 0 ≤ a3_y a ∧ 0 ≤ a3_z a)%Z.

(** Arguments and hidden fields fit the segment and do not meet; axes exist. *)
Record node_laid_out (n : KernelNode) (segment : nat) : Prop := {
  lo_fits : Forall (span_fits segment) ((arg_span <$> kn_args n) ++ (hidden_span <$> kn_hidden n));
  lo_apart : StronglySorted spans_apart ((arg_span <$> kn_args n) ++ (hidden_span <$> kn_hidden n));
  lo_typed : arr3_nonneg (kn_block n) ∧ (0 ≤ kn_dynamic_lds n)%Z;
  lo_axes : Forall (λ h, match hd_kind h with BlockCount a | GroupSize a => a < 3 | _ => True end) (kn_hidden n)
}.

Section node.
Context (program : KernelProgram) (words : list Z) (overrides : ImageOverrides).

(** The bytes of an argument, when it has some. *)
Definition arg_field (entry : nat * Arg) : option field :=
  let '(offset, arg) := entry in
  match arg with
  | ArgConst bytes => Some (offset, bytes)
  | ArgResource resource interior =>
      b ← live_resources program overrides !! resource;
      let address := (bi_base b + interior_of overrides offset interior)%Z in
      if decide (address ≤ u64_max)%Z then Some (offset, le_bytes 8 address) else None
  | ArgWord id => value ← words !! id; Some (offset, le_bytes 4 value)
  end.

(** The bytes of a hidden field, when its value fits. *)
Definition hidden_field (n : KernelNode) (grid : arr3) (h : HiddenArg) : option field :=
  value ← hidden_value n grid (hd_kind h);
  if decide (hd_size h ≤ 8 ∧ (hd_size h = 8 ∨ (value < 2 ^ (8 * Z.of_nat (hd_size h)))%Z)) then
    Some (hd_offset h, take (hd_size h) (le_bytes 8 value))
  else None.

Definition node_fields (n : KernelNode) (grid : arr3) : option (list field) :=
  args ← mapM arg_field (kn_args n); hidden ← mapM (hidden_field n grid) (kn_hidden n); Some (args ++ hidden).

Lemma arg_writes x : writes_field arg_span arg_field (encode_arg program words overrides) x.
Proof using Type.
  destruct x as [offset [bytes|resource interior|id]]; unfold writes_field; cbn [arg_field encode_arg].
  - done.
  - destruct (live_resources program overrides !! resource) as [b|]; cbn [mbind option_bind or_fail exec_bind]; [|by eexists].
    destruct (decide _) as [Hle|Hgt].
    + split; [done|]. intros image. by rewrite (proj2 (checked_add_Some 64 _ _ _) (conj eq_refl Hle)).
    + intros image. rewrite (proj2 (checked_add_None 64 _ _)); [|unfold u64_max in Hgt; unfold umax; lia]. by eexists.
  - destruct (words !! id) as [v|]; cbn [mbind option_bind or_fail exec_bind]; [done|by eexists].
Qed.

Lemma axis3_nonneg a axis : arr3_nonneg a → axis < 3 → ∃ v, axis3 a axis = Some v ∧ (0 ≤ v)%Z.
Proof using Type.
  intros (Hx & Hy & Hz) Ha. unfold axis3. rewrite (proj2 (Nat.ltb_lt _ _) Ha). eexists. split; [done|].
  destruct axis as [|[|[|]]]; cbn; lia.
Qed.

Lemma hidden_value_nonneg n segment grid h :
  node_laid_out n segment → arr3_nonneg grid → h ∈ kn_hidden n → ∃ v, hidden_value n grid (hd_kind h) = Some v ∧ (0 ≤ v)%Z.
Proof using Type.
  intros [_ _ [Hb Hl] Hax] Hg Hh. rewrite Forall_forall in Hax. specialize (Hax h Hh).
  destruct (hd_kind h); cbn [hidden_value]; try (by apply axis3_nonneg); eexists; (split; [done|]); try lia.
  unfold grid_dims. repeat case_match; lia.
Qed.

Lemma shiftr_zero v k : (0 ≤ v)%Z → (0 ≤ k)%Z → (Z.shiftr v k =? 0)%Z = true ↔ (v < 2 ^ k)%Z.
Proof using Type.
  intros Hv Hk. rewrite Z.eqb_eq, Z.shiftr_div_pow2 by done. rewrite Z.div_small_iff by lia. lia.
Qed.

Lemma hidden_writes n segment grid h :
  node_laid_out n segment → arr3_nonneg grid → h ∈ kn_hidden n →
  writes_field hidden_span (hidden_field n grid) (encode_hidden n grid) h.
Proof using Type.
  intros Hn Hg Hh. destruct (hidden_value_nonneg n segment grid h Hn Hg Hh) as (v & Hv & Hnn).
  unfold writes_field, hidden_field, encode_hidden. rewrite Hv. cbn [mbind option_bind unwrap exec_bind].
  destruct (Nat.ltb_spec 8 (hd_size h)) as [Hbig|Hsmall]; cbn [orb].
  { rewrite decide_False by lia. intros image. by eexists. }
  destruct (Nat.ltb_spec (hd_size h) 8) as [Hlt|Hge]; cbn [andb].
  - pose proof (shiftr_zero v (8 * Z.of_nat (hd_size h)) Hnn ltac:(lia)) as Hsh.
    destruct (Z.shiftr _ _ =? 0)%Z; cbn [negb].
    + rewrite decide_True by (split; [done|]; right; by apply Hsh). split; [|done].
      unfold hidden_span, field_span. cbn [fst snd]. by rewrite length_take, length_le_bytes, Nat.min_l by lia.
    + rewrite decide_False; [intros image; by eexists|]. intros [_ [?|Hlt2]]; [lia|]. by apply Hsh in Hlt2.
  - rewrite decide_True by (split; [done|]; left; lia). split; [|done].
    unfold hidden_span, field_span. cbn [fst snd]. by rewrite length_take, length_le_bytes, Nat.min_l by lia.
Qed.

(** ** The encoder *)

Definition live_grid (n : KernelNode) : arr3 := default (kn_grid n) (ov_grid overrides).

Lemma image_zeros k : image_of k [] (replicate k 0%Z).
Proof using Type.
  split.
  - apply length_replicate.
  - by intros f i Hf%elem_of_nil.
  - intros i Hi _. by apply lookup_replicate_2.
Qed.

Lemma encode_ok node n out :
  kp_nodes program !! node = Some n → node_laid_out n (length out) → arr3_nonneg (live_grid n) →
  (is_Some (ov_grid overrides) → has_zero (live_grid n) = false) → kn_segment_bytes n = Some (length out) →
  match node_fields n (live_grid n) with
  | Some fs => ∃ image, encode_kernarg_into program words overrides node out = Done image ∧ image_of (length out) fs image
  | None => ∃ e partial, encode_kernarg_into program words overrides node out = Fail (e, partial) ∧ length partial = length out
  end.
Proof using Type.
  intros Hn Hlo Hg Hz Hseg. unfold encode_kernarg_into. rewrite Hn. cbn [or_fail mbind exec_bind].
  rewrite Hseg. cbn [or_fail mbind exec_bind]. rewrite Nat.eqb_refl. cbn [negb]. fold (live_grid n).
  assert (bool_decide (is_Some (ov_grid overrides)) && has_zero (live_grid n) = false) as ->.
  { destruct (bool_decide_reflect (is_Some (ov_grid overrides))) as [H|]; [by rewrite Hz|done]. }
  pose proof (lo_fits _ _ Hlo) as [Hfa Hfh]%Forall_app. pose proof (lo_apart _ _ Hlo) as Hap.
  pose proof (encode_entries arg_span arg_field (encode_arg program words overrides) (length out) (kn_args n) []
    (replicate (length out) 0%Z) (λ x _, arg_writes x) (image_zeros _) Hfa) as Hargs.
  cbn [fmap list_fmap app] in Hargs. specialize (Hargs (StronglySorted_app_1_l _ _ _ Hap)). unfold node_fields.
  destruct (mapM arg_field (kn_args n)) as [fa|]; cbn [mbind option_bind].
  2:{ destruct Hargs as (e & i & -> & ?). by exists e, i. }
  destruct Hargs as (image1 & -> & Him1 & Hspans). cbn [mbind exec_bind]. cbn [app] in Him1.
  pose proof (encode_entries hidden_span (hidden_field n (live_grid n)) (encode_hidden n (live_grid n)) (length out) (kn_hidden n) fa
    image1 (λ h, hidden_writes n _ _ h Hlo Hg) Him1 Hfh) as Hhid.
  rewrite Hspans in Hap. specialize (Hhid Hap).
  destruct (mapM (hidden_field n (live_grid n)) (kn_hidden n)) as [fh|]; cbn [mbind option_bind].
  - destruct Hhid as (image2 & -> & Him2 & _). by exists image2.
  - done.
Qed.

(** Whatever the encoder answers for a node that is laid out. *)
Lemma encode_result node n out :
  kp_nodes program !! node = Some n → (∀ segment, kn_segment_bytes n = Some segment → node_laid_out n segment) →
  arr3_nonneg (live_grid n) → length out = default 0 (kn_segment_bytes n) →
  match encode_kernarg_into program words overrides node out with
  | Done image => kn_segment_bytes n = Some (length out) ∧ ∃ fs, node_fields n (live_grid n) = Some fs ∧ image_of (length out) fs image
  | Fail (_, partial) => length partial = length out
  | Panic => False
  end.
Proof using Type.
  intros Hn Hlo Hg Hlen. destruct (kn_segment_bytes n) as [segment|] eqn:Hseg; cbn in Hlen.
  2:{ unfold encode_kernarg_into. rewrite Hn. cbn [or_fail mbind exec_bind]. by rewrite Hseg. }
  specialize (Hlo _ eq_refl). subst segment.
  destruct (decide (is_Some (ov_grid overrides) ∧ has_zero (live_grid n) = true)) as [[Ho Hz]|Hno].
  { unfold encode_kernarg_into. rewrite Hn. cbn [or_fail mbind exec_bind]. rewrite Hseg. cbn [or_fail mbind exec_bind].
    rewrite Nat.eqb_refl. cbn [negb]. fold (live_grid n). by rewrite bool_decide_eq_true_2, Hz by done. }
  pose proof (encode_ok node n out Hn Hlo Hg) as Henc. destruct (node_fields n (live_grid n)) as [fs|].
  - destruct Henc as (image & -> & Him); [|done|by split; [|exists fs]].
    intros Ho. destruct (has_zero (live_grid n)) eqn:Hz; [|done]. by destruct Hno.
  - destruct Henc as (e & partial & -> & Hl); [|done|done].
    intros Ho. destruct (has_zero (live_grid n)) eqn:Hz; [|done]. by destruct Hno.
Qed.
End node.

(** ** Programs that the author of railgun makes *)

Record program_wf (program : KernelProgram) : Prop := {
  pf_layout n segment : n ∈ kp_nodes program → kn_segment_bytes n = Some segment → node_laid_out n segment;
  pf_grid n : n ∈ kp_nodes program → arr3_nonneg (kn_grid n);
  pf_args n offset r interior : n ∈ kp_nodes program → (offset, ArgResource r interior) ∈ kn_args n →
    r < length (kp_resources program) ∧ (0 ≤ interior)%Z
}.
