(* ===== verification/RailBoundary.v ===== *)
(** * Boundaries of a kernel program ([railgun/src/plan.rs])

    The cache table of an architecture with its receipts, conditional bodies, and
    the plan that puts a boundary before every node: the join of what its edges
    need, after the nodes that no boundary has covered yet.  Texts of receipts
    and of refusals are tags. *)

From stdpp Require Import gmap.
From S2P Require Import Prelude Packet RailCopy RailKernels.

(** ** Visibility *)

Inductive Rung := RungNone | RungInterNode | RungSystem.

#[export] Instance rung_eq_dec : EqDecision Rung.
Proof. solve_decision. Defined.

(** The derived order is that of the constructors. *)
Definition rung_rank (r : Rung) : nat := match r with RungNone => 0 | RungInterNode => 1 | RungSystem => 2 end.
Definition rung_max (a b : Rung) : Rung := if rung_rank a <=? rung_rank b then b else a.

Record Visibility := mkVisibility { vz_wait_idle : bool; vz_acquire : Rung; vz_pre_writer : bool }.
Definition no_visibility : Visibility := mkVisibility false RungNone false.

Definition vis_join (a b : Visibility) : Visibility :=
  mkVisibility (vz_wait_idle a || vz_wait_idle b) (rung_max (vz_acquire a) (vz_acquire b)) (vz_pre_writer a || vz_pre_writer b).

Definition vis_is_empty (v : Visibility) : bool := negb (vz_wait_idle v) && bool_decide (vz_acquire v = RungNone).

Definition vis_covers (v need : Visibility) : bool :=
  (vz_wait_idle v || negb (vz_wait_idle need)) && (rung_rank (vz_acquire need) <=? rung_rank (vz_acquire v)).

Inductive Hazard := Raw | War | Waw | WarPreWriter.

#[export] Instance hazard_eq_dec : EqDecision Hazard.
Proof. solve_decision. Defined.
Definition hazard_rank (h : Hazard) : nat := match h with Raw => 0 | War => 1 | Waw => 2 | WarPreWriter => 3 end.

(** ** The cache table *)

(** One probe row that backs a receipt: its name, the rung, the trials and the
    weakest safe rung. *)
Record G4Evidence := mkEvidence { ev_name : rstr; ev_rung : rstr; ev_trials : Z; ev_weakest : option rstr }.
Record G4Receipt := mkG4Receipt { g4_source : rstr; g4_evidence : list G4Evidence }.

Record CacheRow := mkRow { cr_hazard : Hazard; cr_visibility : Visibility; cr_receipt : option G4Receipt }.
Record CacheTable := mkTable { ct_arch : rstr; ct_rows : list CacheRow }.

Definition dependent : Visibility := mkVisibility true RungInterNode false.
Definition table_for_arch (arch : rstr) : option CacheTable :=
  if bool_decide (arch = lit "gfx1200") || bool_decide (arch = lit "gfx1201") then
    Some (mkTable arch
      [mkRow Raw dependent None; mkRow War dependent None; mkRow Waw dependent None;
       mkRow WarPreWriter (mkVisibility true RungSystem true) None])
  else None.

Definition table_row (t : CacheTable) (h : Hazard) : option CacheRow := List.find (λ r, bool_decide (cr_hazard r = h)) (ct_rows t).

(** *** Receipts *)

Record G4RungTrials := mkTrials { gt_rung : rstr; gt_trials : Z; gt_stale : Z }.
Record G4Row := mkG4Row { gr_row : rstr; gr_weakest : option rstr; gr_trials : list G4RungTrials }.
Record G4Table := mkG4Table { gp_arch : rstr; gp_rows : list G4Row }.

Inductive ReceiptFault := WrongArch (got want : rstr) | StaleTrials (h : Hazard) (name rung : rstr) (stale trials : Z).

Definition probe_rung (v : Visibility) : rstr :=
  match vz_wait_idle v, vz_acquire v with
  | false, RungNone => lit "none"
  | true, RungNone => lit "wait"
  | _, RungInterNode => lit "wait_inter_node"
  | _, RungSystem => lit "wait_system"
  end.

Definition backing (h : Hazard) : list rstr :=
  match h with
  | Raw => [lit "raw_vmem"; lit "raw_smem"]
  | War => [lit "war"]
  | Waw => [lit "waw"]
  | WarPreWriter => [lit "war_pre_writer"]
  end.

(** The evidence of the backing rows, up to the first that gives none. *)
Fixpoint row_evidence (probe : G4Table) (h : Hazard) (rung : rstr) (min_trials : Z) (names : list rstr) :
    result ReceiptFault (list G4Evidence) :=
  match names with
  | [] => Ok []
  | name :: names =>
      match List.find (λ r, bool_decide (gr_row r = name)) (gp_rows probe) with
      | None => Ok []
      | Some probed =>
          match List.find (λ t, bool_decide (gt_rung t = rung)) (gr_trials probed) with
          | None => Ok []
          | Some result =>
              if negb (gt_stale result =? 0)%Z then Err (StaleTrials h name rung (gt_stale result) (gt_trials result))
              else if (gt_trials result <? min_trials)%Z then Ok []
              else
                rest ← row_evidence probe h rung min_trials names;
                Ok (mkEvidence name rung (gt_trials result) (gr_weakest probed) :: rest)
          end
      end
  end.

(** The rows so far are kept when a row fails. *)
Fixpoint attach_rows (probe : G4Table) (source : rstr) (min_trials : Z) (rows : list CacheRow) :
    list CacheRow * result ReceiptFault nat :=
  match rows with
  | [] => ([], Ok 0)
  | row :: rows =>
      let names := backing (cr_hazard row) in
      match row_evidence probe (cr_hazard row) (probe_rung (cr_visibility row)) min_trials names with
      | Err e => (row :: rows, Err e)
      | Ok evidence =>
          let complete := length evidence =? length names in
          let row := if complete then mkRow (cr_hazard row) (cr_visibility row) (Some (mkG4Receipt source evidence)) else row in
          let '(rows, r) := attach_rows probe source min_trials rows in
          (row :: rows, attached ← r; Ok (if complete then S attached else attached))
      end
  end.

Definition attach_receipts (t : CacheTable) (probe : G4Table) (source : rstr) (min_trials : Z) : CacheTable * result ReceiptFault nat :=
  if negb (bool_decide (gp_arch probe = ct_arch t)) then (t, Err (WrongArch (gp_arch probe) (ct_arch t)))
  else let '(rows, r) := attach_rows probe source min_trials (ct_rows t) in (mkTable (ct_arch t) rows, r).

Inductive RowPolicy := TierD | UnreceiptedSystem.

Definition visibility_of (table : CacheTable) (policy : RowPolicy) (h : Hazard) : option Visibility :=
  row ← table_row table h;
  Some match policy, cr_receipt row with
       | TierD, _ | UnreceiptedSystem, Some _ => cr_visibility row
       | UnreceiptedSystem, None => mkVisibility true RungSystem (vz_pre_writer (cr_visibility row))
       end.

(** ** Packet shaping *)

Definition GFX1201_POST_DISPATCH_NOP : Z := 64.
Definition post_dispatch_nop (arch : rstr) : Z := if bool_decide (arch = lit "gfx1201") then GFX1201_POST_DISPATCH_NOP else 0.
Definition cp_skip_admitted (arch : rstr) : bool := bool_decide (arch = lit "gfx1151").

(** ** Conditional bodies ([kernel.rs]) *)

Inductive ConditionalFault :=
| BodyRange (start end_ nodes : nat)
| BodyOverlaps (start end_ : nat)
| NotAControlWord (flag : nat)
| BodyNotPm4 (node : nat)
| NoCertifiedGuard (node : nat)
| WritesFlag (node : nat) (threads : Z)
| SkipNotVerified (arch : rstr).

Definition bodies_overlap (a b : Conditional) : bool := (cd_start a <? cd_end b) && (cd_start b <? cd_end a).

(** The product of the six extents, which overflows as [u64]. *)
Definition node_threads (n : KernelNode) : option Z :=
  foldM (λ acc d, checked_mul 64 acc d) 1%Z
    [a3_x (kn_grid n); a3_y (kn_grid n); a3_z (kn_grid n); a3_x (kn_block n); a3_y (kn_block n); a3_z (kn_block n)].

Definition check_body_node (c : Conditional) (entry : nat * KernelNode) : exec ConditionalFault unit :=
  let '(i, n) := entry in
  let j := cd_start c + i in
  if negb (is_pm4 (kn_lowering n)) then Fail (BodyNotPm4 j)
  else if bool_decide (cd_lowering c = KernelGuard) then
    if negb (bool_decide (kn_guard n = Some (cd_flag c))) then Fail (NoCertifiedGuard j)
    else
      threads ← unwrap (node_threads n);
      if ((j + 1 <? cd_end c) || (32 <? threads)%Z)
         && existsb (λ e, (re_resource e =? cd_flag c) && effect_writes e) (kn_effects n) then
        Fail (WritesFlag j threads)
      else Done tt
  else Done tt.

Definition with_conditionals (program : KernelProgram) (cs : list Conditional) : KernelProgram :=
  mkKernelProgram (kp_arch program) (kp_resources program) (kp_words program) (kp_nodes program) cs.

(** [partition_point] on a list that is sorted by the start. *)
Definition insert_conditional (c : Conditional) (cs : list Conditional) : list Conditional :=
  let at_ := default (length cs) (position (λ o, negb (cd_start o <? cd_start c)) cs) in
  take at_ cs ++ c :: drop at_ cs.

Definition add_conditional (program : KernelProgram) (c : Conditional) : exec ConditionalFault KernelProgram :=
  let nodes := kp_nodes program in
  if (cd_end c <=? cd_start c) || (length nodes <? cd_end c) then Fail (BodyRange (cd_start c) (cd_end c) (length nodes))
  else
    match List.find (bodies_overlap c) (kp_conditionals program) with
    | Some other => Fail (BodyOverlaps (cd_start other) (cd_end other))
    | None =>
        if match kp_resources program !! cd_flag c with Some b => (bi_bytes b <? 4)%Z | None => true end then
          Fail (NotAControlWord (cd_flag c))
        else
          _ ← foldE (λ _ entry, check_body_node c entry) tt (enumerate (take (cd_end c - cd_start c) (drop (cd_start c) nodes)));
          if bool_decide (cd_lowering c = CpSkip) && negb (cp_skip_admitted (kp_arch program)) then
            Fail (SkipNotVerified (kp_arch program))
          else Done (with_conditionals program (insert_conditional c (kp_conditionals program)))
    end.

(** A refusal leaves the conditionals as they were. *)
Definition bounded_while (program : KernelProgram) (flag : ResourceId) (first len iterations : nat) (lowering : CondLowering) :
    exec ConditionalFault KernelProgram :=
  foldE (λ program k, let start := first + k * len in add_conditional program (mkConditional flag start (start + len) lowering))
    program (seq 0 iterations).

(** ** The plan *)

Record Edge := mkEdge { eg_producer : nat; eg_consumer : nat; eg_hazard : Hazard; eg_resource : ResourceId }.

#[export] Instance edge_eq_dec : EqDecision Edge.
Proof. solve_decision. Defined.

Record Boundary := mkBoundary { by_visibility : Visibility; by_edges : list Edge; by_split : bool }.

(** The nodes from [sg_first] to before [sg_end]. *)
Record Segment := mkSegment { sg_first : nat; sg_end : nat }.

Record Pm4Plan := mkPm4Plan {
  pm_policy : RowPolicy;
  pm_segments : list Segment;
  pm_boundaries : list Boundary;
  pm_rows_used : list (Hazard * nat);
  pm_skips : list Conditional
}.

Definition ENTRY : Visibility := mkVisibility false RungSystem false.
Definition BARRIER : Visibility := mkVisibility true RungSystem false.

(** [Vec::dedup]: neighbours that are equal. *)
Fixpoint dedup {A} `{EqDecision A} (l : list A) : list A :=
  match l with
  | a :: l =>
      match dedup l with
      | b :: k => if decide (a = b) then b :: k else a :: b :: k
      | [] => [a]
      end
  | [] => []
  end.

(** A count of a [BTreeMap]. *)
Fixpoint bump (h : Hazard) (l : list (Hazard * nat)) : list (Hazard * nat) :=
  match l with
  | [] => [(h, 1)]
  | (k, c) :: l =>
      match hazard_rank h ?= hazard_rank k with
      | Eq => (k, S c) :: l
      | Lt => (h, 1) :: (k, c) :: l
      | Gt => (k, c) :: bump h l
      end
  end.

(** What the next nodes may depend on: the nodes since the last wait, the last
    node that loaded each resource, and the last system acquire. *)
Record plan_epoch := mkEpoch { pe_open : list nat; pe_loads : gmap ResourceId nat; pe_last_system : nat }.

Record plan_state := mkPlanState {
  ps_boundaries : list Boundary;
  ps_segments : list Segment;
  ps_rows_used : list (Hazard * nat);
  ps_epoch : plan_epoch;
  ps_segment_start : option nat;
  ps_entry : option plan_epoch
}.

Definition pair_hazards (earlier effect : RegionEffect) : list Hazard :=
  if negb (re_resource earlier =? re_resource effect) then []
  else
    (if effect_writes earlier && effect_reads effect then [Raw] else [])
    ++ (if effect_reads earlier && effect_writes effect then [War] else [])
    ++ (if effect_writes earlier && effect_writes effect then [Waw] else []).

Section plan.
Context (nodes : list KernelNode) (skips : list Conditional) (vis : Hazard → option Visibility).

Definition open_edges (j : nat) (effect : RegionEffect) (i : nat) : option (list Edge) :=
  earlier ← nodes !! i;
  Some (kn_effects earlier ≫= λ e, (λ h, mkEdge i j h (re_resource effect)) <$> pair_hazards e effect).

Definition pre_writer_edges (epoch : plan_epoch) (j : nat) (effect : RegionEffect) : list Edge :=
  if effect_has effect VmemStore then
    match pe_loads epoch !! re_resource effect with
    | Some i => if (pe_last_system epoch <=? i) && (i <? j) then [mkEdge i j WarPreWriter (re_resource effect)] else []
    | None => []
    end
  else [].

Definition edge_compare (a b : Edge) : comparison :=
  match hazard_rank (eg_hazard a) ?= hazard_rank (eg_hazard b) with
  | Eq => match eg_producer a ?= eg_producer b with Eq => eg_resource a ?= eg_resource b | c => c end
  | c => c
  end.

Definition effect_edges (epoch : plan_epoch) (j : nat) (effect : RegionEffect) : option (list Edge) :=
  edges ← mapM (open_edges j effect) (pe_open epoch); Some (List.concat edges ++ pre_writer_edges epoch j effect).

Definition node_edges (epoch : plan_epoch) (j : nat) (node : KernelNode) : option (list Edge) :=
  edges ← mapM (effect_edges epoch j) (kn_effects node); Some (dedup (sort_by edge_compare (List.concat edges))).

Definition join_edges (edges : list Edge) : option Visibility :=
  foldM (λ acc e, v ← vis (eg_hazard e); Some (vis_join acc v)) no_visibility edges.

Definition note_loads (j : nat) (node : KernelNode) (loads : gmap ResourceId nat) : gmap ResourceId nat :=
  foldl (λ m e, if effect_has e VmemLoad then <[re_resource e:=j]> m else m) loads (kn_effects node).

(** At the end of a body, the epoch at its entry is joined back. *)
Definition leave_body (s : plan_state) (j : nat) : plan_state :=
  if existsb (λ c, cd_end c =? j) skips then
    match ps_entry s with
    | Some was =>
        let now := ps_epoch s in
        mkPlanState (ps_boundaries s) (ps_segments s) (ps_rows_used s)
          (mkEpoch (dedup (sort_by Nat.compare (pe_open now ++ pe_open was))) (pe_loads now ∪ pe_loads was)
             (pe_last_system now `min` pe_last_system was))
          (ps_segment_start s) None
    | None => s
    end
  else s.

Definition enter_body (s : plan_state) (j : nat) : plan_state :=
  if existsb (λ c, cd_start c =? j) skips then
    mkPlanState (ps_boundaries s) (ps_segments s) (ps_rows_used s) (ps_epoch s) (ps_segment_start s)
      (Some match ps_segment_start s with Some _ => ps_epoch s | None => mkEpoch [] ∅ j end)
  else s.

Definition hazards_in (edges : list Edge) : list Hazard :=
  List.filter (λ h, existsb (λ e, bool_decide (eg_hazard e = h)) edges) [Raw; War; Waw; WarPreWriter].

(** The boundary of a node inside a segment. *)
Definition plan_inner (s : plan_state) (j : nat) (node : KernelNode) : option plan_state :=
  let epoch := ps_epoch s in
  edges ← node_edges epoch j node;
  visibility ← join_edges edges;
  let open := if vz_wait_idle visibility then [] else pe_open epoch in
  let last_system := if bool_decide (vz_acquire visibility = RungSystem) then j else pe_last_system epoch in
  Some (mkPlanState (ps_boundaries s ++ [mkBoundary visibility edges false]) (ps_segments s)
          (foldl (λ used h, bump h used) (ps_rows_used s) (hazards_in edges))
          (mkEpoch (open ++ [j]) (note_loads j node (pe_loads epoch)) last_system) (ps_segment_start s) (ps_entry s)).

Definition plan_step (s : plan_state) (entry : nat * KernelNode) : option plan_state :=
  let '(j, node) := entry in
  let s := enter_body (leave_body s j) j in
  if negb (is_pm4 (kn_lowering node)) then
    let segments := match ps_segment_start s with Some first => ps_segments s ++ [mkSegment first j] | None => ps_segments s end in
    Some (mkPlanState (ps_boundaries s ++ [mkBoundary BARRIER [] true]) segments (ps_rows_used s) (ps_epoch s) None (ps_entry s))
  else
    match ps_segment_start s with
    | None =>
        Some (mkPlanState (ps_boundaries s ++ [mkBoundary (if 0 <? j then BARRIER else ENTRY) [] true]) (ps_segments s) (ps_rows_used s)
                (mkEpoch [j] (note_loads j node ∅) j) (Some j) (ps_entry s))
    | Some _ => plan_inner s j node
    end.

Definition plan_start : plan_state := mkPlanState [] [] [] (mkEpoch [] ∅ 0) None None.
End plan.

Definition skips_of (program : KernelProgram) : list Conditional :=
  List.filter (λ c, bool_decide (cd_lowering c = CpSkip)) (kp_conditionals program).

Definition boundary_plan (program : KernelProgram) (table : CacheTable) (policy : RowPolicy) : option Pm4Plan :=
  let nodes := kp_nodes program in
  let skips := skips_of program in
  s ← foldM (plan_step nodes skips (visibility_of table policy)) plan_start (enumerate nodes);
  let segments := match ps_segment_start s with Some first => ps_segments s ++ [mkSegment first (length nodes)] | None => ps_segments s end in
  Some (mkPm4Plan policy segments (ps_boundaries s) (ps_rows_used s) skips).

(** ** Commands of a segment *)

Inductive Pm4Op :=
| OpEntry
| OpBoundary (v : Visibility)
| OpDispatch (node : nat)
| OpExit
| OpSkipBegin (flag : ResourceId)
| OpSkipEnd.

Definition node_ops (plan : Pm4Plan) (first node : nat) : option (list Pm4Op) :=
  b ← pm_boundaries plan !! node;
  Some ((match List.find (λ c, cd_start c =? node) (pm_skips plan) with Some c => [OpSkipBegin (cd_flag c)] | None => [] end)
        ++ (if negb (node =? first) && negb (vis_is_empty (by_visibility b)) then [OpBoundary (by_visibility b)] else [])
        ++ [OpDispatch node]
        ++ (if existsb (λ c, cd_end c =? node + 1) (pm_skips plan) then [OpSkipEnd] else [])).

Definition segment_ops (plan : Pm4Plan) (segment : Segment) : option (list Pm4Op) :=
  ops ← mapM (node_ops plan (sg_first segment)) (seq (sg_first segment) (sg_end segment - sg_first segment));
  Some (OpEntry :: List.concat ops ++ [OpExit]).

Record PlanCounts := mkCounts { pc_segments : nat; pc_waits : nat; pc_inter_node : nat; pc_system : nat; pc_pre_writer : nat; pc_elided : nat }.

Definition count_where (f : Visibility → bool) (plan : Pm4Plan) : nat :=
  length (List.filter (λ b, negb (by_split b) && f (by_visibility b)) (pm_boundaries plan)).

Definition plan_counts (plan : Pm4Plan) : PlanCounts :=
  mkCounts (length (pm_segments plan)) (count_where vz_wait_idle plan)
    (count_where (λ v, bool_decide (vz_acquire v = RungInterNode)) plan) (count_where (λ v, bool_decide (vz_acquire v = RungSystem)) plan)
    (count_where vz_pre_writer plan) (count_where vis_is_empty plan).

Definition is_single_segment (segments : list Segment) (nodes : nat) : bool :=
  match segments with [only] => (sg_first only =? 0) && (sg_end only =? nodes) | _ => false end.
