(* ===== verification/RailBoundaryOk.v ===== *)
(** * What the boundary plan guarantees

    Every hazard between two nodes of a segment is covered by a boundary that is
    issued between them, whichever conditional bodies are skipped: it waits and
    acquires at inter-node scope, or for the system on the writer side, and what
    the row asks unless the row of another dependent hazard asks for less. *)

From stdpp Require Import gmap.
From S2P Require Import Prelude Packet RailCopy RailKernels RailBoundary.

(** ** Lists *)

Lemma elem_of_dedup {A} `{EqDecision A} (l : list A) x : x ∈ dedup l ↔ x ∈ l.
Proof.
  induction l as [|a l IH]; cbn; [done|]. destruct (dedup l) as [|b k].
  - rewrite list_elem_of_singleton, elem_of_cons, <-IH, elem_of_nil. tauto.
  - rewrite elem_of_cons, <-IH. destruct (decide (a = b)) as [->|]; rewrite !elem_of_cons; tauto.
Qed.

Lemma mapM_elem {A B} (f : A → option B) l k y : mapM f l = Some k → y ∈ k ↔ ∃ x, x ∈ l ∧ f x = Some y.
Proof.
  rewrite mapM_Some. intros H. split.
  - intros [i Hi]%list_elem_of_lookup. destruct (Forall2_lookup_r _ _ _ _ _ H Hi) as (x & Hx & Hf).
    exists x. split; [by eapply list_elem_of_lookup_2|done].
  - intros (x & [i Hi]%list_elem_of_lookup & Hf). destruct (Forall2_lookup_l _ _ _ _ _ H Hi) as (y' & Hy & Hf').
    rewrite Hf in Hf'. injection Hf' as <-. by eapply list_elem_of_lookup_2.
Qed.

Lemma elem_of_concat {A} (ls : list (list A)) x : x ∈ List.concat ls ↔ ∃ l, x ∈ l ∧ l ∈ ls.
Proof.
  rewrite list_elem_of_In, in_concat. split; intros (l & H1 & H2); exists l; rewrite ?list_elem_of_In in *; done.
Qed.

(** ** Visibility *)

Lemma rung_max_rank a b : rung_rank (rung_max a b) = rung_rank a `max` rung_rank b.
Proof. by destruct a, b. Qed.

Lemma rung_rank_inj a b : rung_rank a = rung_rank b → a = b.
Proof. by destruct a, b. Qed.

Lemma covers_spec v need :
  vis_covers v need = true ↔ (vz_wait_idle need = true → vz_wait_idle v = true) ∧ rung_rank (vz_acquire need) ≤ rung_rank (vz_acquire v).
Proof.
  unfold vis_covers. rewrite andb_true_iff, orb_true_iff, Nat.leb_le, negb_true_iff.
  destruct (vz_wait_idle v), (vz_wait_idle need); naive_solver.
Qed.

(** What the rows of the architecture ask of themselves: all a wait, the
    writer-side one a system acquire and the others an inter-node acquire. *)
Definition own_visibility (h : Hazard) : Visibility := match h with WarPreWriter => mkVisibility true RungSystem true | _ => dependent end.

(** What the rows of a table ask: at least that, and the writer-side row a system
    acquire. *)
Record rows_ask (visf : Hazard → option Visibility) (vis : Hazard → Visibility) : Prop := {
  ra_some h : visf h = Some (vis h);
  ra_wait h : vz_wait_idle (vis h) = true;
  ra_own h : vis_covers (vis h) (own_visibility h) = true;
  ra_writer : vz_acquire (vis WarPreWriter) = RungSystem
}.

(** No row of a dependent hazard asks for less. *)
Definition asks_least (visf : Hazard → option Visibility) (h : Hazard) : Prop :=
  h = WarPreWriter ∨ ∀ h' v v', h' ≠ WarPreWriter → visf h = Some v → visf h' = Some v' → rung_rank (vz_acquire v) ≤ rung_rank (vz_acquire v').

Section join.
Context (visf : Hazard → option Visibility) (vis : Hazard → Visibility) (Huni : rows_ask visf vis).

(** A visibility that meets a hazard. *)
Definition meets (v : Visibility) (h : Hazard) : Prop :=
  vis_covers v (own_visibility h) = true ∧ (asks_least visf h → vis_covers v (vis h) = true).

Lemma covers_meets v h : vis_covers v (vis h) = true → meets v h.
Proof using Huni.
  intros H. split; [|done]. pose proof (ra_own _ _ Huni h) as [H1 H2]%covers_spec. apply covers_spec in H as [H3 H4]. apply covers_spec.
  split; [auto|lia].
Qed.

Lemma least_le h h' : h ≠ WarPreWriter → asks_least visf h → rung_rank (vz_acquire (vis h)) ≤ rung_rank (vz_acquire (vis h')).
Proof using Huni.
  intros Hne [?|Hl]; [done|]. destruct (decide (h' = WarPreWriter)) as [->|Hne'].
  - rewrite (ra_writer _ _ Huni). by destruct (vz_acquire (vis h)); cbn; lia.
  - by apply (Hl h' _ _ Hne' (ra_some _ _ Huni h) (ra_some _ _ Huni h')).
Qed.

Lemma dependent_le h : rung_rank RungInterNode ≤ rung_rank (vz_acquire (vis h)).
Proof using Huni. pose proof (ra_own _ _ Huni h) as [_ H]%covers_spec. destruct h; cbn in *; lia. Qed.

(** A join covers each of its edges, and waits exactly when there is one. *)
Lemma join_edges_ok edges :
  ∃ v, join_edges visf edges = Some v ∧ (∀ e, e ∈ edges → vis_covers v (vis (eg_hazard e)) = true) ∧
    (vz_wait_idle v = true ↔ edges ≠ []) ∧ (edges = [] → v = no_visibility).
Proof using Huni.
  unfold join_edges. assert (∀ l v0, ∃ v,
    foldM (λ acc e, w ← visf (eg_hazard e); Some (vis_join acc w)) v0 l = Some v ∧
    (∀ e, e ∈ l → vis_covers v (vis (eg_hazard e)) = true) ∧ rung_rank (vz_acquire v0) ≤ rung_rank (vz_acquire v) ∧
    (vz_wait_idle v = vz_wait_idle v0 || negb (bool_decide (l = []))) ∧ (l = [] → v = v0)) as Hgen.
  { induction l as [|e l IH]; intros v0; cbn [foldM].
    - exists v0. split_and!; try done; [by intros e He%elem_of_nil|by rewrite orb_false_r].
    - rewrite (ra_some _ _ Huni). cbn [mbind option_bind]. destruct (IH (vis_join v0 (vis (eg_hazard e)))) as (v & Hv & Hc & Hr & Hw & _).
      exists v. cbn [vis_join vz_acquire vz_wait_idle] in Hr, Hw. rewrite rung_max_rank in Hr. rewrite (ra_wait _ _ Huni), orb_true_r in Hw. cbn in Hw.
      split; [done|]. split; [|split; [lia|split; [by rewrite Hw, orb_true_r|done]]].
      intros e' [->|He']%elem_of_cons; [|by apply Hc]. apply covers_spec. split; [done|lia]. }
  destruct (Hgen edges no_visibility) as (v & Hv & Hc & _ & Hw & Hn). exists v. split_and!; try done.
  rewrite Hw. cbn. rewrite negb_true_iff, bool_decide_eq_false. done.
Qed.

(** A boundary that waits meets every dependent hazard. *)
Lemma join_dependent edges v h :
  join_edges visf edges = Some v → vz_wait_idle v = true → h ≠ WarPreWriter → meets v h.
Proof using Huni.
  intros Hv Hw Hne. destruct (join_edges_ok edges) as (v' & Hv' & Hc & Hiff & _). rewrite Hv in Hv'. injection Hv' as <-.
  destruct edges as [|e edges]; [by apply Hiff in Hw|]. specialize (Hc e ltac:(by left)). apply covers_spec in Hc as [_ Hc].
  split; [|intros Hl]; apply covers_spec; (split; [done|]).
  - pose proof (dependent_le (eg_hazard e)). destruct h; cbn in *; done || lia.
  - pose proof (least_le h (eg_hazard e) Hne Hl). lia.
Qed.
End join.

(** ** Edges *)

(** Two nodes that touch one resource, the first before the second. *)
Definition hazard_between (a b : KernelNode) (h : Hazard) : Prop :=
  ∃ e f, e ∈ kn_effects a ∧ f ∈ kn_effects b ∧ re_resource e = re_resource f ∧
    match h with
    | Raw => effect_writes e = true ∧ effect_reads f = true
    | War => effect_reads e = true ∧ effect_writes f = true
    | Waw => effect_writes e = true ∧ effect_writes f = true
    | WarPreWriter => effect_has e VmemLoad = true ∧ effect_has f VmemStore = true
    end.

Lemma elem_of_pair_hazards e f h :
  h ∈ pair_hazards e f ↔ re_resource e = re_resource f ∧
    match h with
    | Raw => effect_writes e = true ∧ effect_reads f = true
    | War => effect_reads e = true ∧ effect_writes f = true
    | Waw => effect_writes e = true ∧ effect_writes f = true
    | WarPreWriter => False
    end.
Proof.
  unfold pair_hazards. destruct (Nat.eqb_spec (re_resource e) (re_resource f)) as [|Hne]; cbn [negb].
  - rewrite !elem_of_app. destruct (effect_writes e), (effect_reads e), (effect_writes f), (effect_reads f); cbn;
      rewrite ?list_elem_of_singleton, ?elem_of_nil; destruct h; naive_solver.
  - rewrite elem_of_nil. tauto.
Qed.

Section edges.
Context (nodes : list KernelNode).

Lemma elem_of_node_edges epoch j node edges g :
  node_edges nodes epoch j node = Some edges →
  g ∈ edges ↔ ∃ f, f ∈ kn_effects node ∧
    ((∃ i n e h, i ∈ pe_open epoch ∧ nodes !! i = Some n ∧ e ∈ kn_effects n ∧ h ∈ pair_hazards e f ∧ g = mkEdge i j h (re_resource f)) ∨
     g ∈ pre_writer_edges epoch j f).
Proof using Type.
  unfold node_edges. intros (raw & Hraw & [= <-])%bind_Some. rewrite elem_of_dedup.
  rewrite (sort_by_perm edge_compare (List.concat raw)), elem_of_concat. split.
  - intros (l & Hg & Hl). rewrite (mapM_elem _ _ _ _ Hraw) in Hl. destruct Hl as (f & Hf & Hl). exists f. split; [done|].
    unfold effect_edges in Hl. apply bind_Some in Hl as (k & Hk & [= <-]). apply elem_of_app in Hg as [Hg|Hg]; [left|by right].
    apply elem_of_concat in Hg as (m & Hg & Hm). rewrite (mapM_elem _ _ _ _ Hk) in Hm. destruct Hm as (i & Hi & Hm).
    unfold open_edges in Hm. apply bind_Some in Hm as (n & Hn & [= <-]). apply list_elem_of_bind in Hg as (e & Hg & He).
    apply list_elem_of_fmap in Hg as (h & -> & Hh). by exists i, n, e, h.
  - intros (f & Hf & Hg). assert (∃ l, effect_edges nodes epoch j f = Some l) as [l Hl].
    { apply mapM_Some in Hraw. apply list_elem_of_lookup in Hf as [k Hk]. destruct (Forall2_lookup_l _ _ _ _ _ Hraw Hk) as (l & _ & Hl). by exists l. }
    exists l. split; [|rewrite (mapM_elem _ _ _ _ Hraw); by exists f]. unfold effect_edges in Hl.
    apply bind_Some in Hl as (k & Hk & [= <-]). apply elem_of_app. destruct Hg as [(i & n & e & h & Hi & Hn & He & Hh & ->)|Hg]; [left|by right].
    apply elem_of_concat. exists (kn_effects n ≫= λ e, (λ h, mkEdge i j h (re_resource f)) <$> pair_hazards e f). split.
    + apply list_elem_of_bind. exists e. split; [|done]. apply list_elem_of_fmap. by exists h.
    + rewrite (mapM_elem _ _ _ _ Hk). exists i. split; [done|]. unfold open_edges. by rewrite Hn.
Qed.

Lemma node_edges_Some epoch j node :
  (∀ i, i ∈ pe_open epoch → i < length nodes) → ∃ edges, node_edges nodes epoch j node = Some edges.
Proof using Type.
  intros Hopen. unfold node_edges. assert (is_Some (mapM (effect_edges nodes epoch j) (kn_effects node))) as [l ->]; [|by eexists].
  apply mapM_is_Some, Forall_forall. intros f _. unfold compose, effect_edges.
  assert (is_Some (mapM (open_edges nodes j f) (pe_open epoch))) as [k ->]; [|by eexists].
  apply mapM_is_Some, Forall_forall. intros i Hi. unfold compose, open_edges.
  apply Hopen, lookup_lt_is_Some in Hi as [n ->]. by eexists.
Qed.

(** The last load of a resource, after a node. *)
Lemma note_loads_lookup j node loads r :
  note_loads j node loads !! r =
    if existsb (λ e, (re_resource e =? r) && effect_has e VmemLoad) (kn_effects node) then Some j else loads !! r.
Proof using Type.
  unfold note_loads. generalize (kn_effects node) as l. intros l. revert loads. induction l as [|e l IH]; intros loads; cbn [foldl existsb]; [done|].
  rewrite IH. destruct (existsb _ l); [by rewrite orb_true_r|]. rewrite orb_false_r.
  destruct (effect_has e VmemLoad); [|by rewrite andb_false_r]. rewrite andb_true_r.
  destruct (Nat.eqb_spec (re_resource e) r) as [->|Hne]; [by rewrite lookup_insert_eq|by rewrite lookup_insert_ne].
Qed.

Lemma note_loads_load j node loads e :
  e ∈ kn_effects node → effect_has e VmemLoad = true → note_loads j node loads !! re_resource e = Some j.
Proof using Type.
  intros He Hv. rewrite note_loads_lookup. assert (existsb (λ e0, (re_resource e0 =? re_resource e) && effect_has e0 VmemLoad) (kn_effects node) = true) as ->; [|done].
  apply existsb_exists. exists e. split; [by apply list_elem_of_In|]. by rewrite Nat.eqb_refl, Hv.
Qed.

Lemma note_loads_cases j node loads r i :
  note_loads j node loads !! r = Some i → i = j ∨ loads !! r = Some i.
Proof using Type. rewrite note_loads_lookup. destruct (existsb _ _); [intros [= <-]; by left|by right]. Qed.
End edges.

(** ** Runs *)

(** Bodies that can be skipped: not empty, disjoint, of PM4 nodes. *)
Record skips_ok (nodes : list KernelNode) (skips : list Conditional) : Prop := {
  sk_range c : c ∈ skips → cd_start c < cd_end c ≤ length nodes;
  sk_disjoint c d k : c ∈ skips → d ∈ skips → cd_start c ≤ k < cd_end c → cd_start d ≤ k < cd_end d → c = d;
  sk_pm4 c k n : c ∈ skips → cd_start c ≤ k < cd_end c → nodes !! k = Some n → is_pm4 (kn_lowering n) = true
}.

(** Every node from [i] to [j] is lowered to PM4. *)
Definition pm4_range (nodes : list KernelNode) (i j : nat) : Prop :=
  ∀ k, i ≤ k ≤ j → ∃ n, nodes !! k = Some n ∧ is_pm4 (kn_lowering n) = true.

(** A run decides for the start of every body whether it is taken. *)
Definition executed (skips : list Conditional) (run : nat → bool) (k : nat) : Prop :=
  ∀ c, c ∈ skips → cd_start c ≤ k < cd_end c → run (cd_start c) = true.

(** A boundary in a segment, after [i] and before [j], that the run issues. *)
Definition issued (skips : list Conditional) (B : list Boundary) (run : nat → bool) (i j : nat) (P : Visibility → Prop) : Prop :=
  ∃ k b, i < k < j ∧ executed skips run k ∧ B !! k = Some b ∧ by_split b = false ∧ vz_wait_idle (by_visibility b) = true ∧ P (by_visibility b).

Lemma issued_weaken skips B B' run i j j' P :
  issued skips B run i j P → j ≤ j' → B `prefix_of` B' → issued skips B' run i j' P.
Proof.
  intros (k & b & Hk & He & Hb & H) Hj Hpre. exists k, b. split; [lia|]. split; [done|]. split; [by eapply prefix_lookup_Some|done].
Qed.

Section inv.
Context (nodes : list KernelNode) (skips : list Conditional) (visf : Hazard → option Visibility) (vis : Hazard → Visibility).
Context (Huni : rows_ask visf vis) (Hskips : skips_ok nodes skips).

Definition serves (v : Visibility) : Prop := ∀ h, h ≠ WarPreWriter → meets visf vis v h.
Definition syncs (v : Visibility) : Prop := vz_acquire v = RungSystem.

(** What a run knows of an epoch at [j], in a segment that starts at [first]. *)
Record epoch_ok (B : list Boundary) (run : nat → bool) (first j : nat) (ep : plan_epoch) : Prop := {
  eo_open i : first ≤ i < j → executed skips run i → i ∈ pe_open ep ∨ issued skips B run i j serves;
  eo_loads i n e : first ≤ i < j → executed skips run i → nodes !! i = Some n → e ∈ kn_effects n → effect_has e VmemLoad = true →
    (∃ l, pe_loads ep !! re_resource e = Some l ∧ i ≤ l ∧ pe_last_system ep ≤ l) ∨ issued skips B run i j syncs
}.

Record epoch_sane (j : nat) (ep : plan_epoch) : Prop := {
  es_open i : i ∈ pe_open ep → i < j;
  es_loads r l : pe_loads ep !! r = Some l → l < j;
  es_system : pe_last_system ep ≤ j
}.

(** The entry of a body that [j] is in. *)
Record entry_ok (B : list Boundary) (s : plan_state) (c : Conditional) (first : nat) (was : plan_epoch) : Prop := {
  ey_first : first ≤ cd_start c;
  ey_sane : epoch_sane (cd_start c) was;
  ey_epoch run : epoch_ok B run first (cd_start c) was;
  ey_loads r l : pe_loads was !! r = Some l → ∃ l', l ≤ l' ∧ pe_loads (ps_epoch s) !! r = Some l'
}.

(** A hazard of two nodes of a segment is met by a boundary that the run issues
    between them. *)
Definition hazards_covered (B : list Boundary) (j : nat) : Prop :=
  ∀ run i k a b h, i < k < j → pm4_range nodes i k → nodes !! i = Some a → nodes !! k = Some b → hazard_between a b h →
    executed skips run i → executed skips run k →
    ∃ m bd, i < m ≤ k ∧ executed skips run m ∧ B !! m = Some bd ∧ by_split bd = false ∧ meets visf vis (by_visibility bd) h.

Definition starts_at (j : nat) (start : option nat) : Prop :=
  match start with
  | Some first => first < j ∧ pm4_range nodes first (j - 1) ∧ ∀ i, i ≤ j - 1 → pm4_range nodes i (j - 1) → first ≤ i
  | None => j = 0 ∨ ¬ pm4_range nodes (j - 1) (j - 1)
  end.

(** The longest run of PM4 nodes. *)
Record segment_ok (sg : Segment) : Prop := {
  sm_range : sg_first sg < sg_end sg ≤ length nodes;
  sm_pm4 : pm4_range nodes (sg_first sg) (sg_end sg - 1);
  sm_left i : i ≤ sg_first sg → pm4_range nodes i (sg_end sg - 1) → i = sg_first sg;
  sm_right : ¬ pm4_range nodes (sg_end sg) (sg_end sg)
}.

Definition segments_ok (segments : list Segment) (start : option nat) (j : nat) : Prop :=
  Forall segment_ok segments ∧
  ∀ k, k < j → pm4_range nodes k k → (∃ sg, sg ∈ segments ∧ sg_first sg ≤ k < sg_end sg) ∨ ∃ first, start = Some first ∧ first ≤ k.

(** Bodies that a node is in: before the end of a body is left, and after. *)
Definition before (c : Conditional) (j : nat) : Prop := cd_start c < j ≤ cd_end c.
Definition within (c : Conditional) (j : nat) : Prop := cd_start c < j < cd_end c.

Record plan_inv (body : Conditional → nat → Prop) (j : nat) (s : plan_state) : Prop := {
  pv_length : length (ps_boundaries s) = j;
  pv_range : j ≤ length nodes;
  pv_sane : epoch_sane j (ps_epoch s);
  pv_start : starts_at j (ps_segment_start s);
  pv_done : hazards_covered (ps_boundaries s) j;
  pv_segments : segments_ok (ps_segments s) (ps_segment_start s) j;
  pv_epoch first run : ps_segment_start s = Some first → (∀ c, c ∈ skips → body c j → run (cd_start c) = true) →
    epoch_ok (ps_boundaries s) run first j (ps_epoch s);
  pv_entry c : c ∈ skips → body c j → ∃ first was, ps_segment_start s = Some first ∧ ps_entry s = Some was ∧
    entry_ok (ps_boundaries s) s c first was
}.

(** *** Leaving a body *)

Lemma existsb_skip (f : Conditional → bool) : existsb f skips = true ↔ ∃ c, c ∈ skips ∧ f c = true.
Proof using Type. rewrite existsb_exists. split; intros (c & H & ?); exists c; by rewrite list_elem_of_In in *. Qed.

(** An epoch that keeps more open and acquires later knows no less. *)
Lemma epoch_weaken B run first j ep ep' :
  epoch_ok B run first j ep → (∀ i, i ∈ pe_open ep → i ∈ pe_open ep') →
  (∀ r l, pe_loads ep !! r = Some l → ∃ l', l ≤ l' ∧ pe_loads ep' !! r = Some l') → pe_last_system ep' ≤ pe_last_system ep →
  epoch_ok B run first j ep'.
Proof using Type.
  intros [Ho Hl] Hopen Hloads Hsys. split.
  - intros i Hi He. destruct (Ho i Hi He); [left; by apply Hopen|by right].
  - intros i n e Hi He Hn Hin Hv. destruct (Hl i n e Hi He Hn Hin Hv) as [(l & Hr & Hle & Hs)|?]; [left|by right].
    destruct (Hloads _ _ Hr) as (l' & Hl' & Hr'). exists l'. split; [done|lia].
Qed.

(** A run that skips the body knows at its end what it knew at its entry. *)
Lemma epoch_skipped B run first c ep :
  c ∈ skips → run (cd_start c) = false → first ≤ cd_start c → epoch_ok B run first (cd_start c) ep →
  epoch_ok B run first (cd_end c) ep.
Proof using Hskips.
  intros Hc Hrun Hf [Ho Hl]. pose proof (sk_range _ _ Hskips c Hc) as Hrange.
  assert (∀ i, first ≤ i < cd_end c → executed skips run i → first ≤ i < cd_start c) as Hbefore.
  { intros i Hi He. destruct (decide (cd_start c ≤ i)); [|lia]. rewrite (He c Hc) in Hrun by lia. done. }
  split.
  - intros i Hi He. destruct (Ho i (Hbefore i Hi He) He); [by left|right]. eapply issued_weaken; [done|lia|done].
  - intros i n e Hi He Hn Hin Hv. destruct (Hl i n e (Hbefore i Hi He) He Hn Hin Hv); [by left|right].
    eapply issued_weaken; [done|lia|done].
Qed.

Definition merged (now was : plan_epoch) : plan_epoch :=
  mkEpoch (dedup (sort_by Nat.compare (pe_open now ++ pe_open was))) (pe_loads now ∪ pe_loads was)
    (pe_last_system now `min` pe_last_system was).

Lemma merged_open now was i : i ∈ pe_open (merged now was) ↔ i ∈ pe_open now ∨ i ∈ pe_open was.
Proof using Type. cbn. by rewrite elem_of_dedup, (sort_by_perm Nat.compare), elem_of_app. Qed.

Lemma merged_now B run first j now was : epoch_ok B run first j now → epoch_ok B run first j (merged now was).
Proof using Type.
  intros H. eapply epoch_weaken; [done| | |cbn; lia].
  - intros i Hi. apply merged_open. by left.
  - intros r l Hr. exists l. split; [done|]. cbn. by apply lookup_union_Some_l.
Qed.

Lemma merged_was B run first j now was :
  (∀ r l, pe_loads was !! r = Some l → ∃ l', l ≤ l' ∧ pe_loads now !! r = Some l') → epoch_ok B run first j was →
  epoch_ok B run first j (merged now was).
Proof using Type.
  intros Hl H. eapply epoch_weaken; [done| | |cbn; lia].
  - intros i Hi. apply merged_open. by right.
  - intros r l Hr. destruct (Hl _ _ Hr) as (l' & Hle & Hr'). exists l'. split; [done|]. cbn. by apply lookup_union_Some_l.
Qed.

Lemma leave_ok j s : plan_inv before j s → plan_inv within j (leave_body skips s j).
Proof using Hskips.
  intros [Hlen Hrange [Hso Hsl Hsy] Hstart Hdone Hsegs Hep Hentry]. unfold leave_body.
  destruct (existsb (λ c, cd_end c =? j) skips) eqn:Hend.
  - apply existsb_skip in Hend as (c & Hc & Hj%Nat.eqb_eq). pose proof (sk_range _ _ Hskips c Hc) as Hcr.
    destruct (Hentry c Hc) as (first & was & Hf & -> & [Hfirst [Hwo Hwl Hwy] Hwas Hloads]); [unfold before; lia|]. fold (merged (ps_epoch s) was).
    split; cbn [ps_boundaries ps_epoch ps_segment_start ps_entry]; try done.
    + split.
      * intros i [Hi|Hi]%merged_open; [by apply Hso|]. apply Hwo in Hi. lia.
      * intros r l Hr. cbn in Hr. apply lookup_union_Some_raw in Hr as [Hr|[_ Hr]]; [by eapply Hsl|]. apply Hwl in Hr. lia.
      * cbn. lia.
    + intros first' run Hf' Hin. assert (first' = first) as -> by congruence. destruct (run (cd_start c)) eqn:Hrun.
      * apply merged_now, Hep; [done|]. intros d Hd [H1 H2]. destruct (decide (cd_end d = cd_end c)) as [He|Hne].
        { assert (d = c) as -> by (apply (sk_disjoint _ _ Hskips d c (cd_end c - 1)); [done|done|lia|lia]). done. }
        apply Hin; [done|]. split; lia.
      * apply merged_was; [done|]. rewrite <-Hj. by apply epoch_skipped.
    + intros d Hd [H1 H2]. assert (d = c) as -> by (apply (sk_disjoint _ _ Hskips d c (cd_end c - 1)); [done|done|lia|lia]). lia.
  - assert (∀ c, c ∈ skips → before c j → within c j) as Hw.
    { intros c Hc [H1 H2]. split; [done|]. destruct (decide (cd_end c = j)) as [He|]; [|lia]. exfalso.
      apply not_true_iff_false in Hend. apply Hend, existsb_skip. exists c. split; [done|]. by apply Nat.eqb_eq. }
    split; try done.
    + intros first run Hf Hin. apply Hep; [done|]. intros c Hc Hb. by apply Hin, Hw.
    + intros c Hc [H1 H2]. apply Hentry; [done|]. split; lia.
Qed.

(** *** Entering a body *)

Lemma epoch_extend B B' run first j ep : epoch_ok B run first j ep → B `prefix_of` B' → epoch_ok B' run first j ep.
Proof using Type.
  intros [Ho Hl] Hpre. split.
  - intros i Hi He. destruct (Ho i Hi He); [by left|right]. by eapply issued_weaken.
  - intros i n e Hi He Hn Hin Hv. destruct (Hl i n e Hi He Hn Hin Hv); [by left|right]. by eapply issued_weaken.
Qed.

Lemma entry_extend B B' s s' c first was :
  entry_ok B s c first was → B `prefix_of` B' →
  (∀ r l, pe_loads (ps_epoch s) !! r = Some l → ∃ l', l ≤ l' ∧ pe_loads (ps_epoch s') !! r = Some l') → entry_ok B' s' c first was.
Proof using Type.
  intros [Hf Hs He Hl] Hpre Hmore. split; [done|done| |].
  - intros run. by eapply epoch_extend.
  - intros r l Hr. destruct (Hl _ _ Hr) as (l1 & Hle & Hr1). destruct (Hmore _ _ Hr1) as (l2 & Hle2 & Hr2). exists l2. split; [lia|done].
Qed.

Lemma enter_same j s :
  ps_boundaries (enter_body skips s j) = ps_boundaries s ∧ ps_segments (enter_body skips s j) = ps_segments s ∧
  ps_epoch (enter_body skips s j) = ps_epoch s ∧ ps_segment_start (enter_body skips s j) = ps_segment_start s.
Proof using Type. unfold enter_body. by destruct (existsb _ _). Qed.

Lemma enter_entry j s c :
  plan_inv within j s → c ∈ skips → cd_start c ≤ j < cd_end c →
  ∃ was, ps_entry (enter_body skips s j) = Some was ∧
    match ps_segment_start s with
    | Some first => entry_ok (ps_boundaries s) s c first was
    | None => cd_start c = j ∧ was = mkEpoch [] ∅ j
    end.
Proof using Hskips.
  intros Hinv Hc Hj. unfold enter_body. destruct (decide (cd_start c = j)) as [He|Hne].
  - assert (existsb (λ c, cd_start c =? j) skips = true) as -> by (apply existsb_skip; exists c; by rewrite Nat.eqb_eq).
    eexists. split; [done|]. pose proof (pv_start _ _ _ Hinv) as Hstart. destruct (ps_segment_start s) as [first|] eqn:Hf; [|done].
    destruct Hstart as [Hfirst _]. rewrite <-He in *. split; [lia|apply Hinv| |by intros r l Hr; exists l].
    intros run. apply (pv_epoch _ _ _ Hinv); [done|]. intros d Hd [H1 H2].
    assert (d = c) as -> by (apply (sk_disjoint _ _ Hskips d c (cd_start c)); [done|done|lia|lia]). lia.
  - assert (existsb (λ c, cd_start c =? j) skips = false) as ->.
    { apply not_true_iff_false. rewrite existsb_skip. intros (d & Hd & Hs%Nat.eqb_eq).
      assert (d = c) as -> by (apply (sk_disjoint _ _ Hskips d c j); [done|done|pose proof (sk_range _ _ Hskips d Hd); lia|lia]). done. }
    destruct (pv_entry _ _ _ Hinv c Hc) as (first & was & Hf & Hw & He); [unfold within; lia|]. exists was. by rewrite Hf.
Qed.

(** *** A node inside a segment *)

Lemma pm4_range_snoc i j n : nodes !! j = Some n → is_pm4 (kn_lowering n) = true → pm4_range nodes i (j - 1) → pm4_range nodes i j.
Proof using Type.
  intros Hn Hp H k Hk. destruct (decide (k = j)) as [->|]; [by exists n|]. apply H. lia.
Qed.

Lemma starts_extend j n first :
  nodes !! j = Some n → is_pm4 (kn_lowering n) = true → starts_at j (Some first) → starts_at (S j) (Some first).
Proof using Type.
  intros Hn Hp (Hlt & Hr & Hmax). cbn. rewrite Nat.sub_0_r. split; [lia|]. split; [by eapply pm4_range_snoc|].
  intros i Hi Hri. destruct (decide (i = j)); [lia|]. apply Hmax; [lia|]. intros k Hk. apply Hri. lia.
Qed.

(** The edges of a node cover what its epoch leaves open. *)
Lemma node_covered B run first j ep n edges v i a h :
  node_edges nodes ep j n = Some edges → join_edges visf edges = Some v → epoch_sane j ep → epoch_ok B run first j ep →
  length B = j → executed skips run j → first ≤ i < j → executed skips run i → nodes !! i = Some a → hazard_between a n h →
  ∃ m bd, i < m ≤ j ∧ executed skips run m ∧ (B ++ [mkBoundary v edges false]) !! m = Some bd ∧ by_split bd = false ∧
    meets visf vis (by_visibility bd) h.
Proof using Huni.
  intros Hedges Hv [Hso Hsl Hsy] [Ho Hl] Hlen Hj Hi Hei Ha (e & f & He & Hf & Hres & Hh).
  destruct (join_edges_ok visf vis Huni edges) as (v' & Hv' & Hcov & _). rewrite Hv in Hv'. injection Hv' as <-.
  assert (∀ i', (∃ e, e ∈ edges ∧ eg_hazard e = h) → i' < j → ∃ m bd, i' < m ≤ j ∧ executed skips run m ∧
    (B ++ [mkBoundary v edges false]) !! m = Some bd ∧ by_split bd = false ∧ meets visf vis (by_visibility bd) h) as Hhere.
  { intros i' (g & Hg & <-) Hlt. exists j, (mkBoundary v edges false). split; [lia|]. split; [done|]. split; [by apply list_lookup_middle|].
    split; [done|]. by apply (covers_meets _ _ Huni), Hcov. }
  assert (∀ P, issued skips B run i j P → (∀ w, vz_wait_idle w = true → P w → meets visf vis w h) →
    ∃ m bd, i < m ≤ j ∧ executed skips run m ∧
    (B ++ [mkBoundary v edges false]) !! m = Some bd ∧ by_split bd = false ∧ meets visf vis (by_visibility bd) h) as Hearlier.
  { intros P (k & bd & Hk & Hek & Hb & Hsp & Hw & HP) Himp. exists k, bd. split; [lia|]. split; [done|].
    split; [by apply lookup_app_l_Some|]. split; [done|by apply Himp]. }
  destruct (decide (h = WarPreWriter)) as [->|Hne].
  - destruct Hh as [Hvl Hvs]. destruct (Hl i a e Hi Hei Ha He Hvl) as [(l & Hr & Hle & Hsl')|His].
    + apply Hhere; [|lia]. exists (mkEdge l j WarPreWriter (re_resource f)). split; [|done].
      apply (elem_of_node_edges _ _ _ _ _ _ Hedges). exists f. split; [done|right]. unfold pre_writer_edges. rewrite Hvs, <-Hres, Hr.
      rewrite (proj2 (Nat.leb_le _ _) Hsl'), (proj2 (Nat.ltb_lt l j)) by (by eapply Hsl). by left.
    + apply (Hearlier _ His). intros w Hw Hs. apply (covers_meets _ _ Huni), covers_spec. split; [done|]. rewrite Hs, (ra_writer _ _ Huni). done.
  - destruct (Ho i Hi Hei) as [Hin|His].
    + apply Hhere; [|lia]. exists (mkEdge i j h (re_resource f)). split; [|done]. apply (elem_of_node_edges _ _ _ _ _ _ Hedges).
      exists f. split; [done|left]. exists i, a, e, h. split_and!; try done. apply elem_of_pair_hazards. by destruct h.
    + apply (Hearlier _ His). intros w _ Hs. by apply Hs.
Qed.

(** The epoch after a node. *)
Definition next_epoch (ep : plan_epoch) (j : nat) (n : KernelNode) (v : Visibility) : plan_epoch :=
  mkEpoch ((if vz_wait_idle v then [] else pe_open ep) ++ [j]) (note_loads j n (pe_loads ep))
    (if bool_decide (vz_acquire v = RungSystem) then j else pe_last_system ep).

Lemma next_sane j n ep v : epoch_sane j ep → epoch_sane (S j) (next_epoch ep j n v).
Proof using Type.
  intros [Ho Hl Hs]. split; cbn.
  - intros i [Hi| ->%list_elem_of_singleton]%elem_of_app; [|lia]. destruct (vz_wait_idle v); [by apply elem_of_nil in Hi|]. apply Ho in Hi. lia.
  - intros r l [->|Hr]%note_loads_cases; [lia|]. apply Hl in Hr. lia.
  - destruct (bool_decide _); lia.
Qed.

Lemma next_loads j n ep v r l :
  epoch_sane j ep → pe_loads ep !! r = Some l → ∃ l', l ≤ l' ∧ pe_loads (next_epoch ep j n v) !! r = Some l'.
Proof using Type.
  intros Hs Hr. cbn. rewrite note_loads_lookup. pose proof (es_loads _ _ Hs _ _ Hr). destruct (existsb _ _); eexists; (split; [|done]); lia.
Qed.

Lemma next_ok B run first j ep n edges v :
  nodes !! j = Some n → join_edges visf edges = Some v → epoch_sane j ep → epoch_ok B run first j ep → length B = j →
  executed skips run j → epoch_ok (B ++ [mkBoundary v edges false]) run first (S j) (next_epoch ep j n v).
Proof using Huni.
  intros Hn Hv Hsane Hok Hlen Hj. set (B' := B ++ [mkBoundary v edges false]).
  assert (B `prefix_of` B') as Hpre by (by apply prefix_app_r).
  assert (∀ i P, i < j → vz_wait_idle v = true → P v → issued skips B' run i (S j) P) as Hhere.
  { intros i P Hi Hw HP. exists j, (mkBoundary v edges false). split; [lia|]. split; [done|]. split; [by apply list_lookup_middle|done]. }
  destruct Hok as [Ho Hl]. split.
  - intros i Hi He. cbn. destruct (decide (i = j)) as [->|Hne]; [left; apply elem_of_app; right; by left|].
    destruct (Ho i ltac:(lia) He) as [Hin|His]; [|right; eapply issued_weaken; [exact His|lia|done]].
    destruct (vz_wait_idle v) eqn:Hw; [right|left; apply elem_of_app; by left]. apply Hhere; [lia|done|].
    intros h Hh. by eapply join_dependent.
  - intros i a e Hi He Ha Hin Hvl. destruct (decide (i = j)) as [->|Hne].
    + left. exists j. rewrite Hn in Ha. injection Ha as <-. cbn. split; [by apply note_loads_load|]. split; [done|].
      pose proof (es_system _ _ Hsane). by destruct (bool_decide _).
    + destruct (Hl i a e ltac:(lia) He Ha Hin Hvl) as [(l & Hr & Hle & Hs)|His]; [|right; eapply issued_weaken; [exact His|lia|done]].
      cbn. destruct (bool_decide_reflect (vz_acquire v = RungSystem)) as [Hsys|Hsys].
      * right. apply Hhere; [lia| |done]. destruct (join_edges_ok visf vis Huni edges) as (v' & Hv' & _ & Hiff & Hno).
        rewrite Hv in Hv'. injection Hv' as <-. apply Hiff. intros ->. by rewrite Hno in Hsys.
      * left. destruct (next_loads j n ep v _ _ Hsane Hr) as (l' & Hle' & Hr'). exists l'. split; [exact Hr'|lia].
Qed.

(** *** A step *)

Lemma pm4_one j n : nodes !! j = Some n → pm4_range nodes j j ↔ is_pm4 (kn_lowering n) = true.
Proof using Type.
  intros Hn. split.
  - intros H. destruct (H j ltac:(lia)) as (n' & Hn' & Hp). congruence.
  - intros Hp k Hk. exists n. by replace k with j by lia.
Qed.

Lemma covered_old B b j :
  length B = j → hazards_covered B j →
  (∀ run i a n h, i < j → pm4_range nodes i j → nodes !! i = Some a → nodes !! j = Some n → hazard_between a n h →
     executed skips run i → executed skips run j →
     ∃ m bd, i < m ≤ j ∧ executed skips run m ∧ (B ++ [b]) !! m = Some bd ∧ by_split bd = false ∧ meets visf vis (by_visibility bd) h) →
  hazards_covered (B ++ [b]) (S j).
Proof using Type.
  intros Hlen Hold Hnew run i k a n h Hk Hr Ha Hn Hh Hi Hek. destruct (decide (k = j)) as [->|Hne]; [eapply Hnew; try done; lia|].
  destruct (Hold run i k a n h) as (m & bd & Hm & Hem & Hb & Hs & Hc); [lia|done..|]. exists m, bd. split_and!; try done; try lia.
  by apply lookup_app_l_Some.
Qed.

Lemma segments_keep segs start start' j n :
  segments_ok segs start j → nodes !! j = Some n → is_pm4 (kn_lowering n) = true →
  (∀ f, start = Some f → start' = Some f) → (∃ f, start' = Some f ∧ f ≤ j) → segments_ok segs start' (S j).
Proof using Type.
  intros [Hall Hin] Hn Hp Hkeep (f & Hf & Hle). split; [done|]. intros k Hk Hr. destruct (decide (k = j)) as [->|Hne]; [right; by exists f|].
  destruct (Hin k ltac:(lia) Hr) as [?|(f' & Hf' & Hle')]; [by left|right]. exists f'. split; [by apply Hkeep|done].
Qed.

Lemma segment_closed j first : j ≤ length nodes → starts_at j (Some first) → ¬ pm4_range nodes j j → segment_ok (mkSegment first j).
Proof using Type.
  intros Hj (Hlt & Hr & Hmax) Hno. split; cbn; [lia|done| |done]. intros i Hi Hri. apply Nat.le_antisymm; [done|]. apply Hmax; [lia|done].
Qed.

(** The segments when the one that is open ends at [j]. *)
Definition close (segs : list Segment) (start : option nat) (j : nat) : list Segment :=
  match start with Some first => segs ++ [mkSegment first j] | None => segs end.

Lemma segments_close segs start j :
  segments_ok segs start j → j ≤ length nodes → starts_at j start → ¬ pm4_range nodes j j → segments_ok (close segs start j) None (S j).
Proof using Type.
  intros [Hall Hin] Hj Hst Hno. split.
  - destruct start as [first|]; [|done]. apply Forall_app. split; [done|]. apply Forall_singleton. by apply segment_closed.
  - intros k Hk Hr. left. destruct (decide (k = j)) as [->|Hne]; [done|]. destruct (Hin k ltac:(lia) Hr) as [(sg & Hsg & Hb)|(f & -> & Hle)].
    + exists sg. split; [|done]. unfold close. destruct start; [apply elem_of_app; by left|done].
    + exists (mkSegment f j). split; [apply elem_of_app; right; by left|cbn; lia].
Qed.

Lemma no_range_at j n i : nodes !! j = Some n → is_pm4 (kn_lowering n) = false → i ≤ j → ¬ pm4_range nodes i j.
Proof using Type. intros Hn Hp Hi H. destruct (H j ltac:(lia)) as (n' & Hn' & Hp'). congruence. Qed.

Lemma step_other j n s :
  plan_inv within j s → nodes !! j = Some n → is_pm4 (kn_lowering n) = false →
  let s1 := enter_body skips s j in
  plan_inv before (S j) (mkPlanState (ps_boundaries s1 ++ [mkBoundary BARRIER [] true]) (close (ps_segments s1) (ps_segment_start s1) j)
    (ps_rows_used s1) (ps_epoch s1) None (ps_entry s1)).
Proof using Hskips.
  intros [Hlen Hrange [Hso Hsl Hsy] Hstart Hdone Hsegs Hep Hentry] Hn Hp. cbn zeta. destruct (enter_same j s) as (HB & Hsg & He & Hst).
  pose proof (lookup_lt_Some _ _ _ Hn) as Hlt. split; cbn [ps_boundaries ps_segments ps_epoch ps_segment_start ps_entry]; rewrite ?HB, ?Hsg, ?He, ?Hst.
  - rewrite length_app. cbn. lia.
  - lia.
  - split; [intros i Hi; apply Hso in Hi; lia|intros r l Hr; apply Hsl in Hr; lia|lia].
  - right. rewrite Nat.sub_succ, Nat.sub_0_r. by eapply no_range_at.
  - apply covered_old; [done|done|]. intros run i a n' h Hi Hr. by apply (no_range_at j n i Hn Hp) in Hr; [|lia].
  - apply segments_close; [done|lia|done|]. by eapply no_range_at.
  - done.
  - intros c Hc [H1 H2]. pose proof (sk_pm4 _ _ Hskips c j n Hc ltac:(lia) Hn). congruence.
Qed.

Lemma step_first j n s :
  plan_inv within j s → nodes !! j = Some n → is_pm4 (kn_lowering n) = true → ps_segment_start s = None →
  let s1 := enter_body skips s j in
  plan_inv before (S j) (mkPlanState (ps_boundaries s1 ++ [mkBoundary (if 0 <? j then BARRIER else ENTRY) [] true]) (ps_segments s1)
    (ps_rows_used s1) (mkEpoch [j] (note_loads j n ∅) j) (Some j) (ps_entry s1)).
Proof using Hskips.
  intros Hinv Hn Hp Hnone. cbn zeta. pose proof (λ c Hc, enter_entry j s c Hinv Hc) as Hent.
  destruct Hinv as [Hlen Hrange [Hso Hsl Hsy] Hstart Hdone Hsegs Hep Hentry]. destruct (enter_same j s) as (HB & Hsg & He & Hst).
  pose proof (lookup_lt_Some _ _ _ Hn) as Hlt. rewrite Hnone in Hstart.
  assert (∀ i, i < j → ¬ pm4_range nodes i j) as Hno.
  { intros i Hi Hr. destruct Hstart as [->|Hstart]; [lia|]. apply Hstart. intros k Hk. apply Hr. lia. }
  split; cbn [ps_boundaries ps_segments ps_epoch ps_segment_start ps_entry]; rewrite ?HB, ?Hsg, ?He, ?Hst.
  - rewrite length_app. cbn. lia.
  - lia.
  - split; cbn.
    + intros i ->%list_elem_of_singleton. lia.
    + intros r l [->|Hr]%note_loads_cases; [lia|]. by rewrite lookup_empty in Hr.
    + lia.
  - cbn. rewrite Nat.sub_0_r. split; [lia|]. split; [by eapply pm4_one|]. intros i Hi Hr. destruct (decide (i = j)); [lia|].
    exfalso. apply (Hno i); [lia|done].
  - apply covered_old; [done|done|]. intros run i a n' h Hi Hr. by apply Hno in Hr.
  - eapply segments_keep; [done|done|done|by rewrite Hnone|by exists j].
  - intros first run [= <-] _. split.
    + intros i Hi _. left. apply list_elem_of_singleton. lia.
    + intros i a e Hi _ Ha Hin Hv. left. assert (i = j) as -> by lia. rewrite Hn in Ha. injection Ha as <-.
      exists j. cbn. split; [by apply note_loads_load|]. done.
  - intros c Hc [H1 H2]. destruct (Hent c Hc ltac:(lia)) as (was & Hwas & Hcase). rewrite Hnone in Hcase. destruct Hcase as [Hs ->].
    exists j, (mkEpoch [] ∅ j). split; [done|]. split; [done|]. split; rewrite ?Hs; [lia| | |by intros r l Hr].
    + split; [by intros i Hi%elem_of_nil|by intros r l Hr|cbn; lia].
    + intros run. split; intros; lia.
Qed.

Lemma step_inner j n s first :
  plan_inv within j s → nodes !! j = Some n → is_pm4 (kn_lowering n) = true → ps_segment_start s = Some first →
  ∃ s', plan_inner nodes visf (enter_body skips s j) j n = Some s' ∧ plan_inv before (S j) s'.
Proof using Huni Hskips.
  intros Hinv Hn Hp Hfirst. pose proof (λ c Hc, enter_entry j s c Hinv Hc) as Hent.
  destruct Hinv as [Hlen Hrange Hsane Hstart Hdone Hsegs Hep Hentry]. destruct (enter_same j s) as (HB & Hsg & He & Hst).
  pose proof (lookup_lt_Some _ _ _ Hn) as Hlt. rewrite Hfirst in Hstart. unfold plan_inner. rewrite He, HB, Hsg, Hst.
  destruct (node_edges_Some nodes (ps_epoch s) j n) as [edges Hedges]; [intros i Hi; apply (es_open _ _ Hsane) in Hi; lia|].
  destruct (join_edges_ok visf vis Huni edges) as (v & Hv & _). rewrite Hedges. cbn [mbind option_bind]. rewrite Hv. cbn [mbind option_bind].
  eexists. split; [done|]. fold (next_epoch (ps_epoch s) j n v). pose proof (next_sane j n _ v Hsane) as Hnext.
  assert (∀ run, executed skips run j → epoch_ok (ps_boundaries s) run first j (ps_epoch s)) as Hok.
  { intros run Hj. apply Hep; [done|]. intros c Hc [H1 H2]. apply Hj; [done|lia]. }
  split; cbn [ps_boundaries ps_segments ps_epoch ps_segment_start ps_entry]; rewrite ?Hfirst.
  - rewrite length_app. cbn. lia.
  - lia.
  - done.
  - by eapply starts_extend.
  - apply covered_old; [done|done|]. intros run i a n' h Hi Hr Ha Hn' Hh Hei Hej. rewrite Hn in Hn'. injection Hn' as <-.
    apply (node_covered _ run first _ (ps_epoch s) n edges v i a h); try done; [by apply Hok|]. split; [|lia]. destruct Hstart as (_ & _ & Hmax). apply Hmax; [lia|].
    intros k Hk. apply Hr. lia.
  - eapply segments_keep; [done|done|done|by rewrite Hfirst|]. exists first. destruct Hstart. split; [done|lia].
  - intros first' run [= <-] Hin. assert (executed skips run j) as Hj by (intros c Hc Hcj; apply Hin; [done|unfold before; lia]).
    apply next_ok; try done. by apply Hok.
  - intros c Hc [H1 H2]. destruct (Hent c Hc ltac:(lia)) as (was & Hwas & Hcase). rewrite Hfirst in Hcase. exists first, was.
    split; [done|]. split; [done|]. eapply entry_extend; [exact Hcase|by apply prefix_app_r|]. intros r l Hr. by apply next_loads.
Qed.

Lemma step_ok j n s :
  plan_inv before j s → nodes !! j = Some n → ∃ s', plan_step nodes skips visf s (j, n) = Some s' ∧ plan_inv before (S j) s'.
Proof using Huni Hskips.
  intros Hinv%leave_ok Hn. unfold plan_step. destruct (enter_same j (leave_body skips s j)) as (_ & _ & _ & Hst).
  destruct (is_pm4 (kn_lowering n)) eqn:Hp; cbn [negb].
  - rewrite Hst. destruct (ps_segment_start (leave_body skips s j)) as [first|] eqn:Hfirst; [by eapply step_inner|].
    eexists. split; [done|]. by apply step_first.
  - eexists. split; [done|]. by apply (step_other j n).
Qed.

Lemma steps_ok : ∃ s, foldM (plan_step nodes skips visf) plan_start (enumerate nodes) = Some s ∧ plan_inv before (length nodes) s.
Proof using Huni Hskips.
  assert (plan_inv before 0 plan_start) as H0.
  { split; cbn; try done; [lia|split; cbn; [by intros i Hi%elem_of_nil|by intros r l Hr|lia]|by left|intros run i k a b h; lia|..].
    - split; [constructor|intros k Hk; lia].
    - intros c Hc [H1 H2]. lia. }
  assert (∀ l j s, drop j nodes = l → plan_inv before j s →
    ∃ s', foldM (plan_step nodes skips visf) s (zip (seq j (length l)) l) = Some s' ∧ plan_inv before (j + length l) s') as Hgen.
  { induction l as [|n l IH]; intros j s Hd Hs; cbn [length seq zip zip_with foldM]; [exists s; by rewrite Nat.add_0_r|].
    assert (nodes !! j = Some n) as Hn by (rewrite <-(Nat.add_0_r j), <-lookup_drop, Hd; done).
    destruct (step_ok j n s Hs Hn) as (s1 & -> & Hs1). cbn [mbind option_bind]. rewrite <-Nat.add_succ_comm. apply IH; [|done].
    rewrite <-Nat.add_1_r, <-drop_drop, Hd. done. }
  destruct (Hgen nodes 0 plan_start eq_refl H0) as (s & Hs & Hinv). exists s. split; [exact Hs|exact Hinv].
Qed.
End inv.

(** ** The plan *)

Lemma no_range_end nodes i : ¬ pm4_range nodes i (length nodes) ∨ length nodes < i.
Proof.
  destruct (decide (length nodes < i)) as [|Hi]; [by right|left]. intros H. destruct (H (length nodes) ltac:(lia)) as (n & Hn & _).
  apply lookup_lt_Some in Hn. lia.
Qed.

(** The plan of a program whose bodies can be skipped. *)
Record plan_ok (program : KernelProgram) (visf : Hazard → option Visibility) (vis : Hazard → Visibility) (plan : Pm4Plan) : Prop := {
  pk_skips : pm_skips plan = skips_of program;
  pk_length : length (pm_boundaries plan) = length (kp_nodes program);
  pk_segments : Forall (segment_ok (kp_nodes program)) (pm_segments plan);
  pk_nodes k n : kp_nodes program !! k = Some n → is_pm4 (kn_lowering n) = true → ∃ sg, sg ∈ pm_segments plan ∧ sg_first sg ≤ k < sg_end sg;
  pk_covered : hazards_covered (kp_nodes program) (skips_of program) visf vis (pm_boundaries plan) (length (kp_nodes program))
}.

Lemma boundary_plan_ok program table policy vis :
  skips_ok (kp_nodes program) (skips_of program) → rows_ask (visibility_of table policy) vis →
  ∃ plan, boundary_plan program table policy = Some plan ∧ plan_ok program (visibility_of table policy) vis plan.
Proof.
  intros Hskips Huni. destruct (steps_ok _ _ _ _ Huni Hskips) as (s & Hs & Hinv). unfold boundary_plan. rewrite Hs. cbn [mbind option_bind].
  eexists. split; [done|]. destruct Hinv as [Hlen Hrange _ Hstart Hdone Hsegs _ _].
  assert (¬ pm4_range (kp_nodes program) (length (kp_nodes program)) (length (kp_nodes program))) as Hno.
  { destruct (no_range_end (kp_nodes program) (length (kp_nodes program))); [done|lia]. }
  destruct (segments_close _ _ _ _ Hsegs Hrange Hstart Hno) as [Hall Hin]. split; cbn; [done|done|exact Hall| |done].
  intros k n Hn Hp. destruct (Hin k) as [Hk|(f & ? & _)]; [apply lookup_lt_Some in Hn; lia|by eapply pm4_one|exact Hk|done].
Qed.

(** ** What is executed *)

(** The commands of a run: at the start of a body the predicate either lets the
    body execute or drops it up to its end. *)
Definition is_skip (op : Pm4Op) : Prop := match op with OpSkipBegin _ | OpSkipEnd => True | _ => False end.

Inductive executes : list Pm4Op → list Pm4Op → Prop :=
| ex_nil : executes [] []
| ex_op op l t : ¬ is_skip op → executes l t → executes (op :: l) (op :: t)
| ex_take flag l t : executes l t → executes (OpSkipBegin flag :: l) t
| ex_end l t : executes l t → executes (OpSkipEnd :: l) t
| ex_drop flag body l t : OpSkipEnd ∉ body → executes l t → executes (OpSkipBegin flag :: body ++ OpSkipEnd :: l) t.

Lemma executes_plain l k t : Forall (λ op, ¬ is_skip op) l → executes (l ++ k) t → ∃ t', t = l ++ t' ∧ executes k t'.
Proof.
  revert t. induction l as [|op l IH]; intros t Hl H; [by exists t|]. apply Forall_cons in Hl as [Hop Hl].
  inversion H as [|op' l' t0 Hs Hr|f l' t0 Hr|l' t0 Hr|f b l' t0 Hb Hr]; subst; try (cbn in Hop; tauto).
  destruct (IH _ Hl Hr) as (t' & -> & Hk). by exists t'.
Qed.

Lemma executes_begin flag l t :
  executes (OpSkipBegin flag :: l) t →
  executes l t ∨ ∃ body l', (OpSkipEnd ∉ body) ∧ l = body ++ OpSkipEnd :: l' ∧ executes l' t.
Proof.
  intros H. inversion H as [|op l' t0 Hs Hr|f l' t0 Hr|l' t0 Hr|f b l' t0 Hb Hr]; subst; [cbn in Hs; tauto|by left|].
  right. by exists b, l'.
Qed.

Lemma executes_end l t : executes (OpSkipEnd :: l) t → executes l t.
Proof. intros H. inversion H as [|op l' t0 Hs Hr|f l' t0 Hr|l' t0 Hr|f b l' t0 Hb Hr]; subst; [cbn in Hs; tauto|done]. Qed.

Lemma split_first {A} (x : A) b l b' l' : x ∉ b → x ∉ b' → b ++ x :: l = b' ++ x :: l' → l = l'.
Proof.
  revert b'. induction b as [|y b IH]; intros [|z b'] Hb Hb' H; cbn in H.
  - by injection H.
  - injection H as -> H. exfalso. apply Hb'. by left.
  - injection H as -> H. exfalso. apply Hb. by left.
  - injection H as -> H. rewrite elem_of_cons in Hb, Hb'. apply (IH b'); tauto.
Qed.

(** The element after a prefix that the other split does not cut. *)
Lemma split_next {A} (x y : A) p l t r :
  y ∉ p → p ++ x :: l = t ++ y :: r → (t = p ∧ x = y ∧ l = r) ∨ ∃ t', t = p ++ x :: t' ∧ l = t' ++ y :: r.
Proof.
  revert t. induction p as [|z p IH]; intros [|w t] Hp H; cbn in H; injection H as Hx H.
  - by left.
  - right. exists t. by subst.
  - subst. exfalso. apply Hp. by left.
  - subst. rewrite elem_of_cons in Hp. destruct (IH t) as [(-> & -> & ->)|(t' & -> & ->)]; [tauto|done|by left|]. right. by exists t'.
Qed.

Definition begin_ops (skips : list Conditional) (k : nat) : list Pm4Op :=
  match List.find (λ c, cd_start c =? k) skips with Some c => [OpSkipBegin (cd_flag c)] | None => [] end.
Definition end_ops (skips : list Conditional) (k : nat) : list Pm4Op :=
  if existsb (λ c, cd_end c =? k + 1) skips then [OpSkipEnd] else [].
Definition own_ops (B : list Boundary) (first k : nat) : list Pm4Op :=
  match B !! k with
  | Some b => (if negb (k =? first) && negb (vis_is_empty (by_visibility b)) then [OpBoundary (by_visibility b)] else []) ++ [OpDispatch k]
  | None => []
  end.
Definition executed_b (skips : list Conditional) (run : nat → bool) (k : nat) : bool :=
  forallb (λ c, negb ((cd_start c <=? k) && (k <? cd_end c)) || run (cd_start c)) skips.

Lemma executed_b_spec skips run k : executed_b skips run k = true ↔ executed skips run k.
Proof.
  unfold executed_b, executed. rewrite forallb_forall. split.
  - intros H c Hc Hk. apply list_elem_of_In in Hc. specialize (H c Hc). apply orb_true_iff in H as [H|H]; [|done].
    apply negb_true_iff, andb_false_iff in H as [H%Nat.leb_gt|H%Nat.ltb_ge]; lia.
  - intros H c Hc%list_elem_of_In. apply orb_true_iff. destruct (decide (cd_start c ≤ k < cd_end c)) as [Hk|Hk]; [right; by apply H|left].
    apply negb_true_iff, andb_false_iff. rewrite Nat.leb_gt, Nat.ltb_ge. lia.
Qed.

Lemma own_plain B first k : Forall (λ op, ¬ is_skip op) (own_ops B first k).
Proof. unfold own_ops. destruct (B !! k); [|constructor]. destruct (_ && _); repeat constructor; cbn; tauto. Qed.

Section trace.
Context (nodes : list KernelNode) (skips : list Conditional) (B : list Boundary) (first e : nat).
Context (Hskips : skips_ok nodes skips) (Hinside : ∀ c, c ∈ skips → cd_start c < e → cd_end c ≤ e).

Definition flat_ops (k : nat) : list Pm4Op := begin_ops skips k ++ own_ops B first k ++ end_ops skips k.
Definition trace (run : nat → bool) (k : nat) : list Pm4Op := if executed_b skips run k then own_ops B first k else [].

Lemma begin_none c k : c ∈ skips → cd_start c < k < cd_end c → begin_ops skips k = [].
Proof using Hskips.
  intros Hc Hk. unfold begin_ops. destruct (List.find _ skips) as [d|] eqn:Hf; [|done]. apply find_some in Hf as [Hd%list_elem_of_In Hs%Nat.eqb_eq].
  assert (d = c) as -> by (apply (sk_disjoint _ _ Hskips d c k); [done|done|pose proof (sk_range _ _ Hskips d Hd); lia|lia]). lia.
Qed.

Lemma end_none c k : c ∈ skips → cd_start c ≤ k → k + 1 < cd_end c → end_ops skips k = [].
Proof using Hskips.
  intros Hc Hk Hlt. unfold end_ops. destruct (existsb _ skips) eqn:Hf; [|done]. apply existsb_exists in Hf as (d & Hd%list_elem_of_In & Hs%Nat.eqb_eq).
  assert (d = c) as -> by (apply (sk_disjoint _ _ Hskips d c k); [done|done|pose proof (sk_range _ _ Hskips d Hd); lia|lia]). lia.
Qed.

Lemma end_last c k : c ∈ skips → cd_end c = S k → end_ops skips k = [OpSkipEnd].
Proof using Type.
  intros Hc Hk. unfold end_ops. assert (existsb (λ c, cd_end c =? k + 1) skips = true) as ->; [|done].
  apply existsb_exists. exists c. rewrite <-list_elem_of_In, Nat.eqb_eq. split; [done|lia].
Qed.

Lemma seq_after k : k < e → seq k (e - k) = k :: seq (S k) (e - S k).
Proof using Type. intros H. replace (e - k) with (S (e - S k)) by lia. done. Qed.

(** From inside a body, the commands up to its end hold no other end. *)
Lemma body_ops c tl : c ∈ skips → cd_end c ≤ e → ∀ d k, cd_start c ≤ k → k + S d = cd_end c →
  ∃ body, (OpSkipEnd ∉ body) ∧
    (own_ops B first k ++ end_ops skips k ++ (List.concat (flat_ops <$> seq (S k) (e - S k)) ++ tl) : list Pm4Op) =
    body ++ (OpSkipEnd :: List.concat (flat_ops <$> seq (cd_end c) (e - cd_end c)) ++ tl).
Proof using Hskips.
  intros Hc He. induction d as [|d IH]; intros k Hk Hd.
  - exists (own_ops B first k). split; [|rewrite (end_last c) by (done || lia); by replace (S k) with (cd_end c) by lia].
    intros Hin. pose proof (own_plain B first k) as Hp. rewrite Forall_forall in Hp. by apply (Hp _ Hin).
  - destruct (IH (S k) ltac:(lia) ltac:(lia)) as (body & Hb & Heq). exists (own_ops B first k ++ body). split.
    + rewrite elem_of_app. intros [Hin|?]; [|done]. pose proof (own_plain B first k) as Hp. rewrite Forall_forall in Hp. by apply (Hp _ Hin).
    + rewrite (end_none c) by (done || lia). rewrite seq_after by lia. cbn [app fmap list_fmap List.concat]. unfold flat_ops at 1.
      rewrite (begin_none c) by (done || lia). cbn [app]. rewrite <-!app_assoc, Heq. done.
Qed.

Lemma trace_same run run' k : (∀ c, c ∈ skips → cd_start c ≤ k < cd_end c → run (cd_start c) = run' (cd_start c)) → trace run k = trace run' k.
Proof using Type.
  intros H. unfold trace. replace (executed_b skips run' k) with (executed_b skips run k); [done|]. apply eq_true_iff_eq.
  rewrite !executed_b_spec. split; intros He c Hc Hk; specialize (He c Hc Hk); specialize (H c Hc Hk); congruence.
Qed.

(** Dropping a body leaves the commands after it. *)
Lemma trace_drop c d run tl :
  c ∈ skips → cd_end c ≤ e → cd_start c + S d = e → (∀ s, s < cd_end c → run s = true) →
  ∃ run', (∀ s, s < cd_start c → run' s = true) ∧
    List.concat (trace run <$> seq (cd_end c) (e - cd_end c)) ++ tl = List.concat (trace run' <$> seq (cd_start c) (S d)) ++ tl.
Proof using Hskips.
  intros Hc Hce Hd Hrun. pose proof (sk_range _ _ Hskips c Hc) as Hcr. exists (λ s, negb (s =? cd_start c) && run s). split.
  { intros s Hs. rewrite (proj2 (Nat.eqb_neq _ _)) by lia. apply Hrun. lia. }
  f_equal. replace (S d) with ((cd_end c - cd_start c) + (e - cd_end c)) by lia. rewrite seq_app, fmap_app, List.concat_app.
  replace (cd_start c + (cd_end c - cd_start c)) with (cd_end c) by lia. rewrite (proj2 (List.concat_nil_Forall (trace _ <$> seq (cd_start c) _))).
  - cbn [app]. f_equal. apply list_fmap_ext. intros i k [-> Hk]%lookup_seq. apply trace_same. intros c' Hc' Hk'.
    destruct (Nat.eqb_spec (cd_start c') (cd_start c)) as [Hs|]; [|done]. exfalso. pose proof (sk_range _ _ Hskips c' Hc').
    assert (c' = c) as -> by (apply (sk_disjoint _ _ Hskips c' c (cd_start c)); [done|done|lia|lia]). lia.
  - apply Forall_forall. intros l (k & -> & Hk%elem_of_seq)%list_elem_of_fmap. unfold trace.
    destruct (executed_b skips _ k) eqn:He; [|done]. apply executed_b_spec in He. specialize (He c Hc ltac:(lia)).
    cbv beta in He. by rewrite Nat.eqb_refl in He.
Qed.

(** What executes is the commands of the nodes whose bodies are all taken. *)
Lemma executes_trace tl t : Forall (λ op, ¬ is_skip op) tl → ∀ d j, j + d = e →
  executes (List.concat (flat_ops <$> seq j d) ++ tl) t →
  ∃ run, (∀ s, s < j → run s = true) ∧ t = List.concat (trace run <$> seq j d) ++ tl.
Proof using Hskips Hinside.
  intros Htl d. revert t. induction d as [d IH] using lt_wf_ind. intros t j Hj Hex. destruct d as [|d].
  - exists (λ _, true). split; [done|]. cbn in *. rewrite <-(app_nil_r tl) in Hex. apply executes_plain in Hex as (t' & -> & Hn); [|done].
    inversion Hn; subst. by rewrite app_nil_r.
  - cbn [seq fmap list_fmap List.concat] in *. unfold flat_ops at 1 in Hex. rewrite <-!app_assoc in Hex.
    assert (∀ t,
      executes (own_ops B first j ++ end_ops skips j ++ (List.concat (flat_ops <$> seq (S j) d) ++ tl)) t →
      ∃ run, (∀ s, s < S j → run s = true) ∧ t = List.concat (trace run <$> seq j (S d)) ++ tl) as Htaken.
    { clear t Hex. intros t Hex. apply executes_plain in Hex as (t' & -> & Hex); [|apply own_plain].
      assert (executes (List.concat (flat_ops <$> seq (S j) d) ++ tl) t') as Hex'.
      { unfold end_ops in Hex. destruct (existsb _ skips); [by apply executes_end|done]. }
      destruct (IH d ltac:(lia) _ (S j) ltac:(lia) Hex') as (run & Hrun & ->). exists run. split; [done|].
      cbn [seq fmap list_fmap List.concat]. unfold trace at 2. assert (executed_b skips run j = true) as ->; [|by rewrite app_assoc].
      apply executed_b_spec. intros c Hc Hk. apply Hrun. lia. }
    unfold begin_ops in Hex. destruct (List.find _ skips) as [c|] eqn:Hf; cbn [app] in Hex.
    + apply find_some in Hf as [Hc%list_elem_of_In Hs%Nat.eqb_eq]. pose proof (sk_range _ _ Hskips c Hc) as Hcr.
      pose proof (Hinside c Hc ltac:(lia)) as Hce.
      apply executes_begin in Hex as [Hr|(b & l' & Hb & Heq & Hr)].
      * destruct (Htaken t Hr) as (run & Hrun & ->). exists run. split; [|done]. intros s Hlt. apply Hrun. lia.
      * rewrite <-Hs in *. destruct (body_ops c tl Hc Hce (cd_end c - S (cd_start c)) (cd_start c) ltac:(lia) ltac:(lia)) as (body & Hbody & Hsplit).
        replace (e - S (cd_start c)) with d in Hsplit by lia. rewrite Hsplit in Heq. apply split_first in Heq as <-; [|done..].
        destruct (IH (e - cd_end c) ltac:(lia) _ (cd_end c) ltac:(lia) Hr) as (run & Hrun & ->). by apply trace_drop.
    + destruct (Htaken t Hex) as (run & Hrun & ->). exists run. split; [|done]. intros s Hlt. apply Hrun. lia.
Qed.

(** *** Dispatches of a trace *)

Definition pre_ops (k : nat) : list Pm4Op :=
  match B !! k with
  | Some b => if negb (k =? first) && negb (vis_is_empty (by_visibility b)) then [OpBoundary (by_visibility b)] else []
  | None => []
  end.

Lemma own_pre k : k < length B → own_ops B first k = pre_ops k ++ [OpDispatch k].
Proof using Type. intros [b Hb]%lookup_lt_is_Some. unfold own_ops, pre_ops. by rewrite Hb. Qed.

Lemma pre_no_dispatch k i : OpDispatch i ∉ pre_ops k.
Proof using Type.
  unfold pre_ops. destruct (B !! k) as [b|]; [|apply not_elem_of_nil]. destruct (_ && _); [|apply not_elem_of_nil].
  by intros ?%list_elem_of_singleton.
Qed.

(** A dispatch splits the trace at its node. *)
Lemma trace_split tl run : (∀ i, OpDispatch i ∉ tl) → ∀ d j t1 i r, j + d ≤ length B →
  List.concat (trace run <$> seq j d) ++ tl = t1 ++ OpDispatch i :: r →
  j ≤ i < j + d ∧ executed skips run i ∧ t1 = List.concat (trace run <$> seq j (i - j)) ++ pre_ops i ∧
  r = List.concat (trace run <$> seq (S i) (j + d - S i)) ++ tl.
Proof using Type.
  intros Htl d. induction d as [|d IH]; intros j t1 i r Hd Heq; cbn [seq fmap list_fmap List.concat app] in Heq.
  { exfalso. apply (Htl i). rewrite Heq. apply elem_of_app. right. by left. }
  rewrite <-app_assoc in Heq. unfold trace at 1 in Heq. destruct (executed_b skips run j) eqn:He.
  - rewrite own_pre, <-app_assoc in Heq by lia. cbn [app] in Heq.
    apply split_next in Heq as [(-> & [= ->] & <-)|(t' & -> & Heq)]; [| |apply pre_no_dispatch].
    + split; [lia|]. split; [by apply executed_b_spec|]. rewrite Nat.sub_diag. split; [done|]. by replace (i + S d - S i) with d by lia.
    + apply IH in Heq as (Hi & Hei & -> & ->); [|lia]. split; [lia|]. split; [done|]. replace (i - j) with (S (i - S j)) by lia.
      cbn [seq fmap list_fmap List.concat]. unfold trace at 2. rewrite He, own_pre, <-!app_assoc by lia. split; [done|].
      by replace (S j + d - S i) with (j + S d - S i) by lia.
  - apply IH in Heq as (Hi & Hei & -> & ->); [|lia]. split; [lia|]. split; [done|]. replace (i - j) with (S (i - S j)) by lia.
    cbn [seq fmap list_fmap List.concat]. unfold trace at 2. rewrite He. split; [done|].
    by replace (S j + d - S i) with (j + S d - S i) by lia.
Qed.
End trace.

(** ** Building conditionals *)

Lemma skips_ok_sub nodes cs cs' : skips_ok nodes cs → (∀ c, c ∈ cs' → c ∈ cs) → skips_ok nodes cs'.
Proof.
  intros [Hr Hd Hp] Hsub. split.
  - intros c Hc. by apply Hr, Hsub.
  - intros c d k Hc Hd'. apply Hd; by apply Hsub.
  - intros c k n Hc. by apply Hp, Hsub.
Qed.

Lemma overlap_spec c d : bodies_overlap c d = true ↔ cd_start c < cd_end d ∧ cd_start d < cd_end c.
Proof. unfold bodies_overlap. by rewrite andb_true_iff, !Nat.ltb_lt. Qed.

Lemma insert_perm c cs : insert_conditional c cs ≡ₚ c :: cs.
Proof. unfold insert_conditional. rewrite <-Permutation_middle, take_drop. done. Qed.

Lemma foldE_each {E A} (f : A → exec E unit) l : foldE (λ _ x, f x) tt l = Done tt ↔ ∀ x, x ∈ l → f x = Done tt.
Proof.
  induction l as [|x l IH]; cbn [foldE]; [split; [by intros _ x Hx%elem_of_nil|done]|]. split.
  - intros ([] & Hx & Hl)%bind_Done_inv y [->|Hy]%elem_of_cons; [done|by apply IH].
  - intros H. rewrite (H x) by (by left). cbn. apply IH. intros y Hy. apply H. by right.
Qed.

Lemma check_body_pm4 c i n : check_body_node c (i, n) = Done tt → is_pm4 (kn_lowering n) = true.
Proof. unfold check_body_node. by destruct (is_pm4 (kn_lowering n)). Qed.

Lemma add_conditional_ok program c program' :
  add_conditional program c = Done program' → skips_ok (kp_nodes program) (kp_conditionals program) →
  kp_nodes program' = kp_nodes program ∧ skips_ok (kp_nodes program') (kp_conditionals program').
Proof.
  intros Hadd [Hr Hd Hp]. unfold add_conditional in Hadd. destruct (_ || _) eqn:Hrange in Hadd; [done|].
  apply orb_false_iff in Hrange as [H1%Nat.leb_gt H2%Nat.ltb_ge]. destruct (List.find _ _) as [?|] eqn:Hfind; [done|].
  destruct (match kp_resources program !! cd_flag c with Some b => _ | None => _ end); [done|]. apply bind_Done_inv in Hadd as ([] & Hbody & Hadd).
  destruct (_ && _); [done|]. injection Hadd as <-. cbn. split; [done|].
  assert (∀ d k, d ∈ kp_conditionals program → cd_start c ≤ k < cd_end c → cd_start d ≤ k < cd_end d → False) as Hdis.
  { intros d k Hin Hk1 Hk2. apply list_elem_of_In in Hin. pose proof (find_none _ _ Hfind d Hin) as Hno.
    apply not_true_iff_false in Hno. apply Hno, overlap_spec. lia. }
  split; intros *; rewrite !(insert_perm c), ?elem_of_cons.
  - intros [->|Hin]; [lia|by apply Hr].
  - intros [->|Hc1] [->|Hc2] Hk1 Hk2; [done| | |by eapply Hd]; exfalso; eapply Hdis; done.
  - intros [->|Hin] Hk Hn; [|by eapply Hp]. apply check_body_pm4 with c (k - cd_start c).
    apply (proj1 (foldE_each _ _) Hbody). apply elem_of_enumerate. rewrite lookup_take_lt by lia. rewrite lookup_drop.
    by replace (cd_start c + (k - cd_start c)) with k by lia.
Qed.

(** ** Tables *)

(** The table of an architecture, with any receipts attached so far. *)
Inductive arch_table (arch : rstr) : CacheTable → Prop :=
| at_base t : table_for_arch arch = Some t → arch_table arch t
| at_receipts t probe source min_trials : arch_table arch t → arch_table arch (attach_receipts t probe source min_trials).1.

Definition plain_row (row : CacheRow) : Hazard * Visibility := (cr_hazard row, cr_visibility row).

Lemma attach_rows_plain probe source min_trials rows : plain_row <$> (attach_rows probe source min_trials rows).1 = plain_row <$> rows.
Proof.
  induction rows as [|row rows IH]; cbn [attach_rows]; [done|]. destruct (row_evidence _ _ _ _ _) as [ev|]; [|done].
  destruct (attach_rows probe source min_trials rows) as [rows' r]. cbn [fst fmap list_fmap] in *. rewrite IH. by destruct (_ =? _).
Qed.

Definition base_rows : list (Hazard * Visibility) :=
  [(Raw, dependent); (War, dependent); (Waw, dependent); (WarPreWriter, mkVisibility true RungSystem true)].

Lemma arch_table_rows arch t : arch_table arch t → plain_row <$> ct_rows t = base_rows.
Proof.
  induction 1 as [t Ht|t probe source n _ IH].
  - unfold table_for_arch in Ht. destruct (_ || _); [|done]. by injection Ht as <-.
  - unfold attach_receipts. destruct (negb _); [done|]. pose proof (attach_rows_plain probe source n (ct_rows t)) as H.
    destruct (attach_rows _ _ _ _) as [rows r]. cbn in *. congruence.
Qed.

(** Every hazard has a row, which asks what its hazard takes or a system acquire. *)
Lemma table_rows_ask arch t policy : arch_table arch t →
  rows_ask (visibility_of t policy) (λ h, default no_visibility (visibility_of t policy h)) ∧
  (policy = TierD → ∀ h, visibility_of t policy h = Some (own_visibility h)).
Proof.
  intros Ht%arch_table_rows. destruct t as [a rows]. cbn in Ht.
  destruct rows as [|[h1 v1 c1] [|[h2 v2 c2] [|[h3 v3 c3] [|[h4 v4 c4] [|]]]]]; try done. injection Ht as -> -> -> -> -> -> -> ->.
  split; [|intros ->; by intros []]. destruct policy, c1, c2, c3, c4; split; try intros []; done.
Qed.

(** ** Commands *)

Lemma add_conditionals_ok program cs program' :
  kp_conditionals program = [] → foldE add_conditional program cs = Done program' →
  kp_nodes program' = kp_nodes program ∧ skips_ok (kp_nodes program') (kp_conditionals program').
Proof.
  intros Hnil Hadd. apply (foldE_Done_inv (λ _ p, kp_nodes p = kp_nodes program ∧ skips_ok (kp_nodes p) (kp_conditionals p)) _ _ _ _) in Hadd; [done| |].
  - split; [done|]. rewrite Hnil. split; [by intros c Hc%elem_of_nil|by intros c d k Hc%elem_of_nil|by intros c k n Hc%elem_of_nil].
  - intros _ c _ p p' _ [Hn Hs] [Hn' Hs']%add_conditional_ok; [|done]. split; [by rewrite Hn'|done].
Qed.

Lemma skips_of_ok program : skips_ok (kp_nodes program) (kp_conditionals program) → skips_ok (kp_nodes program) (skips_of program).
Proof.
  intros H. eapply skips_ok_sub; [exact H|]. intros c Hc. unfold skips_of in Hc. rewrite list_elem_of_In, filter_In in Hc.
  apply list_elem_of_In. tauto.
Qed.

(** The receipts count for all rows or for none. *)
Definition receipts_agree (table : CacheTable) (policy : RowPolicy) : Prop :=
  policy = TierD ∨ (∀ row, row ∈ ct_rows table → cr_receipt row = None) ∨ (∀ row, row ∈ ct_rows table → is_Some (cr_receipt row)).

Lemma agree_asks_least arch t policy h : arch_table arch t → receipts_agree t policy → asks_least (visibility_of t policy) h.
Proof.
  intros Ht%arch_table_rows Hagree. destruct t as [a rows]. cbn in Ht.
  destruct rows as [|[h1 v1 c1] [|[h2 v2 c2] [|[h3 v3 c3] [|[h4 v4 c4] [|]]]]]; try done. injection Ht as -> -> -> -> -> -> -> ->.
  destruct (decide (h = WarPreWriter)) as [|Hne]; [by left|right]. intros h' v v' Hne'. unfold receipts_agree in Hagree. cbn [ct_rows] in Hagree.
  rewrite <-!Forall_forall in Hagree. unfold visibility_of.
  destruct Hagree as [->|[Hnone|Hall]]; [|rewrite !Forall_cons in Hnone; cbn in Hnone; destruct Hnone as (-> & -> & -> & -> & _)
    |rewrite !Forall_cons in Hall; cbn in Hall; destruct Hall as ([? ->] & [? ->] & [? ->] & [? ->] & _)];
    try destruct policy; destruct h, h'; try done; by intros [= <-] [= <-].
Qed.

Section commands.
Context (program : KernelProgram) (visf : Hazard → option Visibility) (vis : Hazard → Visibility) (plan : Pm4Plan) (sg : Segment).
Context (Hskips : skips_ok (kp_nodes program) (skips_of program)) (Hplan : plan_ok program visf vis plan) (Hsg : sg ∈ pm_segments plan).
Local Abbreviation B := (pm_boundaries plan).
Local Abbreviation flat := (flat_ops (skips_of program) B (sg_first sg)).

Lemma sg_ok : segment_ok (kp_nodes program) sg.
Proof using Hplan Hsg. pose proof (pk_segments _ _ _ _ Hplan) as H. rewrite Forall_forall in H. by apply H. Qed.

Lemma sg_inside c : c ∈ skips_of program → cd_start c < sg_end sg → cd_end c ≤ sg_end sg.
Proof using Hskips Hplan Hsg.
  intros Hc Hlt. destruct (decide (cd_end c ≤ sg_end sg)) as [|Hgt]; [done|exfalso]. apply (sm_right _ _ sg_ok). intros k Hk.
  replace k with (sg_end sg) by lia. pose proof (sk_range _ _ Hskips c Hc). destruct (lookup_lt_is_Some_2 (kp_nodes program) (sg_end sg)) as [n Hn]; [lia|].
  exists n. split; [done|]. eapply sk_pm4; [exact Hskips|exact Hc| |exact Hn]. lia.
Qed.

Lemma segment_flat :
  segment_ops plan sg = Some (OpEntry :: List.concat (flat <$> seq (sg_first sg) (sg_end sg - sg_first sg)) ++ [OpExit]).
Proof using Hplan Hsg.
  unfold segment_ops. rewrite (proj2 (mapM_Some _ _ (flat <$> seq (sg_first sg) (sg_end sg - sg_first sg)))); [done|].
  apply Forall2_fmap_r, Forall_Forall2_diag, Forall_forall. intros k Hk%elem_of_seq. pose proof (sm_range _ _ sg_ok).
  destruct (lookup_lt_is_Some_2 B k) as [b Hb]; [rewrite (pk_length _ _ _ _ Hplan); lia|].
  unfold compose, node_ops, flat_ops, own_ops. rewrite Hb, (pk_skips _ _ _ _ Hplan). cbn [mbind option_bind]. rewrite <-app_assoc. done.
Qed.

(** A run dispatches nodes of the segment. *)
Lemma dispatched_pm4 ops t t1 i r :
  segment_ops plan sg = Some ops → executes ops t → t = t1 ++ OpDispatch i :: r →
  ∃ n, kp_nodes program !! i = Some n ∧ is_pm4 (kn_lowering n) = true.
Proof using Hskips Hplan Hsg.
  rewrite segment_flat. intros [= <-] Hex ->. pose proof sg_ok as Hok. pose proof (sm_range _ _ Hok) as Hr.
  pose proof (pk_length _ _ _ _ Hplan) as Hlen.
  apply (executes_plain [OpEntry]) in Hex as (t' & Heq & Hex); [|by apply Forall_singleton; cbn; tauto].
  apply (executes_trace (kp_nodes program) _ _ _ (sg_end sg) Hskips sg_inside) in Hex as (run & _ & ->); [|by apply Forall_singleton; cbn; tauto|lia].
  destruct t1 as [|op t1]; [done|]. injection Heq as _ Heq. symmetry in Heq.
  apply trace_split in Heq as (Hi & _); [|by intros x ?%list_elem_of_singleton|lia]. apply (sm_pm4 _ _ Hok). lia.
Qed.

(** Between two dispatches that conflict, the run issues a boundary that meets
    the conflict. *)
Lemma commands_covered ops t t1 i t2 k t3 a b h :
  segment_ops plan sg = Some ops → executes ops t → t = t1 ++ OpDispatch i :: t2 ++ OpDispatch k :: t3 →
  kp_nodes program !! i = Some a → kp_nodes program !! k = Some b → hazard_between a b h →
  ∃ v, OpBoundary v ∈ t2 ∧ meets visf vis v h.
Proof using Hskips Hplan Hsg.
  rewrite segment_flat. intros [= <-] Hex -> Ha Hb Hh. pose proof sg_ok as Hok. pose proof (sm_range _ _ Hok) as Hr.
  pose proof (pk_length _ _ _ _ Hplan) as Hlen.
  apply (executes_plain [OpEntry]) in Hex as (t' & Heq & Hex); [|by apply Forall_singleton; cbn; tauto].
  apply (executes_trace (kp_nodes program) _ _ _ (sg_end sg) Hskips sg_inside) in Hex as (run & _ & ->); [|by apply Forall_singleton; cbn; tauto|lia].
  assert (∀ x, OpDispatch x ∉ [OpExit]) as Hexit by (by intros x ?%list_elem_of_singleton).
  destruct t1 as [|op t1]; [done|]. injection Heq as _ Heq. symmetry in Heq.
  apply trace_split in Heq as (Hi & Hei & _ & Heq); [|done|lia]. symmetry in Heq.
  apply trace_split in Heq as (Hk & Hek & -> & _); [|done|lia].
  destruct (pk_covered _ _ _ _ Hplan run i k a b h) as (m & bd & Hm & Hem & Hbd & Hsp & Hc); try done; [lia| |].
  { intros x Hx. apply (sm_pm4 _ _ Hok). lia. }
  exists (by_visibility bd). split; [|done]. pose proof Hc as [[Hw _]%covers_spec _]. specialize (Hw ltac:(by destruct h)).
  assert (OpBoundary (by_visibility bd) ∈ pre_ops B (sg_first sg) m) as Hin.
  { unfold pre_ops. rewrite Hbd. rewrite (proj2 (Nat.eqb_neq _ _)) by lia. unfold vis_is_empty. rewrite Hw. by left. }
  apply elem_of_app. destruct (decide (m = k)) as [->|Hne]; [by right|left]. apply elem_of_concat.
  exists (own_ops B (sg_first sg) m). split; [rewrite own_pre by lia; apply elem_of_app; by left|].
  apply list_elem_of_fmap. exists m. split; [|apply elem_of_seq; lia]. unfold trace. by rewrite (proj2 (executed_b_spec _ _ _) Hem).
Qed.
End commands.

(** ** The boundaries of a built program *)

(** C16: A program whose conditionals were added one by one, under the table of an
    architecture with whatever receipts were attached, always gets a plan: one
    boundary per node, and segments that are the longest runs of PM4 nodes.
    Whatever bodies a run of a segment drops, between two dispatches of which
    the later one depends on the earlier one it issues a boundary that waits and
    acquires at inter-node scope, and for the system when the later one writes
    what the earlier one has loaded; and that acquires what the row of the
    hazard asks, unless the row of another dependent hazard asks for less.  That
    takes receipts for some rows only, under the policy that distrusts the
    others ([partial_receipts_uncovered]). *)
Theorem boundary_sound program cs program' arch table policy :
  kp_conditionals program = [] → foldE add_conditional program cs = Done program' →
  arch_table arch table →
  ∃ plan, boundary_plan program' table policy = Some plan ∧
    length (pm_boundaries plan) = length (kp_nodes program) ∧
    Forall (segment_ok (kp_nodes program)) (pm_segments plan) ∧
    (receipts_agree table policy → ∀ h, asks_least (visibility_of table policy) h) ∧
    (∀ k n, kp_nodes program !! k = Some n → is_pm4 (kn_lowering n) = true →
       ∃ sg, sg ∈ pm_segments plan ∧ sg_first sg ≤ k < sg_end sg) ∧
    ∀ sg, sg ∈ pm_segments plan → ∃ ops, segment_ops plan sg = Some ops ∧
      ∀ t t1 i t2 k t3 a b h, executes ops t → t = t1 ++ OpDispatch i :: t2 ++ OpDispatch k :: t3 →
        kp_nodes program !! i = Some a → kp_nodes program !! k = Some b → hazard_between a b h →
        ∃ v need, OpBoundary v ∈ t2 ∧ visibility_of table policy h = Some need ∧ vis_covers v (own_visibility h) = true ∧
          (asks_least (visibility_of table policy) h → vis_covers v need = true).
Proof.
  intros Hnil Hadd Harch. destruct (add_conditionals_ok _ _ _ Hnil Hadd) as [Hnodes Hconds%skips_of_ok].
  destruct (table_rows_ask _ _ policy Harch) as [Huni _]. set (vis := λ h, default no_visibility (visibility_of table policy h)) in *.
  destruct (boundary_plan_ok program' table policy vis Hconds Huni) as (plan & Hplan & Hok). rewrite <-Hnodes.
  exists plan. split; [done|]. split; [exact (pk_length _ _ _ _ Hok)|].
  split; [exact (pk_segments _ _ _ _ Hok)|]. split; [intros Hagree h; by eapply agree_asks_least|]. split; [exact (pk_nodes _ _ _ _ Hok)|].
  intros sg Hsg. eexists. split; [by eapply segment_flat|]. intros t t1 i t2 k t3 a b h Hex Ht Ha Hb Hh.
  destruct (commands_covered program' _ vis plan sg Hconds Hok Hsg _ t t1 i t2 k t3 a b h (segment_flat _ _ _ _ _ Hok Hsg) Hex Ht Ha Hb Hh)
    as (v & Hv & Hc). exists v, (vis h). split; [done|]. split; [apply (ra_some _ _ Huni)|exact Hc].
Qed.

Definition demo_node (lowering : Lowering) (effects : list RegionEffect) : KernelNode :=
  mkNode (lit "k") None (mk3 1 1 1) (mk3 32 1 1) 0 None [] [] effects lowering None None.

(** A producer, a body that may be dropped, a consumer of both, and a host node. *)
Definition demo_nodes : list KernelNode :=
  [demo_node Pm4Lowering [mkRegionEffect 0 1 [VmemStore]];
   demo_node Pm4Lowering [mkRegionEffect 0 1 [VmemLoad]; mkRegionEffect 8 2 [VmemStore]];
   demo_node Pm4Lowering [mkRegionEffect 0 1 [VmemLoad]; mkRegionEffect 8 2 [VmemLoad]; mkRegionEffect 16 1 [VmemStore]];
   demo_node HipDirect []].
Definition demo_program : KernelProgram :=
  mkKernelProgram (lit "gfx1151") [mkBinding 4096 4; mkBinding 8192 64; mkBinding 16384 64] [] demo_nodes [].
Definition demo_skip : Conditional := mkConditional 0 1 2 CpSkip.
Definition demo_table : CacheTable := default (mkTable [] []) (table_for_arch (lit "gfx1201")).
Definition demo_planned : KernelProgram := with_conditionals demo_program [demo_skip].

Lemma demo_commands :
  (plan ← boundary_plan demo_planned demo_table TierD; segment_ops plan (mkSegment 0 3)) =
  Some [OpEntry; OpDispatch 0; OpSkipBegin 0; OpBoundary dependent; OpDispatch 1; OpSkipEnd;
        OpBoundary (mkVisibility true RungSystem true); OpDispatch 2; OpExit].
Proof. vm_compute. reflexivity. Qed.

(** A run that drops the body. *)
Lemma demo_dropped :
  executes [OpEntry; OpDispatch 0; OpSkipBegin 0; OpBoundary dependent; OpDispatch 1; OpSkipEnd;
            OpBoundary (mkVisibility true RungSystem true); OpDispatch 2; OpExit]
    [OpEntry; OpDispatch 0; OpBoundary (mkVisibility true RungSystem true); OpDispatch 2; OpExit].
Proof.
  do 2 (apply ex_op; [cbn; tauto|]). apply (ex_drop 0 [OpBoundary dependent; OpDispatch 1]); [|by do 3 (apply ex_op; [cbn; tauto|]); constructor].
  by intros [?|[?|?%elem_of_nil]%elem_of_cons]%elem_of_cons.
Qed.

Lemma demo_table_ok : arch_table (lit "gfx1201") demo_table.
Proof. apply at_base. vm_compute. reflexivity. Qed.

Lemma boundary_sound_witness :
  ∃ plan, boundary_plan demo_planned demo_table TierD = Some plan ∧
    ∃ v need, OpBoundary v ∈ [OpBoundary (mkVisibility true RungSystem true)] ∧
      visibility_of demo_table TierD Waw = Some need ∧ vis_covers v need = true.
Proof.
  destruct (boundary_sound demo_program [demo_skip] demo_planned (lit "gfx1201") demo_table TierD) as (plan & Hplan & _ & _ & Hleast & _ & Hall).
  - reflexivity.
  - vm_compute. reflexivity.
  - exact demo_table_ok.
  - exists plan. split; [exact Hplan|].
    assert (mkSegment 0 3 ∈ pm_segments plan) as Hsg by (injection Hplan as <-; vm_compute; left).
    destruct (Hall _ Hsg) as (ops & Hops & Hrun).
    assert (ops = [OpEntry; OpDispatch 0; OpSkipBegin 0; OpBoundary dependent; OpDispatch 1; OpSkipEnd;
        OpBoundary (mkVisibility true RungSystem true); OpDispatch 2; OpExit]) as ->.
    { pose proof demo_commands as H. rewrite Hplan in H. cbn [mbind option_bind] in H. rewrite Hops in H. by injection H. }
    destruct (Hrun _ [OpEntry] 0 [OpBoundary (mkVisibility true RungSystem true)] 2 [OpExit]
      (demo_node Pm4Lowering [mkRegionEffect 0 1 [VmemStore]]) (demo_node Pm4Lowering [mkRegionEffect 0 1 [VmemLoad]; mkRegionEffect 8 2 [VmemLoad]; mkRegionEffect 16 1 [VmemStore]])
      Waw demo_dropped) as (v & need & Hv & Hneed & _ & Hc); [reflexivity..| |exists v, need; split; [exact Hv|]; split; [exact Hneed|]; apply Hc, Hleast; by left].
    exists (mkRegionEffect 0 1 [VmemStore]), (mkRegionEffect 16 1 [VmemStore]).
    split; [left|]. split; [right; right; left|]. split; [reflexivity|]. split; reflexivity.
Defined.

(** *** Receipts for some rows only *)

Definition partial_nodes : list KernelNode :=
  [demo_node Pm4Lowering [mkRegionEffect 0 1 [VmemStore]; mkRegionEffect 8 2 [VmemStore]];
   demo_node Pm4Lowering [mkRegionEffect 0 2 [VmemLoad]];
   demo_node Pm4Lowering [mkRegionEffect 0 1 [VmemStore]]].
Definition partial_program : KernelProgram :=
  mkKernelProgram (lit "gfx1201") [mkBinding 4096 4; mkBinding 8192 64; mkBinding 16384 64] [] partial_nodes [].
Definition partial_probe : G4Table :=
  let row name := mkG4Row name None [mkTrials (lit "wait_inter_node") 1000 0] in
  mkG4Table (lit "gfx1201") [row (lit "raw_vmem"); row (lit "raw_smem")].
Definition partial_table : CacheTable := (attach_receipts demo_table partial_probe (lit "probe") 1000).1.

(** With a receipt for the read-after-write row only, the wait before the reader
    closes the epoch of the first node, and the later write after write, whose
    row asks for a system acquire, is not covered. *)
Lemma partial_receipts_uncovered :
  arch_table (lit "gfx1201") partial_table ∧
  (plan ← boundary_plan partial_program partial_table UnreceiptedSystem; segment_ops plan (mkSegment 0 3)) =
    Some [OpEntry; OpDispatch 0; OpBoundary dependent; OpDispatch 1; OpDispatch 2; OpExit] ∧
  (a ← partial_nodes !! 0; b ← partial_nodes !! 2; Some (existsb (λ e, existsb (λ f, bool_decide (Waw ∈ pair_hazards e f)) (kn_effects b)) (kn_effects a))) = Some true ∧
  (need ← visibility_of partial_table UnreceiptedSystem Waw; Some (vis_covers dependent need)) = Some false.
Proof. split; [apply at_receipts, demo_table_ok|]. vm_compute. done. Qed.
