(* ===== verification/RailAuthor.v ===== *)
(** * Authoring kernel programs ([railgun/src/kernel.rs])

    From the receipt of a kernel to its facts ([from_record]), and from recorded
    launches with their facts to a kernel program ([author]).  [None] and
    [Panic] stand for a panic; texts of refusals are tags. *)

From stdpp Require Import gmap.
From S2P Require Import Prelude Packet RailCopy RailKernels RailBoundary.

(** ** Strings and integers *)

Fixpoint str_compare (a b : rstr) : comparison :=
  match a, b with
  | [], [] => Eq
  | [], _ :: _ => Lt
  | _ :: _, [] => Gt
  | x :: a, y :: b => match (x ?= y)%Z with Eq => str_compare a b | c => c end
  end.

(** [str::parse] of an unsigned integer of [w] bits. *)
Fixpoint parse_digits (w acc : Z) (s : rstr) : option Z :=
  match s with
  | [] => Some acc
  | c :: s =>
      if (48 <=? c)%Z && (c <=? 57)%Z then
        tens ← checked_mul w acc 10; acc ← checked_add w tens (c - 48); parse_digits w acc s
      else None
  end.

Definition parse_uint (w : Z) (s : rstr) : option Z :=
  match s with
  | [] => None
  | [c] => parse_digits w 0 [c]
  | c :: rest => if (c =? 43)%Z then parse_digits w 0 rest else parse_digits w 0 s
  end.

(** [str::split] on a character. *)
Fixpoint split_on (c : Z) (s : rstr) : list rstr :=
  match s with
  | [] => [[]]
  | x :: s =>
      if (x =? c)%Z then [] :: split_on c s
      else match split_on c s with piece :: pieces => (x :: piece) :: pieces | [] => [[x]] end
  end.

Definition strip_prefix (p s : rstr) : option rstr := if starts_with s p then Some (drop (length p) s) else None.

(** [str::rsplit_once] on a character. *)
Definition rsplit_once (c : Z) (s : rstr) : option (rstr * rstr) :=
  at_ ← position (λ x, (x =? c)%Z) (reverse s);
  Some (take (length s - S at_) s, drop (length s - at_) s).

(** [a + b] as [u32]. *)
Definition add_u32 (a b : nat) : option nat := if (Z.of_nat (a + b) <=? umax 32)%Z then Some (a + b) else None.

(** [&bytes[start..end]]. *)
Definition slice (bytes : list Z) (start end_ : nat) : option (list Z) :=
  if (start <=? end_) && (end_ <=? length bytes) then Some (take (end_ - start) (drop start bytes)) else None.

(** [slice::get] of a range. *)
Definition get_range (bytes : list Z) (start len : nat) : option (list Z) := slice bytes start (start + len).

(** ** Receipts ([railgun-corpus/src/receipt.rs]) *)

Record IndexLoadRecord := mkLoadRecord { lr_source_arg_offset : nat; lr_element : rstr; lr_class : rstr }.
Record IndexedEffectRecord := mkEffectRecord { er_base_arg_offset : nat; er_class : rstr; er_index_loads : list IndexLoadRecord }.

Record ArgRecord := mkArgRecord {
  ar_offset : nat;
  ar_size : nat;
  ar_value_kind : rstr;
  ar_role : rstr;
  ar_classes : list rstr;
  ar_read_cache : rstr;
  ar_loaded : bool
}.

Record KernelRecord := mkRecord {
  kc_symbol : rstr;
  kc_status : rstr;
  kc_unresolved : list rstr;
  kc_kernarg_size : nat;
  kc_read_cache : rstr;
  kc_hidden_grid_live : list rstr;
  kc_args : list ArgRecord;
  kc_differential : rstr;
  kc_guards : list ArgGuard;
  kc_indexed_effects : list IndexedEffectRecord;
  kc_required_witnesses : list rstr;
  kc_case_digest : rstr;
  kc_guard_flag : option nat
}.

(** ** Facts *)

Record ConditionalFacts := mkConditionalFacts {
  cf_guards : list ArgGuard;
  cf_indexed : list IndexedArgEffect;
  cf_witnesses : list rstr;
  cf_case_digest : rstr
}.

Inductive FactStatus := Proven | UnknownRules (rules : list rstr) | ConditionalStatus (c : ConditionalFacts).

Record KernelFacts := mkFacts {
  ft_status : FactStatus;
  ft_explicit_bytes : nat;
  ft_segment_bytes : nat;
  ft_read_cache : ReadCache;
  ft_args : list ArgFact;
  ft_hidden : list HiddenArg;
  ft_hidden_grid_live : list rstr;
  ft_differential : rstr;
  ft_guard_flag : option nat
}.

Inductive RecordFault :=
| UnknownClass (name : rstr)
| UnknownReadCache (name : rstr)
| LacksCase
| UnknownWitness (kind : rstr)
| UnknownStatus (status : rstr)
| UnknownRole (offset : nat) (role : rstr)
| ArgumentsOverlap (first second : nat)
| HiddenOutside (offset : nat)
| ExplicitPastSegment (size : nat)
| NoRailgunRecord
| NoIdentity.

Definition class_parse (name : rstr) : result RecordFault MemClass :=
  if bool_decide (name = lit "vmem_load") then Ok VmemLoad
  else if bool_decide (name = lit "vmem_store") then Ok VmemStore
  else if bool_decide (name = lit "smem_load") then Ok SmemLoad
  else if bool_decide (name = lit "atomic") then Ok Atomic
  else if bool_decide (name = lit "atomic_commutative") then Ok AtomicCommutative
  else if bool_decide (name = lit "lds_dma") then Ok LdsDma
  else Err (UnknownClass name).

Definition read_cache_parse (name : rstr) : result RecordFault ReadCache :=
  if bool_decide (name = lit "not_read") then Ok NotRead
  else if bool_decide (name = lit "vmem_only") then Ok VmemOnly
  else if bool_decide (name = lit "scalar_only") then Ok ScalarOnly
  else if bool_decide (name = lit "scalar_and_vmem") then Ok ScalarAndVmem
  else if bool_decide (name = lit "unknown") then Ok CacheUnknown
  else Err (UnknownReadCache name).

Definition axis_parse (suffix : rstr) : option nat :=
  if bool_decide (suffix = lit "x") then Some 0
  else if bool_decide (suffix = lit "y") then Some 1
  else if bool_decide (suffix = lit "z") then Some 2
  else None.

Definition axis_kind (kind : nat → HiddenKind) (suffix : rstr) : HiddenKind :=
  match axis_parse suffix with Some axis => kind axis | None => OtherHidden end.

Definition hidden_kind_parse (value_kind : rstr) : option HiddenKind :=
  name ← strip_prefix (lit "hidden_") value_kind;
  Some (if bool_decide (name = lit "grid_dims") then GridDims
        else if bool_decide (name = lit "dynamic_lds_size") then DynamicLdsSize
        else match rsplit_once 95 name with
             | Some (head, a) =>
                 if bool_decide (head = lit "block_count") then axis_kind BlockCount a
                 else if bool_decide (head = lit "group_size") then axis_kind GroupSize a
                 else if bool_decide (head = lit "remainder") then axis_kind Remainder a
                 else if bool_decide (head = lit "global_offset") then axis_kind GlobalOffset a
                 else OtherHidden
             | None => OtherHidden
             end).

(** [Iterator::collect] of results. *)
Fixpoint mapR {E A B} (f : A → result E B) (l : list A) : result E (list B) :=
  match l with
  | [] => Ok []
  | x :: l => y ← f x; ys ← mapR f l; Ok (y :: ys)
  end.

Definition WITNESS_INDEXED_BIND : rstr := lit "indexed_bind".

Definition load_from_record (l : IndexLoadRecord) : result RecordFault IndexLoad :=
  class ← class_parse (lr_class l); Ok (mkIndexLoad (lr_source_arg_offset l) (lr_element l) class).

Definition effect_from_record (e : IndexedEffectRecord) : result RecordFault IndexedArgEffect :=
  loads ← mapR load_from_record (er_index_loads e);
  class ← class_parse (er_class e);
  Ok (mkIndexed (er_base_arg_offset e) class loads).

Definition conditional_from_record (record : KernelRecord) : result RecordFault ConditionalFacts :=
  if is_empty (kc_guards record) || is_empty (kc_indexed_effects record) || is_empty (kc_required_witnesses record)
     || is_empty (kc_case_digest record) then Err LacksCase
  else
    match List.find (λ w, negb (bool_decide (w = WITNESS_INDEXED_BIND))) (kc_required_witnesses record) with
    | Some w => Err (UnknownWitness w)
    | None =>
        indexed ← mapR effect_from_record (kc_indexed_effects record);
        Ok (mkConditionalFacts (kc_guards record) indexed (kc_required_witnesses record) (kc_case_digest record))
    end.

Definition status_from_record (record : KernelRecord) : result RecordFault FactStatus :=
  let status := kc_status record in
  if bool_decide (status = lit "proven") then Ok Proven
  else if bool_decide (status = lit "unknown") then Ok (UnknownRules (dedup (sort_by str_compare (kc_unresolved record))))
  else if bool_decide (status = lit "conditional") then c ← conditional_from_record record; Ok (ConditionalStatus c)
  else Err (UnknownStatus status).

Definition role_from_record (arg : ArgRecord) : result RecordFault ArgRole :=
  if bool_decide (ar_role arg = lit "pointer") then
    classes ← mapR class_parse (ar_classes arg); read_cache ← read_cache_parse (ar_read_cache arg); Ok (Pointer classes read_cache)
  else if bool_decide (ar_role arg = lit "integer") then Ok Integer
  else if bool_decide (ar_role arg = lit "not_loaded") then Ok NotLoaded
  else Err (UnknownRole (ar_offset arg) (ar_role arg)).

Definition arg_from_record (acc : list ArgFact * list HiddenArg) (arg : ArgRecord) :
    result RecordFault (list ArgFact * list HiddenArg) :=
  let '(args, hidden) := acc in
  match hidden_kind_parse (ar_value_kind arg) with
  | Some kind => Ok (args, hidden ++ [mkHidden (ar_offset arg) (ar_size arg) kind (ar_value_kind arg) (ar_loaded arg)])
  | None => role ← role_from_record arg; Ok (args ++ [mkArgFact (ar_offset arg) (ar_size arg) role], hidden)
  end.

Definition of_result {E A} (r : result E A) : exec E A := match r with Ok a => Done a | Err e => Fail e end.

(** The end of an argument, as [u32]. *)
Definition arg_end {E} (a : ArgFact) : exec E nat := unwrap (add_u32 (af_offset a) (af_size a)).

Fixpoint check_overlap (args : list ArgFact) : exec RecordFault unit :=
  match args with
  | a :: (b :: _) as rest =>
      end_ ← arg_end a;
      if af_offset b <? end_ then Fail (ArgumentsOverlap (af_offset a) (af_offset b)) else check_overlap rest
  | _ => Done tt
  end.

Definition check_hidden_arg (explicit_bytes kernarg_size : nat) (h : HiddenArg) : exec RecordFault unit :=
  if hd_offset h <? explicit_bytes then Fail (HiddenOutside (hd_offset h))
  else
    end_ ← unwrap (add_u32 (hd_offset h) (hd_size h));
    if kernarg_size <? end_ then Fail (HiddenOutside (hd_offset h)) else Done tt.

Definition from_record (record : KernelRecord) : exec RecordFault KernelFacts :=
  status ← of_result (status_from_record record);
  parts ← of_result (foldR arg_from_record ([], []) (kc_args record));
  let args := sort_by (λ a b, af_offset a ?= af_offset b) (parts.1) in
  let hidden := sort_by (λ a b, hd_offset a ?= hd_offset b) (parts.2) in
  explicit_bytes ← (match last args with Some a => arg_end a | None => Done 0 end);
  _ ← check_overlap args;
  _ ← for_exec (check_hidden_arg explicit_bytes (kc_kernarg_size record)) hidden;
  if kc_kernarg_size record <? explicit_bytes then Fail (ExplicitPastSegment (kc_kernarg_size record))
  else
    read_cache ← of_result (read_cache_parse (kc_read_cache record));
    Done (mkFacts status explicit_bytes (kc_kernarg_size record) read_cache args hidden (kc_hidden_grid_live record)
            (kc_differential record) (kc_guard_flag record)).

Definition is_pointer (r : ArgRole) : bool := match r with Pointer _ _ => true | _ => false end.
Definition pointer_offsets (facts : KernelFacts) : list nat := af_offset <$> List.filter (λ a, is_pointer (af_role a)) (ft_args facts).

Record NodeFacts := mkNodeFacts { nf_kref : KernelRef; nf_facts : KernelFacts }.

(** The receipt of an object: its digest, the railgun records and the symbols of
    its identities; [receipt_sha256] is that of the corpus record. *)
Record Receipt := mkReceipt { rc_object_sha256 : rstr; rc_railgun_kernels : list KernelRecord; rc_identities : list rstr }.

Definition from_hit (receipt_sha256 : rstr) (receipt : Receipt) (symbol : rstr) : exec RecordFault NodeFacts :=
  match List.find (λ k, bool_decide (kc_symbol k = symbol)) (rc_railgun_kernels receipt) with
  | None => Fail NoRailgunRecord
  | Some kernel =>
      match List.find (λ k, bool_decide (k = symbol)) (rc_identities receipt) with
      | None => Fail NoIdentity
      | Some _ =>
          facts ← from_record kernel;
          Done (mkNodeFacts (mkRef (rc_object_sha256 receipt) receipt_sha256) facts)
      end
  end.

(** ** Launches *)

Record DeclaredWord := mkDeclared { dw_offset : nat; dw_role : WordRole }.

(** [lr_facts] and an allocation that failed to probe carry a text. *)
Record LaunchRecord := mkLaunch {
  la_symbol : rstr;
  la_grid : arr3;
  la_block : arr3;
  la_dynamic_lds : Z;
  la_kernarg : list Z;
  la_declared : list DeclaredWord;
  la_facts : result rstr NodeFacts;
  la_allocations : list (nat * result rstr Binding)
}.

Inductive GuardFault :=
| OutsideKernarg
| NotNull
| BadValue (value : rstr)
| BadSize (size : nat)
| KernargIs (got want : Z)
| ShapeIs (have want : arr3)
| AxisIs (axis : nat) (have want : Z)
| BadAxis (axis : nat)
| UnknownGuard (kind : rstr).

Definition shape_guard (have : arr3) (value : rstr) : result GuardFault unit :=
  match mapM (λ v, parse_uint 32 (trim v)) (split_on 44 value) with
  | Some [x; y; z] => if (a3_x have =? x)%Z && (a3_y have =? y)%Z && (a3_z have =? z)%Z then Ok tt else Err (ShapeIs have (mk3 x y z))
  | _ => Ok tt
  end.

Definition axis_guard (have : arr3) (axis : nat) (value : rstr) : result GuardFault unit :=
  want ← ok_or (parse_uint 32 value) (BadValue value);
  match axis3 have axis with
  | Some v => if (v =? want)%Z then Ok tt else Err (AxisIs axis v want)
  | None => Err (BadAxis axis)
  end.

Definition guard_holds (g : ArgGuard) (launch : LaunchRecord) : result GuardFault unit :=
  let kind := ag_kind g in
  if bool_decide (kind = lit "ptr_null") then
    bytes ← ok_or (get_range (la_kernarg launch) (ag_arg_offset g) (ag_size g)) OutsideKernarg;
    if forallb (λ b, b =? 0)%Z bytes then Ok tt else Err NotNull
  else if bool_decide (kind = lit "scalar_eq") || bool_decide (kind = lit "kernarg_eq") then
    want ← ok_or (parse_uint 64 (ag_value g)) (BadValue (ag_value g));
    if (ag_size g =? 0) || (8 <? ag_size g) then Err (BadSize (ag_size g))
    else
      bytes ← ok_or (get_range (la_kernarg launch) (ag_arg_offset g) (ag_size g)) OutsideKernarg;
      let got := le_value bytes in
      if (got =? want)%Z then Ok tt else Err (KernargIs got want)
  else if bool_decide (kind = lit "grid") then shape_guard (la_grid launch) (ag_value g)
  else if bool_decide (kind = lit "block") then shape_guard (la_block launch) (ag_value g)
  else if bool_decide (kind = lit "grid_dim") then axis_guard (la_grid launch) (ag_arg_offset g) (ag_value g)
  else if bool_decide (kind = lit "block_dim") then axis_guard (la_block launch) (ag_arg_offset g) (ag_value g)
  else Err (UnknownGuard kind).

(** ** Authoring *)

(** Why a node is not lowered to PM4. *)
Inductive AuthorFault :=
| ReceiptMissing (reason : rstr)
| A1Unknown (rules : list rstr)
| GuardFails (kind : rstr) (offset : nat) (why : GuardFault)
| DifferentialFails
| KernargShort (bytes explicit : nat)
| NonzeroTail
| LoadsHidden (value_kind : rstr)
| NotAWord (offset : nat)
| PointerSize (offset size : nat)
| OutsideAllocation (offset : nat) (value : Z) (binding : Binding)
| NoAllocation (offset : nat) (value : Z) (reason : rstr)
| NotProbed (offset : nat) (value : Z)
| WordsNameNone (count : nat).

(** Resources are found by their allocation. *)
Record author_state := mkAuthor { au_resources : list Binding; au_by : gmap (Z * Z) ResourceId; au_words : list ProgramWord }.

Record node_state := mkNodeState {
  ns_author : author_state;
  ns_refusals : list AuthorFault;
  ns_used : nat;
  ns_args : list (nat * Arg);
  ns_effects : list RegionEffect;
  ns_cursor : nat;
  ns_atomic : bool
}.

Definition intern (s : author_state) (b : Binding) : ResourceId * author_state :=
  match au_by s !! (bi_base b, bi_bytes b) with
  | Some r => (r, s)
  | None =>
      let r := length (au_resources s) in
      (r, mkAuthor (au_resources s ++ [b]) (<[(bi_base b, bi_bytes b):=r]> (au_by s)) (au_words s))
  end.

Definition push_class (classes : list MemClass) (class : MemClass) : list MemClass :=
  if bool_decide (class ∈ classes) then classes else classes ++ [class].

(** Indexed effects add their base access and the reads of their index sources. *)
Definition add_indexed (offset : nat) (classes : list MemClass) (e : IndexedArgEffect) : list MemClass :=
  let classes := if ie_base_arg_offset e =? offset then push_class classes (ie_class e) else classes in
  foldl (λ classes l, if il_source_arg_offset l =? offset then push_class classes (il_class l) else classes) classes (ie_index_loads e).

Definition all_classes (conditional : option ConditionalFacts) (offset : nat) (classes : list MemClass) : list MemClass :=
  match conditional with Some c => foldl (add_indexed offset) classes (cf_indexed c) | None => classes end.

(** [launch.declared] as a map: the last word of an offset counts. *)
Definition declared_map (declared : list DeclaredWord) : gmap nat WordRole :=
  foldl (λ m w, <[dw_offset w:=dw_role w]> m) ∅ declared.

Definition push_arg (s : node_state) (offset : nat) (arg : Arg) : node_state :=
  mkNodeState (ns_author s) (ns_refusals s) (ns_used s) (ns_args s ++ [(offset, arg)]) (ns_effects s) (ns_cursor s) (ns_atomic s).

(** A constant of the authoring, with the reasons against the node. *)
Definition push_const (s : node_state) (refusals : list AuthorFault) (offset : nat) (bytes : list Z) : node_state :=
  mkNodeState (ns_author s) (ns_refusals s ++ refusals) (ns_used s) (ns_args s ++ [(offset, ArgConst bytes)]) (ns_effects s)
    (ns_cursor s) (ns_atomic s).

Definition author_word (index : nat) (s : node_state) (arg : ArgFact) (role : WordRole) (bytes : list Z) : node_state :=
  let a := ns_author s in
  let used := S (ns_used s) in
  if match af_role arg with Integer => af_size arg =? 4 | _ => false end then
    mkNodeState
      (mkAuthor (au_resources a) (au_by a) (au_words a ++ [mkProgramWord index (af_offset arg) role (le_value bytes)]))
      (ns_refusals s) used (ns_args s ++ [(af_offset arg, ArgWord (length (au_words a)))]) (ns_effects s) (ns_cursor s) (ns_atomic s)
  else
    mkNodeState a (ns_refusals s ++ [NotAWord (af_offset arg)]) used (ns_args s ++ [(af_offset arg, ArgConst bytes)]) (ns_effects s)
      (ns_cursor s) (ns_atomic s).

(** A pointer inside its allocation becomes a resource, with an effect when the
    kernel accesses it. *)
Definition author_resource (s : node_state) (offset : nat) (classes : list MemClass) (value : Z) (b : Binding) : node_state :=
  let '(resource, a) := intern (ns_author s) b in
  let used := negb (is_empty classes) in
  mkNodeState a (ns_refusals s) (ns_used s) (ns_args s ++ [(offset, ArgResource resource (value - bi_base b)%Z)])
    (if used then ns_effects s ++ [mkRegionEffect offset resource classes] else ns_effects s) (ns_cursor s)
    (ns_atomic s || (used && bool_decide (Atomic ∈ classes))).

Definition author_pointer (launch : LaunchRecord) (s : node_state) (arg : ArgFact) (classes : list MemClass) (bytes : list Z) : node_state :=
  let offset := af_offset arg in
  if negb (af_size arg =? 8) then push_const s [PointerSize offset (af_size arg)] offset bytes
  else
    let value := le_value bytes in
    if (value =? 0)%Z then push_const s [] offset bytes
    else
      match snd <$> List.find (λ p, p.1 =? offset) (la_allocations launch) with
      | Some (Ok b) =>
          if (bi_base b <=? value)%Z && (value - bi_base b <? Z.max (bi_bytes b) 1)%Z then author_resource s offset classes value b
          else push_const s [OutsideAllocation offset value b] offset bytes
      | Some (Err reason) => push_const s [NoAllocation offset value reason] offset bytes
      | None => push_const s [NotProbed offset value] offset bytes
      end.

Definition author_arg (index : nat) (launch : LaunchRecord) (declared : gmap nat WordRole) (conditional : option ConditionalFacts)
    (s : node_state) (arg : ArgFact) : option node_state :=
  let start := af_offset arg in
  end_ ← add_u32 (af_offset arg) (af_size arg);
  s ← (if ns_cursor s <? start then
         gap ← slice (la_kernarg launch) (ns_cursor s) start; Some (push_arg s (ns_cursor s) (ArgConst gap))
       else Some s);
  bytes ← slice (la_kernarg launch) start end_;
  let s := mkNodeState (ns_author s) (ns_refusals s) (ns_used s) (ns_args s) (ns_effects s) end_ (ns_atomic s) in
  Some match declared !! start with
       | Some role => author_word index s arg role bytes
       | None =>
           match af_role arg with
           | Pointer classes _ => author_pointer launch s arg (all_classes conditional start classes) bytes
           | _ => push_const s [] start bytes
           end
       end.

Definition uncertified_node (launch : LaunchRecord) : KernelNode :=
  mkNode (la_symbol launch) None (la_grid launch) (la_block launch) (la_dynamic_lds launch) None
    [(0, ArgConst (la_kernarg launch))] [] [] HipDirect None None.

Definition conditional_of (f : KernelFacts) : option ConditionalFacts :=
  match ft_status f with ConditionalStatus c => Some c | _ => None end.

(** The reasons that the facts alone give. *)
Definition fact_refusals (f : KernelFacts) (launch : LaunchRecord) : list AuthorFault :=
  (match ft_status f with
   | UnknownRules rules => [A1Unknown rules]
   | ConditionalStatus c =>
       cf_guards c ≫= λ g, match guard_holds g launch with Err why => [GuardFails (ag_kind g) (ag_arg_offset g) why] | Ok _ => [] end
   | Proven => []
   end)
  ++ (if bool_decide (ft_differential f = lit "fail") then [DifferentialFails] else []).

Definition is_other (k : HiddenKind) : bool := match k with OtherHidden => true | _ => false end.

(** The reasons that the launch's bytes and the hidden arguments give. *)
Definition launch_refusals (f : KernelFacts) (launch : LaunchRecord) : list AuthorFault :=
  (if existsb (λ b, negb (b =? 0)%Z) (drop (ft_explicit_bytes f) (la_kernarg launch)) then [NonzeroTail] else [])
  ++ ((λ h, LoadsHidden (hd_value_kind h)) <$> List.filter (λ h, hd_loaded h && is_other (hd_kind h)) (ft_hidden f)).

Definition lowering_of (refusals : list AuthorFault) (conditional : option ConditionalFacts) (atomic : bool) : Lowering :=
  if negb (is_empty refusals) then HipDirect
  else match conditional with
       | Some _ => ConditionalLowering
       | None => if atomic then GraphLowering else Pm4Lowering
       end.

Definition guard_resource (at_ : nat) (args : list (nat * Arg)) : option ResourceId :=
  head (omap (λ '(offset, arg), match arg with
                                | ArgResource r interior => if (interior =? 0)%Z && (offset =? at_) then Some r else None
                                | _ => None
                                end) args).

Definition author_launch (index : nat) (launch : LaunchRecord) (a : author_state) : option (KernelNode * author_state) :=
  match la_facts launch with
  | Err _ => Some (uncertified_node launch, a)
  | Ok facts =>
      let f := nf_facts facts in
      let explicit := ft_explicit_bytes f in
      if length (la_kernarg launch) <? explicit then Some (uncertified_node launch, a)
      else
        let declared := declared_map (la_declared launch) in
        let conditional := conditional_of f in
        s ← foldM (author_arg index launch declared conditional)
              (mkNodeState a (fact_refusals f launch ++ launch_refusals f launch) 0 [] [] 0 false) (ft_args f);
        s ← (if ns_cursor s <? explicit then
               gap ← slice (la_kernarg launch) (ns_cursor s) explicit; Some (push_arg s (ns_cursor s) (ArgConst gap))
             else Some s);
        words ← (if ns_used s =? size declared then Some []
                 else if ns_used s <? size declared then Some [WordsNameNone (size declared - ns_used s)]
                 else None);
        let lowering := lowering_of (ns_refusals s ++ words) conditional (ns_atomic s) in
        Some
          (mkNode (la_symbol launch) (Some (nf_kref facts)) (la_grid launch) (la_block launch) (la_dynamic_lds launch)
             (Some (ft_segment_bytes f)) (ns_args s) (ft_hidden f) (ns_effects s) lowering
             ((λ c, mkIndexedNode (ft_args f) (cf_indexed c) (cf_guards c) (cf_witnesses c) (cf_case_digest c)) <$> conditional)
             (at_ ← ft_guard_flag f; guard_resource at_ (ns_args s)),
           ns_author s)
  end.

Fixpoint author_launches (index : nat) (launches : list LaunchRecord) (a : author_state) : option (list KernelNode * author_state) :=
  match launches with
  | [] => Some ([], a)
  | launch :: launches =>
      r ← author_launch index launch a;
      rest ← author_launches (S index) launches (r.2);
      Some (r.1 :: rest.1, rest.2)
  end.

Definition author (arch : rstr) (launches : list LaunchRecord) : option KernelProgram :=
  r ← author_launches 0 launches (mkAuthor [] ∅ []);
  Some (mkKernelProgram arch (au_resources (r.2)) (au_words (r.2)) (r.1) []).
