(* ===== verification/RailAuthorOk.v ===== *)
(** * What authoring makes

    Facts of a receipt are sorted and inside the segment; an authored node tiles
    its explicit segment with constants, resources and words that stand for the
    recorded bytes; a node is lowered to PM4 only when its effects cover every
    access of the kernel. *)

From stdpp Require Import gmap sorting.
From S2P Require Import Prelude Packet RailCopy RailKernels RailKernelsOk RailBoundary RailBoundaryOk RailAuthor.

(** ** Bytes *)

Definition bytes_typed (bytes : list Z) : Prop := Forall (λ b, 0 ≤ b < 256)%Z bytes.

Lemma le_bytes_le_value bytes : bytes_typed bytes → le_bytes (length bytes) (le_value bytes) = bytes.
Proof.
  induction 1 as [|b bytes Hb _ IH]; [done|]. cbn [length le_bytes le_value].
  replace ((b + 256 * le_value bytes) mod 256)%Z with b by (rewrite Z.mul_comm, Z_mod_plus_full, Z.mod_small; lia).
  replace ((b + 256 * le_value bytes) / 256)%Z with (le_value bytes) by (rewrite Z.mul_comm, Z_div_plus_full, Z.div_small; lia).
  by rewrite IH.
Qed.

Lemma le_value_bound bytes : bytes_typed bytes → (0 ≤ le_value bytes < 256 ^ Z.of_nat (length bytes))%Z.
Proof.
  induction 1 as [|b bytes Hb _ IH]; cbn [length le_value]; [lia|]. rewrite Nat2Z.inj_succ, Z.pow_succ_r by lia. lia.
Qed.

Lemma slice_Some bytes start end_ part :
  slice bytes start end_ = Some part ↔ start ≤ end_ ≤ length bytes ∧ part = take (end_ - start) (drop start bytes).
Proof.
  unfold slice. destruct (Nat.leb_spec start end_), (Nat.leb_spec end_ (length bytes)); cbn; split; try (intros [=]; lia); try (intros [? ?]; lia).
  - by intros [= <-].
  - by intros [_ ->].
Qed.

Lemma add_u32_Some a b c : add_u32 a b = Some c ↔ c = a + b ∧ (Z.of_nat (a + b) ≤ umax 32)%Z.
Proof. unfold add_u32. destruct (Z.leb_spec (Z.of_nat (a + b)) (umax 32)); naive_solver lia. Qed.

(** ** Facts *)

(** What the facts of a receipt guarantee. *)
Record facts_ok (f : KernelFacts) : Prop := {
  fo_sorted : StronglySorted (λ a b, af_offset a + af_size a ≤ af_offset b) (ft_args f);
  fo_explicit a : a ∈ ft_args f → af_offset a + af_size a ≤ ft_explicit_bytes f;
  fo_small a : a ∈ ft_args f → (Z.of_nat (af_offset a + af_size a) ≤ umax 32)%Z;
  fo_segment : ft_explicit_bytes f ≤ ft_segment_bytes f;
  fo_hidden h : h ∈ ft_hidden f → ft_explicit_bytes f ≤ hd_offset h ∧ hd_offset h + hd_size h ≤ ft_segment_bytes f;
  fo_axes h : h ∈ ft_hidden f → match hd_kind h with BlockCount a | GroupSize a => a < 3 | _ => True end
}.

Lemma axis_parse_lt suffix axis : axis_parse suffix = Some axis → axis < 3.
Proof. unfold axis_parse. repeat case_match; try done; intros [= <-]; lia. Qed.

Lemma hidden_kind_axes value_kind kind :
  hidden_kind_parse value_kind = Some kind → match kind with BlockCount a | GroupSize a => a < 3 | _ => True end.
Proof.
  unfold hidden_kind_parse. intros (name & _ & [= <-])%bind_Some. destruct (bool_decide _); [done|]. destruct (bool_decide _); [done|].
  destruct (rsplit_once 95 name) as [[head a]|]; [|done]. unfold axis_kind. pose proof (axis_parse_lt a) as Ha.
  destruct (axis_parse a) as [axis|]; [specialize (Ha axis eq_refl)|]; repeat (destruct (bool_decide _); [done|]); done.
Qed.

Lemma check_overlap_Done args : check_overlap args = Done tt → Sorted (λ a b, af_offset a + af_size a ≤ af_offset b) args.
Proof.
  induction args as [|a args IH]; [constructor|]. destruct args as [|b args]; [by repeat constructor|]. cbn [check_overlap].
  intros (end_ & Hend & H)%bind_Done_inv. apply unwrap_Done, add_u32_Some in Hend as [-> _].
  destruct (Nat.ltb_spec (af_offset b) (af_offset a + af_size a)); [done|]. constructor; [by apply IH|by constructor].
Qed.

Lemma overlap_trans : Relations_1.Transitive (λ a b : ArgFact, af_offset a + af_size a ≤ af_offset b).
Proof. intros a b c H1 H2. lia. Qed.

Lemma ends_before_last args z a :
  StronglySorted (λ a b, af_offset a + af_size a ≤ af_offset b) args → last args = Some z → a ∈ args →
  af_offset a + af_size a ≤ af_offset z + af_size z.
Proof.
  intros Hs [l ->]%last_Some [Ha| ->%list_elem_of_singleton]%elem_of_app; [|done].
  pose proof (StronglySorted_app_1_elem_of _ _ _ a z Hs Ha ltac:(by left)). cbn in *. lia.
Qed.

(** Reading the arguments of a record. *)
Lemma foldR_inv {E S A} (P : list A → S → Prop) (f : S → A → result E S) l s s' :
  P [] s → (∀ l1 x l2 s s', l = l1 ++ x :: l2 → P l1 s → f s x = Ok s' → P (l1 ++ [x]) s') → foldR f s l = Ok s' → P l s'.
Proof.
  intros H0 Hstep. assert (∀ l2 l1 s, l = l1 ++ l2 → P l1 s → foldR f s l2 = Ok s' → P l s') as Hgen; [|by apply (Hgen l [])].
  clear H0 s. induction l2 as [|x l2 IH]; intros l1 s Hl Hs; cbn [foldR].
  - intros [= <-]. by rewrite Hl, app_nil_r.
  - intros (s1 & Hf & Hrest)%bind_Ok_inv. apply (IH (l1 ++ [x]) s1); [by rewrite <-app_assoc|by eapply Hstep|done].
Qed.

Lemma parts_ok record parts :
  foldR arg_from_record ([], []) (kc_args record) = Ok parts →
  (∀ a, a ∈ parts.1 → ∃ r, r ∈ kc_args record ∧ af_offset a = ar_offset r ∧ af_size a = ar_size r) ∧
  (∀ h, h ∈ parts.2 → ∃ r, r ∈ kc_args record ∧ hd_offset h = ar_offset r ∧ hd_size h = ar_size r ∧ hidden_kind_parse (ar_value_kind r) = Some (hd_kind h)).
Proof.
  intros H. apply (foldR_inv (λ l p,
    (∀ a, a ∈ p.1 → ∃ r, r ∈ l ∧ af_offset a = ar_offset r ∧ af_size a = ar_size r) ∧
    (∀ h, h ∈ p.2 → ∃ r, r ∈ l ∧ hd_offset h = ar_offset r ∧ hd_size h = ar_size r ∧ hidden_kind_parse (ar_value_kind r) = Some (hd_kind h)))) in H; [done| |].
  - split; by intros ? ?%elem_of_nil.
  - intros l1 x l2 [args hidden] [args' hidden'] _ [Ha Hh] Hx. cbn [fst snd] in *. cbn [arg_from_record] in Hx.
    assert (∀ r, r ∈ l1 → r ∈ l1 ++ [x]) as Hmore by (intros r Hr; apply elem_of_app; by left).
    assert (x ∈ l1 ++ [x]) as Hnew by (apply elem_of_app; right; by left).
    destruct (hidden_kind_parse (ar_value_kind x)) as [kind|] eqn:Hkind.
    + injection Hx as <- <-. split; [intros a Hin; destruct (Ha a Hin) as (r & Hr & Hrest); exists r; by auto|].
      intros h [Hin| ->%list_elem_of_singleton]%elem_of_app; [destruct (Hh h Hin) as (r & Hr & Hrest); exists r; by auto|by exists x].
    + apply bind_Ok_inv in Hx as (role & _ & [= <- <-]). split; [|intros h Hin; destruct (Hh h Hin) as (r & Hr & Hrest); exists r; by auto].
      intros a [Hin| ->%list_elem_of_singleton]%elem_of_app; [destruct (Ha a Hin) as (r & Hr & Hrest); exists r; by auto|by exists x].
Qed.

Lemma of_result_Done {E A} (r : result E A) a : of_result r = Done a ↔ r = Ok a.
Proof. destruct r; cbn; naive_solver. Qed.

Lemma of_result_no_panic {E A} (r : result E A) : of_result r ≠ Panic.
Proof. by destruct r. Qed.

Lemma check_hidden_Done explicit size h :
  check_hidden_arg explicit size h = Done tt → explicit ≤ hd_offset h ∧ hd_offset h + hd_size h ≤ size.
Proof.
  unfold check_hidden_arg. destruct (Nat.ltb_spec (hd_offset h) explicit); [done|]. intros (end_ & Hend & H')%bind_Done_inv.
  apply unwrap_Done, add_u32_Some in Hend as [-> _]. destruct (Nat.ltb_spec size (hd_offset h + hd_size h)); [done|]. lia.
Qed.

Lemma from_record_inv record f :
  from_record record = Done f →
  ∃ parts, foldR arg_from_record ([], []) (kc_args record) = Ok parts ∧ ft_args f ≡ₚ parts.1 ∧ ft_hidden f ≡ₚ parts.2 ∧ facts_ok f.
Proof.
  unfold from_record. intros (status & _ & H)%bind_Done_inv. apply bind_Done_inv in H as (parts & Hparts & H).
  apply of_result_Done in Hparts. apply bind_Done_inv in H as (explicit & Hexp & H). apply bind_Done_inv in H as ([] & Hover & H).
  apply bind_Done_inv in H as ([] & Hhid & H). destruct (Nat.ltb_spec (kc_kernarg_size record) explicit) as [|Hle]; [done|].
  apply bind_Done_inv in H as (rc & _ & [= <-]). exists parts. split; [done|]. cbn.
  split; [apply sort_by_perm|]. split; [apply sort_by_perm|]. destruct (parts_ok _ _ Hparts) as [_ Hkinds].
  apply check_overlap_Done, (Sorted_StronglySorted overlap_trans) in Hover. set (args := sort_by _ parts.1) in *.
  assert (∀ a, a ∈ args → af_offset a + af_size a ≤ explicit ∧ (Z.of_nat explicit ≤ umax 32)%Z) as Hends.
  { intros a Ha. destruct (last args) as [z|] eqn:Hz; [|apply last_None in Hz; rewrite Hz in Ha; by apply elem_of_nil in Ha].
    apply unwrap_Done, add_u32_Some in Hexp as [-> Hsm]. split; [by eapply ends_before_last|done]. }
  rewrite for_exec_Done in Hhid. split; cbn; [done| | |done| |].
  - intros a Ha. by apply Hends.
  - intros a Ha. destruct (Hends a Ha). lia.
  - intros h Hh. by apply check_hidden_Done, Hhid.
  - intros h Hh. rewrite (sort_by_perm _ parts.2) in Hh. destruct (Hkinds h Hh) as (r & _ & _ & _ & Hk). by eapply hidden_kind_axes.
Qed.

Lemma arg_end_no_panic {E} a : is_Some (add_u32 (af_offset a) (af_size a)) → arg_end (E := E) a ≠ Panic.
Proof. intros [e He]. unfold arg_end. by rewrite He. Qed.

Lemma check_overlap_no_panic args : (∀ a, a ∈ args → is_Some (add_u32 (af_offset a) (af_size a))) → check_overlap args ≠ Panic.
Proof.
  induction args as [|a args IH]; intros Hall; [done|]. destruct args as [|b args]; [done|]. cbn [check_overlap].
  destruct (Hall a ltac:(by left)) as [e He]. unfold arg_end. rewrite He. cbn [unwrap mbind exec_bind].
  destruct (af_offset b <? e); [done|]. apply IH. intros c Hc. apply Hall. by right.
Qed.

(** A receipt whose arguments end below 4 GiB is read or refused. *)
Lemma from_record_no_panic record :
  (∀ a, a ∈ kc_args record → (Z.of_nat (ar_offset a + ar_size a) ≤ umax 32)%Z) → from_record record ≠ Panic.
Proof.
  intros Hsmall. unfold from_record. destruct (status_from_record record) as [status|]; [|done]. cbn [of_result mbind exec_bind].
  destruct (foldR _ _ _) as [parts|] eqn:Hparts; [|done]. cbn [of_result mbind exec_bind].
  destruct (parts_ok _ _ Hparts) as [Ha Hh]. set (args := sort_by _ parts.1). set (hidden := sort_by _ parts.2).
  assert (∀ a, a ∈ args → is_Some (add_u32 (af_offset a) (af_size a))) as Hargs.
  { intros a Hin. unfold args in Hin. rewrite (sort_by_perm _ parts.1) in Hin. destruct (Ha a Hin) as (r & Hr & -> & ->). eexists.
    apply add_u32_Some. by split; [|apply Hsmall]. }
  assert (∃ e, (match last args with Some a => arg_end a | None => Done 0 end : exec RecordFault nat) = Done e) as [e ->].
  { destruct (last args) as [z|] eqn:Hz; [|by eexists]. destruct (Hargs z) as [e He]; [by apply last_Some_elem_of|].
    exists e. unfold arg_end. by rewrite He. }
  cbn [mbind exec_bind]. pose proof (check_overlap_no_panic args Hargs) as Hno. destruct (check_overlap args); [|done..]. cbn [mbind exec_bind].
  assert (for_exec (check_hidden_arg e (kc_kernarg_size record)) hidden ≠ Panic) as Hno2.
  { apply for_exec_no_panic. intros h Hin. unfold hidden in Hin. rewrite (sort_by_perm _ parts.2) in Hin. destruct (Hh h Hin) as (r & Hr & Ho & Hs & _).
    unfold check_hidden_arg. destruct (_ <? _); [done|]. rewrite Ho, Hs. unfold add_u32. rewrite (proj2 (Z.leb_le _ _) (Hsmall r Hr)).
    cbn [unwrap mbind exec_bind]. by destruct (_ <? _). }
  destruct (for_exec _ _); [|done..]. cbn [mbind exec_bind]. destruct (_ <? _); [done|]. by destruct (read_cache_parse _).
Qed.

(** ** Tiles *)

(** Arguments that follow each other from [from] to [to]. *)
Fixpoint tiles (from to : nat) (args : list (nat * Arg)) : Prop :=
  match args with
  | [] => from = to
  | entry :: args => entry.1 = from ∧ tiles (from + (arg_span entry).2) to args
  end.

Lemma arg_tiles_snoc from to args entry : tiles from to args → entry.1 = to → tiles from (to + (arg_span entry).2) (args ++ [entry]).
Proof.
  revert from. induction args as [|e args IH]; intros from; cbn [tiles app].
  - intros -> H. done.
  - intros [He Ht] H. split; [done|]. by apply IH.
Qed.

Lemma tiles_le from to args : tiles from to args → from ≤ to.
Proof.
  revert from. induction args as [|e args IH]; intros from; cbn [tiles]; [lia|]. intros [_ H]. apply IH in H. lia.
Qed.

Lemma tiles_elem from to args entry : tiles from to args → entry ∈ args → from ≤ entry.1 ∧ entry.1 + (arg_span entry).2 ≤ to.
Proof.
  revert from. induction args as [|e args IH]; intros from; cbn [tiles]; [by intros _ H%elem_of_nil|].
  intros [He Ht] [->|Hin]%elem_of_cons; [apply tiles_le in Ht; lia|]. destruct (IH _ Ht Hin). lia.
Qed.

Lemma tiles_apart from to args : tiles from to args → StronglySorted spans_apart (arg_span <$> args).
Proof.
  revert from. induction args as [|e args IH]; intros from; cbn [tiles]; [constructor|]. intros [He Ht].
  cbn [fmap list_fmap]. constructor; [by eapply IH|]. apply Forall_fmap, Forall_forall. intros x Hx.
  destruct (tiles_elem _ _ _ _ Ht Hx) as [H _]. left. cbn in *. lia.
Qed.

(** Every byte of the range is in one of the tiles. *)
Lemma tiles_cover from to args i : tiles from to args → from ≤ i < to → ∃ entry, entry ∈ args ∧ entry.1 ≤ i < entry.1 + (arg_span entry).2.
Proof.
  revert from. induction args as [|e args IH]; intros from; cbn [tiles]; [lia|]. intros [He Ht] Hi.
  destruct (decide (i < from + (arg_span e).2)) as [Hlt|Hge]; [exists e; split; [by left|lia]|].
  destruct (IH _ Ht ltac:(lia)) as (x & Hx & Hb). exists x. split; [by right|done].
Qed.

(** ** Launches *)

(** What a recorded launch is: bytes, extents that are not negative, and facts
    that a receipt gives, whose arguments have a size and whose hidden arguments
    do not meet. *)
Record launch_ok (l : LaunchRecord) : Prop := {
  lk_bytes : bytes_typed (la_kernarg l);
  lk_grid : arr3_nonneg (la_grid l);
  lk_block : arr3_nonneg (la_block l);
  lk_lds : (0 ≤ la_dynamic_lds l)%Z;
  lk_facts nf : la_facts l = Ok nf → ∃ record, from_record record = Done (nf_facts nf) ∧
    (∀ r, r ∈ kc_args record → 0 < ar_size r) ∧ StronglySorted spans_apart (hidden_span <$> ft_hidden (nf_facts nf))
}.

Record author_ok (a : author_state) : Prop := {
  ao_by k r : au_by a !! k = Some r → ∃ b, au_resources a !! r = Some b ∧ k = (bi_base b, bi_bytes b);
  ao_found r b : au_resources a !! r = Some b → au_by a !! (bi_base b, bi_bytes b) = Some r
}.

Definition extends (a a' : author_state) : Prop := au_resources a `prefix_of` au_resources a' ∧ au_words a `prefix_of` au_words a'.

Lemma extends_refl a : extends a a.
Proof. by split. Qed.

Lemma extends_trans a b c : extends a b → extends b c → extends a c.
Proof. intros [H1 H2] [H3 H4]. split; by etrans. Qed.

Lemma intern_ok a b r a' :
  intern a b = (r, a') → author_ok a →
  author_ok a' ∧ extends a a' ∧ au_words a' = au_words a ∧ au_resources a' !! r = Some b.
Proof.
  unfold intern. intros H Ha. destruct (au_by a !! _) as [r'|] eqn:Hby; injection H as <- <-.
  - destruct (ao_by _ Ha _ _ Hby) as (b' & Hb' & [= H1 H2]). destruct b, b'. cbn in *. subst. split_and!; [done|apply extends_refl|done|done].
  - split_and!; cbn; [|split; cbn; [by apply prefix_app_r|done]|done|by apply list_lookup_middle]. split; cbn.
    + intros k r [[<- <-]|[Hne Hk]]%lookup_insert_Some; [exists b; split; [by apply list_lookup_middle|done]|].
      destruct (ao_by _ Ha _ _ Hk) as (b' & Hb' & ->). exists b'. split; [by apply lookup_app_l_Some|done].
    + intros r b' [Hr|[Hge Hr]]%lookup_app_Some.
      * apply (ao_found _ Ha) in Hr. rewrite lookup_insert_ne; [done|]. intros Heq. rewrite Heq in Hby. congruence.
      * apply list_lookup_singleton_Some in Hr as [Hz <-]. rewrite lookup_insert_eq. f_equal. lia.
Qed.

(** One allocation is one resource. *)
Lemma resource_unique a r r' b : author_ok a → au_resources a !! r = Some b → au_resources a !! r' = Some b → r = r'.
Proof. intros Ha H1%(ao_found _ Ha) H2%(ao_found _ Ha). congruence. Qed.

(** The recorded bytes of an argument. *)
Definition bytes_at (l : LaunchRecord) (at_ n : nat) : list Z := take n (drop at_ (la_kernarg l)).

Lemma length_bytes_at l at_ n : at_ + n ≤ length (la_kernarg l) → length (bytes_at l at_ n) = n.
Proof. intros H. unfold bytes_at. rewrite length_take, length_drop. lia. Qed.

Lemma bytes_at_typed l at_ n : bytes_typed (la_kernarg l) → bytes_typed (bytes_at l at_ n).
Proof. intros H. by apply Forall_take, Forall_drop. Qed.

Lemma le_bytes_at l at_ n :
  bytes_typed (la_kernarg l) → at_ + n ≤ length (la_kernarg l) → le_bytes n (le_value (bytes_at l at_ n)) = bytes_at l at_ n.
Proof.
  intros Hl Hn. pose proof (le_bytes_le_value (bytes_at l at_ n) (bytes_at_typed _ _ _ Hl)) as H. by rewrite length_bytes_at in H.
Qed.

(** An authored argument stands for the recorded bytes. *)
Definition reproduces (a : author_state) (l : LaunchRecord) (entry : nat * Arg) : Prop :=
  match entry.2 with
  | ArgConst bytes => bytes = bytes_at l entry.1 (length bytes)
  | ArgResource r interior => ∃ b, au_resources a !! r = Some b ∧ (0 ≤ interior)%Z ∧ (bi_base b + interior ≤ u64_max)%Z ∧
      le_bytes 8 (bi_base b + interior) = bytes_at l entry.1 8
  | ArgWord id => ∃ w, au_words a !! id = Some w ∧ le_bytes 4 (pw_authored w) = bytes_at l entry.1 4
  end.

Lemma reproduces_extends a a' l entry : extends a a' → reproduces a l entry → reproduces a' l entry.
Proof.
  intros [Hr Hw]. unfold reproduces. destruct entry.2; [done| |].
  - intros (b & Hb & H). exists b. split; [by eapply prefix_lookup_Some|done].
  - intros (w & Hb & H). exists w. split; [by eapply prefix_lookup_Some|done].
Qed.

(** The allocation that was probed for a pointer. *)
Definition reported (l : LaunchRecord) (offset : nat) : option (result rstr Binding) :=
  snd <$> List.find (λ p, p.1 =? offset) (la_allocations l).

(** What is authored for an argument that gives no reason against the node. *)
Definition arg_sound (l : LaunchRecord) (declared : gmap nat WordRole) (conditional : option ConditionalFacts)
    (resources : list Binding) (args : list (nat * Arg)) (effects : list RegionEffect) (arg : ArgFact) : Prop :=
  let offset := af_offset arg in
  match declared !! offset with
  | Some _ => af_role arg = Integer ∧ af_size arg = 4 ∧ ∃ id, (offset, ArgWord id) ∈ args
  | None =>
      match af_role arg with
      | Pointer classes _ =>
          let value := le_value (bytes_at l offset 8) in
          af_size arg = 8 ∧
          (value = 0%Z ∨ ∃ r b, resources !! r = Some b ∧ reported l offset = Some (Ok b) ∧ (bi_base b ≤ value < bi_base b + Z.max (bi_bytes b) 1)%Z ∧
             (offset, ArgResource r (value - bi_base b)%Z) ∈ args ∧
             let classes := all_classes conditional offset classes in
             (classes ≠ [] → mkRegionEffect offset r classes ∈ effects))
      | _ => True
      end
  end.

Lemma arg_sound_more l declared conditional resources resources' args args' effects effects' arg :
  resources `prefix_of` resources' → args ⊆ args' → effects ⊆ effects' →
  arg_sound l declared conditional resources args effects arg → arg_sound l declared conditional resources' args' effects' arg.
Proof.
  intros Hr Ha He. unfold arg_sound. cbn zeta. destruct (declared !! _) as [role|].
  - intros (H1 & H2 & id & Hid). split_and!; [done|done|]. exists id. by apply Ha.
  - destruct (af_role arg) as [classes rc| |]; [|done|done]. intros [Hs [Hz|(r & b & Hb & Hrep & Hin & Hx & Hc)]]; (split; [done|]); [by left|right].
    exists r, b. split; [by eapply prefix_lookup_Some|]. split; [done|]. split; [done|]. split; [by apply Ha|]. intros Hne. by apply He, Hc.
Qed.

(** ** A node *)

Section node.
Context (index : nat) (l : LaunchRecord) (Hl : launch_ok l) (a0 : author_state).
Context (declared : gmap nat WordRole) (conditional : option ConditionalFacts) (refusals0 : list AuthorFault).
Local Abbreviation sound s := (arg_sound l declared conditional (au_resources (ns_author s)) (ns_args s) (ns_effects s)).

(** After the arguments [done], up to the byte [at_]. *)
Record node_inv (done : list ArgFact) (at_ : nat) (s : node_state) : Prop := {
  ni_author : author_ok (ns_author s);
  ni_extends : extends a0 (ns_author s);
  ni_bound : at_ ≤ length (la_kernarg l);
  ni_tiles : tiles 0 at_ (ns_args s);
  ni_reproduces entry : entry ∈ ns_args s → reproduces (ns_author s) l entry;
  ni_used : ∃ ks : gset nat, ks ⊆ dom declared ∧ size ks = ns_used s ∧ ∀ k, k ∈ ks → k < at_ ∧ ∃ arg, arg ∈ done ∧ af_offset arg = k;
  ni_refusals : ns_refusals s = [] → refusals0 = [];
  ni_sound arg : ns_refusals s = [] → arg ∈ done → sound s arg;
  ni_atomic e : ns_atomic s = false → e ∈ ns_effects s → Atomic ∉ re_classes e
}.

Lemma gap_ok done at_ start s :
  node_inv done at_ s → at_ ≤ start → start ≤ length (la_kernarg l) →
  node_inv done start (push_arg s at_ (ArgConst (bytes_at l at_ (start - at_)))).
Proof using Type.
  clear Hl. intros [Ha He Hb Ht Hr (ks & Hk1 & Hk2 & Hk3) Hre Hs Hat] Hle Hlen. unfold push_arg.
  split; cbn [ns_author ns_args ns_used ns_refusals ns_effects ns_atomic]; try done.
  - pose proof (arg_tiles_snoc _ _ _ (at_, ArgConst (bytes_at l at_ (start - at_))) Ht eq_refl) as H. cbn [arg_span fst snd] in H.
    rewrite length_bytes_at in H by lia. by replace (at_ + (start - at_)) with start in H by lia.
  - intros entry [Hin| ->%list_elem_of_singleton]%elem_of_app; [by apply Hr|]. unfold reproduces. cbn. by rewrite length_bytes_at by lia.
  - exists ks. split_and!; [done|done|]. intros k Hk. destruct (Hk3 k Hk) as [Hlt Harg]. split; [lia|done].
  - intros arg Hno Hin. eapply arg_sound_more; [done| |done|by apply Hs]. set_solver.
Qed.

(** One more argument. *)
Record step_ok (s s' : node_state) (arg : ArgFact) (x : Arg) : Prop := {
  st_args : ns_args s' = ns_args s ++ [(af_offset arg, x)];
  st_size : (arg_span (af_offset arg, x)).2 = af_size arg;
  st_cursor : ns_cursor s' = ns_cursor s;
  st_author : author_ok (ns_author s');
  st_extends : extends (ns_author s) (ns_author s');
  st_reproduces : reproduces (ns_author s') l (af_offset arg, x);
  st_effects : ns_effects s ⊆ ns_effects s';
  st_refusals : ns_refusals s' = [] → ns_refusals s = [] ∧ sound s' arg;
  st_used : ns_used s' = match declared !! af_offset arg with Some _ => S (ns_used s) | None => ns_used s end;
  st_atomic : ns_atomic s' = false → ns_atomic s = false ∧ ∀ e, e ∈ ns_effects s' → e ∈ ns_effects s ∨ Atomic ∉ re_classes e
}.

Lemma step_inv done s s' arg x :
  node_inv done (af_offset arg) s → 0 < af_size arg → af_offset arg + af_size arg ≤ length (la_kernarg l) → step_ok s s' arg x →
  node_inv (done ++ [arg]) (af_offset arg + af_size arg) s'.
Proof using Type.
  clear Hl. intros [Ha He Hb Ht Hr (ks & Hk1 & Hk2 & Hk3) Hre Hs Hat] Hpos Hlen [Hargs Hsize _ Hauth Hext Hrep Heff Href Hused Hatom].
  split; [done|by eapply extends_trans|done| | | |by intros [Hno _]%Href; auto| |].
  - rewrite Hargs, <-Hsize. by apply arg_tiles_snoc.
  - intros entry. rewrite Hargs. intros [Hin| ->%list_elem_of_singleton]%elem_of_app; [|done]. eapply reproduces_extends; [done|]. by apply Hr.
  - rewrite Hused. assert (∀ b, b ∈ done → b ∈ done ++ [arg]) as Hmore by (intros b Hb'; apply elem_of_app; by left).
    destruct (declared !! af_offset arg) as [role|] eqn:Hd.
    + exists ({[af_offset arg]} ∪ ks). split_and!.
      * apply union_subseteq. split; [|done]. apply singleton_subseteq_l, elem_of_dom. by exists role.
      * rewrite size_union; [rewrite size_singleton; lia|]. intros k Hk%elem_of_singleton Hin. apply Hk3 in Hin. lia.
      * intros k [->%elem_of_singleton|Hk]%elem_of_union; [split; [lia|exists arg; split; [apply elem_of_app; right; by left|done]]|].
        destruct (Hk3 k Hk) as (Hlt & b & Hb' & Hbk). split; [lia|]. exists b. by auto.
    + exists ks. split_and!; [done|done|]. intros k Hk. destruct (Hk3 k Hk) as (Hlt & b & Hb' & Hbk). split; [lia|]. exists b. by auto.
  - intros b Hno. destruct (Href Hno) as [Hno' Hsound]. intros [Hin| ->%list_elem_of_singleton]%elem_of_app; [|done].
    eapply arg_sound_more; [by apply Hext| |exact Heff|by apply Hs]. rewrite Hargs. set_solver.
  - intros e Hno Hin. destruct (Hatom Hno) as [Hno' Hnew]. destruct (Hnew e Hin) as [Hin'|]; [by apply Hat|done].
Qed.

Lemma const_step s refusals arg :
  author_ok (ns_author s) → declared !! af_offset arg = None → af_offset arg + af_size arg ≤ length (la_kernarg l) →
  let bytes := bytes_at l (af_offset arg) (af_size arg) in
  let s' := push_const s refusals (af_offset arg) bytes in
  (refusals = [] → sound s' arg) → step_ok s s' arg (ArgConst bytes).
Proof using Type.
  intros Ha Hd Hlen bytes s' Hs. split; cbn; try done.
  - by apply length_bytes_at.
  - unfold reproduces. cbn. unfold bytes. by rewrite length_bytes_at.
  - intros [Hno Hr]%app_eq_nil. split; [done|by apply Hs].
  - by rewrite Hd.
  - intros Hno. split; [done|]. intros e He. by left.
Qed.

Lemma word_step s arg role :
  author_ok (ns_author s) → declared !! af_offset arg = Some role → af_offset arg + af_size arg ≤ length (la_kernarg l) →
  ∃ x, step_ok s (author_word index s arg role (bytes_at l (af_offset arg) (af_size arg))) arg x.
Proof using Hl.
  intros Ha Hd Hlen. unfold author_word. destruct (match af_role arg with Integer => af_size arg =? 4 | _ => false end) eqn:Hw.
  - destruct (af_role arg) as [| |] eqn:Hrole; try done. apply Nat.eqb_eq in Hw. exists (ArgWord (length (au_words (ns_author s)))).
    split; cbn [ns_author ns_args ns_used ns_refusals ns_effects ns_atomic ns_cursor arg_span fst snd au_resources au_words]; try done.
    + by destruct Ha.
    + split; cbn; [done|by apply prefix_app_r].
    + unfold reproduces. cbn [fst snd au_words]. eexists. split; [by apply list_lookup_middle|]. cbn [pw_authored]. rewrite Hw in *.
      apply le_bytes_at; [apply Hl|done].
    + intros Hno. split; [done|]. unfold arg_sound. cbn zeta. rewrite Hd. split; [done|]. split; [done|].
      eexists. apply elem_of_app. right. by left.
    + by rewrite Hd.
    + intros Hno. split; [done|]. intros e He. by left.
  - exists (ArgConst (bytes_at l (af_offset arg) (af_size arg))). split; cbn; try done.
    + by apply length_bytes_at.
    + unfold reproduces. cbn. by rewrite length_bytes_at.
    + by intros [_ [=]]%app_eq_nil.
    + by rewrite Hd.
    + intros Hno. split; [done|]. intros e He. by left.
Qed.

Lemma resource_step s arg classes rc b :
  author_ok (ns_author s) → declared !! af_offset arg = None → af_role arg = Pointer classes rc → af_size arg = 8 →
  af_offset arg + 8 ≤ length (la_kernarg l) →
  let value := le_value (bytes_at l (af_offset arg) 8) in
  reported l (af_offset arg) = Some (Ok b) → (bi_base b ≤ value < bi_base b + Z.max (bi_bytes b) 1)%Z →
  ∃ x, step_ok s (author_resource s (af_offset arg) (all_classes conditional (af_offset arg) classes) value b) arg x.
Proof using Hl.
  intros Ha Hd Hrole Hsize Hlen value Hrep Hin. unfold author_resource. destruct (intern (ns_author s) b) as [r a'] eqn:Hintern.
  destruct (intern_ok _ _ _ _ Hintern Ha) as (Ha' & Hext & _ & Hr). exists (ArgResource r (value - bi_base b)%Z).
  assert (bytes_typed (bytes_at l (af_offset arg) 8)) as Htyped by (apply bytes_at_typed, Hl).
  pose proof (le_value_bound _ Htyped) as Hv. rewrite length_bytes_at in Hv by lia. change (256 ^ Z.of_nat 8)%Z with (u64_max + 1)%Z in Hv. fold value in Hv.
  set (classes' := all_classes conditional (af_offset arg) classes). split; cbn [ns_author ns_args ns_used ns_refusals ns_effects ns_atomic ns_cursor arg_span fst snd au_resources au_words]; try done.
  - unfold reproduces. cbn [fst snd]. exists b. split; [done|]. split; [lia|]. split; [lia|].
    replace (bi_base b + (value - bi_base b))%Z with value by lia. apply le_bytes_at; [apply Hl|done].
  - destruct (is_empty classes'); cbn; [done|]. clear. set_solver.
  - intros Hno. split; [done|]. unfold arg_sound. cbn zeta. rewrite Hd, Hrole. split; [done|right]. fold value.
    exists r, b. split; [done|]. split; [done|]. split; [done|]. split; [apply elem_of_app; right; by left|]. fold classes'. intros Hne.
    apply is_empty_false in Hne. rewrite Hne. cbn. apply elem_of_app. right. by left.
  - by rewrite Hd.
  - intros [Hno Hat]%orb_false_iff. split; [done|]. intros e He. destruct (is_empty classes'); cbn in *; [by left|].
    apply bool_decide_eq_false in Hat. apply elem_of_app in He as [He| ->%list_elem_of_singleton]; [by left|by right].
Qed.

Lemma pointer_step s arg classes rc :
  author_ok (ns_author s) → declared !! af_offset arg = None → af_role arg = Pointer classes rc →
  af_offset arg + af_size arg ≤ length (la_kernarg l) →
  ∃ x, step_ok s (author_pointer l s arg (all_classes conditional (af_offset arg) classes) (bytes_at l (af_offset arg) (af_size arg))) arg x.
Proof using Hl.
  intros Ha Hd Hrole Hlen. unfold author_pointer.
  assert (∀ refusals, refusals ≠ [] → ∃ x, step_ok s (push_const s refusals (af_offset arg) (bytes_at l (af_offset arg) (af_size arg))) arg x) as Hrefused.
  { intros refusals Hne. eexists. by apply const_step. }
  destruct (Nat.eqb_spec (af_size arg) 8) as [Hsize|]; cbn [negb]; [|by apply Hrefused]. cbn zeta. rewrite Hsize in *.
  destruct (Z.eqb_spec (le_value (bytes_at l (af_offset arg) 8)) 0) as [Hz|Hnz].
  - eexists. pose proof (const_step s [] arg Ha Hd) as H. rewrite Hsize in H. apply H; [done|]. intros _. unfold arg_sound. cbn zeta.
    rewrite Hd, Hrole. split; [done|by left].
  - fold (reported l (af_offset arg)).
    destruct (reported l (af_offset arg)) as [[b|reason]|] eqn:Hrep; [|by apply Hrefused..].
    destruct ((bi_base b <=? _)%Z && _) eqn:Hin; [|by apply Hrefused]. apply andb_true_iff in Hin as [H1%Z.leb_le H2%Z.ltb_lt].
    eapply resource_step; [done|done|done|done|done|done|lia].
Qed.

Definition advanced (s : node_state) (cursor : nat) : node_state :=
  mkNodeState (ns_author s) (ns_refusals s) (ns_used s) (ns_args s) (ns_effects s) cursor (ns_atomic s).

Lemma advanced_inv done at_ s cursor : node_inv done at_ s → node_inv done at_ (advanced s cursor).
Proof using Type. intros []. by split. Qed.

Lemma arg_step done s arg :
  node_inv done (ns_cursor s) s → ns_cursor s ≤ af_offset arg → 0 < af_size arg →
  af_offset arg + af_size arg ≤ length (la_kernarg l) → (Z.of_nat (af_offset arg + af_size arg) ≤ umax 32)%Z →
  ∃ s', author_arg index l declared conditional s arg = Some s' ∧ node_inv (done ++ [arg]) (ns_cursor s') s' ∧
    ns_cursor s' = af_offset arg + af_size arg.
Proof using Hl.
  intros Hinv Hle Hpos Hlen Hsmall. unfold author_arg. rewrite (proj2 (add_u32_Some _ _ _) (conj eq_refl Hsmall)). cbn [mbind option_bind].
  assert (∃ s1, (if ns_cursor s <? af_offset arg then gap ← slice (la_kernarg l) (ns_cursor s) (af_offset arg); Some (push_arg s (ns_cursor s) (ArgConst gap)) else Some s) = Some s1 ∧
    node_inv done (af_offset arg) s1) as (s1 & -> & Hinv1).
  { destruct (Nat.ltb_spec (ns_cursor s) (af_offset arg)) as [Hlt|Hge].
    - assert (af_offset arg ≤ length (la_kernarg l)) as Hstart by lia.
      rewrite (proj2 (slice_Some (la_kernarg l) (ns_cursor s) (af_offset arg) _) (conj (conj Hle Hstart) eq_refl)). cbn [mbind option_bind].
      eexists. split; [done|]. apply gap_ok; [done|lia|lia].
    - exists s. split; [done|]. by replace (af_offset arg) with (ns_cursor s) by lia. }
  cbn [mbind option_bind]. rewrite (proj2 (slice_Some (la_kernarg l) (af_offset arg) _ _) (conj (conj (Nat.le_add_r _ _) Hlen) eq_refl)). cbn [mbind option_bind].
  replace (af_offset arg + af_size arg - af_offset arg) with (af_size arg) by lia. fold (bytes_at l (af_offset arg) (af_size arg)).
  eexists. split; [done|]. fold (advanced s1 (af_offset arg + af_size arg)).
  assert (∀ s' x, step_ok (advanced s1 (af_offset arg + af_size arg)) s' arg x →
    node_inv (done ++ [arg]) (ns_cursor s') s' ∧ ns_cursor s' = af_offset arg + af_size arg) as Hdone.
  { intros s' x Hstep. rewrite (st_cursor _ _ _ _ Hstep). split; [|done]. eapply step_inv; [by apply advanced_inv|done..]. }
  pose proof (ni_author _ _ _ Hinv1) as Ha. destruct (declared !! af_offset arg) as [role|] eqn:Hd.
  - destruct (word_step (advanced s1 (af_offset arg + af_size arg)) arg role Ha Hd Hlen) as [x Hx]. by eapply Hdone.
  - destruct (af_role arg) as [classes rc| |] eqn:Hrole.
    + destruct (pointer_step (advanced s1 (af_offset arg + af_size arg)) arg classes rc Ha Hd Hrole Hlen) as [x Hx]. by eapply Hdone.
    + eapply Hdone, const_step; [done..|]. intros _. unfold arg_sound. cbn zeta. by rewrite Hd, Hrole.
    + eapply Hdone, const_step; [done..|]. intros _. unfold arg_sound. cbn zeta. by rewrite Hd, Hrole.
Qed.

Lemma args_fold f :
  facts_ok f → (∀ a, a ∈ ft_args f → 0 < af_size a) → ft_explicit_bytes f ≤ length (la_kernarg l) → author_ok a0 →
  ∃ s, foldM (author_arg index l declared conditional) (mkNodeState a0 refusals0 0 [] [] 0 false) (ft_args f) = Some s ∧
    node_inv (ft_args f) (ns_cursor s) s ∧ ns_cursor s ≤ ft_explicit_bytes f.
Proof using Hl.
  intros Hf Hpos Hlen Ha.
  destruct (foldM_inv (λ done s, node_inv done (ns_cursor s) s ∧ ns_cursor s ≤ ft_explicit_bytes f ∧
    (ns_cursor s = 0 ∨ ∃ a, a ∈ done ∧ ns_cursor s = af_offset a + af_size a))
    (author_arg index l declared conditional) (ft_args f) (mkNodeState a0 refusals0 0 [] [] 0 false)) as (s & Hs & Hinv & Hle & _); [| |by exists s].
  - split; [|split; [cbn; lia|by left]]. split; cbn; try done; [lia|by intros ? ?%elem_of_nil| |by intros ? ? ?%elem_of_nil|by intros ? ? ?%elem_of_nil].
    exists ∅. split_and!; [apply empty_subseteq|apply size_empty|]. intros k Hk. by apply elem_of_empty in Hk.
  - intros l1 x l2 s Hsplit (Hinv & Hle & Hcur). assert (x ∈ ft_args f) as Hx by (rewrite Hsplit; apply elem_of_app; right; by left).
    assert (ns_cursor s ≤ af_offset x) as Hstart.
    { destruct Hcur as [->|(a & Hin & ->)]; [lia|]. pose proof (fo_sorted _ Hf) as Hsorted. rewrite Hsplit in Hsorted.
      by apply (StronglySorted_app_1_elem_of _ _ _ a x Hsorted Hin ltac:(by left)). }
    pose proof (fo_explicit _ Hf x Hx). pose proof (fo_small _ Hf x Hx). destruct (arg_step l1 s x Hinv Hstart) as (s' & Hs' & Hinv' & Hcur'); [by apply Hpos|lia|done|].
    exists s'. split; [done|]. split; [done|]. split; [lia|]. right. exists x. split; [apply elem_of_app; right; by left|done].
Qed.
End node.

(** ** A launch *)

(** The node of a launch whose facts are there and fit its kernarg. *)
Record certified (a : author_state) (l : LaunchRecord) (nf : NodeFacts) (n : KernelNode) : Prop := {
  ce_grid : kn_grid n = la_grid l;
  ce_block : kn_block n = la_block l;
  ce_lds : kn_dynamic_lds n = la_dynamic_lds l;
  ce_segment : kn_segment_bytes n = Some (ft_segment_bytes (nf_facts nf));
  ce_hidden : kn_hidden n = ft_hidden (nf_facts nf);
  ce_length : ft_explicit_bytes (nf_facts nf) ≤ length (la_kernarg l);
  ce_tiles : tiles 0 (ft_explicit_bytes (nf_facts nf)) (kn_args n);
  ce_reproduces entry : entry ∈ kn_args n → reproduces a l entry;
  ce_eligible : kn_lowering n ≠ HipDirect → fact_refusals (nf_facts nf) l = [] ∧ launch_refusals (nf_facts nf) l = [];
  ce_sound arg : kn_lowering n ≠ HipDirect → arg ∈ ft_args (nf_facts nf) →
    arg_sound l (declared_map (la_declared l)) (conditional_of (nf_facts nf)) (au_resources a) (kn_args n) (kn_effects n) arg;
  ce_words k : kn_lowering n ≠ HipDirect → k ∈ dom (declared_map (la_declared l)) → ∃ arg, arg ∈ ft_args (nf_facts nf) ∧ af_offset arg = k;
  ce_pm4 : kn_lowering n = Pm4Lowering → conditional_of (nf_facts nf) = None ∧ ∀ e, e ∈ kn_effects n → Atomic ∉ re_classes e
}.

Definition authored (a : author_state) (l : LaunchRecord) (n : KernelNode) : Prop :=
  match la_facts l with
  | Ok nf => if decide (ft_explicit_bytes (nf_facts nf) ≤ length (la_kernarg l)) then certified a l nf n else n = uncertified_node l
  | Err _ => n = uncertified_node l
  end.

Lemma certified_extends a a' l nf n : extends a a' → certified a l nf n → certified a' l nf n.
Proof.
  intros Hext []. split; try done.
  - intros entry Hin. by eapply reproduces_extends; [|auto].
  - intros arg Hlow Hin. eapply arg_sound_more; [apply Hext|done|done|auto].
Qed.

Lemma authored_extends a a' l n : extends a a' → authored a l n → authored a' l n.
Proof.
  intros Hext. unfold authored. destruct (la_facts l) as [nf|]; [|done]. destruct (decide _); [|done]. by apply certified_extends.
Qed.

Lemma lowering_cases refusals conditional atomic :
  (lowering_of refusals conditional atomic ≠ HipDirect → refusals = []) ∧
  (lowering_of refusals conditional atomic = Pm4Lowering → conditional = None ∧ atomic = false).
Proof. unfold lowering_of. destruct refusals; cbn; [|done]. by destruct conditional, atomic. Qed.

Lemma launch_facts_ok l nf : launch_ok l → la_facts l = Ok nf → facts_ok (nf_facts nf) ∧ (∀ a, a ∈ ft_args (nf_facts nf) → 0 < af_size a).
Proof.
  intros Hl Hnf. destruct (lk_facts _ Hl nf Hnf) as (record & Hrec & Hpos & _).
  destruct (from_record_inv _ _ Hrec) as (parts & Hparts & Hargs & _ & Hok). split; [done|]. intros a Ha. rewrite Hargs in Ha.
  destruct (parts_ok _ _ Hparts) as [Hparts1 _]. destruct (Hparts1 a Ha) as (r & Hr & _ & ->). by apply Hpos.
Qed.

Lemma author_launch_ok index l a :
  launch_ok l → author_ok a →
  ∃ n a', author_launch index l a = Some (n, a') ∧ author_ok a' ∧ extends a a' ∧ authored a' l n.
Proof.
  intros Hl Ha. unfold author_launch, authored. destruct (la_facts l) as [nf|reason] eqn:Hnf.
  2:{ eexists _, a. split; [done|]. split; [done|]. by split; [apply extends_refl|]. }
  destruct (Nat.ltb_spec (length (la_kernarg l)) (ft_explicit_bytes (nf_facts nf))) as [Hlt|Hlen].
  { eexists _, a. rewrite decide_False by lia. split; [done|]. split; [done|]. by split; [apply extends_refl|]. }
  destruct (launch_facts_ok l nf Hl Hnf) as [Hf Hpos]. cbn zeta. set (f := nf_facts nf) in *.
  set (declared := declared_map (la_declared l)). set (refusals := fact_refusals f l ++ launch_refusals f l).
  destruct (args_fold index l Hl a declared (conditional_of f) refusals f Hf Hpos Hlen Ha) as (s & -> & Hinv & Hcur). cbn [mbind option_bind].
  assert (∃ s1, (if ns_cursor s <? ft_explicit_bytes f then gap ← slice (la_kernarg l) (ns_cursor s) (ft_explicit_bytes f); Some (push_arg s (ns_cursor s) (ArgConst gap)) else Some s) = Some s1 ∧
    node_inv l a declared (conditional_of f) refusals (ft_args f) (ft_explicit_bytes f) s1) as (s1 & -> & Hinv1).
  { destruct (Nat.ltb_spec (ns_cursor s) (ft_explicit_bytes f)) as [Hlt|Hge].
    - rewrite (proj2 (slice_Some (la_kernarg l) (ns_cursor s) (ft_explicit_bytes f) _) (conj (conj Hcur Hlen) eq_refl)). cbn [mbind option_bind].
      eexists. split; [done|]. by apply gap_ok.
    - exists s. split; [done|]. by replace (ft_explicit_bytes f) with (ns_cursor s) by lia. }
  cbn [mbind option_bind]. destruct Hinv1 as [Hauth Hext _ Htiles Hrep (ks & Hks & Hsize & Hkeys) Href Hsound Hatom].
  assert (size ks ≤ size declared) as Hle by (rewrite <-size_dom; by apply subseteq_size).
  assert (∃ words, (if ns_used s1 =? size declared then Some [] else if ns_used s1 <? size declared then Some [WordsNameNone (size declared - ns_used s1)] else None) = Some words ∧
    (words = [] → ns_used s1 = size declared)) as (words & -> & Hwords).
  { destruct (Nat.eqb_spec (ns_used s1) (size declared)); [by eexists|]. destruct (Nat.ltb_spec (ns_used s1) (size declared)); [by eexists|lia]. }
  cbn [mbind option_bind]. eexists _, _. split; [done|]. split; [done|]. split; [done|]. rewrite decide_True by done.
  destruct (lowering_cases (ns_refusals s1 ++ words) (conditional_of f) (ns_atomic s1)) as [Helig Hpm4].
  split; cbn [kn_grid kn_block kn_dynamic_lds kn_segment_bytes kn_hidden kn_args kn_effects kn_lowering]; try done.
  - intros [Hno _]%Helig%app_eq_nil. apply Href in Hno. by apply app_eq_nil in Hno.
  - intros arg [Hno _]%Helig%app_eq_nil Hin. by apply Hsound.
  - intros k [_ Hno]%Helig%app_eq_nil Hk. apply Hwords in Hno. assert (ks = dom declared) as ->.
    { apply set_subseteq_size_eq; [done|]. rewrite size_dom. lia. }
    by destruct (Hkeys k Hk) as [_ ?].
  - intros [Hc Hat]%Hpm4. split; [done|]. by auto.
Qed.

(** ** Programs *)

Lemma author_launches_ok index launches a :
  Forall launch_ok launches → author_ok a →
  ∃ nodes a', author_launches index launches a = Some (nodes, a') ∧ author_ok a' ∧ extends a a' ∧ Forall2 (authored a') launches nodes.
Proof.
  intros Hall. revert index a. induction Hall as [|l launches Hl _ IH]; intros index a Ha; cbn [author_launches].
  { exists [], a. split_and!; [done|done|apply extends_refl|constructor]. }
  destruct (author_launch_ok index l a Hl Ha) as (n & a1 & -> & Ha1 & Hext1 & Hn). cbn [mbind option_bind fst snd].
  destruct (IH (S index) a1 Ha1) as (nodes & a2 & -> & Ha2 & Hext2 & Hnodes). cbn [mbind option_bind fst snd].
  exists (n :: nodes), a2. split; [done|]. split; [done|]. split; [by eapply extends_trans|]. constructor; [by eapply authored_extends|done].
Qed.

(** What [author] answers. *)
Lemma author_ok_all arch launches :
  Forall launch_ok launches →
  ∃ a nodes, author arch launches = Some (mkKernelProgram arch (au_resources a) (au_words a) nodes []) ∧ author_ok a ∧ Forall2 (authored a) launches nodes.
Proof.
  intros Hall. destruct (author_launches_ok 0 launches (mkAuthor [] ∅ []) Hall) as (nodes & a & Hn & Ha & _ & H).
  { split; [intros k r; cbn; by rewrite lookup_empty|done]. }
  exists a, nodes. split; [|done]. unfold author. by rewrite Hn.
Qed.

Lemma author_inv arch launches program :
  Forall launch_ok launches → author arch launches = Some program →
  ∃ a, program = mkKernelProgram arch (au_resources a) (au_words a) (kp_nodes program) [] ∧ author_ok a ∧ Forall2 (authored a) launches (kp_nodes program).
Proof. intros Hall Hp. destruct (author_ok_all arch launches Hall) as (a & nodes & Ha & H). rewrite Hp in Ha. injection Ha as ->. by exists a. Qed.

Lemma authored_cases a l n :
  authored a l n → n = uncertified_node l ∨ ∃ nf, la_facts l = Ok nf ∧ certified a l nf n.
Proof. unfold authored. destruct (la_facts l) as [nf|]; [|by left]. destruct (decide _); [right; by exists nf|by left]. Qed.

Lemma certified_laid_out a l nf n :
  launch_ok l → la_facts l = Ok nf → certified a l nf n → node_laid_out n (ft_segment_bytes (nf_facts nf)).
Proof.
  intros Hl Hnf Hn. destruct (launch_facts_ok l nf Hl Hnf) as [Hf _]. destruct (lk_facts _ Hl nf Hnf) as (_ & _ & _ & Hhid).
  pose proof (fo_segment _ Hf) as Hseg. split; rewrite ?(ce_hidden _ _ _ _ Hn), ?(ce_block _ _ _ _ Hn), ?(ce_lds _ _ _ _ Hn).
  - apply Forall_app. split; apply Forall_fmap, Forall_forall; unfold span_fits; cbn.
    + intros x Hx. destruct (tiles_elem _ _ _ _ (ce_tiles _ _ _ _ Hn) Hx) as [_ H]. cbn in H. unfold arg_span in *. cbn in *. lia.
    + intros h Hh. by apply (fo_hidden _ Hf).
  - apply StronglySorted_app. split_and!; [|by eapply tiles_apart, ce_tiles|done].
    intros s t (x & -> & Hx)%list_elem_of_fmap (h & -> & Hh)%list_elem_of_fmap. left.
    destruct (tiles_elem _ _ _ _ (ce_tiles _ _ _ _ Hn) Hx) as [_ H]. destruct (fo_hidden _ Hf h Hh) as [H' _]. cbn in *. lia.
  - split; [apply Hl|apply Hl].
  - apply Forall_forall. intros h Hh. by apply (fo_axes _ Hf).
Qed.

Lemma authored_wf arch launches program : Forall launch_ok launches → author arch launches = Some program → program_wf program.
Proof.
  intros Hall Hp. destruct (author_inv _ _ _ Hall Hp) as (a & Heq & _ & Hnodes).
  assert (∀ n, n ∈ kp_nodes program → ∃ l, launch_ok l ∧ (n = uncertified_node l ∨ ∃ nf, la_facts l = Ok nf ∧ certified a l nf n)) as Hcases.
  { intros n [j Hj]%list_elem_of_lookup. destruct (Forall2_lookup_r _ _ _ _ _ Hnodes Hj) as (l & Hl & Hauth). exists l.
    split; [by eapply Forall_lookup_1|by apply authored_cases]. }
  split.
  - intros n segment Hin Hseg. destruct (Hcases n Hin) as (l & Hl & [->|(nf & Hnf & Hc)]); [done|].
    rewrite (ce_segment _ _ _ _ Hc) in Hseg. injection Hseg as <-. by eapply certified_laid_out.
  - intros n Hin. destruct (Hcases n Hin) as (l & Hl & [->|(nf & Hnf & Hc)]); [apply Hl|]. rewrite (ce_grid _ _ _ _ Hc). apply Hl.
  - intros n offset r interior Hin Harg. destruct (Hcases n Hin) as (l & Hl & [->|(nf & Hnf & Hc)]).
    + cbn in Harg. by apply list_elem_of_singleton in Harg.
    + pose proof (ce_reproduces _ _ _ _ Hc _ Harg) as (b & Hb & Hi & _). split; [|done]. rewrite Heq. cbn. by apply lookup_lt_Some in Hb.
Qed.

(** ** Images *)

Definition hidden_fits (n : KernelNode) (h : HiddenArg) : Prop :=
  ∀ v, hidden_value n (kn_grid n) (hd_kind h) = Some v → hd_size h ≤ 8 ∧ (hd_size h = 8 ∨ (v < 2 ^ (8 * Z.of_nat (hd_size h)))%Z).

Lemma mapM_total {A B} (f : A → option B) (g : A → B) l : (∀ x, x ∈ l → f x = Some (g x)) → mapM f l = Some (g <$> l).
Proof.
  intros H. apply mapM_Some, Forall2_fmap_r, Forall_Forall2_diag, Forall_forall. intros x Hx. by apply H.
Qed.

Section image.
Context (program : KernelProgram) (a : author_state) (l : LaunchRecord) (nf : NodeFacts) (n : KernelNode) (node : nat).
Context (Hres : kp_resources program = au_resources a) (Hwords : kp_words program = au_words a) (Hn : kp_nodes program !! node = Some n).
Context (Hl : launch_ok l) (Hnf : la_facts l = Ok nf) (Hc : certified a l nf n).
Local Abbreviation words := (authored_words program).
Local Abbreviation segment := (ft_segment_bytes (nf_facts nf)).

Definition authored_field (entry : nat * Arg) : field := (entry.1, bytes_at l entry.1 (arg_span entry).2).

Lemma arg_field_authored entry : entry ∈ kn_args n → arg_field program words default_overrides entry = Some (authored_field entry).
Proof using Hc Hres Hwords.
  intros Hin. pose proof (ce_reproduces _ _ _ _ Hc _ Hin) as Hrep. unfold reproduces in Hrep. unfold authored_field.
  destruct entry as [offset [bytes|r interior|id]]; cbn [arg_field arg_span fst snd] in *.
  - by rewrite <-Hrep.
  - destruct Hrep as (b & Hb & Hi & Hmax & Hbytes). unfold live_resources. cbn [default_overrides ov_resources default]. rewrite Hres, Hb.
    cbn [mbind option_bind]. unfold interior_of. cbn [default_overrides ov_interiors List.find fmap option_fmap option_map default].
    rewrite decide_True by done. by rewrite Hbytes.
  - destruct Hrep as (w & Hw & Hbytes). unfold authored_words. rewrite list_lookup_fmap, Hwords, Hw. cbn [fmap option_fmap option_map mbind option_bind].
    by rewrite Hbytes.
Qed.

Definition hidden_bytes (h : HiddenArg) : field :=
  (hd_offset h, take (hd_size h) (le_bytes 8 (default 0%Z (hidden_value n (kn_grid n) (hd_kind h))))).

Lemma hidden_field_authored h :
  h ∈ kn_hidden n → hidden_fits n h → hidden_field n (kn_grid n) h = Some (hidden_bytes h).
Proof using Hc Hl Hnf.
  intros Hin Hfit. pose proof (certified_laid_out _ _ _ _ Hl Hnf Hc) as Hlo.
  destruct (hidden_value_nonneg n segment (kn_grid n) h Hlo) as (v & Hv & _); [rewrite (ce_grid _ _ _ _ Hc); apply Hl|done|].
  unfold hidden_field, hidden_bytes. rewrite Hv. cbn [mbind option_bind default]. by rewrite decide_True by (by apply Hfit).
Qed.

Lemma image_authored :
  (∀ h, h ∈ kn_hidden n → hidden_fits n h) →
  ∃ image, kernarg_image program node segment words = Done image ∧
    image_of segment ((authored_field <$> kn_args n) ++ (hidden_bytes <$> kn_hidden n)) image.
Proof using Hc Hl Hn Hnf Hres Hwords.
  intros Hfits. unfold kernarg_image.
  pose proof (encode_ok program words default_overrides node n (replicate segment 0%Z) Hn) as H. rewrite length_replicate in H.
  specialize (H (certified_laid_out _ _ _ _ Hl Hnf Hc)). unfold live_grid in H. cbn [default_overrides ov_grid default] in H.
  unfold node_fields in H. rewrite (mapM_total _ authored_field _ arg_field_authored) in H. cbn [mbind option_bind] in H.
  rewrite (mapM_total _ hidden_bytes (kn_hidden n)) in H by (intros h Hh; by apply hidden_field_authored; auto). cbn [mbind option_bind] in H.
  destruct H as (image & -> & Him).
  - rewrite (ce_grid _ _ _ _ Hc). apply Hl.
  - by intros [? [=]].
  - apply (ce_segment _ _ _ _ Hc).
  - by exists image.
Qed.

Lemma image_explicit image i :
  image_of segment ((authored_field <$> kn_args n) ++ (hidden_bytes <$> kn_hidden n)) image →
  i < ft_explicit_bytes (nf_facts nf) → image !! i = la_kernarg l !! i.
Proof using Hc.
  intros Him Hi. pose proof (ce_tiles _ _ _ _ Hc) as Ht. destruct (tiles_cover _ _ _ i Ht ltac:(lia)) as (entry & Hin & Hcov).
  destruct (tiles_elem _ _ _ _ Ht Hin) as [_ Hend]. pose proof (ce_length _ _ _ _ Hc) as Hlen.
  assert (length (bytes_at l entry.1 (arg_span entry).2) = (arg_span entry).2) as Hb by (apply length_bytes_at; lia).
  rewrite (io_field _ _ _ Him (authored_field entry)).
  - change (bytes_at l entry.1 (arg_span entry).2 !! (i - entry.1) = la_kernarg l !! i). unfold bytes_at.
    rewrite lookup_take_lt by lia. rewrite lookup_drop. f_equal. lia.
  - apply elem_of_app. left. by apply list_elem_of_fmap_2.
  - unfold covers, authored_field. cbn [fst snd]. lia.
Qed.
End image.

(** ** Conflicts *)

(** The receipt of the launch says that its kernel accesses memory of a class
    through a pointer, and the pointer was probed to be in the allocation. *)
Definition accesses (l : LaunchRecord) (b : Binding) (class : MemClass) : Prop :=
  ∃ nf arg classes rc, la_facts l = Ok nf ∧ arg ∈ ft_args (nf_facts nf) ∧ af_role arg = Pointer classes rc ∧ class ∈ classes ∧
    le_value (bytes_at l (af_offset arg) 8) ≠ 0%Z ∧ reported l (af_offset arg) = Some (Ok b).

Lemma push_class_incl classes class : classes ⊆ push_class classes class.
Proof. unfold push_class. destruct (bool_decide _); [done|]. set_solver. Qed.

Lemma add_indexed_incl offset classes e : classes ⊆ add_indexed offset classes e.
Proof.
  unfold add_indexed. assert (∀ loads c0, c0 ⊆ foldl (λ cs l, if il_source_arg_offset l =? offset then push_class cs (il_class l) else cs) c0 loads) as Hloads.
  { induction loads as [|x loads IH]; intros c0; cbn [foldl]; [done|]. etrans; [|apply IH]. destruct (_ =? _); [apply push_class_incl|done]. }
  etrans; [|apply Hloads]. destruct (_ =? _); [apply push_class_incl|done].
Qed.

Lemma all_classes_incl conditional offset classes : classes ⊆ all_classes conditional offset classes.
Proof.
  unfold all_classes. destruct conditional as [c|]; [|done]. generalize (cf_indexed c) as es. intros es. revert classes.
  induction es as [|e es IH]; intros classes; cbn [foldl]; [done|]. etrans; [apply add_indexed_incl|apply IH].
Qed.

(** An access of a node that is not a host launch is one of its effects. *)
Lemma access_effect a l n b class :
  authored a l n → kn_lowering n ≠ HipDirect → accesses l b class →
  ∃ e, e ∈ kn_effects n ∧ class ∈ re_classes e ∧ au_resources a !! re_resource e = Some b.
Proof.
  intros Hn Hlow (nf & arg & classes & rc & Hnf & Harg & Hrole & Hclass & Hnz & Hrep).
  apply authored_cases in Hn as [->|(nf' & Hnf' & Hc)]; [done|]. assert (nf' = nf) as -> by congruence.
  pose proof (ce_sound _ _ _ _ Hc arg Hlow Harg) as Hs. unfold arg_sound in Hs. cbn zeta in Hs. rewrite Hrole in Hs.
  destruct (declared_map _ !! _); [by destruct Hs|]. destruct Hs as [_ [Hz|(r & b' & Hb & Hrep' & _ & _ & He)]]; [done|].
  assert (b' = b) as -> by congruence. pose proof (all_classes_incl (conditional_of (nf_facts nf)) (af_offset arg) classes class Hclass) as Hin.
  eexists. split; [apply He; intros Hnil; rewrite Hnil in Hin; by apply elem_of_nil in Hin|]. by split.
Qed.

Lemma has_class (f : MemClass → bool) e class : class ∈ re_classes e → f class = true → existsb f (re_classes e) = true.
Proof. intros Hin Hf. apply existsb_exists. exists class. by rewrite <-list_elem_of_In. Qed.

(** The hazards of two accesses of one allocation, in their order. *)
Definition class_hazards (c1 c2 : MemClass) : list Hazard :=
  (if class_writes c1 && class_reads c2 then [Raw] else [])
  ++ (if class_reads c1 && class_writes c2 then [War] else [])
  ++ (if class_writes c1 && class_writes c2 then [Waw] else [])
  ++ (if bool_decide (c1 = VmemLoad) && bool_decide (c2 = VmemStore) then [WarPreWriter] else []).

Lemma elem_of_class_hazards c1 c2 h :
  h ∈ class_hazards c1 c2 ↔
    match h with
    | Raw => class_writes c1 = true ∧ class_reads c2 = true
    | War => class_reads c1 = true ∧ class_writes c2 = true
    | Waw => class_writes c1 = true ∧ class_writes c2 = true
    | WarPreWriter => c1 = VmemLoad ∧ c2 = VmemStore
    end.
Proof.
  unfold class_hazards. rewrite !elem_of_app.
  destruct (class_writes c1), (class_reads c1), (class_writes c2), (class_reads c2), (bool_decide_reflect (c1 = VmemLoad)), (bool_decide_reflect (c2 = VmemStore));
    cbn; rewrite ?list_elem_of_singleton, ?elem_of_nil; destruct h; intuition congruence.
Qed.

Lemma conflict_hazards c1 c2 : class_writes c1 || class_writes c2 = true → class_hazards c1 c2 ≠ [].
Proof. by destruct c1, c2. Qed.

Lemma accesses_hazard a l1 l2 n1 n2 b c1 c2 h :
  author_ok a → authored a l1 n1 → authored a l2 n2 → kn_lowering n1 ≠ HipDirect → kn_lowering n2 ≠ HipDirect →
  accesses l1 b c1 → accesses l2 b c2 → h ∈ class_hazards c1 c2 → hazard_between n1 n2 h.
Proof.
  intros Ha Hn1 Hn2 Hl1 Hl2 Ha1 Ha2 Hh. destruct (access_effect _ _ _ _ _ Hn1 Hl1 Ha1) as (e1 & He1 & Hc1 & Hr1).
  destruct (access_effect _ _ _ _ _ Hn2 Hl2 Ha2) as (e2 & He2 & Hc2 & Hr2). pose proof (resource_unique _ _ _ _ Ha Hr1 Hr2) as Heq.
  exists e1, e2. split; [done|]. split; [done|]. split; [done|]. unfold effect_writes, effect_reads, effect_has.
  apply elem_of_class_hazards in Hh. destruct h; destruct Hh as [H1 H2]; [split; by eapply has_class..|].
  subst. by rewrite !bool_decide_true.
Qed.

(** *** Reasons against a node *)

Lemma fact_refusals_nil f l :
  fact_refusals f l = [] → conditional_of f = None → ft_status f = Proven ∧ ft_differential f ≠ lit "fail".
Proof.
  intros [Hs Hd]%app_eq_nil Hc. unfold conditional_of in Hc. split; [by destruct (ft_status f)|].
  destruct (bool_decide_reflect (ft_differential f = lit "fail")); [done|done].
Qed.

Lemma launch_refusals_nil f l :
  launch_refusals f l = [] →
  (∀ i b, ft_explicit_bytes f ≤ i → la_kernarg l !! i = Some b → b = 0%Z) ∧
  (∀ h, h ∈ ft_hidden f → hd_loaded h = true → hd_kind h ≠ OtherHidden).
Proof.
  intros [Ht Hh]%app_eq_nil. split.
  - destruct (existsb _ _) eqn:He; [done|]. intros i b Hi Hb. destruct (Z.eqb_spec b 0) as [|Hne]; [done|exfalso].
    apply not_true_iff_false in He. apply He, existsb_exists. exists b. split; [|by rewrite (proj2 (Z.eqb_neq _ _) Hne)].
    apply list_elem_of_In, list_elem_of_lookup. exists (i - ft_explicit_bytes f). rewrite lookup_drop. rewrite <-Hb. f_equal. lia.
  - intros h Hin Hload Hother. apply fmap_nil_inv in Hh. assert (h ∈ List.filter (λ h, hd_loaded h && is_other (hd_kind h)) (ft_hidden f)) as H.
    { apply list_elem_of_In, filter_In. rewrite <-list_elem_of_In, Hload, Hother. done. }
    rewrite Hh in H. by apply elem_of_nil in H.
Qed.

Lemma declared_dom declared w : w ∈ declared → dw_offset w ∈ dom (declared_map declared).
Proof.
  unfold declared_map. assert (∀ (l : list DeclaredWord) (m : gmap nat WordRole), dom m ⊆ dom (foldl (λ m w, <[dw_offset w:=dw_role w]> m) m l) ∧
    ∀ w, w ∈ l → dw_offset w ∈ dom (foldl (λ m w, <[dw_offset w:=dw_role w]> m) m l)) as Hgen; [|by apply Hgen].
  induction l as [|x l IH]; intros m; cbn [foldl]; [split; [done|by intros ? ?%elem_of_nil]|].
  destruct (IH (<[dw_offset x:=dw_role x]> m)) as [H1 H2]. rewrite dom_insert in H1. split; [set_solver|].
  intros y [->|Hy]%elem_of_cons; [set_solver|by apply H2].
Qed.

(** ** What the author of a program may rely on *)

(** C11: Authoring recorded launches never panics and gives one node per launch.  The
    program is laid out: arguments and hidden fields fit the segment and do not
    meet, and pointers name resources.  A node is either a host launch of its
    whole kernarg, or its arguments tile the explicit segment. *)
Theorem authored_program arch launches :
  Forall launch_ok launches →
  ∃ program, author arch launches = Some program ∧ length (kp_nodes program) = length launches ∧
    kp_conditionals program = [] ∧ program_wf program ∧
    ∀ j l n, launches !! j = Some l → kp_nodes program !! j = Some n →
      n = uncertified_node l ∨
      ∃ nf, la_facts l = Ok nf ∧ kn_segment_bytes n = Some (ft_segment_bytes (nf_facts nf)) ∧
        tiles 0 (ft_explicit_bytes (nf_facts nf)) (kn_args n).
Proof.
  intros Hall. destruct (author_ok_all arch launches Hall) as (a & nodes & Hp & _ & Hnodes). eexists. split; [exact Hp|].
  split; [symmetry; by eapply Forall2_length|]. split; [done|]. split; [by eapply authored_wf|].
  intros j l n Hl Hn. pose proof (Forall2_lookup_lr _ _ _ _ _ _ Hnodes Hl Hn) as [->|(nf & Hnf & Hc)]%authored_cases; [by left|right].
  exists nf. split; [done|]. split; [apply (ce_segment _ _ _ _ Hc)|apply (ce_tiles _ _ _ _ Hc)].
Qed.

(** C10: Encoding an authored node with the authored words gives back the recorded
    launch: when the hidden values fit their fields, the image has the size of the
    segment, its explicit part is that of the recorded kernarg byte for byte,
    every hidden field holds its value, and the rest is zero. *)
Theorem authored_image arch launches program j l nf n :
  Forall launch_ok launches → author arch launches = Some program →
  launches !! j = Some l → la_facts l = Ok nf → kp_nodes program !! j = Some n → kn_segment_bytes n = Some (ft_segment_bytes (nf_facts nf)) →
  (∀ h, h ∈ ft_hidden (nf_facts nf) → hidden_fits n h) →
  ∃ image, kernarg_image program j (ft_segment_bytes (nf_facts nf)) (authored_words program) = Done image ∧
    length image = ft_segment_bytes (nf_facts nf) ∧
    take (ft_explicit_bytes (nf_facts nf)) image = take (ft_explicit_bytes (nf_facts nf)) (la_kernarg l) ∧
    (∀ h v, h ∈ ft_hidden (nf_facts nf) → hidden_value n (la_grid l) (hd_kind h) = Some v →
       ∀ i, i < hd_size h → image !! (hd_offset h + i) = le_bytes 8 v !! i) ∧
    ∀ i, ft_explicit_bytes (nf_facts nf) ≤ i < ft_segment_bytes (nf_facts nf) →
      (∀ h, h ∈ ft_hidden (nf_facts nf) → ¬ (hd_offset h ≤ i < hd_offset h + hd_size h)) → image !! i = Some 0%Z.
Proof.
  intros Hall Hp Hl Hnf Hn Hseg Hfits. destruct (author_inv _ _ _ Hall Hp) as (a & Heq & _ & Hnodes).
  pose proof (Forall_lookup_1 _ _ _ _ Hall Hl) as Hlok. destruct (launch_facts_ok l nf Hlok Hnf) as [Hf _].
  pose proof (Forall2_lookup_lr _ _ _ _ _ _ Hnodes Hl Hn) as [->|(nf' & Hnf' & Hc)]%authored_cases; [done|].
  assert (nf' = nf) as -> by congruence. rewrite <-(ce_hidden _ _ _ _ Hc) in *.
  destruct (image_authored program a l nf n j) as (image & Himage & Him); try done; [by rewrite Heq|by rewrite Heq|].
  exists image. split; [exact Himage|]. pose proof (io_length _ _ _ Him) as Hlen. pose proof (fo_segment _ Hf) as Hle.
  pose proof (ce_length _ _ _ _ Hc) as Hk. split; [done|]. split; [|split].
  - apply list_eq. intros i. destruct (decide (i < ft_explicit_bytes (nf_facts nf))) as [Hi|Hi].
    + rewrite !lookup_take_lt by lia. by eapply image_explicit.
    + by rewrite !lookup_take_ge by lia.
  - intros h v Hh Hv i Hi. rewrite <-(ce_grid _ _ _ _ Hc) in Hv. destruct (Hfits h Hh v Hv) as [H8 _].
    rewrite (io_field _ _ _ Him (hidden_bytes n h)); [|apply elem_of_app; right; by apply list_elem_of_fmap_2|].
    + unfold hidden_bytes. rewrite Hv. cbn [fst snd default]. rewrite lookup_take_lt by lia. f_equal. lia.
    + unfold covers, hidden_bytes. cbn [fst snd]. rewrite length_take, length_le_bytes. lia.
  - intros i Hi Hno. apply (io_zero _ _ _ Him); [lia|]. intros g [(x & -> & Hx)%list_elem_of_fmap|(h & -> & Hh)%list_elem_of_fmap]%elem_of_app Hcov.
    + destruct (tiles_elem _ _ _ _ (ce_tiles _ _ _ _ Hc) Hx) as [_ Hend]. unfold covers, authored_field in Hcov.
      cbn [fst snd] in Hcov. rewrite length_bytes_at in Hcov by lia. lia.
    + apply (Hno h Hh). unfold covers, hidden_bytes in Hcov. cbn [fst snd] in Hcov. rewrite length_take, length_le_bytes in Hcov. lia.
Qed.

(** C9: A node is lowered to PM4 only for a receipt that is proven: the kernarg has
    no byte past the explicit segment, no unknown hidden argument is loaded, every
    declared word is a 4-byte integer argument, and every pointer argument is
    null or inside the allocation that was probed for it, which is its resource
    with the effect that the receipt states; no effect is an atomic that does not
    commute. *)
Theorem pm4_only_when_proven arch launches program j l n :
  Forall launch_ok launches → author arch launches = Some program →
  launches !! j = Some l → kp_nodes program !! j = Some n → kn_lowering n = Pm4Lowering →
  ∃ nf, la_facts l = Ok nf ∧ ft_status (nf_facts nf) = Proven ∧ ft_differential (nf_facts nf) ≠ lit "fail" ∧
    ft_explicit_bytes (nf_facts nf) ≤ length (la_kernarg l) ∧
    (∀ i b, ft_explicit_bytes (nf_facts nf) ≤ i → la_kernarg l !! i = Some b → b = 0%Z) ∧
    (∀ h, h ∈ ft_hidden (nf_facts nf) → hd_loaded h = true → hd_kind h ≠ OtherHidden) ∧
    (∀ w, w ∈ la_declared l → ∃ arg id, arg ∈ ft_args (nf_facts nf) ∧ af_offset arg = dw_offset w ∧
       af_role arg = Integer ∧ af_size arg = 4 ∧ (af_offset arg, ArgWord id) ∈ kn_args n) ∧
    (∀ arg classes rc, arg ∈ ft_args (nf_facts nf) → af_role arg = Pointer classes rc →
       let value := le_value (bytes_at l (af_offset arg) 8) in
       value = 0%Z ∨ ∃ r b, kp_resources program !! r = Some b ∧ reported l (af_offset arg) = Some (Ok b) ∧
         (bi_base b ≤ value < bi_base b + Z.max (bi_bytes b) 1)%Z ∧
         (af_offset arg, ArgResource r (value - bi_base b)%Z) ∈ kn_args n ∧
         (classes ≠ [] → mkRegionEffect (af_offset arg) r classes ∈ kn_effects n)) ∧
    ∀ e, e ∈ kn_effects n → Atomic ∉ re_classes e.
Proof.
  intros Hall Hp Hl Hn Hlow. destruct (author_inv _ _ _ Hall Hp) as (a & Heq & _ & Hnodes).
  pose proof (Forall2_lookup_lr _ _ _ _ _ _ Hnodes Hl Hn) as [->|(nf & Hnf & Hc)]%authored_cases; [done|].
  assert (kn_lowering n ≠ HipDirect) as Hne by (by rewrite Hlow). destruct (ce_eligible _ _ _ _ Hc Hne) as [Hfr Hlr].
  destruct (ce_pm4 _ _ _ _ Hc Hlow) as [Hcond Hatom]. exists nf. split; [done|].
  destruct (fact_refusals_nil _ _ Hfr Hcond) as [Hproven Hdiff]. destruct (launch_refusals_nil _ _ Hlr) as [Htail Hhid].
  split_and!; [done|done|apply (ce_length _ _ _ _ Hc)|done|done| | |done].
  - intros w Hw. destruct (ce_words _ _ _ _ Hc _ Hne (declared_dom _ _ Hw)) as (arg & Harg & Hoff). exists arg.
    pose proof (ce_sound _ _ _ _ Hc arg Hne Harg) as Hs. unfold arg_sound in Hs. cbn zeta in Hs. rewrite Hoff in Hs.
    pose proof (declared_dom _ _ Hw) as [role Hrole]%elem_of_dom. rewrite Hrole in Hs. destruct Hs as (H1 & H2 & id & H3).
    exists id. by rewrite Hoff.
  - intros arg classes rc Harg Hrole. cbn zeta. pose proof (ce_sound _ _ _ _ Hc arg Hne Harg) as Hs. unfold arg_sound in Hs.
    cbn zeta in Hs. rewrite Hrole, Hcond in Hs. destruct (declared_map _ !! _); [by destruct Hs|]. rewrite Heq. cbn. by destruct Hs.
Qed.

(** C8: From recorded launches to the commands of a segment: when the receipts of two
    launches say that their kernels access one probed allocation, one of them
    writing, and a run dispatches both from a PM4 segment, then for each hazard
    of the two accesses (a load after a store, a store after a load, a store
    after a store, and the writer side of the second) it issues between them a
    boundary that waits and acquires at inter-node scope, and for the system on
    the writer side; and that acquires what the row of that hazard asks, unless
    the row of another dependent hazard asks for less. *)
Theorem recorded_conflicts_ordered arch launches program cs program' table_arch table policy plan sg ops t t1 i t2 k t3 li lk b ci ck :
  Forall launch_ok launches → author arch launches = Some program → foldE add_conditional program cs = Done program' →
  arch_table table_arch table →
  boundary_plan program' table policy = Some plan → sg ∈ pm_segments plan → segment_ops plan sg = Some ops →
  executes ops t → t = t1 ++ OpDispatch i :: t2 ++ OpDispatch k :: t3 →
  launches !! i = Some li → launches !! k = Some lk → accesses li b ci → accesses lk b ck → class_writes ci || class_writes ck = true →
  class_hazards ci ck ≠ [] ∧ ∀ h, h ∈ class_hazards ci ck →
    ∃ v need, OpBoundary v ∈ t2 ∧ visibility_of table policy h = Some need ∧ vis_covers v (own_visibility h) = true ∧
      (asks_least (visibility_of table policy) h → vis_covers v need = true).
Proof.
  intros Hall Hp Hadd Harch Hplan Hsg Hops Hex Ht Hli Hlk Hai Hak Hw. split; [by apply conflict_hazards|]. intros h Hh.
  destruct (author_inv _ _ _ Hall Hp) as (a & Heq & Ha & Hnodes).
  destruct (add_conditionals_ok program cs program') as [Hsame Hconds%skips_of_ok]; [by rewrite Heq|done|].
  destruct (table_rows_ask _ _ policy Harch) as [Huni _]. set (vis := λ h, default no_visibility (visibility_of table policy h)) in *.
  destruct (boundary_plan_ok program' table policy vis Hconds Huni) as (plan' & Hplan' & Hok). rewrite Hplan in Hplan'. injection Hplan' as <-.
  destruct (dispatched_pm4 program' _ vis plan sg Hconds Hok Hsg ops t t1 i _ Hops Hex Ht) as (ni & Hni & Hpi).
  destruct (dispatched_pm4 program' _ vis plan sg Hconds Hok Hsg ops t (t1 ++ OpDispatch i :: t2) k t3 Hops Hex) as (nk & Hnk & Hpk).
  { rewrite Ht, <-app_assoc. done. }
  assert (∀ n, is_pm4 (kn_lowering n) = true → kn_lowering n ≠ HipDirect) as Hpm4 by (intros n; by destruct (kn_lowering n)).
  pose proof Hni as Hni'. pose proof Hnk as Hnk'. rewrite Hsame in Hni', Hnk'.
  pose proof (accesses_hazard a li lk ni nk b ci ck h Ha (Forall2_lookup_lr _ _ _ _ _ _ Hnodes Hli Hni')
    (Forall2_lookup_lr _ _ _ _ _ _ Hnodes Hlk Hnk') (Hpm4 _ Hpi) (Hpm4 _ Hpk) Hai Hak Hh) as Hhaz.
  destruct (commands_covered program' _ vis plan sg Hconds Hok Hsg ops t t1 i t2 k t3 ni nk h Hops Hex Ht Hni Hnk Hhaz) as (v & Hv & Hc).
  exists v, (vis h). split; [done|]. split; [apply (ra_some _ _ Huni)|exact Hc].
Qed.

(** *** Two launches: a store and a load of one allocation *)

Definition demo_pointer (class : rstr) : ArgRecord := mkArgRecord 0 8 (lit "global_buffer") (lit "pointer") [class] (lit "not_read") true.
Definition demo_count : ArgRecord := mkArgRecord 8 4 (lit "by_value") (lit "integer") [] (lit "not_read") true.
Definition demo_blocks : ArgRecord := mkArgRecord 16 4 (lit "hidden_block_count_x") (lit "integer") [] (lit "not_read") true.
Definition demo_record (class : rstr) : KernelRecord :=
  mkRecord (lit "k") (lit "proven") [] 24 (lit "not_read") [] [demo_blocks; demo_count; demo_pointer class] (lit "pass") [] [] [] [] None.
Definition demo_facts (class : MemClass) : KernelFacts :=
  mkFacts Proven 12 24 NotRead [mkArgFact 0 8 (Pointer [class] NotRead); mkArgFact 8 4 Integer]
    [mkHidden 16 4 (BlockCount 0) (lit "hidden_block_count_x") true] [] (lit "pass") None.
Definition demo_binding : Binding := mkBinding 4096 64.
Definition demo_launch (class : MemClass) : LaunchRecord :=
  mkLaunch (lit "k") (mk3 3 1 1) (mk3 32 1 1) 0 (le_bytes 8 4112 ++ le_bytes 4 7 ++ [0; 0]%Z) [mkDeclared 8 WindowWord]
    (Ok (mkNodeFacts (mkRef (lit "a") (lit "r")) (demo_facts class))) [(0, Ok demo_binding)].
Definition demo_launches : list LaunchRecord := [demo_launch VmemStore; demo_launch VmemLoad].
Definition demo_authored : KernelProgram := default (mkKernelProgram [] [] [] [] []) (author (lit "gfx1201") demo_launches).

Lemma demo_from_record : from_record (demo_record (lit "vmem_store")) = Done (demo_facts VmemStore) ∧ from_record (demo_record (lit "vmem_load")) = Done (demo_facts VmemLoad).
Proof. split; vm_compute; reflexivity. Qed.

Lemma demo_launch_ok class name : from_record (demo_record name) = Done (demo_facts class) → launch_ok (demo_launch class).
Proof.
  intros Hrec. split; [apply (bool_decide_unpack _); by vm_compute|done|done|done|]. intros nf [= <-]. exists (demo_record name). split; [done|].
  split; [|repeat constructor]. cbn. intros r [->|[->|[->|?%elem_of_nil]%elem_of_cons]%elem_of_cons]%elem_of_cons; cbn; by lia || done.
Qed.

Lemma demo_launches_ok : Forall launch_ok demo_launches.
Proof. repeat constructor; eapply demo_launch_ok; apply demo_from_record. Qed.

Lemma demo_authored_eq : author (lit "gfx1201") demo_launches = Some demo_authored.
Proof. vm_compute. reflexivity. Qed.

Lemma demo_accesses class name : from_record (demo_record name) = Done (demo_facts class) → accesses (demo_launch class) demo_binding class.
Proof.
  intros _. exists (mkNodeFacts (mkRef (lit "a") (lit "r")) (demo_facts class)), (mkArgFact 0 8 (Pointer [class] NotRead)), [class], NotRead.
  split; [done|]. split; [by left|]. split; [done|]. split; [by left|]. split; [by vm_compute|done].
Qed.

Lemma demo_segment_ops :
  (plan ← boundary_plan demo_authored demo_table TierD; segment_ops plan (mkSegment 0 2)) =
  Some [OpEntry; OpDispatch 0; OpBoundary dependent; OpDispatch 1; OpExit].
Proof. vm_compute. reflexivity. Qed.

Lemma demo_executes : executes [OpEntry; OpDispatch 0; OpBoundary dependent; OpDispatch 1; OpExit] [OpEntry; OpDispatch 0; OpBoundary dependent; OpDispatch 1; OpExit].
Proof. do 5 (apply ex_op; [cbn; tauto|]). constructor. Qed.

Lemma authored_program_witness :
  ∃ program, author (lit "gfx1201") demo_launches = Some program ∧ length (kp_nodes program) = 2 ∧ program_wf program.
Proof.
  destruct (authored_program (lit "gfx1201") demo_launches demo_launches_ok) as (program & Hp & Hlen & _ & Hwf & _).
  exists program. split; [exact Hp|]. split; [exact Hlen|exact Hwf].
Defined.

Lemma authored_image_witness :
  ∃ image, kernarg_image demo_authored 0 24 (authored_words demo_authored) = Done image ∧
    take 12 image = (le_bytes 8 4112 ++ le_bytes 4 7)%Z.
Proof.
  destruct (authored_image (lit "gfx1201") demo_launches demo_authored 0 (demo_launch VmemStore)
    (mkNodeFacts (mkRef (lit "a") (lit "r")) (demo_facts VmemStore))
    (default (uncertified_node (demo_launch VmemStore)) (head (kp_nodes demo_authored)))
    demo_launches_ok demo_authored_eq) as (image & Himage & _ & Htake & _).
  - reflexivity.
  - reflexivity.
  - vm_compute. reflexivity.
  - vm_compute. reflexivity.
  - intros h [->|[]%elem_of_nil]%elem_of_cons v Hv. vm_compute in Hv. injection Hv as <-. cbn. split; [lia|right; lia].
  - exists image. split; [exact Himage|exact Htake].
Defined.

Lemma pm4_only_when_proven_witness :
  ∃ r b, kp_resources demo_authored !! r = Some b ∧ reported (demo_launch VmemStore) 0 = Some (Ok b) ∧
    mkRegionEffect 0 r [VmemStore] ∈ kn_effects (default (uncertified_node (demo_launch VmemStore)) (head (kp_nodes demo_authored))).
Proof.
  destruct (pm4_only_when_proven (lit "gfx1201") demo_launches demo_authored 0 (demo_launch VmemStore)
    (default (uncertified_node (demo_launch VmemStore)) (head (kp_nodes demo_authored)))
    demo_launches_ok demo_authored_eq) as (nf & Hnf & _ & _ & _ & _ & _ & _ & Hargs & _).
  - reflexivity.
  - vm_compute. reflexivity.
  - vm_compute. reflexivity.
  - injection Hnf as <-. destruct (Hargs (mkArgFact 0 8 (Pointer [VmemStore] NotRead)) [VmemStore] NotRead) as [Hz|(r & b & Hb & Hrep & _ & _ & He)].
    + left.
    + reflexivity.
    + vm_compute in Hz. discriminate Hz.
    + exists r, b. split; [exact Hb|]. split; [exact Hrep|]. apply He. discriminate.
Defined.

Lemma recorded_conflicts_ordered_witness :
  ∃ v, OpBoundary v ∈ [OpBoundary dependent] ∧ visibility_of demo_table TierD Raw = Some dependent ∧ vis_covers v dependent = true.
Proof.
  destruct (boundary_plan demo_authored demo_table TierD) as [plan|] eqn:Hplan; [|vm_compute in Hplan; discriminate Hplan].
  assert (mkSegment 0 2 ∈ pm_segments plan) as Hsg by (vm_compute in Hplan; injection Hplan as <-; left).
  pose proof demo_segment_ops as Hops. rewrite Hplan in Hops. cbn [mbind option_bind] in Hops.
  destruct (recorded_conflicts_ordered (lit "gfx1201") demo_launches demo_authored [] demo_authored (lit "gfx1201") demo_table TierD plan
    (mkSegment 0 2) _ _ [OpEntry] 0 [OpBoundary dependent] 1 [OpExit] (demo_launch VmemStore) (demo_launch VmemLoad) demo_binding VmemStore VmemLoad
    demo_launches_ok demo_authored_eq eq_refl demo_table_ok Hplan Hsg Hops demo_executes eq_refl eq_refl eq_refl
    (demo_accesses _ _ (proj1 demo_from_record)) (demo_accesses _ _ (proj2 demo_from_record)) eq_refl) as [_ H].
  destruct (H Raw ltac:(vm_compute; left)) as (v & need & Hv & Hneed & _ & Hc). exists v. split; [exact Hv|].
  vm_compute in Hneed. injection Hneed as <-. split; [reflexivity|]. apply Hc. right. intros h' v1 v2 Hne H1 H2.
  vm_compute in H1. injection H1 as <-. destruct h'; [..|destruct (Hne eq_refl)]; vm_compute in H2; injection H2 as <-; apply le_n.
Defined.
