(* ===== verification/RailSealed.v ===== *)
(** * Sealed positions ([railgun/src/index_bind.rs])

    The device buffer of sixteen row positions and its life:
    [Retired -> HostChecked -> UploadInFlight -> SealedReady ->
    SubmittedReadOnly -> Retired], with [Quarantined] after a failure that left
    the queue in an unknown state.  SHA-256 is the parameter [sha256]; what the
    transport answers is an argument.  A method that changes the state and then
    fails returns the new state with the error.  The counters panic at their
    width; the sum in [external_write_enqueued] wraps, as in a release build. *)

From S2P Require Import Prelude RailCopy.

Definition POSITION_ROWS : nat := 16.
Definition POSITION_BYTES : nat := POSITION_ROWS * 4.

Inductive Quiescence := Proven | Unknown.

Inductive PositionsState := Retired | HostChecked | UploadInFlight | SealedReady | SubmittedReadOnly | Quarantined.

#[export] Instance positions_state_eq_dec : EqDecision PositionsState.
Proof. solve_decision. Defined.

Record TransportFailure := mkTransport { tf_message : rstr; tf_quiescence : Quiescence }.

Inductive AllocationFault := NullOrSmall | ExtentOverflows | Misaligned | RemapBase | RemapGeneration.
Inductive HostFault := PositionCount (n : nat) | NotTheProducers | NegativePosition (i : nat) | Duplicate (p : Z).
Inductive StaleFault :=
| StaleHostCheck | StaleUpload | StaleWitness | ForeignWindow | ShapeGeneration (got bound : Z) | NotTheConditionalNodes.

(** The refusals of [bind_program] and [bind_writer]. *)
Inductive ClosureFault :=
| QueuedWriter | UncoveredProgram | NoPositionsResource | NotTheSealedAllocation | AliasesPositions (resource : nat)
| NoFacts (node : nat) | NotPm4Lowered (node : nat) | ClosureUnknownResource (node resource : nat)
| WritesPositions (node : nat) | StepUnknownResource (step resource : nat) | StepWritesPositions (step : nat)
| ExtentsMismatch (given conditional : list nat) | NoConditionalNode.

Inductive WriterFault :=
| WitnessKind | NoArgument (offset : nat) | NotAPointer (offset : nat) | HasEffects (offset : nat) | NoNullGuard (offset : nat)
| NoValueGuard (offset : nat) | NotAnInteger (offset : nat) | NoIndexedEffect | NoIndexLoad | ForeignEffect | ShortImage
| BadHeads (h : Z) | BadHeadDim (hd : Z) | BadBatch (batch : Z) | SlotsNotNull | BadGrid | BadBlock | BadLds
| RowBytesOverflow | TooLarge | NotAResource (offset : nat) | WriterUnknownResource | OutsideAllocation (offset : nat)
| NotThePositions | DstAliases | SrcIsPositions | DstIdentity | SrcOverflows | SrcExceeds | SrcMisaligned
| MappingGeneration | EmptySlice | SliceOverflows | BadInterval | WriterNegative (bid : nat) | RowOverflows (bid : nat)
| RowEndOverflows (bid : nat) | LeavesSlice (bid : nat) | NotMapped (bid : nat) | RowMisaligned (bid : nat)
| RowHitsPositions (bid : nat) | RowHitsSource (bid : nat) | RowsOverlap | OtherWriter (node : nat)
| NoImage | ImageChanged | GridChanged.

Inductive SealedOp := OpHostCheck | OpBeginUpload | OpCompleteUpload | OpBindWriters | OpSubmit | OpRelease.
Inductive LeasedOp := OpOverwrite | OpRemap | OpRecycle | OpExternalWrite.

Inductive IndexBindError :=
| Allocation (fault : AllocationFault)
| State (op : SealedOp) (found need : PositionsState)
| Leased (found : PositionsState) (op : LeasedOp)
| HostCheck (fault : HostFault)
| Stale (fault : StaleFault)
| PayloadMismatch
| StageInFlight
| Writer (node : nat) (detail : WriterFault)
| Closure (fault : ClosureFault)
| Transport (message : rstr) (quiescence : Quiescence).

Record PositionsIdentity := mkIdentityP { pi_base : Z; pi_bytes : Z; pi_generation : Z }.

#[export] Instance positions_identity_eq_dec : EqDecision PositionsIdentity.
Proof. solve_decision. Defined.

Record StageInner := mkStage { st_bytes : list Z; st_in_flight : bool }.

(** The tokens a client holds between the calls. *)
Record HostCheckedToken := mkChecked { hc_generation : Z; hc_digest : list Z }.
Record UploadToken := mkUpload { ut_generation : Z; ut_digest : list Z; ut_stage : nat }.

Record Inner := mkInner {
  in_identity : PositionsIdentity;
  in_state : PositionsState;
  in_generation : Z;
  in_checked : option (list Z * list Z);
  in_positions : option (list Z);
  in_external_pending : Z;
  in_bound : option (Z * Z)
}.

Definition with_state (s : Inner) (state : PositionsState) : Inner :=
  mkInner (in_identity s) state (in_generation s) (in_checked s) (in_positions s) (in_external_pending s) (in_bound s).
Definition with_bound (s : Inner) (bound : option (Z * Z)) : Inner :=
  mkInner (in_identity s) (in_state s) (in_generation s) (in_checked s) (in_positions s) (in_external_pending s) bound.
Definition with_pending (s : Inner) (pending : Z) : Inner :=
  mkInner (in_identity s) (in_state s) (in_generation s) (in_checked s) (in_positions s) pending (in_bound s).

(** ** Stage *)

Definition stage_new : StageInner := mkStage (replicate POSITION_BYTES 0%Z) false.

Definition position_bytes (positions : list Z) : list Z := positions ≫= le_bytes 4.

(** [positions] is an array of sixteen. *)
Definition stage_fill (s : StageInner) (positions : list Z) : result IndexBindError StageInner :=
  if st_in_flight s then Err StageInFlight else Ok (mkStage (position_bytes positions) false).

Definition stage_write_byte (s : StageInner) (at_ : nat) (value : Z) : exec IndexBindError StageInner :=
  if st_in_flight s then Fail StageInFlight
  else bytes ← unwrap (vec_set (st_bytes s) at_ value); Done (mkStage bytes false).

(** ** Sealed positions *)

Definition sealed_new (identity : PositionsIdentity) : result IndexBindError Inner :=
  if (pi_base identity =? 0)%Z || (pi_bytes identity <? Z.of_nat POSITION_BYTES)%Z then Err (Allocation NullOrSmall)
  else if negb (bool_decide (is_Some (checked_add 64 (pi_base identity) (pi_bytes identity)))) then
    Err (Allocation ExtentOverflows)
  else if negb (pi_base identity mod 4 =? 0)%Z then Err (Allocation Misaligned)
  else Ok (mkInner identity Retired 0 None None 0 None).

Definition after_failure (q : Quiescence) : PositionsState :=
  match q with Proven => Retired | Unknown => Quarantined end.

(** The first of a slice that appears twice, once it is sorted. *)
Definition repeated (positions : list Z) : option Z :=
  fst <$> List.find (λ w, (w.1 =? w.2)%Z) (windows2 (sort_by Z.compare positions)).

Section sealed.
Context (sha256 : list Z → list Z).

Definition host_check (s : Inner) (positions producer : list Z) : exec IndexBindError (Inner * HostCheckedToken) :=
  if negb (bool_decide (in_state s = Retired)) then Fail (State OpHostCheck (in_state s) Retired)
  else if negb (length positions =? POSITION_ROWS) then Fail (HostCheck (PositionCount (length positions)))
  else if negb (bool_decide (positions = producer)) then Fail (HostCheck NotTheProducers)
  else
    match position (λ v, (v <? 0)%Z) positions with
    | Some i => Fail (HostCheck (NegativePosition i))
    | None =>
        match repeated positions with
        | Some p => Fail (HostCheck (Duplicate p))
        | None =>
            let bytes := position_bytes positions in
            let d := sha256 bytes in
            generation ← unwrap (checked_add 64 (in_generation s) 1);
            Done (mkInner (in_identity s) HostChecked generation (Some (bytes, d)) (Some positions)
                    (in_external_pending s) None, mkChecked generation d)
        end
    end.

(** [begin] is the answer of [transport.begin_h2d]; the stage has index [id]. *)
Definition begin_upload (s : Inner) (checked : HostCheckedToken) (id : nat) (stage : StageInner)
    (begin : result TransportFailure unit) : option (Inner * StageInner * result IndexBindError UploadToken) :=
  if negb (bool_decide (in_state s = HostChecked)) then
    Some (s, stage, Err (State OpBeginUpload (in_state s) HostChecked))
  else if negb (hc_generation checked =? in_generation s)%Z then Some (s, stage, Err (Stale StaleHostCheck))
  else if negb (in_external_pending s =? 0)%Z then Some (with_state s Retired, stage, Err (Closure QueuedWriter))
  else
    '(bytes, d) ← in_checked s;
    if negb (bool_decide (d = hc_digest checked)) then Some (s, stage, Err PayloadMismatch)
    else if st_in_flight stage then Some (s, stage, Err StageInFlight)
    else if negb (bool_decide (st_bytes stage = bytes)) || negb (bool_decide (sha256 (st_bytes stage) = d)) then
      Some (with_state s Retired, stage, Err PayloadMismatch)
    else
      match begin with
      | Ok _ => Some (with_state s UploadInFlight, mkStage (st_bytes stage) true, Ok (mkUpload (in_generation s) d id))
      | Err f =>
          Some (with_state s (after_failure (tf_quiescence f)), stage, Err (Transport (tf_message f) (tf_quiescence f)))
      end.

(** [stage] is the token's; [wait] and [acquire] are the answers of
    [transport.wait_h2d] and [transport.acquire]. *)
Definition complete_upload (s : Inner) (token : UploadToken) (stage : StageInner)
    (wait acquire : result TransportFailure unit) : Inner * StageInner * result IndexBindError unit :=
  if negb (bool_decide (in_state s = UploadInFlight)) then
    (s, stage, Err (State OpCompleteUpload (in_state s) UploadInFlight))
  else if negb (ut_generation token =? in_generation s)%Z
          || negb (bool_decide (snd <$> in_checked s = Some (ut_digest token))) then
    (s, stage, Err (Stale StaleUpload))
  else
    match wait with
    | Err f =>
        let stage := match tf_quiescence f with Proven => mkStage (st_bytes stage) false | Unknown => stage end in
        (with_state s (after_failure (tf_quiescence f)), stage, Err (Transport (tf_message f) (tf_quiescence f)))
    | Ok _ =>
        let stage := mkStage (st_bytes stage) false in
        match acquire with
        | Ok _ => (with_state s SealedReady, stage, Ok tt)
        | Err f =>
            (with_state s (after_failure (tf_quiescence f)), stage, Err (Transport (tf_message f) (tf_quiescence f)))
        end
    end.
End sealed.

(** ** The lease *)

Definition leased (s : Inner) (op : LeasedOp) : result IndexBindError unit :=
  match in_state s with Retired => Ok tt | other => Err (Leased other op) end.

Definition overwrite (s : Inner) : result IndexBindError unit := leased s OpOverwrite.

Definition remap (s : Inner) (new_base new_generation : Z) : result IndexBindError Inner :=
  _ ← leased s OpRemap;
  if (new_base =? 0)%Z || negb (new_base mod 4 =? 0)%Z then Err (Allocation RemapBase)
  else if (new_generation <=? pi_generation (in_identity s))%Z then Err (Allocation RemapGeneration)
  else Ok (mkInner (mkIdentityP new_base (pi_bytes (in_identity s)) new_generation) (in_state s) (in_generation s)
             None None (in_external_pending s) (in_bound s)).

Definition recycle (s : Inner) : exec IndexBindError Inner :=
  _ ← try_ (leased s OpRecycle);
  generation ← unwrap (checked_add 64 (pi_generation (in_identity s)) 1);
  Done (mkInner (mkIdentityP (pi_base (in_identity s)) (pi_bytes (in_identity s)) generation) (in_state s)
          (in_generation s) None None (in_external_pending s) (in_bound s)).

Definition external_overlaps (s : Inner) (base bytes : Z) : bool :=
  let end_ := default u64_max (checked_add 64 base bytes) in
  (base <? wrapping_add 64 (pi_base (in_identity s)) (pi_bytes (in_identity s)))%Z
  && (pi_base (in_identity s) <? end_)%Z.

Definition external_write_enqueued (s : Inner) (base bytes : Z) : exec IndexBindError Inner :=
  if negb (external_overlaps s base bytes) then Done s
  else if negb (bool_decide (in_state s = Retired)) then Fail (Leased (in_state s) OpExternalWrite)
  else pending ← unwrap (checked_add 32 (in_external_pending s) 1); Done (with_pending s pending).

Definition external_write_completed (s : Inner) : Inner :=
  with_pending s (Z.max 0 (in_external_pending s - 1)).

(** ** The witness and the submit *)

Record AllocationIdentity := mkAllocation { al_resource : ResourceId; al_base : Z; al_bytes : Z; al_generation : Z }.

#[export] Instance allocation_identity_eq_dec : EqDecision AllocationIdentity.
Proof. solve_decision. Defined.

Record BoundWriter := mkBoundWriter {
  bw_node : nat;
  bw_n_kv_heads : Z;
  bw_row_bytes : Z;
  bw_rows : list (Z * Z);
  bw_dst : AllocationIdentity;
  bw_kernarg_digest : list Z;
  bw_grid : list Z
}.

Record IndexedBindWitness := mkWitness {
  iw_window : Z;
  iw_shape_generation : Z;
  iw_p_generation : Z;
  iw_payload_digest : list Z;
  iw_p : PositionsIdentity;
  iw_positions : list Z;
  iw_writers : list BoundWriter
}.

Definition check_witness (s : Inner) (w : IndexedBindWitness) : result IndexBindError unit :=
  if negb (bool_decide (in_state s = SealedReady)) then Err (State OpSubmit (in_state s) SealedReady)
  else if negb (bool_decide (in_bound s = Some (iw_window w, iw_p_generation w)))
          || negb (iw_p_generation w =? in_generation s)%Z
          || negb (bool_decide (iw_p w = in_identity s))
          || negb (bool_decide (snd <$> in_checked s = Some (iw_payload_digest w))) then
    Err (Stale StaleWitness)
  else Ok tt.

Definition mark_submitted (s : Inner) (w : IndexedBindWitness) : result IndexBindError Inner :=
  _ ← check_witness s w; Ok (with_state s SubmittedReadOnly).

Definition finish (s : Inner) (q : Quiescence) : Inner :=
  match in_state s with
  | SubmittedReadOnly | SealedReady => with_bound (with_state s (after_failure q)) None
  | _ => s
  end.

Definition submit_failed (s : Inner) (q : Quiescence) : Inner := finish s q.

(** [bind_program] is the proof of the writers, with its [input]. *)
Definition bind_writers (bind_program : PositionsIdentity → Z → list Z → list Z → exec IndexBindError IndexedBindWitness)
    (window : Z) (s : Inner) : exec IndexBindError (Inner * IndexedBindWitness) :=
  if negb (bool_decide (in_state s = SealedReady)) then Fail (State OpBindWriters (in_state s) SealedReady)
  else if negb (in_external_pending s =? 0)%Z then Fail (Closure QueuedWriter)
  else
    positions ← unwrap (in_positions s);
    '(_, payload_digest) ← unwrap (in_checked s);
    witness ← bind_program (in_identity s) (in_generation s) positions payload_digest;
    Done (with_bound s (Some (window, in_generation s)), witness).

Definition release_unsubmitted (s : Inner) : result IndexBindError Inner :=
  match in_state s with
  | SealedReady | HostChecked => Ok (with_bound (with_state s Retired) None)
  | other => Err (State OpRelease other SealedReady)
  end.
