(* ===== verification/RailSealedOk.v ===== *)
(** * What the seal protects

    Clients call the methods of [SealedPositions] in any order, an upload copies
    the stage byte by byte, and queued writers store where they were announced.
    While the positions are sealed the device holds exactly the checked bytes.

    Clients announce external writes before they are queued, and otherwise call
    anything at any time: ends of writes are reported for any write, twice or
    never, and remaps go anywhere.  What that may spoil is the premise [uploads]
    of the start of an upload: [counted] says that the range then is inside the
    address space and that no queued write reaches it while the count of such
    writes is zero.  It holds for clients that report the ends of the recorded
    writes and remap to a range inside the address space that no queued write
    reaches ([careful_counted]). *)

From stdpp Require Import list_numbers relations.
From S2P Require Import Prelude RailCopy RailSealed.

(** ** The world of one buffer *)

Record seal_world := mkSeal {
  sw_p : Inner;
  sw_stages : list StageInner;
  sw_mem : Z → Z;
  (* the device address, the stage and the bytes still to copy *)
  sw_dma : option (Z * nat * list nat);
  (* announced writes; the flag says that the write was recorded *)
  sw_external : list (Z * Z * bool);
  sw_checks : list HostCheckedToken;
  sw_uploads : list UploadToken;
  sw_witnesses : list IndexedBindWitness
}.

Definition in_positions_range (i : PositionsIdentity) (x : Z) : Prop := (pi_base i ≤ x < pi_base i + pi_bytes i)%Z.
Definition in_i32 (v : Z) : Prop := (- 2 ^ 31 ≤ v < 2 ^ 31)%Z.
Definition in_write (b n x : Z) : Prop := (b ≤ x < b + n)%Z.
Definition store_at (m : Z → Z) (a v : Z) : Z → Z := λ x, if decide (x = a) then v else m x.

Definition range_fits (i : PositionsIdentity) : Prop :=
  (0 ≤ pi_base i)%Z ∧ (Z.of_nat POSITION_BYTES ≤ pi_bytes i)%Z ∧ (pi_base i + pi_bytes i ≤ u64_max)%Z.

Definition dma_after_begin (base : Z) (id : nat) (r : result IndexBindError UploadToken)
    (dma : option (Z * nat * list nat)) : option (Z * nat * list nat) :=
  match r with
  | Ok _ | Err (Transport _ Unknown) => Some (base, id, seq 0 POSITION_BYTES)
  | _ => dma
  end.

(** Whether [complete_upload] went as far as the fence. *)
Definition fenced (r : result IndexBindError unit) : bool :=
  match r with Err (State _ _ _) | Err (Stale _) => false | _ => true end.

Section world.
Context (sha256 : list Z → list Z).
Context {input : Type} (window : input → Z).
Context (bind_program : input → PositionsIdentity → Z → list Z → list Z → exec IndexBindError IndexedBindWitness).

(** [uploads] is what is known of the announced writes when an upload starts. *)
Inductive seal_step (uploads : Inner → list (Z * Z * bool) → Prop) : seal_world → seal_world → Prop :=
| step_host_check p p' sts m dma ext cs us ws positions producer c :
    Forall in_i32 positions → host_check sha256 p positions producer = Done (p', c) →
    seal_step uploads (mkSeal p sts m dma ext cs us ws) (mkSeal p' sts m dma ext (c :: cs) us ws)
| step_begin_upload p p' sts st st' m dma ext cs1 c cs2 us ws id begin r :
    sts !! id = Some st → begin_upload sha256 p c id st begin = Some (p', st', r) →
    (in_state p' = UploadInFlight → uploads p ext) →
    seal_step uploads (mkSeal p sts m dma ext (cs1 ++ c :: cs2) us ws)
      (mkSeal p' (<[id:=st']> sts) m (dma_after_begin (pi_base (in_identity p)) id r dma) ext (cs1 ++ cs2)
         (match r with Ok u => u :: us | Err _ => us end) ws)
| step_complete_upload p p' sts st st' m dma ext cs us1 u us2 ws wait acquire r :
    sts !! ut_stage u = Some st → complete_upload p u st wait acquire = (p', st', r) →
    (* the fence passes when the copy is over *)
    (wait = Ok tt → ∀ base id todo, dma = Some (base, id, todo) → todo = []) →
    seal_step uploads (mkSeal p sts m dma ext cs (us1 ++ u :: us2) ws)
      (mkSeal p' (<[ut_stage u:=st']> sts) m
         (if fenced r then match wait with Ok _ | Err (mkTransport _ Proven) => None | _ => dma end else dma)
         ext cs (us1 ++ us2) ws)
| step_overwrite p sts m m' dma ext cs us ws :
    overwrite p = Ok tt → (∀ x, ¬ in_positions_range (in_identity p) x → m' x = m x) →
    seal_step uploads (mkSeal p sts m dma ext cs us ws) (mkSeal p sts m' dma ext cs us ws)
| step_remap p p' sts m dma ext cs us ws base generation :
    remap p base generation = Ok p' →
    seal_step uploads (mkSeal p sts m dma ext cs us ws) (mkSeal p' sts m dma ext cs us ws)
| step_recycle p p' sts m dma ext cs us ws :
    recycle p = Done p' → seal_step uploads (mkSeal p sts m dma ext cs us ws) (mkSeal p' sts m dma ext cs us ws)
| step_enqueued p p' sts m dma ext cs us ws b n :
    (0 ≤ b)%Z → (0 ≤ n)%Z → external_write_enqueued p b n = Done p' →
    seal_step uploads (mkSeal p sts m dma ext cs us ws)
      (mkSeal p' sts m dma ((b, n, external_overlaps p b n) :: ext) cs us ws)
(* the end of a write is reported, of any one or of none, or is not reported *)
| step_completed p sts m dma ext1 b n f ext2 cs us ws :
    seal_step uploads (mkSeal p sts m dma (ext1 ++ (b, n, f) :: ext2) cs us ws)
      (mkSeal (external_write_completed p) sts m dma (ext1 ++ ext2) cs us ws)
| step_reported p sts m dma ext cs us ws :
    seal_step uploads (mkSeal p sts m dma ext cs us ws) (mkSeal (external_write_completed p) sts m dma ext cs us ws)
| step_over p sts m dma ext1 b n f ext2 cs us ws :
    seal_step uploads (mkSeal p sts m dma (ext1 ++ (b, n, f) :: ext2) cs us ws) (mkSeal p sts m dma (ext1 ++ ext2) cs us ws)
| step_external p sts m dma ext cs us ws b n f x v :
    (b, n, f) ∈ ext → in_write b n x →
    seal_step uploads (mkSeal p sts m dma ext cs us ws) (mkSeal p sts (store_at m x v) dma ext cs us ws)
| step_elsewhere p sts m dma ext cs us ws x v :
    ¬ in_positions_range (in_identity p) x →
    seal_step uploads (mkSeal p sts m dma ext cs us ws) (mkSeal p sts (store_at m x v) dma ext cs us ws)
| step_copy p sts st m base id todo1 i todo2 ext cs us ws v :
    sts !! id = Some st → st_bytes st !! i = Some v →
    seal_step uploads (mkSeal p sts m (Some (base, id, todo1 ++ i :: todo2)) ext cs us ws)
      (mkSeal p sts (store_at m (base + Z.of_nat i) v) (Some (base, id, todo1 ++ todo2)) ext cs us ws)
| step_stage_new p sts m dma ext cs us ws :
    seal_step uploads (mkSeal p sts m dma ext cs us ws) (mkSeal p (sts ++ [stage_new]) m dma ext cs us ws)
| step_stage_fill p sts st st' m dma ext cs us ws id positions :
    sts !! id = Some st → stage_fill st positions = Ok st' →
    seal_step uploads (mkSeal p sts m dma ext cs us ws) (mkSeal p (<[id:=st']> sts) m dma ext cs us ws)
| step_stage_write p sts st st' m dma ext cs us ws id at_ value :
    sts !! id = Some st → stage_write_byte st at_ value = Done st' →
    seal_step uploads (mkSeal p sts m dma ext cs us ws) (mkSeal p (<[id:=st']> sts) m dma ext cs us ws)
| step_bind_writers p p' sts m dma ext cs us ws i w :
    bind_writers (bind_program i) (window i) p = Done (p', w) →
    seal_step uploads (mkSeal p sts m dma ext cs us ws) (mkSeal p' sts m dma ext cs us (w :: ws))
| step_submit p p' sts m dma ext cs us ws1 w ws2 :
    mark_submitted p w = Ok p' →
    seal_step uploads (mkSeal p sts m dma ext cs us (ws1 ++ w :: ws2)) (mkSeal p' sts m dma ext cs us (ws1 ++ ws2))
| step_finish p sts m dma ext cs us ws q :
    seal_step uploads (mkSeal p sts m dma ext cs us ws) (mkSeal (finish p q) sts m dma ext cs us ws)
| step_release p p' sts m dma ext cs us ws :
    release_unsubmitted p = Ok p' →
    seal_step uploads (mkSeal p sts m dma ext cs us ws) (mkSeal p' sts m dma ext cs us ws).

Definition seal_start (p : Inner) (m : Z → Z) : seal_world := mkSeal p [] m None [] [] [] [].

(** ** The invariant *)

(** What was checked: sixteen distinct nonnegative positions and their bytes. *)
Record payload (p : Inner) (positions : list Z) : Prop := {
  pl_count : length positions = POSITION_ROWS;
  pl_nonneg : Forall (λ v, 0 ≤ v < 2 ^ 31)%Z positions;
  pl_distinct : NoDup positions;
  pl_checked : in_checked p = Some (position_bytes positions, sha256 (position_bytes positions));
  pl_positions : in_positions p = Some positions
}.

Definition device_holds (m : Z → Z) (base : Z) (bytes : list Z) (todo : list nat) : Prop :=
  ∀ i v, bytes !! i = Some v → (i ∉ todo) → m (base + Z.of_nat i)%Z = v.

Record uploading (w : seal_world) (positions : list Z) : Prop := {
  up_payload : payload (sw_p w) positions;
  up_dma : ∃ id todo, sw_dma w = Some (pi_base (in_identity (sw_p w)), id, todo) ∧
    sw_stages w !! id = Some (mkStage (position_bytes positions) true) ∧
    sw_uploads w = [mkUpload (in_generation (sw_p w)) (sha256 (position_bytes positions)) id] ∧
    device_holds (sw_mem w) (pi_base (in_identity (sw_p w))) (position_bytes positions) todo
}.

Record sealed_now (w : seal_world) (positions : list Z) : Prop := {
  sl_payload : payload (sw_p w) positions;
  sl_device : device_holds (sw_mem w) (pi_base (in_identity (sw_p w))) (position_bytes positions) []
}.

(** The range is inside the address space and no announced write reaches it. *)
Record clear (w : seal_world) : Prop := {
  cl_fits : range_fits (in_identity (sw_p w));
  cl_unreached b n f x : (b, n, f) ∈ sw_external w → in_write b n x → ¬ in_positions_range (in_identity (sw_p w)) x
}.

Definition state_inv (w : seal_world) : Prop :=
  match in_state (sw_p w) with
  | Retired => sw_dma w = None ∧ sw_uploads w = []
  | HostChecked => sw_dma w = None ∧ sw_uploads w = [] ∧ ∃ positions, payload (sw_p w) positions
  | UploadInFlight => clear w ∧ ∃ positions, uploading w positions
  | SealedReady | SubmittedReadOnly => sw_dma w = None ∧ sw_uploads w = [] ∧ clear w ∧ ∃ positions, sealed_now w positions
  | Quarantined => True
  end.

Record seal_inv (w : seal_world) : Prop := {
  vi_witness v : v ∈ sw_witnesses w → (iw_p_generation v ≤ in_generation (sw_p w))%Z ∧
    (iw_p_generation v = in_generation (sw_p w) →
       in_positions (sw_p w) = None ∨ in_positions (sw_p w) = Some (iw_positions v));
  vi_state : state_inv w
}.

(** When an upload starts, a queued write that reaches the positions has been
    counted. *)
Definition counted (p : Inner) (ext : list (Z * Z * bool)) : Prop :=
  range_fits (in_identity p) ∧
  ∀ b n f x, (b, n, f) ∈ ext → in_write b n x → in_positions_range (in_identity p) x → in_external_pending p ≠ 0%Z.

(** ** Every step keeps it *)

Lemma repeated_None positions : repeated positions = None → NoDup positions.
Proof using Type.
  unfold repeated. destruct (List.find _ _) as [w|] eqn:Hf; [done|]. intros _.
  pose proof (sort_by_perm Z.compare positions) as Hperm. rewrite <-Hperm.
  assert (Sorted Z.lt (sort_by Z.compare positions)) as Hs.
  { apply windows2_Sorted. intros [a b] Hab.
    assert (a ≤ b)%Z as Hle.
    { assert (StronglySorted (λ x y, (x ?= y)%Z ≠ Gt) (sort_by Z.compare positions)) as Hss.
      { apply sort_by_sorted; intros x y.
        - intros z Hxy Hyz. change (x ≤ y)%Z in Hxy. change (y ≤ z)%Z in Hyz. change (x ≤ z)%Z. lia.
        - intros Hxy%Z.compare_gt_iff. change (y ≤ x)%Z. lia. }
      apply StronglySorted_Sorted in Hss. rewrite <-windows2_Sorted in Hss. exact (Hss _ Hab). }
    apply list_elem_of_In in Hab. pose proof (List.find_none _ _ Hf _ Hab) as Hne. cbn in *. lia. }
  apply Sorted_StronglySorted in Hs; [|intros ???; lia].
  enough (∀ l, StronglySorted Z.lt l → NoDup l) as H by by apply H.
  clear. induction 1 as [|x l _ IH Hall]; constructor; [|done]. rewrite Forall_forall in Hall. intros Hx%Hall. lia.
Qed.

Lemma host_check_Done p positions producer p' c :
  Forall in_i32 positions → host_check sha256 p positions producer = Done (p', c) →
  in_state p = Retired ∧ payload p' positions ∧ positions = producer ∧
  p' = mkInner (in_identity p) HostChecked (in_generation p + 1) (in_checked p') (in_positions p') (in_external_pending p) None.
Proof using Type.
  intros Htyped. unfold host_check. destruct (bool_decide_reflect (in_state p = Retired)) as [Hst|]; cbn [negb]; [|done].
  destruct (Nat.eqb_spec (length positions) POSITION_ROWS); cbn [negb]; [|done].
  destruct (bool_decide_reflect (positions = producer)); cbn [negb]; [|done].
  destruct (position _ positions) eqn:Hneg; [done|]. destruct (repeated positions) eqn:Hrep; [done|].
  destruct (checked_add 64 (in_generation p) 1) as [g|] eqn:Hg; cbn [unwrap mbind exec_bind]; [|done].
  apply checked_add_Some in Hg as [-> _]. intros [= <- <-]. split; [done|]. split; [|done].
  split; cbn [in_checked in_positions]; try done.
  - rewrite Forall_forall in Htyped |- *. intros v Hv. destruct (Htyped v Hv) as [_ Hmax].
    destruct (Z.ltb_spec v 0) as [Hlt|]; [|done]. destruct (position_elem (λ v, (v <? 0)%Z) positions v Hv) as [k Hk]; [by apply Z.ltb_lt|congruence].
  - by apply repeated_None.
Qed.

(** What the calls leave of the device and of the other fields. *)
Lemma begin_upload_cases p c id st begin p' st' r :
  begin_upload sha256 p c id st begin = Some (p', st', r) →
  (∃ u, r = Ok u ∧ in_state p = HostChecked ∧ in_external_pending p = 0%Z ∧ p' = with_state p UploadInFlight ∧
     st' = mkStage (st_bytes st) true ∧ snd <$> in_checked p = Some (ut_digest u) ∧ fst <$> in_checked p = Some (st_bytes st) ∧
     u = mkUpload (in_generation p) (ut_digest u) id) ∨
  (∃ e, r = Err e ∧ st' = st ∧ (p' = p ∨ in_state p = HostChecked ∧ (p' = with_state p Retired ∨ p' = with_state p Quarantined)) ∧
     (p' = p ∨ p' = with_state p Retired → ∀ m, e ≠ Transport m Unknown)).
Proof using Type.
  unfold begin_upload. destruct (bool_decide_reflect (in_state p = HostChecked)) as [Hst|]; cbn [negb].
  2:{ intros [= <- <- <-]. right. eexists. split; [done|]. split; [done|]. split; [by left|done]. }
  destruct (_ =? _)%Z; cbn [negb].
  2:{ intros [= <- <- <-]. right. eexists. split; [done|]. split; [done|]. split; [by left|done]. }
  destruct (Z.eqb_spec (in_external_pending p) 0) as [Hp|]; cbn [negb].
  2:{ intros [= <- <- <-]. right. eexists. split; [done|]. split; [done|]. split; [right; split; [done|by left]|done]. }
  destruct (in_checked p) as [[bytes d]|] eqn:Hc; cbn [mbind option_bind]; [|done].
  destruct (bool_decide_reflect (d = hc_digest c)); cbn [negb].
  2:{ intros [= <- <- <-]. right. eexists. split; [done|]. split; [done|]. split; [by left|done]. }
  destruct (st_in_flight st).
  { intros [= <- <- <-]. right. eexists. split; [done|]. split; [done|]. split; [by left|done]. }
  destruct (_ || _) eqn:Hor.
  { intros [= <- <- <-]. right. eexists. split; [done|]. split; [done|]. split; [right; split; [done|by left]|done]. }
  apply orb_false_iff in Hor as [Hb%negb_false_iff%bool_decide_eq_true _].
  destruct begin as [u|[m q]].
  - intros [= <- <- <-]. left. eexists. cbn. by rewrite Hb.
  - intros [= <- <- <-]. right. eexists. split; [done|]. split; [done|]. split; [right; split; [done|destruct q; auto]|].
    destruct q; [done|]. intros Hor2. exfalso. destruct p; cbn in *; subst. destruct Hor2 as [Heq|Heq]; by injection Heq.
Qed.

Lemma complete_upload_cases p u st wait acquire p' st' r :
  complete_upload p u st wait acquire = (p', st', r) →
  (fenced r = false ∧ p' = p ∧ st' = st ∧
   (in_state p = UploadInFlight → ut_generation u = in_generation p → snd <$> in_checked p ≠ Some (ut_digest u))) ∨
  (fenced r = true ∧ in_state p = UploadInFlight ∧ ut_generation u = in_generation p ∧ snd <$> in_checked p = Some (ut_digest u) ∧
   match wait with
   | Ok _ => st' = mkStage (st_bytes st) false ∧
       (p' = with_state p SealedReady ∨ p' = with_state p Retired ∨ p' = with_state p Quarantined)
   | Err (mkTransport _ Proven) => st' = mkStage (st_bytes st) false ∧ p' = with_state p Retired
   | Err (mkTransport _ Unknown) => st' = st ∧ p' = with_state p Quarantined
   end).
Proof using Type.
  unfold complete_upload. destruct (bool_decide_reflect (in_state p = UploadInFlight)) as [Hst|]; cbn [negb].
  2:{ intros [= <- <- <-]. by left. }
  destruct (Z.eqb_spec (ut_generation u) (in_generation p)) as [Hg|]; cbn [negb orb].
  2:{ intros [= <- <- <-]. by left. }
  destruct (bool_decide_reflect (snd <$> in_checked p = Some (ut_digest u))) as [Hd|]; cbn [negb].
  2:{ intros [= <- <- <-]. by left. }
  destruct wait as [[]|[m [|]]].
  - destruct acquire as [[]|[m q]]; intros [= <- <- <-]; right; repeat (split; [done|]); [by left|].
    cbn. destruct q; auto.
  - intros [= <- <- <-]. by right.
  - intros [= <- <- <-]. by right.
Qed.

Lemma state_quiet w :
  state_inv w → in_state (sw_p w) ≠ UploadInFlight → in_state (sw_p w) ≠ Quarantined → sw_dma w = None ∧ sw_uploads w = [].
Proof using Type. unfold state_inv. destruct (in_state (sw_p w)); naive_solver. Qed.

Lemma clear_frame p p' sts m dma ext cs us ws sts' m' dma' ext' cs' us' ws' :
  clear (mkSeal p sts m dma ext cs us ws) → in_identity p' = in_identity p →
  (∀ b n f x, (b, n, f) ∈ ext' → in_write b n x → (b, n, f) ∈ ext ∨ ¬ in_positions_range (in_identity p) x) →
  clear (mkSeal p' sts' m' dma' ext' cs' us' ws').
Proof using Type.
  intros [Hf Hu] Hid Hext. cbn [sw_p sw_external] in *. split; cbn [sw_p sw_external]; rewrite Hid; [done|].
  intros b n f x Hin Hx. destruct (Hext b n f x Hin Hx) as [Hin'|?]; [by eapply Hu|done].
Qed.

(** Only these fields matter to the state. *)
Lemma state_frame p sts m dma ext cs us ws ext' cs' ws' :
  state_inv (mkSeal p sts m dma ext cs us ws) →
  (∀ b n f x, in_state p ≠ Retired → range_fits (in_identity p) → (b, n, f) ∈ ext' → in_write b n x →
     (b, n, f) ∈ ext ∨ ¬ in_positions_range (in_identity p) x) →
  state_inv (mkSeal p sts m dma ext' cs' us ws').
Proof using Type.
  unfold state_inv. cbn [sw_p sw_dma sw_uploads]. intros Hs Hext. destruct (in_state p); try done.
  - destruct Hs as (H0 & pos & [Hpl H]). pose proof (cl_fits _ H0). split; [by eapply clear_frame; eauto|]. exists pos. by split.
  - destruct Hs as (Hd & Hu & H0 & pos & [Hpl H]). pose proof (cl_fits _ H0).
    repeat (split; [done|]). split; [by eapply clear_frame; eauto|]. exists pos. by split.
  - destruct Hs as (Hd & Hu & H0 & pos & [Hpl H]). pose proof (cl_fits _ H0).
    repeat (split; [done|]). split; [by eapply clear_frame; eauto|]. exists pos. by split.
Qed.

Lemma payload_same p p' positions :
  payload p positions → in_checked p' = in_checked p → in_positions p' = in_positions p → payload p' positions.
Proof using Type. intros [? ? ? Hc Hp] H1 H2. split; [done..|by rewrite H1|by rewrite H2]. Qed.

(** A store outside of the range of the positions. *)
Lemma device_store m base bytes todo x v (n : Z) :
  (Z.of_nat (length bytes) ≤ n)%Z → ¬ (base ≤ x < base + n)%Z → device_holds m base bytes todo →
  device_holds (store_at m x v) base bytes todo.
Proof using Type.
  intros Hn Hx Hd i b Hb Hi. unfold store_at. rewrite decide_False; [by apply Hd|].
  apply lookup_lt_Some in Hb. lia.
Qed.

Lemma length_position_bytes positions : length (position_bytes positions) = 4 * length positions.
Proof using Type.
  induction positions as [|x l IH]; [done|]. unfold position_bytes in *. rewrite bind_cons, length_app, IH, length_le_bytes.
  simpl. lia.
Qed.

Lemma payload_fits p positions : range_fits (in_identity p) → payload p positions →
  (Z.of_nat (length (position_bytes positions)) ≤ pi_bytes (in_identity p))%Z.
Proof using Type.
  intros (_ & Hb & _) [Hc _ _ _ _]. rewrite length_position_bytes, Hc. unfold POSITION_BYTES in Hb. lia.
Qed.

(** What the device holds of the positions stays when a store misses them. *)
Lemma store_state p sts m dma ext cs us ws x v :
  state_inv (mkSeal p sts m dma ext cs us ws) →
  (clear (mkSeal p sts m dma ext cs us ws) → ¬ in_positions_range (in_identity p) x) →
  state_inv (mkSeal p sts (store_at m x v) dma ext cs us ws).
Proof using Type.
  intros Hs Hmiss. unfold state_inv in *. cbn [sw_p sw_dma sw_uploads] in *.
  destruct (in_state p); try done.
  - destruct Hs as (H0 & pos & [Hpl (id & todo & Hd & Hst & Hu & Hdev)]). split; [eapply clear_frame; eauto|]. exists pos. split; [done|].
    exists id, todo. cbn [sw_p sw_mem sw_dma sw_stages sw_uploads] in *. repeat (split; [done|]).
    eapply device_store; [apply (payload_fits _ _ (cl_fits _ H0) Hpl)|by apply Hmiss|done].
  - destruct Hs as (Hd & Hu & H0 & pos & [Hpl Hdev]). repeat (split; [done|]). split; [eapply clear_frame; eauto|]. exists pos. split; [done|].
    eapply device_store; [apply (payload_fits _ _ (cl_fits _ H0) Hpl)|by apply Hmiss|done].
  - destruct Hs as (Hd & Hu & H0 & pos & [Hpl Hdev]). repeat (split; [done|]). split; [eapply clear_frame; eauto|]. exists pos. split; [done|].
    eapply device_store; [apply (payload_fits _ _ (cl_fits _ H0) Hpl)|by apply Hmiss|done].
Qed.

Lemma store_inv p sts m dma ext cs us ws x v :
  seal_inv (mkSeal p sts m dma ext cs us ws) → ¬ in_positions_range (in_identity p) x →
  seal_inv (mkSeal p sts (store_at m x v) dma ext cs us ws).
Proof using Type. intros [Hw Hs] Hx. split; [done|]. by apply store_state. Qed.

(** A store of an announced write. *)
Lemma external_inv p sts m dma ext cs us ws b n f x v :
  seal_inv (mkSeal p sts m dma ext cs us ws) → (b, n, f) ∈ ext → in_write b n x →
  seal_inv (mkSeal p sts (store_at m x v) dma ext cs us ws).
Proof using Type. intros [Hw Hs] Hin Hx. split; [done|]. apply store_state; [done|]. intros Hc. by apply (cl_unreached _ Hc b n f). Qed.

(** Going idle. *)
Lemma idle_inv p p' sts m dma ext cs us ws state :
  seal_inv (mkSeal p sts m dma ext cs us ws) →
  in_generation p' = in_generation p → in_positions p' = in_positions p → in_state p' = state →
  (state = Quarantined ∨ state = Retired ∧ dma = None ∧ us = []) → ∀ sts' dma' cs' us',
  (dma = None → dma' = None) → (us = [] → us' = []) → seal_inv (mkSeal p' sts' m dma' ext cs' us' ws).
Proof using Type.
  intros [Hw Hs] Hg Hpos Hst Hidle sts' dma' cs' us' Hd Hu. split; cbn [sw_p sw_witnesses] in *.
  - rewrite Hg, Hpos. exact Hw.
  - unfold state_inv. cbn [sw_p sw_dma sw_uploads]. rewrite Hst. destruct Hidle as [->|(-> & -> & ->)]; [done|]. auto.
Qed.

Lemma host_check_inv p p' sts m dma ext cs us ws positions producer c :
  seal_inv (mkSeal p sts m dma ext cs us ws) → Forall in_i32 positions → host_check sha256 p positions producer = Done (p', c) →
  seal_inv (mkSeal p' sts m dma ext (c :: cs) us ws).
Proof using Type.
  intros [Hw Hs] Htyped H. apply host_check_Done in H as (Hst & Hpl & _ & Heq); [|done]. unfold state_inv in Hs. cbn [sw_p sw_dma sw_uploads] in Hs.
  rewrite Hst in Hs. destruct Hs as [-> ->].
  assert (in_state p' = HostChecked ∧ in_generation p' = (in_generation p + 1)%Z) as (Hst' & Hg) by (rewrite Heq; done).
  split; cbn [sw_p sw_witnesses] in *.
  - intros v Hv. destruct (Hw v Hv) as [Hle _]. rewrite Hg. split; [lia|]. lia.
  - unfold state_inv. cbn [sw_p sw_dma sw_uploads]. rewrite Hst'. eauto.
Qed.

Lemma begin_upload_inv p p' sts st st' m dma ext cs1 c cs2 us ws id begin r :
  seal_inv (mkSeal p sts m dma ext (cs1 ++ c :: cs2) us ws) → sts !! id = Some st →
  begin_upload sha256 p c id st begin = Some (p', st', r) → (in_state p' = UploadInFlight → counted p ext) →
  seal_inv (mkSeal p' (<[id:=st']> sts) m (dma_after_begin (pi_base (in_identity p)) id r dma) ext (cs1 ++ cs2)
              (match r with Ok u => u :: us | Err _ => us end) ws).
Proof using Type.
  intros Hinv Hst Hbegin Hcount. apply begin_upload_cases in Hbegin as [(u & -> & Hstate & H0 & -> & -> & Hd & Hb & Hu)|(e & -> & -> & Hp' & Hne)].
  - destruct Hinv as [Hw Hs]. destruct (Hcount eq_refl) as [Hfit Hreach]. unfold state_inv in Hs. cbn [sw_p sw_dma sw_uploads] in Hs. rewrite Hstate in Hs.
    destruct Hs as (-> & -> & pos & Hpl). split; try done. unfold state_inv. cbn [sw_p sw_dma in_state with_state].
    split; [split; [done|]; intros b n f x Hin Hx Hr; by apply (Hreach b n f x)|].
    exists pos. split; [by apply (payload_same p)|]. cbn [sw_p sw_dma sw_stages sw_uploads sw_mem dma_after_begin].
    exists id, (seq 0 POSITION_BYTES). split; [done|]. rewrite (pl_checked _ _ Hpl) in Hb, Hd. cbn in Hb, Hd.
    injection Hb as Hb. injection Hd as Hd. rewrite list_lookup_insert_eq by (by eapply lookup_lt_Some).
    split; [by rewrite Hb|]. split; [by rewrite Hu, Hd|]. intros i v Hi Hno. destruct Hno. apply elem_of_seq.
    apply lookup_lt_Some in Hi. rewrite length_position_bytes, (pl_count _ _ Hpl) in Hi. unfold POSITION_BYTES. lia.
  - rewrite list_insert_id by done. destruct Hp' as [->|[Hstate Hp']].
    + assert (dma_after_begin (pi_base (in_identity p)) id (Err e) dma = dma) as ->.
      { destruct e as [| | | | | | | | |m' []]; try done. by destruct (Hne (or_introl eq_refl) m'). }
      destruct Hinv as [Hw Hs]. split; [done|]. eapply state_frame; [exact Hs|by auto].
    + assert (dma = None ∧ us = []) as [-> ->].
      { apply (state_quiet _ (vi_state _ Hinv)); cbn [sw_p]; by rewrite Hstate. }
      destruct Hp' as [-> | ->].
      * assert (dma_after_begin (pi_base (in_identity p)) id (Err e) None = None) as ->.
        { destruct e as [| | | | | | | | |m' []]; try done. by destruct (Hne (or_intror eq_refl) m'). }
        eapply (idle_inv p _ _ _ _ _ _ _ _ Retired Hinv); try done. by right.
      * destruct Hinv as [Hw Hs]. by split.
Qed.

Lemma complete_upload_inv p p' sts st st' m dma ext cs us1 u us2 ws wait acquire r :
  seal_inv (mkSeal p sts m dma ext cs (us1 ++ u :: us2) ws) → sts !! ut_stage u = Some st →
  complete_upload p u st wait acquire = (p', st', r) →
  (wait = Ok tt → ∀ base id todo, dma = Some (base, id, todo) → todo = []) →
  seal_inv (mkSeal p' (<[ut_stage u:=st']> sts) m
    (if fenced r then match wait with Ok _ | Err (mkTransport _ Proven) => None | _ => dma end else dma) ext cs (us1 ++ us2) ws).
Proof using Type.
  intros Hinv Hst [(-> & -> & -> & Hno)|(-> & Hstate & Hg & Hd & Hcase)]%complete_upload_cases Hfence.
  - rewrite list_insert_id by done. destruct (decide (in_state p = UploadInFlight)) as [Hup|Hnup].
    + exfalso. destruct Hinv as [_ Hs]. unfold state_inv in Hs. cbn [sw_p sw_dma sw_uploads] in Hs.
      rewrite Hup in Hs. destruct Hs as (_ & pos & [Hpl (id & todo & _ & _ & Hu & _)]). cbn [sw_p sw_uploads] in *.
      apply app_singleton in Hu as [[_ Hu]|[_ Hu]]; [|done]. injection Hu as -> _. apply Hno; [done|done|].
      by rewrite (pl_checked _ _ Hpl).
    + destruct (decide (in_state p = Quarantined)) as [Hq|Hnq].
      * destruct Hinv as [Hw Hs]. split; [done|]. unfold state_inv. cbn [sw_p]. by rewrite Hq.
      * destruct (state_quiet _ (vi_state _ Hinv) Hnup Hnq) as [_ Hu]. cbn in Hu. by destruct us1.
  - assert (∃ pos id todo, us1 ++ us2 = [] ∧ ut_stage u = id ∧ dma = Some (pi_base (in_identity p), id, todo) ∧ payload p pos ∧
      clear (mkSeal p sts m dma ext cs (us1 ++ u :: us2) ws) ∧ device_holds m (pi_base (in_identity p)) (position_bytes pos) todo)
      as (pos & id & todo & Hus & Hid & Hdma & Hpl & H0 & Hdev).
    { destruct Hinv as [_ Hs]. unfold state_inv in Hs. cbn [sw_p] in Hs. rewrite Hstate in Hs.
      destruct Hs as (H0 & pos & [Hpl (id & todo & H1 & _ & H3 & H4)]). cbn [sw_p sw_dma sw_uploads sw_mem] in *.
      exists pos, id, todo. apply app_singleton in H3 as [[-> H3]|[_ H3]]; [|done]. by injection H3 as -> ->. }
    rewrite Hus. destruct wait as [[]|[msg [|]]].
    + specialize (Hfence eq_refl _ _ _ Hdma). subst todo. destruct Hcase as [_ [-> |[-> | ->]]].
      * destruct Hinv as [Hw _]. split; [done|]. unfold state_inv. cbn [sw_p sw_dma sw_uploads in_state with_state]. repeat (split; [done|]).
        split; [by eapply clear_frame; eauto|]. exists pos. split; [by apply (payload_same p)|done].
      * destruct Hinv as [Hw _]. by split.
      * destruct Hinv as [Hw _]. by split.
    + destruct Hcase as [_ ->]. destruct Hinv as [Hw _]. by split.
    + destruct Hcase as [_ ->]. destruct Hinv as [Hw _]. by split.
Qed.

Lemma copy_inv p sts st m base id todo1 i todo2 ext cs us ws v :
  seal_inv (mkSeal p sts m (Some (base, id, todo1 ++ i :: todo2)) ext cs us ws) →
  sts !! id = Some st → st_bytes st !! i = Some v →
  seal_inv (mkSeal p sts (store_at m (base + Z.of_nat i) v) (Some (base, id, todo1 ++ todo2)) ext cs us ws).
Proof using Type.
  intros [Hw Hs] Hst Hv. split; [done|]. unfold state_inv in *. cbn [sw_p sw_dma sw_uploads] in *.
  destruct (in_state p); try done; try (by destruct Hs). destruct Hs as (H0 & pos & [Hpl (id' & todo & H1 & H2 & H3 & H4)]).
  split; [by eapply clear_frame; eauto|]. exists pos. split; [done|]. cbn [sw_p sw_dma sw_stages sw_uploads sw_mem] in *.
  injection H1 as -> -> <-. exists id', (todo1 ++ todo2). repeat (split; [done|]). rewrite H2 in Hst. injection Hst as <-.
  cbn [st_bytes] in Hv. intros j b Hb Hj. unfold store_at. destruct (decide (j = i)) as [->|Hne].
  - rewrite decide_True by done. congruence.
  - rewrite decide_False by lia. apply H4; [done|]. rewrite elem_of_app, elem_of_cons in *. tauto.
Qed.

(** Stages that no upload reads may change. *)
Lemma stage_inv p sts sts' m dma ext cs us ws :
  seal_inv (mkSeal p sts m dma ext cs us ws) →
  (∀ id st, sts !! id = Some st → st_in_flight st = true → sts' !! id = Some st) →
  seal_inv (mkSeal p sts' m dma ext cs us ws).
Proof using Type.
  intros [Hw Hs] Hsts. split; [done|]. unfold state_inv in *. cbn [sw_p sw_dma sw_uploads] in *.
  destruct (in_state p); try done.
  - destruct Hs as (H0 & pos & [Hpl (id & todo & H1 & H2 & H3 & H4)]). split; [by eapply clear_frame; eauto|]. exists pos. split; [done|].
    exists id, todo. cbn [sw_p sw_dma sw_stages sw_uploads sw_mem] in *. repeat (split; [done|]). split; [|done].
    by apply Hsts.
  - destruct Hs as (Hd & Hu & H0 & pos & [Hpl H]). repeat (split; [done|]). split; [by eapply clear_frame; eauto|]. exists pos. by split.
  - destruct Hs as (Hd & Hu & H0 & pos & [Hpl H]). repeat (split; [done|]). split; [by eapply clear_frame; eauto|]. exists pos. by split.
Qed.

Lemma stage_set (sts : list StageInner) id st st' :
  sts !! id = Some st → st_in_flight st = false →
  ∀ j st1, sts !! j = Some st1 → st_in_flight st1 = true → <[id:=st']> sts !! j = Some st1.
Proof using Type.
  intros Hst Hf j st1 Hj Ht. destruct (decide (j = id)) as [->|]; [congruence|]. by rewrite list_lookup_insert_ne.
Qed.

(** Calls that are only legal while retired. *)
Lemma retired_inv p p' sts m m' dma ext ext' cs us ws :
  seal_inv (mkSeal p sts m dma ext cs us ws) → in_state p = Retired → in_state p' = Retired →
  in_generation p' = in_generation p → in_positions p' = None ∨ in_positions p' = in_positions p →
  seal_inv (mkSeal p' sts m' dma ext' cs us ws).
Proof using Type.
  intros [Hw Hs] Hst Hst' Hg Hpos. split; cbn [sw_p sw_witnesses] in *.
  - intros v Hv. rewrite Hg. destruct (Hw v Hv) as [Hle Hpv]. split; [done|]. intros Hgen.
    destruct Hpos as [->|Hpos]; [by left|]. rewrite Hpos. by apply Hpv.
  - unfold state_inv in *. cbn [sw_p sw_dma sw_uploads] in *. by rewrite Hst in Hs; rewrite Hst'.
Qed.

Lemma external_disjoint p b n x :
  range_fits (in_identity p) → (0 ≤ b)%Z → external_overlaps p b n = false → in_write b n x →
  ¬ in_positions_range (in_identity p) x.
Proof using Type.
  intros (H0 & Hb & Hu) Hb0 Ho Hx Hr. unfold in_write, in_positions_range in *. unfold external_overlaps in Ho.
  assert (wrapping_add 64 (pi_base (in_identity p)) (pi_bytes (in_identity p)) =
    pi_base (in_identity p) + pi_bytes (in_identity p))%Z as Hw.
  { unfold wrapping_add. apply Z.mod_small. unfold POSITION_BYTES, u64_max in *. lia. }
  rewrite Hw in Ho. apply andb_false_iff in Ho as [Ho%Z.ltb_ge|Ho%Z.ltb_ge]; [lia|].
  destruct (checked_add 64 b n) as [e|] eqn:He; cbn [default] in Ho.
  - apply checked_add_Some in He as [-> _]. cbn in Ho. lia.
  - change (u64_max ≤ pi_base (in_identity p))%Z in Ho. unfold POSITION_BYTES in Hb. lia.
Qed.

Lemma enqueued_inv p p' sts m dma ext cs us ws b n :
  seal_inv (mkSeal p sts m dma ext cs us ws) → (0 ≤ b)%Z → external_write_enqueued p b n = Done p' →
  seal_inv (mkSeal p' sts m dma ((b, n, external_overlaps p b n) :: ext) cs us ws).
Proof using Type.
  intros Hinv Hb. unfold external_write_enqueued. destruct (external_overlaps p b n) eqn:Ho; cbn [negb].
  - destruct (bool_decide_reflect (in_state p = Retired)) as [Hst|]; cbn [negb]; [|done].
    destruct (checked_add 32 (in_external_pending p) 1) as [k|] eqn:Hk; cbn [unwrap mbind exec_bind]; [|done].
    intros [= <-]. apply (retired_inv p _ _ _ _ _ _ _ _ _ _ Hinv); try done. by right.
  - intros [= <-]. destruct Hinv as [Hw Hs]. split; [done|]. eapply state_frame; [exact Hs|].
    intros b' n' f x _ Hfit [[= -> -> _]|Hin]%elem_of_cons Hx; [right; by eapply external_disjoint|by left].
Qed.

(** The count is read only when an upload starts and when writers are bound. *)
Lemma pending_inv p k sts m dma ext ext' cs us ws :
  seal_inv (mkSeal p sts m dma ext cs us ws) → (∀ e, e ∈ ext' → e ∈ ext) → seal_inv (mkSeal (with_pending p k) sts m dma ext' cs us ws).
Proof using Type.
  intros [Hw Hs] Hext. split; [done|]. unfold state_inv in *. cbn [sw_p sw_dma sw_uploads with_pending in_state] in *.
  destruct (in_state p); try done.
  - destruct Hs as (Hd & Hu & pos & Hpl). repeat (split; [done|]). exists pos. by apply (payload_same p).
  - destruct Hs as (H0 & pos & [Hpl (id & todo & H1 & H2 & H3 & H4)]). split; [by eapply clear_frame; eauto|]. exists pos.
    split; [by apply (payload_same p)|]. by exists id, todo.
  - destruct Hs as (Hd & Hu & H0 & pos & [Hpl H]). repeat (split; [done|]). split; [by eapply clear_frame; eauto|]. exists pos.
    split; [by apply (payload_same p)|done].
  - destruct Hs as (Hd & Hu & H0 & pos & [Hpl H]). repeat (split; [done|]). split; [by eapply clear_frame; eauto|]. exists pos.
    split; [by apply (payload_same p)|done].
Qed.

Lemma elem_of_drop_middle {A} (l1 l2 : list A) x y : y ∈ l1 ++ l2 → y ∈ l1 ++ x :: l2.
Proof using Type. rewrite !elem_of_app, elem_of_cons. tauto. Qed.

Lemma sealed_same p p' sts m dma ext cs us ws ws' pos :
  clear (mkSeal p sts m dma ext cs us ws) → sealed_now (mkSeal p sts m dma ext cs us ws) pos →
  in_identity p' = in_identity p → in_positions p' = in_positions p → in_checked p' = in_checked p →
  clear (mkSeal p' sts m dma ext cs us ws') ∧ ∃ positions, sealed_now (mkSeal p' sts m dma ext cs us ws') positions.
Proof using Type.
  intros Hcl [Hpl H] Hid Hpos Hch. split; [by eapply clear_frame; eauto|]. exists pos.
  split; cbn [sw_p sw_mem] in *; [by apply (payload_same p)|by rewrite Hid].
Qed.

(** Moving on without touching the payload. *)
Lemma moved_on_inv p p' sts m dma ext cs us ws ws' :
  seal_inv (mkSeal p sts m dma ext cs us ws) →
  in_identity p' = in_identity p → in_generation p' = in_generation p →
  in_positions p' = in_positions p → in_checked p' = in_checked p →
  (in_state p' = in_state p ∨ in_state p = SealedReady ∧ in_state p' = SubmittedReadOnly ∨
   in_state p ≠ UploadInFlight ∧ in_state p ≠ Quarantined ∧ in_state p' = Retired ∨ in_state p' = Quarantined) →
  (∀ w, w ∈ ws' → w ∈ ws ∨ iw_p_generation w = in_generation p ∧ in_positions p = Some (iw_positions w)) →
  seal_inv (mkSeal p' sts m dma ext cs us ws').
Proof using Type.
  intros Hinv Hid Hg Hpos Hch Hst Hws. pose proof (state_quiet _ (vi_state _ Hinv)) as Hquiet.
  destruct Hinv as [Hw Hs]. split; cbn [sw_p sw_witnesses sw_dma sw_uploads] in *.
  - intros w Hin. rewrite Hg, Hpos. destruct (Hws w Hin) as [Hin'|[Hwg Hwp]]; [by apply Hw|]. split; [lia|]. by right.
  - unfold state_inv in *. cbn [sw_p sw_dma sw_uploads] in *.
    destruct Hst as [-> |[[Hs1 ->]|[(Hs1 & Hs2 & ->)|Hq]]]; [|rewrite Hs1 in Hs|by apply Hquiet|by rewrite Hq].
    + destruct (in_state p); try done.
      * destruct Hs as (? & ? & pos & Hpl). repeat (split; [done|]). exists pos. by apply (payload_same p).
      * destruct Hs as (Hcl & pos & [Hpl (id & todo & H1 & H2 & H3 & H4)]). split; [by eapply clear_frame; eauto|]. exists pos.
        cbn [sw_p sw_dma sw_stages sw_uploads sw_mem] in *.
        split; [by apply (payload_same p)|]. exists id, todo. cbn [sw_p sw_dma sw_stages sw_uploads sw_mem]. by rewrite Hid, Hg.
      * destruct Hs as (? & ? & Hcl & pos & Hnow). repeat (split; [done|]). by eapply sealed_same.
      * destruct Hs as (? & ? & Hcl & pos & Hnow). repeat (split; [done|]). by eapply sealed_same.
    + destruct Hs as (? & ? & Hcl & pos & Hnow). repeat (split; [done|]). by eapply sealed_same.
Qed.

Lemma check_witness_Ok p w :
  check_witness p w = Ok tt →
  in_state p = SealedReady ∧ in_bound p = Some (iw_window w, iw_p_generation w) ∧ iw_p_generation w = in_generation p ∧
  iw_p w = in_identity p ∧ snd <$> in_checked p = Some (iw_payload_digest w).
Proof using Type.
  unfold check_witness. destruct (bool_decide_reflect (in_state p = SealedReady)); cbn [negb]; [|done].
  destruct (_ || _) eqn:Hor; [done|]. intros _. rewrite !orb_false_iff, !negb_false_iff, !bool_decide_eq_true, Z.eqb_eq in Hor.
  destruct Hor as [[[? ?] ?] ?]. done.
Qed.

Lemma bind_writers_Done i p p' w :
  bind_writers (bind_program i) (window i) p = Done (p', w) →
  in_state p = SealedReady ∧ in_external_pending p = 0%Z ∧ p' = with_bound p (Some (window i, in_generation p)) ∧
  ∃ positions payload_digest, in_positions p = Some positions ∧ snd <$> in_checked p = Some payload_digest ∧
    bind_program i (in_identity p) (in_generation p) positions payload_digest = Done w.
Proof using Type.
  unfold bind_writers. destruct (bool_decide_reflect (in_state p = SealedReady)); cbn [negb]; [|done].
  destruct (Z.eqb_spec (in_external_pending p) 0); cbn [negb]; [|done].
  destruct (in_positions p) as [pos|]; cbn [unwrap mbind exec_bind]; [|done].
  destruct (in_checked p) as [[b d]|]; cbn [unwrap mbind exec_bind]; [|done].
  intros (w' & Hw & H)%bind_Done_inv. injection H as <- <-. repeat (split; [done|]). by exists pos, d.
Qed.

Lemma finish_state p q :
  in_state (finish p q) = in_state p ∨ (in_state p ≠ UploadInFlight ∧ in_state p ≠ Quarantined ∧ in_state (finish p q) = Retired) ∨
  in_state (finish p q) = Quarantined.
Proof using Type. unfold finish. destruct (in_state p) eqn:Hst, q; cbn; rewrite ?Hst; auto. Qed.

Lemma finish_same p q :
  in_identity (finish p q) = in_identity p ∧ in_external_pending (finish p q) = in_external_pending p ∧
  in_generation (finish p q) = in_generation p ∧ in_positions (finish p q) = in_positions p ∧ in_checked (finish p q) = in_checked p.
Proof using Type. unfold finish. by destruct (in_state p). Qed.

Context (Hbind : ∀ i p g ps d w, bind_program i p g ps d = Done w → iw_p_generation w = g ∧ iw_positions w = ps).

Lemma seal_step_inv w w' : seal_inv w → seal_step counted w w' → seal_inv w'.
Proof using Hbind.
  intros Hinv Hstep. destruct Hstep as [p p' sts m dma ext cs us ws positions producer c Ht H|
    p p' sts st st' m dma ext cs1 c cs2 us ws id begin r Hst H Hup|p p' sts st st' m dma ext cs us1 u us2 ws wait acquire r Hst H Hfence|
    p sts m m' dma ext cs us ws H _|p p' sts m dma ext cs us ws base generation H|p p' sts m dma ext cs us ws H|
    p p' sts m dma ext cs us ws b n Hb Hn H|p sts m dma ext1 b n f ext2 cs us ws|p sts m dma ext cs us ws|p sts m dma ext1 b n f ext2 cs us ws|
    p sts m dma ext cs us ws b n f x v Hin Hx|p sts m dma ext cs us ws x v Hx|
    p sts st m base id todo1 i todo2 ext cs us ws v Hst Hv|p sts m dma ext cs us ws|
    p sts st st' m dma ext cs us ws id positions Hst H|p sts st st' m dma ext cs us ws id at_ value Hst H|
    p p' sts m dma ext cs us ws i w H|p p' sts m dma ext cs us ws1 w ws2 H|p sts m dma ext cs us ws q|p p' sts m dma ext cs us ws H].
  - by eapply host_check_inv.
  - by eapply begin_upload_inv.
  - by eapply complete_upload_inv.
  - unfold overwrite, leased in H. destruct (in_state p) eqn:Hst; try done.
    by apply (retired_inv p p sts m m' dma ext ext cs us ws Hinv); auto.
  - unfold remap, leased in H. destruct (in_state p) eqn:Hst; try done. cbn [mbind result_bind] in H.
    destruct (_ || _); [done|]. destruct (_ <=? _)%Z; [done|]. injection H as <-.
    apply (retired_inv p _ sts m m dma ext ext cs us ws Hinv); auto.
  - unfold recycle, leased in H. destruct (in_state p) eqn:Hst; try done. cbn [try_ mbind exec_bind] in H.
    destruct (checked_add 64 _ 1) as [g|]; cbn [unwrap mbind exec_bind] in H; [|done]. injection H as <-.
    apply (retired_inv p _ sts m m dma ext ext cs us ws Hinv); auto.
  - by eapply enqueued_inv.
  - eapply pending_inv; [exact Hinv|]. intros e. apply elem_of_drop_middle.
  - by eapply pending_inv.
  - destruct Hinv as [Hw Hs]. split; [done|]. eapply state_frame; [exact Hs|]. intros *. left. by apply elem_of_drop_middle.
  - by eapply external_inv.
  - by apply store_inv.
  - by eapply copy_inv.
  - eapply stage_inv; [exact Hinv|]. intros id st Hid _. by apply lookup_app_l_Some.
  - unfold stage_fill in H. destruct (st_in_flight st) eqn:Hfl; [done|]. injection H as <-.
    eapply stage_inv; [exact Hinv|]. by eapply stage_set.
  - unfold stage_write_byte in H. destruct (st_in_flight st) eqn:Hfl; [done|].
    eapply stage_inv; [exact Hinv|]. by eapply stage_set.
  - apply bind_writers_Done in H as (Hst & _ & -> & pos & d & Hpos & _ & Hw). apply Hbind in Hw as [Hg Hps].
    apply (moved_on_inv p _ _ _ _ _ _ _ ws _ Hinv); try done; [by left|]. intros v [->|Hv]%elem_of_cons; [right|by left].
    by rewrite Hg, Hps.
  - unfold mark_submitted in H. destruct (check_witness p w) as [[]|e] eqn:Hc; cbn [mbind result_bind] in H; [|done].
    apply check_witness_Ok in Hc as (Hst & _). injection H as <-.
    apply (moved_on_inv p _ _ _ _ _ _ _ (ws1 ++ w :: ws2) _ Hinv); try done; [by right; left|].
    intros v Hv. left. rewrite elem_of_app, elem_of_cons in *. tauto.
  - destruct (finish_same p q) as (H1 & H2 & H3 & H4 & H5).
    apply (moved_on_inv p _ _ _ _ _ _ _ ws _ Hinv); try done; [|by intros; left].
    destruct (finish_state p q) as [?|[?|?]]; auto.
  - unfold release_unsubmitted in H. destruct (in_state p) eqn:Hst; try done; injection H as <-.
    + apply (moved_on_inv p _ _ _ _ _ _ _ ws _ Hinv); try done; [|by intros; left]. right; right; left. by rewrite Hst.
    + apply (moved_on_inv p _ _ _ _ _ _ _ ws _ Hinv); try done; [|by intros; left]. right; right; left. by rewrite Hst.
Qed.

Lemma sealed_new_inv identity p m : sealed_new identity = Ok p → seal_inv (seal_start p m).
Proof using Type.
  intros H. unfold sealed_new in H. invert_ok. split; [by intros v Hv%elem_of_nil|].
  destruct (_ || _); [done|]. destruct (negb _); [done|]. destruct (negb _); [done|]. by injection H as <-.
Qed.

Lemma reachable_inv p m w identity : sealed_new identity = Ok p → rtc (seal_step counted) (seal_start p m) w → seal_inv w.
Proof using Hbind.
  intros Hp Hr. eapply (rtc_ind_l (λ w0, seal_inv w0 → seal_inv w)); [done| |exact Hr|by eapply sealed_new_inv].
  intros x y Hxy _ IH Hx. by apply IH, (seal_step_inv x).
Qed.

(** *** Careful clients *)

Definition recorded (ext : list (Z * Z * bool)) : nat := length (List.filter snd ext).

Lemma recorded_elem b n ext : (b, n, true) ∈ ext → recorded ext ≠ 0.
Proof using Type.
  intros Hin H0. apply nil_length_inv in H0. assert ((b, n, true) ∈ List.filter snd ext) as H.
  { apply list_elem_of_In, filter_In. by rewrite <-list_elem_of_In. }
  rewrite H0 in H. by apply elem_of_nil in H.
Qed.

(** The count follows the recorded writes, and a remap is to a range inside the
    address space that no queued write reaches unrecorded. *)
Record careful (a b : seal_world) : Prop := {
  ca_ends : (in_external_pending (sw_p b) - in_external_pending (sw_p a) = Z.of_nat (recorded (sw_external b)) - Z.of_nat (recorded (sw_external a)))%Z;
  ca_remap : pi_base (in_identity (sw_p b)) ≠ pi_base (in_identity (sw_p a)) →
    range_fits (in_identity (sw_p b)) ∧
    ∀ base n x, (base, n, false) ∈ sw_external b → in_write base n x → ¬ in_positions_range (in_identity (sw_p b)) x
}.

Record counted_inv (w : seal_world) : Prop := {
  ci_fits : range_fits (in_identity (sw_p w));
  ci_pending : in_external_pending (sw_p w) = Z.of_nat (recorded (sw_external w));
  ci_elsewhere b n x : (b, n, false) ∈ sw_external w → in_write b n x → ¬ in_positions_range (in_identity (sw_p w)) x
}.

(** What a step does to the range and to the writes that were not recorded. *)
Lemma step_range uploads a b : seal_step uploads a b →
  pi_bytes (in_identity (sw_p b)) = pi_bytes (in_identity (sw_p a)) ∧
  ∀ base n, (base, n, false) ∈ sw_external b → (base, n, false) ∈ sw_external a ∨ (0 ≤ base)%Z ∧ external_overlaps (sw_p a) base n = false.
Proof using Type.
  intros Hstep. destruct Hstep as [p p' sts m dma ext cs us ws positions producer c Ht H|
    p p' sts st st' m dma ext cs1 c cs2 us ws id begin r Hst H _|p p' sts st st' m dma ext cs us1 u us2 ws wait acquire r Hst H _|
    p sts m m' dma ext cs us ws H _|p p' sts m dma ext cs us ws base generation H|p p' sts m dma ext cs us ws H|
    p p' sts m dma ext cs us ws b n Hb Hn H|p sts m dma ext1 b n f ext2 cs us ws|p sts m dma ext cs us ws|p sts m dma ext1 b n f ext2 cs us ws|
    p sts m dma ext cs us ws b n f x v Hin Hx|p sts m dma ext cs us ws x v Hx|
    p sts st m base id todo1 i todo2 ext cs us ws v Hst Hv|p sts m dma ext cs us ws|
    p sts st st' m dma ext cs us ws id positions Hst H|p sts st st' m dma ext cs us ws id at_ value Hst H|
    p p' sts m dma ext cs us ws i w H|p p' sts m dma ext cs us ws1 w ws2 H|p sts m dma ext cs us ws q|p p' sts m dma ext cs us ws H];
    cbn [sw_p sw_external]; (split; [|try (intros; by left)]); try done.
  - apply host_check_Done in H as (_ & _ & _ & ->); done.
  - apply begin_upload_cases in H as [(u & _ & _ & _ & -> & _)|(e & _ & _ & [->|[_ [-> | ->]]] & _)]; done.
  - apply complete_upload_cases in H as [(_ & -> & _)|(_ & _ & _ & _ & H)]; [done|].
    destruct wait as [[]|[? []]]; [destruct H as [_ [-> |[-> | ->]]]|destruct H as [_ ->]|destruct H as [_ ->]]; done.
  - unfold remap in H. invert_ok. destruct (_ || _); [done|]. destruct (_ <=? _)%Z; [done|]. by injection H as <-.
  - unfold recycle in H. invert_ok. by subst.
  - unfold external_write_enqueued in H. destruct (negb _); [by injection H as <-|]. destruct (negb _); [done|]. invert_ok. by subst.
  - intros base k [[= -> -> <-]|Hin]%elem_of_cons; [by right|by left].
  - intros base k Hin. left. by apply elem_of_drop_middle.
  - intros base k Hin. left. by apply elem_of_drop_middle.
  - apply bind_writers_Done in H as (_ & _ & -> & _). done.
  - unfold mark_submitted in H. invert_ok. by subst.
  - by destruct (finish_same p q) as (-> & _).
  - unfold release_unsubmitted in H. destruct (in_state p); by try injection H as <-.
Qed.

Lemma counted_step uploads a b : counted_inv a → seal_step uploads a b → careful a b → counted_inv b.
Proof using Type.
  intros [Hf Hp He] [Hbytes Hext]%step_range [Hends Hremap].
  destruct (decide (pi_base (in_identity (sw_p b)) = pi_base (in_identity (sw_p a)))) as [Hbase|Hbase].
  - unfold range_fits, in_positions_range in *. split; [unfold range_fits; by rewrite Hbase, Hbytes|lia|].
    intros base n x Hin Hx. unfold in_positions_range. rewrite Hbase, Hbytes. destruct (Hext base n Hin) as [Hin'|[H0 Ho]]; [by apply (He base n)|].
    by apply (external_disjoint (sw_p a) base n).
  - destruct (Hremap Hbase) as [Hf' He']. split; [done|lia|done].
Qed.

(** Careful clients never start an upload under a queued write that the count has
    lost. *)
Lemma careful_counted p m w identity :
  sealed_new identity = Ok p → in_u 64 (pi_base identity) →
  rtc (λ a b, seal_step (λ _ _, True) a b ∧ careful a b) (seal_start p m) w → counted (sw_p w) (sw_external w).
Proof using Type.
  intros Hp [Hb _] Hr. assert (counted_inv w) as [Hf Hpe He].
  { assert (counted_inv (seal_start p m)) as H0.
    { unfold sealed_new in Hp. destruct (_ || _) eqn:Hor; [done|]. apply orb_false_iff in Hor as [_ Hs%Z.ltb_ge].
      destruct (checked_add 64 _ _) as [e|] eqn:Ha; cbn in Hp; [|done]. apply checked_add_Some in Ha as [-> Hu].
      destruct (_ =? 0)%Z; [|done]. injection Hp as <-. split; cbn; try done. by intros b n x Hin%elem_of_nil. }
    revert H0. induction Hr as [|a b c [Hab Hc] _ IH]; [done|]. intros Ha. apply IH. by eapply counted_step. }
  split; [done|]. intros b n f x Hin Hx Hr' H0. destruct f; [|by apply (He b n x)]. apply recorded_elem in Hin. lia.
Qed.
End world.
