(* ===== verification/RailWriter.v ===== *)
(** * Binding the writers of a window ([railgun/src/index_bind.rs])

    The proof that [SealedPositions::bind_writers] runs on the encoded kernarg
    images: no node or step of the window writes the positions, and every
    writer node's sixteen rows lie in its slice, are mapped, and are disjoint.
    Sums of addresses wrap, as in a release build. *)

From S2P Require Import Prelude Packet RailCopy RailKernels RailSealed.

(** ** Steps of a window ([railgun/src/window.rs]) *)

Record Region := mkRegion { rg_resource : ResourceId; rg_byte_offset : Expr }.
Record CopyStep := mkCopyStep { cp_src : Region; cp_dst : Region; cp_bytes : Expr }.
Record FillStep := mkFillStep { fl_dst : Region; fl_value : Z; fl_words : Expr }.
Inductive WindowStep := StepKernel (node : nat) | StepCopy (c : CopyStep) | StepFill (f : FillStep).

(** ** The argument layout *)

Module abi.
Definition DST : nat := 0.
Definition SRC : nat := 8.
Definition POSITIONS : nat := 16.
Definition N_KV_HEADS : nat := 24.
Definition HEAD_DIM : nat := 28.
Definition BATCH : nat := 32.
Definition SLOT_DESCS : nat := 40.
Definition ROW_SLOT : nat := 48.
Definition HEAD_DIM_VALUE : Z := 256.
Definition BATCH_VALUE : Z := 16.
End abi.

Definition WITNESS_INDEXED_BIND : rstr := lit "indexed_bind".

(** Byte offsets from the base of the dst allocation. *)
Record WriterExtent := mkExtent {
  we_node : nat;
  we_dst_slice : Z * Z;
  we_mapped : list (Z * Z);
  we_mapping_generation : Z
}.

Record BindInputs := mkBindInputs {
  bn_window : Z;
  bn_shape_generation : Z;
  bn_program : KernelProgram;
  bn_steps : list WindowStep;
  bn_bindings : list Binding;
  bn_allocations : list AllocationIdentity;
  bn_images : list (list Z);
  bn_grids : list arr3;
  bn_positions_resource : ResourceId;
  bn_writers : list WriterExtent
}.

Definition le_at (size : nat) (image : list Z) (at_ : nat) : option Z :=
  if decide (at_ + size ≤ length image) then Some (read_le at_ size image) else None.
Definition le32 : list Z → nat → option Z := le_at 4.
Definition le64 : list Z → nat → option Z := le_at 8.

Definition overlaps (a b : Z * Z) : bool := (a.1 <? b.2)%Z && (b.1 <? a.2)%Z.

Definition as_i32 (x : Z) : Z := if (x <? 2 ^ 31)%Z then x else (x - 2 ^ 32)%Z.

Definition pair_compare (a b : Z * Z) : comparison :=
  match (a.1 ?= b.1)%Z with Eq => (a.2 ?= b.2)%Z | c => c end.

(** The sorted intervals tile [[at_, hi)] without a hole. *)
Fixpoint covered (mapped : list (Z * Z)) (at_ hi : Z) : bool :=
  match mapped with
  | [] => (hi <=? at_)%Z
  | (s, e) :: rest =>
      if (e <=? at_)%Z then covered rest at_ hi
      else if (at_ <? s)%Z then false
      else if (hi <=? e)%Z then true
      else covered rest e hi
  end.

Definition same (a b : rstr) : bool := bool_decide (a = b).

(** ** One writer *)

Section writer.
Context (sha256 : list Z → list Z) (input : BindInputs) (extent : WriterExtent).
Context (p : PositionsIdentity) (positions : list Z).
Local Abbreviation bad d := (Writer (we_node extent) d).

Definition arg_at (args : list ArgFact) (off : nat) : option ArgFact := List.find (λ a, af_offset a =? off) args.

Definition check_layout (ix : IndexedNode) (entry : nat * nat) : result IndexBindError unit :=
  let '(off, size) := entry in
  guard_ (negb (match arg_at (ix_args ix) off with Some a => af_size a =? size | None => false end)) (bad (NoArgument off)).

Definition check_pointer (ix : IndexedNode) (off : nat) : result IndexBindError unit :=
  guard_ (negb (match af_role <$> arg_at (ix_args ix) off with Some (Pointer _ _) => true | _ => false end)) (bad (NotAPointer off)).

Definition null_guard (off : nat) (g : ArgGuard) : bool :=
  (ag_arg_offset g =? off) && (ag_size g =? 8) &&
  (if same (ag_kind g) (lit "kernarg_eq") || same (ag_kind g) (lit "scalar_eq") then same (ag_value g) (lit "0")
   else same (ag_kind g) (lit "ptr_null")).

Definition check_null (ix : IndexedNode) (off : nat) : result IndexBindError unit :=
  _ ← guard_ (match af_role <$> arg_at (ix_args ix) off with Some (Pointer classes _) => negb (is_empty classes) | _ => false end)
        (bad (HasEffects off));
  guard_ (negb (existsb (null_guard off) (ix_guards ix))) (bad (NoNullGuard off)).

Definition value_guard (off : nat) (value : rstr) (g : ArgGuard) : bool :=
  (ag_arg_offset g =? off) && (ag_size g =? 4) &&
  (same (ag_kind g) (lit "kernarg_eq") || same (ag_kind g) (lit "scalar_eq")) && same (ag_value g) value.

Definition check_value (ix : IndexedNode) (entry : nat * rstr) : result IndexBindError unit :=
  let '(off, value) := entry in
  guard_ (negb (existsb (value_guard off value) (ix_guards ix))) (bad (NoValueGuard off)).

Definition check_integer (ix : IndexedNode) (off : nat) : result IndexBindError unit :=
  guard_ (negb (match af_role <$> arg_at (ix_args ix) off with Some Integer => true | _ => false end)) (bad (NotAnInteger off)).

Definition foreign_effect (e : IndexedArgEffect) : bool :=
  negb (ie_base_arg_offset e =? abi.DST)
  || existsb (λ l, negb (il_source_arg_offset l =? abi.POSITIONS)) (ie_index_loads e).

(** The receipt describes the case that the binding proves. *)
Definition check_receipt (ix : IndexedNode) : result IndexBindError unit :=
  _ ← guard_ (negb (existsb (same WITNESS_INDEXED_BIND) (ix_witnesses ix))) (bad WitnessKind);
  _ ← for_each (check_layout ix)
        [(abi.DST, 8); (abi.SRC, 8); (abi.POSITIONS, 8); (abi.N_KV_HEADS, 4); (abi.HEAD_DIM, 4); (abi.BATCH, 4);
         (abi.SLOT_DESCS, 8); (abi.ROW_SLOT, 8)];
  _ ← for_each (check_pointer ix) [abi.DST; abi.SRC; abi.POSITIONS];
  _ ← for_each (check_null ix) [abi.SLOT_DESCS; abi.ROW_SLOT];
  _ ← for_each (check_value ix) [(abi.HEAD_DIM, lit "256"); (abi.BATCH, lit "16")];
  _ ← for_each (check_integer ix) [abi.N_KV_HEADS; abi.HEAD_DIM; abi.BATCH];
  effect ← ok_or (List.find (λ e, ie_base_arg_offset e =? abi.DST) (ix_effects ix)) (bad NoIndexedEffect);
  _ ← guard_ (negb (existsb (λ l, (il_source_arg_offset l =? abi.POSITIONS) && same (il_element l) (lit "i32"))
                      (ie_index_loads effect))) (bad NoIndexLoad);
  guard_ (existsb foreign_effect (ix_effects ix)) (bad ForeignEffect).

Definition resource_of (node : KernelNode) (image : list Z) (off : nat) : result IndexBindError (ResourceId * Z * Binding) :=
  value ← ok_or (le64 image off) (bad ShortImage);
  resource ← ok_or (filter_map (λ '(o, a), match a with ArgResource r _ => if o =? off then Some r else None | _ => None end)
                      (kn_args node) !! 0) (bad (NotAResource off));
  b ← ok_or (bn_bindings input !! resource) (bad WriterUnknownResource);
  if (value <? bi_base b)%Z || (bi_bytes b <=? value - bi_base b)%Z then Err (bad (OutsideAllocation off))
  else Ok (resource, value, b).

Definition map_interval (dst : Binding) (r : Z * Z) : result IndexBindError (Z * Z) :=
  if (r.2 <=? r.1)%Z || (bi_bytes dst <? r.2)%Z then Err (bad BadInterval)
  else Ok (wrapping_add 64 (bi_base dst) r.1, wrapping_add 64 (bi_base dst) r.2).

Definition bind_row (dst_ptr row_bytes : Z) (slice : Z * Z) (mapped : list (Z * Z)) (src : Z * Z) (entry : nat * Z) :
    result IndexBindError (Z * Z) :=
  let '(bid, p_i) := entry in
  if (p_i <? 0)%Z then Err (bad (WriterNegative bid))
  else
    off ← ok_or (checked_mul 64 p_i row_bytes) (bad (RowOverflows bid));
    start ← ok_or (checked_add 64 dst_ptr off) (bad (RowOverflows bid));
    end_ ← ok_or (checked_add 64 start row_bytes) (bad (RowEndOverflows bid));
    if (start <? slice.1)%Z || (slice.2 <? end_)%Z then Err (bad (LeavesSlice bid))
    else if negb (covered mapped start end_) then Err (bad (NotMapped bid))
    else if negb (start mod 4 =? 0)%Z then Err (bad (RowMisaligned bid))
    else if overlaps (start, end_) (pi_base p, wrapping_add 64 (pi_base p) (pi_bytes p)) then Err (bad (RowHitsPositions bid))
    else if overlaps (start, end_) src then Err (bad (RowHitsSource bid))
    else Ok (start, end_).

Definition block_ok (b : arr3) : bool := (a3_x b =? 32)%Z && (a3_y b =? 1)%Z && (a3_z b =? 1)%Z.

Definition bind_writer : exec IndexBindError BoundWriter :=
  let node_index := we_node extent in
  node ← unwrap (kp_nodes (bn_program input) !! node_index);
  ix ← unwrap (kn_indexed node);
  kref ← unwrap (kn_kref node);
  _ ← try_ (check_receipt ix);
  image ← unwrap (bn_images input !! node_index);
  grid ← unwrap (bn_grids input !! node_index);
  '(h, row_bytes, src_bytes, (dst_res, dst_ptr, dst_binding), (src_ptr, src_binding)) ← try_ (
    h_raw ← ok_or (le32 image abi.N_KV_HEADS) (bad ShortImage);
    hd ← ok_or (le32 image abi.HEAD_DIM) (bad ShortImage);
    batch ← ok_or (le32 image abi.BATCH) (bad ShortImage);
    slot_descs ← ok_or (le64 image abi.SLOT_DESCS) (bad ShortImage);
    row_slot ← ok_or (le64 image abi.ROW_SLOT) (bad ShortImage);
    let h := as_i32 h_raw in
    _ ← guard_ (h <=? 0)%Z (bad (BadHeads h));
    _ ← guard_ (negb (hd =? abi.HEAD_DIM_VALUE)%Z) (bad (BadHeadDim hd));
    _ ← guard_ (negb (batch =? abi.BATCH_VALUE)%Z) (bad (BadBatch batch));
    _ ← guard_ (negb (slot_descs =? 0)%Z || negb (row_slot =? 0)%Z) (bad SlotsNotNull);
    _ ← guard_ (negb ((a3_x grid =? h)%Z && (a3_y grid =? abi.BATCH_VALUE)%Z && (a3_z grid =? 1)%Z)) (bad BadGrid);
    _ ← guard_ (negb (block_ok (kn_block node))) (bad BadBlock);
    _ ← guard_ (negb (kn_dynamic_lds node =? 0)%Z) (bad BadLds);
    row_bytes ← ok_or (checked_mul 64 h (hd + 2)) (bad RowBytesOverflow);
    let src_elems := (h * hd * batch)%Z in
    _ ← guard_ ((2 ^ 31 - 1 <? row_bytes) || (2 ^ 31 - 1 <? src_elems))%Z (bad TooLarge);
    let src_bytes := (src_elems * 4)%Z in
    '(p_res, p_ptr, _) ← resource_of node image abi.POSITIONS;
    _ ← guard_ (negb (p_res =? bn_positions_resource input) || negb (p_ptr =? pi_base p)%Z) (bad NotThePositions);
    '(dst_res, dst_ptr, dst_binding) ← resource_of node image abi.DST;
    '(src_res, src_ptr, src_binding) ← resource_of node image abi.SRC;
    _ ← guard_ ((dst_res =? bn_positions_resource input) || (src_res =? dst_res)) (bad DstAliases);
    _ ← guard_ (src_res =? bn_positions_resource input) (bad SrcIsPositions);
    Ok (h, row_bytes, src_bytes, (dst_res, dst_ptr, dst_binding), (src_ptr, src_binding)));
  dst_alloc ← unwrap (bn_allocations input !! dst_res);
  try_ (
    _ ← guard_ (negb (al_base dst_alloc =? bi_base dst_binding)%Z || negb (al_bytes dst_alloc =? bi_bytes dst_binding)%Z)
          (bad DstIdentity);
    src_end ← ok_or (checked_add 64 src_ptr src_bytes) (bad SrcOverflows);
    _ ← guard_ (wrapping_add 64 (bi_base src_binding) (bi_bytes src_binding) <? src_end)%Z (bad SrcExceeds);
    _ ← guard_ (negb (src_ptr mod 4 =? 0)%Z) (bad SrcMisaligned);
    _ ← guard_ (negb (we_mapping_generation extent =? al_generation dst_alloc)%Z) (bad MappingGeneration);
    let '(slice_start, slice_end) := we_dst_slice extent in
    _ ← guard_ (slice_end <=? slice_start)%Z (bad EmptySlice);
    slice_lo ← ok_or (checked_add 64 (bi_base dst_binding) slice_start) (bad SliceOverflows);
    slice_hi ← ok_or (checked_add 64 (bi_base dst_binding) slice_end) (bad SliceOverflows);
    mapped ← mapM (map_interval dst_binding) (we_mapped extent);
    let mapped := sort_by pair_compare mapped in
    rows ← mapM (bind_row dst_ptr row_bytes (slice_lo, slice_hi) mapped (src_ptr, src_end)) (enumerate positions);
    _ ← guard_ (existsb (λ w, (w.2.1 <? w.1.2)%Z) (windows2 (sort_by pair_compare rows))) (bad RowsOverlap);
    Ok (mkBoundWriter node_index h row_bytes rows dst_alloc (sha256 image) [a3_x grid; a3_y grid; a3_z grid])).
End writer.

(** ** The whole program *)

Section program.
Context (sha256 : list Z → list Z) (input : BindInputs).

Definition binding_range (b : Binding) : Z * Z := (bi_base b, saturating_add 64 (bi_base b) (bi_bytes b)).

Section closure.
Context (p_range : Z * Z).

Definition check_alias_of (entry : nat * Binding) : result IndexBindError unit :=
  let '(i, b) := entry in
  guard_ (negb (i =? bn_positions_resource input) && overlaps (binding_range b) p_range) (Closure (AliasesPositions i)).

Definition check_effect (index : nat) (e : RegionEffect) : result IndexBindError unit :=
  b ← ok_or (bn_bindings input !! re_resource e) (Closure (ClosureUnknownResource index (re_resource e)));
  let hits_p := (re_resource e =? bn_positions_resource input) || overlaps (binding_range b) p_range in
  guard_ (hits_p && effect_writes e) (Closure (WritesPositions index)).

Definition check_node (entry : nat * KernelNode) : result IndexBindError unit :=
  let '(index, node) := entry in
  _ ← guard_ (negb (bool_decide (is_Some (kn_kref node)))) (Closure (NoFacts index));
  _ ← guard_ (negb (is_pm4 (kn_lowering node))) (Closure (NotPm4Lowered index));
  for_each (check_effect index) (kn_effects node).

Definition check_step (entry : nat * WindowStep) : result IndexBindError unit :=
  let '(i, step) := entry in
  match (match step with StepKernel _ => None | StepCopy c => Some (rg_resource (cp_dst c)) | StepFill f => Some (rg_resource (fl_dst f)) end) with
  | None => Ok tt
  | Some dst =>
      b ← ok_or (bn_bindings input !! dst) (Closure (StepUnknownResource i dst));
      guard_ ((dst =? bn_positions_resource input) || overlaps (binding_range b) p_range) (Closure (StepWritesPositions i))
  end.
End closure.

Definition rows_meet (a b : BoundWriter) : bool := existsb (λ ra, existsb (overlaps ra) (bw_rows b)) (bw_rows a).

(** Every writer against the ones after it. *)
Fixpoint check_writers (writers : list BoundWriter) : result IndexBindError unit :=
  match writers with
  | [] => Ok tt
  | a :: rest =>
      _ ← for_each (λ b, guard_ (rows_meet a b) (Writer (bw_node b) (OtherWriter (bw_node a)))) rest;
      check_writers rest
  end.

Definition bind_program (p : PositionsIdentity) (p_generation : Z) (positions payload_digest : list Z) :
    exec IndexBindError IndexedBindWitness :=
  let program := bn_program input in
  let pr := bn_positions_resource input in
  if negb (length (bn_bindings input) =? length (kp_resources program))
     || negb (length (bn_allocations input) =? length (kp_resources program))
     || negb (length (bn_images input) =? length (kp_nodes program))
     || negb (length (bn_grids input) =? length (kp_nodes program)) then Fail (Closure UncoveredProgram)
  else
    p_binding ← try_ (ok_or (bn_bindings input !! pr) (Closure NoPositionsResource));
    p_alloc ← unwrap (bn_allocations input !! pr);
    if negb (bi_base p_binding =? pi_base p)%Z || negb (bi_bytes p_binding =? pi_bytes p)%Z
       || negb (al_generation p_alloc =? pi_generation p)%Z then Fail (Closure NotTheSealedAllocation)
    else
      let p_range := (pi_base p, wrapping_add 64 (pi_base p) (pi_bytes p)) in
      _ ← try_ (for_each (check_alias_of p_range) (enumerate (bn_bindings input)));
      _ ← try_ (for_each (check_node p_range) (enumerate (kp_nodes program)));
      let conditional := conditional_nodes program in
      _ ← try_ (for_each (check_step p_range) (enumerate (bn_steps input)));
      if negb (bool_decide (we_node <$> bn_writers input = conditional)) then
        Fail (Closure (ExtentsMismatch (we_node <$> bn_writers input) conditional))
      else
        writers ← collect (λ extent, bind_writer sha256 input extent p positions) (bn_writers input);
        _ ← try_ (check_writers writers);
        Done (mkWitness (bn_window input) (bn_shape_generation input) p_generation payload_digest p positions writers).
End program.

(** [IndexedBindWitness::matches_window]. *)
Definition grid_list (g : arr3) : list Z := [a3_x g; a3_y g; a3_z g].

Definition check_bound (sha256 : list Z → list Z) (images : list (list Z)) (grids : list arr3) (w : BoundWriter) :
    result IndexBindError unit :=
  image ← ok_or (images !! bw_node w) (Writer (bw_node w) NoImage);
  _ ← guard_ (negb (bool_decide (sha256 image = bw_kernarg_digest w))) (Writer (bw_node w) ImageChanged);
  guard_ (negb (bool_decide (grid_list <$> grids !! bw_node w = Some (bw_grid w)))) (Writer (bw_node w) GridChanged).

Definition matches_window (sha256 : list Z → list Z) (v : IndexedBindWitness) (window shape_generation : Z)
    (images : list (list Z)) (grids : list arr3) : result IndexBindError unit :=
  _ ← guard_ (negb (iw_window v =? window)%Z) (Stale ForeignWindow);
  _ ← guard_ (negb (iw_shape_generation v =? shape_generation)%Z) (Stale (ShapeGeneration (iw_shape_generation v) shape_generation));
  for_each (check_bound sha256 images grids) (iw_writers v).
