(* ===== verification/RailWriterOk.v ===== *)
(** * What binding the writers proves

    When [bind_program] succeeds, no node or step writes the positions, and the
    sixteen rows of every writer lie in its slice and in mapped memory, apart
    from the positions, from its source and from each other; the check of
    mapped coverage is exact. *)

From S2P Require Import Prelude Packet RailCopy RailCopyOk RailKernels RailSealed RailWriter.

Definition in_range (r : Z * Z) (x : Z) : Prop := (r.1 ≤ x < r.2)%Z.
Definition apart (a b : Z * Z) : Prop := ∀ x, in_range a x → ¬ in_range b x.

(** ** Intervals *)

Lemma overlaps_apart a b : overlaps a b = false → apart a b.
Proof.
  unfold overlaps, apart, in_range. intros [H%Z.ltb_ge|H%Z.ltb_ge]%andb_false_iff x; lia.
Qed.

Lemma apart_sym a b : apart a b → apart b a.
Proof. intros H x Hb Ha. by apply (H x). Qed.

Lemma pair_compare_le a b : pair_compare a b ≠ Gt → (a.1 < b.1 ∨ a.1 = b.1 ∧ a.2 ≤ b.2)%Z.
Proof.
  unfold pair_compare. destruct (Z.compare_spec a.1 b.1); [|by left|done]. intros H2. right. split; [done|].
  by destruct (Z.compare_spec a.2 b.2); try lia.
Qed.

Lemma pair_compare_ge a b : (a.1 < b.1 ∨ a.1 = b.1 ∧ a.2 ≤ b.2)%Z → pair_compare a b ≠ Gt.
Proof.
  unfold pair_compare. intros [H|[-> H]].
  - by rewrite (proj2 (Z.compare_lt_iff _ _) H).
  - rewrite Z.compare_refl. by apply Z.compare_le_iff.
Qed.

Lemma pairs_sorted (l : list (Z * Z)) : StronglySorted (λ a b, a.1 ≤ b.1)%Z (sort_by pair_compare l).
Proof.
  assert (StronglySorted (λ a b, pair_compare a b ≠ Gt) (sort_by pair_compare l)) as H.
  { apply sort_by_sorted.
    - intros a b c Hab%pair_compare_le Hbc%pair_compare_le. apply pair_compare_ge. lia.
    - intros a b Hab. apply pair_compare_ge. unfold pair_compare in Hab.
      destruct (Z.compare_spec a.1 b.1) as [|Hlt|]; [|done|lia].
      apply Z.compare_gt_iff in Hab. lia. }
  induction H as [|a l' _ IH Hall]; constructor; [done|]. eapply Forall_impl; [exact Hall|].
  intros b Hb%pair_compare_le. lia.
Qed.

(** The test of coverage is exact on sorted intervals that are not empty. *)
Lemma covered_exact mapped lo hi :
  Forall (λ r, r.1 < r.2)%Z mapped → StronglySorted (λ a b, a.1 ≤ b.1)%Z mapped → (lo < hi)%Z →
  covered mapped lo hi = true ↔ ∀ x, (lo ≤ x < hi)%Z → ∃ r, r ∈ mapped ∧ in_range r x.
Proof.
  intros Hne Hs. revert lo. induction Hs as [|[s e] rest Hs IH Hall]; intros lo Hlt; cbn [covered].
  - rewrite Z.leb_le. split; [lia|]. intros H. destruct (H lo) as (r & Hr%elem_of_nil & _); [lia|done].
  - apply Forall_cons_1 in Hne as [Hse Hne]. cbn [fst snd] in Hse. specialize (IH Hne).
    rewrite Forall_forall in Hall. destruct (Z.leb_spec e lo) as [Hel|Hel].
    { rewrite IH by done. split; intros H x Hx; destruct (H x Hx) as (r & Hr & Hin).
      - exists r. split; [by right|done].
      - apply elem_of_cons in Hr as [->|Hr]; [|by exists r]. unfold in_range in Hin. cbn in Hin. lia. }
    destruct (Z.ltb_spec lo s) as [Hls|Hls].
    { split; [done|]. intros H. destruct (H lo) as (r & Hr & Hin); [lia|]. unfold in_range in Hin.
      apply elem_of_cons in Hr as [->|Hr]; [cbn in Hin; lia|]. specialize (Hall _ Hr). cbn in Hall. lia. }
    destruct (Z.leb_spec hi e) as [Hhe|Hhe].
    { split; [|done]. intros _ x Hx. exists (s, e). split; [by left|]. unfold in_range. cbn. lia. }
    rewrite IH by done. split; intros H x Hx.
    + destruct (Z.lt_ge_cases x e) as [Hxe|Hxe].
      * exists (s, e). split; [by left|]. unfold in_range. cbn. lia.
      * destruct (H x) as (r & Hr & Hin); [lia|]. exists r. split; [by right|done].
    + destruct (H x) as (r & Hr & Hin); [lia|]. apply elem_of_cons in Hr as [->|Hr]; [|by exists r].
      unfold in_range in Hin. cbn in Hin. lia.
Qed.

(** Sorted rows whose neighbours do not meet are pairwise apart. *)
Lemma rows_apart (rows : list (Z * Z)) :
  Forall (λ r, r.1 < r.2)%Z rows →
  existsb (λ w, (w.2.1 <? w.1.2)%Z) (windows2 (sort_by pair_compare rows)) = false →
  ∀ i j a b, i ≠ j → rows !! i = Some a → rows !! j = Some b → apart a b.
Proof.
  intros Hne Hw. pose proof (sort_by_perm pair_compare rows) as Hperm.
  assert (StronglySorted (λ a b, a.1 < a.2 ∧ b.1 < b.2 ∧ a.2 ≤ b.1)%Z (sort_by pair_compare rows)) as Hs.
  { apply Sorted_StronglySorted; [intros ???; lia|]. apply windows2_Sorted. intros [a b] Hin.
    rewrite <-Hperm in Hne. rewrite Forall_forall in Hne. unfold windows2 in Hin.
    assert (a ∈ sort_by pair_compare rows ∧ b ∈ sort_by pair_compare rows) as [Ha Hb].
    { apply list_elem_of_lookup in Hin as [k Hk]. apply lookup_zip_Some in Hk as [Ha Hb].
      split; [by eapply list_elem_of_lookup_2|]. rewrite lookup_tail in Hb. by eapply list_elem_of_lookup_2. }
    split; [by apply Hne|]. split; [by apply Hne|]. rewrite list_elem_of_In in Hin.
    destruct (Z.ltb_spec b.1 a.2) as [Hlt|]; [|done]. exfalso. rewrite <-not_true_iff_false, existsb_exists in Hw.
    apply Hw. exists (a, b). split; [done|]. by apply Z.ltb_lt. }
  assert (∀ l : list (Z * Z), StronglySorted (λ a b, a.1 < a.2 ∧ b.1 < b.2 ∧ a.2 ≤ b.1)%Z l →
    ∀ i j a b, i < j → l !! i = Some a → l !! j = Some b → apart a b) as Hord.
  { clear. induction 1 as [|x l Hs IH Hx]; [done|]. intros [|i] [|j] a b Hij Ha Hb; [lia| |lia|].
    - injection Ha as ->. rewrite Forall_forall in Hx. destruct (Hx b) as (? & ? & ?); [by eapply list_elem_of_lookup_2|].
      intros y. unfold in_range. lia.
    - cbn in Ha, Hb. apply (IH i j); [lia|done|done]. }
  assert (∀ i j a b, i ≠ j → sort_by pair_compare rows !! i = Some a → sort_by pair_compare rows !! j = Some b → apart a b)
    as Hall.
  { intros i j a b Hij Ha Hb. destruct (Nat.lt_ge_cases i j); [by eapply Hord|apply apart_sym; eapply (Hord _ Hs j i); [lia|done|done]]. }
  clear -Hperm Hall. symmetry in Hperm. apply Permutation_inj in Hperm as (_ & f & Hf & Hl).
  intros i j a b Hij Ha Hb. rewrite Hl in Ha, Hb. eapply (Hall (f i) (f j)); [|done|done]. intros Heq. by apply Hij, Hf.
Qed.

(** ** One row *)

(** Where the kernel stores the row of position [p_i]. *)
Definition row_at (dst row_bytes p_i : Z) : Z * Z := (dst + p_i * row_bytes, dst + p_i * row_bytes + row_bytes)%Z.

Record row_proof (p : PositionsIdentity) (slice src : Z * Z) (mapped : list (Z * Z)) (row : Z * Z) : Prop := {
  rp_slice : (slice.1 ≤ row.1 ∧ row.2 ≤ slice.2)%Z;
  rp_mapped : covered mapped row.1 row.2 = true;
  rp_aligned : (row.1 mod 4 = 0)%Z;
  rp_positions : apart row (pi_base p, wrapping_add 64 (pi_base p) (pi_bytes p));
  rp_source : apart row src
}.

Lemma bind_row_Ok extent p dst row_bytes slice mapped src bid p_i row :
  bind_row extent p dst row_bytes slice mapped src (bid, p_i) = Ok row →
  row = row_at dst row_bytes p_i ∧ row_proof p slice src mapped row.
Proof.
  unfold bind_row. destruct (p_i <? 0)%Z; [done|]. intros H. invert_ok.
  repeat match goal with Hc : checked_mul _ _ _ = Some _ |- _ => apply checked_mul_Some in Hc as [-> _]
    | Hc : checked_add _ _ _ = Some _ |- _ => apply checked_add_Some in Hc as [-> _] end.
  destruct (_ || _) eqn:Hslice; [done|]. apply orb_false_iff in Hslice as [H1%Z.ltb_ge H2%Z.ltb_ge].
  destruct (covered _ _ _) eqn:Hcov; cbn [negb] in H; [|done].
  destruct (Z.eqb_spec ((dst + p_i * row_bytes) mod 4) 0) as [Hal|]; cbn [negb] in H; [|done].
  destruct (overlaps _ (pi_base p, _)) eqn:Hpos; [done|]. destruct (overlaps _ src) eqn:Hsrc; [done|].
  injection H as <-. split; [done|]. split; try done; by apply overlaps_apart.
Qed.

(** ** One writer *)

Record writer_proof (sha256 : list Z → list Z) (input : BindInputs) (p : PositionsIdentity) (positions : list Z) (extent : WriterExtent) (w : BoundWriter)
    (node : KernelNode) (image : list Z) (grid : arr3) (rd rs : ResourceId) (bd bs : Binding) : Prop := {
  wp_node : kp_nodes (bn_program input) !! we_node extent = Some node;
  wp_image : bn_images input !! we_node extent = Some image;
  wp_grid : bn_grids input !! we_node extent = Some grid;
  wp_digest : bw_kernarg_digest w = sha256 image;
  wp_index : bw_node w = we_node extent;
  wp_shape : grid_list grid = bw_grid w ∧ bw_grid w = [bw_n_kv_heads w; 16; 1]%Z ∧ kn_block node = mk3 32 1 1 ∧
    kn_dynamic_lds node = 0%Z;
  wp_heads : (0 < bw_n_kv_heads w)%Z ∧ as_i32 (read_le abi.N_KV_HEADS 4 image) = bw_n_kv_heads w ∧
    read_le abi.HEAD_DIM 4 image = 256%Z ∧ read_le abi.BATCH 4 image = 16%Z;
  wp_row_bytes : bw_row_bytes w = (bw_n_kv_heads w * 258)%Z ∧ (bw_row_bytes w < 2 ^ 31)%Z;
  wp_null : read_le abi.SLOT_DESCS 8 image = 0%Z ∧ read_le abi.ROW_SLOT 8 image = 0%Z;
  wp_positions : read_le abi.POSITIONS 8 image = pi_base p;
  wp_dst : bn_bindings input !! rd = Some bd ∧ rd ≠ bn_positions_resource input ∧ (bi_base bd ≤ read_le abi.DST 8 image)%Z ∧
    bn_allocations input !! rd = Some (bw_dst w) ∧ al_base (bw_dst w) = bi_base bd ∧ al_bytes (bw_dst w) = bi_bytes bd ∧
    al_generation (bw_dst w) = we_mapping_generation extent;
  wp_src : bn_bindings input !! rs = Some bs ∧ rs ≠ bn_positions_resource input ∧ rs ≠ rd ∧
    (bi_base bs ≤ read_le abi.SRC 8 image)%Z ∧
    (read_le abi.SRC 8 image + bw_n_kv_heads w * 256 * 16 * 4 ≤ wrapping_add 64 (bi_base bs) (bi_bytes bs))%Z;
  wp_rows : bw_rows w = row_at (read_le abi.DST 8 image) (bw_row_bytes w) <$> positions;
  wp_each : ∃ mapped, mapM (map_interval extent bd) (we_mapped extent) = Ok mapped ∧
    Forall (row_proof p (bi_base bd + (we_dst_slice extent).1, bi_base bd + (we_dst_slice extent).2)%Z
      (read_le abi.SRC 8 image, read_le abi.SRC 8 image + bw_n_kv_heads w * 256 * 16 * 4)%Z
      (sort_by pair_compare mapped)) (bw_rows w);
  wp_apart : ∀ i j a b, i ≠ j → bw_rows w !! i = Some a → bw_rows w !! j = Some b → apart a b
}.

Lemma le_at_Some size image at_ v : le_at size image at_ = Some v → v = read_le at_ size image.
Proof. unfold le_at. destruct (decide _); [|done]. by intros [= <-]. Qed.

Lemma resource_of_Ok input extent node image off r v b :
  resource_of input extent node image off = Ok (r, v, b) →
  v = read_le off 8 image ∧ bn_bindings input !! r = Some b ∧ (bi_base b ≤ v < bi_base b + bi_bytes b)%Z.
Proof.
  unfold resource_of. intros H. invert_ok. destruct (_ || _) eqn:Hor; [done|].
  apply orb_false_iff in Hor as [Hlo%Z.ltb_ge Hhi%Z.leb_gt]. apply le_at_Some in H0 as ->.
  injection H as <- <- <-. split; [done|]. split; [done|]. lia.
Qed.

Lemma block_ok_exact b : block_ok b = true → b = mk3 32 1 1.
Proof.
  unfold block_ok. intros [[H1%Z.eqb_eq H2%Z.eqb_eq]%andb_true_iff H3%Z.eqb_eq]%andb_true_iff. destruct b as [x y z]. cbn in *. by subst.
Qed.

Lemma mapped_Ok extent bd l mapped :
  mapM (map_interval extent bd) l = Ok mapped →
  Forall2 (λ r m, (r.1 < r.2 ≤ bi_bytes bd)%Z ∧ m = (wrapping_add 64 (bi_base bd) r.1, wrapping_add 64 (bi_base bd) r.2)) l mapped.
Proof.
  rewrite mapM_Ok. intros H. eapply Forall2_impl; [exact H|]. cbn beta. unfold map_interval. intros r m Hm.
  destruct (_ || _) eqn:Hor; [done|]. apply orb_false_iff in Hor as [H1%Z.leb_gt H2%Z.ltb_ge]. injection Hm as <-.
  split; [lia|done].
Qed.

Lemma rows_Ok extent p dst row_bytes slice mapped src positions rows :
  mapM (bind_row extent p dst row_bytes slice mapped src) (enumerate positions) = Ok rows →
  rows = row_at dst row_bytes <$> positions ∧ Forall (row_proof p slice src mapped) rows.
Proof.
  rewrite mapM_Ok. rewrite <-(enumerate_snd positions) at 2. intros H.
  induction H as [|[bid p_i] row l rows Hrow _ [IH1 IH2]]; [done|]. apply bind_row_Ok in Hrow as [-> Hrow].
  cbn [fmap list_fmap snd]. by rewrite <-IH1; split; [|constructor].
Qed.

Ltac bound_parts :=
  repeat (invert_ok; read_guards; match goal with
  | H : resource_of _ _ _ _ _ = Ok ?r |- _ => destruct r as [[? ?] ?]; apply resource_of_Ok in H; destruct H as (-> & ? & ?)
  | H : le_at _ _ _ = Some _ |- _ => apply le_at_Some in H as ->
  | H : le32 _ _ = Some _ |- _ => apply le_at_Some in H as ->
  | H : le64 _ _ = Some _ |- _ => apply le_at_Some in H as ->
  | H : checked_add _ _ _ = Some _ |- _ => apply checked_add_Some in H; destruct H as [-> ?]
  | H : checked_mul _ _ _ = Some _ |- _ => apply checked_mul_Some in H; destruct H as [-> ?]
  | H : block_ok _ = true |- _ => apply block_ok_exact in H
  | H : mapM (bind_row _ _ _ _ _ _ _) _ = Ok _ |- _ => apply rows_Ok in H; destruct H
  | H : (_, _) = ?x |- _ => is_var x; subst x; cbn beta iota in *
  | H : context [let '(_, _) := we_dst_slice ?e in _] |- _ => destruct (we_dst_slice e) eqn:?
  end).

Lemma bind_writer_Done sha256 input extent p positions w :
  bind_writer sha256 input extent p positions = Done w →
  ∃ node image grid rd rs bd bs, writer_proof sha256 input p positions extent w node image grid rd rs bd bs.
Proof.
  unfold bind_writer. intros H. bound_parts. subst w.
  repeat match goal with Hr : read_le _ _ _ = _ |- _ => progress rewrite Hr in * end.
  unfold abi.HEAD_DIM_VALUE, abi.BATCH_VALUE in *.
  match goal with
  | Hn : kp_nodes _ !! _ = Some ?n, Hi : bn_images _ !! _ = Some ?i, Hg : bn_grids _ !! _ = Some ?g,
    Hb : _ ≠ ?rd, Hd : bn_bindings _ !! ?rd = Some ?bd, Hs : bn_bindings _ !! ?rs = Some ?bs |- _ =>
      exists n, i, g, rd, rs, bd, bs
  end.
  split; cbn [bw_node bw_n_kv_heads bw_row_bytes bw_rows bw_dst bw_grid bw_kernarg_digest]; try done; try (split_and!; (done || lia)).
  - split_and!; try done. congruence.
  - rewrite Heqp0. cbn [fst snd]. eexists. split; [done|]. done.
  - eapply rows_apart; [|done]. subst. apply Forall_fmap, Forall_forall. intros y _. unfold compose, row_at. cbn [fst snd]. lia.
Qed.

(** ** The whole program *)

Definition positions_range (p : PositionsIdentity) : Z * Z := (pi_base p, wrapping_add 64 (pi_base p) (pi_bytes p)).

(** A resource that is neither the positions nor meets them. *)
Definition away (input : BindInputs) (p : PositionsIdentity) (r : ResourceId) : Prop :=
  r ≠ bn_positions_resource input ∧ ∃ b, bn_bindings input !! r = Some b ∧ apart (binding_range b) (positions_range p).

Definition step_target (step : WindowStep) : option ResourceId :=
  match step with
  | StepKernel _ => None
  | StepCopy c => Some (rg_resource (cp_dst c))
  | StepFill f => Some (rg_resource (fl_dst f))
  end.

Definition writer_proved (sha256 : list Z → list Z) (input : BindInputs) (p : PositionsIdentity) (positions : list Z) (extent : WriterExtent)
    (w : BoundWriter) : Prop :=
  ∃ node image grid rd rs bd bs, writer_proof sha256 input p positions extent w node image grid rd rs bd bs.

Record program_proof (sha256 : list Z → list Z) (input : BindInputs) (p : PositionsIdentity) (positions : list Z) (v : IndexedBindWitness) : Prop := {
  pp_window : iw_window v = bn_window input ∧ iw_shape_generation v = bn_shape_generation input;
  pp_identity : iw_p v = p ∧ iw_positions v = positions;
  pp_binding : ∃ b a, bn_bindings input !! bn_positions_resource input = Some b ∧ bi_base b = pi_base p ∧ bi_bytes b = pi_bytes p ∧
    bn_allocations input !! bn_positions_resource input = Some a ∧ al_generation a = pi_generation p;
  pp_alias : ∀ i b, bn_bindings input !! i = Some b → i ≠ bn_positions_resource input →
    apart (binding_range b) (positions_range p);
  pp_nodes : ∀ i node e, kp_nodes (bn_program input) !! i = Some node → e ∈ kn_effects node → effect_writes e = true →
    away input p (re_resource e);
  pp_steps : ∀ i step dst, bn_steps input !! i = Some step → step_target step = Some dst → away input p dst;
  pp_extents : we_node <$> bn_writers input = conditional_nodes (bn_program input);
  pp_writers : Forall2 (writer_proved sha256 input p positions) (bn_writers input) (iw_writers v);
  pp_apart : ∀ i j a b ra rb, i ≠ j → iw_writers v !! i = Some a → iw_writers v !! j = Some b →
    ra ∈ bw_rows a → rb ∈ bw_rows b → apart ra rb
}.

Lemma collect_Done {E A B} (f : A → exec E B) l ys : collect f l = Done ys → Forall2 (λ x y, f x = Done y) l ys.
Proof.
  unfold collect. apply (foldE_Done_inv (λ l ys, Forall2 (λ x y, f x = Done y) l ys)); [constructor|].
  intros l1 x l2 s1 s2 _ Hs H. invert_ok. subst. by apply Forall2_app; [|constructor].
Qed.

Lemma rows_meet_apart a b : rows_meet a b = false → ∀ ra rb, ra ∈ bw_rows a → rb ∈ bw_rows b → apart ra rb.
Proof.
  unfold rows_meet. intros H ra rb Ha%list_elem_of_In Hb%list_elem_of_In. apply overlaps_apart.
  destruct (overlaps ra rb) eqn:Ho; [|done]. exfalso. rewrite <-not_true_iff_false, existsb_exists in H. apply H.
  exists ra. split; [done|]. apply existsb_exists. by exists rb.
Qed.

Lemma check_writers_Ok writers u :
  check_writers writers = Ok u → ∀ i j a b ra rb, i ≠ j → writers !! i = Some a → writers !! j = Some b →
    ra ∈ bw_rows a → rb ∈ bw_rows b → apart ra rb.
Proof.
  revert u. induction writers as [|w rest IH]; intros u; [done|]. cbn [check_writers]. intros H. invert_ok.
  assert (∀ b, b ∈ rest → ∀ ra rb, ra ∈ bw_rows w → rb ∈ bw_rows b → apart ra rb) as Hw.
  { intros b Hb. match goal with Hall : ∀ _, _ |- _ => specialize (Hall _ Hb) end. invert_ok. by apply rows_meet_apart. }
  intros [|i] [|j] a b ra rb Hij Ha Hb Hra Hrb; [done| | |].
  - injection Ha as ->. eapply (Hw b); [by eapply list_elem_of_lookup_2|done|done].
  - injection Hb as ->. apply apart_sym. eapply (Hw a); [by eapply list_elem_of_lookup_2|done|done].
  - eapply (IH _ H i j); try done. lia.
Qed.

Section closure.
Context (input : BindInputs) (p : PositionsIdentity).

Lemma check_alias_Ok i b :
  check_alias_of input (positions_range p) (i, b) = Ok tt → i ≠ bn_positions_resource input →
  apart (binding_range b) (positions_range p).
Proof.
  unfold check_alias_of. intros H Hi. invert_ok. apply andb_false_iff in H as [H|H]; [read_guards; done|].
  by apply overlaps_apart.
Qed.

Lemma check_node_Ok i node e :
  check_node input (positions_range p) (i, node) = Ok tt → e ∈ kn_effects node → effect_writes e = true →
  away input p (re_resource e).
Proof.
  unfold check_node. intros H He Hw. invert_ok. specialize (H _ He). unfold check_effect in H. invert_ok.
  rewrite Hw, andb_true_r in H. read_guards. split; [done|]. eexists. split; [done|]. by apply overlaps_apart.
Qed.

Lemma check_step_Ok i step dst :
  check_step input (positions_range p) (i, step) = Ok tt → step_target step = Some dst → away input p dst.
Proof.
  unfold check_step. destruct step; cbn [step_target]; [done|..]; intros H [= <-]; invert_ok; read_guards;
    (split; [done|]); eexists; (split; [done|]); by apply overlaps_apart.
Qed.
End closure.

Lemma bind_program_Done sha256 input p g positions d v :
  bind_program sha256 input p g positions d = Done v →
  program_proof sha256 input p positions v ∧ iw_p_generation v = g ∧ iw_payload_digest v = d.
Proof.
  unfold bind_program. destruct (_ || _); [done|]. intros H. invert_ok. destruct (_ || _) eqn:Hid; [done|]. read_guards.
  invert_ok. destruct (bool_decide_reflect (we_node <$> bn_writers input = conditional_nodes (bn_program input))) as [Hext|];
    cbn [negb] in H; [|done]. invert_ok. subst v. split; [|done].
  match goal with Hc : collect _ _ = Done _ |- _ => apply collect_Done in Hc as Hwriters end.
  split; cbn [iw_window iw_shape_generation iw_p iw_positions iw_writers]; try done.
  - by eexists _, _.
  - intros i b Hb. apply (check_alias_Ok input p i b). by apply H5, elem_of_enumerate.
  - intros i node e Hn. apply (check_node_Ok input p i node e). by apply H6, elem_of_enumerate.
  - intros i step dst Hs. apply (check_step_Ok input p i step dst). by apply H7, elem_of_enumerate.
  - eapply Forall2_impl; [exact Hwriters|]. intros extent w. apply bind_writer_Done.
  - by eapply check_writers_Ok.
Qed.

(** ** The proof of the writers does not panic *)

Lemma try_no_panic {E A} (r : result E A) : try_ r ≠ Panic.
Proof. by destruct r. Qed.

Lemma bind_no_panic {E A B} (m : exec E A) (f : A → exec E B) :
  m ≠ Panic → (∀ a, m = Done a → f a ≠ Panic) → (m ≫= f) ≠ Panic.
Proof. intros Hm Hf. destruct m as [a|e|]; [by apply Hf|done|done]. Qed.

Lemma bind_writer_no_panic sha256 input extent p positions :
  (∃ node, kp_nodes (bn_program input) !! we_node extent = Some node ∧ is_Some (kn_indexed node) ∧ is_Some (kn_kref node)) →
  is_Some (bn_images input !! we_node extent) → is_Some (bn_grids input !! we_node extent) →
  length (bn_allocations input) = length (bn_bindings input) →
  bind_writer sha256 input extent p positions ≠ Panic.
Proof.
  intros (node & Hn & [ix Hi] & [kref Hk]) [image Him] [grid Hg] Hlen. unfold bind_writer.
  rewrite Hn. cbn [unwrap mbind exec_bind]. rewrite Hi. cbn [unwrap mbind exec_bind]. rewrite Hk. cbn [unwrap mbind exec_bind].
  rewrite Him, Hg. apply bind_no_panic; [apply try_no_panic|]. intros _ _. cbn [unwrap mbind exec_bind].
  apply bind_no_panic; [apply try_no_panic|]. intros [[[[h row_bytes] src_bytes] [[dst_res dst_ptr] bd]] [src_ptr bs]] H.
  apply bind_no_panic; [|intros; apply try_no_panic]. bound_parts. simplify_eq.
  match goal with Hd : bn_bindings input !! dst_res = Some _ |- _ => apply lookup_lt_Some in Hd as Hlt end.
  rewrite <-Hlen in Hlt. apply lookup_lt_is_Some in Hlt as [a Ha]. by rewrite Ha.
Qed.

Lemma conditional_node program i :
  i ∈ conditional_nodes program → ∃ node, kp_nodes program !! i = Some node ∧ is_Some (kn_indexed node).
Proof.
  unfold conditional_nodes. intros ([j node] & -> & H%list_elem_of_In)%list_elem_of_fmap.
  apply List.filter_In in H as [H%list_elem_of_In Hix%bool_decide_eq_true]. exists node. by apply elem_of_enumerate in H.
Qed.


Lemma bind_program_no_panic sha256 input p g positions d : bind_program sha256 input p g positions d ≠ Panic.
Proof.
  unfold bind_program. destruct (_ || _) eqn:Hlen; [done|]. read_guards.
  apply bind_no_panic; [apply try_no_panic|]. intros b Hb. invert_ok.
  apply bind_no_panic.
  { apply lookup_lt_Some in Hb. assert (bn_positions_resource input < length (bn_allocations input)) as Hlt by lia.
    apply lookup_lt_is_Some in Hlt as [a Ha]. by rewrite Ha. }
  intros a _. destruct (_ || _); [done|].
  apply bind_no_panic; [apply try_no_panic|]. intros _ _.
  apply bind_no_panic; [apply try_no_panic|]. intros u Hnodes. invert_ok.
  apply bind_no_panic; [apply try_no_panic|]. intros _ _.
  destruct (bool_decide_reflect (we_node <$> bn_writers input = conditional_nodes (bn_program input))) as [Hext|];
    cbn [negb]; [|done].
  apply bind_no_panic; [|intros; apply bind_no_panic; [apply try_no_panic|done]].
  apply (collect_ok (λ _ _, True)). intros extent Hin. split; [|done].
  assert (we_node extent ∈ conditional_nodes (bn_program input)) as Hc by (rewrite <-Hext; by apply list_elem_of_fmap_2).
  apply conditional_node in Hc as (node & Hn & Hi). apply lookup_lt_Some in Hn as Hlt.
  apply bind_writer_no_panic.
  - exists node. repeat (split; [done|]). specialize (Hnodes (we_node extent, node)). unfold check_node in Hnodes.
    destruct (kn_kref node); [done|]. exfalso. apply elem_of_enumerate in Hn. by specialize (Hnodes Hn).
  - apply lookup_lt_is_Some. lia.
  - apply lookup_lt_is_Some. lia.
  - lia.
Qed.
