(* ===== verification/RailSealedClaims.v ===== *)
(** * Sealed positions: the properties

    The steps of [RailSealedOk] with the real proof of the writers: what the
    device reads as positions is what the witness was proved for. *)

From stdpp Require Import list_numbers relations.
From S2P Require Import Prelude Packet RailCopy RailKernels RailSealed RailSealedOk RailWriter RailWriterOk.

(** The [i]th [i32] that the device reads from the positions. *)
Definition device_i32 (m : Z → Z) (base : Z) (i : nat) : Z :=
  as_i32 (le_value ((λ k : nat, m (base + Z.of_nat (4 * i + k))%Z) <$> seq 0 4)).

Lemma as_i32_small v : (0 ≤ v < 2 ^ 31)%Z → as_i32 v = v.
Proof. unfold as_i32. intros H. by destruct (Z.ltb_spec v (2 ^ 31)); [|lia]. Qed.

Lemma position_bytes_lookup positions i pos k :
  positions !! i = Some pos → k < 4 → position_bytes positions !! (4 * i + k) = le_bytes 4 pos !! k.
Proof.
  revert i. induction positions as [|x positions IH]; intros [|i] Hi Hk; try done; unfold position_bytes in *;
    rewrite bind_cons.
  - injection Hi as ->. rewrite lookup_app_l by (rewrite length_le_bytes; lia). done.
  - rewrite lookup_app_r by (rewrite length_le_bytes; lia). rewrite length_le_bytes.
    replace (4 * S i + k - 4) with (4 * i + k) by lia. by apply IH.
Qed.

(** The device reads the positions back. *)
Lemma device_reads m base positions i pos :
  Forall (λ v, 0 ≤ v < 2 ^ 31)%Z positions → device_holds m base (position_bytes positions) [] →
  positions !! i = Some pos → device_i32 m base i = pos.
Proof.
  intros Hty Hd Hi. rewrite Forall_lookup in Hty. specialize (Hty _ _ Hi). unfold device_i32.
  assert (((λ k : nat, m (base + Z.of_nat (4 * i + k))%Z) <$> seq 0 4) = le_bytes 4 pos) as ->.
  { apply list_eq. intros k. destruct (decide (k < 4)) as [Hk|Hk].
    - rewrite list_lookup_fmap, lookup_seq_lt by done. cbn [fmap option_fmap option_map Nat.add].
      pose proof (position_bytes_lookup positions i pos k Hi Hk) as Hb.
      destruct (le_bytes 4 pos !! k) as [v|] eqn:Hv.
      + f_equal. apply Hd; [done|]. apply not_elem_of_nil.
      + apply lookup_ge_None in Hv. rewrite length_le_bytes in Hv. lia.
    - rewrite !lookup_ge_None_2; [done| |]; rewrite ?length_le_bytes, ?length_fmap, ?length_seq; lia. }
  rewrite le_value_le_bytes, Z.mod_small by (change (256 ^ Z.of_nat 4)%Z with (2 ^ 32)%Z; lia).
  by apply as_i32_small.
Qed.

Section claims.
Context (sha256 : list Z → list Z).
Local Abbreviation step_when := (seal_step sha256 bn_window (bind_program sha256)).
Local Abbreviation step := (step_when counted).

(** A run from a new buffer in which the count covers the queued writes that
    reach the positions whenever an upload starts. *)
Definition reaches (identity : PositionsIdentity) (w : seal_world) : Prop :=
  ∃ p m, sealed_new identity = Ok p ∧ rtc step (seal_start p m) w.

(** Steps while the submission runs. *)
Definition running (a b : seal_world) : Prop := step a b ∧ in_state (sw_p b) = SubmittedReadOnly.

Lemma reaches_inv identity w : reaches identity w → seal_inv sha256 w.
Proof using Type.
  intros (p & m & Hp & Hr). eapply reachable_inv; [|done|done].
  intros i p' g ps d v Hv. apply bind_program_Done in Hv as ([_ [_ ?] _ _ _ _ _ _ _] & ? & _). done.
Qed.

Lemma reaches_step identity w w' : reaches identity w → step w w' → reaches identity w'.
Proof using Type. intros (p & m & Hp & Hr) Hs. exists p, m. split; [done|]. by eapply rtc_r. Qed.

(** Every witness is the result of a proof. *)
Lemma witness_made identity w v :
  reaches identity w → v ∈ sw_witnesses w → ∃ input p positions, program_proof sha256 input p positions v.
Proof using Type.
  intros (p & m & _ & Hr). revert v.
  eapply (rtc_ind_r (λ w, ∀ v, v ∈ sw_witnesses w → ∃ input p positions, program_proof sha256 input p positions v)); [|clear w Hr|exact Hr].
  { by intros v Hv%elem_of_nil. }
  intros w w' _ Hstep IH v Hv. destruct Hstep; cbn [sw_witnesses] in *; try by apply IH.
  - apply elem_of_cons in Hv as [->|Hv]; [|by apply IH].
    match goal with H : bind_writers _ _ _ = Done _ |- _ => apply bind_writers_Done in H as (_ & _ & _ & pos & d & _ & _ & Hmade) end.
    apply bind_program_Done in Hmade as [Hmade _]. by eexists _, _, _.
  - apply IH. rewrite elem_of_app, elem_of_cons in *. tauto.
Qed.

(** While a submission runs, the seal keeps its fields. *)
Lemma running_same a b :
  running a b → in_state (sw_p a) = SubmittedReadOnly →
  in_identity (sw_p b) = in_identity (sw_p a) ∧ in_positions (sw_p b) = in_positions (sw_p a).
Proof using Type.
  intros [Hstep Hb] Ha. destruct Hstep; cbn [sw_p] in *; try done.
  - apply host_check_Done in H0; [|done]. destruct H0 as (? & _). congruence.
  - match goal with H : begin_upload _ _ _ _ _ _ = _ |- _ => unfold begin_upload in H; rewrite Ha in H; cbn in H; by injection H as <- _ _ end.
  - match goal with H : complete_upload _ _ _ _ _ = _ |- _ => unfold complete_upload in H; rewrite Ha in H; cbn in H; by injection H as <- _ _ end.
  - unfold remap, leased in *. by rewrite Ha in *.
  - unfold recycle, leased in *. by rewrite Ha in *.
  - match goal with H : external_write_enqueued _ _ _ = _ |- _ => unfold external_write_enqueued in H; rewrite Ha in H; cbn in H end.
    destruct (external_overlaps p b n); cbn in *; [done|]. by injection H1 as <-.
  - match goal with H : bind_writers _ _ _ = _ |- _ => apply bind_writers_Done in H as (? & _) end. congruence.
  - unfold mark_submitted, check_witness in *. by rewrite Ha in *.
  - by destruct (finish_same p q) as (? & _ & _ & ? & _).
  - unfold release_unsubmitted in *. by rewrite Ha in *.
Qed.

Definition submitted (w : seal_world) (p' : Inner) (ws : list IndexedBindWitness) : seal_world :=
  mkSeal p' (sw_stages w) (sw_mem w) (sw_dma w) (sw_external w) (sw_checks w) (sw_uploads w) ws.

Lemma running_keeps a b :
  rtc running a b → in_state (sw_p a) = SubmittedReadOnly →
  in_state (sw_p b) = SubmittedReadOnly ∧ in_identity (sw_p b) = in_identity (sw_p a) ∧ in_positions (sw_p b) = in_positions (sw_p a).
Proof using Type.
  induction 1 as [a|a b c Hab _ IH]; intros Ha; [done|]. destruct (running_same _ _ Hab Ha) as [H1 H2].
  destruct (IH (proj2 Hab)) as (H3 & H4 & H5). split; [done|]. split; congruence.
Qed.

Lemma mark_submitted_Ok p v p' :
  mark_submitted p v = Ok p' → p' = with_state p SubmittedReadOnly ∧ in_state p = SealedReady ∧
  iw_p_generation v = in_generation p ∧ iw_p v = in_identity p.
Proof using Type.
  unfold mark_submitted. intros H. invert_ok. destruct x. apply check_witness_Ok in H0 as (? & ? & ? & ? & ?). by subst.
Qed.

Lemma seal_step_submit w ws1 v ws2 p' :
  sw_witnesses w = ws1 ++ v :: ws2 → mark_submitted (sw_p w) v = Ok p' → step w (submitted w p' (ws1 ++ ws2)).
Proof using Type. destruct w as [p sts m dma ext cs us ws]. cbn. intros -> H. by apply step_submit. Qed.

(** A sealed or submitted buffer holds its positions. *)
Lemma sealed_state w :
  seal_inv sha256 w → in_state (sw_p w) = SealedReady ∨ in_state (sw_p w) = SubmittedReadOnly →
  clear w ∧ ∃ positions, sealed_now sha256 w positions.
Proof using Type.
  intros [_ Hs] Hst. unfold state_inv in Hs.
  destruct Hst as [Hst|Hst]; rewrite Hst in Hs; destruct Hs as (_ & _ & ? & ?); done.
Qed.

(** ** What was submitted *)

(** C17: Once a witness is submitted, the rows that the device computes from the
    positions it reads are, for as long as the submission runs, the rows of the
    proof; no announced write reaches the positions.  The clients call anything
    in any order, provided that whenever an upload starts the range is inside the
    address space and no queued write reaches it while the count is zero
    ([counted]); that fails only after the end of an unrecorded write was
    reported or after a remap ([careful_counted], [completion_unpaired],
    [remap_wraps]). *)
Theorem submitted_rows identity w ws1 v ws2 p' w2 :
  reaches identity w → sw_witnesses w = ws1 ++ v :: ws2 → mark_submitted (sw_p w) v = Ok p' →
  rtc running (submitted w p' (ws1 ++ ws2)) w2 →
  (∃ input, program_proof sha256 input (iw_p v) (iw_positions v) v) ∧
  (∀ wr, wr ∈ iw_writers v → ∃ image, sha256 image = bw_kernarg_digest wr ∧
     ∀ i, i < POSITION_ROWS → bw_rows wr !! i =
       Some (row_at (read_le abi.DST 8 image) (bw_row_bytes wr) (device_i32 (sw_mem w2) (read_le abi.POSITIONS 8 image) i))) ∧
  ∀ b n f x, (b, n, f) ∈ sw_external w2 → in_write b n x → ¬ in_positions_range (iw_p v) x.
Proof using Type.
  intros Hr Hws Hm Hrun. pose proof (reaches_step _ _ _ Hr (seal_step_submit _ _ _ _ _ Hws Hm)) as Hr1.
  apply mark_submitted_Ok in Hm as (Hp' & Hst & Hg & Hid).
  assert (reaches identity w2) as Hr2.
  { clear -Hr1 Hrun. induction Hrun as [|a b c [Hab _] _ IH]; [done|]. apply IH. by eapply reaches_step. }
  apply reaches_inv in Hr2 as Hinv2. apply reaches_inv in Hr as Hinv.
  destruct (running_keeps _ _ Hrun) as (Hst2 & Hid2 & Hpos2); [by cbn; rewrite Hp'|]. cbn in Hid2, Hpos2. rewrite Hp' in Hid2, Hpos2.
  destruct (sealed_state _ Hinv2) as [H0 (positions & [Hpl Hdev])]; [by right|].
  assert (iw_positions v = positions) as Hv.
  { destruct (vi_witness _ _ Hinv v) as [_ Hv]; [rewrite Hws; set_solver|].
    destruct (Hv Hg) as [Hn|Hs]; pose proof (pl_positions _ _ _ Hpl); cbn in *; congruence. }
  cbn in Hid2. rewrite Hid2 in Hdev. rewrite <-Hid in Hdev. split; [|split].
  - destruct (witness_made _ _ v Hr) as (input & pp & ps & Hproof); [rewrite Hws; set_solver|].
    destruct (pp_identity _ _ _ _ _ Hproof) as [<- <-]. by exists input.
  - intros wr Hwr. destruct (witness_made _ _ v Hr) as (input & pp & ps & Hproof); [rewrite Hws; set_solver|].
    destruct (pp_identity _ _ _ _ _ Hproof) as [<- <-].
    pose proof (pp_writers _ _ _ _ _ Hproof) as Hall. apply list_elem_of_lookup in Hwr as [k Hk].
    destruct (Forall2_lookup_r _ _ _ _ _ Hall Hk) as (extent & _ & (node & image & grid & rd & rs & bd & bs & Hwp)).
    exists image. split; [symmetry; exact (wp_digest _ _ _ _ _ _ _ _ _ _ _ _ _ Hwp)|]. intros i Hi.
    rewrite (wp_rows _ _ _ _ _ _ _ _ _ _ _ _ _ Hwp), (wp_positions _ _ _ _ _ _ _ _ _ _ _ _ _ Hwp).
    rewrite Hv, list_lookup_fmap.
    assert (is_Some (positions !! i)) as [pos Hpos] by (apply lookup_lt_is_Some; by rewrite (pl_count _ _ _ Hpl)).
    rewrite Hpos. cbn [fmap option_fmap option_map]. do 2 f_equal. symmetry.
    eapply device_reads; [exact (pl_nonneg _ _ _ Hpl)|exact Hdev|exact Hpos].
  - intros b n f x Hin Hx. rewrite Hid, <-Hid2. by eapply cl_unreached.
Qed.

(** ** The proof of the writers *)

Record bind_typed (input : BindInputs) : Prop := {
  bt_bindings : ∀ i b, bn_bindings input !! i = Some b → (0 ≤ bi_base b ∧ 0 ≤ bi_bytes b ∧ bi_base b + bi_bytes b ≤ u64_max)%Z;
  bt_mapped : ∀ e r, e ∈ bn_writers input → r ∈ we_mapped e → (0 ≤ r.1)%Z
}.

(** A row that the test accepts is mapped. *)
Lemma covered_mapped extent bd mapped row x :
  (0 ≤ bi_base bd ∧ 0 ≤ bi_bytes bd ∧ bi_base bd + bi_bytes bd ≤ u64_max)%Z →
  (∀ r, r ∈ we_mapped extent → (0 ≤ r.1)%Z) →
  mapM (map_interval extent bd) (we_mapped extent) = Ok mapped →
  covered (sort_by pair_compare mapped) row.1 row.2 = true → in_range row x →
  ∃ m, m ∈ we_mapped extent ∧ (bi_base bd + m.1 ≤ x < bi_base bd + m.2)%Z.
Proof using Type.
  intros (H0 & H1 & Hfit) Hty Hm%mapped_Ok Hcov Hx.
  assert (Forall (λ r, r.1 < r.2)%Z (sort_by pair_compare mapped) ∧
    ∀ m, m ∈ mapped → ∃ r, r ∈ we_mapped extent ∧ m = (bi_base bd + r.1, bi_base bd + r.2)%Z) as [Hne Hof].
  { assert (∀ m, m ∈ mapped → ∃ r, r ∈ we_mapped extent ∧ (r.1 < r.2)%Z ∧ m = (bi_base bd + r.1, bi_base bd + r.2)%Z) as H.
    { intros m Hin. apply list_elem_of_lookup in Hin as [k Hk]. destruct (Forall2_lookup_r _ _ _ _ _ Hm Hk) as (r & Hr & Hb & ->).
      apply list_elem_of_lookup_2 in Hr. exists r. specialize (Hty r Hr). rewrite !wrap_small by lia. split_and!; [done|lia|done]. }
    split.
    - rewrite sort_by_perm. apply Forall_forall. intros m Hin. destruct (H m Hin) as (r & _ & Hlt & ->). cbn. lia.
    - intros m Hin. destruct (H m Hin) as (r & ? & _ & ?). by exists r. }
  destruct (proj1 (covered_exact _ row.1 row.2 Hne (pairs_sorted mapped) ltac:(unfold in_range in Hx; lia)) Hcov x Hx) as (m & Hin & Hr).
  rewrite sort_by_perm in Hin. destruct (Hof m Hin) as (r & Hr' & ->). by exists r.
Qed.

(** C18: [bind_program] does not panic, and what it accepts is safe: no other
    resource, effect or step meets the positions, the rows of all writers are
    pairwise apart, and every byte of a row is mapped and outside the positions. *)
Theorem writers_sound input p g positions d :
  bind_program sha256 input p g positions d ≠ Panic ∧
  ∀ v, bind_program sha256 input p g positions d = Done v →
    program_proof sha256 input p positions v ∧ iw_p_generation v = g ∧ iw_payload_digest v = d ∧
    (bind_typed input → ∀ wr row x, wr ∈ iw_writers v → row ∈ bw_rows wr → in_range row x →
      ¬ in_positions_range p x ∧
      ∃ extent m, extent ∈ bn_writers input ∧ we_node extent = bw_node wr ∧ m ∈ we_mapped extent ∧
        (al_base (bw_dst wr) + m.1 ≤ x < al_base (bw_dst wr) + m.2)%Z).
Proof using Type.
  split; [apply bind_program_no_panic|]. intros v (Hproof & Hg & Hd)%bind_program_Done. repeat (split; [done|]).
  intros [Hb Hm] wr row x Hwr Hrow Hx. apply list_elem_of_lookup in Hwr as [k Hk].
  destruct (Forall2_lookup_r _ _ _ _ _ (pp_writers _ _ _ _ _ Hproof) Hk) as (extent & He & (node & image & grid & rd & rs & bd & bs & Hwp)).
  apply list_elem_of_lookup_2 in He. destruct (wp_each _ _ _ _ _ _ _ _ _ _ _ _ _ Hwp) as (mapped & Hmapped & Hall).
  rewrite Forall_forall in Hall. destruct (Hall row Hrow) as [_ Hcov _ Hpos _].
  destruct (wp_dst _ _ _ _ _ _ _ _ _ _ _ _ _ Hwp) as (Hbd & _ & _ & _ & Hbase & _).
  split.
  - destruct (pp_binding _ _ _ _ _ Hproof) as (bp & ap & Hbp & H1 & H2 & _). destruct (Hb _ _ Hbp) as (? & ? & ?).
    intros Hin. apply (Hpos x Hx). unfold in_range, in_positions_range in *. cbn. rewrite wrap_small by lia. lia.
  - destruct (covered_mapped extent bd mapped row x (Hb _ _ Hbd) (λ r, Hm extent r He) Hmapped Hcov Hx) as (m & Hin & Hxm).
    exists extent, m. rewrite Hbase. split; [done|]. split; [|done]. symmetry. exact (wp_index _ _ _ _ _ _ _ _ _ _ _ _ _ Hwp).
Qed.

(** ** Nothing comes back *)

(** Generations that can no longer be submitted. *)
Definition spent (g : Z) (p : Inner) : Prop :=
  (g ≤ in_generation p)%Z ∧
  (in_generation p = g → in_state p = SubmittedReadOnly ∨ in_state p = Retired ∨ in_state p = Quarantined).

(** What a call does to the state and the generation. *)
Record moves (p p' : Inner) : Prop := {
  mv_generation : (in_generation p ≤ in_generation p')%Z;
  mv_state : in_generation p' = in_generation p → in_state p = SubmittedReadOnly ∨ in_state p = Retired ∨ in_state p = Quarantined →
    in_state p' = SubmittedReadOnly ∨ in_state p' = Retired ∨ in_state p' = Quarantined;
  mv_quarantine : in_state p = Quarantined → in_state p' = Quarantined
}.

Lemma moves_refl p : moves p p.
Proof using Type. by split. Qed.

(** Calls that keep the generation. *)
Lemma moves_same p p' :
  in_generation p' = in_generation p →
  in_state p' = in_state p ∨ in_state p ≠ Quarantined ∧ (in_state p' = Retired ∨ in_state p' = Quarantined ∨
    in_state p ≠ SubmittedReadOnly ∧ in_state p ≠ Retired) ∨ in_state p' = Quarantined → moves p p'.
Proof using Type. 
  intros Hg Hs. split; [lia| |]; intros; destruct Hs as [->|[[Hnq [?|[?|[? ?]]]]|?]]; tauto.
Qed.

Lemma begin_upload_moves p c id st begin p' st' r :
  begin_upload sha256 p c id st begin = Some (p', st', r) → moves p p'.
Proof using Type.
  intros [(u & _ & Hst & _ & -> & _)|(e & _ & _ & [->|[Hst [-> | ->]]] & _)]%begin_upload_cases;
    [|apply moves_refl|..]; apply moves_same; cbn; rewrite ?Hst; auto; right; left; split; auto.
Qed.

Lemma complete_upload_moves p u st wait acquire p' st' r :
  complete_upload p u st wait acquire = (p', st', r) → moves p p'.
Proof using Type.
  intros [(_ & -> & _)|(_ & Hst & _ & _ & H)]%complete_upload_cases; [apply moves_refl|].
  destruct wait as [[]|[m []]]; [destruct H as [_ [-> |[-> | ->]]]|destruct H as [_ ->]|destruct H as [_ ->]];
    apply moves_same; cbn; rewrite ?Hst; auto; right; left; split; auto.
Qed.

Lemma step_moves uploads w w' : step_when uploads w w' → moves (sw_p w) (sw_p w').
Proof using Type.
  intros Hstep. destruct Hstep as [p p' sts m dma ext cs us ws positions producer c Ht H|
    p p' sts st st' m dma ext cs1 c cs2 us ws id begin r Hst H _|p p' sts st st' m dma ext cs us1 u us2 ws wait acquire r Hst H Hfence|
    p sts m m' dma ext cs us ws H _|p p' sts m dma ext cs us ws base generation H|p p' sts m dma ext cs us ws H|
    p p' sts m dma ext cs us ws b n Hb Hn H|p sts m dma ext1 b n f ext2 cs us ws|p sts m dma ext cs us ws|p sts m dma ext1 b n f ext2 cs us ws|
    p sts m dma ext cs us ws b n f x v Hin Hx|p sts m dma ext cs us ws x v Hx|
    p sts st m base id todo1 i todo2 ext cs us ws v Hst Hv|p sts m dma ext cs us ws|
    p sts st st' m dma ext cs us ws id positions Hst H|p sts st st' m dma ext cs us ws id at_ value Hst H|
    p p' sts m dma ext cs us ws i w H|p p' sts m dma ext cs us ws1 w ws2 H|p sts m dma ext cs us ws q|p p' sts m dma ext cs us ws H];
    cbn [sw_p]; try apply moves_refl.
  - apply host_check_Done in H as (Hst & _ & _ & ->); [|done]. split; cbn; [lia|lia|congruence].
  - by eapply begin_upload_moves.
  - by eapply complete_upload_moves.
  - unfold remap in H. invert_ok. destruct (_ || _); [done|]. destruct (_ <=? _)%Z; [done|]. injection H as <-.
    apply moves_same; [done|by left].
  - unfold recycle in H. invert_ok. subst. apply moves_same; [done|by left].
  - unfold external_write_enqueued in H. destruct (negb _); [by injection H as <-; apply moves_refl|].
    destruct (negb _); [done|]. invert_ok. subst. apply moves_same; [done|by left].
  - apply moves_same; [done|by left].
  - apply moves_same; [done|by left].
  - apply bind_writers_Done in H as (_ & _ & -> & _). apply moves_same; [done|by left].
  - apply mark_submitted_Ok in H as (-> & Hst & _). apply moves_same; cbn; rewrite ?Hst; auto. right; left. split; auto.
  - destruct (finish_same p q) as (_ & _ & Hg & _). apply moves_same; [done|].
    destruct (finish_state p q) as [?|[(? & ? & ?)|?]]; auto.
  - unfold release_unsubmitted in H. destruct (in_state p) eqn:Hst; try done; injection H as <-; apply moves_same; try done;
      cbn; rewrite Hst; right; left; split; auto.
Qed.

Lemma steps_move uploads w w' : rtc (step_when uploads) w w' → ∀ g, spent g (sw_p w) → spent g (sw_p w').
Proof using Type.
  induction 1 as [|a b c Hab%step_moves _ IH]; [done|]. intros g [Hle Hst]. apply IH. destruct Hab as [Hg Hs _].
  split; [lia|]. intros Heq. assert (in_generation (sw_p a) = g) as Ha by lia. apply Hs; [lia|auto].
Qed.

(** C19: A submitted witness, and every one of its generation or before, is refused
    from then on, whatever the clients do and whenever uploads start; a
    quarantined buffer stays quarantined. *)
Theorem witness_spent uploads w ws1 v ws2 p' w2 :
  sw_witnesses w = ws1 ++ v :: ws2 → mark_submitted (sw_p w) v = Ok p' → rtc (step_when uploads) (submitted w p' (ws1 ++ ws2)) w2 →
  (∀ v2, (iw_p_generation v2 ≤ iw_p_generation v)%Z → ∃ e, mark_submitted (sw_p w2) v2 = Err e) ∧
  ∀ w3, in_state (sw_p w2) = Quarantined → rtc (step_when uploads) w2 w3 → in_state (sw_p w3) = Quarantined.
Proof using Type.
  intros _ (Hp' & _ & Hg & _)%mark_submitted_Ok Hrun. split.
  - intros v2 Hle. destruct (steps_move _ _ _ Hrun (iw_p_generation v)) as [Hge Hst].
    { rewrite Hp'. split; cbn; [lia|auto]. }
    destruct (mark_submitted (sw_p w2) v2) as [p2|e] eqn:Hm; [|by exists e]. exfalso.
    apply mark_submitted_Ok in Hm as (_ & Hs & Hg2 & _). rewrite Hs in Hst.
    destruct (Hst ltac:(lia)) as [?|[?|?]]; done.
  - intros w3 Hq Hr. clear -Hq Hr. induction Hr as [|a b c Hab%step_moves _ IH]; [done|]. apply IH. by apply (mv_quarantine _ _ Hab).
Qed.
End claims.

(** ** A window with one writer *)

Definition example_identity : PositionsIdentity := mkIdentityP 4096 64 3.
Definition example_positions : list Z := Z.of_nat <$> [5; 0; 2; 1; 3; 4; 15; 14; 13; 12; 11; 10; 9; 8; 7; 6].
Definition example_bindings : list Binding := [mkBinding 4096 64; mkBinding 65536 16384; mkBinding 131072 32768].
Definition example_allocations : list AllocationIdentity :=
  [mkAllocation 0 4096 64 3; mkAllocation 1 65536 16384 9; mkAllocation 2 131072 32768 1].

Definition example_indexed : IndexedNode :=
  mkIndexedNode
    [mkArgFact 0 8 (Pointer [VmemStore] NotRead); mkArgFact 8 8 (Pointer [VmemLoad] VmemOnly);
     mkArgFact 16 8 (Pointer [VmemLoad] VmemOnly); mkArgFact 24 4 Integer; mkArgFact 28 4 Integer; mkArgFact 32 4 Integer;
     mkArgFact 40 8 NotLoaded; mkArgFact 48 8 NotLoaded]
    [mkIndexed 0 VmemStore [mkIndexLoad 16 (lit "i32") VmemLoad]]
    [mkGuard (lit "ptr_null") 40 8 (lit "0"); mkGuard (lit "kernarg_eq") 48 8 (lit "0"); mkGuard (lit "kernarg_eq") 28 4 (lit "256");
     mkGuard (lit "scalar_eq") 32 4 (lit "16")]
    [WITNESS_INDEXED_BIND] (lit "case").

Definition example_node : KernelNode :=
  mkNode (lit "writer") (Some (mkRef (lit "a") (lit "r"))) (mk3 2 16 1) (mk3 32 1 1) 0 (Some 56)
    [(0, ArgResource 1 1024); (8, ArgResource 2 0); (16, ArgResource 0 0); (24, ArgConst (le_bytes 4 2));
     (28, ArgConst (le_bytes 4 256)); (32, ArgConst (le_bytes 4 16))]
    [] [mkRegionEffect 0 1 [VmemStore]; mkRegionEffect 8 2 [VmemLoad]; mkRegionEffect 16 0 [VmemLoad]] Pm4Lowering (Some example_indexed) None.

Definition example_program : KernelProgram := mkKernelProgram (lit "gfx1201") example_bindings [] [example_node] [].
Definition example_image : list Z := match kernarg_image example_program 0 56 [] with Done i => i | _ => [] end.

Definition example_input : BindInputs :=
  mkBindInputs 7 1 example_program [StepKernel 0] example_bindings example_allocations [example_image] [mk3 2 16 1] 0
    [mkExtent 0 (1024, 16384)%Z [(4096, 16384); (0, 4096)]%Z 9].

(** The digest of the example. *)
Definition example_hash (bytes : list Z) : list Z := bytes.

Definition example_witness : IndexedBindWitness :=
  match bind_program example_hash example_input example_identity 1 example_positions
          (example_hash (position_bytes example_positions)) with
  | Done v => v
  | _ => mkWitness 0 0 0 [] example_identity [] []
  end.

Lemma writers_sound_witness :
  bw_rows <$> iw_writers example_witness !! 0 =
    Some ((λ p, (66560 + p * 516, 66560 + p * 516 + 516)) <$> example_positions)%Z ∧
  program_proof example_hash example_input example_identity example_positions example_witness.
Proof.
  split; [by vm_compute|].
  apply (writers_sound example_hash example_input example_identity 1 example_positions
    (example_hash (position_bytes example_positions))). by vm_compute.
Defined.

(** The copy of a stage, byte by byte. *)
Lemma copy_steps uploads p sts st base id ext cs us ws todo m :
  sts !! id = Some st → Forall (λ i, i < length (st_bytes st)) todo →
  ∃ m', rtc (seal_step example_hash bn_window (bind_program example_hash) uploads)
          (mkSeal p sts m (Some (base, id, todo)) ext cs us ws) (mkSeal p sts m' (Some (base, id, [])) ext cs us ws).
Proof.
  intros Hst. revert m. induction todo as [|i todo IH]; intros m Hall; [by exists m|].
  apply Forall_cons_1 in Hall as [Hi Hall]. apply lookup_lt_is_Some in Hi as [v Hv].
  destruct (IH (store_at m (base + Z.of_nat i) v) Hall) as [m' Hm']. exists m'.
  eapply rtc_l; [|exact Hm']. by apply (step_copy _ _ _ _ p sts st m base id [] i todo ext cs us ws v).
Qed.

Definition example_bytes : list Z := position_bytes example_positions.
Definition example_new : Inner := mkInner example_identity Retired 0 None None 0 None.
Definition example_checked : Inner :=
  mkInner example_identity HostChecked 1 (Some (example_bytes, example_bytes)) (Some example_positions) 0 None.
Definition example_bound : Inner := with_bound (with_state example_checked SealedReady) (Some (7, 1)%Z).

Lemma example_host_check :
  host_check example_hash example_new example_positions example_positions = Done (example_checked, mkChecked 1 example_bytes).
Proof. vm_compute. reflexivity. Qed.

Lemma example_begin :
  begin_upload example_hash example_checked (mkChecked 1 example_bytes) 0 (mkStage example_bytes false) (Ok tt) =
    Some (with_state example_checked UploadInFlight, mkStage example_bytes true, Ok (mkUpload 1 example_bytes 0)).
Proof. vm_compute. reflexivity. Qed.

Lemma example_complete :
  complete_upload (with_state example_checked UploadInFlight) (mkUpload 1 example_bytes 0) (mkStage example_bytes true) (Ok tt) (Ok tt) =
    (with_state example_checked SealedReady, mkStage example_bytes false, Ok tt).
Proof. vm_compute. reflexivity. Qed.

Lemma example_bind :
  bind_writers (bind_program example_hash example_input) (bn_window example_input) (with_state example_checked SealedReady) =
    Done (example_bound, example_witness).
Proof. vm_compute. reflexivity. Qed.

Lemma positions_typed : Forall in_i32 example_positions.
Proof. unfold example_positions, in_i32. repeat (constructor; [lia|]). constructor. Qed.

Lemma example_reaches :
  ∃ w, reaches example_hash example_identity w ∧ sw_p w = example_bound ∧ sw_witnesses w = [example_witness].
Proof.
  set (st := mkStage example_bytes true).
  destruct (copy_steps counted (with_state example_checked UploadInFlight) [st] st 4096 0 [] []
    [mkUpload 1 example_bytes 0] [] (seq 0 POSITION_BYTES) (λ _, 0%Z)) as [m' Hcopy]; [done|by vm_compute; repeat constructor|].
  eexists (mkSeal example_bound [mkStage example_bytes false] m' None [] [] [] [example_witness]).
  split; [|done]. exists example_new, (λ _, 0%Z). split; [by vm_compute|]. unfold seal_start.
  eapply rtc_l; [apply step_stage_new|]. cbn [app].
  eapply rtc_l; [apply (step_stage_fill _ _ _ _ _ _ stage_new (mkStage example_bytes false) _ _ _ _ _ _ 0 example_positions); done|].
  cbn [list_insert insert].
  eapply rtc_l.
  { apply (step_host_check _ _ _ _ _ example_checked _ _ _ _ _ _ _ example_positions example_positions (mkChecked 1 example_bytes));
      [exact positions_typed|exact example_host_check]. }
  eapply rtc_l.
  { apply (step_begin_upload _ _ _ _ _ (with_state example_checked UploadInFlight) _ (mkStage example_bytes false) st _ _ _ []
      (mkChecked 1 example_bytes) [] [] [] 0 (Ok tt) (Ok (mkUpload 1 example_bytes 0))); [reflexivity|exact example_begin|].
    intros _. split; [by vm_compute|]. by intros b n f x Hin%elem_of_nil. }
  cbn [list_insert insert app dma_after_begin]. etrans; [exact Hcopy|].
  eapply rtc_l.
  { apply (step_complete_upload _ _ _ _ _ (with_state example_checked SealedReady) _ st (mkStage example_bytes false) _ _ _ _ []
      (mkUpload 1 example_bytes 0) [] [] (Ok tt) (Ok tt) (Ok tt)); [reflexivity|exact example_complete|by intros _ ??? [= _ _ <-]]. }
  cbn [list_insert insert app fenced ut_stage].
  eapply rtc_l; [|reflexivity].
  apply (step_bind_writers _ _ _ _ _ example_bound _ _ _ _ _ _ _ example_input example_witness). exact example_bind.
Qed.

Lemma submitted_rows_witness :
  ∃ (wr : BoundWriter) (m : Z → Z), iw_writers example_witness !! 0 = Some wr ∧
    bw_rows wr !! 6 = Some (row_at 66560 516 (device_i32 m 4096 6)) ∧ bw_rows wr !! 6 = Some (74300, 74816)%Z.
Proof.
  destruct example_reaches as (w & Hr & Hp & Hws).
  assert (∃ wr, iw_writers example_witness !! 0 = Some wr ∧ bw_row_bytes wr = 516%Z ∧ bw_kernarg_digest wr = example_image ∧
    bw_rows wr !! 6 = Some (74300, 74816)%Z) as (wr & Hwr & HR & Hd & Hrow).
  { assert (match iw_writers example_witness !! 0 with
            | Some wr => bw_row_bytes wr = 516%Z ∧ bw_kernarg_digest wr = example_image ∧ bw_rows wr !! 6 = Some (74300, 74816)%Z
            | None => False end) as H by (vm_compute; repeat split).
    destruct (iw_writers example_witness !! 0) as [wr|]; [|done]. by exists wr. }
  exists wr, (sw_mem w). split; [done|]. split; [|done].
  destruct (submitted_rows example_hash example_identity w [] example_witness [] (with_state example_bound SubmittedReadOnly)
    (submitted w (with_state example_bound SubmittedReadOnly) []) Hr Hws) as (_ & Hrows & _).
  - rewrite Hp. by vm_compute.
  - reflexivity.
  - destruct (Hrows wr) as (image & Him & Hall); [by eapply list_elem_of_lookup_2|].
    unfold example_hash in Him. rewrite Hd in Him. subst image.
    rewrite (Hall 6), HR by (unfold POSITION_ROWS; lia). reflexivity.
Defined.

Lemma witness_spent_witness :
  ∃ w e, reaches example_hash example_identity w ∧ sw_witnesses w = [example_witness] ∧
    mark_submitted (finish (with_state example_bound SubmittedReadOnly) Proven) example_witness = Err e.
Proof.
  destruct example_reaches as (w & Hr & Hp & Hws).
  assert (mark_submitted (sw_p w) example_witness = Ok (with_state example_bound SubmittedReadOnly)) as Hm.
  { rewrite Hp. by vm_compute. }
  destruct (witness_spent example_hash (λ _ _, True) w [] example_witness [] (with_state example_bound SubmittedReadOnly)
    (mkSeal (finish (with_state example_bound SubmittedReadOnly) Proven) (sw_stages w) (sw_mem w) (sw_dma w) (sw_external w)
       (sw_checks w) (sw_uploads w) []) Hws Hm) as [Hall _].
  - eapply rtc_l; [|reflexivity]. apply step_finish.
  - destruct (Hall example_witness) as [e He]; [done|]. by exists w, e.
Defined.

(** ** What the calls do not ensure *)

(** A write that was recorded is forgotten when one that was not completes: the
    caller cannot tell them apart, since both answers are [Ok(())]. *)
Lemma completion_unpaired :
  ∃ p1, external_write_enqueued example_new 4100 16 = Done p1 ∧ external_write_enqueued p1 1048576 16 = Done p1 ∧
    in_external_pending p1 = 1%Z ∧ in_external_pending (external_write_completed p1) = 0%Z ∧
    begin_upload example_hash (with_pending example_checked (in_external_pending (external_write_completed p1)))
      (mkChecked 1 example_bytes) 0 (mkStage example_bytes false) (Ok tt) =
    Some (with_state example_checked UploadInFlight, mkStage example_bytes true, Ok (mkUpload 1 example_bytes 0)).
Proof. eexists. split; [reflexivity|]. split; [reflexivity|]. split; [done|]. split; [done|]. exact example_begin. Qed.

(** [remap] takes a range that leaves the address space, which [sealed_new]
    refuses; a write into that range is then taken while sealed. *)
Lemma remap_wraps :
  ∃ p, remap example_new (2 ^ 64 - 32) 4 = Ok p ∧ sealed_new (in_identity p) = Err (Allocation ExtentOverflows) ∧
    external_write_enqueued (with_state p SealedReady) (2 ^ 64 - 32) 16 = Done (with_state p SealedReady) ∧
    in_positions_range (in_identity p) (2 ^ 64 - 32).
Proof. eexists. split; [reflexivity|]. split; [done|]. split; [reflexivity|]. unfold in_positions_range. cbn. lia. Qed.
