(* ===== verification/RailPlan.v ===== *)
(** * Window plans ([railgun/src/window.rs], first half)

    Shapes, binding keys, inputs, and [WindowPlan::new], which validates a
    program, its steps and its patches.  Texts are tags; a [BTreeSet] is a
    [gset], a [BTreeMap] an ordered association list. *)

From stdpp Require Import gmap.
From S2P Require Import Prelude BTree Packet RailCopy RailKernels RailBoundary RailSealed RailWriter.

(** ** Refusals *)

Inductive Site :=
| Scalar32Site (node offset : nat)
| GridAxisSite (node axis : nat)
| Interior64Site (node offset : nat)
| CopySite (step : nat)
| FillSite (step : nat)
| DeltaSite (what : nat)
| ArgSite (node offset : nat).

Inductive MalformedFault :=
| EmptyProgram
| SegmentCount (segments nodes : nat)
| NodeOrder (step node expected : nat)
| StepResource (step resource : nat)
| NodesDispatched (dispatched nodes : nat)
| EmptyDomain (patch : nat)
| NotADeclaredWord (patch : nat)
| NotAWindowWord (patch : nat)
| DuplicateSite (patch : nat)
| NoSuchNode (patch node : nat)
| NotAPointerInto (patch : nat)
| NoCertifiedSegment (patch : nat)
| UnpatchedWord (word : nat)
| SurfaceNotWritten (resource : nat)
| IndexSources (node : nat)
| PositionsNotAResource (node : nat)
| TwoPositions (node resource other : nat).

Inductive BindingFault :=
| AllocationCount (got want : nat) | NamesResource (resource : nat) | NullBinding | BindingOverflows.

Inductive KeyField :=
| FModelId | FDraftId | FObjectDigests | FToolchainDigest | FDevice | FRouteFlags | FAllocationsLen
| FAllocationGeneration (i : nat) | FAllocation (i : nat) | FKvMappingGeneration | FScratchCapacities | FContextMode
| FGdnMode | FExtractionLayers.

Inductive ShapeFault := ZeroVerifyRows | NotWhole16 (draft verify : Z) | PositionBeyond (position max : Z).

Inductive InputFault :=
| PositionCounts (q verify rows : nat) | SuffixTooLong (rows : nat) | BeyondMax (list : nat) (p : Z) | Shadows (name : rstr)
| NoFrame (word : nat) | NotAFrame (word : nat).

Inductive Refusal :=
| Malformed (fault : MalformedFault)
| NotPm4 (node : nat)
| UnknownInputAt (site : Site) (name : rstr)
| OverflowAt (site : Site)
| OutOfDomain (site : Site) (value start end_ : Z)
| DoesNotFit (site : Site) (value : Z)
| ExtentExceeded (site : Site) (resource : nat) (offset end_ bytes : Z)
| BadStep (site : Site)
| Alias (a b : nat)
| BadBinding (resource : nat) (fault : BindingFault)
| BindingKeyMismatch (field : KeyField)
| StaleGeneration (got last : Z)
| StaleBound
| WindowInFlight
| WindowQuarantined
| Shape (fault : ShapeFault)
| Inputs (fault : InputFault)
| Encode (fault : EncodeFault)
| SubmitFailed (message : rstr) (quiescence : Quiescence)
| CacheFull
| Indexed (e : IndexBindError)
| IndexedWitnessMissing (node : nat).

(** ** Shapes and keys *)

Record WindowShape := mkShape {
  ws_position : Z; ws_logical_ctx_rows : Z; ws_projected_rows : Z; ws_full_cached_rows : Z; ws_compact_offset : Z;
  ws_ring_head : Z; ws_swa_w : Z; ws_full_w : Z; ws_max_position : Z; ws_max_tiles : Z; ws_verify_rows : Z;
  ws_draft_rows : Z; ws_generation : Z
}.

Definition default_shape : WindowShape := mkShape 0 0 0 0 0 0 0 0 0 0 0 0 0.

Definition shape_get (s : WindowShape) (name : rstr) : option Z :=
  snd <$> List.find (λ entry, same entry.1 name)
    [(lit "position", ws_position s); (lit "logical_ctx_rows", ws_logical_ctx_rows s);
     (lit "projected_rows", ws_projected_rows s); (lit "full_cached_rows", ws_full_cached_rows s);
     (lit "compact_offset", ws_compact_offset s); (lit "ring_head", ws_ring_head s); (lit "swa_w", ws_swa_w s);
     (lit "full_w", ws_full_w s); (lit "max_position", ws_max_position s); (lit "max_tiles", ws_max_tiles s);
     (lit "verify_rows", ws_verify_rows s); (lit "draft_rows", ws_draft_rows s); (lit "generation", ws_generation s)].

Definition is_name (name : rstr) : bool := bool_decide (is_Some (shape_get default_shape name)).

Record WindowBindingKey := mkKey {
  wk_model_id : rstr;
  wk_draft_id : rstr;
  wk_object_digests : list rstr;
  wk_toolchain_digest : rstr;
  wk_device : rstr;
  wk_route_flags : Z;
  wk_allocations : list AllocationIdentity;
  wk_kv_mapping_generation : Z;
  wk_scratch_capacities : list Z;
  wk_context_mode : rstr;
  wk_gdn_mode : rstr;
  wk_extraction_layers : list Z
}.

#[export] Instance window_binding_key_eq_dec : EqDecision WindowBindingKey.
Proof. solve_decision. Defined.

Definition allocation_difference (i : nat) (a b : AllocationIdentity) : option KeyField :=
  if negb (al_generation a =? al_generation b)%Z then Some (FAllocationGeneration i)
  else if negb (bool_decide (a = b)) then Some (FAllocation i)
  else None.

Fixpoint allocations_difference (i : nat) (l k : list AllocationIdentity) : option KeyField :=
  match l, k with
  | a :: l, b :: k =>
      match allocation_difference i a b with Some f => Some f | None => allocations_difference (S i) l k end
  | _, _ => None
  end.

Definition differ {A} `{EqDecision A} (a b : A) (field : KeyField) (rest : option KeyField) : option KeyField :=
  if bool_decide (a = b) then rest else Some field.

Definition first_difference (a b : WindowBindingKey) : option KeyField :=
  differ (wk_model_id a) (wk_model_id b) FModelId $
  differ (wk_draft_id a) (wk_draft_id b) FDraftId $
  differ (wk_object_digests a) (wk_object_digests b) FObjectDigests $
  differ (wk_toolchain_digest a) (wk_toolchain_digest b) FToolchainDigest $
  differ (wk_device a) (wk_device b) FDevice $
  differ (wk_route_flags a) (wk_route_flags b) FRouteFlags $
  differ (length (wk_allocations a)) (length (wk_allocations b)) FAllocationsLen $
  match allocations_difference 0 (wk_allocations a) (wk_allocations b) with
  | Some f => Some f
  | None =>
      differ (wk_kv_mapping_generation a) (wk_kv_mapping_generation b) FKvMappingGeneration $
      differ (wk_scratch_capacities a) (wk_scratch_capacities b) FScratchCapacities $
      differ (wk_context_mode a) (wk_context_mode b) FContextMode $
      differ (wk_gdn_mode a) (wk_gdn_mode b) FGdnMode $
      differ (wk_extraction_layers a) (wk_extraction_layers b) FExtractionLayers None
  end.

(** ** Inputs *)

Record WindowInputs := mkInputs {
  wi_seed : Z;
  wi_mask_id : Z;
  wi_q_positions : list Z;
  wi_k_position_suffix : list Z;
  wi_verify_positions : list Z;
  wi_scalars : list (rstr * Z);
  wi_gdn_frames : list (WordId * Z)
}.

Definition pack (inputs : WindowInputs) : list Z :=
  ([wi_seed inputs; wi_mask_id inputs] ++ wi_q_positions inputs ++ wi_k_position_suffix inputs ++ wi_verify_positions inputs)
    ≫= le_bytes 4.

Definition check_positions (shape : WindowShape) (entry : nat * list Z) : result Refusal unit :=
  match List.find (λ p, (ws_max_position shape <? p)%Z) entry.2 with
  | Some p => Err (Inputs (BeyondMax entry.1 p))
  | None => Ok tt
  end.

Definition validate_inputs (inputs : WindowInputs) (shape : WindowShape) : result Refusal unit :=
  let rows := Z.to_nat (ws_verify_rows shape) in
  let q := length (wi_q_positions inputs) in
  let v := length (wi_verify_positions inputs) in
  _ ← guard_ (negb (q =? rows) || negb (v =? rows)) (Inputs (PositionCounts q v rows));
  _ ← guard_ (ws_logical_ctx_rows shape <? Z.of_nat (length (wi_k_position_suffix inputs)))%Z
        (Inputs (SuffixTooLong (length (wi_k_position_suffix inputs))));
  _ ← for_each (check_positions shape)
        [(0, wi_q_positions inputs); (1, wi_k_position_suffix inputs); (2, wi_verify_positions inputs)];
  for_each (λ entry, guard_ (is_name entry.1) (Inputs (Shadows entry.1))) (wi_scalars inputs).

Definition scalar_get (name : rstr) (scalars : list (rstr * Z)) : option Z :=
  snd <$> List.find (λ entry, same entry.1 name) scalars.

Definition input_lookup (inputs : WindowInputs) (shape : WindowShape) (name : rstr) : option Z :=
  match shape_get shape name with Some v => Some v | None => scalar_get name (wi_scalars inputs) end.

(** ** Plans *)

Record Transition := mkTransition { tr_from : Z; tr_to : Z }.
Record TransitionSpec := mkTransitionSpec { ts_from : Expr; ts_to : Expr }.
Record HostDeltaSpec := mkDeltaSpec {
  hs_projection_watermark : option TransitionSpec;
  hs_upload_watermark : option TransitionSpec;
  hs_ring_head : option TransitionSpec;
  hs_ring_written : option TransitionSpec
}.
Record WindowHostDelta := mkDelta {
  hd_projection_watermark : option Transition;
  hd_upload_watermark : option Transition;
  hd_ring_head : option Transition;
  hd_ring_written : option Transition
}.

Inductive WindowExecution := Whole16 | HostSplice.

#[export] Instance window_execution_eq_dec : EqDecision WindowExecution.
Proof. solve_decision. Defined.

Inductive ResolvedStep :=
| ResolvedCopyStep (src dst bytes : Z)
| ResolvedFillStep (dst value words : Z).

Record ShapeFamily := mkFamily { sf_kernels : list rstr; sf_projection_rows : list Z }.

#[export] Instance shape_family_eq_dec : EqDecision ShapeFamily.
Proof. solve_decision. Defined.

Record AllocationClosure := mkClosure { cl_reads : gset ResourceId; cl_writes : gset ResourceId }.

Record WindowPlanParts := mkParts {
  pt_program : KernelProgram;
  pt_steps : list WindowStep;
  pt_patches : list PatchKind;
  pt_host_delta : HostDeltaSpec;
  pt_completion_surfaces : list ResourceId;
  pt_projection_rows : list Z;
  pt_execution : WindowExecution;
  pt_hip_graph_certified : bool;
  pt_tape_populated : bool
}.

Record WindowPlan := mkPlan {
  wp_program : KernelProgram;
  wp_steps : list WindowStep;
  wp_patches : list PatchKind;
  wp_scalar_words : list (option nat);
  wp_node_has_grid_patch : list bool;
  wp_host_delta : HostDeltaSpec;
  wp_completion_surfaces : list ResourceId;
  wp_closure : AllocationClosure;
  wp_family : ShapeFamily;
  wp_execution : WindowExecution;
  wp_hip_graph_certified : bool;
  wp_tape_populated : bool;
  wp_indexed_positions : option ResourceId
}.

(** *** Steps: the kernel nodes once each, in order *)

Definition check_region (resources i : nat) (r : Region) : result Refusal unit :=
  guard_ (resources <=? rg_resource r) (Malformed (StepResource i (rg_resource r))).

Definition plan_step (resources : nat) (next_node : nat) (entry : nat * WindowStep) : result Refusal nat :=
  let '(i, step) := entry in
  match step with
  | StepKernel node => if negb (node =? next_node) then Err (Malformed (NodeOrder i node next_node)) else Ok (S next_node)
  | StepCopy c => _ ← for_each (check_region resources i) [cp_src c; cp_dst c]; Ok next_node
  | StepFill f => _ ← check_region resources i (fl_dst f); Ok next_node
  end.

(** *** Patches: typed, unique, and aimed at real fields *)

Record PatchScan := mkScan {
  sc_scalar_words : list (option nat);
  sc_grid : list bool;
  sc_scalar : gset nat;
  sc_interior : gset (nat * nat);
  sc_axis : gset (nat * nat)
}.

Section patches.
Context (program : KernelProgram).

Definition word_at (field : ScalarField) (w : ProgramWord) : bool :=
  (pw_node w =? sf_node field) && (pw_offset w =? sf_offset field).

Definition points_into (arg_offset : nat) (resource : ResourceId) (entry : nat * Arg) : bool :=
  (entry.1 =? arg_offset) && match entry.2 with ArgResource r _ => r =? resource | _ => false end.

Definition scan_patch (s : PatchScan) (entry : nat * PatchKind) : exec Refusal PatchScan :=
  let '(i, patch) := entry in
  let malformed f := Fail (Malformed (f i)) in
  match patch with
  | Scalar32 field _ domain =>
      if (domain.2 <? domain.1)%Z then malformed EmptyDomain
      else
        match position (word_at field) (kp_words program) with
        | None => malformed NotADeclaredWord
        | Some index =>
            w ← unwrap (kp_words program !! index);
            if negb (bool_decide (pw_role w = WindowWord)) then malformed NotAWindowWord
            else if decide (index ∈ sc_scalar s) then malformed DuplicateSite
            else Done (mkScan (sc_scalar_words s ++ [Some index]) (sc_grid s) ({[index]} ∪ sc_scalar s) (sc_interior s) (sc_axis s))
        end
  | Interior64 node arg_offset resource _ _ =>
      match kp_nodes program !! node with
      | None => malformed (λ i, NoSuchNode i node)
      | Some n =>
          if negb (existsb (points_into arg_offset resource) (kn_args n)) then malformed NotAPointerInto
          else if decide ((node, arg_offset) ∈ sc_interior s) then malformed DuplicateSite
          else Done (mkScan (sc_scalar_words s ++ [None]) (sc_grid s) (sc_scalar s) ({[(node, arg_offset)]} ∪ sc_interior s) (sc_axis s))
      end
  | GridAxis node axis _ domain =>
      match kp_nodes program !! node with
      | None => malformed (λ i, NoSuchNode i node)
      | Some n =>
          if negb (bool_decide (is_Some (kn_segment_bytes n))) then malformed NoCertifiedSegment
          else if (domain.1 =? 0)%Z || (domain.2 <? domain.1)%Z then malformed EmptyDomain
          else if decide ((node, axis_index axis) ∈ sc_axis s) then malformed DuplicateSite
          else
            grid ← unwrap (vec_set (sc_grid s) node true);
            Done (mkScan (sc_scalar_words s ++ [None]) grid (sc_scalar s) (sc_interior s) ({[(node, axis_index axis)]} ∪ sc_axis s))
      end
  end.
End patches.

(** *** Closure *)

Definition effects_with (f : RegionEffect → bool) (n : KernelNode) : list ResourceId :=
  re_resource <$> List.filter f (kn_effects n).

Definition step_reads (step : WindowStep) : list ResourceId :=
  match step with StepCopy c => [rg_resource (cp_src c)] | _ => [] end.
Definition step_writes (step : WindowStep) : list ResourceId :=
  match step with StepKernel _ => [] | StepCopy c => [rg_resource (cp_dst c)] | StepFill f => [rg_resource (fl_dst f)] end.

Definition plan_closure (program : KernelProgram) (steps : list WindowStep) : AllocationClosure :=
  mkClosure (list_to_set ((kp_nodes program ≫= effects_with effect_reads) ++ (steps ≫= step_reads)))
    (list_to_set ((kp_nodes program ≫= effects_with effect_writes) ++ (steps ≫= step_writes))).

(** *** Conditional nodes: all index one positions resource *)

Definition index_sources (case : IndexedNode) : gset nat :=
  list_to_set (ix_effects case ≫= λ e, il_source_arg_offset <$> ie_index_loads e).

Definition positions_arg (n : KernelNode) : option ResourceId :=
  filter_map (λ '(offset, arg), match arg with ArgResource r _ => if offset =? abi.POSITIONS then Some r else None | _ => None end)
    (kn_args n) !! 0.

Definition indexed_node (positions : option ResourceId) (entry : nat * KernelNode) : result Refusal (option ResourceId) :=
  let '(node, n) := entry in
  match kn_indexed n with
  | None => Ok positions
  | Some case =>
      _ ← guard_ (negb (bool_decide (index_sources case = {[abi.POSITIONS]}))) (Malformed (IndexSources node));
      resource ← ok_or (positions_arg n) (Malformed (PositionsNotAResource node));
      match positions with
      | Some r => if negb (r =? resource) then Err (Malformed (TwoPositions node resource r)) else Ok (Some resource)
      | None => Ok (Some resource)
      end
  end.

Definition kernel_name (n : KernelNode) : rstr :=
  match kn_kref n with Some k => kr_artifact_sha256 k ++ lit ":" ++ kn_symbol n | None => kn_symbol n end.

Definition window_plan_new (parts : WindowPlanParts) (pm4 : Pm4Plan) : exec Refusal WindowPlan :=
  let program := pt_program parts in
  let segments := pm_segments pm4 in
  let nodes := length (kp_nodes program) in
  if nodes =? 0 then Fail (Malformed EmptyProgram)
  else
    _ ← try_ (for_each (λ '(i, n), guard_ (negb (is_pm4 (kn_lowering n))) (NotPm4 i)) (enumerate (kp_nodes program)));
    if negb (is_single_segment segments nodes) then Fail (Malformed (SegmentCount (length segments) nodes))
    else
      next_node ← try_ (foldR (plan_step (length (kp_resources program))) 0 (enumerate (pt_steps parts)));
      if negb (next_node =? nodes) then Fail (Malformed (NodesDispatched next_node nodes))
      else
        scan ← foldE (scan_patch program) (mkScan [] (replicate nodes false) ∅ ∅ ∅) (enumerate (pt_patches parts));
        _ ← try_ (for_each (λ '(index, w), guard_ (bool_decide (pw_role w = WindowWord) && negb (bool_decide (index ∈ sc_scalar scan)))
                               (Malformed (UnpatchedWord index))) (enumerate (kp_words program)));
        let closure := plan_closure program (pt_steps parts) in
        _ ← try_ (for_each (λ r, guard_ (negb (bool_decide (r ∈ cl_writes closure))) (Malformed (SurfaceNotWritten r)))
                    (pt_completion_surfaces parts));
        indexed ← try_ (foldR indexed_node None (enumerate (kp_nodes program)));
        Done (mkPlan program (pt_steps parts) (pt_patches parts) (sc_scalar_words scan) (sc_grid scan) (pt_host_delta parts)
                (pt_completion_surfaces parts) closure (mkFamily (kernel_name <$> kp_nodes program) (pt_projection_rows parts))
                (pt_execution parts) (pt_hip_graph_certified parts) (pt_tape_populated parts) indexed).
