(* ===== verification/RailPlanOk.v ===== *)
(** * What a window plan promises

    [window_plan_new] does not panic, and the plan that it makes dispatches
    every node once and in order, patches real and distinct fields, patches
    every window word, and indexes one positions resource. *)

From stdpp Require Import gmap.
From S2P Require Import Prelude Packet RailCopy RailKernels RailBoundary RailSealed RailWriter RailPlan.

Lemma foldR_Ok_inv {E S A} (P : list A → S → Prop) (f : S → A → result E S) l s s' :
  P [] s → (∀ l1 x l2 s s', l = l1 ++ x :: l2 → P l1 s → f s x = Ok s' → P (l1 ++ [x]) s') →
  foldR f s l = Ok s' → P l s'.
Proof.
  intros H0 Hstep. cut (∀ l2 l1 s, l = l1 ++ l2 → P l1 s → foldR f s l2 = Ok s' → P l s').
  { intros H. by apply (H l [] s). }
  clear H0 s. intros l2. induction l2 as [|x l2 IH]; intros l1 s ->; simpl.
  - intros HP [= <-]. by rewrite app_nil_r.
  - intros HP Hf. apply bind_Ok_inv in Hf as (s1 & Hs1 & Hf).
    apply (IH (l1 ++ [x]) s1); [by rewrite <-app_assoc| |done]. by eapply Hstep.
Qed.

(** ** Steps *)

Definition kernel_step (step : WindowStep) : option nat := match step with StepKernel node => Some node | _ => None end.

Definition step_regions (step : WindowStep) : list Region :=
  match step with StepKernel _ => [] | StepCopy c => [cp_src c; cp_dst c] | StepFill f => [fl_dst f] end.

Definition steps_ok (resources nodes : nat) (steps : list WindowStep) : Prop :=
  filter_map kernel_step steps = seq 0 nodes ∧
  ∀ step r, step ∈ steps → r ∈ step_regions step → rg_resource r < resources.

Lemma plan_step_Ok resources next i step next' :
  plan_step resources next (i, step) = Ok next' →
  seq 0 next ++ filter_map kernel_step [step] = seq 0 next' ∧ ∀ r, r ∈ step_regions step → rg_resource r < resources.
Proof.
  unfold plan_step, check_region. destruct step as [node|c|f]; cbn [kernel_step filter_map step_regions].
  - destruct (Nat.eqb_spec node next) as [->|]; [|done]. intros [= <-]. split; [by rewrite seq_S|by intros r Hr%elem_of_nil].
  - intros H. invert_ok. subst. rewrite app_nil_r. split; [done|]. intros r Hr. specialize (H0 r Hr). invert_ok.
    by apply Nat.leb_gt.
  - intros H. invert_ok. subst. rewrite app_nil_r. split; [done|]. intros r ->%list_elem_of_singleton. by apply Nat.leb_gt.
Qed.

Lemma plan_steps_Ok resources steps nodes :
  foldR (plan_step resources) 0 (enumerate steps) = Ok nodes → steps_ok resources nodes steps.
Proof.
  intros H. rewrite <-(enumerate_snd steps). revert H. apply (foldR_Ok_inv (λ l n, steps_ok resources n l.*2)).
  - split; [done|]. by intros step r Hs%elem_of_nil.
  - intros l1 [i step] l2 n n' _ [Hk Hr] [Hk' Hr']%plan_step_Ok. rewrite fmap_app. split.
    + rewrite filter_map_app, Hk. exact Hk'.
    + intros s r [Hs|Hs]%elem_of_app Hin; [by eapply Hr|]. apply list_elem_of_singleton in Hs as ->. by apply Hr'.
Qed.

(** ** Patches *)

(** What a patch aims at; the word index is that of a [Scalar32]. *)
Definition patch_ok (program : KernelProgram) (p : PatchKind) (index : option nat) : Prop :=
  match p with
  | Scalar32 field _ domain =>
      (domain.1 ≤ domain.2)%Z ∧ ∃ i w, index = Some i ∧ kp_words program !! i = Some w ∧
        pw_node w = sf_node field ∧ pw_offset w = sf_offset field ∧ pw_role w = WindowWord
  | Interior64 node arg_offset resource _ _ =>
      index = None ∧ ∃ n interior, kp_nodes program !! node = Some n ∧ (arg_offset, ArgResource resource interior) ∈ kn_args n
  | GridAxis node _ _ domain =>
      index = None ∧ (domain.1 ≠ 0 ∧ domain.1 ≤ domain.2)%Z ∧
      ∃ n, kp_nodes program !! node = Some n ∧ is_Some (kn_segment_bytes n)
  end.

(** The place that a patch writes. *)
Inductive PatchPlace := WordPlace (index : option nat) | InteriorPlace (node offset : nat) | AxisPlace (node axis : nat).

#[export] Instance patch_place_eq_dec : EqDecision PatchPlace.
Proof. solve_decision. Defined.

Definition place_of (entry : PatchKind * option nat) : PatchPlace :=
  match entry.1 with
  | Scalar32 _ _ _ => WordPlace entry.2
  | Interior64 node arg_offset _ _ _ => InteriorPlace node arg_offset
  | GridAxis node axis _ _ => AxisPlace node (axis_index axis)
  end.

Definition grid_patched (patches : list PatchKind) (node : nat) : Prop :=
  ∃ axis e domain, GridAxis node axis e domain ∈ patches.

Definition places (patches : list PatchKind) (words : list (option nat)) : list PatchPlace := place_of <$> zip patches words.

Record scan_inv (program : KernelProgram) (patches : list PatchKind) (s : PatchScan) : Prop := {
  si_patches : Forall2 (patch_ok program) patches (sc_scalar_words s);
  si_places : NoDup (places patches (sc_scalar_words s));
  si_length : length (sc_grid s) = length (kp_nodes program);
  si_grid node : sc_grid s !! node = Some true ↔ node < length (kp_nodes program) ∧ grid_patched patches node;
  si_scalar i : i ∈ sc_scalar s ↔ WordPlace (Some i) ∈ places patches (sc_scalar_words s);
  si_interior n o : (n, o) ∈ sc_interior s ↔ InteriorPlace n o ∈ places patches (sc_scalar_words s);
  si_axis n a : (n, a) ∈ sc_axis s ↔ AxisPlace n a ∈ places patches (sc_scalar_words s)
}.

Lemma scan_start program :
  scan_inv program [] (mkScan [] (replicate (length (kp_nodes program)) false) ∅ ∅ ∅).
Proof.
  split; cbn.
  - constructor.
  - constructor.
  - apply length_replicate.
  - intros node. rewrite lookup_replicate. split; [by intros [? ?]|]. intros (_ & a & e & d & []%elem_of_nil).
  - intros i. rewrite elem_of_nil. set_solver.
  - intros n o. rewrite elem_of_nil. set_solver.
  - intros n a. rewrite elem_of_nil. set_solver.
Qed.

Lemma elem_of_places_snoc patches words p w x :
  length patches = length words → x ∈ places (patches ++ [p]) (words ++ [w]) ↔ x ∈ places patches words ∨ x = place_of (p, w).
Proof.
  intros Hl. unfold places. rewrite zip_with_app by done. rewrite fmap_app, elem_of_app.
  change (place_of <$> zip [p] [w]) with [place_of (p, w)]. by rewrite list_elem_of_singleton.
Qed.

Lemma places_snoc_NoDup patches words p w :
  length patches = length words → NoDup (places patches words) → (place_of (p, w) ∉ places patches words) →
  NoDup (places (patches ++ [p]) (words ++ [w])).
Proof.
  intros Hl Hn Hx. unfold places. rewrite zip_with_app by done. rewrite fmap_app. apply NoDup_app. split; [done|].
  split; [|apply NoDup_singleton]. intros y Hy ->%list_elem_of_singleton. done.
Qed.

Lemma grid_patched_snoc patches p node :
  grid_patched (patches ++ [p]) node ↔ grid_patched patches node ∨ ∃ axis e domain, p = GridAxis node axis e domain.
Proof.
  unfold grid_patched. split.
  - intros (a & e & d & [H|H]%elem_of_app); [left; by exists a, e, d|right].
    apply list_elem_of_singleton in H as <-. by exists a, e, d.
  - intros [(a & e & d & H)|(a & e & d & ->)]; exists a, e, d; apply elem_of_app; [by left|right; by left].
Qed.

Lemma scan_patch_ok program patches s i p :
  scan_inv program patches s →
  scan_patch program s (i, p) ≠ Panic ∧ ∀ s', scan_patch program s (i, p) = Done s' → scan_inv program (patches ++ [p]) s'.
Proof.
  intros [Hp Hn Hl Hg Hs Hi Ha]. pose proof (Forall2_length _ _ _ Hp) as Hlen.
  destruct p as [field e domain|node arg_offset resource off ext|node axis e domain]; cbn [scan_patch].
  - destruct (Z.ltb_spec domain.2 domain.1); [done|]. destruct (position _ _) as [index|] eqn:Hpos; [|done].
    apply position_Some in Hpos as (w & Hw & Hat). rewrite Hw. cbn [unwrap mbind exec_bind].
    destruct (bool_decide_reflect (pw_role w = WindowWord)) as [Hrole|]; cbn [negb]; [|done].
    destruct (decide (index ∈ sc_scalar s)) as [|Hnew]; [done|]. split; [done|]. intros s' [= <-].
    unfold word_at in Hat. read_guards. split; cbn [sc_scalar_words sc_grid sc_scalar sc_interior sc_axis].
    + apply Forall2_app; [done|]. constructor; [|constructor]. split; [done|]. by exists index, w.
    + apply places_snoc_NoDup; [done..|]. cbn [place_of fst snd]. by rewrite <-Hs.
    + done.
    + intros n. rewrite grid_patched_snoc, Hg. split; [tauto|]. intros [? [?|(? & ? & ? & ?)]]; done.
    + intros j. rewrite elem_of_places_snoc, <-Hs by done. cbn [place_of fst snd]. set_solver.
    + intros n o. rewrite elem_of_places_snoc, <-Hi by done. cbn [place_of fst snd]. naive_solver.
    + intros n a. rewrite elem_of_places_snoc, <-Ha by done. cbn [place_of fst snd]. naive_solver.
  - destruct (kp_nodes program !! node) as [n|] eqn:Hnode; [|done].
    destruct (existsb _ _) eqn:Hex; cbn [negb]; [|done]. destruct (decide (_ ∈ _)) as [|Hnew]; [done|]. split; [done|]. intros s' [= <-].
    apply existsb_exists in Hex as ([o arg] & Hin & Hpt). apply list_elem_of_In in Hin. unfold points_into in Hpt. cbn in Hpt.
    read_guards. destruct arg as [|r interior|]; try done. read_guards. subst.
    split; cbn [sc_scalar_words sc_grid sc_scalar sc_interior sc_axis].
    + apply Forall2_app; [done|]. constructor; [|constructor]. split; [done|]. by exists n, interior.
    + apply places_snoc_NoDup; [done..|]. cbn [place_of fst snd]. by rewrite <-Hi.
    + done.
    + intros n'. rewrite grid_patched_snoc, Hg. split; [tauto|]. intros [? [?|(? & ? & ? & ?)]]; done.
    + intros j. rewrite elem_of_places_snoc, <-Hs by done. cbn [place_of fst snd]. naive_solver.
    + intros n' o'. rewrite elem_of_places_snoc, <-Hi by done. cbn [place_of fst snd]. set_solver.
    + intros n' a. rewrite elem_of_places_snoc, <-Ha by done. cbn [place_of fst snd]. naive_solver.
  - destruct (kp_nodes program !! node) as [n|] eqn:Hnode; [|done].
    destruct (bool_decide_reflect (is_Some (kn_segment_bytes n))) as [Hseg|]; cbn [negb]; [|done].
    destruct (_ || _) eqn:Hdom; [done|]. read_guards. destruct (decide (_ ∈ _)) as [|Hnew]; [done|].
    apply lookup_lt_Some in Hnode as Hlt. rewrite vec_set_lt by lia. cbn [unwrap mbind exec_bind]. split; [done|]. intros s' [= <-].
    split; cbn [sc_scalar_words sc_grid sc_scalar sc_interior sc_axis].
    + apply Forall2_app; [done|]. constructor; [|constructor]. split; [done|]. split; [done|]. by exists n.
    + apply places_snoc_NoDup; [done..|]. cbn [place_of fst snd]. by rewrite <-Ha.
    + by rewrite length_insert.
    + intros n'. rewrite grid_patched_snoc. destruct (decide (n' = node)) as [->|Hne].
      * rewrite list_lookup_insert_eq by lia. split; [|done]. intros _. split; [lia|]. right. by exists axis, e, domain.
      * rewrite list_lookup_insert_ne by done. rewrite Hg. split; [tauto|].
        intros [? [?|(? & ? & ? & [=])]]; [done|congruence].
    + intros j. rewrite elem_of_places_snoc, <-Hs by done. cbn [place_of fst snd]. naive_solver.
    + intros n' o'. rewrite elem_of_places_snoc, <-Hi by done. cbn [place_of fst snd]. naive_solver.
    + intros n' a. rewrite elem_of_places_snoc, <-Ha by done. cbn [place_of fst snd]. set_solver.
Qed.

Lemma scan_patches_ok program patches :
  let start := mkScan [] (replicate (length (kp_nodes program)) false) ∅ ∅ ∅ in
  foldE (scan_patch program) start (enumerate patches) ≠ Panic ∧
  ∀ s, foldE (scan_patch program) start (enumerate patches) = Done s → scan_inv program patches s.
Proof.
  cbn zeta. pose proof (enumerate_snd patches) as Hsnd. revert Hsnd. generalize (enumerate patches). intros l <-. apply (foldE_ok (λ l s, scan_inv program l.*2 s)); [apply scan_start|].
  intros l1 [i p] l2 s _ Hinv. rewrite fmap_app. by apply scan_patch_ok.
Qed.

(** ** Conditional nodes *)

Definition conditional_ok (positions : option ResourceId) (n : KernelNode) : Prop :=
  ∀ case, kn_indexed n = Some case →
    index_sources case = {[abi.POSITIONS]} ∧ ∃ r, positions = Some r ∧ positions_arg n = Some r.

Lemma indexed_node_Ok positions node n positions' :
  indexed_node positions (node, n) = Ok positions' →
  conditional_ok positions' n ∧ (∀ r, positions = Some r → positions' = Some r) ∧
  (kn_indexed n = None → positions' = positions).
Proof.
  unfold indexed_node, conditional_ok. destruct (kn_indexed n) as [case|]; [|by intros [= <-]].
  intros H. invert_ok. read_guards. destruct positions as [r|].
  - destruct (Nat.eqb_spec r x0) as [->|]; [|done]. injection H as <-. split; [|done]. intros c [= <-]. split; [done|]. by exists x0.
  - injection H as <-. split; [|done]. intros c [= <-]. split; [done|]. by exists x0.
Qed.

Lemma indexed_nodes_Ok nodes positions :
  foldR indexed_node None (enumerate nodes) = Ok positions →
  (∀ n, n ∈ nodes → conditional_ok positions n) ∧
  (is_Some positions ↔ ∃ n, n ∈ nodes ∧ is_Some (kn_indexed n)).
Proof.
  pose proof (enumerate_snd nodes) as Hsnd. revert Hsnd. generalize (enumerate nodes). intros l <-.
  apply (foldR_Ok_inv (λ l p, (∀ n, n ∈ l.*2 → conditional_ok p n) ∧ (is_Some p ↔ ∃ n, n ∈ l.*2 ∧ is_Some (kn_indexed n)))).
  - split; [by intros n Hn%elem_of_nil|]. split; [by intros [? ?]|]. by intros (n & Hn%elem_of_nil & _).
  - intros l1 [i n] l2 p p' _ [Hall Hiff] (Hok & Hkeep & Hnone)%indexed_node_Ok. rewrite fmap_app. split.
    + intros n' [Hn|Hn]%elem_of_app.
      * intros case Hc. destruct (Hall n' Hn case Hc) as (? & r & Hr & ?). split; [done|]. exists r. by rewrite (Hkeep r Hr).
      * by apply list_elem_of_singleton in Hn as ->.
    + split.
      * intros Hp. destruct (kn_indexed n) as [case|] eqn:Hc.
        -- exists n. split; [apply elem_of_app; right; by left|by rewrite Hc].
        -- rewrite (Hnone eq_refl) in Hp. apply Hiff in Hp as (n' & Hn' & ?). exists n'. split; [by apply elem_of_app; left|done].
      * intros (n' & [Hn'|Hn']%elem_of_app & Hc).
        -- destruct (proj2 Hiff) as [r Hr]; [by exists n'|]. by rewrite (Hkeep r Hr).
        -- apply list_elem_of_singleton in Hn' as ->. destruct Hc as [case Hc]. cbn in Hc. destruct (Hok case Hc) as (_ & r & -> & _). done.
Qed.

(** ** The plan *)

Record plan_ok (plan : WindowPlan) : Prop := {
  pk_nodes : 0 < length (kp_nodes (wp_program plan));
  pk_pm4 : Forall (λ n, is_pm4 (kn_lowering n) = true) (kp_nodes (wp_program plan));
  pk_steps : steps_ok (length (kp_resources (wp_program plan))) (length (kp_nodes (wp_program plan))) (wp_steps plan);
  pk_patches : Forall2 (patch_ok (wp_program plan)) (wp_patches plan) (wp_scalar_words plan);
  pk_places : NoDup (places (wp_patches plan) (wp_scalar_words plan));
  pk_grid_length : length (wp_node_has_grid_patch plan) = length (kp_nodes (wp_program plan));
  pk_grid node : wp_node_has_grid_patch plan !! node = Some true ↔
    node < length (kp_nodes (wp_program plan)) ∧ grid_patched (wp_patches plan) node;
  pk_words i w : kp_words (wp_program plan) !! i = Some w → pw_role w = WindowWord →
    WordPlace (Some i) ∈ places (wp_patches plan) (wp_scalar_words plan);
  pk_closure : wp_closure plan = plan_closure (wp_program plan) (wp_steps plan);
  pk_surfaces r : r ∈ wp_completion_surfaces plan → r ∈ cl_writes (wp_closure plan);
  pk_conditional : Forall (conditional_ok (wp_indexed_positions plan)) (kp_nodes (wp_program plan));
  pk_indexed : is_Some (wp_indexed_positions plan) ↔ ∃ n, n ∈ kp_nodes (wp_program plan) ∧ is_Some (kn_indexed n)
}.

Lemma window_plan_ok parts pm4 :
  window_plan_new parts pm4 ≠ Panic ∧
  ∀ plan, window_plan_new parts pm4 = Done plan →
    plan_ok plan ∧ wp_program plan = pt_program parts ∧ wp_steps plan = pt_steps parts ∧ wp_patches plan = pt_patches parts ∧
    is_single_segment (pm_segments pm4) (length (kp_nodes (pt_program parts))) = true.
Proof.
  unfold window_plan_new. destruct (Nat.eqb_spec (length (kp_nodes (pt_program parts))) 0) as [|Hne]; [done|].
  destruct (for_each _ (enumerate (kp_nodes _))) as [[]|e] eqn:Hpm4; cbn [try_ mbind exec_bind]; [|done].
  destruct (is_single_segment _ _) eqn:Hseg; cbn [negb]; [|done].
  destruct (foldR _ 0 _) as [next|e] eqn:Hsteps; cbn [try_ mbind exec_bind]; [|done].
  destruct (Nat.eqb_spec next (length (kp_nodes (pt_program parts)))) as [->|]; cbn [negb]; [|done].
  destruct (scan_patches_ok (pt_program parts) (pt_patches parts)) as [Hnp Hscan]. cbn zeta in Hnp, Hscan.
  destruct (foldE _ _ (enumerate (pt_patches parts))) as [s|e|]; cbn [mbind exec_bind]; [|done|done]. specialize (Hscan s eq_refl).
  destruct (for_each _ (enumerate (kp_words _))) as [[]|e] eqn:Hwords; cbn [try_ mbind exec_bind]; [|done].
  destruct (for_each _ (pt_completion_surfaces parts)) as [[]|e] eqn:Hsurf; cbn [try_ mbind exec_bind]; [|done].
  destruct (foldR indexed_node None _) as [indexed|e] eqn:Hix; cbn [try_ mbind exec_bind]; [|done].
  split; [done|]. intros plan [= <-]. split; [|done]. invert_ok. apply indexed_nodes_Ok in Hix as [Hcond Hiff]. destruct Hscan.
  split; cbn; try done.
  - lia.
  - apply Forall_forall. intros n Hn. apply list_elem_of_lookup in Hn as [i Hi].
    specialize (Hpm4 (i, n) (proj2 (elem_of_enumerate _ _ _) Hi)). cbn in Hpm4. invert_ok. by apply negb_false_iff in Hpm4.
  - by apply plan_steps_Ok.
  - intros i w Hi Hrole. specialize (Hwords (i, w) (proj2 (elem_of_enumerate _ _ _) Hi)). cbn in Hwords. invert_ok.
    apply andb_false_iff in Hwords as [Hw|Hw]; [by apply bool_decide_eq_false in Hw|]. read_guards. by apply si_scalar0.
  - intros r Hr. specialize (Hsurf r Hr). cbn in Hsurf. invert_ok. by read_guards.
  - apply Forall_forall. exact Hcond.
Qed.
