(* ===== verification/RailWindow.v ===== *)
(** * Prepared windows ([railgun/src/window.rs], second half)

    [PreparedWindow]: preparation, [bind], the indexed witness, [submit], the
    completion of a submission, and the bounded cache.  What is shared through
    [Arc] is part of the record of the window, sealed positions are named by
    handles into a list, and the answers of the queue are arguments.  A [bind]
    that is refused returns the window it leaves behind. *)

From stdpp Require Import gmap.
From S2P Require Import Prelude BTree Packet RailCopy RailKernels RailSealed RailWriter RailPlan.

Inductive Phase := PhaseRetired | PhaseBound | PhaseInFlight | PhaseQuarantined.

#[export] Instance phase_eq_dec : EqDecision Phase.
Proof. solve_decision. Defined.

Record Shared := mkShared { sh_phase : Phase; sh_epoch : Z; sh_last_submitted_generation : option Z }.

Record PreparedWindow := mkPrepared {
  pw_id : Z;
  pw_plan : WindowPlan;
  pw_key : WindowBindingKey;
  pw_bindings : list Binding;
  pw_shared : Shared;
  pw_images : list (list Z);
  pw_words : list Z;
  pw_grids : list arr3;
  pw_interiors : list (list (nat * Z));
  pw_resolved : list ResolvedStep
}.

Record BoundWindow := mkBound {
  bo_prepared : Z;
  bo_epoch : Z;
  bo_generation : Z;
  bo_host_delta : WindowHostDelta;
  (* the witness and the handle of the positions *)
  bo_indexed : option (IndexedBindWitness * nat);
  bo_exact : bool
}.

Record WindowVerifyReceipt := mkReceipt { rc_same_as_hip_graph : bool; rc_tape_populated : bool; rc_generation : Z }.
Record CompleteWindow := mkComplete {
  cw_generation : Z;
  cw_execution : WindowExecution;
  cw_receipt : WindowVerifyReceipt;
  cw_host_delta : WindowHostDelta
}.
Record CompletionFailure := mkCompletionFailure { cf_generation : Z; cf_quiescence : Quiescence; cf_message : rstr }.

Record Submission := mkSubmission {
  su_generation : Z;
  su_execution : WindowExecution;
  su_receipt_hip : bool;
  su_receipt_tape : bool;
  su_host_delta : WindowHostDelta;
  su_sealed : option nat
}.

Definition with_shared (w : PreparedWindow) (sh : Shared) : PreparedWindow :=
  mkPrepared (pw_id w) (pw_plan w) (pw_key w) (pw_bindings w) sh (pw_images w) (pw_words w) (pw_grids w) (pw_interiors w) (pw_resolved w).
Definition with_phase (w : PreparedWindow) (phase : Phase) : PreparedWindow :=
  with_shared w (mkShared phase (sh_epoch (pw_shared w)) (sh_last_submitted_generation (pw_shared w))).

(** ** [PreparedWindow::new] *)

Definition prepare_allocation (entry : nat * AllocationIdentity) : result Refusal Binding :=
  let '(i, a) := entry in
  if negb (al_resource a =? i) then Err (BadBinding i (NamesResource (al_resource a)))
  else if (al_base a =? 0)%Z || (al_bytes a =? 0)%Z then Err (BadBinding i NullBinding)
  else if negb (bool_decide (is_Some (checked_add 64 (al_base a) (al_bytes a)))) then Err (BadBinding i BindingOverflows)
  else Ok (mkBinding (al_base a) (al_bytes a)).

(** The pairs [i < j] in order. *)
Definition index_pairs (n : nat) : list (nat * nat) := seq 0 n ≫= λ i, (λ j, (i, j)) <$> seq (S i) (n - S i).

Definition check_pair (writes : gset ResourceId) (bindings : list Binding) (pair : nat * nat) : exec Refusal unit :=
  let '(i, j) := pair in
  a ← unwrap (bindings !! i);
  b ← unwrap (bindings !! j);
  let overlap := (bi_base a <? wrapping_add 64 (bi_base b) (bi_bytes b))%Z && (bi_base b <? wrapping_add 64 (bi_base a) (bi_bytes a))%Z in
  let written := bool_decide (i ∈ writes) || bool_decide (j ∈ writes) in
  if overlap && written then Fail (Alias i j) else Done tt.

Definition patches_interior (node offset : nat) (p : PatchKind) : bool :=
  match p with Interior64 pn arg_offset _ _ _ => (pn =? node) && (arg_offset =? offset) | _ => false end.

Definition check_interior (patches : list PatchKind) (bindings : list Binding) (node : nat) (entry : nat * Arg) : exec Refusal unit :=
  let '(offset, arg) := entry in
  match arg with
  | ArgResource resource interior =>
      b ← unwrap (bindings !! resource);
      if negb (existsb (patches_interior node offset) patches) && (bi_bytes b <=? interior)%Z then
        Fail (ExtentExceeded (ArgSite node offset) resource interior interior (bi_bytes b))
      else Done tt
  | _ => Done tt
  end.

Definition each {E A} (f : A → exec E unit) (l : list A) : exec E unit := foldE (λ _ x, f x) tt l.

Definition prepared_new (id : Z) (plan : WindowPlan) (key : WindowBindingKey) : exec Refusal PreparedWindow :=
  let program := wp_program plan in
  let allocations := wk_allocations key in
  if negb (length allocations =? length (kp_resources program)) then
    Fail (BadBinding 0 (AllocationCount (length allocations) (length (kp_resources program))))
  else
    bindings ← try_ (mapM prepare_allocation (enumerate allocations));
    _ ← each (check_pair (cl_writes (wp_closure plan)) bindings) (index_pairs (length bindings));
    _ ← each (λ '(node, n), each (check_interior (wp_patches plan) bindings node) (kn_args n)) (enumerate (kp_nodes program));
    Done (mkPrepared id plan key bindings (mkShared PhaseRetired 0 None)
            ((λ n, replicate (default 0 (kn_segment_bytes n)) 0%Z) <$> kp_nodes program) (authored_words program)
            (kn_grid <$> kp_nodes program) (replicate (length (kp_nodes program)) []) []).

Definition is_retired (w : PreparedWindow) : bool :=
  match sh_phase (pw_shared w) with PhaseRetired | PhaseBound => true | _ => false end.

Definition window_kernarg_image (w : PreparedWindow) (node : nat) : option (list Z) := pw_images w !! node.
Definition window_grid (w : PreparedWindow) (node : nat) : option arr3 := pw_grids w !! node.
Definition resolved_steps (w : PreparedWindow) : list ResolvedStep := pw_resolved w.

(** ** [PreparedWindow::bind] *)

Definition expr_refusal (e : ExprError) (site : Site) : Refusal :=
  match e with UnknownInput name => UnknownInputAt site name | ExprOverflow => OverflowAt site end.

Definition domain_check (site : Site) (value : Z) (domain : Z * Z) : result Refusal Z :=
  if negb ((domain.1 <=? value)%Z && (value <=? domain.2)%Z) then Err (OutOfDomain site value domain.1 domain.2)
  else if (value <=? umax 32)%Z then Ok value
  else Err (DoesNotFit site value).

(** What a bind stages before it encodes. *)
Record Staged := mkStaged { sg_words : list Z; sg_grids : list arr3; sg_interiors : list (list (nat * Z)) }.

(** A refusal keeps what was staged so far. *)
Local Abbreviation staging := (exec (Refusal * Staged)).
Definition stage_try {A} (s : Staged) (r : result Refusal A) : staging A :=
  match r with Ok a => Done a | Err e => Fail (e, s) end.

Definition set3 (a : arr3) (axis : Axis) (v : Z) : arr3 :=
  match axis with
  | AxisX => mk3 v (a3_y a) (a3_z a)
  | AxisY => mk3 (a3_x a) v (a3_z a)
  | AxisZ => mk3 (a3_x a) (a3_y a) v
  end.

Definition frame_of (inputs : WindowInputs) (index : nat) : option Z :=
  snd <$> List.find (λ entry, entry.1 =? index) (wi_gdn_frames inputs).

Definition is_frame (role : WordRole) : bool := match role with GdnFrame _ => true | WindowWord => false end.

Section bind.
Context (plan : WindowPlan) (bindings : list Binding) (shape : WindowShape) (inputs : WindowInputs).

Definition eval_at (e : Expr) (site : Site) : result Refusal Z :=
  match expr_eval (input_lookup inputs shape) e with Ok v => Ok v | Err err => Err (expr_refusal err site) end.

Definition stage_frame (s : Staged) (entry : nat * ProgramWord) : staging Staged :=
  let '(index, w) := entry in
  if is_frame (pw_role w) then
    value ← stage_try s (ok_or (frame_of inputs index) (Inputs (NoFrame index)));
    words ← unwrap (vec_set (sg_words s) index value);
    Done (mkStaged words (sg_grids s) (sg_interiors s))
  else Done s.

Definition check_frame (entry : WordId * Z) : result Refusal unit :=
  guard_ (negb (match kp_words (wp_program plan) !! entry.1 with Some w => is_frame (pw_role w) | None => false end))
    (Inputs (NotAFrame entry.1)).

Definition stage_patch (s : Staged) (entry : PatchKind * option nat) : staging Staged :=
  let '(patch, index) := entry in
  match patch with
  | Scalar32 field expr domain =>
      let site := Scalar32Site (sf_node field) (sf_offset field) in
      value ← stage_try s (eval_at expr site);
      value ← stage_try s (domain_check site value domain);
      index ← unwrap index;
      words ← unwrap (vec_set (sg_words s) index value);
      Done (mkStaged words (sg_grids s) (sg_interiors s))
  | GridAxis node axis expr domain =>
      let site := GridAxisSite node (axis_index axis) in
      value ← stage_try s (eval_at expr site);
      value ← stage_try s (domain_check site value domain);
      grid ← unwrap (sg_grids s !! node);
      Done (mkStaged (sg_words s) (<[node:=set3 grid axis value]> (sg_grids s)) (sg_interiors s))
  | Interior64 node arg_offset resource byte_offset required_extent =>
      let site := Interior64Site node arg_offset in
      offset ← stage_try s (eval_at byte_offset site);
      extent ← stage_try s (eval_at required_extent site);
      end_ ← stage_try s (ok_or (checked_add 64 offset extent) (OverflowAt site));
      b ← unwrap (bindings !! resource);
      if (bi_bytes b <=? offset)%Z || (bi_bytes b <? end_)%Z then
        Fail (ExtentExceeded site resource offset end_ (bi_bytes b), s)
      else
        list ← unwrap (sg_interiors s !! node);
        Done (mkStaged (sg_words s) (sg_grids s) (<[node:=list ++ [(arg_offset, offset)]]> (sg_interiors s)))
  end.

Definition resolve_region (r : Region) (len : Z) (site : Site) : exec Refusal (Z * Z) :=
  offset ← try_ (eval_at (rg_byte_offset r) site);
  end_ ← try_ (ok_or (checked_add 64 offset len) (OverflowAt site));
  b ← unwrap (bindings !! rg_resource r);
  if (bi_bytes b <? end_)%Z then Fail (ExtentExceeded site (rg_resource r) offset end_ (bi_bytes b))
  else Done (wrapping_add 64 (bi_base b) offset, wrapping_add 64 (bi_base b) end_).

Definition resolve_step (entry : nat * WindowStep) : exec Refusal (list ResolvedStep) :=
  let '(i, step) := entry in
  match step with
  | StepKernel _ => Done []
  | StepCopy c =>
      let site := CopySite i in
      bytes ← try_ (eval_at (cp_bytes c) site);
      '(src, src_end) ← resolve_region (cp_src c) bytes site;
      '(dst, dst_end) ← resolve_region (cp_dst c) bytes site;
      if negb (bytes =? 0)%Z && (src <? dst_end)%Z && (dst <? src_end)%Z then Fail (BadStep site)
      else Done [ResolvedCopyStep src dst bytes]
  | StepFill f =>
      let site := FillSite i in
      words ← try_ (eval_at (fl_words f) site);
      bytes ← try_ (ok_or (checked_mul 64 words 4) (OverflowAt site));
      '(dst, _) ← resolve_region (fl_dst f) bytes site;
      if negb (dst mod 4 =? 0)%Z then Fail (BadStep site) else Done [ResolvedFillStep dst (fl_value f) words]
  end.

Definition delta_of (spec : option TransitionSpec) (what : nat) : result Refusal (option Transition) :=
  match spec with
  | None => Ok None
  | Some s =>
      from ← eval_at (ts_from s) (DeltaSite what);
      to ← eval_at (ts_to s) (DeltaSite what);
      Ok (Some (mkTransition from to))
  end.

Definition host_delta_of (spec : HostDeltaSpec) : result Refusal WindowHostDelta :=
  projection ← delta_of (hs_projection_watermark spec) 0;
  upload ← delta_of (hs_upload_watermark spec) 1;
  head ← delta_of (hs_ring_head spec) 2;
  written ← delta_of (hs_ring_written spec) 3;
  Ok (mkDelta projection upload head written).

Definition check_shape : result Refusal unit :=
  _ ← guard_ (ws_verify_rows shape =? 0)%Z (Shape ZeroVerifyRows);
  _ ← guard_ (bool_decide (wp_execution plan = Whole16) && (negb (ws_verify_rows shape =? 16)%Z || negb (ws_draft_rows shape =? 16)%Z))
        (Shape (NotWhole16 (ws_draft_rows shape) (ws_verify_rows shape)));
  _ ← guard_ (ws_max_position shape <? ws_position shape)%Z (Shape (PositionBeyond (ws_position shape) (ws_max_position shape)));
  validate_inputs inputs shape.

(** Everything that is evaluated before an image is written. *)
Definition stage_all (s : Staged) : staging (Staged * list ResolvedStep * WindowHostDelta) :=
  let program := wp_program plan in
  s ← foldE stage_frame s (enumerate (kp_words program));
  _ ← stage_try s (for_each check_frame (wi_gdn_frames inputs));
  s ← foldE stage_patch s (zip (wp_patches plan) (wp_scalar_words plan));
  let keep {A} (m : exec Refusal A) : staging A :=
    match m with Done a => Done a | Fail e => Fail (e, s) | Panic => Panic end in
  resolved ← keep (foldE (λ out entry, more ← resolve_step entry; Done (out ++ more)) [] (enumerate (wp_steps plan)));
  host_delta ← stage_try s (host_delta_of (wp_host_delta plan));
  Done (s, resolved, host_delta).

(** Every image is encoded in place; a failure stops with the images so far. *)
Definition encode_image (s : Staged) (images : list (list Z)) (entry : nat * list Z) : exec (EncodeFault * list (list Z)) (list (list Z)) :=
  let '(node, image) := entry in
  has ← unwrap (wp_node_has_grid_patch plan !! node);
  grid ← unwrap (sg_grids s !! node);
  interiors ← unwrap (sg_interiors s !! node);
  match encode_kernarg_into (wp_program plan) (sg_words s)
          (mkOverrides (if has : bool then Some grid else None) (Some bindings) interiors) node image with
  | Done image => Done (<[node:=image]> images)
  | Fail (e, image) => Fail (e, <[node:=image]> images)
  | Panic => Panic
  end.
End bind.

(** What the bind found on entry: the next epoch and the last generation. *)
Definition bind_enter (w : PreparedWindow) : exec Refusal PreparedWindow :=
  match sh_phase (pw_shared w) with
  | PhaseInFlight => Fail WindowInFlight
  | PhaseQuarantined => Fail WindowQuarantined
  | _ =>
      epoch ← unwrap (checked_add 64 (sh_epoch (pw_shared w)) 1);
      Done (with_shared w (mkShared PhaseRetired epoch (sh_last_submitted_generation (pw_shared w))))
  end.

Definition check_generation (last : option Z) (generation : Z) : result Refusal unit :=
  match last with
  | Some last => guard_ (generation <=? last)%Z (StaleGeneration generation last)
  | None => Ok tt
  end.

Definition with_staged (w : PreparedWindow) (s : Staged) (resolved : list ResolvedStep) : PreparedWindow :=
  mkPrepared (pw_id w) (pw_plan w) (pw_key w) (pw_bindings w) (pw_shared w) (pw_images w) (sg_words s) (sg_grids s) (sg_interiors s) resolved.
Definition with_images (w : PreparedWindow) (images : list (list Z)) : PreparedWindow :=
  mkPrepared (pw_id w) (pw_plan w) (pw_key w) (pw_bindings w) (pw_shared w) images (pw_words w) (pw_grids w) (pw_interiors w) (pw_resolved w).
Definition with_resolved (w : PreparedWindow) (resolved : list ResolvedStep) : PreparedWindow :=
  mkPrepared (pw_id w) (pw_plan w) (pw_key w) (pw_bindings w) (pw_shared w) (pw_images w) (pw_words w) (pw_grids w) (pw_interiors w) resolved.

(** The authored values that a bind starts from; the vectors keep their length. *)
Definition fresh_stage (w : PreparedWindow) : Staged :=
  let program := wp_program (pw_plan w) in
  mkStaged (authored_words program)
    ((kn_grid <$> kp_nodes program) ++ drop (length (kp_nodes program)) (pw_grids w))
    (replicate (length (pw_interiors w)) []).

Definition window_bind (w : PreparedWindow) (shape : WindowShape) (live : WindowBindingKey) (inputs : WindowInputs) :
    option (PreparedWindow * result Refusal BoundWindow) :=
  match bind_enter w with
  | Panic => None
  | Fail e => Some (w, Err e)
  | Done w =>
      match first_difference (pw_key w) live with
      | Some field => Some (w, Err (BindingKeyMismatch field))
      | None =>
          match (_ ← check_generation (sh_last_submitted_generation (pw_shared w)) (ws_generation shape);
                 check_shape (pw_plan w) shape inputs) with
          | Err e => Some (w, Err e)
          | Ok _ =>
              match stage_all (pw_plan w) (pw_bindings w) shape inputs (fresh_stage w) with
              | Panic => None
              | Fail (e, s) => Some (with_staged w s [], Err e)
              | Done (s, resolved, host_delta) =>
                  let w := with_staged w s [] in
                  match foldE (encode_image (pw_plan w) (pw_bindings w) s) (pw_images w) (enumerate (pw_images w)) with
                  | Panic => None
                  | Fail (e, images) => Some (with_images w images, Err (Encode e))
                  | Done images =>
                      let w := with_phase (with_resolved (with_images w images) resolved) PhaseBound in
                      Some (w, Ok (mkBound (pw_id w) (sh_epoch (pw_shared w)) (ws_generation shape) host_delta None false))
                  end
              end
          end
      end
  end.

(** ** The indexed witness *)

Definition bound_live (w : PreparedWindow) (bound : BoundWindow) : bool :=
  (bo_prepared bound =? pw_id w)%Z && (bo_epoch bound =? sh_epoch (pw_shared w))%Z
  && bool_decide (sh_phase (pw_shared w) = PhaseBound).

Definition bind_inputs (w : PreparedWindow) (bound : BoundWindow) (positions : ResourceId) (writers : list WriterExtent) : BindInputs :=
  mkBindInputs (pw_id w) (bo_generation bound) (wp_program (pw_plan w)) (wp_steps (pw_plan w)) (pw_bindings w)
    (wk_allocations (pw_key w)) (pw_images w) (pw_grids w) positions writers.

(** Refusals of [index_bind] become refusals of the window. *)
Definition indexed_err {A} (r : result IndexBindError A) : result Refusal A :=
  match r with Ok a => Ok a | Err e => Err (Indexed e) end.

Definition attach_indexed_witness (sha256 : list Z → list Z) (w : PreparedWindow) (bound : BoundWindow) (handle : nat) (sealed : Inner)
    (writers : list WriterExtent) : exec Refusal (BoundWindow * Inner) :=
  if negb (bound_live w bound) then Fail StaleBound
  else
    match wp_indexed_positions (pw_plan w) with
    | None => Fail (Indexed (Closure NoConditionalNode))
    | Some positions =>
        let input := bind_inputs w bound positions writers in
        match bind_writers (bind_program sha256 input) (bn_window input) sealed with
        | Panic => Panic
        | Fail e => Fail (Indexed e)
        | Done (sealed, witness) =>
            Done (mkBound (bo_prepared bound) (bo_epoch bound) (bo_generation bound) (bo_host_delta bound) (Some (witness, handle))
                    (bo_exact bound), sealed)
        end
    end.

Definition first_conditional (program : KernelProgram) : nat := default 0 (conditional_nodes program !! 0).

Definition certify_exact (w : PreparedWindow) (bound : BoundWindow) : result Refusal BoundWindow :=
  if negb (bound_live w bound) then Err StaleBound
  else if bool_decide (is_Some (wp_indexed_positions (pw_plan w))) && negb (bool_decide (is_Some (bo_indexed bound))) then
    Err (IndexedWitnessMissing (first_conditional (wp_program (pw_plan w))))
  else Ok (mkBound (bo_prepared bound) (bo_epoch bound) (bo_generation bound) (bo_host_delta bound) (bo_indexed bound) true).

(** ** [PreparedWindow::submit] *)

Record QueueFailure := mkQueueFailure { qf_message : rstr; qf_quiescence : Quiescence }.

Definition phase_after (q : Quiescence) : Phase := match q with Proven => PhaseRetired | Unknown => PhaseQuarantined end.

(** What the queue is given. *)
Definition node_images (w : PreparedWindow) : list (list Z * arr3) := zip (pw_images w) (pw_grids w).

Definition check_submit (w : PreparedWindow) (bound : BoundWindow) : result Refusal unit :=
  if negb (bo_prepared bound =? pw_id w)%Z || negb (bo_epoch bound =? sh_epoch (pw_shared w))%Z then Err StaleBound
  else
    match sh_phase (pw_shared w) with
    | PhaseBound => Ok tt
    | PhaseInFlight => Err WindowInFlight
    | PhaseQuarantined => Err WindowQuarantined
    | PhaseRetired => Err StaleBound
    end.

(** The sealed positions of a plan with conditional nodes, marked as submitted. *)
Definition submit_sealed (sha256 : list Z → list Z) (w : PreparedWindow) (bound : BoundWindow) (buffers : list Inner) :
    exec Refusal (list Inner * option nat) :=
  let program := wp_program (pw_plan w) in
  match wp_indexed_positions (pw_plan w) with
  | None => Done (buffers, None)
  | Some _ =>
      match bo_indexed bound with
      | None =>
          let node := first_conditional program in
          _ ← unwrap (kp_nodes program !! node); Fail (IndexedWitnessMissing node)
      | Some (witness, handle) =>
          _ ← try_ (indexed_err (matches_window sha256 witness (pw_id w) (bo_generation bound) (pw_images w) (pw_grids w)));
          if negb (bool_decide (bw_node <$> iw_writers witness = conditional_nodes program)) then
            Fail (Indexed (Stale NotTheConditionalNodes))
          else
            sealed ← unwrap (buffers !! handle);
            _ ← try_ (indexed_err (check_witness sealed witness));
            sealed ← try_ (indexed_err (mark_submitted sealed witness));
            Done (<[handle:=sealed]> buffers, Some handle)
      end
  end.

Definition update_sealed (f : Inner → Inner) (sealed : option nat) (buffers : list Inner) : list Inner :=
  match sealed with Some h => alter f h buffers | None => buffers end.

(** [answer] is that of [queue.submit] on [node_images w] and the resolved steps. *)
Definition window_submit (sha256 : list Z → list Z) (w : PreparedWindow) (bound : BoundWindow) (buffers : list Inner)
    (answer : result QueueFailure unit) : option (PreparedWindow * list Inner * result Refusal Submission) :=
  match check_submit w bound with
  | Err e => Some (w, buffers, Err e)
  | Ok _ =>
      match submit_sealed sha256 w bound buffers with
      | Panic => None
      | Fail e => Some (w, buffers, Err e)
      | Done (buffers, sealed) =>
          let plan := pw_plan w in
          match answer with
          | Ok _ =>
              Some (with_shared w (mkShared PhaseInFlight (sh_epoch (pw_shared w)) (Some (bo_generation bound))), buffers,
                    Ok (mkSubmission (bo_generation bound) (wp_execution plan) (wp_hip_graph_certified plan || bo_exact bound)
                          (wp_tape_populated plan) (bo_host_delta bound) sealed))
          | Err f =>
              Some (with_phase w (phase_after (qf_quiescence f)), update_sealed (λ s, submit_failed s (qf_quiescence f)) sealed buffers,
                    Err (SubmitFailed (qf_message f) (qf_quiescence f)))
          end
      end
  end.

(** [Submission::complete]; [answer] is that of [queue.wait]. *)
Definition submission_complete (w : PreparedWindow) (s : Submission) (buffers : list Inner) (answer : result QueueFailure unit) :
    PreparedWindow * list Inner * result CompletionFailure CompleteWindow :=
  match answer with
  | Ok _ =>
      (with_phase w PhaseRetired, update_sealed (λ b, finish b Proven) (su_sealed s) buffers,
       Ok (mkComplete (su_generation s) (su_execution s) (mkReceipt (su_receipt_hip s) (su_receipt_tape s) (su_generation s))
             (su_host_delta s)))
  | Err f =>
      (with_phase w (phase_after (qf_quiescence f)), update_sealed (λ b, finish b (qf_quiescence f)) (su_sealed s) buffers,
       Err (mkCompletionFailure (su_generation s) (qf_quiescence f) (qf_message f)))
  end.

(** ** The cache *)

Definition WINDOW_CACHE_CAPACITY : nat := 32.

Record TopologyKey := mkTopology { tk_binding : WindowBindingKey; tk_family : ShapeFamily }.

#[export] Instance topology_key_eq_dec : EqDecision TopologyKey.
Proof. solve_decision. Defined.

Record CacheEntry := mkEntry { ce_key : TopologyKey; ce_prepared : PreparedWindow; ce_last_used : Z }.
Record WindowCache := mkCache { wc_entries : list CacheEntry; wc_tick : Z }.

Definition cache_new : WindowCache := mkCache [] 0.

(** [Vec::swap_remove]. *)
Definition swap_remove {A} (l : list A) (i : nat) : list A :=
  match last l with Some x => take (length l - 1) (<[i:=x]> l) | None => l end.

(** [iter().min_by_key]: the first of the least. *)
Definition min_by {A} (key : A → Z) (l : list A) : option A :=
  foldl (λ best x, match best with Some b => if (key x <? key b)%Z then Some x else Some b | None => Some x end) None l.

Definition victim_of (entries : list CacheEntry) : option nat :=
  fst <$> min_by (λ e, ce_last_used e.2) (List.filter (λ e, is_retired (ce_prepared e.2)) (enumerate entries)).

(** The index of the entry that is handed out. *)
Definition get_or_prepare (c : WindowCache) (key : TopologyKey) (build : result Refusal PreparedWindow) :
    option (WindowCache * result Refusal nat) :=
  tick ← checked_add 64 (wc_tick c) 1;
  let entries := wc_entries c in
  match position (λ e, bool_decide (ce_key e = key)) entries with
  | Some index =>
      e ← entries !! index;
      Some (mkCache (<[index:=mkEntry (ce_key e) (ce_prepared e) tick]> entries) tick, Ok index)
  | None =>
      let evicted :=
        if WINDOW_CACHE_CAPACITY <=? length entries then
          match victim_of entries with Some v => Ok (swap_remove entries v) | None => Err CacheFull end
        else Ok entries in
      Some match evicted with
      | Err e => (mkCache entries tick, Err e)
      | Ok entries =>
          match build with
          | Err e => (mkCache entries tick, Err e)
          | Ok prepared => (mkCache (entries ++ [mkEntry key prepared tick]) tick, Ok (length entries))
          end
      end
  end.

Definition evict_stale (c : WindowCache) (live : WindowBindingKey) : WindowCache * nat :=
  let kept := List.filter (λ e, bool_decide (tk_binding (ce_key e) = live) || negb (is_retired (ce_prepared e))) (wc_entries c) in
  (mkCache kept (wc_tick c), length (wc_entries c) - length kept).
