(* ===== verification/RailWindowOk.v ===== *)
(** * What a prepared window promises

    Preparation and [bind] do not panic; a window that was bound holds, at the
    place of every patch, the value of its expression inside its domain, and its
    images, pointers and resolved steps stay inside their allocations. *)

From stdpp Require Import gmap.
From S2P Require Import Prelude Packet RailCopy RailKernels RailKernelsOk RailSealed RailWriter RailWriterOk RailPlan RailPlanOk RailWindow.

(** ** Values of expressions *)

Fixpoint expr_typed (e : Expr) : Prop :=
  match e with
  | Const c => in_u 64 c
  | Input _ => True
  | Add a b | Mul a b | SubSat a b | Min a b | Max a b => expr_typed a ∧ expr_typed b
  | Div a c | Rem a c | CeilDiv a c => expr_typed a ∧ (0 < c)%Z
  end.

Lemma expr_eval_typed input e v :
  (∀ name x, input name = Some x → in_u 64 x) → expr_typed e → expr_eval input e = Ok v → in_u 64 v.
Proof.
  intros Hin. revert v. induction e as [c|name|a IHa b IHb|a IHa b IHb|a IHa b IHb|a IHa b IHb|a IHa b IHb|a IHa c|a IHa c|a IHa c];
    cbn [expr_typed expr_eval]; intros v Hty H.
  1: by injection H as <-.
  1: invert_ok; by eapply Hin.
  all: destruct Hty as [Ha Hb]; invert_ok;
    repeat match goal with
    | IH : ∀ v, expr_typed ?e → _, Ht : expr_typed ?e, Hv : expr_eval _ ?e = Ok _ |- _ => specialize (IH _ Ht Hv)
    end; unfold in_u in *.
  - apply checked_add_Some in H as [-> ?]. lia.
  - apply checked_mul_Some in H as [-> ?]. nia.
  - lia.
  - lia.
  - lia.
  - subst. split; [apply Z.div_pos; lia|]. apply Z.div_le_upper_bound; nia.
  - subst. pose proof (Z.mod_pos_bound x c Hb). pose proof (Z.mod_le x c). lia.
  - subst. unfold div_ceil. split; [apply Z.div_pos; lia|].
    destruct (decide (x = 0)%Z) as [->|]; [rewrite Z.div_small; lia|].
    apply Z.div_le_upper_bound; nia.
Qed.

Definition shape_typed (s : WindowShape) : Prop := ∀ name v, shape_get s name = Some v → in_u 64 v.
Definition inputs_typed (i : WindowInputs) : Prop := Forall (λ entry, in_u 64 entry.2) (wi_scalars i).

Lemma input_lookup_typed inputs shape name v :
  shape_typed shape → inputs_typed inputs → input_lookup inputs shape name = Some v → in_u 64 v.
Proof.
  intros Hs Hi. unfold input_lookup, scalar_get. destruct (shape_get shape name) as [x|] eqn:Hx.
  - intros [= <-]. by eapply Hs.
  - destruct (List.find _ _) as [[n x]|] eqn:Hf; [|done]. intros [= <-]. apply List.find_some in Hf as [Hf _].
    unfold inputs_typed in Hi. rewrite Forall_forall in Hi. apply list_elem_of_In in Hf. by apply Hi in Hf.
Qed.

(** ** Places of a stage *)

Definition value_at (s : Staged) (place : PatchPlace) : option Z :=
  match place with
  | WordPlace (Some i) => sg_words s !! i
  | WordPlace None => None
  | AxisPlace node axis => (λ g, get3 g axis) <$> sg_grids s !! node
  | InteriorPlace node offset => l ← sg_interiors s !! node; snd <$> List.find (λ p, p.1 =? offset) l
  end.

Lemma get3_set3 a axis v : get3 (set3 a axis v) (axis_index axis) = v.
Proof. by destruct axis. Qed.

Lemma get3_set3_ne a axis v k : k < 3 → k ≠ axis_index axis → get3 (set3 a axis v) k = get3 a k.
Proof. intros Hk Hne. destruct axis, k as [|[|[|]]]; done || lia. Qed.

Lemma find_app {A} (f : A → bool) l k :
  List.find f (l ++ k) = match List.find f l with Some x => Some x | None => List.find f k end.
Proof. induction l as [|x l IH]; [done|]. cbn. by destruct (f x). Qed.

(** Axes are those of a grid. *)
Definition place_valid (place : PatchPlace) : Prop := match place with AxisPlace _ axis => axis < 3 | _ => True end.

Section bind.
Context (plan : WindowPlan) (bindings : list Binding) (shape : WindowShape) (inputs : WindowInputs).
Local Abbreviation program := (wp_program plan).
Local Abbreviation eval e := (expr_eval (input_lookup inputs shape) e).

(** The value that a patch must have. *)
Definition patch_value (p : PatchKind) (v : Z) : Prop :=
  match p with
  | Scalar32 _ e domain | GridAxis _ _ e domain => eval e = Ok v ∧ (domain.1 ≤ v ≤ domain.2 ∧ v ≤ umax 32)%Z
  | Interior64 _ _ r off ext =>
      eval off = Ok v ∧ ∃ extent b, eval ext = Ok extent ∧ bindings !! r = Some b ∧ (v < bi_bytes b ∧ v + extent ≤ bi_bytes b)%Z
  end.

Record stage_sized (s : Staged) : Prop := {
  sz_words : length (sg_words s) = length (kp_words program);
  sz_grids : length (sg_grids s) = length (kp_nodes program);
  sz_interiors : length (sg_interiors s) = length (kp_nodes program)
}.

Lemma eval_at_Ok e site v : eval_at shape inputs e site = Ok v → eval e = Ok v.
Proof using Type. unfold eval_at. destruct (expr_eval _ e); [by intros [= ->]|done]. Qed.

Lemma domain_check_Ok site v domain v' :
  domain_check site v domain = Ok v' → v' = v ∧ (domain.1 ≤ v ≤ domain.2 ∧ v ≤ umax 32)%Z.
Proof using Type.
  unfold domain_check. destruct (_ && _) eqn:Hd; cbn [negb]; [|done]. apply andb_true_iff in Hd as [H1%Z.leb_le H2%Z.leb_le].
  destruct (Z.leb_spec v (umax 32)); [|done]. by intros [= <-].
Qed.

Lemma stage_try_Done {A} s (r : result Refusal A) a : stage_try s r = Done a ↔ r = Ok a.
Proof using Type. destruct r; cbn; split; congruence. Qed.

Lemma stage_try_no_panic {A} s (r : result Refusal A) : stage_try s r ≠ Panic.
Proof using Type. by destruct r. Qed.

(** One patch writes its place and no other. *)
Record patch_staged (s s' : Staged) (entry : PatchKind * option nat) : Prop := {
  pg_sized : stage_sized s';
  pg_value : ∃ v, patch_value entry.1 v ∧ value_at s' (place_of entry) = Some v;
  pg_other place : place_valid place → place ≠ place_of entry → value_at s' place = value_at s place
}.

Lemma stage_word_ok s i v p :
  stage_sized s → i < length (sg_words s) → patch_value p v → place_of (p, Some i) = WordPlace (Some i) →
  patch_staged s (mkStaged (<[i:=v]> (sg_words s)) (sg_grids s) (sg_interiors s)) (p, Some i).
Proof using Type.
  intros [Hw Hg Hi] Hlt Hv Hplace. split.
  - split; cbn; by rewrite ?length_insert.
  - exists v. rewrite Hplace. cbn. by rewrite list_lookup_insert_eq.
  - intros [[j|]| |] _ Hne; try done. rewrite Hplace in Hne. cbn. rewrite list_lookup_insert_ne; congruence.
Qed.

Lemma stage_axis_ok s node axis g v p index :
  stage_sized s → sg_grids s !! node = Some g → patch_value p v → place_of (p, index) = AxisPlace node (axis_index axis) →
  patch_staged s (mkStaged (sg_words s) (<[node:=set3 g axis v]> (sg_grids s)) (sg_interiors s)) (p, index).
Proof using Type.
  intros [Hw Hg Hi] Hgr Hv Hplace. pose proof (lookup_lt_Some _ _ _ Hgr) as Hlt. split.
  - split; cbn; by rewrite ?length_insert.
  - exists v. rewrite Hplace. cbn. rewrite list_lookup_insert_eq by done. cbn. by rewrite get3_set3.
  - intros [|n o|n a] Hval Hne; try done. rewrite Hplace in Hne. cbn. destruct (decide (n = node)) as [->|].
    + rewrite list_lookup_insert_eq, Hgr by done. cbn. rewrite get3_set3_ne; [done|done|]. congruence.
    + by rewrite list_lookup_insert_ne.
Qed.

Lemma stage_interior_ok s node offset l v p index :
  stage_sized s → sg_interiors s !! node = Some l → value_at s (InteriorPlace node offset) = None → patch_value p v →
  place_of (p, index) = InteriorPlace node offset →
  patch_staged s (mkStaged (sg_words s) (sg_grids s) (<[node:=l ++ [(offset, v)]]> (sg_interiors s))) (p, index).
Proof using Type.
  intros [Hw Hg Hi] Hl Hnone Hv Hplace. pose proof (lookup_lt_Some _ _ _ Hl) as Hlt. cbn in Hnone. rewrite Hl in Hnone. cbn in Hnone. split.
  - split; cbn; by rewrite ?length_insert.
  - exists v. rewrite Hplace. cbn. rewrite list_lookup_insert_eq by done. cbn. rewrite find_app.
    destruct (List.find _ l); [done|]. cbn. by rewrite Nat.eqb_refl.
  - intros [|n o|n a] Hval Hne; try done. rewrite Hplace in Hne. cbn. destruct (decide (n = node)) as [->|].
    + rewrite list_lookup_insert_eq, Hl by done. cbn. rewrite find_app. cbn [List.find fst].
      destruct (Nat.eqb_spec offset o) as [->|Ho]; [congruence|]. by destruct (List.find (λ p0, p0.1 =? o) l).
    + by rewrite list_lookup_insert_ne.
Qed.

Definition binding_sound (b : Binding) : Prop := (0 < bi_base b ∧ 0 < bi_bytes b ∧ bi_base b + bi_bytes b ≤ u64_max)%Z.

(** The resources that the plan names are bound. *)
Record bindings_cover : Prop := {
  bc_sound i b : bindings !! i = Some b → binding_sound b;
  bc_args node n offset r interior : kp_nodes program !! node = Some n → (offset, ArgResource r interior) ∈ kn_args n →
    is_Some (bindings !! r);
  bc_steps step r : step ∈ wp_steps plan → r ∈ step_regions step → is_Some (bindings !! rg_resource r)
}.

Context (Hcover : bindings_cover).

Lemma stage_patch_ok s p index :
  patch_ok program p index → stage_sized s →
  (∀ node offset, place_of (p, index) = InteriorPlace node offset → value_at s (InteriorPlace node offset) = None) →
  stage_patch bindings shape inputs s (p, index) ≠ Panic ∧
  ∀ s', stage_patch bindings shape inputs s (p, index) = Done s' → patch_staged s s' (p, index).
Proof using Hcover.
  intros Hok Hsz Hfree. destruct p as [field e domain|node arg_offset r off ext|node axis e domain]; cbn [stage_patch].
  - destruct Hok as (_ & i & w & -> & Hw & _). apply lookup_lt_Some in Hw. rewrite <-(sz_words _ Hsz) in Hw.
    split.
    + apply bind_no_panic; [apply stage_try_no_panic|]. intros v _. apply bind_no_panic; [apply stage_try_no_panic|]. intros v' _.
      cbn [unwrap mbind exec_bind]. by rewrite vec_set_lt.
    + intros s' H. invert_ok. apply stage_try_Done in H0, H1. apply eval_at_Ok in H0. apply domain_check_Ok in H1 as [-> Hd].
      rewrite vec_set_lt in H2 by done. injection H2 as <-. subst s'. by apply stage_word_ok.
  - destruct Hok as (-> & n & interior & Hn & Hin). destruct (bc_args Hcover _ _ _ _ _ Hn Hin) as [b Hb].
    apply lookup_lt_Some in Hn. rewrite <-(sz_interiors _ Hsz) in Hn. apply lookup_lt_is_Some in Hn as [l Hl].
    split.
    + repeat (apply bind_no_panic; [apply stage_try_no_panic|]; intros ? _). rewrite Hb. cbn [unwrap mbind exec_bind].
      destruct (_ || _); [done|]. by rewrite Hl.
    + intros s' H. invert_ok. apply stage_try_Done in H0, H1, H2. apply eval_at_Ok in H0, H1. invert_ok.
      apply checked_add_Some in H2 as [-> _]. rewrite Hb in H3. injection H3 as <-.
      destruct (_ || _) eqn:Hor; [done|]. rewrite Hl in H. cbn [unwrap mbind exec_bind] in H. injection H as <-. read_guards.
      apply (stage_interior_ok s node arg_offset l); [done|done|by apply Hfree| |done].
      split; [done|]. exists x0, b. split_and!; (done || lia).
  - destruct Hok as (-> & _ & n & Hn & _). apply lookup_lt_Some in Hn. rewrite <-(sz_grids _ Hsz) in Hn.
    apply lookup_lt_is_Some in Hn as [g Hg]. split.
    + repeat (apply bind_no_panic; [apply stage_try_no_panic|]; intros ? _). by rewrite Hg.
    + intros s' H. invert_ok. apply stage_try_Done in H0, H1. apply eval_at_Ok in H0. apply domain_check_Ok in H1 as [-> Hd].
      rewrite Hg in H2. injection H2 as <-. subst s'. by apply stage_axis_ok.
Qed.

(** *** All patches *)

Record patches_staged (s0 s : Staged) (l : list (PatchKind * option nat)) : Prop := {
  ps_sized : stage_sized s;
  ps_values entry : entry ∈ l → ∃ v, patch_value entry.1 v ∧ value_at s (place_of entry) = Some v;
  ps_others place : place_valid place → (place ∉ (place_of <$> l)) → value_at s place = value_at s0 place
}.

Lemma place_of_valid entry : place_valid (place_of entry).
Proof using Type. destruct entry as [[| |node axis e d] i]; cbn; try done. destruct axis; cbn; lia. Qed.

Lemma stage_patches_ok s0 :
  plan_ok plan → stage_sized s0 → (∀ node offset, value_at s0 (InteriorPlace node offset) = None) →
  foldE (stage_patch bindings shape inputs) s0 (zip (wp_patches plan) (wp_scalar_words plan)) ≠ Panic ∧
  ∀ s, foldE (stage_patch bindings shape inputs) s0 (zip (wp_patches plan) (wp_scalar_words plan)) = Done s →
    patches_staged s0 s (zip (wp_patches plan) (wp_scalar_words plan)).
Proof using Hcover.
  intros Hplan Hsz Hnone. pose proof (pk_places _ Hplan) as Hnd. unfold places in Hnd.
  pose proof (Forall2_length _ _ _ (pk_patches _ Hplan)) as Hlen.
  apply (foldE_ok (λ l s, patches_staged s0 s l)).
  { split; [done| |done]. by intros entry He%elem_of_nil. }
  intros l1 [p index] l2 s Hl [Hs Hv Ho]. rewrite Hl, fmap_app, fmap_cons in Hnd. apply NoDup_app in Hnd as (_ & Hdis & Hnd2).
  assert (place_of (p, index) ∉ (place_of <$> l1)) as Hnew by (intros Hin; apply (Hdis _ Hin); by left).
  assert (zip (wp_patches plan) (wp_scalar_words plan) !! length l1 = Some (p, index)) as Hat by (rewrite Hl; by apply list_lookup_middle).
  apply lookup_zip_Some in Hat as [Hp Hi]. pose proof (Forall2_lookup_lr _ _ _ _ _ _ (pk_patches _ Hplan) Hp Hi) as Hok.
  destruct (stage_patch_ok s p index Hok Hs) as [Hnp Hstep].
  { intros node offset Hplace. rewrite <-Hplace, Ho by (apply place_of_valid || done). rewrite Hplace. apply Hnone. }
  split; [done|]. intros s' [Hs' Hval Hother]%Hstep. split; [done| |].
  - intros entry [He|He%list_elem_of_singleton]%elem_of_app; [|by subst].
    destruct (Hv entry He) as (v & Hpv & Hva). exists v. split; [done|]. rewrite Hother; [done|apply place_of_valid|].
    intros Heq. apply Hnew. rewrite <-Heq. by apply list_elem_of_fmap_2.
  - intros place Hpl Hnot. rewrite fmap_app, elem_of_app in Hnot. rewrite Hother, Ho; [done|done|tauto|done|].
    intros ->. apply Hnot. right. by left.
Qed.

(** *** Frames *)

Record frames_staged (s0 s : Staged) (l : list (nat * ProgramWord)) : Prop := {
  fs_sized : stage_sized s;
  fs_grids : sg_grids s = sg_grids s0 ∧ sg_interiors s = sg_interiors s0;
  fs_values i w : (i, w) ∈ l → is_frame (pw_role w) = true → ∃ v, frame_of inputs i = Some v ∧ sg_words s !! i = Some v;
  fs_others i : (∀ w, (i, w) ∈ l → is_frame (pw_role w) = false) → sg_words s !! i = sg_words s0 !! i
}.

Lemma stage_frames_ok s0 :
  stage_sized s0 →
  foldE (stage_frame inputs) s0 (enumerate (kp_words program)) ≠ Panic ∧
  ∀ s, foldE (stage_frame inputs) s0 (enumerate (kp_words program)) = Done s → frames_staged s0 s (enumerate (kp_words program)).
Proof using Type.
  intros Hsz. apply (foldE_ok (λ l s, frames_staged s0 s l)).
  { split; try done. by intros i w Hi%elem_of_nil. }
  intros l1 [i w] l2 s Hl [Hs Hg Hv Ho]. apply enumerate_middle in Hl as Hmid. destruct Hmid as [Hi Hw].
  assert (∀ w', (i, w') ∉ l1) as Hfresh.
  { intros w' Hin. apply list_elem_of_lookup in Hin as [k Hk]. pose proof (lookup_lt_Some _ _ _ Hk) as Hlt.
    assert (enumerate (kp_words program) !! k = Some (i, w')) as He by (rewrite Hl; by apply lookup_app_l_Some).
    unfold enumerate in He. apply lookup_zip_Some in He as [He _]. apply lookup_seq in He as [He _]. lia. }
  unfold stage_frame. destruct (is_frame (pw_role w)) eqn:Hf.
  - apply lookup_lt_Some in Hw as Hlt. rewrite <-(sz_words _ Hs) in Hlt. split.
    { apply bind_no_panic; [apply stage_try_no_panic|]. intros v _. by rewrite vec_set_lt. }
    intros s' H. invert_ok. apply stage_try_Done in H0. invert_ok. rewrite vec_set_lt in H1 by done. injection H1 as <-. subst s'.
    destruct Hs as [H1 H2 H3]. split; cbn [sg_words sg_grids sg_interiors].
    + split; cbn; by rewrite ?length_insert.
    + done.
    + intros j w' Hin Hf'. destruct (decide (j = i)) as [->|Hne].
      * rewrite list_lookup_insert_eq by done. by exists x.
      * rewrite list_lookup_insert_ne by done. apply (Hv j w'); [|done]. apply elem_of_app in Hin as [?|Hin]; [done|].
        apply list_elem_of_singleton in Hin. congruence.
    + intros j Hj. destruct (decide (j = i)) as [->|Hne].
      * rewrite (Hj w) in Hf; [done|]. apply elem_of_app. right. by left.
      * rewrite list_lookup_insert_ne by done. apply Ho. intros w' Hin. apply Hj. apply elem_of_app. by left.
  - split; [done|]. intros s' [= <-]. split; [done|done| |].
    + intros j w' [Hin|Hin%list_elem_of_singleton]%elem_of_app Hf'; [by eapply Hv|]. injection Hin as -> ->. congruence.
    + intros j Hj. apply Ho. intros w' Hin. apply Hj. apply elem_of_app. by left.
Qed.

(** *** Steps *)

(** [len] bytes at the value of the offset, inside the allocation. *)
Definition region_at (r : Region) (len start : Z) : Prop :=
  ∃ offset b, eval (rg_byte_offset r) = Ok offset ∧ bindings !! rg_resource r = Some b ∧
    start = (bi_base b + offset)%Z ∧ (0 ≤ offset ∧ offset + len ≤ bi_bytes b)%Z.

(** What a step resolves to. *)
Definition resolved_as (step : WindowStep) (out : list ResolvedStep) : Prop :=
  match step with
  | StepKernel _ => out = []
  | StepCopy c => ∃ src dst bytes, out = [ResolvedCopyStep src dst bytes] ∧ eval (cp_bytes c) = Ok bytes ∧
      region_at (cp_src c) bytes src ∧ region_at (cp_dst c) bytes dst ∧
      (bytes = 0 ∨ src + bytes ≤ dst ∨ dst + bytes ≤ src)%Z
  | StepFill f => ∃ dst words, out = [ResolvedFillStep dst (fl_value f) words] ∧ eval (fl_words f) = Ok words ∧
      region_at (fl_dst f) (words * 4) dst ∧ (dst mod 4 = 0)%Z
  end.

Definition step_exprs (step : WindowStep) : list Expr :=
  match step with
  | StepKernel _ => []
  | StepCopy c => [rg_byte_offset (cp_src c); rg_byte_offset (cp_dst c); cp_bytes c]
  | StepFill f => [rg_byte_offset (fl_dst f); fl_words f]
  end.

Context (Htyped : ∀ step e, step ∈ wp_steps plan → e ∈ step_exprs step → expr_typed e).
Context (Hinput : ∀ name v, input_lookup inputs shape name = Some v → in_u 64 v).

Lemma resolve_region_Done r len site a :
  expr_typed (rg_byte_offset r) → (0 ≤ len)%Z →
  resolve_region bindings shape inputs r len site = Done a → region_at r len a.1 ∧ a.2 = (a.1 + len)%Z.
Proof using Hcover Hinput.
  unfold resolve_region. intros Hty Hlen H. invert_ok. apply eval_at_Ok in H0. apply checked_add_Some in H1 as [-> Hmax].
  destruct (Z.ltb_spec (bi_bytes x1) (x + len)) as [|Hle]; [done|]. injection H as <-. cbn [fst snd].
  pose proof (expr_eval_typed _ _ _ Hinput Hty H0) as [Hx _]. destruct (bc_sound Hcover _ _ H2) as (Hb & Hn & Hfit).
  rewrite !wrap_small by lia. split; [|lia]. exists x, x1. split_and!; (done || lia).
Qed.

Lemma resolve_region_no_panic r len site :
  is_Some (bindings !! rg_resource r) → resolve_region bindings shape inputs r len site ≠ Panic.
Proof using Type.
  intros [b Hb]. unfold resolve_region. repeat (apply bind_no_panic; [apply try_no_panic|]; intros ? _).
  rewrite Hb. cbn [unwrap mbind exec_bind]. by destruct (_ <? _)%Z.
Qed.

Lemma resolve_step_ok i step :
  step ∈ wp_steps plan →
  resolve_step bindings shape inputs (i, step) ≠ Panic ∧
  ∀ out, resolve_step bindings shape inputs (i, step) = Done out → resolved_as step out.
Proof using Hcover Htyped Hinput.
  intros Hin. pose proof (bc_steps Hcover step) as Hres. pose proof (Htyped step) as Hty.
  destruct step as [node|c|f]; cbn [resolve_step step_exprs step_regions] in *.
  - split; [done|]. by intros out [= <-].
  - split.
    + apply bind_no_panic; [apply try_no_panic|]. intros bytes _.
      apply bind_no_panic; [apply resolve_region_no_panic, Hres; [done|by left]|]. intros [src src_end] _.
      apply bind_no_panic; [apply resolve_region_no_panic, Hres; [done|by right; left]|]. intros [dst dst_end] _.
      by destruct (_ && _).
    + intros out H. invert_ok. apply eval_at_Ok in H0.
      assert (0 ≤ x)%Z as Hx by (eapply expr_eval_typed in H0 as [? _]; [done|done|]; apply Hty; [done|set_solver]).
      apply resolve_region_Done in H1 as [Hsrc Hse]; [|apply Hty; [done|set_solver]|done].
      destruct x0 as [src src_end]. cbn [fst snd] in *. invert_ok.
      apply resolve_region_Done in H1 as [Hdst Hde]; [|apply Hty; [done|set_solver]|done].
      destruct x0 as [dst dst_end]. cbn [fst snd] in *. destruct (_ && _) eqn:Hov; [done|]. injection H as <-. subst.
      exists src, dst, x. split_and!; try done.
      apply andb_false_iff in Hov as [Hov|Hov]; [apply andb_false_iff in Hov as [Hov|Hov]|]; read_guards; lia.
  - split.
    + repeat (apply bind_no_panic; [apply try_no_panic|]; intros ? _).
      apply bind_no_panic; [apply resolve_region_no_panic, Hres; [done|by left]|]. intros [dst dst_end] _. by destruct (negb _).
    + intros out H. invert_ok. apply eval_at_Ok in H0. apply checked_mul_Some in H1 as [-> _].
      assert (0 ≤ x)%Z as Hx by (eapply expr_eval_typed in H0 as [? _]; [done|done|]; apply Hty; [done|set_solver]).
      apply resolve_region_Done in H2 as [Hdst _]; [|apply Hty; [done|set_solver]|lia].
      destruct x1 as [dst dst_end]. cbn [fst snd] in *. destruct (negb _) eqn:Hal; [done|]. injection H as <-. read_guards.
      by exists dst, x.
Qed.

Lemma resolve_list_ok l :
  (∀ i step, (i, step) ∈ l → step ∈ wp_steps plan) →
  let f out entry := more ← resolve_step bindings shape inputs entry; Done (out ++ more) in
  foldE f [] l ≠ Panic ∧ ∀ out, foldE f [] l = Done out → ∃ outs, Forall2 resolved_as l.*2 outs ∧ out = List.concat outs.
Proof using Hcover Htyped Hinput.
  intros Hall. cbn zeta. apply (foldE_ok (λ l out, ∃ outs, Forall2 resolved_as l.*2 outs ∧ out = List.concat outs)); [by exists []|].
  intros l1 [i step] l2 out -> (outs & Houts & ->).
  destruct (resolve_step_ok i step) as [Hnp Hok]; [by eapply Hall, elem_of_app; right; left|].
  destruct (resolve_step _ _ _ _) as [more|e|]; cbn [mbind exec_bind]; [|done|done]. split; [done|]. intros s' [= <-].
  exists (outs ++ [more]). rewrite fmap_app, List.concat_app. cbn. rewrite app_nil_r. split; [|done].
  apply Forall2_app; [done|]. constructor; [by apply Hok|constructor].
Qed.

Lemma resolve_steps_ok :
  let f out entry := more ← resolve_step bindings shape inputs entry; Done (out ++ more) in
  foldE f [] (enumerate (wp_steps plan)) ≠ Panic ∧
  ∀ out, foldE f [] (enumerate (wp_steps plan)) = Done out →
    ∃ outs, Forall2 resolved_as (wp_steps plan) outs ∧ out = List.concat outs.
Proof using Hcover Htyped Hinput.
  pose proof (resolve_list_ok (enumerate (wp_steps plan))) as H. rewrite enumerate_snd in H. apply H.
  intros i step He. apply elem_of_enumerate in He. by eapply list_elem_of_lookup_2.
Qed.

(** *** Everything that is staged *)

Record staged_ok (s0 s : Staged) (resolved : list ResolvedStep) (delta : WindowHostDelta) : Prop := {
  so_frames : ∃ s1, frames_staged s0 s1 (enumerate (kp_words program)) ∧
    patches_staged s1 s (zip (wp_patches plan) (wp_scalar_words plan));
  so_resolved : ∃ outs, Forall2 resolved_as (wp_steps plan) outs ∧ resolved = List.concat outs;
  so_known : Forall (λ entry, ∃ w, kp_words program !! entry.1 = Some w ∧ is_frame (pw_role w) = true) (wi_gdn_frames inputs);
  so_delta : host_delta_of shape inputs (wp_host_delta plan) = Ok delta
}.

Lemma check_frame_Ok entry :
  check_frame plan entry = Ok tt → ∃ w, kp_words program !! entry.1 = Some w ∧ is_frame (pw_role w) = true.
Proof using Type.
  unfold check_frame. intros H. invert_ok. read_guards. destruct (kp_words program !! entry.1) as [w|]; [|done]. by exists w.
Qed.

Lemma stage_all_ok s0 :
  plan_ok plan → stage_sized s0 → (∀ node offset, value_at s0 (InteriorPlace node offset) = None) →
  stage_all plan bindings shape inputs s0 ≠ Panic ∧
  ∀ s resolved delta, stage_all plan bindings shape inputs s0 = Done (s, resolved, delta) → staged_ok s0 s resolved delta.
Proof using Hcover Htyped Hinput.
  intros Hplan Hsz Hnone. unfold stage_all. destruct (stage_frames_ok s0 Hsz) as [Hnp1 Hok1].
  destruct (foldE (stage_frame inputs) _ _) as [s1|e|]; cbn [mbind exec_bind]; [|done|done]. specialize (Hok1 _ eq_refl).
  destruct (for_each _ (wi_gdn_frames inputs)) as [[]|e] eqn:Hknown; cbn [stage_try mbind exec_bind]; [|done].
  destruct (stage_patches_ok s1 Hplan (fs_sized _ _ _ Hok1)) as [Hnp2 Hok2].
  { intros node offset. specialize (Hnone node offset). cbn in *. by rewrite (proj2 (fs_grids _ _ _ Hok1)). }
  destruct (foldE (stage_patch _ _ _) _ _) as [s2|e|]; cbn [mbind exec_bind]; [|done|done]. specialize (Hok2 _ eq_refl).
  destruct resolve_steps_ok as [Hnp3 Hok3]. cbn zeta in Hnp3, Hok3.
  destruct (foldE _ [] _) as [resolved|e|]; cbn [mbind exec_bind]; [|done|done]. specialize (Hok3 _ eq_refl).
  destruct (host_delta_of _ _ _) as [delta|e] eqn:Hdelta; cbn [stage_try mbind exec_bind]; [|done].
  split; [done|]. intros s resolved' delta' [= <- <- <-]. split; [by exists s1|done| |done].
  apply Forall_forall. intros entry He. apply check_frame_Ok. rewrite for_each_Ok in Hknown. by apply Hknown.
Qed.
End bind.
