(* ===== verification/RailWindowBind.v ===== *)
(** * Preparing and binding a window

    [window_bind] does not panic, keeps a prepared window well formed, refuses
    without touching the window that is in flight, retires it when it refuses
    otherwise, and when it succeeds every image, pointer and step agrees with
    the patches.  [prepared_new] does not panic and makes such a window. *)

From stdpp Require Import gmap sorting.
From S2P Require Import Prelude Packet RailCopy RailKernels RailKernelsOk RailSealed RailWriter RailWriterOk RailPlan RailPlanOk RailWindow RailWindowOk.

(** ** Plans and stages *)

Definition patch_exprs (p : PatchKind) : list Expr :=
  match p with
  | Scalar32 _ e _ | GridAxis _ _ e _ => [e]
  | Interior64 _ _ _ off ext => [off; ext]
  end.

Record plan_typed (plan : WindowPlan) : Prop := {
  py_patches p e : p ∈ wp_patches plan → e ∈ patch_exprs p → expr_typed e;
  py_steps step e : step ∈ wp_steps plan → e ∈ step_exprs step → expr_typed e
}.

Definition stage_of (w : PreparedWindow) : Staged := mkStaged (pw_words w) (pw_grids w) (pw_interiors w).

Definition images_sized (program : KernelProgram) (images : list (list Z)) : Prop :=
  length images = length (kp_nodes program) ∧
  ∀ node n image, kp_nodes program !! node = Some n → images !! node = Some image → length image = default 0 (kn_segment_bytes n).

(** ** A prepared window *)

Definition range_of (b : Binding) : Z * Z := (bi_base b, bi_base b + bi_bytes b)%Z.
Definition binding_of (a : AllocationIdentity) : Binding := mkBinding (al_base a) (al_bytes a).

Record prepared_ok (w : PreparedWindow) : Prop := {
  pr_plan : plan_ok (pw_plan w);
  pr_program : program_wf (wp_program (pw_plan w));
  pr_typed : plan_typed (pw_plan w);
  pr_cover : bindings_cover (pw_plan w) (pw_bindings w);
  pr_key : pw_bindings w = binding_of <$> wk_allocations (pw_key w);
  pr_resources i a : wk_allocations (pw_key w) !! i = Some a → al_resource a = i;
  pr_count : length (pw_bindings w) = length (kp_resources (wp_program (pw_plan w)));
  pr_apart i j a b : i ≠ j → pw_bindings w !! i = Some a → pw_bindings w !! j = Some b →
    i ∈ cl_writes (wp_closure (pw_plan w)) → apart (range_of a) (range_of b);
  pr_interior node n offset r interior b : kp_nodes (wp_program (pw_plan w)) !! node = Some n →
    (offset, ArgResource r interior) ∈ kn_args n → pw_bindings w !! r = Some b →
    existsb (patches_interior node offset) (wp_patches (pw_plan w)) = false → (interior < bi_bytes b)%Z;
  pr_images : images_sized (wp_program (pw_plan w)) (pw_images w);
  pr_stage : stage_sized (pw_plan w) (stage_of w)
}.

(** ** Encoding *)

Section encode.
Context (plan : WindowPlan) (bindings : list Binding) (s : Staged).
Local Abbreviation program := (wp_program plan).
Context (Hplan : plan_ok plan) (Hwf : program_wf program) (Hsized : stage_sized plan s).
Context (Hgrids : ∀ node g, sg_grids s !! node = Some g → arr3_nonneg g).
Context (Hgrid_of : ∀ node n g, kp_nodes program !! node = Some n → sg_grids s !! node = Some g →
  wp_node_has_grid_patch plan !! node ≠ Some true → g = kn_grid n).

(** What the encoder is told about a node. *)
Definition overrides_of (has : bool) (grid : arr3) (interiors : list (nat * Z)) : ImageOverrides :=
  mkOverrides (if has then Some grid else None) (Some bindings) interiors.

(** The image holds the fields of the node, with the words, the grid and the
    interiors that were staged. *)
Definition encoded (node : nat) (n : KernelNode) (image : list Z) : Prop :=
  ∃ has grid interiors fs, sg_grids s !! node = Some grid ∧ sg_interiors s !! node = Some interiors ∧
    kn_segment_bytes n = Some (length image) ∧
    node_fields program (sg_words s) (overrides_of has grid interiors) n grid = Some fs ∧ image_of (length image) fs image.

Lemma encode_image_result images images0 node image n :
  images_sized program images0 → images_sized program images → images0 !! node = Some image → kp_nodes program !! node = Some n →
  match encode_image plan bindings s images (node, image) with
  | Done images' => ∃ image', images' = <[node:=image']> images ∧ length image' = length image ∧ encoded node n image'
  | Fail (_, images') => images_sized program images'
  | Panic => False
  end.
Proof using Hplan Hwf Hsized Hgrids Hgrid_of.
  intros H0 Him Himage Hn. pose proof (lookup_lt_Some _ _ _ Hn) as Hlt. unfold encode_image.
  assert (is_Some (wp_node_has_grid_patch plan !! node)) as [has Hhas] by (apply lookup_lt_is_Some; by rewrite (pk_grid_length _ Hplan)).
  assert (is_Some (sg_grids s !! node)) as [grid Hgrid] by (apply lookup_lt_is_Some; by rewrite (sz_grids _ _ Hsized)).
  assert (is_Some (sg_interiors s !! node)) as [interiors Hint] by (apply lookup_lt_is_Some; by rewrite (sz_interiors _ _ Hsized)).
  rewrite Hhas, Hgrid, Hint. cbn [unwrap mbind exec_bind]. fold (overrides_of has grid interiors).
  assert (live_grid (overrides_of has grid interiors) n = grid) as Hlive.
  { unfold live_grid, overrides_of. destruct has; cbn; [done|]. symmetry. apply (Hgrid_of node); [done|done|congruence]. }
  apply list_elem_of_lookup_2 in Hn as Hin. pose proof (proj2 H0 node n image Hn Himage) as Hlen.
  pose proof (encode_result program (sg_words s) (overrides_of has grid interiors) node n image Hn
    (λ segment, pf_layout _ Hwf n segment Hin)) as Henc. rewrite Hlive in Henc. specialize (Henc (Hgrids _ _ Hgrid) Hlen).
  assert (∀ image', length image' = length image → images_sized program (<[node:=image']> images)) as Hset.
  { intros image' Hl. destruct Him as [Hli Him]. split; [by rewrite length_insert|]. intros node' n' i' Hn' Hi'.
    destruct (decide (node' = node)) as [->|Hne].
    - rewrite list_lookup_insert_eq in Hi' by lia. injection Hi' as <-. rewrite Hl. congruence.
    - rewrite list_lookup_insert_ne in Hi' by done. by eapply Him. }
  destruct (encode_kernarg_into _ _ _ _ _) as [image'|[e partial]|]; [|by apply Hset|done].
  destruct Henc as (Hseg & fs & Hfs & Hof). pose proof (io_length _ _ _ Hof) as Hl. exists image'. split; [done|]. split; [done|].
  exists has, grid, interiors, fs. rewrite Hl. split_and!; try done.
Qed.

Lemma encode_images_step images l1 entry l2 im :
  images_sized program images → enumerate images = l1 ++ entry :: l2 →
  images_sized program im ∧ (∀ node n image', node < length l1 →
    kp_nodes program !! node = Some n → im !! node = Some image' → encoded node n image') →
  match encode_image plan bindings s im entry with
  | Done im' => images_sized program im' ∧ ∀ node n image', node < length (l1 ++ [entry]) →
      kp_nodes program !! node = Some n → im' !! node = Some image' → encoded node n image'
  | Fail e => images_sized program e.2
  | Panic => False
  end.
Proof using Hplan Hwf Hsized Hgrids Hgrid_of.
  intros Him Hl [Hsz Henc]. destruct entry as [node image]. apply enumerate_middle in Hl as [Hnode Himage].
  pose proof (lookup_lt_Some _ _ _ Himage) as Hlt. rewrite (proj1 Him) in Hlt. apply lookup_lt_is_Some in Hlt as [n Hn].
  pose proof (encode_image_result im images node image n Him Hsz Himage Hn) as Hr.
  destruct (encode_image _ _ _ _ _) as [im'|[e im']|]; [|done|done].
  destruct Hr as (image' & -> & Hlen & Hen). split.
  - split; [rewrite length_insert; apply Hsz|]. intros node' n' i' Hn' Hi'. destruct (decide (node' = node)) as [->|Hne].
    + rewrite list_lookup_insert_eq in Hi' by (rewrite (proj1 Hsz); by eapply lookup_lt_Some). injection Hi' as <-. rewrite Hlen.
      by apply (proj2 Him _ _ _ Hn').
    + rewrite list_lookup_insert_ne in Hi' by done. by apply (proj2 Hsz _ _ _ Hn').
  - intros node' n' i' Hlt' Hn' Hi'. rewrite length_app in Hlt'. cbn in Hlt'. destruct (decide (node' = node)) as [->|Hne].
    + rewrite list_lookup_insert_eq in Hi' by (rewrite (proj1 Hsz); by eapply lookup_lt_Some). injection Hi' as <-. congruence.
    + rewrite list_lookup_insert_ne in Hi' by done. apply Henc; [lia|done|done].
Qed.

Lemma encode_images_result images :
  images_sized program images →
  match foldE (encode_image plan bindings s) images (enumerate images) with
  | Done images' => images_sized program images' ∧
      ∀ node n image', kp_nodes program !! node = Some n → images' !! node = Some image' → encoded node n image'
  | Fail e => images_sized program e.2
  | Panic => False
  end.
Proof using Hplan Hwf Hsized Hgrids Hgrid_of.
  intros Him. pose proof (foldE_result (λ l im, images_sized program im ∧ ∀ node n image', node < length l →
      kp_nodes program !! node = Some n → im !! node = Some image' → encoded node n image')
    (λ e : EncodeFault * list (list Z), images_sized program e.2) (encode_image plan bindings s) (enumerate images) images) as H.
  ospecialize (H _ _); [by split; [|intros ? ? ? ?%Nat.nlt_0_r]|by intros ? ? ? ?; apply encode_images_step|].
  destruct (foldE _ _ _) as [im|[e im]|]; [|done|done]. destruct H as [Hsz Henc]. split; [done|].
  intros node n image' Hn. apply Henc; [|done]. rewrite length_enumerate, (proj1 Him). by eapply lookup_lt_Some.
Qed.
End encode.

(** ** What a stage holds *)

Lemma arr3_ext a b : (∀ axis, axis < 3 → get3 a axis = get3 b axis) → a = b.
Proof.
  intros H. destruct a as [x y z], b as [x' y' z'].
  f_equal; [apply (H 0)|apply (H 1)|apply (H 2)]; lia.
Qed.

Lemma elem_of_places patches words place :
  place ∈ places patches words → ∃ entry, entry ∈ zip patches words ∧ place = place_of entry.
Proof. unfold places. intros (entry & -> & H)%list_elem_of_fmap. by exists entry. Qed.

Lemma sorted_related {A B} (R : B → B → Prop) (f : A → B) l x y :
  StronglySorted R (f <$> l) → x ∈ l → y ∈ l → x = y ∨ R (f x) (f y) ∨ R (f y) (f x).
Proof.
  induction l as [|z l IH]; cbn; intros Hs Hx Hy; [by apply elem_of_nil in Hx|].
  apply StronglySorted_inv in Hs as [Hs Hz]. rewrite Forall_forall in Hz.
  apply elem_of_cons in Hx as [->|Hx], Hy as [->|Hy]; [by left|right..|by apply IH].
  - left. by apply Hz, list_elem_of_fmap_2.
  - right. by apply Hz, list_elem_of_fmap_2.
Qed.

Lemma arg_resource_unique n segment offset r i r' i' :
  node_laid_out n segment → (offset, ArgResource r i) ∈ kn_args n → (offset, ArgResource r' i') ∈ kn_args n → r = r'.
Proof.
  intros Hlo Ha Hb. pose proof (lo_apart _ _ Hlo) as Hap. apply StronglySorted_app_1_l in Hap.
  destruct (sorted_related _ _ _ _ _ Hap Ha Hb) as [[= ->]|[H|H]]; [done|..]; unfold spans_apart, arg_span in H; cbn in H; lia.
Qed.

(** An image holds a field at its place. *)
Lemma image_field n fs image f : image_of n fs image → f ∈ fs → take (length f.2) (drop f.1 image) = f.2.
Proof.
  intros Him Hf. apply list_eq. intros i. destruct (Nat.lt_ge_cases i (length f.2)) as [Hlt|Hge].
  - rewrite lookup_take_lt, lookup_drop by done. rewrite (io_field _ _ _ Him f) by (done || (unfold covers; lia)). f_equal. lia.
  - rewrite lookup_take_ge by done. symmetry. by apply lookup_ge_None.
Qed.

Section staged.
Context (plan : WindowPlan) (bindings : list Binding) (shape : WindowShape) (inputs : WindowInputs).
Local Abbreviation program := (wp_program plan).
Local Abbreviation entries := (zip (wp_patches plan) (wp_scalar_words plan)).
Context (Hplan : plan_ok plan) (Hwf : program_wf program) (Htyped : plan_typed plan).
Context (Hinput : ∀ name v, input_lookup inputs shape name = Some v → in_u 64 v).

(** A stage that starts from the authored values. *)
Record stage_fresh (s : Staged) : Prop := {
  fr_sized : stage_sized plan s;
  fr_words : sg_words s = authored_words program;
  fr_grids node n : kp_nodes program !! node = Some n → sg_grids s !! node = Some (kn_grid n);
  fr_interiors node offset : value_at s (InteriorPlace node offset) = None
}.

Context (s0 s : Staged) (resolved : list ResolvedStep) (delta : WindowHostDelta).
Context (Hfresh : stage_fresh s0) (Hs : staged_ok plan bindings shape inputs s0 s resolved delta).

Lemma staged_sized : stage_sized plan s.
Proof using Hs. destruct (so_frames _ _ _ _ _ _ _ _ Hs) as (s1 & _ & H). exact (ps_sized _ _ _ _ _ _ _ H). Qed.

Lemma staged_patch entry : entry ∈ entries → ∃ v, patch_value bindings shape inputs entry.1 v ∧ value_at s (place_of entry) = Some v.
Proof using Hs. destruct (so_frames _ _ _ _ _ _ _ _ Hs) as (s1 & _ & H). apply (ps_values _ _ _ _ _ _ _ H). Qed.

Lemma staged_other place :
  place_valid place → (place ∉ places (wp_patches plan) (wp_scalar_words plan)) →
  match place with WordPlace _ => True | _ => value_at s place = value_at s0 place end.
Proof using Hs.
  intros Hv Hp. destruct (so_frames _ _ _ _ _ _ _ _ Hs) as (s1 & Hf & H).
  destruct (fs_grids _ _ _ _ _ Hf) as [Hg Hi].
  destruct place; [done|..]; rewrite (ps_others _ _ _ _ _ _ _ H) by done; cbn; by rewrite ?Hg, ?Hi.
Qed.

(** Words that no patch writes: frames come from the inputs, the rest is kept. *)
Lemma staged_word i word :
  kp_words program !! i = Some word → (WordPlace (Some i) ∉ places (wp_patches plan) (wp_scalar_words plan)) →
  if is_frame (pw_role word) then ∃ v, frame_of inputs i = Some v ∧ sg_words s !! i = Some v
  else sg_words s !! i = sg_words s0 !! i.
Proof using Hs.
  intros Hw Hout. destruct (so_frames _ _ _ _ _ _ _ _ Hs) as (s1 & Hf & H).
  pose proof (ps_others _ _ _ _ _ _ _ H (WordPlace (Some i)) I Hout) as Heq. cbn in Heq. rewrite Heq.
  destruct (is_frame (pw_role word)) eqn:E.
  - apply (fs_values _ _ _ _ _ Hf i word); [|done]. by apply elem_of_enumerate.
  - apply (fs_others _ _ _ _ _ Hf). intros w' Hin%elem_of_enumerate. congruence.
Qed.

Lemma staged_axis node n g axis :
  axis < 3 → kp_nodes program !! node = Some n → sg_grids s !! node = Some g →
  (∃ a e domain, GridAxis node a e domain ∈ wp_patches plan ∧ axis_index a = axis ∧
     patch_value bindings shape inputs (GridAxis node a e domain) (get3 g axis)) ∨
  get3 g axis = get3 (kn_grid n) axis ∧ (AxisPlace node axis ∉ places (wp_patches plan) (wp_scalar_words plan)).
Proof using Hs Hfresh.
  intros Ha Hn Hg. destruct (decide (AxisPlace node axis ∈ places (wp_patches plan) (wp_scalar_words plan))) as [Hin|Hout].
  - left. apply elem_of_places in Hin as ([p index] & Hin & Hplace). destruct (staged_patch _ Hin) as (v & Hv & Hat).
    rewrite <-Hplace in Hat. cbn in Hat. rewrite Hg in Hat. injection Hat as <-.
    destruct p as [| |node' a e domain]; try done. injection Hplace as <- ->. exists a, e, domain.
    split; [|done]. by eapply elem_of_zip_l.
  - right. split; [|done]. pose proof (staged_other (AxisPlace node axis) Ha Hout) as H. cbn in H.
    rewrite Hg, (fr_grids _ Hfresh _ _ Hn) in H. by injection H.
Qed.

Lemma patch_value_nonneg p v : p ∈ wp_patches plan → patch_value bindings shape inputs p v → (0 ≤ v)%Z.
Proof using Htyped Hinput.
  intros Hp Hv. pose proof (py_patches _ Htyped p) as Hty. destruct p; cbn in Hv, Hty; destruct Hv as [Hv _];
    (eapply expr_eval_typed in Hv as [? _]; [done|done|apply Hty; [done|by left]]).
Qed.

Lemma staged_grids node g : sg_grids s !! node = Some g → arr3_nonneg g.
Proof using Hs Hfresh Htyped Hinput Hwf.
  intros Hg. assert (is_Some (kp_nodes program !! node)) as [n Hn].
  { apply lookup_lt_is_Some. rewrite <-(sz_grids _ _ staged_sized). by eapply lookup_lt_Some. }
  assert (∀ axis, axis < 3 → (0 ≤ get3 g axis)%Z) as H.
  { intros axis Ha. destruct (staged_axis node n g axis Ha Hn Hg) as [(a & e & d & Hin & _ & Hv)|[-> _]].
    - by eapply patch_value_nonneg.
    - apply list_elem_of_lookup_2 in Hn. destruct (pf_grid _ Hwf n Hn) as (? & ? & ?). by destruct axis as [|[|[|]]]. }
  split_and!; [apply (H 0)|apply (H 1)|apply (H 2)]; lia.
Qed.

Lemma staged_grid_of node n g :
  kp_nodes program !! node = Some n → sg_grids s !! node = Some g → wp_node_has_grid_patch plan !! node ≠ Some true → g = kn_grid n.
Proof using Hs Hfresh Hplan.
  intros Hn Hg Hno. apply arr3_ext. intros axis Ha.
  destruct (staged_axis node n g axis Ha Hn Hg) as [(a & e & d & Hin & _ & Hv)|[-> _]]; [|done].
  destruct Hno. apply (pk_grid _ Hplan). split; [by eapply lookup_lt_Some|]. by exists a, e, d.
Qed.

(** *** Pointers *)

Lemma staged_interior node n segment offset r interior l b :
  kp_nodes program !! node = Some n → kn_segment_bytes n = Some segment → (offset, ArgResource r interior) ∈ kn_args n →
  sg_interiors s !! node = Some l → bindings !! r = Some b →
  (existsb (patches_interior node offset) (wp_patches plan) = false → (interior < bi_bytes b)%Z) →
  (0 ≤ default interior (snd <$> List.find (λ p, (p.1 =? offset)%nat) l) < bi_bytes b)%Z.
Proof using Hs Hfresh Hplan Hwf Htyped Hinput.
  intros Hn Hseg Harg Hl Hb Hnot. apply list_elem_of_lookup_2 in Hn as Hin. pose proof (pf_layout _ Hwf _ _ Hin Hseg) as Hlo.
  destruct (decide (InteriorPlace node offset ∈ places (wp_patches plan) (wp_scalar_words plan))) as [Hpl|Hout].
  - apply elem_of_places in Hpl as ([p index] & He & Hplace). destruct (staged_patch _ He) as (v & Hv & Hat).
    rewrite <-Hplace in Hat. cbn in Hat. rewrite Hl in Hat. cbn in Hat.
    destruct p as [|node' offset' r' off ext|]; try done. injection Hplace as <- <-. rewrite Hat. cbn.
    assert (Interior64 node offset r' off ext ∈ wp_patches plan) as Hpatch by (by eapply elem_of_zip_l).
    apply list_elem_of_lookup in He as [k Hk]. apply lookup_zip_Some in Hk as [Hp Hi].
    pose proof (Forall2_lookup_lr _ _ _ _ _ _ (pk_patches _ Hplan) Hp Hi) as (_ & n' & i' & Hn' & Harg'). rewrite Hn in Hn'.
    injection Hn' as <-. assert (r' = r) as -> by (by eapply arg_resource_unique). split; [by eapply patch_value_nonneg|].
    destruct Hv as (_ & extent & b' & _ & Hb' & Hlt & _). cbn in Hlt. congruence.
  - pose proof (staged_other (InteriorPlace node offset) I Hout) as H. rewrite (fr_interiors _ Hfresh) in H. cbn in H.
    rewrite Hl in H. cbn in H. rewrite H. cbn. split; [by eapply pf_args|]. apply Hnot.
    destruct (existsb _ _) eqn:Hex; [|done]. destruct Hout. apply existsb_exists in Hex as (p & Hp%list_elem_of_In & Hpn).
    destruct p as [|node' offset' r' off ext|]; try done. cbn in Hpn. read_guards. subst.
    apply list_elem_of_lookup in Hp as [k Hk].
    destruct (Forall2_lookup_l _ _ _ _ _ (pk_patches _ Hplan) Hk) as (index & Hi & _).
    unfold places. apply list_elem_of_fmap. exists (Interior64 node offset r' off ext, index). split; [done|].
    apply list_elem_of_lookup. exists k. apply lookup_zip_Some. done.
Qed.
End staged.

(** ** A refused stage keeps its sizes *)

Lemma foldE_inv {E S A} (P : S → Prop) (Q : E → Prop) (f : S → A → exec E S) l s :
  P s → (∀ s x, P s → match f s x with Done s' => P s' | Fail e => Q e | Panic => True end) →
  match foldE f s l with Done s' => P s' | Fail e => Q e | Panic => True end.
Proof.
  intros Hs Hstep. revert s Hs. induction l as [|x l IH]; intros s Hs; simpl; [done|].
  specialize (Hstep s x Hs). destruct (f s x); simpl; [by apply IH|done|done].
Qed.

Section sized.
Context (plan : WindowPlan) (bindings : list Binding) (shape : WindowShape) (inputs : WindowInputs).

(** Sized whatever the stage answers. *)
Definition keeps_sized (r : exec (Refusal * Staged) Staged) : Prop :=
  match r with Done s => stage_sized plan s | Fail e => stage_sized plan e.2 | Panic => True end.

Lemma keeps_try {A} s (r : result Refusal A) f :
  stage_sized plan s → (∀ a, keeps_sized (f a)) → keeps_sized (a ← stage_try s r; f a).
Proof using Type. intros Hs Hf. by destruct r; cbn. Qed.

Lemma sized_words s w g i :
  stage_sized plan s → length w = length (sg_words s) → length g = length (sg_grids s) → length i = length (sg_interiors s) →
  stage_sized plan (mkStaged w g i).
Proof using Type. intros [H1 H2 H3] Hw Hg Hi. split; cbn; congruence. Qed.

Lemma set_word_sized s i v :
  stage_sized plan s → keeps_sized (words ← unwrap (vec_set (sg_words s) i v); Done (mkStaged words (sg_grids s) (sg_interiors s))).
Proof using Type.
  intros Hs. destruct (vec_set _ _ _) as [words|] eqn:Hv; cbn; [|done]. apply vec_set_Some in Hv as [_ ->].
  by eapply sized_words; rewrite ?length_insert.
Qed.

Lemma stage_frame_sized s entry : stage_sized plan s → keeps_sized (stage_frame inputs s entry).
Proof using Type.
  intros Hs. destruct entry as [i w]. unfold stage_frame. destruct (is_frame _); [|done].
  apply keeps_try; [done|]. intros v. by apply set_word_sized.
Qed.

Lemma stage_patch_sized s entry : stage_sized plan s → keeps_sized (stage_patch bindings shape inputs s entry).
Proof using Type.
  intros Hs. destruct entry as [[field e d|node o r off ext|node a e d] index]; cbn [stage_patch];
    (apply keeps_try; [done|]; intros v1); (apply keeps_try; [done|]; intros v2).
  - destruct index as [index|]; cbn [unwrap mbind exec_bind]; [|done]. by apply set_word_sized.
  - apply keeps_try; [done|]. intros v3. destruct (bindings !! r); cbn [unwrap mbind exec_bind]; [|done].
    destruct (_ || _); [done|]. destruct (_ !! node); cbn; [|done]. by eapply sized_words; rewrite ?length_insert.
  - destruct (_ !! node); cbn; [|done]. by eapply sized_words; rewrite ?length_insert.
Qed.

Lemma stage_all_sized s0 e s :
  stage_sized plan s0 → stage_all plan bindings shape inputs s0 = Fail (e, s) → stage_sized plan s.
Proof using Type.
  intros Hs. unfold stage_all.
  pose proof (foldE_inv (stage_sized plan) (λ e, stage_sized plan e.2) (stage_frame inputs) (enumerate (kp_words (wp_program plan))) s0 Hs
    (λ s x Hs, stage_frame_sized s x Hs)) as H1.
  destruct (foldE (stage_frame inputs) _ _) as [s1|[e1 s1]|]; cbn [mbind exec_bind]; [|by intros [= _ <-]|done].
  destruct (for_each _ (wi_gdn_frames inputs)); cbn [stage_try mbind exec_bind]; [|by intros [= _ <-]].
  pose proof (foldE_inv (stage_sized plan) (λ e, stage_sized plan e.2) (stage_patch bindings shape inputs)
    (zip (wp_patches plan) (wp_scalar_words plan)) s1 H1 (λ s x Hs, stage_patch_sized s x Hs)) as H2.
  destruct (foldE (stage_patch _ _ _) _ _) as [s2|[e2 s2]|]; cbn [mbind exec_bind]; [|by intros [= _ <-]|done].
  destruct (foldE _ [] _); cbn [mbind exec_bind]; [|by intros [= _ <-]|done].
  destruct (host_delta_of _ _ _); cbn [stage_try mbind exec_bind]; [done|by intros [= _ <-]].
Qed.
End sized.

(** ** Windows that differ in what a bind writes *)

Definition same_window (w w' : PreparedWindow) : Prop :=
  pw_id w' = pw_id w ∧ pw_plan w' = pw_plan w ∧ pw_key w' = pw_key w ∧ pw_bindings w' = pw_bindings w.

Lemma prepared_keeps w w' :
  prepared_ok w → same_window w w' → images_sized (wp_program (pw_plan w)) (pw_images w') → stage_sized (pw_plan w) (stage_of w') →
  prepared_ok w'.
Proof. intros [] (Hi & Hp & Hk & Hb) Him Hst. split; rewrite ?Hp, ?Hk, ?Hb; done. Qed.

Lemma fresh_stage_fresh w : prepared_ok w → stage_fresh (pw_plan w) (fresh_stage w).
Proof.
  intros Hw. pose proof (pr_stage _ Hw) as [H1 H2 H3]. cbn in H2, H3. unfold fresh_stage.
  rewrite drop_ge, app_nil_r by lia. split; cbn.
  - split; cbn.
    + unfold authored_words. apply length_fmap.
    + apply length_fmap.
    + by rewrite length_replicate.
  - done.
  - intros node n Hn. by rewrite list_lookup_fmap, Hn.
  - intros node offset. destruct (replicate _ _ !! node) as [l|] eqn:Hl; [|done]. by apply lookup_replicate in Hl as [-> _].
Qed.

(** *** Keys *)

Lemma allocations_difference_None i l k :
  length l = length k → allocations_difference i l k = None → l = k.
Proof.
  revert i k. induction l as [|a l IH]; intros i [|b k]; cbn; try done. intros [= Hl].
  unfold allocation_difference. destruct (negb _); [done|]. destruct (bool_decide_reflect (a = b)) as [->|]; cbn [negb]; [|done].
  intros H. f_equal. by eapply IH.
Qed.

Lemma differ_None {A} `{EqDecision A} (a b : A) field rest : differ a b field rest = None → a = b ∧ rest = None.
Proof. unfold differ. by destruct (bool_decide_reflect (a = b)). Qed.

(** Keys without a first difference are equal. *)
Lemma first_difference_None a b : first_difference a b = None → a = b.
Proof.
  unfold first_difference. intros H.
  repeat match type of H with differ _ _ _ _ = None => let E := fresh "E" in apply differ_None in H as [E H] end.
  destruct (allocations_difference _ _ _) eqn:Ha; [done|]. apply allocations_difference_None in Ha; [|done].
  repeat match type of H with differ _ _ _ _ = None => let E := fresh "E" in apply differ_None in H as [E H] end.
  destruct a, b; cbn in *; congruence.
Qed.

(** *** Shapes *)

Record shape_ok (plan : WindowPlan) (shape : WindowShape) (inputs : WindowInputs) : Prop := {
  sh_rows : (ws_verify_rows shape ≠ 0)%Z;
  sh_whole : wp_execution plan = Whole16 → ws_verify_rows shape = 16%Z ∧ ws_draft_rows shape = 16%Z;
  sh_position : (ws_position shape ≤ ws_max_position shape)%Z;
  sh_counts : length (wi_q_positions inputs) = Z.to_nat (ws_verify_rows shape) ∧
    length (wi_verify_positions inputs) = Z.to_nat (ws_verify_rows shape);
  sh_suffix : (Z.of_nat (length (wi_k_position_suffix inputs)) ≤ ws_logical_ctx_rows shape)%Z;
  sh_bound p : p ∈ wi_q_positions inputs ++ wi_k_position_suffix inputs ++ wi_verify_positions inputs → (p ≤ ws_max_position shape)%Z;
  sh_names name v : (name, v) ∈ wi_scalars inputs → shape_get default_shape name = None
}.

Lemma check_positions_Ok shape which l : check_positions shape (which, l) = Ok tt → ∀ p, p ∈ l → (p ≤ ws_max_position shape)%Z.
Proof.
  unfold check_positions. cbn [fst snd]. destruct (List.find _ l) eqn:Hf; [done|]. intros _ p Hp.
  apply list_elem_of_In in Hp. apply (List.find_none _ _ Hf) in Hp. lia.
Qed.

Lemma check_shape_Ok plan shape inputs : check_shape plan shape inputs = Ok tt → shape_ok plan shape inputs.
Proof.
  unfold check_shape, validate_inputs. intros H. invert_ok.
  destruct (check_positions _ (0, _)) as [[]|] eqn:E0; [|done]. destruct (check_positions _ (1, _)) as [[]|] eqn:E1; [|done].
  destruct (check_positions _ (2, _)) as [[]|] eqn:E2; [|done]. apply orb_false_iff in H3 as [H3 H3']. read_guards.
  split; try done.
  - intros Hw. rewrite bool_decide_eq_true_2 in H1 by done. cbn [andb] in H1. apply orb_false_iff in H1 as [Ha Hb]. by read_guards.
  - intros p Hp. rewrite !elem_of_app in Hp. destruct Hp as [Hp|[Hp|Hp]]; eauto using check_positions_Ok.
  - intros name v Hin. specialize (H _ Hin). cbn in H. invert_ok. unfold is_name in H. apply bool_decide_eq_false in H.
    by destruct (shape_get default_shape name) eqn:Hg; [destruct H|].
Qed.

(** ** A bound window *)

(** The pointer that the image of a node holds for an argument stays inside the
    allocation of its resource. *)
Definition pointer_inside (bindings : list Binding) (image : list Z) (offset : nat) (r : ResourceId) : Prop :=
  ∃ b address, bindings !! r = Some b ∧ take 8 (drop offset image) = le_bytes 8 address ∧
    (bi_base b ≤ address < bi_base b + bi_bytes b)%Z.

Record bound_ok (w w' : PreparedWindow) (shape : WindowShape) (live : WindowBindingKey) (inputs : WindowInputs)
    (bound : BoundWindow) : Prop := {
  bd_shared : pw_shared w' = mkShared PhaseBound (sh_epoch (pw_shared w) + 1) (sh_last_submitted_generation (pw_shared w));
  bd_token : bo_prepared bound = pw_id w ∧ bo_epoch bound = sh_epoch (pw_shared w') ∧ bo_generation bound = ws_generation shape ∧
    bo_indexed bound = None ∧ bo_exact bound = false;
  bd_key : live = pw_key w;
  bd_generation last : sh_last_submitted_generation (pw_shared w) = Some last → (last < ws_generation shape)%Z;
  bd_shape : shape_ok (pw_plan w) shape inputs;
  bd_patches entry : entry ∈ zip (wp_patches (pw_plan w)) (wp_scalar_words (pw_plan w)) →
    ∃ v, patch_value (pw_bindings w) shape inputs entry.1 v ∧ value_at (stage_of w') (place_of entry) = Some v;
  bd_words i word : kp_words (wp_program (pw_plan w)) !! i = Some word →
    (WordPlace (Some i) ∉ places (wp_patches (pw_plan w)) (wp_scalar_words (pw_plan w))) →
    if is_frame (pw_role word) then ∃ v, frame_of inputs i = Some v ∧ pw_words w' !! i = Some v
    else pw_words w' !! i = sg_words (fresh_stage w) !! i;
  bd_grids node n g : kp_nodes (wp_program (pw_plan w)) !! node = Some n → pw_grids w' !! node = Some g →
    ∀ axis, axis < 3 → (AxisPlace node axis ∉ places (wp_patches (pw_plan w)) (wp_scalar_words (pw_plan w))) → get3 g axis = get3 (kn_grid n) axis;
  bd_images node n image : kp_nodes (wp_program (pw_plan w)) !! node = Some n → pw_images w' !! node = Some image →
    encoded (pw_plan w) (pw_bindings w) (stage_of w') node n image;
  bd_pointers node n image offset r interior : kp_nodes (wp_program (pw_plan w)) !! node = Some n →
    pw_images w' !! node = Some image → (offset, ArgResource r interior) ∈ kn_args n → pointer_inside (pw_bindings w) image offset r;
  bd_steps : ∃ outs, Forall2 (resolved_as (pw_bindings w) shape inputs) (wp_steps (pw_plan w)) outs ∧ pw_resolved w' = List.concat outs;
  bd_frames : Forall (λ entry, ∃ word, kp_words (wp_program (pw_plan w)) !! entry.1 = Some word ∧ is_frame (pw_role word) = true)
    (wi_gdn_frames inputs);
  bd_delta : host_delta_of shape inputs (wp_host_delta (pw_plan w)) = Ok (bo_host_delta bound)
}.

(** What becomes of the window. *)
Definition bind_result (w : PreparedWindow) (shape : WindowShape) (live : WindowBindingKey) (inputs : WindowInputs)
    (w' : PreparedWindow) (r : result Refusal BoundWindow) : Prop :=
  match r with
  | Ok bound => bound_ok w w' shape live inputs bound
  | Err e =>
      w' = w ∧ (sh_phase (pw_shared w) = PhaseInFlight ∧ e = WindowInFlight ∨ sh_phase (pw_shared w) = PhaseQuarantined ∧ e = WindowQuarantined) ∨
      is_retired w = true ∧
        pw_shared w' = mkShared PhaseRetired (sh_epoch (pw_shared w) + 1) (sh_last_submitted_generation (pw_shared w))
  end.

(** *** Pointers *)

Lemma elem_of_mapM {A B} (f : A → option B) l k x : mapM f l = Some k → x ∈ l → ∃ y, f x = Some y ∧ y ∈ k.
Proof.
  intros H Hx. apply mapM_Some in H. apply list_elem_of_lookup in Hx as [i Hi].
  destruct (Forall2_lookup_l _ _ _ _ _ H Hi) as (y & Hy & Hf). exists y. split; [done|]. by eapply list_elem_of_lookup_2.
Qed.

Section pointers.
Context (plan : WindowPlan) (bindings : list Binding) (shape : WindowShape) (inputs : WindowInputs).
Local Abbreviation program := (wp_program plan).
Context (Hplan : plan_ok plan) (Hwf : program_wf program) (Htyped : plan_typed plan) (Hcover : bindings_cover plan bindings).
Context (Hinput : ∀ name v, input_lookup inputs shape name = Some v → in_u 64 v).
Context (Hinterior : ∀ node n offset r interior b, kp_nodes program !! node = Some n → (offset, ArgResource r interior) ∈ kn_args n →
  bindings !! r = Some b → existsb (patches_interior node offset) (wp_patches plan) = false → (interior < bi_bytes b)%Z).
Context (s0 s : Staged) (resolved : list ResolvedStep) (delta : WindowHostDelta).
Context (Hfresh : stage_fresh plan s0) (Hs : staged_ok plan bindings shape inputs s0 s resolved delta).

Lemma encoded_pointers node n image offset r interior :
  kp_nodes program !! node = Some n → encoded plan bindings s node n image → (offset, ArgResource r interior) ∈ kn_args n →
  pointer_inside bindings image offset r.
Proof using Hplan Hwf Htyped Hcover Hinput Hinterior Hfresh Hs.
  intros Hn (has & grid & interiors & fs & _ & Hint & Hseg & Hfields & Him) Harg.
  unfold node_fields in Hfields. apply bind_Some in Hfields as (args & Hargs & Hfields).
  apply bind_Some in Hfields as (hidden & _ & [= <-]).
  destruct (elem_of_mapM _ _ _ _ Hargs Harg) as (f & Hf & Hin). cbn [arg_field] in Hf.
  apply bind_Some in Hf as (b & Hb & Hf). cbn in Hb. destruct (decide _); [|done]. injection Hf as <-.
  exists b. eexists. split; [done|]. split.
  - pose proof (image_field _ _ _ _ Him (proj2 (elem_of_app _ _ _) (or_introl Hin))) as Htake. exact Htake.
  - pose proof (staged_interior plan bindings shape inputs Hplan Hwf Htyped Hinput s0 s resolved delta Hfresh Hs node n _ offset r interior
      interiors b Hn Hseg Harg Hint Hb (Hinterior _ _ _ _ _ _ Hn Harg Hb)) as H.
    unfold interior_of. cbn [ov_interiors overrides_of]. lia.
Qed.
End pointers.

(** *** The bind *)

Lemma bind_enter_cases w :
  (0 ≤ sh_epoch (pw_shared w) < u64_max)%Z →
  bind_enter w = Fail WindowInFlight ∧ sh_phase (pw_shared w) = PhaseInFlight ∨
  bind_enter w = Fail WindowQuarantined ∧ sh_phase (pw_shared w) = PhaseQuarantined ∨
  is_retired w = true ∧
    bind_enter w = Done (with_shared w (mkShared PhaseRetired (sh_epoch (pw_shared w) + 1) (sh_last_submitted_generation (pw_shared w)))).
Proof.
  intros He. unfold bind_enter, is_retired.
  assert (checked_add 64 (sh_epoch (pw_shared w)) 1 = Some (sh_epoch (pw_shared w) + 1)%Z) as ->.
  { apply checked_add_Some. split; [done|]. unfold u64_max in He. change (umax 64) with 18446744073709551615%Z. lia. }
  destruct (sh_phase (pw_shared w)); auto.
Qed.

Lemma check_generation_Ok last generation :
  check_generation last generation = Ok tt → ∀ l, last = Some l → (l < generation)%Z.
Proof. intros H l ->. cbn in H. invert_ok. lia. Qed.

(** The window that a successful bind leaves. *)
Definition bound_window (w : PreparedWindow) (s : Staged) (resolved : list ResolvedStep) (images : list (list Z)) : PreparedWindow :=
  let w1 := with_shared w (mkShared PhaseRetired (sh_epoch (pw_shared w) + 1) (sh_last_submitted_generation (pw_shared w))) in
  with_phase (with_resolved (with_images (with_staged w1 s []) images) resolved) PhaseBound.

Lemma bound_made w shape inputs s resolved delta images :
  prepared_ok w → (∀ name v, input_lookup inputs shape name = Some v → in_u 64 v) →
  check_generation (sh_last_submitted_generation (pw_shared w)) (ws_generation shape) = Ok tt →
  check_shape (pw_plan w) shape inputs = Ok tt →
  staged_ok (pw_plan w) (pw_bindings w) shape inputs (fresh_stage w) s resolved delta →
  (∀ node n image, kp_nodes (wp_program (pw_plan w)) !! node = Some n → images !! node = Some image →
     encoded (pw_plan w) (pw_bindings w) s node n image) →
  bound_ok w (bound_window w s resolved images) shape (pw_key w) inputs
    (mkBound (pw_id w) (sh_epoch (pw_shared w) + 1) (ws_generation shape) delta None false).
Proof.
  intros Hw Hin Hgen Hsh Hok Henc. pose proof (fresh_stage_fresh w Hw) as Hfresh.
  assert (stage_of (bound_window w s resolved images) = s) as Hs by (by destruct s).
  split; rewrite ?Hs; try done.
  - by apply check_generation_Ok.
  - by apply check_shape_Ok.
  - intros entry. by eapply staged_patch.
  - intros i word Hword Hout. pose proof (staged_word _ _ _ _ _ _ _ _ Hok i word Hword Hout) as H. by destruct s.
  - intros node n g Hn Hg axis Ha Hout. cbn in Hg.
    pose proof (staged_other _ _ _ _ _ _ _ _ Hok (AxisPlace node axis) Ha Hout) as H. cbn [value_at] in H.
    rewrite Hg, (fr_grids _ _ Hfresh _ _ Hn) in H. by injection H.
  - intros node n image offset r interior Hn Himage Harg. eapply encoded_pointers; try done; try apply Hw. by apply Henc.
  - exact (so_resolved _ _ _ _ _ _ _ _ Hok).
  - exact (so_known _ _ _ _ _ _ _ _ Hok).
  - exact (so_delta _ _ _ _ _ _ _ _ Hok).
Qed.

Lemma window_bind_ok w shape live inputs :
  prepared_ok w → shape_typed shape → inputs_typed inputs → (0 ≤ sh_epoch (pw_shared w) < u64_max)%Z →
  ∃ w' r, window_bind w shape live inputs = Some (w', r) ∧ prepared_ok w' ∧ same_window w w' ∧ bind_result w shape live inputs w' r.
Proof.
  intros Hw Hshape Hinputs Hepoch. unfold window_bind.
  destruct (bind_enter_cases w Hepoch) as [[-> Hp]|[[-> Hp]|[Hret ->]]].
  1: exists w, (Err WindowInFlight). 1: split_and!; try done. 1: left; auto.
  1: exists w, (Err WindowQuarantined). 1: split_and!; try done. 1: left; auto.
  set (w1 := with_shared w _).
  assert (∀ w2 e, same_window w w2 → pw_shared w2 = pw_shared w1 → images_sized (wp_program (pw_plan w)) (pw_images w2) →
    stage_sized (pw_plan w) (stage_of w2) →
    ∃ w' r, Some (w2, Err e) = Some (w', r) ∧ prepared_ok w' ∧ same_window w w' ∧ bind_result w shape live inputs w' r) as Hrefuse.
  { intros w2 e Hsame Hsh Him Hst. exists w2, (Err e). split; [done|]. split; [by apply (prepared_keeps w)|]. split; [done|]. right. by rewrite Hsh. }
  pose proof (pr_images _ Hw) as Him. pose proof (pr_stage _ Hw) as Hst.
  destruct (first_difference _ _) as [field|] eqn:Hkey; [by apply Hrefuse|]. apply first_difference_None in Hkey.
  destruct (check_generation _ _) as [[]|] eqn:Hgen; cbn [mbind result_bind]; [|by apply Hrefuse].
  destruct (check_shape _ _ _) as [[]|] eqn:Hsh; [|by apply Hrefuse].
  assert (∀ name v, input_lookup inputs shape name = Some v → in_u 64 v) as Hin by (intros name v; by apply input_lookup_typed).
  pose proof (fresh_stage_fresh w Hw) as Hfresh. change (fresh_stage w1) with (fresh_stage w).
  change (pw_plan w1) with (pw_plan w) in *. change (pw_bindings w1) with (pw_bindings w). change (pw_images w1) with (pw_images w).
  destruct (stage_all_ok (pw_plan w) (pw_bindings w) shape inputs (pr_cover _ Hw) (py_steps _ (pr_typed _ Hw)) Hin (fresh_stage w)
    (pr_plan _ Hw) (fr_sized _ _ Hfresh) (fr_interiors _ _ Hfresh)) as [Hnp Hok].
  pose proof (λ e s, stage_all_sized (pw_plan w) (pw_bindings w) shape inputs (fresh_stage w) e s (fr_sized _ _ Hfresh)) as Hfail.
  destruct (stage_all _ _ _ _ _) as [[[s resolved] delta]|[e s]|]; [|apply Hrefuse; [done..|]; destruct s; exact (Hfail _ _ eq_refl)|done].
  specialize (Hok _ _ _ eq_refl). pose proof (staged_sized _ _ _ _ _ _ _ _ Hok) as Hsized.
  change (pw_plan (with_staged w1 s [])) with (pw_plan w). change (pw_bindings (with_staged w1 s [])) with (pw_bindings w).
  change (pw_images (with_staged w1 s [])) with (pw_images w).
  pose proof (encode_images_result (pw_plan w) (pw_bindings w) s (pr_plan _ Hw) (pr_program _ Hw) Hsized
    (staged_grids _ _ _ _ (pr_program _ Hw) (pr_typed _ Hw) Hin _ _ _ _ Hfresh Hok)
    (staged_grid_of _ _ _ _ (pr_plan _ Hw) _ _ _ _ Hfresh Hok) (pw_images w) Him) as Henc.
  destruct (foldE _ (pw_images w) _) as [images|[e images]|]; [|apply Hrefuse; [done|done|exact Henc|by destruct s]|done].
  destruct Henc as [Him' Henc].
  exists (bound_window w s resolved images). eexists. split; [done|].
  split; [apply (prepared_keeps w); [done|done|exact Him'|by destruct s]|]. split; [done|].
  change (pw_key w = live) in Hkey. subst live. exact (bound_made w shape inputs s resolved delta images Hw Hin Hgen Hsh Hok Henc).
Qed.

Lemma each_ok {E A} (f : A → exec E unit) l :
  (∀ x, x ∈ l → f x ≠ Panic) → each f l ≠ Panic ∧ (each f l = Done tt → ∀ x, x ∈ l → f x = Done tt).
Proof.
  unfold each. induction l as [|x l IH]; intros Hf; cbn [foldE]; [by split; [|intros _ x Hx%elem_of_nil]|].
  destruct IH as [IH1 IH2]; [intros y Hy; apply Hf; by right|]. pose proof (Hf x ltac:(by left)) as Hx.
  destruct (f x) as [[]|e|] eqn:Hfx; cbn [mbind exec_bind]; [|done|done]. split; [done|].
  intros H y [->|Hy]%elem_of_cons; [done|by apply IH2].
Qed.

Lemma elem_of_binding_pairs n i j : (i, j) ∈ index_pairs n ↔ i < j < n.
Proof.
  unfold index_pairs. rewrite list_elem_of_bind. split.
  - intros (k & H & Hk%elem_of_seq). apply list_elem_of_fmap in H as (y & [= <- <-] & Hy%elem_of_seq). lia.
  - intros Hij. exists i. rewrite elem_of_seq, list_elem_of_fmap. split; [|lia]. exists j. rewrite elem_of_seq. split; [done|lia].
Qed.

Lemma prepare_allocation_Ok i a b :
  (0 ≤ al_base a ∧ 0 ≤ al_bytes a)%Z → prepare_allocation (i, a) = Ok b → b = binding_of a ∧ al_resource a = i ∧ binding_sound b.
Proof.
  intros Hty. unfold prepare_allocation. destruct (Nat.eqb_spec (al_resource a) i) as [<-|]; cbn [negb]; [|done].
  destruct (_ || _) eqn:Hz; [done|]. destruct (bool_decide _) eqn:Hadd; cbn [negb]; [|done]. intros [= <-].
  apply orb_false_iff in Hz as [Hb Hn]. apply bool_decide_eq_true in Hadd as [e [_ Hfit]%checked_add_Some]. read_guards.
  split_and!; try done. unfold binding_sound, u64_max. cbn. change (umax 64) with 18446744073709551615%Z in Hfit. lia.
Qed.

Section new.
Context (plan : WindowPlan) (key : WindowBindingKey).
Local Abbreviation program := (wp_program plan).
Context (Hplan : plan_ok plan) (Hwf : program_wf program) (Htyped : plan_typed plan).
Context (Halloc : Forall (λ a, 0 ≤ al_base a ∧ 0 ≤ al_bytes a)%Z (wk_allocations key)).

Lemma allocations_prepared bindings :
  mapM prepare_allocation (enumerate (wk_allocations key)) = Ok bindings →
  bindings = binding_of <$> wk_allocations key ∧ Forall binding_sound bindings ∧
  ∀ i a, wk_allocations key !! i = Some a → al_resource a = i.
Proof using Halloc.
  rewrite mapM_Ok. intros H. pose proof (Forall2_length _ _ _ H) as Hlen. rewrite length_enumerate in Hlen.
  assert (∀ i a, wk_allocations key !! i = Some a →
    ∃ b, bindings !! i = Some b ∧ b = binding_of a ∧ al_resource a = i ∧ binding_sound b) as Hall.
  { intros i a Ha. destruct (Forall2_lookup_l _ _ _ _ _ H (lookup_enumerate _ _ _ Ha)) as (b & Hb & Hok). exists b. split; [done|].
    apply prepare_allocation_Ok; [|done]. rewrite Forall_forall in Halloc. by apply Halloc, (list_elem_of_lookup_2 _ i). }
  split_and!.
  - apply list_eq_same_length with (n := length bindings); [by rewrite length_fmap|done|]. intros i b b' Hi Hb Hb'.
    rewrite list_lookup_fmap in Hb'. destruct (wk_allocations key !! i) as [a|] eqn:Ha; [|done]. injection Hb' as <-.
    destruct (Hall i a Ha) as (b1 & Hb1 & -> & _). congruence.
  - apply Forall_lookup. intros i b Hb. assert (is_Some (wk_allocations key !! i)) as [a Ha].
    { apply lookup_lt_is_Some. rewrite Hlen. by eapply lookup_lt_Some. }
    destruct (Hall i a Ha) as (b1 & Hb1 & _ & _ & Hs). congruence.
  - intros i a Ha. by destruct (Hall i a Ha) as (b & _ & _ & ? & _).
Qed.

(** *** Written allocations meet no other *)

Lemma check_pair_ok bindings i j :
  i < j < length bindings → Forall binding_sound bindings →
  check_pair (cl_writes (wp_closure plan)) bindings (i, j) ≠ Panic ∧
  (check_pair (cl_writes (wp_closure plan)) bindings (i, j) = Done tt →
   ∀ a b, bindings !! i = Some a → bindings !! j = Some b →
     i ∈ cl_writes (wp_closure plan) ∨ j ∈ cl_writes (wp_closure plan) → apart (range_of a) (range_of b)).
Proof using Type.
  intros [Hij Hj] Hsound. assert (is_Some (bindings !! i)) as [a Ha] by (apply lookup_lt_is_Some; lia).
  assert (is_Some (bindings !! j)) as [b Hb] by (by apply lookup_lt_is_Some). unfold check_pair. rewrite Ha, Hb.
  cbn [unwrap mbind exec_bind]. split; [by destruct (_ && _)|]. intros H a' b' [= <-] [= <-] Hw.
  rewrite Forall_lookup in Hsound. destruct (Hsound _ _ Ha) as (? & ? & ?), (Hsound _ _ Hb) as (? & ? & ?).
  rewrite !wrap_small in H by lia. destruct (_ && (_ || _)) eqn:Ht; [done|]. apply andb_false_iff in Ht as [Ht|Ht].
  - intros x Hx Hx'. unfold in_range, range_of in *. cbn in *. apply andb_false_iff in Ht as [Ht|Ht]; lia.
  - apply orb_false_iff in Ht as [Hni%bool_decide_eq_false Hnj%bool_decide_eq_false]. tauto.
Qed.

(** *** Authored pointers *)

Lemma check_interior_ok bindings node n offset arg :
  length bindings = length (kp_resources program) → n ∈ kp_nodes program → (offset, arg) ∈ kn_args n →
  check_interior (wp_patches plan) bindings node (offset, arg) ≠ Panic ∧
  (check_interior (wp_patches plan) bindings node (offset, arg) = Done tt →
   ∀ r interior b, arg = ArgResource r interior → bindings !! r = Some b →
     existsb (patches_interior node offset) (wp_patches plan) = false → (interior < bi_bytes b)%Z).
Proof using Hwf.
  intros Hlen Hn Harg. unfold check_interior. destruct arg as [bytes|r interior|id]; [done| |done].
  destruct (pf_args _ Hwf _ _ _ _ Hn Harg) as [Hr _]. rewrite <-Hlen in Hr. apply lookup_lt_is_Some in Hr as [b Hb].
  rewrite Hb. cbn [unwrap mbind exec_bind]. split; [by destruct (_ && _)|]. intros H r' interior' b' [= <- <-] Hb' Hno.
  rewrite Hno in H. cbn [negb andb] in H. destruct (Z.leb_spec (bi_bytes b) interior); [done|]. congruence.
Qed.

Lemma cover_prepared bindings :
  length bindings = length (kp_resources program) → Forall binding_sound bindings → bindings_cover plan bindings.
Proof using Hwf Hplan.
  intros Hlen Hs. split.
  - intros i b Hb. rewrite Forall_lookup in Hs. by eapply Hs.
  - intros node n offset r interior Hn%list_elem_of_lookup_2 Harg. apply lookup_lt_is_Some. rewrite Hlen. by eapply pf_args.
  - intros step r Hstep Hr. apply lookup_lt_is_Some. rewrite Hlen. by eapply (proj2 (pk_steps _ Hplan)).
Qed.

Lemma prepared_new_ok id :
  prepared_new id plan key ≠ Panic ∧
  ∀ w, prepared_new id plan key = Done w →
    prepared_ok w ∧ pw_id w = id ∧ pw_plan w = plan ∧ pw_key w = key ∧ pw_shared w = mkShared PhaseRetired 0 None.
Proof using Hwf Hplan Htyped Halloc.
  unfold prepared_new. destruct (Nat.eqb_spec (length (wk_allocations key)) (length (kp_resources program))) as [Hcount|]; cbn [negb]; [|done].
  destruct (mapM prepare_allocation _) as [bindings|e] eqn:Hb; cbn [try_ mbind exec_bind]; [|done].
  apply allocations_prepared in Hb as (Hkey & Hsound & Hres).
  assert (length bindings = length (kp_resources program)) as Hlen by (by rewrite Hkey, length_fmap).
  destruct (each_ok (check_pair (cl_writes (wp_closure plan)) bindings) (index_pairs (length bindings))) as [Hnp1 Hpairs].
  { intros [i j] Hij%elem_of_binding_pairs. by apply check_pair_ok. }
  destruct (each _ (index_pairs _)) as [[]|e|]; cbn [mbind exec_bind]; [|done|done]. specialize (Hpairs eq_refl).
  assert (∀ node n, (node, n) ∈ enumerate (kp_nodes program) →
    each (check_interior (wp_patches plan) bindings node) (kn_args n) ≠ Panic ∧
    (each (check_interior (wp_patches plan) bindings node) (kn_args n) = Done tt →
       ∀ entry, entry ∈ kn_args n → check_interior (wp_patches plan) bindings node entry = Done tt)) as Hnode.
  { intros node n Hn%elem_of_enumerate%list_elem_of_lookup_2. apply each_ok. intros [offset arg] Harg. by eapply check_interior_ok. }
  destruct (each_ok (λ '(node, n), each (check_interior (wp_patches plan) bindings node) (kn_args n)) (enumerate (kp_nodes program))) as [Hnp2 Hargs].
  { intros [node n] Hn. by apply Hnode. }
  destruct (each _ (enumerate _)) as [[]|e|]; cbn [mbind exec_bind]; [|done|done]. specialize (Hargs eq_refl).
  split; [done|]. intros w [= <-]. split; [|done]. split; cbn; try done.
  - by apply cover_prepared.
  - intros i j a b Hne Ha Hbj Hw. apply lookup_lt_Some in Ha as Hia, Hbj as Hjb. destruct (Nat.lt_ge_cases i j).
    + eapply check_pair_ok; [split; [done|exact Hjb]|done|by apply Hpairs, elem_of_binding_pairs|done|done|by left].
    + assert (apart (range_of b) (range_of a)) as Hba; [|by intros x Hx Hx'; apply (Hba x)].
      eapply (check_pair_ok bindings j i); [lia|done|apply Hpairs, elem_of_binding_pairs; lia|done|done|by right].
  - intros node n offset r interior b Hn Harg Hbr Hno.
    assert ((node, n) ∈ enumerate (kp_nodes program)) as Hin by (by apply elem_of_enumerate).
    pose proof (proj2 (Hnode _ _ Hin) (Hargs _ Hin) _ Harg) as Hchk. apply list_elem_of_lookup_2 in Hn.
    by eapply check_interior_ok.
  - split; [apply length_fmap|]. intros node n image Hn Him. rewrite list_lookup_fmap, Hn in Him. injection Him as <-. apply length_replicate.
  - split; cbn; [apply length_fmap|apply length_fmap|apply length_replicate].
Qed.
End new.
