(* ===== verification/RailWindowRun.v ===== *)
(** * The life of a window

    A client that binds, proves, certifies, submits, waits and drops its tokens
    in any order, and what the queue may still be reading meanwhile.
    The window cache: at most 32 windows under distinct keys; only retired ones
    leave, the least recently used first. *)

From stdpp Require Import gmap.
From S2P Require Import Prelude Packet RailCopy RailKernels RailKernelsOk RailSealed RailWriter RailWriterOk RailPlan RailPlanOk RailWindow RailWindowOk RailWindowBind.

(** ** The world *)

(** What a queue was given: the image and the grid of every node, and the
    resolved steps. *)
Definition given : Type := list (list Z * arr3) * list ResolvedStep.
Definition given_of (w : PreparedWindow) : given := (node_images w, pw_resolved w).

(** The window, the tokens its clients hold, the sealed positions, the
    generations that the queue accepted (last first), and what the queue may
    still be reading. *)
Record window_world := mkWorld {
  ww_window : PreparedWindow;
  ww_bounds : list BoundWindow;
  ww_flight : list Submission;
  ww_buffers : list Inner;
  ww_log : list Z;
  ww_reading : option given
}.

(** A queue whose quiescence is not known may go on reading. *)
Definition reading_after (q : Quiescence) (g : option given) : option given := match q with Proven => None | Unknown => g end.

Section run.
Context (sha256 : list Z → list Z).

Inductive window_step : window_world → window_world → Prop :=
| step_bind w bs fs ps log g shape live inputs w' r :
    shape_typed shape → inputs_typed inputs → window_bind w shape live inputs = Some (w', r) →
    window_step (mkWorld w bs fs ps log g) (mkWorld w' (match r with Ok b => b :: bs | Err _ => bs end) fs ps log g)
| step_attach w bs1 b bs2 fs ps log g h p writers b' p' :
    ps !! h = Some p → attach_indexed_witness sha256 w b h p writers = Done (b', p') →
    window_step (mkWorld w (bs1 ++ b :: bs2) fs ps log g) (mkWorld w (bs1 ++ b' :: bs2) fs (<[h:=p']> ps) log g)
| step_certify w bs1 b bs2 fs ps log g b' :
    certify_exact w b = Ok b' →
    window_step (mkWorld w (bs1 ++ b :: bs2) fs ps log g) (mkWorld w (bs1 ++ b' :: bs2) fs ps log g)
| step_submit w bs1 b bs2 fs ps log g answer w' ps' s :
    window_submit sha256 w b ps answer = Some (w', ps', Ok s) →
    window_step (mkWorld w (bs1 ++ b :: bs2) fs ps log g)
      (mkWorld w' (bs1 ++ bs2) (s :: fs) ps' (bo_generation b :: log) (Some (given_of w)))
| step_submit_failed w bs1 b bs2 fs ps log g answer w' ps' m q :
    window_submit sha256 w b ps answer = Some (w', ps', Err (SubmitFailed m q)) →
    window_step (mkWorld w (bs1 ++ b :: bs2) fs ps log g)
      (mkWorld w' (bs1 ++ bs2) fs ps' log (reading_after q (Some (given_of w))))
| step_submit_refused w bs1 b bs2 fs ps log g answer w' ps' e :
    window_submit sha256 w b ps answer = Some (w', ps', Err e) → (∀ m q, e ≠ SubmitFailed m q) →
    window_step (mkWorld w (bs1 ++ b :: bs2) fs ps log g) (mkWorld w' (bs1 ++ bs2) fs ps' log g)
| step_complete w bs fs1 s fs2 ps log g answer w' ps' r :
    submission_complete w s ps answer = (w', ps', r) →
    window_step (mkWorld w bs (fs1 ++ s :: fs2) ps log g)
      (mkWorld w' bs (fs1 ++ fs2) ps' log (match answer with Ok _ => None | Err f => reading_after (qf_quiescence f) g end))
| step_drop_bound w bs1 b bs2 fs ps log g :
    window_step (mkWorld w (bs1 ++ b :: bs2) fs ps log g) (mkWorld w (bs1 ++ bs2) fs ps log g)
| step_drop_submission w bs fs1 s fs2 ps log g :
    window_step (mkWorld w bs (fs1 ++ s :: fs2) ps log g) (mkWorld w bs (fs1 ++ fs2) ps log g)
| step_positions w bs fs ps log g ps' :
    length ps' = length ps → window_step (mkWorld w bs fs ps log g) (mkWorld w bs fs ps' log g).

(** From a prepared window that was never used. *)
Definition window_start (w : PreparedWindow) (ps : list Inner) : window_world := mkWorld w [] [] ps [] None.
Definition window_fresh (w : PreparedWindow) : Prop := prepared_ok w ∧ pw_shared w = mkShared PhaseRetired 0 None.
Definition window_reaches (u : window_world) : Prop := ∃ w ps, window_fresh w ∧ rtc window_step (window_start w ps) u.

(** ** The invariant *)

(** The window is as the bind that gave [b] left it. *)
Definition as_bound (w : PreparedWindow) (b : BoundWindow) : Prop :=
  ∃ w0 shape inputs, bound_ok w0 w shape (pw_key w) inputs
    (mkBound (bo_prepared b) (bo_epoch b) (bo_generation b) (bo_host_delta b) None false) ∧ same_window w0 w.

(** A token that a submit would take. *)
Definition current (w : PreparedWindow) (b : BoundWindow) : Prop := bo_epoch b = sh_epoch (pw_shared w) ∧ sh_phase (pw_shared w) = PhaseBound.

(** Tokens: distinct epochs, none later than the window's. *)
Definition tokens_ok (epoch : Z) (bs : list BoundWindow) : Prop := NoDup (bo_epoch <$> bs) ∧ Forall (λ b, bo_epoch b ≤ epoch)%Z bs.

Record window_inv (u : window_world) : Prop := {
  wi_prepared : prepared_ok (ww_window u);
  wi_epoch : (0 ≤ sh_epoch (pw_shared (ww_window u)) ≤ u64_max)%Z;
  wi_tokens : tokens_ok (sh_epoch (pw_shared (ww_window u))) (ww_bounds u);
  wi_current b : b ∈ ww_bounds u → current (ww_window u) b → as_bound (ww_window u) b;
  wi_handles b v h : b ∈ ww_bounds u → bo_indexed b = Some (v, h) → h < length (ww_buffers u);
  wi_flight : length (ww_flight u) ≤ 1 ∧
    ∀ s, s ∈ ww_flight u → sh_phase (pw_shared (ww_window u)) = PhaseInFlight ∧ head (ww_log u) = Some (su_generation s);
  wi_reading : match sh_phase (pw_shared (ww_window u)) with
    | PhaseRetired | PhaseBound => ww_reading u = None
    | PhaseInFlight => ww_reading u = Some (given_of (ww_window u))
    | PhaseQuarantined => ww_reading u = Some (given_of (ww_window u))
    end;
  wi_log : head (ww_log u) = sh_last_submitted_generation (pw_shared (ww_window u)) ∧ StronglySorted (λ a b, b < a)%Z (ww_log u)
}.

(** ** What the calls do *)

Lemma bind_exhausted w shape live inputs w' r :
  sh_epoch (pw_shared w) = u64_max → window_bind w shape live inputs = Some (w', r) → w' = w ∧ ∃ e, r = Err e.
Proof using Type.
  intros He. unfold window_bind, bind_enter. rewrite He. destruct (sh_phase (pw_shared w)); cbn; try done.
  all: intros [= <- <-]; eauto.
Qed.

Lemma attach_Done w b h p writers b' p' :
  attach_indexed_witness sha256 w b h p writers = Done (b', p') →
  current w b ∧ ∃ positions v, wp_indexed_positions (pw_plan w) = Some positions ∧
    bind_writers (bind_program sha256 (bind_inputs w b positions writers)) (pw_id w) p = Done (p', v) ∧
    b' = mkBound (bo_prepared b) (bo_epoch b) (bo_generation b) (bo_host_delta b) (Some (v, h)) (bo_exact b).
Proof using Type.
  unfold attach_indexed_witness, bound_live. destruct (_ && _) eqn:Hlive; cbn [negb]; [|done].
  apply andb_true_iff in Hlive as [Hlive Hp]. apply andb_true_iff in Hlive as [_ He]. read_guards.
  destruct (wp_indexed_positions _) as [positions|]; [|done]. destruct (bind_writers _ _ _) as [[p1 v]|e|] eqn:Hb; [|done|done].
  intros [= <- <-]. split; [done|]. by exists positions, v.
Qed.

Lemma certify_Ok w b b' :
  certify_exact w b = Ok b' → b' = mkBound (bo_prepared b) (bo_epoch b) (bo_generation b) (bo_host_delta b) (bo_indexed b) true.
Proof using Type. unfold certify_exact. destruct (negb _); [done|]. destruct (_ && _); [done|]. by intros [= <-]. Qed.

Lemma submit_sealed_error w b ps e : submit_sealed sha256 w b ps = Fail e → ∀ m q, e ≠ SubmitFailed m q.
Proof using Type.
  unfold submit_sealed, indexed_err. destruct (wp_indexed_positions _); [|done].
  destruct (bo_indexed b) as [[v h]|]; [|destruct (kp_nodes _ !! _); cbn; by intros [= <-]].
  destruct (matches_window _ _ _ _ _ _); cbn; [|by intros [= <-]]. destruct (negb _); [by intros [= <-]|].
  destruct (ps !! h) as [p|]; cbn; [|done]. destruct (check_witness p v); cbn; [|by intros [= <-]].
  destruct (mark_submitted p v); cbn; [done|by intros [= <-]].
Qed.

Lemma length_update_sealed f sealed ps : length (update_sealed f sealed ps) = length ps.
Proof using Type. destruct sealed; [apply length_alter|done]. Qed.

(** A witness is that of this window, this bind and the images it is given. *)
Record witness_for (w : PreparedWindow) (b : BoundWindow) (v : IndexedBindWitness) : Prop := {
  wf_window : iw_window v = pw_id w;
  wf_generation : iw_shape_generation v = bo_generation b;
  wf_nodes : bw_node <$> iw_writers v = conditional_nodes (wp_program (pw_plan w));
  wf_writers wr : wr ∈ iw_writers v → ∃ image, pw_images w !! bw_node wr = Some image ∧ sha256 image = bw_kernarg_digest wr ∧
    grid_list <$> pw_grids w !! bw_node wr = Some (bw_grid wr)
}.

Lemma matches_window_Ok w b v :
  matches_window sha256 v (pw_id w) (bo_generation b) (pw_images w) (pw_grids w) = Ok tt →
  bw_node <$> iw_writers v = conditional_nodes (wp_program (pw_plan w)) → witness_for w b v.
Proof using Type.
  unfold matches_window, check_bound. intros H Hnodes. invert_ok. read_guards. split; [done|done|done|].
  intros wr Hwr. specialize (H wr Hwr). cbn in H. invert_ok. read_guards. by exists x1.
Qed.

Lemma submit_sealed_Done w b ps ps' sealed :
  submit_sealed sha256 w b ps = Done (ps', sealed) →
  match wp_indexed_positions (pw_plan w) with
  | None => ps' = ps ∧ sealed = None
  | Some _ => ∃ v h p p', bo_indexed b = Some (v, h) ∧ sealed = Some h ∧ witness_for w b v ∧ ps !! h = Some p ∧
      mark_submitted p v = Ok p' ∧ ps' = <[h:=p']> ps
  end.
Proof using Type.
  unfold submit_sealed, indexed_err. destruct (wp_indexed_positions _); [|by intros [= <- <-]].
  destruct (bo_indexed b) as [[v h]|]; [|destruct (kp_nodes _ !! _); by cbn].
  destruct (matches_window _ _ _ _ _ _) as [[]|] eqn:Hm; cbn; [|done]. destruct (bool_decide _) eqn:Hn; cbn; [|done].
  apply bool_decide_eq_true in Hn.
  destruct (ps !! h) as [p|] eqn:Hp; cbn; [|done]. destruct (check_witness p v); cbn; [|done].
  destruct (mark_submitted p v) as [p'|] eqn:Hmark; cbn; [|done]. intros [= <- <-]. exists v, h, p, p'.
  split_and!; try done. by apply matches_window_Ok.
Qed.

Lemma submit_sealed_length w b ps ps' sealed : submit_sealed sha256 w b ps = Done (ps', sealed) → length ps' = length ps.
Proof using Type.
  intros H%submit_sealed_Done. destruct (wp_indexed_positions _); [|by destruct H as [-> _]].
  destruct H as (v & h & p & p' & _ & _ & _ & _ & _ & ->). apply length_insert.
Qed.

Lemma window_submit_cases w b ps answer w' ps' r :
  window_submit sha256 w b ps answer = Some (w', ps', r) →
  length ps' = length ps ∧
  match r with
  | Ok s => current w b ∧ bo_prepared b = pw_id w ∧ su_generation s = bo_generation b ∧
      w' = with_shared w (mkShared PhaseInFlight (sh_epoch (pw_shared w)) (Some (bo_generation b)))
  | Err (SubmitFailed m q) => current w b ∧ w' = with_phase w (phase_after q)
  | Err _ => w' = w ∧ ps' = ps
  end.
Proof using Type.
  unfold window_submit. assert (∀ e, check_submit w b = Err e → ∀ m q, e ≠ SubmitFailed m q) as Hne.
  { intros e. unfold check_submit. destruct (_ || _); [by intros [= <-]|]. by destruct (sh_phase _); intros [= <-]. }
  destruct (check_submit w b) as [[]|e] eqn:Hchk.
  2:{ intros [= <- <- <-]. split; [done|]. specialize (Hne e eq_refl). destruct e; try done. by destruct (Hne message quiescence). }
  assert (current w b ∧ bo_prepared b = pw_id w) as [Hcur Hid].
  { unfold check_submit in Hchk. destruct (_ || _) eqn:Hor; [done|]. apply orb_false_iff in Hor as [H1 H2]. read_guards.
    unfold current. by destruct (sh_phase (pw_shared w)). }
  destruct (submit_sealed sha256 w b ps) as [[ps1 sealed]|e|] eqn:Hs; [|intros [= <- <- <-]|done].
  2:{ split; [done|]. pose proof (submit_sealed_error _ _ _ _ Hs) as H. destruct e; try done. by destruct (H message quiescence). }
  apply submit_sealed_length in Hs. destruct answer as [[]|f]; intros [= <- <- <-]; [done|].
  split; [by rewrite length_update_sealed|done].
Qed.

(** ** The invariant is kept *)

Lemma prepared_shared w sh : prepared_ok w → prepared_ok (with_shared w sh).
Proof using Type. intros Hw. apply (prepared_keeps w); [done|done|apply Hw|apply Hw]. Qed.

Lemma tokens_drop epoch bs1 b bs2 : tokens_ok epoch (bs1 ++ b :: bs2) → tokens_ok epoch (bs1 ++ bs2).
Proof using Type.
  intros [Hn Hle]. split; [|rewrite Forall_app, Forall_cons in Hle; apply Forall_app; tauto].
  rewrite <-Permutation_middle, fmap_cons in Hn. by apply NoDup_cons in Hn as [_ Hn].
Qed.

Lemma tokens_change epoch bs1 b b' bs2 :
  bo_epoch b' = bo_epoch b → tokens_ok epoch (bs1 ++ b :: bs2) → tokens_ok epoch (bs1 ++ b' :: bs2).
Proof using Type.
  intros He [Hn Hle]. split.
  - rewrite fmap_app, fmap_cons in *. by rewrite He.
  - rewrite Forall_app, Forall_cons in *. by rewrite He.
Qed.

Lemma tokens_later epoch epoch' bs : (epoch ≤ epoch')%Z → tokens_ok epoch bs → tokens_ok epoch' bs.
Proof using Type. intros Hle [Hn H]. split; [done|]. eapply Forall_impl; [exact H|]. cbn. lia. Qed.

Lemma tokens_new epoch b bs : (bo_epoch b = epoch + 1)%Z → tokens_ok epoch bs → tokens_ok (epoch + 1) (b :: bs).
Proof using Type.
  clear sha256. intros He Ht. split.
  - rewrite fmap_cons. apply NoDup_cons. split; [|apply Ht]. intros (b' & Heq & Hin)%list_elem_of_fmap.
    destruct Ht as [_ Hle]. rewrite Forall_forall in Hle. specialize (Hle _ Hin). cbn in Hle. lia.
  - apply Forall_cons. split; [cbn; lia|]. eapply tokens_later, Ht. lia.
Qed.

Lemma bind_retired w shape live inputs w' b : window_bind w shape live inputs = Some (w', Ok b) → is_retired w = true.
Proof using Type. unfold window_bind, bind_enter, is_retired. by destruct (sh_phase (pw_shared w)). Qed.

(** A window that may be patched is in no queue. *)
Lemma inv_retired u : window_inv u → is_retired (ww_window u) = true → ww_flight u = [] ∧ ww_reading u = None.
Proof using Type.
  intros [_ _ _ _ _ [_ Hf] Hr _] Hret. unfold is_retired in Hret. split.
  - destruct (ww_flight u) as [|s fs]; [done|]. destruct (Hf s) as [Hp _]; [by left|]. by rewrite Hp in Hret.
  - by destruct (sh_phase (pw_shared (ww_window u))).
Qed.

(** A bind of a window in no queue. *)
Lemma inv_rebound w bs fs ps log g w' bs' :
  window_inv (mkWorld w bs fs ps log g) → is_retired w = true → prepared_ok w' → is_retired w' = true →
  (0 ≤ sh_epoch (pw_shared w') ≤ u64_max)%Z → sh_last_submitted_generation (pw_shared w') = sh_last_submitted_generation (pw_shared w) →
  tokens_ok (sh_epoch (pw_shared w')) bs' → (∀ b, b ∈ bs' → current w' b → as_bound w' b) →
  (∀ b, b ∈ bs' → b ∈ bs ∨ bo_indexed b = None) → window_inv (mkWorld w' bs' fs ps log g).
Proof using Type.
  intros Hinv Hret Hw' Hret' He Hlast Ht Hc Hh. destruct (inv_retired _ Hinv Hret) as [Hf Hr]. cbn in Hf, Hr. subst fs g.
  destruct Hinv as [_ _ _ _ Hhand _ _ Hl]. cbn in *. split; cbn; try done.
  - intros b v h Hb Hi. destruct (Hh b Hb) as [Hin|Hno]; [by eapply Hhand|congruence].
  - split; [lia|]. by intros s Hs%elem_of_nil.
  - unfold is_retired in Hret'. by destruct (sh_phase (pw_shared w')).
  - by rewrite Hlast.
Qed.

Lemma inv_bind w bs fs ps log g shape live inputs w' r :
  window_inv (mkWorld w bs fs ps log g) → shape_typed shape → inputs_typed inputs → window_bind w shape live inputs = Some (w', r) →
  window_inv (mkWorld w' (match r with Ok b => b :: bs | Err _ => bs end) fs ps log g).
Proof using Type.
  intros Hinv Hsh Hin Hb. destruct (decide (sh_epoch (pw_shared w) = u64_max)) as [Hmax|Hmax].
  { destruct (bind_exhausted _ _ _ _ _ _ Hmax Hb) as [-> [e ->]]. done. }
  pose proof (wi_epoch _ Hinv) as He. pose proof (wi_tokens _ Hinv) as Ht. cbn in He, Ht.
  destruct (window_bind_ok w shape live inputs (wi_prepared _ Hinv) Hsh Hin ltac:(lia)) as (w1 & r1 & Hb1 & Hw' & Hsame & Hres).
  rewrite Hb in Hb1. injection Hb1 as <- <-. destruct r as [b|e].
  - pose proof (bind_retired _ _ _ _ _ _ Hb) as Hret. pose proof (bd_shared _ _ _ _ _ _ Hres) as Hs.
    destruct (bd_token _ _ _ _ _ _ Hres) as (H1 & H2 & H3 & H4 & H5). rewrite Hs in H2. cbn in H2.
    eapply inv_rebound; [exact Hinv|done|done|by unfold is_retired; rewrite Hs|rewrite Hs; cbn; lia|by rewrite Hs| | |].
    + rewrite Hs. by apply tokens_new.
    + intros b' [->|Hb']%elem_of_cons [Hcur _].
      * exists w, shape, inputs. split; [|done]. pose proof (bd_key _ _ _ _ _ _ Hres) as Hk. destruct Hsame as (_ & _ & Hk' & _).
        rewrite Hk', <-Hk. destruct b; cbn in *. by subst.
      * rewrite Hs in Hcur. cbn in Hcur. destruct Ht as [_ Hle]. rewrite Forall_forall in Hle. specialize (Hle _ Hb'). cbn in Hle. lia.
    + intros b' [->|Hb']%elem_of_cons; [by right|by left].
  - destruct Hres as [[-> _]|[Hret Hs]]; [done|].
    eapply inv_rebound; [exact Hinv|done|done|by unfold is_retired; rewrite Hs|rewrite Hs; cbn; lia|by rewrite Hs| | |by left].
    + rewrite Hs. cbn. eapply tokens_later, Ht. lia.
    + intros b _ [_ Hp]. by rewrite Hs in Hp.
Qed.

Lemma inv_token w bs1 b b' bs2 fs ps ps' log g :
  window_inv (mkWorld w (bs1 ++ b :: bs2) fs ps log g) → bo_epoch b' = bo_epoch b → (as_bound w b → as_bound w b') →
  (∀ v h, bo_indexed b' = Some (v, h) → bo_indexed b = Some (v, h) ∨ h < length ps) → length ps' = length ps →
  window_inv (mkWorld w (bs1 ++ b' :: bs2) fs ps' log g).
Proof using Type.
  clear sha256. intros [Hw He Ht Hc Hh Hf Hr Hl] Hep Has Hi Hlen. cbn in *. split; cbn; try done.
  - by eapply tokens_change.
  - intros b0 Hb0 Hcur. rewrite elem_of_app, elem_of_cons in Hb0. destruct Hb0 as [Hb0|[->|Hb0]].
    + apply Hc; [set_solver|done].
    + apply Has, Hc; [set_solver|]. unfold current in *. by rewrite <-Hep.
    + apply Hc; [set_solver|done].
  - intros b0 v h Hb0 Hin. rewrite Hlen. rewrite elem_of_app, elem_of_cons in Hb0. destruct Hb0 as [Hb0|[->|Hb0]].
    + eapply Hh; [|done]. set_solver.
    + destruct (Hi _ _ Hin); [|done]. eapply Hh; [|done]. set_solver.
    + eapply Hh; [|done]. set_solver.
Qed.

Lemma inv_drop w bs1 b bs2 fs ps log g :
  window_inv (mkWorld w (bs1 ++ b :: bs2) fs ps log g) → window_inv (mkWorld w (bs1 ++ bs2) fs ps log g).
Proof using Type.
  clear sha256. intros [Hw He Ht Hc Hh Hf Hr Hl]. cbn in *. split; cbn; try done.
  - by eapply tokens_drop.
  - intros b0 Hb0. apply Hc. set_solver.
  - intros b0 v h Hb0. apply Hh. set_solver.
Qed.

(** The window leaves the phase [Bound], or the submission ends. *)
Lemma inv_phase w bs fs ps log g sh fs' ps' log' g' :
  window_inv (mkWorld w bs fs ps log g) → length ps' = length ps → sh_epoch sh = sh_epoch (pw_shared w) →
  sh_phase sh ≠ PhaseBound → length fs' ≤ 1 → (∀ s, s ∈ fs' → sh_phase sh = PhaseInFlight ∧ head log' = Some (su_generation s)) →
  (g' = if decide (sh_phase sh = PhaseRetired) then None else Some (given_of w)) →
  head log' = sh_last_submitted_generation sh → StronglySorted (λ a b, b < a)%Z log' →
  window_inv (mkWorld (with_shared w sh) bs fs' ps' log' g').
Proof using Type.
  clear sha256. intros [Hw He Ht Hc Hh Hf Hr Hl] Hlen Hep Hph Hfs Hfl Hg Hhd Hsort. cbn in *. split; cbn; rewrite ?Hep; try done.
  - by apply prepared_shared.
  - by intros b _ [_ Hcur].
  - intros b v h. rewrite Hlen. apply Hh.
  - subst g'. by destruct (sh_phase sh).
Qed.

Lemma log_later log last generation :
  head log = last → StronglySorted (λ a b, b < a)%Z log → (∀ l, last = Some l → l < generation)%Z →
  StronglySorted (λ a b, b < a)%Z (generation :: log).
Proof using Type.
  clear sha256. intros Hh Hs Hl. constructor; [done|]. destruct log as [|x log]; [done|]. cbn in Hh. subst.
  apply StronglySorted_inv in Hs as [_ Hx]. specialize (Hl x eq_refl). apply Forall_cons. split; [done|].
  eapply Forall_impl; [exact Hx|]. cbn. lia.
Qed.

Lemma inv_submit w bs1 b bs2 fs ps log g answer w' ps' s :
  window_inv (mkWorld w (bs1 ++ b :: bs2) fs ps log g) → window_submit sha256 w b ps answer = Some (w', ps', Ok s) →
  window_inv (mkWorld w' (bs1 ++ bs2) (s :: fs) ps' (bo_generation b :: log) (Some (given_of w))).
Proof using Type.
  intros Hinv (Hlen & Hcur & _ & Hgen & ->)%window_submit_cases.
  destruct (wi_current _ Hinv b) as (w0 & shape & inputs & Hb & Hsame); [cbn; set_solver|done|].
  destruct (inv_retired _ Hinv) as [Hf _]; [unfold is_retired; cbn; by rewrite (proj2 Hcur)|]. cbn in Hf. subst fs.
  pose proof (bd_shared _ _ _ _ _ _ Hb) as Hsh. pose proof (bd_generation _ _ _ _ _ _ Hb) as Hlt. cbn in Hsh.
  pose proof (wi_log _ Hinv) as [Hhd Hsort]. cbn in Hhd, Hsort.
  eapply inv_phase; [eapply inv_drop, Hinv|done|done|done|by cbn|..]; try done.
  - intros s' Hs'. apply list_elem_of_singleton in Hs' as ->. split; [done|]. cbn. by rewrite Hgen.
  - pose proof (bd_token _ _ _ _ _ _ Hb) as (_ & _ & H3 & _). cbn in H3.
    eapply log_later; [done|done|]. rewrite Hsh. cbn. rewrite H3. exact Hlt.
Qed.

Lemma inv_submit_failed w bs1 b bs2 fs ps log g answer w' ps' m q :
  window_inv (mkWorld w (bs1 ++ b :: bs2) fs ps log g) →
  window_submit sha256 w b ps answer = Some (w', ps', Err (SubmitFailed m q)) →
  window_inv (mkWorld w' (bs1 ++ bs2) fs ps' log (reading_after q (Some (given_of w)))).
Proof using Type.
  intros Hinv (Hlen & Hcur & ->)%window_submit_cases.
  destruct (inv_retired _ Hinv) as [Hf _]; [unfold is_retired; cbn; by rewrite (proj2 Hcur)|]. cbn in Hf. subst fs.
  pose proof (wi_log _ Hinv) as [Hhd Hsort]. cbn in Hhd, Hsort. unfold with_phase.
  eapply inv_phase; [eapply inv_drop, Hinv|done|done|by destruct q|by cbn; lia|by intros s Hs%elem_of_nil|by destruct q|done|done].
Qed.

Lemma inv_complete w bs fs1 s fs2 ps log g answer w' ps' r :
  window_inv (mkWorld w bs (fs1 ++ s :: fs2) ps log g) → submission_complete w s ps answer = (w', ps', r) →
  window_inv (mkWorld w' bs (fs1 ++ fs2) ps' log
    (match answer with Ok _ => None | Err f => reading_after (qf_quiescence f) g end)).
Proof using Type.
  clear sha256. intros Hinv Hc. pose proof (wi_log _ Hinv) as [Hhd Hsort]. cbn in Hhd, Hsort.
  destruct (wi_flight _ Hinv) as [Hone Hfl]. cbn in Hone, Hfl. destruct (Hfl s) as [Hp _]; [set_solver|].
  assert (fs1 = [] ∧ fs2 = []) as [-> ->].
  { rewrite length_app in Hone. cbn in Hone. split; apply nil_length_inv; lia. }
  pose proof (wi_reading _ Hinv) as Hr. cbn in Hr. rewrite Hp in Hr. subst g.
  unfold submission_complete, with_phase in Hc. destruct answer as [[]|f]; injection Hc as <- <- _.
  - eapply inv_phase; [exact Hinv|apply length_update_sealed|done|done|by cbn; lia|by intros s' Hs%elem_of_nil|done|done|done].
  - eapply inv_phase; [exact Hinv|apply length_update_sealed|done|by destruct (qf_quiescence f)|by cbn; lia|by intros s' Hs%elem_of_nil| |done|done].
    by destruct (qf_quiescence f).
Qed.

Lemma inv_step u u' : window_inv u → window_step u u' → window_inv u'.
Proof using Type.
  intros Hinv Hstep. destruct Hstep as [w bs fs ps log g shape live inputs w' r Hs Hi Hb
    |w bs1 b bs2 fs ps log g h p writers b' p' Hp Ha|w bs1 b bs2 fs ps log g b' Hc|w bs1 b bs2 fs ps log g answer w' ps' s Hs
    |w bs1 b bs2 fs ps log g answer w' ps' m q Hs|w bs1 b bs2 fs ps log g answer w' ps' e Hs Hne
    |w bs fs1 s fs2 ps log g answer w' ps' r Hc|w bs1 b bs2 fs ps log g|w bs fs1 s fs2 ps log g|w bs fs ps log g ps' Hlen].
  - by eapply inv_bind.
  - apply attach_Done in Ha as (_ & positions & v & _ & _ & ->).
    eapply inv_token; [exact Hinv|done|done| |apply length_insert]. intros v' h' [= <- <-]. right. by eapply lookup_lt_Some.
  - apply certify_Ok in Hc as ->. eapply inv_token; [exact Hinv|done|done|by left|done].
  - by eapply inv_submit.
  - by eapply inv_submit_failed.
  - apply window_submit_cases in Hs as [_ Hs].
    assert (w' = w ∧ ps' = ps) as [-> ->] by (destruct e; try done; by destruct (Hne message quiescence)). by eapply inv_drop.
  - by eapply inv_complete.
  - by eapply inv_drop.
  - destruct Hinv as [Hw He Ht Hc Hh [Hone Hf] Hr Hl]. cbn in *. split; cbn; try done. split.
    + rewrite length_app in *. cbn in Hone. lia.
    + intros s' Hs'. apply Hf. set_solver.
  - destruct Hinv as [Hw He Ht Hc Hh Hf Hr Hl]. cbn in *. split; cbn; try done. intros b v h. rewrite Hlen. apply Hh.
Qed.

Lemma inv_reaches u : window_reaches u → window_inv u.
Proof using Type.
  intros (w & ps & [Hw Hs] & Hr). assert (window_inv (window_start w ps)) as H0.
  { split; cbn; rewrite ?Hs; cbn; try done.
    - split; constructor.
    - by intros b Hb%elem_of_nil.
    - by intros b v h Hb%elem_of_nil.
    - split; [lia|]. by intros s Hs'%elem_of_nil.
    - split; [done|constructor]. }
  induction Hr as [|a b c Hab _ IH]; [done|]. by apply IH, (inv_step a).
Qed.

(** ** Submitting a token that is held *)

Lemma elem_of_conditional_nodes program node :
  node ∈ conditional_nodes program ↔ ∃ n, kp_nodes program !! node = Some n ∧ is_Some (kn_indexed n).
Proof using Type.
  clear sha256. unfold conditional_nodes. rewrite list_elem_of_fmap. split.
  - intros ([i n] & -> & Hin). apply list_elem_of_In, List.filter_In in Hin as [Hin Hb%bool_decide_eq_true].
    apply list_elem_of_In, elem_of_enumerate in Hin. by exists n.
  - intros (n & Hn & Hi). exists (node, n). split; [done|]. apply list_elem_of_In, List.filter_In. split; [|by apply bool_decide_eq_true].
    by apply list_elem_of_In, elem_of_enumerate.
Qed.

Lemma first_conditional_in plan :
  plan_ok plan → is_Some (wp_indexed_positions plan) → is_Some (kp_nodes (wp_program plan) !! first_conditional (wp_program plan)).
Proof using Type.
  clear sha256. intros Hplan (n & [i Hi]%list_elem_of_lookup & Hix)%(pk_indexed _ Hplan). unfold first_conditional.
  assert (i ∈ conditional_nodes (wp_program plan)) as Hin by (apply elem_of_conditional_nodes; by exists n).
  destruct (conditional_nodes (wp_program plan)) as [|j l] eqn:Hc; [by apply elem_of_nil in Hin|]. cbn.
  assert (j ∈ conditional_nodes (wp_program plan)) as (n' & Hn' & _)%elem_of_conditional_nodes by (rewrite Hc; by left). by eexists.
Qed.

Lemma window_submit_returns u b answer :
  window_inv u → b ∈ ww_bounds u → window_submit sha256 (ww_window u) b (ww_buffers u) answer ≠ None.
Proof using Type.
  intros Hinv Hb. unfold window_submit. destruct (check_submit _ _); [|done].
  assert (submit_sealed sha256 (ww_window u) b (ww_buffers u) ≠ Panic) as Hnp.
  { unfold submit_sealed. destruct (wp_indexed_positions _) as [positions|] eqn:Hix; [|done].
    destruct (bo_indexed b) as [[v h]|] eqn:Hbi.
    - apply bind_no_panic; [apply try_no_panic|]. intros _ _. destruct (negb _); [done|].
      destruct (lookup_lt_is_Some_2 (ww_buffers u) h) as [p ->]; [by eapply wi_handles|]. cbn [unwrap mbind exec_bind].
      apply bind_no_panic; [apply try_no_panic|]. intros _ _. apply bind_no_panic; [apply try_no_panic|]. done.
    - destruct (first_conditional_in _ (pr_plan _ (wi_prepared _ Hinv))) as [n ->]; [by rewrite Hix|done]. }
  destruct (submit_sealed _ _ _ _) as [[ps sealed]|e|]; [|done|done]. by destruct answer.
Qed.

(** What a queue is reading is not changed by any call. *)
Lemma reading_step u u' g :
  window_inv u → window_step u u' → ww_reading u = Some g → ww_reading u' = Some g ∨ ww_reading u' = None.
Proof using Type.
  intros Hinv Hstep Hg. assert (is_retired (ww_window u) = false) as Hret.
  { destruct (is_retired (ww_window u)) eqn:Hr; [|done]. apply inv_retired in Hr as [_ Hn]; [congruence|done]. }
  assert (∀ b, current (ww_window u) b → False) as Hcur.
  { intros b [_ Hp]. unfold is_retired in Hret. by rewrite Hp in Hret. }
  destruct Hstep; cbn in *; auto.
  - apply window_submit_cases in H as (_ & H & _). by apply Hcur in H.
  - apply window_submit_cases in H as (_ & H & _). by apply Hcur in H.
  - destruct answer as [|f]; [by right|]. destruct (qf_quiescence f); [by right|by left].
Qed.

(** A window whose quiescence is not known is never used again. *)
Lemma quarantine_step u u' :
  window_inv u → window_step u u' → sh_phase (pw_shared (ww_window u)) = PhaseQuarantined → ww_window u' = ww_window u ∧ ww_log u' = ww_log u.
Proof using Type.
  intros Hinv Hstep Hq.
  assert (∀ b, current (ww_window u) b → False) as Hcur by (intros b [_ Hp]; congruence).
  destruct Hstep as [w bs fs ps log g shape live inputs w' r Hs Hi Hb
    |w bs1 b bs2 fs ps log g h p writers b' p' Hp Ha|w bs1 b bs2 fs ps log g b' Hc|w bs1 b bs2 fs ps log g answer w' ps' s Hs
    |w bs1 b bs2 fs ps log g answer w' ps' m q Hs|w bs1 b bs2 fs ps log g answer w' ps' e Hs Hne
    |w bs fs1 s fs2 ps log g answer w' ps' r Hc|w bs1 b bs2 fs ps log g|w bs fs1 s fs2 ps log g|w bs fs ps log g ps' Hlen]; cbn in *; try done.
  - unfold window_bind, bind_enter in Hb. rewrite Hq in Hb. by injection Hb as <- _.
  - apply window_submit_cases in Hs as (_ & H & _). by apply Hcur in H.
  - apply window_submit_cases in Hs as (_ & H & _). by apply Hcur in H.
  - apply window_submit_cases in Hs as [_ Hs].
    assert (w' = w ∧ ps' = ps) as [-> ->] by (destruct e; try done; by destruct (Hne message quiescence)). done.
  - destruct (wi_flight _ Hinv) as [_ Hfl]. cbn in Hfl. destruct (Hfl s) as [Hp _]; [set_solver|]. congruence.
Qed.
End run.

(** ** Lists *)

Lemma swap_remove_perm {A} (l : list A) i x : l !! i = Some x → l ≡ₚ x :: swap_remove l i.
Proof.
  intros Hx. unfold swap_remove. destruct l as [|y l' _] using rev_ind; [done|]. rewrite last_snoc, length_app. cbn.
  replace (length l' + 1 - 1) with (length l') by lia. destruct (decide (i < length l')) as [Hlt|Hge].
  - rewrite insert_app_l by done. rewrite take_app_le by (rewrite length_insert; lia). rewrite take_ge by (rewrite length_insert; lia).
    rewrite lookup_app_l in Hx by done. rewrite insert_take_drop by done.
    assert (l' ≡ₚ x :: take i l' ++ drop (S i) l') as Hp by (rewrite Permutation_middle; by rewrite take_drop_middle).
    rewrite (Permutation_app_comm l'). cbn. rewrite Hp at 1. rewrite <-Permutation_middle. apply perm_swap.
  - apply lookup_app_Some in Hx as [Hx|[Hge' Hx]]; [apply lookup_lt_Some in Hx; lia|].
    apply lookup_lt_Some in Hx as Hl. cbn in Hl. assert (i = length l') as -> by lia. rewrite Nat.sub_diag in Hx. injection Hx as <-.
    rewrite insert_app_r_alt, Nat.sub_diag by lia. cbn. rewrite take_app_length. by rewrite <-Permutation_cons_append.
Qed.

Lemma min_by_ok {A} (key : A → Z) l :
  match min_by key l with Some b => b ∈ l ∧ ∀ x, x ∈ l → (key b ≤ key x)%Z | None => l = [] end.
Proof.
  unfold min_by. set (step := λ best x, match best with Some b => if (key x <? key b)%Z then Some x else Some b | None => Some x end).
  assert (∀ k best, match foldl step (Some best) k with
    | Some b => (b = best ∨ b ∈ k) ∧ (key b ≤ key best)%Z ∧ ∀ x, x ∈ k → (key b ≤ key x)%Z
    | None => False end) as Hgen.
  { induction k as [|x k IH]; intros best; cbn; [by split_and!; [left|lia|intros x Hx%elem_of_nil]|].
    destruct (Z.ltb_spec (key x) (key best)).
    - specialize (IH x). destruct (foldl _ _ _) as [b|]; [|done]. destruct IH as (Hin & Hle & Hall).
      split_and!; [set_solver|lia|]. intros y [->|Hy]%elem_of_cons; [done|by apply Hall].
    - specialize (IH best). destruct (foldl _ _ _) as [b|]; [|done]. destruct IH as (Hin & Hle & Hall).
      split_and!; [set_solver|lia|]. intros y [->|Hy]%elem_of_cons; [lia|by apply Hall]. }
  destruct l as [|x l]; [done|]. cbn. specialize (Hgen l x). destruct (foldl _ _ _) as [b|]; [|done].
  destruct Hgen as (Hin & Hle & Hall). split; [set_solver|]. intros y [->|Hy]%elem_of_cons; [done|by apply Hall].
Qed.

(** ** The cache *)

Record cache_ok (c : WindowCache) : Prop := {
  ca_bound : length (wc_entries c) ≤ WINDOW_CACHE_CAPACITY;
  ca_keys : NoDup (ce_key <$> wc_entries c);
  ca_used : Forall (λ e, ce_last_used e ≤ wc_tick c)%Z (wc_entries c)
}.

Definition entry_retired (e : CacheEntry) : Prop := is_retired (ce_prepared e) = true.

Lemma victim_ok entries :
  match victim_of entries with
  | Some v => ∃ e, entries !! v = Some e ∧ entry_retired e ∧ ∀ e', e' ∈ entries → entry_retired e' → (ce_last_used e ≤ ce_last_used e')%Z
  | None => ∀ e, e ∈ entries → ¬ entry_retired e
  end.
Proof.
  unfold victim_of. set (l := List.filter _ _).
  assert (∀ i e, (i, e) ∈ l ↔ entries !! i = Some e ∧ entry_retired e) as Hl.
  { intros i e. unfold l. by rewrite list_elem_of_In, List.filter_In, <-list_elem_of_In, elem_of_enumerate. }
  pose proof (min_by_ok (λ e : nat * CacheEntry, ce_last_used e.2) l) as H. destruct (min_by _ l) as [[v e]|]; cbn.
  - destruct H as [[Hv Hr]%Hl Hmin]. exists e. split_and!; [done|done|]. intros e' [i Hi]%list_elem_of_lookup Hr'.
    apply (Hmin (i, e')). by apply Hl.
  - intros e [i Hi]%list_elem_of_lookup Hr. assert ((i, e) ∈ l) as Hin by (by apply Hl). rewrite H in Hin. by apply elem_of_nil in Hin.
Qed.

(** The window of [e] is still there. *)
Definition still_there (c : WindowCache) (e : CacheEntry) : Prop :=
  ∃ e', e' ∈ wc_entries c ∧ ce_key e' = ce_key e ∧ ce_prepared e' = ce_prepared e.

(** What may leave on a miss. *)
Definition evictable (c : WindowCache) (e : CacheEntry) : Prop :=
  length (wc_entries c) = WINDOW_CACHE_CAPACITY ∧ entry_retired e ∧
  ∀ e', e' ∈ wc_entries c → entry_retired e' → (ce_last_used e ≤ ce_last_used e')%Z.

Definition cached (c : WindowCache) (key : TopologyKey) (e : CacheEntry) : Prop := e ∈ wc_entries c ∧ ce_key e = key.

Record looked_up (c : WindowCache) (key : TopologyKey) (build : result Refusal PreparedWindow) (c' : WindowCache)
    (r : result Refusal nat) : Prop := {
  lu_ok : cache_ok c';
  lu_tick : wc_tick c' = (wc_tick c + 1)%Z;
  lu_kept e : e ∈ wc_entries c → still_there c' e ∨ (∀ e0, ¬ cached c key e0) ∧ evictable c e;
  lu_answer : match r with
    | Ok i => ∃ e, wc_entries c' !! i = Some e ∧ ce_key e = key ∧ ce_last_used e = wc_tick c' ∧
        ((∃ e0, cached c key e0 ∧ ce_prepared e = ce_prepared e0) ∨ (∀ e0, ¬ cached c key e0) ∧ build = Ok (ce_prepared e))
    | Err e => (∀ e0, ¬ cached c key e0) ∧
        (e = CacheFull ∧ length (wc_entries c) = WINDOW_CACHE_CAPACITY ∧ (∀ e0, e0 ∈ wc_entries c → ¬ entry_retired e0) ∨ build = Err e)
    end
}.

Lemma lookup_hit c key build tick index e :
  cache_ok c → tick = (wc_tick c + 1)%Z → wc_entries c !! index = Some e → ce_key e = key →
  looked_up c key build (mkCache (<[index:=mkEntry (ce_key e) (ce_prepared e) tick]> (wc_entries c)) tick) (Ok index).
Proof.
  intros [Hb Hk Hu] -> He Hkey. pose proof (lookup_lt_Some _ _ _ He) as Hlt. split; cbn.
  - split; cbn.
    + by rewrite length_insert.
    + rewrite list_fmap_insert, list_insert_id; [done|]. by rewrite list_lookup_fmap, He.
    + apply Forall_insert; [|cbn; lia]. eapply Forall_impl; [exact Hu|]. cbn. lia.
  - done.
  - intros e0 [j Hj]%list_elem_of_lookup. left. destruct (decide (j = index)) as [->|Hne].
    + exists (mkEntry (ce_key e) (ce_prepared e) (wc_tick c + 1)). split; [|by rewrite Hj in He; injection He as ->].
      eapply list_elem_of_lookup_2. cbn. by apply list_lookup_insert_eq.
    + exists e0. split; [|done]. eapply list_elem_of_lookup_2 with (i := j). cbn. by rewrite list_lookup_insert_ne.
  - eexists. split; [by apply list_lookup_insert_eq|]. split; [done|]. split; [done|]. left. exists e. split; [|done].
    split; [by eapply list_elem_of_lookup_2|done].
Qed.

(** Entries left after an eviction, or all of them. *)
Record left_over (c : WindowCache) (entries : list CacheEntry) : Prop := {
  le_room : length entries < WINDOW_CACHE_CAPACITY;
  le_keys : NoDup (ce_key <$> entries);
  le_sub e : e ∈ entries → e ∈ wc_entries c;
  le_kept e : e ∈ wc_entries c → e ∈ entries ∨ evictable c e
}.

Lemma left_evicted c v e :
  cache_ok c → WINDOW_CACHE_CAPACITY ≤ length (wc_entries c) → wc_entries c !! v = Some e → entry_retired e →
  (∀ e', e' ∈ wc_entries c → entry_retired e' → (ce_last_used e ≤ ce_last_used e')%Z) → left_over c (swap_remove (wc_entries c) v).
Proof.
  intros [Hb Hk Hu] Hfull He Hr Hmin. pose proof (swap_remove_perm _ _ _ He) as Hp. split.
  - apply Permutation_length in Hp. cbn in Hp. lia.
  - rewrite Hp in Hk. cbn in Hk. by apply NoDup_cons in Hk as [_ Hk].
  - intros e' He'. rewrite Hp. by right.
  - intros e' He'. rewrite Hp in He'. apply elem_of_cons in He' as [->|He']; [right|by left]. split; [lia|done].
Qed.

Lemma lookup_miss c key build entries tick :
  cache_ok c → tick = (wc_tick c + 1)%Z → left_over c entries → (∀ e0, ¬ cached c key e0) →
  match build with
  | Ok prepared => looked_up c key build (mkCache (entries ++ [mkEntry key prepared tick]) tick) (Ok (length entries))
  | Err e => looked_up c key build (mkCache entries tick) (Err e)
  end.
Proof.
  intros [Hb Hk Hu] -> [Hroom Hkeys Hsub Hkept] Hno.
  assert (Forall (λ e, ce_last_used e ≤ wc_tick c + 1)%Z entries) as Hused.
  { apply Forall_forall. intros e He. rewrite Forall_forall in Hu. specialize (Hu e (Hsub e He)). cbn in Hu. lia. }
  destruct build as [prepared|e].
  - split; cbn.
    + split; cbn.
      * rewrite length_app. cbn. lia.
      * rewrite fmap_app. apply NoDup_app. split; [done|]. split; [|apply NoDup_singleton].
        intros k (e & -> & He)%list_elem_of_fmap Hkey%list_elem_of_singleton. apply (Hno e). split; [by apply Hsub|done].
      * apply Forall_app. split; [done|]. apply Forall_singleton. cbn. lia.
    + done.
    + intros e He. destruct (Hkept e He) as [Hin|Hev]; [left|by right]. exists e. split; [apply elem_of_app; by left|done].
    + exists (mkEntry key prepared (wc_tick c + 1)). rewrite lookup_app_r, Nat.sub_diag by done. split_and!; try done. by right.
  - split; cbn; [by split; cbn; [lia|..]|done| |by split; [|right]].
    intros e' He. destruct (Hkept e' He) as [Hin|Hev]; [left|by right]. by exists e'.
Qed.

Lemma get_or_prepare_ok c key build c' r : cache_ok c → get_or_prepare c key build = Some (c', r) → looked_up c key build c' r.
Proof.
  intros Hc. unfold get_or_prepare. destruct (checked_add _ _ _) as [tick|] eqn:Htick; cbn [mbind option_bind]; [|done].
  apply checked_add_Some in Htick as [Htick _]. destruct (position _ _) as [index|] eqn:Hpos.
  - apply position_Some in Hpos as (e & He & Hkey). apply bool_decide_eq_true in Hkey. rewrite He. cbn. intros [= <- <-].
    by apply lookup_hit.
  - assert (∀ e0, ¬ cached c key e0) as Hno.
    { intros e0 [Hin Hk]. destruct (position_elem (λ e, bool_decide (ce_key e = key)) _ e0 Hin (bool_decide_eq_true_2 _ Hk)) as [i Hi]. congruence. }
    destruct (Nat.leb_spec WINDOW_CACHE_CAPACITY (length (wc_entries c))) as [Hfull|Hroom].
    + pose proof (victim_ok (wc_entries c)) as Hv. destruct (victim_of _) as [v|].
      * destruct Hv as (e & He & Hr & Hmin). pose proof (lookup_miss c key build _ tick Hc Htick (left_evicted c v e Hc Hfull He Hr Hmin) Hno) as H.
        destruct build; by intros [= <- <-].
      * intros [= <- <-]. destruct Hc as [Hb Hk Hu]. split; cbn; [split; cbn; [done|done|]|done| |].
        { subst. eapply Forall_impl; [exact Hu|]. cbn. lia. }
        { intros e He. left. by exists e. }
        { split; [done|]. left. split; [done|]. split; [lia|done]. }
    + assert (left_over c (wc_entries c)) as Hleft by (split; [done|apply Hc|done|by left]).
      pose proof (lookup_miss c key build _ tick Hc Htick Hleft Hno) as H. destruct build; by intros [= <- <-].
Qed.

(** Eviction of stale windows. *)
Lemma evict_stale_ok c live c' dropped :
  cache_ok c → evict_stale c live = (c', dropped) →
  cache_ok c' ∧ (∀ e, e ∈ wc_entries c' ↔ e ∈ wc_entries c ∧ (tk_binding (ce_key e) = live ∨ ¬ entry_retired e)) ∧
  length (wc_entries c) = length (wc_entries c') + dropped.
Proof.
  intros [Hb Hk Hu]. unfold evict_stale. intros [= <- <-]. cbn. set (kept := List.filter _ _).
  assert (∀ e, e ∈ kept ↔ e ∈ wc_entries c ∧ (tk_binding (ce_key e) = live ∨ ¬ entry_retired e)) as Hkept.
  { intros e. unfold kept. rewrite !list_elem_of_In, List.filter_In, orb_true_iff, bool_decide_eq_true, negb_true_iff.
    unfold entry_retired. rewrite not_true_iff_false. done. }
  assert (kept `sublist_of` wc_entries c) as Hsub.
  { unfold kept. clear. induction (wc_entries c) as [|e l IH]; cbn; [done|]. destruct (_ || _); [by apply sublist_skip|by apply sublist_cons]. }
  pose proof (sublist_length _ _ Hsub). split; [|split; [done|lia]]. split; cbn; [lia| |].
  - eapply sublist_NoDup; [exact Hk|]. by apply fmap_sublist.
  - apply Forall_forall. intros e [He _]%Hkept. rewrite Forall_forall in Hu. by apply Hu.
Qed.

(** A lookup panics only when the ticks run out. *)
Lemma get_or_prepare_returns c key build : (wc_tick c < u64_max)%Z → get_or_prepare c key build ≠ None.
Proof.
  intros Ht. unfold get_or_prepare.
  assert (checked_add 64 (wc_tick c) 1 = Some (wc_tick c + 1)%Z) as ->.
  { apply checked_add_Some. split; [done|]. unfold u64_max in Ht. change (umax 64) with 18446744073709551615%Z. lia. }
  cbn [mbind option_bind]. destruct (position _ _) as [index|] eqn:Hpos; [|done].
  apply position_Some in Hpos as (e & -> & _). done.
Qed.
