(* ===== verification/RailWindowClaims.v ===== *)
(** * What windows guarantee

    From the plan to the submission: preparing, binding, submitting in order,
    and the cache, with a small window as the example. *)

From stdpp Require Import gmap sorting.
From S2P Require Import Prelude Packet RailCopy RailKernels RailKernelsOk RailBoundary RailSealed RailWriter RailWriterOk RailPlan RailPlanOk RailWindow RailWindowOk RailWindowBind RailWindowRun.

(** ** A window with one kernel and one copy *)

Definition demo_node : KernelNode :=
  mkNode (lit "k") None (mk3 2 1 1) (mk3 256 1 1) 0 (Some 40)
    [(0, ArgResource 0 256); (8, ArgResource 1 512); (16, ArgWord 0); (20, ArgWord 1)]
    [mkHidden 24 4 (BlockCount 0) (lit "x") false; mkHidden 28 4 (BlockCount 1) (lit "y") false; mkHidden 32 2 GridDims (lit "d") false]
    [mkRegionEffect 0 0 [VmemLoad]; mkRegionEffect 8 1 [VmemStore]] Pm4Lowering None None.

Definition demo_program : KernelProgram :=
  mkKernelProgram (lit "gfx1201") [mkBinding 4096 65536; mkBinding 131072 65536] [mkProgramWord 0 16 WindowWord 0; mkProgramWord 0 20 WindowWord 0]
    [demo_node] [].

Definition demo_tiles : Expr := CeilDiv (Add (Input (lit "position")) (Const 1)) 128.

Definition demo_parts : WindowPlanParts :=
  mkParts demo_program
    [StepKernel 0; StepCopy (mkCopyStep (mkRegion 0 (Const 0)) (mkRegion 1 (Input (lit "position"))) (Const 64))]
    [Scalar32 (mkScalar 0 16) (Input (lit "projected_rows")) (1, 16)%Z; Scalar32 (mkScalar 0 20) demo_tiles (1, 1024)%Z;
     Interior64 0 8 1 (Mul (Input (lit "position")) (Const 4)) (Const 64); GridAxis 0 AxisX demo_tiles (1, 64)%Z]
    (mkDeltaSpec None None (Some (mkTransitionSpec (Input (lit "ring_head")) (Const 1))) None) [1] [3%Z] Whole16 true true.

Definition demo_key : WindowBindingKey :=
  mkKey (lit "m") (lit "d") [] (lit "t") (lit "gfx1201") 0
    [mkAllocation 0 1048576 65536 1; mkAllocation 1 2097152 65536 1] 1 [] (lit "c") (lit "g") [].

Definition demo_shape : WindowShape := mkShape 200 4096 3 0 0 5 0 0 4095 32 16 16 7.
Definition demo_inputs : WindowInputs :=
  mkInputs 1 2 (Z.of_nat <$> seq 200 16) [] (Z.of_nat <$> seq 200 16) [] [].

(** The boundary plan of the program. *)
Definition demo_pm4 : Pm4Plan :=
  default (mkPm4Plan TierD [] [] [] []) (table ← table_for_arch (lit "gfx1201"); boundary_plan demo_program table UnreceiptedSystem).

Definition planned (r : exec Refusal WindowPlan) : WindowPlan :=
  match r with
  | Done plan => plan
  | _ => mkPlan (mkKernelProgram [] [] [] [] []) [] [] [] [] (mkDeltaSpec None None None None) [] (mkClosure ∅ ∅) (mkFamily [] []) HostSplice
           false false None
  end.
Definition demo_plan : WindowPlan := planned (window_plan_new demo_parts demo_pm4).

Definition unused_window (id : Z) (plan : WindowPlan) (key : WindowBindingKey) : PreparedWindow :=
  mkPrepared id plan key [] (mkShared PhaseRetired 0 None) [] [] [] [] [].
Definition demo_window : PreparedWindow :=
  match prepared_new 9 demo_plan demo_key with Done w => w | _ => unused_window 9 demo_plan demo_key end.

Definition demo_bind : PreparedWindow * result Refusal BoundWindow :=
  default (demo_window, Err StaleBound) (window_bind demo_window demo_shape demo_key demo_inputs).
Definition demo_token : BoundWindow :=
  mkBound 9 1 7 (mkDelta None None (Some (mkTransition 5 1)) None) None false.

Lemma demo_planned : window_plan_new demo_parts demo_pm4 = Done demo_plan.
Proof.
  unfold demo_plan. assert (match window_plan_new demo_parts demo_pm4 with Done _ => true | _ => false end = true) as H
    by (vm_compute; reflexivity). by destruct (window_plan_new _ _).
Qed.

Lemma demo_prepared : prepared_new 9 demo_plan demo_key = Done demo_window.
Proof.
  unfold demo_window. assert (match prepared_new 9 demo_plan demo_key with Done _ => true | _ => false end = true) as H
    by (vm_compute; reflexivity). by destruct (prepared_new _ _ _).
Qed.

Lemma demo_bound : window_bind demo_window demo_shape demo_key demo_inputs = Some (demo_bind.1, Ok demo_token).
Proof.
  unfold demo_bind. assert (match window_bind demo_window demo_shape demo_key demo_inputs with
    Some (_, Ok b) => Some b | _ => None end = Some demo_token) as H by (vm_compute; reflexivity).
  destruct (window_bind _ _ _ _) as [[w [b|e]]|]; [|done..]. cbn. congruence.
Qed.

Lemma demo_wf : program_wf demo_program.
Proof.
  split.
  - intros n segment ->%list_elem_of_singleton [= <-]. split; cbn.
    + repeat constructor; unfold span_fits; cbn; lia.
    + repeat constructor; unfold spans_apart; cbn; lia.
    + unfold arr3_nonneg; cbn; lia.
    + repeat constructor; lia.
  - intros n ->%list_elem_of_singleton. unfold arr3_nonneg. cbn. lia.
  - intros n offset r interior ->%list_elem_of_singleton Harg. cbn in Harg.
    repeat (apply elem_of_cons in Harg as [Harg|Harg]; [simplify_eq; cbn; lia|]). by apply elem_of_nil in Harg.
Qed.

Lemma all_typed {A} (exprs : A → list Expr) l : Forall expr_typed (l ≫= exprs) → ∀ x e, x ∈ l → e ∈ exprs x → expr_typed e.
Proof. rewrite Forall_forall. intros H x e Hx He. apply H, list_elem_of_bind. by exists x. Qed.

Lemma demo_typed : plan_typed demo_plan.
Proof.
  destruct (window_plan_ok demo_parts demo_pm4) as [_ H]. destruct (H _ demo_planned) as (_ & _ & Hs & Hp & _).
  split.
  - rewrite Hp. apply (all_typed patch_exprs). unfold demo_parts, demo_tiles. cbn. unfold in_u. repeat constructor; by vm_compute.
  - rewrite Hs. apply (all_typed step_exprs). unfold demo_parts. cbn. unfold in_u. repeat constructor; by vm_compute.
Qed.

Lemma demo_allocations : Forall (λ a, 0 ≤ al_base a ∧ 0 ≤ al_bytes a)%Z (wk_allocations demo_key).
Proof. repeat constructor; cbn; lia. Qed.

(** The fields of a shape are machine integers. *)
Lemma shape_get_typed s :
  Forall (in_u 64) [ws_position s; ws_logical_ctx_rows s; ws_projected_rows s; ws_full_cached_rows s; ws_compact_offset s; ws_ring_head s;
    ws_swa_w s; ws_full_w s; ws_max_position s; ws_max_tiles s; ws_verify_rows s; ws_draft_rows s; ws_generation s] → shape_typed s.
Proof.
  intros H name v. unfold shape_get. destruct (List.find _ _) as [[n x]|] eqn:Hf; [|done]. intros [= <-].
  apply List.find_some in Hf as [Hin%list_elem_of_In _]. rewrite Forall_forall in H. apply H. exact (list_elem_of_fmap_2 snd _ _ Hin).
Qed.

Lemma demo_shape_typed : shape_typed demo_shape.
Proof. apply shape_get_typed. unfold in_u. repeat constructor; by vm_compute. Qed.

Lemma demo_inputs_typed : inputs_typed demo_inputs.
Proof. constructor. Qed.

Lemma demo_fresh : window_fresh demo_window.
Proof.
  destruct (window_plan_ok demo_parts demo_pm4) as [_ H]. destruct (H _ demo_planned) as (Hok & Hprog & _).
  destruct (prepared_new_ok demo_plan demo_key Hok ltac:(rewrite Hprog; exact demo_wf) demo_typed demo_allocations 9) as [_ Hnew].
  destruct (Hnew _ demo_prepared) as (Hw & _ & _ & _ & Hs). done.
Qed.

(** ** Preparing *)

(** C15: A plan that [WindowPlan::new] accepts dispatches every node once and in
    order, patches distinct declared places, and covers every window word;
    preparing it never panics and gives a window whose written allocations meet
    no other and whose pointers are inside. *)
Theorem prepare_sound parts pm4 :
  window_plan_new parts pm4 ≠ Panic ∧
  ∀ plan, window_plan_new parts pm4 = Done plan →
    plan_ok plan ∧ wp_program plan = pt_program parts ∧ wp_steps plan = pt_steps parts ∧ wp_patches plan = pt_patches parts ∧
    ∀ id key, program_wf (pt_program parts) → plan_typed plan →
      Forall (λ a, 0 ≤ al_base a ∧ 0 ≤ al_bytes a)%Z (wk_allocations key) →
      prepared_new id plan key ≠ Panic ∧ ∀ w, prepared_new id plan key = Done w → window_fresh w ∧ pw_id w = id ∧ pw_plan w = plan ∧ pw_key w = key.
Proof.
  destruct (window_plan_ok parts pm4) as [Hnp Hok]. split; [done|]. intros plan Hplan.
  destruct (Hok plan Hplan) as (Hp & Hprog & Hs & Hpat & _). split_and!; try done. intros id key Hwf Hty Ha. rewrite <-Hprog in Hwf.
  destruct (prepared_new_ok plan key Hp Hwf Hty Ha id) as [Hnp' Hnew]. split; [done|].
  intros w Hw. destruct (Hnew w Hw) as (? & ? & ? & ? & ?). done.
Qed.

Lemma prepare_sound_witness : ∃ w, prepared_new 9 demo_plan demo_key = Done w ∧ window_fresh w ∧ pw_plan w = demo_plan.
Proof.
  destruct (prepare_sound demo_parts demo_pm4) as [_ H]. destruct (H demo_plan demo_planned) as (_ & _ & _ & _ & Hnew).
  destruct (Hnew 9%Z demo_key demo_wf demo_typed demo_allocations) as [_ Hw].
  exists demo_window. split; [exact demo_prepared|]. destruct (Hw _ demo_prepared) as (Hf & _ & Hplan & _). split; assumption.
Defined.

(** ** Encoding *)

(** C39: The encoder of a kernarg image never panics; it succeeds exactly when every
    argument and hidden field of the node has a value that fits, and then the
    image holds each of them at its offset and zeros elsewhere, whatever the
    buffer held before. *)
Theorem kernarg_image_exact program words overrides node n out :
  kp_nodes program !! node = Some n → node_laid_out n (length out) → kn_segment_bytes n = Some (length out) →
  arr3_nonneg (live_grid overrides n) → (is_Some (ov_grid overrides) → has_zero (live_grid overrides n) = false) →
  match node_fields program words overrides n (live_grid overrides n) with
  | Some fs => ∃ image, encode_kernarg_into program words overrides node out = Done image ∧ length image = length out ∧
      (∀ f, f ∈ fs → take (length f.2) (drop f.1 image) = f.2) ∧
      (∀ i, i < length out → (∀ f, f ∈ fs → ¬ covers f i) → image !! i = Some 0%Z)
  | None => ∃ e partial, encode_kernarg_into program words overrides node out = Fail (e, partial) ∧ length partial = length out
  end.
Proof.
  intros Hn Hlo Hseg Hg Hz. pose proof (encode_ok program words overrides node n out Hn Hlo Hg Hz Hseg) as H.
  destruct (node_fields _ _ _ _ _) as [fs|]; [|done]. destruct H as (image & Henc & Him). exists image. split; [done|].
  split; [exact (io_length _ _ _ Him)|]. split; [intros f; by eapply image_field|exact (io_zero _ _ _ Him)].
Qed.

Lemma kernarg_image_exact_witness :
  ∃ image, encode_kernarg_into demo_program [3; 2]%Z default_overrides 0 (replicate 40 7%Z) = Done image ∧ length image = 40 ∧
    take 4 (drop 16 image) = le_bytes 4 3.
Proof.
  pose proof (kernarg_image_exact demo_program [3; 2]%Z default_overrides 0 demo_node (replicate 40 7%Z) eq_refl
    (pf_layout _ demo_wf demo_node 40 ltac:(by left) eq_refl) eq_refl (pf_grid _ demo_wf demo_node ltac:(by left))
    ltac:(by intros [? ?])) as H.
  destruct (node_fields _ _ _ _ _) as [fs|] eqn:Hfs; [|vm_compute in Hfs; discriminate]. destruct H as (image & He & Hl & Hf & _).
  exists image. split; [exact He|]. split; [exact Hl|]. apply (Hf (16, le_bytes 4 3)).
  vm_compute in Hfs. injection Hfs as <-. vm_compute. do 2 right. left.
Defined.

(** ** Binding *)

(** C14: [bind] never panics below the last epoch and keeps the window well formed.
    It refuses a window in flight or quarantined without touching it; any other
    refusal retires it and its earlier tokens; when it succeeds the live key is
    the window's, the generation is new, every patch has its value inside its
    domain at its place, every frame word that no patch writes has the frame of
    the inputs and every other one its authored value, every image holds exactly the fields of its node, every
    pointer and every resolved step stays inside its allocation. *)
Theorem bind_sound w shape live inputs :
  prepared_ok w → shape_typed shape → inputs_typed inputs → (0 ≤ sh_epoch (pw_shared w) < u64_max)%Z →
  ∃ w' r, window_bind w shape live inputs = Some (w', r) ∧ prepared_ok w' ∧ same_window w w' ∧ bind_result w shape live inputs w' r ∧
    ∀ b, is_retired w = true → (bo_epoch b ≤ sh_epoch (pw_shared w))%Z → check_submit w' b = Err StaleBound.
Proof.
  intros Hw Hs Hi He. destruct (window_bind_ok w shape live inputs Hw Hs Hi He) as (w' & r & Hb & Hw' & Hsame & Hr).
  exists w', r. split_and!; try done. intros b Hret Hle.
  assert (sh_epoch (pw_shared w') = sh_epoch (pw_shared w) + 1)%Z as Hnext.
  { destruct r as [t|e]; [by rewrite (bd_shared _ _ _ _ _ _ Hr)|]. destruct Hr as [[_ [[Hp _]|[Hp _]]]|[_ ->]]; [..|done].
    all: unfold is_retired in Hret; by rewrite Hp in Hret. }
  unfold check_submit. rewrite Hnext. by rewrite (proj2 (Z.eqb_neq (bo_epoch b) (sh_epoch (pw_shared w) + 1))), orb_true_r by lia.
Qed.

Lemma bind_sound_witness :
  ∃ w' b, window_bind demo_window demo_shape demo_key demo_inputs = Some (w', Ok b) ∧ prepared_ok w' ∧
    bound_ok demo_window w' demo_shape demo_key demo_inputs b.
Proof.
  destruct demo_fresh as [Hw Hs].
  destruct (bind_sound demo_window demo_shape demo_key demo_inputs Hw demo_shape_typed demo_inputs_typed ltac:(rewrite Hs; cbn; unfold u64_max; lia))
    as (w' & r & Hb & Hw' & _ & Hr & _).
  rewrite demo_bound in Hb. injection Hb as <- <-. exists demo_bind.1, demo_token. split; [exact demo_bound|]. split; [exact Hw'|exact Hr].
Defined.

(** ** Submitting *)

Section submit.
Context (sha256 : list Z → list Z).

(** C13: Whatever clients do with their tokens, in any order, with any answers of the
    queue: submitting a held token does not panic; at most one submission is
    held; the accepted generations strictly increase, so none is submitted twice;
    what a queue may still be reading is what the window holds and no call
    changes it; and a quarantined window is never changed or submitted again. *)
Theorem window_lifecycle u :
  window_reaches sha256 u →
  (∀ b answer, b ∈ ww_bounds u → window_submit sha256 (ww_window u) b (ww_buffers u) answer ≠ None) ∧
  length (ww_flight u) ≤ 1 ∧ StronglySorted (λ a b, b < a)%Z (ww_log u) ∧
  (∀ g, ww_reading u = Some g → g = given_of (ww_window u)) ∧
  ∀ u', window_step sha256 u u' →
    (∀ g, ww_reading u = Some g → ww_reading u' = Some g ∨ ww_reading u' = None) ∧
    (sh_phase (pw_shared (ww_window u)) = PhaseQuarantined → ww_window u' = ww_window u ∧ ww_log u' = ww_log u).
Proof using Type.
  intros Hinv%inv_reaches. split; [intros b answer; by apply window_submit_returns|]. split; [apply Hinv|]. split; [apply Hinv|].
  split.
  - intros g Hg. pose proof (wi_reading _ Hinv) as Hr. destruct (sh_phase _); congruence.
  - intros u' Hstep. split; [intros g; by eapply reading_step|by eapply quarantine_step].
Qed.

(** C12: A token that the queue accepts was given by a bind whose images, grids and
    steps the window still holds, and they are what the queue is given; its
    generation is later than all before; and a plan with conditional nodes has a
    witness of this window, this generation and these images for exactly those
    nodes, whose sealed positions are marked as submitted. *)
Theorem submitted_as_bound u b answer w' ps' s :
  window_reaches sha256 u → b ∈ ww_bounds u → window_submit sha256 (ww_window u) b (ww_buffers u) answer = Some (w', ps', Ok s) →
  as_bound (ww_window u) b ∧ given_of w' = given_of (ww_window u) ∧ su_generation s = bo_generation b ∧ su_host_delta s = bo_host_delta b ∧
  Forall (λ g, g < bo_generation b)%Z (ww_log u) ∧
  (is_Some (wp_indexed_positions (pw_plan (ww_window u))) →
   ∃ v h p p', bo_indexed b = Some (v, h) ∧ witness_for sha256 (ww_window u) b v ∧ ww_buffers u !! h = Some p ∧
     mark_submitted p v = Ok p' ∧ ps' = <[h:=p']> (ww_buffers u)).
Proof using Type.
  intros Hinv%inv_reaches Hb Hs. pose proof (window_submit_cases _ _ _ _ _ _ _ _ Hs) as (_ & Hcur & _ & Hgen & Hw').
  pose proof (wi_current _ Hinv b Hb Hcur) as Has. split; [done|]. split; [by rewrite Hw'|]. split; [done|].
  unfold window_submit in Hs. destruct (check_submit _ _); [|done].
  destruct (submit_sealed _ _ _ _) as [[ps sealed]|e|] eqn:Hsealed; [|done..]. destruct answer as [[]|f]; [|done].
  injection Hs as <- <- <-. split; [done|]. split.
  - destruct Has as (w0 & shape & inputs & Hbd & Hsame). destruct (wi_log _ Hinv) as [Hhd Hsort].
    pose proof (bd_token _ _ _ _ _ _ Hbd) as (_ & _ & H3 & _). cbn in H3.
    assert (StronglySorted (λ a b, b < a)%Z (bo_generation b :: ww_log u)) as [_ H]%StronglySorted_inv; [|done].
    eapply log_later; [done|done|]. rewrite (bd_shared _ _ _ _ _ _ Hbd). cbn. rewrite H3. exact (bd_generation _ _ _ _ _ _ Hbd).
  - intros [positions Hix]. apply submit_sealed_Done in Hsealed. rewrite Hix in Hsealed.
    destruct Hsealed as (v & h & p & p' & H1 & _ & H2 & H3 & H4 & H5). by exists v, h, p, p'.
Qed.
End submit.

(** *** The example, bound and submitted *)

Definition same_bytes (bytes : list Z) : list Z := bytes.
Definition demo_world : window_world := mkWorld demo_bind.1 [demo_token] [] [] [] None.
Definition demo_submission : Submission := mkSubmission 7 Whole16 true true (mkDelta None None (Some (mkTransition 5 1)) None) None.
Definition demo_flying : PreparedWindow := with_shared demo_bind.1 (mkShared PhaseInFlight 1 (Some 7%Z)).

Lemma demo_reaches : window_reaches same_bytes demo_world.
Proof.
  exists demo_window, []. split; [exact demo_fresh|]. eapply rtc_l; [|reflexivity].
  exact (step_bind same_bytes demo_window [] [] [] [] None demo_shape demo_key demo_inputs demo_bind.1 (Ok demo_token) demo_shape_typed
    demo_inputs_typed demo_bound).
Qed.

Lemma demo_submitted :
  window_submit same_bytes demo_bind.1 demo_token [] (Ok tt) = Some (demo_flying, [], Ok demo_submission).
Proof.
  unfold window_submit. assert (check_submit demo_bind.1 demo_token = Ok tt) as -> by (vm_compute; reflexivity).
  assert (submit_sealed same_bytes demo_bind.1 demo_token [] = Done ([], None)) as -> by (vm_compute; reflexivity).
  assert (sh_epoch (pw_shared demo_bind.1) = 1%Z) as He by (vm_compute; reflexivity).
  assert (wp_execution (pw_plan demo_bind.1) = Whole16) as H1 by (vm_compute; reflexivity).
  assert (wp_hip_graph_certified (pw_plan demo_bind.1) = true) as H2 by (vm_compute; reflexivity).
  assert (wp_tape_populated (pw_plan demo_bind.1) = true) as H3 by (vm_compute; reflexivity).
  unfold demo_flying, demo_submission. by rewrite He, H1, H2, H3.
Qed.

Lemma window_lifecycle_witness :
  ∃ u, window_reaches same_bytes u ∧ ww_log u = [7%Z] ∧ length (ww_flight u) ≤ 1 ∧ ww_reading u = Some (given_of (ww_window u)).
Proof.
  assert (window_reaches same_bytes (mkWorld demo_flying [] [demo_submission] [] [7%Z] (Some (given_of demo_bind.1)))) as Hr.
  { destruct demo_reaches as (w & ps & Hf & Hr). exists w, ps. split; [exact Hf|]. eapply rtc_r; [exact Hr|].
    exact (step_submit same_bytes demo_bind.1 [] demo_token [] [] [] [] None (Ok tt) _ _ _ demo_submitted). }
  destruct (window_lifecycle same_bytes _ Hr) as (_ & Hone & _ & Hread & _). eexists. split; [exact Hr|]. split; [reflexivity|].
  split; [exact Hone|]. rewrite <-(Hread _ eq_refl). reflexivity.
Defined.

Lemma submitted_as_bound_witness : ∃ w b, as_bound w b ∧ bo_generation b = 7%Z.
Proof.
  destruct (submitted_as_bound same_bytes demo_world demo_token (Ok tt) _ _ _ demo_reaches ltac:(by left) demo_submitted) as [H _].
  exists demo_bind.1, demo_token. split; [exact H|reflexivity].
Defined.

(** ** The cache *)

(** C40: The cache holds at most 32 windows under distinct keys.  Looking a key up
    gives the window cached under it, or the one that was built; no window leaves
    except, on a miss at capacity, a retired one that is least recently used;
    without one the lookup is refused before building; windows in flight or
    quarantined are never evicted, by a lookup or by [evict_stale]. *)
Theorem cache_sound c :
  cache_ok c →
  (∀ key build c' r, get_or_prepare c key build = Some (c', r) → looked_up c key build c' r) ∧
  ((wc_tick c < u64_max)%Z → ∀ key build, get_or_prepare c key build ≠ None) ∧
  ∀ live c' dropped, evict_stale c live = (c', dropped) →
    cache_ok c' ∧ (∀ e, e ∈ wc_entries c' ↔ e ∈ wc_entries c ∧ (tk_binding (ce_key e) = live ∨ ¬ entry_retired e)) ∧
    length (wc_entries c) = length (wc_entries c') + dropped.
Proof.
  intros Hc. split_and!.
  - intros key build c' r. by apply get_or_prepare_ok.
  - intros Ht key build. by apply get_or_prepare_returns.
  - intros live c' dropped. by apply evict_stale_ok.
Qed.

Lemma cache_sound_witness :
  ∃ c, cache_ok c ∧ length (wc_entries c) = 1 ∧ looked_up cache_new (mkTopology demo_key (mkFamily [] [])) (Ok demo_window) c (Ok 0).
Proof.
  assert (cache_ok cache_new) as H0 by (split; [cbn; lia|constructor|constructor]).
  destruct (cache_sound cache_new H0) as (H & _).
  pose proof (H (mkTopology demo_key (mkFamily [] [])) (Ok demo_window) _ _ eq_refl) as Hl.
  eexists. split; [exact (lu_ok _ _ _ _ _ Hl)|]. split; [reflexivity|exact Hl].
Defined.
