(* ===== verification/SlotPool.v ===== *)
(** * Paged key-value memory ([rdna-compute/src/page_pool.rs], [slot_pool.rs])

    A pool of physical pages with references by class and generations, block
    tables, copy-on-write plans and deferred reclaim; and the slots of sessions
    on top of it.  [None] is a panic; an operation gives the state that it
    leaves also when it refuses.  Texts of refusals are tags. *)

From S2P Require Import Prelude.

Definition PAGE_TOKENS : nat := 128.

(** ** Pages *)

Record PageHandle := mkHandle { ph_phys : nat; ph_epoch : Z; ph_generation : Z }.

Inductive PageState := Free | Private | Sealed | CacheOnly | ReclaimPending.

#[export] Instance page_state_eq_dec : EqDecision PageState.
Proof. solve_decision. Defined.

Record PageMeta := mkMeta { pg_state : PageState; pg_generation : Z; pg_table_refs : Z; pg_cache_refs : Z; pg_inflight_refs : Z }.
Definition meta_free : PageMeta := mkMeta Free 0 0 0 0.
Definition total_refs (m : PageMeta) : Z := (pg_table_refs m + pg_cache_refs m + pg_inflight_refs m)%Z.

Record CowCopy := mkCopy {
  cw_logical_page : nat;
  cw_src_phys : nat;
  cw_dst_phys : nat;
  cw_valid_prefix_tokens : nat;
  cw_k_copy_bytes : nat;
  cw_v_copy_bytes : nat
}.

(** The copies of a plan; dropping it while it is armed leaks its pages. *)
Record CowPlan := mkPlan { cp_copies : list CowCopy; cp_armed : bool }.

Record BlockTable := mkTable { bt_pages : list nat; bt_live_tokens : nat }.
Definition table_new : BlockTable := mkTable [] 0.
Definition push_page (t : BlockTable) (page : nat) : BlockTable := mkTable (bt_pages t ++ [page]) (bt_live_tokens t).
Definition set_page (t : BlockTable) (lpage phys : nat) : BlockTable := mkTable (<[lpage:=phys]> (bt_pages t)) (bt_live_tokens t).
Definition truncate (t : BlockTable) (n_pages : nat) : BlockTable * list nat :=
  (mkTable (take n_pages (bt_pages t)) (bt_live_tokens t `min` (n_pages * PAGE_TOKENS)), drop n_pages (bt_pages t)).

(** [debug_assert] that the pages hold the tokens. *)
Definition set_live_tokens (t : BlockTable) (tokens : nat) : option BlockTable :=
  if tokens <=? length (bt_pages t) * PAGE_TOKENS then Some (mkTable (bt_pages t) tokens) else None.

(** ** The pool *)

Record PagePool := mkPagePool {
  pp_n_pages : nat;
  pp_k_per_pos_bytes : nat;
  pp_v_per_pos_bytes : nat;
  pp_free_pages : list nat;
  pp_meta : list PageMeta;
  pp_reclaim_pending : list nat;
  pp_epoch : Z
}.

Inductive PoolFault :=
| ZeroArgument
| TooManyPages (pages : nat)
| ArenaOverflow
| OverBudget
| OutOfBounds (phys : nat)
| EpochMismatch
| GenerationMismatch (phys : nat)
| UseAfterFree (phys : nat)
| TableUnderflow (phys : nat)
| TooFewFree (need free : nat)
| SourceShort (have want : nat)
| PartialPage (tokens live : nat)
| NotEmpty (pages : nat)
| PageIsFree (phys : nat)
| PageIsPending (phys : nat)
| RefOverflow (phys : nat)
| ReleaseUnderflow
| CannotSeal (phys : nat) (s : PageState)
| BadInterval
| NoCowPage (lpage phys : nat)
| TableChanged (lpage src : nat)
| SourceUnreferenced (phys : nat)
| Underflow (phys : nat)
| OverCap (tokens cap : nat)
| DescriptorRange (tokens : nat)
| NoBlockTable (slot : nat)
| NotPaged
| StaleLease (slot : nat)
| SlotNotInUse (slot : nat).

(** *** Construction *)

Definition checked_arena_bytes (n_pages k_bytes v_bytes : nat) : result PoolFault Z :=
  if (umax 32 <? Z.of_nat n_pages)%Z then Err (TooManyPages n_pages)
  else
    k_page ← ok_or (checked_mul 64 (Z.of_nat PAGE_TOKENS) (Z.of_nat k_bytes)) ArenaOverflow;
    v_page ← ok_or (checked_mul 64 (Z.of_nat PAGE_TOKENS) (Z.of_nat v_bytes)) ArenaOverflow;
    page_bytes ← ok_or (checked_add 64 k_page v_page) ArenaOverflow;
    ok_or (checked_mul 64 page_bytes (Z.of_nat n_pages)) ArenaOverflow.

Definition with_checked_metadata (n_pages k_bytes v_bytes : nat) : PagePool :=
  mkPagePool n_pages k_bytes v_bytes (reverse (seq 0 n_pages)) (replicate n_pages meta_free) [] 0.

Definition new_external_with_strides (n_pages k_bytes v_bytes : nat) : result PoolFault PagePool :=
  if (n_pages =? 0) || (k_bytes =? 0) || (v_bytes =? 0) then Err ZeroArgument
  else _ ← checked_arena_bytes n_pages k_bytes v_bytes; Ok (with_checked_metadata n_pages k_bytes v_bytes).

(** [within_budget] is [kv_slots::preflight_alloc], which reads the memory of
    the host. *)
Definition page_pool_new (within_budget : Z → bool) (n_pages k_bytes v_bytes : nat) : exec PoolFault PagePool :=
  if (n_pages =? 0) || (k_bytes =? 0) || (v_bytes =? 0) then Panic
  else match checked_arena_bytes n_pages k_bytes v_bytes with
       | Err e => Fail e
       | Ok total => if within_budget total then Done (with_checked_metadata n_pages k_bytes v_bytes) else Fail OverBudget
       end.

(** *** State changes *)

Definition set_meta (p : PagePool) (phys : nat) (m : PageMeta) : PagePool :=
  mkPagePool (pp_n_pages p) (pp_k_per_pos_bytes p) (pp_v_per_pos_bytes p) (pp_free_pages p) (<[phys:=m]> (pp_meta p))
    (pp_reclaim_pending p) (pp_epoch p).
Definition set_free (p : PagePool) (free : list nat) : PagePool :=
  mkPagePool (pp_n_pages p) (pp_k_per_pos_bytes p) (pp_v_per_pos_bytes p) free (pp_meta p) (pp_reclaim_pending p) (pp_epoch p).
Definition set_pending (p : PagePool) (pending : list nat) : PagePool :=
  mkPagePool (pp_n_pages p) (pp_k_per_pos_bytes p) (pp_v_per_pos_bytes p) (pp_free_pages p) (pp_meta p) pending (pp_epoch p).

Definition bump (g : Z) : Z := wrapping_add 32 g 1.
Definition with_state (m : PageMeta) (s : PageState) : PageMeta :=
  mkMeta s (pg_generation m) (pg_table_refs m) (pg_cache_refs m) (pg_inflight_refs m).
Definition with_table_refs (m : PageMeta) (r : Z) : PageMeta :=
  mkMeta (pg_state m) (pg_generation m) r (pg_cache_refs m) (pg_inflight_refs m).
Definition with_cache_refs (m : PageMeta) (r : Z) : PageMeta :=
  mkMeta (pg_state m) (pg_generation m) (pg_table_refs m) r (pg_inflight_refs m).
Definition with_inflight_refs (m : PageMeta) (r : Z) : PageMeta :=
  mkMeta (pg_state m) (pg_generation m) (pg_table_refs m) (pg_cache_refs m) r.

(** The page goes to the free list with a new generation. *)
Definition free_page (p : PagePool) (phys : nat) (m : PageMeta) : PagePool :=
  set_free (set_meta p phys (mkMeta Free (bump (pg_generation m)) (pg_table_refs m) (pg_cache_refs m) (pg_inflight_refs m)))
    (pp_free_pages p ++ [phys]).
Definition pend_page (p : PagePool) (phys : nat) (m : PageMeta) : PagePool :=
  set_pending (set_meta p phys (with_state m ReclaimPending)) (pp_reclaim_pending p ++ [phys]).

Definition check_phys (p : PagePool) (phys : nat) : result PoolFault unit :=
  if phys <? pp_n_pages p then Ok tt else Err (OutOfBounds phys).

Definition page_state (p : PagePool) (phys : nat) : PageState := match pp_meta p !! phys with Some m => pg_state m | None => Free end.

Definition validate_handle (p : PagePool) (h : PageHandle) : option (result PoolFault unit) :=
  if negb (ph_epoch h =? pp_epoch p)%Z then Some (Err EpochMismatch)
  else
    match check_phys p (ph_phys h) with
    | Err e => Some (Err e)
    | Ok _ =>
        m ← pp_meta p !! ph_phys h;
        Some (if negb (pg_generation m =? ph_generation h)%Z then Err (GenerationMismatch (ph_phys h))
              else if bool_decide (pg_state m = Free) then Err (UseAfterFree (ph_phys h))
              else Ok tt)
    end.

(** *** Operations that change one page *)

(** The page is looked up after its bounds check. *)
Definition on_page (p : PagePool) (phys : nat) (f : PageMeta → PagePool * result PoolFault unit) : option (PagePool * result PoolFault unit) :=
  match check_phys p phys with
  | Err e => Some (p, Err e)
  | Ok _ => m ← pp_meta p !! phys; Some (f m)
  end.

Definition dec_table_ref (p : PagePool) (phys : nat) : option (PagePool * result PoolFault unit) :=
  on_page p phys (λ m,
    if (pg_table_refs m =? 0)%Z then (p, Err (TableUnderflow phys))
    else
      let m := with_table_refs m (pg_table_refs m - 1) in
      (if (pg_table_refs m =? 0)%Z then
         if (0 <? pg_cache_refs m)%Z then set_meta p phys (with_state m CacheOnly)
         else if (0 <? pg_inflight_refs m)%Z then pend_page p phys m
         else free_page p phys m
       else set_meta p phys m, Ok tt)).

Definition release_reserved (p : PagePool) (phys : nat) : option PagePool :=
  m ← pp_meta p !! phys; Some (free_page p phys (with_table_refs m 0)).

Definition check_attachable (p : PagePool) (phys : nat) : option (result PoolFault unit) :=
  match check_phys p phys with
  | Err e => Some (Err e)
  | Ok _ =>
      m ← pp_meta p !! phys;
      Some (if bool_decide (pg_state m = Free) then Err (PageIsFree phys)
            else if bool_decide (pg_state m = ReclaimPending) then Err (PageIsPending phys)
            else if (pg_table_refs m =? umax 32)%Z then Err (RefOverflow phys)
            else Ok tt)
  end.

(** A page that gains a second reference is sealed. *)
Definition seal_private (m : PageMeta) : PageMeta := if bool_decide (pg_state m = Private) then with_state m Sealed else m.

Definition refcount_inc (p : PagePool) (phys : nat) : option (PagePool * result PoolFault unit) :=
  on_page p phys (λ m,
    if bool_decide (pg_state m = Free) then (p, Err (PageIsFree phys))
    else if bool_decide (pg_state m = ReclaimPending) then (p, Err (PageIsPending phys))
    else match checked_add 32 (pg_table_refs m) 1 with
         | None => (p, Err (RefOverflow phys))
         | Some r => (set_meta p phys (seal_private (with_table_refs m r)), Ok tt)
         end).

Definition seal (p : PagePool) (phys : nat) : option (PagePool * result PoolFault unit) :=
  on_page p phys (λ m,
    match pg_state m with
    | Private => (set_meta p phys (with_state m Sealed), Ok tt)
    | Sealed => (p, Ok tt)
    | s => (p, Err (CannotSeal phys s))
    end).

Definition add_inflight_ref (p : PagePool) (phys : nat) : option (PagePool * result PoolFault unit) :=
  on_page p phys (λ m,
    if bool_decide (pg_state m = Free) then (p, Err (PageIsFree phys))
    else if bool_decide (pg_state m = ReclaimPending) then (p, Err (PageIsPending phys))
    else match checked_add 32 (pg_inflight_refs m) 1 with
         | None => (p, Err (RefOverflow phys))
         | Some r => (set_meta p phys (with_inflight_refs m r), Ok tt)
         end).

Definition release_inflight_ref (p : PagePool) (phys : nat) : option (PagePool * result PoolFault unit) :=
  on_page p phys (λ m,
    if (pg_inflight_refs m =? 0)%Z then (p, Err (Underflow phys))
    else (set_meta p phys (with_inflight_refs m (pg_inflight_refs m - 1)), Ok tt)).

Definition add_cache_ref (p : PagePool) (phys : nat) : option (PagePool * result PoolFault unit) :=
  on_page p phys (λ m,
    if bool_decide (pg_state m = Free) then (p, Err (PageIsFree phys))
    else if bool_decide (pg_state m = ReclaimPending) then (p, Err (PageIsPending phys))
    else match checked_add 32 (pg_cache_refs m) 1 with
         | None => (p, Err (RefOverflow phys))
         | Some r => (set_meta p phys (seal_private (with_cache_refs m r)), Ok tt)
         end).

Definition release_cache_ref (p : PagePool) (phys : nat) : option (PagePool * result PoolFault unit) :=
  on_page p phys (λ m,
    if (pg_cache_refs m =? 0)%Z then (p, Err (Underflow phys))
    else
      let m := with_cache_refs m (pg_cache_refs m - 1) in
      (if (pg_table_refs m =? 0)%Z && (pg_cache_refs m =? 0)%Z then
         if (0 <? pg_inflight_refs m)%Z then pend_page p phys m else free_page p phys m
       else set_meta p phys m, Ok tt)).

(** ** Operations on tables *)

(** Pop of the free list; the page becomes private with a new generation. *)
Definition alloc_one (p : PagePool) : option (PagePool * PageHandle) :=
  page ← last (pp_free_pages p);
  m ← pp_meta p !! page;
  let g := bump (pg_generation m) in
  Some (set_free (set_meta p page (mkMeta Private g 1 (pg_cache_refs m) (pg_inflight_refs m))) (removelast (pp_free_pages p)),
        mkHandle page (pp_epoch p) g).

Fixpoint alloc_loop (n : nat) (p : PagePool) (t : BlockTable) (handles : list PageHandle) : option (PagePool * BlockTable * list PageHandle) :=
  match n with
  | 0 => Some (p, t, handles)
  | S n => '(p, h) ← alloc_one p; alloc_loop n p (push_page t (ph_phys h)) (handles ++ [h])
  end.

Definition alloc_pages (p : PagePool) (t : BlockTable) (n_pages : nat) : option (PagePool * BlockTable * nat) :=
  let can_alloc := n_pages `min` length (pp_free_pages p) in
  '(p, t, _) ← alloc_loop can_alloc p t []; Some (p, t, can_alloc).

Definition alloc_pages_checked (p : PagePool) (t : BlockTable) (n_pages : nat) : option (PagePool * BlockTable * result PoolFault (list PageHandle)) :=
  if length (pp_free_pages p) <? n_pages then Some (p, t, Err (TooFewFree n_pages (length (pp_free_pages p))))
  else '(p, t, hs) ← alloc_loop n_pages p t []; Some (p, t, Ok hs).

(** A refusal in the middle leaves the pages attached so far. *)
Fixpoint share_loop (p : PagePool) (pages : list nat) (dst : BlockTable) : option (PagePool * BlockTable * result PoolFault unit) :=
  match pages with
  | [] => Some (p, dst, Ok tt)
  | phys :: pages =>
      match check_phys p phys with
      | Err e => Some (p, dst, Err e)
      | Ok _ =>
          m ← pp_meta p !! phys;
          match checked_add 32 (pg_table_refs m) 1 with
          | None => Some (p, dst, Err (RefOverflow phys))
          | Some r => share_loop (set_meta p phys (with_state (with_table_refs m r) Sealed)) pages (push_page dst phys)
          end
      end
  end.

Definition pool_share_prefix (p : PagePool) (src dst : BlockTable) (n_pages : nat) : option (PagePool * BlockTable * result PoolFault unit) :=
  if length (bt_pages src) <? n_pages then Some (p, dst, Err (SourceShort (length (bt_pages src)) n_pages))
  else if bt_live_tokens src <? n_pages * PAGE_TOKENS then Some (p, dst, Err (PartialPage (n_pages * PAGE_TOKENS) (bt_live_tokens src)))
  else if negb (length (bt_pages dst) =? 0) then Some (p, dst, Err (NotEmpty (length (bt_pages dst))))
  else share_loop p (take n_pages (bt_pages src)) dst.

(** Every page is tried; [bad] tells whether one refused. *)
Fixpoint release_loop (p : PagePool) (pages : list nat) (bad : bool) : option (PagePool * bool) :=
  match pages with
  | [] => Some (p, bad)
  | phys :: pages =>
      '(p, r) ← dec_table_ref p phys;
      release_loop p pages (match r with Ok _ => bad | Err _ => true end)
  end.

Definition release_table (p : PagePool) (t : BlockTable) : option (PagePool * BlockTable * result PoolFault unit) :=
  '(p, bad) ← release_loop p (bt_pages t) false;
  Some (p, table_new, match bad with true => Err ReleaseUnderflow | false => Ok tt end).

Fixpoint verify_tail (p : PagePool) (pages : list nat) : option (result PoolFault unit) :=
  match pages with
  | [] => Some (Ok tt)
  | phys :: pages =>
      m ← pp_meta p !! phys;
      if (pg_table_refs m =? 0)%Z then Some (Err (TableUnderflow phys)) else verify_tail p pages
  end.

(** The first refusal ends the loop. *)
Fixpoint dec_loop (p : PagePool) (pages : list nat) : option (PagePool * result PoolFault unit) :=
  match pages with
  | [] => Some (p, Ok tt)
  | phys :: pages =>
      '(p, r) ← dec_table_ref p phys;
      match r with Ok _ => dec_loop p pages | Err e => Some (p, Err e) end
  end.

Definition free_pages_from_tail (p : PagePool) (t : BlockTable) (n_pages : nat) : option (PagePool * BlockTable * result PoolFault unit) :=
  let keep := length (bt_pages t) - n_pages in
  v ← verify_tail p (drop keep (bt_pages t));
  match v with
  | Err e => Some (p, t, Err e)
  | Ok _ => let '(t, freed) := truncate t keep in '(p, r) ← dec_loop p freed; Some (p, t, r)
  end.

Definition div_ceil (a b : nat) : nat := (a + (b - 1)) / b.

Definition ensure_capacity (p : PagePool) (t : BlockTable) (n_tokens : nat) : option (PagePool * BlockTable * result PoolFault nat) :=
  let needed_pages := div_ceil n_tokens PAGE_TOKENS in
  let current_pages := length (bt_pages t) in
  if needed_pages <=? current_pages then t ← set_live_tokens t n_tokens; Some (p, t, Ok 0)
  else
    let to_alloc := needed_pages - current_pages in
    if length (pp_free_pages p) <? to_alloc then Some (p, t, Err (TooFewFree to_alloc (length (pp_free_pages p))))
    else
      '(p, t, allocated) ← alloc_pages p t to_alloc;
      t ← set_live_tokens t n_tokens;
      Some (p, t, Ok allocated).

(** *** Copy on write *)

Fixpoint release_all (p : PagePool) (pages : list nat) : option PagePool :=
  match pages with
  | [] => Some p
  | phys :: pages => p ← release_reserved p phys; release_all p pages
  end.

(** One logical page of the interval: a page that may not be written gets a
    reserved destination; without one the reservations made are undone. *)
Fixpoint plan_loop (p : PagePool) (t : BlockTable) (write_start : nat) (lps : list nat) (copies : list CowCopy)
  : option (PagePool * result PoolFault (list CowCopy)) :=
  match lps with
  | [] => Some (p, Ok copies)
  | lpage :: lps =>
      match bt_pages t !! lpage with
      | None => plan_loop p t write_start lps copies
      | Some phys =>
          m ← pp_meta p !! phys;
          match pg_state m with
          | Sealed | CacheOnly =>
              match last (pp_free_pages p) with
              | None => p ← release_all p (map cw_dst_phys copies); Some (p, Err (NoCowPage lpage phys))
              | Some _ =>
                  '(p, h) ← alloc_one p;
                  let valid := (write_start - lpage * PAGE_TOKENS) `min` PAGE_TOKENS in
                  plan_loop p t write_start lps
                    (copies ++ [mkCopy lpage phys (ph_phys h) valid (valid * pp_k_per_pos_bytes p) (valid * pp_v_per_pos_bytes p)])
              end
          | _ => plan_loop p t write_start lps copies
          end
      end
  end.

(** Logical pages of the interval [write_start, write_end). *)
Definition interval_pages (write_start write_end : nat) : list nat :=
  let first_lp := write_start / PAGE_TOKENS in
  let last_lp := (write_end - 1) / PAGE_TOKENS in
  seq first_lp (last_lp + 1 - first_lp).

Definition plan_cow (p : PagePool) (t : BlockTable) (write_start write_end : nat) : option (PagePool * result PoolFault CowPlan) :=
  if write_end <? write_start then Some (p, Err BadInterval)
  else if write_end =? write_start then Some (p, Ok (mkPlan [] false))
  else
    '(p, r) ← plan_loop p t write_start (interval_pages write_start write_end) [];
    Some (p, match r with Ok copies => Ok (mkPlan copies true) | Err e => Err e end).

Fixpoint commit_verify (p : PagePool) (t : BlockTable) (copies : list CowCopy) : option (result PoolFault unit) :=
  match copies with
  | [] => Some (Ok tt)
  | c :: copies =>
      if bool_decide (bt_pages t !! cw_logical_page c = Some (cw_src_phys c)) then
        m ← pp_meta p !! cw_src_phys c;
        if (pg_table_refs m =? 0)%Z then Some (Err (SourceUnreferenced (cw_src_phys c))) else commit_verify p t copies
      else Some (Err (TableChanged (cw_logical_page c) (cw_src_phys c)))
  end.

Fixpoint commit_apply (p : PagePool) (t : BlockTable) (copies : list CowCopy) : option (PagePool * BlockTable * result PoolFault unit) :=
  match copies with
  | [] => Some (p, t, Ok tt)
  | c :: copies =>
      let t := set_page t (cw_logical_page c) (cw_dst_phys c) in
      '(p, r) ← dec_table_ref p (cw_src_phys c);
      match r with Ok _ => commit_apply p t copies | Err e => Some (p, t, Err e) end
  end.

Definition abort_cow (p : PagePool) (plan : CowPlan) : option PagePool := release_all p (map cw_dst_phys (cp_copies plan)).

Definition commit_cow (p : PagePool) (t : BlockTable) (plan : CowPlan) : option (PagePool * BlockTable * result PoolFault unit) :=
  v ← commit_verify p t (cp_copies plan);
  match v with
  | Err e => p ← release_all p (map cw_dst_phys (cp_copies plan)); Some (p, t, Err e)
  | Ok _ => commit_apply p t (cp_copies plan)
  end.

(** *** Deferred reclaim *)

Fixpoint drain_loop (p : PagePool) (pending still freed : list nat) : option (PagePool * list nat * list nat) :=
  match pending with
  | [] => Some (p, still, freed)
  | phys :: pending =>
      m ← pp_meta p !! phys;
      if (pg_inflight_refs m =? 0)%Z && (pg_table_refs m =? 0)%Z && (pg_cache_refs m =? 0)%Z
      then drain_loop (free_page p phys m) pending still (freed ++ [phys])
      else drain_loop p pending (still ++ [phys]) freed
  end.

Definition drain_completed (p : PagePool) : option (PagePool * list nat) :=
  '(p, still, freed) ← drain_loop p (pp_reclaim_pending p) [] [];
  Some (set_pending p still, freed).

(** *** The check of the accounting *)

Definition add_u32 (a b : Z) : option Z := checked_add 32 a b.
Definition assert_ (b : bool) : option unit := if b then Some tt else None.

Fixpoint check_free (p : PagePool) (seen : list bool) (pages : list nat) : option (list bool) :=
  match pages with
  | [] => Some seen
  | phys :: pages =>
      m ← pp_meta p !! phys;
      _ ← assert_ (bool_decide (pg_state m = Free));
      r ← add_u32 (pg_table_refs m) (pg_cache_refs m);
      r ← add_u32 r (pg_inflight_refs m);
      _ ← assert_ (r =? 0)%Z;
      was ← seen !! phys;
      _ ← assert_ (negb was);
      check_free p (<[phys:=true]> seen) pages
  end.

Fixpoint check_pending (p : PagePool) (seen : list bool) (pages : list nat) : option (list bool) :=
  match pages with
  | [] => Some seen
  | phys :: pages =>
      m ← pp_meta p !! phys;
      _ ← assert_ (bool_decide (pg_state m = ReclaimPending));
      r ← add_u32 (pg_table_refs m) (pg_cache_refs m);
      _ ← assert_ (r =? 0)%Z;
      was ← seen !! phys;
      _ ← assert_ (negb was);
      check_pending p (<[phys:=true]> seen) pages
  end.

Fixpoint count_resident (metas : list PageMeta) (accounted : nat) : option nat :=
  match metas with
  | [] => Some accounted
  | m :: metas =>
      match pg_state m with
      | Private | Sealed | CacheOnly =>
          r ← add_u32 (pg_table_refs m) (pg_cache_refs m);
          _ ← assert_ (0 <? r)%Z;
          count_resident metas (accounted + 1)
      | Free | ReclaimPending => count_resident metas accounted
      end
  end.

Definition check_invariants (p : PagePool) : option unit :=
  seen ← check_free p (replicate (pp_n_pages p) false) (pp_free_pages p);
  _ ← check_pending p seen (pp_reclaim_pending p);
  accounted ← count_resident (pp_meta p) (length (pp_free_pages p) + length (pp_reclaim_pending p));
  assert_ (accounted =? pp_n_pages p).

(** ** Descriptors ([kv_slots.rs]) *)

Record KvSlotDesc := mkSlotDesc { sd_block_table : Z; sd_legacy_k_base : Z; sd_legacy_v_base : Z; sd_seq_len : Z; sd_page_tokens : Z }.

Definition i32_max : Z := 2147483647.
Definition as_i32 (n : nat) : Z :=
  let w := (Z.of_nat n mod 2 ^ 32)%Z in if (i32_max <? w)%Z then (w - 2 ^ 32)%Z else w.

Definition make_desc (t : BlockTable) (block_table_dev_addr : Z) : KvSlotDesc :=
  mkSlotDesc block_table_dev_addr 0 0 (Z.min (Z.of_nat (bt_live_tokens t)) i32_max) (Z.of_nat PAGE_TOKENS).
Definition make_legacy_desc (base : Z) (seq_len : nat) : KvSlotDesc :=
  mkSlotDesc 0 base base (Z.min (Z.of_nat seq_len) i32_max) 0.

Definition with_seq_len (d : KvSlotDesc) (n : Z) : KvSlotDesc :=
  mkSlotDesc (sd_block_table d) (sd_legacy_k_base d) (sd_legacy_v_base d) n (sd_page_tokens d).

(** ** Slots *)

Record SlotLease := mkLease { sl_id : nat; sl_generation : Z }.

Record SlotPool := mkSlotPool {
  sp_descs : list KvSlotDesc;
  sp_in_use : list bool;
  sp_cap_tokens : nat;
  sp_k_per_pos_bytes : nat;
  sp_v_per_pos_bytes : nat;
  sp_dirty : bool;
  sp_page_pool : option PagePool;
  sp_block_tables : list (option BlockTable);
  sp_tables_dirty : list bool;
  sp_generations : list Z
}.

(** A product of [usize]; overflow panics. *)
Definition mul_usize (a b : nat) : option nat := if (Z.of_nat a * Z.of_nat b <=? umax 64)%Z then Some (a * b) else None.

(** [cap_tokens] rounded up to whole pages. *)
Definition slot_cap (cap_tokens : nat) : option nat := mul_usize (div_ceil cap_tokens PAGE_TOKENS) PAGE_TOKENS.

Definition slots_init (descs : list KvSlotDesc) (n_slots cap k v : nat) (pool : option PagePool) : SlotPool :=
  mkSlotPool descs (replicate n_slots false) cap k v true pool (replicate n_slots None) (replicate n_slots false) (replicate n_slots 0%Z).

Definition slot_pool_new (within_budget : Z → bool) (n_slots cap_tokens k_per_pos v_per_pos : nat) : exec PoolFault SlotPool :=
  if (n_slots =? 0) || (k_per_pos =? 0) || (v_per_pos =? 0) then Panic
  else
    cap ← unwrap (slot_cap cap_tokens);
    k_slab ← unwrap (mul_usize cap k_per_pos);
    v_slab ← unwrap (mul_usize cap v_per_pos);
    sum ← try_ (ok_or (checked_add 64 (Z.of_nat k_slab) (Z.of_nat v_slab)) ArenaOverflow);
    total ← try_ (ok_or (checked_mul 64 sum (Z.of_nat n_slots)) ArenaOverflow);
    if within_budget total then
      Done (slots_init (map (λ i, mkSlotDesc 0 (Z.of_nat i * Z.of_nat k_slab) (Z.of_nat i * Z.of_nat v_slab) 0 0) (seq 0 n_slots))
              n_slots cap k_per_pos v_per_pos None)
    else Fail OverBudget.

Definition slot_pool_new_paged (within_budget : Z → bool) (n_slots cap_tokens k_per_pos v_per_pos n_pages : nat) : exec PoolFault SlotPool :=
  if (n_slots =? 0) || (k_per_pos =? 0) || (v_per_pos =? 0) then Panic
  else
    cap ← unwrap (slot_cap cap_tokens);
    pool ← page_pool_new within_budget n_pages k_per_pos v_per_pos;
    Done (slots_init (replicate n_slots (mkSlotDesc 0 0 0 0 0)) n_slots cap k_per_pos v_per_pos (Some pool)).

Definition put_descs (s : SlotPool) (descs : list KvSlotDesc) (dirty : bool) : SlotPool :=
  mkSlotPool descs (sp_in_use s) (sp_cap_tokens s) (sp_k_per_pos_bytes s) (sp_v_per_pos_bytes s) dirty (sp_page_pool s)
    (sp_block_tables s) (sp_tables_dirty s) (sp_generations s).
Definition put_in_use (s : SlotPool) (in_use : list bool) : SlotPool :=
  mkSlotPool (sp_descs s) in_use (sp_cap_tokens s) (sp_k_per_pos_bytes s) (sp_v_per_pos_bytes s) (sp_dirty s) (sp_page_pool s)
    (sp_block_tables s) (sp_tables_dirty s) (sp_generations s).
Definition put_pool (s : SlotPool) (p : PagePool) : SlotPool :=
  mkSlotPool (sp_descs s) (sp_in_use s) (sp_cap_tokens s) (sp_k_per_pos_bytes s) (sp_v_per_pos_bytes s) (sp_dirty s) (Some p)
    (sp_block_tables s) (sp_tables_dirty s) (sp_generations s).
Definition put_table (s : SlotPool) (id : nat) (t : option BlockTable) : SlotPool :=
  mkSlotPool (sp_descs s) (sp_in_use s) (sp_cap_tokens s) (sp_k_per_pos_bytes s) (sp_v_per_pos_bytes s) (sp_dirty s) (sp_page_pool s)
    (<[id:=t]> (sp_block_tables s)) (sp_tables_dirty s) (sp_generations s).
Definition put_tables_dirty (s : SlotPool) (dirty : list bool) : SlotPool :=
  mkSlotPool (sp_descs s) (sp_in_use s) (sp_cap_tokens s) (sp_k_per_pos_bytes s) (sp_v_per_pos_bytes s) (sp_dirty s) (sp_page_pool s)
    (sp_block_tables s) dirty (sp_generations s).
Definition put_generations (s : SlotPool) (gs : list Z) : SlotPool :=
  mkSlotPool (sp_descs s) (sp_in_use s) (sp_cap_tokens s) (sp_k_per_pos_bytes s) (sp_v_per_pos_bytes s) (sp_dirty s) (sp_page_pool s)
    (sp_block_tables s) (sp_tables_dirty s) gs.

(** The pool and a table after an operation on them. *)
Definition put_pool_table (s : SlotPool) (id : nat) (p : PagePool) (t : BlockTable) : SlotPool := put_table (put_pool s p) id (Some t).
Definition mark_table (s : SlotPool) (id : nat) : SlotPool := put_tables_dirty s (<[id:=true]> (sp_tables_dirty s)).

(** [descs[id].seq_len = n], which dirties the descriptors when it changes. *)
Definition set_desc_len (s : SlotPool) (id : nat) (n : Z) : option SlotPool :=
  d ← sp_descs s !! id;
  Some (if negb (sd_seq_len d =? n)%Z then put_descs s (<[id:=with_seq_len d n]> (sp_descs s)) true else s).

Definition reset (s : SlotPool) (id : nat) : option SlotPool :=
  s ← set_desc_len s id 0;
  match sp_page_pool s with
  | None => Some s
  | Some pool =>
      ot ← sp_block_tables s !! id;
      s ← match ot with
          | Some t =>
              if 0 <? length (bt_pages t) then
                '(pool, t, _) ← release_table pool t; Some (mark_table (put_pool_table s id pool t) id)
              else Some s
          | None => Some s
          end;
      d ← sp_descs s !! id;
      Some (put_descs s (<[id:=mkSlotDesc 0 0 0 (sd_seq_len d) 0]> (sp_descs s)) (sp_dirty s))
  end.

Definition acquire (s : SlotPool) : option (SlotPool * option nat) :=
  match position negb (sp_in_use s) with
  | None => Some (s, None)
  | Some i =>
      s ← reset (put_in_use s (<[i:=true]> (sp_in_use s))) i;
      Some (match sp_page_pool s with Some _ => mark_table (put_table s i (Some table_new)) i | None => s end, Some i)
  end.

Definition release (s : SlotPool) (id : nat) : option SlotPool :=
  s ← reset s id;
  s ← match sp_page_pool s with
      | None => Some s
      | Some pool =>
          ot ← sp_block_tables s !! id;
          s ← match ot with
              | Some t => '(pool, t, _) ← release_table pool t; Some (put_pool_table s id pool t)
              | None => Some s
              end;
          Some (put_tables_dirty (put_table s id None) (<[id:=false]> (sp_tables_dirty s)))
      end;
  g ← sp_generations s !! id;
  Some (put_in_use (put_generations s (<[id:=bump g]> (sp_generations s))) (<[id:=false]> (sp_in_use s))).

Definition check_len (s : SlotPool) (seq_len : nat) : result PoolFault unit :=
  if sp_cap_tokens s <? seq_len then Err (OverCap seq_len (sp_cap_tokens s))
  else if (i32_max <? Z.of_nat seq_len)%Z then Err (DescriptorRange seq_len)
  else Ok tt.

Definition provision_pages_for (s : SlotPool) (id seq_len : nat) : option (SlotPool * result PoolFault unit) :=
  match check_len s seq_len with
  | Err e => Some (s, Err e)
  | Ok _ =>
      match sp_page_pool s with
      | None => Some (s, Ok tt)
      | Some pool =>
          ot ← sp_block_tables s !! id;
          match ot with
          | None => Some (s, Err (NoBlockTable id))
          | Some t =>
              '(pool, t, r) ← ensure_capacity pool t seq_len;
              let s := put_pool_table s id pool t in
              Some (match r with Ok _ => (mark_table s id, Ok tt) | Err e => (s, Err e) end)
          end
      end
  end.

Definition set_seq_len (s : SlotPool) (id seq_len : nat) : option (SlotPool * result PoolFault unit) :=
  '(s, r) ← provision_pages_for s id seq_len;
  match r with
  | Err e => Some (s, Err e)
  | Ok _ => s ← set_desc_len s id (as_i32 seq_len); Some (s, Ok tt)
  end.

Definition publish_seq_len (s : SlotPool) (id seq_len : nat) : option (SlotPool * result PoolFault unit) :=
  match check_len s seq_len with
  | Err e => Some (s, Err e)
  | Ok _ => s ← set_desc_len s id (as_i32 seq_len); Some (s, Ok tt)
  end.

Definition descriptors_dirty (s : SlotPool) : bool := sp_dirty s || existsb id (sp_tables_dirty s).
Definition mark_uploaded (s : SlotPool) : SlotPool :=
  put_tables_dirty (put_descs s (sp_descs s) false) (map (λ _, false) (sp_tables_dirty s)).

(** [block_tables.get(id).and_then(..)]: out of range is no table. *)
Definition block_table (s : SlotPool) (id : nat) : option BlockTable :=
  match sp_block_tables s !! id with Some ot => ot | None => None end.

Definition activate_paged_desc (s : SlotPool) (id : nat) (block_table_dev_addr : Z) : option SlotPool :=
  t ← block_table s id;
  _ ← sp_descs s !! id;
  Some (put_descs s (<[id:=mkSlotDesc block_table_dev_addr 0 0 (as_i32 (bt_live_tokens t)) (Z.of_nat PAGE_TOKENS)]> (sp_descs s)) true).

(** The fork of a table with shared pages. *)
Definition publish_shared (s : SlotPool) (id live : nat) (t : BlockTable) : option SlotPool :=
  t ← set_live_tokens t live;
  let s := put_table s id (Some t) in
  d ← sp_descs s !! id;
  Some (mark_table (put_descs s (<[id:=with_seq_len d (as_i32 live)]> (sp_descs s)) true) id).

Definition share_prefix (s : SlotPool) (src dst n_pages : nat) : option (SlotPool * result PoolFault unit) :=
  live ← mul_usize n_pages PAGE_TOKENS;
  if sp_cap_tokens s <? live then Some (s, Err (OverCap live (sp_cap_tokens s)))
  else match block_table s src, block_table s dst, sp_page_pool s with
       | None, _, _ => Some (s, Err (NoBlockTable src))
       | Some _, None, _ => Some (s, Err (NoBlockTable dst))
       | Some _, Some _, None => Some (s, Err NotPaged)
       | Some src_snap, Some dst_bt, Some pool =>
           '(pool, t, r) ← pool_share_prefix pool src_snap dst_bt n_pages;
           let s := put_pool_table s dst pool t in
           match r with
           | Err e => Some (s, Err e)
           | Ok _ => s ← publish_shared s dst live t; Some (s, Ok tt)
           end
       end.

Fixpoint attachable_all (p : PagePool) (pages : list nat) : option (result PoolFault unit) :=
  match pages with
  | [] => Some (Ok tt)
  | phys :: pages => r ← check_attachable p phys; match r with Err e => Some (Err e) | Ok _ => attachable_all p pages end
  end.

Fixpoint attach_loop (p : PagePool) (pages : list nat) (t : BlockTable) : option (PagePool * BlockTable * result PoolFault unit) :=
  match pages with
  | [] => Some (p, t, Ok tt)
  | phys :: pages =>
      '(p, r) ← refcount_inc p phys;
      match r with Err e => Some (p, t, Err e) | Ok _ => attach_loop p pages (push_page t phys) end
  end.

Definition share_published_pages (s : SlotPool) (dst : nat) (phys_pages : list nat) : option (SlotPool * result PoolFault unit) :=
  live ← mul_usize (length phys_pages) PAGE_TOKENS;
  if sp_cap_tokens s <? live then Some (s, Err (OverCap live (sp_cap_tokens s)))
  else match sp_page_pool s, block_table s dst with
       | None, _ => Some (s, Err NotPaged)
       | Some _, None => Some (s, Err (NoBlockTable dst))
       | Some pool, Some bt =>
           if negb (length (bt_pages bt) =? 0) then Some (s, Err (NotEmpty (length (bt_pages bt))))
           else
             r ← attachable_all pool phys_pages;
             match r with
             | Err e => Some (s, Err e)
             | Ok _ =>
                 '(pool, t, r) ← attach_loop pool phys_pages bt;
                 let s := put_pool_table s dst pool t in
                 match r with
                 | Err e => Some (s, Err e)
                 | Ok _ => s ← publish_shared s dst live t; Some (s, Ok tt)
                 end
             end
       end.

Definition plan_cow_for_slot (s : SlotPool) (slot write_start write_end : nat) : option (SlotPool * result PoolFault CowPlan) :=
  match sp_page_pool s, block_table s slot with
  | None, _ => Some (s, Err NotPaged)
  | Some _, None => Some (s, Err (NoBlockTable slot))
  | Some pool, Some bt => '(pool, r) ← plan_cow pool bt write_start write_end; Some (put_pool s pool, r)
  end.

(** A plan refused here is dropped while it is armed. *)
Definition commit_cow_for_slot (s : SlotPool) (slot : nat) (plan : CowPlan) : option (SlotPool * result PoolFault unit) :=
  match sp_page_pool s, block_table s slot with
  | None, _ => Some (s, Err NotPaged)
  | Some _, None => Some (s, Err (NoBlockTable slot))
  | Some pool, Some bt =>
      '(pool, bt, r) ← commit_cow pool bt plan;
      let s := put_pool_table s slot pool bt in
      Some (match r with
            | Err e => (s, Err e)
            | Ok _ => let s := mark_table s slot in (put_descs s (sp_descs s) true, Ok tt)
            end)
  end.

Definition abort_cow_for_slot (s : SlotPool) (plan : CowPlan) : option SlotPool :=
  match sp_page_pool s with None => Some s | Some pool => pool ← abort_cow pool plan; Some (put_pool s pool) end.

(** *** Leases of slots *)

Definition slot_generation (s : SlotPool) (slot : nat) : Z := default 0%Z (sp_generations s !! slot).

Definition acquire_leased (s : SlotPool) : option (SlotPool * option SlotLease) :=
  '(s, o) ← acquire s;
  Some (s, match o with Some i => Some (mkLease i (slot_generation s i)) | None => None end).

Definition validate_generation (s : SlotPool) (l : SlotLease) : option (result PoolFault unit) :=
  if negb (slot_generation s (sl_id l) =? sl_generation l)%Z then Some (Err (StaleLease (sl_id l)))
  else used ← sp_in_use s !! sl_id l; Some (if negb used then Err (SlotNotInUse (sl_id l)) else Ok tt).

Definition with_lease {A} (s : SlotPool) (l : SlotLease) (f : SlotPool → option (SlotPool * result PoolFault A)) : option (SlotPool * result PoolFault A) :=
  v ← validate_generation s l;
  match v with Err e => Some (s, Err e) | Ok _ => f s end.

Definition release_leased (s : SlotPool) (l : SlotLease) : option (SlotPool * result PoolFault unit) :=
  with_lease s l (λ s, s ← release s (sl_id l); Some (s, Ok tt)).
Definition set_seq_len_leased (s : SlotPool) (l : SlotLease) (seq_len : nat) : option (SlotPool * result PoolFault unit) :=
  with_lease s l (λ s, set_seq_len s (sl_id l) seq_len).
Definition share_prefix_leased (s : SlotPool) (src dst : SlotLease) (n_pages : nat) : option (SlotPool * result PoolFault unit) :=
  with_lease s src (λ s, with_lease s dst (λ s, share_prefix s (sl_id src) (sl_id dst) n_pages)).
