(* ===== verification/SlotPoolOk.v ===== *)
(** * The accounting of pages

    [pool_inv] relates the pool to the pages that tables map ([held]) and that
    copy-on-write plans reserve ([res]).  Every operation keeps it. *)

From S2P Require Import Prelude SlotPool.

Local Abbreviation occ := (count_occ Nat.eq_dec).

Record page_ok (p : PagePool) (held res : list nat) (x : nat) (m : PageMeta) : Prop := {
  po_refs : pg_table_refs m = Z.of_nat (occ held x + occ res x);
  po_cache : (0 ≤ pg_cache_refs m)%Z;
  po_inflight : (0 ≤ pg_inflight_refs m)%Z;
  po_state : match pg_state m with
             | Free => (pg_table_refs m = 0 ∧ pg_cache_refs m = 0 ∧ pg_inflight_refs m = 0)%Z
             | Private => (pg_table_refs m = 1 ∧ pg_cache_refs m = 0)%Z
             | Sealed | CacheOnly => (0 < pg_table_refs m + pg_cache_refs m)%Z
             | ReclaimPending => (pg_table_refs m = 0 ∧ pg_cache_refs m = 0)%Z
             end;
  po_free : x ∈ pp_free_pages p ↔ pg_state m = Free;
  po_pend : x ∈ pp_reclaim_pending p ↔ pg_state m = ReclaimPending
}.

Record pool_inv (p : PagePool) (held res : list nat) : Prop := {
  pi_len : length (pp_meta p) = pp_n_pages p;
  pi_free : NoDup (pp_free_pages p);
  pi_pend : NoDup (pp_reclaim_pending p);
  pi_range : ∀ x, x ∈ held ++ res ++ pp_free_pages p ++ pp_reclaim_pending p → x < pp_n_pages p;
  pi_page : ∀ x m, pp_meta p !! x = Some m → page_ok p held res x m
}.

(** ** Counting *)

Lemma occ_cons x y l : occ (x :: l) y = (if decide (x = y) then 1 else 0) + occ l y.
Proof. simpl. destruct (Nat.eq_dec x y), (decide (x = y)); congruence || lia. Qed.

#[local] Arguments count_occ : simpl never.

Lemma occ_pos l x : x ∈ l ↔ 0 < occ l x.
Proof. rewrite list_elem_of_In. apply count_occ_In. Qed.

Lemma occ_insert l i x y z : l !! i = Some x →
  occ (<[i:=y]> l) z + (if decide (x = z) then 1 else 0) = occ l z + (if decide (y = z) then 1 else 0).
Proof.
  intros H. rewrite (insert_take_drop _ _ _ (lookup_lt_Some _ _ _ H)). rewrite <-(take_drop_middle l i x H) at 3.
  rewrite !count_occ_app, !occ_cons. lia.
Qed.

Lemma occ_perm l k x : l ≡ₚ k → occ l x = occ k x.
Proof. intros H. by apply (Permutation_count_occ Nat.eq_dec). Qed.

Lemma range_counts (p : PagePool) held res held' res' :
  (∀ y, occ held y = occ held' y) → (∀ y, occ res y = occ res' y) →
  (∀ x, x ∈ held ++ res ++ pp_free_pages p ++ pp_reclaim_pending p → x < pp_n_pages p) →
  ∀ x, x ∈ held' ++ res' ++ pp_free_pages p ++ pp_reclaim_pending p → x < pp_n_pages p.
Proof. intros H1 H2 H x. specialize (H x). rewrite !elem_of_app, !occ_pos in *. rewrite <-H1, <-H2. tauto. Qed.

(** Only the counts matter, and a reserved page may become a mapped one. *)
Lemma pool_inv_counts p held res held' res' :
  pool_inv p held res → (∀ y, occ held y + occ res y = occ held' y + occ res' y) → pool_inv p held' res'.
Proof.
  intros [Hl Hf Hp Hr Hpg] H1. split; auto.
  - intros x. specialize (Hr x). specialize (H1 x). rewrite !elem_of_app, !occ_pos in *.
    assert (0 < occ held' x ∨ 0 < occ res' x → 0 < occ held x ∨ 0 < occ res x) by lia. tauto.
  - intros x m Hm. destruct (Hpg x m Hm). split; auto. specialize (H1 x). lia.
Qed.

Lemma pool_inv_perm p held held' res res' : pool_inv p held res → held ≡ₚ held' → res ≡ₚ res' → pool_inv p held' res'.
Proof. intros H H1 H2. apply (pool_inv_counts _ _ _ _ _ H); intros y; rewrite ?(occ_perm _ _ y H1), ?(occ_perm _ _ y H2); lia. Qed.

Lemma pool_lookup p held res x : pool_inv p held res → x ∈ held ++ res ++ pp_free_pages p ++ pp_reclaim_pending p → ∃ m, pp_meta p !! x = Some m.
Proof. intros H Hx. apply lookup_lt_is_Some. rewrite (pi_len _ _ _ H). by apply (pi_range _ _ _ H). Qed.

Lemma held_lookup p held res x : pool_inv p held res → x ∈ held → ∃ m, pp_meta p !! x = Some m ∧ page_ok p held res x m ∧ pg_state m ≠ Free ∧ pg_state m ≠ ReclaimPending.
Proof.
  intros H Hx. destruct (pool_lookup _ _ _ x H) as [m Hm]; [set_solver|]. exists m. pose proof (pi_page _ _ _ H x m Hm) as P.
  split; [done|]. split; [done|]. apply occ_pos in Hx. destruct P as [P1 P2 P3 P4 P5 P6].
  destruct (pg_state m) eqn:E; split_and!; done || lia.
Qed.

Lemma check_phys_lt p x m : length (pp_meta p) = pp_n_pages p → pp_meta p !! x = Some m → check_phys p x = Ok tt.
Proof. unfold check_phys. intros <- H%lookup_lt_Some. by apply Nat.ltb_lt in H as ->. Qed.

(** ** Updates of one page *)

Lemma update_inv p x m m' free' pend' held held' res res' :
  pool_inv p held res → pp_meta p !! x = Some m →
  let p' := mkPagePool (pp_n_pages p) (pp_k_per_pos_bytes p) (pp_v_per_pos_bytes p) free' (<[x:=m']> (pp_meta p)) pend' (pp_epoch p) in
  NoDup free' → NoDup pend' →
  (∀ y, y ≠ x → (y ∈ free' ↔ y ∈ pp_free_pages p) ∧ (y ∈ pend' ↔ y ∈ pp_reclaim_pending p) ∧
    occ held' y = occ held y ∧ occ res' y = occ res y) →
  page_ok p' held' res' x m' → pool_inv p' held' res'.
Proof.
  intros H Hm p' Hf Hp Hy Hx. pose proof (lookup_lt_Some _ _ _ Hm) as Hlt. rewrite (pi_len _ _ _ H) in Hlt. split; try done; simpl.
  - rewrite length_insert. apply (pi_len _ _ _ H).
  - intros y. destruct (decide (y = x)) as [->|Hne]; [done|]. destruct (Hy y Hne) as (E1 & E2 & E3 & E4).
    pose proof (pi_range _ _ _ H y) as R. rewrite !elem_of_app, (occ_pos held), (occ_pos res) in R.
    rewrite !elem_of_app, E1, E2, (occ_pos held'), (occ_pos res'), E3, E4. exact R.
  - intros y n Hn. destruct (decide (y = x)) as [->|Hne].
    + rewrite list_lookup_insert_eq in Hn by (by apply lookup_lt_Some in Hm). by simplify_eq.
    + rewrite list_lookup_insert_ne in Hn by done. destruct (Hy y Hne) as (E1 & E2 & E3 & E4).
      destruct (pi_page _ _ _ H y n Hn). split; simpl; rewrite ?E3, ?E4, ?E1, ?E2; auto.
Qed.

(** Pages outside [X] are as before. *)
Record frame (X : list nat) (p p' : PagePool) : Prop := {
  fr_n : pp_n_pages p' = pp_n_pages p;
  fr_k : pp_k_per_pos_bytes p' = pp_k_per_pos_bytes p;
  fr_v : pp_v_per_pos_bytes p' = pp_v_per_pos_bytes p;
  fr_meta : ∀ y, y ∉ X → pp_meta p' !! y = pp_meta p !! y
}.

Lemma frame_refl X p : frame X p p.
Proof. by split. Qed.

Lemma frame_app X Y p p' p'' : frame X p p' → frame Y p' p'' → frame (X ++ Y) p p''.
Proof. intros [A1 A2 A3 A4] [B1 B2 B3 B4]. split; try congruence. intros y Hy. rewrite B4, A4; set_solver. Qed.

Lemma frame_mono X Y p p' : frame X p p' → X ⊆ Y → frame Y p p'.
Proof. intros [A1 A2 A3 A4] S. split; try done. intros y Hy. apply A4. set_solver. Qed.

(** The state of the page decides its membership in the two lists. *)
Ltac open_page P := destruct P as [P_refs P_cache P_inflight P_state P_free P_pend].

(** A page that is in neither list and stays there. *)
Lemma set_meta_inv p x m m' held held' res res' :
  pool_inv p held res → pp_meta p !! x = Some m →
  pg_state m ≠ Free → pg_state m ≠ ReclaimPending → pg_state m' ≠ Free → pg_state m' ≠ ReclaimPending →
  (∀ y, y ≠ x → occ held' y = occ held y ∧ occ res' y = occ res y) →
  pg_table_refs m' = Z.of_nat (occ held' x + occ res' x) → (0 ≤ pg_cache_refs m')%Z → (0 ≤ pg_inflight_refs m')%Z →
  match pg_state m' with
  | Private => (pg_table_refs m' = 1 ∧ pg_cache_refs m' = 0)%Z
  | _ => (0 < pg_table_refs m' + pg_cache_refs m')%Z
  end →
  pool_inv (set_meta p x m') held' res' ∧ frame [x] p (set_meta p x m').
Proof.
  intros H Hm N1 N2 N3 N4 Hy R1 R2 R3 R4. split.
  - eapply (update_inv p x m m' _ _ held held' res res' H Hm); try apply H.
    + intros y Hne. destruct (Hy y Hne). tauto.
    + pose proof (pi_page _ _ _ H x m Hm) as P. open_page P. split; simpl; auto; try tauto.
      destruct (pg_state m'); done.
  - split; try done. intros y Hne. simpl. apply list_lookup_insert_ne. set_solver.
Qed.

Lemma mem_snoc_ne (l : list nat) x y : y ≠ x → y ∈ l ++ [x] ↔ y ∈ l.
Proof. set_solver. Qed.

Lemma free_page_inv p x m held held' res res' :
  pool_inv p held res → pp_meta p !! x = Some m → x ∉ pp_reclaim_pending p → pg_state m ≠ Free →
  (∀ y, y ≠ x → occ held' y = occ held y ∧ occ res' y = occ res y) → occ held' x = 0 → occ res' x = 0 →
  ∀ m', (pg_table_refs m' = 0 ∧ pg_cache_refs m' = 0 ∧ pg_inflight_refs m' = 0)%Z →
  pool_inv (free_page p x m') held' res' ∧ frame [x] p (free_page p x m').
Proof.
  intros H Hm Hp N1 Hy Z1 Z2 m' (T1 & T2 & T3). pose proof (pi_page _ _ _ H x m Hm) as P. open_page P. split.
  - eapply (update_inv p x m _ _ _ held held' res res' H Hm); try apply H.
    + apply NoDup_app; split_and!; [apply H | set_solver | apply NoDup_singleton].
    + intros y Hne. destruct (Hy y Hne). rewrite (mem_snoc_ne _ x y Hne). tauto.
    + split; simpl; try lia; split; intros ?; first [done | set_solver | tauto].
  - split; try done. intros y Hne. simpl. apply list_lookup_insert_ne. set_solver.
Qed.

Lemma pend_page_inv p x m held held' res res' :
  pool_inv p held res → pp_meta p !! x = Some m → pg_state m ≠ Free → pg_state m ≠ ReclaimPending →
  (∀ y, y ≠ x → occ held' y = occ held y ∧ occ res' y = occ res y) → occ held' x = 0 → occ res' x = 0 →
  ∀ m', (pg_table_refs m' = 0 ∧ pg_cache_refs m' = 0 ∧ 0 ≤ pg_inflight_refs m')%Z →
  pool_inv (pend_page p x m') held' res' ∧ frame [x] p (pend_page p x m').
Proof.
  intros H Hm N1 N2 Hy Z1 Z2 m' (T1 & T2 & T3). pose proof (pi_page _ _ _ H x m Hm) as P. open_page P. split.
  - eapply (update_inv p x m _ _ _ held held' res res' H Hm); try apply H.
    + apply NoDup_app; split_and!; [apply H | set_solver | apply NoDup_singleton].
    + intros y Hne. destruct (Hy y Hne). rewrite (mem_snoc_ne _ x y Hne). tauto.
    + split; simpl; try lia; split; intros ?; first [done | set_solver | tauto].
  - split; try done. intros y Hne. simpl. apply list_lookup_insert_ne. set_solver.
Qed.

Lemma occ_cons_ne x y l : y ≠ x → occ (x :: l) y = occ l y.
Proof. rewrite occ_cons. case_decide; congruence || lia. Qed.

Lemma occ_cons_eq x l : occ (x :: l) x = S (occ l x).
Proof. rewrite occ_cons. case_decide; congruence || lia. Qed.

(** ** Operations on one page *)

Lemma dec_table_ref_inv p x held res : pool_inv p (x :: held) res →
  ∃ p', dec_table_ref p x = Some (p', Ok tt) ∧ pool_inv p' held res ∧ frame [x] p p'.
Proof.
  intros H. destruct (held_lookup _ _ _ x H) as (m & Hm & P & N1 & N2); [set_solver|]. open_page P.
  rewrite occ_cons_eq in P_refs.
  unfold dec_table_ref, on_page. rewrite (check_phys_lt _ _ m) by (done || apply H). rewrite Hm. cbn [mbind option_bind].
  rewrite (proj2 (Z.eqb_neq (pg_table_refs m) 0)) by lia. cbn [with_table_refs pg_table_refs pg_cache_refs pg_inflight_refs].
  assert (Hy : ∀ y, y ≠ x → occ held y = occ (x :: held) y ∧ occ res y = occ res y) by (intros y Hne; by rewrite occ_cons_ne).
  eexists. split; [reflexivity|].
  destruct (Z.eqb_spec (pg_table_refs m - 1) 0) as [E|E]; [destruct (Z.ltb_spec 0 (pg_cache_refs m)) as [C|C]; [|destruct (Z.ltb_spec 0 (pg_inflight_refs m)) as [I|I]]|].
  - eapply set_meta_inv; try done; simpl; lia.
  - eapply pend_page_inv; try done; simpl; lia.
  - eapply free_page_inv; try done; simpl; try lia. rewrite P_pend. done.
  - eapply set_meta_inv; try done; simpl; try lia. destruct (pg_state m); try done; lia.
Qed.

(** A page whose only reference is its reservation. *)
Definition unshared (p : PagePool) (x : nat) : Prop := match pp_meta p !! x with Some m => total_refs m = 1%Z | None => False end.
#[export] Instance unshared_dec p x : Decision (unshared p x).
Proof. unfold unshared. case_match; apply _. Defined.

Lemma unshared_Some p x : unshared p x ↔ ∃ m, pp_meta p !! x = Some m ∧ total_refs m = 1%Z.
Proof. unfold unshared. destruct (pp_meta p !! x); naive_solver. Qed.

Lemma unshared_frame X p p' x : frame X p p' → x ∉ X → unshared p x → unshared p' x.
Proof. intros F N. unfold unshared. by rewrite (fr_meta _ _ _ F). Qed.

Lemma unshared_occ p held res x : pool_inv p held res → x ∈ res → unshared p x → occ held x = 0 ∧ occ res x = 1.
Proof.
  intros H Hx%occ_pos (m & Hm & T)%unshared_Some. pose proof (pi_page _ _ _ H x m Hm) as P. open_page P. unfold total_refs in T. lia.
Qed.

Lemma release_reserved_inv p x held res : pool_inv p held (x :: res) → unshared p x →
  ∃ p', release_reserved p x = Some p' ∧ pool_inv p' held res ∧ frame [x] p p'.
Proof.
  intros H (m & Hm & T)%unshared_Some. pose proof (pi_page _ _ _ H x m Hm) as P. open_page P. unfold total_refs in T.
  rewrite occ_cons_eq in *. assert (S : pg_state m ≠ Free ∧ pg_state m ≠ ReclaimPending) by (destruct (pg_state m); split; done || lia). destruct S as [S1 S2].
  unfold release_reserved. rewrite Hm. simpl. eexists. split; [done|].
  eapply free_page_inv; try done; simpl; try lia; [by rewrite P_pend|].
  intros y Hne. by rewrite occ_cons_ne.
Qed.

Lemma last_removelast (l : list nat) x : last l = Some x → l = removelast l ++ [x].
Proof. intros (k & ->)%last_Some. by rewrite removelast_last. Qed.

(** The popped page may be mapped or reserved. *)
Lemma alloc_one_inv p held res x : pool_inv p held res → last (pp_free_pages p) = Some x →
  ∃ p' m, alloc_one p = Some (p', mkHandle x (pp_epoch p) (pg_generation m)) ∧ pp_free_pages p = pp_free_pages p' ++ [x] ∧
    pool_inv p' held (x :: res) ∧ pp_meta p' !! x = Some m ∧ pg_state m = Private ∧ total_refs m = 1%Z ∧ frame [x] p p'.
Proof.
  intros H Hl. pose proof (last_removelast _ _ Hl) as Hf.
  assert (Hx : x ∈ pp_free_pages p) by (rewrite Hf; set_solver).
  destruct (pool_lookup _ _ _ x H) as [m Hm]; [set_solver|]. pose proof (pi_page _ _ _ H x m Hm) as P. open_page P.
  pose proof (proj1 P_free Hx) as S. rewrite S in *. destruct P_state as (T1 & T2 & T3).
  unfold alloc_one. rewrite Hl. cbn [mbind option_bind]. rewrite Hm. cbn [mbind option_bind].
  pose proof (pi_free _ _ _ H) as Hnd. rewrite Hf in Hnd. apply NoDup_app in Hnd as (Hn1 & Hn2 & _).
  exists (set_free (set_meta p x (mkMeta Private (bump (pg_generation m)) 1 (pg_cache_refs m) (pg_inflight_refs m))) (removelast (pp_free_pages p))),
    (mkMeta Private (bump (pg_generation m)) 1 (pg_cache_refs m) (pg_inflight_refs m)).
  split; [done|]. split; [done|]. split_and!; try done.
  - eapply (update_inv p x m _ _ _ held held res (x :: res) H Hm); try apply H; try done.
    + intros y Hne. rewrite occ_cons_ne by done. rewrite Hf at 2. rewrite (mem_snoc_ne _ x y Hne). tauto.
    + split; simpl; rewrite ?occ_cons_eq; try lia.
      * split; [|done]. intros Hin. destruct (Hn2 x Hin). set_solver.
      * rewrite P_pend. done.
  - simpl. apply list_lookup_insert_eq. by apply lookup_lt_Some in Hm.
  - unfold total_refs. simpl. lia.
  - split; try done. intros y Hne. simpl. apply list_lookup_insert_ne. set_solver.
Qed.

(** Operations of clients on a page. *)
Definition keeps_inv (p : PagePool) (held res : list nat) (o : option (PagePool * result PoolFault unit)) : Prop :=
  ∃ p' r, o = Some (p', r) ∧ pool_inv p' held res ∧ pp_n_pages p' = pp_n_pages p.

Lemma on_page_inv p x held res f : pool_inv p held res →
  (∀ m, pp_meta p !! x = Some m → page_ok p held res x m → keeps_inv p held res (Some (f m))) → keeps_inv p held res (on_page p x f).
Proof.
  intros H Hf. unfold on_page, check_phys. destruct (Nat.ltb_spec x (pp_n_pages p)) as [L|L]; [|by exists p, (Err (OutOfBounds x))].
  rewrite <-(pi_len _ _ _ H) in L. apply lookup_lt_is_Some in L as [m Hm]. rewrite Hm. apply Hf; [done | by apply (pi_page _ _ _ H)].
Qed.

Ltac keep_page :=
  match goal with
  | H : pool_inv ?p ?held ?res |- keeps_inv ?p ?held ?res (Some (?p, ?r)) => by exists p, r
  | H : pool_inv ?p ?held ?res |- keeps_inv ?p ?held ?res (Some (set_meta ?p ?x ?m', Ok tt)) =>
      exists (set_meta p x m'), (Ok tt); split_and!; [done | eapply (set_meta_inv p x); try done; simpl; try lia | done]
  end.

Lemma occ_zero l x : x ∉ l → occ l x = 0.
Proof. intros H. rewrite occ_pos in H. lia. Qed.

Section clients.
Context (p : PagePool) (x : nat) (held res : list nat) (H : pool_inv p held res).

Lemma seal_inv : keeps_inv p held res (seal p x).
Proof.
  apply on_page_inv; [done|]. intros m Hm P. open_page P. destruct (pg_state m) eqn:E; keep_page; rewrite ?E; done.
Qed.

Lemma add_inflight_inv : keeps_inv p held res (add_inflight_ref p x).
Proof.
  apply on_page_inv; [done|]. intros m Hm P. open_page P.
  case_bool_decide; [keep_page|]. case_bool_decide; [keep_page|]. destruct (checked_add 32 _ 1) as [r|] eqn:E; [|keep_page].
  apply checked_add_Some in E as [-> _]. keep_page. destruct (pg_state m); done.
Qed.

Lemma release_inflight_inv : keeps_inv p held res (release_inflight_ref p x).
Proof.
  apply on_page_inv; [done|]. intros m Hm P. open_page P.
  destruct (Z.eqb_spec (pg_inflight_refs m) 0); [keep_page|].
  exists (set_meta p x (with_inflight_refs m (pg_inflight_refs m - 1))), (Ok tt). split_and!; [done| |done].
  eapply (update_inv p x m _ _ _ held held res res H Hm); try apply H; try done.
  split; simpl; try done; try lia. destruct (pg_state m); try done; lia.
Qed.

Lemma add_cache_inv : keeps_inv p held res (add_cache_ref p x).
Proof.
  apply on_page_inv; [done|]. intros m Hm P. open_page P.
  case_bool_decide as N1; [keep_page|]. case_bool_decide as N2; [keep_page|]. destruct (checked_add 32 _ 1) as [r|] eqn:E; [|keep_page].
  apply checked_add_Some in E as [-> _]. unfold seal_private. simpl. case_bool_decide as B; keep_page; destruct (pg_state m); done || lia.
Qed.

Lemma release_cache_inv : keeps_inv p held res (release_cache_ref p x).
Proof.
  apply on_page_inv; [done|]. intros m Hm P. open_page P. destruct (Z.eqb_spec (pg_cache_refs m) 0); [keep_page|].
  simpl. assert (N1 : pg_state m ≠ Free) by (intros E; rewrite E in *; lia). assert (N2 : pg_state m ≠ ReclaimPending) by (intros E; rewrite E in *; lia).
  destruct (Z.eqb_spec (pg_table_refs m) 0); [destruct (Z.eqb_spec (pg_cache_refs m - 1) 0); [destruct (Z.ltb_spec 0 (pg_inflight_refs m))|]|]; simpl.
  - eexists _, (Ok tt). split_and!; [done | | done]. eapply pend_page_inv; try done; simpl; lia.
  - eexists _, (Ok tt). split_and!; [done | | done]. eapply free_page_inv; try done; simpl; try lia. by rewrite P_pend.
  - keep_page. destruct (pg_state m); done || lia.
  - keep_page. destruct (pg_state m); done || lia.
Qed.

Lemma refcount_inc_inv : ∃ p' r, refcount_inc p x = Some (p', r) ∧ pp_n_pages p' = pp_n_pages p ∧
  pool_inv p' (match r with Ok _ => x :: held | Err _ => held end) res.
Proof.
  unfold refcount_inc, on_page, check_phys.
  destruct (Nat.ltb_spec x (pp_n_pages p)) as [L|L]; [|by exists p, (Err (OutOfBounds x))].
  rewrite <-(pi_len _ _ _ H) in L. apply lookup_lt_is_Some in L as [m Hm]. rewrite Hm. cbn [mbind option_bind].
  pose proof (pi_page _ _ _ H x m Hm) as P. open_page P.
  case_bool_decide as N1; [by eexists _, (Err _)|]. case_bool_decide as N2; [by eexists _, (Err _)|].
  destruct (checked_add 32 _ 1) as [r|] eqn:E; [|by eexists _, (Err _)]. apply checked_add_Some in E as [-> _].
  eexists _, (Ok tt). split; [done|]. split; [done|].
  assert (Hy : ∀ y, y ≠ x → occ (x :: held) y = occ held y ∧ occ res y = occ res y) by (intros y Hne; by rewrite occ_cons_ne).
  unfold seal_private. simpl.
  case_bool_decide as B; eapply set_meta_inv; try done; simpl; rewrite ?occ_cons_eq; try lia; destruct (pg_state m); done || lia.
Qed.

End clients.

(** ** Loops over the pages of a table *)

Lemma release_loop_inv pages : ∀ p held res bad, pool_inv p (pages ++ held) res →
  ∃ p', release_loop p pages bad = Some (p', bad) ∧ pool_inv p' held res ∧ frame pages p p'.
Proof.
  induction pages as [|x pages IH]; intros p held res bad H; [by exists p|]. simpl in *.
  destruct (dec_table_ref_inv p x _ res H) as (p1 & E & H1 & F1). rewrite E. cbn [mbind option_bind].
  destruct (IH p1 held res bad H1) as (p2 & E2 & H2 & F2). exists p2. split_and!; [done..|]. exact (frame_app _ _ _ _ _ F1 F2).
Qed.

Lemma dec_loop_inv pages : ∀ p held res, pool_inv p (pages ++ held) res →
  ∃ p', dec_loop p pages = Some (p', Ok tt) ∧ pool_inv p' held res ∧ frame pages p p'.
Proof.
  induction pages as [|x pages IH]; intros p held res H; [by exists p|]. simpl in *.
  destruct (dec_table_ref_inv p x _ res H) as (p1 & E & H1 & F1). rewrite E. cbn [mbind option_bind].
  destruct (IH p1 held res H1) as (p2 & E2 & H2 & F2). exists p2. split_and!; [done..|]. exact (frame_app _ _ _ _ _ F1 F2).
Qed.

Lemma release_all_inv pages : ∀ p held res, pool_inv p held (pages ++ res) → Forall (unshared p) pages →
  ∃ p', release_all p pages = Some p' ∧ pool_inv p' held res ∧ frame pages p p'.
Proof.
  induction pages as [|x pages IH]; intros p held res H Hu; [by exists p|]. simpl in *. apply Forall_cons in Hu as [Hx Hu].
  destruct (release_reserved_inv p x _ _ H Hx) as (p1 & E & H1 & F1). rewrite E. cbn [mbind option_bind].
  destruct (unshared_occ _ _ _ x H ltac:(set_solver) Hx) as [_ O]. rewrite occ_cons_eq, count_occ_app in O.
  destruct (IH p1 held res H1) as (p2 & E2 & H2 & F2).
  { apply Forall_forall. intros y Hy. apply (unshared_frame _ _ _ _ F1); [|by eapply Forall_forall].
    intros ->%list_elem_of_singleton. apply occ_pos in Hy. lia. } exists p2. split_and!; [done..|]. exact (frame_app _ _ _ _ _ F1 F2).
Qed.

Lemma release_table_inv p t held res : pool_inv p (bt_pages t ++ held) res →
  ∃ p', release_table p t = Some (p', table_new, Ok tt) ∧ pool_inv p' held res ∧ frame (bt_pages t) p p'.
Proof.
  intros H. destruct (release_loop_inv _ p held res false H) as (p' & E & H' & F). exists p'. unfold release_table. by rewrite E.
Qed.

Lemma verify_tail_ok p held res pages : pool_inv p held res → (∀ x, x ∈ pages → x ∈ held) → verify_tail p pages = Some (Ok tt).
Proof.
  intros H. induction pages as [|x pages IH]; intros Hin; [done|]. simpl.
  destruct (held_lookup _ _ _ x H) as (m & Hm & P & _); [apply Hin; set_solver|]. rewrite Hm. cbn [mbind option_bind].
  open_page P. pose proof (proj1 (occ_pos held x) (Hin x ltac:(set_solver))). rewrite (proj2 (Z.eqb_neq _ _)) by lia. apply IH. set_solver.
Qed.

(** The tail is freed whole. *)
Lemma free_pages_from_tail_inv p t n held res : pool_inv p (bt_pages t ++ held) res →
  ∃ p', free_pages_from_tail p t n = Some (p', (truncate t (length (bt_pages t) - n)).1, Ok tt) ∧
    pool_inv p' (take (length (bt_pages t) - n) (bt_pages t) ++ held) res.
Proof.
  intros H. unfold free_pages_from_tail. set (keep := length (bt_pages t) - n).
  rewrite (verify_tail_ok p (bt_pages t ++ held) res); [|done|]; cbn [mbind option_bind].
  2:{ intros x Hx. apply elem_of_app. left. rewrite <-(take_drop keep (bt_pages t)). set_solver. }
  assert (H' : pool_inv p (drop keep (bt_pages t) ++ (take keep (bt_pages t) ++ held)) res).
  { apply (pool_inv_perm _ _ _ _ _ H); [|done]. rewrite app_assoc. f_equiv. rewrite <-(take_drop keep (bt_pages t)) at 1. apply Permutation_app_comm. }
  destruct (dec_loop_inv _ _ _ _ H') as (p' & E & H2 & _). exists p'. simpl. rewrite E. done.
Qed.

Lemma alloc_loop_inv n : ∀ p t hs held res, pool_inv p (bt_pages t ++ held) res → n ≤ length (pp_free_pages p) →
  ∃ p' pages hs', alloc_loop n p t hs = Some (p', mkTable (bt_pages t ++ pages) (bt_live_tokens t), hs ++ hs') ∧ length pages = n ∧
    map ph_phys hs' = pages ∧ pool_inv p' (bt_pages t ++ pages ++ held) res ∧ frame (pp_free_pages p) p p'.
Proof.
  induction n as [|n IH]; intros p t hs held res H Hn.
  { exists p, [], []. simpl. rewrite !app_nil_r. destruct t. split_and!; try done. }
  destruct (last (pp_free_pages p)) as [x|] eqn:Hl; [|apply last_None in Hl; rewrite Hl in Hn; simpl in Hn; lia].
  destruct (alloc_one_inv p _ res x H Hl) as (p1 & m & E & Ef & H1 & Em & _ & _ & F1).
  simpl. rewrite E. cbn [mbind option_bind ph_phys].
  destruct (IH p1 (push_page t x) (hs ++ [mkHandle x (pp_epoch p) (pg_generation m)]) held res) as (p2 & pages & hs' & E2 & L & M & H2 & F2).
  { apply (pool_inv_counts _ _ _ _ _ H1); intros y; simpl; rewrite ?count_occ_app, ?occ_cons; try lia. change (occ [] y) with 0. lia. }
  { rewrite Ef, length_app in Hn. simpl in Hn. lia. }
  simpl in *. exists p2, (x :: pages), (mkHandle x (pp_epoch p) (pg_generation m) :: hs').
  rewrite E2, <-!app_assoc. simpl. split_and!; [done | lia | by rewrite M | |].
  - rewrite <-!app_assoc in H2. done.
  - apply (frame_mono ([x] ++ pp_free_pages p1)); [exact (frame_app _ _ _ _ _ F1 F2) | rewrite Ef; set_solver].
Qed.

(** Growing a table appends private pages; a refusal changes nothing. *)
Lemma ensure_capacity_inv p t n held res : pool_inv p (bt_pages t ++ held) res →
  ∃ p' t' r, ensure_capacity p t n = Some (p', t', r) ∧ pool_inv p' (bt_pages t' ++ held) res ∧ frame (pp_free_pages p) p p' ∧
    (∃ pages, bt_pages t' = bt_pages t ++ pages) ∧
    match r with Ok _ => bt_live_tokens t' = n ∧ n ≤ length (bt_pages t') * PAGE_TOKENS | Err _ => p' = p ∧ t' = t end.
Proof.
  intros H. unfold ensure_capacity, set_live_tokens. set (needed := div_ceil n PAGE_TOKENS).
  assert (Hd : n ≤ needed * PAGE_TOKENS).
  { unfold needed, div_ceil, PAGE_TOKENS. pose proof (Nat.div_mod_eq (n + (128 - 1)) 128). pose proof (Nat.mod_upper_bound (n + (128 - 1)) 128). lia. }
  destruct (Nat.leb_spec needed (length (bt_pages t))) as [L|L].
  - assert (n ≤ length (bt_pages t) * PAGE_TOKENS) by (etrans; [exact Hd|]; by apply Nat.mul_le_mono_r).
    rewrite (proj2 (Nat.leb_le _ _)) by done. exists p, (mkTable (bt_pages t) n), (Ok 0). split_and!; try done; exists []; by rewrite app_nil_r.
  - destruct (Nat.ltb_spec (length (pp_free_pages p)) (needed - length (bt_pages t))) as [F|F].
    { eexists _, _, (Err _). split_and!; try done; exists []; by rewrite app_nil_r. }
    unfold alloc_pages. rewrite Nat.min_l by lia.
    destruct (alloc_loop_inv (needed - length (bt_pages t)) p t [] held res H ltac:(lia)) as (p' & pages & hs & E & Lp & _ & H' & F').
    rewrite E. cbn [mbind option_bind bt_pages]. rewrite length_app, Lp.
    replace (length (bt_pages t) + (needed - length (bt_pages t))) with needed by lia.
    rewrite (proj2 (Nat.leb_le _ _)) by done. simpl. eexists _, _, (Ok _). split_and!; [done | | done | by exists pages | done | ].
    + simpl. by rewrite <-app_assoc.
    + simpl. rewrite length_app, Lp. replace (length (bt_pages t) + (needed - length (bt_pages t))) with needed by lia. done.
Qed.

Lemma share_loop_inv pages : ∀ p t held res, pool_inv p (bt_pages t ++ held) res → (∀ x, x ∈ pages → x ∈ held) →
  ∃ p' t' r, share_loop p pages t = Some (p', t', r) ∧ pool_inv p' (bt_pages t' ++ held) res ∧ bt_live_tokens t' = bt_live_tokens t ∧
    frame pages p p' ∧ (∃ k, bt_pages t' = bt_pages t ++ k ∧ k ⊆ pages) ∧ (r = Ok tt → bt_pages t' = bt_pages t ++ pages).
Proof.
  induction pages as [|x pages IH]; intros p t held res H Hin; simpl.
  { exists p, t, (Ok tt). split_and!; try done; [exists []; by rewrite app_nil_r | by rewrite app_nil_r]. }
  destruct (held_lookup _ _ _ x H) as (m & Hm & P & N1 & N2); [specialize (Hin x); set_solver|]. open_page P.
  pose proof (proj1 (occ_pos held x) (Hin x ltac:(set_solver))) as Hpos.
  rewrite (check_phys_lt _ _ m) by (done || apply H). rewrite Hm. cbn [mbind option_bind].
  destruct (checked_add 32 _ 1) as [r|] eqn:E.
  2:{ exists p, t, (Err (RefOverflow x)). split_and!; try done. exists []. rewrite app_nil_r. set_solver. }
  apply checked_add_Some in E as [-> _]. rewrite count_occ_app in P_refs.
  destruct (set_meta_inv p x m (with_state (with_table_refs m (pg_table_refs m + 1)) Sealed) (bt_pages t ++ held) (bt_pages (push_page t x) ++ held) res res H Hm)
    as [H1 F1]; try done; simpl.
  { intros y Hne. rewrite !count_occ_app, occ_cons_ne by done. change (occ [] y) with 0. lia. }
  { rewrite !count_occ_app, occ_cons_eq. change (occ [] x) with 0. lia. }
  { lia. }
  destruct (IH _ _ _ _ H1) as (p2 & t2 & r2 & E2 & H2 & L2 & F2 & (k & K1 & K2) & G2); [set_solver|].
  exists p2, t2, r2. split_and!; [done | done | done | exact (frame_app _ _ _ _ _ F1 F2) | |].
  - exists (x :: k). rewrite K1. simpl. rewrite <-app_assoc. split; [done | set_solver].
  - intros Hr. rewrite (G2 Hr). simpl. by rewrite <-app_assoc.
Qed.

Lemma attachable_all_total p held res pages : pool_inv p held res → ∃ r, attachable_all p pages = Some r.
Proof.
  intros H. induction pages as [|x pages IH]; simpl; [by eexists|]. unfold check_attachable, check_phys.
  destruct (Nat.ltb_spec x (pp_n_pages p)) as [L|L]; [|by eexists]. rewrite <-(pi_len _ _ _ H) in L.
  apply lookup_lt_is_Some in L as [m Hm]. rewrite Hm. simpl.
  case_bool_decide; [by eexists|]. case_bool_decide; [by eexists|]. destruct (_ =? _)%Z; [by eexists | exact IH].
Qed.

Lemma attach_loop_inv pages : ∀ p t held res, pool_inv p (bt_pages t ++ held) res →
  ∃ p' t' r, attach_loop p pages t = Some (p', t', r) ∧ pool_inv p' (bt_pages t' ++ held) res ∧ bt_live_tokens t' = bt_live_tokens t ∧
    pp_n_pages p' = pp_n_pages p ∧ (r = Ok tt → bt_pages t' = bt_pages t ++ pages).
Proof.
  induction pages as [|x pages IH]; intros p t held res H; simpl.
  { exists p, t, (Ok tt). split_and!; try done. by rewrite app_nil_r. }
  destruct (refcount_inc_inv p x _ res H) as (p1 & r1 & E & N1 & H1). rewrite E. cbn [mbind option_bind].
  destruct r1 as [[]|e]; [|by exists p1, t, (Err e)].
  destruct (IH p1 (push_page t x) held res) as (p2 & t2 & r2 & E2 & H2 & L2 & N2 & G2).
  { apply (pool_inv_perm _ _ _ _ _ H1); [|done]. simpl. rewrite <-app_assoc. apply Permutation_middle. }
  exists p2, t2, r2. split_and!; try done; [congruence|]. intros Hr. rewrite (G2 Hr). simpl. by rewrite <-app_assoc.
Qed.

(** ** Deferred reclaim *)

Lemma drain_loop_inv pending : ∀ p still freed held res, pool_inv (set_pending p (still ++ pending)) held res →
  ∃ p' still' freed', drain_loop p pending still freed = Some (p', still', freed') ∧ pool_inv (set_pending p' still') held res ∧ pp_n_pages p' = pp_n_pages p.
Proof.
  induction pending as [|x pending IH]; intros p still freed held res H; simpl.
  { exists p, still, freed. by rewrite app_nil_r in H. }
  destruct (pool_lookup _ _ _ x H) as [m Hm]; [simpl; set_solver|]. simpl in Hm. rewrite Hm. cbn [mbind option_bind].
  destruct (_ && _) eqn:E.
  2:{ apply (IH p (still ++ [x]) freed). by rewrite <-app_assoc. }
  apply andb_prop in E as [[E1%Z.eqb_eq E2%Z.eqb_eq]%andb_prop E3%Z.eqb_eq].
  pose proof (pi_page _ _ _ H x m Hm) as P. open_page P. simpl in *.
  pose proof (pi_pend _ _ _ H) as Hnd. simpl in Hnd.
  assert (Hx : x ∉ still ++ pending).
  { rewrite <-Permutation_middle in Hnd. by apply NoDup_cons in Hnd as []. }
  destruct (IH (free_page p x m) still (freed ++ [x]) held res) as (p' & s' & f' & Ed & H' & N'); [|by exists p', s', f'].
  pose proof (proj1 P_pend ltac:(set_solver)) as S. rewrite S in *.
  eapply (update_inv (set_pending p (still ++ x :: pending)) x m _ _ (still ++ pending) held held res res H Hm).
  - simpl. apply NoDup_app; split_and!; [apply H | | apply NoDup_singleton]. intros y Hy. apply not_elem_of_cons. split; [|apply not_elem_of_nil].
    intros ->. by apply P_free in Hy.
  - rewrite <-Permutation_middle in Hnd. by apply NoDup_cons in Hnd as [].
  - intros y Hne. simpl. rewrite (mem_snoc_ne _ x y Hne). set_solver.
  - split; simpl; try done; try lia; split; intros ?; first [done | set_solver].
Qed.

Lemma drain_inv p held res : pool_inv p held res → ∃ p' freed, drain_completed p = Some (p', freed) ∧ pool_inv p' held res ∧ pp_n_pages p' = pp_n_pages p.
Proof.
  intros H. destruct (drain_loop_inv (pp_reclaim_pending p) p [] [] held res) as (p' & s' & f' & E & H' & N'); [by destruct p|].
  unfold drain_completed. rewrite E. by exists (set_pending p' s'), f'.
Qed.

(** ** Copy on write *)

Definition read_only (m : PageMeta) : Prop := pg_state m = Sealed ∨ pg_state m = CacheOnly.

(** A planned copy is of the page that the table maps. *)
Definition copy_ok (p : PagePool) (t : BlockTable) (write_start : nat) (c : CowCopy) : Prop :=
  bt_pages t !! cw_logical_page c = Some (cw_src_phys c) ∧
  (∃ m, pp_meta p !! cw_src_phys c = Some m ∧ read_only m) ∧
  cw_valid_prefix_tokens c = (write_start - cw_logical_page c * PAGE_TOKENS) `min` PAGE_TOKENS ∧
  cw_k_copy_bytes c = cw_valid_prefix_tokens c * pp_k_per_pos_bytes p ∧ cw_v_copy_bytes c = cw_valid_prefix_tokens c * pp_v_per_pos_bytes p.

(** Of the logical pages [lps], exactly those that may not be written have a copy. *)
Record planned (p : PagePool) (t : BlockTable) (write_start : nat) (lps : list nat) (copies : list CowCopy) : Prop := {
  pl_copies : Forall (copy_ok p t write_start) copies;
  pl_sub : map cw_logical_page copies `sublist_of` lps;
  pl_rest : ∀ lpage x m, lpage ∈ lps → lpage ∉ map cw_logical_page copies → bt_pages t !! lpage = Some x → pp_meta p !! x = Some m → pg_state m = Private
}.

Lemma planned_frame p p' X t ws lps copies held res :
  pool_inv p held res → (∀ x, x ∈ bt_pages t → x ∈ held) → frame X p p' → (∀ x, x ∈ held → x ∉ X) → planned p t ws lps copies → planned p' t ws lps copies.
Proof.
  intros H Hin F HX [P1 P2 P3]. split; [|done|].
  - eapply Forall_impl; [exact P1|]. intros c (C1 & (m & C2 & C3) & C4 & C5 & C6). unfold copy_ok. rewrite (fr_k _ _ _ F), (fr_v _ _ _ F).
    split_and!; try done. exists m. rewrite (fr_meta _ _ _ F); [done|]. apply HX, Hin. by apply list_elem_of_lookup_2 in C1.
  - intros lpage x m L1 L2 L3 L4. apply (P3 lpage x m); try done. rewrite <-L4. symmetry. apply (fr_meta _ _ _ F). apply HX, Hin. by apply list_elem_of_lookup_2 in L3.
Qed.

Lemma planned_skip p t ws lps lpage copies :
  planned p t ws lps copies → (∀ x m, bt_pages t !! lpage = Some x → pp_meta p !! x = Some m → pg_state m = Private) → planned p t ws (lps ++ [lpage]) copies.
Proof.
  intros [P1 P2 P3] Hlp. split; [done | by apply sublist_inserts_r |]. intros lpage' x m [L|L]%elem_of_app; [eauto|]. apply list_elem_of_singleton in L as ->. eauto.
Qed.

Lemma planned_copy p t ws lps lpage copies c : cw_logical_page c = lpage →
  planned p t ws lps copies → copy_ok p t ws c → planned p t ws (lps ++ [lpage]) (copies ++ [c]).
Proof.
  intros <- [P1 P2 P3] Hc. split.
  - apply Forall_app. by rewrite Forall_singleton.
  - rewrite map_app. by apply sublist_app.
  - intros lpage' x m [L|L]%elem_of_app; rewrite map_app, not_elem_of_app; intros [N1 N2]; [by eapply P3 | simpl in N2; set_solver].
Qed.

(** A page that has just been allocated. *)
Definition fresh (p : PagePool) (x : nat) : Prop := ∃ m, pp_meta p !! x = Some m ∧ pg_state m = Private ∧ total_refs m = 1%Z.

Lemma fresh_unshared p x : fresh p x → unshared p x.
Proof. intros (m & Hm & _ & T). apply unshared_Some. by exists m. Qed.

Lemma fresh_frame X p p' x : frame X p p' → x ∉ X → fresh p x → fresh p' x.
Proof. intros F N (m & Hm & T). exists m. by rewrite (fr_meta _ _ _ F). Qed.

Lemma reserved_used p held res x : pool_inv p held res → x ∈ res → (x ∉ pp_free_pages p) ∧ (x ∉ pp_reclaim_pending p).
Proof.
  intros H Hx. destruct (pool_lookup _ _ _ x H) as [m Hm]; [set_solver|]. pose proof (pi_page _ _ _ H x m Hm) as P. open_page P.
  apply occ_pos in Hx. rewrite P_free, P_pend. split; intros S; rewrite S in *; lia.
Qed.

Lemma plan_loop_inv t ws rest : ∀ done p copies held res,
  pool_inv p held (map cw_dst_phys copies ++ res) → (∀ x, x ∈ bt_pages t → x ∈ held) → planned p t ws done copies →
  Forall (fresh p) (map cw_dst_phys copies) →
  ∃ p' r, plan_loop p t ws rest copies = Some (p', r) ∧ frame (map cw_dst_phys copies ++ pp_free_pages p) p p' ∧
    match r with
    | Ok copies' => pool_inv p' held (map cw_dst_phys copies' ++ res) ∧ planned p' t ws (done ++ rest) copies' ∧
        map cw_dst_phys copies' ⊆ map cw_dst_phys copies ++ pp_free_pages p ∧ Forall (fresh p') (map cw_dst_phys copies')
    | Err _ => pool_inv p' held res
    end.
Proof.
  induction rest as [|lpage rest IH]; intros done p copies held res H Hin Hpl Hfr; simpl.
  { exists p, (Ok copies). rewrite app_nil_r. split_and!; try done. set_solver. }
  assert (Hskip : (∀ x m, bt_pages t !! lpage = Some x → pp_meta p !! x = Some m → pg_state m = Private) →
    ∃ p' r, plan_loop p t ws rest copies = Some (p', r) ∧ frame (map cw_dst_phys copies ++ pp_free_pages p) p p' ∧
      match r with
      | Ok copies' => pool_inv p' held (map cw_dst_phys copies' ++ res) ∧ planned p' t ws (done ++ lpage :: rest) copies' ∧
          map cw_dst_phys copies' ⊆ map cw_dst_phys copies ++ pp_free_pages p ∧ Forall (fresh p') (map cw_dst_phys copies')
      | Err _ => pool_inv p' held res
      end).
  { intros HP. rewrite (cons_middle lpage), app_assoc. apply (IH (done ++ [lpage]) p copies held res H Hin); [by apply planned_skip | done]. }
  destruct (bt_pages t !! lpage) as [x|] eqn:Ex; [|apply Hskip; congruence].
  destruct (held_lookup _ _ _ x H) as (m & Hm & P & N1 & N2); [apply Hin; by eapply list_elem_of_lookup_2|].
  rewrite Hm. cbn [mbind option_bind]. open_page P.
  assert (Hro : pg_state m = Private ∨ read_only m) by (unfold read_only; destruct (pg_state m); tauto).
  destruct Hro as [Hro|Hro].
  { rewrite Hro. apply Hskip. intros x' m' [= <-] Hm'. congruence. }
  set (next := match last (pp_free_pages p) with None => _ | Some _ => _ end).
  assert (Eb : match pg_state m with Sealed | CacheOnly => next | _ => plan_loop p t ws rest copies end = next) by (by destruct Hro as [-> | ->]).
  rewrite Eb. clear Eb Hskip. subst next. destruct (last (pp_free_pages p)) as [d|] eqn:Hd.
  - destruct (alloc_one_inv p held _ d H Hd) as (p1 & md & E & Ef & H1 & Emd & Smd & Tmd & F1). rewrite E. cbn [mbind option_bind ph_phys].
    set (valid := (ws - lpage * PAGE_TOKENS) `min` PAGE_TOKENS).
    set (c := mkCopy lpage x d valid (valid * pp_k_per_pos_bytes p1) (valid * pp_v_per_pos_bytes p1)).
    assert (Hdh : d ∉ held).
    { intros Hd'. destruct (held_lookup _ _ _ d H Hd') as (md' & Hmd' & _ & K & _). apply last_Some in Hd as (l & El).
      apply K. apply (pi_page _ _ _ H d md' Hmd'). rewrite El. set_solver. }
    destruct (IH (done ++ [lpage]) p1 (copies ++ [c]) held res) as (p2 & r & E2 & F2 & R2).
    + apply (pool_inv_perm _ _ _ _ _ H1); [done|]. rewrite map_app. simpl. rewrite <-app_assoc. apply Permutation_middle.
    + done.
    + apply planned_copy; [done | apply (planned_frame p p1 [d] _ _ _ _ held _ H Hin F1); [set_solver|done] |].
      split; [done|]. split; [|done]. exists m. rewrite (fr_meta _ _ _ F1); [done|]. apply list_elem_of_lookup_2 in Ex. set_solver.
    + rewrite map_app. apply Forall_app. split; [|apply Forall_singleton; by exists md]. apply Forall_forall. intros y Hy.
      apply (fresh_frame _ _ _ _ F1); [|by eapply Forall_forall]. intros ->%list_elem_of_singleton.
      destruct (reserved_used _ _ _ d H) as [Hd' _]; [set_solver|]. apply Hd'. apply last_Some in Hd as (l & El). rewrite El. set_solver.
    + exists p2, r. split; [done|]. assert (Hsub : map cw_dst_phys (copies ++ [c]) ++ pp_free_pages p1 ⊆ map cw_dst_phys copies ++ pp_free_pages p).
      { rewrite map_app, Ef. simpl. set_solver. }
      split.
      * apply (frame_mono ([d] ++ (map cw_dst_phys (copies ++ [c]) ++ pp_free_pages p1))); [exact (frame_app _ _ _ _ _ F1 F2)|].
        intros y [Hy|Hy]%elem_of_app; [rewrite Ef; set_solver | by apply Hsub].
      * destruct r; [|done]. destruct R2 as (R1 & R2 & R3 & R4). rewrite <-app_assoc in R2. split_and!; [done..| |done]. set_solver.
  - destruct (release_all_inv (map cw_dst_phys copies) p held res H) as (p1 & E & H1 & F1); [eapply Forall_impl; [exact Hfr | apply fresh_unshared]|]. rewrite E. cbn [mbind option_bind].
    exists p1, (Err (NoCowPage lpage x)). split_and!; try done. eapply frame_mono; [exact F1|set_solver].
Qed.

Lemma interval_pages_nodup ws we : NoDup (interval_pages ws we).
Proof. apply NoDup_seq. Qed.

(** A plan reserves a destination for every page of the interval that may not
    be written; a refusal undoes its reservations. *)
Lemma plan_cow_inv p t ws we held res : pool_inv p held res → (∀ x, x ∈ bt_pages t → x ∈ held) →
  ∃ p' r, plan_cow p t ws we = Some (p', r) ∧ frame (pp_free_pages p) p p' ∧
    match r with
    | Ok plan => pool_inv p' held (map cw_dst_phys (cp_copies plan) ++ res) ∧ NoDup (map cw_logical_page (cp_copies plan)) ∧
        (ws < we → planned p' t ws (interval_pages ws we) (cp_copies plan)) ∧ map cw_dst_phys (cp_copies plan) ⊆ pp_free_pages p ∧
        Forall (fresh p') (map cw_dst_phys (cp_copies plan))
    | Err _ => pool_inv p' held res
    end.
Proof.
  intros H Hin. unfold plan_cow. destruct (Nat.ltb_spec we ws) as [L|L]; [by exists p, (Err BadInterval)|].
  destruct (Nat.eqb_spec we ws) as [->|N].
  { exists p, (Ok (mkPlan [] false)). split_and!; try done; simpl; first [by constructor | lia | set_solver]. }
  destruct (plan_loop_inv t ws (interval_pages ws we) [] p [] held res H Hin) as (p' & r & E & F & R).
  { split; [constructor | done | set_solver]. }
  { constructor. }
  rewrite E. cbn [mbind option_bind]. eexists p', _. split; [done|]. split; [exact F|]. destruct r as [copies|e]; [|done].
  destruct R as (R1 & R2 & R3 & R4). simpl. split_and!; [done | | done..].
  eapply sublist_NoDup; [apply interval_pages_nodup | exact (pl_sub _ _ _ _ _ R2)].
Qed.

Lemma commit_verify_total p t held res copies : pool_inv p held res → (∀ x, x ∈ bt_pages t → x ∈ held) →
  ∃ r, commit_verify p t copies = Some r ∧ (r = Ok tt → ∀ c, c ∈ copies → bt_pages t !! cw_logical_page c = Some (cw_src_phys c)).
Proof.
  intros H Hin. induction copies as [|c copies (r & E & G)]; simpl; [exists (Ok tt); split; [done|set_solver]|].
  case_bool_decide as B; [|by eexists (Err _)].
  destruct (held_lookup _ _ _ (cw_src_phys c) H) as (m & Hm & P & _); [apply Hin; by eapply list_elem_of_lookup_2|].
  rewrite Hm. cbn [mbind option_bind]. destruct (_ =? 0)%Z; [by eexists (Err _)|]. exists r. split; [done|].
  intros Hr c' [->|Hc]%elem_of_cons; [done | by apply G].
Qed.

(** A plan whose copies still are of the mapped pages passes the check. *)
Lemma commit_verify_ok p t held res copies : pool_inv p held res → (∀ x, x ∈ bt_pages t → x ∈ held) →
  (∀ c, c ∈ copies → bt_pages t !! cw_logical_page c = Some (cw_src_phys c)) → commit_verify p t copies = Some (Ok tt).
Proof.
  intros H Hin. induction copies as [|c copies IH]; intros Hc; simpl; [done|].
  pose proof (Hc c ltac:(set_solver)) as B. rewrite bool_decide_true by done. assert (Hx : cw_src_phys c ∈ held) by (apply Hin; by eapply list_elem_of_lookup_2).
  destruct (held_lookup _ _ _ (cw_src_phys c) H Hx) as (m & Hm & P & _). rewrite Hm. cbn [mbind option_bind].
  open_page P. apply occ_pos in Hx. rewrite (proj2 (Z.eqb_neq _ _)) by lia. apply IH. set_solver.
Qed.

(** The pages of a table after the copies are committed. *)
Definition rebind (pages : list nat) (copies : list CowCopy) : list nat :=
  foldl (λ l c, <[cw_logical_page c:=cw_dst_phys c]> l) pages copies.

Lemma length_rebind pages copies : length (rebind pages copies) = length pages.
Proof. revert pages. unfold rebind. induction copies as [|c copies IH]; intros pages; simpl; [done|]. by rewrite IH, length_insert. Qed.

Lemma rebind_ne copies : ∀ pages lpage, lpage ∉ map cw_logical_page copies → rebind pages copies !! lpage = pages !! lpage.
Proof.
  induction copies as [|c copies IH]; intros pages lpage Hn; [done|]. simpl in *. apply not_elem_of_cons in Hn as [N1 N2].
  unfold rebind in *. simpl. rewrite IH by done. by apply list_lookup_insert_ne.
Qed.

Lemma rebind_eq copies : ∀ pages c, NoDup (map cw_logical_page copies) → c ∈ copies → cw_logical_page c < length pages →
  rebind pages copies !! cw_logical_page c = Some (cw_dst_phys c).
Proof.
  induction copies as [|c' copies IH]; intros pages c Hnd Hc L; [set_solver|]. simpl in *. apply NoDup_cons in Hnd as [N1 N2].
  apply elem_of_cons in Hc as [->|Hc].
  - change (rebind (<[cw_logical_page c':=cw_dst_phys c']> pages) copies !! cw_logical_page c' = Some (cw_dst_phys c')).
    rewrite rebind_ne by done. by apply list_lookup_insert_eq.
  - apply (IH (<[cw_logical_page c':=cw_dst_phys c']> pages)); [done..|]. by rewrite length_insert.
Qed.

Lemma commit_apply_inv copies : ∀ p t held res,
  pool_inv p (bt_pages t ++ held) (map cw_dst_phys copies ++ res) → NoDup (map cw_logical_page copies) →
  (∀ c, c ∈ copies → bt_pages t !! cw_logical_page c = Some (cw_src_phys c)) →
  ∃ p', commit_apply p t copies = Some (p', mkTable (rebind (bt_pages t) copies) (bt_live_tokens t), Ok tt) ∧
    pool_inv p' (rebind (bt_pages t) copies ++ held) res ∧ frame (map cw_src_phys copies) p p'.
Proof.
  induction copies as [|c copies IH]; intros p t held res H Hnd Hc; simpl in *.
  { exists p. by destruct t. }
  apply NoDup_cons in Hnd as [N1 N2]. pose proof (Hc c ltac:(set_solver)) as Ec.
  set (pages' := <[cw_logical_page c:=cw_dst_phys c]> (bt_pages t)).
  assert (H1 : pool_inv p (cw_src_phys c :: pages' ++ held) (map cw_dst_phys copies ++ res)).
  { apply (pool_inv_counts _ _ _ _ _ H); intros y; rewrite ?occ_cons, !count_occ_app.
    pose proof (occ_insert _ _ _ (cw_dst_phys c) y Ec). subst pages'. lia. }
  destruct (dec_table_ref_inv p (cw_src_phys c) _ _ H1) as (p1 & E & H2 & F1).
  rewrite E. cbn [mbind option_bind].
  destruct (IH p1 (set_page t (cw_logical_page c) (cw_dst_phys c)) held res H2 N2) as (p2 & E2 & H3 & F2).
  { intros c' Hc'. simpl. rewrite list_lookup_insert_ne; [apply Hc; set_solver|]. intros Heq. apply N1. rewrite Heq. by apply list_elem_of_fmap_2. }
  exists p2. rewrite E2. split_and!; [done | done | exact (frame_app _ _ _ _ _ F1 F2)].
Qed.

(** A commit rebinds every page of the plan, or releases its reservations. *)
Lemma commit_cow_inv p t plan held res :
  pool_inv p (bt_pages t ++ held) (map cw_dst_phys (cp_copies plan) ++ res) → NoDup (map cw_logical_page (cp_copies plan)) →
  (commit_verify p t (cp_copies plan) ≠ Some (Ok tt) → Forall (unshared p) (map cw_dst_phys (cp_copies plan))) →
  ∃ p' t' r, commit_cow p t plan = Some (p', t', r) ∧ pool_inv p' (bt_pages t' ++ held) res ∧ bt_live_tokens t' = bt_live_tokens t ∧
    match r with
    | Ok _ => bt_pages t' = rebind (bt_pages t) (cp_copies plan) ∧ frame (map cw_src_phys (cp_copies plan)) p p' ∧
        (∀ c, c ∈ cp_copies plan → bt_pages t !! cw_logical_page c = Some (cw_src_phys c))
    | Err _ => t' = t
    end.
Proof.
  intros H Hnd Hu. unfold commit_cow. assert (Hin : ∀ x, x ∈ bt_pages t → x ∈ bt_pages t ++ held) by set_solver.
  destruct (commit_verify_total p t _ _ (cp_copies plan) H Hin) as (r & E & G). rewrite E. cbn [mbind option_bind]. destruct r as [[]|e].
  - destruct (commit_apply_inv (cp_copies plan) p t held res H Hnd (G eq_refl)) as (p' & E' & H' & F').
    rewrite E'. eexists p', _, (Ok tt). split_and!; try done. by apply G.
  - destruct (release_all_inv (map cw_dst_phys (cp_copies plan)) p _ res H) as (p' & E' & H' & F').
    { apply Hu. by rewrite E. }
    rewrite E'. cbn [mbind option_bind]. by exists p', t, (Err e).
Qed.

Lemma occ_nodup l : (∀ x, x ∈ l → occ l x = 1) → NoDup l.
Proof. intros H. apply NoDup_ListNoDup, (NoDup_count_occ' Nat.eq_dec). intros x Hx. apply H. by apply list_elem_of_In. Qed.

(** Planning and committing at once: every mapped page of the interval is then
    private, and is fresh or was private before. *)
Lemma cow_pool p t ws we held res p1 plan :
  pool_inv p (bt_pages t ++ held) res → ws < we → plan_cow p t ws we = Some (p1, Ok plan) →
  let copies := cp_copies plan in let dsts := map cw_dst_phys copies in
  ∃ p2, commit_cow p1 t plan = Some (p2, mkTable (rebind (bt_pages t) copies) (bt_live_tokens t), Ok tt) ∧
    pool_inv p2 (rebind (bt_pages t) copies ++ held) res ∧ NoDup dsts ∧ NoDup (map cw_logical_page copies) ∧
    (∀ x, x ∈ dsts → (x ∉ bt_pages t ++ held ++ res) ∧ x ∈ pp_free_pages p) ∧ Forall (copy_ok p1 t ws) copies ∧
    (∀ lpage x, lpage ∈ interval_pages ws we → rebind (bt_pages t) copies !! lpage = Some x →
      ∃ m, pp_meta p2 !! x = Some m ∧ pg_state m = Private ∧ (x ∈ dsts ∨ pp_meta p !! x = Some m)).
Proof.
  intros H L Hp copies dsts. assert (Hin : ∀ x, x ∈ bt_pages t → x ∈ bt_pages t ++ held) by set_solver.
  destruct (plan_cow_inv p t ws we _ res H Hin) as (p1' & r & E & F1 & R). rewrite Hp in E. injection E as <- <-.
  destruct R as (H1 & Hnd & Hpl & Hsub & Hfr). specialize (Hpl L). fold copies in H1, Hnd, Hpl, Hsub. fold dsts in H1, Hsub, Hfr.
  pose proof (pl_copies _ _ _ _ _ Hpl) as Hok.
  assert (Hc : ∀ c, c ∈ copies → bt_pages t !! cw_logical_page c = Some (cw_src_phys c)) by (intros c Hc; by apply (proj1 (Forall_forall _ _) Hok)).
  assert (Hd : ∀ x, x ∈ dsts → occ (bt_pages t ++ held) x = 0 ∧ occ dsts x = 1 ∧ (x ∉ res) ∧ ∃ m, pp_meta p1 !! x = Some m ∧ pg_state m = Private).
  { intros x Hx. destruct (proj1 (Forall_forall _ _) Hfr x Hx) as (m & Hm & S & T).
    destruct (unshared_occ p1 _ _ x H1) as (O1 & O2); [set_solver | apply unshared_Some; by exists m |]. rewrite count_occ_app in O2. pose proof (proj1 (occ_pos dsts x) Hx).
    rewrite (occ_pos res). split_and!; [done | lia | lia | by exists m]. }
  assert (Hdst : ∀ x, x ∈ dsts → x ∉ bt_pages t ++ held ++ res).
  { intros x Hx. destruct (Hd x Hx) as (O1 & _ & O2 & _). rewrite app_assoc, elem_of_app, occ_pos. intros [?|?]; [lia|done]. }
  unfold commit_cow. fold copies. rewrite (commit_verify_ok p1 t _ _ copies H1 Hin Hc). cbn [mbind option_bind].
  destruct (commit_apply_inv copies p1 t held res H1 Hnd Hc) as (p2 & E2 & H2 & F2). exists p2. rewrite E2.
  split_and!; [done | done | apply occ_nodup; intros x Hx; apply Hd; done | done | intros x Hx; split; [by apply Hdst | by apply Hsub] | done |].
  intros lpage x Hlp Hx. destruct (decide (lpage ∈ map cw_logical_page copies)) as [I|I].
  - apply list_elem_of_fmap in I as (c & -> & I). rewrite rebind_eq in Hx; [|done|done|by eapply lookup_lt_Some, Hc]. injection Hx as <-.
    assert (Id : cw_dst_phys c ∈ dsts) by (by apply list_elem_of_fmap_2). destruct (Hd _ Id) as (O1 & _ & _ & m & Hm & S). exists m. split_and!; [|done|by left].
    rewrite (fr_meta _ _ _ F2); [done|]. intros (c' & Ec & I')%list_elem_of_fmap. pose proof (list_elem_of_lookup_2 _ _ _ (Hc c' I')) as K.
    rewrite <-Ec in K. apply Hin, occ_pos in K. lia.
  - rewrite rebind_ne in Hx by done. pose proof (list_elem_of_lookup_2 _ _ _ Hx) as Ix. destruct (held_lookup p1 _ _ x H1 (Hin x Ix)) as (m & Hm & _).
    pose proof (pl_rest _ _ _ _ _ Hpl lpage x m Hlp I Hx Hm) as S. exists m. split_and!; [|done|].
    + rewrite (fr_meta _ _ _ F2); [done|]. intros (c' & Ec & I')%list_elem_of_fmap. destruct (proj1 (Forall_forall _ _) Hok c' I') as (_ & (m' & Hm' & Ro) & _).
      rewrite <-Ec, Hm in Hm'. injection Hm' as <-. unfold read_only in Ro. rewrite S in Ro. by destruct Ro.
    + right. rewrite <-Hm. symmetry. apply (fr_meta _ _ _ F1). destruct (held_lookup p _ _ x H (Hin x Ix)) as (m0 & Hm0 & P & N & _). by rewrite (po_free _ _ _ _ _ P).
Qed.

(** ** The check of the accounting accepts *)

Lemma count_listed (P : PageMeta → Prop) `{!∀ m, Decision (P m)} metas : ∀ l : list nat, NoDup l →
  (∀ x, x ∈ l ↔ ∃ m, metas !! x = Some m ∧ P m) → length l = length (filter P metas).
Proof.
  induction metas as [|m metas IH] using rev_ind; intros l Hnd Hl.
  { destruct l as [|x l]; [done|]. destruct (proj1 (Hl x) ltac:(set_solver)) as (m & Hm & _). done. }
  assert (Hlast : ∀ x m', (metas ++ [m]) !! x = Some m' ↔ metas !! x = Some m' ∨ x = length metas ∧ m' = m).
  { intros x m'. rewrite lookup_app_Some, list_lookup_singleton_Some. split.
    - intros [?|(H1 & H2 & ->)]; [by left | right; split; [lia|done]].
    - intros [?|[-> ->]]; [by left | right; split_and!; [done | lia | done]]. }
  rewrite filter_app, length_app. destruct (decide (P m)) as [Hm|Hm].
  - rewrite filter_cons_True, filter_nil by done. simpl.
    assert (Hin : length metas ∈ l) by (apply Hl; exists m; rewrite Hlast; tauto).
    apply elem_of_Permutation in Hin as [k Hk]. rewrite Hk in Hnd |- *. apply NoDup_cons in Hnd as [Hn Hnd]. simpl.
    rewrite (IH k); [lia|done|]. intros x. split.
    + intros Hx. destruct (proj1 (Hl x)) as (m' & E & HP); [rewrite Hk; set_solver|]. apply Hlast in E as [E|[-> ->]]; [by exists m'|done].
    + intros (m' & E & HP). assert (Hx : x ∈ l) by (apply Hl; exists m'; rewrite Hlast; tauto). rewrite Hk in Hx.
      apply elem_of_cons in Hx as [->|Hx]; [|done]. by rewrite lookup_ge_None_2 in E.
  - rewrite filter_cons_False, filter_nil by done. simpl. rewrite (IH l); [lia|done|]. intros x. rewrite Hl. split.
    + intros (m' & E & HP). apply Hlast in E as [E|[-> ->]]; [by exists m'|done].
    + intros (m' & E & HP). exists m'. rewrite Hlast. tauto.
Qed.

Definition resident (m : PageMeta) : Prop := pg_state m ≠ Free ∧ pg_state m ≠ ReclaimPending.
#[export] Instance resident_dec m : Decision (resident m).
Proof. unfold resident. solve_decision. Defined.

Lemma count_states metas : length (filter (λ m, pg_state m = Free) metas) + length (filter (λ m, pg_state m = ReclaimPending) metas) +
  length (filter resident metas) = length metas.
Proof.
  induction metas as [|m metas IH]; [done|]. rewrite !filter_cons.
  repeat case_decide; unfold resident in *; simpl; try congruence; try lia; intuition congruence.
Qed.

Lemma count_resident_ok metas acc :
  Forall (λ m, resident m → (0 < pg_table_refs m + pg_cache_refs m ≤ umax 32)%Z) metas →
  count_resident metas acc = Some (acc + length (filter resident metas)).
Proof.
  intros H. revert acc. induction H as [|m metas Hm _ IH]; intros acc; simpl; [f_equal; lia|]. rewrite filter_cons.
  destruct (decide (resident m)) as [R|R].
  - specialize (Hm R). assert (E : add_u32 (pg_table_refs m) (pg_cache_refs m) = Some (pg_table_refs m + pg_cache_refs m)%Z).
    { unfold add_u32, checked_add. destruct (Z.leb_spec (pg_table_refs m + pg_cache_refs m) (umax 32)); [done|lia]. }
    assert (E2 : (0 <? pg_table_refs m + pg_cache_refs m)%Z = true) by (apply Z.ltb_lt; lia).
    rewrite E. cbn [mbind option_bind]. rewrite E2. simpl. destruct R as [R1 R2].
    destruct (pg_state m); try done; rewrite IH; apply (f_equal Some); simpl; lia.
  - unfold resident in R. destruct (pg_state m); try apply IH; exfalso; apply R; done.
Qed.

Lemma check_free_ok p pages : ∀ seen, NoDup pages → (∀ x, x ∈ pages → seen !! x = Some false) →
  (∀ x, x ∈ pages → ∃ m, pp_meta p !! x = Some m ∧ pg_state m = Free ∧ (pg_table_refs m = 0 ∧ pg_cache_refs m = 0 ∧ pg_inflight_refs m = 0)%Z) →
  ∃ seen', check_free p seen pages = Some seen' ∧ ∀ y, y ∉ pages → seen' !! y = seen !! y.
Proof.
  induction pages as [|x pages IH]; intros seen Hnd Hs Hm; simpl; [by eexists|]. apply NoDup_cons in Hnd as [Hx Hnd].
  destruct (Hm x ltac:(set_solver)) as (m & E & S & T1 & T2 & T3). rewrite E. cbn [mbind option_bind]. rewrite S, T1, T2, T3. simpl.
  rewrite (Hs x) by set_solver. simpl. destruct (IH (<[x:=true]> seen) Hnd) as (seen' & E' & G).
  - intros y Hy. rewrite list_lookup_insert_ne by set_solver. apply Hs. set_solver.
  - intros y Hy. apply Hm. set_solver.
  - exists seen'. split; [done|]. intros y Hy. rewrite G, list_lookup_insert_ne by set_solver. done.
Qed.

Lemma check_pending_ok p pages : ∀ seen, NoDup pages → (∀ x, x ∈ pages → seen !! x = Some false) →
  (∀ x, x ∈ pages → ∃ m, pp_meta p !! x = Some m ∧ pg_state m = ReclaimPending ∧ (pg_table_refs m = 0 ∧ pg_cache_refs m = 0)%Z) →
  ∃ seen', check_pending p seen pages = Some seen'.
Proof.
  induction pages as [|x pages IH]; intros seen Hnd Hs Hm; simpl; [by eexists|]. apply NoDup_cons in Hnd as [Hx Hnd].
  destruct (Hm x ltac:(set_solver)) as (m & E & S & T1 & T2). rewrite E. cbn [mbind option_bind]. rewrite S, T1, T2. simpl.
  rewrite (Hs x) by set_solver. simpl. apply (IH (<[x:=true]> seen) Hnd).
  - intros y Hy. rewrite list_lookup_insert_ne by set_solver. apply Hs. set_solver.
  - intros y Hy. apply Hm. set_solver.
Qed.

(** The references that the check adds up. *)
Definition refs_fit (p : PagePool) : Prop := Forall (λ m, pg_table_refs m + pg_cache_refs m ≤ umax 32)%Z (pp_meta p).

Lemma check_invariants_ok p held res : pool_inv p held res → refs_fit p → check_invariants p = Some tt.
Proof.
  intros H Hfit. unfold check_invariants.
  assert (Hst : ∀ x, (x ∈ pp_free_pages p ↔ ∃ m, pp_meta p !! x = Some m ∧ pg_state m = Free) ∧
    (x ∈ pp_reclaim_pending p ↔ ∃ m, pp_meta p !! x = Some m ∧ pg_state m = ReclaimPending)).
  { intros x. split; split.
    1,3: intros Hx; destruct (pool_lookup _ _ _ x H) as [m Hm]; [set_solver|]; exists m; split; [done|]; by apply (pi_page _ _ _ H x m Hm).
    all: intros (m & Hm & S); by apply (pi_page _ _ _ H x m Hm). }
  assert (Hlook : ∀ x, x ∈ pp_free_pages p ++ pp_reclaim_pending p → replicate (pp_n_pages p) false !! x = Some false).
  { intros x Hx. apply lookup_replicate_2. apply (pi_range _ _ _ H). set_solver. }
  destruct (check_free_ok p (pp_free_pages p) (replicate (pp_n_pages p) false)) as (seen & E1 & G1); [apply H | intros; apply Hlook; set_solver | |].
  { intros x Hx. apply Hst in Hx as (m & Hm & S). exists m. pose proof (pi_page _ _ _ H x m Hm) as P. open_page P. by rewrite S in *. }
  rewrite E1. cbn [mbind option_bind].
  destruct (check_pending_ok p (pp_reclaim_pending p) seen) as (seen' & E2); [apply H | | |].
  { intros x Hx. rewrite G1; [apply Hlook; set_solver|]. intros (m & Hm & S)%Hst. apply Hst in Hx as (m' & Hm' & S'). congruence. }
  { intros x Hx. apply Hst in Hx as (m & Hm & S). exists m. pose proof (pi_page _ _ _ H x m Hm) as P. open_page P. by rewrite S in *. }
  rewrite E2. cbn [mbind option_bind]. rewrite count_resident_ok.
  2:{ apply Forall_forall. intros m Hm [R1 R2]. pose proof (proj1 (Forall_forall _ _) Hfit m Hm) as Hf. simpl in Hf. apply list_elem_of_lookup in Hm as [x Hx].
      pose proof (pi_page _ _ _ H x m Hx) as P. open_page P. destruct (pg_state m); try done; lia. }
  cbn [mbind option_bind].
  rewrite (count_listed (λ m, pg_state m = Free) (pp_meta p) (pp_free_pages p)) by (apply H || intros; apply Hst).
  rewrite (count_listed (λ m, pg_state m = ReclaimPending) (pp_meta p) (pp_reclaim_pending p)) by (apply H || intros; apply Hst).
  rewrite count_states, (pi_len _ _ _ H), Nat.eqb_refl. done.
Qed.

(** What the check has added up was in range. *)
Lemma count_resident_fit metas : ∀ acc n, count_resident metas acc = Some n →
  Forall (λ m, resident m → (pg_table_refs m + pg_cache_refs m ≤ umax 32)%Z) metas.
Proof.
  induction metas as [|m metas IH]; intros acc n; simpl; [constructor|]. unfold add_u32, checked_add.
  destruct (Z.leb_spec (pg_table_refs m + pg_cache_refs m) (umax 32)) as [L|L].
  - intros H. constructor; [done|]. destruct (pg_state m); try (by eapply IH); cbn [mbind option_bind] in H;
      (destruct (assert_ _); [by eapply IH in H | done]).
  - intros H. constructor; [|destruct (pg_state m); first [done | by eapply IH]]. intros [R1 R2]. destruct (pg_state m); done.
Qed.

Lemma check_invariants_exact p held res : pool_inv p held res → check_invariants p = Some tt ↔ refs_fit p.
Proof.
  intros H. split; [|by eapply check_invariants_ok]. unfold check_invariants. destruct (check_free _ _ _) as [seen|]; [|done]. cbn [mbind option_bind].
  destruct (check_pending _ _ _); [|done]. cbn [mbind option_bind]. destruct (count_resident _ _) as [n|] eqn:E; [|done]. intros _.
  apply count_resident_fit in E. apply Forall_lookup. intros x m Hm. pose proof (proj1 (Forall_lookup _ _) E x m Hm) as R. simpl in R.
  pose proof (pi_page _ _ _ H x m Hm) as P. open_page P. unfold resident in R. change (umax 32) with 4294967295%Z in *.
  destruct (pg_state m); try (apply R; done); lia.
Qed.
