(* ===== verification/SlotPoolClaims.v ===== *)
(** * Paged key-value memory in use

    Sessions acquire, grow, share and release slots, plan copies and commit
    them, and hold leases on pages, in any order.  [good] is the invariant of
    the slots, [World] the slots with the plans in flight; the memory of the
    pages is a function, in which the claim on copy-on-write is stated. *)

From S2P Require Import Prelude SlotPool SlotPoolOk.

Local Abbreviation occ := (count_occ Nat.eq_dec).
#[local] Arguments count_occ : simpl never.

(** ** The slots *)

Definition table_pages (ot : option BlockTable) : list nat := match ot with Some t => bt_pages t | None => [] end.
Definition mapped_by (tables : list (option BlockTable)) : list nat := concat (map table_pages tables).
Definition mapped (s : SlotPool) : list nat := mapped_by (sp_block_tables s).

Lemma mapped_insert tables id ot ot' : tables !! id = Some ot → mapped_by (<[id:=ot']> tables) ≡ₚ table_pages ot' ++ mapped_by (<[id:=None]> tables).
Proof.
  intros H%lookup_lt_Some. unfold mapped_by. rewrite !insert_take_drop, !map_app, !concat_app by done. simpl. apply Permutation_app_swap_app.
Qed.

Lemma mapped_split tables id ot : tables !! id = Some ot → mapped_by tables ≡ₚ table_pages ot ++ mapped_by (<[id:=None]> tables).
Proof. intros H. rewrite <-(list_insert_id tables id ot H) at 1. by eapply mapped_insert. Qed.

Lemma in_mapped tables id t x : tables !! id = Some (Some t) → x ∈ bt_pages t → x ∈ mapped_by tables.
Proof. intros H Hx. rewrite (mapped_split _ _ _ H). set_solver. Qed.

(** [gs] are the generations of the slots and [us] tells which are in use;
    [lost] are the pages of plans that were dropped. *)
Record good (gs : list Z) (us : list bool) (lost res : list nat) (s : SlotPool) (p : PagePool) : Prop := {
  gd_pool : sp_page_pool s = Some p;
  gd_gens : sp_generations s = gs;
  gd_used : sp_in_use s = us;
  gd_descs : length (sp_descs s) = length gs;
  gd_tables : length (sp_block_tables s) = length gs;
  gd_us : length us = length gs;
  gd_live : ∀ id t, sp_block_tables s !! id = Some (Some t) → bt_live_tokens t ≤ length (bt_pages t) * PAGE_TOKENS;
  gd_inv : pool_inv p (mapped s ++ lost) res
}.

Lemma good_descs gs us lost res s p descs d : good gs us lost res s p → length descs = length gs → good gs us lost res (put_descs s descs d) p.
Proof. intros [] H. by split. Qed.

Lemma good_dirty gs us lost res s p ds : good gs us lost res s p → good gs us lost res (put_tables_dirty s ds) p.
Proof. intros []. by split. Qed.

(** A table and the pool after an operation on them. *)
Lemma good_table gs us lost res res' s p p' id ot ot' : good gs us lost res s p → sp_block_tables s !! id = Some ot →
  (∀ t, ot' = Some t → bt_live_tokens t ≤ length (bt_pages t) * PAGE_TOKENS) →
  pool_inv p' (table_pages ot' ++ (mapped_by (<[id:=None]> (sp_block_tables s)) ++ lost)) res' →
  good gs us lost res' (put_table (put_pool s p') id ot') p'.
Proof.
  intros [] Hid Hl H. split; simpl; try done.
  - by rewrite length_insert.
  - intros i t. destruct (decide (i = id)) as [->|N].
    + rewrite list_lookup_insert_eq by (by apply lookup_lt_Some in Hid). intros [= E]. by apply Hl.
    + rewrite list_lookup_insert_ne by done. apply gd_live0.
  - unfold mapped. simpl. eapply pool_inv_perm; [exact H | | done]. rewrite app_assoc. f_equiv. symmetry. by eapply mapped_insert.
Qed.

(** The pool alone, when the tables stay. *)
Lemma good_pool gs us lost lost' res res' s p p' : good gs us lost res s p → pool_inv p' (mapped s ++ lost') res' → good gs us lost' res' (put_pool s p') p'.
Proof. intros [] H. by split. Qed.

Lemma good_res gs us lost res res' s p : res ≡ₚ res' → good gs us lost res s p → good gs us lost res' s p.
Proof. intros E []. split; try done. by eapply pool_inv_perm. Qed.

Lemma good_at gs us lost res s p id : good gs us lost res s p → id < length gs → ∃ ot, sp_block_tables s !! id = Some ot ∧
  pool_inv p (table_pages ot ++ (mapped_by (<[id:=None]> (sp_block_tables s)) ++ lost)) res.
Proof.
  intros G Hid. rewrite <-(gd_tables _ _ _ _ _ _ G) in Hid. apply lookup_lt_is_Some in Hid as [ot E]. exists ot. split; [done|].
  eapply pool_inv_perm; [exact (gd_inv _ _ _ _ _ _ G) | | done]. rewrite app_assoc. f_equiv. by apply mapped_split.
Qed.

Lemma set_desc_len_good gs us lost res s p id z : good gs us lost res s p → id < length gs →
  ∃ s', set_desc_len s id z = Some s' ∧ good gs us lost res s' p ∧ sp_block_tables s' = sp_block_tables s.
Proof.
  intros G Hid. unfold set_desc_len. rewrite <-(gd_descs _ _ _ _ _ _ G) in Hid. destruct (lookup_lt_is_Some_2 _ _ Hid) as [d E].
  rewrite E. cbn [mbind option_bind]. eexists. split; [done|]. destruct (negb _); [|done]. split; [|done]. apply good_descs; [done|].
  rewrite length_insert. apply (gd_descs _ _ _ _ _ _ G).
Qed.

(** A reset slot has an empty table, or none as before. *)
Lemma reset_good gs us lost res s p id : good gs us lost res s p → id < length gs →
  ∃ s' p' ot, reset s id = Some s' ∧ good gs us lost res s' p' ∧ sp_block_tables s' !! id = Some ot ∧ (ot = None ∨ ot = Some table_new).
Proof.
  intros G Hid. unfold reset. destruct (set_desc_len_good _ _ _ _ _ _ id 0 G Hid) as (s1 & E1 & G1 & _). rewrite E1. cbn [mbind option_bind].
  rewrite (gd_pool _ _ _ _ _ _ G1). destruct (good_at _ _ _ _ _ _ id G1 Hid) as (ot & Et & H1). rewrite Et. cbn [mbind option_bind].
  assert (Hs2 : ∃ s2 p2 ot2, match ot with
      | Some t => if 0 <? length (bt_pages t) then '(pool, t, _) ← release_table p t; Some (mark_table (put_pool_table s1 id pool t) id) else Some s1
      | None => Some s1 end = Some s2 ∧ good gs us lost res s2 p2 ∧ sp_block_tables s2 !! id = Some ot2 ∧ (ot2 = None ∨ ot2 = Some table_new)).
  { destruct ot as [t|]; [|exists s1, p, None; tauto]. destruct (Nat.ltb_spec 0 (length (bt_pages t))) as [L|L].
    - destruct (release_table_inv _ _ _ _ H1) as (p2 & E2 & H2 & _). rewrite E2. cbn [mbind option_bind].
      eexists _, p2, (Some table_new). split; [done|]. split_and!; [|simpl; apply list_lookup_insert_eq; by apply lookup_lt_Some in Et|tauto].
      apply good_dirty. eapply good_table; [exact G1 | exact Et | intros t' [= <-]; simpl; lia | exact H2].
    - exists s1, p, (Some t). pose proof (gd_live _ _ _ _ _ _ G1 _ _ Et). destruct t as [[|] l]; simpl in *; [|lia].
      assert (l = 0) as -> by lia. tauto. }
  destruct Hs2 as (s2 & p2 & ot2 & E2 & G2 & Et2 & Hot). rewrite E2. cbn [mbind option_bind].
  assert (Hd : id < length (sp_descs s2)) by (by rewrite (gd_descs _ _ _ _ _ _ G2)). destruct (lookup_lt_is_Some_2 _ _ Hd) as [d Ed].
  rewrite Ed. cbn [mbind option_bind]. eexists _, p2, ot2. split; [done|]. split_and!; try done. apply good_descs; [done|].
  rewrite length_insert. apply (gd_descs _ _ _ _ _ _ G2).
Qed.

Lemma good_empty_table gs us lost res s p id ot ot' : good gs us lost res s p → sp_block_tables s !! id = Some ot →
  (ot = None ∨ ot = Some table_new) → (ot' = None ∨ ot' = Some table_new) → good gs us lost res (put_table s id ot') p.
Proof.
  intros G E H H'. assert (Es : put_pool s p = s) by (pose proof (gd_pool _ _ _ _ _ _ G) as K; destruct s; simpl in *; by subst).
  rewrite <-Es. eapply good_table; [exact G | exact E | |].
  - intros t ->. destruct H' as [?|[= ->]]; [done | simpl; lia].
  - assert (Ep : table_pages ot' = table_pages ot) by (by destruct H as [-> | ->], H' as [-> | ->]). rewrite Ep, app_assoc.
    eapply pool_inv_perm; [exact (gd_inv _ _ _ _ _ _ G) | | done]. f_equiv. by apply mapped_split.
Qed.

Lemma acquire_good gs us lost res s p : good gs us lost res s p →
  ∃ s' p' o us', acquire s = Some (s', o) ∧ good gs us' lost res s' p' ∧
    match o with Some i => us !! i = Some false ∧ us' = <[i:=true]> us ∧ sp_block_tables s' !! i = Some (Some table_new) | None => us' = us ∧ s' = s end.
Proof.
  intros G. unfold acquire. rewrite (gd_used _ _ _ _ _ _ G). destruct (position negb us) as [i|] eqn:Ei; [|by exists s, p, None, us].
  apply position_Some in Ei as (x & Hx & Hn). destruct x; [done|]. assert (Hi : i < length gs) by (rewrite <-(gd_us _ _ _ _ _ _ G); by apply lookup_lt_Some in Hx).
  assert (G1 : good gs (<[i:=true]> us) lost res (put_in_use s (<[i:=true]> us)) p).
  { destruct G. split; try done. by rewrite length_insert. }
  destruct (reset_good _ _ _ _ _ _ i G1 Hi) as (s' & p' & ot & E & G2 & Et & Hot). rewrite E. cbn [mbind option_bind]. rewrite (gd_pool _ _ _ _ _ _ G2).
  eexists _, p', (Some i), _. split; [done|]. split; [apply good_dirty; eapply good_empty_table; try done; by right|]. split_and!; [done..|].
  simpl. apply list_lookup_insert_eq. by apply lookup_lt_Some in Et.
Qed.

Lemma release_good gs us lost res s p id : good gs us lost res s p → id < length gs →
  ∃ s' p' g, release s id = Some s' ∧ gs !! id = Some g ∧ good (<[id:=bump g]> gs) (<[id:=false]> us) lost res s' p' ∧ sp_block_tables s' !! id = Some None.
Proof.
  intros G Hid. unfold release. destruct (reset_good _ _ _ _ _ _ id G Hid) as (s1 & p1 & ot & E1 & G1 & Et & Hot).
  rewrite E1. cbn [mbind option_bind]. rewrite (gd_pool _ _ _ _ _ _ G1), Et. cbn [mbind option_bind].
  assert (Hs2 : ∃ s2 p2 ot2, match ot with Some t => '(pool, t, _) ← release_table p1 t; Some (put_pool_table s1 id pool t) | None => Some s1 end = Some s2 ∧
    good gs us lost res s2 p2 ∧ sp_block_tables s2 !! id = Some ot2 ∧ (ot2 = None ∨ ot2 = Some table_new)).
  { destruct ot as [t|]; [|exists s1, p1, None; tauto]. destruct (good_at _ _ _ _ _ _ id G1 Hid) as (ot & Et' & H1). assert (ot = Some t) as -> by congruence.
    destruct (release_table_inv _ _ _ _ H1) as (p2 & E2 & H2 & _). rewrite E2. cbn [mbind option_bind].
    eexists _, p2, (Some table_new). split; [done|]. split_and!; [|simpl; apply list_lookup_insert_eq; by apply lookup_lt_Some in Et|tauto].
    eapply good_table; [exact G1 | exact Et | intros t' [= <-]; simpl; lia | exact H2]. }
  destruct Hs2 as (s2 & p2 & ot2 & E2 & G2 & Et2 & Hot2). rewrite E2. cbn [mbind option_bind].
  assert (Hg : ∃ g, gs !! id = Some g) by (apply lookup_lt_is_Some_2; lia). destruct Hg as [g Hg].
  cbn [sp_generations put_tables_dirty put_table]. rewrite (gd_gens _ _ _ _ _ _ G2), Hg. cbn [mbind option_bind].
  eexists _, p2, g. split; [done|]. split; [done|]. pose proof (good_empty_table _ _ _ _ _ _ id ot2 None G2 Et2 Hot2 ltac:(tauto)) as [].
  split; [split; simpl in *; rewrite ?length_insert in *; try done; congruence|]. simpl. apply list_lookup_insert_eq. by apply lookup_lt_Some in Et2.
Qed.

Lemma publish_shared_good gs us lost res s p id live t : good gs us lost res s p → sp_block_tables s !! id = Some (Some t) → live ≤ length (bt_pages t) * PAGE_TOKENS →
  ∃ s', publish_shared s id live t = Some s' ∧ good gs us lost res s' p.
Proof.
  intros G E L. assert (Hid : id < length gs) by (rewrite <-(gd_tables _ _ _ _ _ _ G); by apply lookup_lt_Some in E).
  unfold publish_shared, set_live_tokens. rewrite (proj2 (Nat.leb_le _ _) L). cbn [mbind option_bind sp_descs put_table].
  assert (Hd : id < length (sp_descs s)) by (by rewrite (gd_descs _ _ _ _ _ _ G)). destruct (lookup_lt_is_Some_2 _ _ Hd) as [d Ed].
  rewrite Ed. cbn [mbind option_bind]. eexists. split; [done|]. apply good_dirty, good_descs; [|rewrite length_insert; apply (gd_descs _ _ _ _ _ _ G)].
  assert (Es : put_pool s p = s) by (pose proof (gd_pool _ _ _ _ _ _ G) as K; destruct s; simpl in *; by subst). rewrite <-Es.
  destruct (good_at _ _ _ _ _ _ id G Hid) as (ot & Et & H). assert (ot = Some t) as -> by congruence.
  eapply good_table; [exact G | exact E | by intros t' [= <-] | exact H].
Qed.

(** What the refusal or the answer of an operation leaves. *)
Definition keeps_good {A} (gs : list Z) (us : list bool) (lost res : list nat) (o : option (SlotPool * result PoolFault A)) : Prop :=
  ∃ s' p' r, o = Some (s', r) ∧ good gs us lost res s' p'.

Section operations.
Context (gs : list Z) (us : list bool) (lost res : list nat) (s : SlotPool) (p : PagePool) (G : good gs us lost res s p).

Lemma provision_good id n : id < length gs → keeps_good gs us lost res (provision_pages_for s id n).
Proof using G.
  intros Hid. unfold provision_pages_for. destruct (check_len s n); [|by exists s, p, (Err e)]. rewrite (gd_pool _ _ _ _ _ _ G).
  destruct (good_at _ _ _ _ _ _ id G Hid) as (ot & Et & H1). rewrite Et. cbn [mbind option_bind]. destruct ot as [t|]; [|by exists s, p, (Err (NoBlockTable id))].
  destruct (ensure_capacity_inv p t n _ res H1) as (p' & t' & r & E & H' & _ & (pages & Hp) & R). rewrite E. cbn [mbind option_bind].
  assert (G' : good gs us lost res (put_pool_table s id p' t') p').
  { eapply good_table; [exact G | exact Et | | exact H']. intros t'' [= <-]. destruct r; [destruct R as [-> R]; exact R|]. destruct R as [-> ->]. by apply (gd_live _ _ _ _ _ _ G id). }
  destruct r; eexists _, p', _; (split; [done|]); [by apply good_dirty | done].
Qed.

Lemma set_seq_len_good id n : id < length gs → keeps_good gs us lost res (set_seq_len s id n).
Proof using G.
  intros Hid. unfold set_seq_len. destruct (provision_good id n Hid) as (s1 & p1 & r & E & G1). rewrite E. cbn [mbind option_bind].
  destruct r; [|by exists s1, p1, (Err e)]. destruct (set_desc_len_good _ _ _ _ _ _ id (as_i32 n) G1 Hid) as (s2 & E2 & G2 & _). rewrite E2.
  by exists s2, p1, (Ok tt).
Qed.

Lemma publish_seq_len_good id n : id < length gs → keeps_good gs us lost res (publish_seq_len s id n).
Proof using G.
  intros Hid. unfold publish_seq_len. destruct (check_len s n); [|by exists s, p, (Err e)].
  destruct (set_desc_len_good _ _ _ _ _ _ id (as_i32 n) G Hid) as (s2 & E2 & G2 & _). rewrite E2. by exists s2, p, (Ok tt).
Qed.

Lemma table_of_slot id t : block_table s id = Some t → sp_block_tables s !! id = Some (Some t) ∧ id < length gs.
Proof using G.
  unfold block_table. destruct (sp_block_tables s !! id) as [ot|] eqn:E; [|done]. intros ->. split; [done|].
  rewrite <-(gd_tables _ _ _ _ _ _ G). by apply lookup_lt_Some in E.
Qed.

(** The pages of a slot's table are held whatever table is replaced. *)
Lemma other_table src dst t : sp_block_tables s !! src = Some (Some t) → src ≠ dst → ∀ x, x ∈ bt_pages t → x ∈ mapped_by (<[dst:=None]> (sp_block_tables s)).
Proof. intros E N x Hx. apply (in_mapped _ src t); [by rewrite list_lookup_insert_ne | done]. Qed.

Lemma share_prefix_good src dst n : mul_usize n PAGE_TOKENS ≠ None → keeps_good gs us lost res (share_prefix s src dst n).
Proof using G.
  intros Hn. unfold share_prefix. destruct (mul_usize n PAGE_TOKENS) as [live|] eqn:El; [|done]. cbn [mbind option_bind].
  assert (live = n * PAGE_TOKENS) as -> by (unfold mul_usize in El; case_match; by simplify_eq).
  destruct (_ <? _); [by eexists s, p, (Err _)|]. destruct (block_table s src) as [ts|] eqn:Es; [|by eexists s, p, (Err _)].
  destruct (block_table s dst) as [td|] eqn:Ed; [|by eexists s, p, (Err _)]. rewrite (gd_pool _ _ _ _ _ _ G).
  apply table_of_slot in Es as [Es _]. apply table_of_slot in Ed as [Ed Hd].
  assert (Hsame : put_pool_table s dst p td = s).
  { unfold put_pool_table, put_table, put_pool. simpl. rewrite list_insert_id by done. pose proof (gd_pool _ _ _ _ _ _ G) as K. destruct s; simpl in *; by subst. }
  unfold pool_share_prefix. destruct (Nat.ltb_spec (length (bt_pages ts)) n) as [Ln|Ln]; [cbn [mbind option_bind]; rewrite Hsame; by eexists s, p, (Err _)|].
  destruct (_ <? _); [cbn [mbind option_bind]; rewrite Hsame; by eexists s, p, (Err _)|]. destruct (Nat.eqb_spec (length (bt_pages td)) 0) as [Le|Le]; cbn [negb]; [|cbn [mbind option_bind]; rewrite Hsame; by eexists s, p, (Err _)].
  apply nil_length_inv in Le. destruct (good_at _ _ _ _ _ _ dst G Hd) as (ot & Et & H). assert (ot = Some td) as -> by congruence. simpl in H.
  destruct (share_loop_inv (take n (bt_pages ts)) p td _ res H) as (p' & t' & r & E & H' & L' & _ & _ & R).
  { intros x Hx. destruct (decide (src = dst)) as [->|N].
    - assert (ts = td) as -> by congruence. rewrite Le in Hx. rewrite take_nil in Hx. set_solver.
    - apply elem_of_app. left. apply (other_table src dst ts Es N). rewrite <-(take_drop n (bt_pages ts)). set_solver. }
  rewrite E. cbn [mbind option_bind].
  assert (G' : good gs us lost res (put_pool_table s dst p' t') p').
  { eapply good_table; [exact G | exact Et | | exact H']. intros t'' [= <-]. rewrite L'. pose proof (gd_live _ _ _ _ _ _ G _ _ Et) as Z. rewrite Le in Z. simpl in Z. lia. }
  destruct r as [[]|e]; [|by exists (put_pool_table s dst p' t'), p', (Err e)].
  destruct (publish_shared_good _ _ _ _ _ _ dst (n * PAGE_TOKENS) t' G') as (s2 & E2 & G2).
  - simpl. apply list_lookup_insert_eq. by apply lookup_lt_Some in Et.
  - rewrite (R eq_refl), Le, app_nil_l, length_take, Nat.min_l by done. done.
  - rewrite E2. by exists s2, p', (Ok tt).
Qed.

Lemma share_published_good dst pages : mul_usize (length pages) PAGE_TOKENS ≠ None →
  keeps_good gs us lost res (share_published_pages s dst pages).
Proof using G.
  intros Hn. unfold share_published_pages. destruct (mul_usize _ PAGE_TOKENS) as [live|] eqn:El; [|done]. cbn [mbind option_bind].
  assert (live = length pages * PAGE_TOKENS) as -> by (unfold mul_usize in El; case_match; by simplify_eq).
  destruct (_ <? _); [by eexists s, p, (Err _)|]. rewrite (gd_pool _ _ _ _ _ _ G). destruct (block_table s dst) as [td|] eqn:Ed; [|by eexists s, p, (Err _)].
  apply table_of_slot in Ed as [Ed Hd]. destruct (Nat.eqb_spec (length (bt_pages td)) 0) as [Le|Le]; cbn [negb]; [|by eexists s, p, (Err _)].
  apply nil_length_inv in Le. destruct (good_at _ _ _ _ _ _ dst G Hd) as (ot & Et & H). assert (ot = Some td) as -> by congruence. simpl in H.
  destruct (attachable_all_total p _ _ pages H) as [[[]|e] Ea]; rewrite Ea; cbn [mbind option_bind]; [|by exists s, p, (Err e)].
  destruct (attach_loop_inv pages p td _ res H) as (p' & t' & r & E & H' & L' & _ & R). rewrite E. cbn [mbind option_bind].
  assert (G' : good gs us lost res (put_pool_table s dst p' t') p').
  { eapply good_table; [exact G | exact Et | | exact H']. intros t'' [= <-]. rewrite L'. pose proof (gd_live _ _ _ _ _ _ G _ _ Et) as Z. rewrite Le in Z. simpl in Z. lia. }
  destruct r as [[]|e]; [|by exists (put_pool_table s dst p' t'), p', (Err e)].
  destruct (publish_shared_good _ _ _ _ _ _ dst (length pages * PAGE_TOKENS) t' G') as (s2 & E2 & G2).
  - simpl. apply list_lookup_insert_eq. by apply lookup_lt_Some in Et.
  - rewrite (R eq_refl), Le, app_nil_l. done.
  - rewrite E2. by exists s2, p', (Ok tt).
Qed.

Lemma activate_good id addr : block_table s id ≠ None → ∃ s', activate_paged_desc s id addr = Some s' ∧ good gs us lost res s' p.
Proof using G.
  intros Ht. unfold activate_paged_desc. destruct (block_table s id) as [t|] eqn:E; [|done]. apply table_of_slot in E as [E Hid].
  cbn [mbind option_bind]. assert (Hd : id < length (sp_descs s)) by (by rewrite (gd_descs _ _ _ _ _ _ G)).
  destruct (lookup_lt_is_Some_2 _ _ Hd) as [d Ed]. rewrite Ed. cbn [mbind option_bind]. eexists. split; [done|].
  apply good_descs; [done|]. rewrite length_insert. apply (gd_descs _ _ _ _ _ _ G).
Qed.

(** An operation on one page of the pool. *)
Lemma page_op_good f : keeps_inv p (mapped s ++ lost) res (f p) →
  ∃ s' p' r, ('(pool, r) ← f p; Some (put_pool s pool, r)) = Some (s', r) ∧ good gs us lost res s' p'.
Proof using G.
  intros (p' & r & E & H & _). rewrite E. exists (put_pool s p'), p', r. split; [done|]. by eapply good_pool.
Qed.

Lemma plan_good id ws we : ∃ s' p' r, plan_cow_for_slot s id ws we = Some (s', r) ∧
  match r with
  | Ok plan => good gs us lost (map cw_dst_phys (cp_copies plan) ++ res) s' p' ∧ NoDup (map cw_logical_page (cp_copies plan))
  | Err _ => good gs us lost res s' p'
  end.
Proof using G.
  unfold plan_cow_for_slot. rewrite (gd_pool _ _ _ _ _ _ G). destruct (block_table s id) as [t|] eqn:E; [|by eexists s, p, (Err _)].
  apply table_of_slot in E as [E _].
  destruct (plan_cow_inv p t ws we _ _ (gd_inv _ _ _ _ _ _ G)) as (p' & r & Ep & _ & R).
  { intros x Hx. apply elem_of_app. left. by eapply in_mapped. }
  rewrite Ep. cbn [mbind option_bind]. exists (put_pool s p'), p', r. split; [done|].
  destruct r as [plan|e]; [destruct R as (R1 & R2 & _); split; [|done] |]; by eapply good_pool.
Qed.

End operations.

(** The destinations of a plan have no reference but their reservation. *)
Definition plan_unshared (s : SlotPool) (plan : CowPlan) : Prop :=
  match sp_page_pool s with Some p => Forall (unshared p) (map cw_dst_phys (cp_copies plan)) | None => True end.

#[export] Instance plan_unshared_dec s plan : Decision (plan_unshared s plan).
Proof. unfold plan_unshared. case_match; apply _. Defined.

(** A commit whose check fails, which releases the destinations. *)
Definition commit_refused (s : SlotPool) (id : nat) (plan : CowPlan) : Prop :=
  match sp_page_pool s, block_table s id with
  | Some p, Some t => commit_verify p t (cp_copies plan) ≠ Some (Ok tt)
  | _, _ => False
  end.

(** A commit to a slot without a table drops the plan: its pages are lost. *)
Lemma commit_good gs us lost res s p id plan :
  good gs us lost (map cw_dst_phys (cp_copies plan) ++ res) s p → NoDup (map cw_logical_page (cp_copies plan)) →
  (commit_refused s id plan → plan_unshared s plan) →
  ∃ s' p' r, commit_cow_for_slot s id plan = Some (s', r) ∧
    good gs us (match block_table s id with Some _ => lost | None => map cw_dst_phys (cp_copies plan) ++ lost end) res s' p'.
Proof.
  intros G Hnd. unfold commit_refused, plan_unshared, commit_cow_for_slot. rewrite (gd_pool _ _ _ _ _ _ G). intros Hu. destruct (block_table s id) as [t|] eqn:E.
  - destruct (table_of_slot _ _ _ _ _ _ G id t E) as [Et Hid]. destruct (good_at _ _ _ _ _ _ id G Hid) as (ot & Et' & H). assert (ot = Some t) as -> by congruence.
    destruct (commit_cow_inv p t plan _ res H Hnd Hu) as (p' & t' & r & Ec & H' & Hl & R). rewrite Ec. cbn [mbind option_bind].
    assert (G' : good gs us lost res (put_pool_table s id p' t') p').
    { eapply good_table; [exact G | exact Et | | exact H']. intros t'' [= <-]. rewrite Hl. pose proof (gd_live _ _ _ _ _ _ G _ _ Et) as L.
      destruct r; [destruct R as (-> & _); by rewrite length_rebind | by rewrite R]. }
    destruct r; eexists _, p', _; (split; [done|]); [|done]. apply good_descs; [by apply good_dirty | apply (gd_descs _ _ _ _ _ _ G')].
  - exists s, p, (Err (NoBlockTable id)). split; [done|]. destruct G. split; try done.
    apply (pool_inv_counts _ _ _ _ _ gd_inv0); intros y; rewrite !count_occ_app; lia.
Qed.

Lemma abort_good gs us lost res s p plan : good gs us lost (map cw_dst_phys (cp_copies plan) ++ res) s p → plan_unshared s plan →
  ∃ s' p', abort_cow_for_slot s plan = Some s' ∧ good gs us lost res s' p'.
Proof.
  intros G. unfold plan_unshared, abort_cow_for_slot, abort_cow. rewrite (gd_pool _ _ _ _ _ _ G). intros Hu.
  destruct (release_all_inv _ p _ res (gd_inv _ _ _ _ _ _ G) Hu) as (p' & E & H & _). rewrite E. cbn [mbind option_bind].
  exists (put_pool s p'), p'. split; [done|]. by eapply good_pool.
Qed.

(** ** Sessions, plans and leases in any order *)

Record World := mkWorld { w_slots : SlotPool; w_plans : list CowPlan; w_lost : list nat }.

Definition plan_pages (plan : CowPlan) : list nat := map cw_dst_phys (cp_copies plan).
Definition reserved (w : World) : list nat := concat (map plan_pages (w_plans w)).

Inductive Call :=
| Acquire | Release (id : nat) | ResetSlot (id : nat)
| ReleaseLeased (l : SlotLease) | SetSeqLenLeased (l : SlotLease) (n : nat) | SharePrefixLeased (src dst : SlotLease) (n : nat)
| SetSeqLen (id n : nat) | Provision (id n : nat) | PublishSeqLen (id n : nat) | Activate (id : nat) (addr : Z) | MarkUploaded
| SharePrefix (src dst n : nat) | SharePublished (dst : nat) (pages : list nat)
| PlanCow (id write_start write_end : nat) | CommitCow (id plan : nat) | AbortCow (plan : nat) | DropPlan (plan : nat)
| SealPage (x : nat) | AddCacheRef (x : nat) | ReleaseCacheRef (x : nat) | AddInflightRef (x : nat) | ReleaseInflightRef (x : nat)
| DrainCompleted.

Definition with_slots (w : World) (o : option SlotPool) : option World := s ← o; Some (mkWorld s (w_plans w) (w_lost w)).
Definition with_answer {A} (w : World) (o : option (SlotPool * A)) : option World := '(s, _) ← o; Some (mkWorld s (w_plans w) (w_lost w)).
Definition on_pool {A} (w : World) (f : PagePool → option (PagePool * A)) : option World :=
  pool ← sp_page_pool (w_slots w); with_answer w ('(pool, r) ← f pool; Some (put_pool (w_slots w) pool, r)).

(** [None] is a panic. *)
Definition run_call (w : World) (c : Call) : option World :=
  let s := w_slots w in
  match c with
  | Acquire => with_answer w (acquire_leased s)
  | Release id => with_slots w (release s id)
  | ResetSlot id => with_slots w (reset s id)
  | ReleaseLeased l => with_answer w (release_leased s l)
  | SetSeqLenLeased l n => with_answer w (set_seq_len_leased s l n)
  | SharePrefixLeased src dst n => with_answer w (share_prefix_leased s src dst n)
  | SetSeqLen id n => with_answer w (set_seq_len s id n)
  | Provision id n => with_answer w (provision_pages_for s id n)
  | PublishSeqLen id n => with_answer w (publish_seq_len s id n)
  | Activate id addr => with_slots w (activate_paged_desc s id addr)
  | MarkUploaded => Some (mkWorld (mark_uploaded s) (w_plans w) (w_lost w))
  | SharePrefix src dst n => with_answer w (share_prefix s src dst n)
  | SharePublished dst pages => with_answer w (share_published_pages s dst pages)
  | PlanCow id ws we =>
      '(s, r) ← plan_cow_for_slot s id ws we;
      Some (mkWorld s (match r with Ok plan => w_plans w ++ [plan] | Err _ => w_plans w end) (w_lost w))
  | CommitCow id k =>
      plan ← w_plans w !! k;
      '(s', _) ← commit_cow_for_slot s id plan;
      Some (mkWorld s' (delete k (w_plans w)) (match block_table s id with Some _ => w_lost w | None => plan_pages plan ++ w_lost w end))
  | AbortCow k => plan ← w_plans w !! k; s ← abort_cow_for_slot s plan; Some (mkWorld s (delete k (w_plans w)) (w_lost w))
  | DropPlan k => plan ← w_plans w !! k; Some (mkWorld s (delete k (w_plans w)) (plan_pages plan ++ w_lost w))
  | SealPage x => on_pool w (λ p, seal p x)
  | AddCacheRef x => on_pool w (λ p, add_cache_ref p x)
  | ReleaseCacheRef x => on_pool w (λ p, release_cache_ref p x)
  | AddInflightRef x => on_pool w (λ p, add_inflight_ref p x)
  | ReleaseInflightRef x => on_pool w (λ p, release_inflight_ref p x)
  | DrainCompleted => on_pool w drain_completed
  end.

(** Slots are in range and products fit; and a plan is aborted, or refused by
    its commit, when its destinations have no reference but their reservation. *)
Definition allowed (w : World) (c : Call) : Prop :=
  let n := length (sp_generations (w_slots w)) in
  match c with
  | Release id | ResetSlot id | SetSeqLen id _ | Provision id _ | PublishSeqLen id _ => id < n
  | ReleaseLeased l | SetSeqLenLeased l _ => sl_id l < n
  | SharePrefixLeased src dst k => sl_id src < n ∧ sl_id dst < n ∧ mul_usize k PAGE_TOKENS ≠ None
  | Activate id _ => block_table (w_slots w) id ≠ None
  | SharePrefix _ _ k => mul_usize k PAGE_TOKENS ≠ None
  | SharePublished _ pages => mul_usize (length pages) PAGE_TOKENS ≠ None
  | CommitCow id k => ∃ plan, w_plans w !! k = Some plan ∧ (commit_refused (w_slots w) id plan → plan_unshared (w_slots w) plan)
  | AbortCow k => ∃ plan, w_plans w !! k = Some plan ∧ plan_unshared (w_slots w) plan
  | DropPlan k => k < length (w_plans w)
  | Acquire | MarkUploaded | PlanCow _ _ _ | DrainCompleted
  | SealPage _ | AddCacheRef _ | ReleaseCacheRef _ | AddInflightRef _ | ReleaseInflightRef _ => True
  end.

(** The slot that a call releases. *)
Definition releases (w : World) (c : Call) (id : nat) : bool :=
  match c with
  | Release i => i =? id
  | ReleaseLeased l => (sl_id l =? id) && match validate_generation (w_slots w) l with Some (Ok _) => true | _ => false end
  | _ => false
  end.

Inductive reach (w : World) : World → Prop :=
| reach_refl : reach w w
| reach_step w1 w2 c : reach w w1 → allowed w1 c → run_call w1 c = Some w2 → reach w w2.

Record world_inv (gs : list Z) (us : list bool) (w : World) : Prop := {
  wi_good : ∃ p, good gs us (w_lost w) (reserved w) (w_slots w) p;
  wi_plans : Forall (λ plan, NoDup (map cw_logical_page (cp_copies plan))) (w_plans w)
}.

(** Generations and use of the slots change by releases, and use by acquiring. *)
Definition slots_step (released : nat → bool) (gs gs' : list Z) (us us' : list bool) : Prop :=
  length gs' = length gs ∧
  ∀ id, gs' !! id = (if released id then bump <$> gs !! id else gs !! id) ∧
    (us !! id = Some true → us' !! id = Some (negb (released id))).

Lemma slots_step_refl gs us : slots_step (λ _, false) gs gs us us.
Proof. by split. Qed.

Definition steps_to (gs : list Z) (us : list bool) (w : World) (released : nat → bool) (o : option World) : Prop :=
  ∃ w' gs' us', o = Some w' ∧ world_inv gs' us' w' ∧ slots_step released gs gs' us us'.

Section calls.
Context (gs : list Z) (us : list bool) (w : World) (p : PagePool).
Context (G : good gs us (w_lost w) (reserved w) (w_slots w) p) (HP : Forall (λ plan, NoDup (map cw_logical_page (cp_copies plan))) (w_plans w)).

Lemma steps_same s' p' : good gs us (w_lost w) (reserved w) s' p' → steps_to gs us w (λ _, false) (Some (mkWorld s' (w_plans w) (w_lost w))).
Proof using HP. intros G'. exists (mkWorld s' (w_plans w) (w_lost w)), gs, us. split; [done|]. split; [|apply slots_step_refl]. split; [by exists p' | done]. Qed.

Lemma steps_answer {A} (o : option (SlotPool * result PoolFault A)) : keeps_good gs us (w_lost w) (reserved w) o → steps_to gs us w (λ _, false) (with_answer w o).
Proof using HP. intros (s' & p' & r & -> & G'). by eapply steps_same. Qed.

Lemma steps_slots o : (∃ s' p', o = Some s' ∧ good gs us (w_lost w) (reserved w) s' p') → steps_to gs us w (λ _, false) (with_slots w o).
Proof using HP. intros (s' & p' & -> & G'). by eapply steps_same. Qed.

Lemma steps_page f : keeps_inv p (mapped (w_slots w) ++ w_lost w) (reserved w) (f p) → steps_to gs us w (λ _, false) (on_pool w f).
Proof using G HP.
  intros H. unfold on_pool. rewrite (gd_pool _ _ _ _ _ _ G). cbn [mbind option_bind].
  destruct (page_op_good _ _ _ _ _ _ G f H) as (s' & p' & r & E & G'). rewrite E. by eapply steps_same.
Qed.

Lemma plan_taken k plan : w_plans w !! k = Some plan → reserved w ≡ₚ plan_pages plan ++ concat (map plan_pages (delete k (w_plans w))).
Proof. clear. intros H%delete_Permutation. unfold reserved. rewrite H at 1. done. Qed.

Lemma validate_total l : sl_id l < length gs → ∃ r, validate_generation (w_slots w) l = Some r ∧
  (r = Ok tt ↔ gs !! sl_id l = Some (sl_generation l) ∧ us !! sl_id l = Some true).
Proof using G.
  clear HP. intros Hid. unfold validate_generation, slot_generation. rewrite (gd_gens _ _ _ _ _ _ G), (gd_used _ _ _ _ _ _ G).
  destruct (lookup_lt_is_Some_2 _ _ Hid) as [g Eg]. rewrite Eg. simpl. destruct (Z.eqb_spec g (sl_generation l)) as [->|N]; simpl.
  - pose proof Hid as Hu. rewrite <-(gd_us _ _ _ _ _ _ G) in Hu. destruct (lookup_lt_is_Some_2 _ _ Hu) as [u Eu]. rewrite Eu. simpl.
    eexists. split; [done|]. destruct u; simpl; split; try done. intros [_ [=]].
  - eexists. split; [done|]. split; [done|]. intros [[=] _]. done.
Qed.
End calls.

Lemma steps_ext gs us w f g o : (∀ id, f id = g id) → steps_to gs us w f o → steps_to gs us w g o.
Proof. intros E (w' & gs' & us' & H1 & H2 & H3 & H4). exists w', gs', us'. split_and!; [done..|]. split; [done|]. intros id. rewrite <-E. apply H4. Qed.

Lemma steps_acquire gs us w p : good gs us (w_lost w) (reserved w) (w_slots w) p → Forall (λ plan, NoDup (map cw_logical_page (cp_copies plan))) (w_plans w) →
  steps_to gs us w (λ _, false) (with_answer w (acquire_leased (w_slots w))).
Proof.
  intros G HP. unfold acquire_leased. destruct (acquire_good _ _ _ _ _ _ G) as (s' & p' & o & us' & E & G' & Ho). rewrite E.
  exists (mkWorld s' (w_plans w) (w_lost w)), gs, us'. split; [done|]. split; [split; [by exists p' | done]|]. split; [done|]. intros id. split; [done|].
  destruct o as [i|]; [|by destruct Ho as [-> _]]. destruct Ho as (Hi & -> & _). intros Hu. rewrite list_lookup_insert_ne; [done | congruence].
Qed.

Lemma steps_release gs us w p id : good gs us (w_lost w) (reserved w) (w_slots w) p → Forall (λ plan, NoDup (map cw_logical_page (cp_copies plan))) (w_plans w) →
  id < length gs → steps_to gs us w (λ i, id =? i) (with_slots w (release (w_slots w) id)).
Proof.
  intros G HP Hid. destruct (release_good _ _ _ _ _ _ id G Hid) as (s' & p' & g & E & Eg & G' & _). rewrite E.
  exists (mkWorld s' (w_plans w) (w_lost w)), (<[id:=bump g]> gs), (<[id:=false]> us). split; [done|]. split; [split; [by exists p' | done]|].
  split; [apply length_insert|]. intros i. destruct (Nat.eqb_spec id i) as [->|N].
  - rewrite list_lookup_insert_eq, Eg by done. split; [done|]. intros Hu. rewrite list_lookup_insert_eq; [done|]. by apply lookup_lt_Some in Hu.
  - by rewrite !list_lookup_insert_ne.
Qed.

(** A refused lease changes nothing. *)
Lemma steps_leased {A} gs us w p l (f : SlotPool → option (SlotPool * result PoolFault A)) g :
  good gs us (w_lost w) (reserved w) (w_slots w) p → Forall (λ plan, NoDup (map cw_logical_page (cp_copies plan))) (w_plans w) → sl_id l < length gs →
  (validate_generation (w_slots w) l = Some (Ok tt) → steps_to gs us w g (with_answer w (f (w_slots w)))) →
  (validate_generation (w_slots w) l ≠ Some (Ok tt) → ∀ id, g id = false) →
  steps_to gs us w g (with_answer w (with_lease (w_slots w) l f)).
Proof.
  intros G HP Hid H1 H2. unfold with_lease. destruct (validate_total _ _ _ _ G l Hid) as ([[]|e] & E & _); rewrite E in *; cbn [mbind option_bind].
  - by apply H1.
  - apply (steps_ext _ _ _ (λ _, false)); [intros id; symmetry; by apply H2|]. apply (steps_answer gs us w HP). by exists (w_slots w), p, (Err e).
Qed.

(** No allowed call panics, and every call keeps the invariant. *)
Lemma call_ok gs us w c : world_inv gs us w → allowed w c → steps_to gs us w (releases w c) (run_call w c).
Proof.
  intros [[p G] HP] Ha. destruct c; simpl in *; rewrite ?(gd_gens _ _ _ _ _ _ G) in Ha;
    try (by apply (steps_answer gs us w HP);
         first [eapply set_seq_len_good | eapply provision_good | eapply publish_seq_len_good | eapply share_prefix_good | eapply share_published_good]; eassumption);
    try (apply (steps_page gs us w p G HP);
         first [apply seal_inv | apply add_cache_inv | apply release_cache_inv | apply add_inflight_inv | apply release_inflight_inv]; apply (gd_inv _ _ _ _ _ _ G)).
  - by eapply steps_acquire.
  - by eapply steps_release.
  - apply steps_slots; [done|]. destruct (reset_good _ _ _ _ _ _ id G Ha) as (s' & p' & _ & E & G' & _). by exists s', p'.
  - unfold release_leased. eapply steps_leased; [exact G | done | done | |].
    + intros Hv. apply (steps_ext _ _ _ (λ i, sl_id l =? i)); [intros; simpl; by rewrite Hv, andb_true_r|]. pose proof (steps_release _ _ _ _ _ G HP Ha) as H.
      unfold with_slots in H. destruct (release (w_slots w) (sl_id l)); done.
    + intros Hv id. simpl. destruct (validate_generation (w_slots w) l) as [[[]|]|]; by rewrite ?andb_false_r || done.
  - apply (steps_leased gs us w p); try done. intros _. apply (steps_answer gs us w HP). by eapply set_seq_len_good.
  - destruct Ha as (H1 & H2 & H3). apply (steps_leased gs us w p); try done. intros _. apply (steps_leased gs us w p); try done. intros _.
    apply (steps_answer gs us w HP). by eapply share_prefix_good.
  - apply steps_slots; [done|]. destruct (activate_good _ _ _ _ _ _ G id addr Ha) as (s' & E & G'). by exists s', p.
  - apply (steps_same gs us w HP _ p). unfold mark_uploaded. apply good_dirty, good_descs; [done | apply (gd_descs _ _ _ _ _ _ G)].
  - destruct (plan_good _ _ _ _ _ _ G id write_start write_end) as (s' & p' & r & E & R). rewrite E. cbn [mbind option_bind].
    eexists _, gs, us. split; [done|]. split; [|apply slots_step_refl]. destruct r as [plan|e]; [destruct R as [R1 R2]|]; split; simpl; try done; try by exists p'.
    + exists p'. eapply good_res; [|exact R1]. unfold reserved. simpl. rewrite map_app, concat_app. simpl. rewrite app_nil_r. apply Permutation_app_comm.
    + apply Forall_app. by rewrite Forall_singleton.
  - destruct Ha as (pl & Ek & Hu). rewrite Ek. cbn [mbind option_bind].
    destruct (commit_good gs us (w_lost w) (concat (map plan_pages (delete plan (w_plans w)))) (w_slots w) p id pl) as (s' & p' & r & E & G').
    { eapply good_res; [|exact G]. by apply plan_taken. }
    { by eapply Forall_lookup_1 in HP. }
    { done. }
    rewrite E. cbn [mbind option_bind]. eexists _, gs, us. split; [done|]. split; [|apply slots_step_refl]. split; [|by apply Forall_delete].
    exists p'. simpl. destruct (block_table (w_slots w) id); exact G'.
  - destruct Ha as (pl & Ek & Hu). rewrite Ek. cbn [mbind option_bind].
    destruct (abort_good gs us (w_lost w) (concat (map plan_pages (delete plan (w_plans w)))) (w_slots w) p pl) as (s' & p' & E & G').
    { eapply good_res; [|exact G]. by apply plan_taken. }
    { done. }
    rewrite E. cbn [mbind option_bind]. eexists _, gs, us. split; [done|]. split; [|apply slots_step_refl]. split; [by exists p' | by apply Forall_delete].
  - apply lookup_lt_is_Some in Ha as [pl Ek]. rewrite Ek. cbn [mbind option_bind].
    eexists _, gs, us. split; [done|]. split; [|apply slots_step_refl]. split; [|by apply Forall_delete]. exists p. simpl.
    destruct (good_res _ _ _ _ _ _ _ (plan_taken w plan pl Ek) G). split; try done.
    apply (pool_inv_counts _ _ _ _ _ gd_inv0); intros y; unfold reserved; simpl; rewrite !count_occ_app; lia.
  - unfold on_pool. rewrite (gd_pool _ _ _ _ _ _ G). cbn [mbind option_bind].
    destruct (drain_inv p _ _ (gd_inv _ _ _ _ _ _ G)) as (p' & freed & E & H & _). rewrite E. eapply (steps_same gs us w HP _ p'). by eapply good_pool.
Qed.

Lemma fresh_pool_inv n k v : pool_inv (with_checked_metadata n k v) [] [].
Proof.
  split; simpl.
  - apply length_replicate.
  - rewrite reverse_Permutation. apply NoDup_seq.
  - constructor.
  - intros x. rewrite app_nil_r, elem_of_reverse, elem_of_seq. lia.
  - intros x m [-> Hx]%lookup_replicate. split; simpl; rewrite ?elem_of_reverse, ?elem_of_seq; change (occ [] x) with 0; try done; try lia; split; intros ?; first [done | lia | set_solver].
Qed.

Definition start (s : SlotPool) : World := mkWorld s [] [].

Lemma start_inv within n cap k v pages s : slot_pool_new_paged within n cap k v pages = Done s →
  world_inv (replicate n 0%Z) (replicate n false) (start s).
Proof.
  unfold slot_pool_new_paged, page_pool_new. intros H. destruct (_ || _ || _); [done|].
  destruct (slot_cap cap) as [c|]; [|done]. cbn [unwrap mbind] in H. destruct (_ || _ || _); [done|].
  destruct (checked_arena_bytes pages k v) as [total|e]; [|done]. destruct (within total); [|done]. injection H as <-. split; [|done]. exists (with_checked_metadata pages k v).
  split; simpl; try done; rewrite ?length_replicate; try done.
  - intros id t Hx. apply lookup_replicate in Hx as [[=] _].
  - replace (mapped _) with (@nil nat); [apply fresh_pool_inv|]. unfold mapped, mapped_by. simpl. clear. by induction n.
Qed.

Definition gens_ok (gs : list Z) : Prop := Forall (λ g, 0 ≤ g < 2 ^ 32)%Z gs.

Lemma slots_step_gens f gs gs' us us' : slots_step f gs gs' us us' → gens_ok gs → gens_ok gs'.
Proof.
  intros [_ H] Hg. apply Forall_lookup. intros i g Hi. destruct (H i) as [E _]. rewrite Hi in E.
  destruct (f i); [|by eapply (proj1 (Forall_lookup _ gs) Hg)]. destruct (gs !! i) as [g'|]; [|done]. injection E as ->. apply Z.mod_pos_bound. lia.
Qed.

Lemma reach_inv w w' gs us : reach w w' → world_inv gs us w → gens_ok gs → ∃ gs' us', world_inv gs' us' w' ∧ gens_ok gs'.
Proof.
  induction 1 as [|w1 w2 c _ IH Ha Hr]; intros H Hg; [by exists gs, us|]. destruct (IH H Hg) as (gs1 & us1 & H1 & L1).
  destruct (call_ok gs1 us1 w1 c H1 Ha) as (w' & gs2 & us2 & E & H2 & L2). rewrite Hr in E. simplify_eq. exists gs2, us2.
  split; [done|]. by eapply slots_step_gens.
Qed.

Lemma start_gens n : gens_ok (replicate n 0%Z).
Proof. apply Forall_replicate. done. Qed.

(** C21: however sessions acquire, grow, share, release and reset slots, plan,
    commit, abort and drop copies, seal, pin and cache any page, destinations of
    plans included, and drain, with slots in range and products of lengths that
    fit [usize], and when no plan is aborted, or refused by its commit, while
    something else references one of its destinations: no call panics; the
    table references of a page are the number of places that map or reserve it
    (a dropped plan keeps its reservations); a page that is written has one
    such place; a mapped page is not handed out again; a page that nothing
    references is free or waits for the drain; and [check_invariants] accepts
    exactly when the table and cache references of each page add up in [u32]. *)
Theorem accounting_sound within n cap k v pages s w :
  slot_pool_new_paged within n cap k v pages = Done s → reach (start s) w →
  (∀ c, allowed w c → ∃ w', run_call w c = Some w') ∧
  ∃ p, sp_page_pool (w_slots w) = Some p ∧
    (∀ x m, pp_meta p !! x = Some m →
      pg_table_refs m = Z.of_nat (occ (mapped (w_slots w) ++ reserved w ++ w_lost w) x) ∧
      (pg_state m = Private → pg_table_refs m = 1%Z ∧ pg_cache_refs m = 0%Z) ∧
      (x ∈ mapped (w_slots w) → ¬ x ∈ pp_free_pages p ∧ ¬ x ∈ pp_reclaim_pending p) ∧
      (total_refs m = 0%Z → x ∈ pp_free_pages p ∨ x ∈ pp_reclaim_pending p)) ∧
    (check_invariants p = Some tt ↔ refs_fit p).
Proof.
  intros Hs Hr. destruct (reach_inv _ _ _ _ Hr (start_inv _ _ _ _ _ _ _ Hs) (start_gens n)) as (gs & us & H & _). split.
  { intros c Ha. destruct (call_ok gs us w c H Ha) as (w' & _ & _ & E & _). by exists w'. }
  destruct H as [[p G] _]. exists p. split; [apply (gd_pool _ _ _ _ _ _ G)|]. pose proof (gd_inv _ _ _ _ _ _ G) as Hp.
  split; [|by eapply check_invariants_exact]. intros x m Hm. pose proof (pi_page _ _ _ Hp x m Hm) as P. open_page P.
  rewrite !count_occ_app in *. split_and!.
  - lia.
  - intros S. by rewrite S in P_state.
  - intros Hx%occ_pos. rewrite P_free, P_pend. split; intros S; rewrite S in *; lia.
  - unfold total_refs. intros T. rewrite P_free, P_pend. destruct (pg_state m); try tauto; lia.
Qed.

(** ** Leases of slots *)

(** Runs that release the slot [id] [k] times. *)
Inductive runs (id : nat) : nat → World → World → Prop :=
| runs_nil w : runs id 0 w w
| runs_cons k w w1 w2 c : allowed w c → run_call w c = Some w1 → runs id k w1 w2 → runs id ((if releases w c id then 1 else 0) + k) w w2.

Lemma iter_bump k g : (0 ≤ g < 2 ^ 32)%Z → Nat.iter k bump g = ((g + Z.of_nat k) mod 2 ^ 32)%Z.
Proof.
  intros Hg. induction k as [|k IH]; simpl; [rewrite Z.add_0_r; symmetry; by apply Z.mod_small|].
  rewrite IH. unfold bump, wrapping_add. rewrite Zplus_mod_idemp_l. f_equal. lia.
Qed.

Lemma runs_gens id k w w' : runs id k w w' → ∀ gs us g, world_inv gs us w → gs !! id = Some g →
  ∃ gs' us', world_inv gs' us' w' ∧ gs' !! id = Some (Nat.iter k bump g) ∧ (k = 0 → us !! id = Some true → us' !! id = Some true).
Proof.
  induction 1 as [w|k w w1 w2 c Ha Hr _ IH]; intros gs us g H Hg; [by exists gs, us|].
  destruct (call_ok gs us w c H Ha) as (w1' & gs1 & us1 & E & H1 & _ & Hs). rewrite Hr in E. simplify_eq. destruct (Hs id) as [Es Eu]. rewrite Hg in Es.
  destruct (releases w c id); destruct (IH gs1 us1 _ H1 Es) as (gs2 & us2 & H2 & G2 & U2); exists gs2, us2; (split; [done|]); simpl.
  - split; [|done]. rewrite G2. f_equal. by rewrite <-Nat.iter_succ_r.
  - split; [done|]. auto.
Qed.

(** C22: a lease of a slot is accepted as long as its slot has not been released
    since, whatever the other sessions do, and refused without a change
    afterwards, until the generation has wrapped. *)
Theorem lease_exact within n cap k v pages s w s1 l releases_since w2 :
  slot_pool_new_paged within n cap k v pages = Done s → reach (start s) w → acquire_leased (w_slots w) = Some (s1, Some l) →
  runs (sl_id l) releases_since (mkWorld s1 (w_plans w) (w_lost w)) w2 → (Z.of_nat releases_since < 2 ^ 32)%Z →
  let stale := Err (StaleLease (sl_id l)) in
  validate_generation (w_slots w2) l = Some (if releases_since =? 0 then Ok tt else stale) ∧
  (releases_since ≠ 0 → ∀ tokens other pages, release_leased (w_slots w2) l = Some (w_slots w2, stale) ∧
    set_seq_len_leased (w_slots w2) l tokens = Some (w_slots w2, stale) ∧ share_prefix_leased (w_slots w2) l other pages = Some (w_slots w2, stale)).
Proof.
  intros Hs Hr Hl Hruns Hk stale. destruct (reach_inv _ _ _ _ Hr (start_inv _ _ _ _ _ _ _ Hs) (start_gens n)) as (gs & us & [[p G] HP] & Hg).
  unfold acquire_leased in Hl. destruct (acquire_good _ _ _ _ _ _ G) as (s' & p' & o & us' & E & G' & Ho). rewrite E in Hl. cbn [mbind option_bind] in Hl.
  destruct o as [i|]; [|done]. injection Hl as <- <-. destruct Ho as (Hi & -> & _). cbn [sl_id sl_generation] in *.
  assert (Hlt : i < length gs) by (rewrite <-(gd_us _ _ _ _ _ _ G); by eapply lookup_lt_Some). destruct (lookup_lt_is_Some_2 _ _ Hlt) as [g Eg].
  unfold slot_generation. rewrite (gd_gens _ _ _ _ _ _ G'), Eg. cbn [default id].
  destruct (runs_gens _ _ _ _ Hruns gs (<[i:=true]> us) g) as (gs2 & us2 & [[p2 G2] _] & Eg2 & Eu2); [split; [by exists p'|done] | done |].
  pose proof (proj1 (Forall_lookup _ _) Hg i g Eg) as Hrange. simpl in Hrange. rewrite (iter_bump _ _ Hrange) in Eg2.
  assert (V : validate_generation (w_slots w2) (mkLease i g) = Some (if releases_since =? 0 then Ok tt else stale)).
  { unfold validate_generation, slot_generation. cbn [sl_id sl_generation]. rewrite (gd_gens _ _ _ _ _ _ G2), (gd_used _ _ _ _ _ _ G2), Eg2. cbn [default id].
    destruct (Nat.eqb_spec releases_since 0) as [->|N].
    - rewrite Z.add_0_r, Z.mod_small, Z.eqb_refl by done. cbn [negb]. rewrite Eu2; [done | done |]. apply list_lookup_insert_eq. by eapply lookup_lt_Some.
    - rewrite (proj2 (Z.eqb_neq _ _)); [done|]. intros Heq. apply N.
      pose proof (Z.div_mod (g + Z.of_nat releases_since) (2 ^ 32) ltac:(lia)) as D. rewrite Heq in D.
      assert (Z.of_nat releases_since = 2 ^ 32 * ((g + Z.of_nat releases_since) / 2 ^ 32))%Z by lia. nia. }
  split; [exact V|]. intros N tokens other pgs. rewrite (proj2 (Nat.eqb_neq _ _) N) in V.
  unfold release_leased, set_seq_len_leased, share_prefix_leased, with_lease. rewrite V. done.
Qed.

(** ** Copy on write *)

Section memory.
Context {A : Type}.

(** What the pages hold: an entry per page and offset. *)
Definition memory : Type := nat → nat → A.
Implicit Types (mem : memory) (t : BlockTable) (copies : list CowCopy).

Definition put_entry mem (x o : nat) (a : A) : memory := λ x' o', if decide (x' = x ∧ o' = o) then a else mem x' o'.

(** The copies that the caller of [plan_cow] performs, in order. *)
Definition copy_pages mem copies : memory :=
  foldl (λ mem c x o, if decide (x = cw_dst_phys c ∧ o < cw_valid_prefix_tokens c) then mem (cw_src_phys c) o else mem x o) mem copies.

(** The entry of a position, as the kernels translate it. *)
Definition read_at mem t (pos : nat) : option A := x ← bt_pages t !! (pos / PAGE_TOKENS); Some (mem x (pos mod PAGE_TOKENS)).

Fixpoint write_at mem t (pos : nat) (data : list A) : memory :=
  match data with
  | [] => mem
  | a :: data => write_at (match bt_pages t !! (pos / PAGE_TOKENS) with Some x => put_entry mem x (pos mod PAGE_TOKENS) a | None => mem end) t (S pos) data
  end.

Lemma write_other t data : ∀ mem pos x o,
  (∀ q, pos ≤ q < pos + length data → bt_pages t !! (q / PAGE_TOKENS) = Some x → q mod PAGE_TOKENS ≠ o) → write_at mem t pos data x o = mem x o.
Proof.
  induction data as [|a data IH]; intros mem pos x o H; [done|]. cbn [write_at]. rewrite IH.
  - destruct (bt_pages t !! (pos / PAGE_TOKENS)) as [x'|] eqn:E; [|done]. unfold put_entry. case_decide as D; [|done]. destruct D as [-> ->].
    destruct (H pos); simpl; [lia | done | done].
  - intros q Hq. apply H. simpl. lia.
Qed.

(** Entries are written when no later position has the same place. *)
Lemma write_hit t data : ∀ mem pos i a x, data !! i = Some a → bt_pages t !! ((pos + i) / PAGE_TOKENS) = Some x →
  (∀ q, pos ≤ q < pos + length data → q ≠ pos + i → bt_pages t !! (q / PAGE_TOKENS) = Some x → q mod PAGE_TOKENS ≠ (pos + i) mod PAGE_TOKENS) →
  write_at mem t pos data x ((pos + i) mod PAGE_TOKENS) = a.
Proof.
  induction data as [|b data IH]; intros mem pos i a x Ha Hx H; [done|]. cbn [write_at]. destruct i as [|i]; simpl in Ha.
  - injection Ha as ->. rewrite write_other.
    + rewrite Nat.add_0_r in *. rewrite Hx. unfold put_entry. by rewrite decide_True.
    + intros q Hq Hq'. rewrite Nat.add_0_r in *. apply H; [simpl; lia | lia | done].
  - replace (pos + S i) with (S pos + i) in * by lia. apply IH; [done..|]. intros q Hq. apply H. simpl. lia.
Qed.

Lemma copies_other copies : ∀ mem x o, x ∉ map cw_dst_phys copies → copy_pages mem copies x o = mem x o.
Proof.
  induction copies as [|c copies IH]; intros mem x o Hx; [done|]. simpl in Hx. apply not_elem_of_cons in Hx as [N Hx].
  unfold copy_pages in *. simpl. rewrite IH by done. rewrite decide_False; [done|]. by intros [-> _].
Qed.

Lemma copies_hit copies : ∀ mem c o, NoDup (map cw_dst_phys copies) → c ∈ copies → (∀ c', c' ∈ copies → cw_src_phys c' ∉ map cw_dst_phys copies) →
  o < cw_valid_prefix_tokens c → copy_pages mem copies (cw_dst_phys c) o = mem (cw_src_phys c) o.
Proof.
  induction copies as [|c' copies IH]; intros mem c o Hnd Hc Hs Ho; [set_solver|]. simpl in *. apply NoDup_cons in Hnd as [N Hnd].
  unfold copy_pages in *. simpl. apply elem_of_cons in Hc as [->|Hc].
  - change (copy_pages (λ x o0, if decide (x = cw_dst_phys c' ∧ o0 < cw_valid_prefix_tokens c') then mem (cw_src_phys c') o0 else mem x o0) copies (cw_dst_phys c') o = mem (cw_src_phys c') o).
    rewrite copies_other by done. by rewrite decide_True.
  - rewrite IH; [|done|done| |done].
    + rewrite decide_False; [done|]. intros [E _]. apply (Hs c ltac:(set_solver)). rewrite E. set_solver.
    + intros c'' Hc''. specialize (Hs c'' ltac:(set_solver)). set_solver.
Qed.

Lemma occ_unique l i j x : occ l x ≤ 1 → l !! i = Some x → l !! j = Some x → i = j.
Proof.
  intros H Hi Hj. destruct (decide (i = j)) as [|N]; [done|]. pose proof (occ_insert l i x (S x) x Hi) as O.
  assert (K : x ∈ <[i:=S x]> l) by (apply (list_elem_of_lookup_2 _ j); by rewrite list_lookup_insert_ne). apply occ_pos in K.
  rewrite decide_True in O by done. rewrite decide_False in O by lia. lia.
Qed.

Lemma interval_elem ws we q : ws ≤ q < we → q / PAGE_TOKENS ∈ interval_pages ws we.
Proof.
  intros H. unfold interval_pages. apply elem_of_seq. assert (ws / PAGE_TOKENS ≤ q / PAGE_TOKENS) by (apply Nat.Div0.div_le_mono; lia).
  assert (q / PAGE_TOKENS ≤ (we - 1) / PAGE_TOKENS) by (apply Nat.Div0.div_le_mono; lia). lia.
Qed.

Lemma pos_split q r : q / PAGE_TOKENS = r / PAGE_TOKENS → q ≠ r → q mod PAGE_TOKENS ≠ r mod PAGE_TOKENS.
Proof. intros H N E. apply N. rewrite (Nat.div_mod_eq q PAGE_TOKENS), (Nat.div_mod_eq r PAGE_TOKENS), H, E. done. Qed.

(** One table [t] of a pool, whose other references are [held] and [res]. *)
Section cow.
Context (p p1 p2 : PagePool) (t : BlockTable) (ws : nat) (data : list A) (held res : list nat) (plan : CowPlan) (mem : memory).
Local Abbreviation copies := (cp_copies plan).
Local Abbreviation dsts := (map cw_dst_phys copies).
Local Abbreviation t2 := (mkTable (rebind (bt_pages t) copies) (bt_live_tokens t)).
Local Abbreviation mem2 := (write_at (copy_pages mem copies) t2 ws data).
Context (H : pool_inv p (bt_pages t ++ held) res) (H2 : pool_inv p2 (rebind (bt_pages t) copies ++ held) res).
Context (Hd : NoDup dsts) (Hl : NoDup (map cw_logical_page copies)) (Hok : Forall (copy_ok p1 t ws) copies).
Context (Hfresh : ∀ x, x ∈ dsts → (x ∉ bt_pages t ++ held ++ res) ∧ x ∈ pp_free_pages p).
Context (Hpriv : ∀ lp x, lp ∈ interval_pages ws (ws + length data) → rebind (bt_pages t) copies !! lp = Some x →
  ∃ m, pp_meta p2 !! x = Some m ∧ pg_state m = Private ∧ (x ∈ dsts ∨ pp_meta p !! x = Some m)).

(** A written page has no other place. *)
Lemma written_once q x : ws ≤ q < ws + length data → rebind (bt_pages t) copies !! (q / PAGE_TOKENS) = Some x →
  occ (rebind (bt_pages t) copies) x = 1 ∧ occ held x = 0 ∧ occ res x = 0.
Proof.
  intros Hq Hx. destruct (Hpriv _ x (interval_elem _ _ q Hq) Hx) as (m & Hm & S & _). pose proof (pi_page _ _ _ H2 x m Hm) as P. open_page P.
  rewrite S in *. rewrite count_occ_app in P_refs. pose proof (proj1 (occ_pos _ _) (list_elem_of_lookup_2 _ _ _ Hx)). lia.
Qed.

Lemma src_not_dst c : c ∈ copies → cw_src_phys c ∉ dsts.
Proof.
  intros Hc Hx. destruct (Hfresh _ Hx) as [N _]. apply N. apply elem_of_app. left. destruct (proj1 (Forall_forall _ _) Hok c Hc) as [E _].
  by eapply list_elem_of_lookup_2.
Qed.

(** Pages that others map, that a plan reserves or that a cache owns are as before. *)
Lemma others_unchanged x o : x ∈ held ++ res ∨ (∃ m, pp_meta p !! x = Some m ∧ (0 < pg_cache_refs m)%Z) → mem2 x o = mem x o.
Proof.
  intros Hx. rewrite write_other.
  - apply copies_other. intros Hi. destruct (Hfresh x Hi) as [N F]. destruct Hx as [Hx|(m & Hm & C)]; [apply N; set_solver|].
    pose proof (pi_page _ _ _ H x m Hm) as P. open_page P. apply P_free in F. rewrite F in P_state. lia.
  - intros q Hq Hq2. simpl in Hq2. exfalso. destruct (written_once q x Hq Hq2) as (_ & O1 & O2). destruct Hx as [Hx|(m & Hm & C)].
    + apply elem_of_app in Hx as [Hx%occ_pos|Hx%occ_pos]; lia.
    + destruct (Hpriv _ x (interval_elem _ _ q Hq) Hq2) as (m2 & _ & S & [Hi|Hm2]).
      * destruct (Hfresh x Hi) as [N F]. pose proof (pi_page _ _ _ H x m Hm) as P. open_page P. apply P_free in F. rewrite F in P_state. lia.
      * assert (m2 = m) as -> by congruence. pose proof (pi_page _ _ _ H x m Hm) as P. open_page P. rewrite S in P_state. lia.
Qed.

Lemma prefix_kept pos : pos < ws → read_at mem2 t2 pos = read_at mem t pos.
Proof.
  intros Hpos. unfold read_at. cbn [bt_pages]. destruct (rebind (bt_pages t) copies !! (pos / PAGE_TOKENS)) as [x|] eqn:Ex.
  - cbn [mbind option_bind]. rewrite write_other.
    2:{ intros q Hq Hq2. simpl in Hq2. destruct (written_once q x Hq Hq2) as (O & _). apply pos_split; [|lia].
        apply (occ_unique (rebind (bt_pages t) copies) _ _ x); [lia|done..]. }
    destruct (decide (pos / PAGE_TOKENS ∈ map cw_logical_page copies)) as [I|I].
    + apply list_elem_of_fmap in I as (c & Ec & I). destruct (proj1 (Forall_forall _ _) Hok c I) as (E1 & _ & E2 & _). rewrite Ec in *.
      rewrite rebind_eq in Ex by (done || by eapply lookup_lt_Some). injection Ex as <-. rewrite E1. cbn [mbind option_bind]. f_equal.
      apply copies_hit; [done | done | apply src_not_dst |]. rewrite E2. rewrite <-Ec. unfold PAGE_TOKENS.
      pose proof (Nat.div_mod_eq pos 128). pose proof (Nat.mod_upper_bound pos 128). lia.
    + rewrite rebind_ne in Ex by done. rewrite Ex. cbn [mbind option_bind]. f_equal. apply copies_other. intros Hi. apply (Hfresh x Hi).
      apply elem_of_app. left. by eapply list_elem_of_lookup_2.
  - cbn [mbind option_bind]. apply lookup_ge_None in Ex. rewrite length_rebind in Ex. by rewrite (proj2 (lookup_ge_None _ _) Ex).
Qed.

Lemma data_written i a : data !! i = Some a → (ws + i) / PAGE_TOKENS < length (bt_pages t) → read_at mem2 t2 (ws + i) = Some a.
Proof.
  intros Ha Hi. rewrite <-(length_rebind _ copies) in Hi. destruct (lookup_lt_is_Some_2 _ _ Hi) as [x Ex]. unfold read_at. cbn [bt_pages]. rewrite Ex.
  cbn [mbind option_bind]. f_equal. apply write_hit; [done | done |]. intros q Hq N Hq2. simpl in Hq2. apply pos_split; [|done].
  destruct (written_once q x Hq Hq2) as (O & _). apply (occ_unique (rebind (bt_pages t) copies) _ _ x); [lia|done..].
Qed.
End cow.

End memory.

(** C20: a write of [data] at [write_start] of a slot, prepared by planning the
    copies, performing them and committing: the commit succeeds, the slot reads
    what it read before the write start and then [data], and nothing else
    changes: not what other slots read, not the pages that a cache owns, not
    the pages that other plans reserve.  The state is reached by calls that
    [allowed] admits. *)
Theorem cow_isolation {A} within n cap k v pages s w slot write_start (data : list A) s1 plan (mem : memory) :
  slot_pool_new_paged within n cap k v pages = Done s → reach (start s) w → data ≠ [] →
  plan_cow_for_slot (w_slots w) slot write_start (write_start + length data) = Some (s1, Ok plan) →
  ∃ s2 t t2, commit_cow_for_slot s1 slot plan = Some (s2, Ok tt) ∧
    block_table (w_slots w) slot = Some t ∧ block_table s2 slot = Some t2 ∧ length (bt_pages t2) = length (bt_pages t) ∧
    let mem2 := write_at (copy_pages mem (cp_copies plan)) t2 write_start data in
    (∀ pos, pos < write_start → read_at mem2 t2 pos = read_at mem t pos) ∧
    (∀ i a, data !! i = Some a → (write_start + i) / PAGE_TOKENS < length (bt_pages t) → read_at mem2 t2 (write_start + i) = Some a) ∧
    (∀ other t', other ≠ slot → block_table (w_slots w) other = Some t' →
      block_table s2 other = Some t' ∧ ∀ pos, read_at mem2 t' pos = read_at mem t' pos) ∧
    (∀ x o, x ∈ reserved w ∨ (∃ p m, sp_page_pool (w_slots w) = Some p ∧ pp_meta p !! x = Some m ∧ (0 < pg_cache_refs m)%Z) → mem2 x o = mem x o).
Proof.
  intros Hs Hr Hdata Hplan. destruct (reach_inv _ _ _ _ Hr (start_inv _ _ _ _ _ _ _ Hs) (start_gens n)) as (gs & us & [[p G] _] & _).
  assert (Hlen : write_start < write_start + length data) by (destruct data; [done | simpl; lia]).
  pose proof Hplan as Hplan'. unfold plan_cow_for_slot in Hplan'. rewrite (gd_pool _ _ _ _ _ _ G) in Hplan'.
  destruct (block_table (w_slots w) slot) as [t|] eqn:Et; [|done]. destruct (table_of_slot _ _ _ _ _ _ G slot t Et) as [Et' Hid].
  destruct (good_at _ _ _ _ _ _ slot G Hid) as (ot & Eo & H). assert (ot = Some t) as -> by congruence. simpl in H.
  destruct (plan_cow p t write_start (write_start + length data)) as [[p1 r]|] eqn:Ep; [|done]. cbn [mbind option_bind] in Hplan'. injection Hplan' as <- ->.
  destruct (cow_pool p t write_start _ _ _ p1 plan H Hlen Ep) as (p2 & Ec & H2 & Hd & Hl & Hfresh & Hok & Hpriv).
  assert (Etp : block_table (put_pool (w_slots w) p1) slot = Some t) by done.
  unfold commit_cow_for_slot. rewrite Etp. cbn [sp_page_pool put_pool]. rewrite Ec. cbn [mbind option_bind].
  eexists _, t, (mkTable (rebind (bt_pages t) (cp_copies plan)) (bt_live_tokens t)). split; [done|]. split; [done|].
  split; [unfold block_table; simpl; by rewrite list_lookup_insert_eq by (by apply lookup_lt_Some in Et')|]. split; [apply length_rebind|].
  cbn zeta. split_and!.
  - intros pos. eapply prefix_kept; eassumption.
  - intros i a. eapply data_written; eassumption.
  - intros other t' N Eother. unfold block_table in *. simpl. rewrite list_lookup_insert_ne by done. split; [done|].
    destruct (sp_block_tables (w_slots w) !! other) as [o|] eqn:Eo'; [|done]. subst o. intros pos. unfold read_at. destruct (bt_pages t' !! (pos / PAGE_TOKENS)) as [x|] eqn:Ex; [|done].
    cbn [mbind option_bind]. f_equal. eapply others_unchanged; try eassumption. left. apply elem_of_app. left. apply elem_of_app. left.
    eapply other_table; [exact Eo' | done | by eapply list_elem_of_lookup_2].
  - intros x o Hx. eapply others_unchanged; try eassumption. destruct Hx as [Hx|(p' & m & Ep' & Hm & C)]; [left; set_solver|]. right.
    rewrite (gd_pool _ _ _ _ _ _ G) in Ep'. injection Ep' as <-. by exists m.
Qed.

(** ** Concrete runs *)

Definition demo_slots : SlotPool :=
  match slot_pool_new_paged (λ _, true) 2 512 8 4 6 with Done s => s | _ => slots_init [] 0 0 0 0 None end.

Definition step_or_stay (w : World) (c : Call) : World := default w (run_call w c).

Fixpoint all_allowed (w : World) (cs : list Call) : Prop :=
  match cs with
  | [] => True
  | c :: cs => allowed w c ∧ run_call w c = Some (step_or_stay w c) ∧ all_allowed (step_or_stay w c) cs
  end.

Lemma reach_stay w0 w c : reach w0 w → allowed w c → reach w0 (step_or_stay w c).
Proof. intros Hr Ha. unfold step_or_stay. destruct (run_call w c) eqn:E; [by eapply reach_step | done]. Qed.

Lemma reach_calls cs : ∀ w0 w, reach w0 w → all_allowed w cs → reach w0 (foldl step_or_stay w cs).
Proof. induction cs as [|c cs IH]; intros w0 w Hr; [done|]. intros (H1 & H2 & H3). apply IH; [|done]. by eapply reach_step. Qed.

Ltac run_demo := apply reach_calls; [constructor|]; vm_compute; repeat split; first [done | lia | (intros Hin; inversion Hin)].

(** Slot 1 shares the two pages of slot 0 and has a third page of its own; a
    cache owns the first. *)
Definition demo_world : World := foldl step_or_stay (start demo_slots) [Acquire; SetSeqLen 0 256; Acquire; SharePrefix 0 1 2; SetSeqLen 1 300; AddCacheRef 0].

Lemma demo_new : slot_pool_new_paged (λ _, true) 2 512 8 4 6 = Done demo_slots.
Proof. vm_compute. reflexivity. Qed.

Lemma demo_reach : reach (start demo_slots) demo_world.
Proof. run_demo. Qed.

Example demo_tables : (bt_pages <$> block_table (w_slots demo_world) 0) = Some [0; 1] ∧ (bt_pages <$> block_table (w_slots demo_world) 1) = Some [0; 1; 2].
Proof. by vm_compute. Qed.

(** Slot 1 plans a copy of its second page; the destination is cached and
    leased while the plan holds it, and then committed; a plan of slot 0 is
    aborted. *)
Definition demo_planned : World := step_or_stay (step_or_stay (step_or_stay demo_world (PlanCow 1 200 203)) (AddCacheRef 3)) (AddInflightRef 3).
Definition demo_pinned : World := step_or_stay (step_or_stay (step_or_stay demo_planned (CommitCow 1 0)) (PlanCow 0 10 20)) (AbortCow 0).

Lemma demo_pinned_reach : reach (start demo_slots) demo_pinned.
Proof.
  apply reach_stay; [apply reach_stay; [apply reach_stay|exact I]|].
  - apply reach_stay; [apply reach_stay; [apply reach_stay|]|]; first [exact demo_reach | exact I].
  - exists (default (mkPlan [] false) (w_plans demo_planned !! 0)). split; [vm_compute; reflexivity|]. intros R. exfalso. revert R. vm_compute. intros R. exact (R eq_refl).
  - exists (default (mkPlan [] false) (w_plans (step_or_stay (step_or_stay demo_planned (CommitCow 1 0)) (PlanCow 0 10 20)) !! 0)).
    split; [vm_compute; reflexivity|]. apply (bool_decide_unpack _). vm_compute. exact I.
Qed.

Example demo_pinned_pages :
  (p ← sp_page_pool (w_slots demo_pinned); m ← pp_meta p !! 3; Some (pg_state m, pg_table_refs m, pg_cache_refs m, pg_inflight_refs m)) = Some (Sealed, 1, 1, 1)%Z ∧
  (bt_pages <$> block_table (w_slots demo_pinned) 1) = Some [0; 3; 2].
Proof. by vm_compute. Qed.

Lemma accounting_sound_witness :
  slot_pool_new_paged (λ _, true) 2 512 8 4 6 = Done demo_slots ∧ reach (start demo_slots) demo_pinned ∧
  (∃ w', run_call demo_pinned (PlanCow 1 200 203) = Some w') ∧
  ∃ p, sp_page_pool (w_slots demo_pinned) = Some p ∧ check_invariants p = Some tt.
Proof.
  destruct (accounting_sound (λ _, true) 2 512 8 4 6 demo_slots demo_pinned demo_new demo_pinned_reach) as [Hr (p & E & _ & Hc)].
  split; [exact demo_new|]. split; [exact demo_pinned_reach|]. split; [by apply Hr|]. exists p. split; [exact E|]. apply Hc. vm_compute in E. injection E as <-.
  unfold refs_fit. apply (bool_decide_unpack _). vm_compute. exact I.
Defined.

Definition demo_memory : memory := λ x o, (Z.of_nat x * 1000 + Z.of_nat o)%Z.

(** Slot 1 writes three entries at 200, in its shared second page. *)
Lemma cow_isolation_witness : ∃ s1 plan s2 t2,
  plan_cow_for_slot (w_slots demo_world) 1 200 203 = Some (s1, Ok plan) ∧ map cw_src_phys (cp_copies plan) = [1] ∧
  commit_cow_for_slot s1 1 plan = Some (s2, Ok tt) ∧ block_table s2 1 = Some t2 ∧
  let mem2 := write_at (copy_pages demo_memory (cp_copies plan)) t2 200 [7; 8; 9]%Z in
  read_at mem2 t2 201 = Some 8%Z ∧ (∀ o, mem2 0 o = demo_memory 0 o).
Proof.
  destruct (plan_cow_for_slot (w_slots demo_world) 1 200 203) as [[s1 [plan|e]]|] eqn:E; [|vm_compute in E; discriminate..].
  destruct (cow_isolation (λ _, true) 2 512 8 4 6 demo_slots demo_world 1 200 [7; 8; 9]%Z s1 plan demo_memory demo_new demo_reach ltac:(done) E)
    as (s2 & t & t2 & Ec & Et & Et2 & _ & _ & Hw & _ & Hf).
  exists s1, plan, s2, t2. split; [reflexivity|]. split; [vm_compute in E; injection E as _ <-; reflexivity|]. split; [exact Ec|]. split; [exact Et2|]. split.
  - apply (Hw 1 8%Z); [reflexivity|]. vm_compute in Et. injection Et as <-. vm_compute. lia.
  - intros o. apply Hf. right. eexists _, _. split; [vm_compute; reflexivity|]. split; [vm_compute; reflexivity | vm_compute; reflexivity].
Defined.

(** Slot 0 is leased, released and acquired by another session. *)
Definition demo_leased : World := start (match acquire_leased demo_slots with Some (s, _) => s | None => demo_slots end).
Definition demo_again : World := step_or_stay (step_or_stay demo_leased (Release 0)) Acquire.

Lemma demo_lease : acquire_leased demo_slots = Some (w_slots demo_leased, Some (mkLease 0 0)).
Proof. vm_compute. reflexivity. Qed.

Lemma demo_runs : runs 0 1 demo_leased demo_again.
Proof.
  apply (runs_cons 0 0 demo_leased (step_or_stay demo_leased (Release 0)) demo_again (Release 0)); [vm_compute; lia | vm_compute; reflexivity |].
  apply (runs_cons 0 0 _ demo_again demo_again Acquire); [done | vm_compute; reflexivity | constructor].
Qed.

Lemma lease_exact_witness : runs 0 1 demo_leased demo_again ∧ sp_in_use (w_slots demo_again) !! 0 = Some true ∧
  validate_generation (w_slots demo_again) (mkLease 0 0) = Some (Err (StaleLease 0)).
Proof.
  split; [exact demo_runs|]. split; [vm_compute; reflexivity|].
  apply (lease_exact (λ _, true) 2 512 8 4 6 demo_slots (start demo_slots) (w_slots demo_leased) (mkLease 0 0) 1 demo_again demo_new (reach_refl _) demo_lease demo_runs).
  lia.
Defined.

(** ** What the code does beyond its comments *)

(** A page that only a cache owns is not sealed by attaching a table. *)
Example attached_cache_only :
  let w := foldl step_or_stay demo_world [Release 0; Release 1; Acquire; SharePublished 0 [0]] in
  (p ← sp_page_pool (w_slots w); m ← pp_meta p !! 0; Some (pg_state m, pg_table_refs m)) = Some (CacheOnly, 1%Z).
Proof. vm_compute. reflexivity. Qed.

(** A plan committed to a slot that has no table any more keeps its pages. *)
Example commit_without_table_leaks :
  let w := foldl step_or_stay demo_world [PlanCow 1 200 203; Release 1; CommitCow 1 0] in
  w_plans w = [] ∧ mapped (w_slots w) = [0; 1] ∧ (p ← sp_page_pool (w_slots w); m ← pp_meta p !! 3; Some (pg_state m, pg_table_refs m)) = Some (Private, 1%Z).
Proof. vm_compute. done. Qed.

(** Aborting a plan frees a destination that has an in-flight lease, and
    [check_invariants] then panics: the call that [allowed] leaves out. *)
Example abort_frees_leased :
  let w := foldl step_or_stay demo_world [PlanCow 1 200 203; AddInflightRef 3; AbortCow 0] in
  (p ← sp_page_pool (w_slots w); m ← pp_meta p !! 3; Some (pg_state m, pg_inflight_refs m, check_invariants p)) = Some (Free, 1%Z, None).
Proof. vm_compute. reflexivity. Qed.

(** A commit accepts a table whose pages were released and allocated again. *)
Example commit_after_reallocation :
  let w := foldl step_or_stay (start demo_slots) [Acquire; SetSeqLen 0 100; SealPage 0; PlanCow 0 50 60; ResetSlot 0; SetSeqLen 0 100] in
  (bt_pages <$> block_table (w_slots w) 0) = Some [0] ∧
  (plan ← w_plans w !! 0; '(_, r) ← commit_cow_for_slot (w_slots w) 0 plan; Some r) = Some (Ok tt).
Proof. vm_compute. done. Qed.
